(* ===== verification/_CoqProject ===== *)
-Q . S2P
Prelude.v
Store.v
Token.v
LexInt.v
Deny.v
Cap.v
Fun.v
Hash.v
HashInv.v
HashOps.v
HashTab.v
Paint.v
Ast.v
BuildFlagSet.v
Ifdef.v
Id.v
Symtab.v
SymUses.v
Alias.v
TypeAlias.v
TypeAssume.v
Viewpoint.v
PonyList.v
Stack.v
MessageQ.v
Pool.v
PageMap.v
Chunk.v
ChunkSort.v
Heap.v
HeapInv.v
HeapAlloc.v
HeapSweep.v
HeapGc.v
HeapEnd.v
Sum.v
ObjectMap.v
Gc.v
GcCount.v
GcTrace.v
GcMsg.v
GcRound.v
GcHeap.v
GcHeapSample.v
Orca.v
OrcaInv.v
OrcaSpec.v
OrcaSample.v
Cycle.v
CycleScan.v
CycleDetect.v
CycleSample.v
