(* ===== verification/Prelude.v ===== *)
(** * SpacePony: a verification of the compiler's type modifiers and tables and of the runtime's memory management

    SpacePony is a compiler ([src/libponyc]) for an actor language with reference
    capabilities and the C runtime ([src/libponyrt]) that its programs link to.  The
    compiler parses sources into one tree type ([ast/]), checks names, imports and build
    conditions ([ast/id.c], [pass/import.c], [pkg/]), resolves and checks types whose parts
    carry a capability and an ephemerality ([type/]), computes the reachable types and
    methods and lays out their vtables ([reach/]) and generates code ([codegen/]).  In the
    runtime, actors pass messages through lock-free queues ([actor/]) and each has a heap
    ([mem/heap.c]) whose chunks come from a pool ([mem/pool.c]) and are found through a page
    map ([mem/pagemap.c]).  Actors count the references to objects that they send to each
    other ([gc/]), so that each collects its heap alone.  Both halves use the containers of
    [src/libponyrt/ds].  The development models the parts whose correctness is a matter of
    computation.

    ** Foundations

    - [Prelude.v]: 64-bit words as [Z] with the wrap-around written out ([add64], [shl64],
      ..., in the scope [c_scope]); [outcome], the result of C code: a value, a failed
      assertion ([Abort]), the end of the process because the system has no memory ([Exit])
      or exhausted fuel ([NoFuel]); [while]; the lemmas on words and lists, with the hint and
      rewrite databases that the other files share.
    - [Store.v]: stores of cells with addresses, for code that mutates shared structure.
    - [Fun.v] ([ds/fun.c]): the integer hash is injective; rounding up to a power of two.
    - [Hash.v], [HashInv.v], [HashOps.v] ([ds/hash.c]): the Robin Hood hash map with its item
      bitmap.  [Hash.v] translates the operations; [HashInv.v] has the shape of a map, the
      order of probe lengths ([robin]), the correctness of the search and of the iteration;
      [HashOps.v] proves what every operation does to the contents, a permutation of items
      with distinct keys.  The comparison and hash functions of a map are the interface
      [HashKeys].
    - [HashTab.v] ([ds/hash.h]): the tables that the macro [DEFINE_HASHMAP] defines, as finite
      maps with an order of enumeration, over the interface [TabKeys].
    - [PonyList.v] ([ds/list.c]): linked lists mutated in place, in an explicit store.
    - [Stack.v] ([ds/stack.c]): chunked stacks, as a refinement of lists of pointers.

    ** The compiler

    - [Token.v] ([ast/token.h]): the enumeration of token identifiers, with the integer
      value of each.
    - [LexInt.v] ([ast/lexint.c]): 128-bit literals.  Arithmetic, bit operations and shifts
      are exact modulo 2^128; multiplication and division end; [lexint_accum] detects
      overflow; the conversion to a double is correctly rounded.
    - [Id.v] ([ast/id.c]): [check_id] accepts a grammar; the kinds of names are disjoint.
    - [Ast.v] ([ast/ast.c]): the tree interface the operations on types use.
    - [Symtab.v], [SymUses.v] ([ast/symtab.c], the scopes of [ast/ast.c], [pass/import.c],
      [ffi_get_decl] of [pkg/ifdef.c]): symbol tables with lookups without case, the flow
      status of names through branches, imports, the cache of foreign declarations.  Strings
      are the interface [CStrings].
    - [BuildFlagSet.v], [Ifdef.v] ([pkg/buildflagset.c], [pkg/ifdef.c],
      [pkg/platformfuns.c]): the enumeration of build configurations and the evaluation of
      conditions on them.
    - [Deny.v]: a specification of capabilities that does not look at the code: what a
      reference permits, and what it denies to other references of its actor and of other
      actors.  Subtyping, coexistence and the view of a field through an origin (its least
      admissible supertype) follow from that.
    - [Cap.v] ([type/cap.c], on tokens): subcapability, constraint, bound and compatibility
      tests, viewpoint adaptation.  On single capabilities subtyping and views are those of
      [Deny.v] (with [nhb], the diagram of the language); generic capabilities are the sets
      of their instantiations, and a generic view is exactly the set of their views.
    - [Alias.v] ([type/alias.c], [type/cap.c] on trees, [type/assemble.c]): alias, consume,
      recover, chain and unisolate a type.  Type aliases and the compatibility of
      intersections are interfaces ([TypeAliases], [CompatTypes]).  The properties are
      proved for types of any shape and depth through one induction scheme ([cap_map]): an
      operation that changes the leaves in a relation [R] changes the tree in its lifting
      [cap_rel R].  An alias is the least supertype that coexists with the original, in the
      sense of [Deny.v].
    - [TypeAlias.v] ([type/typealias.c]): unfolding an alias, with its guard against cycles;
      an instance of [TypeAliases].  Reification is the interface [Reify].
    - [TypeAssume.v] ([type/typeassume.c]): the stacks of queries in force and the structural
      matcher that finds a query among them.
    - [Viewpoint.v] ([type/viewpoint.c], [sendable] of [type/alias.c]): the types of fields
      seen through a type, guarded by [TypeAssume.v]; sendability.
    - [Paint.v] ([reach/paint.c]): vtable colouring.  Two methods of one type never share a
      slot, a slot fits in the vtable and a name has one slot in all types.  The order in
      which the table of names is enumerated is the interface [NameTable].

    ** The runtime

    - [MessageQ.v] ([actor/messageq.c], message allocation of [actor/actor.c]): a message
      queue as a system of threads that take atomic steps.  Every execution is one of a
      first-in first-out queue with a sleep bit (linearizability); messages keep their
      order, a sleeping consumer is woken once, a queue drains.
    - [Pool.v] ([mem/pool.c]): the per-thread size classes, the blocks and the lists that
      threads share.  In every history objects are disjoint, and every byte is in an object,
      free, or lost by a reallocation that shrinks an object of pages to a size class, which
      the reachable states account for ([loses]); operations succeed.  Mapping memory is the
      interface [Mmap].
    - [PageMap.v] ([mem/pagemap.c]): the radix tree from pages to chunks, whose nodes threads
      install with compare and swap; linearizable updates and lookups.
    - [Chunk.v] ([mem/heap.c], on one chunk): the flags in the low bits of a chunk's pointer,
      the masks of slots; marking, taking a slot, sweeping the masks.  The [view] of a chunk
      says what they mean, in the same way for small and large chunks.
    - [ChunkSort.v] ([mem/heap_chunk_sorting.h]): the merge sort of free chunks.
    - [Heap.v] ([mem/heap.c], on whole heaps): allocation, recycling, reallocation,
      finalisers, sweeping, the end of a collection, teardown, over the interfaces
      [PoolOps] and [PageMapOps] (what [Pool.v] and [PageMap.v] promise to one owner) and
      [Finalisers] (a finaliser is what it allocates).
    - [HeapInv.v]: well-formed heaps ([world]): chunks in the lists that fit them, the blocks
      and chunk records exactly the pool's objects that the heap owns, the page map exact.
      [HeapAlloc.v]: allocation preserves it and adds one object.  [HeapSweep.v]: finalisers,
      the sweep of a list, merging and destroying lists.  [HeapGc.v]: a collection keeps
      exactly the marked objects and finalises the others once, also when finalisers
      allocate.  [HeapEnd.v]: when no finaliser allocates, teardown finalises every object
      once and gives everything back; heaps on which the properties are evaluated, one of
      them with a finaliser that allocates, for which [ponyint_heap_final] leaves out another
      ([heap_final_skips]: [chunk_list] follows the [next] fields as they are when it reads
      them).
    - [Sum.v]: sums over lists and finite maps, in which balances of counts are stated.
    - [ObjectMap.v] ([gc/objectmap.c], [gc/actormap.c], [gc/delta.c]): the tables of counts of
      an actor, finite maps whose order of enumeration is the interface [Enumeration].
    - [Gc.v] ([gc/gc.c], [gc/trace.c]): the handlers of each kind of round (send, receive,
      mark, acquire, release), tracing with its stack, the ends of rounds and the handlers of
      the messages of the collector.  The heap that is marked is the interface [MarkHeap]
      with the laws [MarkHeapLaws]; the trace functions of types, which the compiler
      generates, are [Types], and what they read is an [object_memory].
    - [GcCount.v]: the counts of a key (an actor, or an object of an actor) and what each
      handler does to them.  [GcTrace.v]: any part of a round moves the count of every key
      that was seen, once ([traced]); rounds that send or receive end.  [GcMsg.v]: what the
      messages of acquisition and of a sweep carry.  [GcRound.v]: whole rounds.
    - [GcHeap.v] ([try_gc] of [actor/actor.c]): a heap of [Heap.v] is a [MarkHeap], so that a
      collection, from the roots to the end of the sweep, keeps the objects that others
      count.  [GcHeapSample.v] is one, evaluated.
    - [Orca.v], [OrcaInv.v], [OrcaSpec.v]: systems of actors that create actors, send,
      receive, collect and push the messages of a round one by one, in any order
      ([run_op], [reach]).  In every system that is reached no assertion of the counting
      fails and no count wraps around, and what an owner has counted covers what others have
      and what is in flight, for every part of its queue that it has handled.
      [OrcaSample.v]: a system of two actors, and systems that show the findings.
    - [Cycle.v] ([gc/cycle.c]): the cycle detector, as what it does with one message after the
      other: views of actors and their deltas, trial deletion, perceived cycles and their
      confirmation, collection.  [CycleScan.v], [CycleDetect.v]: detection from a view ends
      without a failed assertion and perceives exactly the reached views whose counts come
      from each other ([cycle_spec], [cycle_isolated]), leaving all other counts and colours
      as they were.  [CycleSample.v]: cycles of two actors, collected and expired.

    ** Conventions

    A pointer to an opaque object is a [Z] with [NULL = 0]; a function with in-out
    parameters takes and returns them; code that mutates shared structure works on
    a store, code that owns what it mutates (maps, painter, stacks, copied trees) is state
    passing.  The contents of uninitialised memory are a parameter of the definitions that
    can see them.  The 64-bit branch of the platform conditionals is modelled, without
    runtime statistics, sanitizers, tracing and systematic testing.  Assertions are enabled,
    in the runtime too.  Threads of [MessageQ.v] and [PageMap.v] take sequentially consistent
    steps, one per access to shared memory; the shared lists of [Pool.v] change atomically.

    ** Fuel

    Every loop or recursion that is not structural takes fuel computed from the data, and
    the properties say that it is enough: [lexint_mul64] 64 steps (the bits of the
    multiplier), [lexint_div64] 128 (bits 127 to 0); the loops over a map its size, or one
    step more (an insertion can displace the item of every bucket once), and two nested
    insertions, because a table that has just been enlarged eight times has room for its
    own items; the loops on lists one step more than the number of cells of the store; the
    iteration over a mask 32, one per bit; the walk over the chunks of a heap the length of
    the list and twice the chunks there are; the sort the length of the list (a run at least
    doubles in a pass); [pool_get] 2 (after one refill an object is there); an update of a
    range of pages 8 steps per page; a scan of the cycle detector one step per reference of
    the views.  Tracing takes its fuel as an argument: [sending_ends]
    says that there is enough when the memory is finite and what no heap has is not cyclic;
    marking need not end (a finding).  The operations on types, viewpoints and conditions
    take their fuel as an argument; their properties hold for every fuel above the rank of
    the type, or for all fuels from some point on ([eventually]).

    ** Not modelled

    Lexer and parser (text processing and a macro-defined grammar), the tree store behind
    [ast.c] (reference counts, sharing), nominal subtyping, reification and lookup, the
    passes and the expression checker, the rest of the reachability pass, code generation
    (calls into LLVM), compile-time evaluation (C++), packages, plugins, options and tools;
    and of the runtime the scheduler, the behaviour loop of actors, asynchronous I/O and
    platform code; the actors' side of the protocol of the cycle detector, so that the
    systems of [Orca.v] do not destroy actors.  Of the modelled files: SipHash and the 32-bit
    branches ([fun.c]), [fill_ratio] and [alloc_size] ([hash.c]), the debugging output and
    the releasing of memory ([paint.c]), freeing symbol tables; the configuration of the
    collector and its multiplication of doubles are parameters of [Heap.v];
    [buildflagset_configcount] counts in exact integers, where the code has a double (the
    same number below 2^1024).  The rounds of
    [pony_gc_acquire] and [pony_gc_release] have definitions but are no operation of
    [Orca.v].  Marks are 32 bits wide: the properties of [OrcaSpec.v] hold for the first
    [max_rounds] rounds of a system.  What the receiver of a message traces was counted by its
    sender, which capabilities guarantee and [allowed] requires.

    ** Plan

    The protocol between the actors of [Orca.v] and the cycle detector, whose premise
    ([scannable]) it is to keep; [hashmap_optimize]; the compatibility
    of types ([compattype.c], [safeto.c]). *)
From Stdlib Require Export ZArith Lia Bool.
From stdpp Require Export base decidable option list numbers relations.
#[global] Set Default Goal Selector "!".

(** ** Machine words

    A C [uint64_t] (and, on the modelled 64-bit targets, a [size_t]) is a [Z]
    in [[0, 2^64)].  The operators below are the C ones, with the
    wrap-around written out. *)

Declare Scope c_scope.
Delimit Scope c_scope with c.

Definition wrap (w x : Z) : Z := (x `mod` 2 ^ w)%Z.
Definition u64 (x : Z) : Z := wrap 64 x.
Definition u32 (x : Z) : Z := wrap 32 x.
Definition u8 (x : Z) : Z := wrap 8 x.

Definition add64 (x y : Z) : Z := u64 (x + y).
Definition sub64 (x y : Z) : Z := u64 (x - y).
Definition shl64 (x n : Z) : Z := u64 (Z.shiftl x n).
Definition shr64 (x n : Z) : Z := Z.shiftr x n.
Definition not64 (x : Z) : Z := u64 (Z.lnot x).

Notation "x ⊞ y" := (add64 x y) (at level 50, left associativity) : c_scope.
Notation "x ⊟ y" := (sub64 x y) (at level 50, left associativity) : c_scope.
Notation "x <<! n" := (shl64 x n) (at level 35, no associativity) : c_scope.
Notation "x >>! n" := (shr64 x n) (at level 35, no associativity) : c_scope.

(** A pointer to an opaque object is a [Z]. *)
Definition NULL : Z := 0%Z.

(** The range of a 64-bit word. *)
Definition is_u64 (x : Z) : Prop := (0 <= x < 2 ^ 64)%Z.

(** The value of a C comparison used as an integer. *)
Definition bool_to_u64 (b : bool) : Z := if b then 1%Z else 0%Z.

(** ** Outcomes

    A function that asserts either returns a value or stops the program:
    [pony_assert] is always enabled in the compiler ([PONY_ALWAYS_ASSERT]).  [Exit] is the
    end of the process because the system has no memory left.  [NoFuel] is no outcome of the
    code: it says that a bounded execution of the model was cut short. *)
Inductive outcome (A : Type) : Type :=
| Ret (a : A)
| Abort
| Exit
| NoFuel.
Arguments Ret {A} a.
Arguments Abort {A}.
Arguments Exit {A}.
Arguments NoFuel {A}.

#[export] Instance outcome_ret : MRet outcome := @Ret.
#[export] Instance outcome_bind : MBind outcome := fun A B f m =>
  match m with Ret a => f a | Abort => Abort | Exit => Exit | NoFuel => NoFuel end.

#[export] Instance outcome_eq_dec `{EqDecision A} : EqDecision (outcome A).
Proof. solve_decision. Defined.

(** Left-to-right traversal of a list with an operation that may stop. *)
Fixpoint mapO {A B : Type} (f : A -> outcome B) (l : list A) : outcome (list B) :=
  match l with
  | [] => Ret []
  | x :: l => y ← f x; ys ← mapO f l; Ret (y :: ys)
  end.

Fixpoint foldO {A B : Type} (f : A -> B -> outcome A) (a : A) (l : list B) : outcome A :=
  match l with
  | [] => Ret a
  | b :: l => a ← f a b; foldO f a l
  end.

(** ** Loops

    [while fuel cond body s] runs the C loop [while(cond) body] from [s];
    [None] means that the fuel did not suffice. *)
Fixpoint while {S : Type} (fuel : nat) (cond : S -> bool) (body : S -> S)
    (s : S) : option S :=
  if cond s then
    match fuel with
    | O => None
    | Datatypes.S fuel => while fuel cond body (body s)
    end
  else Some s.

(** ** Generic lemmas *)
Section word_lemmas.
Local Open Scope Z_scope.

Lemma u64_range x : is_u64 (u64 x).
Proof. unfold is_u64, u64, wrap. apply Z.mod_pos_bound. lia. Qed.

Lemma u64_id x : is_u64 x -> u64 x = x.
Proof. intros H. unfold u64, wrap. apply Z.mod_small, H. Qed.

Lemma wrap_testbit w x i :
  0 <= w -> 0 <= i -> Z.testbit (wrap w x) i = (i <? w) && Z.testbit x i.
Proof.
  intros Hw Hi. unfold wrap. destruct (Z.ltb_spec i w).
  - by rewrite Z.mod_pow2_bits_low by lia.
  - by rewrite Z.mod_pow2_bits_high by lia.
Qed.

Lemma testbit_high w x i : 0 <= x < 2 ^ w -> w <= i -> Z.testbit x i = false.
Proof.
  intros Hx Hi. destruct (decide (0 <= w)) as [Hw|Hw].
  - rewrite <- (Z.mod_small x (2 ^ w)) by done. by apply Z.mod_pow2_bits_high.
  - rewrite Z.pow_neg_r in Hx by lia. lia.
Qed.

Lemma bits_lt w x :
  0 <= w -> 0 <= x -> (forall i, w <= i -> Z.testbit x i = false) -> x < 2 ^ w.
Proof.
  intros Hw Hx H. enough (x = x mod 2 ^ w) as ->.
  { apply Z.mod_pos_bound. lia. }
  { apply Z.bits_inj'. intros i Hi. destruct (decide (i < w)).
    - by rewrite Z.mod_pow2_bits_low by lia.
    - rewrite Z.mod_pow2_bits_high by lia. apply H. lia. }
Qed.

Lemma lor_lt w x y :
  0 <= w -> 0 <= x < 2 ^ w -> 0 <= y < 2 ^ w -> 0 <= Z.lor x y < 2 ^ w.
Proof.
  intros Hw Hx Hy. assert (0 <= Z.lor x y) by (rewrite Z.lor_nonneg; lia).
  split; [done|]. apply bits_lt; [done..|]. intros i Hi.
  by rewrite Z.lor_spec, !(testbit_high w) by done.
Qed.

Lemma land_ones_mod x w : 0 <= w -> Z.land x (2 ^ w - 1) = x mod 2 ^ w.
Proof. intros. rewrite <- Z.land_ones by done. by rewrite Z.ones_equiv, Z.sub_1_r. Qed.

Lemma land_1 x : Z.land x 1 = x mod 2.
Proof. by apply (land_ones_mod x 1). Qed.

(** Two numbers whose bits do not meet add up to their disjunction. *)
Lemma lor_add_disjoint x y : Z.land x y = 0 -> Z.lor x y = x + y.
Proof. intros H. symmetry. by apply Z.add_nocarry_lxor in H as HH; rewrite HH, Z.lxor_lor. Qed.

Lemma lor_shiftl_add x y w : 0 <= w -> 0 <= y < 2 ^ w -> Z.lor (Z.shiftl x w) y = x * 2 ^ w + y.
Proof.
  intros Hw Hy. rewrite lor_add_disjoint; [by rewrite Z.shiftl_mul_pow2|].
  apply Z.bits_inj'. intros i Hi. rewrite Z.land_spec, Z.bits_0, Z.shiftl_spec by done.
  destruct (decide (i < w)).
  - by rewrite Z.testbit_neg_r by lia.
  - rewrite (testbit_high w y) by lia. apply andb_false_r.
Qed.

Lemma u64_testbit_high x i : is_u64 x -> 64 <= i -> Z.testbit x i = false.
Proof. apply testbit_high. Qed.

Lemma shl64_testbit x n i :
  0 <= i -> Z.testbit (shl64 x n) i = (i <? 64) && Z.testbit x (i - n).
Proof. intros. unfold shl64, u64. by rewrite wrap_testbit, Z.shiftl_spec by lia. Qed.

Lemma shr64_testbit x n i :
  0 <= i -> Z.testbit (shr64 x n) i = Z.testbit x (i + n).
Proof. intros. unfold shr64. by rewrite Z.shiftr_spec. Qed.

Lemma not64_testbit x i :
  0 <= i -> Z.testbit (not64 x) i = (i <? 64) && negb (Z.testbit x i).
Proof. intros. unfold not64, u64. by rewrite wrap_testbit, Z.lnot_spec by lia. Qed.

Lemma add64_range x y : is_u64 (add64 x y).
Proof. apply u64_range. Qed.
Lemma sub64_range x y : is_u64 (sub64 x y).
Proof. apply u64_range. Qed.
Lemma sub64_nonneg x y : 0 <= sub64 x y.
Proof. apply sub64_range. Qed.
Lemma shl64_range x y : is_u64 (shl64 x y).
Proof. apply u64_range. Qed.
Lemma not64_range x : is_u64 (not64 x).
Proof. apply u64_range. Qed.

Lemma shr64_range x n : 0 <= n -> is_u64 x -> is_u64 (shr64 x n).
Proof.
  intros Hn [Hx Hx']. unfold shr64, is_u64. rewrite Z.shiftr_div_pow2 by done. split.
  - apply Z.div_pos; lia.
  - apply Z.div_lt_upper_bound; [lia|]. nia.
Qed.

Lemma lor_range x y : is_u64 x -> is_u64 y -> is_u64 (Z.lor x y).
Proof. by apply lor_lt. Qed.

Lemma land_range x y : is_u64 x -> 0 <= y -> is_u64 (Z.land x y).
Proof.
  intros Hx Hy. split; [by apply Z.land_nonneg; left; apply Hx|].
  apply bits_lt; [done|by apply Z.land_nonneg; left; apply Hx|].
  intros i Hi. by rewrite Z.land_spec, (testbit_high 64) by done.
Qed.

Lemma lxor_range x y : is_u64 x -> is_u64 y -> is_u64 (Z.lxor x y).
Proof.
  intros Hx Hy.
  assert (0 <= Z.lxor x y) by (apply Z.lxor_nonneg; unfold is_u64 in *; lia).
  split; [done|]. apply bits_lt; [done..|].
  intros i Hi. by rewrite Z.lxor_spec, !(testbit_high 64) by done.
Qed.

(** Rounding down to a multiple of a power of two. *)
Lemma land_not64_ones x k : is_u64 x -> 0 <= k -> Z.land x (not64 (2 ^ k - 1)) = x / 2 ^ k * 2 ^ k.
Proof.
  intros Hx Hk. rewrite <- Z.shiftr_div_pow2, <- Z.shiftl_mul_pow2 by done. rewrite Z.sub_1_r, <- Z.ones_equiv.
  apply Z.bits_inj'. intros i Hi. rewrite Z.land_spec, Z.shiftl_spec, not64_testbit, Z.testbit_ones_nonneg by done.
  destruct (Z.ltb_spec i k).
  - by rewrite (Z.testbit_neg_r _ (i - k)), !andb_false_r by lia.
  - rewrite Z.shiftr_spec by lia. replace (i - k + k) with i by lia.
    destruct (Z.ltb_spec i 64); [by rewrite ?andb_true_r|]. by rewrite (testbit_high 64) by done.
Qed.

(** The sum of two words without a common bit does not overflow. *)
Lemma add64_disjoint x y :
  is_u64 x -> is_u64 y ->
  (forall i, 0 <= i < 64 -> Z.testbit x i && Z.testbit y i = false) ->
  add64 x y = Z.lor x y.
Proof.
  intros Hx Hy H. unfold add64. rewrite <- lor_add_disjoint.
  - by apply u64_id, lor_range.
  - apply Z.bits_inj'. intros i Hi. rewrite Z.land_spec, Z.bits_0.
    destruct (decide (i < 64)); [by apply H|]. by rewrite (testbit_high 64) by (done || lia).
Qed.
End word_lemmas.

(** ** Finite case analysis

    A statement quantified over the members of a list is decidable, so a property
    of finitely many tokens is proved by computation. *)
#[export] Instance forall_in_dec {A} (l : list A) (P : A -> Prop)
    `{forall x, Decision (P x)} : Decision (forall x, x ∈ l -> P x).
Proof.
  destruct (decide (Forall P l)) as [HF|HF].
  - left. by apply Forall_forall.
  - right. by rewrite <- Forall_forall.
Defined.

(** Permutations of lists that are built with [::] and [++], by counting: the permutations
    among the hypotheses are used as equations. *)
Ltac count_perm H :=
  match type of H with
  | _ ≡ₚ _ => rewrite (Permutation_count_occ (decide_rel (=))) in H
  end.

Ltac solve_perm :=
  cbn [app];
  repeat match goal with H : _ ≡ₚ _ |- _ => count_perm H end;
  apply (Permutation_count_occ (decide_rel (=))); let x := fresh "x" in intros x;
  repeat match goal with H : forall _, count_occ _ _ _ = count_occ _ _ _ |- _ => specialize (H x) end;
  repeat match goal with
  | |- context [?a :: ?l] =>
      lazymatch l with [] => fail | _ => change (a :: l) with ([a] ++ l) end
  | H : context [?a :: ?l] |- _ =>
      lazymatch type of H with count_occ _ _ _ = count_occ _ _ _ =>
        lazymatch l with [] => fail | _ => change (a :: l) with ([a] ++ l) in H end end
  end;
  rewrite ?count_occ_app, ?count_occ_nil in *; lia.

Ltac by_computation := refine (bool_decide_eq_true_1 _ _); vm_compute; reflexivity.

(** ** Automation

    [word_range] collects the facts that keep a term in range, [word_bits] the
    bits of each operator. *)
Create HintDb word_range discriminated.
#[export] Hint Resolve u64_range add64_range sub64_range sub64_nonneg shl64_range not64_range
  shr64_range lor_range land_range lxor_range : word_range.
#[export] Hint Extern 1 (0 <= _)%Z => lia : word_range.
#[export] Hint Extern 1 (is_u64 _) => (unfold is_u64; lia) : word_range.

Create Rewrite HintDb word_bits.
#[export] Hint Rewrite shl64_testbit shr64_testbit not64_testbit Z.lor_spec Z.land_spec
  Z.lxor_spec using lia : word_bits.

(** Compares two integers bit by bit. *)
Ltac by_bits i Hi := apply Z.bits_inj'; intros i Hi.

(** Splits every integer comparison of the goal. *)
Ltac split_ltb :=
  repeat match goal with
  | |- context [Z.ltb ?a ?b] => destruct (Z.ltb_spec a b)
  | |- context [Z.leb ?a ?b] => destruct (Z.leb_spec a b)
  | |- context [Z.eqb ?a ?b] => destruct (Z.eqb_spec a b)
  end.

(** A loop whose body keeps [P] and decreases [m] stops, in a state where [P]
    holds and the condition does not. *)
Lemma while_inv {S : Type} (P : S -> Prop) (m : S -> nat) (cond : S -> bool)
    (body : S -> S) (fuel : nat) (s : S) :
  (forall s, P s -> cond s = true -> P (body s) /\ m (body s) < m s) ->
  P s -> m s <= fuel ->
  exists s', while fuel cond body s = Some s' /\ P s' /\ cond s' = false.
Proof.
  intros Hstep. revert s. induction fuel as [|fuel IH]; intros s HP Hm; simpl.
  - destruct (cond s) eqn:Hc; [|by eauto]. destruct (Hstep s HP Hc). lia.
  - destruct (cond s) eqn:Hc; [|by eauto].
    destruct (Hstep s HP Hc) as [HP' Hlt]. apply IH; [done|lia].
Qed.

(** ** Enough fuel

    A property of all large enough fuels; a proof about a function with fuel combines
    such properties without computing bounds. *)
Definition eventually (P : nat -> Prop) : Prop := exists n, forall fuel, n <= fuel -> P fuel.

Section eventually.
Implicit Types P Q : nat -> Prop.

Lemma eventually_always P : (forall n, P n) -> eventually P.
Proof. by exists 0. Qed.

Lemma eventually_mono P Q : eventually P -> (forall n, P n -> Q n) -> eventually Q.
Proof. intros [n Hn] HPQ. exists n. auto. Qed.

Lemma eventually_and P Q : eventually P -> eventually Q -> eventually (fun n => P n /\ Q n).
Proof. intros [n Hn] [m Hm]. exists (n + m). intros k Hk. split; [apply Hn|apply Hm]; lia. Qed.

Lemma eventually_succ P : eventually (fun n => P (S n)) -> eventually P.
Proof. intros [n Hn]. exists (S n). intros [|k] Hk; [lia|]. apply Hn. lia. Qed.

Lemma eventually_forall {A} (P : A -> nat -> Prop) (l : list A) :
  (forall x, x ∈ l -> eventually (P x)) -> eventually (fun n => forall x, x ∈ l -> P x n).
Proof.
  induction l as [|x l IH]; intros H.
  - apply eventually_always. intros n x Hx. by apply elem_of_nil in Hx.
  - eapply eventually_mono; [apply eventually_and; [apply (H x); left|apply IH; intros; apply H; by right]|].
    intros n [Hx Hl] y [->|Hy]%elem_of_cons; auto.
Qed.
End eventually.
