(* ===== verification/Store.v ===== *)
(** * Stores: memory as a finite map from addresses to objects

    What the components that allocate their own cells share: an address that is not in use,
    and that it is one. *)
From S2P Require Import Prelude.
From stdpp Require Import gmap fin_maps.

(** [POOL_ALLOC]: an address that is not in use and not null. *)
Definition new_addr {V : Type} (h : gmap Z V) : Z := fresh ({[NULL]} ∪ dom h : gset Z).

Lemma new_addr_fresh {V : Type} (h : gmap Z V) : h !! new_addr h = None /\ new_addr h <> NULL.
Proof.
  assert (new_addr h ∉ {[NULL]} ∪ dom h) as Hn by apply is_fresh.
  rewrite not_elem_of_union, not_elem_of_singleton, not_elem_of_dom in Hn. tauto.
Qed.
