(* ===== verification/Token.v ===== *)
(** * Token identifiers: [src/libponyc/ast/token.h]

    The one enumeration that both tokens and tree nodes carry, in the order of the
    source, with the integer value C gives each enumerator.  The coding makes
    equality decidable without comparing the constructors pairwise. *)
From S2P Require Import Prelude.
From stdpp Require Import countable.

Inductive token_id : Set :=
  | TK_EOF | TK_LEX_ERROR | TK_NONE | TK_TRUE | TK_FALSE | TK_STRING | TK_INT | TK_FLOAT
  | TK_ID | TK_LBRACE | TK_RBRACE | TK_LPAREN | TK_RPAREN | TK_LSQUARE | TK_RSQUARE
  | TK_BACKSLASH | TK_COMMA | TK_ARROW | TK_DBLARROW | TK_DOT | TK_TILDE | TK_CHAIN
  | TK_COLON | TK_SEMI | TK_ASSIGN | TK_PLUS | TK_PLUS_TILDE | TK_MINUS | TK_MINUS_TILDE
  | TK_MULTIPLY | TK_MULTIPLY_TILDE | TK_DIVIDE | TK_DIVIDE_TILDE | TK_REM | TK_REM_TILDE
  | TK_MOD | TK_MOD_TILDE | TK_AT | TK_AT_LBRACE | TK_LSHIFT | TK_LSHIFT_TILDE | TK_RSHIFT
  | TK_RSHIFT_TILDE | TK_LT | TK_LT_TILDE | TK_LE | TK_LE_TILDE | TK_GE | TK_GE_TILDE
  | TK_GT | TK_GT_TILDE | TK_EQ | TK_EQ_TILDE | TK_NE | TK_NE_TILDE | TK_PIPE
  | TK_ISECTTYPE | TK_EPHEMERAL | TK_ALIASED | TK_SUBTYPE | TK_QUESTION | TK_UNARY_MINUS
  | TK_UNARY_MINUS_TILDE | TK_ELLIPSIS | TK_CONSTANT | TK_CONSTANT_OBJECT
  | TK_CONSTANT_ARRAY | TK_LPAREN_NEW | TK_LSQUARE_NEW | TK_MINUS_NEW | TK_MINUS_TILDE_NEW
  | TK_COMPILE_INTRINSIC | TK_USE | TK_TYPE | TK_INTERFACE | TK_TRAIT | TK_PRIMITIVE
  | TK_STRUCT | TK_CLASS | TK_ACTOR | TK_OBJECT | TK_LAMBDA | TK_BARELAMBDA | TK_ENUM
  | TK_AS | TK_IS | TK_ISNT | TK_VAR | TK_LET | TK_EMBED | TK_DONTCARE | TK_NEW | TK_FUN
  | TK_BE | TK_ISO | TK_TRN | TK_REF | TK_VAL | TK_BOX | TK_TAG | TK_NHB | TK_CAP_READ
  | TK_CAP_SEND | TK_CAP_SHARE | TK_CAP_ALIAS | TK_CAP_ANY | TK_THIS | TK_RETURN | TK_BREAK
  | TK_CONTINUE | TK_CONSUME | TK_RECOVER | TK_COMPTIME | TK_IF | TK_IFDEF | TK_IFTYPE
  | TK_IFTYPE_SET | TK_THEN | TK_ELSE | TK_ELSEIF | TK_END | TK_WHILE | TK_DO | TK_REPEAT
  | TK_UNTIL | TK_FOR | TK_IN | TK_MATCH | TK_WHERE | TK_TRY | TK_TRY_NO_CHECK | TK_WITH
  | TK_ERROR | TK_COMPILE_ERROR | TK_ASM | TK_NOT | TK_AND | TK_OR | TK_XOR | TK_DIGESTOF
  | TK_ADDRESS | TK_OFFSETOF | TK_SIZEOF | TK_ALIGNOF | TK_ALIGNAS | TK_LOCATION
  | TK_PROGRAM | TK_PACKAGE | TK_MODULE | TK_MEMBERS | TK_FVAR | TK_FLET | TK_FFIDECL
  | TK_FFICALL | TK_FFIREF | TK_IFDEFAND | TK_IFDEFOR | TK_IFDEFNOT | TK_IFDEFFLAG
  | TK_PROVIDES | TK_UNIONTYPE | TK_TUPLETYPE | TK_NOMINAL | TK_THISTYPE | TK_FUNTYPE
  | TK_LAMBDATYPE | TK_BARELAMBDATYPE | TK_DONTCARETYPE | TK_BOOL_TRUE | TK_BOOL_FALSE
  | TK_INFERTYPE | TK_ERRORTYPE | TK_LITERAL | TK_LITERALBRANCH | TK_OPERATORLITERAL
  | TK_TYPEPARAMS | TK_TYPEPARAM | TK_PARAMS | TK_PARAM | TK_TYPEARGS | TK_VALUEFORMALPARAM
  | TK_VALUEFORMALARG | TK_POSITIONALARGS | TK_NAMEDARGS | TK_NAMEDARG | TK_UPDATEARG
  | TK_LAMBDACAPTURES | TK_LAMBDACAPTURE | TK_SEQ | TK_QUALIFY | TK_CALL | TK_TUPLE
  | TK_ARRAY | TK_CASES | TK_CASE | TK_MATCH_CAPTURE | TK_MATCH_DONTCARE | TK_REFERENCE
  | TK_PACKAGEREF | TK_TYPEREF | TK_TYPEPARAMREF | TK_VALUEFORMALPARAMREF | TK_TYPEALIASREF
  | TK_NEWREF | TK_NEWBEREF | TK_BEREF | TK_FUNREF | TK_FVARREF | TK_FLETREF | TK_EMBEDREF
  | TK_TUPLEELEMREF | TK_VARREF | TK_LETREF | TK_PARAMREF | TK_DONTCAREREF | TK_NEWAPP
  | TK_BEAPP | TK_FUNAPP | TK_BECHAIN | TK_FUNCHAIN | TK_ENTITY_TYPE_CLASS
  | TK_ENTITY_TYPE_STRUCT | TK_ENTITY_TYPE_PRIMITIVE | TK_ENTITY_TYPE_ACTOR | TK_ANNOTATION
  | TK_DISPOSING_BLOCK | TK_NEWLINE | TK_FLATTEN | TK_TEST_NO_SEQ | TK_TEST_SEQ_SCOPE
  | TK_TEST_TRY_NO_CHECK | TK_TEST_ALIASED | TK_TEST_UPDATEARG | TK_TEST_EXTRA.

(** The value of each enumerator. *)
Definition token_code (t : token_id) : nat :=
  match t with
  | TK_EOF => 0 | TK_LEX_ERROR => 1 | TK_NONE => 2 | TK_TRUE => 3 | TK_FALSE => 4
  | TK_STRING => 5 | TK_INT => 6 | TK_FLOAT => 7 | TK_ID => 8 | TK_LBRACE => 9
  | TK_RBRACE => 10 | TK_LPAREN => 11 | TK_RPAREN => 12 | TK_LSQUARE => 13
  | TK_RSQUARE => 14 | TK_BACKSLASH => 15 | TK_COMMA => 16 | TK_ARROW => 17
  | TK_DBLARROW => 18 | TK_DOT => 19 | TK_TILDE => 20 | TK_CHAIN => 21 | TK_COLON => 22
  | TK_SEMI => 23 | TK_ASSIGN => 24 | TK_PLUS => 25 | TK_PLUS_TILDE => 26 | TK_MINUS => 27
  | TK_MINUS_TILDE => 28 | TK_MULTIPLY => 29 | TK_MULTIPLY_TILDE => 30 | TK_DIVIDE => 31
  | TK_DIVIDE_TILDE => 32 | TK_REM => 33 | TK_REM_TILDE => 34 | TK_MOD => 35
  | TK_MOD_TILDE => 36 | TK_AT => 37 | TK_AT_LBRACE => 38 | TK_LSHIFT => 39
  | TK_LSHIFT_TILDE => 40 | TK_RSHIFT => 41 | TK_RSHIFT_TILDE => 42 | TK_LT => 43
  | TK_LT_TILDE => 44 | TK_LE => 45 | TK_LE_TILDE => 46 | TK_GE => 47 | TK_GE_TILDE => 48
  | TK_GT => 49 | TK_GT_TILDE => 50 | TK_EQ => 51 | TK_EQ_TILDE => 52 | TK_NE => 53
  | TK_NE_TILDE => 54 | TK_PIPE => 55 | TK_ISECTTYPE => 56 | TK_EPHEMERAL => 57
  | TK_ALIASED => 58 | TK_SUBTYPE => 59 | TK_QUESTION => 60 | TK_UNARY_MINUS => 61
  | TK_UNARY_MINUS_TILDE => 62 | TK_ELLIPSIS => 63 | TK_CONSTANT => 64
  | TK_CONSTANT_OBJECT => 65 | TK_CONSTANT_ARRAY => 66 | TK_LPAREN_NEW => 67
  | TK_LSQUARE_NEW => 68 | TK_MINUS_NEW => 69 | TK_MINUS_TILDE_NEW => 70
  | TK_COMPILE_INTRINSIC => 71 | TK_USE => 72 | TK_TYPE => 73 | TK_INTERFACE => 74
  | TK_TRAIT => 75 | TK_PRIMITIVE => 76 | TK_STRUCT => 77 | TK_CLASS => 78 | TK_ACTOR => 79
  | TK_OBJECT => 80 | TK_LAMBDA => 81 | TK_BARELAMBDA => 82 | TK_ENUM => 83 | TK_AS => 84
  | TK_IS => 85 | TK_ISNT => 86 | TK_VAR => 87 | TK_LET => 88 | TK_EMBED => 89
  | TK_DONTCARE => 90 | TK_NEW => 91 | TK_FUN => 92 | TK_BE => 93 | TK_ISO => 94
  | TK_TRN => 95 | TK_REF => 96 | TK_VAL => 97 | TK_BOX => 98 | TK_TAG => 99
  | TK_NHB => 100 | TK_CAP_READ => 101 | TK_CAP_SEND => 102 | TK_CAP_SHARE => 103
  | TK_CAP_ALIAS => 104 | TK_CAP_ANY => 105 | TK_THIS => 106 | TK_RETURN => 107
  | TK_BREAK => 108 | TK_CONTINUE => 109 | TK_CONSUME => 110 | TK_RECOVER => 111
  | TK_COMPTIME => 112 | TK_IF => 113 | TK_IFDEF => 114 | TK_IFTYPE => 115
  | TK_IFTYPE_SET => 116 | TK_THEN => 117 | TK_ELSE => 118 | TK_ELSEIF => 119
  | TK_END => 120 | TK_WHILE => 121 | TK_DO => 122 | TK_REPEAT => 123 | TK_UNTIL => 124
  | TK_FOR => 125 | TK_IN => 126 | TK_MATCH => 127 | TK_WHERE => 128 | TK_TRY => 129
  | TK_TRY_NO_CHECK => 130 | TK_WITH => 131 | TK_ERROR => 132 | TK_COMPILE_ERROR => 133
  | TK_ASM => 134 | TK_NOT => 135 | TK_AND => 136 | TK_OR => 137 | TK_XOR => 138
  | TK_DIGESTOF => 139 | TK_ADDRESS => 140 | TK_OFFSETOF => 141 | TK_SIZEOF => 142
  | TK_ALIGNOF => 143 | TK_ALIGNAS => 144 | TK_LOCATION => 145 | TK_PROGRAM => 146
  | TK_PACKAGE => 147 | TK_MODULE => 148 | TK_MEMBERS => 149 | TK_FVAR => 150
  | TK_FLET => 151 | TK_FFIDECL => 152 | TK_FFICALL => 153 | TK_FFIREF => 154
  | TK_IFDEFAND => 155 | TK_IFDEFOR => 156 | TK_IFDEFNOT => 157 | TK_IFDEFFLAG => 158
  | TK_PROVIDES => 159 | TK_UNIONTYPE => 160 | TK_TUPLETYPE => 161 | TK_NOMINAL => 162
  | TK_THISTYPE => 163 | TK_FUNTYPE => 164 | TK_LAMBDATYPE => 165
  | TK_BARELAMBDATYPE => 166 | TK_DONTCARETYPE => 167 | TK_BOOL_TRUE => 168
  | TK_BOOL_FALSE => 169 | TK_INFERTYPE => 170 | TK_ERRORTYPE => 171 | TK_LITERAL => 172
  | TK_LITERALBRANCH => 173 | TK_OPERATORLITERAL => 174 | TK_TYPEPARAMS => 175
  | TK_TYPEPARAM => 176 | TK_PARAMS => 177 | TK_PARAM => 178 | TK_TYPEARGS => 179
  | TK_VALUEFORMALPARAM => 180 | TK_VALUEFORMALARG => 181 | TK_POSITIONALARGS => 182
  | TK_NAMEDARGS => 183 | TK_NAMEDARG => 184 | TK_UPDATEARG => 185
  | TK_LAMBDACAPTURES => 186 | TK_LAMBDACAPTURE => 187 | TK_SEQ => 188 | TK_QUALIFY => 189
  | TK_CALL => 190 | TK_TUPLE => 191 | TK_ARRAY => 192 | TK_CASES => 193 | TK_CASE => 194
  | TK_MATCH_CAPTURE => 195 | TK_MATCH_DONTCARE => 196 | TK_REFERENCE => 197
  | TK_PACKAGEREF => 198 | TK_TYPEREF => 199 | TK_TYPEPARAMREF => 200
  | TK_VALUEFORMALPARAMREF => 201 | TK_TYPEALIASREF => 202 | TK_NEWREF => 203
  | TK_NEWBEREF => 204 | TK_BEREF => 205 | TK_FUNREF => 206 | TK_FVARREF => 207
  | TK_FLETREF => 208 | TK_EMBEDREF => 209 | TK_TUPLEELEMREF => 210 | TK_VARREF => 211
  | TK_LETREF => 212 | TK_PARAMREF => 213 | TK_DONTCAREREF => 214 | TK_NEWAPP => 215
  | TK_BEAPP => 216 | TK_FUNAPP => 217 | TK_BECHAIN => 218 | TK_FUNCHAIN => 219
  | TK_ENTITY_TYPE_CLASS => 220 | TK_ENTITY_TYPE_STRUCT => 221
  | TK_ENTITY_TYPE_PRIMITIVE => 222 | TK_ENTITY_TYPE_ACTOR => 223 | TK_ANNOTATION => 224
  | TK_DISPOSING_BLOCK => 225 | TK_NEWLINE => 226 | TK_FLATTEN => 227
  | TK_TEST_NO_SEQ => 228 | TK_TEST_SEQ_SCOPE => 229 | TK_TEST_TRY_NO_CHECK => 230
  | TK_TEST_ALIASED => 231 | TK_TEST_UPDATEARG => 232 | TK_TEST_EXTRA => 233
  end.

(** All the enumerators, in order: the inverse of [token_code]. *)
Definition all_tokens : list token_id :=
  [ TK_EOF; TK_LEX_ERROR; TK_NONE; TK_TRUE; TK_FALSE; TK_STRING; TK_INT; TK_FLOAT; TK_ID;
    TK_LBRACE; TK_RBRACE; TK_LPAREN; TK_RPAREN; TK_LSQUARE; TK_RSQUARE; TK_BACKSLASH;
    TK_COMMA; TK_ARROW; TK_DBLARROW; TK_DOT; TK_TILDE; TK_CHAIN; TK_COLON; TK_SEMI;
    TK_ASSIGN; TK_PLUS; TK_PLUS_TILDE; TK_MINUS; TK_MINUS_TILDE; TK_MULTIPLY;
    TK_MULTIPLY_TILDE; TK_DIVIDE; TK_DIVIDE_TILDE; TK_REM; TK_REM_TILDE; TK_MOD;
    TK_MOD_TILDE; TK_AT; TK_AT_LBRACE; TK_LSHIFT; TK_LSHIFT_TILDE; TK_RSHIFT;
    TK_RSHIFT_TILDE; TK_LT; TK_LT_TILDE; TK_LE; TK_LE_TILDE; TK_GE; TK_GE_TILDE; TK_GT;
    TK_GT_TILDE; TK_EQ; TK_EQ_TILDE; TK_NE; TK_NE_TILDE; TK_PIPE; TK_ISECTTYPE;
    TK_EPHEMERAL; TK_ALIASED; TK_SUBTYPE; TK_QUESTION; TK_UNARY_MINUS;
    TK_UNARY_MINUS_TILDE; TK_ELLIPSIS; TK_CONSTANT; TK_CONSTANT_OBJECT; TK_CONSTANT_ARRAY;
    TK_LPAREN_NEW; TK_LSQUARE_NEW; TK_MINUS_NEW; TK_MINUS_TILDE_NEW; TK_COMPILE_INTRINSIC;
    TK_USE; TK_TYPE; TK_INTERFACE; TK_TRAIT; TK_PRIMITIVE; TK_STRUCT; TK_CLASS; TK_ACTOR;
    TK_OBJECT; TK_LAMBDA; TK_BARELAMBDA; TK_ENUM; TK_AS; TK_IS; TK_ISNT; TK_VAR; TK_LET;
    TK_EMBED; TK_DONTCARE; TK_NEW; TK_FUN; TK_BE; TK_ISO; TK_TRN; TK_REF; TK_VAL; TK_BOX;
    TK_TAG; TK_NHB; TK_CAP_READ; TK_CAP_SEND; TK_CAP_SHARE; TK_CAP_ALIAS; TK_CAP_ANY;
    TK_THIS; TK_RETURN; TK_BREAK; TK_CONTINUE; TK_CONSUME; TK_RECOVER; TK_COMPTIME; TK_IF;
    TK_IFDEF; TK_IFTYPE; TK_IFTYPE_SET; TK_THEN; TK_ELSE; TK_ELSEIF; TK_END; TK_WHILE;
    TK_DO; TK_REPEAT; TK_UNTIL; TK_FOR; TK_IN; TK_MATCH; TK_WHERE; TK_TRY; TK_TRY_NO_CHECK;
    TK_WITH; TK_ERROR; TK_COMPILE_ERROR; TK_ASM; TK_NOT; TK_AND; TK_OR; TK_XOR;
    TK_DIGESTOF; TK_ADDRESS; TK_OFFSETOF; TK_SIZEOF; TK_ALIGNOF; TK_ALIGNAS; TK_LOCATION;
    TK_PROGRAM; TK_PACKAGE; TK_MODULE; TK_MEMBERS; TK_FVAR; TK_FLET; TK_FFIDECL;
    TK_FFICALL; TK_FFIREF; TK_IFDEFAND; TK_IFDEFOR; TK_IFDEFNOT; TK_IFDEFFLAG; TK_PROVIDES;
    TK_UNIONTYPE; TK_TUPLETYPE; TK_NOMINAL; TK_THISTYPE; TK_FUNTYPE; TK_LAMBDATYPE;
    TK_BARELAMBDATYPE; TK_DONTCARETYPE; TK_BOOL_TRUE; TK_BOOL_FALSE; TK_INFERTYPE;
    TK_ERRORTYPE; TK_LITERAL; TK_LITERALBRANCH; TK_OPERATORLITERAL; TK_TYPEPARAMS;
    TK_TYPEPARAM; TK_PARAMS; TK_PARAM; TK_TYPEARGS; TK_VALUEFORMALPARAM; TK_VALUEFORMALARG;
    TK_POSITIONALARGS; TK_NAMEDARGS; TK_NAMEDARG; TK_UPDATEARG; TK_LAMBDACAPTURES;
    TK_LAMBDACAPTURE; TK_SEQ; TK_QUALIFY; TK_CALL; TK_TUPLE; TK_ARRAY; TK_CASES; TK_CASE;
    TK_MATCH_CAPTURE; TK_MATCH_DONTCARE; TK_REFERENCE; TK_PACKAGEREF; TK_TYPEREF;
    TK_TYPEPARAMREF; TK_VALUEFORMALPARAMREF; TK_TYPEALIASREF; TK_NEWREF; TK_NEWBEREF;
    TK_BEREF; TK_FUNREF; TK_FVARREF; TK_FLETREF; TK_EMBEDREF; TK_TUPLEELEMREF; TK_VARREF;
    TK_LETREF; TK_PARAMREF; TK_DONTCAREREF; TK_NEWAPP; TK_BEAPP; TK_FUNAPP; TK_BECHAIN;
    TK_FUNCHAIN; TK_ENTITY_TYPE_CLASS; TK_ENTITY_TYPE_STRUCT; TK_ENTITY_TYPE_PRIMITIVE;
    TK_ENTITY_TYPE_ACTOR; TK_ANNOTATION; TK_DISPOSING_BLOCK; TK_NEWLINE; TK_FLATTEN;
    TK_TEST_NO_SEQ; TK_TEST_SEQ_SCOPE; TK_TEST_TRY_NO_CHECK; TK_TEST_ALIASED;
    TK_TEST_UPDATEARG; TK_TEST_EXTRA ].

Lemma all_tokens_code t : all_tokens !! token_code t = Some t.
Proof. by destruct t. Qed.

Lemma token_code_inj t u : token_code t = token_code u -> t = u.
Proof.
  intros H. apply (f_equal (fun n => all_tokens !! n)) in H.
  rewrite !all_tokens_code in H. by injection H.
Qed.

#[export] Instance token_id_eq_dec : EqDecision token_id.
Proof.
  intros t u. destruct (decide (token_code t = token_code u)) as [H|H].
  - left. by apply token_code_inj.
  - right. by intros ->.
Defined.

(** Tests of a [switch] with several labels. *)
Definition tk_eqb (t u : token_id) : bool := Nat.eqb (token_code t) (token_code u).
Definition tk_in (t : token_id) (l : list token_id) : bool := existsb (tk_eqb t) l.

Lemma tk_eqb_spec t u : reflect (t = u) (tk_eqb t u).
Proof.
  unfold tk_eqb. destruct (Nat.eqb_spec (token_code t) (token_code u)) as [H|H]; constructor.
  - by apply token_code_inj.
  - by intros ->.
Qed.

Lemma tk_in_spec t l : tk_in t l = true <-> t ∈ l.
Proof.
  unfold tk_in. rewrite existsb_exists. split.
  - intros (u & Hu & Heq). destruct (tk_eqb_spec t u) as [->|]; [|done]. by apply list_elem_of_In.
  - intros H. exists t. split; [by apply list_elem_of_In|]. by destruct (tk_eqb_spec t t).
Qed.
