(* ===== verification/LexInt.v ===== *)
(** * 128-bit literals: [src/libponyc/ast/lexint.c]

    The lexer reads integer literals into a pair of 64-bit words.  Every
    operation of the file is translated on that pair, the carries and shifts
    written as in the code; the properties relate each one to arithmetic
    modulo [2^128]. *)
From S2P Require Import Prelude.
Local Open Scope Z_scope.
Local Open Scope c_scope.

(** ** The data and its operations *)

Record lexint_t := mk_lexint { low : Z; high : Z }.

Definition lexint_zero : lexint_t := mk_lexint 0 0.

Definition lexint_cmp (a b : lexint_t) : Z :=
  if high b <? high a then 1
  else if high a <? high b then -1
  else if low b <? low a then 1
  else if low a <? low b then -1
  else 0.

Definition lexint_cmp64 (a : lexint_t) (b : Z) : Z :=
  if 0 <? high a then 1
  else if b <? low a then 1
  else if low a <? b then -1
  else 0.

Definition lexint_shl (a : lexint_t) (b : Z) : lexint_t :=
  if 128 <=? b then
    {| high := 0; low := 0 |}
  else if 64 <? b then
    {| high := low a <<! (b ⊟ 64); low := 0 |}
  else if b =? 64 then
    {| high := low a; low := 0 |}
  else if 0 <? b then
    {| high := (high a <<! b) ⊞ (low a >>! (64 ⊟ b));
       low := low a <<! b |}
  else
    {| high := high a; low := low a |}.

Definition lexint_shr (a : lexint_t) (b : Z) : lexint_t :=
  if 128 <=? b then
    {| low := 0; high := 0 |}
  else if 64 <? b then
    {| low := high a >>! (b ⊟ 64); high := 0 |}
  else if b =? 64 then
    {| low := high a; high := 0 |}
  else if 0 <? b then
    {| low := (high a <<! (64 ⊟ b)) ⊞ (low a >>! b);
       high := high a >>! b |}
  else
    {| high := high a; low := low a |}.

(** The bit index is a [uint8_t]; the C expression [b - 64] is an [int]. *)
Definition lexint_testbit (a : lexint_t) (b : Z) : Z :=
  if 64 <=? b then Z.land (high a >>! (b - 64)) 1
  else Z.land (low a >>! b) 1.

Definition lexint_setbit (a : lexint_t) (b : Z) : lexint_t :=
  if 64 <=? b then
    {| low := low a; high := Z.lor (high a) (1 <<! (b - 64)) |}
  else
    {| low := Z.lor (low a) (1 <<! b); high := high a |}.

Definition lexint_add (a b : lexint_t) : lexint_t :=
  {| high := high a ⊞ high b ⊞ bool_to_u64 ((low a ⊞ low b) <? low a);
     low := low a ⊞ low b |}.

Definition lexint_add64 (a : lexint_t) (b : Z) : lexint_t :=
  {| high := high a ⊞ bool_to_u64 ((low a ⊞ b) <? low a);
     low := low a ⊞ b |}.

Definition lexint_sub (a b : lexint_t) : lexint_t :=
  {| high := high a ⊟ high b ⊟ bool_to_u64 (low a <? (low a ⊟ low b));
     low := low a ⊟ low b |}.

Definition lexint_sub64 (a : lexint_t) (b : Z) : lexint_t :=
  {| high := high a ⊟ bool_to_u64 (low a <? (low a ⊟ b));
     low := low a ⊟ b |}.

(** One iteration of the shift-and-add loop of [lexint_mul64], on the state
    [(ret, t, b)]. *)
Definition lexint_mul64_body (s : lexint_t * lexint_t * Z)
    : lexint_t * lexint_t * Z :=
  let '(ret, t, b) := s in
  let ret := if negb (Z.land b 1 =? 0) then lexint_add ret t else ret in
  (ret, lexint_shl t 1, b >>! 1).

Definition lexint_mul64_cond (s : lexint_t * lexint_t * Z) : bool :=
  let '(_, _, b) := s in 0 <? b.

Definition lexint_mul64 (a : lexint_t) (b : Z) : option lexint_t :=
  '(ret, _, _) ← while 64 lexint_mul64_cond lexint_mul64_body (lexint_zero, a, b);
  Some ret.

(** [assert(rt.high == 0)] is [None] here. *)
Definition lexint_mul (a b : lexint_t) : option lexint_t :=
  if negb (high b =? 0) then None else lexint_mul64 a (low b).

(** One iteration of the restoring division of [lexint_div64], on the state
    [(ret, r, i)]; [i] is a [uint8_t] that counts down and wraps to 255. *)
Definition lexint_div64_body (o : lexint_t) (b : Z) (s : lexint_t * lexint_t * Z)
    : lexint_t * lexint_t * Z :=
  let '(ret, r, i) := s in
  let r := lexint_shl r 1 in
  let t := lexint_shr o i in
  let r := {| low := Z.lor (low r) (Z.land (low t) 1); high := high r |} in
  if 0 <=? lexint_cmp64 r b then
    (lexint_setbit ret i, lexint_sub64 r b, u8 (i - 1))
  else
    (ret, r, u8 (i - 1)).

Definition lexint_div64_cond (s : lexint_t * lexint_t * Z) : bool :=
  let '(_, _, i) := s in i <? 255.

Definition lexint_div64 (a : lexint_t) (b : Z) : option lexint_t :=
  if b =? 0 then Some lexint_zero
  else if b =? 1 then Some a
  else
    '(ret, _, _) ← while 128 lexint_div64_cond (lexint_div64_body a b)
                     (lexint_zero, lexint_zero, 127);
    Some ret.

Definition lexint_div (a b : lexint_t) : option lexint_t :=
  if negb (high b =? 0) then None else lexint_div64 a (low b).

(** [c] is an [int], converted to [uint64_t] by the disjunction. *)
Definition lexint_char (i : lexint_t) (c : Z) : lexint_t :=
  {| high := Z.lor (high i <<! 8) (low i >>! 56);
     low := Z.lor (low i <<! 8) (u64 c) |}.

(** The C function returns a flag and, when it is set, updates [*i]. *)
Definition lexint_accum (i : lexint_t) (digit base : Z) : option (bool * lexint_t) :=
  v2 ← lexint_mul64 i base;
  v3 ← lexint_div64 v2 base;
  if negb (lexint_cmp v3 i =? 0) then Some (false, i)
  else
    let v2 := lexint_add64 v2 digit in
    if lexint_cmp v2 i <? 0 then Some (false, i)
    else Some (true, v2).

(** One line [if((n >> s) == 0) { count += k; n <<= k; }]. *)
Definition clz_step (s k : Z) (nc : Z * Z) : Z * Z :=
  let '(n, count) := nc in
  if (n >>! s) =? 0 then (n <<! k, count + k) else (n, count).

Definition count_leading_zeros (n : Z) : Z :=
  if n =? 0 then 64
  else
    (clz_step 63 1 (clz_step 62 2 (clz_step 60 4 (clz_step 56 8
       (clz_step 48 16 (clz_step 32 32 (n, 0))))))).2.

(** The mantissa before rounding: the top 55 bits, the last of them sticky. *)
Definition lexint_double_mantissa (i : lexint_t) (sig_bit_count : Z) : Z :=
  let mantissa := low i in
  if sig_bit_count =? 54 then mantissa <<! 1
  else if 55 <? sig_bit_count then
    let t := lexint_shr i (sig_bit_count - 55) in
    let mantissa := low t in
    let t := lexint_shl t (sig_bit_count - 55) in
    if negb (lexint_cmp t i =? 0) then Z.lor mantissa 1 else mantissa
  else mantissa.

(** [lexint_double] up to the reinterpretation of [raw_bits] as a [double]. *)
Definition lexint_double (i : lexint_t) : Z :=
  if (low i =? 0) && (high i =? 0) then 0
  else
    let sig_bit_count := 128 - count_leading_zeros (high i) in
    let sig_bit_count :=
      if high i =? 0 then 64 - count_leading_zeros (low i) else sig_bit_count in
    let exponent := u64 (sig_bit_count - 1) in
    let '(mantissa, exponent) :=
      if sig_bit_count <=? 53 then
        (low i <<! (53 - sig_bit_count), exponent)
      else
        let mantissa := lexint_double_mantissa i sig_bit_count in
        let mantissa :=
          if negb (Z.land mantissa 4 =? 0) then Z.lor mantissa 1 else mantissa in
        let mantissa := (mantissa ⊞ 1) >>! 2 in
        if negb (Z.land mantissa (1 <<! 53) =? 0) then
          (mantissa >>! 1, exponent ⊞ 1)
        else (mantissa, exponent) in
    Z.lor ((exponent ⊞ 1023) <<! 52) (Z.land mantissa 0xFFFFFFFFFFFFF).

Definition lexint_and (a b : lexint_t) : lexint_t :=
  {| high := Z.land (high a) (high b); low := Z.land (low a) (low b) |}.

Definition lexint_and64 (a : lexint_t) (b : Z) : lexint_t :=
  {| high := 0; low := Z.land (low a) b |}.

Definition lexint_or (a b : lexint_t) : lexint_t :=
  {| high := Z.lor (high a) (high b); low := Z.lor (low a) (low b) |}.

Definition lexint_or64 (a : lexint_t) (b : Z) : lexint_t :=
  {| high := high a; low := Z.lor (low a) b |}.

Definition lexint_xor (a b : lexint_t) : lexint_t :=
  {| high := Z.lxor (high a) (high b); low := Z.lxor (low a) (low b) |}.

Definition lexint_xor64 (a : lexint_t) (b : Z) : lexint_t :=
  {| high := high a; low := Z.lxor (low a) b |}.

Definition lexint_not (src : lexint_t) : lexint_t :=
  {| high := not64 (high src); low := not64 (low src) |}.

(** ** The number a pair of words stands for *)

Definition lexint_val (a : lexint_t) : Z := high a * 2 ^ 64 + low a.
Definition lexint_wf (a : lexint_t) : Prop := is_u64 (low a) /\ is_u64 (high a).

(** ** Lemmas *)

Lemma lexint_val_lor a :
  lexint_wf a -> lexint_val a = Z.lor (Z.shiftl (high a) 64) (low a).
Proof. intros [Hl Hh]. unfold lexint_val. by rewrite lor_shiftl_add. Qed.

Lemma lexint_val_testbit a i :
  lexint_wf a -> 0 <= i ->
  Z.testbit (lexint_val a) i = if i <? 64 then Z.testbit (low a) i else Z.testbit (high a) (i - 64).
Proof.
  intros Ha Hi. rewrite lexint_val_lor, Z.lor_spec, Z.shiftl_spec by done.
  destruct Ha as [Hl Hh]. destruct (Z.ltb_spec i 64).
  - by rewrite (Z.testbit_neg_r _ (i - 64)) by lia.
  - rewrite (testbit_high 64 (low a)) by done. by rewrite orb_false_r.
Qed.

Lemma lexint_val_range a : lexint_wf a -> 0 <= lexint_val a < 2 ^ 128.
Proof. unfold lexint_wf, is_u64, lexint_val. lia. Qed.

Lemma lexint_val_inj a b :
  lexint_wf a -> lexint_wf b -> lexint_val a = lexint_val b -> a = b.
Proof.
  destruct a as [la ha], b as [lb hb].
  unfold lexint_wf, is_u64, lexint_val; simpl. intros ?? Heq.
  assert (ha = hb) by lia. by assert (la = lb) as -> by lia; subst.
Qed.

Lemma lexint_wf_intro l h : is_u64 l -> is_u64 h -> lexint_wf {| low := l; high := h |}.
Proof. by split. Qed.
#[export] Hint Resolve lexint_wf_intro : word_range.
Lemma lexint_wf_low a : lexint_wf a -> is_u64 (low a).
Proof. by intros []. Qed.
Lemma lexint_wf_high a : lexint_wf a -> is_u64 (high a).
Proof. by intros []. Qed.
#[export] Hint Resolve lexint_wf_low lexint_wf_high : word_range.

Lemma lexint_cmp_val a b :
  lexint_wf a -> lexint_wf b ->
  lexint_cmp a b = match lexint_val a ?= lexint_val b with Gt => 1 | Lt => -1 | Eq => 0 end.
Proof.
  unfold lexint_wf, is_u64, lexint_cmp, lexint_val. intros ??.
  destruct (Z.compare_spec (high a * 2 ^ 64 + low a) (high b * 2 ^ 64 + low b));
    split_ltb; lia.
Qed.

Lemma lexint_cmp64_val a b :
  lexint_wf a -> is_u64 b ->
  lexint_cmp64 a b = match lexint_val a ?= b with Gt => 1 | Lt => -1 | Eq => 0 end.
Proof.
  unfold lexint_wf, is_u64, lexint_cmp64, lexint_val. intros ??.
  destruct (Z.compare_spec (high a * 2 ^ 64 + low a) b); split_ltb; lia.
Qed.

Lemma lexint_shl_wf a b : lexint_wf a -> lexint_wf (lexint_shl a b).
Proof. intros. unfold lexint_shl. split_ltb; auto with word_range. Qed.

Lemma lexint_shr_wf a b : 0 <= b -> lexint_wf a -> lexint_wf (lexint_shr a b).
Proof.
  intros. unfold lexint_shr. split_ltb; auto with word_range.
Qed.
#[export] Hint Resolve lexint_shl_wf lexint_shr_wf : word_range.

(** The two halves of a shift by less than a word do not overlap. *)
Lemma shl_carry h l b :
  is_u64 h -> is_u64 l -> 0 < b < 64 ->
  (h <<! b) ⊞ (l >>! (64 ⊟ b)) = Z.lor (h <<! b) (l >>! (64 - b)).
Proof.
  intros Hh Hl Hb. unfold sub64. rewrite (u64_id (64 - b)) by (unfold is_u64; lia).
  apply add64_disjoint; [auto with word_range..|]. intros i Hi.
  autorewrite with word_bits. destruct (decide (b <= i)).
  - rewrite (testbit_high 64 l) by (done || lia). apply andb_false_r.
  - rewrite (Z.testbit_neg_r h) by lia. by rewrite andb_false_r.
Qed.

Lemma shr_carry h l b :
  is_u64 h -> is_u64 l -> 0 < b < 64 ->
  (h <<! (64 ⊟ b)) ⊞ (l >>! b) = Z.lor (h <<! (64 - b)) (l >>! b).
Proof.
  intros Hh Hl Hb. unfold sub64. rewrite (u64_id (64 - b)) by (unfold is_u64; lia).
  apply add64_disjoint; [auto with word_range..|]. intros i Hi.
  autorewrite with word_bits. destruct (decide (64 - b <= i)).
  - rewrite (testbit_high 64 l) by (done || lia). apply andb_false_r.
  - rewrite (Z.testbit_neg_r h) by lia. by rewrite andb_false_r.
Qed.

(** Finishes a comparison of bits once both sides are bits of the words. *)
Ltac solve_bits :=
  repeat first
    [ reflexivity
    | rewrite Z.bits_0
    | rewrite Z.testbit_neg_r by lia
    | match goal with |- context [Z.testbit ?x ?j] =>
        rewrite (u64_testbit_high x j); [|by auto with word_range|lia] end
    | rewrite orb_false_r | rewrite orb_false_l | rewrite andb_false_r
    | f_equal; lia | lia ].

Lemma lexint_shl_val a b :
  lexint_wf a -> is_u64 b -> lexint_val (lexint_shl a b) = (lexint_val a * 2 ^ b) mod 2 ^ 128.
Proof.
  intros Ha Hb. assert (0 <= b) by apply Hb. by_bits i Hi.
  rewrite lexint_val_testbit by auto with word_range.
  destruct (Z.ltb_spec i 128).
  2:{ rewrite Z.mod_pow2_bits_high by lia. destruct (Z.ltb_spec i 64); [lia|].
      apply (testbit_high 64); [|lia]. by apply lexint_wf_high, lexint_shl_wf. }
  rewrite Z.mod_pow2_bits_low, <- Z.shiftl_mul_pow2, Z.shiftl_spec by (unfold is_u64 in *; lia).
  destruct (decide (i < b)).
  { rewrite (Z.testbit_neg_r (lexint_val a)) by lia. unfold lexint_shl.
    split_ltb; simpl; rewrite ?shl_carry by (auto with word_range; lia);
    unfold sub64; rewrite ?u64_id by (unfold is_u64 in *; lia);
      autorewrite with word_bits; split_ltb; solve_bits. }
  rewrite lexint_val_testbit by (done || lia). unfold lexint_shl.
  split_ltb; simpl; try lia; rewrite ?shl_carry by (auto with word_range; lia);
    unfold sub64; rewrite ?u64_id by (unfold is_u64 in *; lia);
    autorewrite with word_bits; split_ltb; simpl; solve_bits.
Qed.

Lemma lexint_shr_val a b :
  lexint_wf a -> is_u64 b -> lexint_val (lexint_shr a b) = lexint_val a / 2 ^ b.
Proof.
  intros Ha Hb. assert (0 <= b) by apply Hb. rewrite <- Z.shiftr_div_pow2 by lia.
  by_bits i Hi. rewrite lexint_val_testbit, Z.shiftr_spec by auto with word_range.
  rewrite lexint_val_testbit by (done || lia). unfold lexint_shr.
  split_ltb; simpl; try lia; rewrite ?shr_carry by (auto with word_range; lia);
    unfold sub64; rewrite ?u64_id by (unfold is_u64 in *; lia);
    autorewrite with word_bits; split_ltb; simpl; solve_bits.
Qed.

Lemma u64_carry x y : is_u64 x -> is_u64 y ->
  x + y = add64 x y + 2 ^ 64 * bool_to_u64 (add64 x y <? x).
Proof.
  unfold is_u64, add64, u64, wrap, bool_to_u64. intros Hx Hy.
  destruct (decide (x + y < 2 ^ 64)).
  - rewrite Z.mod_small by lia. destruct (Z.ltb_spec (x + y) x); lia.
  - assert ((x + y) mod 2 ^ 64 = x + y - 2 ^ 64) as ->.
    { symmetry. apply (Z.mod_unique _ _ 1); lia. }
    destruct (Z.ltb_spec (x + y - 2 ^ 64) x); lia.
Qed.

Lemma u64_borrow x y : is_u64 x -> is_u64 y ->
  x - y = sub64 x y - 2 ^ 64 * bool_to_u64 (x <? sub64 x y).
Proof.
  unfold is_u64, sub64, u64, wrap, bool_to_u64. intros Hx Hy.
  destruct (decide (0 <= x - y)).
  - rewrite Z.mod_small by lia. destruct (Z.ltb_spec x (x - y)); lia.
  - assert ((x - y) mod 2 ^ 64 = x - y + 2 ^ 64) as ->.
    { symmetry. apply (Z.mod_unique _ _ (-1)); lia. }
    destruct (Z.ltb_spec x (x - y + 2 ^ 64)); lia.
Qed.

(** A pair of words whose high word is taken modulo [2^64]. *)
Lemma lexint_val_mod h l :
  is_u64 l -> lexint_val {| low := l; high := u64 h |} = (h * 2 ^ 64 + l) mod 2 ^ 128.
Proof.
  intros Hl. unfold lexint_val, u64, wrap; simpl. unfold is_u64 in Hl.
  pose proof (Z.mod_pos_bound h (2 ^ 64)). pose proof (Z.div_mod h (2 ^ 64)).
  apply (Z.mod_unique _ _ (h / 2 ^ 64)); lia.
Qed.

Lemma add64_add64 x y z : x ⊞ y ⊞ z = u64 (x + y + z).
Proof. unfold add64, u64, wrap. by rewrite Zplus_mod_idemp_l. Qed.
Lemma sub64_sub64 x y z : x ⊟ y ⊟ z = u64 (x - y - z).
Proof. unfold sub64, u64, wrap. by rewrite Zminus_mod_idemp_l. Qed.

Lemma lexint_add_val a b :
  lexint_wf a -> lexint_wf b ->
  lexint_val (lexint_add a b) = (lexint_val a + lexint_val b) mod 2 ^ 128.
Proof.
  intros [Hal Hah] [Hbl Hbh]. unfold lexint_add.
  rewrite add64_add64, lexint_val_mod by auto with word_range.
  unfold lexint_val. pose proof (u64_carry (low a) (low b) Hal Hbl). f_equal. lia.
Qed.

Lemma lexint_add64_val a b :
  lexint_wf a -> is_u64 b ->
  lexint_val (lexint_add64 a b) = (lexint_val a + b) mod 2 ^ 128.
Proof.
  intros [Hal Hah] Hb. unfold lexint_add64.
  etrans; [apply (lexint_val_mod (_ + _)); auto with word_range|].
  unfold lexint_val. pose proof (u64_carry (low a) b Hal Hb). f_equal. lia.
Qed.

Lemma lexint_sub_val a b :
  lexint_wf a -> lexint_wf b ->
  lexint_val (lexint_sub a b) = (lexint_val a - lexint_val b) mod 2 ^ 128.
Proof.
  intros [Hal Hah] [Hbl Hbh]. unfold lexint_sub.
  rewrite sub64_sub64, lexint_val_mod by auto with word_range.
  unfold lexint_val. pose proof (u64_borrow (low a) (low b) Hal Hbl). f_equal. lia.
Qed.

Lemma lexint_sub64_val a b :
  lexint_wf a -> is_u64 b ->
  lexint_val (lexint_sub64 a b) = (lexint_val a - b) mod 2 ^ 128.
Proof.
  intros [Hal Hah] Hb. unfold lexint_sub64.
  etrans; [apply (lexint_val_mod (_ - _)); auto with word_range|].
  unfold lexint_val. pose proof (u64_borrow (low a) b Hal Hb). f_equal. lia.
Qed.

Lemma lexint_add_wf a b : lexint_wf (lexint_add a b).
Proof. apply lexint_wf_intro; auto with word_range. Qed.
Lemma lexint_add64_wf a b : lexint_wf (lexint_add64 a b).
Proof. apply lexint_wf_intro; auto with word_range. Qed.
Lemma lexint_sub_wf a b : lexint_wf (lexint_sub a b).
Proof. apply lexint_wf_intro; auto with word_range. Qed.
Lemma lexint_sub64_wf a b : lexint_wf (lexint_sub64 a b).
Proof. apply lexint_wf_intro; auto with word_range. Qed.
Lemma lexint_zero_wf : lexint_wf lexint_zero.
Proof. apply lexint_wf_intro; auto with word_range. Qed.
#[export] Hint Resolve lexint_add_wf lexint_add64_wf lexint_sub_wf lexint_sub64_wf
  lexint_zero_wf : word_range.

Lemma lexint_setbit_wf a i : 0 <= i -> lexint_wf a -> lexint_wf (lexint_setbit a i).
Proof. intros. unfold lexint_setbit. split_ltb; auto with word_range. Qed.
#[export] Hint Resolve lexint_setbit_wf : word_range.

Lemma lexint_setbit_val a i :
  lexint_wf a -> 0 <= i < 128 -> lexint_val (lexint_setbit a i) = Z.lor (lexint_val a) (2 ^ i).
Proof.
  intros Ha Hi. by_bits j Hj.
  rewrite Z.lor_spec, Z.pow2_bits_eqb, !lexint_val_testbit by auto with word_range.
  assert (Hone : forall k, Z.testbit 1 k = (k =? 0)).
  { intros k. rewrite <- (Z.pow_0_r 2), Z.pow2_bits_eqb by lia. apply Z.eqb_sym. }
  unfold lexint_setbit. split_ltb; simpl; autorewrite with word_bits; rewrite ?Hone;
    split_ltb; simpl; rewrite ?orb_false_r, ?orb_true_r; try reflexivity; lia.
Qed.

Lemma lexint_testbit_val a i :
  lexint_wf a -> 0 <= i < 128 -> lexint_testbit a i = bool_to_u64 (Z.testbit (lexint_val a) i).
Proof.
  intros Ha Hi. rewrite lexint_val_testbit by (done || lia). unfold lexint_testbit, shr64.
  assert (Hone : forall x k, 0 <= k -> Z.land (Z.shiftr x k) 1 = bool_to_u64 (Z.testbit x k)).
  { intros x k Hk. change 1 with (Z.ones 1). rewrite Z.land_ones, Z.shiftr_div_pow2 by lia.
    change (2 ^ 1) with 2. rewrite <- Z.testbit_spec' by done. by destruct (Z.testbit x k). }
  split_ltb; try lia; apply Hone; lia.
Qed.

(** *** Multiplication *)

Definition mul64_measure (s : lexint_t * lexint_t * Z) : nat :=
  let '(_, _, b) := s in if b =? 0 then 0%nat else S (Z.to_nat (Z.log2 b)).

Definition mul64_inv (p : Z) (s : lexint_t * lexint_t * Z) : Prop :=
  let '(ret, t, b) := s in
  lexint_wf ret /\ lexint_wf t /\ is_u64 b /\
  (lexint_val ret + lexint_val t * b) mod 2 ^ 128 = p mod 2 ^ 128.

Lemma lexint_mul64_step p s :
  mul64_inv p s -> lexint_mul64_cond s = true ->
  mul64_inv p (lexint_mul64_body s) /\ (mul64_measure (lexint_mul64_body s) < mul64_measure s)%nat.
Proof.
  destruct s as [[ret t] b]. intros (Hret & Ht & Hb & Heq) Hc%Z.ltb_lt.
  assert (Hdiv : b = 2 * (b >>! 1) + Z.land b 1).
  { unfold shr64. rewrite land_1, Z.shiftr_div_pow2 by lia. by apply Z.div_mod. }
  assert (Hbit : Z.land b 1 = 0 \/ Z.land b 1 = 1).
  { rewrite land_1. pose proof (Z.mod_pos_bound b 2). lia. }
  assert (exists ret', lexint_mul64_body (ret, t, b) = (ret', lexint_shl t 1, b >>! 1) /\
    lexint_wf ret' /\
    lexint_val ret' mod 2 ^ 128 = (lexint_val ret + lexint_val t * Z.land b 1) mod 2 ^ 128)
    as (ret' & -> & Hwf' & Hval').
  { unfold lexint_mul64_body. eexists. split; [done|].
    destruct Hbit as [-> | ->]; simpl.
    - rewrite Z.mul_0_r, Z.add_0_r. by split.
    - rewrite lexint_add_val, Z.mul_1_r, Z.mod_mod by done. auto with word_range. }
  split.
  - split; [done|]. split; [auto with word_range|]. split; [auto with word_range|].
    rewrite <- Heq, lexint_shl_val by (done || unfold is_u64; lia).
    rewrite Hdiv at 2. rewrite <- Zplus_mod_idemp_r, Zmult_mod_idemp_l, Zplus_mod_idemp_r.
    rewrite <- Zplus_mod_idemp_l, Hval', Zplus_mod_idemp_l. f_equal. lia.
  - unfold mul64_measure. destruct (Z.eqb_spec b 0); [lia|].
    destruct (Z.eqb_spec (b >>! 1) 0); [lia|]. unfold shr64 in *.
    rewrite Z.log2_shiftr by lia. pose proof (Z.log2_nonneg b).
    assert (1 <= Z.log2 b); [|lia]. apply Z.log2_le_pow2; [lia|].
    rewrite Z.shiftr_div_pow2 in * by lia. lia.
Qed.

Lemma lexint_mul64_val a b :
  lexint_wf a -> is_u64 b ->
  exists r, lexint_mul64 a b = Some r /\ lexint_wf r /\
    lexint_val r = (lexint_val a * b) mod 2 ^ 128.
Proof.
  intros Ha Hb. unfold lexint_mul64.
  destruct (while_inv (mul64_inv (lexint_val a * b)) mul64_measure lexint_mul64_cond
    lexint_mul64_body 64 (lexint_zero, a, b)) as ([[ret t] b'] & -> & Hinv & Hc).
  - intros s Hs Hc. by apply lexint_mul64_step.
  - split; [auto with word_range|]. by split.
  - unfold mul64_measure. destruct (Z.eqb_spec b 0); [lia|].
    assert (Z.log2 b < 64); [|lia]. unfold is_u64 in Hb. apply Z.log2_lt_pow2; lia.
  - destruct Hinv as (Hret & _ & Hb' & Heq). apply Z.ltb_ge in Hc.
    exists ret. split; [done|]. split; [done|]. unfold is_u64 in Hb'.
    rewrite <- Heq. replace b' with 0 by lia. rewrite Z.mul_0_r, Z.add_0_r.
    symmetry. apply Z.mod_small, lexint_val_range, Hret.
Qed.

(** *** Division *)

(** Bits of the dividend still to be read at counter [i] (255 is "done"). *)
Definition div64_left (i : Z) : Z := if i =? 255 then 0 else i + 1.

Definition div64_inv (A b : Z) (s : lexint_t * lexint_t * Z) : Prop :=
  let '(ret, r, i) := s in
  lexint_wf ret /\ lexint_wf r /\ (0 <= i < 128 \/ i = 255) /\
  lexint_val r = (A / 2 ^ div64_left i) mod b /\
  lexint_val ret = (A / 2 ^ div64_left i / b) * 2 ^ div64_left i.

Lemma lexint_or_bit0 r bit :
  lexint_wf r -> lexint_val r < 2 ^ 127 -> 0 <= bit <= 1 ->
  let r' := lexint_shl r 1 in
  lexint_wf {| low := Z.lor (low r') bit; high := high r' |} /\
  lexint_val {| low := Z.lor (low r') bit; high := high r' |} = 2 * lexint_val r + bit.
Proof.
  intros Hr Hlt Hbit r'. assert (Hr' : lexint_wf r') by by apply lexint_shl_wf.
  split; [apply lexint_wf_intro; auto with word_range|].
  assert (Hv : lexint_val r' = 2 * lexint_val r).
  { subst r'. rewrite lexint_shl_val by (done || unfold is_u64; lia).
    pose proof (lexint_val_range r Hr). rewrite Z.mod_small; lia. }
  assert (Z.lor (low r') bit = low r' + bit) as Hlor.
  { rewrite lor_add_disjoint; [done|]. by_bits i Hi. rewrite Z.land_spec, Z.bits_0.
    destruct (decide (i = 0)) as [->|].
    - unfold lexint_val in Hv. rewrite Z.bit0_odd.
      replace (Z.odd (low r')) with false; [done|].
      assert (low r' = 2 * (lexint_val r - high r' * 2 ^ 63)) as -> by (unfold lexint_val; lia).
      by rewrite Z.odd_mul.
    - rewrite (testbit_high 1 bit i) by lia. apply andb_false_r. }
  rewrite <- Hv. clearbody r'. unfold lexint_val. simpl. lia.
Qed.

Lemma div64_step A b q r bit :
  0 < b -> 0 <= r < b -> 0 <= bit <= 1 -> A = 2 * (q * b + r) + bit ->
  A / b = 2 * q + bool_to_u64 (b <=? 2 * r + bit) /\
  A mod b = 2 * r + bit - b * bool_to_u64 (b <=? 2 * r + bit).
Proof.
  intros Hb Hr Hbit ->. unfold bool_to_u64. destruct (Z.leb_spec b (2 * r + bit)); cbv beta iota.
  - split; symmetry; [apply (Z.div_unique _ _ _ (2 * r + bit - b))
                     |apply (Z.mod_unique _ _ (2 * q + 1))]; lia.
  - split; symmetry; [apply (Z.div_unique _ _ _ (2 * r + bit))
                     |apply (Z.mod_unique _ _ (2 * q))]; lia.
Qed.

Lemma div64_left_step i :
  0 <= i < 128 -> div64_left i = i + 1 /\ div64_left (u8 (i - 1)) = i /\
  (0 <= u8 (i - 1) < 128 \/ u8 (i - 1) = 255).
Proof.
  intros Hi. unfold div64_left, u8, wrap. destruct (decide (i = 0)) as [->|].
  { split; [done|]. split; [done|]. by right. }
  rewrite Z.mod_small by lia. split_ltb; lia.
Qed.

Lemma lexint_div64_step a b s :
  lexint_wf a -> is_u64 b -> 1 < b ->
  div64_inv (lexint_val a) b s -> lexint_div64_cond s = true ->
  div64_inv (lexint_val a) b (lexint_div64_body a b s) /\
  (Z.to_nat (div64_left (lexint_div64_body a b s).2) < Z.to_nat (div64_left s.2))%nat.
Proof.
  destruct s as [[ret r] i]. intros Ha Hb H1b (Hret & Hr & Hi & Hrv & Hretv) Hc%Z.ltb_lt.
  assert (Hi' : 0 <= i < 128) by lia. clear Hi Hc. simpl (_, _, i).2.
  destruct (div64_left_step i Hi') as (Hl & Hl' & Hu). rewrite Hl in Hrv, Hretv.
  pose proof (lexint_val_range a Ha) as HA. set (A := lexint_val a) in *.
  pose proof (Z.mod_pos_bound (A / 2 ^ (i + 1)) b). unfold is_u64 in Hb.
  assert (Hbit : Z.land (low (lexint_shr a i)) 1 = (A / 2 ^ i) mod 2).
  { rewrite land_1. unfold A. rewrite <- lexint_shr_val by (done || unfold is_u64; lia).
    unfold lexint_val. replace (2 ^ 64) with (2 ^ 63 * 2) by done.
    by rewrite Z.mul_assoc, Z.add_comm, Z.mod_add by lia. }
  pose proof (Z.mod_pos_bound (A / 2 ^ i) 2).
  assert (Hdec : A / 2 ^ i = 2 * (A / 2 ^ (i + 1)) + (A / 2 ^ i) mod 2).
  { replace (A / 2 ^ (i + 1)) with (A / 2 ^ i / 2); [by apply Z.div_mod|].
    rewrite Z.div_div, Z.pow_add_r by lia. done. }
  destruct (lexint_or_bit0 r ((A / 2 ^ i) mod 2)) as [Hr'wf Hr'v]; [done|lia..|].
  unfold lexint_div64_body. rewrite Hbit. set (r' := {| low := _; high := _ |}) in *.
  destruct (div64_step (A / 2 ^ i) b (A / 2 ^ (i + 1) / b) ((A / 2 ^ (i + 1)) mod b)
    ((A / 2 ^ i) mod 2)) as [Hq Hm]; [lia..| |].
  { rewrite Hdec at 1. pose proof (Z.div_mod (A / 2 ^ (i + 1)) b). lia. }
  rewrite lexint_cmp64_val, Hr'v, Hrv by done. rewrite Hrv in Hr'v.
  set (r2 := 2 * ((A / 2 ^ (i + 1)) mod b) + _) in *. set (q := A / 2 ^ (i + 1) / b) in *.
  assert (0 <= q) by (apply Z.div_pos; [apply Z.div_pos|]; lia).
  assert (Hpow : 2 ^ (i + 1) = 2 * 2 ^ i) by (rewrite Z.pow_add_r by lia; lia).
  destruct (Z.leb_spec b r2) as [Hle|Hlt]; unfold bool_to_u64 in Hq, Hm.
  - replace (0 <=? _) with true by (destruct (Z.compare_spec r2 b); lia || done).
    split; [|simpl; rewrite Hl, Hl'; lia]. split; [auto with word_range|].
    split; [auto with word_range|]. split; [done|]. rewrite Hl', Hq, Hm.
    rewrite lexint_sub64_val, Hr'v, lexint_setbit_val, Hretv by (done || lia).
    split; [rewrite Z.mod_small; lia|].
    rewrite <- (Z.shiftl_mul_pow2 q), lor_shiftl_add by lia. lia.
  - replace (0 <=? _) with false by (destruct (Z.compare_spec r2 b); lia || done).
    split; [|simpl; rewrite Hl, Hl'; lia]. split; [done|]. split; [done|]. split; [done|].
    rewrite Hl', Hq, Hm, Hr'v, Hretv, Hpow. split; lia.
Qed.

Lemma lexint_div64_total a b :
  lexint_wf a -> is_u64 b ->
  exists r, lexint_div64 a b = Some r /\ lexint_wf r /\ lexint_val r = lexint_val a / b.
Proof.
  intros Ha Hb. unfold lexint_div64. destruct (Z.eqb_spec b 0) as [->|].
  { exists lexint_zero. rewrite Z.div_0_r. auto with word_range. }
  destruct (Z.eqb_spec b 1) as [->|].
  { exists a. by rewrite Z.div_1_r. }
  assert (1 < b) by (unfold is_u64 in Hb; lia).
  destruct (while_inv (div64_inv (lexint_val a) b) (fun s => Z.to_nat (div64_left s.2))
    lexint_div64_cond (lexint_div64_body a b) 128 (lexint_zero, lexint_zero, 127))
    as ([[ret r] i] & -> & (Hret & _ & Hi & _ & Hv) & Hc).
  - intros s Hs Hcs. by apply lexint_div64_step.
  - split; [auto with word_range|]. split; [auto with word_range|]. split; [lia|].
    pose proof (lexint_val_range a Ha).
    change (div64_left 127) with 128. rewrite Z.div_small by done.
    rewrite Z.mod_0_l, Z.div_0_l by lia. done.
  - vm_compute. lia.
  - exists ret. split; [done|]. split; [done|]. apply Z.ltb_ge in Hc.
    assert (i = 255) as -> by lia. rewrite Hv. unfold div64_left. simpl.
    by rewrite Z.div_1_r, Z.mul_1_r.
Qed.

(** *** Accumulation of digits *)

(** Dividing a wrapped product by the multiplier gives back the other factor
    exactly when the product did not wrap. *)
Lemma mod_div_back v b :
  0 < b -> 0 <= v -> ((v * b) mod 2 ^ 128 / b = v <-> v * b < 2 ^ 128).
Proof.
  intros Hb Hv. split; intros H.
  - destruct (decide (v * b < 2 ^ 128)) as [|Hge]; [done|].
    assert ((v * b) mod 2 ^ 128 < v * b).
    { pose proof (Z.mod_pos_bound (v * b) (2 ^ 128)). lia. }
    assert ((v * b) mod 2 ^ 128 / b < v) by (apply Z.div_lt_upper_bound; lia). lia.
  - rewrite Z.mod_small by nia. by apply Z.div_mul; lia.
Qed.

Lemma lexint_cmp_eq0 a b :
  lexint_wf a -> lexint_wf b -> (lexint_cmp a b =? 0) = (lexint_val a =? lexint_val b).
Proof.
  intros. rewrite lexint_cmp_val by done.
  destruct (Z.compare_spec (lexint_val a) (lexint_val b)); split_ltb; done || lia.
Qed.

Lemma lexint_cmp_lt0 a b :
  lexint_wf a -> lexint_wf b -> (lexint_cmp a b <? 0) = (lexint_val a <? lexint_val b).
Proof.
  intros. rewrite lexint_cmp_val by done.
  destruct (Z.compare_spec (lexint_val a) (lexint_val b)); split_ltb; done || lia.
Qed.

(** *** Leading zeros *)

(** The invariant of the search: the top [k] bits of the shifted number hold its
    first set bit, and the count records the shift. *)
Definition clz_ok (n k : Z) (nc : Z * Z) : Prop :=
  0 < nc.1 < 2 ^ 64 /\ 64 - k <= Z.log2 nc.1 /\ nc.2 + (63 - Z.log2 nc.1) = 63 - Z.log2 n.

Lemma clz_step_ok n s k nc :
  s = 64 - k -> 0 < k -> 2 * k <= 64 -> clz_ok n (2 * k) nc -> clz_ok n k (clz_step s k nc).
Proof.
  intros -> Hk Hk2. destruct nc as [m c]. unfold clz_ok, clz_step, shr64. simpl.
  intros (Hn & Hlog & Hc). rewrite Z.shiftr_div_pow2 by lia.
  destruct (Z.eqb_spec (m / 2 ^ (64 - k)) 0) as [Hz|Hz]; simpl.
  - apply Z.div_small_iff in Hz; [|lia]. destruct Hz as [Hz|Hz]; [|lia].
    assert (m * 2 ^ k < 2 ^ (64 - k) * 2 ^ k) as Hlt by (apply Z.mul_lt_mono_pos_r; lia).
    rewrite <- Z.pow_add_r in Hlt by lia. replace (64 - k + k) with 64 in Hlt by lia.
    unfold shl64. rewrite Z.shiftl_mul_pow2 by lia.
    rewrite u64_id by (unfold is_u64; nia). rewrite Z.log2_mul_pow2 by lia.
    split; [nia|]. lia.
  - split; [done|]. split; [|done]. apply Z.log2_le_pow2; [lia|].
    destruct (decide (2 ^ (64 - k) <= m)); [done|]. exfalso. apply Hz, Z.div_small. lia.
Qed.

Lemma count_leading_zeros_log2 n :
  0 < n < 2 ^ 64 -> count_leading_zeros n = 63 - Z.log2 n.
Proof.
  intros Hn. unfold count_leading_zeros. destruct (Z.eqb_spec n 0); [lia|].
  assert (clz_ok n 1 (clz_step 63 1 (clz_step 62 2 (clz_step 60 4 (clz_step 56 8
       (clz_step 48 16 (clz_step 32 32 (n, 0)))))))) as (Hr & Hlog & Hc).
  { apply clz_step_ok; [lia..|]. apply (clz_step_ok _ 62 2); [lia..|].
    apply (clz_step_ok _ 60 4); [lia..|]. apply (clz_step_ok _ 56 8); [lia..|].
    apply (clz_step_ok _ 48 16); [lia..|]. apply (clz_step_ok _ 32 32); [lia..|].
    pose proof (Z.log2_nonneg n). unfold clz_ok. simpl. lia. }
  revert Hr Hlog Hc. generalize (clz_step 63 1 (clz_step 62 2 (clz_step 60 4 (clz_step 56 8
       (clz_step 48 16 (clz_step 32 32 (n, 0))))))). intros [m c] Hr Hlog Hc. simpl in *.
  assert (Z.log2 m < 64) by (apply Z.log2_lt_pow2; lia). lia.
Qed.

(** *** Rounding to a double *)

(** [raw] is the IEEE-754 binary64 encoding (sign 0, biased exponent [E + 1023],
    fraction [M - 2^52]) of the double nearest to the positive integer [v], ties
    going to the even significand.  With [e = log2 v] the doubles around [v] are
    [2^(e-52)] apart, so the distance between [v] and [M * 2^(E-52)], scaled by
    [2^52], is at most [2^(e-1)]. *)
Definition nearest_even (v raw : Z) : Prop :=
  exists M E, 2 ^ 52 <= M < 2 ^ 53 /\ 0 <= E <= 128 /\
    raw = (E + 1023) * 2 ^ 52 + (M - 2 ^ 52) /\
    2 * Z.abs (v * 2 ^ 52 - M * 2 ^ E) <= 2 ^ Z.log2 v /\
    (2 * Z.abs (v * 2 ^ 52 - M * 2 ^ E) = 2 ^ Z.log2 v -> Z.even M = true).

Lemma sig_bit_count_log2 i :
  lexint_wf i -> 0 < lexint_val i ->
  (if high i =? 0 then 64 - count_leading_zeros (low i)
   else 128 - count_leading_zeros (high i)) = Z.log2 (lexint_val i) + 1.
Proof.
  unfold lexint_wf, is_u64, lexint_val. intros [Hl Hh] Hpos.
  destruct (Z.eqb_spec (high i) 0) as [Heq|Hne].
  - rewrite Heq in *. rewrite count_leading_zeros_log2 by lia.
    rewrite Z.mul_0_l, Z.add_0_l. lia.
  - rewrite count_leading_zeros_log2 by lia.
    rewrite <- lor_shiftl_add by (done || lia).
    rewrite Z.log2_lor, Z.log2_shiftl by (try apply Z.shiftl_nonneg; lia).
    assert (Z.log2 (low i) < 64).
    { destruct (decide (low i = 0)) as [->|]; [done|]. apply Z.log2_lt_pow2; lia. }
    pose proof (Z.log2_nonneg (high i)). lia.
Qed.

(** The 55-bit mantissa before rounding of a number [v] of at least 54 bits: its
    top 53 bits [q], and two bits [c] that compare the rest with one half. *)
Definition round_bits (v q c : Z) : Prop :=
  let u := 2 ^ (Z.log2 v - 52) in
  exists r, v = q * u + r /\ 0 <= r < u /\ 0 <= c < 4 /\
    (c < 2 -> 2 * r < u) /\ (c = 2 -> 2 * r = u) /\ (2 < c -> u < 2 * r).

Lemma lor_1 x : 0 <= x -> Z.lor x 1 = 2 * (x / 2) + 1.
Proof.
  intros Hx. by_bits i Hi. rewrite Z.lor_spec.
  destruct (decide (i = 0)) as [->|].
  - rewrite Z.testbit_odd_0. by rewrite orb_true_r.
  - replace i with (Z.succ (i - 1)) by lia. rewrite Z.testbit_odd_succ by lia.
    rewrite (testbit_high 1 1) by lia. rewrite orb_false_r.
    change 2 with (2 ^ 1) at 1. rewrite <- Z.shiftr_div_pow2, Z.shiftr_spec by lia.
    done.
Qed.

Lemma small_low i w : lexint_wf i -> 0 <= w <= 64 -> lexint_val i < 2 ^ w -> low i = lexint_val i.
Proof.
  unfold lexint_wf, is_u64, lexint_val. intros [Hl Hh] Hw Hlt.
  assert (2 ^ w <= 2 ^ 64) by (apply Z.pow_le_mono_r; lia). nia.
Qed.

Lemma div_bounds_log2 v k : 0 < v -> 0 <= k <= Z.log2 v ->
  2 ^ (Z.log2 v - k) <= v / 2 ^ k < 2 ^ (Z.log2 v - k + 1).
Proof.
  intros Hv Hk. pose proof (Z.log2_spec v Hv) as [Hlo Hhi]. split.
  - apply Z.div_le_lower_bound; [lia|]. rewrite <- Z.pow_add_r by lia.
    by replace (k + (Z.log2 v - k)) with (Z.log2 v) by lia.
  - apply Z.div_lt_upper_bound; [lia|]. rewrite <- Z.pow_add_r by lia.
    by replace (k + (Z.log2 v - k + 1)) with (Z.succ (Z.log2 v)) by lia.
Qed.

(** The sticky bit: the bits below the 55 most significant ones, collapsed. *)
Definition sticky (v s : Z) : Z :=
  let m := v / 2 ^ s in if m * 2 ^ s =? v then m else 2 * (m / 2) + 1.

Lemma sticky_round_bits v s :
  0 <= s -> Z.log2 v - 52 = s + 2 -> 0 < v ->
  exists q c, sticky v s = 4 * q + c /\ q = v / 2 ^ (s + 2) /\ round_bits v q c.
Proof.
  intros Hs He Hv. unfold round_bits. rewrite He, Z.pow_add_r by lia.
  change (2 ^ 2) with 4. assert (0 < 2 ^ s) as Hp by lia. set (p := 2 ^ s) in *.
  rewrite <- Z.div_div by lia.
  pose proof (Z.div_mod v p ltac:(lia)) as Hvm. pose proof (Z.mod_pos_bound v p Hp) as Hlo.
  unfold sticky. fold p. set (m := v / p) in *.
  pose proof (Z.div_mod m 4 ltac:(lia)) as Hm4. pose proof (Z.mod_pos_bound m 4 ltac:(lia)).
  pose proof (Z.div_mod (m mod 4) 2 ltac:(lia)). pose proof (Z.mod_pos_bound (m mod 4) 2 ltac:(lia)).
  assert (Hm2 : m / 2 = 2 * (m / 4) + m mod 4 / 2).
  { symmetry. apply (Z.div_unique _ _ _ (m mod 4 mod 2)); lia. }
  exists (m / 4), (if m * p =? v then m mod 4 else 2 * (m mod 4 / 2) + 1).
  split; [destruct (m * p =? v); lia|]. split; [done|].
  exists ((m mod 4) * p + v mod p).
  assert (m mod 4 = 0 \/ m mod 4 = 1 \/ m mod 4 = 2 \/ m mod 4 = 3) as Hc by lia.
  split; [nia|]. destruct (Z.eqb_spec (m * p) v).
  - destruct Hc as [-> | [-> | [-> | ->]]]; lia.
  - assert (0 < v mod p) by lia.
    destruct Hc as [-> | [-> | [-> | ->]]]; change (0 / 2) with 0; change (1 / 2) with 0;
      change (2 / 2) with 1; change (3 / 2) with 1; lia.
Qed.

Lemma lexint_double_mantissa_spec i :
  lexint_wf i -> 53 <= Z.log2 (lexint_val i) ->
  exists q c, lexint_double_mantissa i (Z.log2 (lexint_val i) + 1) = 4 * q + c /\
    2 ^ 52 <= q < 2 ^ 53 /\ round_bits (lexint_val i) q c.
Proof.
  intros Hi He. pose proof (lexint_val_range i Hi) as Hr. set (v := lexint_val i) in *.
  assert (Hv : 0 < v).
  { destruct (decide (0 < v)); [done|]. rewrite Z.log2_nonpos in He by lia. lia. }
  assert (Z.log2 v < 128) by (apply Z.log2_lt_pow2; lia).
  pose proof (Z.log2_spec v Hv) as Hspec. unfold lexint_double_mantissa.
  pose proof (div_bounds_log2 v (Z.log2 v - 52) Hv ltac:(lia)) as Hq.
  replace (Z.log2 v - (Z.log2 v - 52)) with 52 in Hq by lia. change (52 + 1) with 53 in Hq.
  destruct (Z.eqb_spec (Z.log2 v + 1) 54) as [H54|H54].
  - replace (Z.succ (Z.log2 v)) with 54 in * by lia.
    assert (Hlow : low i = v) by (apply (small_low i 54); done || lia).
    exists (v / 2), (2 * (v mod 2)). pose proof (Z.mod_pos_bound v 2 ltac:(lia)).
    replace (Z.log2 v - 52) with 1 in Hq by lia. change (2 ^ 1) with 2 in Hq.
    unfold shl64. rewrite Hlow, Z.shiftl_mul_pow2, u64_id by (unfold is_u64; lia).
    pose proof (Z.div_mod v 2 ltac:(lia)). split; [lia|]. split; [done|].
    exists (v mod 2). replace (Z.log2 v - 52) with 1 by lia. lia.
  - set (s := Z.log2 v - 54).
    assert (exists q c, sticky v s = 4 * q + c /\ q = v / 2 ^ (s + 2) /\ round_bits v q c)
      as (q & c & Hst & Hqv & Hrb) by (apply sticky_round_bits; lia).
    exists q, c. replace (s + 2) with (Z.log2 v - 52) in Hqv by lia.
    split; [|split; [by rewrite Hqv|done]]. rewrite <- Hst. unfold sticky.
    destruct (Z.ltb_spec 55 (Z.log2 v + 1)).
    + replace (Z.log2 v + 1 - 55) with s by lia.
      assert (Hs64 : is_u64 s) by (unfold is_u64; lia).
      pose proof (lexint_shr_wf i s ltac:(lia) Hi) as Ht.
      pose proof (lexint_shr_val i s Hi Hs64) as Htv. fold v in Htv.
      pose proof (div_bounds_log2 v s Hv ltac:(lia)) as Hd.
      replace (Z.log2 v - s + 1) with 55 in Hd by lia.
      rewrite lexint_cmp_eq0 by auto with word_range. fold v.
      rewrite lexint_shl_val, Htv by done.
      rewrite (small_low _ 55 Ht), Htv by (rewrite ?Htv; lia).
      pose proof (Z.mul_div_le v (2 ^ s) ltac:(lia)).
      assert (0 <= v / 2 ^ s * 2 ^ s) by (apply Z.mul_nonneg_nonneg; [apply Z.div_pos|]; lia).
      rewrite Z.mod_small by lia.
      destruct (Z.eqb_spec (v / 2 ^ s * 2 ^ s) v); simpl; [done|].
      apply lor_1. apply Z.div_pos; lia.
    + assert (s = 0) as -> by lia. rewrite Z.div_1_r, Z.mul_1_r, Z.eqb_refl.
      apply (small_low i 55 Hi); [lia|]. fold v.
      replace 55 with (Z.succ (Z.log2 v)) by lia. lia.
Qed.

(** Rounding the 55-bit mantissa [4 q + c] to 53 bits, half to even. *)
Definition round_mantissa (m : Z) : Z :=
  ((if negb (Z.land m 4 =? 0) then Z.lor m 1 else m) ⊞ 1) >>! 2.

Lemma land_pow2_eqb m k : 0 <= k -> (Z.land m (2 ^ k) =? 0) = negb (Z.testbit m k).
Proof.
  intros Hk. destruct (Z.testbit m k) eqn:Hb; simpl.
  - apply Z.eqb_neq. intros H0. assert (Z.testbit (Z.land m (2 ^ k)) k = false) as H.
    { by rewrite H0, Z.bits_0. }
    by rewrite Z.land_spec, Hb, Z.pow2_bits_true in H.
  - apply Z.eqb_eq. by_bits i Hi. rewrite Z.land_spec, Z.bits_0, Z.pow2_bits_eqb by done.
    destruct (Z.eqb_spec k i) as [->|]; [by rewrite Hb|]. apply andb_false_r.
Qed.

Lemma round_mantissa_spec q c :
  2 ^ 52 <= q < 2 ^ 53 -> 0 <= c < 4 ->
  round_mantissa (4 * q + c) =
    q + bool_to_u64 ((c =? 3) || ((c =? 2) && Z.odd q)).
Proof.
  intros Hq Hc. unfold round_mantissa. change 4 with (2 ^ 2) at 2.
  rewrite land_pow2_eqb, negb_involutive by lia.
  assert (Hdiv : forall d, 0 <= d < 4 -> (4 * q + d) / 4 = q).
  { intros d Hd. symmetry. apply (Z.div_unique _ _ _ d); lia. }
  assert (Z.testbit (4 * q + c) 2 = Z.odd q) as ->.
  { rewrite <- Z.bit0_odd. transitivity (Z.testbit ((4 * q + c) / 2 ^ 2) 0).
    - by rewrite <- Z.shiftr_div_pow2, Z.shiftr_spec by lia.
    - by rewrite Hdiv. }
  assert (Hlor : Z.lor (4 * q + c) 1 = 4 * q + (2 * (c / 2) + 1)).
  { rewrite lor_1 by lia. replace (4 * q + c) with (2 * q * 2 + c) by lia.
    rewrite Z.div_add_l by lia. lia. }
  assert (Hfin : forall d, 0 <= d < 4 ->
    ((4 * q + d) ⊞ 1) >>! 2 = q + bool_to_u64 (d =? 3)).
  { intros d Hd. unfold add64. rewrite u64_id by (unfold is_u64; lia).
    unfold shr64. rewrite Z.shiftr_div_pow2 by lia. change (2 ^ 2) with 4.
    symmetry. destruct (Z.eqb_spec d 3); cbv beta iota delta [bool_to_u64].
    - apply (Z.div_unique _ _ _ 0); lia.
    - apply (Z.div_unique _ _ _ (d + 1)); lia. }
  rewrite Hlor. assert (c = 0 \/ c = 1 \/ c = 2 \/ c = 3) as Hc4 by lia.
  destruct (Z.odd q), Hc4 as [-> | [-> | [-> | ->]]]; by rewrite Hfin.
Qed.

Lemma encode_double M E :
  2 ^ 52 <= M < 2 ^ 53 -> 0 <= E <= 128 ->
  Z.lor ((E ⊞ 1023) <<! 52) (Z.land M 0xFFFFFFFFFFFFF) = (E + 1023) * 2 ^ 52 + (M - 2 ^ 52).
Proof.
  intros HM HE. change 0xFFFFFFFFFFFFF with (2 ^ 52 - 1). rewrite land_ones_mod by lia.
  assert (M mod 2 ^ 52 = M - 2 ^ 52) as -> by (symmetry; apply (Z.mod_unique _ _ 1); lia).
  unfold add64. rewrite u64_id by (unfold is_u64; lia).
  unfold shl64. rewrite u64_id.
  - rewrite lor_shiftl_add by lia. lia.
  - rewrite Z.shiftl_mul_pow2 by lia. unfold is_u64. lia.
Qed.

Lemma round_bits_nearest v q c :
  0 < v -> 53 <= Z.log2 v -> round_bits v q c ->
  let M := q + bool_to_u64 ((c =? 3) || ((c =? 2) && Z.odd q)) in
  2 * Z.abs (v * 2 ^ 52 - M * 2 ^ Z.log2 v) <= 2 ^ Z.log2 v /\
  (2 * Z.abs (v * 2 ^ 52 - M * 2 ^ Z.log2 v) = 2 ^ Z.log2 v -> Z.even M = true).
Proof.
  intros Hv He. unfold round_bits.
  assert (2 ^ Z.log2 v = 2 ^ 52 * 2 ^ (Z.log2 v - 52)) as ->.
  { rewrite <- Z.pow_add_r by lia. f_equal. lia. }
  set (u := 2 ^ (Z.log2 v - 52)). intros (r & Hvr & Hr & Hc & Hlt & Heq & Hgt).
  clearbody u. rewrite Hvr.
  assert (forall d, (q * u + r) * 2 ^ 52 - (q + d) * (2 ^ 52 * u) = 2 ^ 52 * (r - d * u)) as Hd by nia.
  rewrite !Hd. assert (c < 2 \/ c = 2 \/ c = 3) as [Hc2 | [-> | ->]] by lia.
  - replace (c =? 3) with false by lia. replace (c =? 2) with false by lia. simpl bool_to_u64.
    specialize (Hlt Hc2). lia.
  - specialize (Heq eq_refl). rewrite <- Z.negb_odd. simpl (2 =? 3). simpl (2 =? 2).
    destruct (Z.odd q) eqn:Hodd; simpl bool_to_u64.
    + rewrite Z.odd_add, Hodd. split; [lia|done].
    + rewrite Z.add_0_r, Hodd. split; [lia|done].
  - simpl bool_to_u64. lia.
Qed.

Lemma lexint_double_small i :
  lexint_wf i -> 0 < lexint_val i -> Z.log2 (lexint_val i) <= 52 ->
  nearest_even (lexint_val i)
    (Z.lor ((Z.log2 (lexint_val i) ⊞ 1023) <<! 52)
       (Z.land (low i <<! (53 - (Z.log2 (lexint_val i) + 1))) 0xFFFFFFFFFFFFF)).
Proof.
  intros Hi Hv He. set (v := lexint_val i) in *. pose proof (Z.log2_nonneg v).
  pose proof (Z.log2_spec v Hv) as Hspec.
  assert (low i = v) as ->.
  { apply (small_low i 53 Hi); [lia|]. fold v.
    assert (2 ^ Z.succ (Z.log2 v) <= 2 ^ 53) by (apply Z.pow_le_mono_r; lia). lia. }
  replace (53 - (Z.log2 v + 1)) with (52 - Z.log2 v) by lia.
  assert (Hp : 2 ^ 52 = 2 ^ Z.log2 v * 2 ^ (52 - Z.log2 v)).
  { rewrite <- Z.pow_add_r by lia. f_equal. lia. }
  rewrite Z.pow_succ_r in Hspec by lia.
  assert (2 ^ 52 <= v * 2 ^ (52 - Z.log2 v) < 2 ^ 53).
  { change (2 ^ 53) with (2 * 2 ^ 52). rewrite Hp. nia. }
  assert (v <<! (52 - Z.log2 v) = v * 2 ^ (52 - Z.log2 v)) as ->.
  { unfold shl64. rewrite Z.shiftl_mul_pow2 by lia. apply u64_id. unfold is_u64. lia. }
  exists (v * 2 ^ (52 - Z.log2 v)), (Z.log2 v). split; [done|]. split; [lia|].
  split; [by apply encode_double; lia|].
  rewrite <- Z.mul_assoc, (Z.mul_comm (2 ^ (52 - _))), <- Hp, Z.sub_diag. simpl. lia.
Qed.

Lemma lexint_double_large i :
  lexint_wf i -> 53 <= Z.log2 (lexint_val i) ->
  let v := lexint_val i in
  let mantissa := round_mantissa (lexint_double_mantissa i (Z.log2 v + 1)) in
  let '(mantissa, exponent) :=
    if negb (Z.land mantissa (1 <<! 53) =? 0) then (mantissa >>! 1, Z.log2 v ⊞ 1)
    else (mantissa, Z.log2 v) in
  nearest_even v (Z.lor ((exponent ⊞ 1023) <<! 52) (Z.land mantissa 0xFFFFFFFFFFFFF)).
Proof.
  intros Hi He. destruct (lexint_double_mantissa_spec i Hi He) as (q & c & Hm & Hq & Hrb).
  cbv zeta. rewrite Hm, round_mantissa_spec by (done || by destruct Hrb as (? & ? & ? & ? & ?)).
  pose proof (lexint_val_range i Hi) as Hr. set (v := lexint_val i) in *.
  assert (Hv : 0 < v).
  { destruct (decide (0 < v)); [done|]. rewrite Z.log2_nonpos in He by lia. lia. }
  assert (Z.log2 v < 128) by (apply Z.log2_lt_pow2; lia).
  destruct (round_bits_nearest v q c Hv He Hrb) as [Hn Ht].
  set (M := q + _) in *.
  assert (HM : 2 ^ 52 <= M <= 2 ^ 53) by (subst M; destruct (_ || _); simpl bool_to_u64; lia).
  change (1 <<! 53) with (2 ^ 53). rewrite land_pow2_eqb, negb_involutive by lia.
  destruct (decide (M = 2 ^ 53)) as [Heq|Hne].
  - rewrite Heq in *. change (Z.testbit (2 ^ 53) 53) with true. cbv beta iota.
    change (2 ^ 53 >>! 1) with (2 ^ 52). unfold add64 at 2. rewrite u64_id by (unfold is_u64; lia).
    exists (2 ^ 52), (Z.log2 v + 1). split; [lia|]. split; [lia|].
    split; [by apply encode_double; lia|].
    replace (2 ^ 52 * 2 ^ (Z.log2 v + 1)) with (2 ^ 53 * 2 ^ Z.log2 v).
    + by split.
    + rewrite Z.pow_add_r by lia. lia.
  - rewrite (testbit_high 53 M) by lia. cbv beta iota. exists M, (Z.log2 v).
    split; [lia|]. split; [lia|]. split; [by apply encode_double; lia|]. by split.
Qed.

(** *** Word-wise operations *)

Lemma lexint_and_wf a b : lexint_wf a -> lexint_wf b -> lexint_wf (lexint_and a b).
Proof. intros Ha [[??] [??]]. apply lexint_wf_intro; auto with word_range. Qed.
Lemma lexint_or_wf a b : lexint_wf a -> lexint_wf b -> lexint_wf (lexint_or a b).
Proof. intros. apply lexint_wf_intro; auto with word_range. Qed.
Lemma lexint_xor_wf a b : lexint_wf a -> lexint_wf b -> lexint_wf (lexint_xor a b).
Proof. intros. apply lexint_wf_intro; auto with word_range. Qed.
#[export] Hint Resolve lexint_and_wf lexint_or_wf lexint_xor_wf : word_range.

Lemma lexint_and_val a b : lexint_wf a -> lexint_wf b ->
  lexint_val (lexint_and a b) = Z.land (lexint_val a) (lexint_val b).
Proof.
  intros Ha Hb. by_bits i Hi. rewrite Z.land_spec, !lexint_val_testbit by auto with word_range.
  simpl. rewrite !Z.land_spec. by destruct (i <? 64).
Qed.

Lemma lexint_or_val a b : lexint_wf a -> lexint_wf b ->
  lexint_val (lexint_or a b) = Z.lor (lexint_val a) (lexint_val b).
Proof.
  intros Ha Hb. by_bits i Hi. rewrite Z.lor_spec, !lexint_val_testbit by auto with word_range.
  simpl. rewrite !Z.lor_spec. by destruct (i <? 64).
Qed.

Lemma lexint_xor_val a b : lexint_wf a -> lexint_wf b ->
  lexint_val (lexint_xor a b) = Z.lxor (lexint_val a) (lexint_val b).
Proof.
  intros Ha Hb. by_bits i Hi. rewrite Z.lxor_spec, !lexint_val_testbit by auto with word_range.
  simpl. rewrite !Z.lxor_spec. by destruct (i <? 64).
Qed.

Lemma not64_val x : is_u64 x -> not64 x = 2 ^ 64 - 1 - x.
Proof.
  unfold is_u64. intros Hx. unfold not64, u64, wrap, Z.lnot.
  symmetry. apply (Z.mod_unique _ _ (-1)); lia.
Qed.

Lemma lexint_not_val a : lexint_wf a -> lexint_val (lexint_not a) = 2 ^ 128 - 1 - lexint_val a.
Proof.
  intros [Hl Hh]. unfold lexint_val. simpl. rewrite !not64_val by done. lia.
Qed.

(** ** Properties *)

(** Addition and subtraction, with a 128-bit or a 64-bit right operand, are
    exactly addition and subtraction modulo [2^128], carry and borrow between the
    words included; and the comparisons are those of the numbers. *)
Theorem lexint_arith_modular a b n :
  lexint_wf a -> lexint_wf b -> is_u64 n ->
  lexint_val (lexint_add a b) = (lexint_val a + lexint_val b) mod 2 ^ 128 /\
  lexint_val (lexint_sub a b) = (lexint_val a - lexint_val b) mod 2 ^ 128 /\
  lexint_val (lexint_add64 a n) = (lexint_val a + n) mod 2 ^ 128 /\
  lexint_val (lexint_sub64 a n) = (lexint_val a - n) mod 2 ^ 128 /\
  lexint_cmp a b = match lexint_val a ?= lexint_val b with Gt => 1 | Lt => -1 | Eq => 0 end /\
  lexint_cmp64 a n = match lexint_val a ?= n with Gt => 1 | Lt => -1 | Eq => 0 end.
Proof.
  intros Ha Hb Hn. split_and!;
    auto using lexint_add_val, lexint_sub_val, lexint_add64_val, lexint_sub64_val,
      lexint_cmp_val, lexint_cmp64_val.
Qed.

Lemma lexint_arith_modular_witness :
  let a := mk_lexint (2 ^ 64 - 1) 7 in
  lexint_val (lexint_add a a) = (lexint_val a + lexint_val a) mod 2 ^ 128.
Proof.
  refine (proj1 (lexint_arith_modular (mk_lexint (2 ^ 64 - 1) 7) (mk_lexint (2 ^ 64 - 1) 7) 3
    _ _ _)); vm_compute; split; done || split; done.
Defined.

(** Shifts by any 64-bit amount multiply and divide by the power of two (128
    and above give zero), and the single-bit and word-wise operations act on the
    bits of the 128-bit number. *)
Theorem lexint_bits_modular a b n i :
  lexint_wf a -> lexint_wf b -> is_u64 n -> 0 <= i < 128 ->
  lexint_val (lexint_shl a n) = (lexint_val a * 2 ^ n) mod 2 ^ 128 /\
  lexint_val (lexint_shr a n) = lexint_val a / 2 ^ n /\
  lexint_testbit a i = bool_to_u64 (Z.testbit (lexint_val a) i) /\
  lexint_val (lexint_setbit a i) = Z.lor (lexint_val a) (2 ^ i) /\
  lexint_val (lexint_and a b) = Z.land (lexint_val a) (lexint_val b) /\
  lexint_val (lexint_or a b) = Z.lor (lexint_val a) (lexint_val b) /\
  lexint_val (lexint_xor a b) = Z.lxor (lexint_val a) (lexint_val b) /\
  lexint_val (lexint_not a) = 2 ^ 128 - 1 - lexint_val a.
Proof.
  intros Ha Hb Hn Hi. split_and!;
    auto using lexint_shl_val, lexint_shr_val, lexint_testbit_val, lexint_setbit_val,
      lexint_and_val, lexint_or_val, lexint_xor_val, lexint_not_val.
Qed.

Lemma lexint_bits_modular_witness :
  let a := mk_lexint (2 ^ 64 - 1) 7 in
  lexint_val (lexint_shl a 127) = (lexint_val a * 2 ^ 127) mod 2 ^ 128.
Proof.
  refine (proj1 (lexint_bits_modular (mk_lexint (2 ^ 64 - 1) 7) (mk_lexint 1 2) 127 5
    _ _ _ _)); vm_compute; split; done || split; done.
Defined.

(** The shift-and-add multiplication always ends and gives the product modulo
    [2^128]; [lexint_mul] does so for a one-word multiplier and asserts otherwise. *)
Theorem lexint_mul_modular a b :
  lexint_wf a -> lexint_wf b ->
  (exists r, lexint_mul64 a (low b) = Some r /\ lexint_wf r /\
     lexint_val r = (lexint_val a * low b) mod 2 ^ 128) /\
  (high b = 0 -> lexint_mul a b = lexint_mul64 a (low b)) /\
  (high b <> 0 -> lexint_mul a b = None).
Proof.
  intros Ha Hb. split; [apply lexint_mul64_val; auto with word_range|].
  unfold lexint_mul. by destruct (Z.eqb_spec (high b) 0).
Qed.

Lemma lexint_mul_modular_witness :
  let a := mk_lexint (2 ^ 64 - 1) 7 in
  exists r, lexint_mul64 a 1000 = Some r /\ lexint_wf r /\
     lexint_val r = (lexint_val a * 1000) mod 2 ^ 128.
Proof.
  refine (proj1 (lexint_mul_modular (mk_lexint (2 ^ 64 - 1) 7) (mk_lexint 1000 0) _ _));
    vm_compute; split; done || split; done.
Defined.

(** The restoring division always ends and gives the quotient (zero for a zero
    divisor); [lexint_div] does so for a one-word divisor and asserts otherwise. *)
Theorem lexint_div_quotient a b :
  lexint_wf a -> lexint_wf b ->
  (exists r, lexint_div64 a (low b) = Some r /\ lexint_wf r /\
     lexint_val r = if low b =? 0 then 0 else lexint_val a / low b) /\
  (high b = 0 -> lexint_div a b = lexint_div64 a (low b)) /\
  (high b <> 0 -> lexint_div a b = None).
Proof.
  intros Ha Hb. split.
  - destruct (lexint_div64_total a (low b)) as (r & Hr & Hwf & Hv); auto with word_range.
    exists r. split; [done|]. split; [done|]. rewrite Hv.
    destruct (Z.eqb_spec (low b) 0) as [->|]; [apply Z.div_0_r|done].
  - unfold lexint_div. by destruct (Z.eqb_spec (high b) 0).
Qed.

Lemma lexint_div_quotient_witness :
  let a := mk_lexint (2 ^ 64 - 1) 7 in
  exists r, lexint_div64 a 1000 = Some r /\ lexint_wf r /\
     lexint_val r = if 1000 =? 0 then 0 else lexint_val a / 1000.
Proof.
  refine (proj1 (lexint_div_quotient (mk_lexint (2 ^ 64 - 1) 7) (mk_lexint 1000 0) _ _));
    vm_compute; split; done || split; done.
Defined.

(** C27: accumulating a digit detects overflow exactly.  For a digit below the base
    the result is the number [i * base + digit] when it fits in 128 bits, and
    otherwise the failure flag with [*i] unchanged: neither a wrapped product nor a
    wrapped sum is ever accepted, and no number that fits is refused. *)
Theorem lexint_accum_exact i digit base :
  lexint_wf i -> is_u64 base -> 0 <= digit < base ->
  if decide (lexint_val i * base + digit < 2 ^ 128) then
    exists r, lexint_accum i digit base = Some (true, r) /\ lexint_wf r /\
      lexint_val r = lexint_val i * base + digit
  else lexint_accum i digit base = Some (false, i).
Proof.
  intros Hi Hb Hd. pose proof (lexint_val_range i Hi) as Hr. unfold is_u64 in Hb.
  unfold lexint_accum.
  destruct (lexint_mul64_val i base Hi Hb) as (v2 & -> & Hv2 & Hv2v). simpl.
  destruct (lexint_div64_total v2 base Hv2 Hb) as (v3 & -> & Hv3 & Hv3v). simpl.
  rewrite lexint_cmp_eq0, Hv3v, Hv2v by done.
  pose proof (mod_div_back (lexint_val i) base ltac:(lia) ltac:(lia)) as Hback.
  destruct (Z.eqb_spec ((lexint_val i * base) mod 2 ^ 128 / base) (lexint_val i)) as [Heq|Hne]; simpl.
  2:{ destruct (decide _); [|done]. exfalso. apply Hne, Hback. lia. }
  apply Hback in Heq. rewrite Z.mod_small in Hv2v by nia.
  assert (Hwf : lexint_wf (lexint_add64 v2 digit)) by auto with word_range.
  assert (Hsum : lexint_val (lexint_add64 v2 digit) = (lexint_val i * base + digit) mod 2 ^ 128).
  { rewrite lexint_add64_val, Hv2v by (done || unfold is_u64; lia). done. }
  rewrite lexint_cmp_lt0, Hsum by done.
  destruct (decide _) as [Hlt|Hge].
  - rewrite Z.mod_small in * by nia.
    replace (_ <? _) with false by (symmetry; apply Z.ltb_ge; nia). by eauto.
  - assert ((lexint_val i * base + digit) mod 2 ^ 128 = lexint_val i * base + digit - 2 ^ 128) as ->.
    { symmetry. apply (Z.mod_unique _ _ 1); lia. }
    by replace (_ <? _) with true by (symmetry; apply Z.ltb_lt; nia).
Qed.

Lemma lexint_accum_exact_witness :
  if decide (lexint_val (mk_lexint (2 ^ 64 - 1) (2 ^ 64 - 1)) * 10 + 3 < 2 ^ 128) then
    exists r, lexint_accum (mk_lexint (2 ^ 64 - 1) (2 ^ 64 - 1)) 3 10 = Some (true, r) /\
      lexint_wf r /\ lexint_val r = lexint_val (mk_lexint (2 ^ 64 - 1) (2 ^ 64 - 1)) * 10 + 3
  else lexint_accum (mk_lexint (2 ^ 64 - 1) (2 ^ 64 - 1)) 3 10 =
    Some (false, mk_lexint (2 ^ 64 - 1) (2 ^ 64 - 1)).
Proof.
  apply (lexint_accum_exact (mk_lexint (2 ^ 64 - 1) (2 ^ 64 - 1)) 3 10);
    vm_compute; split; done || split; done.
Defined.

(** C28: the conversion to a double is correctly rounded.  Zero gives the bits of
    [0.0], and every positive literal gives the bits of the nearest double, ties to
    the even significand, for numbers below [2^53] as for those whose low bits are
    dropped and including the carry into the next power of two. *)
Theorem lexint_double_nearest_even i :
  lexint_wf i ->
  if lexint_val i =? 0 then lexint_double i = 0
  else nearest_even (lexint_val i) (lexint_double i).
Proof.
  intros Hi. pose proof (lexint_val_range i Hi) as Hr. unfold lexint_double.
  assert ((low i =? 0) && (high i =? 0) = (lexint_val i =? 0)) as ->.
  { destruct Hi as [Hl Hh]. unfold is_u64, lexint_val in *. split_ltb; simpl; lia. }
  destruct (Z.eqb_spec (lexint_val i) 0) as [|Hne]; [done|]. assert (0 < lexint_val i) by lia.
  cbv zeta. rewrite sig_bit_count_log2 by done.
  pose proof (Z.log2_nonneg (lexint_val i)).
  assert (Z.log2 (lexint_val i) < 128) by (apply Z.log2_lt_pow2; lia).
  rewrite Z.add_simpl_r, u64_id by (unfold is_u64; lia).
  destruct (Z.leb_spec (Z.log2 (lexint_val i) + 1) 53).
  - apply lexint_double_small; done || lia.
  - pose proof (lexint_double_large i Hi ltac:(lia)) as HL. cbv zeta in HL.
    change ((_ ⊞ 1) >>! 2) with
      (round_mantissa (lexint_double_mantissa i (Z.log2 (lexint_val i) + 1))).
    by destruct (negb (Z.land (round_mantissa _) _ =? 0)).
Qed.

Lemma lexint_double_nearest_even_witness :
  if lexint_val (mk_lexint (2 ^ 64 - 1) 7) =? 0 then lexint_double (mk_lexint (2 ^ 64 - 1) 7) = 0
  else nearest_even (lexint_val (mk_lexint (2 ^ 64 - 1) 7)) (lexint_double (mk_lexint (2 ^ 64 - 1) 7)).
Proof.
  apply (lexint_double_nearest_even (mk_lexint (2 ^ 64 - 1) 7)). vm_compute. repeat split; done.
Defined.
