(* ===== verification/Deny.v ===== *)
(** * What reference capabilities permit and deny

    The specification the operations of [Cap.v] and [Alias.v] are held against.  It does
    not look at the code: a capability is given by what a reference of it may do to the
    object, and by what it denies to the other references to the object, those of the
    same actor (locally) and those of other actors (globally).  Sendability,
    coexistence, subtyping and viewpoint adaptation follow from these three. *)
From S2P Require Import Prelude Token.

Inductive access : Set := Read | Write.

#[export] Instance access_eq_dec : EqDecision access.
Proof. solve_decision. Defined.

(** The capabilities of objects that exist, without the uninhabited [nhb]. *)
Definition concrete_caps : list token_id := [TK_ISO; TK_TRN; TK_REF; TK_VAL; TK_BOX; TK_TAG].

Definition permits (c : token_id) : list access :=
  match c with
  | TK_ISO | TK_TRN | TK_REF => [Read; Write]
  | TK_VAL | TK_BOX => [Read]
  | _ => []
  end.

Definition denies_local (c : token_id) : list access :=
  match c with
  | TK_ISO => [Read; Write]
  | TK_TRN | TK_VAL => [Write]
  | _ => []
  end.

Definition denies_global (c : token_id) : list access :=
  match c with
  | TK_ISO | TK_TRN | TK_REF => [Read; Write]
  | TK_VAL | TK_BOX => [Write]
  | _ => []
  end.

(** A reference may move to another actor when it denies its own actor whatever it
    denies the others. *)
Definition deny_sendable (c : token_id) : Prop := denies_local c = denies_global c.

(** Two references of one actor to the same object: neither may do what the other denies. *)
Definition coexist (a b : token_id) : Prop :=
  (forall x, x ∈ permits a -> x ∉ denies_local b) /\ (forall x, x ∈ permits b -> x ∉ denies_local a).

(** [b] permits and denies no more than [a]. *)
Definition weaker (a b : token_id) : Prop :=
  permits b ⊆ permits a /\ denies_local b ⊆ denies_local a /\ denies_global b ⊆ denies_global a.

#[export] Instance access_forall_dec (l : list access) (P : access -> Prop)
  `{forall x, Decision (P x)} : Decision (forall x, x ∈ l -> P x) := forall_in_dec l P.
#[export] Instance access_subseteq_dec (l k : list access) : Decision (l ⊆ k) :=
  forall_in_dec l (fun x => x ∈ k).
#[export] Instance deny_sendable_dec c : Decision (deny_sendable c).
Proof. unfold deny_sendable. apply _. Defined.
#[export] Instance coexist_dec a b : Decision (coexist a b).
Proof. unfold coexist. apply _. Defined.
#[export] Instance weaker_dec a b : Decision (weaker a b).
Proof. unfold weaker. apply _. Defined.

(** A reference of type [a] may be used as one of type [b].  When [a] is ephemeral no
    other reference comes from it, and a weaker capability will do.  Otherwise a
    reference of capability [a] may remain: whatever references a [b] may be aliased as
    must also coexist with it. *)
Definition deny_sub (a b : token_id * token_id) : Prop :=
  weaker a.1 b.1 /\
  if tk_eqb a.2 TK_EPHEMERAL then True
  else b.2 <> TK_EPHEMERAL /\
    forall c, c ∈ concrete_caps -> weaker b.1 c -> coexist b.1 c -> coexist a.1 c.

#[export] Instance deny_sub_dec a b : Decision (deny_sub a b).
Proof. unfold deny_sub. destruct (tk_eqb _ _); apply _. Defined.

(** [y] is the strongest capability [x] may be aliased as: the least supertype of [x]
    that coexists with it. *)
Definition least_alias (x y : token_id) : Prop :=
  deny_sub (x, TK_NONE) (y, TK_NONE) /\ coexist x y /\
  forall z, z ∈ concrete_caps -> deny_sub (x, TK_NONE) (z, TK_NONE) -> coexist x z ->
    deny_sub (y, TK_NONE) (z, TK_NONE).

#[export] Instance least_alias_dec x y : Decision (least_alias x y).
Proof. unfold least_alias. apply _. Defined.

(** ** Viewpoint adaptation *)

(** Nobody writes to the object of such a reference, neither through it nor otherwise. *)
Definition immutable (o : token_id) : bool :=
  bool_decide ((Write ∉ permits o) /\ (Write ∈ denies_local o) /\ (Write ∈ denies_global o)).

(** What a field of capability [f] is before the origin [o] restricts it: a field of an
    immutable object that can be read is itself immutable. *)
Definition view_base (o f : token_id) : token_id :=
  if immutable o && bool_decide (Read ∈ permits f) then TK_VAL else f.

(** A field may be seen as [v] through [o] when [v] writes only if [o] does, and when it
    does nothing that [o] denies to local references, or is sendable. *)
Definition view_admits (o v : token_id) : Prop :=
  (Write ∈ permits v -> Write ∈ permits o) /\
  ((forall x, x ∈ permits v -> x ∉ denies_local o) \/ deny_sendable v).

(** [v] is the least admissible supertype. *)
Definition is_view (o f v : token_id) : Prop :=
  deny_sub (view_base o f, TK_NONE) (v, TK_NONE) /\ view_admits o v /\
  forall w, w ∈ concrete_caps -> deny_sub (view_base o f, TK_NONE) (w, TK_NONE) -> view_admits o w ->
    deny_sub (v, TK_NONE) (w, TK_NONE).

#[export] Instance view_admits_dec o v : Decision (view_admits o v).
Proof. unfold view_admits. apply _. Defined.
#[export] Instance is_view_dec o f v : Decision (is_view o f v).
Proof. unfold is_view. apply _. Defined.

Definition concrete_view (o f : token_id) : option token_id :=
  if bool_decide (Read ∈ permits o) then
    (p ← list_find (is_view o f) concrete_caps; Some p.2)
  else None.

(** [nhb], of which there is no object, is like [ref], and stays [nhb] where a [ref] is
    seen as it is. *)
Definition nhb_as_ref (c : token_id) : token_id := if tk_eqb c TK_NHB then TK_REF else c.

Definition cap_view_of (o f : token_id) : option token_id :=
  v ← concrete_view (nhb_as_ref o) (nhb_as_ref f);
  Some (if tk_eqb v (nhb_as_ref f) then f else v).

(** With modifiers, on capabilities that are not aliased.  A field seen as it is through
    an origin that can write is ephemeral when it was, and when the origin is. *)
Definition view_of (o f : token_id * token_id) : option (token_id * token_id) :=
  v ← cap_view_of o.1 f.1;
  Some (v,
    if bool_decide (v ∈ [TK_ISO; TK_TRN]) && tk_eqb v f.1
       && bool_decide (Write ∈ permits (nhb_as_ref o.1))
       && (tk_eqb o.2 TK_EPHEMERAL || tk_eqb f.2 TK_EPHEMERAL)
    then TK_EPHEMERAL else TK_NONE).

(** The least admissible supertype exists and is unique wherever the origin can be read. *)
Lemma concrete_view_total :
  forall o, o ∈ concrete_caps -> Read ∈ permits o -> forall f, f ∈ concrete_caps ->
  exists v, v ∈ concrete_caps /\ is_view o f v /\ concrete_view o f = Some v /\
    forall w, w ∈ concrete_caps -> is_view o f w -> w = v.
Proof.
  assert (forall o, o ∈ concrete_caps -> Read ∈ permits o -> forall f, f ∈ concrete_caps ->
    Exists (fun v => is_view o f v /\ concrete_view o f = Some v /\
      forall w, w ∈ concrete_caps -> is_view o f w -> w = v) concrete_caps) as H.
  { by_computation. }
  intros o Ho Hr f Hf. by apply Exists_exists, H.
Qed.

(** Subtyping is an order on the types of existing objects. *)
Lemma deny_sub_order :
  forall a, a ∈ concrete_caps -> deny_sub (a, TK_NONE) (a, TK_NONE) /\
  forall b, b ∈ concrete_caps ->
    (deny_sub (a, TK_NONE) (b, TK_NONE) -> deny_sub (b, TK_NONE) (a, TK_NONE) -> a = b) /\
    forall c, c ∈ concrete_caps -> deny_sub (a, TK_NONE) (b, TK_NONE) ->
      deny_sub (b, TK_NONE) (c, TK_NONE) -> deny_sub (a, TK_NONE) (c, TK_NONE).
Proof. by_computation. Qed.
