(* ===== verification/Cap.v ===== *)
(** * Reference capabilities: [src/libponyc/type/cap.c]

    The part of the file that works on capability and ephemerality tokens.  Two
    in-out parameters [token_id*] are passed and returned as a pair; every [switch]
    is a match with the labels in the order of the code. *)
From S2P Require Import Prelude Token Deny.

Definition is_eph (e : token_id) : bool := tk_eqb e TK_EPHEMERAL.

Definition cap_aliasing (cap eph : token_id) : token_id * token_id :=
  match eph with
  | TK_EPHEMERAL =>
      match cap with
      | TK_ISO | TK_TRN | TK_CAP_SEND | TK_CAP_ANY => (cap, eph)
      | _ => (cap, TK_NONE)
      end
  | TK_ALIASED =>
      match cap with
      | TK_ISO => (TK_TAG, TK_NONE)
      | TK_TRN => (TK_BOX, TK_NONE)
      | TK_CAP_SEND => (TK_CAP_SHARE, TK_NONE)
      | TK_CAP_ANY => (TK_CAP_ALIAS, TK_NONE)
      | _ => (cap, TK_NONE)
      end
  | _ => (cap, eph)
  end.

(** The switch on an ephemeral [sub] that [is_cap_sub_cap] and
    [is_cap_sub_cap_bound] share: [Some] is a return, [None] falls through. *)
Definition ephemeral_sub (sub super : token_id) : option (outcome bool) :=
  match sub with
  | TK_ISO =>
      match super with
      | TK_NHB => Some (Ret false)
      | _ => Some (Ret true)
      end
  | TK_TRN =>
      match super with
      | TK_TRN | TK_REF | TK_VAL | TK_BOX | TK_CAP_READ | TK_CAP_SHARE
      | TK_CAP_ALIAS => Some (Ret true)
      | TK_ISO | TK_NHB | TK_CAP_SEND | TK_CAP_ANY => Some (Ret false)
      | _ => Some Abort
      end
  | _ => None
  end.

Definition is_cap_sub_cap (sub subalias super supalias : token_id) : outcome bool :=
  let '(sub, subalias) := cap_aliasing sub subalias in
  let '(super, supalias) := cap_aliasing super supalias in
  if is_eph supalias && negb (is_eph subalias) then Ret false
  else if tk_eqb super TK_TAG then Ret true
  else
    match (if is_eph subalias then ephemeral_sub sub super else None) with
    | Some r => r
    | None =>
        Ret match sub with
            | TK_ISO => tk_eqb super TK_ISO
            | TK_TRN => tk_in super [TK_TRN; TK_BOX]
            | TK_REF => tk_in super [TK_REF; TK_BOX]
            | TK_NHB =>
                tk_in super [TK_NHB; TK_BOX; TK_VAL; TK_REF; TK_CAP_READ;
                             TK_CAP_SHARE; TK_CAP_ALIAS]
            | TK_VAL => tk_in super [TK_VAL; TK_BOX; TK_CAP_SHARE]
            | TK_BOX | TK_CAP_READ => tk_in super [TK_BOX]
            | _ => false
            end
    end.

Definition is_cap_sub_cap_constraint (sub subalias super supalias : token_id) : bool :=
  let '(sub, subalias) := cap_aliasing sub subalias in
  let '(super, supalias) := cap_aliasing super supalias in
  if is_eph supalias && negb (is_eph subalias) then false
  else if tk_eqb sub super || tk_eqb super TK_CAP_ANY then true
  else
    match super with
    | TK_CAP_READ => tk_in sub [TK_REF; TK_VAL; TK_BOX; TK_NHB]
    | TK_CAP_SHARE => tk_in sub [TK_VAL; TK_TAG; TK_NHB]
    | TK_CAP_SEND => tk_in sub [TK_ISO; TK_VAL; TK_TAG; TK_NHB; TK_CAP_SHARE]
    | TK_CAP_ALIAS =>
        tk_in sub [TK_REF; TK_VAL; TK_BOX; TK_TAG; TK_NHB; TK_CAP_READ; TK_CAP_SHARE]
    | _ => false
    end.

Definition is_cap_sub_cap_bound (sub subalias super supalias : token_id) : outcome bool :=
  let '(sub, subalias) := cap_aliasing sub subalias in
  let '(super, supalias) := cap_aliasing super supalias in
  if is_eph supalias && negb (is_eph subalias) then Ret false
  else if tk_eqb sub super || tk_eqb super TK_TAG then Ret true
  else
    match (if is_eph subalias then ephemeral_sub sub super else None) with
    | Some r => r
    | None =>
        Ret match sub with
            | TK_ISO => tk_eqb super TK_ISO
            | TK_TRN => tk_in super [TK_TRN; TK_BOX]
            | TK_REF => tk_in super [TK_BOX]
            | TK_NHB =>
                tk_in super [TK_BOX; TK_REF; TK_VAL; TK_CAP_READ; TK_CAP_SHARE; TK_CAP_ALIAS]
            | TK_VAL => tk_in super [TK_BOX; TK_CAP_SHARE]
            | TK_CAP_READ => tk_in super [TK_BOX; TK_CAP_SHARE; TK_CAP_ALIAS]
            | TK_CAP_SEND => tk_in super [TK_CAP_READ; TK_CAP_SHARE; TK_CAP_ALIAS; TK_CAP_ANY]
            | TK_CAP_ALIAS => tk_in super [TK_CAP_READ; TK_CAP_SHARE]
            | TK_CAP_ANY => tk_in super [TK_CAP_READ; TK_CAP_SHARE; TK_CAP_SEND; TK_CAP_ALIAS]
            | _ => false
            end
    end.

Definition is_cap_compat_cap (left_cap left_eph right_cap right_eph : token_id) : bool :=
  let '(left_cap, left_eph) := cap_aliasing left_cap left_eph in
  let '(right_cap, right_eph) := cap_aliasing right_cap right_eph in
  let neither_eph := tk_eqb left_eph TK_NONE && tk_eqb right_eph TK_NONE in
  if tk_eqb left_cap TK_TAG || tk_eqb right_cap TK_TAG then true
  else
    match left_cap with
    | TK_CAP_ANY =>
        match right_cap with
        | TK_CAP_ANY => neither_eph
        | TK_CAP_ALIAS => true
        | _ => false
        end
    | TK_ISO =>
        match right_cap with
        | TK_ISO => neither_eph
        | _ => false
        end
    | TK_TRN =>
        match right_cap with
        | TK_TRN => neither_eph
        | TK_BOX => true
        | _ => false
        end
    | TK_REF => tk_in right_cap [TK_REF; TK_BOX]
    | TK_VAL => tk_in right_cap [TK_VAL; TK_BOX; TK_CAP_SHARE]
    | TK_BOX =>
        tk_in right_cap [TK_TRN; TK_REF; TK_VAL; TK_BOX; TK_CAP_READ; TK_CAP_SHARE;
                         TK_CAP_ALIAS]
    | TK_NHB => tk_in right_cap [TK_NHB; TK_CAP_SHARE]
    | TK_CAP_READ => tk_in right_cap [TK_CAP_READ; TK_BOX]
    | TK_CAP_ALIAS => tk_in right_cap [TK_CAP_ANY; TK_CAP_ALIAS; TK_BOX]
    | TK_CAP_SEND => false
    | TK_CAP_SHARE => tk_in right_cap [TK_VAL; TK_BOX; TK_NHB; TK_CAP_SHARE]
    | _ => false
    end.

(** Capabilities that cannot be seen through. *)
Definition view_opaque (left_cap : token_id) : bool :=
  tk_in left_cap [TK_TAG; TK_CAP_SEND; TK_CAP_SHARE; TK_CAP_ALIAS; TK_CAP_ANY].

(** [if(left_eph == TK_EPHEMERAL) *right_eph = TK_EPHEMERAL;] *)
Definition eph_from (left_eph right_eph : token_id) : token_id :=
  if is_eph left_eph then TK_EPHEMERAL else right_eph.

(** The result is the returned flag and the final values of [*right_cap] and
    [*right_eph]. *)
Definition cap_view_upper (left_cap left_eph right_cap right_eph : token_id)
    : outcome (bool * (token_id * token_id)) :=
  let '(left_cap, left_eph) := cap_aliasing left_cap left_eph in
  let '(right_cap, right_eph) := cap_aliasing right_cap right_eph in
  if view_opaque left_cap then Ret (false, (right_cap, right_eph))
  else if tk_eqb right_cap TK_TAG then Ret (true, (right_cap, right_eph))
  else
    match left_cap with
    | TK_ISO =>
        match right_cap with
        | TK_ISO | TK_CAP_SEND => Ret (true, (right_cap, eph_from left_eph right_eph))
        | TK_VAL | TK_CAP_SHARE => Ret (true, (right_cap, right_eph))
        | _ => Ret (true, (TK_TAG, TK_NONE))
        end
    | TK_TRN =>
        match right_cap with
        | TK_ISO | TK_CAP_SEND => Ret (true, (right_cap, eph_from left_eph right_eph))
        | TK_VAL | TK_CAP_SHARE => Ret (true, (right_cap, right_eph))
        | TK_CAP_ALIAS | TK_CAP_ANY => Ret (true, (TK_TAG, TK_NONE))
        | _ => Ret (true, (TK_BOX, TK_NONE))
        end
    | TK_REF | TK_NHB => Ret (true, (right_cap, right_eph))
    | TK_VAL =>
        match right_cap with
        | TK_CAP_SEND | TK_CAP_SHARE | TK_CAP_ALIAS | TK_CAP_ANY =>
            Ret (true, (TK_CAP_SHARE, TK_NONE))
        | _ => Ret (true, (TK_VAL, TK_NONE))
        end
    | TK_BOX | TK_CAP_READ =>
        match right_cap with
        | TK_ISO => Ret (true, (TK_TAG, TK_NONE))
        | TK_VAL | TK_CAP_SHARE => Ret (true, (right_cap, TK_NONE))
        | TK_CAP_SEND | TK_CAP_ALIAS | TK_CAP_ANY => Ret (true, (TK_TAG, TK_NONE))
        | _ => Ret (true, (TK_BOX, TK_NONE))
        end
    | _ => Abort
    end.

Definition cap_view_lower (left_cap left_eph right_cap right_eph : token_id)
    : outcome (bool * (token_id * token_id)) :=
  let '(left_cap, left_eph) := cap_aliasing left_cap left_eph in
  let '(right_cap, right_eph) := cap_aliasing right_cap right_eph in
  if view_opaque left_cap then Ret (false, (right_cap, right_eph))
  else if tk_eqb right_cap TK_TAG then Ret (true, (right_cap, right_eph))
  else
    match left_cap with
    | TK_ISO =>
        match right_cap with
        | TK_ISO | TK_CAP_SEND => Ret (true, (right_cap, eph_from left_eph right_eph))
        | TK_VAL | TK_CAP_SHARE => Ret (true, (right_cap, right_eph))
        | TK_CAP_READ | TK_CAP_ALIAS | TK_CAP_ANY =>
            Ret (true, (TK_CAP_SEND, eph_from left_eph right_eph))
        | _ => Ret (true, (TK_TAG, TK_NONE))
        end
    | TK_TRN =>
        match right_cap with
        | TK_ISO | TK_CAP_SEND => Ret (true, (right_cap, eph_from left_eph right_eph))
        | TK_VAL | TK_CAP_SHARE => Ret (true, (right_cap, right_eph))
        | TK_CAP_READ | TK_CAP_ALIAS => Ret (true, (TK_VAL, TK_NONE))
        | TK_CAP_ANY => Ret (true, (TK_ISO, eph_from left_eph right_eph))
        | _ => Ret (true, (TK_BOX, TK_NONE))
        end
    | TK_REF | TK_NHB => Ret (true, (right_cap, right_eph))
    | TK_VAL =>
        match right_cap with
        | TK_CAP_SEND | TK_CAP_SHARE | TK_CAP_ALIAS | TK_CAP_ANY =>
            Ret (true, (TK_CAP_SHARE, TK_NONE))
        | _ => Ret (true, (TK_VAL, TK_NONE))
        end
    | TK_BOX =>
        match right_cap with
        | TK_ISO => Ret (true, (TK_TAG, TK_NONE))
        | TK_VAL | TK_CAP_SHARE => Ret (true, (right_cap, TK_NONE))
        | TK_CAP_SEND => Ret (true, (TK_CAP_SHARE, TK_NONE))
        | TK_CAP_READ | TK_CAP_ALIAS | TK_CAP_ANY => Ret (true, (TK_VAL, TK_NONE))
        | _ => Ret (true, (TK_BOX, TK_NONE))
        end
    | TK_CAP_READ =>
        match right_cap with
        | TK_ISO => Ret (true, (TK_CAP_SEND, right_eph))
        | TK_REF => Ret (true, (TK_CAP_READ, right_eph))
        | TK_BOX => Ret (true, (TK_VAL, right_eph))
        | _ => Ret (true, (right_cap, right_eph))
        end
    | _ => Abort
    end.

Inductive direction : Set := WRITE | EXTRACT.

Definition cap_safetomove (into cap : token_id) (dir : direction) : bool :=
  match into with
  | TK_ISO => tk_in cap [TK_ISO; TK_VAL; TK_TAG; TK_CAP_SEND; TK_CAP_SHARE]
  | TK_TRN | TK_VAL =>
      match cap with
      | TK_ISO | TK_VAL | TK_TAG | TK_CAP_SEND | TK_CAP_SHARE => true
      | TK_TRN => match dir with WRITE => true | EXTRACT => false end
      | TK_BOX => match dir with WRITE => false | EXTRACT => true end
      | _ => false
      end
  | TK_REF | TK_NHB => true
  | _ => false
  end.

Definition cap_sendable (cap : token_id) : bool :=
  tk_in cap [TK_ISO; TK_VAL; TK_TAG; TK_NHB; TK_CAP_SEND; TK_CAP_SHARE].

Definition cap_mutable (cap : token_id) : outcome bool :=
  match cap with
  | TK_VAL | TK_BOX | TK_TAG | TK_CAP_SEND | TK_CAP_SHARE | TK_CAP_READ
  | TK_CAP_ALIAS | TK_CAP_ANY => Ret false
  | TK_ISO | TK_TRN | TK_REF | TK_NHB => Ret true
  | _ => Abort
  end.

(** A [cap_mutation] returns whether it changed its arguments, and their values. *)
Definition cap_mutation : Type := token_id -> token_id -> bool * (token_id * token_id).

Definition unisolated_mod : cap_mutation := fun cap eph =>
  if is_eph eph then (false, (cap, eph))
  else
    match cap with
    | TK_ISO | TK_TRN | TK_NHB => (true, (TK_REF, eph))
    | _ => (false, (cap, eph))
    end.

Definition unisolated_cap (cap eph : token_id) : token_id := (unisolated_mod cap eph).2.1.

(** ** The capabilities and what they stand for *)

Definition single_caps : list token_id :=
  [TK_ISO; TK_TRN; TK_REF; TK_VAL; TK_BOX; TK_TAG; TK_NHB].
Definition generic_caps : list token_id :=
  [TK_CAP_READ; TK_CAP_SEND; TK_CAP_SHARE; TK_CAP_ALIAS; TK_CAP_ANY].
Definition all_caps : list token_id := single_caps ++ generic_caps.
Definition all_ephs : list token_id := [TK_NONE; TK_EPHEMERAL; TK_ALIASED].

(** The sets written next to the generic capabilities throughout the file. *)
Definition instances (cap : token_id) : list token_id :=
  match cap with
  | TK_CAP_READ => [TK_REF; TK_VAL; TK_BOX]
  | TK_CAP_SEND => [TK_ISO; TK_VAL; TK_TAG]
  | TK_CAP_SHARE => [TK_VAL; TK_TAG]
  | TK_CAP_ALIAS => [TK_REF; TK_VAL; TK_BOX; TK_TAG]
  | TK_CAP_ANY => [TK_ISO; TK_TRN; TK_REF; TK_VAL; TK_BOX; TK_TAG]
  | _ => [cap]
  end.

(** The instantiations of a capability with its alias modifier applied. *)
Definition cap_instances (cap eph : token_id) : list (token_id * token_id) :=
  let '(cap, eph) := cap_aliasing cap eph in (fun i => (i, eph)) <$> instances cap.

Definition cap_sub (a b : token_id * token_id) : Prop :=
  is_cap_sub_cap a.1 a.2 b.1 b.2 = Ret true.

(** The view of [b] through [a], when there is one. *)
Definition cap_view (a b : token_id * token_id) : option (token_id * token_id) :=
  match cap_view_upper a.1 a.2 b.1 b.2 with Ret (true, u) => Some u | _ => None end.

(** The diagram of the single capabilities, as pairs of a capability and a
    modifier: each one and the capabilities immediately above it. *)
Definition cap_above (a : token_id * token_id) : list (token_id * token_id) :=
  match a with
  | (TK_ISO, TK_EPHEMERAL) => [(TK_TRN, TK_EPHEMERAL); (TK_ISO, TK_NONE)]
  | (TK_TRN, TK_EPHEMERAL) => [(TK_REF, TK_NONE); (TK_VAL, TK_NONE); (TK_TRN, TK_NONE)]
  | (TK_ISO, TK_NONE) => [(TK_TAG, TK_NONE)]
  | (TK_TRN, TK_NONE) => [(TK_BOX, TK_NONE)]
  | (TK_NHB, TK_NONE) => [(TK_REF, TK_NONE); (TK_VAL, TK_NONE)]
  | (TK_REF, TK_NONE) => [(TK_BOX, TK_NONE)]
  | (TK_VAL, TK_NONE) => [(TK_BOX, TK_NONE)]
  | (TK_BOX, TK_NONE) => [(TK_TAG, TK_NONE)]
  | _ => []
  end.

Definition cap_edge (a b : token_id * token_id) : Prop := b ∈ cap_above a.

#[export] Instance cap_sub_dec a b : Decision (cap_sub a b).
Proof. unfold cap_sub. apply _. Defined.

(** ** Lemmas *)

(** Reachability in at most [n] edges, executable. *)
Fixpoint cap_reach (n : nat) (a b : token_id * token_id) : bool :=
  bool_decide (a = b) ||
  match n with
  | O => false
  | S n => existsb (fun c => cap_reach n c b) (cap_above a)
  end.

Lemma cap_reach_rtc n a b : cap_reach n a b = true -> rtc cap_edge a b.
Proof.
  revert a. induction n as [|n IH]; intros a; simpl; rewrite orb_true_iff, bool_decide_eq_true.
  - intros [->|?]; done.
  - intros [->|(c & Hc & Hr)%existsb_exists]; [done|]. apply (rtc_l cap_edge a c b).
    + by apply list_elem_of_In.
    + by apply IH.
Qed.

(** Single capabilities after aliasing. *)
Definition norm_caps : list (token_id * token_id) :=
  [(TK_ISO, TK_NONE); (TK_ISO, TK_EPHEMERAL); (TK_TRN, TK_NONE); (TK_TRN, TK_EPHEMERAL);
   (TK_REF, TK_NONE); (TK_VAL, TK_NONE); (TK_BOX, TK_NONE); (TK_TAG, TK_NONE);
   (TK_NHB, TK_NONE)].

Lemma cap_aliasing_norm :
  forall c, c ∈ single_caps -> forall e, e ∈ all_ephs -> cap_aliasing c e ∈ norm_caps.
Proof. by_computation. Qed.

Lemma cap_edge_norm :
  forall a, a ∈ norm_caps -> forall b, b ∈ cap_above a -> b ∈ norm_caps /\ cap_sub a b.
Proof. by_computation. Qed.

Lemma cap_sub_norm_reach :
  forall a, a ∈ norm_caps -> forall b, b ∈ norm_caps -> cap_sub a b -> cap_reach 5 a b = true.
Proof. by_computation. Qed.

Lemma cap_sub_norm_refl : forall a, a ∈ norm_caps -> cap_sub a a.
Proof. by_computation. Qed.

Lemma cap_sub_norm_trans :
  forall a, a ∈ norm_caps -> forall b, b ∈ norm_caps -> forall c, c ∈ norm_caps ->
  cap_sub a b -> cap_sub b c -> cap_sub a c.
Proof. by_computation. Qed.

Lemma rtc_cap_sub a b : a ∈ norm_caps -> rtc cap_edge a b -> b ∈ norm_caps /\ cap_sub a b.
Proof.
  intros Ha Hrtc. revert Ha. induction Hrtc as [a|a c b Hac _ IH]; intros Ha.
  - split; [done|]. by apply cap_sub_norm_refl.
  - destruct (cap_edge_norm a Ha c Hac) as [Hc Hs]. destruct (IH Hc) as [Hb Hs'].
    split; [done|]. by apply cap_sub_norm_trans with c.
Qed.

(** The subtype tests only look at a capability after aliasing. *)
Lemma cap_sub_aliasing :
  forall c1, c1 ∈ all_caps -> forall e1, e1 ∈ all_ephs ->
  forall c2, c2 ∈ all_caps -> forall e2, e2 ∈ all_ephs ->
  is_cap_sub_cap c1 e1 c2 e2 =
    is_cap_sub_cap (cap_aliasing c1 e1).1 (cap_aliasing c1 e1).2
                   (cap_aliasing c2 e2).1 (cap_aliasing c2 e2).2.
Proof. by_computation. Qed.

(** The view of [a] through [b] exists and is below (above) [u]. *)
Definition view_below (a b u : token_id * token_id) : Prop :=
  match cap_view a b with Some v => cap_sub v u | None => False end.
Definition view_above (a b u : token_id * token_id) : Prop :=
  match cap_view a b with Some v => cap_sub u v | None => False end.

(** [u] is below all of them. *)
Definition view_lower_bound (a b u : token_id * token_id) : Prop :=
  forall i, i ∈ cap_instances a.1 a.2 -> forall j, j ∈ cap_instances b.1 b.2 -> view_above i j u.

(** Every such view is an instantiation of [u]. *)
Definition view_instance (a b u : token_id * token_id) : Prop :=
  forall i, i ∈ cap_instances a.1 a.2 -> forall j, j ∈ cap_instances b.1 b.2 ->
  match cap_view i j with
  | Some v => (cap_aliasing v.1 v.2).1 ∈ instances (cap_aliasing u.1 u.2).1
  | None => False
  end.

#[export] Instance view_below_dec a b u : Decision (view_below a b u).
Proof. unfold view_below. destruct (cap_view a b); apply _. Defined.
#[export] Instance view_above_dec a b u : Decision (view_above a b u).
Proof. unfold view_above. destruct (cap_view a b); apply _. Defined.
#[export] Instance view_lower_bound_dec a b u : Decision (view_lower_bound a b u).
Proof. unfold view_lower_bound. apply _. Defined.
#[export] Instance view_instance_dec a b u : Decision (view_instance a b u).
Proof.
  unfold view_instance. apply forall_in_dec. intros i. apply forall_in_dec. intros j.
  destruct (cap_view i j); apply _.
Defined.

(** The tests on single capabilities are what they permit and deny. *)
Lemma cap_sendable_deny : forall c, c ∈ concrete_caps -> cap_sendable c = true <-> deny_sendable c.
Proof. by_computation. Qed.
Lemma cap_mutable_deny : forall c, c ∈ concrete_caps -> cap_mutable c = Ret (bool_decide (Write ∈ permits c)).
Proof. by_computation. Qed.

(** *** The contract of [cap_view_upper] *)

(** A capability as the operations look at it. *)
Definition cap_norm (a : token_id * token_id) : token_id * token_id := cap_aliasing a.1 a.2.

(** The instantiations of a capability, each as the operations look at it. *)
Definition norm_instances (a : token_id * token_id) : list (token_id * token_id) :=
  cap_norm <$> cap_instances a.1 a.2.

(** The views, by what the capabilities permit and deny, of every instantiation of [b]
    through every instantiation of [a]. *)
Definition deny_views (a b : token_id * token_id) : list (option (token_id * token_id)) :=
  i ← norm_instances a; view_of i <$> norm_instances b.

(** Subtyping as reachability in the diagram. *)
Definition diagram_sub (a b : token_id * token_id) : Prop := cap_reach 5 a b = true.

(** [u] is above all of them. *)
Definition views_below (l : list (option (token_id * token_id))) (u : token_id * token_id) : Prop :=
  Forall (fun v => match v with Some v => diagram_sub v u | None => False end) l.

(** What a result says about the views [l].  When some instantiation of the origin cannot be
    read there is no view.  Otherwise every instantiation has one, and the result is either a
    single capability, their least upper bound, or a generic one, whose instantiations are
    exactly these views. *)
Definition upper_spec (l : list (option (token_id * token_id)))
    (r : outcome (bool * (token_id * token_id))) : Prop :=
  match r with
  | Ret (true, u) =>
      if tk_in u.1 generic_caps then
        Forall (fun v => v ∈ Some <$> norm_instances u) l /\ Forall (fun v => Some v ∈ l) (norm_instances u)
      else
        views_below l (cap_norm u) /\
        Forall (fun w => views_below l w -> diagram_sub (cap_norm u) w) norm_caps
  | Ret (false, _) => None ∈ l
  | _ => False
  end.

Definition view_upper_spec (a b : token_id * token_id) : Prop :=
  upper_spec (deny_views a b) (cap_view_upper a.1 a.2 b.1 b.2).

#[export] Instance diagram_sub_dec a b : Decision (diagram_sub a b).
Proof. unfold diagram_sub. apply _. Defined.
#[export] Instance views_below_dec l u : Decision (views_below l u).
Proof. unfold views_below. apply Forall_dec. intros [v|]; apply _. Defined.
#[export] Instance upper_spec_dec l r : Decision (upper_spec l r).
Proof.
  unfold upper_spec. destruct r as [[[] u]| | |]; try apply _. destruct (tk_in _ _); apply _.
Defined.
#[export] Instance view_upper_spec_dec a b : Decision (view_upper_spec a b) := upper_spec_dec _ _.

(** The cases in which [cap_view_lower] is not below every view. *)
Definition view_lower_gap (a b : token_id * token_id) : bool :=
  match cap_aliasing a.1 a.2, cap_aliasing b.1 b.2 with
  | (TK_TRN, TK_NONE), (TK_CAP_ANY, TK_NONE) => true
  | (TK_CAP_READ, _), (TK_TRN, TK_NONE) => true
  | _, _ => false
  end.

Definition view_lower_spec (a b : token_id * token_id) : Prop :=
  match cap_view_lower a.1 a.2 b.1 b.2 with
  | Ret (true, u) =>
      if tk_in u.1 generic_caps then view_instance a b u
      else (view_lower_bound a b u <-> view_lower_gap a b = false)
  | Ret (false, _) => view_opaque (cap_aliasing a.1 a.2).1 = true
  | _ => False
  end.

#[export] Instance view_lower_spec_dec a b : Decision (view_lower_spec a b).
Proof.
  unfold view_lower_spec. destruct (cap_view_lower _ _ _ _) as [[[] u]| | |]; try apply _.
  destruct (tk_in _ _); apply _.
Defined.

(** A view keeps sendability and immutability. *)
Definition view_safe (a b : token_id * token_id) : Prop :=
  match cap_view a b with
  | Some v =>
      (cap_sendable (cap_aliasing a.1 a.2).1 = true -> (cap_aliasing a.1 a.2).1 <> TK_NHB ->
         cap_sendable v.1 = true) /\
      (cap_mutable (cap_aliasing a.1 a.2).1 = Ret false -> cap_mutable v.1 = Ret false)
  | None => True
  end.

#[export] Instance view_safe_dec a b : Decision (view_safe a b).
Proof. unfold view_safe. destruct (cap_view a b); apply _. Defined.

(** ** Properties *)

(** Subtyping of single capabilities is reachability in the diagram of the
    capabilities ([iso^] below [trn^] and [iso], [trn^] below [ref], [val] and
    [trn], ..., [nhb] below [ref] and [val]), so it is reflexive and transitive and
    relates nothing else. *)
Theorem is_cap_sub_cap_diagram c1 e1 c2 e2 :
  c1 ∈ single_caps -> e1 ∈ all_ephs -> c2 ∈ single_caps -> e2 ∈ all_ephs ->
  is_cap_sub_cap c1 e1 c2 e2 = Ret true <->
  rtc cap_edge (cap_aliasing c1 e1) (cap_aliasing c2 e2).
Proof.
  intros Hc1 He1 Hc2 He2.
  assert (Hin : forall c, c ∈ single_caps -> c ∈ all_caps).
  { intros c Hc. apply elem_of_app. by left. }
  rewrite cap_sub_aliasing by auto.
  pose proof (cap_aliasing_norm c1 Hc1 e1 He1). pose proof (cap_aliasing_norm c2 Hc2 e2 He2).
  split; intros H1.
  - apply cap_reach_rtc with 5. by apply cap_sub_norm_reach.
  - by apply rtc_cap_sub.
Qed.

Lemma is_cap_sub_cap_diagram_witness :
  is_cap_sub_cap TK_TRN TK_EPHEMERAL TK_BOX TK_NONE = Ret true <->
  rtc cap_edge (cap_aliasing TK_TRN TK_EPHEMERAL) (cap_aliasing TK_BOX TK_NONE).
Proof. apply (is_cap_sub_cap_diagram TK_TRN TK_EPHEMERAL TK_BOX TK_NONE); by_computation. Defined.

Lemma is_cap_sub_cap_generic :
  forall c1, c1 ∈ all_caps -> forall e1, e1 ∈ all_ephs ->
  forall c2, c2 ∈ all_caps -> forall e2, e2 ∈ all_ephs ->
  is_cap_sub_cap c1 e1 c2 e2 <> Abort /\
  (is_cap_sub_cap c1 e1 c2 e2 = Ret true <->
     forall i, i ∈ cap_instances c1 e1 -> forall j, j ∈ cap_instances c2 e2 -> cap_sub i j) /\
  (forall c3, c3 ∈ all_caps -> forall e3, e3 ∈ all_ephs ->
     is_cap_sub_cap c1 e1 c2 e2 = Ret true -> is_cap_sub_cap c2 e2 c3 e3 = Ret true ->
     is_cap_sub_cap c1 e1 c3 e3 = Ret true).
Proof. by_computation. Qed.

Lemma is_cap_sub_cap_deny :
  forall c1, c1 ∈ concrete_caps -> forall e1, e1 ∈ all_ephs ->
  forall c2, c2 ∈ concrete_caps -> forall e2, e2 ∈ all_ephs ->
  is_cap_sub_cap c1 e1 c2 e2 = Ret true <-> deny_sub (cap_aliasing c1 e1) (cap_aliasing c2 e2).
Proof. by_computation. Qed.

Lemma is_cap_sub_cap_reach :
  forall c1, c1 ∈ single_caps -> forall e1, e1 ∈ all_ephs ->
  forall c2, c2 ∈ single_caps -> forall e2, e2 ∈ all_ephs ->
  is_cap_sub_cap c1 e1 c2 e2 = Ret true <-> diagram_sub (cap_aliasing c1 e1) (cap_aliasing c2 e2).
Proof. by_computation. Qed.

(** C29: on all capabilities, generic ones included, [is_cap_sub_cap] never asserts
    and decides exactly its contract: every possible instantiation of [sub] is a
    subtype of every possible instantiation of [super]; and it is transitive.  On the
    capabilities of objects it is the subtyping that follows from what they permit and
    deny, and with [nhb] it is reachability in the diagram of capabilities. *)
Theorem is_cap_sub_cap_exact :
  forall c1, c1 ∈ all_caps -> forall e1, e1 ∈ all_ephs ->
  forall c2, c2 ∈ all_caps -> forall e2, e2 ∈ all_ephs ->
  is_cap_sub_cap c1 e1 c2 e2 <> Abort /\
  (is_cap_sub_cap c1 e1 c2 e2 = Ret true <->
     forall i, i ∈ cap_instances c1 e1 -> forall j, j ∈ cap_instances c2 e2 -> cap_sub i j) /\
  (forall c3, c3 ∈ all_caps -> forall e3, e3 ∈ all_ephs ->
     is_cap_sub_cap c1 e1 c2 e2 = Ret true -> is_cap_sub_cap c2 e2 c3 e3 = Ret true ->
     is_cap_sub_cap c1 e1 c3 e3 = Ret true) /\
  (c1 ∈ concrete_caps -> c2 ∈ concrete_caps ->
     is_cap_sub_cap c1 e1 c2 e2 = Ret true <->
     deny_sub (cap_aliasing c1 e1) (cap_aliasing c2 e2)) /\
  (c1 ∈ single_caps -> c2 ∈ single_caps ->
     is_cap_sub_cap c1 e1 c2 e2 = Ret true <->
     diagram_sub (cap_aliasing c1 e1) (cap_aliasing c2 e2)).
Proof.
  intros c1 H1 e1 E1 c2 H2 e2 E2. destruct (is_cap_sub_cap_generic c1 H1 e1 E1 c2 H2 e2 E2) as (? & ? & ?).
  split_and!; [done|done|done| |]; intros S1 S2; first [by apply is_cap_sub_cap_deny|by apply is_cap_sub_cap_reach].
Qed.

Lemma is_cap_sub_cap_exact_witness :
  is_cap_sub_cap TK_TRN TK_EPHEMERAL TK_CAP_ALIAS TK_NONE <> Abort.
Proof.
  apply (is_cap_sub_cap_exact TK_TRN ltac:(by_computation) TK_EPHEMERAL ltac:(by_computation)
    TK_CAP_ALIAS ltac:(by_computation) TK_NONE ltac:(by_computation)).
Defined.

(** The constraint test decides set membership.  [sub] satisfies [super] exactly
    when a required ephemerality is present and every instantiation of [sub] is in
    the set of [super], where a generic [super] also admits [nhb]. *)
Theorem is_cap_sub_cap_constraint_exact :
  forall c1, c1 ∈ all_caps -> forall e1, e1 ∈ all_ephs ->
  forall c2, c2 ∈ all_caps -> forall e2, e2 ∈ all_ephs ->
  is_cap_sub_cap_constraint c1 e1 c2 e2 = true <->
    ((cap_aliasing c2 e2).2 = TK_EPHEMERAL -> (cap_aliasing c1 e1).2 = TK_EPHEMERAL) /\
    forall i, i ∈ instances (cap_aliasing c1 e1).1 ->
      i ∈ instances (cap_aliasing c2 e2).1 \/
      (i = TK_NHB /\ (cap_aliasing c2 e2).1 ∈ generic_caps).
Proof. by_computation. Qed.

Lemma is_cap_sub_cap_constraint_exact_witness :
  is_cap_sub_cap_constraint TK_CAP_SEND TK_ALIASED TK_CAP_SHARE TK_NONE = true.
Proof.
  apply (is_cap_sub_cap_constraint_exact TK_CAP_SEND ltac:(by_computation) TK_ALIASED
    ltac:(by_computation) TK_CAP_SHARE ltac:(by_computation) TK_NONE ltac:(by_computation)).
  by_computation.
Defined.

(** The documented rule of [is_cap_sub_cap_bound]: the rule of [is_cap_sub_cap] when
    a side is a single capability, and otherwise every instantiation of [super] is
    above some instantiation of [sub]. *)
Definition bound_rule (c1 e1 c2 e2 : token_id) : Prop :=
  if tk_in (cap_aliasing c1 e1).1 generic_caps && tk_in (cap_aliasing c2 e2).1 generic_caps then
    ((cap_aliasing c2 e2).2 = TK_EPHEMERAL -> (cap_aliasing c1 e1).2 = TK_EPHEMERAL) /\
    forall j, j ∈ cap_instances c2 e2 -> Exists (fun i => cap_sub i j) (cap_instances c1 e1)
  else cap_sub (c1, e1) (c2, e2).

#[export] Instance bound_rule_dec c1 e1 c2 e2 : Decision (bound_rule c1 e1 c2 e2).
Proof. unfold bound_rule. destruct (_ && _); apply _. Defined.

(** The bound test never asserts and is the documented rule, except that a
    [#send] without ephemerality is also accepted as a bound of [#read], [#alias]
    and [#any], none of whose [ref] is above an instantiation of [#send]. *)
Theorem is_cap_sub_cap_bound_rule :
  forall c1, c1 ∈ all_caps -> forall e1, e1 ∈ all_ephs ->
  forall c2, c2 ∈ all_caps -> forall e2, e2 ∈ all_ephs ->
  is_cap_sub_cap_bound c1 e1 c2 e2 <> Abort /\
  (is_cap_sub_cap_bound c1 e1 c2 e2 = Ret true <->
     bound_rule c1 e1 c2 e2 \/
     (cap_aliasing c1 e1 = (TK_CAP_SEND, TK_NONE) /\
      cap_aliasing c2 e2 ∈ [(TK_CAP_READ, TK_NONE); (TK_CAP_ALIAS, TK_NONE);
                            (TK_CAP_ANY, TK_NONE)])).
Proof. by_computation. Qed.

Lemma is_cap_sub_cap_bound_rule_witness :
  is_cap_sub_cap_bound TK_CAP_READ TK_NONE TK_CAP_SHARE TK_NONE <> Abort.
Proof.
  apply (is_cap_sub_cap_bound_rule TK_CAP_READ ltac:(by_computation) TK_NONE
    ltac:(by_computation) TK_CAP_SHARE ltac:(by_computation) TK_NONE ltac:(by_computation)).
Defined.

(** Compatibility never depends on the order of its arguments, and for single
    capabilities other than [nhb], without ephemerality, two capabilities are
    compatible exactly when one is a subtype of the other (what [cap_dispatch]
    assumes of the elements of an intersection). *)
Theorem is_cap_compat_cap_symmetric :
  forall c1, c1 ∈ all_caps -> forall e1, e1 ∈ all_ephs ->
  forall c2, c2 ∈ all_caps -> forall e2, e2 ∈ all_ephs ->
  is_cap_compat_cap c1 e1 c2 e2 = is_cap_compat_cap c2 e2 c1 e1 /\
  (c1 ∈ single_caps -> c2 ∈ single_caps -> c1 <> TK_NHB -> c2 <> TK_NHB ->
   e1 <> TK_EPHEMERAL -> e2 <> TK_EPHEMERAL ->
   is_cap_compat_cap c1 e1 c2 e2 = true <->
     cap_sub (c1, e1) (c2, e2) \/ cap_sub (c2, e2) (c1, e1)).
Proof. by_computation. Qed.

Lemma is_cap_compat_cap_symmetric_witness :
  is_cap_compat_cap TK_TRN TK_NONE TK_CAP_ALIAS TK_NONE =
  is_cap_compat_cap TK_CAP_ALIAS TK_NONE TK_TRN TK_NONE.
Proof.
  apply (is_cap_compat_cap_symmetric TK_TRN ltac:(by_computation) TK_NONE ltac:(by_computation)
    TK_CAP_ALIAS ltac:(by_computation) TK_NONE ltac:(by_computation)).
Defined.

(** C30: viewpoint adaptation.  The specification is independent of the code: the view of
    a field through an origin is the least supertype of the field (of [val], when the
    origin is immutable and the field readable) that writes only if the origin does, and
    that does nothing the origin denies locally unless it is sendable.  [cap_view_upper]
    never asserts; it fails exactly when some instantiation of the origin cannot be
    read; otherwise its result is the least upper bound of the views of all
    instantiations, which for single capabilities is the view itself, or it is a generic
    capability whose instantiations are exactly those views. *)
Theorem cap_view_upper_least :
  forall c1, c1 ∈ all_caps -> forall e1, e1 ∈ all_ephs ->
  forall c2, c2 ∈ all_caps -> forall e2, e2 ∈ all_ephs ->
  view_upper_spec (c1, e1) (c2, e2).
Proof. by_computation. Qed.

Lemma cap_view_upper_least_witness : view_upper_spec (TK_TRN, TK_NONE) (TK_CAP_ANY, TK_NONE).
Proof.
  apply (cap_view_upper_least TK_TRN ltac:(by_computation) TK_NONE ltac:(by_computation)
    TK_CAP_ANY ltac:(by_computation) TK_NONE ltac:(by_computation)).
Defined.

(** [cap_view_lower] never asserts and is below the view of every instantiation
    (or generic with all of them as instances) exactly outside two cases, where its
    documentation fails: a [trn] view of [#any], for which it answers [iso], and a
    [#read] view of [trn], for which it answers [trn]. *)
Theorem cap_view_lower_bound :
  forall c1, c1 ∈ all_caps -> forall e1, e1 ∈ all_ephs ->
  forall c2, c2 ∈ all_caps -> forall e2, e2 ∈ all_ephs ->
  view_lower_spec (c1, e1) (c2, e2).
Proof. by_computation. Qed.

Lemma cap_view_lower_bound_witness : view_lower_spec (TK_BOX, TK_NONE) (TK_CAP_ANY, TK_NONE).
Proof.
  apply (cap_view_lower_bound TK_BOX ltac:(by_computation) TK_NONE ltac:(by_computation)
    TK_CAP_ANY ltac:(by_computation) TK_NONE ltac:(by_computation)).
Defined.

(** Safety of reading through a reference.  Through a sendable reference other
    than [nhb] only sendable capabilities are visible, and through one that cannot
    write no writable capability is visible. *)
Theorem cap_view_upper_safe :
  forall c1, c1 ∈ all_caps -> forall e1, e1 ∈ all_ephs ->
  forall c2, c2 ∈ all_caps -> forall e2, e2 ∈ all_ephs ->
  view_safe (c1, e1) (c2, e2).
Proof. by_computation. Qed.

Lemma cap_view_upper_safe_witness : view_safe (TK_ISO, TK_NONE) (TK_REF, TK_NONE).
Proof.
  apply (cap_view_upper_safe TK_ISO ltac:(by_computation) TK_NONE ltac:(by_computation)
    TK_REF ltac:(by_computation) TK_NONE ltac:(by_computation)).
Defined.
