(* ===== verification/Fun.v ===== *)
(** * Hash functions and powers of two: [src/libponyrt/ds/fun.c]

    The compiler builtins behind [__pony_ffszu] and [__pony_clzzu] are the position of
    the lowest set bit (from one, zero when there is none) and the number of leading
    zeros of a 64-bit word. *)
From S2P Require Import Prelude.
Local Open Scope Z_scope.
Local Open Scope c_scope.

Fixpoint pos_ctz (p : positive) : Z :=
  match p with
  | xO p => 1 + pos_ctz p
  | _ => 0
  end.

Definition ffszu (x : Z) : Z :=
  match x with
  | Zpos p => pos_ctz p + 1
  | _ => 0
  end.

Definition clzzu (x : Z) : Z := 63 - Z.log2 x.

(** On a 64-bit target without the ARMv5 special case. *)
Definition ponyint_next_pow2 (i : Z) : Z :=
  let i := i ⊟ 1 in
  let i := if i =? 0 then 64 else clzzu i in
  1 <<! (if i =? 0 then 0 else 64 - i).

Definition ponyint_hash_int64 (key : Z) : Z :=
  let key := not64 key ⊞ (key <<! 21) in
  let key := Z.lxor key (key >>! 24) in
  let key := (key ⊞ (key <<! 3)) ⊞ (key <<! 8) in
  let key := Z.lxor key (key >>! 14) in
  let key := (key ⊞ (key <<! 2)) ⊞ (key <<! 4) in
  let key := Z.lxor key (key >>! 28) in
  key ⊞ (key <<! 31).

Definition ponyint_hash_ptr (p : Z) : Z := ponyint_hash_int64 p.
Definition ponyint_hash_size (key : Z) : Z := ponyint_hash_int64 key.

(** ** The builtins *)

Lemma ffszu_0 x : 0 <= x -> (ffszu x = 0 <-> x = 0).
Proof.
  intros Hx. split; [|by intros ->].
  assert (forall p, 0 <= pos_ctz p) as Hctz by (induction p; simpl; lia).
  destruct x as [|p|p]; simpl; intros; [done|specialize (Hctz p); lia|lia].
Qed.

(** [ffszu] finds the lowest set bit. *)
Lemma ffszu_lowest x :
  0 < x -> 1 <= ffszu x /\ Z.testbit x (ffszu x - 1) = true /\
           forall k, 0 <= k < ffszu x - 1 -> Z.testbit x k = false.
Proof.
  destruct x as [|p|p]; [lia| |lia]. intros _. cbn [ffszu].
  replace (pos_ctz p + 1 - 1) with (pos_ctz p) by lia.
  enough (0 <= pos_ctz p /\ Z.testbit (Zpos p) (pos_ctz p) = true /\
          forall k, 0 <= k < pos_ctz p -> Z.testbit (Zpos p) k = false) by (split; [lia|tauto]).
  induction p as [p _|p (IH0 & IH1 & IH2)|]; cbn [pos_ctz]; [split; [done|split; [done|lia]]| |
    split; [done|split; [done|lia]]].
  rewrite (Pos2Z.inj_xO p). split; [lia|]. split.
  - rewrite Z.add_comm, Z.add_1_r, Z.double_bits_succ. done.
  - intros k Hk. destruct (decide (k = 0)) as [->|]; [apply Z.testbit_even_0|].
    replace k with (Z.succ (k - 1)) by lia. rewrite Z.double_bits_succ. apply IH2. lia.
Qed.

(** ** The next power of two *)

(** [ponyint_next_pow2] rounds up to the least power of two: for a size [i] between
    1 and [2^63] the result is a power of two, at least [i], and half of it is below [i]. *)
Theorem next_pow2_least i :
  1 <= i <= 2 ^ 63 ->
  exists k, 0 <= k <= 63 /\ ponyint_next_pow2 i = 2 ^ k /\ i <= 2 ^ k /\
            forall j, 0 <= j -> i <= 2 ^ j -> k <= j.
Proof.
  intros Hi. unfold ponyint_next_pow2. unfold sub64. rewrite u64_id by (unfold is_u64; lia).
  destruct (Z.eqb_spec (i - 1) 0) as [E|E].
  - exists 0. assert (i = 1) as -> by lia. split; [lia|]. split; [reflexivity|]. by split.
  - unfold clzzu. pose proof (Z.log2_spec (i - 1)) as [Hlo Hhi]; [lia|].
    pose proof (Z.log2_nonneg (i - 1)).
    assert (Z.log2 (i - 1) < 63) as Hlog by (apply Z.log2_lt_pow2; lia).
    destruct (Z.eqb_spec (63 - Z.log2 (i - 1)) 0); [lia|].
    exists (Z.succ (Z.log2 (i - 1))). split; [lia|]. split; [|split; [lia|]].
    + unfold shl64. rewrite Z.shiftl_1_l.
      replace (64 - (63 - Z.log2 (i - 1))) with (Z.succ (Z.log2 (i - 1))) by lia.
      apply u64_id. split; [apply Z.pow_nonneg; lia|].
      apply Z.pow_lt_mono_r; lia.
    + intros j Hj Hle. apply Z.le_succ_l, Z.log2_lt_pow2; lia.
Qed.

Lemma next_pow2_least_witness :
  (1 <= 9 <= 2 ^ 63) /\
  exists k, 0 <= k <= 63 /\ ponyint_next_pow2 9 = 2 ^ k /\ 9 <= 2 ^ k /\
            forall j, 0 <= j -> 9 <= 2 ^ j -> k <= j.
Proof. split; [lia|]. apply (next_pow2_least 9). lia. Defined.

(** ** The integer hash *)

Lemma lxor_shr64_inj s x y :
  0 < s -> is_u64 x -> is_u64 y ->
  Z.lxor x (x >>! s) = Z.lxor y (y >>! s) -> x = y.
Proof.
  intros Hs Hx Hy H. apply Z.lxor_eq. set (d := Z.lxor x y).
  assert (is_u64 d) as Hd by by apply lxor_range.
  assert (d = Z.shiftr d s) as Heq.
  { by_bits i Hi. apply (f_equal (fun z => Z.testbit z i)) in H.
    rewrite Z.shiftr_spec by done. unfold d. revert H. unfold shr64.
    rewrite !Z.lxor_spec, !Z.shiftr_spec by done.
    destruct (Z.testbit x i), (Z.testbit y i), (Z.testbit x (i + s)), (Z.testbit y (i + s)); done. }
  rewrite Z.shiftr_div_pow2 in Heq by lia. destruct (decide (d = 0)); [done|].
  assert (2 ^ 1 <= 2 ^ s) by (apply Z.pow_le_mono_r; lia).
  assert (d / 2 ^ s < d) by (apply Z.div_lt; unfold is_u64 in Hd; lia). lia.
Qed.

(** Multiplication by a number with an inverse modulo [2^64]. *)
Lemma mul_u64_inj a b c x y :
  u64 (a * b) = 1 -> is_u64 x -> is_u64 y -> u64 (a * x + c) = u64 (a * y + c) -> x = y.
Proof.
  intros Hab Hx Hy H. rewrite <- (u64_id x), <- (u64_id y) by done.
  enough (forall z, u64 z = u64 (b * (u64 (a * z + c) - c))) as E.
  { by rewrite (E x), (E y), H. }
  intros z. unfold u64, wrap in *.
  rewrite <- Zmult_mod_idemp_r, Zminus_mod_idemp_l, Zmult_mod_idemp_r.
  replace (b * (a * z + c - c)) with (a * b * z) by lia.
  by rewrite <- Zmult_mod_idemp_l, Hab, Z.mul_1_l.
Qed.

Lemma hash_add_shl x y s t : (x ⊞ (y <<! s)) ⊞ (y <<! t) = u64 (x + Z.shiftl y s + Z.shiftl y t).
Proof.
  unfold add64, shl64, u64, wrap. rewrite Zplus_mod_idemp_l, Zplus_mod_idemp_r.
  rewrite <- Z.add_assoc, (Z.add_comm (Z.shiftl y s mod _)), Z.add_assoc, Zplus_mod_idemp_r.
  f_equal. lia.
Qed.

(** [ponyint_hash_int64] has no collisions: two different 64-bit keys, pointers or
    sizes have different hashes, so that in a map keyed by pointers equal hashes mean
    equal keys. *)
Theorem hash_int64_injective x y :
  is_u64 x -> is_u64 y -> ponyint_hash_int64 x = ponyint_hash_int64 y -> x = y.
Proof.
  intros Hx Hy. unfold ponyint_hash_int64. rewrite !hash_add_shl.
  assert (forall k s, 0 <= s -> k ⊞ (k <<! s) = u64 ((1 + 2 ^ s) * k + 0)) as E1.
  { intros k s Hs. unfold add64, shl64, u64, wrap. rewrite Zplus_mod_idemp_r, Z.shiftl_mul_pow2 by done.
    f_equal. lia. }
  assert (forall k s t, 0 <= s -> 0 <= t ->
    u64 (k + Z.shiftl k s + Z.shiftl k t) = u64 ((1 + 2 ^ s + 2 ^ t) * k + 0)) as E2.
  { intros k s t Hs Ht. rewrite !Z.shiftl_mul_pow2 by done. f_equal. lia. }
  assert (forall k, not64 k ⊞ (k <<! 21) = u64 ((2 ^ 21 - 1) * k + -1)) as E3.
  { intros k. unfold add64, not64, shl64, u64, wrap, Z.lnot.
    rewrite Zplus_mod_idemp_r, Zplus_mod_idemp_l, Z.shiftl_mul_pow2 by done. f_equal. lia. }
  rewrite !E1, !E2, !E3 by done. intros H.
  apply (mul_u64_inj _ 4611686016279904257) in H; [|reflexivity|shelve..].
  Unshelve.
  all: try by apply lxor_range; auto with word_range.
  apply lxor_shr64_inj in H; [|done|apply u64_range..].
  apply (mul_u64_inj _ 14933078535860113213) in H; [|reflexivity|shelve..].
  Unshelve.
  all: try by apply lxor_range; auto with word_range.
  apply lxor_shr64_inj in H; [|done|apply u64_range..].
  apply (mul_u64_inj _ 15244667743933553977) in H; [|reflexivity|shelve..].
  Unshelve.
  all: try by apply lxor_range; auto with word_range.
  apply lxor_shr64_inj in H; [|done|apply u64_range..].
  by apply (mul_u64_inj _ 9223367638806167551) in H; [|reflexivity|..].
Qed.

Lemma hash_int64_injective_witness :
  (is_u64 5 /\ is_u64 5) /\ 5 = 5 :> Z.
Proof.
  split; [unfold is_u64; lia|].
  apply hash_int64_injective; [unfold is_u64; lia..|reflexivity].
Defined.
