(* ===== verification/Hash.v ===== *)
(** * The Robin Hood hash map: [src/libponyrt/ds/hash.c], [src/libponyrt/ds/hash.h]

    A pointer is a [Z] with [NULL = 0].  The table is the record of the C struct; the
    bitmap is a list of 64-bit words and the buckets a list of entries, read and
    written at the indices the code computes, with the shifts and masks of the code.
    The comparison function of a map is an argument of its operations, as in C, and
    the contents of freshly allocated memory are a parameter. *)
From S2P Require Import Prelude Fun.
Local Open Scope Z_scope.
Local Open Scope c_scope.

Definition MIN_HASHMAP_SIZE : Z := 8.
Definition HASHMAP_BEGIN : Z := 2 ^ 64 - 1.
Definition HASHMAP_UNKNOWN : Z := 2 ^ 64 - 1.
Definition HASHMAP_BITMAP_TYPE_BITS : Z := 6.
Definition HASHMAP_BITMAP_TYPE_SIZE : Z := 64.
Definition HASHMAP_BITMAP_TYPE_MASK : Z := 63.

Record hashmap_entry_t := mk_entry { ptr : Z; hash : Z }.

Record hashmap_t := mk_hashmap {
  count : Z;
  msize : Z;
  item_bitmap : list Z;
  buckets : list hashmap_entry_t
}.

(** ** Accesses to the two arrays *)

Definition null_entry : hashmap_entry_t := mk_entry NULL 0.

Definition bitmap_word (bm : list Z) (ib_index : Z) : Z := nth (Z.to_nat ib_index) bm 0.
Definition bucket (bs : list hashmap_entry_t) (index : Z) : hashmap_entry_t :=
  nth (Z.to_nat index) bs null_entry.

(** [(item_bitmap[ib_index] & ((bitmap_t)1 << ib_offset)) != 0] *)
Definition bit_set (bm : list Z) (index : Z) : bool :=
  let ib_index := index >>! HASHMAP_BITMAP_TYPE_BITS in
  let ib_offset := Z.land index HASHMAP_BITMAP_TYPE_MASK in
  negb (Z.land (bitmap_word bm ib_index) (1 <<! ib_offset) =? 0).

(** [item_bitmap[ib_index] |= ((bitmap_t)1 << ib_offset)] *)
Definition set_bit (bm : list Z) (index : Z) : list Z :=
  let ib_index := index >>! HASHMAP_BITMAP_TYPE_BITS in
  let ib_offset := Z.land index HASHMAP_BITMAP_TYPE_MASK in
  <[Z.to_nat ib_index := Z.lor (bitmap_word bm ib_index) (1 <<! ib_offset)]> bm.

(** [item_bitmap[ib_index] &= ~((bitmap_t)1 << ib_offset)] *)
Definition clear_bit (bm : list Z) (index : Z) : list Z :=
  let ib_index := index >>! HASHMAP_BITMAP_TYPE_BITS in
  let ib_offset := Z.land index HASHMAP_BITMAP_TYPE_MASK in
  <[Z.to_nat ib_index := Z.land (bitmap_word bm ib_index) (not64 (1 <<! ib_offset))]> bm.

Definition set_bucket (map : hashmap_t) (index : Z) (e : hashmap_entry_t) : hashmap_t :=
  mk_hashmap (count map) (msize map) (item_bitmap map) (<[Z.to_nat index := e]> (buckets map)).

(** Puts an item in an empty bucket: the bucket, the count and the bitmap. *)
Definition fill_bucket (map : hashmap_t) (index : Z) (e : hashmap_entry_t) : hashmap_t :=
  mk_hashmap (count map ⊞ 1) (msize map) (set_bit (item_bitmap map) index)
    (<[Z.to_nat index := e]> (buckets map)).

(** Empties a bucket: [buckets[pos].ptr = NULL; count--;] and the bitmap. *)
Definition empty_bucket (map : hashmap_t) (index : Z) : hashmap_t :=
  mk_hashmap (count map ⊟ 1) (msize map) (clear_bit (item_bitmap map) index)
    (<[Z.to_nat index := mk_entry NULL (hash (bucket (buckets map) index))]> (buckets map)).

(** ** Search *)

Definition get_probe_length (map : hashmap_t) (h current mask : Z) : Z :=
  Z.land ((current ⊞ msize map) ⊟ Z.land h mask) mask.

(** The returned element and the three out parameters of [search]. *)
Record search_result := mk_search {
  s_elem : Z;
  s_pos : Z;
  s_probe_length : Z;
  s_oi_probe_length : Z
}.

Section operations.
Context (cmp : Z -> Z -> bool).

(** [n] iterations of the loop remain. *)
Fixpoint search_loop (n : nat) (map : hashmap_t) (key h mask index p_length oi : Z)
    : search_result :=
  match n with
  | O => mk_search NULL (msize map) p_length oi
  | S n =>
      if negb (bit_set (item_bitmap map) index) then mk_search NULL index p_length oi
      else
        let elem_hash := hash (bucket (buckets map) index) in
        let oi_p_length := get_probe_length map elem_hash index mask in
        if oi_p_length <? p_length then mk_search NULL index p_length oi_p_length
        else
          let elem := ptr (bucket (buckets map) index) in
          if (h =? elem_hash) && cmp key elem then mk_search elem index p_length oi
          else search_loop n map key h mask (Z.land (index ⊞ 1) mask) (p_length ⊞ 1) oi
  end.

Definition search (map : hashmap_t) (key h probe_length oi_probe_length : Z) : search_result :=
  let mask := msize map ⊟ 1 in
  search_loop (Z.to_nat (msize map)) map key h mask
    (Z.land (Z.land h mask ⊞ probe_length) mask) probe_length oi_probe_length.

(** ** Iteration *)

Definition bitmap_size (size : Z) : Z :=
  (size >>! HASHMAP_BITMAP_TYPE_BITS) ⊞
  (if Z.land size HASHMAP_BITMAP_TYPE_MASK =? 0 then 0 else 1).

(** The loop of [ponyint_hashmap_next], on the variables [index], [ib_index],
    [ib_offset] and [ib]. *)
Fixpoint next_loop (fuel : nat) (bm : list Z) (size : Z) (bs : list hashmap_entry_t)
    (index ib_index ib_offset ib : Z) : outcome (Z * Z) :=
  if index <? size then
    match fuel with
    | O => NoFuel
    | S fuel =>
        let ffs_offset := ffszu ib in
        if ffs_offset =? 0 then
          let ib_index' := ib_index ⊞ 1 in
          next_loop fuel bm size bs (index ⊞ (HASHMAP_BITMAP_TYPE_SIZE ⊟ ib_offset)) ib_index' 0
            (bitmap_word bm ib_index')
        else
          let index := index ⊞ (ffs_offset ⊟ 1) in
          if ptr (bucket bs index) =? NULL then Abort
          else Ret (index, ptr (bucket bs index))
    end
  else Ret (size, NULL).

(** The result is the final value of [*i] and the returned pointer. *)
Definition ponyint_hashmap_next (i cnt : Z) (bm : list Z) (size : Z)
    (bs : list hashmap_entry_t) : outcome (Z * Z) :=
  if cnt =? 0 then Ret (i, NULL)
  else
    let index := i ⊞ 1 in
    let ib_index := index >>! HASHMAP_BITMAP_TYPE_BITS in
    let ib_offset := Z.land index HASHMAP_BITMAP_TYPE_MASK in
    next_loop (Z.to_nat size) bm size bs index ib_index ib_offset
      (bitmap_word bm ib_index >>! ib_offset).

(** ** Allocation *)

(** What the allocator returns for a bucket array of a given size. *)
Context (fresh_buckets : Z -> list hashmap_entry_t).

Definition fresh_map (size : Z) : hashmap_t :=
  mk_hashmap 0 size (replicate (Z.to_nat (bitmap_size size)) 0) (fresh_buckets size).

Definition ponyint_hashmap_init (size : Z) : hashmap_t :=
  let size := size <<! 1 in
  fresh_map (if size <? MIN_HASHMAP_SIZE then MIN_HASHMAP_SIZE else ponyint_next_pow2 size).

(** The elements handed to [free_elem], in order, and the map afterwards. *)
Fixpoint destroy_loop (fuel : nat) (map : hashmap_t) (i : Z) (freed : list Z)
    : outcome (list Z) :=
  match fuel with
  | O => NoFuel
  | S fuel =>
      '(i, curr) ← ponyint_hashmap_next i (count map) (item_bitmap map) (msize map) (buckets map);
      if curr =? NULL then Ret freed
      else destroy_loop fuel map i (freed ++ [curr])
  end.

(** [free_elem] says whether the caller passes a function to free the elements. *)
Definition ponyint_hashmap_destroy (map : hashmap_t) (free_elem : bool)
    : outcome (list Z * hashmap_t) :=
  freed ← (if free_elem then destroy_loop (S (Z.to_nat (msize map))) map HASHMAP_BEGIN []
           else Ret []);
  Ret (freed, mk_hashmap 0 0 [] []).

(** The loop of [resize] that moves the items of the old arrays, with the insertion
    it calls as an argument. *)
Fixpoint move_loop (put : hashmap_t -> Z -> Z -> outcome (hashmap_t * Z)) (fuel : nat)
    (map : hashmap_t) (i c : Z) (old_item_bitmap : list Z) (s : Z)
    (b : list hashmap_entry_t) : outcome hashmap_t :=
  match fuel with
  | O => NoFuel
  | S fuel =>
      '(i, curr) ← ponyint_hashmap_next i c old_item_bitmap s b;
      if curr =? NULL then Ret map
      else
        '(map, _) ← put map curr (hash (bucket b i));
        move_loop put fuel map i c old_item_bitmap s b
  end.

Definition resize (put : hashmap_t -> Z -> Z -> outcome (hashmap_t * Z)) (map : hashmap_t)
    : outcome hashmap_t :=
  let s := msize map in
  let c := count map in
  let b := buckets map in
  let old_item_bitmap := item_bitmap map in
  let size := if s <? MIN_HASHMAP_SIZE then MIN_HASHMAP_SIZE else s <<! 3 in
  map ← move_loop put (S (Z.to_nat s)) (fresh_map size) HASHMAP_BEGIN c old_item_bitmap s b;
  if count map =? c then Ret map else Abort.

(** ** Insertion *)

(** The loop of [shift_put]; [resize] is what it calls on a full map. *)
Fixpoint shift_put_loop (resize : hashmap_t -> outcome hashmap_t) (fuel : nat)
    (map : hashmap_t) (ci_entry ci_hash pos probe_length oi_probe_length elem : Z)
    : outcome hashmap_t :=
  match fuel with
  | O => NoFuel
  | S fuel =>
      if negb (pos <? msize map) then Abort
      else if (elem =? NULL) && bit_set (item_bitmap map) pos then
        let oi_entry := ptr (bucket (buckets map) pos) in
        let oi_hash := hash (bucket (buckets map) pos) in
        let map := set_bucket map pos (mk_entry ci_entry ci_hash) in
        let r := search map oi_entry oi_hash oi_probe_length oi_probe_length in
        shift_put_loop resize fuel map oi_entry oi_hash (s_pos r) (s_probe_length r)
          (s_oi_probe_length r) (s_elem r)
      else if elem =? NULL then
        let map := fill_bucket map pos (mk_entry ci_entry ci_hash) in
        if msize map <? (count map <<! 1) then resize map else Ret map
      else Ret (set_bucket map pos (mk_entry ci_entry ci_hash))
  end.

Definition shift_put (resize : hashmap_t -> outcome hashmap_t) (map : hashmap_t)
    (entry h index pl oi_pl e : Z) : outcome hashmap_t :=
  if (oi_pl <? pl) || ((pl =? oi_pl) && (pl =? 0)) then
    shift_put_loop resize (S (Z.to_nat (msize map))) map entry h index pl oi_pl e
  else Abort.

(** [ponyint_hashmap_put] and [resize] call each other; [depth] bounds the nesting. *)
Fixpoint put_depth (depth : nat) (map : hashmap_t) (entry h : Z) : outcome (hashmap_t * Z) :=
  match depth with
  | O => NoFuel
  | S depth =>
      let map := if msize map =? 0 then ponyint_hashmap_init 4 else map in
      let r := search map entry h 0 0 in
      map ← shift_put (resize (put_depth depth)) map entry h (s_pos r) (s_probe_length r)
              (s_oi_probe_length r) (s_elem r);
      Ret (map, s_elem r)
  end.

(** A map that has just been resized has room for all its items, so that the
    insertions of [resize] do not resize again. *)
Definition ponyint_hashmap_put (map : hashmap_t) (entry h : Z) : outcome (hashmap_t * Z) :=
  put_depth 2 map entry h.

Definition ponyint_hashmap_putindex (map : hashmap_t) (entry h pos : Z) : outcome hashmap_t :=
  if pos =? HASHMAP_UNKNOWN then '(map, _) ← ponyint_hashmap_put map entry h; Ret map
  else
    let map := if msize map =? 0 then ponyint_hashmap_init 4 else map in
    if negb (pos <? msize map) then Abort
    else if negb (bit_set (item_bitmap map) pos) then
      let map := fill_bucket map pos (mk_entry entry h) in
      if msize map <? (count map <<! 1) then resize (put_depth 1) map else Ret map
    else
      let mask := msize map ⊟ 1 in
      let oi_hash := hash (bucket (buckets map) pos) in
      let oi_probe_length := get_probe_length map oi_hash pos mask in
      let ci_probe_length := get_probe_length map h pos mask in
      if oi_probe_length <? ci_probe_length then
        shift_put (resize (put_depth 1)) map entry h pos ci_probe_length oi_probe_length NULL
      else '(map, _) ← ponyint_hashmap_put map entry h; Ret map.

(** ** Lookup and removal *)

(** The result is the element and, when the table was searched, its position. *)
Definition ponyint_hashmap_get (map : hashmap_t) (key h : Z) : Z * option Z :=
  if count map =? 0 then (NULL, None)
  else let r := search map key h 0 0 in (s_elem r, Some (s_pos r)).

(** The loop of [shift_delete], on [pos]; the other variables are functions of it. *)
Fixpoint shift_delete_loop (fuel : nat) (map : hashmap_t) (pos mask : Z) : outcome hashmap_t :=
  match fuel with
  | O => NoFuel
  | S fuel =>
      let next_pos := Z.land (pos ⊞ 1) mask in
      let ni_hash := hash (bucket (buckets map) next_pos) in
      if bit_set (item_bitmap map) next_pos
         && negb (get_probe_length map ni_hash next_pos mask =? 0) then
        shift_delete_loop fuel (set_bucket map pos (bucket (buckets map) next_pos)) next_pos mask
      else Ret (empty_bucket map pos)
  end.

Definition shift_delete (map : hashmap_t) (index : Z) : outcome hashmap_t :=
  if negb (index <? msize map) then Abort
  else shift_delete_loop (Z.to_nat (msize map)) map index (msize map ⊟ 1).

Definition ponyint_hashmap_remove (map : hashmap_t) (entry h : Z) : outcome (hashmap_t * Z) :=
  if count map =? 0 then Ret (map, NULL)
  else
    let r := search map entry h 0 0 in
    if negb (s_elem r =? NULL) then
      map ← shift_delete map (s_pos r); Ret (map, s_elem r)
    else Ret (map, s_elem r).

Definition ponyint_hashmap_removeindex (map : hashmap_t) (index : Z) : outcome hashmap_t :=
  if msize map <=? index then Ret map
  else if bit_set (item_bitmap map) index then shift_delete map index
  else Ret map.

Definition ponyint_hashmap_clearindex (map : hashmap_t) (index : Z) : hashmap_t :=
  if msize map <=? index then map
  else if negb (bit_set (item_bitmap map) index) then map
  else empty_bucket map index.

(** ** Optimisation after clearing *)

(** [n] iterations of the loop remain; the result counts the moved items. *)
Fixpoint optimize_item_loop (n : nat) (map : hashmap_t) (entry h mask old_index index : Z)
    : outcome (hashmap_t * Z) :=
  match n with
  | O => Ret (map, 0)
  | S n =>
      if index =? old_index then Ret (map, 0)
      else
        let move :=
          map ← ponyint_hashmap_putindex (ponyint_hashmap_clearindex map old_index) entry h index;
          Ret (map, 1) in
        if negb (bit_set (item_bitmap map) index) then move
        else if get_probe_length map (hash (bucket (buckets map) index)) index mask
                <? get_probe_length map h index mask then move
        else optimize_item_loop n map entry h mask old_index (Z.land (index ⊞ 1) mask)
  end.

Definition optimize_item (map : hashmap_t) (old_index : Z) : outcome (hashmap_t * Z) :=
  let mask := msize map ⊟ 1 in
  let h := hash (bucket (buckets map) old_index) in
  let entry := ptr (bucket (buckets map) old_index) in
  optimize_item_loop (Z.to_nat (msize map)) map entry h mask old_index (Z.land h mask).

End operations.

Definition ponyint_hashmap_size (map : hashmap_t) : Z := count map.

(** [sizeof(bitmap_t)] is 8 and [sizeof(hashmap_entry_t)] 16. *)
Definition ponyint_hashmap_mem_size (map : hashmap_t) : Z :=
  u64 (u64 (bitmap_size (msize map) * 8) + u64 (msize map * 16)).
