(* ===== verification/HashInv.v ===== *)
(** * The hash map: representation, invariant, search

    The two arrays of a map are read through [slot]: the entry of an occupied bucket,
    or nothing.  [items] lists the occupied buckets, [shape] says that the arrays fit the
    size, a power of two, and [robin] is the Robin Hood order of the probe lengths.  Under these, what [search] and [next] find. *)
From S2P Require Import Prelude Fun Hash.
Local Open Scope Z_scope.
Local Open Scope c_scope.

(** ** The bitmap *)

Section bitmap.
Implicit Types bm : list Z.

Lemma shl64_1 o : 0 <= o < 64 -> 1 <<! o = 2 ^ o.
Proof.
  intros Ho. unfold shl64. rewrite Z.shiftl_1_l. apply u64_id. split; [lia|].
  apply Z.pow_lt_mono_r; lia.
Qed.

Lemma land_pow2_0 w o : 0 <= o -> (Z.land w (2 ^ o) =? 0) = negb (Z.testbit w o).
Proof.
  intros Ho. destruct (Z.eqb_spec (Z.land w (2 ^ o)) 0) as [H|H].
  - apply (f_equal (fun z => Z.testbit z o)) in H.
    rewrite Z.land_spec, Z.pow2_bits_true, Z.bits_0, andb_true_r in H by done. by rewrite H.
  - destruct (Z.testbit w o) eqn:E; [done|]. exfalso. apply H. by_bits i Hi.
    rewrite Z.land_spec, Z.bits_0, Z.pow2_bits_eqb by done.
    destruct (Z.eqb_spec o i) as [<-|]; [by rewrite E|apply andb_false_r].
Qed.

Lemma shr64_6 i : i >>! HASHMAP_BITMAP_TYPE_BITS = i / 64.
Proof. unfold shr64, HASHMAP_BITMAP_TYPE_BITS. by rewrite Z.shiftr_div_pow2. Qed.

Lemma land_63 i : Z.land i HASHMAP_BITMAP_TYPE_MASK = i mod 64.
Proof. apply (land_ones_mod i 6). lia. Qed.

Lemma bit_set_testbit bm i : bit_set bm i = Z.testbit (bitmap_word bm (i / 64)) (i mod 64).
Proof.
  unfold bit_set. rewrite shr64_6, land_63. pose proof (Z.mod_pos_bound i 64).
  rewrite shl64_1, land_pow2_0 by lia. apply negb_involutive.
Qed.

Lemma index_split i j : (i = j) <-> i / 64 = j / 64 /\ i mod 64 = j mod 64.
Proof. split; [by intros ->|]. intros [H1 H2]. rewrite (Z.div_mod i 64), (Z.div_mod j 64); lia. Qed.

Lemma bitmap_word_insert bm k w j :
  0 <= k -> 0 <= j -> (Z.to_nat k < length bm)%nat ->
  bitmap_word (<[Z.to_nat k := w]> bm) j = if k =? j then w else bitmap_word bm j.
Proof.
  intros Hk Hj Hlen. unfold bitmap_word. rewrite !nth_lookup. destruct (Z.eqb_spec k j) as [->|Hne].
  - by rewrite list_lookup_insert_eq.
  - rewrite list_lookup_insert_ne by lia. done.
Qed.

Lemma bit_set_set_bit bm i j :
  0 <= i -> 0 <= j -> (Z.to_nat (i / 64) < length bm)%nat ->
  bit_set (set_bit bm i) j = (i =? j) || bit_set bm j.
Proof.
  intros Hi Hj Hlen. rewrite !bit_set_testbit. unfold set_bit. rewrite shr64_6, land_63.
  pose proof (Z.mod_pos_bound i 64). pose proof (Z.mod_pos_bound j 64).
  rewrite bitmap_word_insert by (done || (apply Z.div_pos; lia)).
  destruct (Z.eqb_spec (i / 64) (j / 64)) as [Hd|Hd].
  - rewrite Z.lor_spec, shl64_1, Z.pow2_bits_eqb, Hd by lia.
    destruct (Z.eqb_spec i j) as [->|Hne]; [by rewrite Z.eqb_refl, orb_true_r|].
    destruct (Z.eqb_spec (i mod 64) (j mod 64)) as [Hm|Hm]; [|apply orb_false_r].
    exfalso. apply Hne. by apply index_split.
  - destruct (Z.eqb_spec i j) as [->|]; done.
Qed.

Lemma bit_set_clear_bit bm i j :
  0 <= i -> 0 <= j -> (Z.to_nat (i / 64) < length bm)%nat ->
  bit_set (clear_bit bm i) j = negb (i =? j) && bit_set bm j.
Proof.
  intros Hi Hj Hlen. rewrite !bit_set_testbit. unfold clear_bit. rewrite shr64_6, land_63.
  pose proof (Z.mod_pos_bound i 64). pose proof (Z.mod_pos_bound j 64).
  rewrite bitmap_word_insert by (done || (apply Z.div_pos; lia)).
  destruct (Z.eqb_spec (i / 64) (j / 64)) as [Hd|Hd].
  - rewrite Z.land_spec, not64_testbit, shl64_1, Z.pow2_bits_eqb, Hd by lia.
    rewrite (proj2 (Z.ltb_lt (j mod 64) 64)) by lia.
    destruct (Z.eqb_spec i j) as [->|Hne]; [by rewrite Z.eqb_refl, andb_false_r|].
    destruct (Z.eqb_spec (i mod 64) (j mod 64)) as [Hm|Hm]; [|apply andb_true_r].
    exfalso. apply Hne. by apply index_split.
  - destruct (Z.eqb_spec i j) as [->|]; done.
Qed.

Lemma bucket_insert bs i e j :
  0 <= i -> 0 <= j -> (Z.to_nat i < length bs)%nat ->
  bucket (<[Z.to_nat i := e]> bs) j = if i =? j then e else bucket bs j.
Proof.
  intros Hi Hj Hlen. unfold bucket. rewrite !nth_lookup. destruct (Z.eqb_spec i j) as [->|Hne].
  - by rewrite list_lookup_insert_eq.
  - rewrite list_lookup_insert_ne by lia. done.
Qed.
Lemma bitmap_word_replicate k i : bitmap_word (replicate k 0) i = 0.
Proof.
  unfold bitmap_word. rewrite nth_lookup. destruct (_ !! _) eqn:E; [|done].
  by apply lookup_replicate in E as [-> _].
Qed.

End bitmap.

(** ** Slots and items *)

Definition slot (map : hashmap_t) (i : Z) : option hashmap_entry_t :=
  if bit_set (item_bitmap map) i then Some (bucket (buckets map) i) else None.

Definition items_between (map : hashmap_t) (lo hi : Z) : list hashmap_entry_t :=
  omap (slot map) (seqZ lo (hi - lo)).

Definition items (map : hashmap_t) : list hashmap_entry_t := items_between map 0 (msize map).

(** The shape of an allocated table: a power of two of buckets and their bitmap. *)
Record shape (map : hashmap_t) : Prop := {
  shape_size : exists k, 3 <= k <= 60 /\ msize map = 2 ^ k;
  shape_bitmap : msize map <= 64 * Z.of_nat (length (item_bitmap map));
  shape_buckets : Z.of_nat (length (buckets map)) = msize map;
  shape_words : Forall is_u64 (item_bitmap map);
  shape_clear : forall j, msize map <= j -> bit_set (item_bitmap map) j = false
}.

(** [omap] over a list without duplicates, for two functions that differ in one place. *)
Lemma omap_update {A B} (f g : A -> option B) (l : list A) (i : A) :
  NoDup l -> i ∈ l -> (forall j, j ∈ l -> j <> i -> f j = g j) ->
  exists rest, omap f l ≡ₚ option_list (f i) ++ rest /\ omap g l ≡ₚ option_list (g i) ++ rest.
Proof.
  intros Hnd Hi Heq. apply list_elem_of_split in Hi as (l1 & l2 & ->).
  apply NoDup_app in Hnd as (_ & H1 & H2). apply NoDup_cons in H2 as [H2 _].
  assert (forall h : A -> option B, omap h (l1 ++ i :: l2) ≡ₚ option_list (h i) ++ omap h l1 ++ omap h l2) as Hp.
  { intros h. rewrite omap_app. simpl. destruct (h i); simpl; [|done].
    by rewrite Permutation_middle. }
  exists (omap f l1 ++ omap f l2). split; [apply Hp|]. rewrite Hp.
  enough (omap f l1 = omap g l1 /\ omap f l2 = omap g l2) as [-> ->] by done.
  assert (forall k, k ∈ l1 ++ l2 -> f k = g k) as Heq'.
  { intros k Hk. apply Heq; [rewrite elem_of_app, elem_of_cons; rewrite elem_of_app in Hk; tauto|].
    intros ->. apply elem_of_app in Hk as [Hk|Hk]; [|done]. apply (H1 i Hk). by left. }
  assert (forall k : list A, (forall x, x ∈ k -> f x = g x) -> omap f k = omap g k) as Hext.
  { clear. induction k as [|x k IH]; intros H; [done|].
    assert (omap f k = omap g k) as E by (apply IH; intros; apply H; by right).
    cbn [omap list_omap] in *. rewrite (H x) by by left. by rewrite E. }
  split; apply Hext; intros x Hx; apply Heq', elem_of_app; tauto.
Qed.

Section shape_facts.
Context (map : hashmap_t) (Hs : shape map).

Lemma shape_bounds : 8 <= msize map <= 2 ^ 60.
Proof.
  destruct (shape_size _ Hs) as (k & Hk & ->).
  change 8 with (2 ^ 3). split; apply Z.pow_le_mono_r; lia.
Qed.

Lemma shape_word i : 0 <= i < msize map -> (Z.to_nat (i / 64) < length (item_bitmap map))%nat.
Proof.
  intros Hi. pose proof (shape_bitmap _ Hs).
  assert (i / 64 < Z.of_nat (length (item_bitmap map))) by (apply Z.div_lt_upper_bound; lia).
  pose proof (Z.div_pos i 64). lia.
Qed.

Lemma shape_bucket i : 0 <= i < msize map -> (Z.to_nat i < length (buckets map))%nat.
Proof. intros Hi. pose proof (shape_buckets _ Hs). lia. Qed.

Lemma mask_mod x : Z.land x (msize map ⊟ 1) = x mod msize map.
Proof.
  pose proof shape_bounds. unfold sub64. rewrite u64_id by (unfold is_u64; lia).
  destruct (shape_size _ Hs) as (k & Hk & Hn). rewrite Hn. apply land_ones_mod. lia.
Qed.

(** A whole number of turns of the table does not show in the mask. *)
Lemma u64_mod x : u64 x mod msize map = x mod msize map.
Proof.
  destruct (shape_size _ Hs) as (k & Hk & Hn). rewrite Hn. unfold u64, wrap.
  assert ((2 ^ k | 2 ^ 64)) as Hd.
  { exists (2 ^ (64 - k)). rewrite <- Z.pow_add_r by lia. f_equal. lia. }
  apply Z.mod_mod_divide, Hd.
Qed.

Lemma probe_length_mod h i :
  get_probe_length map h i (msize map ⊟ 1) = (i - h) mod msize map.
Proof.
  unfold get_probe_length. rewrite !mask_mod. unfold sub64. rewrite u64_mod.
  unfold add64. pose proof shape_bounds.
  rewrite Zminus_mod, u64_mod, Zmod_mod, <- Zminus_mod.
  rewrite <- (Z_mod_plus_full (i - h) 1). f_equal. lia.
Qed.
End shape_facts.

(** ** Updates of one bucket *)

Lemma bitmap_word_range bm k : Forall is_u64 bm -> is_u64 (bitmap_word bm k).
Proof.
  intros H. unfold bitmap_word. rewrite nth_lookup.
  destruct (bm !! Z.to_nat k) eqn:E; simpl; [by eapply Forall_lookup_1|unfold is_u64; lia].
Qed.

Section updates.
Context (map : hashmap_t) (Hs : shape map) (i : Z) (Hi : 0 <= i < msize map).

Lemma shape_set_bucket e : shape (set_bucket map i e).
Proof. destruct Hs. split; simpl; try done. by rewrite length_insert. Qed.

Lemma shape_fill_bucket e : shape (fill_bucket map i e).
Proof.
  pose proof (shape_clear _ Hs) as Hclear. pose proof (shape_word _ Hs i Hi) as Hw.
  destruct Hs. split; simpl; try done.
  - unfold set_bit. by rewrite length_insert.
  - by rewrite length_insert.
  - apply Forall_insert; [done|]. apply lor_range; [by apply bitmap_word_range|apply shl64_range].
  - intros j Hj. rewrite bit_set_set_bit by (lia || done).
    rewrite (proj2 (Z.eqb_neq i j)) by lia. simpl. auto.
Qed.

Lemma shape_empty_bucket : shape (empty_bucket map i).
Proof.
  pose proof (shape_clear _ Hs) as Hclear. pose proof (shape_word _ Hs i Hi) as Hw.
  destruct Hs. split; simpl; try done.
  - unfold clear_bit. by rewrite length_insert.
  - by rewrite length_insert.
  - apply Forall_insert; [done|]. apply land_range; [by apply bitmap_word_range|].
    apply not64_range.
  - intros j Hj. rewrite bit_set_clear_bit by (lia || done).
    by rewrite Hclear, andb_false_r.
Qed.

Lemma slot_set_bucket e j :
  slot map i <> None -> 0 <= j < msize map ->
  slot (set_bucket map i e) j = if i =? j then Some e else slot map j.
Proof.
  intros Hocc Hj. unfold slot in *. simpl.
  rewrite bucket_insert by (lia || by apply shape_bucket).
  destruct (Z.eqb_spec i j) as [<-|]; [|done]. by destruct (bit_set _ i).
Qed.

Lemma slot_fill_bucket e j :
  0 <= j < msize map ->
  slot (fill_bucket map i e) j = if i =? j then Some e else slot map j.
Proof.
  intros Hj. unfold slot. simpl.
  rewrite bucket_insert, bit_set_set_bit by (lia || by first [apply shape_bucket|apply shape_word]).
  by destruct (Z.eqb_spec i j).
Qed.

Lemma slot_empty_bucket j :
  0 <= j < msize map ->
  slot (empty_bucket map i) j = if i =? j then None else slot map j.
Proof.
  intros Hj. unfold slot. simpl.
  rewrite bucket_insert, bit_set_clear_bit by (lia || by first [apply shape_bucket|apply shape_word]).
  by destruct (Z.eqb_spec i j).
Qed.

(** The items of two maps of the same size that differ in bucket [i]. *)
Lemma items_update map' :
  msize map' = msize map ->
  (forall j, 0 <= j < msize map -> j <> i -> slot map' j = slot map j) ->
  exists rest, items map ≡ₚ option_list (slot map i) ++ rest /\
               items map' ≡ₚ option_list (slot map' i) ++ rest.
Proof.
  intros Hsize Heq. unfold items, items_between. rewrite Hsize, Z.sub_0_r.
  apply omap_update; [apply NoDup_seqZ|apply elem_of_seqZ; lia|].
  intros j Hj. apply elem_of_seqZ in Hj. intros. symmetry. apply Heq; [lia|done].
Qed.
End updates.

Lemma elem_of_items map e : e ∈ items map <-> exists i, 0 <= i < msize map /\ slot map i = Some e.
Proof.
  unfold items, items_between. rewrite list_elem_of_omap. split; intros (i & Hi & He); exists i.
  - rewrite elem_of_seqZ in Hi. split; [lia|done].
  - split; [apply elem_of_seqZ; lia|done].
Qed.

(** ** Probe lengths *)

Definition pl (n : Z) (e : hashmap_entry_t) (i : Z) : Z := (i - hash e) mod n.

(** The Robin Hood order: an item away from its natural bucket has a neighbour
    before it that is at most one step nearer to its own. *)
Definition robin (n : Z) (sl : Z -> option hashmap_entry_t) : Prop :=
  forall i e, 0 <= i < n -> sl i = Some e -> 0 < pl n e i ->
  exists e', sl ((i - 1) mod n) = Some e' /\ pl n e i - 1 <= pl n e' ((i - 1) mod n).

Section probes.
Context (n : Z) (Hn : 2 <= n).

Lemma pl_range e i : 0 <= pl n e i < n.
Proof. apply Z.mod_pos_bound. lia. Qed.

Lemma pl_home e q : 0 <= q < n -> pl n e ((hash e + q) mod n) = q.
Proof.
  intros Hq. unfold pl. rewrite Zminus_mod_idemp_l.
  replace (hash e + q - hash e) with q by lia. by apply Z.mod_small.
Qed.

Lemma home_pl e i : 0 <= i < n -> (hash e + pl n e i) mod n = i.
Proof.
  intros Hi. unfold pl. rewrite Zplus_mod_idemp_r.
  replace (hash e + (i - hash e)) with i by lia. by apply Z.mod_small.
Qed.

Lemma pl_prev e i : 0 < pl n e i -> pl n e ((i - 1) mod n) = pl n e i - 1.
Proof.
  intros H. pose proof (pl_range e i). unfold pl in *. rewrite Zminus_mod_idemp_l.
  replace (i - 1 - hash e) with (i - hash e - 1) by lia. rewrite Zminus_mod.
  rewrite (Z.mod_small 1) by lia. apply Z.mod_small. lia.
Qed.

Lemma prev_ne i : 0 <= i < n -> (i - 1) mod n <> i.
Proof.
  intros Hi E. destruct (decide (i = 0)) as [->|].
  - rewrite <- (Z_mod_plus_full _ 1), Z.mod_small in E; lia.
  - rewrite Z.mod_small in E; lia.
Qed.

Lemma next_prev i : 0 <= i < n -> (((i - 1) mod n) + 1) mod n = i.
Proof.
  intros Hi. rewrite Zplus_mod_idemp_l. replace (i - 1 + 1) with i by lia. by apply Z.mod_small.
Qed.

Section order.
Context (sl : Z -> option hashmap_entry_t) (HR : robin n sl).

(** Every bucket between the natural bucket of an item and the item is occupied, by
    items at least as far from home. *)
Lemma robin_chain h d e t :
  sl ((h + d) mod n) = Some e -> d <= pl n e ((h + d) mod n) -> 0 <= t <= d ->
  exists e', sl ((h + t) mod n) = Some e' /\ t <= pl n e' ((h + t) mod n).
Proof.
  intros He Hd Ht. remember (Z.to_nat (d - t)) as k eqn:Hk.
  revert t Ht Hk. induction k as [|k IH]; intros t Ht Hk.
  - assert (t = d) as -> by lia. eauto.
  - destruct (IH (t + 1)) as (e' & He' & Hle); [lia..|].
    destruct (HR _ e' (Z.mod_pos_bound (h + (t + 1)) n ltac:(lia)) He') as (e'' & He'' & Hle'');
      [lia|].
    rewrite Zminus_mod_idemp_l in He'', Hle''.
    replace (h + (t + 1) - 1) with (h + t) in He'', Hle'' by lia. exists e''. split; [done|lia].
Qed.

(** With an empty bucket in the table no item is more than [n - 2] steps from home. *)
Lemma robin_far i e z :
  0 <= i < n -> sl i = Some e -> 0 <= z < n -> sl z = None -> pl n e i <= n - 2.
Proof.
  intros Hi He Hz Hnone. destruct (decide (pl n e i = n - 1)) as [E|]; [|pose proof (pl_range e i); lia].
  destruct (robin_chain (hash e) (pl n e i) e ((z - hash e) mod n)) as (e' & He' & _).
  - by rewrite home_pl.
  - by rewrite home_pl.
  - pose proof (Z.mod_pos_bound (z - hash e) n). lia.
  - rewrite Zplus_mod_idemp_r in He'. replace (hash e + (z - hash e)) with z in He' by lia.
    rewrite Z.mod_small in He' by done. congruence.
Qed.

(** An entry may take a bucket that is empty or holds an item nearer to home. *)
Lemma robin_place sl' p c :
  0 <= p < n -> sl' p = Some c -> (forall j, 0 <= j < n -> j <> p -> sl' j = sl j) ->
  (forall e, sl p = Some e -> pl n e p <= pl n c p) ->
  (0 < pl n c p -> exists e, sl ((p - 1) mod n) = Some e /\ pl n c p - 1 <= pl n e ((p - 1) mod n)) ->
  robin n sl'.
Proof.
  intros Hp Hc Heq Hle Hprev i e Hi He Hpos.
  pose proof (Z.mod_pos_bound (i - 1) n ltac:(lia)) as Hb.
  destruct (decide (i = p)) as [->|Hip].
  - rewrite Hc in He. injection He as <-. rewrite Heq by (done || by apply prev_ne). auto.
  - rewrite Heq in He by done. destruct (HR i e Hi He Hpos) as (e' & He' & Hle').
    destruct (decide ((i - 1) mod n = p)) as [E|]; [|by rewrite Heq by done; eauto].
    rewrite E in *. exists c. split; [done|]. specialize (Hle _ He'). lia.
Qed.

(** A bucket may be emptied when the next one is empty or holds an item at home. *)
Lemma robin_empty sl' p :
  0 <= p < n -> sl' p = None -> (forall j, 0 <= j < n -> j <> p -> sl' j = sl j) ->
  (forall e, sl ((p + 1) mod n) = Some e -> pl n e ((p + 1) mod n) = 0) ->
  robin n sl'.
Proof.
  intros Hp Hnone Heq Hnext i e Hi He Hpos.
  pose proof (Z.mod_pos_bound (i - 1) n ltac:(lia)) as Hb.
  destruct (decide (i = p)) as [->|Hip]; [congruence|]. rewrite Heq in He by done.
  destruct (decide ((i - 1) mod n = p)) as [E|].
  - rewrite <- E, next_prev in Hnext by done. specialize (Hnext _ He). lia.
  - rewrite Heq by done. by apply HR.
Qed.

(** An item away from home may be copied one bucket back. *)
Lemma robin_shift sl' p c :
  0 <= p < n -> sl ((p + 1) mod n) = Some c -> 0 < pl n c ((p + 1) mod n) ->
  sl' p = Some c -> (forall j, 0 <= j < n -> j <> p -> sl' j = sl j) -> robin n sl'.
Proof.
  intros Hp Hc Hpos Hc' Heq.
  assert (0 <= (p + 1) mod n < n) as Hnx by (apply Z.mod_pos_bound; lia).
  assert (((p + 1) mod n - 1) mod n = p) as Hback.
  { rewrite Zminus_mod_idemp_l. replace (p + 1 - 1) with p by lia. by apply Z.mod_small. }
  pose proof (pl_prev c _ Hpos) as Hpl. rewrite Hback in Hpl.
  intros i e Hi He Hposi. pose proof (Z.mod_pos_bound (i - 1) n ltac:(lia)) as Hb.
  destruct (decide (i = p)) as [->|Hip].
  - rewrite Hc' in He. injection He as <-.
    destruct (HR _ c Hnx Hc Hpos) as (e0 & He0 & Hle0). rewrite Hback in He0, Hle0.
    destruct (HR p e0 Hp He0) as (e' & He' & Hle'); [lia|].
    exists e'. rewrite Heq by (done || by apply prev_ne). split; [done|lia].
  - rewrite Heq in He by done. destruct (decide ((i - 1) mod n = p)) as [E|].
    + exists c. rewrite E. split; [done|]. assert (i = (p + 1) mod n) as -> by (rewrite <- E; by rewrite next_prev).
      assert (c = e) as -> by congruence. lia.
    + rewrite Heq by done. by apply HR.
Qed.
End order.
End probes.

(** ** The search *)

Lemma omap_all_some {A B} (f : A -> option B) (l : list A) :
  (forall x, x ∈ l -> f x <> None) -> length (omap f l) = length l.
Proof.
  induction l as [|x l IH]; intros H; [done|]. cbn [omap list_omap].
  destruct (f x) eqn:E; simpl; [|by destruct (H x (list_elem_of_here _ _))].
  f_equal. apply IH. intros y Hy. apply H. by right.
Qed.

Lemma empty_slot map :
  shape map -> Z.of_nat (length (items map)) < msize map ->
  exists z, 0 <= z < msize map /\ slot map z = None.
Proof.
  intros Hs Hlt. pose proof (shape_bounds _ Hs).
  destruct (decide (Exists (fun z => slot map z = None) (seqZ 0 (msize map)))) as [HE|HE].
  - apply Exists_exists in HE as (z & Hz & Hnone). apply elem_of_seqZ in Hz.
    exists z. split; [lia|done].
  - unfold items, items_between in Hlt. rewrite omap_all_some, length_seqZ in Hlt; [lia|].
    intros z Hz Hnone. apply HE, Exists_exists. rewrite Z.sub_0_r in Hz. eauto.
Qed.

Section search_spec.
Context (cmp : Z -> Z -> bool) (map : hashmap_t) (Hs : shape map) (key h : Z).
Local Abbreviation sz := (msize map).

Definition passed (t : Z) : Prop :=
  exists e, slot map ((h + t) mod sz) = Some e /\ t <= pl sz e ((h + t) mod sz) /\
            (h =? hash e) && cmp key (ptr e) = false.

(** Why the search stops at probe length [q], with [oi] in its out parameter. *)
Inductive stops (q oi : Z) : search_result -> Prop :=
| stops_empty :
    slot map ((h + q) mod sz) = None -> stops q oi (mk_search NULL ((h + q) mod sz) q oi)
| stops_nearer e :
    slot map ((h + q) mod sz) = Some e -> pl sz e ((h + q) mod sz) < q ->
    stops q oi (mk_search NULL ((h + q) mod sz) q (pl sz e ((h + q) mod sz)))
| stops_found e :
    slot map ((h + q) mod sz) = Some e -> q <= pl sz e ((h + q) mod sz) ->
    hash e = h -> cmp key (ptr e) = true ->
    stops q oi (mk_search (ptr e) ((h + q) mod sz) q oi).

Lemma search_loop_spec m p oi :
  0 <= p -> p + Z.of_nat m <= 2 ^ 62 ->
  let r := search_loop cmp m map key h (sz ⊟ 1) ((h + p) mod sz) p oi in
  (exists q, p <= q < p + Z.of_nat m /\ (forall t, p <= t < q -> passed t) /\ stops q oi r) \/
  (forall t, p <= t < p + Z.of_nat m -> passed t).
Proof.
  revert p. induction m as [|m IH]; intros p Hp Hm; cbn [search_loop].
  { right. lia. }
  rewrite probe_length_mod by done.
  assert (forall e, (((h + p) mod sz - hash e) mod sz) = pl sz e ((h + p) mod sz)) as Hpl by done.
  destruct (bit_set (item_bitmap map) ((h + p) mod sz)) eqn:Hb; simpl negb; cbv iota.
  - assert (slot map ((h + p) mod sz) = Some (bucket (buckets map) ((h + p) mod sz))) as Hslot
      by (unfold slot; by rewrite Hb).
    revert Hslot. generalize (bucket (buckets map) ((h + p) mod sz)). intros e Hslot.
    rewrite Hpl. destruct (Z.ltb_spec (pl sz e ((h + p) mod sz)) p) as [Hlt|Hge].
    { left. exists p. split; [lia|]. split; [lia|]. by apply stops_nearer. }
    destruct ((h =? hash e) && cmp key (ptr e)) eqn:Hfound.
    { left. exists p. apply andb_true_iff in Hfound as [Heq Hcmp]. apply Z.eqb_eq in Heq.
      split; [lia|]. split; [lia|]. by eapply stops_found. }
    assert (passed p) as Hpass by (exists e; auto).
    assert (p ⊞ 1 = p + 1) as -> by (unfold add64; apply u64_id; unfold is_u64; lia).
    assert (Z.land ((h + p) mod sz ⊞ 1) (sz ⊟ 1) = (h + (p + 1)) mod sz) as ->.
    { rewrite mask_mod by done. unfold add64. rewrite u64_mod by done.
      rewrite Zplus_mod_idemp_l. f_equal. lia. }
    destruct (IH (p + 1) ltac:(lia) ltac:(lia)) as [(q & Hq & Hall & Hstop)|Hall].
    + left. exists q. split; [lia|]. split; [|done]. intros t Ht.
      destruct (decide (t = p)) as [->|]; [done|]. apply Hall. lia.
    + right. intros t Ht. destruct (decide (t = p)) as [->|]; [done|]. apply Hall. lia.
  - left. exists p. split; [lia|]. split; [lia|]. apply stops_empty. unfold slot. by rewrite Hb.
Qed.

(** With an empty bucket [z] in the table, the search stops before it. *)
Lemma search_spec p oi z :
  robin sz (slot map) -> 0 <= p < sz -> 0 <= z < sz -> slot map z = None ->
  exists q, p <= q < sz /\ q - p <= (z - (h + p)) mod sz /\
    (forall t, p <= t < q -> passed t) /\ stops q oi (search cmp map key h p oi).
Proof.
  intros HR Hp Hz Hnone. pose proof (shape_bounds _ Hs) as Hb. unfold search.
  rewrite (mask_mod _ Hs h), mask_mod by done. unfold add64. rewrite u64_mod by done.
  rewrite Zplus_mod_idemp_l.
  set (d := (z - (h + p)) mod sz). pose proof (Z.mod_pos_bound (z - (h + p)) sz ltac:(lia)) as Hd.
  assert (Hnot : ~ passed (p + d)).
  { intros (e & He & _). replace (h + (p + d)) with (h + p + d) in He by lia.
    unfold d in He. rewrite Zplus_mod_idemp_r in He.
    replace (h + p + (z - (h + p))) with z in He by lia.
    rewrite Z.mod_small in He by done. congruence. }
  destruct (search_loop_spec (Z.to_nat sz) p oi ltac:(lia) ltac:(lia)) as [(q & Hq & Hall & Hstop)|Hall].
  - assert (q - p <= d) as Hqd.
    { destruct (decide (q - p <= d)); [done|]. destruct Hnot. apply Hall. lia. }
    exists q. split; [|done]. split; [lia|]. destruct (decide (q = p)); [lia|].
    destruct (Hall (q - 1)) as (e & He & Hle & _); [lia|].
    apply (robin_far sz ltac:(lia) _ HR _ _ z) in He; [lia|by apply Z.mod_pos_bound; lia|done..].
  - destruct Hnot. apply Hall. lia.
Qed.

(** An unsuccessful search from the natural bucket: the key is nowhere in the table. *)
Lemma search_absent q i e :
  robin sz (slot map) -> 0 <= q < sz -> (forall t, 0 <= t < q -> passed t) ->
  (slot map ((h + q) mod sz) = None \/
   exists e', slot map ((h + q) mod sz) = Some e' /\ pl sz e' ((h + q) mod sz) < q) ->
  0 <= i < sz -> slot map i = Some e -> hash e = h -> cmp key (ptr e) = false.
Proof.
  intros HR Hq Hall Hstop Hi He Hh. pose proof (shape_bounds _ Hs) as Hb.
  assert (2 <= sz) as Hn by lia. pose proof (pl_range sz Hn e i).
  pose proof (home_pl sz e i Hi) as Hhome. rewrite Hh in Hhome.
  destruct (decide (pl sz e i < q)) as [Hlt|Hge].
  - destruct (Hall (pl sz e i)) as (e' & He' & _ & Hne); [lia|].
    rewrite Hhome, He in He'. injection He' as <-. by rewrite Hh, Z.eqb_refl in Hne.
  - destruct (robin_chain sz Hn _ HR h (pl sz e i) e q) as (e' & He' & Hle');
      [by rewrite Hhome|by rewrite Hhome|lia|].
    destruct Hstop as [|(e'' & He'' & Hlt)]; [congruence|].
    rewrite He' in He''. injection He'' as <-. lia.
Qed.
End search_spec.

(** ** Iteration *)

Section next.
Context (map : hashmap_t) (Hs : shape map).

(** The result of the search for the first occupied bucket from [lo] on. *)
Inductive first_from (lo : Z) : outcome (Z * Z) -> Prop :=
| first_some j e :
    lo <= j < msize map -> slot map j = Some e -> (forall t, lo <= t < j -> slot map t = None) ->
    first_from lo (if ptr e =? NULL then Abort else Ret (j, ptr e))
| first_none :
    (forall t, lo <= t < msize map -> slot map t = None) ->
    first_from lo (Ret (msize map, NULL)).

Lemma word_bit i k :
  0 <= i -> 0 <= k -> i mod 64 + k < 64 ->
  Z.testbit (bitmap_word (item_bitmap map) (i / 64) >>! (i mod 64)) k =
  bit_set (item_bitmap map) (i + k).
Proof.
  intros Hi Hk Hlt. rewrite bit_set_testbit, shr64_testbit by done.
  pose proof (Z.mod_pos_bound i 64 ltac:(lia)). pose proof (Z.div_mod i 64 ltac:(lia)).
  rewrite <- (Z.div_unique_pos (i + k) 64 (i / 64) (i mod 64 + k)) by lia.
  rewrite <- (Z.mod_unique_pos (i + k) 64 (i / 64) (i mod 64 + k)) by lia. f_equal. lia.
Qed.

Lemma next_loop_spec fuel i :
  0 <= i <= msize map -> msize map - i <= Z.of_nat fuel ->
  first_from i (next_loop fuel (item_bitmap map) (msize map) (buckets map) i (i / 64) (i mod 64)
                  (bitmap_word (item_bitmap map) (i / 64) >>! (i mod 64))) .
Proof.
  pose proof (shape_bounds _ Hs) as Hb.
  revert i. induction fuel as [|fuel IH]; intros i Hi Hf; cbn [next_loop].
  { destruct (Z.ltb_spec i (msize map)); [lia|]. apply first_none. lia. }
  destruct (Z.ltb_spec i (msize map)) as [Hlt|Hge]; [|apply first_none; lia].
  pose proof (Z.mod_pos_bound i 64 ltac:(lia)) as Hm. pose proof (Z.div_mod i 64 ltac:(lia)) as Hdm.
  pose proof (fun k => word_bit i k ltac:(lia)) as Hbits.
  set (ib := bitmap_word (item_bitmap map) (i / 64) >>! (i mod 64)) in *.
  assert (is_u64 ib) as Hib.
  { apply shr64_range; [lia|]. apply bitmap_word_range, Hs. }
  destruct (Z.eqb_spec (ffszu ib) 0) as [H0|H0].
  - rewrite ffszu_0 in H0 by apply Hib. rewrite H0 in Hbits.
    assert (forall t, i <= t < (i / 64 + 1) * 64 -> slot map t = None) as Hnone.
    { intros t Ht. unfold slot. specialize (Hbits (t - i)).
      rewrite Z.bits_0 in Hbits. replace (i + (t - i)) with t in Hbits by lia.
      rewrite <- Hbits by lia. done. }
    assert (i ⊞ (HASHMAP_BITMAP_TYPE_SIZE ⊟ i mod 64) = (i / 64 + 1) * 64) as ->.
    { unfold HASHMAP_BITMAP_TYPE_SIZE, sub64, add64.
      rewrite (u64_id (64 - _)), u64_id by (unfold is_u64; lia). lia. }
    assert (i / 64 ⊞ 1 = i / 64 + 1) as -> by (unfold add64; apply u64_id; unfold is_u64; lia).
    set (i' := (i / 64 + 1) * 64) in *.
    assert (i' / 64 = i / 64 + 1 /\ i' mod 64 = 0) as [Hd' Hm'].
    { unfold i'. rewrite Z.div_mul, Z.mod_mul by lia. done. }
    destruct (decide (i' <= msize map)) as [Hle|Hgt].
    + specialize (IH i' ltac:(lia) ltac:(lia)). rewrite Hd', Hm' in IH.
      unfold shr64 in IH at 1. rewrite Z.shiftr_0_r in IH.
      destruct IH as [j e Hj He Hall|Hall].
      * apply first_some; [lia|done|]. intros t Ht.
        destruct (decide (t < i')); [apply Hnone; lia|apply Hall; lia].
      * apply first_none. intros t Ht.
        destruct (decide (t < i')); [apply Hnone; lia|apply Hall; lia].
    + assert (forall f w o b, next_loop f (item_bitmap map) (msize map) (buckets map) i' w o b
                = Ret (msize map, NULL)) as ->.
      { intros [] w o b; simpl; rewrite (proj2 (Z.ltb_ge i' (msize map))) by lia; done. }
      apply first_none. intros t Ht. apply Hnone. lia.
  - destruct (ffszu_lowest ib) as (Hf1 & Hf2 & Hf3).
    { destruct (decide (ib = 0)) as [E|]; [by rewrite E in H0|]. unfold is_u64 in Hib. lia. }
    assert (i mod 64 + (ffszu ib - 1) < 64) as Hhigh.
    { destruct (decide (i mod 64 + (ffszu ib - 1) < 64)) as [|Hge]; [done|].
      unfold ib in Hf2 at 1. rewrite shr64_testbit, (testbit_high 64) in Hf2;
        [done|apply bitmap_word_range, Hs|lia|lia]. }
    assert (i ⊞ (ffszu ib ⊟ 1) = i + (ffszu ib - 1)) as ->.
    { unfold sub64, add64. rewrite (u64_id (ffszu ib - 1)), u64_id by (unfold is_u64; lia). lia. }
    set (j := i + (ffszu ib - 1)) in *.
    assert (bit_set (item_bitmap map) j = true) as Hj by (unfold j; rewrite <- Hbits by lia; done).
    assert (j < msize map) as Hjn.
    { destruct (decide (j < msize map)); [done|].
      rewrite (shape_clear _ Hs) in Hj by lia. done. }
    apply first_some; [lia|unfold slot; by rewrite Hj|].
    intros t Ht. unfold slot. specialize (Hbits (t - i) ltac:(lia) ltac:(lia)).
    replace (i + (t - i)) with t in Hbits by lia. rewrite <- Hbits, Hf3 by lia. done.
Qed.

Lemma next_spec i cnt :
  cnt <> 0 -> 0 <= i ⊞ 1 <= msize map ->
  first_from (i ⊞ 1)
    (ponyint_hashmap_next i cnt (item_bitmap map) (msize map) (buckets map)).
Proof.
  intros Hc Hi. unfold ponyint_hashmap_next. rewrite (proj2 (Z.eqb_neq cnt 0)) by done.
  rewrite shr64_6, land_63. apply next_loop_spec; [done|]. pose proof (shape_bounds _ Hs). lia.
Qed.

Lemma items_between_split lo mid hi :
  lo <= mid <= hi ->
  items_between map lo hi = items_between map lo mid ++ items_between map mid hi.
Proof.
  intros H. unfold items_between. rewrite <- omap_app. f_equal.
  replace (hi - lo) with ((mid - lo) + (hi - mid)) by lia.
  rewrite seqZ_app by lia. do 2 f_equal. lia.
Qed.

Lemma items_between_none lo hi :
  (forall t, lo <= t < hi -> slot map t = None) -> items_between map lo hi = [].
Proof.
  intros H. unfold items_between.
  destruct (omap (slot map) (seqZ lo (hi - lo))) as [|e l] eqn:E; [done|].
  assert (e ∈ omap (slot map) (seqZ lo (hi - lo))) as He by (rewrite E; left).
  apply list_elem_of_omap in He as (x & Hx & Hsl). apply elem_of_seqZ in Hx.
  rewrite H in Hsl by lia. done.
Qed.

Lemma items_between_first lo j e :
  lo <= j -> slot map j = Some e -> (forall t, lo <= t < j -> slot map t = None) ->
  items_between map lo (j + 1) = [e].
Proof.
  intros Hj He Hnone. rewrite (items_between_split lo j (j + 1)) by lia.
  rewrite items_between_none by done. unfold items_between.
  replace (j + 1 - j) with 1 by lia.
  rewrite seqZ_cons, seqZ_nil by lia. cbn [omap list_omap]. by rewrite He.
Qed.
End next.
