(* ===== verification/HashOps.v ===== *)
(** * The hash map: its operations

    What [ponyint_hashmap_get], [put], [putindex], [remove], [removeindex], [resize],
    [next] and [destroy] do, against the contents of the map: its items up to
    permutation, no two with the same key. *)
From S2P Require Import Prelude Fun Hash HashInv.
Local Open Scope Z_scope.
Local Open Scope c_scope.

(** ** Interface to the users of a map

    What [DECLARE_HASHMAP] asks of the comparison and hash functions of a map: the
    comparison is equality of the keys of the two items, and the hash of an item is a
    function of its key. *)
Class HashKeys (cmp : Z -> Z -> bool) := {
  key : Type;
  key_eq_dec :: EqDecision key;
  key_of : Z -> key;
  hash_of : key -> Z;
  cmp_key x y : cmp x y = bool_decide (key_of x = key_of y)
}.

(** Maps keyed by the pointer itself. *)
#[export, program] Instance ptr_keys : HashKeys Z.eqb :=
  {| key := Z; key_of := fun p => p; hash_of := ponyint_hash_ptr |}.
Next Obligation. intros x y. by destruct (Z.eqb_spec x y), (bool_decide_reflect (x = y)). Qed.

Section spec.
Context {cmp : Z -> Z -> bool} {HK : HashKeys cmp}.

Definition ekey (e : hashmap_entry_t) : key := key_of (ptr e).

Definition entry_ok (e : hashmap_entry_t) : Prop := ptr e <> NULL /\ hash e = hash_of (ekey e).

(** The invariant of an allocated table, its load factor apart. *)
Record table_ok (map : hashmap_t) : Prop := {
  table_shape : shape map;
  table_robin : robin (msize map) (slot map);
  table_entries : Forall entry_ok (items map);
  table_keys : NoDup (ekey <$> items map);
  table_count : count map = Z.of_nat (length (items map))
}.

(** A map: unallocated, or a table that is at most half full. *)
Definition hashmap_ok (map : hashmap_t) : Prop :=
  map = mk_hashmap 0 0 [] [] \/ (table_ok map /\ 2 * count map <= msize map).

(** ** Abstract contents *)

(** [map'] is [map] with the item of the key of [e] replaced by [e], or added. *)
Definition put_result (map : hashmap_t) (e : hashmap_entry_t) (old : Z) (map' : hashmap_t) : Prop :=
  (old = NULL /\ (ekey e ∉ ekey <$> items map) /\ items map' ≡ₚ e :: items map) \/
  (exists e0 rest, old = ptr e0 /\ ekey e0 = ekey e /\
     items map ≡ₚ e0 :: rest /\ items map' ≡ₚ e :: rest).

(** [map'] is [map] without the item of key [k]. *)
Definition remove_result (map : hashmap_t) (k : key) (old : Z) (map' : hashmap_t) : Prop :=
  (old = NULL /\ (k ∉ ekey <$> items map) /\ map' = map) \/
  (exists e0, old = ptr e0 /\ ekey e0 = k /\ items map ≡ₚ e0 :: items map').

Lemma table_room map :
  table_ok map -> count map < msize map -> exists z, 0 <= z < msize map /\ slot map z = None.
Proof. intros Ht Hlt. apply empty_slot; [apply Ht|]. by rewrite <- table_count. Qed.

Lemma items_length map : shape map -> Z.of_nat (length (items map)) <= msize map.
Proof.
  intros Hs. pose proof (shape_bounds _ Hs). unfold items, items_between.
  enough (length (omap (slot map) (seqZ 0 (msize map - 0))) <= length (seqZ 0 (msize map - 0)))%nat
    by (rewrite length_seqZ in *; lia).
  generalize (seqZ 0 (msize map - 0)). intros l. induction l as [|x l IH]; [done|].
  cbn [omap list_omap]. destruct (slot map x); simpl; lia.
Qed.

(** ** Lookup *)

(** The end of a search for a key: the bucket of its item, or the bucket where it belongs. *)
Inductive search_end (map : hashmap_t) (k : key) : search_result -> Prop :=
| end_found i e q :
    0 <= i < msize map -> 0 <= q < msize map -> slot map i = Some e -> ekey e = k ->
    i = (hash_of k + q) mod msize map ->
    search_end map k (mk_search (ptr e) i q 0)
| end_absent q oi :
    0 <= q < msize map -> k ∉ ekey <$> items map ->
    let i := (hash_of k + q) mod msize map in
    (0 < q -> exists e, slot map ((i - 1) mod msize map) = Some e /\
                        q - 1 <= pl (msize map) e ((i - 1) mod msize map)) ->
    (slot map i = None /\ oi = 0 \/
     exists e, slot map i = Some e /\ pl (msize map) e i < q /\ oi = pl (msize map) e i) ->
    search_end map k (mk_search NULL i q oi).

Lemma passed_prev n i q h :
  i = (h + q) mod n -> (i - 1) mod n = (h + (q - 1)) mod n.
Proof. intros ->. rewrite Zminus_mod_idemp_l. f_equal. lia. Qed.

Lemma table_search map p :
  table_ok map -> count map < msize map ->
  search_end map (key_of p) (search cmp map p (hash_of (key_of p)) 0 0).
Proof.
  intros Ht Hroom. destruct (table_room _ Ht Hroom) as (z & Hz & Hnone).
  pose proof (table_shape _ Ht) as Hs. pose proof (shape_bounds _ Hs) as Hb.
  set (h := hash_of (key_of p)).
  destruct (search_spec cmp map Hs p h 0 0 z (table_robin _ Ht)) as (q & Hq & _ & Hall & Hstop);
    [lia|done..|].
  assert (0 <= (h + q) mod msize map < msize map) as Hi by (apply Z.mod_pos_bound; lia).
  assert (Habsent : (slot map ((h + q) mod msize map) = None \/
    exists e', slot map ((h + q) mod msize map) = Some e' /\
               pl (msize map) e' ((h + q) mod msize map) < q) ->
    key_of p ∉ ekey <$> items map).
  { intros Hend Hin. apply list_elem_of_fmap in Hin as (e & Hk & He).
    pose proof (proj1 (Forall_forall _ _) (table_entries _ Ht) e He) as [_ Hh].
    apply elem_of_items in He as (i & Hi' & He).
    pose proof (search_absent cmp map Hs p h q i e (table_robin _ Ht) Hq Hall Hend Hi' He) as Hc.
    rewrite cmp_key in Hc. rewrite Hh, <- Hk in Hc. specialize (Hc eq_refl).
    rewrite bool_decide_eq_false in Hc. done. }
  assert (Hprev : 0 < q -> exists e,
    slot map (((h + q) mod msize map - 1) mod msize map) = Some e /\
    q - 1 <= pl (msize map) e (((h + q) mod msize map - 1) mod msize map)).
  { intros Hpos. rewrite (passed_prev _ _ q h eq_refl).
    destruct (Hall (q - 1)) as (e & He & Hle & _); [lia|]. eauto. }
  destruct Hstop as [Hn|e He Hlt|e He Hle Hh Hc].
  - apply end_absent; [done|auto..].
  - apply end_absent; [done|eauto..].
  - apply end_found; [done|done|done| |done].
    rewrite cmp_key in Hc. apply bool_decide_eq_true in Hc. done.
Qed.
(** ** Insertion *)

Lemma dist_step n z x d :
  0 < n -> 0 <= d <= (z - x) mod n -> (z - (x + d)) mod n = (z - x) mod n - d.
Proof.
  intros Hn Hd. replace (z - (x + d)) with (z - x - d) by lia. rewrite <- Zminus_mod_idemp_l.
  apply Z.mod_small. pose proof (Z.mod_pos_bound (z - x) n Hn). lia.
Qed.

(** Moving the items that are nearer to home than the one to insert. *)
Lemma shift_put_loop_spec rs fuel map ci ch pos q oi z :
  let n := msize map in
  let c := mk_entry ci ch in
  shape map -> robin n (slot map) -> NoDup (ekey <$> c :: items map) ->
  Forall entry_ok (c :: items map) -> 0 <= q < n -> pos = (ch + q) mod n ->
  (0 < q -> exists e, slot map ((pos - 1) mod n) = Some e /\ q - 1 <= pl n e ((pos - 1) mod n)) ->
  (slot map pos = None \/ exists e, slot map pos = Some e /\ pl n e pos < q /\ oi = pl n e pos) ->
  0 <= z < n -> slot map z = None -> (z - pos) mod n < Z.of_nat fuel ->
  exists map', shape map' /\ robin n (slot map') /\ items map' ≡ₚ c :: items map /\
    count map' = count map ⊞ 1 /\ msize map' = n /\
    shift_put_loop cmp rs fuel map ci ch pos q oi NULL =
      (if n <? (count map' <<! 1) then rs map' else Ret map').
Proof.
  cbv zeta. revert map ci ch pos q oi.
  induction fuel as [|fuel IH]; intros map ci ch pos q oi Hs HR Hnd Hok Hq Hpos Hprev Hslot Hz Hnone Hf.
  { pose proof (Z.mod_pos_bound (z - pos) (msize map) ltac:(lia)). lia. }
  pose proof (shape_bounds _ Hs) as Hb. assert (2 <= msize map) as Hn by lia.
  assert (0 <= pos < msize map) as Hp by (subst pos; apply Z.mod_pos_bound; lia).
  set (c := mk_entry ci ch) in *.
  assert (pl (msize map) c pos = q) as Hplc by (subst pos; by apply (pl_home _ c)).
  cbn [shift_put_loop]. rewrite (proj2 (Z.ltb_lt pos (msize map))) by lia. cbn [negb].
  rewrite Z.eqb_refl. cbn [andb]. fold c.
  destruct Hslot as [Hslot|(e & Hslot & Hlt & ->)].
  - (* an empty bucket *)
    assert (bit_set (item_bitmap map) pos = false) as ->.
    { unfold slot in Hslot. by destruct (bit_set (item_bitmap map) pos). }
    assert (forall j, 0 <= j < msize map ->
      slot (fill_bucket map pos c) j = if pos =? j then Some c else slot map j) as Hupd
      by (intros; by apply slot_fill_bucket).
    exists (fill_bucket map pos c). split; [by apply shape_fill_bucket|]. split.
    { eapply (robin_place _ Hn (slot map) HR _ pos c); [done|by rewrite Hupd, Z.eqb_refl| | |].
      - intros j Hj Hne. rewrite Hupd, (proj2 (Z.eqb_neq pos j)) by done. done.
      - congruence.
      - rewrite Hplc. apply Hprev. }
    split; [|done].
    destruct (items_update map pos Hp (fill_bucket map pos c) eq_refl) as (rest & H1 & H2).
    { intros j Hj Hne. rewrite Hupd, (proj2 (Z.eqb_neq pos j)) by done. done. }
    rewrite Hupd, Z.eqb_refl in H2 by done. rewrite Hslot in H1. rewrite H2, H1. done.
  - (* an item nearer to home *)
    assert (bit_set (item_bitmap map) pos = true /\ bucket (buckets map) pos = e) as [-> ->].
    { unfold slot in Hslot. destruct (bit_set (item_bitmap map) pos); [|done]. by injection Hslot. }
    set (map1 := set_bucket map pos c).
    assert (forall j, 0 <= j < msize map ->
      slot map1 j = if pos =? j then Some c else slot map j) as Hupd
      by (intros; apply slot_set_bucket; congruence).
    assert (forall j, 0 <= j < msize map -> j <> pos -> slot map1 j = slot map j) as Hoff.
    { intros j Hj Hne. rewrite Hupd, (proj2 (Z.eqb_neq pos j)) by done. done. }
    assert (slot map1 pos = Some c) as Hpos1 by by rewrite Hupd, Z.eqb_refl.
    assert (robin (msize map) (slot map1)) as HR1.
    { eapply (robin_place _ Hn (slot map) HR _ pos c); [done|done|done| |by rewrite Hplc].
      intros e' He'. rewrite Hslot in He'. injection He' as <-. lia. }
    destruct (items_update map pos Hp map1 eq_refl Hoff) as (rest & H1 & H2).
    rewrite Hpos1 in H2. rewrite Hslot in H1. cbn [option_list app] in H1, H2.
    assert (e :: items map1 ≡ₚ c :: items map) as Hperm by (rewrite H1, H2; constructor).
    rewrite <- Hperm in Hnd, Hok. setoid_rewrite <- Hperm.
    assert (slot map1 z = None) as Hz1 by (rewrite Hoff by congruence; done).
    destruct (search_spec cmp map1 (shape_set_bucket _ Hs pos c) (ptr e) (hash e)
      (pl (msize map) e pos) (pl (msize map) e pos) z HR1 (pl_range _ Hn e pos) Hz Hz1)
      as (q' & Hq' & Hdist & Hall & Hstop).
    change (msize map1) with (msize map) in *.
    set (pos' := (hash e + q') mod msize map) in *.
    assert (Hnext : forall oi', pl (msize map) e pos < q' ->
      (slot map1 pos' = None \/ exists e', slot map1 pos' = Some e' /\
         pl (msize map) e' pos' < q' /\ oi' = pl (msize map) e' pos') ->
      exists map', shape map' /\ robin (msize map) (slot map') /\ items map' ≡ₚ e :: items map1 /\
        count map' = count map1 ⊞ 1 /\ msize map' = msize map /\
        shift_put_loop cmp rs fuel map1 (ptr e) (hash e) pos' q' oi' NULL =
          (if msize map <? (count map' <<! 1) then rs map' else Ret map')).
    { intros oi' Hgt Hend. replace e with (mk_entry (ptr e) (hash e)) in Hnd, Hok |- * by by destruct e.
      apply (IH map1 (ptr e) (hash e) pos' q' oi');
        [by apply shape_set_bucket|done|done|done|pose proof (pl_range _ Hn e pos); change (msize map1) with (msize map); lia|done| |done|done|done| ].
      - intros _. change (msize map1) with (msize map). unfold pos'. rewrite (passed_prev _ _ q' (hash e) eq_refl).
        destruct (Hall (q' - 1)) as (e' & He' & Hle & _); [lia|]. eauto.
      - change (msize map1) with (msize map).
        assert ((z - (hash e + pl (msize map) e pos)) mod msize map = (z - pos) mod msize map) as E.
        { rewrite <- Zminus_mod_idemp_r, home_pl by done. done. }
        unfold pos'. rewrite Zminus_mod_idemp_r.
        replace (hash e + q') with (hash e + pl (msize map) e pos + (q' - pl (msize map) e pos)) by lia.
        rewrite dist_step by lia. lia. }
    destruct Hstop as [Hn1|e1 He1 Hlt1|e1 He1 Hle1 Hh1 Hc1]; cbn [s_pos s_probe_length s_oi_probe_length s_elem].
    + apply Hnext; [|by left]. destruct (decide (q' = pl (msize map) e pos)) as [E|]; [|lia].
      unfold pos' in Hn1. rewrite E, home_pl in Hn1 by done. congruence.
    + apply Hnext; [|by eauto]. destruct (decide (q' = pl (msize map) e pos)) as [E|]; [|lia].
      unfold pos' in He1, Hlt1. rewrite E, home_pl in He1, Hlt1 by done.
      rewrite Hpos1 in He1. injection He1 as He1. rewrite <- He1 in Hlt1.
      change (msize map1) with (msize map) in Hlt1. lia.
    + exfalso. rewrite cmp_key in Hc1. apply bool_decide_eq_true in Hc1.
      cbn in Hnd. apply NoDup_cons in Hnd as [Hnd _]. apply Hnd, list_elem_of_fmap.
      exists e1. split; [done|]. apply elem_of_items. exists pos'.
      change (msize map1) with (msize map). split; [by apply Z.mod_pos_bound; lia|done].
Qed.
Lemma table_ok_perm map l :
  shape map -> robin (msize map) (slot map) -> items map ≡ₚ l -> Forall entry_ok l ->
  NoDup (ekey <$> l) -> count map = Z.of_nat (length l) -> table_ok map.
Proof. intros Hs HR Hp Hok Hnd Hc. split; [done|done|by rewrite Hp..]. Qed.

(** [shift_put] at the end of a search for the key of the new item. *)
Lemma shift_put_spec rs map entry r :
  let h := hash_of (key_of entry) in
  table_ok map -> count map < msize map -> entry <> NULL -> search_end map (key_of entry) r ->
  exists map1, table_ok map1 /\ msize map1 = msize map /\
    count map1 = count map + (if s_elem r =? NULL then 1 else 0) /\
    put_result map (mk_entry entry h) (s_elem r) map1 /\
    shift_put cmp rs map entry h (s_pos r) (s_probe_length r) (s_oi_probe_length r) (s_elem r) =
      (if (s_elem r =? NULL) && (msize map <? (count map1 <<! 1)) then rs map1 else Ret map1).
Proof.
  cbv zeta. intros Ht Hroom Hnull Hend. set (h := hash_of (key_of entry)).
  pose proof (table_shape _ Ht) as Hs. pose proof (shape_bounds _ Hs) as Hb.
  pose proof (table_count _ Ht) as Hcount.
  assert (Hc : entry_ok (mk_entry entry h)) by done.
  destruct Hend as [i e q Hi Hq He Hk ->|q oi Hq Hin i Hprev Hslot]; cbn [s_elem s_pos s_probe_length s_oi_probe_length].
  - (* the key is in the map: its item is replaced *)
    set (i := (hash_of (key_of entry) + q) mod msize map) in *.
    assert (e ∈ items map) as Hin by (apply elem_of_items; eauto).
    pose proof (proj1 (Forall_forall _ _) (table_entries _ Ht) e Hin) as [Hne Hh].
    rewrite Hk in Hh. rewrite (proj2 (Z.eqb_neq (ptr e) NULL)) by done. cbn [andb].
    set (map1 := set_bucket map i (mk_entry entry h)).
    assert (forall j, 0 <= j < msize map ->
      slot map1 j = if i =? j then Some (mk_entry entry h) else slot map j) as Hupd
      by (intros; apply slot_set_bucket; congruence).
    assert (forall j, 0 <= j < msize map -> j <> i -> slot map1 j = slot map j) as Hoff.
    { intros j Hj Hne'. rewrite Hupd, (proj2 (Z.eqb_neq i j)) by done. done. }
    assert (slot map1 i = Some (mk_entry entry h)) as Hpos1 by by rewrite Hupd, Z.eqb_refl.
    destruct (items_update map i Hi map1 eq_refl Hoff) as (rest & H1 & H2).
    rewrite He in H1. rewrite Hpos1 in H2. cbn [option_list app] in H1, H2.
    pose proof (table_entries _ Ht) as Hok. pose proof (table_keys _ Ht) as Hnd.
    rewrite H1 in Hok, Hnd, Hcount.
    exists map1. split; [|split; [done|split; [cbn; lia|split]]].
    + apply (table_ok_perm _ (mk_entry entry h :: rest)); [by apply shape_set_bucket| |done| | |done].
      * eapply (robin_place (msize map) ltac:(lia) _ (table_robin _ Ht) _ i); [done..| |].
        -- intros e' He'. rewrite He in He'. injection He' as <-. unfold pl. cbn. by rewrite Hh.
        -- intros Hpos. unfold pl in *. cbn in Hpos |- *.
           destruct (table_robin _ Ht i e Hi He) as (e' & He' & Hle); [unfold pl; by rewrite Hh|].
           exists e'. split; [done|]. unfold pl in Hle. by rewrite Hh in Hle.
      * apply Forall_cons in Hok as [_ Hok]. by constructor.
      * cbn in Hnd |- *. unfold ekey at 1. cbn. by rewrite <- Hk.
    + right. exists e, rest. done.
    + unfold shift_put, shift_put_loop.
      assert (((0 <? q) || (q =? 0) && (q =? 0)) = true) as -> by
        (destruct (Z.ltb_spec 0 q), (Z.eqb_spec q 0); simpl; (done || lia)).
      rewrite (proj2 (Z.ltb_lt i (msize map))) by lia.
      rewrite (proj2 (Z.eqb_neq (ptr e) NULL)) by done. done.
  - (* a new key *)
    rewrite Z.eqb_refl. cbn [andb].
    assert (0 <= i < msize map) as Hi by (apply Z.mod_pos_bound; lia).
    destruct (table_room _ Ht Hroom) as (z & Hz & Hnone).
    assert ((oi <? q) = true \/ q = 0 /\ oi = 0) as Hguard.
    { destruct Hslot as [[_ ->]|(e & _ & Hlt & ->)]; [destruct (Z.ltb_spec 0 q); lia|].
      left. by apply Z.ltb_lt. }
    destruct (shift_put_loop_spec rs (S (Z.to_nat (msize map))) map entry h i q oi z) as
      (map1 & Hs1 & HR1 & Hp1 & Hc1 & Hsz1 & Hrun).
    + done.
    + apply (table_robin _ Ht).
    + cbn. constructor; [done|apply (table_keys _ Ht)].
    + constructor; [done|apply (table_entries _ Ht)].
    + done.
    + done.
    + done.
    + destruct Hslot as [[? _]|(e & He & Hlt & ->)]; eauto.
    + done.
    + done.
    + pose proof (Z.mod_pos_bound (z - i) (msize map) ltac:(lia)). lia.
    + assert (count map1 = count map + 1) as Hc1'.
      { rewrite Hc1. unfold add64. apply u64_id. unfold is_u64. lia. }
      exists map1. split; [|split; [done|split; [lia|split]]].
      * apply (table_ok_perm _ (mk_entry entry h :: items map)); [done|by rewrite Hsz1|done| | |].
        -- constructor; [done|apply (table_entries _ Ht)].
        -- cbn. constructor; [done|apply (table_keys _ Ht)].
        -- cbn. lia.
      * left. done.
      * unfold shift_put. rewrite Hrun.
        assert (((oi <? q) || (q =? oi) && (q =? 0)) = true) as -> by
          (destruct Hguard as [-> | [-> ->]]; done).
        done.
Qed.
(** ** Growth *)

Context (fresh_buckets : Z -> list hashmap_entry_t).
Context (fresh_length : forall n, length (fresh_buckets n) = Z.to_nat n).

Lemma fresh_slot size i : slot (fresh_map fresh_buckets size) i = None.
Proof. unfold slot. cbn. by rewrite bit_set_testbit, bitmap_word_replicate, Z.bits_0. Qed.

Lemma fresh_items size : items (fresh_map fresh_buckets size) = [].
Proof. apply items_between_none. intros. apply fresh_slot. Qed.

Lemma bitmap_size_enough size : 0 <= size <= 2 ^ 60 -> size <= 64 * bitmap_size size < 2 ^ 63.
Proof.
  intros Hs. unfold bitmap_size. rewrite shr64_6, land_63.
  pose proof (Z.div_mod size 64 ltac:(lia)). pose proof (Z.mod_pos_bound size 64 ltac:(lia)).
  unfold add64. rewrite u64_id; destruct (Z.eqb_spec (size mod 64) 0); unfold is_u64; lia.
Qed.

Lemma fresh_table k : 3 <= k <= 60 -> table_ok (fresh_map fresh_buckets (2 ^ k)).
Proof.
  intros Hk. assert (8 <= 2 ^ k <= 2 ^ 60) as Hb.
  { change 8 with (2 ^ 3). split; apply Z.pow_le_mono_r; lia. }
  split; rewrite ?fresh_items; [|intros i e _ He; by rewrite fresh_slot in He|done|constructor|done].
  split; cbn.
  - eauto.
  - rewrite length_replicate. pose proof (bitmap_size_enough (2 ^ k)). lia.
  - rewrite fresh_length. lia.
  - apply Forall_replicate. unfold is_u64. lia.
  - intros j _. by rewrite bit_set_testbit, bitmap_word_replicate, Z.bits_0.
Qed.

Lemma count_shl c : 0 <= c <= 2 ^ 60 -> c <<! 1 = 2 * c.
Proof. intros Hc. unfold shl64. rewrite Z.shiftl_mul_pow2 by done. rewrite u64_id; unfold is_u64; lia. Qed.

(** An insertion in a table with room for the item does not resize it. *)
Lemma put_no_resize d map entry :
  table_ok map -> 2 * (count map + 1) <= msize map -> entry <> NULL ->
  exists map' old, put_depth cmp fresh_buckets (S d) map entry (hash_of (key_of entry)) = Ret (map', old) /\
    table_ok map' /\ msize map' = msize map /\ count map <= count map' <= count map + 1 /\
    put_result map (mk_entry entry (hash_of (key_of entry))) old map'.
Proof.
  intros Ht Hroom Hnull. pose proof (shape_bounds _ (table_shape _ Ht)) as Hb.
  pose proof (table_count _ Ht) as Hc.
  cbn [put_depth]. rewrite (proj2 (Z.eqb_neq (msize map) 0)) by lia.
  pose proof (table_search map entry Ht ltac:(lia)) as Hend.
  set (r := search _ _ _ _ _ _) in *.
  destruct (shift_put_spec (resize fresh_buckets (put_depth cmp fresh_buckets d)) map entry r Ht
    ltac:(lia) Hnull Hend) as (map1 & Ht1 & Hsz1 & Hc1 & Hput & Hrun).
  rewrite Hrun. exists map1, (s_elem r).
  assert (count map <= count map1 <= count map + 1) by (destruct (s_elem r =? NULL); lia).
  rewrite count_shl, (proj2 (Z.ltb_ge (msize map) _)), andb_false_r by lia. done.
Qed.

(** The items of the old table up to [i] have been moved to [map]. *)
Lemma move_loop_spec d fuel old map i :
  table_ok old -> count old <> 0 -> 0 <= i ⊞ 1 <= msize old -> 0 <= i ->
  msize old - (i ⊞ 1) < Z.of_nat fuel ->
  table_ok map -> 2 * msize old <= msize map -> items map ≡ₚ items_between old 0 (i ⊞ 1) ->
  exists map', move_loop (put_depth cmp fresh_buckets (S d)) fuel map i (count old) (item_bitmap old)
                 (msize old) (buckets old) = Ret map' /\
    table_ok map' /\ msize map' = msize map /\ items map' ≡ₚ items old.
Proof.
  intros Hold Hcnt. revert map i. pose proof (table_shape _ Hold) as Hs.
  pose proof (shape_bounds _ Hs) as Hb.
  induction fuel as [|fuel IH]; intros map i Hi Hi0 Hf Ht Hsz Hp; [lia|].
  cbn [move_loop]. pose proof (next_spec old Hs i (count old) Hcnt Hi) as Hnext.
  destruct Hnext as [j e Hj He Hnone|Hnone].
  - assert (e ∈ items old) as Hin by (apply elem_of_items; exists j; split; [lia|done]).
    pose proof (proj1 (Forall_forall _ _) (table_entries _ Hold) e Hin) as [Hne Hh].
    rewrite (proj2 (Z.eqb_neq (ptr e) NULL)) by done. cbn [mbind outcome_bind].
    rewrite (proj2 (Z.eqb_neq (ptr e) NULL)) by done.
    assert (hash (bucket (buckets old) j) = hash_of (key_of (ptr e))) as ->.
    { unfold slot in He. destruct (bit_set (item_bitmap old) j); [|done]. injection He as ->. done. }
    assert (Hjnext : j ⊞ 1 = j + 1) by (unfold add64; apply u64_id; unfold is_u64; lia).
    assert (items_between old 0 (j + 1) = items_between old 0 (i ⊞ 1) ++ [e]) as Hsplit.
    { rewrite (items_between_split old 0 (i ⊞ 1) (j + 1)) by lia. f_equal.
      apply items_between_first; [lia|done..]. }
    assert (items old = items_between old 0 (i ⊞ 1) ++ [e] ++ items_between old (j + 1) (msize old)) as Hall.
    { rewrite app_assoc, <- Hsplit. apply items_between_split. lia. }
    assert (NoDup (ekey <$> e :: items map)) as Hnd.
    { pose proof (table_keys _ Hold) as Hk. rewrite Hall, app_assoc, fmap_app in Hk.
      apply NoDup_app in Hk as [Hk _]. rewrite <- Hp, <- Permutation_cons_append in Hk. done. }
    pose proof (table_count _ Ht) as Hc.
    assert (Z.of_nat (length (items map)) + 1 <= msize old) as Hlen.
    { pose proof (items_length _ Hs) as Hl. rewrite Hall, !length_app in Hl. rewrite Hp. cbn in Hl. lia. }
    destruct (put_no_resize d map (ptr e) Ht ltac:(lia) Hne) as
      (map1 & old1 & -> & Ht1 & Hsz1 & _ & Hput). cbn [mbind outcome_bind].
    destruct (IH map1 j) as (map' & Hrun & Ht' & Hsz' & Hp').
    + lia.
    + lia.
    + lia.
    + done.
    + lia.
    + rewrite Hjnext, Hsplit. change (mk_entry (ptr e) (hash_of (key_of (ptr e))))
        with (mk_entry (ptr e) (hash_of (ekey e))) in Hput. rewrite <- Hh in Hput.
      replace (mk_entry (ptr e) (hash e)) with e in Hput by by destruct e.
      rewrite <- Hp, <- Permutation_cons_append.
      destruct Hput as [(_ & _ & ->)|(e0 & rest & _ & Hk & H1 & _)]; [done|].
      exfalso. cbn in Hnd. rewrite H1 in Hnd. cbn in Hnd. rewrite Hk in Hnd.
      apply NoDup_cons in Hnd as [Hnd _]. apply Hnd. left.
    + exists map'. rewrite Hsz' in *. done.
  - cbn. exists map. split; [done|]. split; [done|]. split; [done|]. rewrite Hp. unfold items.
    rewrite (items_between_split old 0 (i ⊞ 1) (msize old)) by lia.
    by rewrite (items_between_none old (i ⊞ 1)), app_nil_r by done.
Qed.

(** [resize] keeps the items and leaves the table at most a quarter full. *)
Lemma resize_spec d map :
  table_ok map -> count map <> 0 -> msize map <= 2 ^ 57 ->
  exists map', resize fresh_buckets (put_depth cmp fresh_buckets (S d)) map = Ret map' /\
    table_ok map' /\ msize map' = 8 * msize map /\ items map' ≡ₚ items map.
Proof.
  intros Ht Hcnt Hle. pose proof (shape_bounds _ (table_shape _ Ht)) as Hb.
  unfold resize, MIN_HASHMAP_SIZE. rewrite (proj2 (Z.ltb_ge (msize map) 8)) by lia.
  assert (msize map <<! 3 = 8 * msize map) as ->.
  { unfold shl64. rewrite Z.shiftl_mul_pow2, u64_id by (unfold is_u64; lia). lia. }
  destruct (shape_size _ (table_shape _ Ht)) as (k & Hk & Hsize).
  assert (k <= 57) by (apply (Z.pow_le_mono_r_iff 2); lia).
  assert (8 * msize map = 2 ^ (k + 3)) as Hnew by (rewrite Hsize, Z.pow_add_r; lia).
  assert (HASHMAP_BEGIN ⊞ 1 = 0) as Hbegin by reflexivity.
  destruct (move_loop_spec d (S (Z.to_nat (msize map))) map (fresh_map fresh_buckets (8 * msize map))
    HASHMAP_BEGIN) as (map' & -> & Ht' & Hsz' & Hp').
  - done.
  - done.
  - rewrite Hbegin. lia.
  - done.
  - rewrite Hbegin. lia.
  - rewrite Hnew. apply fresh_table. lia.
  - cbn. lia.
  - rewrite fresh_items, Hbegin. unfold items_between. by rewrite seqZ_nil.
  - cbn [mbind outcome_bind].
    assert (count map' = count map) as Hc'.
    { rewrite (table_count _ Ht), (table_count _ Ht'). by rewrite Hp'. }
    rewrite Hc', Z.eqb_refl. exists map'. done.
Qed.

(** A map with its items, as the operations see it before an insertion. *)
Lemma init_table :
  table_ok (ponyint_hashmap_init fresh_buckets 4) /\
  items (ponyint_hashmap_init fresh_buckets 4) = [] /\
  msize (ponyint_hashmap_init fresh_buckets 4) = 8.
Proof.
  split; [|split; [apply fresh_items|reflexivity]].
  change (ponyint_hashmap_init fresh_buckets 4) with (fresh_map fresh_buckets (2 ^ 3)).
  by apply fresh_table.
Qed.

Lemma put_result_perm map1 map2 e old map' :
  items map1 ≡ₚ items map2 -> put_result map1 e old map' -> put_result map2 e old map'.
Proof.
  intros Hp [(? & ? & H)|(e0 & rest & ? & ? & H1 & H2)].
  - left. rewrite <- Hp. done.
  - right. exists e0, rest. rewrite <- Hp. done.
Qed.

(** The end of an insertion: the table is resized when it is more than half full. *)
Lemma grow_spec map1 :
  table_ok map1 -> 2 * count map1 <= msize map1 + 2 -> msize map1 <= 2 ^ 57 ->
  exists map', (if msize map1 <? (count map1 <<! 1)
                then resize fresh_buckets (put_depth cmp fresh_buckets 1) map1 else Ret map1) = Ret map' /\
    hashmap_ok map' /\ msize map' <= Z.max (msize map1) (16 * count map1) /\ items map' ≡ₚ items map1.
Proof.
  intros Ht Hload Hle. pose proof (shape_bounds _ (table_shape _ Ht)) as Hb.
  pose proof (table_count _ Ht) as Hc.
  rewrite count_shl by lia. destruct (Z.ltb_spec (msize map1) (2 * count map1)) as [Hlt|Hge].
  - destruct (resize_spec 0 map1 Ht ltac:(lia) Hle) as (map' & -> & Ht' & Hsz' & Hp').
    exists map'. split; [done|]. split; [|split; [lia|done]].
    right. split; [done|]. rewrite (table_count _ Ht'), Hp'. lia.
  - exists map1. split; [done|]. split; [by right|]. split; [lia|done].
Qed.

Lemma put_allocated map entry :
  table_ok map -> 2 * count map <= msize map -> msize map <= 2 ^ 57 -> entry <> NULL ->
  exists map' old,
    put_depth cmp fresh_buckets 2 map entry (hash_of (key_of entry)) = Ret (map', old) /\
    hashmap_ok map' /\ put_result map (mk_entry entry (hash_of (key_of entry))) old map' /\
    msize map' <= Z.max (msize map) (16 * (count map + 1)).
Proof.
  intros Ht Hload Hle Hnull. pose proof (shape_bounds _ (table_shape _ Ht)) as Hb.
  pose proof (table_count _ Ht) as Hc. cbn [put_depth].
  rewrite (proj2 (Z.eqb_neq (msize map) 0)) by lia.
  pose proof (table_search map entry Ht ltac:(lia)) as Hend.
  set (r := search _ _ _ _ _ _) in *. set (rs := resize fresh_buckets _).
  destruct (shift_put_spec rs map entry r Ht ltac:(lia) Hnull Hend)
    as (map1 & Ht1 & Hsz1 & Hc1 & Hput & ->).
  assert (exists map', (if (s_elem r =? NULL) && (msize map <? (count map1 <<! 1))
    then rs map1 else Ret map1) = Ret map' /\ hashmap_ok map' /\ items map' ≡ₚ items map1 /\
    msize map' <= Z.max (msize map) (16 * (count map + 1)))
    as (map' & -> & Hok' & Hp' & Hsize).
  { destruct (s_elem r =? NULL); cbn [andb].
    - destruct (grow_spec map1 Ht1) as (map' & Hrun & Hok' & Hsz' & Hp'); [lia..|].
      rewrite Hsz1 in Hrun. exists map'. split_and!; [done..|lia].
    - exists map1. split; [done|]. split; [|split; [done|lia]]. right. split; [done|lia]. }
  exists map', (s_elem r). split; [done|]. split; [done|]. split; [|done].
  destruct Hput as [(? & ? & H)|(e0 & rest & ? & ? & H1 & H2)].
  - left. split; [done|]. split; [done|]. by rewrite Hp'.
  - right. exists e0, rest. split; [done|]. split; [done|]. split; [done|]. by rewrite Hp'.
Qed.

(** ** Removal *)

Lemma shift_delete_loop_spec fuel map pos e0 rest z :
  let n := msize map in
  shape map -> robin n (slot map) -> 0 <= pos < n -> slot map pos = Some e0 ->
  items map ≡ₚ e0 :: rest -> 0 <= z < n -> slot map z = None ->
  (z - pos) mod n < Z.of_nat fuel ->
  exists map', shift_delete_loop fuel map pos (n ⊟ 1) = Ret map' /\
    shape map' /\ robin n (slot map') /\ msize map' = n /\ count map' = count map ⊟ 1 /\
    items map' ≡ₚ rest.
Proof.
  cbv zeta. revert map pos e0.
  induction fuel as [|fuel IH]; intros map pos e0 Hs HR Hpos Hslot Hp Hz Hnone Hf.
  { pose proof (Z.mod_pos_bound (z - pos) (msize map) ltac:(lia)). lia. }
  pose proof (shape_bounds _ Hs) as Hb. assert (2 <= msize map) as Hn by lia.
  cbn [shift_delete_loop]. rewrite !mask_mod by done. unfold add64. rewrite u64_mod by done.
  set (next := (pos + 1) mod msize map).
  assert (0 <= next < msize map) as Hnx by (apply Z.mod_pos_bound; lia).
  rewrite probe_length_mod by done.
  destruct (bit_set (item_bitmap map) next && negb ((next - hash (bucket (buckets map) next)) mod msize map =? 0))
    eqn:Hcond.
  - apply andb_true_iff in Hcond as [Hbit Hnz].
    assert (slot map next = Some (bucket (buckets map) next)) as Hs1 by (unfold slot; by rewrite Hbit).
    revert Hs1 Hnz. generalize (bucket (buckets map) next). intros e1 Hs1 Hnz.
    assert (0 < pl (msize map) e1 next) as Hpl.
    { pose proof (pl_range _ Hn e1 next). unfold pl in *. apply negb_true_iff, Z.eqb_neq in Hnz. lia. }
    set (map1 := set_bucket map pos e1).
    assert (forall j, 0 <= j < msize map -> slot map1 j = if pos =? j then Some e1 else slot map j)
      as Hupd by (intros; apply slot_set_bucket; congruence).
    assert (forall j, 0 <= j < msize map -> j <> pos -> slot map1 j = slot map j) as Hoff.
    { intros j Hj Hne. rewrite Hupd, (proj2 (Z.eqb_neq pos j)) by done. done. }
    assert (slot map1 pos = Some e1) as Hpos1 by by rewrite Hupd, Z.eqb_refl.
    destruct (items_update map pos Hpos map1 eq_refl Hoff) as (rest' & H1 & H2).
    rewrite Hslot in H1. rewrite Hpos1 in H2. cbn [option_list app] in H1, H2.
    rewrite H1 in Hp. apply Permutation_cons_inv in Hp. rewrite Hp in H2.
    apply (IH map1 next e1); change (msize map1) with (msize map).
    + by apply shape_set_bucket.
    + by apply (robin_shift _ Hn _ HR _ pos e1).
    + done.
    + destruct (decide (next = pos)) as [->|]; [done|by rewrite Hoff].
    + done.
    + done.
    + rewrite Hoff by congruence. done.
    + unfold next. rewrite Zminus_mod_idemp_r.
      assert ((z - pos) mod msize map <> 0) as Hne.
      { intros E. assert (z = pos); [|congruence].
        apply Z.mod_divide in E as [q E]; [|lia]. assert (q = 0) by nia. lia. }
      pose proof (Z.mod_pos_bound (z - pos) (msize map) ltac:(lia)).
      rewrite dist_step by lia. lia.
  - exists (empty_bucket map pos). split; [done|]. split; [by apply shape_empty_bucket|].
    assert (forall j, 0 <= j < msize map ->
      slot (empty_bucket map pos) j = if pos =? j then None else slot map j) as Hupd
      by (intros; by apply slot_empty_bucket).
    assert (forall j, 0 <= j < msize map -> j <> pos -> slot (empty_bucket map pos) j = slot map j) as Hoff.
    { intros j Hj Hne. rewrite Hupd, (proj2 (Z.eqb_neq pos j)) by done. done. }
    assert (slot (empty_bucket map pos) pos = None) as Hpos1 by by rewrite Hupd, Z.eqb_refl.
    split; [|split; [done|split; [done|]]].
    + apply (robin_empty _ Hn _ HR _ pos); [done..|]. intros e He. fold next in He |- *.
      unfold slot in He. destruct (bit_set (item_bitmap map) next); [|done].
      injection He as He. rewrite He in Hcond. cbn in Hcond.
      apply negb_false_iff, Z.eqb_eq in Hcond. done.
    + destruct (items_update map pos Hpos (empty_bucket map pos) eq_refl Hoff) as (rest' & H1 & H2).
      rewrite Hslot in H1. rewrite Hpos1 in H2. cbn [option_list app] in H1, H2.
      rewrite H1 in Hp. apply Permutation_cons_inv in Hp. by rewrite H2.
Qed.

(** [shift_delete] takes the item of an occupied bucket out of the map. *)
Lemma shift_delete_spec map i e :
  table_ok map -> 2 * count map <= msize map -> 0 <= i < msize map -> slot map i = Some e ->
  exists map', shift_delete map i = Ret map' /\ hashmap_ok map' /\
    msize map' = msize map /\ items map ≡ₚ e :: items map'.
Proof.
  intros Ht Hload Hi He. pose proof (table_shape _ Ht) as Hs. pose proof (shape_bounds _ Hs) as Hb.
  pose proof (table_count _ Ht) as Hc.
  destruct (table_room _ Ht ltac:(lia)) as (z & Hz & Hnone).
  assert (e ∈ items map) as Hin by (apply elem_of_items; eauto).
  apply elem_of_Permutation in Hin as (rest & Hp).
  unfold shift_delete. rewrite (proj2 (Z.ltb_lt i (msize map))) by lia. cbn [negb].
  destruct (shift_delete_loop_spec (Z.to_nat (msize map)) map i e rest z) as
    (map' & -> & Hs' & HR' & Hsz' & Hc' & Hp'); [done|apply Ht|done..| |].
  { pose proof (Z.mod_pos_bound (z - i) (msize map) ltac:(lia)). lia. }
  exists map'. split; [done|]. split; [|split; [done|by rewrite Hp']]. right.
  pose proof (table_entries _ Ht) as Hok. pose proof (table_keys _ Ht) as Hnd.
  rewrite Hp in Hok, Hnd, Hc. cbn in Hnd, Hc.
  assert (count map' = count map - 1) as Hcnt.
  { rewrite Hc'. unfold sub64. apply u64_id. unfold is_u64. lia. }
  split; [|lia]. apply (table_ok_perm _ rest); [done|by rewrite Hsz'|done| | |lia].
  - by apply Forall_cons in Hok as [_ ?].
  - by apply NoDup_cons in Hnd as [_ ?].
Qed.
(** ** Whole maps *)

Lemma unallocated_items : items (mk_hashmap 0 0 [] []) = [].
Proof. unfold items, items_between. cbn. by rewrite seqZ_nil. Qed.

Lemma put_map map entry :
  hashmap_ok map -> msize map <= 2 ^ 57 -> entry <> NULL ->
  exists map' old,
    ponyint_hashmap_put cmp fresh_buckets map entry (hash_of (key_of entry)) = Ret (map', old) /\
    hashmap_ok map' /\ put_result map (mk_entry entry (hash_of (key_of entry))) old map' /\
    msize map' <= Z.max (msize map) (16 * (count map + 1)).
Proof.
  intros [->|[Ht Hload]] Hle Hnull; [|by apply put_allocated].
  destruct init_table as (Ht & Hit & Hsz). pose proof (table_count _ Ht) as Hc. rewrite Hit in Hc. cbn [length Z.of_nat] in Hc.
  destruct (put_allocated (ponyint_hashmap_init fresh_buckets 4) entry Ht) as
    (map' & old & Hrun & Hok & Hput & Hsize); [rewrite Hsz; lia..|done|].
  exists map', old. split; [exact Hrun|]. split; [done|]. split.
  - eapply put_result_perm; [|exact Hput]. by rewrite Hit, unallocated_items.
  - rewrite Hsz, Hc in Hsize. cbn in *. lia.
Qed.

(** What a lookup finds, and where. *)
Inductive get_result (map : hashmap_t) (k : key) : Z * option Z -> Prop :=
| get_found i e :
    0 <= i < msize map -> slot map i = Some e -> ekey e = k -> ptr e <> NULL ->
    get_result map k (ptr e, Some i)
| get_absent pos : k ∉ ekey <$> items map -> get_result map k (NULL, pos).

Lemma table_empty map : table_ok map -> count map = 0 -> items map = [].
Proof. intros Ht H0. pose proof (table_count _ Ht). destruct (items map); [done|cbn in *; lia]. Qed.

Lemma get_map map p :
  hashmap_ok map -> get_result map (key_of p) (ponyint_hashmap_get cmp map p (hash_of (key_of p))).
Proof.
  unfold ponyint_hashmap_get. intros [->|[Ht Hload]].
  { apply get_absent. rewrite unallocated_items. apply not_elem_of_nil. }
  destruct (Z.eqb_spec (count map) 0) as [H0|H0].
  { apply get_absent. rewrite table_empty by done. apply not_elem_of_nil. }
  pose proof (shape_bounds _ (table_shape _ Ht)) as Hb. pose proof (table_count _ Ht) as Hc.
  destruct (table_search map p Ht ltac:(lia)) as [i e q Hi Hq He Hk _|q oi Hq Hin i _ _]; cbn.
  - apply (get_found _ _ i e); [done..|].
    apply (proj1 (Forall_forall _ _) (table_entries _ Ht) e). apply elem_of_items. eauto.
  - by apply get_absent.
Qed.

Lemma remove_map map p :
  hashmap_ok map ->
  exists map' old, ponyint_hashmap_remove cmp map p (hash_of (key_of p)) = Ret (map', old) /\
    hashmap_ok map' /\ remove_result map (key_of p) old map'.
Proof.
  unfold ponyint_hashmap_remove. intros Hok. pose proof Hok as [->|[Ht Hload]].
  { exists (mk_hashmap 0 0 [] []), NULL. split; [done|]. split; [done|]. left.
    rewrite unallocated_items. split; [done|]. split; [apply not_elem_of_nil|done]. }
  destruct (Z.eqb_spec (count map) 0) as [H0|H0].
  { exists map, NULL. split; [done|]. split; [done|]. left.
    rewrite table_empty by done. split; [done|]. split; [apply not_elem_of_nil|done]. }
  pose proof (shape_bounds _ (table_shape _ Ht)) as Hb. pose proof (table_count _ Ht) as Hc.
  destruct (table_search map p Ht ltac:(lia)) as [i e q Hi Hq He Hk _|q oi Hq Hin i _ _]; cbn.
  - assert (ptr e <> NULL) as Hne.
    { apply (proj1 (Forall_forall _ _) (table_entries _ Ht) e). apply elem_of_items. eauto. }
    rewrite (proj2 (Z.eqb_neq (ptr e) NULL)) by done. cbn [negb].
    destruct (shift_delete_spec map i e Ht Hload Hi He) as (map' & -> & Hok' & _ & Hp).
    exists map', (ptr e). split; [done|]. split; [done|]. right. by exists e.
  - exists map, NULL. split; [done|]. split; [done|]. by left.
Qed.

(** ** Insertion at the position of an earlier lookup *)

Lemma search_loop_ext n map k1 k2 h mask i p oi :
  key_of k1 = key_of k2 ->
  search_loop cmp n map k1 h mask i p oi = search_loop cmp n map k2 h mask i p oi.
Proof.
  intros Hk. revert i p. induction n as [|n IH]; intros i p; [done|]. cbn [search_loop].
  rewrite !(cmp_key (cmp := cmp)), Hk, IH. done.
Qed.

Lemma put_depth_S d map entry h :
  msize map <> 0 ->
  put_depth cmp fresh_buckets (S d) map entry h =
    (let r := search cmp map entry h 0 0 in
     map' ← shift_put cmp (resize fresh_buckets (put_depth cmp fresh_buckets d)) map entry h
              (s_pos r) (s_probe_length r) (s_oi_probe_length r) (s_elem r);
     Ret (map', s_elem r)).
Proof. intros H. cbn [put_depth]. by rewrite (proj2 (Z.eqb_neq (msize map) 0)). Qed.

Lemma putindex_absent map p entry pos :
  hashmap_ok map -> key_of entry = key_of p ->
  ponyint_hashmap_get cmp map p (hash_of (key_of p)) = (NULL, pos) ->
  ponyint_hashmap_putindex cmp fresh_buckets map entry (hash_of (key_of p)) (default HASHMAP_UNKNOWN pos) =
  ('(map', _) ← ponyint_hashmap_put cmp fresh_buckets map entry (hash_of (key_of p)); Ret map').
Proof.
  unfold ponyint_hashmap_get. intros Hok Hkey Hget.
  destruct (Z.eqb_spec (count map) 0) as [H0|H0]; [by injection Hget as <-|].
  destruct Hok as [->|[Ht Hload]]; [done|].
  pose proof (table_shape _ Ht) as Hs. pose proof (shape_bounds _ Hs) as Hb.
  pose proof (table_count _ Ht) as Hc.
  unfold ponyint_hashmap_putindex, ponyint_hashmap_put.
  rewrite put_depth_S, (proj2 (Z.eqb_neq (msize map) 0)) by lia.
  set (rs := resize fresh_buckets _). cbv zeta.
  assert (search cmp map entry (hash_of (key_of p)) 0 0 = search cmp map p (hash_of (key_of p)) 0 0) as ->
    by by apply search_loop_ext.
  pose proof (table_search map p Ht ltac:(lia)) as Hend.
  destruct Hend as [i e q Hi Hq He Hk _|q oi Hq Hin i Hprev Hslot]; cbn in Hget |- *.
  { injection Hget as He' <-.
    assert (ptr e <> NULL); [|done].
    apply (proj1 (Forall_forall _ _) (table_entries _ Ht) e). apply elem_of_items. eauto. }
  assert (0 <= i < msize map) as Hi by (apply Z.mod_pos_bound; lia).
  assert (i = (hash_of (key_of p) + q) mod msize map) as Hiq by done.
  clearbody i. injection Hget as <-. change (default HASHMAP_UNKNOWN (Some i)) with i.
  rewrite (proj2 (Z.eqb_neq i HASHMAP_UNKNOWN)) by (unfold HASHMAP_UNKNOWN; lia).
  rewrite (proj2 (Z.ltb_lt i (msize map))) by lia. cbn [negb].
  rewrite !probe_length_mod by done.
  assert ((i - hash_of (key_of p)) mod msize map = q) as ->.
  { rewrite Hiq, Zminus_mod_idemp_l.
    replace (hash_of (key_of p) + q - hash_of (key_of p)) with q by lia. by apply Z.mod_small. }
  unfold shift_put. cbn [shift_put_loop].
  rewrite (proj2 (Z.ltb_lt i (msize map))) by lia. cbn [negb].
  destruct Hslot as [[Hnone ->]|(e & He & Hlt & ->)].
  - assert (bit_set (item_bitmap map) i = false) as ->.
    { unfold slot in Hnone. by destruct (bit_set (item_bitmap map) i). }
    assert (((0 <? q) || (q =? 0) && (q =? 0)) = true) as ->
      by (destruct (Z.ltb_spec 0 q), (Z.eqb_spec q 0); simpl; (done || lia)).
    rewrite Z.eqb_refl. cbn [negb andb].
    set (map1 := fill_bucket map i _). cbn [s_elem].
    by destruct (if msize map1 <? _ then rs map1 else Ret map1) eqn:E.
  - assert (bit_set (item_bitmap map) i = true /\ bucket (buckets map) i = e) as [-> ->].
    { unfold slot in He. destruct (bit_set (item_bitmap map) i); [|done]. by injection He. }
    fold (pl (msize map) e i). rewrite (proj2 (Z.ltb_lt _ q)) by done.
    cbn [negb andb orb]. by destruct (if _ && _ then _ else _).
Qed.

(** ** Iteration *)

(** [destroy] visits the items from bucket [i + 1] on, in the order of the buckets. *)
Lemma destroy_loop_spec fuel map i freed :
  table_ok map -> count map <> 0 -> 0 <= i ⊞ 1 <= msize map -> 0 <= i ->
  msize map - (i ⊞ 1) < Z.of_nat fuel ->
  destroy_loop fuel map i freed = Ret (freed ++ (ptr <$> items_between map (i ⊞ 1) (msize map))).
Proof.
  intros Ht Hcnt. revert i freed. pose proof (table_shape _ Ht) as Hs.
  pose proof (shape_bounds _ Hs) as Hb.
  induction fuel as [|fuel IH]; intros i freed Hi Hi0 Hf; [lia|]. cbn [destroy_loop].
  destruct (next_spec map Hs i (count map) Hcnt Hi) as [j e Hj He Hnone|Hnone].
  - assert (ptr e <> NULL) as Hne.
    { apply (proj1 (Forall_forall _ _) (table_entries _ Ht) e). apply elem_of_items.
      exists j. split; [lia|done]. }
    rewrite (proj2 (Z.eqb_neq (ptr e) NULL)) by done. cbn [mbind outcome_bind].
    rewrite (proj2 (Z.eqb_neq (ptr e) NULL)) by done.
    assert (j ⊞ 1 = j + 1) as Hjn by (unfold add64; apply u64_id; unfold is_u64; lia).
    rewrite IH by lia. rewrite Hjn, (items_between_split map (i ⊞ 1) (j + 1)) by lia.
    rewrite (items_between_first map (i ⊞ 1) j e) by (lia || done).
    by rewrite <- app_assoc.
  - cbn. rewrite items_between_none by done. by rewrite app_nil_r.
Qed.

Lemma destroy_map map free_elem :
  hashmap_ok map ->
  ponyint_hashmap_destroy map free_elem =
    Ret (if free_elem then ptr <$> items map else [], mk_hashmap 0 0 [] []).
Proof.
  intros [->|[Ht Hload]]; [rewrite unallocated_items; by destruct free_elem|].
  unfold ponyint_hashmap_destroy. destruct free_elem; [|done].
  destruct (decide (count map = 0)) as [H0|H0].
  { rewrite table_empty by done. cbn. unfold ponyint_hashmap_next. by rewrite H0. }
  pose proof (shape_bounds _ (table_shape _ Ht)).
  assert (HASHMAP_BEGIN ⊞ 1 = 0) as Hbegin by reflexivity.
  rewrite destroy_loop_spec; rewrite ?Hbegin; [done|done|done|lia|done|lia].
Qed.
End spec.

(** ** Properties *)

(** A concrete map for the witnesses: three pointers, two of which collide. *)
Definition null_buckets (n : Z) : list hashmap_entry_t := replicate (Z.to_nat n) null_entry.

Lemma null_buckets_length n : length (null_buckets n) = Z.to_nat n.
Proof. apply length_replicate. Qed.

Definition put_ptr (map : hashmap_t) (p : Z) : hashmap_t :=
  match ponyint_hashmap_put Z.eqb null_buckets map p (ponyint_hash_ptr p) with
  | Ret (map, _) => map
  | _ => map
  end.

Lemma put_ptr_ok map p :
  hashmap_ok map -> msize map <= 2 ^ 57 -> p <> NULL -> hashmap_ok (put_ptr map p).
Proof.
  intros Hok Hle Hp.
  destruct (put_map null_buckets null_buckets_length map p Hok Hle Hp) as (map' & old & Hrun & Hok' & _).
  assert (hash_of (key_of p) = ponyint_hash_ptr p) as E by reflexivity.
  rewrite E in Hrun. unfold put_ptr. by rewrite Hrun.
Qed.

(** Four items in eight buckets: the next new item makes the table grow. *)
Definition sample : hashmap_t :=
  put_ptr (put_ptr (put_ptr (put_ptr (mk_hashmap 0 0 [] []) 16) 32) 48) 64.

Lemma sample_ok : hashmap_ok sample.
Proof.
  unfold sample.
  do 4 (apply put_ptr_ok; [|apply Z.leb_le; vm_compute; reflexivity|apply Z.eqb_neq; reflexivity]).
  left. reflexivity.
Qed.

(** C1: [ponyint_hashmap_put] on any map (also one that was never allocated) terminates
    without a failed assertion, also when the table grows; it returns the item of the same
    key, or null, and the new map holds the items of the old one with that item replaced
    by the new one.  The result is a well-formed map: Robin Hood order, no key twice, at
    most half full. *)
Theorem hashmap_put_correct `{HK : HashKeys cmp} fresh_buckets map entry :
  (forall n, length (fresh_buckets n) = Z.to_nat n) ->
  hashmap_ok map -> msize map <= 2 ^ 57 -> entry <> NULL ->
  exists map' old,
    ponyint_hashmap_put cmp fresh_buckets map entry (hash_of (key_of entry)) = Ret (map', old) /\
    hashmap_ok map' /\
    put_result map (mk_entry entry (hash_of (key_of entry))) old map'.
Proof.
  intros Hfresh Hok Hle Hne.
  destruct (put_map fresh_buckets Hfresh map entry Hok Hle Hne) as (map' & old & ? & ? & ? & _). eauto.
Qed.

Lemma hashmap_put_correct_witness :
  let h := hash_of (key_of 80) in
  exists map' old,
    ponyint_hashmap_put Z.eqb null_buckets sample 80 h = Ret (map', old) /\
    hashmap_ok map' /\ put_result sample (mk_entry 80 h) old map'.
Proof.
  apply (hashmap_put_correct null_buckets sample 80).
  - exact null_buckets_length.
  - exact sample_ok.
  - apply Z.leb_le. vm_compute. reflexivity.
  - discriminate.
Defined.

(** C3: [ponyint_hashmap_get] on any map returns null when no item of the map has the
    key, and otherwise the item of that key and its bucket. *)
Theorem hashmap_get_correct `{HK : HashKeys cmp} map p :
  hashmap_ok map ->
  get_result map (key_of p) (ponyint_hashmap_get cmp map p (hash_of (key_of p))).
Proof. apply get_map. Qed.

Lemma hashmap_get_correct_witness :
  hashmap_ok sample /\
  get_result sample (key_of 48) (ponyint_hashmap_get Z.eqb sample 48 (hash_of (key_of 48))) /\
  fst (ponyint_hashmap_get Z.eqb sample 48 (ponyint_hash_ptr 48)) = 48.
Proof.
  split; [exact sample_ok|]. split; [|vm_compute; reflexivity].
  apply (hashmap_get_correct sample 48). exact sample_ok.
Defined.

(** C2: [ponyint_hashmap_remove] terminates without a failed assertion, returns the item
    of the key, or null, and leaves a well-formed map with exactly the other items: the
    backward shift of [shift_delete] keeps every remaining item reachable. *)
Theorem hashmap_remove_correct `{HK : HashKeys cmp} map p :
  hashmap_ok map ->
  exists map' old, ponyint_hashmap_remove cmp map p (hash_of (key_of p)) = Ret (map', old) /\
    hashmap_ok map' /\ remove_result map (key_of p) old map'.
Proof. apply remove_map. Qed.

Lemma hashmap_remove_correct_witness :
  exists map' old, ponyint_hashmap_remove Z.eqb sample 32 (hash_of (key_of 32)) = Ret (map', old) /\
    hashmap_ok map' /\ remove_result sample (key_of 32) old map'.
Proof. apply (hashmap_remove_correct sample 32). exact sample_ok. Defined.

(** Inserting at the position of an earlier unsuccessful lookup is the same as
    [ponyint_hashmap_put]: the position that [ponyint_hashmap_get] hands out for
    [ponyint_hashmap_putindex] is where the item belongs, also when the table then grows. *)
Theorem hashmap_putindex_after_get `{HK : HashKeys cmp} fresh_buckets map p entry pos :
  hashmap_ok map -> key_of entry = key_of p ->
  ponyint_hashmap_get cmp map p (hash_of (key_of p)) = (NULL, pos) ->
  ponyint_hashmap_putindex cmp fresh_buckets map entry (hash_of (key_of p)) (default HASHMAP_UNKNOWN pos) =
  ('(map', _) ← ponyint_hashmap_put cmp fresh_buckets map entry (hash_of (key_of p)); Ret map').
Proof. apply putindex_absent. Qed.

Lemma hashmap_putindex_after_get_witness :
  let h := hash_of (key_of 80) in
  ponyint_hashmap_get Z.eqb sample 80 h = (NULL, Some 5) /\
  ponyint_hashmap_putindex Z.eqb null_buckets sample 80 h (default HASHMAP_UNKNOWN (Some 5)) =
  ('(map', _) ← ponyint_hashmap_put Z.eqb null_buckets sample 80 h; Ret map').
Proof.
  split; [vm_compute; reflexivity|].
  apply (hashmap_putindex_after_get null_buckets sample 80 80 (Some 5));
    [exact sample_ok|reflexivity|vm_compute; reflexivity].
Defined.

(** [ponyint_hashmap_removeindex] at an occupied bucket removes exactly its item;
    elsewhere it leaves the map as it is. *)
Theorem hashmap_removeindex_correct `{HK : HashKeys cmp} map i :
  hashmap_ok map -> 0 <= i ->
  exists map', ponyint_hashmap_removeindex map i = Ret map' /\ hashmap_ok map' /\
    (if i <? msize map then items map ≡ₚ option_list (slot map i) ++ items map'
     else map' = map).
Proof.
  unfold ponyint_hashmap_removeindex. intros Hok Hi.
  destruct (Z.ltb_spec i (msize map)) as [Hlt|Hge].
  - rewrite (proj2 (Z.leb_gt (msize map) i)) by done.
    destruct Hok as [->|[Ht Hload]]; [cbn in Hlt; lia|].
    destruct (slot map i) as [e|] eqn:He.
    + assert (bit_set (item_bitmap map) i = true) as ->
        by (unfold slot in He; by destruct (bit_set _ i)).
      destruct (shift_delete_spec map i e Ht Hload ltac:(lia) He) as (map' & ? & ? & _ & Hp). eauto.
    + assert (bit_set (item_bitmap map) i = false) as ->
        by (unfold slot in He; by destruct (bit_set _ i)).
      exists map. split; [done|]. split; [by right|done].
  - rewrite (proj2 (Z.leb_le (msize map) i)) by done. eauto.
Qed.

Lemma hashmap_removeindex_correct_witness :
  (hashmap_ok sample /\ 0 <= 3) /\
  exists map', ponyint_hashmap_removeindex sample 3 = Ret map' /\ hashmap_ok map' /\
    (if 3 <? msize sample then items sample ≡ₚ option_list (slot sample 3) ++ items map'
     else map' = sample).
Proof.
  split; [split; [exact sample_ok|lia]|].
  apply (hashmap_removeindex_correct sample 3); [exact sample_ok|lia].
Defined.

(** Iterating with [ponyint_hashmap_next] until it returns null, as
    [ponyint_hashmap_destroy] does, visits every item of the map exactly once and
    terminates; without a function to free the elements none is visited.  The map is
    unallocated afterwards. *)
Theorem hashmap_destroy_visits_all `{HK : HashKeys cmp} map free_elem :
  hashmap_ok map ->
  ponyint_hashmap_destroy map free_elem =
    Ret (if free_elem then ptr <$> items map else [], mk_hashmap 0 0 [] []).
Proof. apply destroy_map. Qed.

Lemma hashmap_destroy_visits_all_witness :
  hashmap_ok sample /\
  ponyint_hashmap_destroy sample true = Ret (ptr <$> items sample, mk_hashmap 0 0 [] []).
Proof.
  split; [exact sample_ok|]. apply hashmap_destroy_visits_all. exact sample_ok.
Defined.
