(* ===== verification/HashTab.v ===== *)
(** * Tables of records: the macros [DECLARE_HASHMAP] and [DEFINE_HASHMAP] of [src/libponyrt/ds/hash.h]

    The macros make a typed table of the hash map: the elements are pointers to records,
    hashed and compared by functions of the records.  The records that pointers refer to
    are the [cells] of the table; a lookup passes the address of a record of the caller.
    The lemmas give the operations in terms of the [elems] of the table, the records its
    items point to, and are what the users of a table need from it. *)
From S2P Require Import Prelude Store Fun Hash HashInv HashOps.
From stdpp Require Import gmap fin_maps.
Local Open Scope Z_scope.
Local Open Scope c_scope.

(** The arguments [hash] and [cmp] of the macro. *)
Class TabElem (T : Type) := { elem_hash : T -> Z; elem_cmp : T -> T -> bool }.

Record tab_t (T : Type) := mk_tab { contents : hashmap_t; cells : gmap Z T }.
Arguments mk_tab {T} contents cells.
Arguments contents {T} t.
Arguments cells {T} t.

(** ** The operations *)

Section operations.
Context {T : Type} `{TabElem T} (fresh_buckets : Z -> list hashmap_entry_t).

(** [name##_cmpf], on pointers. *)
Definition cmpf (h : gmap Z T) (a b : Z) : bool :=
  match h !! a, h !! b with
  | Some x, Some y => elem_cmp x y
  | None, None => true
  | _, _ => false
  end.

Definition tab_init (size : Z) : tab_t T := mk_tab (ponyint_hashmap_init fresh_buckets size) ∅.

(** The pointer found, and the index when there is one. *)
Definition tab_get (t : tab_t T) (key : T) : Z * option Z :=
  let k := new_addr (cells t) in
  ponyint_hashmap_get (cmpf (<[k := key]> (cells t))) (contents t) k (elem_hash key).

Definition tab_putindex (t : tab_t T) (entry index : Z) : outcome (tab_t T) :=
  match cells t !! entry with
  | None => Abort
  | Some x =>
      m ← ponyint_hashmap_putindex (cmpf (cells t)) fresh_buckets (contents t) entry (elem_hash x) index;
      Ret (mk_tab m (cells t))
  end.

Definition tab_put (t : tab_t T) (entry : Z) : outcome (tab_t T * Z) :=
  match cells t !! entry with
  | None => Abort
  | Some x =>
      '(m, old) ← ponyint_hashmap_put (cmpf (cells t)) fresh_buckets (contents t) entry (elem_hash x);
      Ret (mk_tab m (cells t), old)
  end.

Definition tab_remove (t : tab_t T) (key : T) : outcome (tab_t T * Z) :=
  let k := new_addr (cells t) in
  '(m, old) ← ponyint_hashmap_remove (cmpf (<[k := key]> (cells t))) (contents t) k (elem_hash key);
  Ret (mk_tab m (cells t), old).

Definition tab_destroy (t : tab_t T) : outcome (tab_t T) :=
  '(freed, m) ← ponyint_hashmap_destroy (contents t) true;
  Ret (mk_tab m (foldr delete (cells t) freed)).

(** [POOL_ALLOC] of a record and its initialisation. *)
Definition tab_alloc (t : tab_t T) (x : T) : tab_t T * Z :=
  let p := new_addr (cells t) in (mk_tab (contents t) (<[p := x]> (cells t)), p).

Definition tab_free (t : tab_t T) (p : Z) : tab_t T := mk_tab (contents t) (delete p (cells t)).

(** [size_t i = HASHMAP_BEGIN; while((elem = name##_next(map, &i)) != NULL) body], where
    the body says whether it leaves the loop. *)
Fixpoint each_loop {S : Type} (fuel : nat) (map : hashmap_t) (i : Z)
    (body : Z -> S -> outcome (bool * S)) (s : S) : outcome (bool * S) :=
  match fuel with
  | O => NoFuel
  | Datatypes.S fuel =>
      '(i, elem) ← ponyint_hashmap_next i (count map) (item_bitmap map) (msize map) (buckets map);
      if elem =? NULL then Ret (false, s)
      else
        '(stop, s) ← body elem s;
        if stop : bool then Ret (true, s) else each_loop fuel map i body s
  end.

(** Whether the body left the loop, and the state. *)
Definition tab_each {S : Type} (t : tab_t T) (body : Z -> S -> outcome (bool * S)) (s : S)
    : outcome (bool * S) :=
  each_loop (Datatypes.S (Z.to_nat (msize (contents t)))) (contents t) HASHMAP_BEGIN body s.
End operations.

(** ** Iteration as a fold *)

Fixpoint fold_until {A S : Type} (body : A -> S -> outcome (bool * S)) (l : list A) (s : S)
    : outcome (bool * S) :=
  match l with
  | [] => Ret (false, s)
  | x :: l => '(stop, s) ← body x s; if stop : bool then Ret (true, s) else fold_until body l s
  end.

(** ** Interface to the users of a table

    The comparison is equality of the keys of the records, the hash a function of the key. *)
Class TabKeys (T : Type) `{TabElem T} := {
  tkey : Type;
  tkey_eq_dec :: EqDecision tkey;
  tkey_of : T -> tkey;
  tkey_hash : tkey -> Z;
  elem_hash_key x : elem_hash x = tkey_hash (tkey_of x);
  elem_cmp_key x y : elem_cmp x y = bool_decide (tkey_of x = tkey_of y)
}.

#[program] Definition cell_keys {T} `{TabKeys T} (h : gmap Z T) : HashKeys (cmpf h) :=
  {| key := option tkey; key_of p := tkey_of <$> h !! p; hash_of k := from_option tkey_hash 0 k |}.
Next Obligation.
  intros T ? ? h x y. unfold cmpf. destruct (h !! x) as [a|], (h !! y) as [b|]; cbn.
  - rewrite elem_cmp_key. apply bool_decide_ext. split; congruence.
  - symmetry. by apply bool_decide_eq_false_2.
  - symmetry. by apply bool_decide_eq_false_2.
  - symmetry. by apply bool_decide_eq_true_2.
Qed.

Definition ptrs {T} (t : tab_t T) : list Z := ptr <$> items (contents t).

(** The records of a table, in the order of its buckets. *)
Definition elems {T} (t : tab_t T) : list T := omap (fun p => cells t !! p) (ptrs t).

Section spec.
Context {T : Type} `{TabKeys T}.
Implicit Types (t : tab_t T) (h : gmap Z T).

(** The invariant of a table: its map is well-formed for the keys of its records, and its
    pointers are valid. *)
Record tab_ok t : Prop := {
  tab_map : @hashmap_ok _ (cell_keys (cells t)) (contents t);
  tab_cells : Forall (fun p => is_Some (cells t !! p)) (ptrs t)
}.

(** A map is well-formed for other keys that agree on its items. *)
Lemma hashmap_ok_ext h1 h2 map :
  (forall p, p ∈ ptr <$> items map -> tkey_of <$> h1 !! p = tkey_of <$> h2 !! p) ->
  @hashmap_ok _ (cell_keys h1) map -> @hashmap_ok _ (cell_keys h2) map.
Proof.
  intros Hext [->|[[Hs Hr He Hk Hc] Hload]]; [by left|]. right. split; [|done]. split; [done|done| | |done].
  - apply Forall_forall. intros e Hin. pose proof (proj1 (Forall_forall _ _) He e Hin) as [Hne Hh].
    split; [done|]. rewrite Hh. unfold ekey. cbn. rewrite Hext; [done|]. by apply list_elem_of_fmap_2.
  - replace (@ekey _ (cell_keys h2) <$> items map) with (@ekey _ (cell_keys h1) <$> items map); [done|].
    apply list_fmap_ext. intros i e Hi. unfold ekey. cbn. apply Hext.
    apply list_elem_of_fmap_2. by eapply list_elem_of_lookup_2.
Qed.

(** A lookup compares the key with items only. *)
Lemma search_loop_cmp_ext cmp1 cmp2 n map k hh i p oi :
  shape map -> (forall e, e ∈ items map -> cmp1 k (ptr e) = cmp2 k (ptr e)) -> 0 <= i < msize map ->
  search_loop cmp1 n map k hh (msize map ⊟ 1) i p oi = search_loop cmp2 n map k hh (msize map ⊟ 1) i p oi.
Proof.
  intros Hs Hcmp. pose proof (shape_bounds _ Hs) as Hb.
  revert i p. induction n as [|n IH]; intros i p Hi; [done|]. cbn [search_loop].
  destruct (bit_set (item_bitmap map) i) eqn:Hbit; cbn [negb]; [|done].
  rewrite Hcmp.
  - case_match; [done|]. case_match; [done|]. apply IH.
    rewrite mask_mod by done. apply Z.mod_pos_bound. lia.
  - apply elem_of_items. exists i. unfold slot. by rewrite Hbit.
Qed.

Lemma get_cmp_ext cmp1 cmp2 map k hh :
  (map = mk_hashmap 0 0 [] [] \/ shape map) ->
  (forall e, e ∈ items map -> cmp1 k (ptr e) = cmp2 k (ptr e)) ->
  ponyint_hashmap_get cmp1 map k hh = ponyint_hashmap_get cmp2 map k hh.
Proof.
  intros [->|Hs] Hcmp; [done|]. unfold ponyint_hashmap_get, search. case_match; [done|].
  rewrite (search_loop_cmp_ext cmp1 cmp2); [done|done|done|].
  pose proof (shape_bounds _ Hs). rewrite mask_mod by done. apply Z.mod_pos_bound. lia.
Qed.

Lemma ok_shape `{HK : HashKeys cmp} map : hashmap_ok map -> map = mk_hashmap 0 0 [] [] \/ shape map.
Proof. intros [->|[Ht _]]; [by left|right; apply Ht]. Qed.

Lemma elem_of_ptrs t p : tab_ok t -> p ∈ ptrs t -> exists x, cells t !! p = Some x /\ p <> NULL.
Proof.
  intros [Hm Hc] Hp. destruct (proj1 (Forall_forall _ _) Hc p Hp) as [x Hx]. exists x. split; [done|].
  apply list_elem_of_fmap in Hp as (e & -> & He). destruct Hm as [Hm|[Ht _]].
  - unfold ptrs in *. rewrite Hm, unallocated_items in He. by apply elem_of_nil in He.
  - apply (proj1 (Forall_forall _ _) (@table_entries _ (cell_keys (cells t)) _ Ht) e He).
Qed.

Lemma elem_of_elems t x : x ∈ elems t <-> exists p, p ∈ ptrs t /\ cells t !! p = Some x.
Proof. unfold elems. apply list_elem_of_omap. Qed.

(** The keys of the items are the keys of the records. *)
Lemma keys_elems t :
  tab_ok t -> @ekey _ (cell_keys (cells t)) <$> items (contents t) = Some <$> (tkey_of <$> elems t).
Proof.
  intros Hok. pose proof (tab_cells _ Hok) as Hc. unfold elems, ptrs in *.
  induction (items (contents t)) as [|e l IH]; [done|]. cbn in *.
  apply Forall_cons in Hc as [[x Hx] Hc]. unfold ekey. cbn. rewrite Hx. cbn. f_equal. by apply IH.
Qed.

Lemma elems_nodup t : tab_ok t -> NoDup (tkey_of <$> elems t).
Proof.
  intros Hok. apply (NoDup_fmap_1 Some). rewrite <- keys_elems by done.
  destruct (tab_map _ Hok) as [->|[Ht _]]; [rewrite unallocated_items; by constructor|].
  apply (@table_keys _ (cell_keys (cells t)) _ Ht).
Qed.

Lemma elems_length t : tab_ok t -> length (elems t) = length (items (contents t)).
Proof. intros Hok. by rewrite <- (length_fmap tkey_of), <- (length_fmap Some), <- keys_elems, length_fmap. Qed.

Lemma ptrs_nodup t : tab_ok t -> NoDup (ptrs t).
Proof.
  intros Hok. pose proof (elems_nodup _ Hok) as Hnd. pose proof (tab_cells _ Hok) as Hc.
  unfold elems in Hnd. induction (ptrs t) as [|p l IH]; [by constructor|].
  apply Forall_cons in Hc as [[x Hx] Hc]. cbn in Hnd. rewrite Hx in Hnd. cbn in Hnd.
  apply NoDup_cons in Hnd as [Hn Hnd]. constructor; [|by apply IH]. intros Hp. apply Hn.
  apply list_elem_of_fmap. exists x. split; [done|]. apply list_elem_of_omap. eauto.
Qed.

(** What a lookup finds. *)
Inductive get_spec t (k : tkey) : Z * option Z -> Prop :=
| get_some p x i :
    p ∈ ptrs t -> cells t !! p = Some x -> tkey_of x = k -> p <> NULL -> get_spec t k (p, Some i)
| get_none pos : k ∉ tkey_of <$> elems t -> get_spec t k (NULL, pos).

(** The memory of a lookup: the cells and the record of the caller. *)
Lemma with_key_ok t key :
  tab_ok t -> @hashmap_ok _ (cell_keys (<[new_addr (cells t) := key]> (cells t))) (contents t).
Proof.
  intros Hok. apply (hashmap_ok_ext (cells t)); [|apply Hok].
  intros p Hp. destruct (elem_of_ptrs t p Hok Hp) as (x & Hx & _).
  rewrite lookup_insert_ne; [done|]. intros <-. by rewrite (proj1 (new_addr_fresh _)) in Hx.
Qed.

Lemma with_key_keys t key :
  tab_ok t ->
  @ekey _ (cell_keys (<[new_addr (cells t) := key]> (cells t))) <$> items (contents t) =
  Some <$> (tkey_of <$> elems t).
Proof.
  intros Hok. rewrite <- keys_elems by done. apply list_fmap_ext. intros i e Hi.
  unfold ekey. cbn. destruct (elem_of_ptrs t (ptr e) Hok) as (x & Hx & _).
  { apply list_elem_of_fmap_2. by eapply list_elem_of_lookup_2. }
  rewrite lookup_insert_ne; [done|]. intros E.
  pose proof (proj1 (new_addr_fresh (cells t))) as Hf. by rewrite E, Hx in Hf.
Qed.

Lemma tab_get_spec t key : tab_ok t -> get_spec t (tkey_of key) (tab_get t key).
Proof.
  intros Hok. unfold tab_get. pose proof (with_key_ok t key Hok) as Hm.
  pose proof (with_key_keys t key Hok) as Hkeys. set (k := new_addr (cells t)) in *.
  set (h := <[k := key]> (cells t)) in *.
  assert (h !! k = Some key) as Hk by apply lookup_insert_eq.
  pose proof (@get_map _ (cell_keys h) (contents t) k Hm) as Hget. cbn in Hget. rewrite Hk in Hget.
  cbn in Hget. rewrite <- elem_hash_key in Hget. destruct Hget as [i e Hi He Hek Hne|pos Hn].
  - assert (ptr e ∈ ptrs t) as Hp by (apply list_elem_of_fmap_2, elem_of_items; eauto).
    destruct (elem_of_ptrs t _ Hok Hp) as (x & Hx & _).
    assert (h !! ptr e = Some x) as Hx'.
    { unfold h. rewrite lookup_insert_ne; [done|]. intros E.
      pose proof (proj1 (new_addr_fresh (cells t))) as Hf. fold k in Hf. by rewrite E, Hx in Hf. }
    unfold ekey in Hek. cbn in Hek. rewrite Hx' in Hek. injection Hek as Hek. by eapply get_some.
  - apply get_none. intros Hin. apply Hn. rewrite Hkeys. by apply list_elem_of_fmap_2.
Qed.

Lemma elems_cells t t' :
  ptrs t' = ptrs t -> (forall p, p ∈ ptrs t -> cells t' !! p = cells t !! p) -> elems t' = elems t.
Proof.
  intros Hp Hc. unfold elems. rewrite Hp. clear Hp. induction (ptrs t) as [|p l IH]; [done|]. cbn.
  rewrite Hc by left. rewrite IH by (intros; apply Hc; by right). done.
Qed.

(** Records may be changed in place as long as their keys stay. *)
Lemma tab_ok_update t h :
  tab_ok t -> (forall p, p ∈ ptrs t -> (tkey_of <$> h !! p) = (tkey_of <$> cells t !! p)) ->
  tab_ok (mk_tab (contents t) h).
Proof.
  intros Hok Hh. split.
  - eapply hashmap_ok_ext; [|apply Hok]. intros p Hp. symmetry. by apply Hh.
  - apply Forall_forall. intros p Hp. cbn in *. destruct (elem_of_ptrs t p Hok Hp) as (x & Hx & _).
    specialize (Hh p Hp). rewrite Hx in Hh. destruct (h !! p); [by eexists|done].
Qed.

(** ** Iteration *)

Lemma each_loop_spec {S} (body : Z -> S -> outcome (bool * S)) fuel map i s :
  shape map -> Forall (fun e => ptr e <> NULL) (items map) -> count map <> 0 ->
  0 <= i ⊞ 1 <= msize map -> 0 <= i -> msize map - (i ⊞ 1) < Z.of_nat fuel ->
  each_loop fuel map i body s = fold_until body (ptr <$> items_between map (i ⊞ 1) (msize map)) s.
Proof.
  intros Hs Hne Hcnt. revert i s. pose proof (shape_bounds _ Hs) as Hb.
  induction fuel as [|fuel IH]; intros i s Hi Hi0 Hf; [lia|]. cbn [each_loop].
  destruct (next_spec map Hs i (count map) Hcnt Hi) as [j e Hj He Hnone|Hnone].
  - assert (ptr e <> NULL) as Hp.
    { apply (proj1 (Forall_forall _ _) Hne e). apply elem_of_items. exists j. split; [lia|done]. }
    rewrite (proj2 (Z.eqb_neq (ptr e) NULL)) by done. cbn [mbind outcome_bind].
    rewrite (proj2 (Z.eqb_neq (ptr e) NULL)) by done.
    assert (j ⊞ 1 = j + 1) as Hjn by (unfold add64; apply u64_id; unfold is_u64; lia).
    rewrite (items_between_split map (i ⊞ 1) (j + 1) (msize map)) by lia.
    rewrite (items_between_first map (i ⊞ 1) j e) by (lia || done). cbn [fmap list_fmap app fold_until].
    destruct (body (ptr e) s) as [[[] s']| | |]; cbn [mbind outcome_bind]; try done.
    rewrite IH by lia. by rewrite Hjn.
  - cbn. by rewrite items_between_none by done.
Qed.

(** The loop over a table visits its records once each, in the order of the buckets. *)
Lemma tab_each_spec {S} t (body : Z -> S -> outcome (bool * S)) s :
  tab_ok t -> tab_each t body s = fold_until body (ptrs t) s.
Proof.
  intros Hok. unfold tab_each, ptrs. pose proof (tab_map _ Hok) as [Hm|[Ht Hload]].
  { rewrite Hm. cbn [msize Z.to_nat each_loop]. by rewrite unallocated_items. }
  pose proof (shape_bounds _ (@table_shape _ (cell_keys _) _ Ht)) as Hb.
  destruct (decide (count (contents t) = 0)) as [H0'|H0'].
  { rewrite (@table_empty _ (cell_keys _) _ Ht H0'). cbn [each_loop].
    unfold ponyint_hashmap_next. by rewrite H0'. }
  assert (HASHMAP_BEGIN ⊞ 1 = 0) as Hbegin by reflexivity.
  rewrite each_loop_spec; rewrite ?Hbegin; [done|apply Ht| |done|lia|done|lia].
  eapply Forall_impl; [apply (@table_entries _ (cell_keys _) _ Ht)|]. by intros e [? _].
Qed.

(** ** Insertion *)

Lemma cmpf_ext h1 h2 a b :
  (forall p, tkey_of <$> h1 !! p = tkey_of <$> h2 !! p) -> cmpf h1 a b = cmpf h2 a b.
Proof.
  intros Hext. unfold cmpf. pose proof (Hext a) as Ha. pose proof (Hext b) as Hb.
  destruct (h1 !! a), (h2 !! a), (h1 !! b), (h2 !! b); cbn in *; try done.
  rewrite !elem_cmp_key. by injection Ha as ->; injection Hb as ->.
Qed.

(** Inserting where the lookup of the key ended is the same as [tab_put]. *)
Lemma tab_putindex_put fresh_buckets t key x pos :
  tab_ok t -> tkey_of x = tkey_of key -> tab_get t key = (NULL, pos) ->
  tab_putindex fresh_buckets (fst (tab_alloc t x)) (snd (tab_alloc t x)) (default HASHMAP_UNKNOWN pos) =
  ('(t', _) ← tab_put fresh_buckets (fst (tab_alloc t x)) (snd (tab_alloc t x)); Ret t').
Proof.
  intros Hok Hkey Hget. unfold tab_get in Hget. pose proof (with_key_ok t x Hok) as Hm.
  unfold tab_alloc, tab_putindex, tab_put. cbn [fst snd cells contents]. set (k := new_addr (cells t)) in *.
  rewrite lookup_insert_eq. set (h := <[k := x]> (cells t)) in *.
  assert (h !! k = Some x) as Hk by apply lookup_insert_eq.
  assert (forall p, tkey_of <$> <[k := key]> (cells t) !! p = tkey_of <$> h !! p) as Hext.
  { intros p. unfold h. destruct (decide (p = k)) as [->|]; [|by rewrite !lookup_insert_ne].
    rewrite !lookup_insert_eq. cbn. by rewrite Hkey. }
  rewrite (get_cmp_ext _ (cmpf h)) in Hget;
    [|by eapply (@ok_shape _ (cell_keys h))|intros e He; by apply cmpf_ext].
  pose proof (@putindex_absent _ (cell_keys h) fresh_buckets (contents t) k k pos Hm eq_refl) as Hput.
  cbn [hash_of key_of cell_keys] in Hput. rewrite Hk in Hput. cbn [fmap option_fmap option_map from_option] in Hput.
  rewrite Hkey, <- elem_hash_key in Hput.
  replace (elem_hash x) with (elem_hash key) by (by rewrite !elem_hash_key, Hkey).
  rewrite (Hput Hget).
  by destruct (ponyint_hashmap_put (cmpf h) fresh_buckets (contents t) k (elem_hash key)) as [[]| | |].
Qed.

(** A record with a new key. *)
Lemma tab_put_spec fresh_buckets t x :
  (forall n, length (fresh_buckets n) = Z.to_nat n) ->
  tab_ok t -> msize (contents t) <= 2 ^ 57 -> tkey_of x ∉ tkey_of <$> elems t ->
  exists t', tab_put fresh_buckets (fst (tab_alloc t x)) (snd (tab_alloc t x)) = Ret (t', NULL) /\
    tab_ok t' /\ cells t' = <[new_addr (cells t) := x]> (cells t) /\
    ptrs t' ≡ₚ new_addr (cells t) :: ptrs t /\ elems t' ≡ₚ x :: elems t /\
    msize (contents t') <= Z.max (msize (contents t)) (16 * (count (contents t) + 1)).
Proof.
  intros Hfresh Hok Hle Habs. pose proof (with_key_ok t x Hok) as Hm. pose proof (with_key_keys t x Hok) as Hkeys.
  destruct (new_addr_fresh (cells t)) as [Hf Hnull].
  unfold tab_alloc, tab_put. cbn [fst snd cells contents]. set (k := new_addr (cells t)) in *.
  rewrite lookup_insert_eq. set (h := <[k := x]> (cells t)) in *.
  assert (h !! k = Some x) as Hk by apply lookup_insert_eq.
  destruct (@put_map _ (cell_keys h) fresh_buckets Hfresh (contents t) k Hm Hle Hnull)
    as (m' & old & Hrun & Hok' & Hres & Hsize).
  cbn [hash_of key_of cell_keys] in Hrun, Hres. rewrite Hk in Hrun, Hres.
  cbn [fmap option_fmap option_map from_option] in Hrun, Hres.
  rewrite <- elem_hash_key in Hrun, Hres. rewrite Hrun. cbn [mbind outcome_bind].
  assert (old = NULL /\ items m' ≡ₚ mk_entry k (elem_hash x) :: items (contents t)) as [-> Hperm].
  { destruct Hres as [(? & _ & ?)|(e0 & rest & _ & Hek & H1 & _)]; [done|]. exfalso. apply Habs.
    apply (list_elem_of_fmap_inj_2 Some). rewrite <- Hkeys.
    replace (Some (tkey_of x)) with (@ekey _ (cell_keys h) e0); [apply list_elem_of_fmap_2; rewrite H1; left|].
    rewrite Hek. unfold ekey. cbn. by rewrite Hk. }
  assert (forall p, p ∈ ptrs t -> h !! p = cells t !! p) as Hsame.
  { intros p Hp. unfold h. rewrite lookup_insert_ne; [done|]. intros <-.
    destruct (elem_of_ptrs t k Hok Hp) as (y & Hy & _). by rewrite Hf in Hy. }
  assert (ptrs (mk_tab m' h) ≡ₚ k :: ptrs t) as Hptrs by (unfold ptrs; cbn; by rewrite Hperm).
  eexists. split; [done|]. split_and!; [split; [done|]|done|done| |done].
  - rewrite Hptrs. constructor; [by eexists|]. apply Forall_forall. intros p Hp. cbn. rewrite Hsame by done.
    destruct (elem_of_ptrs t p Hok Hp) as (y & Hy & _). by eexists.
  - rewrite <- (elems_cells t (mk_tab (contents t) h)) by done.
    unfold elems. rewrite Hptrs. cbn. by rewrite Hk.
Qed.

(** A new record, inserted where the lookup of its key ended. *)
Lemma tab_add_spec fresh_buckets t key x pos :
  (forall n, length (fresh_buckets n) = Z.to_nat n) ->
  tab_ok t -> msize (contents t) <= 2 ^ 57 -> tkey_of x = tkey_of key -> tab_get t key = (NULL, pos) ->
  exists t',
    tab_putindex fresh_buckets (fst (tab_alloc t x)) (snd (tab_alloc t x)) (default HASHMAP_UNKNOWN pos) = Ret t' /\
    tab_ok t' /\ cells t' = <[new_addr (cells t) := x]> (cells t) /\
    ptrs t' ≡ₚ new_addr (cells t) :: ptrs t /\ elems t' ≡ₚ x :: elems t /\
    msize (contents t') <= Z.max (msize (contents t)) (16 * (count (contents t) + 1)).
Proof.
  intros Hfresh Hok Hle Hkey Hget. rewrite (tab_putindex_put fresh_buckets t key x pos Hok Hkey Hget).
  destruct (tab_put_spec fresh_buckets t x Hfresh Hok Hle) as (t' & -> & Hspec); [|by exists t'].
  pose proof (tab_get_spec t key Hok) as Hs. rewrite Hget in Hs. rewrite Hkey. by inversion Hs.
Qed.

(** ** Removal *)

Lemma tab_remove_spec t key :
  tab_ok t ->
  exists t' old, tab_remove t key = Ret (t', old) /\ tab_ok t' /\ cells t' = cells t /\
    ((old = NULL /\ (tkey_of key ∉ tkey_of <$> elems t) /\ t' = t) \/
     (exists x : T, old <> NULL /\ cells t !! old = Some x /\ tkey_of x = tkey_of key /\
        ptrs t ≡ₚ old :: ptrs t' /\ elems t ≡ₚ x :: elems t')).
Proof.
  intros Hok. unfold tab_remove. pose proof (with_key_ok t key Hok) as Hm.
  pose proof (with_key_keys t key Hok) as Hkeys.
  destruct (new_addr_fresh (cells t)) as [Hf Hnull]. set (k := new_addr (cells t)) in *.
  set (h := <[k := key]> (cells t)) in *.
  assert (h !! k = Some key) as Hk by apply lookup_insert_eq.
  assert (forall p, p ∈ ptrs t -> h !! p = cells t !! p) as Hsame.
  { intros p Hp. unfold h. rewrite lookup_insert_ne; [done|]. intros <-.
    destruct (elem_of_ptrs t k Hok Hp) as (y & Hy & _). by rewrite Hf in Hy. }
  destruct (@remove_map _ (cell_keys h) (contents t) k Hm) as (m' & old & Hrun & Hok' & Hres).
  cbn in Hrun, Hres. rewrite Hk in Hrun, Hres. cbn in Hrun, Hres. rewrite <- elem_hash_key in Hrun.
  rewrite Hrun. cbn [mbind outcome_bind]. exists (mk_tab m' (cells t)), old. split; [done|].
  destruct Hres as [(-> & Hn & ->)|(e0 & -> & Hek & Hp)].
  { split; [by destruct t|]. split; [done|]. left. split; [done|]. split; [|by destruct t].
    intros Hin. apply Hn. rewrite Hkeys. by apply list_elem_of_fmap_2. }
  assert (ptrs t ≡ₚ ptr e0 :: ptrs (mk_tab m' (cells t))) as Hptrs by (unfold ptrs; cbn; by rewrite Hp).
  destruct (elem_of_ptrs t (ptr e0) Hok) as (x & Hx & Hne); [rewrite Hptrs; left|].
  split; [split|split; [done|right]].
  - eapply hashmap_ok_ext; [|exact Hok']. intros p Hpin. rewrite Hsame; [done|]. rewrite Hptrs. by right.
  - pose proof (tab_cells _ Hok) as Hall. rewrite Hptrs in Hall. by apply Forall_cons in Hall as [_ Hall].
  - exists x. split_and!; [done|done| |done|].
    + unfold ekey in Hek. cbn in Hek. rewrite Hsame, Hx in Hek by (rewrite Hptrs; left). by injection Hek.
    + unfold elems. rewrite Hptrs. cbn. by rewrite Hx.
Qed.

Lemma tab_destroy_spec t :
  tab_ok t -> tab_destroy t = Ret (mk_tab (mk_hashmap 0 0 [] []) (foldr delete (cells t) (ptrs t))).
Proof. intros Hok. unfold tab_destroy. by rewrite (@destroy_map _ (cell_keys (cells t)) _ true (tab_map _ Hok)). Qed.

Lemma tab_init_ok fresh_buckets size :
  (forall n, length (fresh_buckets n) = Z.to_nat n) -> 0 <= size <= 2 ^ 50 ->
  let t : tab_t T := tab_init fresh_buckets size in
  tab_ok t /\ elems t = [] /\ ptrs t = [] /\ count (contents t) = 0 /\ msize (contents t) <= 2 ^ 52.
Proof.
  intros Hfresh Hsize.
  assert (exists k, 3 <= k <= 52 /\ ponyint_hashmap_init fresh_buckets size = fresh_map fresh_buckets (2 ^ k))
    as (k & Hk & Hinit).
  { unfold ponyint_hashmap_init, MIN_HASHMAP_SIZE.
    assert (size <<! 1 = 2 * size) as ->
      by (unfold shl64; rewrite Z.shiftl_mul_pow2, u64_id by (unfold is_u64; lia); lia).
    destruct (Z.ltb_spec (2 * size) 8); [by exists 3|].
    destruct (next_pow2_least (2 * size)) as (k & Hk & -> & Hle & Hleast); [lia|].
    exists k. split; [|done]. split; [apply (Z.pow_le_mono_r_iff 2); lia|].
    pose proof (Hleast 51). lia. }
  cbv zeta. unfold elems, ptrs, tab_init. rewrite Hinit. cbn [contents cells].
  rewrite fresh_items. split_and!; [|done..|cbn; apply Z.pow_le_mono_r; lia].
  split; cbn [contents cells]; [|unfold ptrs; cbn [contents]; by rewrite fresh_items].
  right. split; [apply fresh_table; [done|lia]|]. cbn. apply Z.pow_nonneg. lia.
Qed.

(** Two lookups of the same key find the same pointer. *)
Lemma get_spec_unique t k r r' : tab_ok t -> get_spec t k r -> get_spec t k r' -> fst r = fst r'.
Proof.
  intros Hok [p x i Hp Hx Hk Hn|pos Hn] [p' x' i' Hp' Hx' Hk' Hn'|pos' Hn']; cbn; [| | |done].
  - pose proof (elems_nodup t Hok) as Hnd. pose proof (tab_cells _ Hok) as Hall. unfold elems in Hnd.
    induction (ptrs t) as [|q l IH]; [by apply elem_of_nil in Hp|].
    apply Forall_cons in Hall as [[y Hy] Hall]. cbn in Hnd. rewrite Hy in Hnd. cbn in Hnd.
    apply NoDup_cons in Hnd as [Hq Hnd].
    assert (forall p z, p ∈ l -> cells t !! p = Some z -> tkey_of z <> tkey_of y) as Hl.
    { intros p0 z H1 H2 E. apply Hq. rewrite <- E. apply list_elem_of_fmap_2, list_elem_of_omap. eauto. }
    apply elem_of_cons in Hp as [->|Hp], Hp' as [->|Hp']; [done| | |by apply IH].
    + rewrite Hy in Hx. injection Hx as ->. destruct (Hl p' x' Hp' Hx'). congruence.
    + rewrite Hy in Hx'. injection Hx' as ->. destruct (Hl p x Hp Hx). congruence.
  - destruct Hn'. rewrite <- Hk. apply list_elem_of_fmap_2, elem_of_elems. eauto.
  - destruct Hn. rewrite <- Hk'. apply list_elem_of_fmap_2, elem_of_elems. eauto.
Qed.
End spec.

Section lookups.
Context {T : Type} `{TabKeys T}.
Implicit Types t : tab_t T.

(** Lookups see the keys of the records and their addresses only. *)
Lemma get_spec_perm t t' k r :
  tab_ok t' -> (forall p x, p ∈ ptrs t -> cells t !! p = Some x -> tkey_of x = k ->
                  p ∈ ptrs t' /\ cells t' !! p = Some x) ->
  (k ∈ tkey_of <$> elems t' -> k ∈ tkey_of <$> elems t) -> get_spec t k r ->
  forall r', get_spec t' k r' -> fst r' = fst r.
Proof.
  intros Hok Hin Hback Hr r' Hr'. eapply (get_spec_unique t' k); [done|done|].
  destruct Hr as [p x i Hp Hx Hk Hn|pos Hn].
  - destruct (Hin p x Hp Hx Hk). by eapply get_some.
  - apply get_none. auto.
Qed.

Lemma lookup_added t t' p x key :
  tab_ok t -> tab_ok t' -> tkey_of x ∉ tkey_of <$> elems t -> cells t !! p = None ->
  cells t' = <[p := x]> (cells t) -> ptrs t' ≡ₚ p :: ptrs t -> elems t' ≡ₚ x :: elems t -> p <> NULL ->
  fst (tab_get t' key) = if decide (tkey_of key = tkey_of x) then p else fst (tab_get t key).
Proof.
  intros Hok Hok' Hnew Hp Hc Hptrs Helems Hnull. pose proof (tab_get_spec t' key Hok') as Hr.
  destruct (decide (tkey_of key = tkey_of x)) as [E|E].
  - eapply (get_spec_unique t' _ _ (p, Some 0)); [done|done|]. eapply get_some; [rewrite Hptrs; left| |done|done].
    rewrite Hc. apply lookup_insert_eq.
  - eapply get_spec_perm; [exact Hok'| | |by apply tab_get_spec|done].
    + intros q y Hq Hy _. split; [rewrite Hptrs; by right|]. rewrite Hc, lookup_insert_ne; [done|].
      intros <-. by rewrite Hp in Hy.
    + rewrite Helems. cbn. intros [|]%elem_of_cons; [done|done].
Qed.

Lemma lookup_removed t t' old x key :
  tab_ok t -> tab_ok t' -> cells t' = cells t -> cells t !! old = Some x ->
  ptrs t ≡ₚ old :: ptrs t' -> elems t ≡ₚ x :: elems t' ->
  fst (tab_get t' key) = if decide (tkey_of key = tkey_of x) then NULL else fst (tab_get t key).
Proof.
  intros Hok Hok' Hc Hx Hptrs Helems. pose proof (tab_get_spec t' key Hok') as Hr.
  pose proof (elems_nodup t Hok) as Hnd. rewrite Helems in Hnd. cbn in Hnd. apply NoDup_cons in Hnd as [Hn _].
  destruct (decide (tkey_of key = tkey_of x)) as [E|E].
  - eapply (get_spec_unique t' _ _ (NULL, None)); [done|done|]. apply get_none. by rewrite E.
  - eapply get_spec_perm; [exact Hok'| | |by apply tab_get_spec|done].
    + intros q y Hq Hy Hk. rewrite Hptrs in Hq. apply elem_of_cons in Hq as [->|Hq]; [|by rewrite Hc].
      rewrite Hx in Hy. injection Hy as ->. by destruct E.
    + rewrite Helems. cbn. by right.
Qed.
End lookups.

(** ** Tables as finite maps

    The users of a table reason about [as_map], from the keys to the records. *)
Section as_map.
Context {T : Type} `{TabKeys T} `{!Countable tkey}.
Implicit Types t : tab_t T.

Definition as_map t : gmap tkey T := list_to_map ((fun x => (tkey_of x, x)) <$> elems t).

Lemma as_map_lookup t k x : tab_ok t -> as_map t !! k = Some x <-> x ∈ elems t /\ tkey_of x = k.
Proof.
  intros Hok. unfold as_map. rewrite <- elem_of_list_to_map.
  - rewrite list_elem_of_fmap. split; [by intros (y & [= -> ->] & Hy)|]. intros [Hx <-]. by exists x.
  - rewrite <- list_fmap_compose. apply (elems_nodup t Hok).
Qed.

Lemma as_map_None t k : tab_ok t -> as_map t !! k = None <-> k ∉ tkey_of <$> elems t.
Proof.
  intros Hok. rewrite eq_None_not_Some. split; intros Hn; contradict Hn.
  - apply list_elem_of_fmap in Hn as (x & -> & Hx). exists x. by apply as_map_lookup.
  - destruct Hn as [x Hx]. apply as_map_lookup in Hx as [Hx <-]; [|done]. by apply list_elem_of_fmap_2.
Qed.

(** Two tables have the same map if they have the same records. *)
Lemma as_map_ext t m :
  tab_ok t -> (forall k x, m !! k = Some x <-> x ∈ elems t /\ tkey_of x = k) -> as_map t = m.
Proof.
  intros Hok Hm. apply map_eq. intros k. apply option_eq. intros x. by rewrite as_map_lookup, Hm.
Qed.

Lemma as_map_init fresh_buckets size : as_map (tab_init fresh_buckets size) = ∅.
Proof.
  unfold as_map, elems, ptrs, tab_init. cbn [contents].
  assert (items (ponyint_hashmap_init fresh_buckets size) = []) as ->; [|done].
  unfold ponyint_hashmap_init. by rewrite fresh_items.
Qed.

(** What a lookup finds, in the map. *)
Inductive finds t (k : tkey) : Z * option Z -> Prop :=
| finds_some p x i :
    p <> NULL -> p ∈ ptrs t -> cells t !! p = Some x -> tkey_of x = k -> as_map t !! k = Some x ->
    finds t k (p, Some i)
| finds_none pos :
    as_map t !! k = None -> (pos = None -> count (contents t) = 0) -> finds t k (NULL, pos).

Lemma tab_get_finds t key : tab_ok t -> finds t (tkey_of key) (tab_get t key).
Proof.
  intros Hok. pose proof (tab_get_spec t key Hok) as Hspec.
  assert (snd (tab_get t key) = None -> count (contents t) = 0) as Hpos.
  { unfold tab_get, ponyint_hashmap_get. by destruct (Z.eqb_spec (count (contents t)) 0). }
  destruct Hspec as [p x i Hp Hx Hk Hn|pos Hn].
  - eapply finds_some; try done. apply as_map_lookup; [done|]. split; [|done]. apply elem_of_elems. eauto.
  - apply finds_none; [by apply as_map_None|done].
Qed.

(** A table with room for [n] more records. *)
Record has_room (n : Z) t : Prop := {
  room_ok : tab_ok t;
  room_msize : msize (contents t) <= 2 ^ 57;
  room_count : count (contents t) + n <= 2 ^ 50
}.

Lemma has_room_mono n m t : has_room n t -> m <= n -> has_room m t.
Proof. intros [] ?. split; [done|done|lia]. Qed.

Lemma tab_count t : tab_ok t -> count (contents t) = Z.of_nat (length (ptrs t)).
Proof.
  intros Hok. unfold ptrs. rewrite length_fmap. destruct (tab_map t Hok) as [->|[Ht _]].
  - by rewrite unallocated_items.
  - apply (@table_count _ (cell_keys (cells t)) _ Ht).
Qed.

(** A table with one more record. *)
Lemma added_map n t t' x :
  has_room n t -> tab_ok t' -> elems t' ≡ₚ x :: elems t -> length (ptrs t') = S (length (ptrs t)) ->
  msize (contents t') <= Z.max (msize (contents t)) (16 * (count (contents t) + 1)) -> 0 < n ->
  tkey_of x ∉ tkey_of <$> elems t ->
  has_room (n - 1) t' /\ as_map t' = <[tkey_of x := x]> (as_map t) /\ count (contents t') = count (contents t) + 1.
Proof.
  intros [Hok Hsize Hcnt] Hok' Helems Hptrs Hm Hn Hnew.
  assert (count (contents t') = count (contents t) + 1) as Hcount by (rewrite !tab_count by done; lia).
  split; [split; [done|lia|lia]|]. split; [|done].
  apply as_map_ext; [done|]. intros k y. rewrite Helems, elem_of_cons, lookup_insert_Some, as_map_lookup by done.
  split.
  - intros [[<- <-]|(Hne & Hy & Hk)]; [by split; [left|]|by split; [right|]].
  - intros [[->|Hy] <-]; [by left|right]. split; [|done]. intros Hk. apply Hnew.
    rewrite Hk. by apply list_elem_of_fmap_2.
Qed.

(** Inserting a new record. *)
Lemma tab_add_map fresh_buckets n t key x pos :
  (forall n, length (fresh_buckets n) = Z.to_nat n) ->
  has_room n t -> 0 < n -> tkey_of x = tkey_of key -> tab_get t key = (NULL, pos) ->
  exists t',
    tab_putindex fresh_buckets (fst (tab_alloc t x)) (snd (tab_alloc t x)) (default HASHMAP_UNKNOWN pos) = Ret t' /\
    has_room (n - 1) t' /\ as_map t' = <[tkey_of x := x]> (as_map t) /\ count (contents t') = count (contents t) + 1.
Proof.
  intros Hfresh Hroom Hn Hkey Hget. pose proof Hroom as [Hok Hsize _].
  destruct (tab_add_spec fresh_buckets t key x pos Hfresh Hok Hsize Hkey Hget)
    as (t' & Hrun & Hok' & Hc & Hptrs & Helems & Hm).
  exists t'. split; [done|]. apply (added_map n); try done; [by rewrite Hptrs|].
  pose proof (tab_get_spec t key Hok) as Hspec. rewrite Hget in Hspec. rewrite Hkey. by inversion Hspec.
Qed.

Lemma tab_put_map fresh_buckets n t x :
  (forall n, length (fresh_buckets n) = Z.to_nat n) ->
  has_room n t -> 0 < n -> as_map t !! tkey_of x = None ->
  exists t', tab_put fresh_buckets (fst (tab_alloc t x)) (snd (tab_alloc t x)) = Ret (t', NULL) /\
    has_room (n - 1) t' /\ as_map t' = <[tkey_of x := x]> (as_map t) /\ count (contents t') = count (contents t) + 1.
Proof.
  intros Hfresh Hroom Hn Hnew. pose proof Hroom as [Hok Hsize _]. apply as_map_None in Hnew; [|done].
  destruct (tab_put_spec fresh_buckets t x Hfresh Hok Hsize Hnew) as (t' & Hrun & Hok' & Hc & Hptrs & Helems & Hm).
  exists t'. split; [done|]. apply (added_map n); try done. by rewrite Hptrs.
Qed.

(** Changing a record in place. *)
Lemma tab_update_map n t p x y :
  has_room n t -> p ∈ ptrs t -> cells t !! p = Some x -> tkey_of y = tkey_of x ->
  let t' := mk_tab (contents t) (<[p := y]> (cells t)) in
  has_room n t' /\ as_map t' = <[tkey_of x := y]> (as_map t).
Proof.
  intros [Hok Hsize Hcnt] Hp Hx Hk t'. assert (tab_ok t') as Hok'.
  { apply tab_ok_update; [done|]. intros q Hq. destruct (decide (q = p)) as [->|].
    - rewrite lookup_insert_eq, Hx. cbn. by rewrite Hk.
    - by rewrite lookup_insert_ne. }
  split; [by split|]. apply as_map_ext; [done|]. intros k z.
  rewrite elem_of_elems, lookup_insert_Some, as_map_lookup, elem_of_elems by done. cbn. split.
  - intros [[<- <-]|(Hne & (q & Hq & Hz) & Hkz)].
    + split; [|done]. exists p. by rewrite lookup_insert_eq.
    + split; [|done]. exists q. split; [done|]. rewrite lookup_insert_ne; [done|]. intros <-.
      rewrite Hx in Hz. injection Hz as <-. done.
  - intros [(q & Hq & Hz) <-]. apply lookup_insert_Some in Hz as [[<- <-]|[Hne Hz]]; [by left|right].
    split; [|split; [by exists q|done]]. intros Hxz. apply Hne.
    destruct (elem_of_ptrs t p Hok Hp) as (x1 & Hx1 & Hpn), (elem_of_ptrs t q Hok Hq) as (z1 & Hz1 & Hqn).
    apply (get_spec_unique t (tkey_of x) (p, Some 0) (q, Some 0) Hok); [by apply (get_some t _ p x)|].
    by apply (get_some t _ q z).
Qed.

(** A loop over a table that reads its records only. *)
Lemma fold_cells {S} (h : gmap Z T) l (f : T -> S -> outcome (bool * S)) s :
  Forall (fun p => is_Some (h !! p)) l ->
  fold_until (fun p s => match h !! p with Some x => f x s | None => Abort end) l s =
  fold_until f (omap (fun p => h !! p) l) s.
Proof.
  intros Hl. revert s. induction Hl as [|p l [x Hx] Hl IH]; intros s; [done|]. cbn. rewrite Hx. cbn.
  destruct (f x s) as [[[] s']| | |]; cbn; [done|apply IH|done..].
Qed.

Lemma each_elems {S} t (f : T -> S -> outcome (bool * S)) s :
  tab_ok t ->
  tab_each t (fun p s => match cells t !! p with Some x => f x s | None => Abort end) s = fold_until f (elems t) s.
Proof. intros Hok. rewrite tab_each_spec by done. apply fold_cells, Hok. Qed.
End as_map.

(** ** Properties *)

(** Records of a key and a value, for the witnesses. *)
#[export] Instance pair_elem : TabElem (Z * Z) :=
  {| elem_hash x := ponyint_hash_size (fst x); elem_cmp x y := fst x =? fst y |}.

#[export, program] Instance pair_keys : TabKeys (Z * Z) :=
  {| tkey := Z; tkey_of x := fst x; tkey_hash := ponyint_hash_size |}.
Next Obligation. done. Qed.
Next Obligation. intros x y. cbn. by destruct (Z.eqb_spec x.1 y.1), (bool_decide_reflect (x.1 = y.1)). Qed.

(** C24: a table is a finite map from keys to records.  Inserting a new record at the index
    at which the lookup of its key ended makes lookups of the key find the record; removing a
    key makes them find nothing; lookups of other keys find what they found before. *)
Theorem table_finite_map {T} `{TabKeys T} fresh_buckets (t : tab_t T) key x pos :
  (forall n, length (fresh_buckets n) = Z.to_nat n) ->
  tab_ok t -> msize (contents t) <= 2 ^ 57 -> tkey_of x = tkey_of key ->
  (tab_get t key = (NULL, pos) -> exists t',
     tab_putindex fresh_buckets (fst (tab_alloc t x)) (snd (tab_alloc t x)) (default HASHMAP_UNKNOWN pos) = Ret t' /\
     tab_ok t' /\ cells t' !! fst (tab_get t' key) = Some x /\
     forall k, tkey_of k <> tkey_of key -> fst (tab_get t' k) = fst (tab_get t k)) /\
  (exists t', tab_remove t key = Ret (t', fst (tab_get t key)) /\ tab_ok t' /\
     fst (tab_get t' key) = NULL /\
     forall k, tkey_of k <> tkey_of key -> fst (tab_get t' k) = fst (tab_get t k)).
Proof.
  intros Hfresh Hok Hle Hkey. split.
  - intros Hget. destruct (tab_add_spec fresh_buckets t key x pos Hfresh Hok Hle Hkey Hget)
      as (t' & Hrun & Hok' & Hc & Hptrs & Helems & _). exists t'. split; [done|]. split; [done|].
    destruct (new_addr_fresh (cells t)) as [Hf Hnull].
    assert (tkey_of x ∉ tkey_of <$> elems t) as Hnew.
    { rewrite Hkey. pose proof (tab_get_spec t key Hok) as Hspec. rewrite Hget in Hspec. by inversion Hspec. }
    pose proof (fun k => lookup_added t t' _ x k Hok Hok' Hnew Hf Hc Hptrs Helems Hnull) as Hl. split.
    + rewrite Hl, decide_True by done. rewrite Hc. apply lookup_insert_eq.
    + intros k Hk. rewrite Hl, decide_False by congruence. done.
  - destruct (tab_remove_spec t key Hok) as (t' & old & -> & Hok' & Hc & Hres).
    pose proof (tab_get_spec t key Hok) as Hspec. exists t'.
    destruct Hres as [(-> & Hn & ->)|(y & Hnull & Hy & Hky & Hptrs & Helems)].
    + rewrite (get_spec_unique t _ _ (NULL, None) Hok Hspec) by by apply get_none. done.
    + rewrite (get_spec_unique t _ _ (old, Some 0) Hok Hspec) by
        (eapply get_some; [rewrite Hptrs; left|done..]).
      pose proof (fun k => lookup_removed t t' old y k Hok Hok' Hc Hy Hptrs Helems) as Hl.
      split; [done|]. split; [done|]. split; [by rewrite Hl, decide_True|].
      intros k Hk. rewrite Hl, decide_False by congruence. done.
Qed.

(** Three pairs, made by insertions. *)
Definition add_pair (t : tab_t (Z * Z)) (x : Z * Z) : tab_t (Z * Z) :=
  match tab_get t x with
  | (p, pos) =>
      if p =? NULL then
        match tab_putindex null_buckets (fst (tab_alloc t x)) (snd (tab_alloc t x)) (default HASHMAP_UNKNOWN pos) with
        | Ret t => t
        | _ => t
        end
      else t
  end.

Lemma add_pair_ok t x : tab_ok t -> msize (contents t) <= 2 ^ 57 -> tab_ok (add_pair t x).
Proof.
  intros Hok Hle. unfold add_pair. destruct (tab_get t x) as [p pos] eqn:Hget.
  destruct (Z.eqb_spec p NULL) as [->|]; [|done].
  destruct (tab_add_spec null_buckets t x x pos null_buckets_length Hok Hle eq_refl Hget)
    as (t' & -> & Hok' & _). done.
Qed.

Definition sample_tab : tab_t (Z * Z) :=
  add_pair (add_pair (add_pair (tab_init null_buckets 4) (1, 10)) (2, 20)) (3, 30).

Lemma sample_tab_ok : tab_ok sample_tab.
Proof.
  unfold sample_tab.
  do 3 (apply add_pair_ok; [|apply Z.leb_le; vm_compute; reflexivity]).
  apply tab_init_ok; [exact null_buckets_length|lia].
Qed.

Lemma table_finite_map_witness :
  let t := sample_tab in
  tab_get t (4, 40) = (NULL, Some 1) /\
  (exists t', tab_putindex null_buckets (fst (tab_alloc t (4, 40))) (snd (tab_alloc t (4, 40))) 1 = Ret t' /\
     cells t' !! fst (tab_get t' (4, 40)) = Some (4, 40)) /\
  (exists t', tab_remove t (4, 40) = Ret (t', NULL) /\ tab_ok t').
Proof.
  intros t. assert (tab_get t (4, 40) = (NULL, Some 1)) as Hget by (vm_compute; reflexivity).
  destruct (table_finite_map null_buckets t (4, 40) (4, 40) (Some 1)) as [Hadd Hrem].
  - exact null_buckets_length.
  - exact sample_tab_ok.
  - apply Z.leb_le. vm_compute. reflexivity.
  - reflexivity.
  - split; [exact Hget|]. split.
    + destruct (Hadd Hget) as (t' & Hrun & _ & Hc & _). exists t'. split; [exact Hrun|exact Hc].
    + destruct Hrem as (t' & Hrun & Hok & _). exists t'. rewrite Hget in Hrun. split; [exact Hrun|exact Hok].
Defined.
