(* ===== verification/Paint.v ===== *)
(** * Vtable painting: [src/libponyc/reach/paint.c]

    The painter gives every mangled method name a colour, its index in the vtables of
    the types that use it.  Names with disjoint sets of types share a colour.  The
    reachable types and their methods are lists, in the order in which the hash tables
    of the reachability pass enumerate them; a name is the interned string. *)
From S2P Require Import Prelude Hash HashInv.
From stdpp Require Import strings.
Local Open Scope Z_scope.
Local Open Scope c_scope.

Definition UNASSIGNED_COLOUR : Z := u32 (-1).

(** ** The reachable types, as far as the painter sees them *)

Record reach_method_t := mk_method { mangled_name : string; vtable_index : Z }.

Record reach_method_name_t := mk_method_name { r_mangled : list reach_method_t }.

Record reach_type_t := mk_type {
  methods : list reach_method_name_t;
  bare_method : option reach_method_t;
  vtable_size : Z
}.

(** ** The painter *)

Record name_record_t := mk_name {
  name : string;
  colour : Z;
  typemap_size : Z;
  type_map : list Z
}.

Record colour_record_t := mk_colour { c_colour : Z; c_type_map : list Z }.

Record painter_t := mk_painter {
  names : list name_record_t;
  colours : list colour_record_t;
  p_typemap_size : Z;
  colour_count : Z
}.

(** What the painter asks of its table of names: an insertion adds the record, at a
    place in the order of enumeration that the table chooses. *)
Class NameTable := {
  name_records_put : list name_record_t -> name_record_t -> list name_record_t;
  name_records_put_perm l r : name_records_put l r ≡ₚ r :: l
}.

Definition set_names (p : painter_t) (l : list name_record_t) : painter_t :=
  mk_painter l (colours p) (p_typemap_size p) (colour_count p).

Section painter.
Context `{NameTable}.

(** The record a new name starts with, and the painter that holds it. *)
Definition add_name (p : painter_t) (nm : string) : painter_t :=
  set_names p (name_records_put (names p)
    (mk_name nm UNASSIGNED_COLOUR (p_typemap_size p)
       (replicate (Z.to_nat (p_typemap_size p)) 0))).

Definition add_colour (p : painter_t) : painter_t :=
  mk_painter (names p)
    (colours p ++ [mk_colour (colour_count p) (replicate (Z.to_nat (p_typemap_size p)) 0)])
    (p_typemap_size p) (u32 (colour_count p + 1)).

Definition find_name (p : painter_t) (nm : string) : option name_record_t :=
  snd <$> list_find (fun r => name r = nm) (names p).

(** A write through the record of a name. *)
Definition update_name (p : painter_t) (nm : string) (f : name_record_t -> name_record_t)
    : painter_t :=
  set_names p ((fun r => if decide (name r = nm) then f r else r) <$> names p).

Definition is_name_compatible (c : colour_record_t) (n : name_record_t) : bool :=
  forallb (fun i => Z.land (bitmap_word (c_type_map c) i) (bitmap_word (type_map n) i) =? 0)
    (seqZ 0 (typemap_size n)).

(** [colour->type_map[i] |= name->type_map[i]] for every word *)
Definition union_map (size : Z) (cm nm : list Z) : list Z :=
  foldl (fun m i => <[Z.to_nat i := Z.lor (bitmap_word m i) (bitmap_word nm i)]> m) cm (seqZ 0 size).

Definition assign_name_to_colour (c : colour_record_t) (n : name_record_t)
    : colour_record_t * name_record_t :=
  (mk_colour (c_colour c) (union_map (typemap_size n) (c_type_map c) (type_map n)),
   mk_name (name n) (c_colour c) (typemap_size n) (type_map n)).

(** *** Step 1 *)

Definition mark_type (typemap_index typemap_mask : Z) (n : name_record_t) : name_record_t :=
  mk_name (name n) (colour n) (typemap_size n)
    (<[Z.to_nat typemap_index :=
         Z.lor (bitmap_word (type_map n) typemap_index) typemap_mask]> (type_map n)).

Definition use_name (typemap_index typemap_mask : Z) (p : painter_t) (m : reach_method_t)
    : painter_t :=
  let nm := mangled_name m in
  let p := match find_name p nm with None => add_name p nm | Some _ => p end in
  update_name p nm (mark_type typemap_index typemap_mask).

Fixpoint find_names_loop (types : list reach_type_t) (p : painter_t)
    (typemap_index typemap_mask : Z) : outcome painter_t :=
  match types with
  | [] => Ret p
  | t :: types =>
      match bare_method t with
      | Some _ => find_names_loop types p typemap_index typemap_mask
      | None =>
          if negb (typemap_index <? p_typemap_size p) then Abort
          else
            let p := foldl (fun p n => foldl (use_name typemap_index typemap_mask) p (r_mangled n))
                       p (methods t) in
            let typemap_mask := typemap_mask <<! 1 in
            if typemap_mask =? 0 then find_names_loop types p (typemap_index ⊞ 1) 1
            else find_names_loop types p typemap_index typemap_mask
      end
  end.

Definition find_names_types_use (p : painter_t) (types : list reach_type_t) : outcome painter_t :=
  find_names_loop types p 0 1.

(** *** Step 3 *)

(** One name: the colours and the number of colours before and after, and the record. *)
Definition assign_name (p : painter_t) (n : name_record_t) : painter_t * name_record_t :=
  match list_find (fun c => is_name_compatible c n = true) (colours p) with
  | Some (i, c) =>
      let (c, n) := assign_name_to_colour c n in
      (mk_painter (names p) (<[i := c]> (colours p)) (p_typemap_size p) (colour_count p), n)
  | None =>
      let i := length (colours p) in
      let c := mk_colour (colour_count p) (replicate (Z.to_nat (p_typemap_size p)) 0) in
      let p := add_colour p in
      let (c, n) := assign_name_to_colour c n in
      (mk_painter (names p) (<[i := c]> (colours p)) (p_typemap_size p) (colour_count p), n)
  end.

(** The names still to enumerate are [l]; [done] have been assigned. *)
Fixpoint assign_loop (p : painter_t) (done l : list name_record_t) : painter_t :=
  match l with
  | [] => set_names p done
  | n :: l =>
      let (p, n) := assign_name p n in
      assign_loop p (done ++ [n]) l
  end.

Definition assign_colours_to_names (p : painter_t) : painter_t := assign_loop p [] (names p).

(** *** Step 5 *)

Definition distribute_method (p : painter_t) (acc : outcome (list reach_method_t * Z))
    (m : reach_method_t) : outcome (list reach_method_t * Z) :=
  '(ms, max_colour) ← acc;
  match find_name p (mangled_name m) with
  | None => Abort
  | Some r =>
      Ret (ms ++ [mk_method (mangled_name m) (colour r)],
           if max_colour <? colour r then colour r else max_colour)
  end.

Definition distribute_name (p : painter_t) (acc : outcome (list reach_method_name_t * Z))
    (n : reach_method_name_t) : outcome (list reach_method_name_t * Z) :=
  '(ns, max_colour) ← acc;
  '(ms, max_colour) ← foldl (distribute_method p) (Ret ([], max_colour)) (r_mangled n);
  Ret (ns ++ [mk_method_name ms], max_colour).

Definition distribute_type (p : painter_t) (t : reach_type_t) : outcome reach_type_t :=
  if (Z.of_nat (length (methods t)) =? 0) || bool_decide (is_Some (bare_method t)) then Ret t
  else
    '(ns, max_colour) ← foldl (distribute_name p) (Ret ([], 0)) (methods t);
    Ret (mk_type ns (bare_method t) (u32 (max_colour + 1))).

Definition distribute_info (p : painter_t) (types : list reach_type_t)
    : outcome (list reach_type_t) :=
  mapO (distribute_type p) types.

Definition paint (types : list reach_type_t) : outcome (list reach_type_t) :=
  let type_count := Z.of_nat (length types) in
  if type_count =? 0 then Ret types
  else
    p ← find_names_types_use (mk_painter [] [] (((type_count ⊟ 1) / 64) ⊞ 1) 0) types;
    distribute_info (assign_colours_to_names p) types.
End painter.

(** ** Type maps *)

(** The map that holds type number [t] is the bitmap with bit [t] set. *)
Definition in_map (m : list Z) (t : Z) : bool := bit_set m t.

Lemma union_map_word size cm nm j :
  0 <= j -> 0 <= size <= Z.of_nat (length cm) ->
  length (union_map size cm nm) = length cm /\
  bitmap_word (union_map size cm nm) j =
    if j <? size then Z.lor (bitmap_word cm j) (bitmap_word nm j) else bitmap_word cm j.
Proof.
  intros Hj [Hs Hlen]. unfold union_map. revert Hs Hlen.
  revert size. refine (natlike_ind _ _ _).
  - intros _. rewrite seqZ_nil by lia. by rewrite (proj2 (Z.ltb_ge j 0)).
  - intros size Hs IH Hlen. destruct (IH ltac:(lia)) as [IHl IHw].
    assert (seqZ 0 (Z.succ size) = seqZ 0 size ++ [size]) as ->.
    { rewrite <- Z.add_1_r, seqZ_app by lia. done. }
    rewrite foldl_app. cbn [foldl]. rewrite length_insert. split; [done|].
    set (m := foldl _ _ _) in *. rewrite bitmap_word_insert by lia.
    destruct (Z.eqb_spec size j) as [->|Hne].
    + rewrite IHw, (proj2 (Z.ltb_ge j j)), (proj2 (Z.ltb_lt j (Z.succ j))) by lia. done.
    + rewrite IHw. destruct (Z.ltb_spec j size), (Z.ltb_spec j (Z.succ size)); (done || lia).
Qed.

Lemma in_union size cm nm t :
  0 <= t < 64 * size -> size <= Z.of_nat (length cm) ->
  in_map (union_map size cm nm) t = in_map cm t || in_map nm t.
Proof.
  intros Ht Hlen. unfold in_map. rewrite !bit_set_testbit.
  assert (t / 64 < size) by (apply Z.div_lt_upper_bound; lia).
  destruct (union_map_word size cm nm (t / 64)) as [_ ->]; [apply Z.div_pos; lia|lia|].
  rewrite (proj2 (Z.ltb_lt _ _)) by done. apply Z.lor_spec.
Qed.

Lemma compatible_disjoint c n t :
  is_name_compatible c n = true -> 0 <= t < 64 * typemap_size n ->
  in_map (c_type_map c) t && in_map (type_map n) t = false.
Proof.
  intros Hc Ht. unfold in_map. rewrite !bit_set_testbit. unfold is_name_compatible in Hc.
  rewrite forallb_forall in Hc. specialize (Hc (t / 64)).
  rewrite <- Z.land_spec, (proj1 (Z.eqb_eq _ 0)); [apply Z.bits_0|].
  apply Hc, list_elem_of_In, elem_of_seqZ. split; [apply Z.div_pos; lia|].
  rewrite Z.add_0_l. apply Z.div_lt_upper_bound; lia.
Qed.

(** ** Step 1: which types use a name *)

Definition type_names (t : reach_type_t) : list string :=
  concat ((fun n => mangled_name <$> r_mangled n) <$> methods t).

(** The types that take part in the painting, in their order. *)
Definition painted (types : list reach_type_t) : list reach_type_t :=
  filter (fun t => bare_method t = None) types.

(** Type number [u] of [l] uses the name. *)
Definition used (l : list reach_type_t) (nm : string) (u : Z) : Prop :=
  exists t, 0 <= u /\ l !! Z.to_nat u = Some t /\ nm ∈ type_names t.

(** The names of the painter record the uses [U]. *)
Record names_inv (p : painter_t) (U : string -> Z -> Prop) : Prop := {
  ni_nodup : NoDup (name <$> names p);
  ni_shape r : r ∈ names p ->
    typemap_size r = p_typemap_size p /\ Z.of_nat (length (type_map r)) = p_typemap_size p;
  ni_uses r t : r ∈ names p -> 0 <= t -> (in_map (type_map r) t = true <-> U (name r) t);
  ni_all nm t : U nm t -> nm ∈ name <$> names p;
  ni_used r : r ∈ names p -> exists t, U (name r) t
}.

Lemma names_inv_ext p U V :
  (forall nm t, U nm t <-> V nm t) -> names_inv p U -> names_inv p V.
Proof.
  intros HUV [H1 H2 H3 H4 H5]. split; [done|done| | |].
  - intros r t Hr Ht. by rewrite <- HUV, H3.
  - intros nm t. rewrite <- HUV. apply H4.
  - intros r Hr. destruct (H5 r Hr) as [t Ht]. exists t. by apply HUV.
Qed.

Lemma find_name_some p nm r : find_name p nm = Some r -> r ∈ names p /\ name r = nm.
Proof.
  unfold find_name. destruct (list_find _ (names p)) as [[i r']|] eqn:E; [|done].
  intros [= <-]. apply list_find_Some in E as (Hi & Hr & _).
  split; [by eapply list_elem_of_lookup_2|done].
Qed.

Lemma find_name_none p nm : find_name p nm = None -> nm ∉ name <$> names p.
Proof.
  unfold find_name. destruct (list_find _ (names p)) as [[i r']|] eqn:E; [done|].
  intros _ Hin. apply list_find_None in E. rewrite Forall_forall in E.
  apply list_elem_of_fmap in Hin as (r & -> & Hr). by apply (E r Hr).
Qed.

Lemma find_name_nodup p r :
  NoDup (name <$> names p) -> r ∈ names p -> find_name p (name r) = Some r.
Proof.
  intros Hnd Hr. destruct (find_name p (name r)) as [r'|] eqn:E.
  - apply find_name_some in E as [Hr' Hn]. f_equal.
    apply list_elem_of_lookup in Hr as [i Hi], Hr' as [j Hj].
    assert (i = j) as ->; [|congruence].
    eapply NoDup_lookup; [done|by rewrite list_lookup_fmap, Hi|by rewrite list_lookup_fmap, Hj; cbn; rewrite Hn].
  - apply find_name_none in E. destruct E. by apply list_elem_of_fmap_2.
Qed.

Section step1.
Context `{NameTable}.

Lemma add_name_inv p nm U :
  0 <= p_typemap_size p -> nm ∉ name <$> names p -> (forall t, ~ U nm t) -> names_inv p U ->
  let p' := add_name p nm in
  NoDup (name <$> names p') /\
  (forall r, r ∈ names p' -> typemap_size r = p_typemap_size p /\ Z.of_nat (length (type_map r)) = p_typemap_size p) /\
  (forall r t, r ∈ names p' -> 0 <= t -> (in_map (type_map r) t = true <-> U (name r) t)) /\
  (forall nm', nm' ∈ name <$> names p' <-> nm' = nm \/ nm' ∈ name <$> names p) /\
  (forall r, r ∈ names p' -> name r = nm \/ r ∈ names p).
Proof.
  intros Hsize Hnew HU [H1 H2 H3 H4 H5]. cbn.
  set (r0 := mk_name nm _ _ _).
  pose proof (name_records_put_perm (names p) r0) as Hp.
  assert (forall r, r ∈ name_records_put (names p) r0 <-> r = r0 \/ r ∈ names p) as Hin
    by (intros r; by rewrite Hp, elem_of_cons).
  split; [by rewrite Hp; cbn; constructor|]. split; [|split; [|split]].
  - intros r [->|Hr]%Hin; [|auto]. cbn. rewrite length_replicate. lia.
  - intros r t [->|Hr]%Hin Ht; [|auto]. cbn. unfold in_map.
    rewrite bit_set_testbit, bitmap_word_replicate, Z.bits_0. split; [done|]. intros Hu. by destruct (HU t).
  - intros nm'. by rewrite Hp, fmap_cons, elem_of_cons.
  - intros r [->|Hr]%Hin; auto.
Qed.

Lemma use_name_inv p m U t :
  names_inv p U -> 0 <= t < 64 * p_typemap_size p ->
  let p' := use_name (t / 64) (1 <<! (t mod 64)) p m in
  names_inv p' (fun nm u => U nm u \/ (nm = mangled_name m /\ u = t)) /\
  p_typemap_size p' = p_typemap_size p /\ colours p' = colours p /\ colour_count p' = colour_count p.
Proof.
  intros Hinv Ht. unfold use_name. set (nm := mangled_name m).
  set (p1 := match find_name p nm with None => _ | Some _ => p end).
  assert (NoDup (name <$> names p1) /\
    (forall r, r ∈ names p1 -> typemap_size r = p_typemap_size p /\ Z.of_nat (length (type_map r)) = p_typemap_size p) /\
    (forall r t, r ∈ names p1 -> 0 <= t -> (in_map (type_map r) t = true <-> U (name r) t)) /\
    (forall nm', nm' ∈ name <$> names p1 <-> nm' = nm \/ nm' ∈ name <$> names p) /\
    (forall r, r ∈ names p1 -> name r = nm \/ r ∈ names p) /\
    p_typemap_size p1 = p_typemap_size p /\ colours p1 = colours p /\ colour_count p1 = colour_count p)
    as (H1 & H2 & H3 & H4 & H5 & Hrest).
  { unfold p1. destruct (find_name p nm) as [r|] eqn:E.
    - apply find_name_some in E as [Hr Hn]. destruct Hinv as [I1 I2 I3 I4 I5].
      split; [done|]. split; [done|]. split; [done|]. split; [|split; [auto|done]].
      intros nm'. split; [auto|]. intros [->|?]; [|done]. rewrite <- Hn. by apply list_elem_of_fmap_2.
    - apply find_name_none in E.
      destruct (add_name_inv p nm U) as (A1 & A2 & A3 & A4 & A5); [lia|done| |done|].
      + intros u Hu. apply E. by eapply ni_all.
      + split; [done|]. split; [done|]. split; [done|]. split; [done|]. split; [done|]. done. }
  clearbody p1. split; [|exact Hrest].
  assert (Hnames : name <$> names (update_name p1 nm (mark_type (t / 64) (1 <<! (t mod 64)))) = name <$> names p1).
  { cbn. rewrite <- list_fmap_compose. apply list_fmap_ext. intros i r _. cbn. by destruct (decide _). }
  split.
  - by rewrite Hnames.
  - intros r' Hr'. cbn in Hr' |- *. rewrite (proj1 Hrest).
    apply list_elem_of_fmap in Hr' as (r & -> & Hr). destruct (H2 r Hr).
    destruct (decide _); cbn; [rewrite length_insert|]; done.
  - intros r' u Hr' Hu. cbn in Hr'. apply list_elem_of_fmap in Hr' as (r & -> & Hr).
    destruct (H2 r Hr) as [_ Hlen]. specialize (H3 r u Hr Hu).
    destruct (decide (name r = nm)) as [Hn|Hn]; cbn.
    + assert (<[Z.to_nat (t / 64) := Z.lor (bitmap_word (type_map r) (t / 64)) (1 <<! (t mod 64))]> (type_map r)
        = set_bit (type_map r) t) as -> by (unfold set_bit; by rewrite shr64_6, land_63).
      unfold in_map in *. rewrite bit_set_set_bit; [|lia|lia|].
      * rewrite orb_true_iff, Z.eqb_eq, H3. intuition congruence.
      * assert (t / 64 < p_typemap_size p) by (apply Z.div_lt_upper_bound; lia).
        pose proof (Z.div_pos t 64). lia.
    + rewrite H3. intuition congruence.
  - intros nm' u Hu. rewrite Hnames, H4. destruct Hu as [Hu|[-> _]]; [|auto].
    right. by eapply ni_all.
  - intros r' Hr'. cbn in Hr'. apply list_elem_of_fmap in Hr' as (r & -> & Hr).
    assert (name (if decide (name r = nm) then mark_type (t / 64) (1 <<! (t mod 64)) r else r) = name r)
      as -> by by destruct (decide _).
    destruct (H5 r Hr) as [->|Hr']; [by exists t; right|].
    destruct (ni_used _ _ Hinv r Hr') as [u Hu]. exists u. by left.
Qed.
(** Step 1 touches only the names. *)
Definition same_colours (p p' : painter_t) : Prop :=
  p_typemap_size p' = p_typemap_size p /\ colours p' = colours p /\ colour_count p' = colour_count p.

Lemma use_type_inv p ms U t :
  names_inv p U -> 0 <= t < 64 * p_typemap_size p ->
  let p' := foldl (use_name (t / 64) (1 <<! (t mod 64))) p ms in
  names_inv p' (fun nm u => U nm u \/ (nm ∈ mangled_name <$> ms /\ u = t)) /\ same_colours p p'.
Proof.
  revert p U. induction ms as [|m ms IH]; intros p U Hinv Ht; cbn [foldl].
  - split; [|done]. apply (names_inv_ext _ U); [|done]. intros nm u.
    split; [by left|]. intros [?|[Hin _]]; [done|]. by apply elem_of_nil in Hin.
  - destruct (use_name_inv p m U t Hinv Ht) as (Hinv1 & Hs1 & Hc1 & Hn1).
    destruct (IH _ _ Hinv1) as [Hinv2 (Hs2 & Hc2 & Hn2)]; [by rewrite Hs1|].
    split; [|unfold same_colours; by rewrite Hs2, Hc2, Hn2].
    eapply names_inv_ext; [|exact Hinv2]. intros nm u. cbn. rewrite elem_of_cons. tauto.
Qed.

Lemma foldl_concat {A B C} (f : A -> B -> A) (g : C -> list B) (l : list C) (a : A) :
  foldl (fun a c => foldl f a (g c)) a l = foldl f a (concat (g <$> l)).
Proof. revert a. induction l as [|c l IH]; intros a; cbn; [done|]. by rewrite foldl_app, IH. Qed.

Lemma type_names_concat t :
  type_names t = mangled_name <$> concat (r_mangled <$> methods t).
Proof.
  unfold type_names. induction (methods t) as [|n l IH]; cbn; [done|]. by rewrite fmap_app, IH.
Qed.

(** The bit of the next type. *)
Lemma mask_step t :
  0 <= t ->
  ((1 <<! (t mod 64)) <<! 1 = if (t + 1) mod 64 =? 0 then 0 else 1 <<! ((t + 1) mod 64)) /\
  (t + 1) / 64 = (if (t + 1) mod 64 =? 0 then t / 64 + 1 else t / 64).
Proof.
  intros Ht. pose proof (Z.mod_pos_bound t 64 ltac:(lia)) as Hm.
  pose proof (Z.div_mod t 64 ltac:(lia)) as Hd.
  destruct (decide (t mod 64 = 63)) as [E|E].
  - rewrite <- (Z.mod_unique_pos (t + 1) 64 (t / 64 + 1) 0) by lia.
    rewrite <- (Z.div_unique_pos (t + 1) 64 (t / 64 + 1) 0) by lia. rewrite E. done.
  - rewrite <- (Z.mod_unique_pos (t + 1) 64 (t / 64) (t mod 64 + 1)) by lia.
    rewrite <- (Z.div_unique_pos (t + 1) 64 (t / 64) (t mod 64 + 1)) by lia.
    rewrite (proj2 (Z.eqb_neq _ 0)) by lia. split; [|done].
    rewrite !shl64_1 by lia. unfold shl64. rewrite Z.shiftl_mul_pow2, Z.pow_add_r by lia.
    apply u64_id. assert (2 ^ (t mod 64) <= 2 ^ 62) by (apply Z.pow_le_mono_r; lia).
    pose proof (Z.pow_pos_nonneg 2 (t mod 64)). unfold is_u64. lia.
Qed.

Lemma find_names_loop_spec types pre p :
  let t := Z.of_nat (length pre) in
  names_inv p (used pre) -> t + Z.of_nat (length (painted types)) <= 64 * p_typemap_size p ->
  p_typemap_size p <= 2 ^ 60 ->
  exists p', find_names_loop types p (t / 64) (1 <<! (t mod 64)) = Ret p' /\
    names_inv p' (used (pre ++ painted types)) /\ same_colours p p'.
Proof.
  cbv zeta. revert pre p. induction types as [|ty types IH]; intros pre p Hinv Hlen Hsz; cbn [find_names_loop].
  { exists p. rewrite app_nil_r. done. }
  unfold painted in *. rewrite filter_cons in Hlen |- *.
  destruct (bare_method ty) as [b|] eqn:Hb.
  { rewrite decide_False in Hlen |- * by done. by apply IH. }
  rewrite decide_True in Hlen |- * by done. cbn [length] in Hlen.
  set (t := Z.of_nat (length pre)) in *.
  assert (t / 64 < p_typemap_size p) as Hlt by (apply Z.div_lt_upper_bound; lia).
  rewrite (proj2 (Z.ltb_lt _ _) Hlt). cbn [negb]. rewrite foldl_concat.
  destruct (use_type_inv p (concat (r_mangled <$> methods ty)) (used pre) t Hinv ltac:(lia))
    as [Hinv1 (Hs1 & Hc1 & Hn1)].
  set (p1 := foldl _ _ _) in *.
  assert (names_inv p1 (used (pre ++ [ty]))) as Hinv1'.
  { eapply names_inv_ext; [|exact Hinv1]. intros nm u. rewrite <- type_names_concat. unfold used. split.
    - intros [(t' & Hu & Hl & Hin)|[Hin ->]].
      + exists t'. split; [done|]. split; [|done]. by apply lookup_app_l_Some.
      + exists ty. split; [lia|]. split; [|done]. unfold t. rewrite Nat2Z.id.
        rewrite lookup_app_r, Nat.sub_diag by lia. done.
    - intros (t' & Hu & Hl & Hin). apply lookup_app_Some in Hl as [Hl|[Hge Hl]]; [left; eauto|right].
      apply list_lookup_singleton_Some in Hl as [Hz <-]. split; [done|lia]. }
  specialize (IH (pre ++ [ty]) p1 Hinv1'). rewrite length_app in IH. cbn [length] in IH.
  replace (Z.of_nat (length pre + 1)) with (t + 1) in IH by lia.
  destruct (mask_step t ltac:(lia)) as [Hm Hd]. rewrite Hd in IH. rewrite Hm.
  rewrite Hs1 in IH. specialize (IH ltac:(lia) Hsz). rewrite <- app_assoc in IH.
  assert (exists p', (if (t + 1) mod 64 =? 0 then find_names_loop types p1 (t / 64 ⊞ 1) 1
    else find_names_loop types p1 (t / 64) (1 <<! ((t + 1) mod 64))) = Ret p' /\
    names_inv p' (used (pre ++ [ty] ++ filter (fun t => bare_method t = None) types)) /\ same_colours p1 p')
    as (p' & Hrun & Hinv' & Hs' & Hc' & Hn').
  { destruct (Z.eqb_spec ((t + 1) mod 64) 0) as [E|E]; [|exact IH].
    rewrite E in IH. replace (t / 64 ⊞ 1) with (t / 64 + 1); [exact IH|].
    pose proof (Z.div_pos t 64). unfold add64. symmetry. apply u64_id. unfold is_u64. lia. }
  exists p'. split; [|split; [exact Hinv'|unfold same_colours; by rewrite Hs', Hc', Hn']].
  rewrite <- Hrun. destruct (Z.eqb_spec ((t + 1) mod 64) 0) as [E|E]; [done|].
  assert ((1 <<! ((t + 1) mod 64) =? 0) = false) as ->; [|done].
  pose proof (Z.mod_pos_bound (t + 1) 64 ltac:(lia)). rewrite shl64_1 by lia.
  pose proof (Z.pow_pos_nonneg 2 ((t + 1) mod 64)). apply Z.eqb_neq. lia.
Qed.
End step1.

(** ** Step 3: names of one colour are used by disjoint types *)

(** The colours of the painter after the names [dn] have been assigned. *)
Record colour_inv (p : painter_t) (dn : list name_record_t) : Prop := {
  ci_colours k c : colours p !! k = Some c ->
    c_colour c = Z.of_nat k /\ Z.of_nat (length (c_type_map c)) = p_typemap_size p;
  ci_count : colour_count p = Z.of_nat (length (colours p));
  ci_done r : r ∈ dn -> exists c, 0 <= colour r /\ colours p !! Z.to_nat (colour r) = Some c /\
    forall t, 0 <= t < 64 * p_typemap_size p -> in_map (type_map r) t = true ->
              in_map (c_type_map c) t = true;
  ci_disjoint i j r s t : dn !! i = Some r -> dn !! j = Some s -> i <> j -> colour r = colour s ->
    0 <= t < 64 * p_typemap_size p -> in_map (type_map r) t && in_map (type_map s) t = false
}.

Lemma assign_at p dn n i c :
  colour_inv p dn -> colours p !! i = Some c -> is_name_compatible c n = true ->
  typemap_size n = p_typemap_size p ->
  let (c', n') := assign_name_to_colour c n in
  colour_inv (mk_painter (names p) (<[i := c']> (colours p)) (p_typemap_size p) (colour_count p))
    (dn ++ [n']).
Proof.
  intros [H1 H2 H3 H4] Hc Hcompat Hn. unfold assign_name_to_colour. rewrite Hn.
  destruct (H1 i c Hc) as [Hci Hlen].
  assert (Hi : (i < length (colours p))%nat) by by eapply lookup_lt_Some.
  assert (Hunion : forall t, 0 <= t < 64 * p_typemap_size p ->
    in_map (union_map (p_typemap_size p) (c_type_map c) (type_map n)) t =
    in_map (c_type_map c) t || in_map (type_map n) t) by (intros; apply in_union; lia).
  set (um := union_map _ _ _) in *.
  assert (Hnew : forall j r t, dn !! j = Some r -> colour r = c_colour c ->
    0 <= t < 64 * p_typemap_size p -> in_map (type_map r) t && in_map (type_map n) t = false).
  { intros j r t Hj Hcol Ht. destruct (in_map (type_map r) t) eqn:Er; [|done].
    destruct (H3 r) as (c1 & _ & Hc1 & Hsub); [by eapply list_elem_of_lookup_2|].
    rewrite Hcol, Hci, Nat2Z.id, Hc in Hc1. injection Hc1 as <-.
    pose proof (compatible_disjoint c n t Hcompat ltac:(lia)) as Hd. by rewrite Hsub in Hd. }
  split; cbn.
  - intros k c1 Hk. apply list_lookup_insert_Some in Hk as [(<- & <- & _)|[_ Hk]]; [|by apply H1].
    split; [done|]. cbn [c_type_map]. unfold um. pose proof (union_map_word (p_typemap_size p) (c_type_map c) (type_map n) 0) as Hu.
    rewrite (proj1 (Hu ltac:(lia) ltac:(lia))). done.
  - by rewrite length_insert.
  - intros r Hr. apply elem_of_app in Hr as [Hr|Hr%list_elem_of_singleton].
    + destruct (H3 r Hr) as (c1 & Hpos & Hc1 & Hsub).
      destruct (decide (Z.to_nat (colour r) = i)) as [E|E].
      * eexists. split; [done|]. rewrite E. split; [by apply list_lookup_insert_eq|].
        intros t Ht Hin. cbn. rewrite Hunion by done.
        rewrite E, Hc in Hc1. injection Hc1 as <-. by rewrite Hsub.
      * exists c1. rewrite list_lookup_insert_ne by done. done.
    + subst r. cbn. eexists. split; [lia|]. rewrite Hci, Nat2Z.id.
      split; [by apply list_lookup_insert_eq|]. intros t Ht Hin. cbn.
      rewrite Hunion by done. rewrite Hin. apply orb_true_r.
  - intros a b r s t Ha Hb Hab Hcol Ht.
    apply lookup_app_Some in Ha as [Ha|[Hga Ha]], Hb as [Hb|[Hgb Hb]].
    + by eapply H4.
    + apply list_lookup_singleton_Some in Hb as [_ <-]. by eapply Hnew.
    + apply list_lookup_singleton_Some in Ha as [_ <-]. cbn in Hcol |- *.
      rewrite andb_comm. by eapply Hnew.
    + apply list_lookup_singleton_Some in Ha as [Ha _], Hb as [Hb _]. lia.
Qed.

Lemma add_colour_inv p dn :
  colour_inv p dn -> 0 <= p_typemap_size p -> Z.of_nat (length (colours p)) < 2 ^ 32 - 1 ->
  colour_inv (add_colour p) dn.
Proof.
  intros [H1 H2 H3 H4] Hsz Hlt. split; cbn.
  - intros k c Hk. apply lookup_app_Some in Hk as [Hk|[Hge Hk]]; [by apply H1|].
    apply list_lookup_singleton_Some in Hk as [Hz <-]. cbn. rewrite length_replicate. lia.
  - rewrite length_app. cbn. rewrite H2. unfold u32, wrap. rewrite Z.mod_small; lia.
  - intros r Hr. destruct (H3 r Hr) as (c & Hpos & Hc & Hsub). exists c.
    split; [done|]. split; [by apply lookup_app_l_Some|done].
  - exact H4.
Qed.

(** A record keeps everything but its colour. *)
Definition same_record (n n' : name_record_t) : Prop :=
  name n' = name n /\ typemap_size n' = typemap_size n /\ type_map n' = type_map n.

Lemma assign_name_inv p dn n :
  colour_inv p dn -> 0 <= p_typemap_size p -> Z.of_nat (length (colours p)) < 2 ^ 32 - 1 ->
  typemap_size n = p_typemap_size p ->
  let (p', n') := assign_name p n in
  colour_inv p' (dn ++ [n']) /\ p_typemap_size p' = p_typemap_size p /\ same_record n n' /\
  (length (colours p') <= S (length (colours p)))%nat.
Proof.
  intros Hinv Hsz Hlt Hn. unfold assign_name.
  destruct (list_find _ (colours p)) as [[i c]|] eqn:E.
  - apply list_find_Some in E as (Hi & Hc & _).
    pose proof (assign_at p dn n i c Hinv Hi Hc Hn) as H. unfold assign_name_to_colour in *.
    split; [exact H|]. cbn. rewrite length_insert. split; [done|]. split; [done|lia].
  - pose proof (add_colour_inv p dn Hinv Hsz Hlt) as Hinv1.
    set (c := mk_colour (colour_count p) _).
    assert (colours (add_colour p) !! length (colours p) = Some c) as Hi.
    { cbn. rewrite lookup_app_r, Nat.sub_diag by lia. done. }
    assert (is_name_compatible c n = true) as Hc.
    { unfold is_name_compatible. apply forallb_forall. intros i _. unfold c.
      cbn [c_type_map]. by rewrite bitmap_word_replicate. }
    pose proof (assign_at (add_colour p) dn n _ c Hinv1 Hi Hc Hn) as H.
    unfold assign_name_to_colour in *. split; [exact H|]. cbn.
    rewrite length_insert, length_app. cbn. split; [done|]. split; [done|lia].
Qed.

Lemma assign_loop_inv l p dn :
  colour_inv p dn -> 0 <= p_typemap_size p ->
  Z.of_nat (length (colours p)) + Z.of_nat (length l) < 2 ^ 32 ->
  (forall r, r ∈ l -> typemap_size r = p_typemap_size p) ->
  let p' := assign_loop p dn l in
  exists l', names p' = dn ++ l' /\ Forall2 same_record l l' /\ colour_inv p' (dn ++ l') /\
    p_typemap_size p' = p_typemap_size p /\ (length (colours p') <= length (colours p) + length l)%nat.
Proof.
  cbv zeta. revert p dn. induction l as [|n l IH]; intros p dn Hinv Hsz Hlt Hsize; cbn [assign_loop].
  - exists []. rewrite app_nil_r. cbn. split; [done|]. split; [constructor|]. split; [|split; [done|lia]].
    by destruct Hinv.
  - cbn [length] in Hlt.
    pose proof (assign_name_inv p dn n Hinv Hsz ltac:(lia) (Hsize n ltac:(left))) as H.
    destruct (assign_name p n) as [p1 n1]. destruct H as (Hinv1 & Hs1 & Hsame & Hlen1).
    destruct (IH p1 (dn ++ [n1]) Hinv1) as (l' & Hn' & Hf & Hinv' & Hs' & Hlen'); [lia|lia| |].
    { intros r Hr. rewrite Hs1. apply Hsize. by right. }
    exists (n1 :: l'). rewrite <- app_assoc in Hn', Hinv'. cbn in Hn', Hinv'.
    split; [done|]. split; [by constructor|]. split; [done|]. split; [congruence|cbn; lia].
Qed.

(** ** Step 5: the painted types *)

Definition recolour (col : string -> Z) (m : reach_method_t) : reach_method_t :=
  mk_method (mangled_name m) (col (mangled_name m)).

(** The type with the colours [col]: its vtable ends after the highest one. *)
Definition paint_type (col : string -> Z) (t : reach_type_t) : reach_type_t :=
  if (Z.of_nat (length (methods t)) =? 0) || bool_decide (is_Some (bare_method t)) then t
  else mk_type ((fun n => mk_method_name (recolour col <$> r_mangled n)) <$> methods t)
         (bare_method t) (u32 (foldl Z.max 0 (col <$> type_names t) + 1)).

Section step5.
Context (p : painter_t) (col : string -> Z).

Definition coloured (nm : string) : Prop :=
  exists r, find_name p nm = Some r /\ colour r = col nm.

Lemma distribute_methods ms ms0 mx :
  (forall m, m ∈ ms -> coloured (mangled_name m)) ->
  foldl (distribute_method p) (Ret (ms0, mx)) ms =
    Ret (ms0 ++ (recolour col <$> ms), foldl Z.max mx (col <$> (mangled_name <$> ms))).
Proof.
  revert ms0 mx. induction ms as [|m ms IH]; intros ms0 mx Hc; cbn.
  - by rewrite app_nil_r.
  - destruct (Hc m ltac:(left)) as (r & Hr & Hcol).
    rewrite Hr. cbn. rewrite Hcol, IH by (intros; apply Hc; by right). rewrite <- app_assoc. cbn.
    assert ((if mx <? col (mangled_name m) then col (mangled_name m) else mx) = Z.max mx (col (mangled_name m)))
      as -> by (destruct (Z.ltb_spec mx (col (mangled_name m))); lia).
    done.
Qed.

Lemma distribute_names ns ns0 mx :
  (forall n m, n ∈ ns -> m ∈ r_mangled n -> coloured (mangled_name m)) ->
  foldl (distribute_name p) (Ret (ns0, mx)) ns =
    Ret (ns0 ++ ((fun n => mk_method_name (recolour col <$> r_mangled n)) <$> ns),
         foldl Z.max mx (col <$> concat ((fun n => mangled_name <$> r_mangled n) <$> ns))).
Proof.
  revert ns0 mx. induction ns as [|n ns IH]; intros ns0 mx Hc; cbn.
  - by rewrite app_nil_r.
  - rewrite distribute_methods by (intros m Hm; apply (Hc n); [left|done]). cbn.
    rewrite IH by (intros n' m' Hn'; apply Hc; by right).
    rewrite <- app_assoc, fmap_app, foldl_app. done.
Qed.

Lemma distribute_type_spec t :
  (bare_method t = None -> forall nm, nm ∈ type_names t -> coloured nm) ->
  distribute_type p t = Ret (paint_type col t).
Proof.
  intros Hc. unfold distribute_type, paint_type.
  destruct (_ || _) eqn:E; [done|]. apply orb_false_iff in E as [_ Hb].
  apply bool_decide_eq_false in Hb. rewrite distribute_names; [done|].
  intros n m Hn Hm. apply Hc.
  - destruct (bare_method t); [|done]. destruct Hb. by eexists.
  - unfold type_names. apply list_elem_of_In, in_concat. exists (mangled_name <$> r_mangled n).
    split; apply list_elem_of_In.
    + by apply (list_elem_of_fmap_2 (fun n => mangled_name <$> r_mangled n)).
    + by apply list_elem_of_fmap_2.
Qed.
End step5.

Lemma mapO_ret {A B} (f : A -> outcome B) (g : A -> B) l :
  (forall x, x ∈ l -> f x = Ret (g x)) -> mapO f l = Ret (g <$> l).
Proof.
  induction l as [|x l IH]; intros Hf; cbn; [done|].
  rewrite Hf by left. cbn. rewrite IH by (intros; apply Hf; by right). done.
Qed.

(** ** The whole painter *)

Definition all_names (types : list reach_type_t) : list string :=
  concat (type_names <$> painted types).

Lemma elem_of_all_names types nm :
  nm ∈ all_names types <-> exists u, used (painted types) nm u.
Proof.
  unfold all_names. rewrite list_elem_of_In, in_concat. split.
  - intros (l & Hl & Hnm). apply list_elem_of_In, list_elem_of_fmap in Hl as (t & -> & Ht).
    apply list_elem_of_lookup in Ht as [i Hi]. exists (Z.of_nat i), t.
    rewrite Nat2Z.id. split; [lia|]. split; [done|by apply list_elem_of_In].
  - intros (u & t & Hu & Ht & Hnm). exists (type_names t).
    split; apply list_elem_of_In; [|done]. apply list_elem_of_fmap_2. by eapply list_elem_of_lookup_2.
Qed.

Section whole.
Context `{NameTable}.

(** The names of the painter after step 1, in number. *)
Lemma names_count p types :
  names_inv p (used (painted types)) -> length (names p) = length (remove_dups (all_names types)).
Proof.
  intros Hinv. rewrite <- (length_fmap name). apply Permutation_length, NoDup_Permutation.
  - apply Hinv.
  - apply NoDup_remove_dups.
  - intros nm. rewrite elem_of_remove_dups, elem_of_all_names. split.
    + intros Hin. apply list_elem_of_fmap in Hin as (r & -> & Hr). by apply (ni_used _ _ Hinv).
    + intros [u Hu]. by apply (ni_all _ _ Hinv _ _ Hu).
Qed.

(** The colours that step 3 leaves in the names. *)
Lemma assign_colours_spec p types :
  names_inv p (used (painted types)) -> colours p = [] -> colour_count p = 0 ->
  Z.of_nat (length (painted types)) <= 64 * p_typemap_size p ->
  Z.of_nat (length (all_names types)) < 2 ^ 32 ->
  exists col, (forall nm, nm ∈ all_names types -> coloured (assign_colours_to_names p) col nm) /\
    (forall nm, nm ∈ all_names types -> 0 <= col nm < Z.of_nat (length (remove_dups (all_names types)))) /\
    (forall nm nm' u, used (painted types) nm u -> used (painted types) nm' u -> nm <> nm' ->
       col nm <> col nm').
Proof.
  intros Hinv Hcol Hcnt Hlen Hall. pose proof (names_count p types Hinv) as Hnames.
  assert (length (remove_dups (all_names types)) <= length (all_names types))%nat as Hdup.
  { apply submseteq_length, NoDup_submseteq; [apply NoDup_remove_dups|].
    intros nm. by rewrite elem_of_remove_dups. }
  unfold assign_colours_to_names.
  destruct (assign_loop_inv (names p) p []) as (l' & Hn' & Hf & Hci & Hs' & Hlen').
  { split; cbn; rewrite ?Hcol; try done; intros r Hr; by apply elem_of_nil in Hr. }
  { lia. }
  { rewrite Hcol. cbn. lia. }
  { intros r Hr. by apply (ni_shape _ _ Hinv). }
  set (p' := assign_loop p [] (names p)) in *. cbn in Hn', Hci.
  assert (name <$> names p' = name <$> names p) as Hnm.
  { rewrite Hn'. clear -Hf. induction Hf as [|r s l l' (Hr & _) _ IH]; cbn; [done|]. by rewrite Hr, IH. }
  assert (NoDup (name <$> names p')) as Hnd by (rewrite Hnm; apply Hinv).
  assert (Hrec : forall nm, nm ∈ all_names types ->
    exists i r, names p' !! i = Some r /\ name r = nm /\ find_name p' nm = Some r /\
      forall u, used (painted types) nm u -> in_map (type_map r) u = true).
  { intros nm Hin. apply elem_of_all_names in Hin as [u Hu].
    pose proof (ni_all _ _ Hinv _ _ Hu) as Hin. rewrite <- Hnm in Hin.
    apply list_elem_of_fmap in Hin as (r & -> & Hr). pose proof Hr as Hr'.
    apply list_elem_of_lookup in Hr' as [i Hi]. exists i, r. split; [done|]. split; [done|].
    split; [by apply find_name_nodup|]. intros v Hv. rewrite Hn' in Hi.
    destruct (Forall2_lookup_r _ _ _ _ _ Hf Hi) as (s & Hs & Hname & _ & Hmap). rewrite Hmap.
    apply (ni_uses _ _ Hinv s v); [by eapply list_elem_of_lookup_2|by destruct Hv as (? & ? & _)|].
    by rewrite <- Hname. }
  exists (fun nm => from_option colour 0 (find_name p' nm)). split; [|split].
  - intros nm Hin. destruct (Hrec nm Hin) as (i & r & _ & _ & Hfind & _).
    exists r. by rewrite Hfind.
  - intros nm Hin. destruct (Hrec nm Hin) as (i & r & Hi & _ & -> & _). cbn. rewrite Hn' in Hi.
    destruct (ci_done _ _ Hci r) as (c & Hpos & Hc & _); [by eapply list_elem_of_lookup_2|].
    apply lookup_lt_Some in Hc. rewrite Hcol in Hlen'. cbn in Hlen'. lia.
  - intros nm nm' u Hu Hu' Hne.
    destruct (Hrec nm) as (i & r & Hi & Hr & -> & Hin); [apply elem_of_all_names; eauto|].
    destruct (Hrec nm') as (j & s & Hj & Hs & -> & Hin'); [apply elem_of_all_names; eauto|].
    cbn. intros Heq. rewrite Hn' in Hi, Hj.
    assert (0 <= u < 64 * p_typemap_size p') as Hrange.
    { destruct Hu as (t & Hpos & Ht & _). apply lookup_lt_Some in Ht. rewrite Hs'. lia. }
    assert (i <> j) as Hij by congruence.
    pose proof (ci_disjoint _ _ Hci i j r s u Hi Hj Hij Heq Hrange) as Hd.
    rewrite Hin, Hin' in Hd by done. done.
Qed.

Lemma paint_spec types :
  Z.of_nat (length types) <= 2 ^ 60 -> Z.of_nat (length (all_names types)) < 2 ^ 32 ->
  exists col, paint types = Ret (paint_type col <$> types) /\
    (forall t nm, t ∈ types -> bare_method t = None -> nm ∈ type_names t ->
       0 <= col nm < Z.of_nat (length (remove_dups (all_names types)))) /\
    (forall t nm nm', t ∈ types -> bare_method t = None -> nm ∈ type_names t ->
       nm' ∈ type_names t -> nm <> nm' -> col nm <> col nm').
Proof.
  intros Hlen Hall. unfold paint. destruct (Z.eqb_spec (Z.of_nat (length types)) 0) as [H0|H0].
  { exists (fun _ => 0). destruct types; [|cbn in H0; lia]. split; [done|].
    split; intros t nm; [intros Ht|intros nm' Ht]; by apply elem_of_nil in Ht. }
  set (n := Z.of_nat (length types)) in *.
  assert (n ⊟ 1 = n - 1) as -> by (unfold sub64; apply u64_id; unfold is_u64; lia).
  pose proof (Z.div_pos (n - 1) 64 ltac:(lia) ltac:(lia)).
  pose proof (Z.div_mod (n - 1) 64 ltac:(lia)). pose proof (Z.mod_pos_bound (n - 1) 64 ltac:(lia)).
  assert ((n - 1) / 64 ⊞ 1 = (n - 1) / 64 + 1) as -> by (unfold add64; apply u64_id; unfold is_u64; lia).
  set (size := (n - 1) / 64 + 1).
  assert (length (painted types) <= length types)%nat as Hp by apply length_filter.
  destruct (find_names_loop_spec types [] (mk_painter [] [] size 0)) as (p & Hrun & Hinv & Hs & Hc & Hn).
  { split; cbn; try (intros r Hr; by apply elem_of_nil in Hr).
    - constructor.
    - intros r t Hr. by apply elem_of_nil in Hr.
    - by intros nm t (t' & _ & Ht & _). }
  { cbn. lia. }
  { cbn. lia. }
  cbn [length Z.of_nat app] in Hrun, Hinv. unfold find_names_types_use.
  change (Z.of_nat 0) with 0 in Hrun. change (0 / 64) with 0 in Hrun. change (1 <<! (0 mod 64)) with 1 in Hrun. rewrite Hrun.
  cbn [mbind outcome_bind]. cbn in Hs, Hc, Hn.
  destruct (assign_colours_spec p types Hinv Hc Hn) as (col & Hcoloured & Hrange & Hdiff); [lia|done|].
  assert (Hin : forall t nm, t ∈ types -> bare_method t = None -> nm ∈ type_names t ->
    exists u, t ∈ painted types /\ painted types !! Z.to_nat u = Some t /\ 0 <= u /\ nm ∈ all_names types).
  { intros t nm Ht Hb Hnm. assert (t ∈ painted types) as Hpt by by apply list_elem_of_filter.
    pose proof Hpt as Hpt'. apply list_elem_of_lookup in Hpt' as [i Hi]. exists (Z.of_nat i).
    rewrite Nat2Z.id. split; [done|]. split; [done|]. split; [lia|]. apply elem_of_all_names.
    exists (Z.of_nat i), t. rewrite Nat2Z.id. split; [lia|done]. }
  exists col. split; [|split].
  - apply mapO_ret. intros t Ht. apply distribute_type_spec. intros Hb nm Hnm.
    destruct (Hin t nm Ht Hb Hnm) as (_ & _ & _ & _ & Hnm'). by apply Hcoloured.
  - intros t nm Ht Hb Hnm. destruct (Hin t nm Ht Hb Hnm) as (_ & _ & _ & _ & Hnm'). by apply Hrange.
  - intros t nm nm' Ht Hb Hnm Hnm' Hne.
    destruct (Hin t nm Ht Hb Hnm) as (u & _ & Hu & Hpos & _).
    apply (Hdiff nm nm' u); [by exists t|by exists t|done].
Qed.
End whole.

(** ** Properties *)

Definition methods_of (t : reach_type_t) : list reach_method_t := concat (r_mangled <$> methods t).

Lemma methods_of_paint col t :
  bare_method t = None -> methods_of (paint_type col t) = recolour col <$> methods_of t.
Proof.
  intros Hb. unfold methods_of, paint_type. rewrite Hb.
  rewrite (bool_decide_eq_false_2 (is_Some None)) by by intros [? ?].
  rewrite orb_false_r. destruct (methods t) as [|n ns] eqn:E.
  { change (Z.of_nat (length []) =? 0) with true. cbn. by rewrite E. }
  cbn [length]. rewrite (proj2 (Z.eqb_neq _ 0)) by lia. cbn [methods].
  clear E. induction (n :: ns) as [|n' l IH]; cbn; [done|]. by rewrite fmap_app, IH.
Qed.

Lemma bare_method_paint col t : bare_method (paint_type col t) = bare_method t.
Proof. unfold paint_type. by destruct (_ || _). Qed.

Lemma foldl_max_le l a : a <= foldl Z.max a l /\ forall x, x ∈ l -> x <= foldl Z.max a l.
Proof.
  revert a. induction l as [|y l IH]; intros a; cbn.
  - split; [lia|]. intros x Hx. by apply elem_of_nil in Hx.
  - destruct (IH (Z.max a y)) as [H1 H2]. split; [lia|].
    intros x [->|Hx]%elem_of_cons; [lia|auto].
Qed.

Lemma foldl_max_lt l a b : a < b -> (forall x, x ∈ l -> x < b) -> foldl Z.max a l < b.
Proof.
  revert a. induction l as [|y l IH]; intros a Ha Hl; cbn; [done|].
  apply IH; [pose proof (Hl y ltac:(left)); lia|]. intros x Hx. apply Hl. by right.
Qed.

(** An instance of the table of names: a new record comes first. *)
#[export] Instance names_front : NameTable :=
  {| name_records_put l r := r :: l; name_records_put_perm l r := Permutation_refl _ |}.

(** Three types: two share a method, one is bare. *)
Definition sample_types : list reach_type_t := [
  mk_type [mk_method_name [mk_method "foo" UNASSIGNED_COLOUR; mk_method "bar" UNASSIGNED_COLOUR]] None 0;
  mk_type [] (Some (mk_method "apply" UNASSIGNED_COLOUR)) 0;
  mk_type [mk_method_name [mk_method "baz" UNASSIGNED_COLOUR]; mk_method_name [mk_method "bar" UNASSIGNED_COLOUR]]
    None 0].

(** C20: the painter terminates without a failed assertion, whatever order its table of
    names has, and colours the types: there is one colour per mangled name, the same in
    every type, two names that a type uses have different colours, and the colours
    number at most as many as the names.  Bare types, and types without methods, stay
    as they are. *)
Theorem paint_colouring `{NameTable} types :
  Z.of_nat (length types) <= 2 ^ 60 -> Z.of_nat (length (all_names types)) < 2 ^ 32 ->
  exists col, paint types = Ret (paint_type col <$> types) /\
    (forall t nm, t ∈ types -> bare_method t = None -> nm ∈ type_names t ->
       0 <= col nm < Z.of_nat (length (remove_dups (all_names types)))) /\
    (forall t nm nm', t ∈ types -> bare_method t = None -> nm ∈ type_names t ->
       nm' ∈ type_names t -> nm <> nm' -> col nm <> col nm').
Proof. apply paint_spec. Qed.

Lemma paint_colouring_witness :
  exists col, paint sample_types = Ret (paint_type col <$> sample_types) /\
    (forall t nm, t ∈ sample_types -> bare_method t = None -> nm ∈ type_names t ->
       0 <= col nm < Z.of_nat (length (remove_dups (all_names sample_types)))) /\
    (forall t nm nm', t ∈ sample_types -> bare_method t = None -> nm ∈ type_names t ->
       nm' ∈ type_names t -> nm <> nm' -> col nm <> col nm').
Proof. apply paint_colouring; [vm_compute; discriminate|vm_compute; reflexivity]. Defined.

(** C19: a method call through a vtable finds the method: in a painted type the methods
    with different mangled names have different vtable indices, and every index is inside
    the vtable of the type. *)
Theorem paint_vtable_slots `{NameTable} types types' t :
  Z.of_nat (length types) <= 2 ^ 60 -> Z.of_nat (length (all_names types)) < 2 ^ 32 ->
  paint types = Ret types' -> t ∈ types' -> bare_method t = None ->
  forall m, m ∈ methods_of t ->
    0 <= vtable_index m < vtable_size t /\
    forall m', m' ∈ methods_of t -> mangled_name m <> mangled_name m' ->
               vtable_index m <> vtable_index m'.
Proof.
  intros Hlen Hall Hrun Ht Hb.
  destruct (paint_spec types Hlen Hall) as (col & Hpaint & Hrange & Hdiff).
  rewrite Hpaint in Hrun. injection Hrun as <-.
  apply list_elem_of_fmap in Ht as (t0 & -> & Ht0). rewrite bare_method_paint in Hb.
  rewrite methods_of_paint by done.
  assert (Hnm : forall m0, m0 ∈ methods_of t0 -> mangled_name m0 ∈ type_names t0).
  { intros m0 Hm0. rewrite type_names_concat. by apply list_elem_of_fmap_2. }
  intros m (m0 & -> & Hm0)%list_elem_of_fmap. split.
  - cbn. pose proof (fun nm => Hrange t0 nm Ht0 Hb) as Hr. split; [by apply Hr, Hnm|].
    unfold paint_type. rewrite Hb, (bool_decide_eq_false_2 (is_Some None)) by by intros [? ?].
    rewrite orb_false_r. destruct (Z.eqb_spec (Z.of_nat (length (methods t0))) 0) as [H0|H0].
    { unfold methods_of in Hm0. destruct (methods t0); [|cbn in H0; lia]. by apply elem_of_nil in Hm0. }
    cbn [vtable_size]. set (l := col <$> type_names t0).
    assert (foldl Z.max 0 l < 2 ^ 32 - 1) as Hlt.
    { apply foldl_max_lt; [lia|]. intros x (nm & -> & Hnm')%list_elem_of_fmap.
      specialize (Hr nm Hnm').
      assert (length (remove_dups (all_names types)) <= length (all_names types))%nat; [|lia].
      apply submseteq_length, NoDup_submseteq; [apply NoDup_remove_dups|].
      intros nm'. by rewrite elem_of_remove_dups. }
    destruct (foldl_max_le l 0) as [Hmax Hle]. unfold u32, wrap. rewrite Z.mod_small by lia.
    specialize (Hle (col (mangled_name m0))). unfold l in Hle.
    assert (col (mangled_name m0) <= foldl Z.max 0 (col <$> type_names t0)); [|unfold l; lia].
    apply Hle, list_elem_of_fmap_2, Hnm, Hm0.
  - intros m' (m0' & -> & Hm0')%list_elem_of_fmap Hne. cbn in *. by apply (Hdiff t0); auto.
Qed.

Lemma paint_vtable_slots_witness :
  exists types' t, paint sample_types = Ret types' /\ types' !! 2%nat = Some t /\
  forall m, m ∈ methods_of t ->
    0 <= vtable_index m < vtable_size t /\
    forall m', m' ∈ methods_of t -> mangled_name m <> mangled_name m' ->
               vtable_index m <> vtable_index m'.
Proof.
  eexists _, _. split; [vm_compute; reflexivity|]. split; [reflexivity|].
  eapply (paint_vtable_slots sample_types);
    [vm_compute; discriminate|vm_compute; reflexivity|vm_compute; reflexivity|right; right; left|reflexivity].
Defined.

(** A call through an interface does not depend on the type of the receiver: a
    mangled name has the same vtable index in every painted type. *)
Theorem paint_index_global `{NameTable} types types' t t' m m' :
  Z.of_nat (length types) <= 2 ^ 60 -> Z.of_nat (length (all_names types)) < 2 ^ 32 ->
  paint types = Ret types' -> t ∈ types' -> t' ∈ types' ->
  bare_method t = None -> bare_method t' = None ->
  m ∈ methods_of t -> m' ∈ methods_of t' -> mangled_name m = mangled_name m' ->
  vtable_index m = vtable_index m'.
Proof.
  intros Hlen Hall Hrun Ht Ht' Hb Hb'.
  destruct (paint_spec types Hlen Hall) as (col & Hpaint & _).
  rewrite Hpaint in Hrun. injection Hrun as <-.
  apply list_elem_of_fmap in Ht as (t0 & -> & _), Ht' as (t0' & -> & _).
  rewrite bare_method_paint in Hb, Hb'. rewrite !methods_of_paint by done.
  intros (m0 & -> & _)%list_elem_of_fmap (m0' & -> & _)%list_elem_of_fmap Hn.
  cbn in *. by rewrite Hn.
Qed.

Lemma paint_index_global_witness :
  exists types' t t' m m', paint sample_types = Ret types' /\
    types' !! 0%nat = Some t /\ types' !! 2%nat = Some t' /\
    methods_of t !! 1%nat = Some m /\ methods_of t' !! 1%nat = Some m' /\
    mangled_name m = "bar"%string /\ vtable_index m = vtable_index m'.
Proof.
  do 5 eexists. do 6 (split; [vm_compute; reflexivity|]).
  eapply (paint_index_global sample_types); [vm_compute; discriminate|vm_compute; reflexivity|vm_compute; reflexivity|left|
    right; right; left|reflexivity|reflexivity|right; left|right; left|reflexivity].
Defined.
