(* ===== verification/Ast.v ===== *)
(** * Abstract syntax trees: [src/libponyc/ast/ast.c]

    The part of the tree interface that the operations on types use.  A node has the id
    of its token, the rest of the token (position and text, an opaque number), the
    [ast_data] pointer and its children.  Nodes are values: an operation that changes a
    tree in place does so on a copy it has just made with [ast_dup], and the parent
    pointers and the sharing of unchanged trees are not part of the model. *)
From S2P Require Import Prelude Token.
Local Set Warnings "-register-all".

Inductive ast : Type :=
| Node (id : token_id) (tok : Z) (data : Z) (children : list ast).

Definition ast_id (t : ast) : token_id := match t with Node id _ _ _ => id end.
Definition ast_tok (t : ast) : Z := match t with Node _ tok _ _ => tok end.
Definition ast_data (t : ast) : Z := match t with Node _ _ data _ => data end.
Definition children (t : ast) : list ast := match t with Node _ _ _ l => l end.

(** [ast_childidx]: null past the last child. *)
Definition ast_childidx (t : ast) (idx : nat) : option ast := children t !! idx.

Definition ast_child (t : ast) : option ast := ast_childidx t 0.

(** [ast_id] of a pointer that may be null. *)
Definition ast_id_ptr (t : option ast) : outcome token_id :=
  match t with Some t => Ret (ast_id t) | None => Abort end.

(** [ast_from]: a childless node with the token of [t] and another id. *)
Definition ast_from (t : ast) (id : token_id) : ast := Node id (ast_tok t) 0 [].

Definition ast_setid (t : ast) (id : token_id) : ast :=
  match t with Node _ tok data l => Node id tok data l end.

(** A node with other children. *)
Definition with_children (t : ast) (l : list ast) : ast :=
  match t with Node id tok data _ => Node id tok data l end.

(** [ast_setid] on the child at an index. *)
Definition set_child_id (t : ast) (idx : nat) (id : token_id) : ast :=
  with_children t (alter (fun c => ast_setid c id) idx (children t)).

(** [while(child != NULL) { ast_append(r_type, f(child)); child = ast_sibling(child); }]:
    [ast_append] asserts that the new child is not null. *)
Fixpoint append_all (f : ast -> outcome (option ast)) (l : list ast) : outcome (list ast) :=
  match l with
  | [] => Ret []
  | c :: l =>
      r ← f c;
      match r with
      | None => Abort
      | Some r => rs ← append_all f l; Ret (r :: rs)
      end
  end.

(** The same loop when a null result ends it. *)
Fixpoint append_until_null (f : ast -> outcome (option ast)) (l : list ast)
    : outcome (option (list ast)) :=
  match l with
  | [] => Ret (Some [])
  | c :: l =>
      r ← f c;
      match r with
      | None => Ret None
      | Some r =>
          rs ← append_until_null f l;
          Ret (match rs with None => None | Some rs => Some (r :: rs) end)
      end
  end.

(** The same loop when null results are left out. *)
Fixpoint append_non_null (f : ast -> outcome (option ast)) (l : list ast) : outcome (list ast) :=
  match l with
  | [] => Ret []
  | c :: l =>
      r ← f c;
      rs ← append_non_null f l;
      Ret (match r with None => rs | Some r => r :: rs end)
  end.

(** [AST_GET_CHILDREN(t, left, right)]: the first two children, which must be there. *)
Definition two_children (t : ast) : outcome (ast * ast) :=
  match children t with l :: r :: _ => Ret (l, r) | _ => Abort end.

(** The first child of a node whose children are a compound type's elements. *)
Definition first_child (t : ast) : outcome ast :=
  match ast_child t with Some c => Ret c | None => Abort end.

(** ** Induction over trees *)

Section ast_induction.
Context (P : ast -> Prop).
Context (IH : forall id tok data l, Forall P l -> P (Node id tok data l)).

Fixpoint ast_tree_ind (t : ast) : P t :=
  match t with
  | Node id tok data l =>
      IH id tok data l
        ((fix go l := match l return Forall P l with
                      | [] => @List.Forall_nil ast P
                      | c :: l => @List.Forall_cons ast P c l (ast_tree_ind c) (go l)
                      end) l)
  end.
End ast_induction.

(** The number of levels of a tree. *)
Fixpoint height (t : ast) : nat :=
  match t with
  | Node _ _ _ l => S ((fix go l := match l with [] => O | c :: l => Nat.max (height c) (go l) end) l)
  end.

Lemma height_child t c : c ∈ children t -> height c < height t.
Proof.
  destruct t as [id tok data l]. cbn. induction l as [|x l IH]; intros Hc.
  - by apply elem_of_nil in Hc.
  - apply elem_of_cons in Hc as [->|Hc]; cbn; [lia|]. specialize (IH Hc). cbn in IH. lia.
Qed.

(** ** The loops, on functions that do not fail *)

Lemma append_all_ret f g l :
  (forall c, c ∈ l -> f c = Ret (Some (g c))) -> append_all f l = Ret (g <$> l).
Proof.
  induction l as [|c l IH]; intros H; cbn; [done|].
  rewrite H by left. cbn. rewrite IH by (intros; apply H; by right). done.
Qed.

Lemma append_until_null_ret f g l :
  (forall c, c ∈ l -> f c = Ret (Some (g c))) -> append_until_null f l = Ret (Some (g <$> l)).
Proof.
  induction l as [|c l IH]; intros H; cbn; [done|].
  rewrite H by left. cbn. rewrite IH by (intros; apply H; by right). done.
Qed.

Lemma append_non_null_ret f g l :
  (forall c, c ∈ l -> f c = Ret (Some (g c))) -> append_non_null f l = Ret (g <$> l).
Proof.
  induction l as [|c l IH]; intros H; cbn; [done|].
  rewrite H by left. cbn. rewrite IH by (intros; apply H; by right). done.
Qed.

(** The result of a loop has a result of [f] for every child. *)
Lemma append_all_inv f l rs :
  append_all f l = Ret rs -> Forall2 (fun c r => f c = Ret (Some r)) l rs.
Proof.
  revert rs. induction l as [|c l IH]; intros rs; cbn; [by intros [= <-]|].
  destruct (f c) as [[r|]| | |] eqn:E; cbn; try done.
  destruct (append_all f l) as [rs'| | |]; cbn; try done. intros [= <-]. constructor; auto.
Qed.

Lemma append_until_null_inv f l rs :
  append_until_null f l = Ret (Some rs) -> Forall2 (fun c r => f c = Ret (Some r)) l rs.
Proof.
  revert rs. induction l as [|c l IH]; intros rs; cbn; [by intros [= <-]|].
  destruct (f c) as [[r|]| | |] eqn:E; cbn; try done.
  destruct (append_until_null f l) as [[rs'|]| | |]; cbn; try done. intros [= <-]. constructor; auto.
Qed.

Lemma append_non_null_inv f l rs :
  append_non_null f l = Ret rs ->
  forall r, r ∈ rs -> exists c, c ∈ l /\ f c = Ret (Some r).
Proof.
  revert rs. induction l as [|c l IH]; intros rs; cbn.
  - intros [= <-] r Hr. by apply elem_of_nil in Hr.
  - destruct (f c) as [o| | |] eqn:E; cbn; try done.
    destruct (append_non_null f l) as [rs'| | |]; cbn; try done. intros [= <-] r Hr.
    destruct o as [r'|].
    + apply elem_of_cons in Hr as [->|Hr]; [exists c; split; [left|done]|].
      destruct (IH rs' eq_refl r Hr) as (c' & ? & ?). exists c'. split; [by right|done].
    + destruct (IH rs' eq_refl r Hr) as (c' & ? & ?). exists c'. split; [by right|done].
Qed.
