(* ===== verification/BuildFlagSet.v ===== *)
(** * Build flag sets: [src/libponyc/pkg/buildflagset.c]

    A set collects the flags of build conditions and enumerates their configurations: one
    platform flag of every group in use, and any value of the other flags, which are kept
    in a hash table ([HashTab.v]).  A flag is the pointer to its interned name; what the
    pointer refers to and the table of strings are the interface [CStrings]. *)
From S2P Require Import Prelude Fun Hash HashOps HashTab.
From Stdlib Require Import Ascii String.
From stdpp Require Import gmap fin_maps strings.
Local Open Scope Z_scope.
Local Set Warnings "-clear-no-such-hyp".

(** [text p] are the characters at [p]; [intern] is [stringtab] of the compilation's table. *)
Class CStrings := {
  text : Z -> string;
  intern : string -> Z;
  text_intern s : text (intern s) = s
}.

(** ** Platform flags *)

Definition OS_BSD_NAME : string := "bsd".
Definition OS_LINUX_NAME : string := "linux".
Definition OS_MACOSX_NAME : string := "osx".
Definition OS_POSIX_NAME : string := "posix".

Definition _os_flags : list string :=
  [OS_BSD_NAME; "freebsd"; "dragonfly"; "openbsd"; OS_LINUX_NAME; OS_MACOSX_NAME; "windows"; "unknown_OS"]%string.
Definition _arch_flags : list string := ["x86"; "arm"; "unknown_arch"]%string.
Definition _size_flags : list string := ["lp64"; "llp64"; "ilp32"; "unknown_size"]%string.
Definition _endian_flags : list string := ["bigendian"; "littleendian"; "unknown_endian"]%string.

(** ** The flags of a set *)

Record flag_t := mk_flag { name : Z; value : bool }.

Definition flag_hash (flag : flag_t) : Z := ponyint_hash_ptr (name flag).
Definition flag_cmp (a b : flag_t) : bool := name a =? name b.

#[export] Instance flag_elem : TabElem flag_t := {| elem_hash := flag_hash; elem_cmp := flag_cmp |}.

#[export, program] Instance flag_keys : TabKeys flag_t :=
  {| tkey := Z; tkey_of f := name f; tkey_hash := ponyint_hash_ptr |}.
Next Obligation. done. Qed.
Next Obligation.
  intros x y. cbn. unfold flag_cmp.
  by destruct (Z.eqb_spec (name x) (name y)), (bool_decide_reflect (name x = name y)).
Qed.

(** A field for each of the groups of platform flags. *)
Record groups (A : Type) := mk_groups { g_os : A; g_arch : A; g_size : A; g_endian : A }.
Arguments mk_groups {A} _ _ _ _.
Arguments g_os {A} _. Arguments g_arch {A} _. Arguments g_size {A} _. Arguments g_endian {A} _.

(** The fields [have_..._flags] and [enum_..._flags] are [have] and [enum]. *)
Record buildflagset_t := mk_set {
  have : groups bool;
  started_enum : bool;
  first_config_ready : bool;
  flags : tab_t flag_t;
  enum : groups Z;
  text_buffer : list ascii;
  buffer_size : Z
}.

Definition with_have (set : buildflagset_t) (h : groups bool) : buildflagset_t :=
  mk_set h (started_enum set) (first_config_ready set) (flags set) (enum set) (text_buffer set) (buffer_size set).
Definition with_flags (set : buildflagset_t) (t : tab_t flag_t) : buildflagset_t :=
  mk_set (have set) (started_enum set) (first_config_ready set) t (enum set) (text_buffer set) (buffer_size set).
Definition with_cells (set : buildflagset_t) (h : gmap Z flag_t) : buildflagset_t :=
  with_flags set (mk_tab (contents (flags set)) h).
Definition with_enum (set : buildflagset_t) (e : groups Z) : buildflagset_t :=
  mk_set (have set) (started_enum set) (first_config_ready set) (flags set) e (text_buffer set) (buffer_size set).
Definition with_first (set : buildflagset_t) (b : bool) : buildflagset_t :=
  mk_set (have set) (started_enum set) b (flags set) (enum set) (text_buffer set) (buffer_size set).
Definition with_text (set : buildflagset_t) (buf : list ascii) (size : Z) : buildflagset_t :=
  mk_set (have set) (started_enum set) (first_config_ready set) (flags set) (enum set) buf size.

(** The index of a string in one of the arrays, or -1. *)
Fixpoint flag_index (l : list string) (flag : string) (i : Z) : Z :=
  match l with
  | [] => -1
  | s :: l => if String.eqb flag s then i else flag_index l flag (i + 1)
  end.

(** The text of a set and the position [pointer - text_buffer] at which to write. *)
Abbreviation cursor := (list ascii * Z)%type.

Section operations.
Context `{CStrings} (fresh_buckets : Z -> list hashmap_entry_t).

Definition os_index (flag : Z) : Z := flag_index _os_flags (text flag) 0.
Definition arch_index (flag : Z) : Z := flag_index _arch_flags (text flag) 0.
Definition size_index (flag : Z) : Z := flag_index _size_flags (text flag) 0.
Definition endian_index (flag : Z) : Z := flag_index _endian_flags (text flag) 0.

(** The fields that are not initialised have the values of the allocated memory. *)
Definition buildflagset_create (uninit : buildflagset_t) : buildflagset_t :=
  mk_set (mk_groups false false false false) false (first_config_ready uninit)
    (tab_init fresh_buckets 8) (enum uninit) [zero] 1.

Definition buildflagset_add (set : buildflagset_t) (flag : Z) : outcome buildflagset_t :=
  let h := have set in
  if started_enum set then Abort
  else if 0 <=? os_index flag then
    Ret (with_have set (mk_groups true (g_arch h) (g_size h) (g_endian h)))
  else if 0 <=? arch_index flag then
    Ret (with_have set (mk_groups (g_os h) true (g_size h) (g_endian h)))
  else if 0 <=? size_index flag then
    Ret (with_have set (mk_groups (g_os h) (g_arch h) true (g_endian h)))
  else if 0 <=? endian_index flag then
    Ret (with_have set (mk_groups (g_os h) (g_arch h) (g_size h) true))
  else
    let f1 := mk_flag flag false in
    let '(f2, index) := tab_get (flags set) f1 in
    if negb (f2 =? NULL) then Ret set
    else
      let '(t, p) := tab_alloc (flags set) f1 in
      t ← tab_putindex fresh_buckets t p (default HASHMAP_UNKNOWN index);
      Ret (with_flags set t).

(** The result is a double; every product is the exact number (see [configcount_double]). *)
Definition buildflagset_configcount (set : buildflagset_t) : outcome Z :=
  let r := 1 in
  let r := if g_os (have set) then r * Z.of_nat (length _os_flags) else r in
  let r := if g_arch (have set) then r * Z.of_nat (length _arch_flags) else r in
  let r := if g_size (have set) then r * Z.of_nat (length _size_flags) else r in
  let r := if g_endian (have set) then r * Z.of_nat (length _endian_flags) else r in
  '(_, r) ← tab_each (flags set) (fun _ r => Ret (false, r * 2)) r;
  Ret r.

(** [flag->value = v] *)
Definition set_value (h : gmap Z flag_t) (p : Z) (v : bool) : outcome (gmap Z flag_t) :=
  match h !! p with
  | None => Abort
  | Some f => Ret (<[p := mk_flag (name f) v]> h)
  end.

Definition buildflagset_startenum (set : buildflagset_t) : outcome buildflagset_t :=
  '(_, h) ← tab_each (flags set) (fun flag h => h ← set_value h flag false; Ret (false, h)) (cells (flags set));
  Ret (mk_set (have set) true true (mk_tab (contents (flags set)) h) (mk_groups 0 0 0 0)
         (text_buffer set) (buffer_size set)).

(** The step of one group: whether the next configuration is there, and the enumerator. *)
Definition next_group (have_flags : bool) (l : list string) (enum_flags : Z) : bool * Z :=
  if have_flags then
    let enum_flags := u32 (enum_flags + 1) in
    if enum_flags <? Z.of_nat (length l) then (true, enum_flags) else (false, 0)
  else (false, enum_flags).

(** The step of the other flags: a false flag becomes true and ends it, a true one becomes
    false and overflows to the next one. *)
Definition next_flag (flag : Z) (h : gmap Z flag_t) : outcome (bool * gmap Z flag_t) :=
  match h !! flag with
  | None => Abort
  | Some f => h ← set_value h flag (negb (value f)); Ret (negb (value f), h)
  end.

Definition buildflagset_next (set : buildflagset_t) : outcome (bool * buildflagset_t) :=
  if negb (started_enum set) then Abort
  else if first_config_ready set then Ret (true, with_first set false)
  else
    let e := enum set in
    let '(ready, os) := next_group (g_os (have set)) _os_flags (g_os e) in
    let e := mk_groups os (g_arch e) (g_size e) (g_endian e) in
    if ready then Ret (true, with_enum set e)
    else
      let '(ready, arch) := next_group (g_arch (have set)) _arch_flags (g_arch e) in
      let e := mk_groups os arch (g_size e) (g_endian e) in
      if ready then Ret (true, with_enum set e)
      else
        let '(ready, size) := next_group (g_size (have set)) _size_flags (g_size e) in
        let e := mk_groups os arch size (g_endian e) in
        if ready then Ret (true, with_enum set e)
        else
          let '(ready, endian) := next_group (g_endian (have set)) _endian_flags (g_endian e) in
          let e := mk_groups os arch size endian in
          if ready then Ret (true, with_enum set e)
          else
            '(ready, h) ← tab_each (flags set) next_flag (cells (flags set));
            Ret (ready, with_cells (with_enum set e) h).

Definition buildflagset_get (set : buildflagset_t) (flag : Z) : outcome bool :=
  if negb (started_enum set) then Abort
  else if 0 <=? os_index flag then Ret (g_os (enum set) =? u32 (os_index flag))
  else if 0 <=? arch_index flag then Ret (g_arch (enum set) =? u32 (arch_index flag))
  else if 0 <=? size_index flag then Ret (g_size (enum set) =? u32 (size_index flag))
  else if 0 <=? endian_index flag then Ret (g_endian (enum set) =? u32 (endian_index flag))
  else
    let '(f2, _) := tab_get (flags set) (mk_flag flag false) in
    if f2 =? NULL then Abort
    else match cells (flags set) !! f2 with Some f => Ret (value f) | None => Abort end.

(** *** Printing *)

Definition write (buf : list ascii) (p : nat) (l : list ascii) : list ascii :=
  take p buf ++ l ++ drop (p + length l) buf.

(** [snprintf] writes the characters and a terminator. *)
Definition print_str (s : string) (size : Z) (c : cursor) : cursor :=
  let '(buf, p) := c in
  let len := Z.of_nat (String.length s) in
  (if p + len <? size then write buf (Z.to_nat p) (list_ascii_of_string s ++ [zero]) else buf, p + len).

Definition print_flag (flag : string) (sense : bool) (size : Z) (c : cursor) : cursor :=
  let c := if negb (snd c =? 0) then print_str " " size c else c in
  let c := if negb sense then print_str "!" size c else c in
  print_str flag size c.

(** [_flags[enum]] *)
Definition flag_at (l : list string) (i : Z) : string := default EmptyString (l !! Z.to_nat i).

(** The passes over the flags in [buildflagset_print]. *)
Definition print_flags (set : buildflagset_t) : outcome cursor :=
  let size := buffer_size set in
  let group have_flags l i c := if have_flags : bool then print_flag (flag_at l i) true size c else c in
  let c := (text_buffer set, 0) in
  let c := group (g_os (have set)) _os_flags (g_os (enum set)) c in
  let c := group (g_arch (have set)) _arch_flags (g_arch (enum set)) c in
  let c := group (g_size (have set)) _size_flags (g_size (enum set)) c in
  let c := group (g_endian (have set)) _endian_flags (g_endian (enum set)) c in
  '(_, c) ← tab_each (flags set) (fun flag c =>
      match cells (flags set) !! flag with
      | None => Abort
      | Some f => Ret (false, print_flag (text (name f)) (value f) size c)
      end) c;
  Ret (if snd c =? 0 then print_str "all configs" size c else c).

(** [fresh_text] is the contents of an allocated buffer. *)
Fixpoint buildflagset_print (fresh_text : Z -> list ascii) (fuel : nat) (set : buildflagset_t)
    : outcome buildflagset_t :=
  match fuel with
  | O => NoFuel
  | S fuel =>
      '(buf, p) ← print_flags set;
      let size_needed := p + 1 in
      set ← (if buffer_size set <? size_needed then
               buildflagset_print fresh_text fuel
                 (with_text set (<[0%nat := zero]> (fresh_text size_needed)) size_needed)
             else Ret (with_text set buf (buffer_size set)));
      Ret (with_text set (<[Z.to_nat (size_needed - 1) := zero]> (text_buffer set)) (buffer_size set))
  end.

(** *** User flags *)

Definition userflags_create : tab_t flag_t := tab_init fresh_buckets 4.

Definition define_userflag (flags : tab_t flag_t) (name : string) : outcome (bool * tab_t flag_t) :=
  let f1 := mk_flag (intern name) false in
  let '(f2, index) := tab_get flags f1 in
  if negb (f2 =? NULL) then Ret (false, flags)
  else
    let '(t, p) := tab_alloc flags f1 in
    t ← tab_putindex fresh_buckets t p (default HASHMAP_UNKNOWN index);
    Ret (true, t).

(** The loop, on [removed]. *)
Fixpoint remove_loop (flags : tab_t flag_t) (flags_to_remove : list string) (removed : Z)
    : outcome (Z * tab_t flag_t) :=
  match flags_to_remove with
  | [] => Ret (removed, flags)
  | next :: l =>
      '(flags, found) ← tab_remove flags (mk_flag (intern next) false);
      if negb (found =? NULL) then remove_loop (tab_free flags found) l (removed + 1)
      else remove_loop flags l removed
  end.

Definition remove_userflags (flags : tab_t flag_t) (flags_to_remove : list string)
    : outcome (bool * tab_t flag_t) :=
  '(removed, flags) ← remove_loop flags flags_to_remove 0; Ret (0 <? removed, flags).

Definition is_userflag_defined (flags : tab_t flag_t) (name : string) : bool :=
  let '(f2, _) := tab_get flags (mk_flag (intern name) false) in negb (f2 =? NULL).

Definition clear_userflags (flags : tab_t flag_t) : outcome (tab_t flag_t) := tab_destroy flags.
End operations.

(** ** Mixed-radix counters

    What the enumerators count: the digits in base [b] for the groups in use, in base 2 for
    the other flags. *)

(** The next value of a counter, and whether it did not overflow. *)
Fixpoint increment (bases digits : list Z) : bool * list Z :=
  match bases, digits with
  | b :: bases, d :: digits =>
      if d + 1 <? b then (true, d + 1 :: digits)
      else let '(ready, digits) := increment bases digits in (ready, 0 :: digits)
  | _, _ => (false, [])
  end.

Fixpoint digits_at (bases : list Z) (k : Z) : list Z :=
  match bases with
  | [] => []
  | b :: bases => k mod b :: digits_at bases (k / b)
  end.

Definition combinations (bases : list Z) : Z := foldr Z.mul 1 bases.

Definition digits_ok (bases digits : list Z) : Prop := Forall2 (fun b d => 0 <= d < b) bases digits.

Lemma combinations_pos bases : Forall (fun b => 0 < b) bases -> 0 < combinations bases.
Proof. unfold combinations. induction 1; cbn; nia. Qed.

Lemma digits_at_ok bases k : Forall (fun b => 0 < b) bases -> digits_ok bases (digits_at bases k).
Proof.
  intros Hb. revert k. induction Hb as [|b bases Hb _ IH]; intros k; cbn; [constructor|].
  constructor; [by apply Z.mod_pos_bound|apply IH].
Qed.

Lemma digits_at_zero bases : Forall (fun b => 0 < b) bases -> digits_at bases 0 = (fun _ => 0) <$> bases.
Proof. induction 1; cbn; [done|]. rewrite Z.mod_0_l, Z.div_0_l by lia. by f_equal. Qed.

Lemma increment_digits bases k :
  Forall (fun b => 0 < b) bases -> 0 <= k < combinations bases ->
  increment bases (digits_at bases k) = (k + 1 <? combinations bases, digits_at bases ((k + 1) mod combinations bases)).
Proof.
  intros Hb. revert k. induction Hb as [|b bases Hb Hbs IH]; intros k Hk; cbn in *.
  { rewrite (proj2 (Z.ltb_ge _ _)) by lia. done. }
  pose proof (combinations_pos _ Hbs) as Ht. fold (combinations bases) in *.
  pose proof (Z.mod_pos_bound k b Hb) as Hr. pose proof (Z.div_mod k b ltac:(lia)) as Hdm.
  set (q := k / b) in *. set (r := k mod b) in *.
  assert (0 <= q < combinations bases) as Hq by nia.
  destruct (Z.ltb_spec (r + 1) b) as [Hlt|Hge].
  - assert (k + 1 < b * combinations bases) as Hk1 by nia.
    rewrite (proj2 (Z.ltb_lt _ _)) by done. rewrite (Z.mod_small (k + 1) (b * combinations bases)) by lia.
    replace (k + 1) with (q * b + (r + 1)) by lia.
    rewrite Z.div_add_l, (Z.div_small (r + 1)) by lia.
    rewrite (Z.add_comm (q * b)), Z_mod_plus_full, Z.mod_small by lia. by rewrite Z.add_0_r.
  - assert (k + 1 = (q + 1) * b) as E by nia. rewrite (IH q Hq), E.
    rewrite (Z.mul_comm b), Z.mul_mod_distr_r by lia. rewrite Z.mod_mul, Z.div_mul by lia.
    f_equal. destruct (Z.ltb_spec (q + 1) (combinations bases)), (Z.ltb_spec ((q + 1) * b) (combinations bases * b)); nia || done.
Qed.

(** Every counter value is reached, once. *)
Lemma digits_at_surj bases digits :
  digits_ok bases digits -> exists k, 0 <= k < combinations bases /\ digits_at bases k = digits.
Proof.
  induction 1 as [|b d bases digits Hd _ (k & Hk & <-)]; [by exists 0|].
  exists (k * b + d). cbn. fold (combinations bases). split; [nia|].
  rewrite Z.div_add_l, (Z.div_small d), Z.add_0_r by lia. f_equal.
  by rewrite (Z.add_comm (k * b)), Z_mod_plus_full, Z.mod_small by lia.
Qed.

Lemma digits_at_inj bases k j :
  Forall (fun b => 0 < b) bases -> 0 <= k < combinations bases -> 0 <= j < combinations bases ->
  digits_at bases k = digits_at bases j -> k = j.
Proof.
  intros Hb. revert k j. induction Hb as [|b bases Hb Hbs IH]; intros k j Hk Hj; cbn in *; [lia|].
  fold (combinations bases) in *. intros [= Hm Hd%IH].
  - rewrite (Z.div_mod k b), (Z.div_mod j b) by lia. congruence.
  - split; [apply Z.div_pos; lia|]. apply Z.div_lt_upper_bound; lia.
  - split; [apply Z.div_pos; lia|]. apply Z.div_lt_upper_bound; lia.
Qed.

(** ** The enumeration of a set is such a counter *)

Section enumeration.
Context `{CStrings}.
Implicit Types set : buildflagset_t.

Definition used_digit {A} (h : bool) (d : A) : list A := if h then [d] else [].

Definition group_digits {A} (h : groups bool) (d : groups A) : list A :=
  used_digit (g_os h) (g_os d) ++ used_digit (g_arch h) (g_arch d) ++
  used_digit (g_size h) (g_size d) ++ used_digit (g_endian h) (g_endian d).

Definition group_sizes : groups Z := mk_groups 8 3 4 3.

Definition values (h : gmap Z flag_t) (l : list Z) : list Z :=
  (fun p => Z.b2z (from_option value false (h !! p))) <$> l.

Definition bases set : list Z :=
  group_digits (have set) group_sizes ++ replicate (length (ptrs (flags set))) 2.

Definition digits set : list Z :=
  group_digits (have set) (enum set) ++ values (cells (flags set)) (ptrs (flags set)).

(** The flags are the same, their values and the enumerators may differ. *)
Definition same_flags set set' : Prop :=
  have set' = have set /\ contents (flags set') = contents (flags set) /\
  forall p, (name <$> cells (flags set') !! p) = (name <$> cells (flags set) !! p).

#[export] Instance same_flags_equiv : Equivalence same_flags.
Proof.
  split; unfold same_flags.
  - done.
  - intros x y (-> & -> & Hn). split_and!; [done|done|]. intros p. by rewrite Hn.
  - intros x y z (-> & -> & Hxy) (-> & -> & Hyz). split_and!; [done|done|]. intros p. by rewrite Hyz.
Qed.

Lemma same_ptrs set set' : same_flags set set' -> ptrs (flags set') = ptrs (flags set).
Proof. intros (_ & E & _). unfold ptrs. by rewrite E. Qed.

Lemma same_bases set set' : same_flags set set' -> bases set' = bases set.
Proof. intros Hs. unfold bases. rewrite (same_ptrs _ _ Hs). by destruct Hs as (-> & _). Qed.

Lemma same_tab_ok set set' : same_flags set set' -> tab_ok (flags set) -> tab_ok (flags set').
Proof.
  intros (_ & Hc & Hn) Hok. destruct set' as [h s f [c' m'] e t b]. cbn in *. subst c'.
  by apply tab_ok_update.
Qed.

Lemma group_sizes_pos h : Forall (fun b => 0 < b) (group_digits h group_sizes).
Proof. destruct h as [[] [] [] []]; cbn; repeat constructor. Qed.

Lemma bases_pos set : Forall (fun b => 0 < b) (bases set).
Proof. apply Forall_app. split; [apply group_sizes_pos|]. by apply Forall_replicate. Qed.

(** One group. *)
Lemma next_group_increment h l e bs ds :
  (h = true -> 0 <= e < Z.of_nat (length l)) -> Z.of_nat (length l) < 2 ^ 32 ->
  increment (used_digit h (Z.of_nat (length l)) ++ bs) (used_digit h e ++ ds) =
    let '(ready, e') := next_group h l e in
    if ready then (true, used_digit h e' ++ ds)
    else let '(ready, ds') := increment bs ds in (ready, used_digit h e' ++ ds').
Proof.
  intros He Hl. destruct h; cbn [used_digit app next_group increment]; [|by destruct (increment bs ds)].
  assert (u32 (e + 1) = e + 1) as -> by (apply Z.mod_small; specialize (He eq_refl); lia).
  by destruct (e + 1 <? Z.of_nat (length l)).
Qed.

Lemma values_cons h p l : values h (p :: l) = Z.b2z (from_option value false (h !! p)) :: values h l.
Proof. done. Qed.

Lemma next_flag_cell p h f :
  h !! p = Some f -> next_flag p h = Ret (negb (value f), <[p := mk_flag (name f) (negb (value f))]> h).
Proof. intros Hf. unfold next_flag, set_value. by rewrite Hf. Qed.

(** The other flags. *)
Lemma next_flags_increment l h :
  NoDup l -> Forall (fun p => is_Some (h !! p)) l ->
  exists h', fold_until next_flag l h = Ret (fst (increment (replicate (length l) 2) (values h l)), h') /\
    values h' l = snd (increment (replicate (length l) 2) (values h l)) /\
    (forall p, (name <$> h' !! p) = (name <$> h !! p)) /\ (forall p, p ∉ l -> h' !! p = h !! p).
Proof.
  intros Hnd. revert h. induction Hnd as [|p l Hp Hnd IH]; intros h Hall; [by exists h|].
  apply Forall_cons in Hall as [[f Hf] Hall]. cbn [fold_until].
  rewrite (next_flag_cell p h f) by done. cbn [mbind outcome_bind].
  set (h1 := <[p := mk_flag (name f) (negb (value f))]> h).
  assert (values h1 l = values h l) as Hv.
  { apply list_fmap_ext. intros i q Hq. unfold h1. rewrite lookup_insert_ne; [done|].
    intros ->. apply Hp. by eapply list_elem_of_lookup_2. }
  assert (forall q, (name <$> h1 !! q) = (name <$> h !! q)) as Hn.
  { intros q. unfold h1. destruct (decide (q = p)) as [->|]; [|by rewrite lookup_insert_ne].
    rewrite lookup_insert_eq, Hf. done. }
  set (r := increment _ (values h (p :: l))).
  assert (r = if Z.b2z (value f) + 1 <? 2 then (true, Z.b2z (value f) + 1 :: values h l)
              else let '(ready, ds) := increment (replicate (length l) 2) (values h l) in (ready, 0 :: ds))
    as -> by (unfold r; by rewrite values_cons, Hf).
  destruct (value f) eqn:Hval; cbn [negb Z.b2z].
  - change (1 + 1 <? 2) with false. cbn iota.
    destruct (IH h1) as (h' & -> & Hv' & Hn' & Hoff).
    { apply Forall_forall. intros q Hq. specialize (Hn q).
      destruct (proj1 (Forall_forall _ _) Hall q Hq) as [g Hg]. rewrite Hg in Hn.
      destruct (h1 !! q); [by eexists|done]. }
    rewrite Hv in *. destruct (increment (replicate (length l) 2) (values h l)) as [r ds]. cbn in *.
    exists h'. split; [done|]. split; [|split; [congruence|]].
    + rewrite Hoff by done. unfold h1. rewrite lookup_insert_eq. cbn. by f_equal.
    + intros q Hq. rewrite Hoff by set_solver. unfold h1. apply lookup_insert_ne. set_solver.
  - change (0 + 1 <? 2) with true. cbn iota. exists h1. split; [done|]. split; [|split; [done|]].
    + rewrite values_cons, Hv. unfold h1. by rewrite lookup_insert_eq.
    + intros q Hq. unfold h1. apply lookup_insert_ne. set_solver.
Qed.

Lemma digits_ok_group (h : bool) b d bs ds :
  digits_ok (used_digit h b ++ bs) (used_digit h d ++ ds) -> (h = true -> 0 <= d < b) /\ digits_ok bs ds.
Proof.
  destruct h; cbn; [|by split]. intros Hok. inversion Hok; subst. by split.
Qed.

Lemma length_values h l : length (values h l) = length l.
Proof. apply length_fmap. Qed.

Lemma with_cells_same set h :
  (forall p, (name <$> h !! p) = (name <$> cells (flags set) !! p)) -> same_flags set (with_cells set h).
Proof. intros Hn. by split_and!. Qed.

(** The state after a step of a group or of the flags. *)
Ltac stepped := eexists; split; [done|]; split; [cbn; by rewrite <- !app_assoc|by repeat split].

(** [buildflagset_next] steps the counter. *)
Lemma next_increment set :
  tab_ok (flags set) -> started_enum set = true -> first_config_ready set = false ->
  digits_ok (bases set) (digits set) ->
  exists set', buildflagset_next set = Ret (fst (increment (bases set) (digits set)), set') /\
    digits set' = snd (increment (bases set) (digits set)) /\ same_flags set set' /\
    started_enum set' = true /\ first_config_ready set' = false.
Proof.
  intros Hok Hst Hfirst Hd. unfold buildflagset_next. rewrite Hst, Hfirst. cbn [negb].
  unfold bases, digits, group_digits in *. cbn [g_os g_arch g_size g_endian group_sizes] in *.
  rewrite <- !app_assoc in *.
  apply digits_ok_group in Hd as [Hos Hd]. apply digits_ok_group in Hd as [Harch Hd].
  apply digits_ok_group in Hd as [Hsize Hd]. apply digits_ok_group in Hd as [Hendian Hd].
  pose proof (next_group_increment (g_os (have set)) _os_flags (g_os (enum set))) as I1.
  pose proof (next_group_increment (g_arch (have set)) _arch_flags (g_arch (enum set))) as I2.
  pose proof (next_group_increment (g_size (have set)) _size_flags (g_size (enum set))) as I3.
  pose proof (next_group_increment (g_endian (have set)) _endian_flags (g_endian (enum set))) as I4.
  change (Z.of_nat (length _os_flags)) with 8 in I1. change (Z.of_nat (length _arch_flags)) with 3 in I2.
  change (Z.of_nat (length _size_flags)) with 4 in I3. change (Z.of_nat (length _endian_flags)) with 3 in I4.
  rewrite I1, I2, I3, I4 by done. clear I1 I2 I3 I4 Hos Harch Hsize Hendian Hd.
  cbn [g_os g_arch g_size g_endian].
  destruct (next_group (g_os (have set)) _ _) as [[] os]; [by stepped|].
  destruct (next_group (g_arch (have set)) _ _) as [[] arch]; [by stepped|].
  destruct (next_group (g_size (have set)) _ _) as [[] sz]; [by stepped|].
  destruct (next_group (g_endian (have set)) _ _) as [[] en]; [by stepped|].
  rewrite tab_each_spec by done.
  destruct (next_flags_increment (ptrs (flags set)) (cells (flags set)))
    as (h' & -> & Hv & Hn & _);
    [by apply ptrs_nodup|apply (tab_cells _ Hok)|].
  cbn [mbind outcome_bind].
  destruct (increment (replicate _ 2) _) as [r ds]. cbn [fst snd] in *.
  rewrite <- Hv. stepped.
Qed.

(** ** What the configurations are *)

(** What the flags of the groups are when the flag [i] of each group is the true one. *)
Definition platform_value (i : groups Z) (flag : Z) : option bool :=
  if 0 <=? os_index flag then Some (g_os i =? os_index flag)
  else if 0 <=? arch_index flag then Some (g_arch i =? arch_index flag)
  else if 0 <=? size_index flag then Some (g_size i =? size_index flag)
  else if 0 <=? endian_index flag then Some (g_endian i =? endian_index flag)
  else None.

Definition is_platform (flag : Z) : bool :=
  (0 <=? os_index flag) || (0 <=? arch_index flag) || (0 <=? size_index flag) || (0 <=? endian_index flag).

(** A well-formed set: platform flags are not in the table. *)
Record flagset_ok set : Prop := {
  set_tab : tab_ok (flags set);
  set_names : Forall (fun f => is_platform (name f) = false) (elems (flags set));
  set_size : msize (contents (flags set)) <= Z.max (2 ^ 52) (16 * count (contents (flags set)))
}.

(** The flags that have been added to a set, or whose group is in use. *)
Definition flag_used set (flag : Z) : Prop :=
  if 0 <=? os_index flag then g_os (have set) = true
  else if 0 <=? arch_index flag then g_arch (have set) = true
  else if 0 <=? size_index flag then g_size (have set) = true
  else if 0 <=? endian_index flag then g_endian (have set) = true
  else flag ∈ name <$> elems (flags set).

(** An assignment of truth values to flags that makes one flag of each group true. *)
Definition picks (rho : Z -> bool) (i : groups Z) : Prop :=
  (0 <= g_os i < 8 /\ 0 <= g_arch i < 3 /\ 0 <= g_size i < 4 /\ 0 <= g_endian i < 3) /\
  forall flag b, platform_value i flag = Some b -> rho flag = b.

Definition possible (rho : Z -> bool) : Prop := exists i, picks rho i.

(** The configuration of a set agrees with an assignment. *)
Definition agrees set (rho : Z -> bool) : Prop :=
  forall flag, flag_used set flag -> buildflagset_get set flag = Ret (rho flag).

(** ** Reading a configuration *)

Lemma flag_index_range l flag i :
  0 <= i -> flag_index l flag i = -1 \/ i <= flag_index l flag i < i + Z.of_nat (length l).
Proof.
  revert i. induction l as [|s l IH]; intros i Hi; cbn; [by left|]. destruct (String.eqb flag s); [right; lia|].
  destruct (IH (i + 1) ltac:(lia)); [by left|right; lia].
Qed.

Lemma u32_index l flag :
  Z.of_nat (length l) < 2 ^ 32 -> (0 <=? flag_index l flag 0) = true -> u32 (flag_index l flag 0) = flag_index l flag 0.
Proof.
  intros Hl Hi%Z.leb_le. apply Z.mod_small. destruct (flag_index_range l flag 0); lia.
Qed.

Lemma get_platform set flag b :
  started_enum set = true -> platform_value (enum set) flag = Some b -> buildflagset_get set flag = Ret b.
Proof.
  intros Hst. unfold buildflagset_get, platform_value. rewrite Hst. cbn [negb].
  unfold os_index, arch_index, size_index, endian_index.
  repeat (case_match; [rewrite u32_index by done; by intros [= <-]|]). done.
Qed.

Lemma not_platform_value i flag : is_platform flag = false -> platform_value i flag = None.
Proof.
  unfold is_platform, platform_value. intros Hp.
  repeat (apply orb_false_elim in Hp as [Hp ->]). by rewrite Hp.
Qed.

Lemma get_table set p f :
  flagset_ok set -> started_enum set = true -> p ∈ ptrs (flags set) -> cells (flags set) !! p = Some f ->
  buildflagset_get set (name f) = Ret (value f).
Proof.
  intros Hok Hst Hp Hf. unfold buildflagset_get. rewrite Hst. cbn [negb].
  assert (is_platform (name f) = false) as Hn.
  { apply (proj1 (Forall_forall _ _) (set_names _ Hok)). apply elem_of_elems. eauto. }
  unfold is_platform in Hn. repeat (apply orb_false_elim in Hn as [Hn ->]). rewrite Hn.
  pose proof (tab_get_spec (flags set) (mk_flag (name f) false) (set_tab _ Hok)) as Hget.
  destruct (elem_of_ptrs _ _ (set_tab _ Hok) Hp) as (f' & Hf' & Hne).
  assert (fst (tab_get (flags set) (mk_flag (name f) false)) = p) as E.
  { apply (get_spec_unique _ _ _ (p, Some 0) (set_tab _ Hok) Hget). by apply (get_some _ _ p f 0). }
  destruct (tab_get _ _) as [q idx]. cbn in E. subst q.
  rewrite (proj2 (Z.eqb_neq p NULL)) by done. by rewrite Hf.
Qed.

Lemma used_digit_inv {A} (h : bool) (d d' : A) l l' :
  used_digit h d ++ l = used_digit h d' ++ l' -> (h = true -> d = d') /\ l = l'.
Proof. destruct h; cbn; [by intros [= -> ->]|done]. Qed.

Lemma group_digits_inv {A} h (e i : groups A) :
  group_digits h e = group_digits h i ->
  (g_os h = true -> g_os e = g_os i) /\ (g_arch h = true -> g_arch e = g_arch i) /\
  (g_size h = true -> g_size e = g_size i) /\ (g_endian h = true -> g_endian e = g_endian i).
Proof.
  unfold group_digits. intros [? [? [? E]%used_digit_inv]%used_digit_inv]%used_digit_inv.
  split_and!; [done|done|done|]. intros Hh. rewrite Hh in E. by injection E.
Qed.

(** A set that has the flags of [rho] in its table and in the groups in use agrees with it. *)
Lemma digits_agree set rho i :
  flagset_ok set -> started_enum set = true -> picks rho i ->
  digits set = group_digits (have set) i ++
    ((fun p => Z.b2z (rho (from_option name 0 (cells (flags set) !! p)))) <$> ptrs (flags set)) ->
  agrees set rho.
Proof.
  intros Hok Hst [Hrange Hpicks] Hd flag Hused. unfold digits in Hd.
  apply app_inj_1 in Hd as [Hgroups Hvalues]; [|by destruct (have set) as [[] [] [] []]].
  destruct (platform_value i flag) as [b|] eqn:Hpv.
  - rewrite (Hpicks flag b Hpv). apply get_platform; [done|]. rewrite <- Hpv.
    unfold flag_used, platform_value in *.
    apply group_digits_inv in Hgroups as (E1 & E2 & E3 & E4).
    repeat (case_match; [rewrite ?E1, ?E2, ?E3, ?E4 by done; done|]). done.
  - assert (flag ∈ name <$> elems (flags set)) as Hin.
    { unfold flag_used, platform_value in *. by repeat case_match. }
    apply list_elem_of_fmap in Hin as (f & -> & (p & Hp & Hf)%elem_of_elems).
    rewrite (get_table set p f) by done. f_equal. unfold values in Hvalues.
    apply list_elem_of_lookup_1 in Hp as [k Hk].
    assert (Z.b2z (value f) = Z.b2z (rho (name f))) as E.
    { pose proof (f_equal (.!! k) Hvalues) as E. cbn in E. rewrite !list_lookup_fmap, Hk in E. cbn in E.
      rewrite Hf in E. by injection E. }
    by destruct (value f), (rho (name f)).
Qed.

(** ** Running through the configurations *)

(** The set that [startenum] was called on, in its configuration [k]. *)
Definition at_config set0 (k : Z) set : Prop :=
  same_flags set0 set /\ started_enum set = true /\ first_config_ready set = false /\
  digits set = digits_at (bases set0) k.

Lemma clear_flags l h :
  NoDup l -> Forall (fun p => is_Some (h !! p)) l ->
  exists h', fold_until (fun flag h => h ← set_value h flag false; Ret (false, h)) l h = Ret (false, h') /\
    values h' l = replicate (length l) 0 /\
    (forall p, (name <$> h' !! p) = (name <$> h !! p)) /\ (forall p, p ∉ l -> h' !! p = h !! p).
Proof.
  intros Hnd. revert h. induction Hnd as [|p l Hp Hnd IH]; intros h Hall; [by exists h|].
  apply Forall_cons in Hall as [[f Hf] Hall]. cbn [fold_until].
  assert (set_value h p false = Ret (<[p := mk_flag (name f) false]> h)) as -> by (unfold set_value; by rewrite Hf).
  cbn [mbind outcome_bind]. set (h1 := <[p := mk_flag (name f) false]> h).
  assert (forall q, (name <$> h1 !! q) = (name <$> h !! q)) as Hn.
  { intros q. unfold h1. destruct (decide (q = p)) as [->|]; [|by rewrite lookup_insert_ne].
    rewrite lookup_insert_eq, Hf. done. }
  destruct (IH h1) as (h' & -> & Hv & Hn' & Hoff).
  { apply Forall_forall. intros q Hq. specialize (Hn q).
    destruct (proj1 (Forall_forall _ _) Hall q Hq) as [g Hg]. rewrite Hg in Hn.
    destruct (h1 !! q); [by eexists|done]. }
  exists h'. split; [done|]. split; [|split; [congruence|]].
  - rewrite values_cons, Hv, Hoff by done. unfold h1. by rewrite lookup_insert_eq.
  - intros q Hq. rewrite Hoff by set_solver. unfold h1. apply lookup_insert_ne. set_solver.
Qed.

(** The first call of [next] after [startenum] gives the first configuration. *)
Lemma start_at set :
  tab_ok (flags set) ->
  exists set1 set2, buildflagset_startenum set = Ret set1 /\ buildflagset_next set1 = Ret (true, set2) /\
    at_config set 0 set2.
Proof.
  intros Hok. unfold buildflagset_startenum. rewrite tab_each_spec by done.
  destruct (clear_flags (ptrs (flags set)) (cells (flags set))) as (h' & -> & Hv & Hn & _);
    [by apply ptrs_nodup|apply (tab_cells _ Hok)|].
  cbn [mbind outcome_bind]. eexists _, _. split; [done|]. split; [done|]. split; [by split_and!|].
  split; [done|]. split; [done|]. rewrite digits_at_zero by apply bases_pos.
  unfold digits, bases. cbn. change (ptrs (mk_tab _ _)) with (ptrs (flags set)). rewrite Hv, fmap_app. f_equal.
  - by destruct (have set) as [[] [] [] []].
  - by rewrite fmap_replicate.
Qed.

(** Each further call gives the next one, and false after the last. *)
Lemma next_at set0 k set :
  tab_ok (flags set0) -> at_config set0 k set -> 0 <= k < combinations (bases set0) ->
  exists set', buildflagset_next set = Ret (k + 1 <? combinations (bases set0), set') /\
    at_config set0 ((k + 1) mod combinations (bases set0)) set'.
Proof.
  intros Hok (Hsame & Hst & Hfirst & Hd) Hk.
  destruct (next_increment set) as (set' & Hrun & Hd' & Hsame' & Hst' & Hfirst'); [|done|done| |].
  - by eapply same_tab_ok.
  - rewrite Hd, (same_bases _ _ Hsame). apply digits_at_ok, bases_pos.
  - rewrite (same_bases _ _ Hsame), Hd, increment_digits in Hrun, Hd' by (apply bases_pos || done).
    exists set'. split; [done|]. split_and!; [by etransitivity|done..].
Qed.

(** The calls of [buildflagset_next] one after the other: the result of the last. *)
Fixpoint nexts (n : nat) set : outcome (bool * buildflagset_t) :=
  '(ready, set) ← buildflagset_next set;
  match n with
  | O => Ret (ready, set)
  | S n => nexts n set
  end.

Lemma nexts_at set0 n k set set' :
  tab_ok (flags set0) -> 0 <= k -> k + Z.of_nat n < combinations (bases set0) -> at_config set0 k set' ->
  buildflagset_next set = Ret (true, set') ->
  exists set'', nexts n set = Ret (true, set'') /\ at_config set0 (k + Z.of_nat n) set''.
Proof.
  intros Hok. revert k set set'. induction n as [|n IH]; intros k set set' Hk Hlt Hat Hrun; cbn [nexts];
    rewrite Hrun; cbn [mbind outcome_bind].
  - exists set'. replace (k + Z.of_nat 0) with k by lia. done.
  - destruct (next_at set0 k set' Hok Hat ltac:(lia)) as (set1 & Hrun1 & Hat1).
    rewrite (proj2 (Z.ltb_lt _ _)) in Hrun1 by lia. rewrite Z.mod_small in Hat1 by lia.
    replace (k + Z.of_nat (S n)) with ((k + 1) + Z.of_nat n) by lia. eapply IH; [lia|lia|done|done].
Qed.

Lemma nexts_succ n set : nexts (S n) set = ('(_, set) ← nexts n set; buildflagset_next set).
Proof.
  revert set. induction n as [|n IH]; intros set.
  - cbn. destruct (buildflagset_next set) as [[b s]| | |]; cbn; try done.
    by destruct (buildflagset_next s) as [[b' s']| | |].
  - change (nexts (S (S n)) set) with ('(_, set) ← buildflagset_next set; nexts (S n) set).
    change (nexts (S n) set) with ('(_, set) ← buildflagset_next set; nexts n set).
    destruct (buildflagset_next set) as [[b s]| | |]; [apply IH|done..].
Qed.

Lemma elems_names set set' :
  same_flags set set' -> tab_ok (flags set) -> (name <$> elems (flags set')) = (name <$> elems (flags set)).
Proof.
  intros Hs Hok. pose proof (same_tab_ok _ _ Hs Hok) as Hok'.
  apply (inj (fmap Some)). etransitivity; [symmetry; apply (keys_elems _ Hok')|].
  etransitivity; [|apply (keys_elems _ Hok)]. destruct Hs as (_ & -> & Hn).
  apply list_fmap_ext. intros i e _. apply Hn.
Qed.

Lemma at_config_ok set0 k set : flagset_ok set0 -> at_config set0 k set -> flagset_ok set.
Proof.
  intros [Ht Hn Hs] (Hsame & _). pose proof (elems_names _ _ Hsame Ht) as Hnames.
  split; [by eapply same_tab_ok| |destruct Hsame as (_ & -> & _); done].
  apply Forall_forall. intros f Hf. assert (name f ∈ name <$> elems (flags set)) as Hin by by apply list_elem_of_fmap_2.
  rewrite Hnames in Hin. apply list_elem_of_fmap in Hin as (f0 & -> & Hf0).
  by apply (proj1 (Forall_forall _ _) Hn).
Qed.

Lemma at_config_used set0 k set flag :
  tab_ok (flags set0) -> at_config set0 k set -> (flag_used set flag <-> flag_used set0 flag).
Proof.
  intros Hok (Hsame & _). unfold flag_used. rewrite (elems_names _ _ Hsame Hok).
  by destruct Hsame as (-> & _).
Qed.

(** ** Configurations and possible assignments *)

Lemma at_config_range set0 k set :
  at_config set0 k set ->
  (g_os (have set) = true -> 0 <= g_os (enum set) < 8) /\ (g_arch (have set) = true -> 0 <= g_arch (enum set) < 3) /\
  (g_size (have set) = true -> 0 <= g_size (enum set) < 4) /\ (g_endian (have set) = true -> 0 <= g_endian (enum set) < 3).
Proof.
  intros (Hsame & _ & _ & Hd). pose proof (digits_at_ok (bases set0) k (bases_pos _)) as Hok.
  rewrite <- Hd, <- (same_bases _ _ Hsame) in Hok. unfold bases, digits, group_digits in Hok.
  rewrite <- !app_assoc in Hok.
  apply digits_ok_group in Hok as [? Hok]. apply digits_ok_group in Hok as [? Hok].
  apply digits_ok_group in Hok as [? Hok]. by apply digits_ok_group in Hok as [? _].
Qed.

(** Every configuration is possible. *)
Lemma config_possible set0 k set :
  flagset_ok set0 -> at_config set0 k set -> exists rho, possible rho /\ agrees set rho.
Proof.
  intros Hok0 Hat. pose proof (at_config_ok _ _ _ Hok0 Hat) as Hok.
  pose proof (at_config_range _ _ _ Hat) as (R1 & R2 & R3 & R4). destruct Hat as (Hsame & Hst & _).
  set (pick := fun (h : bool) (d : Z) => if h then d else 0).
  set (i := mk_groups (pick (g_os (have set)) (g_os (enum set))) (pick (g_arch (have set)) (g_arch (enum set)))
              (pick (g_size (have set)) (g_size (enum set))) (pick (g_endian (have set)) (g_endian (enum set)))).
  set (rho := fun flag => match platform_value i flag with
                          | Some b => b
                          | None => match buildflagset_get set flag with Ret b => b | _ => false end
                          end).
  assert (picks rho i) as Hpicks.
  { split; [|intros flag b Hb; unfold rho; by rewrite Hb]. cbn.
    destruct (have set) as [[] [] [] []]; cbn in *; repeat split; try lia;
      first [apply R1 | apply R2 | apply R3 | apply R4]; done. }
  exists rho. split; [by exists i|]. apply (digits_agree _ _ i Hok Hst Hpicks). unfold digits. f_equal.
  - unfold i, group_digits, used_digit, pick. destruct (have set) as [[] [] [] []]; done.
  - apply list_fmap_ext. intros j p Hp. apply list_elem_of_lookup_2 in Hp.
    destruct (elem_of_ptrs _ _ (set_tab _ Hok) Hp) as (f & Hf & _). rewrite Hf. cbn. unfold rho.
    rewrite not_platform_value, (get_table set p f) by
      (done || (apply (proj1 (Forall_forall _ _) (set_names _ Hok)), elem_of_elems; eauto)). done.
Qed.

(** Every possible assignment is a configuration. *)
Lemma possible_config set0 rho :
  flagset_ok set0 -> possible rho ->
  exists k, 0 <= k < combinations (bases set0) /\ forall set, at_config set0 k set -> agrees set rho.
Proof.
  intros Hok0 (i & Hpicks).
  set (ds := group_digits (have set0) i ++
    ((fun p => Z.b2z (rho (from_option name 0 (cells (flags set0) !! p)))) <$> ptrs (flags set0))).
  destruct (digits_at_surj (bases set0) ds) as (k & Hk & Hds).
  { apply Forall2_app.
    - destruct Hpicks as [Hr _]. unfold group_digits. destruct (have set0) as [[] [] [] []], i as [i1 i2 i3 i4];
        cbn in *; repeat constructor; lia.
    - rewrite <- (length_fmap (fun p => Z.b2z (rho (from_option name 0 (cells (flags set0) !! p))))).
      apply Forall2_replicate_l; [done|]. apply Forall_fmap, Forall_true. intros p. cbn.
      destruct (rho _); cbn; lia. }
  exists k. split; [done|]. intros set Hat. pose proof (at_config_ok _ _ _ Hok0 Hat) as Hok.
  destruct Hat as (Hsame & Hst & _ & Hd). apply (digits_agree _ _ i Hok Hst Hpicks).
  rewrite Hd, Hds. unfold ds. rewrite (same_ptrs _ _ Hsame). destruct Hsame as (-> & _ & Hn). f_equal.
  apply list_fmap_ext. intros j p _. specialize (Hn p). do 2 f_equal.
  destruct (cells (flags set) !! p), (cells (flags set0) !! p); cbn in Hn |- *; congruence.
Qed.

(** The index of a flag of a group, and that it is in no other group before. *)
Lemma named_flags :
  (forall i, i ∈ seqZ 0 8 -> flag_index _os_flags (flag_at _os_flags i) 0 = i) /\
  (forall i, i ∈ seqZ 0 3 -> flag_index _os_flags (flag_at _arch_flags i) 0 = -1 /\
     flag_index _arch_flags (flag_at _arch_flags i) 0 = i) /\
  (forall i, i ∈ seqZ 0 4 -> flag_index _os_flags (flag_at _size_flags i) 0 = -1 /\
     flag_index _arch_flags (flag_at _size_flags i) 0 = -1 /\ flag_index _size_flags (flag_at _size_flags i) 0 = i) /\
  (forall i, i ∈ seqZ 0 3 -> flag_index _os_flags (flag_at _endian_flags i) 0 = -1 /\
     flag_index _arch_flags (flag_at _endian_flags i) 0 = -1 /\
     flag_index _size_flags (flag_at _endian_flags i) 0 = -1 /\
     flag_index _endian_flags (flag_at _endian_flags i) 0 = i).
Proof. split_and!; by_computation. Qed.

Lemma named_flag_values i :
  (0 <= g_os i < 8 -> forall e set, flag_used set (intern (flag_at _os_flags (g_os i))) = (g_os (have set) = true) /\
     platform_value e (intern (flag_at _os_flags (g_os i))) = Some (g_os e =? g_os i)) /\
  (0 <= g_arch i < 3 -> forall e set, flag_used set (intern (flag_at _arch_flags (g_arch i))) = (g_arch (have set) = true) /\
     platform_value e (intern (flag_at _arch_flags (g_arch i))) = Some (g_arch e =? g_arch i)) /\
  (0 <= g_size i < 4 -> forall e set, flag_used set (intern (flag_at _size_flags (g_size i))) = (g_size (have set) = true) /\
     platform_value e (intern (flag_at _size_flags (g_size i))) = Some (g_size e =? g_size i)) /\
  (0 <= g_endian i < 3 -> forall e set, flag_used set (intern (flag_at _endian_flags (g_endian i))) = (g_endian (have set) = true) /\
     platform_value e (intern (flag_at _endian_flags (g_endian i))) = Some (g_endian e =? g_endian i)).
Proof.
  destruct named_flags as (N1 & N2 & N3 & N4).
  unfold flag_used, platform_value, os_index, arch_index, size_index, endian_index. rewrite !text_intern.
  split_and!; intros Hi e set.
  - rewrite N1 by (apply elem_of_seqZ; lia). by rewrite (proj2 (Z.leb_le _ _)) by lia.
  - destruct (N2 (g_arch i)) as [-> ->]; [apply elem_of_seqZ; lia|]. by rewrite (proj2 (Z.leb_le 0 (g_arch i))) by lia.
  - destruct (N3 (g_size i)) as (-> & -> & ->); [apply elem_of_seqZ; lia|].
    by rewrite (proj2 (Z.leb_le 0 (g_size i))) by lia.
  - destruct (N4 (g_endian i)) as (-> & -> & -> & ->); [apply elem_of_seqZ; lia|].
    by rewrite (proj2 (Z.leb_le 0 (g_endian i))) by lia.
Qed.

(** Sets that agree on a flag of a group have the same digit of the group. *)
Lemma same_digit set set' rho (h : bool) e e' flag :
  started_enum set = true -> started_enum set' = true -> agrees set rho -> agrees set' rho ->
  (h = true -> (flag_used set flag /\ flag_used set' flag) /\
     platform_value (enum set) flag = Some (e =? e) /\ platform_value (enum set') flag = Some (e' =? e)) ->
  used_digit h e = used_digit h e'.
Proof.
  intros Hst Hst' Ha Ha'. destruct h; [|done]. intros Hf. destruct (Hf eq_refl) as ((Hu & Hu') & Hb & Hb').
  specialize (Ha _ Hu). specialize (Ha' _ Hu').
  rewrite (get_platform _ _ _ Hst Hb) in Ha. rewrite (get_platform _ _ _ Hst' Hb') in Ha'.
  rewrite Z.eqb_refl in Ha. cbn. f_equal. symmetry. apply Z.eqb_eq. congruence.
Qed.

Lemma table_flag_used set p f :
  flagset_ok set -> p ∈ ptrs (flags set) -> cells (flags set) !! p = Some f -> flag_used set (name f).
Proof.
  intros Hok Hp Hf. assert (f ∈ elems (flags set)) as Hin by (apply elem_of_elems; eauto).
  pose proof (proj1 (Forall_forall _ _) (set_names _ Hok) f Hin) as Hn. unfold is_platform in Hn.
  unfold flag_used. repeat (apply orb_false_elim in Hn as [Hn ->]). rewrite Hn. by apply list_elem_of_fmap_2.
Qed.

(** Different configurations are different assignments. *)
Lemma config_unique set0 k j set set' rho :
  flagset_ok set0 -> 0 <= k < combinations (bases set0) -> 0 <= j < combinations (bases set0) ->
  at_config set0 k set -> at_config set0 j set' -> agrees set rho -> agrees set' rho -> k = j.
Proof.
  intros Hok0 Hk Hj Hat Hat' Ha Ha'. apply (digits_at_inj (bases set0)); [apply bases_pos|done|done|].
  pose proof (at_config_ok _ _ _ Hok0 Hat) as Hok. pose proof (at_config_ok _ _ _ Hok0 Hat') as Hok'.
  pose proof (at_config_range _ _ _ Hat) as (R1 & R2 & R3 & R4).
  destruct Hat as (Hsame & Hst & _ & <-), Hat' as (Hsame' & Hst' & _ & <-).
  pose proof Hsame as (Hh & _ & Hn). pose proof Hsame' as (Hh' & _ & Hn').
  destruct (named_flag_values (enum set)) as (V1 & V2 & V3 & V4).
  unfold digits, group_digits. rewrite (same_ptrs _ _ Hsame), (same_ptrs _ _ Hsame').
  rewrite Hh, Hh' in *. f_equal; [repeat apply (f_equal2 app)|].
  - eapply (same_digit set set' rho _ _ _ (intern (flag_at _os_flags (g_os (enum set))))); [done..|].
    intros Hg. pose proof (V1 (R1 Hg)) as V. rewrite !(proj1 (V (enum set) _)), Hh, Hh'. by split; [|split; apply V].
  - eapply (same_digit set set' rho _ _ _ (intern (flag_at _arch_flags (g_arch (enum set))))); [done..|].
    intros Hg. pose proof (V2 (R2 Hg)) as V. rewrite !(proj1 (V (enum set) _)), Hh, Hh'. by split; [|split; apply V].
  - eapply (same_digit set set' rho _ _ _ (intern (flag_at _size_flags (g_size (enum set))))); [done..|].
    intros Hg. pose proof (V3 (R3 Hg)) as V. rewrite !(proj1 (V (enum set) _)), Hh, Hh'. by split; [|split; apply V].
  - eapply (same_digit set set' rho _ _ _ (intern (flag_at _endian_flags (g_endian (enum set))))); [done..|].
    intros Hg. pose proof (V4 (R4 Hg)) as V. rewrite !(proj1 (V (enum set) _)), Hh, Hh'. by split; [|split; apply V].
  - apply list_fmap_ext. intros q p Hp. apply list_elem_of_lookup_2 in Hp. f_equal.
    pose proof (eq_trans (Hn p) (eq_sym (Hn' p))) as Hname.
    pose proof (same_ptrs _ _ Hsame) as Hptrs. pose proof (same_ptrs _ _ Hsame') as Hptrs'.
    rewrite <- Hptrs in Hp. destruct (elem_of_ptrs _ _ (set_tab _ Hok) Hp) as (f & Hf & _).
    pose proof Hp as Hp'. rewrite Hptrs, <- Hptrs' in Hp'.
    destruct (elem_of_ptrs _ _ (set_tab _ Hok') Hp') as (f' & Hf' & _).
    pose proof (Ha _ (table_flag_used _ _ _ Hok Hp Hf)) as G. pose proof (Ha' _ (table_flag_used _ _ _ Hok' Hp' Hf')) as G'.
    rewrite (get_table _ p f) in G by done. rewrite (get_table _ p f') in G' by done.
    rewrite Hf, Hf' in *. cbn in Hname |- *. injection Hname as E. congruence.
Qed.

(** The assignment of configuration [k]. *)
Definition assigned set0 (k : Z) (rho : Z -> bool) : Prop :=
  possible rho /\ forall set, at_config set0 k set -> agrees set rho.

Lemma at_config_exists set0 k :
  tab_ok (flags set0) -> 0 <= k < combinations (bases set0) -> exists set, at_config set0 k set.
Proof.
  intros Hok Hk. destruct (start_at set0 Hok) as (set1 & set2 & _ & Hfirst & Hat).
  destruct (nexts_at set0 (Z.to_nat k) 0 set1 set2) as (s & _ & Hs); [done|done|lia|done|done|].
  exists s. by rewrite Z.add_0_l, Z2Nat.id in Hs by lia.
Qed.

Lemma assigned_exists set0 k :
  flagset_ok set0 -> 0 <= k < combinations (bases set0) -> exists rho, assigned set0 k rho.
Proof.
  intros Hok Hk. destruct (at_config_exists set0 k (set_tab _ Hok) Hk) as (s & Hs).
  destruct (config_possible set0 k s Hok Hs) as (rho & Hrho & Ha). exists rho. split; [done|].
  destruct (possible_config set0 rho Hok Hrho) as (j & Hj & Hall).
  destruct (at_config_exists set0 j (set_tab _ Hok) Hj) as (s' & Hs').
  by rewrite (config_unique set0 k j s s' rho) by auto.
Qed.

Lemma assigned_surj set0 rho :
  flagset_ok set0 -> possible rho -> exists k, 0 <= k < combinations (bases set0) /\ assigned set0 k rho.
Proof. intros Hok Hrho. destruct (possible_config set0 rho Hok Hrho) as (k & Hk & Hall). by exists k. Qed.

(** *** The number of configurations *)

Lemma total_app l l' : combinations (l ++ l') = combinations l * combinations l'.
Proof. unfold combinations. induction l as [|b l IH]; cbn [app foldr]; [lia|]. rewrite IH. lia. Qed.

Lemma total_twos n : combinations (replicate n 2) = 2 ^ Z.of_nat n.
Proof.
  unfold combinations. induction n as [|n IH]; cbn [replicate foldr]; [done|].
  rewrite IH, Nat2Z.inj_succ, Z.pow_succ_r by lia. done.
Qed.

Lemma configcount_total set : tab_ok (flags set) -> buildflagset_configcount set = Ret (combinations (bases set)).
Proof.
  intros Hok. unfold buildflagset_configcount. rewrite tab_each_spec by done.
  assert (forall l r, fold_until (fun (_ : Z) r => Ret (false, r * 2)) l r = Ret (false, r * 2 ^ Z.of_nat (length l)))
    as Hfold.
  { induction l as [|p l IH]; intros r; cbn [fold_until mbind outcome_bind length]; [do 2 f_equal; lia|].
    rewrite IH. do 2 f_equal. rewrite Nat2Z.inj_succ, Z.pow_succ_r by lia. lia. }
  rewrite Hfold. cbn [mbind outcome_bind]. f_equal. unfold bases. rewrite total_app, total_twos. f_equal.
  by destruct (have set) as [[] [] [] []].
Qed.

(** The number is a double: 9 bits times a power of two. *)
Lemma configcount_double set :
  exists m, combinations (bases set) = m * 2 ^ Z.of_nat (length (ptrs (flags set))) /\ 0 < m <= 288.
Proof.
  exists (combinations (group_digits (have set) group_sizes)). unfold bases. rewrite total_app, total_twos.
  split; [done|]. destruct (have set) as [[] [] [] []]; cbn; lia.
Qed.

(** *** Adding flags *)

Lemma empty_used set flag :
  have set = mk_groups false false false false -> elems (flags set) = [] -> ~ flag_used set flag.
Proof.
  intros Hh He. unfold flag_used. rewrite Hh, He. cbn. repeat (case_match; [done|]). apply not_elem_of_nil.
Qed.

Lemma add_flag fresh_buckets set flag :
  (forall n, length (fresh_buckets n) = Z.to_nat n) ->
  flagset_ok set -> started_enum set = false -> Z.of_nat (length (elems (flags set))) < 2 ^ 52 ->
  exists set', buildflagset_add fresh_buckets set flag = Ret set' /\ flagset_ok set' /\
    started_enum set' = false /\ flag_used set' flag /\ (forall f, flag_used set f -> flag_used set' f) /\
    (length (elems (flags set')) <= S (length (elems (flags set))))%nat.
Proof.
  intros Hfresh Hok Hst Hlen. unfold buildflagset_add. rewrite Hst.
  destruct (0 <=? os_index flag) eqn:E1.
  { eexists. split; [done|]. split; [by destruct Hok|]. split; [done|]. unfold flag_used. cbn [have with_have with_flags g_os g_arch g_size g_endian flags]. rewrite E1.
    split; [done|]. split; [|lia]. intros f. by repeat case_match. }
  destruct (0 <=? arch_index flag) eqn:E2.
  { eexists. split; [done|]. split; [by destruct Hok|]. split; [done|]. unfold flag_used. cbn [have with_have with_flags g_os g_arch g_size g_endian flags]. rewrite E1, E2.
    split; [done|]. split; [|lia]. intros f. by repeat case_match. }
  destruct (0 <=? size_index flag) eqn:E3.
  { eexists. split; [done|]. split; [by destruct Hok|]. split; [done|]. unfold flag_used. cbn [have with_have with_flags g_os g_arch g_size g_endian flags]. rewrite E1, E2, E3.
    split; [done|]. split; [|lia]. intros f. by repeat case_match. }
  destruct (0 <=? endian_index flag) eqn:E4.
  { eexists. split; [done|]. split; [by destruct Hok|]. split; [done|]. unfold flag_used. cbn [have with_have with_flags g_os g_arch g_size g_endian flags]. rewrite E1, E2, E3, E4.
    split; [done|]. split; [|lia]. intros f. by repeat case_match. }
  pose proof (set_tab _ Hok) as Htab.
  pose proof (tab_get_spec (flags set) (mk_flag flag false) Htab) as Hget.
  assert (count (contents (flags set)) = Z.of_nat (length (elems (flags set)))) as Hcount.
  { rewrite elems_length by done. destruct (tab_map _ Htab) as [->|[Ht _]]; [by rewrite unallocated_items|].
    apply (@table_count _ (cell_keys _) _ Ht). }
  assert (forall set', have set' = have set -> flag ∈ name <$> elems (flags set') -> flag_used set' flag) as Hused.
  { intros set' _ Hin. unfold flag_used. by rewrite E1, E2, E3, E4. }
  destruct (tab_get (flags set) (mk_flag flag false)) as [f2 idx] eqn:Hrun.
  inversion Hget as [p f i Hp Hf Hname Hnull|pos Habs]; subst.
  - rewrite (proj2 (Z.eqb_neq f2 NULL)) by done. exists set. split; [done|]. split; [done|]. split; [done|].
    split; [|split; [done|lia]]. apply Hused; [done|]. cbn in Hname. rewrite <- Hname.
    apply list_elem_of_fmap_2, elem_of_elems. eauto.
  - rewrite Z.eqb_refl. cbn [negb]. pose proof (set_size _ Hok) as Hsize.
    destruct (tab_add_spec fresh_buckets (flags set) (mk_flag flag false) (mk_flag flag false) idx Hfresh Htab
      ltac:(lia) eq_refl Hrun) as (t' & Hput & Hok' & Hc & Hptrs & Helems & Hsize').
    destruct (tab_alloc _ _) as [t p]. cbn [fst snd] in Hput. rewrite Hput. cbn [mbind outcome_bind].
    assert (count (contents t') = count (contents (flags set)) + 1) as Hcount'.
    { rewrite Hcount. transitivity (Z.of_nat (length (elems t'))).
      - rewrite elems_length by done. destruct (tab_map _ Hok') as [->|[Ht _]]; [by rewrite unallocated_items|].
        apply (@table_count _ (cell_keys _) _ Ht).
      - rewrite Helems. cbn [length]. lia. }
    eexists. split; [done|]. split; [|split; [done|split; [|split]]].
    + split; cbn [flags with_flags]; [done| |lia]. rewrite Helems. constructor; [|apply Hok]. unfold is_platform.
      cbn [name]. by rewrite E1, E2, E3, E4.
    + apply Hused; [done|]. cbn. rewrite Helems. left.
    + intros f. unfold flag_used. cbn [have with_have with_flags g_os g_arch g_size g_endian flags]. repeat case_match; try done. rewrite Helems. by right.
    + cbn. rewrite Helems. cbn. lia.
Qed.
End enumeration.

Lemma create_ok `{CStrings} fresh_buckets junk :
  (forall n, length (fresh_buckets n) = Z.to_nat n) ->
  flagset_ok (buildflagset_create fresh_buckets junk) /\ elems (flags (buildflagset_create fresh_buckets junk)) = [].
Proof.
  intros Hfresh. destruct (tab_init_ok (T := flag_t) fresh_buckets 8) as (Hok & He & _ & _ & Hsz); [exact Hfresh|lia|].
  split; [|exact He]. split; [exact Hok|cbn [flags buildflagset_create]; rewrite He; by constructor|].
  cbn [flags buildflagset_create]. lia.
Qed.

(** ** The text of a configuration *)

Section printing.
Context `{CStrings}.
Implicit Types set : buildflagset_t.

Abbreviation chars := list_ascii_of_string.

(** The flag behind the text so far. *)
Definition say_flag (flag : string) (sense : bool) (out : list ascii) : list ascii :=
  (if bool_decide (out = []) then [] else out ++ chars " ") ++ (if sense then [] else chars "!") ++ chars flag.

Definition say_flags set : list ascii :=
  let group have_flags l i out := if have_flags : bool then say_flag (flag_at l i) true out else out in
  let out := [] in
  let out := group (g_os (have set)) _os_flags (g_os (enum set)) out in
  let out := group (g_arch (have set)) _arch_flags (g_arch (enum set)) out in
  let out := group (g_size (have set)) _size_flags (g_size (enum set)) out in
  let out := group (g_endian (have set)) _endian_flags (g_endian (enum set)) out in
  let out := foldl (fun out f => say_flag (text (name f)) (value f) out) out (elems (flags set)) in
  if bool_decide (out = []) then chars "all configs" else out.

(** The cursor is behind the text [out], which is in the buffer as far as it has room. *)
Definition wrote (size : Z) (out : list ascii) (c : cursor) : Prop :=
  snd c = Z.of_nat (length out) /\ Z.of_nat (length (fst c)) = size /\
  (snd c < size -> take (length out) (fst c) = out).

Lemma length_chars (s : string) : length (chars s) = String.length s.
Proof. induction s as [|a s IH]; cbn; congruence. Qed.

Lemma print_str_wrote size out c s :
  wrote size out c -> wrote size (out ++ chars s) (print_str s size c).
Proof.
  destruct c as [buf p]. unfold wrote, print_str. cbn. intros (-> & Hlen & Htext).
  rewrite length_app, length_chars. split; [lia|].
  destruct (Z.ltb_spec (Z.of_nat (length out) + Z.of_nat (String.length s)) size) as [Hlt|Hge].
  - rewrite Nat2Z.id. unfold write. rewrite !length_app, length_chars. split.
    + rewrite length_take, length_drop. cbn [length]. lia.
    + intros _. rewrite Htext by lia. rewrite <- app_assoc, (app_assoc out).
      rewrite take_app_le by (rewrite length_app, length_chars; lia).
      rewrite take_ge by (rewrite length_app, length_chars; lia). done.
  - split; [done|]. intros. lia.
Qed.

Lemma print_flag_wrote size out c flag sense :
  wrote size out c -> wrote size (say_flag flag sense out) (print_flag flag sense size c).
Proof.
  intros Hc. unfold print_flag, say_flag.
  assert (wrote size (if bool_decide (out = []) then [] else out ++ chars " ")
            (if negb (snd c =? 0) then print_str " " size c else c)) as Hc1.
  { pose proof (proj1 Hc) as Hp. destruct (decide (out = [])) as [->|Hout].
    - rewrite Hp. done.
    - rewrite (proj2 (Z.eqb_neq (snd c) 0)) by (rewrite Hp; destruct out; cbn; lia || done).
      rewrite bool_decide_eq_false_2 by done. by apply print_str_wrote. }
  rewrite app_assoc. apply print_str_wrote. destruct sense; cbn [negb]; [by rewrite app_nil_r|].
  by apply print_str_wrote.
Qed.

Lemma print_flags_wrote set :
  tab_ok (flags set) -> Z.of_nat (length (text_buffer set)) = buffer_size set ->
  exists c, print_flags set = Ret c /\ wrote (buffer_size set) (say_flags set) c.
Proof.
  intros Hok Hlen. unfold print_flags, say_flags.
  assert (wrote (buffer_size set) [] (text_buffer set, 0)) as Hc by (split_and!; done).
  assert (forall (h : bool) l i out c, wrote (buffer_size set) out c ->
    wrote (buffer_size set) (if h then say_flag (flag_at l i) true out else out)
      (if h then print_flag (flag_at l i) true (buffer_size set) c else c)) as Hgroup
    by (intros [] l i out c ?; [by apply print_flag_wrote|done]).
  apply (Hgroup (g_os (have set)) _os_flags (g_os (enum set))) in Hc.
  apply (Hgroup (g_arch (have set)) _arch_flags (g_arch (enum set))) in Hc.
  apply (Hgroup (g_size (have set)) _size_flags (g_size (enum set))) in Hc.
  apply (Hgroup (g_endian (have set)) _endian_flags (g_endian (enum set))) in Hc. clear Hgroup.
  rewrite tab_each_spec by done. revert Hc.
  match goal with |- wrote _ ?o ?c -> _ => generalize o c end. intros out c Hc.
  assert (exists c', fold_until (fun flag c => match cells (flags set) !! flag with
      | None => Abort
      | Some f => Ret (false, print_flag (text (name f)) (value f) (buffer_size set) c) end) (ptrs (flags set)) c
      = Ret (false, c') /\
    wrote (buffer_size set) (foldl (fun out f => say_flag (text (name f)) (value f) out) out (elems (flags set))) c')
    as (c' & -> & Hc').
  { pose proof (tab_cells _ Hok) as Hall. unfold elems. clear Hok. revert out c Hc.
    induction (ptrs (flags set)) as [|p l IH]; intros out c Hc; [by exists c|].
    apply Forall_cons in Hall as [[f Hf] Hall]. cbn [fold_until omap list_omap]. rewrite Hf.
    cbn [mbind outcome_bind foldl]. apply IH; [done|]. by apply print_flag_wrote. }
  cbn [mbind outcome_bind]. eexists. split; [done|]. set (out' := foldl _ _ _) in *.
  pose proof (proj1 Hc') as Hp. destruct (decide (out' = [])) as [E|Hne].
  - rewrite E in *. rewrite Hp. cbn. by apply (print_str_wrote _ []).
  - rewrite (proj2 (Z.eqb_neq _ 0)) by (rewrite Hp; destruct out'; cbn; lia || done).
    by rewrite bool_decide_eq_false_2.
Qed.

Lemma take_terminated (buf out : list ascii) :
  take (length out) buf = out -> (length out < length buf)%nat ->
  take (length out) (<[length out := zero]> buf) = out /\ <[length out := zero]> buf !! length out = Some zero.
Proof.
  intros Htake Hlt. split.
  - by rewrite take_insert_ge by lia.
  - apply list_lookup_insert_eq. lia.
Qed.

(** One pass suffices when the buffer has room, two passes always do. *)
Lemma print_fits fresh_text fuel set :
  tab_ok (flags set) -> Z.of_nat (length (text_buffer set)) = buffer_size set ->
  Z.of_nat (length (say_flags set)) < buffer_size set ->
  exists buf, buildflagset_print fresh_text (S fuel) set = Ret (with_text set buf (buffer_size set)) /\
    take (length (say_flags set)) buf = say_flags set /\ buf !! length (say_flags set) = Some zero /\
    Z.of_nat (length buf) = buffer_size set.
Proof.
  intros Hok Hlen Hfit. destruct (print_flags_wrote set Hok Hlen) as ([buf p] & Hrun & (Hp & Hbuf & Htext)).
  cbn in *. subst p. rewrite Hrun. cbn [mbind outcome_bind].
  rewrite (proj2 (Z.ltb_ge _ _)) by lia. cbn [mbind outcome_bind text_buffer buffer_size with_text].
  replace (Z.to_nat (Z.of_nat (length (say_flags set)) + 1 - 1)) with (length (say_flags set)) by lia.
  destruct (take_terminated buf (say_flags set)) as [Ht Hz]; [apply Htext; lia|lia|].
  eexists. split; [done|]. split; [exact Ht|]. split; [exact Hz|]. by rewrite length_insert.
Qed.
(** Two passes always suffice. *)
Lemma print_terminates fresh_text set :
  tab_ok (flags set) -> Z.of_nat (length (text_buffer set)) = buffer_size set ->
  (forall n, length (fresh_text n) = Z.to_nat n) ->
  let out := say_flags set in
  exists buf size, buildflagset_print fresh_text 2 set = Ret (with_text set buf size) /\
    take (length out) buf = out /\ buf !! length out = Some zero /\ Z.of_nat (length buf) = size.
Proof.
  intros Hok Hlen Hfresh out. destruct (decide (Z.of_nat (length out) < buffer_size set)) as [Hfit|Hsmall].
  { destruct (print_fits fresh_text 1 set Hok Hlen Hfit) as (buf & ? & ? & ? & ?). by exists buf, (buffer_size set). }
  destruct (print_flags_wrote set Hok Hlen) as ([buf p] & Hrun & (Hp & _)). cbn in Hp. fold out in Hp.
  set (size := p + 1).
  set (set1 := with_text set (<[0%nat := zero]> (fresh_text size)) size).
  destruct (print_fits fresh_text 0 set1) as (buf1 & Hrun1 & Ht & Hz & Hl); [done| | |].
  { cbn. rewrite length_insert, Hfresh. lia. }
  { change (say_flags set1) with out. change (buffer_size set1) with (p + 1). lia. }
  change (say_flags set1) with out in *. change (buffer_size set1) with size in *.
  cbn [buildflagset_print]. cbn [buildflagset_print] in Hrun1. rewrite Hrun. cbn [mbind outcome_bind].
  rewrite (proj2 (Z.ltb_lt _ _)) by lia. fold size set1. rewrite Hrun1. cbn [mbind outcome_bind].
  exists (<[length out := zero]> buf1), size.
  destruct (take_terminated buf1 out Ht) as [Ht' Hz']; [lia|].
  split; [|by rewrite length_insert]. cbn. by replace (Z.to_nat (size - 1)) with (length out) by lia.
Qed.
End printing.

(** ** User flags *)

Section userflags.
Context `{CStrings}.

#[export] Instance intern_inj : Inj (=) (=) intern.
Proof. intros s s' E. by rewrite <- (text_intern s), E, text_intern. Qed.

Lemma is_defined_elems (t : tab_t flag_t) s :
  tab_ok t -> is_userflag_defined t s = bool_decide (intern s ∈ name <$> elems t).
Proof.
  intros Hok. unfold is_userflag_defined.
  pose proof (tab_get_spec t (mk_flag (intern s) false) Hok) as Hget.
  destruct (tab_get t _) as [p idx]. inversion Hget as [q f i Hq Hf Hname Hnull|pos Habs]; subst.
  - rewrite (proj2 (Z.eqb_neq p NULL)) by done. symmetry. apply bool_decide_eq_true.
    apply list_elem_of_fmap. exists f. cbn in Hname. split; [done|]. apply elem_of_elems. eauto.
  - symmetry. by apply bool_decide_eq_false.
Qed.

Lemma define_spec fresh_buckets (t : tab_t flag_t) s :
  (forall n, length (fresh_buckets n) = Z.to_nat n) -> tab_ok t -> msize (contents t) <= 2 ^ 57 ->
  exists t', define_userflag fresh_buckets t s = Ret (negb (is_userflag_defined t s), t') /\ tab_ok t' /\
    forall n, n ∈ name <$> elems t' <-> n = intern s \/ n ∈ name <$> elems t.
Proof.
  intros Hfresh Hok Hsize. rewrite is_defined_elems by done. unfold define_userflag.
  pose proof (tab_get_spec t (mk_flag (intern s) false) Hok) as Hget.
  destruct (tab_get t _) as [p idx] eqn:Hrun. inversion Hget as [q f i Hq Hf Hname Hnull|pos Habs]; subst.
  - rewrite (proj2 (Z.eqb_neq p NULL)) by done. cbn in Hname.
    assert (intern s ∈ name <$> elems t) as Hin.
    { apply list_elem_of_fmap. exists f. split; [done|]. apply elem_of_elems. eauto. }
    exists t. rewrite bool_decide_eq_true_2 by done. split; [done|]. split; [done|]. intros n. naive_solver.
  - rewrite Z.eqb_refl, bool_decide_eq_false_2 by done. cbn [negb].
    destruct (tab_add_spec fresh_buckets t (mk_flag (intern s) false) (mk_flag (intern s) false) idx Hfresh Hok
      Hsize eq_refl Hrun) as (t' & Hput & Hok' & _ & _ & Helems & _).
    destruct (tab_alloc _ _) as [t1 p]. cbn [fst snd] in Hput. rewrite Hput. cbn [mbind outcome_bind].
    exists t'. split; [done|]. split; [done|]. intros n. rewrite Helems. cbn. apply elem_of_cons.
Qed.

(** A record that the table does not refer to may be freed. *)
Lemma tab_free_ok {T} `{TabKeys T} (t : tab_t T) p :
  tab_ok t -> p ∉ ptrs t -> tab_ok (tab_free t p) /\ elems (tab_free t p) = elems t.
Proof.
  intros Hok Hp. assert (forall q, q ∈ ptrs t -> delete p (cells t) !! q = cells t !! q) as Hsame.
  { intros q Hq. apply lookup_delete_ne. by intros ->. }
  split; [|by apply elems_cells]. apply tab_ok_update; [done|]. intros q Hq. by rewrite Hsame.
Qed.

Lemma remove_loop_spec l (t : tab_t flag_t) removed :
  tab_ok t -> 0 <= removed ->
  exists r t', remove_loop t l removed = Ret (r, t') /\ tab_ok t' /\
    (forall n, n ∈ name <$> elems t' <-> (n ∈ name <$> elems t) /\ n ∉ intern <$> l) /\
    (removed <= r) /\ (removed < r <-> exists s, s ∈ l /\ intern s ∈ name <$> elems t).
Proof.
  revert t removed. induction l as [|s l IH]; intros t removed Hok Hr; cbn [remove_loop].
  { exists removed, t. split; [done|]. split; [done|]. split; [set_solver|]. split; [lia|].
    split; [lia|]. intros (s & Hs & _). by apply elem_of_nil in Hs. }
  destruct (tab_remove_spec t (mk_flag (intern s) false) Hok) as (t1 & old & -> & Hok1 & Hc & Hres).
  cbn [mbind outcome_bind]. destruct Hres as [(-> & Habs & ->)|(f & Hnull & Hf & Hname & Hptrs & Helems)].
  - rewrite Z.eqb_refl. cbn [negb]. destruct (IH t removed Hok Hr) as (r & t' & Hrun & Hok' & Hn & Hle & Hiff).
    exists r, t'. split; [done|]. split; [done|]. split; [|split; [done|]].
    + intros n. rewrite Hn. cbn in Habs |- *. rewrite not_elem_of_cons. split; [|naive_solver].
      intros [Hin Hnl]. split; [done|]. split; [|done]. by intros ->.
    + rewrite Hiff. setoid_rewrite elem_of_cons. cbn in Habs. naive_solver.
  - rewrite (proj2 (Z.eqb_neq old NULL)) by done. cbn [negb].
    pose proof (ptrs_nodup t Hok) as Hnd. rewrite Hptrs in Hnd. apply NoDup_cons in Hnd as [Hnew _].
    destruct (tab_free_ok t1 old Hok1 Hnew) as [Hok2 He2].
    pose proof (elems_nodup t Hok) as Hnd. rewrite Helems in Hnd. cbn in Hnd, Hname.
    apply NoDup_cons in Hnd as [Hnn _].
    destruct (IH (tab_free t1 old) (removed + 1) Hok2 ltac:(lia)) as (r & t' & Hrun & Hok' & Hn & Hle & Hiff).
    exists r, t'. split; [done|]. split; [done|]. split; [|split; [lia|]].
    + intros n. rewrite Hn, He2, Helems. cbn. rewrite not_elem_of_cons, elem_of_cons, Hname in *. naive_solver.
    + split; [|lia]. intros _. exists s. split; [left|]. rewrite Helems. cbn. rewrite Hname. left.
Qed.
End userflags.


(** ** Properties *)

(** Strings as their codes. *)
Definition code_text (p : Z) : string := from_option id EmptyString (decode (Z.to_pos p)).
Definition code_intern (s : string) : Z := Zpos (encode s).

Lemma code_text_intern s : code_text (code_intern s) = s.
Proof. unfold code_text, code_intern. cbn [Z.to_pos]. by rewrite decode_encode. Qed.

Definition coded_strings : CStrings :=
  {| text := code_text; intern := code_intern; text_intern := code_text_intern |}.

(** C23: a set runs through the possible configurations of its flags, each of them once.
    [buildflagset_configcount] is their number [N].  After [buildflagset_startenum], which
    never fails, [buildflagset_next] is true for the first [N] calls and then false; every
    configuration makes exactly one flag of each group in use true; and every assignment
    that makes exactly one flag of each group true is read by [buildflagset_get] in exactly
    one of the configurations. *)
Theorem flagset_enumeration `{CStrings} set :
  flagset_ok set ->
  exists N set1, buildflagset_configcount set = Ret N /\ 0 < N /\ buildflagset_startenum set = Ret set1 /\
    (forall n, Z.of_nat n < N -> exists s, nexts n set1 = Ret (true, s) /\
       (forall flag, flag_used s flag <-> flag_used set flag) /\ exists rho, possible rho /\ agrees s rho) /\
    (exists s, nexts (Z.to_nat N) set1 = Ret (false, s)) /\
    (forall rho, possible rho ->
       exists! n, Z.of_nat n < N /\ exists s, nexts n set1 = Ret (true, s) /\ agrees s rho).
Proof.
  intros Hok. pose proof (set_tab _ Hok) as Htab. pose proof (combinations_pos _ (bases_pos set)) as HN.
  destruct (start_at set Htab) as (set1 & set2 & Hstart & Hfirst & Hat0).
  assert (forall n, Z.of_nat n < combinations (bases set) ->
    exists s, nexts n set1 = Ret (true, s) /\ at_config set (Z.of_nat n) s) as Hn.
  { intros n Hn. apply (nexts_at set n 0 set1 set2); [done|done|lia|done|done]. }
  exists (combinations (bases set)), set1.
  split; [by apply configcount_total|]. split; [done|]. split; [done|]. split; [|split].
  - intros n Hlt. destruct (Hn n Hlt) as (s & Hrun & Hat). exists s. split; [done|]. split.
    + intros flag. by eapply at_config_used.
    + by eapply config_possible.
  - destruct (Hn (Z.to_nat (combinations (bases set) - 1)) ltac:(lia)) as (s & Hrun & Hat).
    replace (Z.to_nat (combinations (bases set))) with (S (Z.to_nat (combinations (bases set) - 1))) by lia.
    rewrite nexts_succ, Hrun. cbn [mbind outcome_bind].
    destruct (next_at set _ s Htab Hat ltac:(lia)) as (s' & -> & _).
    rewrite (proj2 (Z.ltb_ge _ _)) by lia. by eexists.
  - intros rho Hrho. destruct (possible_config set rho Hok Hrho) as (k & Hk & Hagree).
    exists (Z.to_nat k). split.
    + split; [lia|]. destruct (Hn (Z.to_nat k) ltac:(lia)) as (s & Hrun & Hat). exists s. split; [done|].
      apply Hagree. by rewrite Z2Nat.id in Hat by lia.
    + intros n (Hlt & s & Hrun & Ha). destruct (Hn n Hlt) as (s' & Hrun' & Hat).
      rewrite Hrun in Hrun'. injection Hrun' as <-. destruct (Hn (Z.to_nat k) ltac:(lia)) as (s' & _ & Hat').
      rewrite Z2Nat.id in Hat' by lia.
      enough (Z.of_nat n = k) by lia. eapply (config_unique set _ _ s s' rho); [done|lia|lia|done|done|done|auto].
Qed.

(** A set with a platform flag and two other flags. *)
Definition sample_flags : buildflagset_t :=
  let _ := coded_strings in
  let junk := mk_set (mk_groups false false false false) false false (mk_tab (mk_hashmap 0 0 [] []) ∅)
                (mk_groups 0 0 0 0) [] 0 in
  let add set s := match buildflagset_add null_buckets set (intern s) with Ret set => set | _ => set end in
  add (add (add (buildflagset_create null_buckets junk) "linux") "tls") "debug"%string.

(** [buildflagset_print] ends after at most two passes, whatever the size of the buffer,
    and leaves the text of the configuration in it, with its terminator; it changes nothing
    else. *)
Theorem flagset_print_text `{CStrings} fresh_text set :
  tab_ok (flags set) -> Z.of_nat (length (text_buffer set)) = buffer_size set ->
  (forall n, length (fresh_text n) = Z.to_nat n) ->
  let out := say_flags set in
  exists buf size, buildflagset_print fresh_text 2 set = Ret (with_text set buf size) /\
    take (length out) buf = out /\ buf !! length out = Some zero /\ Z.of_nat (length buf) = size.
Proof. apply print_terminates. Qed.

(** User flags are a finite set of names.  Defining a name says whether it is new and
    adds exactly it; removing a list of names, repeated ones included, says whether one of
    them was defined and removes exactly these; clearing removes all. *)
Theorem userflags_finite_set `{CStrings} fresh_buckets t s l :
  (forall n, length (fresh_buckets n) = Z.to_nat n) -> tab_ok t -> msize (contents t) <= 2 ^ 57 ->
  (exists t', define_userflag fresh_buckets t s = Ret (negb (is_userflag_defined t s), t') /\ tab_ok t' /\
     forall s', is_userflag_defined t' s' = bool_decide (s' = s) || is_userflag_defined t s') /\
  (exists t', remove_userflags t l = Ret (existsb (is_userflag_defined t) l, t') /\ tab_ok t' /\
     forall s', is_userflag_defined t' s' = is_userflag_defined t s' && negb (bool_decide (s' ∈ l))) /\
  (exists t', clear_userflags t = Ret t' /\ forall s', is_userflag_defined t' s' = false).
Proof.
  intros Hfresh Hok Hsize. split; [|split].
  - destruct (define_spec fresh_buckets t s Hfresh Hok Hsize) as (t' & Hrun & Hok' & Hn).
    exists t'. split; [done|]. split; [done|]. intros s'. rewrite !is_defined_elems by done.
    rewrite <- bool_decide_or. apply bool_decide_ext. rewrite Hn. by rewrite (inj_iff intern).
  - destruct (remove_loop_spec l t 0 Hok ltac:(lia)) as (r & t' & Hrun & Hok' & Hn & Hle & Hiff).
    exists t'. unfold remove_userflags. rewrite Hrun. cbn [mbind outcome_bind]. split; [|split; [done|]].
    + do 2 f_equal. apply eq_true_iff_eq. rewrite Z.ltb_lt, Hiff, existsb_exists.
      setoid_rewrite is_defined_elems; [|done]. setoid_rewrite bool_decide_eq_true.
      by setoid_rewrite list_elem_of_In.
    + intros s'. rewrite !is_defined_elems by done. rewrite <- bool_decide_not, <- bool_decide_and.
      apply bool_decide_ext. rewrite Hn. by rewrite (list_elem_of_fmap_inj intern).
  - unfold clear_userflags. rewrite tab_destroy_spec by done. by eexists.
Qed.

(** *** Witnesses *)

Lemma sample_flags_ok : let _ := coded_strings in flagset_ok sample_flags.
Proof.
  intros C. destruct (create_ok null_buckets (mk_set (mk_groups false false false false) false false
    (mk_tab (mk_hashmap 0 0 [] []) ∅) (mk_groups 0 0 0 0) [] 0) null_buckets_length) as [Hok He].
  unfold sample_flags. fold C.
  destruct (add_flag null_buckets _ (intern "linux") null_buckets_length Hok eq_refl) as
    (s1 & -> & Hok1 & Hst1 & _ & _ & Hl1); [by rewrite He|].
  destruct (add_flag null_buckets _ (intern "tls") null_buckets_length Hok1 Hst1) as
    (s2 & -> & Hok2 & Hst2 & _ & _ & Hl2); [rewrite He in Hl1; cbn in Hl1; lia|].
  destruct (add_flag null_buckets _ (intern "debug") null_buckets_length Hok2 Hst2) as
    (s3 & -> & Hok3 & _); [rewrite He in Hl1; cbn in Hl1; lia|]. exact Hok3.
Qed.

Lemma flagset_enumeration_witness :
  let _ := coded_strings in
  flagset_ok sample_flags /\ buildflagset_configcount sample_flags = Ret 32 /\
  exists set1, buildflagset_startenum sample_flags = Ret set1 /\
    (exists s, nexts 32 set1 = Ret (false, s)) /\
    forall rho, possible rho -> exists! n, Z.of_nat n < 32 /\ exists s, nexts n set1 = Ret (true, s) /\ agrees s rho.
Proof.
  intros C. split; [exact sample_flags_ok|].
  destruct (flagset_enumeration sample_flags sample_flags_ok) as (N & set1 & Hcount & _ & Hstart & _ & Hend & Hall).
  assert (buildflagset_configcount sample_flags = Ret 32) as E by (vm_compute; reflexivity).
  rewrite E in Hcount. injection Hcount as <-. split; [exact E|].
  change (Z.to_nat 32) with 32%nat in Hend. exists set1.
  split; [exact Hstart|split; [exact Hend|exact Hall]].
Defined.

Lemma flagset_print_text_witness :
  let _ := coded_strings in let out := say_flags sample_flags in
  exists buf size,
    buildflagset_print (fun n => replicate (Z.to_nat n) "x"%char) 2 sample_flags = Ret (with_text sample_flags buf size) /\
    take (length out) buf = out /\ buf !! length out = Some zero /\ Z.of_nat (length buf) = size.
Proof.
  intros C. apply (flagset_print_text (fun n => replicate (Z.to_nat n) "x"%char) sample_flags).
  - apply sample_flags_ok.
  - vm_compute. reflexivity.
  - intros n. apply length_replicate.
Defined.

Lemma userflags_finite_set_witness :
  let _ := coded_strings in
  let t := flags sample_flags in
  is_userflag_defined t "tls" = true /\
  (exists t', remove_userflags t ["tls"; "ssl"; "tls"]%string = Ret (true, t') /\
     forall s', is_userflag_defined t' s' =
       is_userflag_defined t s' && negb (bool_decide (s' ∈ ["tls"; "ssl"; "tls"]%string))).
Proof.
  intros C t. assert (is_userflag_defined t "tls" = true) as E by (vm_compute; reflexivity). split; [exact E|].
  destruct (userflags_finite_set null_buckets t "ssl" ["tls"; "ssl"; "tls"]%string) as (_ & Hrem & _).
  - exact null_buckets_length.
  - apply sample_flags_ok.
  - apply Z.leb_le. vm_compute. reflexivity.
  - destruct Hrem as (t' & Hrun & _ & Hd). exists t'. cbn [existsb] in Hrun. rewrite E in Hrun. cbn [orb] in Hrun.
    split; [exact Hrun|exact Hd].
Defined.
