(* ===== verification/Ifdef.v ===== *)
(** * Build conditions: [src/libponyc/pkg/ifdef.c], [src/libponyc/pkg/platformfuns.c]

    Conditions of [ifdef] expressions and of guards of [use] commands: their normal form,
    their evaluation for a configuration of a flag set or for the target of the build, the
    check that a condition can be true, and the choice of the declaration of a foreign
    function that is valid in all configurations.  Errors are values; the pointer of a
    declaration is its position among the [use] commands of the package. *)
From S2P Require Import Prelude Token Ast Fun Hash HashOps HashTab BuildFlagSet.
From Stdlib Require Import Ascii String.
From stdpp Require Import gmap fin_maps strings.
Local Open Scope Z_scope.
Local Set Warnings "-register-all,-clear-no-such-hyp".

(** [token_string] is the interned text of a token, [id_token tok s] a copy of a token with
    another text ([ast_from_string]). *)
Class TokenNames := {
  token_string : Z -> Z;
  id_token : Z -> Z -> Z;
  id_token_string tok s : token_string (id_token tok s) = s
}.

(** What LLVM knows of the target triple. *)
Record triple_t := mk_triple {
  isOSDragonFly : bool; isOSFreeBSD : bool; isOSOpenBSD : bool; isOSLinux : bool; isMacOSX : bool;
  isOSWindows : bool; arch_prefix : string; isArch64Bit : bool; isArch32Bit : bool;
  isKnownWindowsMSVCEnvironment : bool; isLittleEndian : bool
}.

(** The options of a build that conditions depend on. *)
Record build_t := mk_build { triple : triple_t; user_flags : tab_t flag_t; runtimestats : bool; runtimestats_messages : bool }.

Section operations.
Context `{CStrings} `{TokenNames} (fresh_buckets : Z -> list hashmap_entry_t).

Definition ast_name (t : ast) : outcome Z :=
  if tk_eqb (ast_id t) TK_ID || tk_eqb (ast_id t) TK_STRING then Ret (token_string (ast_tok t)) else Abort.

(** [ast_name(ast_child(ast))] *)
Definition child_name (t : ast) : outcome Z := c ← first_child t; ast_name c.

(** ** Normal form *)

(** [NODE(TK_IFDEFFLAG, ID(name))], based on [t]. *)
Definition flag_node (t : ast) (name : string) : ast :=
  Node TK_IFDEFFLAG (ast_tok t) 0 [Node TK_ID (id_token (ast_tok t) (intern name)) 0 []].

Definition posix_node (t : ast) : ast :=
  let node l := Node TK_IFDEFOR (ast_tok t) 0 l in
  node [node [flag_node t OS_LINUX_NAME; flag_node t OS_MACOSX_NAME]; flag_node t OS_BSD_NAME].

Fixpoint cond_normalise (t : ast) : outcome ast :=
  match t with
  | Node id tok data l =>
      let binary (id' : token_id) :=
        match l with
        | lhs :: rhs :: question :: rest =>
            if negb (tk_eqb (ast_id question) TK_NONE) then Abort
            else
              lhs ← cond_normalise lhs;
              rhs ← cond_normalise rhs;
              Ret (Node id' tok data (lhs :: rhs :: rest))
        | _ => Abort
        end in
      match id with
      | TK_AND => binary TK_IFDEFAND
      | TK_OR => binary TK_IFDEFOR
      | TK_NOT =>
          match l with
          | child :: rest => child ← cond_normalise child; Ret (Node TK_IFDEFNOT tok data (child :: rest))
          | _ => Abort
          end
      | TK_STRING => Ret (Node TK_IFDEFFLAG tok 0 [Node TK_ID tok data l])
      | TK_REFERENCE =>
          name ← child_name t;
          if String.eqb (text name) OS_POSIX_NAME then Ret (posix_node t)
          else Ret (Node TK_IFDEFFLAG tok data l)
      | TK_SEQ => match l with [child] => cond_normalise child | _ => Abort end
      | TK_IFDEFAND | TK_IFDEFOR | TK_IFDEFNOT | TK_IFDEFFLAG => Ret t
      | _ => Abort
      end
  end.

(** ** The target *)

(** Whether the attribute is one of the platform, and its value. *)
Definition os_is_target (attribute : Z) (release : bool) (opt : build_t) : option bool :=
  let a := text attribute in
  let t := triple opt in
  let bsd := isOSDragonFly t || isOSFreeBSD t || isOSOpenBSD t in
  let named s := String.eqb a s in
  if named OS_BSD_NAME then Some bsd
  else if named "freebsd"%string then Some (isOSFreeBSD t)
  else if named "dragonfly"%string then Some (isOSDragonFly t)
  else if named "openbsd"%string then Some (isOSOpenBSD t)
  else if named OS_LINUX_NAME then Some (isOSLinux t)
  else if named OS_MACOSX_NAME then Some (isMacOSX t)
  else if named "windows"%string then Some (isOSWindows t)
  else if named OS_POSIX_NAME then
    Some (isMacOSX t || isOSFreeBSD t || isOSLinux t || isOSDragonFly t || isOSOpenBSD t)
  else if named "x86"%string then Some (String.eqb (arch_prefix t) "x86")
  else if named "arm"%string then Some (String.eqb (arch_prefix t) "arm" || String.eqb (arch_prefix t) "aarch64")
  else if named "lp64"%string then Some (isArch64Bit t && negb (isOSWindows t))
  else if named "llp64"%string then Some (isArch64Bit t && isOSWindows t)
  else if named "ilp32"%string then Some (isArch32Bit t)
  else if named "native128"%string then Some (negb (isArch32Bit t) && negb (isKnownWindowsMSVCEnvironment t))
  else if named "debug"%string then Some (negb release)
  else if named "bigendian"%string then Some (negb (isLittleEndian t))
  else if named "littleendian"%string then Some (isLittleEndian t)
  else if named "spacepony"%string then Some true
  else if named "runtimestats"%string then Some (runtimestats opt || runtimestats_messages opt)
  else if named "runtimestatsmessages"%string then Some (runtimestats_messages opt)
  else None.

(** ** Evaluation *)

(** The flag of a condition: in the given configuration, or for the build. *)
Definition eval_flag (config : option buildflagset_t) (release : bool) (opt : build_t) (name : Z) : outcome bool :=
  match config with
  | Some config => buildflagset_get config name
  | None =>
      match os_is_target name release opt with
      | Some val => Ret val
      | None => Ret (is_userflag_defined (user_flags opt) (text name))
      end
  end.

Fixpoint cond_eval (t : ast) (config : option buildflagset_t) (release : bool) (opt : build_t) : outcome bool :=
  match t with
  | Node id tok data l =>
      match id with
      | TK_NONE => Ret true
      | TK_IFDEFAND =>
          match l with
          | lhs :: rhs :: _ =>
              b ← cond_eval lhs config release opt;
              if b : bool then cond_eval rhs config release opt else Ret false
          | _ => Abort
          end
      | TK_IFDEFOR =>
          match l with
          | lhs :: rhs :: _ =>
              b ← cond_eval lhs config release opt;
              if b : bool then Ret true else cond_eval rhs config release opt
          | _ => Abort
          end
      | TK_IFDEFNOT =>
          match l with
          | child :: _ => b ← cond_eval child config release opt; Ret (negb b)
          | _ => Abort
          end
      | TK_IFDEFFLAG => name ← child_name t; eval_flag config release opt name
      | _ => Abort
      end
  end.

Fixpoint find_flags_in_cond (t : ast) (config : buildflagset_t) : outcome buildflagset_t :=
  match t with
  | Node id tok data l =>
      match id with
      | TK_NONE => Ret config
      | TK_IFDEFAND | TK_IFDEFOR =>
          match l with
          | lhs :: rhs :: _ =>
              config ← find_flags_in_cond lhs config; find_flags_in_cond rhs config
          | _ => Abort
          end
      | TK_IFDEFNOT => match l with child :: _ => find_flags_in_cond child config | _ => Abort end
      | TK_IFDEFFLAG => name ← child_name t; buildflagset_add fresh_buckets config name
      | _ => Abort
      end
  end.

(** Whether the warning about the number of configurations is printed. *)
Definition check_config_count (config : buildflagset_t) : outcome bool :=
  config_count ← buildflagset_configcount config; Ret (10000 <? config_count).

(** ** Conditions that can be true *)

(** [while(buildflagset_next(config))] of [ifdef_cond_normalise]. *)
Fixpoint normalise_loop (fuel : nat) (t : ast) (config : buildflagset_t) (opt : build_t) : outcome bool :=
  match fuel with
  | O => NoFuel
  | S fuel =>
      '(ready, config) ← buildflagset_next config;
      if ready : bool then
        v ← cond_eval t (Some config) false opt;
        if v : bool then Ret true else normalise_loop fuel t config opt
      else Ret false
  end.

(** The result and the condition that replaces [t]; [uninit] is the memory of the set. *)
Definition ifdef_cond_normalise (uninit : buildflagset_t) (fuel : nat) (t : ast) (opt : build_t)
    : outcome (bool * ast) :=
  if tk_eqb (ast_id t) TK_NONE then Ret (true, t)
  else
    t ← cond_normalise t;
    config ← find_flags_in_cond t (buildflagset_create fresh_buckets uninit);
    _ ← check_config_count config;
    config ← buildflagset_startenum config;
    r ← normalise_loop fuel t config opt;
    Ret (r, t).

Definition ifdef_cond_eval (t : ast) (release : bool) (opt : build_t) : outcome bool :=
  if tk_eqb (ast_id t) TK_NONE then Ret true else cond_eval t None release opt.

(** ** Declarations of foreign functions *)

(** [ast_error] and its continuations, with the texts of the configurations. *)
Inductive ffi_error :=
| MultipleDecls (first second : list ascii)
| NoDecl (config : list ascii).

(** The [use] commands of a package, in the order of the nested loops. *)
Definition uses_of (package : ast) : list ast := List.concat (children <$> children package).

(** The guard of a [use] that declares the function [ffi_name]. *)
Definition declares (ffi_name : Z) (use : ast) : outcome (option ast) :=
  if negb (tk_eqb (ast_id use) TK_USE) then Ret None
  else
    match children use with
    | alias :: decl :: guard :: _ =>
        if tk_eqb (ast_id decl) TK_FFIDECL then
          name ← child_name decl; Ret (if ffi_name =? name then Some guard else None)
        else Ret None
    | _ => Abort
    end.

(** [had_decl] and the set. *)
Fixpoint find_decl_flags (uses : list ast) (ffi_name : Z) (had_decl : bool) (config : buildflagset_t)
    : outcome (bool * buildflagset_t) :=
  match uses with
  | [] => Ret (had_decl, config)
  | use :: uses =>
      d ← declares ffi_name use;
      match d with
      | None => find_decl_flags uses ffi_name had_decl config
      | Some guard =>
          config ← (if tk_eqb (ast_id guard) TK_NONE then Ret config else find_flags_in_cond guard config);
          find_decl_flags uses ffi_name true config
      end
  end.

(** [ffi_decl_t]: the position of the declaration and the text of the configuration. *)
Record ffi_decl_t := mk_ffi_decl { decl : Z; config_text : list ascii }.

(** The string in a buffer. *)
Fixpoint c_string (buf : list ascii) : list ascii :=
  match buf with
  | [] => []
  | c :: buf => if Ascii.eqb c zero then [] else c :: c_string buf
  end.

Context (fresh_text : Z -> list ascii).

(** [buildflagset_print], as the string it returns. *)
Definition print_config (config : buildflagset_t) : outcome (list ascii * buildflagset_t) :=
  config ← buildflagset_print fresh_text 2 config; Ret (c_string (text_buffer config), config).

(** The loops of [find_decl_for_config] from position [idx] on: the error of an early return,
    [had_valid_decl], the declaration and the set. *)
Fixpoint for_config_loop (uses : list ast) (idx ffi_name : Z) (config : buildflagset_t)
    (had_valid_decl : bool) (decl_info : option ffi_decl_t) (opt : build_t)
    : outcome (option ffi_error * bool * option ffi_decl_t * buildflagset_t) :=
  match uses with
  | [] => Ret (None, had_valid_decl, decl_info, config)
  | use :: uses =>
      d ← declares ffi_name use;
      match d with
      | None => for_config_loop uses (idx + 1) ffi_name config had_valid_decl decl_info opt
      | Some guard =>
          valid ← cond_eval guard (Some config) false opt;
          if negb valid then for_config_loop uses (idx + 1) ffi_name config had_valid_decl decl_info opt
          else
            match decl_info with
            | Some d =>
                if negb (decl d =? idx) then
                  '(txt, config) ← print_config config;
                  Ret (Some (MultipleDecls (config_text d) txt), true, decl_info, config)
                else for_config_loop uses (idx + 1) ffi_name config true decl_info opt
            | None =>
                '(txt, config) ← print_config config;
                for_config_loop uses (idx + 1) ffi_name config true (Some (mk_ffi_decl idx txt)) opt
            end
      end
  end.

Definition find_decl_for_config (uses : list ast) (ffi_name : Z) (config : buildflagset_t)
    (decl_info : option ffi_decl_t) (opt : build_t)
    : outcome (option ffi_error * option ffi_decl_t * buildflagset_t) :=
  '(err, had_valid_decl, decl_info, config) ← for_config_loop uses 0 ffi_name config false decl_info opt;
  match err with
  | Some e => Ret (Some e, decl_info, config)
  | None =>
      if negb had_valid_decl then
        '(txt, config) ← print_config config; Ret (Some (NoDecl txt), decl_info, config)
      else Ret (None, decl_info, config)
  end.

(** [while(buildflagset_next(config))] of [find_ffi_decl]; [ifdef_cond] may be null. *)
Fixpoint find_loop (fuel : nat) (uses : list ast) (ffi_name : Z) (ifdef_cond : option ast)
    (config : buildflagset_t) (decl_info : option ffi_decl_t) (opt : build_t)
    : outcome (ffi_error + option ffi_decl_t) :=
  match fuel with
  | O => NoFuel
  | S fuel =>
      '(ready, config) ← buildflagset_next config;
      if ready : bool then
        active ← match ifdef_cond with None => Ret true | Some c => cond_eval c (Some config) false opt end;
        if active : bool then
          '(err, decl_info, config) ← find_decl_for_config uses ffi_name config decl_info opt;
          match err with
          | Some e => Ret (inl e)
          | None =>
              match decl_info with
              | None => Abort
              | Some _ => find_loop fuel uses ffi_name ifdef_cond config decl_info opt
              end
          end
        else find_loop fuel uses ffi_name ifdef_cond config decl_info opt
      else Ret (inr decl_info)
  end.

(** The declaration, or null when the function is not declared; the error otherwise. *)
Definition find_ffi_decl (uninit : buildflagset_t) (fuel : nat) (t package : ast) (ifdef_cond : option ast)
    (opt : build_t) : outcome (ffi_error + option Z) :=
  ffi_name ← child_name t;
  let config := buildflagset_create fresh_buckets uninit in
  config ← match ifdef_cond with None => Ret config | Some c => find_flags_in_cond c config end;
  '(had_decl, config) ← find_decl_flags (uses_of package) ffi_name false config;
  if negb had_decl then Ret (inr None)
  else
    _ ← check_config_count config;
    config ← buildflagset_startenum config;
    r ← find_loop fuel (uses_of package) ffi_name ifdef_cond config None opt;
    match r with
    | inl e => Ret (inl e)
    | inr None => Abort
    | inr (Some d) => Ret (inr (Some (decl d)))
    end.
End operations.

(** ** Meaning *)

Section meaning.
Context `{CStrings} `{TokenNames}.

(** The flag that a node names. *)
Definition node_flag (t : ast) : Z := from_option (fun c => token_string (ast_tok c)) 0 (ast_child t).

Definition names_flag (t : ast) : bool :=
  match ast_child t with Some c => tk_eqb (ast_id c) TK_ID || tk_eqb (ast_id c) TK_STRING | None => false end.

(** Normal conditions, and when they hold. *)
Inductive normal : ast -> Prop :=
| normal_and tok data lhs rhs rest :
    normal lhs -> normal rhs -> normal (Node TK_IFDEFAND tok data (lhs :: rhs :: rest))
| normal_or tok data lhs rhs rest :
    normal lhs -> normal rhs -> normal (Node TK_IFDEFOR tok data (lhs :: rhs :: rest))
| normal_not tok data child rest : normal child -> normal (Node TK_IFDEFNOT tok data (child :: rest))
| normal_flag tok data l :
    names_flag (Node TK_IFDEFFLAG tok data l) = true -> normal (Node TK_IFDEFFLAG tok data l).

Fixpoint holds (rho : Z -> bool) (t : ast) : bool :=
  match t with
  | Node id _ _ l =>
      match id, l with
      | TK_IFDEFAND, lhs :: rhs :: _ => holds rho lhs && holds rho rhs
      | TK_IFDEFOR, lhs :: rhs :: _ => holds rho lhs || holds rho rhs
      | TK_IFDEFNOT, child :: _ => negb (holds rho child)
      | TK_IFDEFFLAG, _ => rho (node_flag t)
      | _, _ => true
      end
  end.

Fixpoint flags_in (t : ast) : list Z :=
  match t with
  | Node id _ _ l =>
      match id, l with
      | TK_IFDEFAND, lhs :: rhs :: _ | TK_IFDEFOR, lhs :: rhs :: _ => flags_in lhs ++ flags_in rhs
      | TK_IFDEFNOT, child :: _ => flags_in child
      | TK_IFDEFFLAG, _ => [node_flag t]
      | _, _ => []
      end
  end.

(** Conditions as they are written. *)
Inductive written : ast -> Prop :=
| written_and tok data lhs rhs question rest :
    written lhs -> written rhs -> ast_id question = TK_NONE ->
    written (Node TK_AND tok data (lhs :: rhs :: question :: rest))
| written_or tok data lhs rhs question rest :
    written lhs -> written rhs -> ast_id question = TK_NONE ->
    written (Node TK_OR tok data (lhs :: rhs :: question :: rest))
| written_not tok data child rest : written child -> written (Node TK_NOT tok data (child :: rest))
| written_string tok data l : written (Node TK_STRING tok data l)
| written_reference tok data l :
    names_flag (Node TK_REFERENCE tok data l) = true -> written (Node TK_REFERENCE tok data l)
| written_seq tok data child : written child -> written (Node TK_SEQ tok data [child])
| written_normal t : normal t -> written t.

(** A reference to [posix] means one of three systems. *)
Fixpoint means (rho : Z -> bool) (t : ast) : bool :=
  match t with
  | Node id tok _ l =>
      match id, l with
      | TK_AND, lhs :: rhs :: _ => means rho lhs && means rho rhs
      | TK_OR, lhs :: rhs :: _ => means rho lhs || means rho rhs
      | TK_NOT, child :: _ => negb (means rho child)
      | TK_STRING, _ => rho (token_string tok)
      | TK_REFERENCE, _ =>
          if String.eqb (text (node_flag t)) OS_POSIX_NAME then
            rho (intern OS_LINUX_NAME) || rho (intern OS_MACOSX_NAME) || rho (intern OS_BSD_NAME)
          else rho (node_flag t)
      | TK_SEQ, [child] => means rho child
      | _, _ => holds rho t
      end
  end.

Lemma flag_node_name (t : ast) name :
  normal (flag_node t name) /\ node_flag (flag_node t name) = intern name.
Proof. split; [by apply normal_flag|]. cbn. apply id_token_string. Qed.

Lemma child_name_flag t : names_flag t = true -> child_name t = Ret (node_flag t).
Proof.
  unfold child_name, names_flag, node_flag, first_child. destruct (ast_child t) as [c|]; [|done].
  cbn. unfold ast_name. by intros ->.
Qed.

Lemma normalise_normal t : normal t -> cond_normalise t = Ret t.
Proof. by intros []. Qed.

(** Normalisation gives a normal condition with the same meaning. *)
Lemma normalise_spec t :
  written t -> exists t', cond_normalise t = Ret t' /\ normal t' /\ forall rho, holds rho t' = means rho t.
Proof.
  induction 1 as [tok data lhs rhs question rest _ (l' & Hl & Nl & Ml) _ (r' & Hr & Nr & Mr) Hq
                 |tok data lhs rhs question rest _ (l' & Hl & Nl & Ml) _ (r' & Hr & Nr & Mr) Hq
                 |tok data child rest _ (c' & Hc & Nc & Mc)|tok data l|tok data l Hn
                 |tok data child _ (c' & Hc & Nc & Mc)|t Ht].
  - cbn [cond_normalise]. rewrite Hq. cbn [tk_eqb]. rewrite Hl, Hr. eexists. split; [done|].
    split; [by constructor|]. intros rho. cbn. by rewrite Ml, Mr.
  - cbn [cond_normalise]. rewrite Hq. cbn [tk_eqb]. rewrite Hl, Hr. eexists. split; [done|].
    split; [by constructor|]. intros rho. cbn. by rewrite Ml, Mr.
  - cbn [cond_normalise]. rewrite Hc. eexists. split; [done|]. split; [by constructor|].
    intros rho. cbn. by rewrite Mc.
  - eexists. split; [done|]. split; [by constructor|done].
  - cbn [cond_normalise]. rewrite child_name_flag by done. cbn [mbind outcome_bind].
    set (t := Node TK_REFERENCE tok data l) in *.
    assert (forall rho, means rho t = if String.eqb (text (node_flag t)) OS_POSIX_NAME then
              rho (intern OS_LINUX_NAME) || rho (intern OS_MACOSX_NAME) || rho (intern OS_BSD_NAME)
              else rho (node_flag t)) as Hmeans by done.
    destruct (String.eqb _ _).
    + eexists. split; [done|]. split; [by repeat constructor|]. intros rho. rewrite Hmeans. cbn.
      by rewrite !id_token_string.
    + eexists. split; [done|]. split; [by constructor|]. intros rho. by rewrite Hmeans.
  - exists c'. split; [done|]. split; [done|]. exact Mc.
  - exists t. split; [by apply normalise_normal|]. split; [done|]. intros rho. by destruct Ht.
Qed.

(** ** Evaluation *)

(** Evaluation is the meaning for what the flags evaluate to. *)
Lemma eval_holds t config release opt rho :
  normal t -> (forall flag, flag ∈ flags_in t -> eval_flag config release opt flag = Ret (rho flag)) ->
  cond_eval t config release opt = Ret (holds rho t).
Proof.
  induction 1 as [tok data lhs rhs rest _ IHl _ IHr|tok data lhs rhs rest _ IHl _ IHr
                 |tok data child rest _ IHc|tok data l Hn]; cbn [flags_in cond_eval holds]; intros Hf.
  - rewrite IHl, IHr by (intros; apply Hf, elem_of_app; auto). cbn. by destruct (holds rho lhs).
  - rewrite IHl, IHr by (intros; apply Hf, elem_of_app; auto). cbn. by destruct (holds rho lhs).
  - by rewrite IHc.
  - rewrite child_name_flag by done. cbn [mbind outcome_bind]. apply Hf. left.
Qed.

Lemma eval_config t s rho opt :
  normal t -> (forall flag, flag ∈ flags_in t -> flag_used s flag) -> agrees s rho ->
  cond_eval t (Some s) false opt = Ret (holds rho t).
Proof. intros Ht Hu Ha. apply eval_holds; [done|]. intros flag Hin. apply Ha, Hu, Hin. Qed.

(** ** Flags *)

(** What adds the flags [l] to a set. *)
Definition collects (l : list Z) (run : buildflagset_t -> outcome buildflagset_t) : Prop :=
  forall set, flagset_ok set -> started_enum set = false ->
    Z.of_nat (length (elems (flags set)) + length l) < 2 ^ 52 ->
    exists set', run set = Ret set' /\ flagset_ok set' /\ started_enum set' = false /\
      (forall f, f ∈ l -> flag_used set' f) /\ (forall f, flag_used set f -> flag_used set' f) /\
      (length (elems (flags set')) <= length (elems (flags set)) + length l)%nat.

Lemma collects_nil : collects [] Ret.
Proof.
  intros set Hok Hst _. exists set. split_and!; [done|done|done| |done|cbn; lia].
  intros f Hf. by apply elem_of_nil in Hf.
Qed.

Lemma collects_app l1 l2 run1 run2 :
  collects l1 run1 -> collects l2 run2 -> collects (l1 ++ l2) (fun set => set ← run1 set; run2 set).
Proof.
  intros IHl IHr set Hok Hst Hlen. rewrite length_app in *.
  destruct (IHl set Hok Hst ltac:(lia)) as (s1 & -> & Hok1 & Hst1 & Hu1 & Hk1 & Hl1). cbn [mbind outcome_bind].
  destruct (IHr s1 Hok1 Hst1 ltac:(lia)) as (s2 & -> & Hok2 & Hst2 & Hu2 & Hk2 & Hl2).
  exists s2. split_and!; [done|done|done| |auto|lia]. intros f [Hf|Hf]%elem_of_app; auto.
Qed.

Lemma find_flags_collects fresh_buckets t :
  (forall n, length (fresh_buckets n) = Z.to_nat n) -> normal t ->
  collects (flags_in t) (find_flags_in_cond fresh_buckets t).
Proof.
  intros Hfresh. induction 1 as [tok data lhs rhs rest _ IHl _ IHr|tok data lhs rhs rest _ IHl _ IHr
                  |tok data child rest _ IHc|tok data l Hn].
  - exact (collects_app _ _ _ _ IHl IHr).
  - exact (collects_app _ _ _ _ IHl IHr).
  - exact IHc.
  - intros set Hok Hst Hlen. cbn [find_flags_in_cond]. rewrite child_name_flag by done. cbn [mbind outcome_bind].
    destruct (add_flag fresh_buckets set (node_flag (Node TK_IFDEFFLAG tok data l)) Hfresh Hok Hst)
      as (s & -> & Hok' & Hst' & Hu & Hk & Hl); [cbn in Hlen; lia|].
    exists s. split_and!; [done|done|done| |done|cbn; lia]. by intros f ->%list_elem_of_singleton.
Qed.

(** ** Conditions that can be true *)

Lemma at_config_flags set0 k s t :
  flagset_ok set0 -> at_config set0 k s -> (forall f, f ∈ flags_in t -> flag_used set0 f) ->
  forall f, f ∈ flags_in t -> flag_used s f.
Proof. intros Hok Hat Hu f Hf. apply (at_config_used set0 k s f (set_tab _ Hok) Hat). auto. Qed.

(** The loop from configuration [k] on. *)
Lemma normalise_loop_spec set0 t opt fuel k set s :
  flagset_ok set0 -> normal t -> (forall f, f ∈ flags_in t -> flag_used set0 f) ->
  0 <= k < combinations (bases set0) -> buildflagset_next set = Ret (true, s) -> at_config set0 k s ->
  combinations (bases set0) - k < Z.of_nat fuel ->
  exists b, normalise_loop fuel t set opt = Ret b /\
    (b = true <-> exists j rho, k <= j < combinations (bases set0) /\ assigned set0 j rho /\ holds rho t = true).
Proof.
  intros Hok Ht Hu. revert k set s. induction fuel as [|fuel IH]; intros k set s Hk Hrun Hat Hf; [lia|].
  cbn [normalise_loop]. rewrite Hrun. cbn [mbind outcome_bind].
  destruct (assigned_exists set0 k Hok Hk) as (rho & Hrho).
  assert (forall rho, assigned set0 k rho -> cond_eval t (Some s) false opt = Ret (holds rho t)) as Heval.
  { intros rho' [_ Ha]. apply eval_config; [done|by eapply at_config_flags|by apply Ha]. }
  rewrite (Heval rho Hrho). cbn [mbind outcome_bind]. destruct (holds rho t) eqn:Hh.
  { exists true. split; [done|]. split; [|done]. intros _. exists k, rho. split; [lia|done]. }
  destruct (next_at set0 k s (set_tab _ Hok) Hat Hk) as (s' & Hrun' & Hat').
  assert (forall j rho, assigned set0 j rho -> holds rho t = true -> j <> k) as Hnot.
  { intros j rho' Hrho' Hh' ->. pose proof (Heval rho' Hrho'). pose proof (Heval rho Hrho). congruence. }
  destruct (Z.ltb_spec (k + 1) (combinations (bases set0))) as [Hlt|Hge].
  - rewrite Z.mod_small in Hat' by lia.
    destruct (IH (k + 1) s s' ltac:(lia) Hrun' Hat' ltac:(lia)) as (b & -> & Hb). exists b. split; [done|].
    rewrite Hb. split; intros (j & rho' & Hj & Ha & Hh'); exists j, rho'; (split; [|done]); [lia|].
    pose proof (Hnot j rho' Ha Hh'). lia.
  - destruct fuel as [|fuel]; [lia|]. cbn [normalise_loop]. rewrite Hrun'. cbn [mbind outcome_bind].
    exists false. split; [done|]. split; [done|]. intros (j & rho' & Hj & Ha & Hh').
    destruct (Hnot j rho' Ha Hh'). lia.
Qed.

(** The set that has collected the flags of conditions, and its enumeration. *)
Lemma collected fresh_buckets uninit l run :
  (forall n, length (fresh_buckets n) = Z.to_nat n) -> collects l run -> Z.of_nat (length l) < 2 ^ 52 ->
  exists set, run (buildflagset_create fresh_buckets uninit) = Ret set /\ flagset_ok set /\
    forall f, f ∈ l -> flag_used set f.
Proof.
  intros Hfresh Hrun Hlen. destruct (create_ok fresh_buckets uninit Hfresh) as [Hok He].
  destruct (Hrun _ Hok eq_refl) as (set & Hset & Hok' & _ & Hu & _); [by rewrite He|]. by exists set.
Qed.

Lemma normalise_decides fresh_buckets uninit t opt :
  (forall n, length (fresh_buckets n) = Z.to_nat n) -> written t ->
  (forall t', cond_normalise t = Ret t' -> Z.of_nat (length (flags_in t')) < 2 ^ 52) ->
  exists t' r, normal t' /\ (forall rho, holds rho t' = means rho t) /\
    (r = true <-> exists rho, possible rho /\ means rho t = true) /\
    Prelude.eventually (fun fuel => ifdef_cond_normalise fresh_buckets uninit fuel t opt = Ret (r, t')).
Proof.
  intros Hfresh Hw Hlen. destruct (normalise_spec t Hw) as (t' & Hn & Ht' & Hm).
  destruct (collected fresh_buckets uninit _ _ Hfresh (find_flags_collects fresh_buckets t' Hfresh Ht') (Hlen t' Hn))
    as (set0 & Hset & Hok & Hu).
  destruct (start_at set0 (set_tab _ Hok)) as (set1 & set2 & Hstart & Hfirst & Hat).
  pose proof (combinations_pos _ (bases_pos set0)) as Hpos.
  destruct (normalise_loop_spec set0 t' opt (S (Z.to_nat (combinations (bases set0)))) 0 set1 set2)
    as (r & Hr & Hiff); [done|done|done|lia|done|done|lia|].
  exists t', r. split; [done|]. split; [done|]. split.
  - rewrite Hiff. split.
    + intros (j & rho & _ & [Hrho _] & Hh). exists rho. by rewrite <- Hm.
    + intros (rho & Hrho & Hh). destruct (assigned_surj set0 rho Hok Hrho) as (j & Hj & Ha).
      exists j, rho. by rewrite Hm.
  - exists (S (Z.to_nat (combinations (bases set0)))). intros fuel Hf. unfold ifdef_cond_normalise.
    assert (tk_eqb (ast_id t) TK_NONE = false) as -> by by destruct Hw as [| | | | | |? []].
    rewrite Hn. cbn [mbind outcome_bind]. rewrite Hset. cbn [mbind outcome_bind]. unfold check_config_count.
    rewrite configcount_total by apply Hok. cbn [mbind outcome_bind]. rewrite Hstart. cbn [mbind outcome_bind].
    destruct (normalise_loop_spec set0 t' opt fuel 0 set1 set2) as (r' & -> & Hiff');
      [done|done|done|lia|done|done|lia|].
    cbn [mbind outcome_bind]. do 2 f_equal. apply eq_true_iff_eq. by rewrite Hiff', Hiff.
Qed.

(** ** Declarations *)

(** Guards are empty or normal, so that [holds] is true for an empty one. *)
Definition guard_ok (g : ast) : Prop := ast_id g = TK_NONE \/ normal g.

Definition uses_ok (ffi_name : Z) (uses : list ast) : Prop :=
  forall use, use ∈ uses -> exists d, declares ffi_name use = Ret d /\ forall g, d = Some g -> guard_ok g.

Definition is_declared (ffi_name : Z) (uses : list ast) : Prop :=
  exists use g, use ∈ uses /\ declares ffi_name use = Ret (Some g).

Definition guard_flags (ffi_name : Z) (uses : list ast) : list Z :=
  List.concat ((fun use => match declares ffi_name use with Ret (Some g) => flags_in g | _ => [] end) <$> uses).

(** The positions, from [idx] on, of the declarations that are valid under an assignment. *)
Fixpoint valid_decls (rho : Z -> bool) (ffi_name : Z) (uses : list ast) (idx : Z) : list Z :=
  match uses with
  | [] => []
  | use :: uses =>
      match declares ffi_name use with
      | Ret (Some g) => if holds rho g then idx :: valid_decls rho ffi_name uses (idx + 1)
                        else valid_decls rho ffi_name uses (idx + 1)
      | _ => valid_decls rho ffi_name uses (idx + 1)
      end
  end.

Lemma guard_none g : ast_id g = TK_NONE -> flags_in g = [] /\ (forall rho, holds rho g = true) /\
  forall config release opt, cond_eval g config release opt = Ret true.
Proof. destruct g as [id tok data l]. cbn. by intros ->. Qed.

Lemma guard_eval g s rho opt :
  guard_ok g -> (forall flag, flag ∈ flags_in g -> flag_used s flag) -> agrees s rho ->
  cond_eval g (Some s) false opt = Ret (holds rho g).
Proof. intros [Hg|Hg] Hu Ha; [|by apply eval_config]. by destruct (guard_none g Hg) as (_ & -> & ->). Qed.

Lemma find_decl_flags_spec fresh_buckets ffi_name uses had :
  (forall n, length (fresh_buckets n) = Z.to_nat n) -> uses_ok ffi_name uses ->
  exists had', (had' = true <-> had = true \/ is_declared ffi_name uses) /\
    exists run, collects (guard_flags ffi_name uses) run /\
      forall set, find_decl_flags fresh_buckets uses ffi_name had set = (set ← run set; Ret (had', set)).
Proof.
  intros Hfresh. revert had. induction uses as [|use uses IH]; intros had Hok.
  { exists had. split.
    - split; [by left|]. intros [|(use & g & Hu & _)]; [done|]. by apply elem_of_nil in Hu.
    - exists Ret. split; [apply collects_nil|done]. }
  assert (uses_ok ffi_name uses) as Hok' by (intros u Hu; apply Hok; by right).
  destruct (Hok use) as (d & Hd & Hg); [left|]. cbn [find_decl_flags]. rewrite Hd. cbn [mbind outcome_bind].
  unfold guard_flags. cbn [fmap list_fmap List.concat]. rewrite Hd. destruct d as [g|].
  - destruct (IH true Hok') as (had' & Hhad & run & Hrun & Heq). exists had'. split.
    { rewrite Hhad. split; [intros _|by left]. right. exists use, g. split; [left|done]. }
    destruct (Hg g eq_refl) as [Hnone|Hn].
    + exists run. destruct (guard_none g Hnone) as (-> & _). split; [done|]. intros set.
      rewrite Hnone. cbn. apply Heq.
    + exists (fun set => set ← find_flags_in_cond fresh_buckets g set; run set).
      split; [apply collects_app; [by apply find_flags_collects|done]|]. intros set.
      assert (tk_eqb (ast_id g) TK_NONE = false) as -> by by destruct Hn.
      destruct (find_flags_in_cond fresh_buckets g set); cbn [mbind outcome_bind]; [apply Heq|done..].
  - destruct (IH had Hok') as (had' & Hhad & run & Hrun & Heq). exists had'. split.
    { rewrite Hhad. apply or_iff_compat_l. split; intros (u & g & Hu & Hdu); exists u, g; (split; [|done]); [by right|].
      apply elem_of_cons in Hu as [->|]; [|done]. congruence. }
    exists run. split; [done|]. exact Heq.
Qed.
Lemma holds_ext rho rho' t :
  normal t -> (forall f, f ∈ flags_in t -> rho f = rho' f) -> holds rho t = holds rho' t.
Proof.
  induction 1 as [tok data lhs rhs rest _ IHl _ IHr|tok data lhs rhs rest _ IHl _ IHr
                  |tok data child rest _ IHc|tok data l Hn]; cbn [holds flags_in]; intros Hf.
  - rewrite IHl, IHr; [done|intros; apply Hf, elem_of_app; auto..].
  - rewrite IHl, IHr; [done|intros; apply Hf, elem_of_app; auto..].
  - by rewrite IHc.
  - apply Hf. left.
Qed.

Lemma valid_decls_ext ffi_name rho rho' uses idx :
  uses_ok ffi_name uses -> (forall f, f ∈ guard_flags ffi_name uses -> rho f = rho' f) ->
  valid_decls rho ffi_name uses idx = valid_decls rho' ffi_name uses idx.
Proof.
  revert idx. induction uses as [|use uses IH]; intros idx Hok Hf; [done|]. cbn [valid_decls].
  assert (uses_ok ffi_name uses) as Hok' by (intros u Hin; apply Hok; by right).
  assert (forall i, valid_decls rho ffi_name uses i = valid_decls rho' ffi_name uses i) as IH'.
  { intros i. apply IH; [done|]. intros f Hin. apply Hf. unfold guard_flags in *. cbn. apply elem_of_app. by right. }
  destruct (Hok use) as (d & Hd & Hg); [left|]. rewrite Hd. destruct d as [g|]; [|apply IH'].
  rewrite IH'. destruct (Hg g eq_refl) as [Hnone|Hn].
  - by destruct (guard_none g Hnone) as (_ & Hh & _); rewrite !Hh.
  - rewrite (holds_ext rho rho' g); [done|done|]. intros f Hin. apply Hf. unfold guard_flags. cbn.
    rewrite Hd. apply elem_of_app. by left.
Qed.

End meaning.

Section buffers.
Context `{CStrings} `{TokenNames} (ffi_name : Z).

(** The buffer of a set is as long as its size says. *)
Definition buffer_ok (s : buildflagset_t) : Prop := Z.of_nat (length (text_buffer s)) = buffer_size s.

Lemma next_buffer s b s' : buildflagset_next s = Ret (b, s') -> buffer_ok s -> buffer_ok s'.
Proof.
  unfold buildflagset_next. repeat (case_match; try done); intros E; simplify_eq; try done.
  destruct (tab_each _ _ _) as [[? ?]| | |]; cbn in *; by simplify_eq.
Qed.

Lemma startenum_buffer s s' : buildflagset_startenum s = Ret s' -> buffer_ok s -> buffer_ok s'.
Proof. unfold buildflagset_startenum. destruct (tab_each _ _ _) as [[? ?]| | |]; cbn; intros; by simplify_eq. Qed.

Lemma add_buffer fresh_buckets s flag s' :
  buildflagset_add fresh_buckets s flag = Ret s' -> buffer_ok s -> buffer_ok s'.
Proof.
  unfold buildflagset_add. repeat (case_match; try done); intros E; simplify_eq; try done.
  destruct (tab_putindex _ _ _ _); cbn in *; by simplify_eq.
Qed.

Lemma find_flags_buffer fresh_buckets t s s' :
  normal t -> find_flags_in_cond fresh_buckets t s = Ret s' -> buffer_ok s -> buffer_ok s'.
Proof.
  intros Ht. revert s s'. induction Ht as [tok data lhs rhs rest _ IHl _ IHr|tok data lhs rhs rest _ IHl _ IHr
                  |tok data child rest _ IHc|tok data l Hn]; intros s s'; cbn [find_flags_in_cond].
  - destruct (find_flags_in_cond fresh_buckets lhs s) as [s1| | |] eqn:E1; cbn; try done. eauto.
  - destruct (find_flags_in_cond fresh_buckets lhs s) as [s1| | |] eqn:E1; cbn; try done. eauto.
  - apply IHc.
  - rewrite child_name_flag by done. cbn. apply add_buffer.
Qed.

Lemma decl_flags_buffer fresh_buckets uses had s had' s' :
  uses_ok ffi_name uses -> find_decl_flags fresh_buckets uses ffi_name had s = Ret (had', s') ->
  buffer_ok s -> buffer_ok s'.
Proof.
  revert had s. induction uses as [|use uses IH]; intros had s Hok; cbn [find_decl_flags]; [by intros [= _ <-]|].
  assert (uses_ok ffi_name uses) as Hok' by (intros u Hu; apply Hok; by right).
  destruct (Hok use) as (d & -> & Hg); [left|]. cbn [mbind outcome_bind]. destruct d as [g|]; [|by apply IH].
  destruct (Hg g eq_refl) as [Hnone|Hn].
  - rewrite Hnone. by apply IH.
  - assert (tk_eqb (ast_id g) TK_NONE = false) as -> by by destruct Hn.
    destruct (find_flags_in_cond fresh_buckets g s) as [s1| | |] eqn:E1; cbn; try done.
    intros Hrun Hb. eapply IH; [done|done|]. by eapply find_flags_buffer.
Qed.

End buffers.

Section find_decl.
Context `{CStrings} `{TokenNames} (fresh_text : Z -> list ascii).
Context (fresh_length : forall n, length (fresh_text n) = Z.to_nat n).
Context (ffi_name : Z) (opt : build_t).

Lemma print_config_spec s :
  tab_ok (flags s) -> buffer_ok s ->
  exists txt buf size, print_config fresh_text s = Ret (txt, with_text s buf size) /\ buffer_ok (with_text s buf size).
Proof using All.
  intros Hok Hbuf. destruct (print_terminates fresh_text s Hok Hbuf fresh_length) as (buf & size & Hrun & _ & _ & Hlen).
  unfold print_config. rewrite Hrun. cbn [mbind outcome_bind]. by eexists _, buf, size.
Qed.

(** The text does not matter for the configuration. *)
Lemma at_config_text set0 k s buf size : at_config set0 k s -> at_config set0 k (with_text s buf size).
Proof. done. Qed.

Lemma agrees_text s rho buf size : agrees s rho -> agrees (with_text s buf size) rho.
Proof. done. Qed.

(** All declarations of the list are the one chosen so far, or the first of them. *)
Definition consistent (d : option Z) (v : list Z) : Prop := exists x, (d = None \/ d = Some x) /\ Forall (eq x) v.

Lemma consistent_cons d i v :
  consistent d (i :: v) <-> (d = None \/ d = Some i) /\ consistent (Some i) v.
Proof.
  split.
  - intros (x & Hd & [<- Hv]%Forall_cons). split; [done|]. exists x. by split; [right|].
  - intros (Hd & x & [|[= ->]] & Hv); [done|]. exists x. split; [done|]. by constructor.
Qed.

(** The outcome of the loops for one configuration. *)
Definition chosen (d : option Z) (v : list Z) : option Z := match d with Some x => Some x | None => head v end.

Lemma for_config_spec rho uses idx s had di :
  uses_ok ffi_name uses -> tab_ok (flags s) -> buffer_ok s -> agrees s rho ->
  (forall f, f ∈ guard_flags ffi_name uses -> flag_used s f) ->
  exists err had' di' buf size,
    for_config_loop fresh_text uses idx ffi_name s had di opt = Ret (err, had', di', with_text s buf size) /\
    buffer_ok (with_text s buf size) /\
    let v := valid_decls rho ffi_name uses idx in
    (err = None <-> consistent (decl <$> di) v) /\
    (err = None -> had' = had || negb (bool_decide (v = [])) /\ decl <$> di' = chosen (decl <$> di) v).
Proof using All.
  revert idx s had di. induction uses as [|use uses IH]; intros idx s had di Hok Htab Hbuf Ha Hu.
  { exists None, had, di, (text_buffer s), (buffer_size s). cbn. split; [by destruct s|]. split; [done|].
    rewrite orb_false_r. split.
    - split; [|done]. intros _. destruct di as [d|]; [exists (decl d)|exists 0]; by split; [auto|].
    - intros _. split; [done|]. by destruct di. }
  assert (uses_ok ffi_name uses) as Hok' by (intros u Hin; apply Hok; by right).
  assert (forall f, f ∈ guard_flags ffi_name uses -> flag_used s f) as Hu'.
  { intros f Hf. apply Hu. unfold guard_flags in *. cbn. apply elem_of_app. by right. }
  destruct (Hok use) as (d & Hd & Hg); [left|]. cbn [for_config_loop valid_decls]. rewrite Hd.
  cbn [mbind outcome_bind]. destruct d as [g|]; [|by apply IH].
  rewrite (guard_eval g s rho opt (Hg g eq_refl)); [|intros f Hf; apply Hu; unfold guard_flags; cbn;
    rewrite Hd; apply elem_of_app; by left|done].
  cbn [mbind outcome_bind]. destruct (holds rho g); cbn [negb]; [|by apply IH].
  setoid_rewrite consistent_cons. rewrite (bool_decide_eq_false_2 (idx :: _ = [])) by done. cbn [negb].
  destruct di as [d|]; cbn [fmap option_fmap option_map chosen].
  - destruct (Z.eqb_spec (decl d) idx) as [E|Hne]; cbn [negb].
    + destruct (IH (idx + 1) s true (Some d) Hok' Htab Hbuf Ha Hu')
        as (err & had' & di' & buf & size & -> & Hb & Hiff & Hres).
      exists err, had', di', buf, size. split; [done|]. split; [done|]. cbn in Hiff, Hres. rewrite E in *.
      split; [rewrite Hiff; naive_solver|]. intros Herr. destruct (Hres Herr) as [-> ->]. by rewrite orb_true_r.
    + destruct (print_config_spec s Htab Hbuf) as (txt & buf & size & -> & Hb). cbn [mbind outcome_bind].
      eexists _, true, (Some d), buf, size. split; [done|]. split; [done|]. split; [|done].
      split; [done|]. intros ([|[= E]] & _); [done|]. by destruct Hne.
  - destruct (print_config_spec s Htab Hbuf) as (txt & buf & size & -> & Hb). cbn [mbind outcome_bind].
    destruct (IH (idx + 1) (with_text s buf size) true (Some (mk_ffi_decl idx txt)) Hok' Htab Hb
      (agrees_text _ _ _ _ Ha) Hu') as (err & had' & di' & buf' & size' & -> & Hb' & Hiff & Hres).
    exists err, had', di', buf', size'. split; [done|]. split; [done|]. cbn in Hiff, Hres |- *.
    split; [rewrite Hiff; naive_solver|]. intros Herr. destruct (Hres Herr) as [-> ->]. by rewrite orb_true_r.
Qed.

(** The declaration [x] is the only one that is valid under [rho]. *)
Definition only_decl (uses : list ast) (rho : Z -> bool) (x : Z) : Prop :=
  valid_decls rho ffi_name uses 0 <> [] /\ Forall (eq x) (valid_decls rho ffi_name uses 0).

Lemma decl_for_config_spec rho uses s di :
  uses_ok ffi_name uses -> tab_ok (flags s) -> buffer_ok s -> agrees s rho ->
  (forall f, f ∈ guard_flags ffi_name uses -> flag_used s f) ->
  exists err di' buf size,
    find_decl_for_config fresh_text uses ffi_name s di opt = Ret (err, di', with_text s buf size) /\
    buffer_ok (with_text s buf size) /\
    (forall x, (decl <$> di = None \/ decl <$> di = Some x) -> only_decl uses rho x ->
       err = None /\ decl <$> di' = Some x) /\
    (err = None -> exists x, (decl <$> di = None \/ decl <$> di = Some x) /\ only_decl uses rho x /\
       decl <$> di' = Some x).
Proof using All.
  intros Hok Htab Hbuf Ha Hu. unfold find_decl_for_config, only_decl.
  destruct (for_config_spec rho uses 0 s false di Hok Htab Hbuf Ha Hu)
    as (err & had & di' & buf & size & -> & Hb & Hiff & Hres). cbn [mbind outcome_bind] in *.
  set (v := valid_decls rho ffi_name uses 0) in *.
  assert (forall x, (decl <$> di = None \/ decl <$> di = Some x) -> v <> [] -> Forall (eq x) v ->
    chosen (decl <$> di) v = Some x) as Hchosen.
  { intros x Hd Hv Hall. destruct v as [|i v']; [done|]. apply Forall_cons in Hall as [<- _].
    by destruct Hd as [-> | ->]. }
  destruct err as [e|].
  - eexists _, di', buf, size. split; [done|]. split; [done|]. split; [|done].
    intros x Hd [Hv Hall]. exfalso. enough (Some e = None) by done. apply Hiff. by exists x.
  - destruct (Hres eq_refl) as [-> Hdi]. destruct (proj1 Hiff eq_refl) as (x & Hd & Hall). cbn [orb].
    destruct (decide (v = [])) as [Hv|Hv].
    + rewrite bool_decide_eq_true_2 by done. cbn [negb].
      destruct (print_config_spec (with_text s buf size) Htab Hb) as (txt & buf' & size' & -> & Hb').
      cbn [mbind outcome_bind]. eexists _, di', buf', size'. split; [done|]. split; [done|].
      split; [|done]. by intros y _ [].
    + rewrite bool_decide_eq_false_2 by done. cbn [negb].
      eexists None, di', buf, size. split; [done|]. split; [done|]. split.
      * intros y Hy [_ Hyall]. split; [done|]. rewrite Hdi. by apply Hchosen.
      * intros _. exists x. split; [done|]. split; [done|]. rewrite Hdi. by apply Hchosen.
Qed.

(** *** All configurations *)

Context (set0 : buildflagset_t) (set0_ok : flagset_ok set0).

(** The assignments of one configuration agree on the flags of the set. *)
Lemma assigned_agree k rho rho' f :
  0 <= k < combinations (bases set0) -> assigned set0 k rho -> assigned set0 k rho' -> flag_used set0 f ->
  rho f = rho' f.
Proof using All.
  intros Hk [_ Ha] [_ Ha'] Hu. destruct (at_config_exists set0 k (set_tab _ set0_ok) Hk) as (s & Hs).
  pose proof (proj2 (at_config_used set0 k s f (set_tab _ set0_ok) Hs) Hu) as Hus.
  pose proof (Ha s Hs f Hus). pose proof (Ha' s Hs f Hus). congruence.
Qed.

(** The set before the call of [next] that leads to configuration [k]. *)
Definition before (k : Z) (s : buildflagset_t) : Prop :=
  (k < combinations (bases set0) /\
   exists s', buildflagset_next s = Ret (true, s') /\ at_config set0 k s' /\ buffer_ok s') \/
  (k = combinations (bases set0) /\ exists s', buildflagset_next s = Ret (false, s')).

Lemma before_next k s :
  0 <= k < combinations (bases set0) -> at_config set0 k s -> buffer_ok s -> before (k + 1) s.
Proof using All.
  intros Hk Hat Hbuf. destruct (next_at set0 k s (set_tab _ set0_ok) Hat Hk) as (s' & Hrun & Hat').
  destruct (Z.ltb_spec (k + 1) (combinations (bases set0))) as [Hlt|Hge].
  - left. split; [done|]. exists s'. split; [done|]. rewrite Z.mod_small in Hat' by lia.
    split; [done|]. by eapply next_buffer.
  - right. split; [lia|]. by exists s'.
Qed.

Context (uses : list ast) (ifdef_cond : option ast).
Context (uses_wf : uses_ok ffi_name uses) (cond_wf : forall c, ifdef_cond = Some c -> normal c).

Definition cond_flags : list Z := from_option flags_in [] ifdef_cond.

Context (cond_used : forall f, f ∈ cond_flags -> flag_used set0 f).
Context (guards_used : forall f, f ∈ guard_flags ffi_name uses -> flag_used set0 f).

(** The condition of the [ifdef] around the call, true outside. *)
Definition active (rho : Z -> bool) : bool := from_option (holds rho) true ifdef_cond.

Lemma active_eval k s rho :
  at_config set0 k s -> agrees s rho ->
  match ifdef_cond with None => Ret true | Some c => cond_eval c (Some s) false opt end = Ret (active rho).
Proof using All.
  intros Hat Ha. unfold active. destruct ifdef_cond as [c|] eqn:E; [|done]. cbn.
  apply eval_config; [by apply cond_wf| |done]. intros f Hf.
  apply (at_config_used set0 k s f (set_tab _ set0_ok) Hat). apply cond_used. unfold cond_flags. by rewrite E.
Qed.

Lemma active_assigned k rho rho' :
  0 <= k < combinations (bases set0) -> assigned set0 k rho -> assigned set0 k rho' -> active rho = active rho'.
Proof using All.
  intros Hk Ha Ha'. unfold active. destruct ifdef_cond as [c|] eqn:E; [|done]. cbn.
  apply holds_ext; [by apply cond_wf|]. intros f Hf. eapply assigned_agree; [done|done|done|].
  apply cond_used. unfold cond_flags. by rewrite E.
Qed.

Lemma only_decl_assigned k rho rho' x :
  0 <= k < combinations (bases set0) -> assigned set0 k rho -> assigned set0 k rho' ->
  only_decl uses rho x -> only_decl uses rho' x.
Proof using All.
  intros Hk Ha Ha'. unfold only_decl. rewrite (valid_decls_ext ffi_name rho' rho); [done|done|].
  intros f Hf. eapply assigned_agree; [done|done|done|]. by apply guards_used.
Qed.

(** The configurations from [k] on in which the call is active have the property [P]. *)
Definition all_active (k : Z) (P : (Z -> bool) -> Prop) : Prop :=
  forall j rho, k <= j < combinations (bases set0) -> assigned set0 j rho -> active rho = true -> P rho.

Lemma all_active_step k P rho :
  0 <= k < combinations (bases set0) -> assigned set0 k rho ->
  (forall rho', assigned set0 k rho' -> P rho -> P rho') ->
  (all_active k P <-> (active rho = true -> P rho) /\ all_active (k + 1) P).
Proof using All.
  intros Hk Ha Hext. split.
  - intros Hall. split; [intros Hact; apply (Hall k rho); [lia|done|done]|].
    intros j rho' Hj. apply Hall. lia.
  - intros [Hhere Hrest] j rho' Hj Ha' Hact. destruct (decide (j = k)) as [->|].
    + apply (Hext rho' Ha'), Hhere. by rewrite (active_assigned k rho rho').
    + apply (Hrest j); [lia|done|done].
Qed.

(** The loop from configuration [k] on: it finds [x] exactly when [x] is the only valid
    declaration in all of them. *)
Lemma decl_loop_spec fuel k s di :
  0 <= k -> before k s -> combinations (bases set0) - k < Z.of_nat fuel ->
  exists r, find_loop fresh_text fuel uses ffi_name ifdef_cond s di opt = Ret r /\
    (forall x, (decl <$> di = None \/ decl <$> di = Some x) -> all_active k (fun rho => only_decl uses rho x) ->
       exists di', r = inr di' /\ (decl <$> di' = Some x \/ (di' = di /\ all_active k (fun _ => False)))) /\
    (forall di', r = inr di' -> (decl <$> di = None \/ decl <$> di' = decl <$> di) /\
       all_active k (fun rho => exists x, decl <$> di' = Some x /\ only_decl uses rho x)).
Proof using All.
  revert k s di. induction fuel as [|fuel IH]; intros k s di Hk Hbefore Hf.
  { destruct Hbefore as [[Hlt _]|[-> _]]; lia. }
  cbn [find_loop]. destruct Hbefore as [[Hlt (s' & -> & Hat & Hbuf)]|[-> (s' & ->)]]; cbn [mbind outcome_bind].
  2:{ exists (inr di). split; [done|]. split.
      - intros x _ _. exists di. split; [done|]. right. split; [done|]. intros j rho Hj. lia.
      - intros di' [= <-]. split; [by right|]. intros j rho Hj. lia. }
  destruct (assigned_exists set0 k set0_ok ltac:(lia)) as (rho & Hrho).
  pose proof (proj2 Hrho s' Hat) as Hagree. rewrite (active_eval k s' rho Hat Hagree).
  pose proof (same_tab_ok _ _ (proj1 Hat) (set_tab _ set0_ok)) as Htab. cbn [mbind outcome_bind].
  assert (forall P, (forall rho', assigned set0 k rho' -> P rho -> P rho') ->
    (all_active k P <-> (active rho = true -> P rho) /\ all_active (k + 1) P)) as Hstep
    by (intros P HP; apply all_active_step; [lia|done|done]).
  assert (forall x rho', assigned set0 k rho' -> only_decl uses rho x -> only_decl uses rho' x) as Hext
    by (intros x rho' Ha'; apply (only_decl_assigned k); [lia|done|done]).
  destruct (active rho) eqn:Hact.
  - destruct (decl_for_config_spec rho uses s' di uses_wf Htab Hbuf Hagree) as
      (err & di1 & buf & size & -> & Hb & Hfound & Hnoerr).
    { intros f Hf'. apply (at_config_used set0 k s' f (set_tab _ set0_ok) Hat). by apply guards_used. }
    cbn [mbind outcome_bind]. destruct err as [e|].
    + exists (inl e). split; [done|]. split; [|done]. intros x Hd Hall.
      apply Hstep in Hall as [Hx _]; [|by apply Hext]. by destruct (Hfound x Hd (Hx eq_refl)).
    + destruct (Hnoerr eq_refl) as (x1 & Hd1 & Hx1 & Hdi1). destruct di1 as [d1|]; [|done].
      destruct (IH (k + 1) (with_text s' buf size) (Some d1)) as (r & Hrun & Hall1 & Hall2); [lia| |lia|].
      { apply before_next; [lia|by apply at_config_text|done]. }
      exists r. split; [exact Hrun|]. split.
      * intros x Hd Hall. apply Hstep in Hall as [Hx Hall]; [|by apply Hext].
        destruct (Hfound x Hd (Hx eq_refl)) as [_ E]. rewrite Hdi1 in E. injection E as ->.
        destruct (Hall1 x) as (di' & -> & Hres); [by right|done|]. exists di'. split; [done|]. left.
        by destruct Hres as [?|[-> _]].
      * intros di' Hr. destruct (Hall2 di' Hr) as [Hd' Hall]. rewrite Hdi1 in Hd'. destruct Hd' as [|Hd']; [done|].
        split.
        -- destruct Hd1 as [-> | ->]; [by left|by right].
        -- apply Hstep; [intros rho' Ha' (y & Hy & Hyo); exists y; split; [done|by eapply Hext]|].
           split; [|done]. intros _. by exists x1.
  - destruct (IH (k + 1) s' di) as (r & Hrun & Hall1 & Hall2); [lia|by apply before_next|lia|].
    exists r. split; [exact Hrun|]. split.
    + intros x Hd Hall. apply Hstep in Hall as [_ Hall]; [|by apply Hext].
      destruct (Hall1 x Hd Hall) as (di' & -> & Hres). exists di'. split; [done|].
      destruct Hres as [?|[-> Hno]]; [by left|right]. split; [done|]. by apply Hstep.
    + intros di' Hr. destruct (Hall2 di' Hr) as [Hd' Hall]. split; [done|].
      apply Hstep; [intros rho' Ha' (y & Hy & Hyo); exists y; split; [done|by eapply Hext]|]. by split.
Qed.
End find_decl.

(** More fuel does not change a result. *)
Lemma find_loop_more `{CStrings} `{TokenNames} fresh_text ffi_name opt uses ifdef_cond fuel s di r :
  find_loop fresh_text fuel uses ffi_name ifdef_cond s di opt = Ret r ->
  forall fuel', (fuel <= fuel')%nat -> find_loop fresh_text fuel' uses ffi_name ifdef_cond s di opt = Ret r.
Proof.
  revert s di. induction fuel as [|fuel IH]; intros s di Hrun [|fuel'] Hf; [done|done|lia|].
  cbn [find_loop] in Hrun |- *. destruct (buildflagset_next s) as [[[] s']| | |]; cbn [mbind outcome_bind] in *; try done.
  destruct (match ifdef_cond with None => _ | Some c => _ end) as [[]| | |]; cbn [mbind outcome_bind] in *; try done.
  - destruct (find_decl_for_config _ _ _ _ _ _) as [[[[e|] di'] s'']| | |]; cbn [mbind outcome_bind] in *; try done.
    destruct di'; [|done]. apply IH; [done|lia].
  - apply IH; [done|lia].
Qed.

Lemma valid_declared `{CStrings} `{TokenNames} rho ffi_name uses idx x :
  x ∈ valid_decls rho ffi_name uses idx -> is_declared ffi_name uses.
Proof.
  revert idx. induction uses as [|use uses IH]; intros idx Hx; [by apply elem_of_nil in Hx|].
  cbn [valid_decls] in Hx. destruct (declares ffi_name use) as [[g|]| | |] eqn:E.
  - exists use, g. split; [left|done].
  - destruct (IH _ Hx) as (u & g & Hu & Hg). exists u, g. split; [by right|done].
  - destruct (IH _ Hx) as (u & g & Hu & Hg). exists u, g. split; [by right|done].
  - destruct (IH _ Hx) as (u & g & Hu & Hg). exists u, g. split; [by right|done].
  - destruct (IH _ Hx) as (u & g & Hu & Hg). exists u, g. split; [by right|done].
Qed.

Section find_ffi.
Context `{CStrings} `{TokenNames} (fresh_buckets : Z -> list hashmap_entry_t) (fresh_text : Z -> list ascii).
Context (buckets_length : forall n, length (fresh_buckets n) = Z.to_nat n).
Context (text_length : forall n, length (fresh_text n) = Z.to_nat n).
Context (uninit : buildflagset_t) (opt : build_t) (t package : ast) (ffi_name : Z) (ifdef_cond : option ast).
Context (name_ok : child_name t = Ret ffi_name) (uses_wf : uses_ok ffi_name (uses_of package)).
Context (cond_wf : forall c, ifdef_cond = Some c -> normal c).
Context (few_flags : Z.of_nat (length (cond_flags ifdef_cond ++ guard_flags ffi_name (uses_of package))) < 2 ^ 52).

Lemma cond_collects :
  collects (cond_flags ifdef_cond) (fun set => match ifdef_cond with
    | None => Ret set | Some c => find_flags_in_cond fresh_buckets c set end) /\
  forall set set', match ifdef_cond with None => Ret set | Some c => find_flags_in_cond fresh_buckets c set end = Ret set' ->
    buffer_ok set -> buffer_ok set'.
Proof using All.
  unfold cond_flags. destruct ifdef_cond as [c|]; cbn.
  - split; [by apply find_flags_collects; [|apply cond_wf]|].
    intros set set' Hrun. by eapply find_flags_buffer; [apply cond_wf|].
  - split; [apply collects_nil|]. by intros set set' [= <-].
Qed.

Lemma find_ffi_decl_spec :
  (exists rho, possible rho /\ active ifdef_cond rho = true) ->
  exists r, Prelude.eventually (fun fuel =>
      find_ffi_decl fresh_buckets fresh_text uninit fuel t package ifdef_cond opt = Ret r) /\
    (r = inr None <-> ~ is_declared ffi_name (uses_of package)) /\
    (forall x, r = inr (Some x) <->
       forall rho, possible rho -> active ifdef_cond rho = true -> only_decl ffi_name (uses_of package) rho x).
Proof using All.
  intros (rho0 & Hrho0 & Hact0). set (uses := uses_of package) in *.
  destruct (create_ok fresh_buckets uninit buckets_length) as [Hok He].
  destruct cond_collects as [Hcollects Hbuffers]. rewrite length_app in few_flags.
  destruct (Hcollects _ Hok eq_refl) as (s1 & Hrun1 & Hok1 & Hst1 & Hu1 & _ & Hl1); [rewrite He; cbn; lia|].
  pose proof (Hbuffers _ _ Hrun1 eq_refl) as Hb1. rewrite He in Hl1. cbn in Hl1.
  destruct (find_decl_flags_spec fresh_buckets ffi_name uses false buckets_length uses_wf)
    as (had & Hhad & run & Hcol & Heq).
  destruct (Hcol s1 Hok1 Hst1) as (set0 & Hrun2 & Hok0 & _ & Hu2 & Hk2 & _); [lia|].
  assert (find_decl_flags fresh_buckets uses ffi_name false s1 = Ret (had, set0)) as Hflags
    by by rewrite Heq, Hrun2.
  pose proof (decl_flags_buffer ffi_name fresh_buckets uses false s1 had set0 uses_wf Hflags Hb1) as Hb0.
  assert (forall fuel, find_ffi_decl fresh_buckets fresh_text uninit fuel t package ifdef_cond opt =
    if negb had then Ret (inr None)
    else _ ← check_config_count set0; config ← buildflagset_startenum set0;
         r ← find_loop fresh_text fuel uses ffi_name ifdef_cond config None opt;
         match r with
         | inl e => Ret (inl e) | inr None => Abort | inr (Some d) => Ret (inr (Some (decl d)))
         end) as Hunfold.
  { intros fuel. unfold find_ffi_decl. rewrite name_ok. cbn [mbind outcome_bind]. rewrite Hrun1.
    cbn [mbind outcome_bind]. fold uses. by rewrite Hflags. }
  assert (forall rho x, only_decl ffi_name uses rho x -> is_declared ffi_name uses) as Honly.
  { intros rho x [Hne _]. destruct (valid_decls rho ffi_name uses 0) as [|i v] eqn:E; [done|].
    apply (valid_declared rho ffi_name uses 0 i). rewrite E. left. }
  destruct had; cbn [negb] in Hunfold.
  2:{ exists (inr None). split; [by exists 0%nat; intros; apply Hunfold|].
      assert (~ is_declared ffi_name uses) as Hno by (intros Hd; by pose proof (proj2 Hhad (or_intror Hd))).
      split; [done|]. intros x. split; [done|]. intros Hall. destruct Hno. by eapply Honly, Hall. }
  assert (is_declared ffi_name uses) as Hdecl by (by destruct (proj1 Hhad eq_refl) as [|]).
  destruct (start_at set0 (set_tab _ Hok0)) as (set1 & set2 & Hstart & Hfirst & Hat).
  pose proof (combinations_pos _ (bases_pos set0)) as Hpos.
  assert (before set0 0 set1) as Hbefore.
  { left. split; [done|]. exists set2. split; [done|]. split; [done|].
    eapply next_buffer; [done|]. by eapply startenum_buffer. }
  assert (forall f, f ∈ cond_flags ifdef_cond -> flag_used set0 f) as Hcu by auto.
  pose proof (fun fuel => decl_loop_spec fresh_text text_length ffi_name opt set0 Hok0 uses ifdef_cond uses_wf
    cond_wf Hcu Hu2 fuel 0 set1 None ltac:(lia) Hbefore) as Hloop.
  assert (forall P : (Z -> bool) -> Prop, all_active set0 ifdef_cond 0 P <->
    forall rho, possible rho -> active ifdef_cond rho = true -> P rho) as Hall.
  { intros P. split.
    - intros HP rho Hrho Hact. destruct (assigned_surj set0 rho Hok0 Hrho) as (j & Hj & Ha). by apply (HP j rho).
    - intros HP j rho _ [Hrho _] Hact. by apply HP. }
  assert (forall x, (forall rho, possible rho -> active ifdef_cond rho = true -> only_decl ffi_name uses rho x) ->
    forall fuel, combinations (bases set0) < Z.of_nat fuel ->
      exists d, find_loop fresh_text fuel uses ffi_name ifdef_cond set1 None opt = Ret (inr (Some d)) /\ decl d = x)
    as Hyes.
  { intros x Hx fuel Hf. destruct (Hloop fuel ltac:(lia)) as (r & Hrun & H1 & _).
    destruct (H1 x) as (di & -> & [Hd|[-> Hno]]); [by left|by apply Hall| |].
    - destruct di as [d|]; [|done]. injection Hd as Hd. by exists d.
    - destruct (proj1 (Hall _) Hno rho0 Hrho0 Hact0). }
  set (fuel0 := S (Z.to_nat (combinations (bases set0)))).
  destruct (Hloop fuel0 ltac:(lia)) as (r0 & Hrun0 & _ & Hno0).
  assert (forall x, r0 = inr x -> exists d, x = Some d) as Hsome.
  { intros [d|] ->; [by exists d|]. destruct (Hno0 None eq_refl) as [_ Hex].
    destruct (proj1 (Hall _) Hex rho0 Hrho0 Hact0) as (x & Hx & _). done. }
  exists (match r0 with inl e => inl e | inr di => inr (decl <$> di) end). split; [|split].
  - exists fuel0. intros fuel Hf. rewrite Hunfold. unfold check_config_count.
    rewrite configcount_total by apply Hok0. cbn [mbind outcome_bind]. rewrite Hstart. cbn [mbind outcome_bind].
    rewrite (find_loop_more fresh_text ffi_name opt uses ifdef_cond fuel0 set1 None r0 Hrun0 fuel Hf).
    cbn [mbind outcome_bind]. destruct r0 as [e|di]; [done|]. by destruct (Hsome di eq_refl) as [d ->].
  - split; [|done]. destruct r0 as [e|di]; [done|]. by destruct (Hsome di eq_refl) as [d ->].
  - intros x. split.
    + destruct r0 as [e|di]; [done|]. destruct (Hsome di eq_refl) as [d ->]. intros [= <-].
      destruct (Hno0 _ eq_refl) as [_ Hex]. intros rho Hrho Hact.
      destruct (proj1 (Hall _) Hex rho Hrho Hact) as (y & [= <-] & Hy). done.
    + intros Hx. destruct (Hyes x Hx fuel0 ltac:(lia)) as (d & Hrun & <-). rewrite Hrun0 in Hrun.
      by injection Hrun as ->.
Qed.
End find_ffi.

(** ** Properties *)

(** The flags of the target and of the user. *)
Definition target_value `{CStrings} (release : bool) (opt : build_t) (flag : Z) : bool :=
  default (is_userflag_defined (user_flags opt) (text flag)) (os_is_target flag release opt).

(** C21: [ifdef_cond_normalise] decides whether a condition can be true.  On a condition as it
    is written it terminates without a failed assertion; the condition it leaves is normal
    and means the same; and the result is true if and only if some assignment of the flags
    that makes one flag of every platform group true satisfies the condition. *)
Theorem ifdef_cond_normalise_exact `{CStrings} `{TokenNames} fresh_buckets uninit t opt :
  (forall n, length (fresh_buckets n) = Z.to_nat n) -> written t ->
  (forall t', cond_normalise t = Ret t' -> Z.of_nat (length (flags_in t')) < 2 ^ 52) ->
  exists t' r, normal t' /\ (forall rho, holds rho t' = means rho t) /\
    (r = true <-> exists rho, possible rho /\ means rho t = true) /\
    Prelude.eventually (fun fuel => ifdef_cond_normalise fresh_buckets uninit fuel t opt = Ret (r, t')).
Proof. apply normalise_decides. Qed.

(** For the build, a condition evaluates to its meaning for the flags of the target and
    of the user, and [posix], which normalisation takes apart, is what it is on the target. *)
Theorem ifdef_cond_eval_target `{CStrings} `{TokenNames} t release opt :
  written t ->
  (exists t', cond_normalise t = Ret t' /\
     ifdef_cond_eval t' release opt = Ret (means (target_value release opt) t)) /\
  target_value release opt (intern OS_POSIX_NAME) =
    target_value release opt (intern OS_LINUX_NAME) || target_value release opt (intern OS_MACOSX_NAME) ||
    target_value release opt (intern OS_BSD_NAME).
Proof.
  intros Hw. destruct (normalise_spec t Hw) as (t' & Hn & Ht' & Hm). split.
  - exists t'. split; [done|]. unfold ifdef_cond_eval.
    assert (tk_eqb (ast_id t') TK_NONE = false) as -> by by destruct Ht'.
    rewrite <- Hm. apply eval_holds; [done|]. intros flag _. unfold eval_flag, target_value.
    by destruct (os_is_target flag release opt).
  - unfold target_value, os_is_target. rewrite !text_intern. cbn.
    destruct (triple opt) as [d f o l m w a a64 a32 k le]. cbn. by destruct d, f, o, l, m.
Qed.

(** C22: [find_ffi_decl] finds the declaration that is valid for a call in every possible
    configuration.  When the condition around the call can be true, it terminates without a
    failed assertion; the result is null if and only if the package does not declare the
    function; it is the declaration [x] if and only if [x] is the only declaration whose guard
    holds in each possible assignment of the flags that satisfies the condition; otherwise it
    is an error. *)
Theorem find_ffi_decl_exact `{CStrings} `{TokenNames} fresh_buckets fresh_text uninit opt t package ffi_name ifdef_cond :
  (forall n, length (fresh_buckets n) = Z.to_nat n) -> (forall n, length (fresh_text n) = Z.to_nat n) ->
  child_name t = Ret ffi_name -> uses_ok ffi_name (uses_of package) ->
  (forall c, ifdef_cond = Some c -> normal c) ->
  Z.of_nat (length (cond_flags ifdef_cond ++ guard_flags ffi_name (uses_of package))) < 2 ^ 52 ->
  (exists rho, possible rho /\ active ifdef_cond rho = true) ->
  exists r, Prelude.eventually (fun fuel =>
      find_ffi_decl fresh_buckets fresh_text uninit fuel t package ifdef_cond opt = Ret r) /\
    (r = inr None <-> ~ is_declared ffi_name (uses_of package)) /\
    (forall x, r = inr (Some x) <->
       forall rho, possible rho -> active ifdef_cond rho = true -> only_decl ffi_name (uses_of package) rho x).
Proof. intros ??????. by apply find_ffi_decl_spec. Qed.

(** *** Witnesses *)

#[program] Definition coded_names : TokenNames := {| token_string tok := tok; id_token _ s := s |}.
Next Obligation. done. Qed.

Section samples.
Local Existing Instances coded_strings coded_names.

Definition blank_set : buildflagset_t :=
  mk_set (mk_groups false false false false) false false (mk_tab (mk_hashmap 0 0 [] []) ∅) (mk_groups 0 0 0 0) [] 0.

Definition sample_build (t : triple_t) : build_t := mk_build t (tab_init null_buckets 4) false false.

Definition freebsd : triple_t := mk_triple false true false false false false "x86" true false false true.

Definition ref_to (s : string) : ast := Node TK_REFERENCE 0 0 [Node TK_ID (intern s) 0 []].
Definition none : ast := Node TK_NONE 0 0 [].

(** [posix and not "ssl"] *)
Definition sample_cond : ast :=
  Node TK_AND 0 0 [ref_to OS_POSIX_NAME; Node TK_NOT 0 0 [Node TK_STRING (intern "ssl") 0 []]; none].

Lemma ifdef_cond_normalise_exact_witness :
  written sample_cond /\
  exists t' r, normal t' /\ (forall rho, holds rho t' = means rho sample_cond) /\
    (r = true <-> exists rho, possible rho /\ means rho sample_cond = true) /\
    Prelude.eventually (fun fuel =>
      ifdef_cond_normalise null_buckets blank_set fuel sample_cond (sample_build freebsd) = Ret (r, t')).
Proof.
  assert (written sample_cond) as Hw by (repeat constructor). split; [exact Hw|].
  apply (ifdef_cond_normalise_exact null_buckets blank_set sample_cond (sample_build freebsd)).
  - exact null_buckets_length.
  - exact Hw.
  - intros t' E. vm_compute in E. injection E as <-. vm_compute. reflexivity.
Defined.

Lemma ifdef_cond_eval_target_witness :
  written sample_cond /\
  (exists t', cond_normalise sample_cond = Ret t' /\
     ifdef_cond_eval t' false (sample_build freebsd) = Ret (means (target_value false (sample_build freebsd)) sample_cond)) /\
  means (target_value false (sample_build freebsd)) sample_cond = true.
Proof.
  assert (written sample_cond) as Hw by (repeat constructor). split; [exact Hw|].
  destruct (ifdef_cond_eval_target sample_cond false (sample_build freebsd) Hw) as [Heval _].
  split; [exact Heval|vm_compute; reflexivity].
Defined.

(** [use @f[None]() if linux], [use @f[None]() if not linux], and a call. *)
Definition sample_use (guard : ast) : ast :=
  Node TK_USE 0 0 [none; Node TK_FFIDECL 0 0 [Node TK_ID (intern "f") 0 []]; guard].
Definition linux_flag : ast := Node TK_IFDEFFLAG 0 0 [Node TK_ID (intern OS_LINUX_NAME) 0 []].
Definition sample_package : ast :=
  Node TK_PACKAGE 0 0 [Node TK_MODULE 0 0
    [sample_use linux_flag; sample_use (Node TK_IFDEFNOT 0 0 [linux_flag])]].
Definition sample_call : ast := Node TK_FFICALL 0 0 [Node TK_ID (intern "f") 0 []].

(** The first flag of every group. *)
Definition first_flags (flag : Z) : bool := default false (platform_value (mk_groups 0 0 0 0) flag).

Lemma first_possible : possible first_flags.
Proof.
  exists (mk_groups 0 0 0 0). split; [cbn; lia|]. intros flag b Hb. unfold first_flags. by rewrite Hb.
Qed.

Lemma sample_uses_ok : uses_ok (intern "f") (uses_of sample_package).
Proof.
  intros use Hu. repeat (apply elem_of_cons in Hu as [->|Hu]);
    [eexists; split; [reflexivity|]; intros g [= <-]; right; by repeat constructor..|by apply elem_of_nil in Hu].
Qed.

Lemma find_ffi_decl_exact_witness :
  exists r, Prelude.eventually (fun fuel =>
      find_ffi_decl null_buckets (fun n => replicate (Z.to_nat n) zero) blank_set fuel sample_call sample_package
        None (sample_build freebsd) = Ret r) /\
    (r = inr None <-> ~ is_declared (intern "f") (uses_of sample_package)) /\
    (forall x, r = inr (Some x) <-> forall rho, possible rho -> active None rho = true ->
       only_decl (intern "f") (uses_of sample_package) rho x).
Proof.
  apply (find_ffi_decl_exact null_buckets (fun n => replicate (Z.to_nat n) zero) blank_set (sample_build freebsd)
    sample_call sample_package (intern "f") None).
  - exact null_buckets_length.
  - intros n. apply length_replicate.
  - reflexivity.
  - exact sample_uses_ok.
  - discriminate.
  - vm_compute. reflexivity.
  - exists first_flags. split; [exact first_possible|reflexivity].
Defined.

(** *** What modelling showed *)

(** The groups take [bsd] and [freebsd] for alternatives, but a FreeBSD target has both: a
    condition that is true there is rejected as one that can never be true. *)
Lemma bsd_and_freebsd_never_true :
  let t := Node TK_AND 0 0 [ref_to OS_BSD_NAME; ref_to "freebsd"; none] in
  (exists t', Prelude.eventually (fun fuel =>
     ifdef_cond_normalise null_buckets blank_set fuel t (sample_build freebsd) = Ret (false, t'))) /\
  exists t', cond_normalise t = Ret t' /\ ifdef_cond_eval t' false (sample_build freebsd) = Ret true.
Proof.
  intros t. assert (written t) as Hw by (repeat constructor). split.
  - destruct (normalise_decides null_buckets blank_set t (sample_build freebsd) null_buckets_length Hw)
      as (t' & r & _ & _ & Hr & Hev).
    { intros t' E. vm_compute in E. injection E as <-. vm_compute. reflexivity. }
    exists t'. destruct r; [|done]. exfalso. destruct (proj1 Hr eq_refl) as (rho & (i & Hrange & Hi) & Hm).
    assert (means rho t = rho (intern OS_BSD_NAME) && rho (intern "freebsd")) as Hmt by reflexivity.
    rewrite Hmt, (Hi _ (g_os i =? 0)), (Hi _ (g_os i =? 1)) in Hm by (vm_compute; reflexivity).
    apply andb_true_iff in Hm as [?%Z.eqb_eq ?%Z.eqb_eq]. lia.
  - eexists. split; [reflexivity|]. vm_compute. reflexivity.
Qed.
End samples.
