(* ===== verification/Id.v ===== *)
(** * Identifier checks: [src/libponyc/ast/id.c]

    A name is the list of the characters of a C string, without the terminating zero: the
    end of the list is where the code reads it.  The error messages are an enumeration,
    one constructor per call of [ast_error]. *)
From S2P Require Import Prelude.
From Stdlib Require Import Ascii String.
From stdpp Require Import strings.
Local Open Scope Z_scope.

Definition START_UPPER : Z := 1.
Definition START_LOWER : Z := 2.
Definition ALLOW_LEADING_UNDERSCORE : Z := 4.
Definition ALLOW_UNDERSCORE : Z := 8.
Definition ALLOW_TICK : Z := 16.
Definition ALLOW_DONTCARE : Z := 32.

Inductive id_error :=
| ErrDontcare
| ErrLeadingUnderscore
| ErrStartLower
| ErrStartLowerUnderscore
| ErrStartUpper
| ErrStartUpperUnderscore
| ErrUnderscore
| ErrDoubleUnderscore
| ErrTrailingUnderscore
| ErrTick
| ErrTickInside.

#[export] Instance id_error_eq_dec : EqDecision id_error.
Proof. solve_decision. Defined.

Definition NUL : ascii := "000"%char.

(** [*name], zero at the end of the string *)
Definition deref (name : list ascii) : ascii := match name with [] => NUL | c :: _ => c end.

Definition code (c : ascii) : Z := Z.of_nat (nat_of_ascii c).
Definition in_range (c lo hi : ascii) : bool := (code lo <=? code c) && (code c <=? code hi).

(** [(spec & flag) != 0] *)
Definition allows (spec flag : Z) : bool := negb (Z.land spec flag =? 0).

(** The loop over the characters before the first tick: what is left of the name and the
    last character read, or an error. *)
Fixpoint check_chars (spec : Z) (name : list ascii) (prev : ascii)
    : (list ascii * ascii) + id_error :=
  match name with
  | [] => inl ([], prev)
  | c :: name' =>
      if bool_decide (c = "'"%char) then inl (name, prev)
      else if bool_decide (c = "_"%char) then
        if negb (allows spec ALLOW_UNDERSCORE) then inr ErrUnderscore
        else if bool_decide (prev = "_"%char) then inr ErrDoubleUnderscore
        else check_chars spec name' c
      else check_chars spec name' c
  end.

(** The part of [check_id] after the leading underscore. *)
Definition check_rest (spec : Z) (name : list ascii) (prev : ascii) : option id_error :=
  if allows spec START_LOWER && negb (in_range (deref name) "a"%char "z"%char) then
    Some (if negb (allows spec ALLOW_LEADING_UNDERSCORE) then ErrStartLower
          else ErrStartLowerUnderscore)
  else if allows spec START_UPPER && negb (in_range (deref name) "A"%char "Z"%char) then
    Some (if negb (allows spec ALLOW_LEADING_UNDERSCORE) then ErrStartUpper
          else ErrStartUpperUnderscore)
  else
    match check_chars spec name prev with
    | inr err => Some err
    | inl (name, prev) =>
        if bool_decide (prev = "_"%char) then Some ErrTrailingUnderscore
        else
          match name with
          | [] => None
          | _ =>
              if negb (allows spec ALLOW_TICK) then Some ErrTick
              else if forallb (fun c => bool_decide (c = "'"%char)) name then None
              else Some ErrTickInside
          end
    end.

(** [None] when the name is accepted. *)
Definition check_id (name : list ascii) (spec : Z) : option id_error :=
  match name with
  | "$"%char :: _ => None
  | "_"%char :: name =>
      match name with
      | [] => if negb (allows spec ALLOW_DONTCARE) then Some ErrDontcare else None
      | _ =>
          if negb (allows spec ALLOW_LEADING_UNDERSCORE) then Some ErrLeadingUnderscore
          else check_rest spec name "_"%char
      end
  | _ => check_rest spec name NUL
  end.

Definition flags (l : list Z) : Z := foldr Z.lor 0 l.

Definition check_id_type name := check_id name (flags [START_UPPER; ALLOW_LEADING_UNDERSCORE]).
Definition check_id_type_param name := check_id name START_UPPER.
Definition check_id_type_param_constraint name := check_id name START_UPPER.
Definition check_id_package name := check_id name (flags [START_LOWER; ALLOW_UNDERSCORE]).
Definition check_id_field name :=
  check_id name (flags [START_LOWER; ALLOW_LEADING_UNDERSCORE; ALLOW_UNDERSCORE; ALLOW_TICK]).
Definition check_id_method name :=
  check_id name (flags [START_LOWER; ALLOW_LEADING_UNDERSCORE; ALLOW_UNDERSCORE]).
Definition check_id_param name :=
  check_id name (flags [START_LOWER; ALLOW_UNDERSCORE; ALLOW_TICK]).
Definition check_id_local name :=
  check_id name (flags [START_LOWER; ALLOW_UNDERSCORE; ALLOW_TICK; ALLOW_DONTCARE]).

(** [name[i]], zero at the end *)
Definition char_at (name : list ascii) (i : nat) : ascii := nth i name NUL.

Definition is_name_type (name : list ascii) : bool :=
  let name := if bool_decide (deref name = "$"%char) then tail name else name in
  let name := if bool_decide (deref name = "_"%char) then tail name else name in
  in_range (deref name) "A"%char "Z"%char.

Definition is_name_internal_test (name : list ascii) : bool := bool_decide (char_at name 0 = "$"%char).

Definition is_name_private (name : list ascii) : bool :=
  (bool_decide (char_at name 0 = "_"%char) && negb (bool_decide (char_at name 1 = NUL))) ||
  (is_name_internal_test name && bool_decide (char_at name 1 = "_"%char)).

Definition is_name_ffi (name : list ascii) : bool := bool_decide (char_at name 0 = "@"%char).

Definition is_name_dontcare (name : list ascii) : bool :=
  bool_decide (char_at name 0 = "_"%char) && bool_decide (char_at name 1 = NUL).

(** ** The grammar of a specification *)

(** No two underscores in a row, counting [prev] before the word. *)
Fixpoint no_double (prev : ascii) (w : list ascii) : Prop :=
  match w with
  | [] => True
  | c :: w => ~ (prev = "_"%char /\ c = "_"%char) /\ no_double c w
  end.

(** A body, the part of a name after the leading underscore and before the ticks, that
    follows the character [prev]. *)
Record legal_body (spec : Z) (prev : ascii) (body : list ascii) : Prop := {
  body_ticks : "'"%char ∉ body;
  body_underscore : "_"%char ∈ body -> allows spec ALLOW_UNDERSCORE = true;
  body_double : no_double prev body;
  body_end : default prev (last body) <> "_"%char
}.

Definition legal_start (spec : Z) (c : ascii) : Prop :=
  (allows spec START_LOWER = true -> in_range c "a"%char "z"%char = true) /\
  (allows spec START_UPPER = true -> in_range c "A"%char "Z"%char = true).

(** The names that a specification describes. *)
Definition legal_id (spec : Z) (name : list ascii) : Prop :=
  (exists rest, name = "$"%char :: rest) \/
  (name = ["_"%char] /\ allows spec ALLOW_DONTCARE = true) \/
  (exists (lead : bool) body ticks,
     name = (if lead then ["_"%char] else []) ++ body ++ ticks /\
     (if lead then allows spec ALLOW_LEADING_UNDERSCORE = true /\ body ++ ticks <> []
      else deref (body ++ ticks) <> "_"%char) /\
     (lead = false -> deref (body ++ ticks) <> "$"%char) /\
     legal_start spec (deref (body ++ ticks)) /\
     legal_body spec (if lead then "_"%char else NUL) body /\
     Forall (fun c => c = "'"%char) ticks /\ (ticks <> [] -> allows spec ALLOW_TICK = true)).

Lemma check_chars_spec spec name prev :
  match check_chars spec name prev with
  | inl (rest, prev') =>
      exists body, name = body ++ rest /\ ("'"%char ∉ body) /\
        ("_"%char ∈ body -> allows spec ALLOW_UNDERSCORE = true) /\ no_double prev body /\
        prev' = default prev (last body) /\ (rest = [] \/ exists r, rest = "'"%char :: r)
  | inr _ => True
  end.
Proof.
  revert prev. induction name as [|c name IH]; intros prev; cbn [check_chars].
  - exists []. split; [done|]. split; [apply not_elem_of_nil|].
    split; [by intros H%elem_of_nil|]. split; [done|]. split; [done|by left].
  - case_bool_decide as Ht.
    { subst c. exists []. split; [done|]. split; [apply not_elem_of_nil|].
      split; [by intros H%elem_of_nil|]. split; [done|]. split; [done|right; eauto]. }
    assert (Hcons : (c = "_"%char -> allows spec ALLOW_UNDERSCORE = true /\ prev <> "_"%char) ->
      match check_chars spec name c with
      | inl (rest, prev') =>
          exists body, c :: name = body ++ rest /\ ("'"%char ∉ body) /\
            ("_"%char ∈ body -> allows spec ALLOW_UNDERSCORE = true) /\ no_double prev body /\
            prev' = default prev (last body) /\ (rest = [] \/ exists r, rest = "'"%char :: r)
      | inr _ => True
      end).
    { intros Hc. specialize (IH c). destruct (check_chars spec name c) as [[rest prev']|]; [|done].
      destruct IH as (body & -> & H1 & H2 & H3 & -> & H5). exists (c :: body).
      split; [done|]. split; [by rewrite not_elem_of_cons|].
      split; [intros [Hu|Hu]%elem_of_cons; [by apply Hc|auto]|].
      split; [split; [intros [-> ->]; by destruct Hc|done]|].
      split; [rewrite last_cons; by destruct (last body)|done]. }
    case_bool_decide as Hu; [|by apply Hcons].
    destruct (allows spec ALLOW_UNDERSCORE) eqn:Ha; cbn [negb]; [|done].
    case_bool_decide as Hp; [done|]. by apply Hcons.
Qed.

(** On a body and its ticks the loop stops at the ticks. *)
Lemma check_chars_legal spec body ticks prev :
  "'"%char ∉ body -> ("_"%char ∈ body -> allows spec ALLOW_UNDERSCORE = true) ->
  no_double prev body -> Forall (fun c => c = "'"%char) ticks ->
  check_chars spec (body ++ ticks) prev = inl (ticks, default prev (last body)).
Proof.
  revert prev. induction body as [|c body IH]; intros prev H1 H2 H3 H4; cbn [app check_chars].
  - destruct ticks as [|c ticks]; [done|]. apply Forall_cons in H4 as [-> _].
    cbn [check_chars]. by rewrite bool_decide_eq_true_2.
  - apply not_elem_of_cons in H1 as [Hc H1]. destruct H3 as [Hd H3].
    rewrite bool_decide_eq_false_2 by done.
    assert (check_chars spec (body ++ ticks) c = inl (ticks, default prev (last (c :: body)))) as E.
    { rewrite IH; [by rewrite last_cons; destruct (last body)|done| |done|done].
      intros Hin. apply H2. by right. }
    case_bool_decide as Hu; [|exact E]. rewrite H2 by (rewrite Hu; left). cbn [negb].
    rewrite bool_decide_eq_false_2 by tauto. exact E.
Qed.

Lemma legal_start_spec spec c :
  ((allows spec START_LOWER && negb (in_range c "a"%char "z"%char)) = false /\
   (allows spec START_UPPER && negb (in_range c "A"%char "Z"%char)) = false) <-> legal_start spec c.
Proof.
  unfold legal_start.
  destruct (allows spec START_LOWER), (in_range c "a"%char "z"%char), (allows spec START_UPPER),
    (in_range c "A"%char "Z"%char); cbn; intuition congruence.
Qed.

Lemma check_rest_spec spec name prev :
  check_rest spec name prev = None <->
  legal_start spec (deref name) /\
  exists body ticks, name = body ++ ticks /\ legal_body spec prev body /\
    Forall (fun c => c = "'"%char) ticks /\ (ticks <> [] -> allows spec ALLOW_TICK = true).
Proof.
  unfold check_rest. rewrite <- legal_start_spec.
  destruct (allows spec START_LOWER && _) eqn:E1; [by split; [|intros [[]]]|].
  destruct (allows spec START_UPPER && _) eqn:E2; [by split; [|intros [[]]]|].
  split.
  - intros Hrun. split; [done|]. pose proof (check_chars_spec spec name prev) as Hspec.
    destruct (check_chars spec name prev) as [[rest prev']|]; [|done].
    destruct Hspec as (body & -> & H1 & H2 & H3 & -> & H5). exists body, rest. split; [done|].
    case_bool_decide as Hend; [done|]. split; [by split|].
    destruct rest as [|c rest]; [done|].
    destruct (allows spec ALLOW_TICK); cbn [negb] in Hrun; [|done].
    destruct (forallb _ (c :: rest)) eqn:Hall; [|done]. split; [|done].
    apply Forall_forall. intros x Hx. rewrite forallb_forall in Hall.
    by apply list_elem_of_In, Hall, bool_decide_eq_true in Hx.
  - intros [_ (body & ticks & -> & [H1 H2 H3 H4] & Hall & Htick)].
    rewrite check_chars_legal by done. rewrite bool_decide_eq_false_2 by done.
    destruct ticks as [|c ticks]; [done|]. rewrite Htick by done. cbn [negb].
    assert (forallb (fun c => bool_decide (c = "'"%char)) (c :: ticks) = true) as ->; [|done].
    apply forallb_forall. intros x Hx. apply bool_decide_eq_true.
    by apply (proj1 (Forall_forall _ _) Hall), list_elem_of_In.
Qed.

Lemma check_id_other name spec :
  deref name <> "$"%char -> deref name <> "_"%char -> check_id name spec = check_rest spec name NUL.
Proof.
  destruct name as [|c name]; [done|]. cbn [deref]. intros H1 H2.
  destruct c as [[] [] [] [] [] [] [] []]; done.
Qed.

Lemma check_id_legal name spec : check_id name spec = None <-> legal_id spec name.
Proof.
  destruct (decide (deref name = "$"%char)) as [Hd|Hd].
  { destruct name as [|c rest]; [done|]. cbn in Hd. subst c. split; [|done]. intros _. left. eauto. }
  destruct (decide (deref name = "_"%char)) as [Hu|Hu].
  - destruct name as [|c name]; [done|]. cbn in Hu. subst c.
    destruct name as [|c name].
    { cbn. split.
      - destruct (allows spec ALLOW_DONTCARE) eqn:E; [|done]. intros _. right. by left.
      - intros [[rest Hr]|[[_ ->]|(lead & body & ticks & Hn & Hlead & _)]]; [done|done|].
        destruct lead; cbn in Hn.
        + injection Hn as Hn. destruct Hlead as [_ Hlead]. by rewrite <- Hn in Hlead.
        + rewrite <- Hn in Hlead. done. }
    assert (check_id ("_"%char :: c :: name) spec =
      if negb (allows spec ALLOW_LEADING_UNDERSCORE) then Some ErrLeadingUnderscore
      else check_rest spec (c :: name) "_"%char) as -> by done.
    split.
    + destruct (allows spec ALLOW_LEADING_UNDERSCORE) eqn:Hl; cbn [negb]; [|done].
      intros (Hstart & body & ticks & Hn & Hbody & Hticks)%check_rest_spec.
      right. right. exists true, body, ticks. rewrite <- Hn. split; [done|]. split; [done|].
      split; [done|]. split; [done|]. by split.
    + intros [[rest Hr]|[[Hr _]|(lead & body & ticks & Hn & Hlead & _ & Hstart & Hbody & Hticks)]];
        [done|done|]. destruct lead; cbn in Hn.
      * injection Hn as Hn. destruct Hlead as [-> _]. cbn [negb]. apply check_rest_spec.
        rewrite Hn. split; [done|]. exists body, ticks. done.
      * by rewrite <- Hn in Hlead.
  - rewrite check_id_other, check_rest_spec by done. split.
    + intros (Hstart & body & ticks & -> & Hbody & Hticks).
      right. right. exists false, body, ticks. split; [done|]. split; [done|].
      split; [done|]. split; [done|]. by split.
    + intros [[rest ->]|[[-> _]|(lead & body & ticks & -> & Hlead & _ & Hstart & Hbody & Hticks)]];
        [done|done|]. destruct lead; [done|]. split; [done|]. by exists body, ticks.
Qed.

(** ** Properties *)

(** [check_id] accepts exactly the names that its specification flags describe: an
    optional leading underscore, a first letter of the right case, a body without double
    or trailing underscores, and ticks only at the end; each of them only when its flag is
    set.  Names that start with a dollar sign are always accepted, and a lone underscore
    when the specification allows it. *)
Theorem check_id_grammar name spec : check_id name spec = None <-> legal_id spec name.
Proof. apply check_id_legal. Qed.

(** The specifications of the code, and what they say of the first letter. *)
Definition value_specs : list Z :=
  [flags [START_LOWER; ALLOW_UNDERSCORE];
   flags [START_LOWER; ALLOW_LEADING_UNDERSCORE; ALLOW_UNDERSCORE; ALLOW_TICK];
   flags [START_LOWER; ALLOW_LEADING_UNDERSCORE; ALLOW_UNDERSCORE];
   flags [START_LOWER; ALLOW_UNDERSCORE; ALLOW_TICK];
   flags [START_LOWER; ALLOW_UNDERSCORE; ALLOW_TICK; ALLOW_DONTCARE]].
Definition type_specs : list Z := [flags [START_UPPER; ALLOW_LEADING_UNDERSCORE]; START_UPPER].

Lemma upper_not_lower c : in_range c "A"%char "Z"%char && in_range c "a"%char "z"%char = false.
Proof. by destruct c as [[] [] [] [] [] [] [] []]. Qed.

Lemma type_letter c : in_range c "A"%char "Z"%char = true -> c <> "$"%char /\ c <> "_"%char.
Proof. by destruct c as [[] [] [] [] [] [] [] []]. Qed.

Lemma value_letter c : in_range c "a"%char "z"%char = true -> c <> "$"%char /\ c <> "_"%char.
Proof. by destruct c as [[] [] [] [] [] [] [] []]. Qed.

Lemma is_name_type_lead (lead : bool) rest :
  deref rest <> "$"%char -> deref rest <> "_"%char ->
  is_name_type ((if lead then ["_"%char] else []) ++ rest) = in_range (deref rest) "A"%char "Z"%char.
Proof.
  intros H1 H2. unfold is_name_type. destruct lead.
  - done.
  - cbv iota. cbn [app]. rewrite (bool_decide_eq_false_2 (deref rest = "$"%char)) by done.
    by rewrite (bool_decide_eq_false_2 (deref rest = "_"%char)).
Qed.

Lemma check_id_kind name spec :
  deref name <> "$"%char -> check_id name spec = None ->
  (spec ∈ type_specs -> is_name_type name = true) /\
  (spec ∈ value_specs -> is_name_type name = false).
Proof.
  intros Hd [[rest ->]|[[-> Hdc]|(lead & body & ticks & -> & _ & _ & [Hlow Hup] & _)]]%check_id_legal.
  - done.
  - split; [|done]. intros Hspec. exfalso. revert Hdc.
    repeat (apply elem_of_cons in Hspec as [->|Hspec]; [by vm_compute|]). by apply elem_of_nil in Hspec.
  - split; intros Hspec.
    + assert (allows spec START_UPPER = true) as Hs by
        (repeat (apply elem_of_cons in Hspec as [->|Hspec]; [by vm_compute|]); by apply elem_of_nil in Hspec).
      specialize (Hup Hs). destruct (type_letter _ Hup). by rewrite is_name_type_lead.
    + assert (allows spec START_LOWER = true) as Hs by
        (repeat (apply elem_of_cons in Hspec as [->|Hspec]; [by vm_compute|]); by apply elem_of_nil in Hspec).
      specialize (Hlow Hs). destruct (value_letter _ Hlow). rewrite is_name_type_lead by done.
      pose proof (upper_not_lower (deref (body ++ ticks))) as Hul. rewrite Hlow, andb_true_r in Hul. done.
Qed.

Lemma check_id_not_private name spec :
  deref name <> "$"%char -> allows spec ALLOW_LEADING_UNDERSCORE = false ->
  check_id name spec = None -> is_name_private name = false.
Proof.
  intros Hd Hl [[rest ->]|[[-> Hdc]|(lead & body & ticks & -> & Hlead & _ & [Hlow Hup] & _)]]%check_id_legal.
  - done.
  - done.
  - destruct lead; [by rewrite Hl in Hlead; destruct Hlead|]. cbn [app] in *.
    destruct (body ++ ticks) as [|c rest]; [done|]. cbn in Hd, Hlead.
    unfold is_name_private, is_name_internal_test. cbn [char_at nth].
    rewrite (bool_decide_eq_false_2 (c = "_"%char)) by done. by rewrite (bool_decide_eq_false_2 (c = "$"%char)).
Qed.

(** Names of types and names of values cannot be confused, and privacy is visible in the
    name: what is accepted for a type, a type parameter or its constraint is a type name for
    [is_name_type], what is accepted for a package, field, method, parameter or local
    variable is not, and neither type parameters, packages, parameters nor local variables
    (the don't-care name included) are private for [is_name_private]. *)
Theorem check_id_name_kind name :
  deref name <> "$"%char ->
  (check_id_type name = None \/ check_id_type_param name = None \/
   check_id_type_param_constraint name = None -> is_name_type name = true) /\
  (check_id_package name = None \/ check_id_field name = None \/ check_id_method name = None \/
   check_id_param name = None \/ check_id_local name = None -> is_name_type name = false) /\
  (check_id_type_param name = None \/ check_id_package name = None \/ check_id_param name = None \/
   check_id_local name = None -> is_name_private name = false).
Proof.
  intros Hd. split_and!.
  - intros [H|[H|H]]; apply (check_id_kind _ _ Hd H); unfold type_specs; set_solver.
  - intros [H|[H|[H|[H|H]]]]; apply (check_id_kind _ _ Hd H); unfold value_specs; set_solver.
  - intros [H|[H|[H|H]]]; (eapply (check_id_not_private _ _ Hd); [|exact H]; done).
Qed.

Lemma check_id_name_kind_witness :
  let name := list_ascii_of_string "count'"%string in
  is_name_type name = false /\ is_name_private name = false.
Proof.
  split; apply check_id_name_kind; try discriminate.
  - right; right; right; right. reflexivity.
  - right; right; right. reflexivity.
Defined.

(** *** What modelling showed *)

(** The comment on [check_id_field] describes names without ticks. *)
Lemma check_id_field_tick : check_id_field (list_ascii_of_string "a'"%string) = None.
Proof. reflexivity. Qed.
