(* ===== verification/Symtab.v ===== *)
(** * Symbol tables: [src/libponyc/ast/symtab.c] and the scopes of [src/libponyc/ast/ast.c]

    A scope of the syntax tree has a table from names to symbols: the definition of the name,
    or null for a name of an outer scope whose status changed in this one, and its status.
    Names are interned strings.  A name that is added brings its caseless variant with it, so
    that names which differ by case only are refused.  The branches of a conditional have
    tables of their own, from which the status of the outer names is merged.

    The properties are about the finite map [as_map] of a table. *)
From S2P Require Import Prelude Fun Hash HashOps HashTab Token Id BuildFlagSet.
From stdpp Require Import gmap fin_maps strings.
From Stdlib Require Import Ascii.
Local Open Scope Z_scope.

Inductive sym_status_t :=
| SYM_NONE
| SYM_NOCASE
| SYM_DEFINED
| SYM_UNDEFINED
| SYM_CONSUMED
| SYM_CONSUMED_SAME_EXPR
| SYM_FFIDECL
| SYM_ERROR.

#[export] Instance sym_status_eq_dec : EqDecision sym_status_t.
Proof. solve_decision. Defined.

Record symbol_t := mk_symbol { name : Z; def : Z; status : sym_status_t; branch_count : Z }.

Definition set_status (sym : symbol_t) (s : sym_status_t) (c : Z) : symbol_t :=
  mk_symbol (name sym) (def sym) s c.

Definition sym_hash (sym : symbol_t) : Z := ponyint_hash_ptr (name sym).
Definition sym_cmp (a b : symbol_t) : bool := name a =? name b.

#[export] Instance symbol_elem : TabElem symbol_t := {| elem_hash := sym_hash; elem_cmp := sym_cmp |}.

#[export, program] Instance symbol_keys : TabKeys symbol_t :=
  {| tkey := Z; tkey_of s := name s; tkey_hash := ponyint_hash_ptr |}.
Next Obligation. done. Qed.
Next Obligation.
  intros x y. cbn. unfold sym_cmp. by destruct (Z.eqb_spec (name x) (name y)), (bool_decide_reflect (name x = name y)).
Qed.

#[export] Instance symbol_key_countable : Countable (@tkey symbol_t _ _) := Z_countable.

Abbreviation symtab_t := (tab_t symbol_t).

(** [toupper] and [tolower] of the C locale. *)
Definition toupper (c : ascii) : ascii :=
  if in_range c "a"%char "z"%char then ascii_of_nat (nat_of_ascii c - 32) else c.
Definition tolower (c : ascii) : ascii :=
  if in_range c "A"%char "Z"%char then ascii_of_nat (nat_of_ascii c + 32) else c.

Section symtab.
Context `{CStrings} (fresh_buckets : Z -> list hashmap_entry_t).

Definition chars (p : Z) : list ascii := String.list_ascii_of_string (text p).

Definition name_without_case (name : Z) : Z :=
  let buf := if is_name_type (chars name) then toupper <$> chars name else tolower <$> chars name in
  intern (String.string_of_list_ascii buf).

Definition symtab_new : symtab_t := tab_init fresh_buckets 8.

(** [symtab_putindex(symtab, sym_dup(&s), index)] *)
Definition put_dup (symtab : symtab_t) (s : symbol_t) (index : Z) : outcome symtab_t :=
  let '(symtab, p) := tab_alloc symtab s in tab_putindex fresh_buckets symtab p index.

(** Writing through a pointer to a symbol of the table. *)
Definition write_sym (symtab : symtab_t) (p : Z) (s : symbol_t) : symtab_t :=
  mk_tab (contents symtab) (<[p := s]> (cells symtab)).

(** A loop over the symbols of a table that does not change the table. *)
Definition each_symbol {S} (symtab : symtab_t) (f : symbol_t -> S -> outcome (bool * S)) (s : S)
    : outcome (bool * S) :=
  tab_each symtab (fun p s => match cells symtab !! p with Some x => f x s | None => Abort end) s.

Definition symtab_dup (symtab : symtab_t) : outcome symtab_t :=
  let n := tab_init fresh_buckets (count (contents symtab)) in
  '(_, n) ← each_symbol symtab
    (fun sym n => '(n, _) ← (let '(n, p) := tab_alloc n sym in tab_put fresh_buckets n p); Ret (false, n)) n;
  Ret n.

Definition symtab_add (symtab : symtab_t) (name def : Z) (status : sym_status_t) : outcome (symtab_t * bool) :=
  let no_case := name_without_case name in
  '(symtab, found) ←
    (if negb (no_case =? name) then
       let s1 := mk_symbol no_case def SYM_NOCASE 0 in
       let '(s2, index) := tab_get symtab s1 in
       if negb (s2 =? NULL) then Ret (symtab, true)
       else symtab ← put_dup symtab s1 (default HASHMAP_UNKNOWN index); Ret (symtab, false)
     else Ret (symtab, false));
  if found : bool then Ret (symtab, false)
  else
    let s1 := mk_symbol name def status 0 in
    let '(s2, index) := tab_get symtab s1 in
    if negb (s2 =? NULL) then Ret (symtab, false)
    else symtab ← put_dup symtab s1 (default HASHMAP_UNKNOWN index); Ret (symtab, true).

(** The definition and the status. *)
Definition symtab_find (symtab : symtab_t) (name : Z) : outcome (Z * sym_status_t) :=
  let '(s2, _) := tab_get symtab (mk_symbol name NULL SYM_NONE 0) in
  if negb (s2 =? NULL) then
    match cells symtab !! s2 with
    | None => Abort
    | Some sym => Ret (if decide (status sym = SYM_NOCASE) then NULL else def sym, status sym)
    end
  else Ret (NULL, SYM_NONE).

Fixpoint symtab_find_case (fuel : nat) (symtab : symtab_t) (name : Z) : outcome (Z * sym_status_t) :=
  match fuel with
  | O => NoFuel
  | S fuel =>
      let '(s2, _) := tab_get symtab (mk_symbol name NULL SYM_NONE 0) in
      if negb (s2 =? NULL) then
        match cells symtab !! s2 with
        | None => Abort
        | Some sym => Ret (def sym, status sym)
        end
      else
        let no_case := name_without_case name in
        if negb (no_case =? name) then symtab_find_case fuel symtab no_case else Ret (NULL, SYM_NONE)
  end.

(** The recursion of [symtab_find_case] is at most two deep. *)
Definition find_case := symtab_find_case 2.

Definition symtab_set_status (symtab : symtab_t) (name : Z) (st : sym_status_t) : outcome symtab_t :=
  let s1 := mk_symbol name NULL st 0 in
  let '(s2, index) := tab_get symtab s1 in
  if negb (s2 =? NULL) then
    match cells symtab !! s2 with
    | None => Abort
    | Some sym => Ret (write_sym symtab s2 (set_status sym st (branch_count sym)))
    end
  else put_dup symtab s1 (default HASHMAP_UNKNOWN index).

(** The body of the loop of [symtab_inherit_status], on the destination and [index]. *)
Definition inherit_status_body (sym : symbol_t) (dst_index : symtab_t * Z) : outcome (bool * (symtab_t * Z)) :=
  let '(dst, index) := dst_index in
  if negb (def sym =? NULL) then Ret (false, (dst, index))
  else
    let '(dsym, pos) := tab_get dst sym in
    let index := default index pos in
    if negb (dsym =? NULL) then
      match cells dst !! dsym with
      | None => Abort
      | Some d => Ret (false, (write_sym dst dsym (set_status d (status sym) (branch_count d)), index))
      end
    else dst ← put_dup dst sym index; Ret (false, (dst, index)).

Definition symtab_inherit_status (dst src : symtab_t) : outcome symtab_t :=
  '(_, (dst, _)) ← each_symbol src inherit_status_body (dst, HASHMAP_UNKNOWN); Ret dst.

(** What a branch does to a symbol that the destination has. *)
Definition merge_symbol (d sym : symbol_t) : symbol_t :=
  match status sym with
  | SYM_DEFINED =>
      if decide (status d = SYM_UNDEFINED) then set_status d (status d) (branch_count d ⊞ 1)%c else d
  | SYM_CONSUMED => set_status d SYM_CONSUMED 0
  | SYM_CONSUMED_SAME_EXPR => set_status d SYM_CONSUMED_SAME_EXPR 0
  | _ => d
  end.

(** And to one that it has not. *)
Definition new_symbol (sym : symbol_t) : symbol_t :=
  if decide (status sym = SYM_DEFINED) then set_status sym SYM_UNDEFINED 1 else sym.

Definition inherit_branch_body (sym : symbol_t) (dst_index : symtab_t * Z) : outcome (bool * (symtab_t * Z)) :=
  let '(dst, index) := dst_index in
  if negb (def sym =? NULL) then Ret (false, (dst, index))
  else
    let '(dsym, pos) := tab_get dst sym in
    let index := default index pos in
    if negb (dsym =? NULL) then
      match cells dst !! dsym with
      | None => Abort
      | Some d => Ret (false, (write_sym dst dsym (merge_symbol d sym), index))
      end
    else dst ← put_dup dst (new_symbol sym) index; Ret (false, (dst, index)).

Definition symtab_inherit_branch (dst src : symtab_t) : outcome symtab_t :=
  '(_, (dst, _)) ← each_symbol src inherit_branch_body (dst, HASHMAP_UNKNOWN); Ret dst.

(** The symbols that are not merged: private names, caseless variants and [Main]. *)
Definition is_hidden (sym : symbol_t) : bool :=
  is_name_private (chars (name sym)) || bool_decide (status sym = SYM_NOCASE) ||
  bool_decide (text (name sym) = "Main"%string).

(** The loops of [symtab_can_merge_public] and [symtab_merge_public] return from inside. *)
Definition symtab_can_merge_public (dst src : symtab_t) : outcome bool :=
  '(left_loop, _) ← each_symbol src
    (fun sym (_ : unit) =>
       if is_hidden sym then Ret (false, tt)
       else '(d, _) ← find_case dst (name sym); Ret (negb (d =? NULL), tt)) tt;
  Ret (negb left_loop).

Definition symtab_merge_public (dst src : symtab_t) : outcome (symtab_t * bool) :=
  '(left_loop, dst) ← each_symbol src
    (fun sym dst =>
       if is_hidden sym then Ret (false, dst)
       else '(dst, added) ← symtab_add dst (name sym) (def sym) (status sym); Ret (negb added, dst)) dst;
  Ret (dst, negb left_loop).

(** Whether every symbol is defined, and the definitions of which an error is reported. *)
Definition symtab_check_all_defined (symtab : symtab_t) (errors : list (Z * Z)) : outcome (bool * list (Z * Z)) :=
  '(_, out) ← each_symbol symtab
    (fun sym '(r, errors) =>
       if negb (def sym =? NULL) && bool_decide (status sym = SYM_UNDEFINED)
       then Ret (false, (false, errors ++ [(def sym, name sym)]))
       else Ret (false, (r, errors))) (true, errors);
  Ret out.

(** The lines that [symtab_print] writes. *)
Definition status_text (st : sym_status_t) : string :=
  match st with
  | SYM_UNDEFINED => ": undefined"
  | SYM_DEFINED => ": defined"
  | SYM_CONSUMED => ": consumed"
  | SYM_CONSUMED_SAME_EXPR => ": consumed same expression"
  | _ => ": UNKNOWN"
  end.

Definition symtab_print (symtab : symtab_t) (out : list string) : outcome (list string) :=
  '(_, out) ← each_symbol symtab
    (fun sym out => Ret (false, out ++ [(text (name sym) ++ status_text (status sym))%string])) out;
  Ret out.
End symtab.

(** ** Scopes: [src/libponyc/ast/ast.c]

    A node and its ancestors, from the node to the root: their tokens, symbol tables and
    whether they are frozen. *)
Record scope_t := mk_scope { scope_id : token_id; scope_symtab : option symtab_t; frozen : bool }.

Section scopes.
Context `{CStrings} (fresh_buckets : Z -> list hashmap_entry_t).

(** The loops of [ast_get] and [ast_get_case], which differ in the lookup. *)
Fixpoint get_loop (find : symtab_t -> Z -> outcome (Z * sym_status_t)) (ast : list scope_t) (name : Z)
    (status : sym_status_t) : outcome (Z * sym_status_t) :=
  match ast with
  | [] => Abort
  | node :: parents =>
      '(value, status) ←
        match scope_symtab node with
        | None => Ret (NULL, status)
        | Some symtab =>
            '(value, status2) ← find symtab name;
            Ret (value, if decide (status = SYM_NONE) then status2 else status)
        end;
      if negb (value =? NULL) then Ret (value, status)
      else
        match parents with
        | [] => Ret (NULL, status)
        | parent :: _ =>
            if decide (scope_id parent = TK_PROGRAM) then Ret (NULL, status)
            else get_loop find parents name status
        end
  end.

Definition ast_get (ast : list scope_t) (name : Z) : outcome (Z * sym_status_t) :=
  get_loop symtab_find ast name SYM_NONE.

Definition ast_get_case (ast : list scope_t) (name : Z) : outcome (Z * sym_status_t) :=
  get_loop find_case ast name SYM_NONE.

(** [while(ast->symtab == NULL) ast = ast->parent;], then an operation on the table; the
    nodes below it stay. *)
Fixpoint with_symtab {A} (op : list scope_t -> symtab_t -> outcome (symtab_t * A)) (ast : list scope_t)
    : outcome (list scope_t * A) :=
  match ast with
  | [] => Abort
  | node :: parents =>
      match scope_symtab node with
      | None => '(parents, r) ← with_symtab op parents; Ret (node :: parents, r)
      | Some symtab =>
          if frozen node then Abort
          else
            '(symtab, r) ← op ast symtab;
            Ret (mk_scope (scope_id node) (Some symtab) (frozen node) :: parents, r)
      end
  end.

Definition ast_set (ast : list scope_t) (name value : Z) (status : sym_status_t) (allow_shadowing : bool)
    : outcome (list scope_t * bool) :=
  with_symtab (fun ast symtab =>
    '(find, _) ← (if allow_shadowing then find_case symtab name else ast_get_case ast name);
    if find =? value then Ret (symtab, true)
    else if negb (find =? NULL) then Ret (symtab, false)
    else symtab_add fresh_buckets symtab name value status) ast.

Definition ast_setstatus (ast : list scope_t) (name : Z) (status : sym_status_t) : outcome (list scope_t) :=
  '(ast, _) ← with_symtab (fun _ symtab =>
    symtab ← symtab_set_status fresh_buckets symtab name status; Ret (symtab, tt)) ast;
  Ret ast.

(** [dst] is null when it has no node. *)
Definition ast_inheritstatus (dst : list scope_t) (src : scope_t) : outcome (list scope_t) :=
  match dst with
  | [] => Ret []
  | _ =>
      '(dst, _) ← with_symtab (fun _ symtab =>
        match scope_symtab src with
        | None => Abort
        | Some src => symtab ← symtab_inherit_status fresh_buckets symtab src; Ret (symtab, tt)
        end) dst;
      Ret dst
  end.

Definition ast_inheritbranch (dst src : scope_t) : outcome scope_t :=
  match scope_symtab dst, scope_symtab src with
  | Some d, Some s =>
      d ← symtab_inherit_branch fresh_buckets d s;
      Ret (mk_scope (scope_id dst) (Some d) (frozen dst))
  | _, _ => Abort
  end.

(** The body of the loop of [ast_consolidate_branches], on a pointer to a symbol. *)
Definition consolidate_body (parents : list scope_t) (cnt p : Z) (symtab : symtab_t) : outcome (bool * symtab_t) :=
  match cells symtab !! p with
  | None => Abort
  | Some sym =>
      '(_, st) ← ast_get parents (name sym);
      if decide (status sym = SYM_UNDEFINED) then
        if negb (branch_count sym <=? cnt) then Abort
        else if bool_decide (st = SYM_DEFINED) || (branch_count sym =? cnt)
        then Ret (false, write_sym symtab p (set_status sym SYM_DEFINED (branch_count sym)))
        else Ret (false, write_sym symtab p (set_status sym SYM_UNDEFINED 0))
      else Ret (false, symtab)
  end.

Definition ast_consolidate_branches (ast : list scope_t) (cnt : Z) : outcome (list scope_t) :=
  match ast with
  | node :: (_ :: _) as parents =>
      match scope_symtab node with
      | None => Abort
      | Some symtab =>
          if frozen node then Abort
          else
            '(_, symtab) ← tab_each symtab (consolidate_body parents cnt) symtab;
            Ret (mk_scope (scope_id node) (Some symtab) (frozen node) :: parents)
      end
  | _ => Abort
  end.
End scopes.

(** ** Names up to case *)

Lemma deref_fmap f s : f NUL = NUL -> deref (f <$> s) = f (deref s).
Proof. by destruct s. Qed.

Lemma case_marker (c : ascii) :
  (toupper c = "$"%char <-> c = "$"%char) /\ (tolower c = "$"%char <-> c = "$"%char) /\
  (toupper c = "_"%char <-> c = "_"%char) /\ (tolower c = "_"%char <-> c = "_"%char).
Proof. destruct c as [[] [] [] [] [] [] [] []]; vm_compute; split_and!; intros E; (exact E || discriminate E). Qed.

Lemma case_letter (c : ascii) :
  (in_range c "A"%char "Z"%char = true -> in_range (toupper c) "A"%char "Z"%char = true) /\
  in_range (tolower c) "A"%char "Z"%char = false /\
  toupper (toupper c) = toupper c /\ tolower (tolower c) = tolower c.
Proof. destruct c as [[] [] [] [] [] [] [] []]; vm_compute; auto. Qed.

Lemma is_name_type_fmap f s :
  f NUL = NUL -> (forall c, f c = "$"%char <-> c = "$"%char) -> (forall c, f c = "_"%char <-> c = "_"%char) ->
  exists c, is_name_type s = in_range c "A"%char "Z"%char /\ is_name_type (f <$> s) = in_range (f c) "A"%char "Z"%char.
Proof.
  intros H0 Hd Hu. unfold is_name_type.
  assert (forall (m : ascii) s, (forall c, f c = m <-> c = m) ->
    (if bool_decide (deref (f <$> s) = m) then tail (f <$> s) else f <$> s) =
    f <$> (if bool_decide (deref s = m) then tail s else s)) as Hskip.
  { intros m l Hm. rewrite deref_fmap by done. rewrite (bool_decide_ext _ _ (Hm (deref l))).
    case_bool_decide; [|done]. by destruct l. }
  rewrite (Hskip "$"%char) by done.
  set (s1 := if bool_decide (deref s = "$"%char) then tail s else s).
  rewrite (Hskip "_"%char s1) by done.
  set (s2 := if bool_decide (deref s1 = "_"%char) then tail s1 else s1).
  exists (deref s2). by rewrite deref_fmap.
Qed.

(** The caseless variant, on characters. *)
Definition caseless (s : list ascii) : list ascii :=
  if is_name_type s then toupper <$> s else tolower <$> s.

Lemma caseless_idem s : caseless (caseless s) = caseless s.
Proof.
  unfold caseless. destruct (is_name_type s) eqn:Hs.
  - destruct (is_name_type_fmap toupper s) as (c & Hc & Hc'); [done|intros; apply case_marker..|].
    rewrite Hc', (proj1 (case_letter c)) by congruence. rewrite <- list_fmap_compose.
    apply list_fmap_ext. intros i x _. apply case_letter.
  - destruct (is_name_type_fmap tolower s) as (c & Hc & Hc'); [done|intros; apply case_marker..|].
    rewrite Hc', (proj1 (proj2 (case_letter c))). rewrite <- list_fmap_compose.
    apply list_fmap_ext. intros i x _. apply case_letter.
Qed.

Section case.
Context `{CStrings}.

Lemma chars_intern l : chars (intern (String.string_of_list_ascii l)) = l.
Proof. unfold chars. by rewrite text_intern, String.list_ascii_of_string_of_list_ascii. Qed.

Lemma name_without_case_caseless n :
  name_without_case n = intern (String.string_of_list_ascii (caseless (chars n))).
Proof. done. Qed.

Lemma name_without_case_idem n : name_without_case (name_without_case n) = name_without_case n.
Proof. by rewrite !name_without_case_caseless, chars_intern, caseless_idem. Qed.
End case.

(** ** Operations on the maps *)

Section maps.
Context `{CStrings} (fresh_buckets : Z -> list hashmap_entry_t).
Hypothesis fresh_length : forall n, length (fresh_buckets n) = Z.to_nat n.
Implicit Types (t dst src : symtab_t) (sym : symbol_t) (n : Z).

Abbreviation map_of := (as_map (T := symbol_t)).

(** A lookup, with the record it finds. *)
Lemma sym_get t sym :
  tab_ok t ->
  (exists p i x, tab_get t sym = (p, Some i) /\ (p =? NULL) = false /\ p ∈ ptrs t /\ cells t !! p = Some x /\
     name x = name sym /\ map_of t !! name sym = Some x) \/
  (exists pos, tab_get t sym = (NULL, pos) /\ map_of t !! name sym = None /\
     (pos = None -> count (contents t) = 0)).
Proof.
  intros Hok. pose proof (tab_get_finds t sym Hok) as Hf. cbn in Hf. inversion Hf as [p x i Hp Hin Hx Hk Hm E|pos Hm Hpos E].
  - left. exists p, i, x. split_and!; [done|by apply Z.eqb_neq|done..].
  - right. by exists pos.
Qed.

Lemma map_of_lookup t n x : tab_ok t -> map_of t !! n = Some x <-> x ∈ elems t /\ name x = n.
Proof. intros Hok. exact (as_map_lookup t n x Hok). Qed.

Lemma map_of_name t n x : tab_ok t -> map_of t !! n = Some x -> name x = n.
Proof. intros Hok Hx. by apply as_map_lookup in Hx as [_ Hx]. Qed.

Lemma put_dup_map r t key sym pos :
  has_room r t -> 0 < r -> name sym = name key -> tab_get t key = (NULL, pos) ->
  exists t', put_dup fresh_buckets t sym (default HASHMAP_UNKNOWN pos) = Ret t' /\ has_room (r - 1) t' /\
    map_of t' = <[name sym := sym]> (map_of t) /\ count (contents t') = count (contents t) + 1.
Proof.
  intros Hroom Hr Hname Hget.
  destruct (tab_add_map fresh_buckets r t key sym pos fresh_length Hroom Hr Hname Hget) as (t1 & Hrun & Hroom1 & Hmap & Hcnt).
  exists t1. split; [exact Hrun|]. split; [exact Hroom1|]. split; [|exact Hcnt]. exact Hmap.
Qed.

Lemma write_sym_map r t p x y :
  has_room r t -> p ∈ ptrs t -> cells t !! p = Some x -> name y = name x ->
  has_room r (write_sym t p y) /\ map_of (write_sym t p y) = <[name x := y]> (map_of t).
Proof. intros Hroom Hp Hx Hk. exact (tab_update_map r t p x y Hroom Hp Hx Hk). Qed.

Lemma symtab_find_map t n :
  tab_ok t ->
  symtab_find t n =
  Ret (match map_of t !! n with
       | Some x => (if decide (status x = SYM_NOCASE) then NULL else def x, status x)
       | None => (NULL, SYM_NONE)
       end).
Proof.
  intros Hok. unfold symtab_find. set (key := mk_symbol n NULL SYM_NONE 0).
  destruct (sym_get t key Hok) as [(p & i & x & -> & Hp & _ & Hx & _ & Hm)|(pos & -> & Hm & _)]; cbn [name key] in Hm; rewrite Hm.
  - by rewrite Hp, Hx.
  - done.
Qed.

(** The fuel is enough: the second name is its own caseless variant. *)
Lemma find_case_map t n :
  tab_ok t ->
  find_case t n =
  Ret (match map_of t !! n with
       | Some x => (def x, status x)
       | None =>
           match map_of t !! name_without_case n with
           | Some x => (def x, status x)
           | None => (NULL, SYM_NONE)
           end
       end).
Proof.
  intros Hok. unfold find_case. cbn [symtab_find_case]. set (key := mk_symbol n NULL SYM_NONE 0).
  destruct (sym_get t key Hok) as [(p & i & x & -> & Hp & _ & Hx & _ & Hm)|(pos & -> & Hm & _)]; cbn [name key] in Hm; rewrite Hm.
  { by rewrite Hp, Hx. }
  rewrite Z.eqb_refl. cbn [negb]. destruct (Z.eqb_spec (name_without_case n) n) as [E|E]; cbn [negb].
  { by rewrite E, Hm. }
  set (key' := mk_symbol (name_without_case n) NULL SYM_NONE 0).
  destruct (sym_get t key' Hok) as [(p & i & x & -> & Hp & _ & Hx & _ & Hm')|(pos' & -> & Hm' & _)]; cbn [name key'] in Hm'; rewrite Hm'.
  - by rewrite Hp, Hx.
  - rewrite Z.eqb_refl. cbn [negb]. by rewrite name_without_case_idem, Z.eqb_refl.
Qed.

Lemma set_status_map r t n st :
  has_room r t -> 0 < r ->
  exists t', symtab_set_status fresh_buckets t n st = Ret t' /\ has_room (r - 1) t' /\
    map_of t' = <[n := match map_of t !! n with
                       | Some x => set_status x st (branch_count x)
                       | None => mk_symbol n NULL st 0
                       end]> (map_of t).
Proof.
  intros Hroom Hr. unfold symtab_set_status. set (key := mk_symbol n NULL st 0).
  destruct (sym_get t key (room_ok _ _ Hroom)) as [(p & i & x & -> & Hp & Hin & Hx & Hname & Hm)|(pos & Hget & Hm & _)];
    cbn [name key] in Hm; rewrite Hm.
  - rewrite Hp, Hx. cbn [negb]. destruct (write_sym_map r t p x (set_status x st (branch_count x)) Hroom Hin Hx eq_refl) as [Hroom' Hmap].
    eexists. split; [done|]. split; [eapply has_room_mono; [done|lia]|]. rewrite Hmap. by rewrite Hname.
  - rewrite Hget. destruct (put_dup_map r t key key pos Hroom Hr eq_refl Hget) as (t' & Hrun & Hroom' & Hmap & _).
    by exists t'.
Qed.

(** What [symtab_add] does, without assumptions on the table. *)
Lemma add_map r t n d st :
  has_room r t -> 1 < r ->
  let no_case := name_without_case n in
  let m1 := if decide (no_case = n) then map_of t
            else <[no_case := mk_symbol no_case d SYM_NOCASE 0]> (map_of t) in
  exists t' b, symtab_add fresh_buckets t n d st = Ret (t', b) /\ has_room (r - 2) t' /\
    match map_of t !! no_case, map_of t !! n with
    | Some _, _ => b = false /\ map_of t' = map_of t
    | None, Some _ => b = false /\ map_of t' = m1
    | None, None => b = true /\ map_of t' = <[n := mk_symbol n d st 0]> m1
    end.
Proof.
  intros Hroom Hr no_case m1. unfold symtab_add. fold no_case. set (key := mk_symbol n d st 0).
  set (key1 := mk_symbol no_case d SYM_NOCASE 0).
  assert (forall r1 t1, has_room r1 t1 -> 0 < r1 ->
    exists t' b,
      (let '(s2, index) := tab_get t1 key in
       if negb (s2 =? NULL) then Ret (t1, false)
       else symtab ← put_dup fresh_buckets t1 key (default HASHMAP_UNKNOWN index); Ret (symtab, true)) = Ret (t', b) /\
      has_room (r1 - 1) t' /\
      match map_of t1 !! n with
      | Some _ => b = false /\ map_of t' = map_of t1
      | None => b = true /\ map_of t' = <[n := key]> (map_of t1)
      end) as Hadd.
  { intros r1 t1 Hroom1 Hr1.
    destruct (sym_get t1 key (room_ok _ _ Hroom1)) as [(p & i & x & -> & Hp & _ & _ & _ & Hm)|(pos & Hget & Hm & _)];
      cbn [name key] in Hm; rewrite Hm.
    - rewrite Hp. exists t1, false. split; [done|]. split; [eapply has_room_mono; [done|lia]|done].
    - rewrite Hget. destruct (put_dup_map r1 t1 key key pos Hroom1 Hr1 eq_refl Hget) as (t' & Hrun & Hroom' & Hmap & _).
      exists t', true. rewrite Z.eqb_refl. cbn [negb]. by rewrite Hrun. }
  assert (r - 1 - 1 = r - 2) as Hr2 by lia.
  destruct (Z.eqb_spec no_case n) as [E|E]; cbn [negb mbind outcome_bind].
  { destruct (Hadd (r - 1) t) as (t' & b & Hrun & Hroom' & Hmap); [eapply has_room_mono; [done|lia]|lia|].
    exists t', b. split; [exact Hrun|]. split; [by rewrite <- Hr2|]. unfold m1. rewrite decide_True, E by done.
    by destruct (map_of t !! n). }
  unfold m1. rewrite decide_False by done.
  destruct (sym_get t key1 (room_ok _ _ Hroom)) as [(p & i & x & -> & Hp & _ & _ & _ & Hm)|(pos & Hget & Hm & _)];
    cbn [name key1] in Hm; rewrite Hm.
  { rewrite Hp. exists t, false. split; [done|]. split; [eapply has_room_mono; [done|lia]|done]. }
  rewrite Hget. destruct (put_dup_map r t key1 key1 pos Hroom ltac:(lia) eq_refl Hget) as (t1 & Hrun1 & Hroom1 & Hmap1 & _).
  rewrite Z.eqb_refl. cbn [negb]. rewrite Hrun1. cbn [mbind outcome_bind].
  destruct (Hadd (r - 1) t1 Hroom1 ltac:(lia)) as (t' & b & Hrun & Hroom' & Hmap).
  exists t', b. split; [exact Hrun|]. split; [by rewrite <- Hr2|].
  rewrite Hmap1 in Hmap. cbn [name key1] in Hmap. by rewrite lookup_insert_ne in Hmap.
Qed.

(** ** Names up to case *)

Abbreviation symbol_map := (gmap (tkey (T := symbol_t)) symbol_t).
Implicit Types m : symbol_map.

(** A symbol that is not a caseless variant. *)
Definition declared m n sym : Prop := m !! n = Some sym /\ status sym <> SYM_NOCASE.

(** Tables made by additions: every name has its caseless variant, with the same
    definition, and no two names differ by case only. *)
Record case_ok m : Prop := {
  case_closed n x : m !! n = Some x -> exists y, m !! name_without_case n = Some y /\ def y = def x;
  case_unique n1 x1 n2 x2 : declared m n1 x1 -> declared m n2 x2 ->
    name_without_case n1 = name_without_case n2 -> n1 = n2;
  case_variant n x : m !! n = Some x -> status x = SYM_NOCASE ->
    exists n' x', declared m n' x' /\ name_without_case n' = n
}.

Lemma case_ok_empty : case_ok ∅.
Proof.
  split; unfold declared.
  - intros n x. by rewrite lookup_empty.
  - intros n1 x1 n2 x2. by rewrite lookup_empty; intros [].
  - intros n x. by rewrite lookup_empty.
Qed.

(** A caseless variant is in the table exactly if a declared name has it. *)
Lemma case_present m n :
  case_ok m -> is_Some (m !! name_without_case n) <->
  exists n' x', declared m n' x' /\ name_without_case n' = name_without_case n.
Proof.
  intros Hok. split.
  - intros [x Hx]. destruct (decide (status x = SYM_NOCASE)) as [E|E].
    + by apply (case_variant _ Hok _ _ Hx).
    + exists (name_without_case n), x. split; [done|]. apply name_without_case_idem.
  - intros (n' & x' & [Hx' _] & <-). destruct (case_closed _ Hok _ _ Hx') as (y & Hy & _). by exists y.
Qed.

Lemma find_case_declared t n n' x :
  tab_ok t -> case_ok (map_of t) -> declared (map_of t) n' x -> name_without_case n' = name_without_case n ->
  exists st, find_case t n = Ret (def x, st).
Proof.
  intros Hok Hcase [Hx Hst] E. rewrite find_case_map by done.
  destruct (case_closed _ Hcase _ _ Hx) as (y & Hy & Hdef). rewrite E in Hy.
  destruct (map_of t !! n) as [z|] eqn:Hz; [|rewrite Hy, Hdef; by eexists].
  destruct (case_closed _ Hcase _ _ Hz) as (y' & Hy' & Hdef'). rewrite Hy in Hy'. injection Hy' as <-.
  rewrite <- Hdef, Hdef'. by eexists.
Qed.

Lemma find_case_absent t n :
  tab_ok t -> case_ok (map_of t) ->
  (forall n' x', declared (map_of t) n' x' -> name_without_case n' <> name_without_case n) ->
  find_case t n = Ret (NULL, SYM_NONE).
Proof.
  intros Hok Hcase Habs. rewrite find_case_map by done.
  assert (map_of t !! name_without_case n = None) as Hn.
  { apply eq_None_not_Some. rewrite case_present by done. intros (n' & x' & Hd & E). by eapply Habs. }
  rewrite Hn. destruct (map_of t !! n) as [x|] eqn:Hx; [|done].
  destruct (case_closed _ Hcase _ _ Hx) as (y & Hy & _). by rewrite Hn in Hy.
Qed.

(** Adding a name keeps the table closed under caseless variants. *)
Lemma case_ok_insert m n d st :
  case_ok m -> m !! name_without_case n = None -> m !! n = None -> st <> SYM_NOCASE ->
  let no_case := name_without_case n in
  let m1 := if decide (no_case = n) then m else <[no_case := mk_symbol no_case d SYM_NOCASE 0]> m in
  let m' := <[n := mk_symbol n d st 0]> m1 in
  case_ok m' /\ (forall n' x, declared m' n' x <-> declared m n' x \/ (n' = n /\ x = mk_symbol n d st 0)).
Proof.
  intros Hok Hno Hn Hst no_case m1 m'. pose proof (name_without_case_idem n) as Hidem. fold no_case in Hno, Hidem.
  assert (forall k x, m' !! k = Some x <->
    (k = n /\ x = mk_symbol n d st 0) \/ (k <> n /\ k = no_case /\ x = mk_symbol no_case d SYM_NOCASE 0) \/ m !! k = Some x)
    as Hm'.
  { intros k x. unfold m', m1. rewrite lookup_insert_Some. destruct (decide (no_case = n)) as [E|E].
    - split; [intros [[<- <-]|[? ?]]; auto|]. intros [[-> ->]|[(? & ? & _)|Hk]]; [by left|congruence|right].
      split; [|done]. intros <-. congruence.
    - rewrite lookup_insert_Some. split.
      + intros [[<- <-]|[? [[<- <-]|[? ?]]]]; auto.
      + intros [[-> ->]|[(? & -> & ->)|Hk]]; [by left|by right; split; [|left]|right].
        split; [intros <-; congruence|right]. split; [intros <-; congruence|done]. }
  assert (forall n' x, declared m' n' x <-> declared m n' x \/ (n' = n /\ x = mk_symbol n d st 0)) as Hdec.
  { intros n' x. unfold declared. rewrite Hm'. split.
    - intros [[[-> ->]|[(? & -> & ->)|Hk]] Hx]; [by right|by destruct Hx|by left].
    - intros [[Hk Hx]|[-> ->]]; [by split; [right; right|]|by split; [left|]]. }
  split; [|done]. split.
  - intros k x Hk. apply Hm' in Hk as [[-> ->]|[(? & -> & ->)|Hk]].
    + fold no_case. destruct (decide (no_case = n)) as [E|E].
      * exists (mk_symbol n d st 0). split; [apply Hm'; by left|done].
      * exists (mk_symbol no_case d SYM_NOCASE 0). split; [apply Hm'; by right; left|done].
    + rewrite Hidem. exists (mk_symbol no_case d SYM_NOCASE 0). split; [apply Hm'; by right; left|done].
    + destruct (case_closed _ Hok _ _ Hk) as (y & Hy & Hd). exists y. split; [apply Hm'; by right; right|done].
  - assert (forall n' x, declared m n' x -> name_without_case n' <> no_case) as Hother.
    { intros n' x [Hx _] E. destruct (case_closed _ Hok _ _ Hx) as (y & Hy & _). congruence. }
    intros n1 x1 n2 x2 [H1|[-> _]]%Hdec [H2|[-> _]]%Hdec E.
    + by eapply (case_unique _ Hok).
    + by destruct (Hother _ _ H1).
    + by destruct (Hother _ _ H2).
    + done.
  - intros k x Hk Hx. apply Hm' in Hk as [[-> ->]|[(? & -> & ->)|Hk]]; [done| |].
    + exists n, (mk_symbol n d st 0). split; [apply Hdec; by right|done].
    + destruct (case_variant _ Hok _ _ Hk Hx) as (n' & x' & Hd & E). exists n', x'. split; [apply Hdec; by left|done].
Qed.

(** Adding to such a table. *)
Lemma add_case r t n d st :
  has_room r t -> 1 < r -> case_ok (map_of t) -> st <> SYM_NOCASE ->
  exists t' b, symtab_add fresh_buckets t n d st = Ret (t', b) /\ has_room (r - 2) t' /\ case_ok (map_of t') /\
    if b : bool then
      (forall n' x', declared (map_of t) n' x' -> name_without_case n' <> name_without_case n) /\
      (forall n' x, declared (map_of t') n' x <-> declared (map_of t) n' x \/ (n' = n /\ x = mk_symbol n d st 0))
    else
      map_of t' = map_of t /\
      exists n' x', declared (map_of t) n' x' /\ name_without_case n' = name_without_case n.
Proof.
  intros Hroom Hr Hok Hst. destruct (add_map r t n d st Hroom Hr) as (t' & b & Hrun & Hroom' & Hspec).
  exists t', b. split; [done|]. split; [done|].
  pose proof (case_present (map_of t) n Hok) as Hpres.
  destruct (map_of t !! name_without_case n) as [x|] eqn:Hno.
  { destruct Hspec as [-> ->]. split; [done|]. split; [done|]. apply Hpres. by exists x. }
  destruct (map_of t !! n) as [y|] eqn:Hn.
  { destruct (case_closed _ Hok _ _ Hn) as (z & Hz & _). congruence. }
  destruct Hspec as [-> Hmap]. destruct (case_ok_insert (map_of t) n d st Hok Hno Hn Hst) as [Hok' Hdec].
  cbn zeta in Hok', Hdec. rewrite <- Hmap in Hok', Hdec. split; [done|]. split; [|done].
  intros n' x' Hd E. assert (is_Some (None : option symbol_t)) as [? ?]; [|done]. apply Hpres. eauto.
Qed.

(** ** Loops over a table *)

(** A loop whose body changes the entry of the symbol it is given, and needs room for it. *)
Lemma fold_entries (f : symbol_t -> option symbol_t -> option symbol_t)
    (body : symbol_t -> symtab_t * Z -> outcome (bool * (symtab_t * Z))) l :
  let good r (st : symtab_t * Z) := has_room r (fst st) /\ (count (contents (fst st)) = 0 -> snd st = HASHMAP_UNKNOWN) in
  (forall r sym st, good r st -> 0 < r -> exists st', body sym st = Ret (false, st') /\ good (r - 1) st' /\
     forall n, map_of (fst st') !! n = if decide (n = name sym) then f sym (map_of (fst st) !! n) else map_of (fst st) !! n) ->
  NoDup (name <$> l) -> forall r st, good r st -> Z.of_nat (length l) <= r ->
  exists st', fold_until body l st = Ret (false, st') /\ has_room (r - Z.of_nat (length l)) (fst st') /\
    forall n, map_of (fst st') !! n =
      match list_find (fun sym => name sym = n) l with
      | Some (_, sym) => f sym (map_of (fst st) !! n)
      | None => map_of (fst st) !! n
      end.
Proof.
  intros good Hbody Hnd. induction l as [|sym l IH]; intros r st Hgood Hr.
  - exists st. split; [done|]. split; [|done]. eapply has_room_mono; [apply Hgood|lia].
  - cbn in Hnd. apply NoDup_cons in Hnd as [Hn Hnd]. cbn [length] in Hr.
    destruct (Hbody r sym st Hgood ltac:(lia)) as (st1 & Hrun1 & Hgood1 & Hmap1).
    destruct (IH Hnd (r - 1) st1 Hgood1 ltac:(lia)) as (st2 & Hrun2 & Hroom2 & Hmap2).
    exists st2. cbn [fold_until]. rewrite Hrun1. cbn. split; [done|]. split; [eapply has_room_mono; [done|lia]|].
    intros n. rewrite Hmap2, Hmap1. cbn [list_find]. destruct (decide (name sym = n)) as [<-|Hne].
    + rewrite (proj2 (list_find_None _ l)).
      { by rewrite decide_True by done. }
      apply Forall_forall. intros y Hy E. apply Hn. rewrite <- E. by apply list_elem_of_fmap_2.
    + rewrite decide_False by done. destruct (list_find (fun sym => name sym = n) l) as [[i y]|]; done.
Qed.

Lemma find_elems t n :
  tab_ok t -> match list_find (fun sym => name sym = n) (elems t) with Some (_, sym) => Some sym | None => None end = map_of t !! n.
Proof.
  intros Hok. destruct (list_find _ _) as [[i sym]|] eqn:E.
  - apply list_find_Some in E as (Hi & <- & _). symmetry. apply as_map_lookup; [done|].
    split; [by eapply list_elem_of_lookup_2|done].
  - symmetry. apply as_map_None; [done|]. intros (x & -> & Hx)%list_elem_of_fmap.
    apply list_find_None in E. by apply (proj1 (Forall_forall _ _) E x Hx).
Qed.

(** One entry of a table, merged into another. *)
Definition inherited (put : symbol_t -> symbol_t) (upd : symbol_t -> symbol_t -> symbol_t)
    (d s : option symbol_t) : option symbol_t :=
  match s with
  | Some sym => if def sym =? NULL then Some (match d with Some d => upd d sym | None => put sym end) else d
  | None => d
  end.

(** The body of both inheritance loops. *)
Lemma inherit_body_map put upd (body : symbol_t -> symtab_t * Z -> outcome (bool * (symtab_t * Z))) :
  (forall sym, name (put sym) = name sym) -> (forall d sym, name (upd d sym) = name d) ->
  (forall sym dst index, body sym (dst, index) =
     if negb (def sym =? NULL) then Ret (false, (dst, index))
     else
       let '(dsym, pos) := tab_get dst sym in
       let index := default index pos in
       if negb (dsym =? NULL) then
         match cells dst !! dsym with
         | None => Abort
         | Some d => Ret (false, (write_sym dst dsym (upd d sym), index))
         end
       else dst ← put_dup fresh_buckets dst (put sym) index; Ret (false, (dst, index))) ->
  forall r sym st, has_room r (fst st) /\ (count (contents (fst st)) = 0 -> snd st = HASHMAP_UNKNOWN) -> 0 < r ->
  exists st', body sym st = Ret (false, st') /\
    (has_room (r - 1) (fst st') /\ (count (contents (fst st')) = 0 -> snd st' = HASHMAP_UNKNOWN)) /\
    forall n, map_of (fst st') !! n =
      if decide (n = name sym) then inherited put upd (map_of (fst st) !! n) (Some sym) else map_of (fst st) !! n.
Proof.
  intros Hput Hupd Hbody r sym [dst index] [Hroom Hindex] Hr. rewrite Hbody. cbn [fst snd inherited] in *.
  destruct (Z.eqb_spec (def sym) NULL) as [E|E]; cbn [negb].
  2: { exists (dst, index). split; [done|]. split; [split; [eapply has_room_mono; [done|lia]|done]|].
       intros n. by case_decide. }
  destruct (sym_get dst sym (room_ok _ _ Hroom)) as [(p & i & x & -> & Hp & Hin & Hx & Hname & Hm)|(pos & Hget & Hm & Hpos)].
  - rewrite Hp, Hx. cbn [negb]. destruct (write_sym_map r dst p x (upd x sym) Hroom Hin Hx (Hupd x sym)) as [Hroom' Hmap].
    eexists. split; [done|]. cbn [fst snd]. split.
    { split; [eapply has_room_mono; [done|lia]|]. cbn. intros Hc. exfalso.
      rewrite tab_count in Hc by apply Hroom. destruct (ptrs dst); [by apply elem_of_nil in Hin|done]. }
    intros n. rewrite Hmap, Hname. case_decide as En; [subst n|by rewrite lookup_insert_ne].
    by rewrite lookup_insert_eq, Hm.
  - rewrite Hget, Z.eqb_refl. cbn [negb].
    assert (default index pos = default HASHMAP_UNKNOWN pos) as ->.
    { destruct pos; [done|]. cbn. by rewrite Hindex by auto. }
    destruct (put_dup_map r dst sym (put sym) pos Hroom Hr (Hput sym) Hget) as (t' & Hrun & Hroom' & Hmap & Hcnt).
    rewrite Hrun. cbn [mbind outcome_bind]. eexists. split; [done|]. cbn [fst snd]. split.
    { split; [done|]. pose proof (tab_count dst (room_ok _ _ Hroom)). lia. }
    intros n. rewrite Hmap, Hput. case_decide as En; [subst n|by rewrite lookup_insert_ne].
    by rewrite lookup_insert_eq, Hm.
Qed.

(** A whole table, merged into another. *)
Lemma inherit_map put upd body r dst src :
  (forall sym, name (put sym) = name sym) -> (forall d sym, name (upd d sym) = name d) ->
  (forall sym dst index, body sym (dst, index) =
     if negb (def sym =? NULL) then Ret (false, (dst, index))
     else
       let '(dsym, pos) := tab_get dst sym in
       let index := default index pos in
       if negb (dsym =? NULL) then
         match cells dst !! dsym with
         | None => Abort
         | Some d => Ret (false, (write_sym dst dsym (upd d sym), index))
         end
       else dst ← put_dup fresh_buckets dst (put sym) index; Ret (false, (dst, index))) ->
  tab_ok src -> has_room r dst -> count (contents src) <= r ->
  exists dst' index, each_symbol src body (dst, HASHMAP_UNKNOWN) = Ret (false, (dst', index)) /\
    has_room (r - count (contents src)) dst' /\
    forall n, map_of dst' !! n = inherited put upd (map_of dst !! n) (map_of src !! n).
Proof.
  intros Hput Hupd Hbody Hsrc Hroom Hr. unfold each_symbol. rewrite each_elems by done.
  pose proof (elems_nodup src Hsrc) as Hnd.
  assert (Z.of_nat (length (elems src)) = count (contents src)) as Hlen.
  { rewrite tab_count, elems_length by done. unfold ptrs. by rewrite length_fmap. }
  destruct (fold_entries (fun sym d => inherited put upd d (Some sym)) body (elems src)
    (inherit_body_map put upd body Hput Hupd Hbody) Hnd r (dst, HASHMAP_UNKNOWN)) as ([dst' index] & Hrun & Hroom' & Hmap).
  - by split.
  - lia.
  - exists dst', index. split; [done|]. split; [by rewrite <- Hlen|]. intros n. cbn [fst] in Hmap. rewrite Hmap.
    rewrite <- (find_elems src n Hsrc). by destruct (list_find _ _) as [[i y]|].
Qed.

Lemma inherit_branch_map r dst src :
  tab_ok src -> has_room r dst -> count (contents src) <= r ->
  exists dst', symtab_inherit_branch fresh_buckets dst src = Ret dst' /\ has_room (r - count (contents src)) dst' /\
    forall n, map_of dst' !! n = inherited new_symbol merge_symbol (map_of dst !! n) (map_of src !! n).
Proof.
  intros Hsrc Hroom Hr.
  destruct (inherit_map new_symbol merge_symbol (inherit_branch_body fresh_buckets) r dst src) as (dst' & index & Hrun & Hspec).
  - intros sym. unfold new_symbol. by case_decide.
  - intros d sym. unfold merge_symbol. destruct (status sym); try done. by case_decide.
  - done.
  - done.
  - done.
  - done.
  - exists dst'. unfold symtab_inherit_branch. by rewrite Hrun.
Qed.

Lemma inherit_status_map r dst src :
  tab_ok src -> has_room r dst -> count (contents src) <= r ->
  exists dst', symtab_inherit_status fresh_buckets dst src = Ret dst' /\ has_room (r - count (contents src)) dst' /\
    forall n, map_of dst' !! n =
      inherited (fun sym => sym) (fun d sym => set_status d (status sym) (branch_count d)) (map_of dst !! n) (map_of src !! n).
Proof.
  intros Hsrc Hroom Hr.
  destruct (inherit_map (fun sym => sym) (fun d sym => set_status d (status sym) (branch_count d))
    (inherit_status_body fresh_buckets) r dst src) as (dst' & index & Hrun & Hspec); try done.
  exists dst'. unfold symtab_inherit_status. by rewrite Hrun.
Qed.

(** ** Branches *)

(** The entry of a branch for a name of an outer scope. *)
Definition outer (b : option symbol_t) : option symbol_t :=
  match b with Some sym => if def sym =? NULL then Some sym else None | None => None end.

Definition is_consumed (st : sym_status_t) : bool :=
  match st with SYM_CONSUMED | SYM_CONSUMED_SAME_EXPR => true | _ => false end.

(** What the last branch that consumed the name says. *)
Definition last_consumed (bs : list (option symbol_t)) : option sym_status_t :=
  foldl (fun a b => match outer b with Some sym => if is_consumed (status sym) then Some (status sym) else a | None => a end)
    None bs.

Definition defines (b : option symbol_t) : Prop := status <$> outer b = Some SYM_DEFINED.

#[local] Instance defines_dec b : Decision (defines b).
Proof. unfold defines. apply _. Defined.

(** The entries that the analysis of a branch leaves: a branch that did not define the name
    has been consolidated. *)
Definition flow_entry (b : option symbol_t) : Prop :=
  match outer b with
  | Some sym =>
      match status sym with
      | SYM_DEFINED | SYM_CONSUMED | SYM_CONSUMED_SAME_EXPR => True
      | SYM_UNDEFINED => branch_count sym = 0
      | _ => False
      end
  | None => True
  end.

(** The status of a name after a conditional: nothing if no branch changed it; consumed if
    some branch consumed it; defined if all branches, or the scope around, define it. *)
Definition branch_status (around : sym_status_t) (bs : list (option symbol_t)) : option sym_status_t :=
  if decide (Forall (fun b => outer b = None) bs) then None
  else
    Some (match last_consumed bs with
          | Some st => st
          | None => if decide (around = SYM_DEFINED \/ Forall defines bs) then SYM_DEFINED else SYM_UNDEFINED
          end).

Definition merge_entries (bs : list (option symbol_t)) : option symbol_t :=
  foldl (inherited new_symbol merge_symbol) None bs.

Lemma defines_outer b :
  defines b <-> match outer b with Some sym => status sym = SYM_DEFINED | None => False end.
Proof. unfold defines. destruct (outer b); cbn; split; congruence || done. Qed.

Definition definitions (bs : list (option symbol_t)) : nat := length (filter defines bs).

Lemma definitions_snoc bs b : definitions (bs ++ [b]) = (definitions bs + if decide (defines b) then 1 else 0)%nat.
Proof.
  unfold definitions. rewrite filter_app, length_app. f_equal. rewrite filter_cons. by case_decide.
Qed.

Lemma last_consumed_snoc bs b :
  last_consumed (bs ++ [b]) =
  match outer b with
  | Some sym => if is_consumed (status sym) then Some (status sym) else last_consumed bs
  | None => last_consumed bs
  end.
Proof. unfold last_consumed. by rewrite foldl_snoc. Qed.

Lemma untouched bs : Forall (fun b => outer b = None) bs -> last_consumed bs = None /\ definitions bs = 0%nat.
Proof.
  induction bs as [|b bs IH] using rev_ind; [done|]. intros [Hbs [Hb _]%Forall_cons]%Forall_app.
  destruct (IH Hbs) as [E1 E2]. rewrite last_consumed_snoc, definitions_snoc, Hb, E1, E2. split; [done|].
  rewrite decide_False; [done|]. unfold defines. by rewrite Hb.
Qed.

Lemma inherited_outer d b :
  inherited new_symbol merge_symbol d b =
  match outer b with
  | Some sym => Some (match d with Some d => merge_symbol d sym | None => new_symbol sym end)
  | None => d
  end.
Proof. destruct b as [sym|]; [|done]. cbn. by destruct (def sym =? NULL). Qed.

Lemma outer_def b sym : outer b = Some sym -> def sym = NULL.
Proof. destruct b as [x|]; [|done]. cbn. destruct (Z.eqb_spec (def x) NULL); [|done]. by intros [= <-]. Qed.

(** The symbol that has been merged from some branches: the branches that define it are
    counted until one consumes it. *)
Definition merged (bs : list (option symbol_t)) (d : option symbol_t) : Prop :=
  match d with
  | None => Forall (fun b => outer b = None) bs
  | Some x => ~ Forall (fun b => outer b = None) bs /\ def x = NULL /\
      match last_consumed bs with
      | Some st => status x = st /\ is_consumed st = true
      | None => status x = SYM_UNDEFINED /\ branch_count x = Z.of_nat (definitions bs)
      end
  end.

Lemma merged_snoc bs d b :
  merged bs d -> flow_entry b -> Z.of_nat (length bs) + 1 < 2 ^ 64 ->
  merged (bs ++ [b]) (inherited new_symbol merge_symbol d b).
Proof.
  intros Hd Hb Hlen. assert (definitions bs <= length bs)%nat as Hcount by apply length_filter.
  rewrite inherited_outer. unfold merged. rewrite last_consumed_snoc, definitions_snoc.
  unfold flow_entry in Hb. pose proof (defines_outer b) as Hdefines. destruct (outer b) as [sym|] eqn:Hout.
  2: { rewrite (decide_False (P := defines b)), Nat.add_0_r by (intros E; by apply Hdefines in E).
       destruct d as [x|]; cbn in Hd; rewrite Forall_app, Forall_cons, Forall_nil; tauto. }
  rewrite Forall_app, Forall_cons, Hout. split; [by intros [_ [? _]]|].
  pose proof (outer_def _ _ Hout) as Hdef. unfold merge_symbol, new_symbol.
  destruct d as [x|]; cbn in Hd.
  - destruct Hd as (_ & Hdx & Hd). destruct (status sym) eqn:Hst; try done; cbn [is_consumed].
    + rewrite (decide_True (P := defines b)) by (by rewrite Hdefines).
      destruct (last_consumed bs) as [st|].
      * rewrite decide_False; [done|]. destruct Hd as [-> Hc]. by intros ->.
      * destruct Hd as [Hs Hc]. rewrite decide_True by done. cbn. split_and!; [done|done|].
        rewrite Hc. unfold add64. rewrite u64_id; unfold is_u64; lia.
    + rewrite (decide_False (P := defines b)), Nat.add_0_r by (by rewrite Hdefines). done.
  - destruct (untouched bs Hd) as [-> ->]. destruct (status sym) eqn:Hst; try done; cbn [is_consumed].
    + rewrite (decide_True (P := defines b)) by (by rewrite Hdefines). by split_and!.
    + rewrite (decide_False (P := defines b)) by (by rewrite Hdefines). by split_and!.
Qed.

Lemma merge_entries_spec bs :
  Forall flow_entry bs -> Z.of_nat (length bs) < 2 ^ 64 -> merged bs (merge_entries bs).
Proof.
  induction bs as [|b bs IH] using rev_ind; intros Hflow Hlen; [by constructor|].
  apply Forall_app in Hflow as [Hflow [Hb _]%Forall_cons]. rewrite length_app in Hlen. cbn in Hlen.
  unfold merge_entries. rewrite foldl_snoc. apply merged_snoc; [apply IH; [done|lia]|done|lia].
Qed.

Lemma definitions_all bs : definitions bs = length bs <-> Forall defines bs.
Proof.
  unfold definitions. induction bs as [|b bs IH]; [split; [by constructor|done]|]. rewrite filter_cons, Forall_cons.
  pose proof (length_filter defines bs). case_decide; cbn; [rewrite <- IH|].
  - split; [intros [=]; tauto|intros [_ ->]; done].
  - split; [lia|tauto].
Qed.

Lemma definitions_le bs : (definitions bs <= length bs)%nat.
Proof. apply length_filter. Qed.

(** ** Scopes *)

Definition scope_ok (node : scope_t) : Prop :=
  match scope_symtab node with Some t => tab_ok t | None => True end.

Lemma get_loop_total ast n st :
  Forall scope_ok ast -> ast <> [] -> exists v st', get_loop symtab_find ast n st = Ret (v, st').
Proof.
  revert st. induction ast as [|node ast IH]; intros st Hok Hne; [done|].
  apply Forall_cons in Hok as [Hnode Hok]. cbn [get_loop]. unfold scope_ok in Hnode.
  assert (forall v st1, exists v' st',
    (if negb (v =? NULL) then Ret (v, st1)
     else match ast with
          | [] => Ret (NULL, st1)
          | parent :: _ => if decide (scope_id parent = TK_PROGRAM) then Ret (NULL, st1) else get_loop symtab_find ast n st1
          end) = Ret (v', st')) as Hrest.
  { intros v st1. destruct (v =? NULL); cbn [negb]; [|by eexists _, _]. destruct ast as [|parent l]; [by eexists _, _|].
    case_decide; [by eexists _, _|]. by apply IH. }
  destruct (scope_symtab node) as [t|]; cbn [mbind outcome_bind]; [|apply Hrest].
  rewrite symtab_find_map by done. cbn [mbind outcome_bind].
  destruct (map_of t !! n); cbn [mbind outcome_bind]; apply Hrest.
Qed.

(** The status that [ast_get] gives. *)
Definition status_around (parents : list scope_t) (n : Z) : sym_status_t :=
  match ast_get parents n with Ret (_, st) => st | _ => SYM_ERROR end.

(** What consolidation does to a symbol. *)
Definition consolidated (around : sym_status_t) (cnt : Z) (sym : symbol_t) : symbol_t :=
  if decide (status sym = SYM_UNDEFINED) then
    if decide (around = SYM_DEFINED \/ branch_count sym = cnt) then set_status sym SYM_DEFINED (branch_count sym)
    else set_status sym SYM_UNDEFINED 0
  else sym.

Lemma consolidated_name around cnt sym : name (consolidated around cnt sym) = name sym.
Proof. unfold consolidated. by repeat case_decide. Qed.

Lemma consolidate_body_run parents cnt p t sym :
  Forall scope_ok parents -> parents <> [] -> cells t !! p = Some sym ->
  (status sym = SYM_UNDEFINED -> branch_count sym <= cnt) ->
  exists t', consolidate_body parents cnt p t = Ret (false, t') /\ contents t' = contents t /\
    forall q, cells t' !! q = if decide (q = p) then Some (consolidated (status_around parents (name sym)) cnt sym) else cells t !! q.
Proof.
  intros Hpar Hne Hp Hcnt. unfold consolidate_body. rewrite Hp.
  destruct (get_loop_total parents (name sym) SYM_NONE Hpar Hne) as (v & st & Hget).
  assert (status_around parents (name sym) = st) as -> by (unfold status_around, ast_get; by rewrite Hget).
  unfold ast_get. rewrite Hget. cbn [mbind outcome_bind]. unfold consolidated.
  assert (forall y q, cells (write_sym t p y) !! q = if decide (q = p) then Some y else cells t !! q) as Hwrite.
  { intros y q. cbn. case_decide as E; [subst; apply lookup_insert_eq|by apply lookup_insert_ne]. }
  destruct (decide (status sym = SYM_UNDEFINED)) as [E|E].
  - rewrite (proj2 (Z.leb_le _ _)) by auto. cbn [negb].
    destruct (decide (st = SYM_DEFINED \/ branch_count sym = cnt)) as [Hd|Hd].
    + replace (bool_decide (st = SYM_DEFINED) || (branch_count sym =? cnt)) with true.
      { eexists. split; [done|]. split; [done|]. intros q. apply Hwrite. }
      symmetry. apply orb_true_iff. destruct Hd; [left; by apply bool_decide_eq_true_2|right; by apply Z.eqb_eq].
    + replace (bool_decide (st = SYM_DEFINED) || (branch_count sym =? cnt)) with false.
      { eexists. split; [done|]. split; [done|]. intros q. apply Hwrite. }
      symmetry. apply orb_false_iff. split; [apply bool_decide_eq_false_2|apply Z.eqb_neq]; tauto.
  - exists t. split; [done|]. split; [done|]. intros q. case_decide as Eq; [by subst|done].
Qed.

Lemma consolidate_loop parents cnt l t :
  Forall scope_ok parents -> parents <> [] -> NoDup l ->
  (forall p, p ∈ l -> exists sym, cells t !! p = Some sym /\ (status sym = SYM_UNDEFINED -> branch_count sym <= cnt)) ->
  exists t', fold_until (consolidate_body parents cnt) l t = Ret (false, t') /\ contents t' = contents t /\
    forall q, cells t' !! q =
      if decide (q ∈ l) then (fun sym => consolidated (status_around parents (name sym)) cnt sym) <$> cells t !! q
      else cells t !! q.
Proof.
  intros Hpar Hne Hnd. revert t. induction l as [|p l IH]; intros t Hl.
  { exists t. split; [done|]. split; [done|]. intros q. rewrite decide_False; [done|apply not_elem_of_nil]. }
  apply NoDup_cons in Hnd as [Hp Hnd]. destruct (Hl p) as (sym & Hsym & Hcnt); [left|].
  destruct (consolidate_body_run parents cnt p t sym Hpar Hne Hsym Hcnt) as (t1 & Hrun1 & Hc1 & Hcells1).
  destruct (IH Hnd t1) as (t2 & Hrun2 & Hc2 & Hcells2).
  { intros q Hq. rewrite Hcells1, decide_False by (intros ->; done). apply Hl. by right. }
  exists t2. cbn [fold_until]. rewrite Hrun1. cbn [mbind outcome_bind]. split; [done|]. split; [congruence|].
  intros q. rewrite Hcells2, Hcells1. destruct (decide (q = p)) as [->|Hqp].
  - rewrite decide_False, decide_True by (done || left). by rewrite Hsym.
  - destruct (decide (q ∈ l)).
    + by rewrite decide_True by by right.
    + rewrite decide_False; [done|]. by intros [|]%elem_of_cons.
Qed.

Lemma consolidate_map node parents t cnt :
  scope_symtab node = Some t -> frozen node = false -> tab_ok t -> Forall scope_ok parents -> parents <> [] ->
  (forall n sym, map_of t !! n = Some sym -> status sym = SYM_UNDEFINED -> branch_count sym <= cnt) ->
  exists t', ast_consolidate_branches (node :: parents) cnt =
      Ret (mk_scope (scope_id node) (Some t') false :: parents) /\ tab_ok t' /\
    forall n, map_of t' !! n = consolidated (status_around parents n) cnt <$> map_of t !! n.
Proof.
  intros Hnode Hfrozen Hok Hpar Hne Hcnt.
  destruct (consolidate_loop parents cnt (ptrs t) t Hpar Hne (ptrs_nodup t Hok)) as (t' & Hrun & Hc & Hcells).
  { intros p Hp. destruct (elem_of_ptrs t p Hok Hp) as (sym & Hsym & _). exists sym. split; [done|].
    apply (Hcnt (name sym)). apply map_of_lookup; [done|]. split; [|done]. apply elem_of_elems. eauto. }
  exists t'. unfold ast_consolidate_branches. destruct parents as [|parent l]; [done|].
  rewrite Hnode, Hfrozen, tab_each_spec, Hrun by done. split; [done|].
  assert (tab_ok t') as Hok'.
  { destruct t' as [m' h']. cbn in Hc. subst m'. apply tab_ok_update; [done|]. intros p Hp. cbn in Hcells.
    rewrite Hcells, decide_True by done. destruct (cells t !! p); [|done]. cbn. by rewrite consolidated_name. }
  split; [done|]. intros n. apply option_eq. intros x.
  assert (ptrs t' = ptrs t) as Hptrs by (unfold ptrs; by rewrite Hc).
  split.
  - intros [Hx <-]%map_of_lookup; [|done]. apply elem_of_elems in Hx as (p & Hp & Hx). rewrite Hptrs in Hp.
    rewrite Hcells, decide_True in Hx by done.
    apply fmap_Some in Hx as (sym & Hsym & ->). cbn. rewrite consolidated_name. apply fmap_Some. exists sym.
    split; [|done]. apply map_of_lookup; [done|]. split; [|done]. apply elem_of_elems. eauto.
  - intros (sym & Hsym & ->)%fmap_Some. apply map_of_lookup in Hsym as [Hsym Hn]; [|done]. subst n.
    apply map_of_lookup; [done|]. cbn. rewrite consolidated_name. split; [|done].
    apply elem_of_elems in Hsym as (p & Hp & Hsym). apply elem_of_elems. exists p. rewrite Hptrs.
    split; [done|]. by rewrite Hcells, decide_True, Hsym.
Qed.

(** Merging the tables of several branches, one after the other. *)
Fixpoint inherit_branches (dst : scope_t) (branches : list scope_t) : outcome scope_t :=
  match branches with
  | [] => Ret dst
  | b :: branches => dst ← ast_inheritbranch fresh_buckets dst b; inherit_branches dst branches
  end.

Definition total_count (tabs : list symtab_t) : Z := foldr (fun t z => count (contents t) + z) 0 tabs.

Lemma inherit_branches_map branches tabs node t r :
  Forall2 (fun b tab => scope_symtab b = Some tab /\ tab_ok tab) branches tabs ->
  scope_symtab node = Some t -> frozen node = false -> has_room r t -> total_count tabs <= r ->
  exists node' t', inherit_branches node branches = Ret node' /\ scope_symtab node' = Some t' /\ frozen node' = false /\
    tab_ok t' /\ forall n, map_of t' !! n =
      foldl (inherited new_symbol merge_symbol) (map_of t !! n) ((fun tab => map_of tab !! n) <$> tabs).
Proof.
  intros Hbs. revert node t r. induction Hbs as [|b tab branches tabs [Hb Htab] Hbs IH]; intros node t r Hnode Hfr Hroom Hr.
  { exists node, t. split_and!; [done|done|done|apply Hroom|done]. }
  cbn [total_count foldr] in Hr. fold (total_count tabs) in Hr.
  assert (0 <= total_count tabs) as Hpos.
  { clear -Hbs. induction Hbs as [|b tab branches tabs [Hb Htab] Hbs IH]; [done|]. cbn. fold (total_count tabs).
    rewrite tab_count by done. lia. }
  destruct (inherit_branch_map r t tab Htab Hroom ltac:(lia)) as (t1 & Hrun1 & Hroom1 & Hmap1).
  destruct (IH (mk_scope (scope_id node) (Some t1) (frozen node)) t1 _ eq_refl Hfr Hroom1 ltac:(lia))
    as (node' & t' & Hrun & Hnode' & Hfr' & Hok' & Hmap).
  exists node', t'. cbn [inherit_branches]. unfold ast_inheritbranch. rewrite Hnode, Hb, Hrun1. cbn [mbind outcome_bind].
  split_and!; [done..|]. intros n. rewrite Hmap, Hmap1. done.
Qed.

(** ** Merging public symbols *)

Definition public m n sym : Prop := m !! n = Some sym /\ is_hidden sym = false.

Lemma public_declared m n sym : public m n sym -> declared m n sym.
Proof.
  intros [Hm Hh]. split; [done|]. intros E. unfold is_hidden in Hh. rewrite E in Hh.
  by rewrite bool_decide_eq_true_2, orb_true_r in Hh.
Qed.

(** A symbol of [m] whose name is [n] up to case. *)
Definition clash m n : Prop := exists n' x', declared m n' x' /\ name_without_case n' = name_without_case n.

Lemma find_case_clash t n :
  tab_ok t -> case_ok (map_of t) -> (forall n' x, declared (map_of t) n' x -> def x <> NULL) ->
  exists d st, find_case t n = Ret (d, st) /\ (d <> NULL <-> clash (map_of t) n).
Proof.
  intros Hok Hcase Hdef. destruct (decide (is_Some (map_of t !! name_without_case n))) as [Hs|Hs].
  - rewrite case_present in Hs by done. pose proof Hs as (n' & x' & Hd & E).
    destruct (find_case_declared t n n' x' Hok Hcase Hd E) as [st Hrun]. exists (def x'), st. split; [done|].
    split; [done|]. intros _. by eapply Hdef.
  - rewrite case_present in Hs by done. exists NULL, SYM_NONE. split; [|by split].
    apply find_case_absent; [done..|]. intros n' x' Hd E. apply Hs. eauto.
Qed.

Lemma can_merge_spec dst src :
  tab_ok dst -> tab_ok src -> case_ok (map_of dst) -> (forall n x, declared (map_of dst) n x -> def x <> NULL) ->
  exists b, symtab_can_merge_public dst src = Ret b /\
    (b = true <-> forall n x, public (map_of src) n x -> ~ clash (map_of dst) n).
Proof.
  intros Hd Hs Hcase Hdef. unfold symtab_can_merge_public, each_symbol. rewrite each_elems by done.
  assert (exists stop, fold_until (fun sym (_ : unit) =>
       if is_hidden sym then Ret (false, tt)
       else '(d, _) ← find_case dst (name sym); Ret (negb (d =? NULL), tt)) (elems src) tt = Ret (stop, tt) /\
     (stop = false <-> forall sym, sym ∈ elems src -> is_hidden sym = false -> ~ clash (map_of dst) (name sym)))
    as (stop & Hrun & Hspec).
  { induction (elems src) as [|sym l IH].
    { exists false. split; [done|]. split; [|done]. intros _ sym Hin. by apply elem_of_nil in Hin. }
    destruct IH as (stop & Hrun & Hspec). cbn [fold_until]. destruct (is_hidden sym) eqn:Hh; cbn [mbind outcome_bind].
    { exists stop. split; [done|]. rewrite Hspec. split.
      - intros Hl y [->|Hy]%elem_of_cons Hyh; [congruence|by apply Hl].
      - intros Hl y Hy. apply Hl. by right. }
    destruct (find_case_clash dst (name sym) Hd Hcase Hdef) as (d & st & -> & Hclash). cbn [mbind outcome_bind].
    destruct (Z.eqb_spec d NULL) as [E|E]; cbn [negb].
    - exists stop. split; [done|]. rewrite Hspec. split.
      + intros Hl y [->|Hy]%elem_of_cons Hyh; [|by apply Hl]. rewrite <- Hclash. by intros ?.
      + intros Hl y Hy. apply Hl. by right.
    - exists true. split; [done|]. split; [done|]. intros Hl. exfalso. apply (Hl sym); [left|done|by apply Hclash]. }
  exists (negb stop). rewrite Hrun. cbn. split; [done|]. rewrite negb_true_iff, Hspec. split.
  - intros Hl n x [Hx Hh]. apply map_of_lookup in Hx as [Hx <-]; [|done]. by apply Hl.
  - intros Hl sym Hsym Hh. apply (Hl (name sym) sym). split; [|done]. by apply map_of_lookup.
Qed.

(** The copy that an addition makes of a symbol. *)
Definition added (sym : symbol_t) : symbol_t := mk_symbol (name sym) (def sym) (status sym) 0.

Lemma merge_loop l r dst :
  has_room r dst -> 2 * Z.of_nat (length l) <= r -> case_ok (map_of dst) ->
  (forall i j x y, l !! i = Some x -> l !! j = Some y -> is_hidden x = false -> is_hidden y = false ->
     name_without_case (name x) = name_without_case (name y) -> i = j) ->
  (forall sym, sym ∈ l -> is_hidden sym = false -> ~ clash (map_of dst) (name sym)) ->
  exists dst', fold_until (fun sym dst =>
       if is_hidden sym then Ret (false, dst)
       else '(dst, added) ← symtab_add fresh_buckets dst (name sym) (def sym) (status sym); Ret (negb added, dst))
       l dst = Ret (false, dst') /\ case_ok (map_of dst') /\
    (forall n x, declared (map_of dst') n x <->
       declared (map_of dst) n x \/ exists sym, sym ∈ l /\ is_hidden sym = false /\ n = name sym /\ x = added sym).
Proof.
  revert r dst. induction l as [|sym l IH]; intros r dst Hroom Hr Hcase Hdis Hfree.
  { exists dst. split; [done|]. split; [done|]. intros n x. split; [by left|]. intros [|(y & Hy & _)]; [done|].
    by apply elem_of_nil in Hy. }
  cbn [length] in Hr. cbn [fold_until].
  assert (forall i j x y, l !! i = Some x -> l !! j = Some y -> is_hidden x = false -> is_hidden y = false ->
     name_without_case (name x) = name_without_case (name y) -> i = j) as Hdis'.
  { intros i j x y Hi Hj Hx Hy E. by specialize (Hdis (S i) (S j) x y Hi Hj Hx Hy E) as [= ->]. }
  destruct (is_hidden sym) eqn:Hh; cbn [mbind outcome_bind].
  { destruct (IH r dst Hroom ltac:(lia) Hcase Hdis') as (dst' & Hrun & Hok & Hdec); [intros; apply Hfree; [by right|done]|].
    exists dst'. split; [done|]. split; [done|]. intros n x. rewrite Hdec. split; (intros [?|(y & Hy & Hyh & Hyr)]; [by left|right; exists y]).
    - split; [by right|done].
    - apply elem_of_cons in Hy as [->|Hy]; [congruence|done]. }
  assert (status sym <> SYM_NOCASE) as Hst.
  { intros E. unfold is_hidden in Hh. by rewrite E, bool_decide_eq_true_2, orb_true_r in Hh. }
  destruct (add_case r dst (name sym) (def sym) (status sym) Hroom ltac:(lia) Hcase Hst) as (t1 & b & -> & Hroom1 & Hcase1 & Hb).
  destruct b; [|destruct Hb as (_ & Hclash); by destruct (Hfree sym (list_elem_of_here _ _) Hh)].
  destruct Hb as [_ Hdec1]. cbn [mbind outcome_bind negb].
  destruct (IH (r - 2) t1 Hroom1 ltac:(lia) Hcase1 Hdis') as (dst' & Hrun & Hok & Hdec).
  { intros y Hy Hyh (n' & x' & Hd & E). apply Hdec1 in Hd as [Hd|[-> ->]].
    - apply (Hfree y); [by right|done|]. by exists n', x'.
    - apply list_elem_of_lookup_1 in Hy as [i Hi]. by specialize (Hdis 0%nat (S i) sym y eq_refl Hi Hh Hyh E). }
  exists dst'. split; [done|]. split; [done|]. intros n x. rewrite Hdec, Hdec1. split.
  - intros [[?|[-> ->]]|(y & Hy & Hyr)]; [by left| |].
    + right. exists sym. split; [left|done].
    + right. exists y. split; [by right|done].
  - intros [?|(y & Hy & Hyh & -> & ->)]; [by left; left|]. apply elem_of_cons in Hy as [->|Hy].
    + left. by right.
    + right. by exists y.
Qed.

Lemma init_room size : 0 <= size <= 2 ^ 50 ->
  has_room (2 ^ 50) (tab_init fresh_buckets size : symtab_t) /\ map_of (tab_init fresh_buckets size) = ∅.
Proof.
  intros Hsize. destruct (tab_init_ok (T := symbol_t) fresh_buckets size fresh_length Hsize) as (Hok & _ & _ & Hcnt & Hm).
  split; [split; [done|lia|lia]|]. apply as_map_init.
Qed.

(** A copy has the same symbols. *)
Lemma dup_map t :
  tab_ok t -> count (contents t) <= 2 ^ 49 ->
  exists t', symtab_dup fresh_buckets t = Ret t' /\ tab_ok t' /\ map_of t' = map_of t.
Proof.
  intros Hok Hcnt. unfold symtab_dup, each_symbol. rewrite each_elems by done.
  assert (Z.of_nat (length (elems t)) = count (contents t)) as Hlen.
  { rewrite tab_count, elems_length by done. unfold ptrs. by rewrite length_fmap. }
  destruct (init_room (count (contents t))) as [Hroom Hempty]; [lia|].
  set (t0 := tab_init fresh_buckets (count (contents t))) in *.
  assert (forall (l : list symbol_t) r (u : symtab_t), has_room r u -> Z.of_nat (length l) <= r -> NoDup (name <$> l) ->
    (forall sym, sym ∈ l -> map_of u !! name sym = None) ->
    exists u', fold_until (fun sym v => '(v, _) ← (let '(v, p) := tab_alloc v sym in tab_put fresh_buckets v p); Ret (false, v))
        l u = Ret (false, u') /\ tab_ok u' /\
      forall k x, map_of u' !! k = Some x <-> map_of u !! k = Some x \/ (x ∈ l /\ name x = k)) as Hloop.
  { induction l as [|sym l IH]; intros r u Hr Hl Hnd Hnew.
    { exists u. split; [done|]. split; [apply Hr|]. intros k x. split; [by left|]. intros [|[Hx _]]; [done|].
      by apply elem_of_nil in Hx. }
    cbn in Hnd. apply NoDup_cons in Hnd as [Hsym Hnd]. cbn [length] in Hl.
    destruct (tab_put_map fresh_buckets r u sym fresh_length Hr ltac:(lia)) as (n1 & Hrun1 & Hr1 & Hmap1 & _).
    { apply Hnew. left. }
    assert (forall k, map_of n1 !! k = <[name sym := sym]> (map_of u) !! k) as Hmap1' by (intros k; by rewrite Hmap1).
    destruct (IH (r - 1) n1 Hr1 ltac:(lia) Hnd) as (n2 & Hrun2 & Hok2 & Hmap2).
    { intros y Hy. rewrite Hmap1', lookup_insert_ne; [apply Hnew; by right|]. intros E. apply Hsym. rewrite E.
      by apply list_elem_of_fmap_2. }
    exists n2. cbn [fold_until]. unfold tab_alloc in Hrun1 |- *. cbn [fst snd] in Hrun1. rewrite Hrun1.
    cbn [mbind outcome_bind]. split; [done|]. split; [done|]. intros k x. rewrite Hmap2, Hmap1', lookup_insert_Some, elem_of_cons.
    split; [intros [[[<- <-]|[? ?]]|[? ?]]; auto|]. intros [Hk|[[->|Hx] <-]]; [left; right|by left; left|by right].
    split; [|done]. intros <-. by rewrite Hnew in Hk by left. }
  destruct (Hloop (elems t) _ t0 Hroom ltac:(lia) (elems_nodup t Hok)) as (t' & -> & Hok' & Hmap).
  { intros sym _. by rewrite Hempty. }
  exists t'. split; [done|]. split; [done|]. apply map_eq. intros k. apply option_eq. intros x.
  transitivity (x ∈ elems t /\ name x = k); [|symmetry; by apply map_of_lookup].
  rewrite (Hmap k x), Hempty. split; [|by right]. intros [E|?]; [|done]. by rewrite lookup_empty in E.
Qed.
End maps.

(** ** Properties *)

(** Names that differ by case only are the same for a table made by additions.  Looking a
    name up without case gives the definition of the symbol that has the name up to case, or
    null.  A name can be added exactly if no symbol has it up to case; the table then has it
    besides its other symbols, and is unchanged if the name is refused. *)
Theorem symtab_case_insensitive `{CStrings} fresh_buckets t n d st r :
  (forall n, length (fresh_buckets n) = Z.to_nat n) ->
  has_room r t -> 1 < r -> case_ok (as_map t) -> st <> SYM_NOCASE ->
  (forall n' x, declared (as_map t) n' x -> name_without_case n' = name_without_case n ->
     exists st', find_case t n = Ret (def x, st')) /\
  (~ clash (as_map t) n -> find_case t n = Ret (NULL, SYM_NONE)) /\
  exists t' b, symtab_add fresh_buckets t n d st = Ret (t', b) /\ case_ok (as_map t') /\
    (b = true <-> ~ clash (as_map t) n) /\
    (b = false -> as_map t' = as_map t) /\
    (b = true -> forall n' x, declared (as_map t') n' x <->
       declared (as_map t) n' x \/ (n' = n /\ x = mk_symbol n d st 0)).
Proof.
  intros Hfresh Hroom Hr Hcase Hst. pose proof (room_ok _ _ Hroom) as Hok. split; [|split].
  - intros n' x Hd E. by eapply find_case_declared.
  - intros Hno. apply find_case_absent; [done..|]. intros n' x' Hd E. apply Hno. by exists n', x'.
  - destruct (add_case fresh_buckets Hfresh r t n d st Hroom Hr Hcase Hst) as (t' & b & Hrun & _ & Hcase' & Hb).
    exists t', b. split; [done|]. split; [done|]. destruct b; destruct Hb as [Hb1 Hb2].
    + split_and!; [|done|done]. split; [|done]. intros _ (n' & x' & Hd & E). by eapply Hb1.
    + split_and!; [|done|done]. split; [done|]. intros Hno. by destruct Hno.
Qed.

(** C25: the status of a name after a conditional.  The tables of the branches are merged into
    a new one, which is consolidated with the number of branches: a name of an outer scope
    that no branch changed has no entry, one that some branch consumed is consumed, and
    another one is defined exactly if every branch defined it or it was defined before. *)
Theorem branches_merge_flow `{CStrings} fresh_buckets node t branches tabs parents r :
  (forall n, length (fresh_buckets n) = Z.to_nat n) ->
  scope_symtab node = Some t -> as_map t = ∅ -> frozen node = false ->
  Forall2 (fun b tab => scope_symtab b = Some tab /\ tab_ok tab) branches tabs ->
  has_room r t -> total_count tabs <= r -> Z.of_nat (length branches) < 2 ^ 64 ->
  Forall scope_ok parents -> parents <> [] ->
  (forall n : Z, Forall (fun tab => flow_entry (as_map tab !! n)) tabs) ->
  exists node' t',
    (node ← inherit_branches fresh_buckets node branches;
     ast_consolidate_branches (node :: parents) (Z.of_nat (length branches))) = Ret (node' :: parents) /\
    scope_symtab node' = Some t' /\
    forall n : Z, status <$> as_map t' !! n =
      branch_status (status_around parents n) ((fun tab => as_map tab !! n) <$> tabs).
Proof.
  intros Hfresh Hnode Hempty Hfr Hbs Hroom Hr Hlen Hpar Hne Hflow.
  assert (length branches = length tabs) as Hlen' by by eapply Forall2_length.
  destruct (inherit_branches_map fresh_buckets Hfresh branches tabs node t r Hbs Hnode Hfr Hroom Hr)
    as (node1 & t1 & -> & Hnode1 & Hfr1 & Hok1 & Hmap1).
  assert (forall n : Z, merged ((fun tab => as_map tab !! n) <$> tabs) (as_map t1 !! n)) as Hmerged.
  { intros n. rewrite Hmap1, Hempty, lookup_empty. apply merge_entries_spec.
    - apply Forall_fmap. exact (Hflow n).
    - rewrite length_fmap. lia. }
  destruct (consolidate_map node1 parents t1 (Z.of_nat (length branches)) Hnode1 Hfr1 Hok1 Hpar Hne)
    as (t2 & Hrun2 & _ & Hmap2).
  { intros n sym Hsym Hst. specialize (Hmerged n). rewrite Hsym in Hmerged. destruct Hmerged as (_ & _ & Hm).
    pose proof (definitions_le ((fun tab => as_map tab !! n) <$> tabs)) as Hle. rewrite length_fmap in Hle.
    destruct (last_consumed _) as [st|]; [|lia]. destruct Hm as [<- Hc]. by rewrite Hst in Hc. }
  cbn [mbind outcome_bind]. rewrite Hrun2. eexists _, t2. split; [done|]. split; [done|]. intros n.
  rewrite Hmap2. specialize (Hmerged n). unfold branch_status. destruct (as_map t1 !! n) as [x|]; cbn in Hmerged |- *.
  - destruct Hmerged as (Hn & _ & Hm). rewrite decide_False by done. f_equal. unfold consolidated.
    destruct (last_consumed _) as [st|]; destruct Hm as [Hst Hm].
    + rewrite Hst, decide_False; [done|]. intros ->. done.
    + rewrite (decide_True (P := status x = SYM_UNDEFINED)) by done.
      assert (branch_count x = Z.of_nat (length branches) <-> Forall defines ((fun tab => as_map tab !! n) <$> tabs)) as Hall.
      { rewrite <- definitions_all, length_fmap, Hm, Hlen'. apply Nat2Z.inj_iff. }
      destruct (decide (_ \/ branch_count x = _)) as [Hd|Hd], (decide (_ \/ Forall defines _)) as [Hd'|Hd']; tauto || done.
  - by rewrite decide_True.
Qed.

(** [symtab_can_merge_public] is true exactly if no public symbol of the source has the
    name of a symbol of the destination up to case, and then [symtab_merge_public] succeeds
    and the destination has its own symbols and the public ones of the source. *)
Theorem merge_public_exact `{CStrings} fresh_buckets dst src r :
  (forall n, length (fresh_buckets n) = Z.to_nat n) ->
  has_room r dst -> 2 * count (contents src) <= r -> tab_ok src ->
  case_ok (as_map dst) -> case_ok (as_map src) ->
  (forall n x, declared (as_map dst) n x -> def x <> NULL) ->
  exists b, symtab_can_merge_public dst src = Ret b /\
    (b = true <-> forall n x, public (as_map src) n x -> ~ clash (as_map dst) n) /\
    (b = true -> exists dst', symtab_merge_public fresh_buckets dst src = Ret (dst', true) /\ case_ok (as_map dst') /\
       forall n x, declared (as_map dst') n x <->
         declared (as_map dst) n x \/ exists y, public (as_map src) n y /\ x = added y).
Proof.
  intros Hfresh Hroom Hr Hsrc Hcase Hcase' Hdef. pose proof (room_ok _ _ Hroom) as Hdst.
  destruct (can_merge_spec dst src Hdst Hsrc Hcase Hdef) as (b & Hrun & Hb). exists b. split; [done|]. split; [done|].
  intros Htrue. pose proof (proj1 Hb Htrue) as Hfree.
  assert (Z.of_nat (length (elems src)) = count (contents src)) as Hlen.
  { rewrite tab_count, elems_length by done. unfold ptrs. by rewrite length_fmap. }
  assert (forall sym, sym ∈ elems src -> is_hidden sym = false -> public (as_map src) (name sym) sym) as Hpub.
  { intros sym Hsym Hh. split; [|done]. by apply map_of_lookup. }
  destruct (merge_loop fresh_buckets Hfresh (elems src) r dst Hroom ltac:(lia) Hcase) as (dst' & Hmerge & Hok & Hdec).
  - intros i j x y Hi Hj Hx Hy E.
    assert (name x = name y) as Ename.
    { eapply (case_unique _ Hcase'); [apply public_declared, Hpub, Hx|apply public_declared, Hpub, Hy|exact E];
        by eapply list_elem_of_lookup_2. }
    pose proof (elems_nodup src Hsrc) as Hnd. eapply NoDup_lookup; [exact Hnd| |].
    + rewrite list_lookup_fmap, Hi. done.
    + rewrite list_lookup_fmap, Hj. cbn. by rewrite Ename.
  - intros sym Hsym Hh. by eapply Hfree, Hpub.
  - exists dst'. unfold symtab_merge_public, each_symbol. rewrite each_elems, Hmerge by done. split; [done|].
    split; [done|]. intros n x. rewrite Hdec. split; (intros [?|Hy]; [by left|right]).
    + destruct Hy as (y & Hy & Hh & -> & ->). exists y. split; [by apply Hpub|done].
    + destruct Hy as (y & [Hy Hh] & ->). apply map_of_lookup in Hy as [Hy <-]; [|done]. by exists y.
Qed.

(** *** Witnesses *)

Section samples.
#[local] Existing Instance coded_strings.

Definition with_add (t : symtab_t) (n d : Z) : symtab_t :=
  match symtab_add null_buckets t n d SYM_DEFINED with Ret (t', _) => t' | _ => t end.

Definition with_status (n : Z) (st : sym_status_t) (t : symtab_t) : symtab_t :=
  match symtab_set_status null_buckets t n st with Ret t' => t' | _ => t end.

Lemma new_room : has_room (2 ^ 50) (symtab_new null_buckets) /\ as_map (symtab_new null_buckets) = ∅.
Proof. by apply (init_room null_buckets null_buckets_length 8). Qed.

Lemma with_add_ok t n d r :
  has_room r t -> 1 < r -> case_ok (as_map t) -> ~ clash (as_map t) n ->
  has_room (r - 2) (with_add t n d) /\ case_ok (as_map (with_add t n d)) /\
  (forall n' x, declared (as_map (with_add t n d)) n' x <->
     declared (as_map t) n' x \/ (n' = n /\ x = mk_symbol n d SYM_DEFINED 0)).
Proof.
  intros Hroom Hr Hcase Hno. unfold with_add.
  destruct (add_case null_buckets null_buckets_length r t n d SYM_DEFINED Hroom Hr Hcase ltac:(done))
    as (t' & b & -> & Hroom' & Hcase' & Hb).
  destruct b; destruct Hb as [Hb1 Hb2]; [done|]. by destruct Hno.
Qed.

Lemma no_clash_empty n : ~ clash ∅ n.
Proof. intros (n' & x & [Hx _] & _). by rewrite lookup_empty in Hx. Qed.

Definition foo_table : symtab_t := with_add (symtab_new null_buckets) (intern "Foo") 16.

Lemma foo_table_ok :
  has_room (2 ^ 50 - 2) foo_table /\ case_ok (as_map foo_table) /\
  (forall n x, declared (as_map foo_table) n x <-> n = intern "Foo" /\ x = mk_symbol (intern "Foo") 16 SYM_DEFINED 0).
Proof.
  destruct new_room as [Hroom Hempty].
  destruct (with_add_ok (symtab_new null_buckets) (intern "Foo") 16 (2 ^ 50) Hroom ltac:(lia)) as (Hroom' & Hcase & Hdec).
  - rewrite Hempty. apply case_ok_empty.
  - rewrite Hempty. apply no_clash_empty.
  - split; [exact Hroom'|]. split; [exact Hcase|]. intros n x. unfold foo_table. rewrite Hdec, Hempty.
    split; [intros [[E _]|?]; [by rewrite lookup_empty in E|done]|by right].
Qed.

Lemma symtab_case_insensitive_witness :
  case_ok (as_map foo_table) /\
  (exists st, find_case foo_table (intern "FOO") = Ret (16, st)) /\
  exists t, symtab_add null_buckets foo_table (intern "FOO") 32 SYM_DEFINED = Ret (t, false) /\
    as_map t = as_map foo_table.
Proof.
  destruct foo_table_ok as (Hroom & Hcase & Hdec). split; [exact Hcase|].
  assert (name_without_case (intern "Foo") = name_without_case (intern "FOO")) as E by (vm_compute; reflexivity).
  assert (declared (as_map foo_table) (intern "Foo") (mk_symbol (intern "Foo") 16 SYM_DEFINED 0)) as Hd
    by (apply Hdec; split; reflexivity).
  destruct (symtab_case_insensitive null_buckets foo_table (intern "FOO") 32 SYM_DEFINED (2 ^ 50 - 2))
    as (Hfind & _ & t & b & Hrun & _ & Hb & Hsame & _).
  - exact null_buckets_length.
  - exact Hroom.
  - lia.
  - exact Hcase.
  - discriminate.
  - split; [exact (Hfind _ _ Hd E)|]. exists t.
    assert (b = false) as Eb.
    { destruct b; [|reflexivity]. destruct (proj1 Hb eq_refl). exists (intern "Foo"), (mk_symbol (intern "Foo") 16 SYM_DEFINED 0).
      split; [exact Hd|exact E]. }
    rewrite Eb in Hrun. split; [exact Hrun|exact (Hsame Eb)].
Defined.

(** A conditional of two branches: both define [x], the second consumes [y]. *)
Definition then_table : symtab_t := with_status (intern "x") SYM_DEFINED (symtab_new null_buckets).
Definition else_table : symtab_t :=
  with_status (intern "y") SYM_CONSUMED (with_status (intern "x") SYM_DEFINED (symtab_new null_buckets)).

Lemma with_status_new n st r t :
  has_room r t -> 0 < r -> as_map t !! n = None ->
  has_room (r - 1) (with_status n st t) /\ as_map (with_status n st t) = <[n := mk_symbol n NULL st 0]> (as_map t).
Proof.
  intros Hroom Hr Hn. unfold with_status.
  destruct (set_status_map null_buckets null_buckets_length r t n st Hroom Hr) as (t' & -> & Hroom' & ->). by rewrite Hn.
Qed.

Lemma then_table_ok :
  has_room (2 ^ 50 - 1) then_table /\
  as_map then_table = <[intern "x" := mk_symbol (intern "x") NULL SYM_DEFINED 0]> ∅.
Proof.
  destruct new_room as [Hroom Hempty]. unfold then_table.
  destruct (with_status_new (intern "x") SYM_DEFINED (2 ^ 50) _ Hroom ltac:(lia)) as [Hroom' Hmap].
  - rewrite Hempty. apply lookup_empty.
  - rewrite Hempty in Hmap. split; [exact Hroom'|exact Hmap].
Qed.

Lemma else_table_ok :
  tab_ok else_table /\
  as_map else_table = <[intern "y" := mk_symbol (intern "y") NULL SYM_CONSUMED 0]>
    (<[intern "x" := mk_symbol (intern "x") NULL SYM_DEFINED 0]> ∅).
Proof.
  destruct then_table_ok as [Hroom Hmap]. unfold else_table. fold then_table.
  destruct (with_status_new (intern "y") SYM_CONSUMED (2 ^ 50 - 1) _ Hroom ltac:(lia)) as [Hroom' Hmap'].
  - rewrite Hmap, lookup_insert_ne; [apply lookup_empty|]. vm_compute. discriminate.
  - rewrite Hmap in Hmap'. split; [apply Hroom'|exact Hmap'].
Qed.

Definition node_of (t : symtab_t) : scope_t := mk_scope TK_SEQ (Some t) false.

Lemma flow_entry_new (m : gmap (tkey (T := symbol_t)) symbol_t) (k n : Z) st :
  match st with SYM_DEFINED | SYM_CONSUMED => True | _ => False end ->
  flow_entry (m !! n) -> flow_entry (<[k := mk_symbol k NULL st 0]> m !! n).
Proof.
  intros Hst Hm. destruct (decide (k = n)) as [->|Hne]; [|by rewrite lookup_insert_ne].
  rewrite lookup_insert_eq. unfold flow_entry. cbn. by destruct st.
Qed.

Lemma branches_merge_flow_witness :
  exists node' t',
    (node ← inherit_branches null_buckets (node_of (symtab_new null_buckets)) [node_of then_table; node_of else_table];
     ast_consolidate_branches [node; node_of (symtab_new null_buckets)] 2) =
      Ret [node'; node_of (symtab_new null_buckets)] /\
    scope_symtab node' = Some t' /\
    status <$> as_map t' !! intern "x" = Some SYM_DEFINED /\
    status <$> as_map t' !! intern "y" = Some SYM_CONSUMED /\
    status <$> as_map t' !! intern "z" = None.
Proof.
  destruct new_room as [Hroom Hempty]. destruct then_table_ok as [Hthen Hthen_map], else_table_ok as [Helse Helse_map].
  destruct (branches_merge_flow null_buckets (node_of (symtab_new null_buckets)) (symtab_new null_buckets)
    [node_of then_table; node_of else_table] [then_table; else_table] [node_of (symtab_new null_buckets)] (2 ^ 50))
    as (node' & t' & Hrun & Hnode' & Hstatus).
  - exact null_buckets_length.
  - reflexivity.
  - exact Hempty.
  - reflexivity.
  - constructor; [split; [reflexivity|exact (room_ok _ _ Hthen)]|].
    constructor; [split; [reflexivity|exact Helse]|constructor].
  - exact Hroom.
  - apply Z.leb_le. vm_compute. reflexivity.
  - reflexivity.
  - constructor; [exact (room_ok _ _ Hroom)|constructor].
  - discriminate.
  - intros n. constructor; [|constructor; [|constructor]].
    + rewrite Hthen_map. apply (flow_entry_new ∅ (intern "x") n SYM_DEFINED I). rewrite lookup_empty. exact I.
    + rewrite Helse_map. apply (flow_entry_new _ (intern "y") n SYM_CONSUMED I).
      apply (flow_entry_new ∅ (intern "x") n SYM_DEFINED I). rewrite lookup_empty. exact I.
  - exists node', t'. split; [exact Hrun|]. split; [exact Hnode'|].
    rewrite !Hstatus. split; [vm_compute; reflexivity|]. split; vm_compute; reflexivity.
Defined.

Definition baz_table : symtab_t := with_add (symtab_new null_buckets) (intern "Baz") 48.

Lemma merge_public_exact_witness :
  symtab_can_merge_public foo_table baz_table = Ret true /\
  exists dst', symtab_merge_public null_buckets foo_table baz_table = Ret (dst', true) /\
    declared (as_map dst') (intern "Baz") (mk_symbol (intern "Baz") 48 SYM_DEFINED 0).
Proof.
  destruct foo_table_ok as (Hroom & Hcase & Hdec). destruct new_room as [Hroom0 Hempty].
  destruct (with_add_ok (symtab_new null_buckets) (intern "Baz") 48 (2 ^ 50) Hroom0 ltac:(lia)) as (Hroom' & Hcase' & Hdec').
  { rewrite Hempty. apply case_ok_empty. }
  { rewrite Hempty. apply no_clash_empty. }
  destruct (merge_public_exact null_buckets foo_table baz_table (2 ^ 50 - 2)) as (b & Hcan & _ & Hmerge).
  - exact null_buckets_length.
  - exact Hroom.
  - apply Z.leb_le. vm_compute. reflexivity.
  - apply Hroom'.
  - exact Hcase.
  - exact Hcase'.
  - intros n x Hd. apply Hdec in Hd as [_ ->]. discriminate.
  - assert (symtab_can_merge_public foo_table baz_table = Ret true) as E by (vm_compute; reflexivity).
    split; [exact E|]. assert (b = true) as Eb by congruence.
    destruct (Hmerge Eb) as (dst' & Hrun & _ & Hd). exists dst'. split; [exact Hrun|]. apply Hd. right.
    exists (mk_symbol (intern "Baz") 48 SYM_DEFINED 0). split; [|reflexivity].
    split; [|vm_compute; reflexivity].
    apply (proj1 (proj2 (Hdec' _ _) (or_intror (conj eq_refl eq_refl)))).
Defined.
End samples.
