(* ===== verification/SymUses.v ===== *)
(** * Users of the symbol tables: [ffi_get_decl] of [src/libponyc/pkg/ifdef.c] and
    [src/libponyc/pass/import.c]

    [ffi_get_decl] caches the declarations of foreign functions in the symbol table of the
    condition around the call; [import_use] adds the public types of a package to the table of
    a module. *)
From S2P Require Import Prelude Token Ast Fun Hash HashOps HashTab Id BuildFlagSet Ifdef Symtab.
From stdpp Require Import gmap fin_maps strings.
From Stdlib Require Import Ascii.
Local Open Scope Z_scope.

(** ** Foreign functions *)

Section ffi.
Context `{CStrings} `{TokenNames} (fresh_buckets : Z -> list hashmap_entry_t) (fresh_text : Z -> list ascii)
  (uninit : buildflagset_t).

(** The address of a declaration: those of [Ifdef] count from 0. *)
Definition decl_ptr (d : option Z) : Z := match d with Some i => i + 1 | None => NULL end.

(** The symbol table, the declaration unless there was an error, and the error that is
    reported. *)
Definition ffi_get_decl (fuel : nat) (t package : ast) (ifdef_cond : option ast) (symtab : tab_t symbol_t) (opt : build_t)
    : outcome (tab_t symbol_t * option Z * option ffi_error) :=
  ffi_name ← child_name t;
  '(decl, st) ← symtab_find symtab ffi_name;
  if decide (st = SYM_ERROR) then Ret (symtab, None, None)
  else if decide (st = SYM_NONE) then
    if negb (decl =? NULL) then Abort
    else
      r ← find_ffi_decl fresh_buckets fresh_text uninit fuel t package ifdef_cond opt;
      match r with
      | inl e => '(symtab, _) ← symtab_add fresh_buckets symtab ffi_name NULL SYM_ERROR; Ret (symtab, None, Some e)
      | inr d =>
          '(symtab, _) ← symtab_add fresh_buckets symtab ffi_name (decl_ptr d) SYM_FFIDECL;
          Ret (symtab, Some (decl_ptr d), None)
      end
  else Ret (symtab, Some decl, None).

(** The answer without the cache. *)
Definition answer (r : ffi_error + option Z) : option Z := match r with inl _ => None | inr d => Some (decl_ptr d) end.

(** The entry that caches an answer. *)
Definition cached (r : ffi_error + option Z) (x : symbol_t) : Prop :=
  match r with
  | inl _ => status x = SYM_ERROR
  | inr d => status x = SYM_FFIDECL /\ def x = decl_ptr d
  end.
End ffi.

(** ** Imports *)

Inductive import_error :=
| Clashes_with_builtin (existing : Z)
| Builtin_here (def : Z)
| Cannot_use_without_alias
| Existing_clashes (existing : Z)
| Clash_trying_to_use (def : Z).

Section import.
Context `{CStrings} (fresh_buckets : Z -> list hashmap_entry_t).

Definition not_imported (sym : symbol_t) : bool :=
  is_name_private (chars (name sym)) || is_name_ffi (chars (name sym)) ||
  bool_decide (status sym = SYM_NOCASE) || bool_decide (text (name sym) = "Main"%string).

Record import_state := mk_import { mod_symtab : tab_t symbol_t; ok : bool; import_errors : list import_error }.

(** The body of the loop over the symbols of the package that is used. *)
Definition import_body (pkg_symtab : tab_t symbol_t) (is_builtin : bool) (sym : symbol_t) (s : import_state)
    : outcome (bool * import_state) :=
  if not_imported sym then Ret (false, s)
  else
    '(existing, _) ← find_case pkg_symtab (name sym);
    '(existing, _) ← (if existing =? NULL then find_case (mod_symtab s) (name sym) else Ret (existing, SYM_NONE));
    if negb (existing =? NULL) then
      let errors :=
        if is_builtin then [Clashes_with_builtin existing; Builtin_here (def sym)]
        else (if ok s then [Cannot_use_without_alias] else []) ++ [Existing_clashes existing; Clash_trying_to_use (def sym)] in
      Ret (false, mk_import (mod_symtab s) false (import_errors s ++ errors))
    else
      '(m, _) ← symtab_add fresh_buckets (mod_symtab s) (name sym) (def sym) (status sym);
      Ret (false, mk_import m (ok s) (import_errors s)).

(** [import_use] for a [use] command that imports: the tables of its package, of its module
    and of the package it names, [uri]. *)
Definition import_use (pkg_symtab mod_symtab src_symtab : tab_t symbol_t) (uri : Z) (errors : list import_error)
    : outcome import_state :=
  let is_builtin := bool_decide (text uri = "builtin"%string) in
  '(_, s) ← each_symbol src_symtab (import_body pkg_symtab is_builtin) (mk_import mod_symtab true errors);
  Ret s.
End import.

(** ** The cache of declarations *)

Section ffi_cache.
Context `{CStrings} `{TokenNames} (fresh_buckets : Z -> list hashmap_entry_t) (fresh_text : Z -> list ascii)
  (uninit : buildflagset_t) (package : ast) (ifdef_cond : option ast) (opt : build_t).
Hypothesis fresh_length : forall n, length (fresh_buckets n) = Z.to_nat n.
Context (answers : Z -> ffi_error + option Z).

(** The answers that [find_ffi_decl] gives in the condition of the cache. *)
Definition answers_are (n : Z) : Prop :=
  forall t, child_name t = Ret n -> Prelude.eventually (fun fuel =>
    find_ffi_decl fresh_buckets fresh_text uninit fuel t package ifdef_cond opt = Ret (answers n)).

(** The table holds answers for the names it has. *)
Record cache_ok (symtab : tab_t symbol_t) : Prop := {
  cache_case : case_ok (as_map symtab);
  cache_answers n x : declared (as_map symtab) n x -> cached (answers n) x
}.

Lemma cache_find symtab n x :
  tab_ok symtab -> cache_ok symtab -> declared (as_map symtab) n x ->
  symtab_find symtab n = Ret (def x, status x) /\ cached (answers n) x.
Proof.
  intros Hok Hcache [Hx Hst]. split; [|by apply (cache_answers _ Hcache)].
  rewrite symtab_find_map by done. by rewrite Hx, decide_False.
Qed.

(** A table without an entry for a name that is no caseless variant. *)
Lemma cache_absent symtab n :
  cache_ok symtab -> (forall x, ~ declared (as_map symtab) n x) ->
  (forall n' x, declared (as_map symtab) n' x -> n' <> n -> name_without_case n' <> n) ->
  as_map symtab !! n = None.
Proof.
  intros Hcache Hno Hvar. destruct (as_map symtab !! n) as [x|] eqn:Hx; [|done]. exfalso.
  destruct (decide (status x = SYM_NOCASE)) as [E|E]; [|by apply (Hno x)].
  destruct (case_variant _ (cache_case _ Hcache) n x Hx E) as (n' & x' & Hd & Hn'). apply (Hvar n' x' Hd); [|done].
  intros ->. by apply (Hno x').
Qed.

(** Recording an answer, in a table that may refuse it. *)
Lemma cache_record symtab n d st r :
  has_room r symtab -> 1 < r -> cache_ok symtab -> st <> SYM_NOCASE ->
  cached (answers n) (mk_symbol n d st 0) ->
  exists symtab' b, symtab_add fresh_buckets symtab n d st = Ret (symtab', b) /\ has_room (r - 2) symtab' /\ cache_ok symtab'.
Proof using fresh_length.
  intros Hroom Hr Hcache Hst Hc.
  destruct (add_case fresh_buckets fresh_length r symtab n d st Hroom Hr (cache_case _ Hcache) Hst)
    as (symtab' & b & Hrun & Hroom' & Hcase & Hb).
  exists symtab', b. split; [done|]. split; [done|]. split; [done|]. intros n' x Hd. destruct b.
  - apply Hb in Hd as [Hd|[-> ->]]; [by apply (cache_answers _ Hcache)|done].
  - destruct Hb as [Hsame _]. rewrite Hsame in Hd. by apply (cache_answers _ Hcache).
Qed.

Lemma ffi_get_decl_known fuel t n x symtab :
  child_name t = Ret n -> tab_ok symtab -> cache_ok symtab -> declared (as_map symtab) n x ->
  ffi_get_decl fresh_buckets fresh_text uninit fuel t package ifdef_cond symtab opt = Ret (symtab, answer (answers n), None).
Proof.
  intros Ht Hok Hcache Hd. destruct (cache_find symtab n x Hok Hcache Hd) as [Hfind Hc].
  unfold ffi_get_decl. rewrite Ht. cbn [mbind outcome_bind]. rewrite Hfind. cbn [mbind outcome_bind].
  unfold cached, answer in *. destruct (answers n) as [e|d].
  - by rewrite decide_True.
  - destruct Hc as [Hst Hdef]. by rewrite Hst, Hdef.
Qed.
End ffi_cache.

(** ** Imports *)

Section import_loop.
Context `{CStrings} (fresh_buckets : Z -> list hashmap_entry_t).
Hypothesis fresh_length : forall n, length (fresh_buckets n) = Z.to_nat n.
Abbreviation map_of := (as_map (T := symbol_t)).

Definition have_defs (t : tab_t symbol_t) : Prop := forall n x, declared (map_of t) n x -> def x <> NULL.

(** The symbols that the package offers. *)
Definition imported (t : tab_t symbol_t) (n : Z) (sym : symbol_t) : Prop :=
  as_map t !! n = Some sym /\ not_imported sym = false.

Lemma imported_status sym : not_imported sym = false -> status sym <> SYM_NOCASE.
Proof. intros Hh E. unfold not_imported in Hh. by rewrite E, bool_decide_eq_true_2, orb_true_r in Hh. Qed.

(** One symbol: it is added, or there is an error. *)
Lemma import_body_run pkg b sym s r :
  tab_ok pkg -> case_ok (map_of pkg) -> have_defs pkg ->
  has_room r (mod_symtab s) -> 1 < r -> case_ok (map_of (mod_symtab s)) -> have_defs (mod_symtab s) ->
  not_imported sym = false -> def sym <> NULL ->
  exists s', import_body fresh_buckets pkg b sym s = Ret (false, s') /\
    (((clash (map_of pkg) (name sym) \/ clash (map_of (mod_symtab s)) (name sym)) /\
       ok s' = false /\ mod_symtab s' = mod_symtab s) \/
     (~ clash (map_of pkg) (name sym) /\ ~ clash (map_of (mod_symtab s)) (name sym) /\ ok s' = ok s /\
       import_errors s' = import_errors s /\ has_room (r - 2) (mod_symtab s') /\ case_ok (map_of (mod_symtab s')) /\
       have_defs (mod_symtab s') /\
       forall n x, declared (map_of (mod_symtab s')) n x <->
         declared (map_of (mod_symtab s)) n x \/ (n = name sym /\ x = added sym))).
Proof using fresh_length.
  intros Hpkg Hpcase Hpdef Hroom Hr Hcase Hdefs Hh Hdef. unfold import_body. rewrite Hh.
  destruct (find_case_clash pkg (name sym) Hpkg Hpcase Hpdef) as (d & st & -> & Hd). cbn [mbind outcome_bind].
  destruct (Z.eqb_spec d NULL) as [->|Hne]; cbn [mbind outcome_bind].
  2: { rewrite (proj2 (Z.eqb_neq d NULL) Hne). eexists. split; [done|]. left. cbn. tauto. }
  destruct (find_case_clash (mod_symtab s) (name sym) (room_ok _ _ Hroom) Hcase Hdefs) as (d' & st' & -> & Hd').
  cbn [mbind outcome_bind]. destruct (Z.eqb_spec d' NULL) as [->|Hne']; cbn [negb].
  2: { eexists. split; [done|]. left. cbn. tauto. }
  assert (~ clash (map_of (mod_symtab s)) (name sym)) as Hno by (rewrite <- Hd'; by intros ?).
  destruct (add_case fresh_buckets fresh_length r (mod_symtab s) (name sym) (def sym) (status sym) Hroom Hr Hcase
    (imported_status _ Hh)) as (t' & added_ok & -> & Hroom' & Hcase' & Hb).
  destruct added_ok; destruct Hb as [Hb1 Hb2]; [|by destruct Hno].
  cbn [mbind outcome_bind]. eexists. split; [done|]. right. cbn.
  split_and!; try done; [by rewrite <- Hd; intros ?|]. intros n x [Hx|[-> ->]]%Hb2; [by eapply Hdefs|done].
Qed.

(** The clashes of the other symbols stay the same, because the names of a package differ up
    to case. *)
Lemma clash_added m m' sym n :
  (forall n' x, declared m' n' x <-> declared m n' x \/ (n' = name sym /\ x = added sym)) ->
  name_without_case (name sym) <> name_without_case n -> clash m' n <-> clash m n.
Proof.
  intros Hm Hne. split.
  - intros (n' & x & [Hd|[-> ->]]%Hm & E); [by exists n', x|done].
  - intros (n' & x & Hd & E). exists n', x. split; [|done]. apply Hm. by left.
Qed.

Lemma import_loop_run pkg b l s r :
  tab_ok pkg -> case_ok (map_of pkg) -> have_defs pkg ->
  has_room r (mod_symtab s) -> 2 * Z.of_nat (length l) <= r -> case_ok (map_of (mod_symtab s)) ->
  have_defs (mod_symtab s) ->
  (forall sym, sym ∈ l -> not_imported sym = false -> def sym <> NULL) ->
  (forall i j x y, l !! i = Some x -> l !! j = Some y -> not_imported x = false -> not_imported y = false ->
     name_without_case (name x) = name_without_case (name y) -> i = j) ->
  let clean sym := ~ clash (map_of pkg) (name sym) /\ ~ clash (map_of (mod_symtab s)) (name sym) in
  exists s', fold_until (import_body fresh_buckets pkg b) l s = Ret (false, s') /\
    case_ok (map_of (mod_symtab s')) /\
    (ok s' = true <-> ok s = true /\ forall sym, sym ∈ l -> not_imported sym = false -> clean sym) /\
    (ok s' = true -> import_errors s' = import_errors s) /\
    (forall n x, declared (map_of (mod_symtab s')) n x <->
       declared (map_of (mod_symtab s)) n x \/
       exists sym, sym ∈ l /\ not_imported sym = false /\ clean sym /\ n = name sym /\ x = added sym).
Proof using fresh_length.
  intros Hpkg Hpcase Hpdef. revert s r. induction l as [|sym l IH]; intros s r Hroom Hr Hcase Hdefs Hl Hdis clean.
  { exists s. split_and!; [done|done| |done|].
    - split; [intros ?; split; [done|]; intros y Hy; by apply elem_of_nil in Hy|by intros [? _]].
    - intros n x. split; [by left|]. intros [|(y & Hy & _)]; [done|]. by apply elem_of_nil in Hy. }
  cbn [length] in Hr.
  assert (forall i j x y, l !! i = Some x -> l !! j = Some y -> not_imported x = false -> not_imported y = false ->
     name_without_case (name x) = name_without_case (name y) -> i = j) as Hdis'.
  { intros i j x y Hi Hj Hx Hy E. by specialize (Hdis (S i) (S j) x y Hi Hj Hx Hy E) as [= ->]. }
  assert (forall y, y ∈ l -> not_imported y = false -> def y <> NULL) as Hl' by (intros y Hy; apply Hl; by right).
  cbn [fold_until]. destruct (not_imported sym) eqn:Hh.
  { assert (import_body fresh_buckets pkg b sym s = Ret (false, s)) as -> by (unfold import_body; by rewrite Hh).
    cbn [mbind outcome_bind].
    destruct (IH s r Hroom ltac:(lia) Hcase Hdefs Hl' Hdis') as (s' & Hrun & Hok & Htrue & Herr & Hdec).
    exists s'. split; [done|]. split; [done|]. split; [|split; [done|]].
    - rewrite Htrue. split; (intros [? Hc]; split; [done|]; intros y Hy Hyh; apply Hc; [|done]).
      + apply elem_of_cons in Hy as [->|Hy]; [congruence|done].
      + by right.
    - intros n x. rewrite Hdec. split; (intros [?|(y & Hy & Hyh & Hyr)]; [by left|right; exists y; split; [|done]]).
      + by right.
      + apply elem_of_cons in Hy as [->|Hy]; [congruence|done]. }
  destruct (import_body_run pkg b sym s r Hpkg Hpcase Hpdef Hroom ltac:(lia) Hcase Hdefs Hh
    (Hl sym (list_elem_of_here _ _) Hh)) as (s1 & Hrun1 & Hs1).
  rewrite Hrun1. cbn [mbind outcome_bind].
  destruct Hs1 as [(Hclash & Hok1 & Hmod1)|(Hp & Hm & Hok1 & Herr1 & Hroom1 & Hcase1 & Hdefs1 & Hdec1)].
  - assert (~ clean sym) as Hbad by (unfold clean; tauto). unfold clean in *. rewrite <- Hmod1 in *.
    destruct (IH s1 r Hroom ltac:(lia) Hcase Hdefs Hl' Hdis') as (s' & Hrun & Hok & Htrue & Herr & Hdec).
    exists s'. split; [done|]. split; [done|]. rewrite Hok1 in Htrue. split; [|split].
    + rewrite Htrue. split; [by intros [? _]|]. intros [_ Hc]. exfalso. apply Hbad, Hc; [left|done].
    + intros E. by apply Htrue in E as [? _].
    + intros n x. rewrite Hdec. split; (intros [?|(y & Hy & Hyr)]; [by left|right; exists y; split; [|done]]).
      * by right.
      * apply elem_of_cons in Hy as [->|Hy]; [|done]. destruct Hyr as (_ & ? & _). by destruct Hbad.
  - destruct (IH s1 (r - 2) Hroom1 ltac:(lia) Hcase1 Hdefs1 Hl' Hdis') as (s' & Hrun & Hok & Htrue & Herr & Hdec).
    assert (forall y, y ∈ l -> not_imported y = false ->
      clash (map_of (mod_symtab s1)) (name y) <-> clash (map_of (mod_symtab s)) (name y)) as Hclash.
    { intros y Hy Hyh. apply (clash_added _ _ sym); [done|]. intros E. apply list_elem_of_lookup_1 in Hy as [i Hi].
      by specialize (Hdis 0%nat (S i) sym y eq_refl Hi Hh Hyh E). }
    exists s'. split; [done|]. split; [done|]. rewrite Hok1 in Htrue. unfold clean. split; [|split].
    + rewrite Htrue. split; (intros [? Hc]; split; [done|]; intros y Hy Hyh).
      * apply elem_of_cons in Hy as [->|Hy]; [done|]. rewrite <- Hclash by done. by apply Hc.
      * rewrite Hclash by done. apply Hc; [by right|done].
    + intros E. rewrite Herr by done. done.
    + intros n x. rewrite Hdec, Hdec1. split.
      * intros [[?|[-> ->]]|(y & Hy & Hyh & Hyc & Hyr)]; [by left| |]; right.
        -- exists sym. split_and!; [left|done..].
        -- exists y. rewrite Hclash in Hyc by done. split; [by right|done].
      * intros [?|(y & Hy & Hyh & Hyc & Hyr)]; [by left; left|]. apply elem_of_cons in Hy as [->|Hy].
        -- left. right. tauto.
        -- right. exists y. rewrite Hclash by done. done.
Qed.
End import_loop.

(** ** Properties *)

(** The cache does not change the answers of [find_ffi_decl].  In a table that holds
    answers, [ffi_get_decl] gives the declaration that [find_ffi_decl] finds, or fails as it
    does, reporting its error only when it was called, and the table still holds answers;
    provided that the name is not the caseless variant of another name of the table. *)
Theorem ffi_get_decl_cached `{CStrings} `{TokenNames} fresh_buckets fresh_text uninit package ifdef_cond opt answers
    symtab t n r :
  (forall n, length (fresh_buckets n) = Z.to_nat n) ->
  answers_are fresh_buckets fresh_text uninit package ifdef_cond opt answers n ->
  child_name t = Ret n -> has_room r symtab -> 1 < r -> cache_ok answers symtab ->
  (forall n' x, declared (as_map symtab) n' x -> n' <> n -> name_without_case n' <> n) ->
  exists symtab' e, Prelude.eventually (fun fuel =>
      ffi_get_decl fresh_buckets fresh_text uninit fuel t package ifdef_cond symtab opt =
      Ret (symtab', answer (answers n), e)) /\
    has_room (r - 2) symtab' /\ cache_ok answers symtab' /\
    (forall err, e = Some err -> answers n = inl err /\ forall x, ~ declared (as_map symtab) n x).
Proof.
  intros Hfresh Hans Ht Hroom Hr Hcache Hvar. pose proof (room_ok _ _ Hroom) as Hok.
  destruct (as_map symtab !! n) as [x|] eqn:Hx.
  { destruct (decide (status x = SYM_NOCASE)) as [E|E].
    { exfalso. destruct (case_variant _ (cache_case _ _ Hcache) n x Hx E) as (n' & x' & Hd & Hn').
      apply (Hvar n' x' Hd); [|done]. intros ->. destruct Hd as [Hx' ?]. congruence. }
    exists symtab, None. split.
    { apply eventually_always. intros fuel. by apply (ffi_get_decl_known _ _ _ _ _ _ _ fuel t n x). }
    split; [eapply has_room_mono; [done|lia]|done]. }
  assert (exists symtab' b d st, symtab_add fresh_buckets symtab n d st = Ret (symtab', b) /\
    (d, st) = match answers n with inl _ => (NULL, SYM_ERROR) | inr a => (decl_ptr a, SYM_FFIDECL) end /\
    has_room (r - 2) symtab' /\ cache_ok answers symtab') as (symtab' & b & d & st & Hadd & Hst & Hroom' & Hcache').
  { destruct (answers n) as [e|a] eqn:Ha.
    - destruct (cache_record fresh_buckets Hfresh answers symtab n NULL SYM_ERROR r Hroom Hr Hcache) as (s' & b & Hadd & Hroom' & Hcache');
        [done|by rewrite Ha|]. by exists s', b, NULL, SYM_ERROR.
    - destruct (cache_record fresh_buckets Hfresh answers symtab n (decl_ptr a) SYM_FFIDECL r Hroom Hr Hcache) as (s' & b & Hadd & Hroom' & Hcache');
        [done|by rewrite Ha|]. by exists s', b, (decl_ptr a), SYM_FFIDECL. }
  exists symtab', (match answers n with inl e => Some e | inr _ => None end). split.
  { eapply eventually_mono; [exact (Hans t Ht)|]. intros fuel Hfind. unfold ffi_get_decl. rewrite Ht. cbn [mbind outcome_bind].
    rewrite symtab_find_map, Hx by done. cbn [mbind outcome_bind]. rewrite Z.eqb_refl. cbn [negb].
    rewrite !(decide_False (P := SYM_NONE = SYM_ERROR)), decide_True by done. rewrite Hfind. cbn [mbind outcome_bind].
    destruct (answers n) as [e|a]; injection Hst as -> ->; rewrite Hadd; done. }
  split; [done|]. split; [done|]. intros err. destruct (answers n) as [e|a]; [|done]. intros [= ->]. split; [done|].
  intros x [Hx' _]. congruence.
Qed.

(** C26: importing a package.  [import_use] never fails an assertion; it is successful exactly
    if no symbol that the package offers has the name of a symbol of the using package or
    module up to case, and then reports no error; in any case the table of the module has its
    own symbols and the ones that do not clash. *)
Theorem import_use_exact `{CStrings} fresh_buckets pkg md src uri errors r :
  (forall n, length (fresh_buckets n) = Z.to_nat n) ->
  tab_ok pkg -> tab_ok src -> has_room r md -> 2 * count (contents src) <= r ->
  case_ok (as_map pkg) -> case_ok (as_map md) -> case_ok (as_map src) ->
  have_defs pkg -> have_defs md -> have_defs src ->
  let clean n := ~ clash (as_map pkg) n /\ ~ clash (as_map md) n in
  exists s, import_use fresh_buckets pkg md src uri errors = Ret s /\ case_ok (as_map (mod_symtab s)) /\
    (ok s = true <-> forall n y, imported src n y -> clean n) /\
    (ok s = true -> import_errors s = errors) /\
    (forall n x, declared (as_map (mod_symtab s)) n x <->
       declared (as_map md) n x \/ exists y, imported src n y /\ clean n /\ x = added y).
Proof.
  intros Hfresh Hpkg Hsrc Hroom Hr Hpcase Hmcase Hscase Hpdef Hmdef Hsdef clean.
  assert (Z.of_nat (length (elems src)) = count (contents src)) as Hlen.
  { rewrite tab_count, elems_length by done. unfold ptrs. by rewrite length_fmap. }
  assert (forall sym, sym ∈ elems src -> not_imported sym = false -> imported src (name sym) sym) as Himp.
  { intros sym Hsym Hh. split; [|done]. by apply map_of_lookup. }
  assert (forall n y, imported src n y -> y ∈ elems src /\ not_imported y = false /\ name y = n) as Himp'.
  { intros n y [Hy Hh]. by apply map_of_lookup in Hy as [Hy <-]. }
  assert (forall sym, sym ∈ elems src -> not_imported sym = false -> declared (as_map src) (name sym) sym) as Hdec.
  { intros sym Hsym Hh. split; [by apply Himp|by apply imported_status]. }
  destruct (import_loop_run fresh_buckets Hfresh pkg (bool_decide (text uri = "builtin"%string)) (elems src)
    (mk_import md true errors) r Hpkg Hpcase Hpdef Hroom) as (s & Hrun & Hok & Htrue & Herr & Hspec); [lia|done|done| | |].
  - intros sym Hsym Hh. by eapply Hsdef, Hdec.
  - intros i j x y Hi Hj Hx Hy E. assert (name x = name y) as Ename.
    { eapply (case_unique _ Hscase); [apply Hdec, Hx|apply Hdec, Hy|exact E]; by eapply list_elem_of_lookup_2. }
    eapply NoDup_lookup; [exact (elems_nodup src Hsrc)| |]; rewrite list_lookup_fmap, ?Hi, ?Hj; cbn; by rewrite ?Ename.
  - exists s. unfold import_use, each_symbol. rewrite each_elems, Hrun by done. cbn in Htrue, Herr, Hspec.
    split; [done|]. split; [done|]. split; [|split; [done|]].
    + rewrite Htrue. split.
      * intros [_ Hc] n y Hy. destruct (Himp' _ _ Hy) as (Hin & Hh & <-). by apply Hc.
      * intros Hc. split; [done|]. intros sym Hsym Hh. eapply Hc, Himp; done.
    + intros n x. rewrite Hspec. split; (intros [?|(y & Hy)]; [by left|right; exists y]).
      * destruct Hy as (Hin & Hh & Hc & -> & ->). split; [by apply Himp|done].
      * destruct Hy as (Hi & Hc & ->). destruct (Himp' _ _ Hi) as (Hin & Hh & <-). done.
Qed.

(** *** Witnesses *)

Section samples.
#[local] Existing Instances coded_strings coded_names.

Definition blank_text (n : Z) : list ascii := replicate (Z.to_nat n) zero.

Lemma empty_cache answers : cache_ok answers (symtab_new null_buckets).
Proof.
  destruct new_room as [_ Hempty]. split; rewrite Hempty; [apply case_ok_empty|]. intros n x [Hx _]. by rewrite lookup_empty in Hx.
Qed.

Lemma ffi_get_decl_cached_witness :
  exists r symtab' e, Prelude.eventually (fun fuel =>
      ffi_get_decl null_buckets blank_text blank_set fuel sample_call sample_package None (symtab_new null_buckets)
        (sample_build freebsd) = Ret (symtab', answer r, e)).
Proof.
  destruct (find_ffi_decl_exact null_buckets blank_text blank_set (sample_build freebsd) sample_call sample_package (intern "f") None)
    as (r & Hr & _).
  - exact null_buckets_length.
  - intros n. apply length_replicate.
  - reflexivity.
  - exact sample_uses_ok.
  - discriminate.
  - vm_compute. reflexivity.
  - exists first_flags. split; [exact first_possible|reflexivity].
  - exists r. destruct new_room as [Hroom Hempty].
    destruct (ffi_get_decl_cached null_buckets blank_text blank_set sample_package None (sample_build freebsd) (fun _ => r)
      (symtab_new null_buckets) sample_call (intern "f") (2 ^ 50)) as (symtab' & e & Hev & _).
    + exact null_buckets_length.
    + intros t Ht. eapply eventually_mono; [exact Hr|]. intros fuel Hfind. unfold find_ffi_decl in *.
      rewrite Ht. exact Hfind.
    + reflexivity.
    + exact Hroom.
    + reflexivity.
    + exact (empty_cache _).
    + intros n' x [Hx _]. rewrite Hempty, lookup_empty in Hx. discriminate.
    + exists symtab', e. exact Hev.
Defined.

Lemma foo_table_defs : have_defs foo_table.
Proof. intros n x Hd. apply foo_table_ok in Hd as [_ ->]. discriminate. Qed.

(** Importing a package with [Foo] into a module that has nothing: one symbol is added. *)
Lemma import_use_exact_witness :
  exists s, import_use null_buckets (symtab_new null_buckets) (symtab_new null_buckets) foo_table (intern "foo") [] = Ret s /\
    ok s = true /\ import_errors s = [] /\
    declared (as_map (mod_symtab s)) (intern "Foo") (mk_symbol (intern "Foo") 16 SYM_DEFINED 0).
Proof.
  destruct new_room as [Hroom Hempty]. destruct foo_table_ok as (Hfoo & Hcase & Hdec).
  assert (have_defs (symtab_new null_buckets)) as Hdefs
    by (intros n x [Hx _]; rewrite Hempty, lookup_empty in Hx; discriminate).
  destruct (import_use_exact null_buckets (symtab_new null_buckets) (symtab_new null_buckets) foo_table (intern "foo") [] (2 ^ 50))
    as (s & Hrun & _ & Hok & Herr & Hspec).
  - exact null_buckets_length.
  - exact (room_ok _ _ Hroom).
  - exact (room_ok _ _ Hfoo).
  - exact Hroom.
  - apply Z.leb_le. vm_compute. reflexivity.
  - rewrite Hempty. exact case_ok_empty.
  - rewrite Hempty. exact case_ok_empty.
  - exact Hcase.
  - exact Hdefs.
  - exact Hdefs.
  - exact foo_table_defs.
  - exists s. split; [exact Hrun|]. rewrite Hempty in Hok, Hspec.
    assert (ok s = true) as E by (apply Hok; intros n y _; split; apply no_clash_empty).
    split; [exact E|]. split; [exact (Herr E)|]. apply Hspec. right.
    exists (mk_symbol (intern "Foo") 16 SYM_DEFINED 0). split; [|split; [split; apply no_clash_empty|reflexivity]].
    split; [|vm_compute; reflexivity]. apply (proj1 (proj2 (Hdec _ _) (conj eq_refl eq_refl))).
Defined.

(** *** What modelling showed *)

(** A foreign function whose name is in lower case is taken for undeclared, whatever the
    package declares, once another one whose name differs by case has been looked up. *)
Lemma ffi_lower_case_undeclared fresh_text uninit fuel t package ifdef_cond symtab opt n n' x :
  tab_ok symtab -> case_ok (as_map symtab) -> declared (as_map symtab) n' x -> name_without_case n' = n ->
  (forall y, ~ declared (as_map symtab) n y) -> child_name t = Ret n ->
  ffi_get_decl null_buckets fresh_text uninit fuel t package ifdef_cond symtab opt = Ret (symtab, Some NULL, None).
Proof.
  intros Hok Hcase Hd E Hno Ht. destruct (case_closed _ Hcase n' x (proj1 Hd)) as (y & Hy & _). rewrite E in Hy.
  destruct (decide (status y = SYM_NOCASE)) as [Hst|Hst]; [|by destruct (Hno y)].
  unfold ffi_get_decl. rewrite Ht. cbn [mbind outcome_bind]. rewrite symtab_find_map by done.
  by rewrite Hy, (decide_True (P := status y = SYM_NOCASE)), Hst by done.
Qed.
End samples.
