(* ===== verification/Alias.v ===== *)
(** * Aliasing, consuming, recovering and chaining types: [src/libponyc/type/alias.c]

    Also the operations of [src/libponyc/type/cap.c] and [src/libponyc/type/assemble.c]
    that read or write the capability of a type.  A function that may return null
    returns an option; a failed assertion is [Abort].  The functions follow type aliases,
    so they take fuel: [typealias_unfold] is an interface, the promise being that
    following it ends. *)
From S2P Require Import Prelude Token Ast Deny Cap.
Local Set Warnings "-register-all".

(** ** Interfaces *)

(** What unfolding an alias promises ([typealias.h]): following the elements of a type
    and the aliases inside it comes to an end.  [rank] counts the levels. *)
Class TypeAliases := {
  typealias_unfold : ast -> outcome (option ast);
  rank : ast -> nat;
  rank_compound t c :
    tk_in (ast_id t) [TK_UNIONTYPE; TK_ISECTTYPE; TK_TUPLETYPE] = true -> c ∈ children t ->
    rank c < rank t;
  rank_arrow t lhs rhs rest :
    ast_id t = TK_ARROW -> children t = lhs :: rhs :: rest -> rank lhs < rank t /\ rank rhs < rank t;
  rank_unfold t u :
    ast_id t = TK_TYPEALIASREF -> typealias_unfold t = Ret (Some u) -> rank u < rank t
}.

(** Compatibility of the elements of an intersection type ([compattype.c]). *)
Class CompatTypes := { is_compat_type : ast -> ast -> bool }.

(** ** The capability of a type *)

(** The index of the child that [cap_fetch] returns. *)
Definition cap_index (t : ast) : outcome nat :=
  match ast_id t with
  | TK_NOMINAL => Ret 3
  | TK_TYPEPARAMREF => Ret 1
  | TK_TYPEALIASREF => Ret 2
  | _ => Abort
  end.

Definition cap_fetch (t : ast) : outcome (option ast) :=
  i ← cap_index t; Ret (ast_childidx t i).

(** [ast_id(cap_fetch(type))] and [ast_id(ast_sibling(cap_fetch(type)))] *)
Definition get_cap_eph (t : ast) : outcome (token_id * token_id) :=
  i ← cap_index t;
  cap ← ast_id_ptr (ast_childidx t i);
  eph ← ast_id_ptr (ast_childidx t (S i));
  Ret (cap, eph).

(** A copy of the type with another capability and ephemerality. *)
Definition with_cap_eph (t : ast) (cap eph : token_id) : outcome ast :=
  i ← cap_index t;
  Ret (set_child_id (set_child_id t i cap) (S i) eph).

Definition cap_single (t : ast) : outcome token_id :=
  '(tcap, teph) ← get_cap_eph t;
  Ret (cap_aliasing tcap teph).1.

Definition cap_for_this (frame_type : ast) (frame_method : option ast) : outcome token_id :=
  if tk_eqb (ast_id frame_type) TK_PRIMITIVE then Ret TK_VAL
  else
    match frame_method with
    | None => Ret TK_REF
    | Some m => if tk_eqb (ast_id m) TK_FUN then ast_id_ptr (ast_child m) else Ret TK_REF
    end.

(** ** Single types *)

Definition alias_single (t : ast) : outcome (option ast) :=
  '(cap, ephemeral) ← get_cap_eph t;
  match ephemeral with
  | TK_EPHEMERAL => t' ← with_cap_eph t cap TK_NONE; Ret (Some t')
  | TK_NONE =>
      match cap with
      | TK_ISO | TK_TRN | TK_CAP_SEND | TK_CAP_ANY | TK_NONE =>
          t' ← with_cap_eph t cap TK_ALIASED; Ret (Some t')
      | _ => Ret (Some t)
      end
  | TK_ALIASED => Ret (Some t)
  | _ => Abort
  end.

Inductive recovery_t := RECOVERY_NONE | RECOVERY_IMMUTABLE | RECOVERY_MUTABLE.

#[export] Instance recovery_eq_dec : EqDecision recovery_t.
Proof. solve_decision. Defined.

(** The result of the capability cases of [recover_single]: the recovered capability,
    whether it becomes ephemeral, and the state of the enclosing tuple, or null. *)
Definition recover_cap (tcap teph rcap : token_id) (elem : option recovery_t)
    : outcome (option (token_id * bool * option recovery_t)) :=
  match tcap with
  | TK_ISO =>
      let rcap := if tk_eqb rcap TK_NONE then TK_ISO else rcap in
      if negb (tk_eqb teph TK_EPHEMERAL) && negb (tk_eqb rcap TK_ISO) && negb (tk_eqb rcap TK_TAG)
      then Ret None
      else Ret (Some (rcap, false, elem))
  | TK_TRN | TK_REF =>
      let rcap := if tk_eqb rcap TK_NONE then TK_ISO else rcap in
      match elem with
      | Some e =>
          if negb (cap_safetomove rcap tcap WRITE) then
            match rcap with
            | TK_ISO | TK_TRN =>
                if bool_decide (e = RECOVERY_NONE) then Ret (Some (rcap, true, Some RECOVERY_MUTABLE))
                else Ret None
            | TK_VAL =>
                if bool_decide (e = RECOVERY_MUTABLE) then Ret None
                else Ret (Some (rcap, true, Some RECOVERY_IMMUTABLE))
            | _ => Ret (Some (rcap, true, elem))
            end
          else Ret (Some (rcap, true, elem))
      | None => Ret (Some (rcap, true, elem))
      end
  | TK_VAL | TK_BOX | TK_CAP_READ =>
      let rcap := if tk_eqb rcap TK_NONE then TK_VAL else rcap in
      match rcap with
      | TK_ISO | TK_TRN | TK_REF | TK_CAP_READ | TK_CAP_SEND | TK_CAP_ALIAS | TK_CAP_ANY => Ret None
      | TK_VAL =>
          match elem with
          | Some e =>
              if negb (tk_eqb tcap TK_VAL) then
                if bool_decide (e = RECOVERY_MUTABLE) then Ret None
                else Ret (Some (rcap, false, Some RECOVERY_IMMUTABLE))
              else Ret (Some (rcap, false, elem))
          | None => Ret (Some (rcap, false, elem))
          end
      | TK_BOX | TK_TAG | TK_CAP_SHARE => Ret (Some (rcap, false, elem))
      | _ => Abort
      end
  | TK_TAG | TK_CAP_SEND | TK_CAP_SHARE | TK_CAP_ALIAS | TK_CAP_ANY =>
      let rcap := if tk_eqb rcap TK_NONE then tcap else rcap in
      if negb (tk_eqb rcap TK_TAG) && negb (tk_eqb rcap tcap) then Ret None
      else Ret (Some (rcap, false, elem))
  | _ => Abort
  end.

(** [elem] is the pointed-to [recovery_t], or nothing for a null pointer; its final
    value is part of the result. *)
Definition recover_single (t : ast) (rcap : token_id) (elem : option recovery_t)
    : outcome (option ast * option recovery_t) :=
  '(tcap, teph) ← get_cap_eph t;
  r ← recover_cap tcap teph rcap elem;
  match r with
  | None => Ret (None, elem)
  | Some (rcap, rec_eph, elem) =>
      t' ← with_cap_eph t rcap (if rec_eph : bool then TK_EPHEMERAL else teph);
      Ret (Some t', elem)
  end.

Definition consume_cap (tcap teph ccap : token_id) (keep_double_ephemeral : bool)
    : outcome (option (token_id * token_id)) :=
  let null_double :=
    match teph with
    | TK_EPHEMERAL => match tcap with TK_ISO | TK_TRN => negb keep_double_ephemeral | _ => false end
    | _ => false
    end in
  if null_double then Ret None
  else
    let eph :=
      match teph with
      | TK_NONE => TK_EPHEMERAL
      | TK_ALIASED => if tk_eqb ccap TK_ALIASED then TK_NONE else teph
      | _ => teph
      end in
    let ccap := match ccap with TK_NONE | TK_ALIASED => tcap | _ => ccap end in
    ok ← is_cap_sub_cap_bound tcap TK_EPHEMERAL ccap TK_NONE;
    Ret (if ok : bool then Some (ccap, eph) else None).

Definition consume_single (t : ast) (ccap : token_id) (keep_double_ephemeral : bool)
    : outcome (option ast) :=
  '(tcap, teph) ← get_cap_eph t;
  r ← consume_cap tcap teph ccap keep_double_ephemeral;
  match r with
  | None => Ret None
  | Some (cap, eph) => t' ← with_cap_eph t cap eph; Ret (Some t')
  end.

(** ** Whole types *)

Definition is_compound (id : token_id) : bool := tk_in id [TK_UNIONTYPE; TK_ISECTTYPE; TK_TUPLETYPE].

(** A new node of the kind of [t] with the given children. *)
Definition rebuild (t : ast) (l : list ast) : ast := with_children (ast_from t (ast_id t)) l.

Definition arrow_from (t lhs rhs : ast) : ast := with_children (ast_from t TK_ARROW) [lhs; rhs].

Fixpoint set_cap_and_ephemeral (fuel : nat) (t : ast) (cap ephemeral : token_id)
    : outcome (option ast) :=
  match fuel with
  | O => NoFuel
  | S fuel =>
      match ast_id t with
      | TK_UNIONTYPE | TK_ISECTTYPE | TK_TUPLETYPE =>
          l ← append_all (fun c => set_cap_and_ephemeral fuel c cap ephemeral) (children t);
          Ret (Some (rebuild t l))
      | TK_NOMINAL | TK_TYPEPARAMREF | TK_TYPEALIASREF =>
          '(tcap, _) ← get_cap_eph t;
          t' ← with_cap_eph t (if tk_eqb cap TK_NONE then tcap else cap) ephemeral;
          Ret (Some t')
      | TK_ARROW =>
          match ast_childidx t 1 with
          | None => Abort
          | Some rhs => set_cap_and_ephemeral fuel rhs cap ephemeral
          end
      | _ => Abort
      end
  end.

Section aliases.
Context `{TypeAliases} `{CompatTypes}.

(** [typealias_unfold], then [f] on the result; null when there is none. *)
Definition on_unfolded (f : ast -> outcome (option ast)) (t : ast) : outcome (option ast) :=
  u ← typealias_unfold t;
  match u with
  | None => Ret None
  | Some unfolded => f unfolded
  end.

Fixpoint alias (fuel : nat) (t : ast) : outcome (option ast) :=
  match fuel with
  | O => NoFuel
  | S fuel =>
      match ast_id t with
      | TK_UNIONTYPE | TK_ISECTTYPE | TK_TUPLETYPE =>
          l ← append_all (alias fuel) (children t);
          Ret (Some (rebuild t l))
      | TK_NOMINAL | TK_TYPEPARAMREF => alias_single t
      | TK_TYPEALIASREF => on_unfolded (alias fuel) t
      | TK_ARROW =>
          '(lhs, rhs) ← two_children t;
          match ast_id lhs with
          | TK_VAL | TK_BOX | TK_TAG => Ret (Some t)
          | _ =>
              r ← alias fuel rhs;
              match r with None => Abort | Some r => Ret (Some (arrow_from t lhs r)) end
          end
      | TK_LAMBDATYPE | TK_BARELAMBDATYPE | TK_FUNTYPE | TK_INFERTYPE | TK_ERRORTYPE
      | TK_DONTCARETYPE => Ret (Some t)
      | _ => Abort
      end
  end.

Fixpoint consume_type (fuel : nat) (t : ast) (cap : token_id) (keep_double_ephemeral : bool)
    : outcome (option ast) :=
  match fuel with
  | O => NoFuel
  | S fuel =>
      let consume c := consume_type fuel c cap keep_double_ephemeral in
      match ast_id t with
      | TK_DONTCARETYPE => Ret (Some t)
      | TK_TUPLETYPE =>
          l ← append_until_null consume (children t);
          Ret (option_map (rebuild t) l)
      | TK_ISECTTYPE =>
          '(first, second) ← two_children t;
          if negb (is_compat_type first second) then Ret None
          else l ← append_non_null consume (children t); Ret (Some (rebuild t l))
      | TK_UNIONTYPE => l ← append_non_null consume (children t); Ret (Some (rebuild t l))
      | TK_NOMINAL | TK_TYPEPARAMREF => consume_single t cap keep_double_ephemeral
      | TK_TYPEALIASREF => on_unfolded consume t
      | TK_ARROW =>
          '(lhs, rhs) ← two_children t;
          r ← consume rhs;
          Ret (option_map (arrow_from t lhs) r)
      | TK_FUNTYPE | TK_INFERTYPE | TK_ERRORTYPE | TK_ENTITY_TYPE_CLASS | TK_ENTITY_TYPE_STRUCT
      | TK_ENTITY_TYPE_PRIMITIVE | TK_ENTITY_TYPE_ACTOR => Ret (Some t)
      | _ => Abort
      end
  end.

(** The loop of [recover_complex], which threads the state of the tuple. *)
Fixpoint recover_elements (f : ast -> option recovery_t -> outcome (option ast * option recovery_t))
    (l : list ast) (elem : option recovery_t) : outcome (option (list ast) * option recovery_t) :=
  match l with
  | [] => Ret (Some [], elem)
  | c :: l =>
      '(r, elem) ← f c elem;
      match r with
      | None => Ret (None, elem)
      | Some r =>
          '(rs, elem) ← recover_elements f l elem;
          Ret (match rs with None => None | Some rs => Some (r :: rs) end, elem)
      end
  end.

Fixpoint recover_type_inner (fuel : nat) (t : ast) (cap : token_id) (elem : option recovery_t)
    : outcome (option ast * option recovery_t) :=
  match fuel with
  | O => NoFuel
  | S fuel =>
      let recover_complex (elem : option recovery_t) :=
        '(l, elem) ← recover_elements (fun c => recover_type_inner fuel c cap) (children t) elem;
        Ret (option_map (rebuild t) l, elem) in
      match ast_id t with
      | TK_UNIONTYPE | TK_ISECTTYPE => recover_complex elem
      | TK_TUPLETYPE =>
          match elem with
          | Some _ => recover_complex elem
          | None => '(r, _) ← recover_complex (Some RECOVERY_NONE); Ret (r, None)
          end
      | TK_NOMINAL | TK_TYPEPARAMREF => recover_single t cap elem
      | TK_TYPEALIASREF =>
          u ← typealias_unfold t;
          match u with
          | None => Ret (None, elem)
          | Some unfolded => recover_type_inner fuel unfolded cap elem
          end
      | TK_ARROW =>
          '(lhs, rhs) ← two_children t;
          '(r, elem) ← recover_type_inner fuel rhs cap elem;
          Ret (option_map (arrow_from t lhs) r, elem)
      | TK_FUNTYPE | TK_INFERTYPE | TK_ERRORTYPE => Ret (Some t, elem)
      | _ => Abort
      end
  end.

Definition recover_type (fuel : nat) (t : ast) (cap : token_id) : outcome (option ast) :=
  '(r, _) ← recover_type_inner fuel t cap None; Ret r.

(** What [chain_type] does with a type that has a capability. *)
Inductive chained := ChainSame | ChainAliasTwice | ChainCap.

Definition chain_cap (cap eph fun_cap : token_id) (recovered_call : bool) : outcome chained :=
  match cap with
  | TK_REF | TK_VAL | TK_BOX | TK_TAG | TK_CAP_READ | TK_CAP_SHARE | TK_CAP_ALIAS => Ret ChainSame
  | TK_CAP_ANY => if tk_eqb fun_cap TK_TAG then Ret ChainSame else Abort
  | _ =>
      if tk_eqb eph TK_NONE then
        if recovered_call || tk_eqb fun_cap TK_TAG then Ret ChainSame else Abort
      else if negb (tk_eqb eph TK_EPHEMERAL) then Abort
      else if recovered_call then Ret ChainSame
      else
        match cap with
        | TK_ISO | TK_CAP_SEND =>
            match fun_cap with
            | TK_TAG => Ret ChainSame
            | TK_ISO => Ret ChainAliasTwice
            | _ => Ret ChainCap
            end
        | TK_TRN =>
            match fun_cap with
            | TK_TAG | TK_BOX => Ret ChainSame
            | TK_TRN => Ret ChainAliasTwice
            | _ => Ret ChainCap
            end
        | _ => Abort
        end
  end.

Fixpoint chain_type (fuel : nat) (t : ast) (fun_cap : token_id) (recovered_call : bool)
    : outcome (option ast) :=
  match fuel with
  | O => NoFuel
  | S fuel =>
      let chain c := chain_type fuel c fun_cap recovered_call in
      match ast_id t with
      | TK_UNIONTYPE | TK_ISECTTYPE | TK_TUPLETYPE =>
          l ← append_all chain (children t);
          Ret (Some (rebuild t l))
      | TK_TYPEALIASREF => on_unfolded chain t
      | TK_NOMINAL | TK_TYPEPARAMREF =>
          '(cap, eph) ← get_cap_eph t;
          c ← chain_cap cap eph fun_cap recovered_call;
          match c with
          | ChainSame => Ret (Some t)
          | ChainAliasTwice =>
              a ← alias_single t;
              match a with None => Abort | Some a => alias_single a end
          | ChainCap => set_cap_and_ephemeral 1 t fun_cap TK_NONE
          end
      | TK_ARROW =>
          '(lhs, rhs) ← two_children t;
          r ← chain rhs;
          match r with None => Abort | Some r => Ret (Some (arrow_from t lhs r)) end
      | TK_FUNTYPE | TK_INFERTYPE | TK_ERRORTYPE => Ret (Some t)
      | _ => Abort
      end
  end.

(** ** Modified capabilities *)

Definition modified_cap_single (t : ast) (mutation : cap_mutation) : outcome (option ast) :=
  '(cap, eph) ← get_cap_eph t;
  let '(changed, (cap, eph)) := mutation cap eph in
  if changed : bool then t' ← with_cap_eph t cap eph; Ret (Some t') else Ret (Some t).

Fixpoint modified_cap (fuel : nat) (t : ast) (mutation : cap_mutation) : outcome (option ast) :=
  match fuel with
  | O => NoFuel
  | S fuel =>
      match ast_id t with
      | TK_UNIONTYPE | TK_ISECTTYPE | TK_TUPLETYPE =>
          l ← append_all (fun c => modified_cap fuel c mutation) (children t);
          Ret (Some (rebuild t l))
      | TK_NOMINAL | TK_TYPEPARAMREF => modified_cap_single t mutation
      | TK_TYPEALIASREF => on_unfolded (fun u => modified_cap fuel u mutation) t
      | TK_ARROW =>
          '(lhs, rhs) ← two_children t;
          new_left ← modified_cap fuel lhs mutation;
          new_right ← modified_cap fuel rhs mutation;
          match new_left, new_right with
          | Some l, Some r => Ret (Some (arrow_from t l r))
          | _, _ => Abort
          end
      | TK_ISO | TK_TRN | TK_VAL | TK_REF | TK_BOX | TK_TAG =>
          let '(changed, (cap, eph)) := mutation (ast_id t) TK_NONE in
          if changed : bool then
            if tk_eqb eph TK_NONE then Ret (Some (ast_setid t cap)) else Abort
          else Ret (Some t)
      | TK_THIS | TK_THISTYPE | TK_LAMBDATYPE | TK_BARELAMBDATYPE | TK_FUNTYPE | TK_INFERTYPE
      | TK_ERRORTYPE | TK_DONTCARETYPE => Ret (Some t)
      | _ => Abort
      end
  end.

Definition unisolated (fuel : nat) (t : ast) : outcome (option ast) := modified_cap fuel t unisolated_mod.

(** ** The capability of the receiver of a call *)

Fixpoint cap_dispatch (fuel : nat) (t : ast) : outcome token_id :=
  match fuel with
  | O => NoFuel
  | S fuel =>
      match ast_id t with
      | TK_UNIONTYPE =>
          match children t with
          | [] => Abort
          | c :: l =>
              cap ← cap_dispatch fuel c;
              foldl (fun acc c =>
                cap ← acc;
                child_cap ← cap_dispatch fuel c;
                sub ← is_cap_sub_cap cap TK_NONE child_cap TK_NONE;
                if sub : bool then Ret child_cap
                else
                  sup ← is_cap_sub_cap child_cap TK_NONE cap TK_NONE;
                  if sup : bool then Ret cap else Ret TK_BOX) (Ret cap) l
          end
      | TK_ISECTTYPE =>
          match children t with
          | [] => Abort
          | c :: l =>
              cap ← cap_dispatch fuel c;
              foldl (fun acc c =>
                cap ← acc;
                child_cap ← cap_dispatch fuel c;
                sub ← is_cap_sub_cap child_cap TK_NONE cap TK_NONE;
                if sub : bool then Ret child_cap else Ret cap) (Ret cap) l
          end
      | TK_NOMINAL => cap_single t
      | TK_TYPEALIASREF =>
          u ← typealias_unfold t;
          match u with
          | None => Ret TK_NONE
          | Some unfolded => cap_dispatch fuel unfolded
          end
      | _ => Abort
      end
  end.
End aliases.

(** ** Reading and writing the capability *)

Definition is_single (id : token_id) : bool := tk_in id [TK_NOMINAL; TK_TYPEPARAMREF].

Lemma ast_id_set_child t i id : ast_id (set_child_id t i id) = ast_id t.
Proof. by destruct t. Qed.

Lemma children_set_child t i id :
  children (set_child_id t i id) = alter (fun c => ast_setid c id) i (children t).
Proof. by destruct t. Qed.

Lemma cap_index_set_child t i id : cap_index (set_child_id t i id) = cap_index t.
Proof. unfold cap_index. by rewrite ast_id_set_child. Qed.

Lemma get_cap_eph_index t c e :
  get_cap_eph t = Ret (c, e) ->
  exists i x y, cap_index t = Ret i /\ children t !! i = Some x /\ children t !! S i = Some y /\
    ast_id x = c /\ ast_id y = e.
Proof.
  unfold get_cap_eph, ast_childidx. destruct (cap_index t) as [i| | |]; cbn; try done.
  destruct (children t !! i) as [x|] eqn:Ex; cbn; try done.
  destruct (children t !! S i) as [y|] eqn:Ey; cbn; try done.
  intros [= <- <-]. by exists i, x, y.
Qed.

(** Writing the capability of a type that has one succeeds; what is written is read
    back, and a second write overrides the first. *)
Lemma with_cap_eph_spec t c e c' e' :
  get_cap_eph t = Ret (c, e) ->
  exists t', with_cap_eph t c' e' = Ret t' /\ get_cap_eph t' = Ret (c', e') /\
    ast_id t' = ast_id t /\ forall c2 e2, with_cap_eph t' c2 e2 = with_cap_eph t c2 e2.
Proof.
  intros (i & x & y & Hi & Hx & Hy & Hc & He)%get_cap_eph_index.
  unfold with_cap_eph, get_cap_eph. rewrite Hi. cbn. eexists. split; [done|].
  rewrite !cap_index_set_child, Hi. cbn. unfold ast_childidx. rewrite !children_set_child.
  rewrite !list_lookup_alter. repeat case_decide; try lia. rewrite Hx, Hy. cbn.
  split; [by destruct x, y|]. split; [by rewrite !ast_id_set_child|].
  intros c2 e2. f_equal.
  destruct t as [id tok data l]. cbn in Hx, Hy |- *. unfold set_child_id. cbn. f_equal.
  apply list_eq. intros k. rewrite !list_lookup_alter.
  repeat destruct (decide _); subst; try lia; rewrite ?Hx, ?Hy; cbn; try done; by destruct x, y.
Qed.

Lemma with_cap_eph_same t c e : get_cap_eph t = Ret (c, e) -> with_cap_eph t c e = Ret t.
Proof.
  intros (i & x & y & Hi & Hx & Hy & <- & <-)%get_cap_eph_index.
  unfold with_cap_eph. rewrite Hi. cbn. f_equal. destruct t as [id tok data l].
  cbn in Hx, Hy |- *. unfold set_child_id. cbn. f_equal. apply list_eq. intros k.
  rewrite !list_lookup_alter.
  repeat destruct (decide _); subst; try lia; rewrite ?Hx, ?Hy; cbn; try done; by destruct x, y.
Qed.

(** ** Types and how their capabilities are related *)

Definition is_other (id : token_id) : bool := tk_in id [TK_FUNTYPE; TK_INFERTYPE; TK_ERRORTYPE].

Section relations.
Context `{TypeAliases}.

(** The types the operations accept: [P] holds of the capability and ephemerality of
    every single type, [Q] of every compound type and [A] of the left side of every
    arrow. *)
Inductive type_ok (P : token_id -> token_id -> Prop) (Q A : ast -> Prop) : ast -> Prop :=
| ok_single t c e :
    is_single (ast_id t) = true -> get_cap_eph t = Ret (c, e) -> P c e -> type_ok P Q A t
| ok_compound t :
    is_compound (ast_id t) = true -> Q t -> Forall (type_ok P Q A) (children t) -> type_ok P Q A t
| ok_alias t u :
    ast_id t = TK_TYPEALIASREF -> typealias_unfold t = Ret (Some u) -> type_ok P Q A u -> type_ok P Q A t
| ok_arrow t lhs rhs rest :
    ast_id t = TK_ARROW -> children t = lhs :: rhs :: rest -> A lhs -> type_ok P Q A rhs ->
    type_ok P Q A t
| ok_other t : is_other (ast_id t) = true -> type_ok P Q A t.

(** [t'] is [t] with its aliases unfolded and the capabilities of its single types
    changed according to [R], except that the arrows whose left side satisfies [V] are
    unchanged. *)
Inductive cap_rel (R : token_id * token_id -> token_id * token_id -> Prop) (V : ast -> Prop)
    : ast -> ast -> Prop :=
| rel_single t t' c e c' e' :
    is_single (ast_id t) = true -> get_cap_eph t = Ret (c, e) -> with_cap_eph t c' e' = Ret t' ->
    R (c, e) (c', e') -> cap_rel R V t t'
| rel_compound t l' :
    is_compound (ast_id t) = true -> Forall2 (cap_rel R V) (children t) l' ->
    cap_rel R V t (rebuild t l')
| rel_alias t u t' :
    ast_id t = TK_TYPEALIASREF -> typealias_unfold t = Ret (Some u) -> cap_rel R V u t' -> cap_rel R V t t'
| rel_arrow t lhs rhs rest rhs' :
    ast_id t = TK_ARROW -> children t = lhs :: rhs :: rest -> ~ V lhs -> cap_rel R V rhs rhs' ->
    cap_rel R V t (arrow_from t lhs rhs')
| rel_view t lhs rhs rest :
    ast_id t = TK_ARROW -> children t = lhs :: rhs :: rest -> V lhs -> cap_rel R V t t
| rel_other t : is_other (ast_id t) = true -> cap_rel R V t t.

(** Induction on the rank: the step may use the claim on every type of smaller rank. *)
Lemma rank_ind (P : ast -> Prop) :
  (forall t, (forall u, rank u < rank t -> P u) -> P t) -> forall t, P t.
Proof.
  intros IH t. remember (rank t) as n eqn:Hn. revert t Hn.
  induction n as [n IHn] using lt_wf_ind. intros t ->. apply IH. intros u Hu.
  by apply (IHn (rank u)).
Qed.

(** *** Operations that work type by type

    [f] changes the single types as [R] says, keeps the structure, and succeeds on the
    types that satisfy [P], [Q] and [A]. *)
Record cap_map (f : nat -> ast -> outcome (option ast)) (P : token_id -> token_id -> Prop)
    (Q A : ast -> Prop) (R : token_id * token_id -> token_id * token_id -> Prop) (V : ast -> Prop)
    : Prop := {
  map_single n t c e :
    is_single (ast_id t) = true -> get_cap_eph t = Ret (c, e) -> P c e ->
    exists c' e' t', f (S n) t = Ret (Some t') /\ with_cap_eph t c' e' = Ret t' /\ R (c, e) (c', e');
  map_compound n t g :
    is_compound (ast_id t) = true -> Q t -> (forall c, c ∈ children t -> f n c = Ret (Some (g c))) ->
    f (S n) t = Ret (Some (rebuild t (g <$> children t)));
  map_alias n t u :
    ast_id t = TK_TYPEALIASREF -> typealias_unfold t = Ret (Some u) -> f (S n) t = f n u;
  map_arrow n t lhs rhs rest r :
    ast_id t = TK_ARROW -> children t = lhs :: rhs :: rest -> A lhs -> f n rhs = Ret (Some r) ->
    (~ V lhs /\ f (S n) t = Ret (Some (arrow_from t lhs r))) \/ (V lhs /\ f (S n) t = Ret (Some t));
  map_other n t : is_other (ast_id t) = true -> f (S n) t = Ret (Some t)
}.

(** Such an operation returns a type on every acceptable type, with enough fuel. *)
Lemma cap_map_total f P Q A R V t fuel :
  cap_map f P Q A R V -> type_ok P Q A t -> rank t < fuel ->
  exists t', f fuel t = Ret (Some t') /\ cap_rel R V t t'.
Proof.
  intros Hf. revert fuel. induction t as [t IH] using rank_ind. intros [|n] Hok Hfuel; [lia|].
  destruct Hok as [t c e Hid Hget HP|t Hid HQ Hall|t u Hid Hu Hok|t lhs rhs rest Hid Hch HA Hok|t Hid].
  - destruct (map_single _ _ _ _ _ _ Hf n t c e Hid Hget HP) as (c' & e' & t' & Hrun & Hw & HR).
    exists t'. split; [done|]. by eapply rel_single.
  - rewrite Forall_forall in Hall.
    assert (Hc : forall c, c ∈ children t -> exists c', f n c = Ret (Some c') /\ cap_rel R V c c').
    { intros c Hc. pose proof (rank_compound t c Hid Hc). apply IH; [done|by apply Hall|lia]. }
    set (g c := match f n c with Ret (Some c') => c' | _ => c end).
    exists (rebuild t (g <$> children t)). split.
    + apply (map_compound _ _ _ _ _ _ Hf); [done..|]. intros c Hin. unfold g.
      by destruct (Hc c Hin) as (c' & -> & _).
    + apply rel_compound; [done|]. apply Forall2_fmap_r, Forall_Forall2_diag, Forall_forall.
      intros c Hin. destruct (Hc c Hin) as (c' & Hrun & Hrel).
      change (cap_rel R V c (g c)). enough (g c = c') as -> by done. unfold g. by rewrite Hrun.
  - pose proof (rank_unfold t u Hid Hu). rewrite (map_alias _ _ _ _ _ _ Hf n t u) by done.
    destruct (IH u ltac:(lia) n Hok) as (t' & ? & ?); [lia|]. exists t'.
    split; [done|]. by eapply rel_alias.
  - pose proof (rank_arrow t lhs rhs rest Hid Hch).
    destruct (IH rhs ltac:(lia) n Hok) as (r & Hr & Hrel); [lia|].
    destruct (map_arrow _ _ _ _ _ _ Hf n t lhs rhs rest r Hid Hch HA Hr) as [[HV ->]|[HV ->]].
    + eexists. split; [done|]. by eapply rel_arrow.
    + exists t. split; [done|]. by eapply rel_view.
  - exists t. split; [by apply (map_other _ _ _ _ _ _ Hf)|by apply rel_other].
Qed.
Lemma single_cases id :
  is_single id = true -> id = TK_NOMINAL \/ id = TK_TYPEPARAMREF.
Proof. intros Hid%tk_in_spec. by repeat apply elem_of_cons in Hid as [->|Hid]; auto; apply elem_of_nil in Hid. Qed.

Lemma compound_cases id :
  is_compound id = true -> id = TK_UNIONTYPE \/ id = TK_ISECTTYPE \/ id = TK_TUPLETYPE.
Proof. intros Hid%tk_in_spec. by repeat apply elem_of_cons in Hid as [->|Hid]; auto; apply elem_of_nil in Hid. Qed.

Lemma other_cases id :
  is_other id = true -> id = TK_FUNTYPE \/ id = TK_INFERTYPE \/ id = TK_ERRORTYPE.
Proof. intros Hid%tk_in_spec. by repeat apply elem_of_cons in Hid as [->|Hid]; auto; apply elem_of_nil in Hid. Qed.
End relations.

(** Decides what kind of type a node is. *)
Ltac kind_of_type Hid :=
  first [ apply single_cases in Hid as [Hid|Hid]
        | apply compound_cases in Hid as [Hid|[Hid|Hid]]
        | apply other_cases in Hid as [Hid|[Hid|Hid]] | idtac ];
  rewrite ?Hid.

(** ** Aliasing *)

(** What [alias] does to a single type.  An ephemeral one only loses its modifier.  For
    the others, take any instantiation of the capability and what it is before and after,
    as the operations look at it: the second is the strongest capability the first may
    be aliased as. *)
Definition alias_step (a b : token_id * token_id) : Prop :=
  b.1 = a.1 /\
  if is_eph a.2 then b.2 = TK_NONE
  else forall i, i ∈ instances a.1 ->
    (cap_aliasing i b.2).2 = TK_NONE /\
    least_alias (cap_aliasing i a.2).1 (cap_aliasing i b.2).1.

#[export] Instance alias_step_dec a b : Decision (alias_step a b).
Proof. unfold alias_step. destruct (is_eph a.2); apply _. Defined.

Definition known_cap (c e : token_id) : Prop := c ∈ all_caps /\ e ∈ all_ephs.

Definition alias_eph (c e : token_id) : token_id :=
  match e with
  | TK_EPHEMERAL => TK_NONE
  | TK_NONE => if tk_in c [TK_ISO; TK_TRN; TK_CAP_SEND; TK_CAP_ANY] then TK_ALIASED else TK_NONE
  | _ => e
  end.

Lemma alias_step_known :
  forall c, c ∈ all_caps -> forall e, e ∈ all_ephs -> alias_step (c, e) (c, alias_eph c e).
Proof. by_computation. Qed.

(** Whatever is seen through [val] or [box] is its own alias, and [tag] cannot be seen
    through: [alias] may leave their arrows alone. *)
Definition view_self_aliasing (o : token_id) (f : token_id * token_id) : Prop :=
  match cap_view (o, TK_NONE) f with Some u => alias_step u u | None => o = TK_TAG end.

#[export] Instance view_self_aliasing_dec o f : Decision (view_self_aliasing o f).
Proof. unfold view_self_aliasing. destruct (cap_view _ _); apply _. Defined.

Lemma view_self_aliasing_known :
  forall o, o ∈ [TK_VAL; TK_BOX; TK_TAG] -> forall c, c ∈ all_caps -> forall e, e ∈ all_ephs ->
  view_self_aliasing o (c, e).
Proof. by_computation. Qed.

Lemma alias_single_spec t c e :
  get_cap_eph t = Ret (c, e) -> known_cap c e ->
  exists t', alias_single t = Ret (Some t') /\ with_cap_eph t c (alias_eph c e) = Ret t'.
Proof.
  intros Hget [Hc He]. unfold alias_single. rewrite Hget. cbn.
  destruct (with_cap_eph_spec t c e c (alias_eph c e) Hget) as (t' & Hw & _).
  exists t'. split; [|done].
  assert (t' = t \/ alias_eph c e <> e) as Hsame.
  { destruct (decide (alias_eph c e = e)) as [E|]; [left|by right].
    rewrite E, (with_cap_eph_same t c e Hget) in Hw. by injection Hw. }
  repeat (apply elem_of_cons in He as [->|He]); [| | |by apply elem_of_nil in He]; cbn in *.
  - repeat (apply elem_of_cons in Hc as [->|Hc]); [..|by apply elem_of_nil in Hc]; cbn in *;
      rewrite ?Hw; cbn; try done; destruct Hsame as [->|Hne]; done.
  - by rewrite Hw.
  - destruct Hsame as [->|Hne]; done.
Qed.

Section alias_facts.
Context `{TypeAliases}.

Definition self_aliasing (lhs : ast) : Prop := tk_in (ast_id lhs) [TK_VAL; TK_BOX; TK_TAG] = true.

Definition alias_exact (a b : token_id * token_id) : Prop := b = (a.1, alias_eph a.1 a.2).

Lemma alias_map Q A : cap_map alias known_cap Q A alias_exact self_aliasing.
Proof.
  split.
  - intros n t c e Hid Hget Hk. destruct (alias_single_spec t c e Hget Hk) as (t' & Hrun & Hw).
    exists c, (alias_eph c e), t'. cbn [alias]. split; [by kind_of_type Hid|]. done.
  - intros n t g Hid _ Hc. cbn [alias].
    rewrite (append_all_ret _ g) by done. by kind_of_type Hid.
  - intros n t u Hid Hu. cbn [alias]. rewrite Hid. unfold on_unfolded. by rewrite Hu.
  - intros n t lhs rhs rest r Hid Hch _ Hr. cbn [alias]. rewrite Hid. unfold two_children.
    rewrite Hch. cbn. rewrite Hr. cbn. unfold self_aliasing.
    destruct (ast_id lhs); (by left) || (by right).
  - intros n t Hid. cbn [alias]. by kind_of_type Hid.
Qed.
End alias_facts.

(** ** Two operations in a row *)

Section composition.
Context `{TypeAliases}.

Lemma ast_id_rebuild t l : ast_id (rebuild t l) = ast_id t.
Proof. done. Qed.

(** The result of an operation that changes every arrow is acceptable for the next. *)
Lemma cap_rel_ok R V P Q A P' Q' t t' :
  (forall c e c' e', R (c, e) (c', e') -> P c e -> P' c' e') ->
  (forall t l, Q t -> is_compound (ast_id t) = true -> Q' (rebuild t l)) ->
  (forall lhs, V lhs -> A lhs -> False) ->
  type_ok P Q A t -> cap_rel R V t t' -> type_ok P' Q' A t'.
Proof.
  intros HP HQ HV. revert t'. induction t as [t IH] using rank_ind. intros t' Hok Hrel.
  destruct Hrel as [t t' c e c' e' Hid Hget Hw HR|t l' Hid Hall|t u t' Hid Hu Hrel
    |t lhs rhs rest rhs' Hid Hch HnV Hrel|t lhs rhs rest Hid Hch Hlhs|t Hid].
  - destruct (with_cap_eph_spec t c e c' e' Hget) as (t1 & Hw1 & Hget1 & Hid1 & _).
    rewrite Hw in Hw1. injection Hw1 as <-. eapply ok_single; [by rewrite Hid1|done|].
    eapply HP; [done|]. destruct Hok as [t c1 e1 _ Hget' HPc|t Hid'|t u Hid'|t ? ? ? Hid'|t Hid'].
    + rewrite Hget in Hget'. injection Hget' as <- <-. done.
    + exfalso. kind_of_type Hid; rewrite Hid in Hid'; done.
    + exfalso. kind_of_type Hid; rewrite Hid in Hid'; done.
    + exfalso. kind_of_type Hid; rewrite Hid in Hid'; done.
    + exfalso. kind_of_type Hid; rewrite Hid in Hid'; done.
  - destruct Hok as [t c1 e1 Hid' _ _|t _ HQt Hok|t u Hid' _ _|t ? ? ? Hid' _ _ _|t Hid'].
    + exfalso. kind_of_type Hid; rewrite Hid in Hid'; done.
    + apply ok_compound; [done|by apply HQ|]. cbn. rewrite Forall_forall in Hok.
      apply Forall_forall. intros c' Hc'.
      apply list_elem_of_lookup in Hc' as [i Hi].
      destruct (Forall2_lookup_r _ _ _ _ _ Hall Hi) as (c & Hci & Hrel).
      assert (c ∈ children t) as Hc by by eapply list_elem_of_lookup_2.
      apply (IH c); [by apply rank_compound|by apply Hok|done].
    + exfalso. kind_of_type Hid; rewrite Hid in Hid'; done.
    + exfalso. kind_of_type Hid; rewrite Hid in Hid'; done.
    + exfalso. kind_of_type Hid; rewrite Hid in Hid'; done.
  - destruct Hok as [t c1 e1 Hid' _ _|t Hid' _ _|t u' _ Hu' Hok|t ? ? ? Hid' _ _ _|t Hid'];
      try (rewrite Hid in Hid'; done).
    assert (u' = u) as -> by congruence. apply (IH u); [by apply rank_unfold|done|done].
  - destruct Hok as [t c1 e1 Hid' _ _|t Hid' _ _|t u Hid' _ _|t lhs1 rhs1 rest1 _ Hch' HA Hok|t Hid'];
      try (rewrite Hid in Hid'; done).
    rewrite Hch in Hch'. injection Hch' as <- <- <-.
    eapply ok_arrow; [done|done|done|]. apply (IH rhs); [|done|done].
    by eapply rank_arrow.
  - destruct Hok as [t c1 e1 Hid' _ _|t Hid' _ _|t u Hid' _ _|t lhs1 rhs1 rest1 _ Hch' HA Hok|t Hid'];
      try (rewrite Hid in Hid'; done).
    rewrite Hch in Hch'. injection Hch' as <- <- <-. by destruct (HV lhs).
  - by apply ok_other.
Qed.

(** Doing one operation and then another relates the first type to the last. *)
Lemma cap_rel_trans R1 R2 V P Q A t t1 t2 :
  (forall lhs, V lhs -> A lhs -> False) -> type_ok P Q A t ->
  cap_rel R1 V t t1 -> cap_rel R2 V t1 t2 ->
  cap_rel (fun a c => exists b, R1 a b /\ R2 b c) V t t2.
Proof.
  intros HV. revert t1 t2. induction t as [t IH] using rank_ind. intros t1 t2 Hok Hrel1 Hrel2.
  destruct Hrel1 as [t t1 c e c' e' Hid Hget Hw HR|t l' Hid Hall|t u t1 Hid Hu Hrel1
    |t lhs rhs rest rhs' Hid Hch HnV Hrel1|t lhs rhs rest Hid Hch Hlhs|t Hid].
  - destruct (with_cap_eph_spec t c e c' e' Hget) as (t1' & Hw1 & Hget1 & Hid1 & Hww).
    rewrite Hw in Hw1. injection Hw1 as <-.
    destruct Hrel2 as [t1 t2 c1 e1 c2 e2 Hid2 Hget2 Hw2 HR2|t1 l' Hid2 _|t1 u t2 Hid2 _ _
      |t1 lhs rhs rest rhs' Hid2 _ _ _|t1 lhs rhs rest Hid2 _ _|t1 Hid2];
      try (exfalso; kind_of_type Hid; rewrite Hid1, Hid in Hid2; done).
    rewrite Hget1 in Hget2. injection Hget2 as <- <-.
    eapply rel_single; [done|done|by rewrite <- Hww|]. eauto.
  - remember (rebuild t l') as t1 eqn:Ht1.
    destruct Hrel2 as [t1 t2 c1 e1 c2 e2 Hid2 _ _ _|t1 l2 _ Hall2|t1 u t2 Hid2 _ _
      |t1 lhs rhs rest rhs' Hid2 _ _ _|t1 lhs rhs rest Hid2 _ _|t1 Hid2]; subst t1;
      try (exfalso; kind_of_type Hid; rewrite ast_id_rebuild, Hid in Hid2; done).
    destruct Hok as [t c1 e1 Hid' _ _|t _ _ Hok|t u Hid' _ _|t ? ? ? Hid' _ _ _|t Hid'];
      try (exfalso; kind_of_type Hid; rewrite Hid in Hid'; done).
    change (rebuild (rebuild t l') l2) with (rebuild t l2). apply rel_compound; [done|].
    cbn in Hall2. rewrite Forall_forall in Hok.
    apply Forall2_same_length_lookup. apply Forall2_same_length_lookup in Hall as [Hl1 H1].
    apply Forall2_same_length_lookup in Hall2 as [Hl2 H2]. split; [congruence|].
    intros i x z Hx Hz. assert (is_Some (l' !! i)) as [y Hy].
    { apply lookup_lt_is_Some. apply lookup_lt_Some in Hx. lia. }
    assert (x ∈ children t) as Hin by by eapply list_elem_of_lookup_2.
    apply (IH x) with (t1 := y); [by apply rank_compound|by apply Hok|by eapply H1|by eapply H2].
  - destruct Hok as [t c1 e1 Hid' _ _|t Hid' _ _|t u' _ Hu' Hok|t ? ? ? Hid' _ _ _|t Hid'];
      try (rewrite Hid in Hid'; done).
    assert (u' = u) as -> by congruence. eapply rel_alias; [done|done|].
    apply (IH u) with (t1 := t1); [by apply rank_unfold|done..].
  - destruct Hok as [t c1 e1 Hid' _ _|t Hid' _ _|t u Hid' _ _|t lhs1 rhs1 rest1 _ Hch' HA Hok|t Hid'];
      try (rewrite Hid in Hid'; done).
    rewrite Hch in Hch'. injection Hch' as <- <- <-.
    remember (arrow_from t lhs rhs') as t1 eqn:Ht1.
    destruct Hrel2 as [t1 t2 c1 e1 c2 e2 Hid2 _ _ _|t1 l2 Hid2 Hall2|t1 u t2 Hid2 _ _
      |t1 lhs2 rhs2 rest2 rhs2' Hid2 Hch2 _ Hrel2|t1 lhs2 rhs2 rest2 Hid2 Hch2 HV2|t1 Hid2]; subst t1; try done.
    + cbn in Hch2. injection Hch2 as <- <- <-.
      change (arrow_from (arrow_from t lhs rhs') lhs rhs2') with (arrow_from t lhs rhs2').
      eapply rel_arrow; [done|done|done|]. apply (IH rhs) with (t1 := rhs'); [|done..].
      by eapply rank_arrow.
    + cbn in Hch2. injection Hch2 as <- <- <-. by destruct (HV lhs).
  - destruct Hok as [t c1 e1 Hid' _ _|t Hid' _ _|t u Hid' _ _|t lhs1 rhs1 rest1 _ Hch' HA Hok|t Hid'];
      try (rewrite Hid in Hid'; done).
    rewrite Hch in Hch'. injection Hch' as <- <- <-. by destruct (HV lhs).
  - destruct Hrel2 as [t t2 c1 e1 c2 e2 Hid2 _ _ _|t l2 Hid2 Hall2|t u t2 Hid2 _ _
      |t lhs2 rhs2 rest2 rhs2' Hid2 _ _ _|t lhs2 rhs2 rest2 Hid2 _ HV2|t Hid2];
      try (exfalso; kind_of_type Hid; rewrite Hid in Hid2; done). by apply rel_other.
Qed.
End composition.

(** ** Consuming *)

(** What [consume_type] without a capability does to a single type. *)
Definition consume_step (a b : token_id * token_id) : Prop :=
  b = (a.1, if tk_eqb a.2 TK_NONE then TK_EPHEMERAL else a.2).

Lemma consume_cap_known :
  forall c, c ∈ all_caps -> forall e, e ∈ all_ephs ->
  consume_cap c e TK_NONE true = Ret (Some (c, if tk_eqb e TK_NONE then TK_EPHEMERAL else e)).
Proof. by_computation. Qed.

Section consume_facts.
Context `{TypeAliases} `{CompatTypes}.

(** The elements of an intersection are compatible. *)
Definition compatible_elements (t : ast) : Prop :=
  ast_id t = TK_ISECTTYPE ->
  exists x y rest, children t = x :: y :: rest /\ is_compat_type x y = true.

Lemma consume_map A :
  cap_map (fun n t => consume_type n t TK_NONE true) known_cap compatible_elements A consume_step
    (fun _ => False).
Proof.
  split.
  - intros n t c e Hid Hget [Hc He].
    pose proof (consume_cap_known c Hc e He) as Hcons.
    destruct (with_cap_eph_spec t c e c (if tk_eqb e TK_NONE then TK_EPHEMERAL else e) Hget)
      as (t' & Hw & _).
    eexists _, _, t'. cbn [consume_type]. split; [|split; [exact Hw|done]].
    assert (consume_single t TK_NONE true = Ret (Some t')) as Hs.
    { unfold consume_single. rewrite Hget. cbn [mbind outcome_bind]. rewrite Hcons. cbn.
      by rewrite Hw. }
    by kind_of_type Hid.
  - intros n t g Hid Hq Hc. cbn [consume_type].
    assert (append_non_null (fun c => consume_type n c TK_NONE true) (children t) = Ret (g <$> children t))
      as Hnn by by apply append_non_null_ret.
    kind_of_type Hid.
    + rewrite Hnn. done.
    + destruct (Hq Hid) as (x & y & rest & Hch & Hcompat).
      unfold two_children. rewrite Hch in Hnn |- *. cbn [mbind outcome_bind].
      rewrite Hcompat. cbn [negb]. by rewrite Hnn.
    + rewrite (append_until_null_ret _ g) by done. done.
  - intros n t u Hid Hu. cbn [consume_type]. rewrite Hid. unfold on_unfolded. by rewrite Hu.
  - intros n t lhs rhs rest r Hid Hch _ Hr. cbn [consume_type]. rewrite Hid. unfold two_children.
    rewrite Hch. cbn. rewrite Hr. left. by split; [tauto|].
  - intros n t Hid. cbn [consume_type]. by kind_of_type Hid.
Qed.

(** Types whose single types have no alias modifier. *)
Definition plain_cap (c e : token_id) : Prop := c ∈ all_caps /\ e = TK_NONE.

Lemma type_ok_weaken P P' Q A t :
  (forall c e, P c e -> P' c e) -> type_ok P Q A t -> type_ok P' Q A t.
Proof.
  intros HP. induction t as [t IH] using rank_ind. intros Hok.
  destruct Hok as [t c e Hid Hget Hc|t Hid HQ Hall|t u Hid Hu Hok|t lhs rhs rest Hid Hch HA Hok|t Hid].
  - eapply ok_single; eauto.
  - apply ok_compound; [done|done|]. rewrite Forall_forall in *. intros c Hc.
    apply IH; [by apply rank_compound|auto].
  - eapply ok_alias; [done|done|]. apply IH; [by apply rank_unfold|done].
  - eapply ok_arrow; [done..|]. apply IH; [|done]. by eapply rank_arrow.
  - by apply ok_other.
Qed.

Lemma cap_rel_weaken (R R' : token_id * token_id -> token_id * token_id -> Prop) V V' P Q A t t' :
  (forall c e b, P c e -> R (c, e) b -> R' (c, e) b) -> (forall lhs, A lhs -> V lhs <-> V' lhs) ->
  type_ok P Q A t -> cap_rel R V t t' -> cap_rel R' V' t t'.
Proof.
  intros HR HV. revert t'. induction t as [t IH] using rank_ind. intros t' Hok Hrel.
  destruct Hrel as [t t' c e c' e' Hid Hget Hw Hstep|t l' Hid Hall|t u t' Hid Hu Hrel
    |t lhs rhs rest rhs' Hid Hch HnV Hrel|t lhs rhs rest Hid Hch Hlhs|t Hid].
  - destruct Hok as [t c1 e1 _ Hget' Hp|t Hid' _ _|t u Hid' _ _|t ? ? ? Hid' _ _ _|t Hid'];
      try (exfalso; kind_of_type Hid; rewrite Hid in Hid'; done).
    rewrite Hget in Hget'. injection Hget' as <- <-. eapply rel_single; eauto.
  - destruct Hok as [t c1 e1 Hid' _ _|t _ HQ Hok|t u Hid' _ _|t ? ? ? Hid' _ _ _|t Hid'];
      try (exfalso; kind_of_type Hid; rewrite Hid in Hid'; done).
    apply rel_compound; [done|]. rewrite Forall_forall in Hok.
    apply Forall2_same_length_lookup in Hall as [Hl H1]. apply Forall2_same_length_lookup.
    split; [done|]. intros i x y Hx Hy.
    assert (x ∈ children t) as Hin by by eapply list_elem_of_lookup_2.
    apply IH; [by apply rank_compound|by apply Hok|by eapply H1].
  - destruct Hok as [t c1 e1 Hid' _ _|t Hid' _ _|t u' _ Hu' Hok|t ? ? ? Hid' _ _ _|t Hid'];
      try (rewrite Hid in Hid'; done).
    assert (u' = u) as -> by congruence. eapply rel_alias; [done|done|].
    apply IH; [by apply rank_unfold|done|done].
  - destruct Hok as [t c1 e1 Hid' _ _|t Hid' _ _|t u Hid' _ _|t lhs1 rhs1 rest1 _ Hch' HA Hok|t Hid'];
      try (rewrite Hid in Hid'; done).
    rewrite Hch in Hch'. injection Hch' as <- <- <-. eapply rel_arrow; [done|done|by rewrite <- HV|].
    apply IH; [|done|done]. by eapply rank_arrow.
  - destruct Hok as [t c1 e1 Hid' _ _|t Hid' _ _|t u Hid' _ _|t lhs1 rhs1 rest1 _ Hch' HA Hok|t Hid'];
      try (rewrite Hid in Hid'; done).
    rewrite Hch in Hch'. injection Hch' as <- <- <-. eapply rel_view; [done|done|by apply HV].
  - by apply rel_other.
Qed.
End consume_facts.

(** ** Recovering *)

(** What the capability of an object may become when it leaves a recover expression. *)
Definition recover_limit (a : token_id * token_id) : token_id * token_id :=
  match a.1 with
  | TK_TRN | TK_REF => (TK_ISO, TK_EPHEMERAL)
  | TK_VAL | TK_BOX | TK_CAP_READ => (TK_VAL, TK_NONE)
  | _ => a
  end.

(** The capability and ephemerality that [recover_single] gives a type outside tuples. *)
Definition recovered (c e rcap : token_id) : outcome (option (token_id * token_id)) :=
  r ← recover_cap c e rcap None;
  Ret (match r with
       | Some (cap, rec_eph, _) => Some (cap, if rec_eph : bool then TK_EPHEMERAL else e)
       | None => None
       end).

(** The claim of [recover_exact] about one case, in a decidable form. *)
Definition recover_exact_case (c e rcap : token_id) : Prop :=
  match recovered c e rcap with
  | Ret (Some b) => cap_sub (recover_limit (c, e)) b /\ cap_sub (recover_limit (c, e)) (rcap, TK_NONE)
  | Ret None => ~ cap_sub (recover_limit (c, e)) (rcap, TK_NONE)
  | _ => False
  end.

#[export] Instance recover_exact_case_dec c e rcap : Decision (recover_exact_case c e rcap).
Proof. unfold recover_exact_case. destruct (recovered c e rcap) as [[b|]| | |]; apply _. Defined.

(** Chaining: the receiver type and the type of the chained call. *)
Definition chain_result (c e fun_cap : token_id) (recovered_call : bool)
    : outcome (token_id * token_id) :=
  r ← chain_cap c e fun_cap recovered_call;
  Ret (match r with
       | ChainSame => (c, e)
       | ChainAliasTwice => (c, alias_eph c (alias_eph c e))
       | ChainCap => (fun_cap, TK_NONE)
       end).

Definition chain_case (c fun_cap : token_id) : Prop :=
  cap_sub (c, TK_EPHEMERAL) (fun_cap, TK_NONE) ->
  match chain_result c TK_EPHEMERAL fun_cap false with
  | Ret b => cap_sub (c, TK_EPHEMERAL) b
  | _ => False
  end.

#[export] Instance chain_case_dec c fun_cap : Decision (chain_case c fun_cap).
Proof.
  unfold chain_case. destruct (chain_result c TK_EPHEMERAL fun_cap false) as [b| | |]; apply _.
Defined.

Definition consume_exact_case (c e ccap : token_id) : Prop :=
  match consume_cap c e ccap true with
  | Ret (Some b) => cap_sub (c, TK_EPHEMERAL) b /\ cap_sub (c, TK_EPHEMERAL) (ccap, TK_NONE)
  | Ret None => ~ cap_sub (c, TK_EPHEMERAL) (ccap, TK_NONE)
  | _ => False
  end.

#[export] Instance consume_exact_case_dec c e ccap : Decision (consume_exact_case c e ccap).
Proof. unfold consume_exact_case. destruct (consume_cap c e ccap true) as [[b|]| | |]; apply _. Defined.

Lemma recover_exact_cases :
  forall c, c ∈ concrete_caps -> forall e, e ∈ [TK_NONE; TK_EPHEMERAL] ->
  forall rcap, rcap ∈ concrete_caps -> recover_exact_case c e rcap.
Proof. by_computation. Qed.

Lemma concrete_known : forall c, c ∈ concrete_caps -> c ∈ all_caps.
Proof. by_computation. Qed.

Lemma chain_cases :
  forall c, c ∈ concrete_caps -> forall fun_cap, fun_cap ∈ concrete_caps -> chain_case c fun_cap.
Proof. by_computation. Qed.

Lemma consume_exact_cases :
  forall c, c ∈ concrete_caps -> forall e, e ∈ all_ephs ->
  forall ccap, ccap ∈ concrete_caps -> consume_exact_case c e ccap.
Proof. by_computation. Qed.

(** ** Removing isolation *)

(** What [unisolated] does to a single type. *)
Definition unisolated_step (a b : token_id * token_id) : Prop :=
  b = (unisolated_mod a.1 a.2).2 /\ (is_eph b.2 = true \/ tk_in b.1 [TK_ISO; TK_TRN; TK_NHB] = false).

(** The left sides of an arrow that [modified_cap] leaves alone here. *)
Definition kept_left (lhs : ast) : Prop :=
  tk_in (ast_id lhs) [TK_THISTYPE; TK_REF; TK_VAL; TK_BOX; TK_TAG] = true.

Lemma unisolated_step_mod c e : unisolated_step (c, e) (unisolated_mod c e).2.
Proof.
  split; [done|]. unfold unisolated_mod. cbn. unfold is_eph.
  destruct (tk_eqb e TK_EPHEMERAL) eqn:E; cbn; [by left|]. right.
  destruct c; cbn; reflexivity.
Qed.

Lemma unisolated_map `{TypeAliases} :
  cap_map unisolated (fun _ _ => True) (fun _ => True) kept_left unisolated_step (fun _ => False).
Proof.
  split.
  - intros n t c e Hid Hget _. pose proof (unisolated_step_mod c e) as Hstep.
    assert (modified_cap_single t unisolated_mod =
      (t' ← with_cap_eph t (unisolated_mod c e).2.1 (unisolated_mod c e).2.2; Ret (Some t'))) as Hrun.
    { unfold modified_cap_single. rewrite Hget. cbn [mbind outcome_bind].
      destruct (unisolated_mod c e) as [changed [c' e']] eqn:E. cbn. destruct changed; [done|].
      assert (c' = c /\ e' = e) as [-> ->].
      { unfold unisolated_mod in E. repeat case_match; by simplify_eq. }
      by rewrite (with_cap_eph_same t c e Hget). }
    destruct (with_cap_eph_spec t c e (unisolated_mod c e).2.1 (unisolated_mod c e).2.2 Hget)
      as (t' & Hw & _).
    eexists _, _, t'. split; [|split; [exact Hw|]].
    + unfold unisolated. cbn [modified_cap]. kind_of_type Hid; by rewrite Hrun, Hw.
    + by destruct (unisolated_mod c e) as [changed [c' e']].
  - intros n t g Hid _ Hc. unfold unisolated in *. cbn [modified_cap].
    rewrite (append_all_ret _ g) by done. by kind_of_type Hid.
  - intros n t u Hid Hu. unfold unisolated. cbn [modified_cap]. rewrite Hid. unfold on_unfolded.
    by rewrite Hu.
  - intros n t lhs rhs rest r Hid Hch HA Hr. left. unfold unisolated in *.
    cbn [modified_cap]. rewrite Hid. unfold two_children. rewrite Hch. cbn [mbind outcome_bind].
    assert (modified_cap n lhs unisolated_mod = Ret (Some lhs)) as ->.
    { destruct n as [|n]; [done|]. cbn [modified_cap].
      unfold kept_left in HA. by destruct (ast_id lhs). }
    cbn. rewrite Hr. by split; [tauto|].
  - intros n t Hid. unfold unisolated. cbn [modified_cap]. by kind_of_type Hid.
Qed.

(** ** Properties *)

(** For the witnesses: no aliases, and every two types compatible. *)
#[program] Definition no_aliases : TypeAliases :=
  {| typealias_unfold := fun _ => Ret None; rank := height |}.
Next Obligation. intros t c _. apply height_child. Qed.
Next Obligation.
  intros t lhs rhs rest _ Hch. split; apply height_child; rewrite Hch; [left|right; left].
Qed.
Next Obligation. done. Qed.

Definition all_compatible : CompatTypes := {| is_compat_type := fun _ _ => true |}.

Definition leaf (id : token_id) : ast := Node id 0 0 [].
Definition nominal (name : Z) (cap eph : token_id) : ast :=
  Node TK_NOMINAL 0 name [leaf TK_NONE; leaf TK_ID; leaf TK_NONE; leaf cap; leaf eph].

(** [(A iso, this->B trn)] *)
Definition sample_type : ast :=
  Node TK_TUPLETYPE 0 0 [nominal 1 TK_ISO TK_NONE;
    Node TK_ARROW 0 0 [leaf TK_THISTYPE; nominal 2 TK_TRN TK_NONE]].

Lemma sample_type_ok (T : TypeAliases) P Q (A : ast -> Prop) :
  P TK_ISO TK_NONE -> P TK_TRN TK_NONE -> Q sample_type -> A (leaf TK_THISTYPE) ->
  @type_ok T P Q A sample_type.
Proof.
  intros H1 H2 HQ HA. apply ok_compound; [done|done|]. constructor; [|constructor; [|constructor]].
  - by eapply ok_single.
  - eapply ok_arrow; [done|done|done|]. by eapply ok_single.
Qed.

(** C31: [alias] returns a type on every type whose capabilities are known, however deep
    its aliases, and the type has the same structure.  Every capability it changes, and
    it changes all except those behind an arrow through [val], [box] or [tag], is the
    strongest it may be: an ephemeral one loses exactly its modifier, and for any other
    one, in every instantiation of a generic capability, the result is the least
    supertype of the original that may coexist with it, by what the two permit and deny
    ([iso] becomes [tag], [trn] becomes [box]).  And what is seen through [val] or [box]
    is already its own alias, whatever the capability of the field ([tag] cannot be seen
    through), which is why those arrows are left alone. *)
Theorem alias_supertype `{TypeAliases} t fuel :
  type_ok known_cap (fun _ => True) (fun _ => True) t -> rank t < fuel ->
  (exists t', alias fuel t = Ret (Some t') /\ cap_rel alias_step self_aliasing t t') /\
  (forall o, o ∈ [TK_VAL; TK_BOX; TK_TAG] -> forall c, c ∈ all_caps -> forall e, e ∈ all_ephs ->
     view_self_aliasing o (c, e)).
Proof.
  intros Hok Hfuel. split; [|exact view_self_aliasing_known].
  destruct (cap_map_total _ _ _ _ _ _ t fuel (alias_map _ _) Hok Hfuel) as (t' & Hrun & Hrel).
  exists t'. split; [done|].
  refine (cap_rel_weaken _ _ _ _ _ _ _ _ _ _ _ Hok Hrel); [|done].
  intros c e b [Hc He] ->. by apply alias_step_known.
Qed.

Lemma alias_supertype_witness :
  let T := no_aliases in
  type_ok known_cap (fun _ => True) (fun _ => True) sample_type /\
  (exists t', alias 5 sample_type = Ret (Some t') /\ cap_rel alias_step self_aliasing sample_type t').
Proof.
  assert (forall T : TypeAliases, type_ok known_cap (fun _ => True) (fun _ => True) sample_type) as Hok.
  { intros T. apply sample_type_ok; [split; by_computation..|done|done]. }
  split; [apply Hok|]. apply (alias_supertype (H := no_aliases)); [apply Hok|cbn; lia].
Defined.

(** C36: consuming and then aliasing gives a type back, on these types: no capability has
    a modifier, no arrow has [val], [box] or [tag] on its left (there [alias] leaves the
    consumed type as it is and it does not come back, see [consume_alias_view]), and the
    first two elements of every intersection are compatible.  Such a type can be consumed
    without a target capability and keeping ephemerality, and the alias of the result is
    the type again, its aliases unfolded. *)
Theorem consume_alias_roundtrip `{TypeAliases} `{CompatTypes} t fuel :
  type_ok plain_cap compatible_elements (fun lhs => ~ self_aliasing lhs) t -> rank t < fuel ->
  exists t1, consume_type fuel t TK_NONE true = Ret (Some t1) /\
    forall fuel1, rank t1 < fuel1 ->
    exists t2, alias fuel1 t1 = Ret (Some t2) /\ cap_rel eq (fun _ => False) t t2.
Proof.
  intros Hok Hfuel.
  assert (type_ok known_cap compatible_elements (fun lhs => ~ self_aliasing lhs) t) as Hok1.
  { eapply type_ok_weaken; [|exact Hok]. intros c e [Hc ->]. split; [done|left]. }
  destruct (cap_map_total _ _ _ _ _ _ t fuel (consume_map _) Hok1 Hfuel) as (t1 & Hrun1 & Hrel1).
  exists t1. split; [exact Hrun1|]. intros fuel1 Hfuel1.
  assert (type_ok known_cap (fun _ => True) (fun lhs => ~ self_aliasing lhs) t1) as Hok2.
  { refine (cap_rel_ok _ _ _ _ _ _ _ _ _ _ _ _ Hok1 Hrel1); [|done..].
    intros c e c' e' [= -> ->] [Hc He]. split; [done|]. cbn.
    destruct (tk_eqb e TK_NONE); [right; left|done]. }
  destruct (cap_map_total _ _ _ _ _ _ t1 fuel1 (alias_map _ _) Hok2 Hfuel1) as (t2 & Hrun2 & Hrel2).
  exists t2. split; [done|].
  assert (cap_rel consume_step self_aliasing t t1) as Hrel1'.
  { refine (cap_rel_weaken _ _ _ _ _ _ _ _ _ _ _ Hok Hrel1); done. }
  pose proof (cap_rel_trans _ _ _ _ _ _ t t1 t2 (fun lhs HV HA => HA HV) Hok1 Hrel1' Hrel2) as Hrel.
  refine (cap_rel_weaken _ _ _ _ _ _ _ _ _ _ _ Hok Hrel); [|done].
  intros c e d [Hc ->] (b & -> & ->). done.
Qed.

Lemma consume_alias_roundtrip_witness :
  let T := no_aliases in let C := all_compatible in
  type_ok plain_cap compatible_elements (fun lhs => ~ self_aliasing lhs) sample_type /\
  exists t1, consume_type 5 sample_type TK_NONE true = Ret (Some t1) /\
    forall fuel1, rank t1 < fuel1 ->
    exists t2, alias fuel1 t1 = Ret (Some t2) /\ cap_rel eq (fun _ => False) sample_type t2.
Proof.
  cbv zeta.
  assert (@type_ok no_aliases plain_cap (@compatible_elements all_compatible)
    (fun lhs => ~ self_aliasing lhs) sample_type) as Hok.
  { apply sample_type_ok; [split; by_computation..|done|done]. }
  split; [exact Hok|].
  apply (consume_alias_roundtrip (H := no_aliases) (H0 := all_compatible)); [exact Hok|cbn; lia].
Defined.

(** [consume_type] to a given capability is exact on concrete capabilities: a type can
    be consumed to [ccap] if and only if its ephemeral form is a subtype of [ccap], and the
    result is a supertype of that ephemeral form. *)
Theorem consume_single_exact t c e ccap :
  get_cap_eph t = Ret (c, e) -> c ∈ concrete_caps -> e ∈ all_ephs -> ccap ∈ concrete_caps ->
  (cap_sub (c, TK_EPHEMERAL) (ccap, TK_NONE) ->
   exists t' b, consume_single t ccap true = Ret (Some t') /\ get_cap_eph t' = Ret b /\
                cap_sub (c, TK_EPHEMERAL) b) /\
  (~ cap_sub (c, TK_EPHEMERAL) (ccap, TK_NONE) -> consume_single t ccap true = Ret None).
Proof.
  intros Hget Hc He Hcc. pose proof (consume_exact_cases c Hc e He ccap Hcc) as Hcase.
  unfold consume_exact_case in Hcase. unfold consume_single. rewrite Hget. cbn [mbind outcome_bind].
  destruct (consume_cap c e ccap true) as [[[c' e']|]| | |]; cbn; try done.
  destruct Hcase as [Hsub Hin]. destruct (with_cap_eph_spec t c e c' e' Hget) as (t' & -> & Hget' & _).
  split; [|done]. intros _. by exists t', (c', e').
Qed.

Lemma consume_single_exact_witness :
  let t := nominal 1 TK_TRN TK_NONE in
  exists t' b, consume_single t TK_VAL true = Ret (Some t') /\ get_cap_eph t' = Ret b /\
               cap_sub (TK_TRN, TK_EPHEMERAL) b.
Proof.
  apply (consume_single_exact (nominal 1 TK_TRN TK_NONE) TK_TRN TK_NONE TK_VAL);
    [reflexivity|by_computation|by_computation|by_computation|reflexivity].
Defined.

(** C32: [recover_single] outside tuples is exact on concrete capabilities: the type may
    leave a recover expression as [rcap] if and only if the strongest capability it may
    leave with ([iso^] for [trn] and [ref], [val] for [box]) is a subtype of [rcap], and
    the recovered type is a supertype of that strongest capability. *)
Theorem recover_single_exact t c e rcap :
  get_cap_eph t = Ret (c, e) -> c ∈ concrete_caps -> e ∈ [TK_NONE; TK_EPHEMERAL] ->
  rcap ∈ concrete_caps ->
  (cap_sub (recover_limit (c, e)) (rcap, TK_NONE) ->
   exists t' b, recover_single t rcap None = Ret (Some t', None) /\ get_cap_eph t' = Ret b /\
                cap_sub (recover_limit (c, e)) b) /\
  (~ cap_sub (recover_limit (c, e)) (rcap, TK_NONE) -> recover_single t rcap None = Ret (None, None)).
Proof.
  intros Hget Hc He Hr. pose proof (recover_exact_cases c Hc e He rcap Hr) as Hcase.
  assert (Helem : forall cap b el, recover_cap c e rcap None = Ret (Some (cap, b, el)) -> el = None).
  { unfold recover_cap. intros cap b el.
    repeat (case_match; try done); by intros [= _ _ <-]. }
  unfold recover_exact_case, recovered in Hcase. unfold recover_single. rewrite Hget.
  cbn [mbind outcome_bind].
  destruct (recover_cap c e rcap None) as [[[[cap rec_eph] el]|]| | |] eqn:E; cbn in Hcase |- *; try done.
  rewrite (Helem _ _ _ eq_refl). destruct Hcase as [Hsub Hin].
  destruct (with_cap_eph_spec t c e cap (if rec_eph : bool then TK_EPHEMERAL else e) Hget)
    as (t' & -> & Hget' & _).
  split; [|done]. intros _. eexists t', _. split; [done|]. split; [exact Hget'|done].
Qed.

Lemma recover_single_exact_witness :
  let t := nominal 1 TK_REF TK_NONE in
  exists t' b, recover_single t TK_VAL None = Ret (Some t', None) /\ get_cap_eph t' = Ret b /\
               cap_sub (recover_limit (TK_REF, TK_NONE)) b.
Proof.
  apply (recover_single_exact (nominal 1 TK_REF TK_NONE) TK_REF TK_NONE TK_VAL);
    [reflexivity|by_computation|by_computation|by_computation|reflexivity].
Defined.

(** A chained call on an ephemeral receiver of a concrete capability that the method
    accepts does not fail an assertion, and its type is a supertype of the receiver's. *)
Theorem chain_type_receiver `{TypeAliases} t c fun_cap fuel :
  is_single (ast_id t) = true -> get_cap_eph t = Ret (c, TK_EPHEMERAL) -> c ∈ concrete_caps ->
  fun_cap ∈ concrete_caps -> cap_sub (c, TK_EPHEMERAL) (fun_cap, TK_NONE) ->
  exists t' b, chain_type (S fuel) t fun_cap false = Ret (Some t') /\ get_cap_eph t' = Ret b /\
               cap_sub (c, TK_EPHEMERAL) b.
Proof.
  intros Hid Hget Hc Hf Hsub. pose proof (chain_cases c Hc fun_cap Hf Hsub) as Hcase.
  assert (known_cap c TK_EPHEMERAL) as Hk.
  { split; [by apply concrete_known|right; left]. }
  assert (fun_cap <> TK_NONE) as Hne.
  { intros ->. revert Hf. by_computation. }
  unfold chain_result in Hcase.
  destruct (chain_cap c TK_EPHEMERAL fun_cap false) as [r| | |] eqn:E; cbn in Hcase; try done.
  assert (chain_type (S fuel) t fun_cap false =
    match r with
    | ChainSame => Ret (Some t)
    | ChainAliasTwice =>
        a ← alias_single t; match a with None => Abort | Some a => alias_single a end
    | ChainCap => set_cap_and_ephemeral 1 t fun_cap TK_NONE
    end) as ->.
  { cbn [chain_type]. kind_of_type Hid; rewrite Hget; cbn [mbind outcome_bind]; by rewrite E. }
  destruct r.
  - exists t, (c, TK_EPHEMERAL). done.
  - destruct (alias_single_spec t c _ Hget Hk) as (t1 & Hrun1 & Hw1).
    destruct (with_cap_eph_spec t c TK_EPHEMERAL c (alias_eph c TK_EPHEMERAL) Hget)
      as (t1' & Hw1' & Hget1 & _). rewrite Hw1 in Hw1'. injection Hw1' as <-.
    assert (known_cap c (alias_eph c TK_EPHEMERAL)) as Hk1 by (split; [apply Hk|left]).
    destruct (alias_single_spec t1 c _ Hget1 Hk1) as (t2 & Hrun2 & Hw2).
    destruct (with_cap_eph_spec t1 c _ c (alias_eph c (alias_eph c TK_EPHEMERAL)) Hget1)
      as (t2' & Hw2' & Hget2 & _). rewrite Hw2 in Hw2'. injection Hw2' as <-.
    rewrite Hrun1. cbn [mbind outcome_bind]. rewrite Hrun2. eauto.
  - destruct (with_cap_eph_spec t c TK_EPHEMERAL fun_cap TK_NONE Hget) as (t' & Hw & Hget' & _).
    exists t', (fun_cap, TK_NONE). split; [|done].
    assert (tk_eqb fun_cap TK_NONE = false) as Hneb by (by destruct (tk_eqb_spec fun_cap TK_NONE)).
    cbn [set_cap_and_ephemeral]. kind_of_type Hid; rewrite Hget; cbn [mbind outcome_bind];
      rewrite Hneb, Hw; done.
Qed.

Lemma chain_type_receiver_witness :
  let T := no_aliases in let t := nominal 1 TK_ISO TK_EPHEMERAL in
  exists t' b, chain_type 1 t TK_REF false = Ret (Some t') /\ get_cap_eph t' = Ret b /\
               cap_sub (TK_ISO, TK_EPHEMERAL) b.
Proof.
  apply (chain_type_receiver (H := no_aliases) (nominal 1 TK_ISO TK_EPHEMERAL) TK_ISO TK_REF 0);
    [reflexivity|reflexivity|by_computation|by_computation|reflexivity].
Defined.

(** [unisolated] returns a type without isolation on every type whose arrows have a
    left side it keeps: apart from ephemeral ones no [iso], [trn] or [nhb] is left, and the
    other capabilities stay as they are. *)
Theorem unisolated_total `{TypeAliases} t fuel :
  type_ok (fun _ _ => True) (fun _ => True) kept_left t -> rank t < fuel ->
  exists t', unisolated fuel t = Ret (Some t') /\ cap_rel unisolated_step (fun _ => False) t t'.
Proof. apply cap_map_total, unisolated_map. Qed.

Lemma unisolated_total_witness :
  let T := no_aliases in
  type_ok (fun _ _ => True) (fun _ => True) kept_left sample_type /\
  exists t', unisolated 5 sample_type = Ret (Some t') /\
             cap_rel unisolated_step (fun _ => False) sample_type t'.
Proof.
  assert (forall T : TypeAliases, type_ok (fun _ _ => True) (fun _ => True) kept_left sample_type) as Hok.
  { intros T. by apply sample_type_ok. }
  split; [apply Hok|]. apply (unisolated_total (H := no_aliases)); [apply Hok|cbn; lia].
Defined.

(** *** What modelling showed *)

(** Consuming and aliasing are not inverse through [val], [box] and [tag]: consuming an
    arrow makes its right side ephemeral and aliasing leaves the result as it is. *)
Lemma consume_alias_view :
  let t := Node TK_ARROW 0 0 [leaf TK_BOX; nominal 2 TK_REF TK_NONE] in
  let t1 := Node TK_ARROW 0 0 [leaf TK_BOX; nominal 2 TK_REF TK_EPHEMERAL] in
  @consume_type no_aliases all_compatible 2 t TK_NONE true = Ret (Some t1) /\
  @alias no_aliases 2 t1 = Ret (Some t1) /\ t1 <> t.
Proof. split; [reflexivity|]. split; [reflexivity|done]. Qed.

(** [recover_single] has no case for [nhb]. *)
Lemma recover_nhb_aborts t e rcap elem :
  get_cap_eph t = Ret (TK_NHB, e) -> recover_single t rcap elem = Abort.
Proof. intros Hget. unfold recover_single. by rewrite Hget. Qed.

(** A [tag] that is written as an aliased [iso] can be consumed as a [val]. *)
Lemma consume_aliased_iso t :
  get_cap_eph t = Ret (TK_ISO, TK_ALIASED) ->
  (exists t', consume_single t TK_VAL false = Ret (Some t') /\ get_cap_eph t' = Ret (TK_VAL, TK_ALIASED)) /\
  ~ cap_sub (TK_ISO, TK_ALIASED) (TK_VAL, TK_ALIASED).
Proof.
  intros Hget. destruct (with_cap_eph_spec t _ _ TK_VAL TK_ALIASED Hget) as (t' & Hw & Hget' & _).
  split; [|by_computation]. exists t'. split; [|done]. unfold consume_single. rewrite Hget. cbn. by rewrite Hw.
Qed.

(** [chain_type] asserts that a receiver it does not keep is ephemeral or unmodified, but a
    method that a [tag] accepts may be called on an aliased [iso]. *)
Lemma chain_aliased_iso_aborts `{TypeAliases} t fuel :
  ast_id t = TK_NOMINAL -> get_cap_eph t = Ret (TK_ISO, TK_ALIASED) ->
  chain_type (S fuel) t TK_TAG false = Abort /\ cap_sub (TK_ISO, TK_ALIASED) (TK_TAG, TK_NONE).
Proof. intros Hid Hget. split; [|by_computation]. cbn [chain_type]. rewrite Hid, Hget. done. Qed.
