(* ===== verification/TypeAlias.v ===== *)
(** * Unfolding type aliases: [src/libponyc/type/typealias.c]

    [typealias_unfold] replaces a reference to an alias by the body of the alias until the
    head is not an alias, and guards against cycles with the list of the definitions it has
    visited.  [ast_data] of a reference points to a definition in a store of trees.  The
    reification of the body ([reify.c]) is an interface.  The last section makes
    [typealias_unfold] an instance of the interface [TypeAliases] of [Alias.v]. *)
From S2P Require Import Prelude Token Ast Cap Alias.
From stdpp Require Import gmap fin_maps.
Local Set Warnings "-register-all".

(** [reify(ast, typeparams, typeargs, NULL, true)]: a fresh copy of the tree with the type
    arguments in place of the parameters, or null. *)
Class Reify := { reify : ast -> ast -> ast -> option ast }.

(** ** Applying the capability of the reference *)

(** [ast_setid] on a child that is there. *)
Definition set_child_checked (t : ast) (idx : nat) (id : token_id) : outcome ast :=
  match ast_childidx t idx with
  | None => Abort
  | Some _ => Ret (set_child_id t idx id)
  end.

Definition apply_cap_single (t : ast) (tcap teph : token_id) : outcome ast :=
  i ← cap_index t;
  t ← (if tk_eqb tcap TK_NONE then Ret t else set_child_checked t i tcap);
  if tk_eqb teph TK_NONE then Ret t else set_child_checked t (S i) teph.

(** The tree is changed in place: the result is the tree afterwards. *)
Fixpoint apply_cap_to_type (t : ast) (tcap teph : token_id) : outcome ast :=
  match t with
  | Node id tok data l =>
      match id with
      | TK_UNIONTYPE | TK_ISECTTYPE | TK_TUPLETYPE =>
          l ← mapO (fun c => apply_cap_to_type c tcap teph) l; Ret (Node id tok data l)
      | TK_NOMINAL | TK_TYPEPARAMREF | TK_TYPEALIASREF => apply_cap_single t tcap teph
      | TK_ARROW =>
          match l with
          | lhs :: rhs :: rest =>
              rhs ← apply_cap_to_type rhs tcap teph; Ret (Node id tok data (lhs :: rhs :: rest))
          | _ => Abort
          end
      | _ => Ret t
      end
  end.

(** It does not run out of fuel, as it takes none. *)
Lemma apply_cap_single_fuel t tcap teph : apply_cap_single t tcap teph <> NoFuel.
Proof.
  unfold apply_cap_single, cap_index, set_child_checked.
  destruct (ast_id t); cbn; try done; repeat case_match; cbn; repeat case_match; done.
Qed.

Lemma apply_cap_fuel t tcap teph : apply_cap_to_type t tcap teph <> NoFuel.
Proof.
  induction t as [id tok data l IH] using ast_tree_ind. cbn [apply_cap_to_type].
  assert (mapO (fun c => apply_cap_to_type c tcap teph) l <> NoFuel) as Hl.
  { clear id. induction IH as [|c l Hc _ IHl]; [done|]. cbn.
    destruct (apply_cap_to_type c tcap teph); [|done..]. cbn. by destruct (mapO _ l). }
  pose proof (apply_cap_single_fuel (Node id tok data l) tcap teph) as Hs.
  destruct id; try done; try by destruct (mapO _ l).
  destruct l as [|lhs [|rhs rest]]; try done. apply Forall_cons in IH as [_ [IH _]%Forall_cons].
  by destruct (apply_cap_to_type rhs tcap teph).
Qed.

(** ** Unfolding *)

Section unfold.
Context (defs : gmap Z ast) `{Reify}.

Definition unfold_one (t : ast) : outcome (option ast) :=
  match defs !! ast_data t with
  | None => Abort
  | Some def =>
      if negb (tk_eqb (ast_id def) TK_TYPE) then Abort
      else
        match children t, children def with
        | id :: typeargs :: cap :: eph :: _, alias_id :: typeparams :: def_cap :: provides :: _ =>
            match ast_child provides with
            | None => Abort
            | Some body =>
                match reify body typeparams typeargs with
                | None => Ret None
                | Some r_alias =>
                    if negb (tk_eqb (ast_id cap) TK_NONE) || negb (tk_eqb (ast_id eph) TK_NONE) then
                      r ← apply_cap_to_type r_alias (ast_id cap) (ast_id eph); Ret (Some r)
                    else Ret (Some r_alias)
                end
            end
        | _, _ => Abort
        end
  end.

(** The loop, on [visited] and [r_alias]. *)
Fixpoint unfold_loop (fuel : nat) (visited : list Z) (r_alias : option ast)
    : outcome (option ast) :=
  match r_alias with
  | None => Ret None
  | Some r =>
      if negb (tk_eqb (ast_id r) TK_TYPEALIASREF) then Ret (Some r)
      else
        match fuel with
        | O => NoFuel
        | S fuel =>
            let def := ast_data r in
            if bool_decide (def ∈ visited) then Abort
            else next ← unfold_one r; unfold_loop fuel (visited ++ [def]) next
        end
  end.

Definition typealias_unfold (t : ast) : outcome (option ast) :=
  if negb (tk_eqb (ast_id t) TK_TYPEALIASREF) then Abort
  else
    r_alias ← unfold_one t;
    unfold_loop (size defs) [ast_data t] r_alias.

(** *** What it computes *)

(** The chain of bodies that starts at a reference and ends at a type that is not an alias,
    or at a body that does not reify, with the definitions it goes through. *)
Inductive unfolds : ast -> list Z -> option ast -> Prop :=
| unfolds_null t : unfold_one t = Ret None -> unfolds t [ast_data t] None
| unfolds_head t u :
    unfold_one t = Ret (Some u) -> ast_id u <> TK_TYPEALIASREF -> unfolds t [ast_data t] (Some u)
| unfolds_step t u ds r :
    unfold_one t = Ret (Some u) -> ast_id u = TK_TYPEALIASREF -> unfolds u ds r ->
    unfolds t (ast_data t :: ds) r.

Lemma unfold_one_def t r : unfold_one t = Ret r -> ast_data t ∈ dom defs.
Proof. unfold unfold_one. destruct (defs !! ast_data t) eqn:E; [|done]. intros _. by apply elem_of_dom_2 in E. Qed.

Lemma unfold_one_fuel t : unfold_one t <> NoFuel.
Proof.
  unfold unfold_one. repeat (case_match; try done).
  match goal with |- context[apply_cap_to_type ?a ?c ?e] => pose proof (apply_cap_fuel a c e) as Hf end.
  by destruct (apply_cap_to_type _ _ _).
Qed.

(** The visited definitions are different entries of the store, so that there is always
    enough fuel. *)
Lemma unfold_loop_fuel fuel visited r :
  NoDup visited -> (forall d, d ∈ visited -> d ∈ dom defs) -> visited <> [] ->
  size defs < fuel + length visited -> unfold_loop fuel visited r <> NoFuel.
Proof.
  revert visited r. induction fuel as [|fuel IH]; intros visited [r|] Hnd Hin Hne Hfuel; cbn; try done.
  - destruct (negb _); [done|]. exfalso.
    assert (length visited <= size defs); [|lia].
    rewrite <- size_dom, <- (size_list_to_set (C := gset Z)) by done.
    apply subseteq_size. intros d Hd. apply Hin. by apply elem_of_list_to_set in Hd.
  - destruct (negb _); [done|]. case_bool_decide as Hv; [done|].
    destruct (unfold_one r) as [next| | |] eqn:E; cbn; try done.
    + apply unfold_one_def in E. apply IH.
      * apply NoDup_app. split; [done|]. split; [|apply NoDup_singleton].
        intros x Hx Hx'. apply list_elem_of_singleton in Hx'. by subst.
      * intros d [Hd|Hd]%elem_of_app; [by apply Hin|]. apply list_elem_of_singleton in Hd. by subst.
      * by destruct visited.
      * rewrite length_app. cbn. lia.
    + by destruct (unfold_one_fuel r).
Qed.

Lemma unfolds_first t ds r : unfolds t ds r -> exists ds', ds = ast_data t :: ds'.
Proof. destruct 1; eauto. Qed.

(** The loop follows the chain as long as its definitions are new. *)
Lemma unfold_loop_sound fuel visited t r1 r :
  NoDup visited -> unfold_one t = Ret r1 -> unfold_loop fuel visited r1 = Ret r ->
  exists ds, unfolds t (ast_data t :: ds) r /\ NoDup (visited ++ ds).
Proof.
  revert visited t r1. induction fuel as [|fuel IH]; intros visited t [u|] Hnd Ht; cbn;
    try (intros [= <-]; exists []; rewrite app_nil_r; split; [by apply unfolds_null|done]).
  - destruct (tk_eqb_spec (ast_id u) TK_TYPEALIASREF) as [Hid|Hid]; cbn; [done|].
    intros [= <-]. exists []. rewrite app_nil_r. split; [by apply unfolds_head|done].
  - destruct (tk_eqb_spec (ast_id u) TK_TYPEALIASREF) as [Hid|Hid]; cbn.
    + case_bool_decide as Hv; [done|]. destruct (unfold_one u) as [next| | |] eqn:Hu; cbn; try done.
      intros Hrun. assert (NoDup (visited ++ [ast_data u])) as Hnd'.
      { apply NoDup_app. split; [done|]. split; [|apply NoDup_singleton].
        intros x Hx ->%list_elem_of_singleton. done. }
      destruct (IH _ u next Hnd' Hu Hrun) as (ds & Hds & Hall). exists (ast_data u :: ds).
      split; [by eapply unfolds_step|]. by rewrite <- app_assoc in Hall.
    + intros [= <-]. exists []. rewrite app_nil_r. split; [by apply unfolds_head|done].
Qed.

Lemma unfold_loop_complete fuel visited t ds r1 r :
  unfold_one t = Ret r1 -> unfolds t (ast_data t :: ds) r -> NoDup (visited ++ ds) ->
  unfold_loop fuel visited r1 = Ret r \/ unfold_loop fuel visited r1 = NoFuel.
Proof.
  revert visited t ds r1. induction fuel as [|fuel IH]; intros visited t ds r1 Ht Hun Hnd;
    inversion Hun as [? Ht'|? u Ht' Hid|? u ds' ? Ht' Hid Hu]; subst; rewrite Ht in Ht';
    injection Ht' as ->; cbn; try (by left); rewrite ?Hid; cbn; try (by right);
    try (left; by destruct (tk_eqb_spec (ast_id u) TK_TYPEALIASREF)).
  destruct (unfolds_first _ _ _ Hu) as [ds2 ->].
  case_bool_decide as Hv.
  - apply NoDup_app in Hnd as (_ & Hd & _). destruct (Hd _ Hv). left.
  - destruct (unfold_one u) as [next| | |] eqn:Hnext; cbn.
    + eapply IH; [done|done|]. by rewrite <- app_assoc.
    + by inversion Hu; congruence.
    + by inversion Hu; congruence.
    + by right.
Qed.

(** The head of the result is not an alias. *)
Lemma unfolds_result t ds u : unfolds t ds (Some u) -> ast_id u <> TK_TYPEALIASREF.
Proof. remember (Some u) as r eqn:Hr. induction 1; [done|by injection Hr as ->|auto]. Qed.

Lemma typealias_unfold_terminates t : typealias_unfold t <> NoFuel.
Proof.
  unfold typealias_unfold. destruct (negb _); [done|].
  destruct (unfold_one t) as [r1| | |] eqn:E; cbn; [|done|done|by destruct (unfold_one_fuel t)].
  pose proof (unfold_one_def t r1 E) as Hin. apply unfold_loop_fuel.
  - apply NoDup_singleton.
  - by intros d ->%list_elem_of_singleton.
  - done.
  - cbn. lia.
Qed.

Lemma typealias_unfold_spec t r :
  typealias_unfold t = Ret r <->
  ast_id t = TK_TYPEALIASREF /\ exists ds, unfolds t ds r /\ NoDup ds.
Proof.
  pose proof (typealias_unfold_terminates t) as Hterm. unfold typealias_unfold in *.
  destruct (tk_eqb_spec (ast_id t) TK_TYPEALIASREF) as [Hid|Hid]; cbn in *; [|by split; [|intros []]].
  split.
  - destruct (unfold_one t) as [r1| | |] eqn:E; cbn; try done. intros Hrun. split; [done|].
    destruct (unfold_loop_sound _ _ t r1 r (NoDup_singleton _) E Hrun) as (ds & Hds & Hnd). eauto.
  - intros (_ & ds & Hds & Hnd). destruct (unfolds_first _ _ _ Hds) as [ds' ->].
    destruct (unfold_one t) as [r1| | |] eqn:E; cbn in *; [|by inversion Hds; congruence..|done].
    by destruct (unfold_loop_complete (size defs) [ast_data t] t ds' r1 r).
Qed.
End unfold.

(** ** The interface of the operations on types *)

(** Definitions that are not recursive outside type arguments
    ([pass/typealias_recursion.c]): the levels of a type go down with every step of
    unfolding. *)
Class AliasOrder (defs : gmap Z ast) `{Reify} := {
  level : ast -> nat;
  level_compound t c :
    tk_in (ast_id t) [TK_UNIONTYPE; TK_ISECTTYPE; TK_TUPLETYPE] = true -> c ∈ children t ->
    level c < level t;
  level_arrow t lhs rhs rest :
    ast_id t = TK_ARROW -> children t = lhs :: rhs :: rest -> level lhs < level t /\ level rhs < level t;
  level_unfold_one t u :
    ast_id t = TK_TYPEALIASREF -> unfold_one defs t = Ret (Some u) -> level u < level t
}.

Lemma level_unfolds `{AliasOrder defs} t ds u :
  ast_id t = TK_TYPEALIASREF -> unfolds defs t ds (Some u) -> level u < level t.
Proof.
  remember (Some u) as r eqn:Hr. intros Hid Hun. revert Hid.
  induction Hun as [t|t v Ht Hv|t v ds r Ht Hv Hun IH]; intros Hid; [done|..].
  - injection Hr as ->. by apply level_unfold_one.
  - pose proof (level_unfold_one t v Hid Ht). specialize (IH Hr Hv). lia.
Qed.

#[export] #[program] Instance unfold_aliases `{AliasOrder defs} : TypeAliases :=
  {| Alias.typealias_unfold := typealias_unfold defs; rank := level |}.
Next Obligation. intros. by apply level_compound. Qed.
Next Obligation. intros. by eapply level_arrow. Qed.
Next Obligation. intros defs ? ? t u _ Hu. apply typealias_unfold_spec in Hu as (Hid & ds & Hds & _). by eapply level_unfolds. Qed.

(** ** Properties *)

(** For the witnesses: reification by substitution of the parameters of the definition, and
    three definitions, [type Id[T] is T], [type Opt is (A | N)] and [type Opt2 is Opt iso]. *)
Fixpoint substitute (params args : list ast) (t : ast) : ast :=
  match t with
  | Node TK_TYPEPARAMREF _ data _ =>
      from_option (fun ipa => ipa.2.2) t (list_find (fun pa => ast_data pa.1 = data) (zip params args))
  | Node id tok data l => Node id tok data (substitute params args <$> l)
  end.

#[export] Instance substitution : Reify :=
  {| reify := fun body params args => Some (substitute (children params) (children args) body) |}.

Definition alias_ref (def : Z) (args : list ast) (cap : token_id) : ast :=
  Node TK_TYPEALIASREF 0 def [leaf TK_ID; Node TK_TYPEARGS 0 0 args; leaf cap; leaf TK_NONE].
Definition alias_def (params : list ast) (body : ast) : ast :=
  Node TK_TYPE 0 0 [leaf TK_ID; Node TK_TYPEPARAMS 0 0 params; leaf TK_NONE; Node TK_PROVIDES 0 0 [body]].

Definition opt_body : ast :=
  Node TK_UNIONTYPE 0 0 [nominal 100 TK_REF TK_NONE; nominal 101 TK_VAL TK_NONE].
Definition plain_defs : gmap Z ast :=
  {[2 := alias_def [] opt_body; 3 := alias_def [] (alias_ref 2 [] TK_ISO)]}%Z.
Definition sample_defs : gmap Z ast :=
  (<[1 := alias_def [Node TK_TYPEPARAM 0 10 []]
           (Node TK_TYPEPARAMREF 0 10 [leaf TK_ID; leaf TK_NONE; leaf TK_NONE])]> plain_defs)%Z.

Fixpoint sample_level (t : ast) : nat :=
  match t with
  | Node (TK_UNIONTYPE | TK_ISECTTYPE | TK_TUPLETYPE | TK_ARROW) _ _ l =>
      S (foldr (fun c n => Nat.max (sample_level c) n) 0 l)
  | Node TK_TYPEALIASREF _ data _ => if (data =? 2)%Z then 2 else 3
  | _ => 0
  end.

Lemma foldr_max_elem (l : list ast) c :
  c ∈ l -> sample_level c <= foldr (fun c n => Nat.max (sample_level c) n) 0 l.
Proof. induction 1 as [|? ? ? ? IH]; cbn; lia. Qed.

Lemma sample_level_unfold t u :
  ast_id t = TK_TYPEALIASREF -> unfold_one plain_defs t = Ret (Some u) -> sample_level u < sample_level t.
Proof.
  destruct t as [id tok data l]. intros [= ->]. unfold unfold_one, plain_defs.
  destruct (decide (data = 2%Z)) as [->|H2]; [|destruct (decide (data = 3%Z)) as [->|H3]].
  - rewrite lookup_insert_eq. cbn. destruct l as [|i [|args [|cap [|eph rest]]]]; cbn; try done.
    destruct (tk_eqb (ast_id cap) TK_NONE), (tk_eqb (ast_id eph) TK_NONE) eqn:E; cbn; intros [= <-]; cbn; lia.
  - rewrite lookup_insert_ne, lookup_singleton_eq by done. cbn.
    destruct l as [|i [|args [|cap [|eph rest]]]]; cbn; try done.
    destruct (tk_eqb (ast_id cap) TK_NONE), (tk_eqb (ast_id eph) TK_NONE) eqn:E; cbn; intros [= <-]; cbn; lia.
  - cbn. rewrite lookup_insert_ne, lookup_singleton_ne by done. done.
Qed.

#[export] #[program] Instance plain_order : AliasOrder plain_defs := {| level := sample_level |}.
Next Obligation.
  intros [id tok data l] c Hid Hc%foldr_max_elem. cbn in *. kind_of_type Hid; cbn; subst; cbn; lia.
Qed.
Next Obligation.
  intros [id tok data l] lhs rhs rest [= ->] [= ->]. cbn. lia.
Qed.
Next Obligation. apply sample_level_unfold. Qed.

(** C35: [typealias_unfold] terminates on every store of definitions, cyclic ones included,
    and gives [r] exactly when following the bodies from a reference to an alias leads to
    [r] through definitions that are all different; the head of a type it returns is not an
    alias. *)
Theorem typealias_unfold_exact (defs : gmap Z ast) `{Reify} t :
  typealias_unfold defs t <> NoFuel /\
  (forall r, typealias_unfold defs t = Ret r <->
     ast_id t = TK_TYPEALIASREF /\ exists ds, unfolds defs t ds r /\ NoDup ds) /\
  (forall u, typealias_unfold defs t = Ret (Some u) -> ast_id u <> TK_TYPEALIASREF).
Proof.
  split; [apply typealias_unfold_terminates|]. split; [apply typealias_unfold_spec|].
  intros u (_ & ds & Hds & _)%typealias_unfold_spec. by eapply unfolds_result.
Qed.

(** The promise to the operations on types is kept: an alias of an alias is aliased as
    its body is, with the capability of the reference. *)
Lemma alias_through_aliases :
  typealias_unfold plain_defs (alias_ref 3 [] TK_NONE) =
    Ret (Some (Node TK_UNIONTYPE 0 0 [nominal 100 TK_ISO TK_NONE; nominal 101 TK_ISO TK_NONE])) /\
  exists t', alias 4 (alias_ref 3 [] TK_NONE) = Ret (Some t') /\
             cap_rel alias_exact self_aliasing (alias_ref 3 [] TK_NONE) t'.
Proof.
  split; [by vm_compute|].
  eapply cap_map_total; [apply (alias_map (fun _ => True) (fun _ => True))| |cbn; lia].
  eapply ok_alias; [done|by vm_compute|]. apply ok_compound; [done|done|].
  apply Forall_cons. split; [|apply Forall_cons; split; [|by apply Forall_nil]];
    (eapply ok_single; [done|by vm_compute|]);
    split; apply (bool_decide_unpack _); by vm_compute.
Qed.

(** *** What modelling showed *)

(** The guard compares definitions and not their arguments, so that a legal type without
    any cycle, [Id[Id[A]]] for [type Id[T] is T], is taken for one: the compiler aborts. *)
Lemma nested_identity_aborts :
  let t := alias_ref 1 [alias_ref 1 [nominal 100 TK_REF TK_NONE] TK_NONE] TK_NONE in
  unfolds sample_defs t [1; 1]%Z (Some (nominal 100 TK_REF TK_NONE)) /\
  typealias_unfold sample_defs t = Abort.
Proof.
  split; [|by vm_compute]. eapply (unfolds_step sample_defs (alias_ref 1 _ _)); [by vm_compute|done|].
  by apply (unfolds_head sample_defs (alias_ref 1 _ _)).
Qed.
