(* ===== verification/TypeAssume.v ===== *)
(** * Assumptions of recursive checks: [src/libponyc/type/type_assume.c]

    The checks on recursive types keep, per operation, a stack of the queries that are in
    progress; a query that matches one of them is on a cycle.  A stack is the list of its
    entries, the oldest first; the growth of its buffer is not modelled.  The matcher is
    structural, on the query. *)
From S2P Require Import Prelude Token Ast.
Local Set Warnings "-register-all".

Inductive type_assume_op_t := TYPE_ASSUME_SUBTYPE | TYPE_ASSUME_VIEWPOINT.

#[export] Instance type_assume_op_eq_dec : EqDecision type_assume_op_t.
Proof. solve_decision. Defined.

(** [b] is null for operations with one argument. *)
Record assume_entry_t := mk_assume_entry { entry_a : ast; entry_b : option ast }.

Abbreviation assume_stack_t := (list assume_entry_t).
Abbreviation assume_stacks_t := (type_assume_op_t -> assume_stack_t).

Definition no_assumptions : assume_stacks_t := fun _ => [].

Definition set_stack (st : assume_stacks_t) (op : type_assume_op_t) (s : assume_stack_t)
    : assume_stacks_t := fun op' => if decide (op' = op) then s else st op'.

(** ** Matching a query *)

(** The loop over two child lists: pairwise matches, and the same length. *)
Fixpoint all_match (f : ast -> ast -> outcome bool) (l l' : list ast) : outcome bool :=
  match l, l' with
  | q :: l, s :: l' =>
      b ← f q s; if b : bool then all_match f l l' else Ret false
  | [], [] => Ret true
  | _, _ => Ret false
  end.

Fixpoint is_assumption_match (query stored : ast) : outcome bool :=
  match query with
  | Node qid _ qdata ql =>
      if negb (tk_eqb qid (ast_id stored)) then Ret false
      else
        match qid with
        | TK_NONE => Ret true
        | TK_NOMINAL =>
            if negb (qdata =? ast_data stored)%Z then Ret false
            else
              match ql, ast_childidx stored 2 with
              | _ :: _ :: Node _ _ _ q_args :: _, Some s => all_match is_assumption_match q_args (children s)
              | _, _ => Abort
              end
        | TK_TYPEALIASREF =>
            if negb (qdata =? ast_data stored)%Z then Ret false
            else
              match ql, ast_childidx stored 1 with
              | _ :: Node _ _ _ q_args :: _, Some s => all_match is_assumption_match q_args (children s)
              | _, _ => Abort
              end
        | TK_TYPEPARAMREF => Ret (qdata =? ast_data stored)%Z
        | TK_UNIONTYPE | TK_ISECTTYPE | TK_TUPLETYPE => all_match is_assumption_match ql (children stored)
        | TK_ARROW =>
            match ql, children stored with
            | q_lhs :: q_rest, s_lhs :: s_rest =>
                b ← is_assumption_match q_lhs s_lhs;
                if b : bool then
                  match q_rest, s_rest with
                  | q_rhs :: _, s_rhs :: _ => is_assumption_match q_rhs s_rhs
                  | [], [] => Ret true
                  | _, _ => Ret false
                  end
                else Ret false
            | _, _ => Abort
            end
        | TK_ISO | TK_TRN | TK_REF | TK_VAL | TK_BOX | TK_TAG | TK_CAP_READ | TK_CAP_SEND
        | TK_CAP_SHARE | TK_CAP_ALIAS | TK_CAP_ANY | TK_THISTYPE => Ret true
        | _ => Ret false
        end
  end.

(** On pointers that may be null. *)
Definition is_assumption_match_ptr (query stored : option ast) : outcome bool :=
  match query, stored with
  | Some q, Some s => is_assumption_match q s
  | None, None => Ret true
  | _, _ => Ret false
  end.

(** ** The stacks *)

Definition push_assumption (st : assume_stacks_t) (op : type_assume_op_t) (a : ast) (b : option ast)
    : assume_stacks_t := set_stack st op (st op ++ [mk_assume_entry a b]).

(** The loop over the entries from index [i] on: the index of the first match, or -1. *)
Fixpoint find_assumption (l : assume_stack_t) (a : ast) (b : option ast) (i : Z) : outcome Z :=
  match l with
  | [] => Ret (-1)%Z
  | e :: l =>
      ma ← is_assumption_match a (entry_a e);
      mb ← (if ma : bool then is_assumption_match_ptr b (entry_b e) else Ret false);
      if mb : bool then Ret i else find_assumption l a b (i + 1)%Z
  end.

Definition type_assume_enter_indexed (st : assume_stacks_t) (op : type_assume_op_t) (a : ast)
    (b : option ast) : outcome (Z * assume_stacks_t) :=
  i ← find_assumption (st op) a b 0;
  if (0 <=? i)%Z then Ret (i, st) else Ret ((-1)%Z, push_assumption st op a b).

Definition type_assume_enter (st : assume_stacks_t) (op : type_assume_op_t) (a : ast)
    (b : option ast) : outcome (bool * assume_stacks_t) :=
  '(i, st) ← type_assume_enter_indexed st op a b; Ret ((i <? 0)%Z, st).

Definition type_assume_leave (st : assume_stacks_t) (op : type_assume_op_t) : outcome assume_stacks_t :=
  if (0 <? length (st op)) then Ret (set_stack st op (take (length (st op) - 1) (st op))) else Abort.

Definition type_assume_depth (st : assume_stacks_t) (op : type_assume_op_t) : Z :=
  Z.of_nat (length (st op)).

(** [a_data] and [b_data] are definition pointers, [b_data] possibly null (zero). *)
Definition same_def (a_data b_data : Z) (e : assume_entry_t) : bool :=
  (ast_data (entry_a e) =? a_data)%Z &&
  match entry_b e with
  | None => (b_data =? 0)%Z
  | Some b => negb (b_data =? 0)%Z && (ast_data b =? b_data)%Z
  end.

Definition type_assume_same_def_count (st : assume_stacks_t) (op : type_assume_op_t)
    (a_data b_data : Z) : outcome Z :=
  if (a_data =? 0)%Z then Abort
  else Ret (Z.of_nat (length (List.filter (same_def a_data b_data) (st op)))).

(** ** What the matcher compares *)

(** The part of a type that a query is compared by: everything but the capabilities, the
    ephemeralities and what identifies the package and the name of a definition. *)
Inductive skeleton := Skel (id : token_id) (data : Z) (parts : list skeleton).

Fixpoint skeleton_of (t : ast) : skeleton :=
  match t with
  | Node id _ data l =>
      match id with
      | TK_NOMINAL =>
          Skel id data (match l with _ :: _ :: Node _ _ _ args :: _ => skeleton_of <$> args | _ => [] end)
      | TK_TYPEALIASREF =>
          Skel id data (match l with _ :: Node _ _ _ args :: _ => skeleton_of <$> args | _ => [] end)
      | TK_TYPEPARAMREF => Skel id data []
      | TK_UNIONTYPE | TK_ISECTTYPE | TK_TUPLETYPE => Skel id 0 (skeleton_of <$> l)
      | TK_ARROW =>
          Skel id 0 (match l with lhs :: rhs :: _ => [skeleton_of lhs; skeleton_of rhs] | _ => [] end)
      | _ => Skel id 0 []
      end
  end.

(** The kinds of nodes the matcher knows; a query with another one matches nothing. *)
Definition known_leaf (id : token_id) : bool :=
  tk_in id [TK_NONE; TK_TYPEPARAMREF; TK_ISO; TK_TRN; TK_REF; TK_VAL; TK_BOX; TK_TAG; TK_CAP_READ;
            TK_CAP_SEND; TK_CAP_SHARE; TK_CAP_ALIAS; TK_CAP_ANY; TK_THISTYPE].

Fixpoint recognised (t : ast) : bool :=
  match t with
  | Node id _ _ l =>
      match id with
      | TK_NOMINAL => match l with _ :: _ :: Node _ _ _ args :: _ => forallb recognised args | _ => false end
      | TK_TYPEALIASREF => match l with _ :: Node _ _ _ args :: _ => forallb recognised args | _ => false end
      | TK_UNIONTYPE | TK_ISECTTYPE | TK_TUPLETYPE => forallb recognised l
      | TK_ARROW => match l with lhs :: rhs :: _ => recognised lhs && recognised rhs | _ => false end
      | _ => known_leaf id
      end
  end.

(** The children the matcher looks for are there. *)
Fixpoint type_wf (t : ast) : bool :=
  match t with
  | Node id _ _ l =>
      match id with
      | TK_NOMINAL => match l with _ :: _ :: Node _ _ _ args :: _ => forallb type_wf args | _ => false end
      | TK_TYPEALIASREF => match l with _ :: Node _ _ _ args :: _ => forallb type_wf args | _ => false end
      | TK_UNIONTYPE | TK_ISECTTYPE | TK_TUPLETYPE => forallb type_wf l
      | TK_ARROW => match l with lhs :: rhs :: _ => type_wf lhs && type_wf rhs | _ => false end
      | _ => true
      end
  end.

Definition same_skeleton (q s : ast) : Prop :=
  recognised q = true /\ skeleton_of q = skeleton_of s.

(** A test that is decided without a failed assertion. *)
Definition decides (o : outcome bool) (P : Prop) : Prop := exists b, o = Ret b /\ (b = true <-> P).

#[export] Instance decides_proper o : Proper (iff ==> iff) (decides o).
Proof. intros P Q HPQ. unfold decides. by setoid_rewrite HPQ. Qed.

Lemma decides_iff o (P Q : Prop) : decides o P -> (P <-> Q) -> decides o Q.
Proof. intros (b & ? & ?) ?. exists b. split; [done|]. tauto. Qed.

Lemma decides_false (P : Prop) : ~ P -> decides (Ret false) P.
Proof. intros. by exists false. Qed.

Lemma decides_true (P : Prop) : P -> decides (Ret true) P.
Proof. intros. by exists true. Qed.

Lemma all_match_decides f l l' :
  (forall x y, x ∈ l -> y ∈ l' -> decides (f x y) (same_skeleton x y)) ->
  decides (all_match f l l') (forallb recognised l = true /\ skeleton_of <$> l = skeleton_of <$> l').
Proof.
  revert l'. induction l as [|x l IH]; intros [|y l'] Hf; cbn; [by apply decides_true|..];
    try (by apply decides_false; intros [_ ?]).
  destruct (Hf x y) as (b & -> & Hb); [left..|]. cbn.
  rewrite andb_true_iff. destruct b.
  - eapply decides_iff; [apply IH; intros; apply Hf; by right|]. destruct Hb as [[Hr Hs] _]; [done|].
    split; [intros [? ?]; split_and!; congruence|]. intros [[_ ?] [= ? ?]]. done.
  - apply decides_false. intros [[Hr _] [= Hs _]]. by assert (false = true) by by apply Hb.
Qed.

Definition skeleton_id (k : skeleton) : token_id := match k with Skel id _ _ => id end.

Lemma skeleton_id_of t : skeleton_id (skeleton_of t) = ast_id t.
Proof. destruct t as [id tok data l]. by destruct id. Qed.

Lemma forallb_elem {A} (f : A -> bool) l x : forallb f l = true -> x ∈ l -> f x = true.
Proof. intros Hl Hx. rewrite forallb_forall in Hl. apply Hl. by apply list_elem_of_In. Qed.

(** The type arguments of a reference: the children of one of its children. *)
Lemma height_args id tok data l c x :
  c ∈ l -> x ∈ children c -> height x < height (Node id tok data l).
Proof.
  intros Hc Hx. apply height_child in Hx. pose proof (height_child (Node id tok data l) c Hc). lia.
Qed.

Lemma compound_decides id (l l' : list ast) (o : outcome bool) :
  decides o (forallb recognised l = true /\ skeleton_of <$> l = skeleton_of <$> l') ->
  decides o (forallb recognised l = true /\
             Skel id 0 (skeleton_of <$> l) = Skel id 0 (skeleton_of <$> l')).
Proof.
  intros Ho. eapply decides_iff; [exact Ho|]. split; [intros [? ->]; done|]. by intros [? [= ?]].
Qed.

Lemma data_decides id (data data' : Z) (l l' : list ast) (o : outcome bool) :
  (data = data' -> decides o (forallb recognised l = true /\ skeleton_of <$> l = skeleton_of <$> l')) ->
  decides (if negb (data =? data')%Z then Ret false else o)
    (forallb recognised l = true /\
     Skel id data (skeleton_of <$> l) = Skel id data' (skeleton_of <$> l')).
Proof.
  intros Ho. destruct (Z.eqb_spec data data') as [<-|Hne]; cbn.
  - eapply decides_iff; [by apply Ho|]. split; [intros [? ->]; done|]. by intros [? [= ?]].
  - apply decides_false. by intros [_ [= ?]].
Qed.

Lemma match_decides q s :
  type_wf q = true -> type_wf s = true ->
  decides (is_assumption_match q s) (same_skeleton q s).
Proof.
  remember (height q) as n eqn:Hn. revert q s Hn.
  induction n as [n IH] using lt_wf_ind. intros q s -> Hq Hs.
  destruct q as [id tok data l]. destruct s as [id' tok' data' l'].
  assert (forall k k', forallb type_wf k = true -> forallb type_wf k' = true ->
    (forall x, x ∈ k -> height x < height (Node id tok data l)) ->
    decides (all_match is_assumption_match k k')
      (forallb recognised k = true /\ skeleton_of <$> k = skeleton_of <$> k')) as Hall.
  { intros k k' Hk Hk' Hh. apply all_match_decides. intros x y Hx Hy.
    apply (IH (height x)); [by apply Hh|done|by apply (forallb_elem _ k)|by apply (forallb_elem _ k')]. }
  assert (forall x y, x ∈ l -> type_wf x = true -> type_wf y = true ->
    decides (is_assumption_match x y) (same_skeleton x y)) as Hone.
  { intros x y Hx. apply (IH (height x)); [|done]. by apply (height_child (Node id tok data l)). }
  destruct (tk_eqb_spec id id') as [<-|Hne].
  2:{ replace (is_assumption_match _ _) with (Ret false); [|cbn; destruct (tk_eqb_spec id id') as [Heq|]; [by destruct Hne|done]].
      apply decides_false. intros [_ Heq%(f_equal skeleton_id)]. by rewrite !skeleton_id_of in Heq. }
  unfold same_skeleton. cbn [is_assumption_match ast_id ast_data children ast_childidx].
  replace (tk_eqb id id) with true by (by destruct (tk_eqb_spec id id)). cbn [negb].
  destruct id; try (by apply decides_false; intros [? _]); try (by apply decides_true).
  all: cbn [recognised skeleton_of type_wf] in *.
  - (* arrows *)
    destruct l as [|q1 [|q2 ql]]; try done. destruct l' as [|s1 [|s2 sl]]; try done.
    apply andb_true_iff in Hq as [Hq1 Hq2]. apply andb_true_iff in Hs as [Hs1 Hs2].
    destruct (Hone q1 s1) as (b1 & -> & H1); [left|done|done|]. cbn. rewrite andb_true_iff.
    unfold same_skeleton in *. destruct b1.
    + eapply decides_iff; [apply Hone; [right; left|done|done]|]. destruct H1 as [[??] _]; [done|].
      split; [intros [??]; split; [done|congruence]|]. intros [[_ ?] [= _ ?]]. done.
    + apply decides_false. intros [[? _] [= ? _]]. by assert (false = true) by by apply H1.
  - apply compound_decides, Hall; [done|done|]. intros x. apply (height_child (Node _ tok data l)).
  - apply compound_decides, Hall; [done|done|]. intros x. apply (height_child (Node _ tok data l)).
  - apply compound_decides, Hall; [done|done|]. intros x. apply (height_child (Node _ tok data l)).
  - (* a nominal type: its definition and its type arguments *)
    destruct l as [|q1 [|q2 [|[i1 t1 d1 args] ql]]]; try done.
    destruct l' as [|s1 [|s2 [|[i2 t2 d2 args'] sl]]]; try done.
    apply data_decides. intros <-. apply Hall; [done|done|]. intros x.
    apply (height_args _ _ _ _ (Node i1 t1 d1 args)). right; right; left.
  - destruct (Z.eqb_spec data data') as [<-|Hne]; [by apply decides_true|].
    apply decides_false. by intros [_ [= ?]].
  - (* a reference to an alias *)
    destruct l as [|q1 [|[i1 t1 d1 args] ql]]; try done.
    destruct l' as [|s1 [|[i2 t2 d2 args'] sl]]; try done.
    apply data_decides. intros <-. apply Hall; [done|done|]. intros x.
    apply (height_args _ _ _ _ (Node i1 t1 d1 args)). right; left.
Qed.

(** ** Entering and leaving *)

Definition ptr_wf (t : option ast) : Prop := from_option (fun t => type_wf t = true) True t.

Definition entry_wf (e : assume_entry_t) : Prop := type_wf (entry_a e) = true /\ ptr_wf (entry_b e).

Definition query_matches (a : ast) (b : option ast) (e : assume_entry_t) : Prop :=
  same_skeleton a (entry_a e) /\
  match b, entry_b e with
  | Some q, Some s => same_skeleton q s
  | None, None => True
  | _, _ => False
  end.

Lemma entry_decides a b e :
  type_wf a = true -> ptr_wf b -> entry_wf e ->
  decides (ma ← is_assumption_match a (entry_a e);
           if ma : bool then is_assumption_match_ptr b (entry_b e) else Ret false)
    (query_matches a b e).
Proof.
  intros Ha Hb [Hea Heb]. unfold query_matches.
  destruct (match_decides a (entry_a e) Ha Hea) as (ma & -> & Hma). cbn. destruct ma.
  - assert (same_skeleton a (entry_a e)) as Hs by by apply Hma.
    destruct b as [q|], (entry_b e) as [s|]; cbn in *.
    + eapply decides_iff; [by apply match_decides|]. tauto.
    + apply decides_false. tauto.
    + apply decides_false. tauto.
    + by apply decides_true.
  - apply decides_false. intros [Hs _]. by assert (false = true) by by apply Hma.
Qed.

Lemma find_assumption_spec l a b i :
  type_wf a = true -> ptr_wf b -> Forall entry_wf l -> (0 <= i)%Z ->
  (find_assumption l a b i = Ret (-1)%Z /\ Forall (fun e => ~ query_matches a b e) l) \/
  exists before e after, l = before ++ e :: after /\
    find_assumption l a b i = Ret (i + Z.of_nat (length before))%Z /\ query_matches a b e /\
    Forall (fun e => ~ query_matches a b e) before.
Proof.
  intros Ha Hb Hl. revert i. induction Hl as [|e l He _ IH]; intros i Hi; [by left|].
  cbn [find_assumption]. destruct (entry_decides a b e Ha Hb He) as (m & Hrun & Hm).
  destruct (is_assumption_match a (entry_a e)) as [ma| | |]; cbn in Hrun |- *; try done.
  rewrite Hrun. cbn. destruct m.
  - right. exists [], e, l. split; [done|]. split; [by rewrite Z.add_0_r|]. split; [by apply Hm|done].
  - assert (~ query_matches a b e) as Hne by (intros H; by assert (false = true) by by apply Hm).
    destruct (IH (i + 1)%Z ltac:(lia)) as [[-> Hall]|(before & e' & after & -> & -> & Hq & Hall)].
    + left. split; [done|]. by constructor.
    + right. exists (e :: before), e', after. split; [done|]. split; [f_equal; cbn; lia|].
      split; [done|]. by constructor.
Qed.

(** No query of a stack is on a cycle: none matches an older one. *)
Definition acyclic_stack (l : assume_stack_t) : Prop :=
  forall before e after, l = before ++ e :: after ->
    Forall (fun e' => ~ query_matches (entry_a e) (entry_b e) e') before.

Lemma acyclic_push l a b :
  acyclic_stack l -> Forall (fun e => ~ query_matches a b e) l -> acyclic_stack (l ++ [mk_assume_entry a b]).
Proof.
  intros Hl Hnew before e after Heq. destruct (decide (after = [])) as [->|Hne].
  - apply app_inj_tail in Heq as [<- <-]. done.
  - destruct (exists_last Hne) as (after' & x & ->). rewrite app_comm_cons, app_assoc in Heq.
    apply app_inj_tail in Heq as [Heq _]. by apply (Hl before e after').
Qed.

Lemma leave_push st op a b :
  exists st', type_assume_leave (push_assumption st op a b) op = Ret st' /\ forall op', st' op' = st op'.
Proof.
  unfold type_assume_leave, push_assumption, set_stack. destruct (decide (op = op)); [|done].
  rewrite length_app. rewrite (proj2 (Nat.ltb_lt _ _)) by (cbn; lia).
  eexists. split; [done|]. intros op'. cbn. destruct (decide (op' = op)) as [->|]; [|done].
  rewrite take_app_le by lia. by rewrite take_ge by lia.
Qed.

(** ** Properties *)

(** The structural matcher compares two types up to capabilities: on types whose
    children are there it never asserts, and it holds exactly when the query consists of
    known kinds of nodes and both have the same definitions, type arguments and shape. *)
Theorem is_assumption_match_skeleton q s :
  type_wf q = true -> type_wf s = true ->
  exists b, is_assumption_match q s = Ret b /\
    (b = true <-> recognised q = true /\ skeleton_of q = skeleton_of s).
Proof. apply match_decides. Qed.

(** A query is entered unless it is on a cycle.  [type_assume_enter_indexed] returns the
    index of the oldest matching assumption and leaves the stacks alone, or -1 when there is
    none; then it adds the query to the stack of its operation only, which stays free of
    repeated queries, and [type_assume_leave] takes it off again. *)
Theorem type_assume_enter_cycle st op a b :
  type_wf a = true -> ptr_wf b -> Forall entry_wf (st op) -> acyclic_stack (st op) ->
  exists i st', type_assume_enter_indexed st op a b = Ret (i, st') /\ acyclic_stack (st' op) /\
    ((0 <= i)%Z /\ st' = st /\
     (exists before e after, st op = before ++ e :: after /\ i = Z.of_nat (length before) /\
        query_matches a b e /\ Forall (fun e => ~ query_matches a b e) before) \/
     i = (-1)%Z /\ Forall (fun e => ~ query_matches a b e) (st op) /\
     st' op = st op ++ [mk_assume_entry a b] /\ Forall entry_wf (st' op) /\
     (forall op', op' <> op -> st' op' = st op') /\
     exists st'', type_assume_leave st' op = Ret st'' /\ forall op', st'' op' = st op').
Proof.
  intros Ha Hb Hwf Hac. unfold type_assume_enter_indexed.
  destruct (find_assumption_spec (st op) a b 0 Ha Hb Hwf ltac:(lia))
    as [[-> Hall]|(before & e & after & Heq & -> & Hq & Hall)]; cbn.
  - exists (-1)%Z, (push_assumption st op a b). split; [done|].
    assert (push_assumption st op a b op = st op ++ [mk_assume_entry a b]) as Hp
      by (unfold push_assumption, set_stack; by destruct (decide (op = op))).
    rewrite Hp. split; [by apply acyclic_push|]. right. split_and!; try done.
    + apply Forall_app. split; [done|]. by constructor.
    + intros op' Hop. unfold push_assumption, set_stack. by destruct (decide (op' = op)).
    + apply leave_push.
  - rewrite (proj2 (Z.leb_le _ _)) by lia. eexists _, st. split; [done|].
    split; [done|]. left. split_and!; [lia|done|]. by exists before, e, after.
Qed.

Lemma type_assume_enter_cycle_witness :
  let t := Node TK_TYPEPARAMREF 0 7 [] in
  exists i st', type_assume_enter_indexed no_assumptions TYPE_ASSUME_VIEWPOINT t (Some t) = Ret (i, st') /\
    acyclic_stack (st' TYPE_ASSUME_VIEWPOINT).
Proof.
  intros t. destruct (type_assume_enter_cycle no_assumptions TYPE_ASSUME_VIEWPOINT t (Some t))
    as (i & st' & Hrun & Hac & _); [done|done|by constructor| |by exists i, st'].
  by intros [].
Defined.

Lemma is_assumption_match_skeleton_witness :
  let t id := Node TK_ARROW 0 0 [Node id 0 0 []; Node TK_TYPEPARAMREF 0 7 []] in
  exists b, is_assumption_match (t TK_THISTYPE) (t TK_BOX) = Ret b /\
    (b = true <-> recognised (t TK_THISTYPE) = true /\
                  skeleton_of (t TK_THISTYPE) = skeleton_of (t TK_BOX)).
Proof. intros t. by apply is_assumption_match_skeleton. Defined.
