(* ===== verification/Viewpoint.v ===== *)
(** * Viewpoint adaptation and sendability: [src/libponyc/type/viewpoint.c], [src/libponyc/type/alias.c]

    [viewpoint_type] computes the type of a field as it is seen through an origin, guarded
    by the assumptions of [TypeAssume.v]; [viewpoint_upper] and [viewpoint_lower] bound an
    arrow type whose view is not known; [sendable] decides whether a type may cross to
    another actor.  Every function leaves the assumptions as it found them, so that they
    are passed down and not returned.  The operations that substitute in types
    ([viewpoint_replace], [viewpoint_reify...]) are not modelled. *)
From S2P Require Import Prelude Token Ast Cap Alias TypeAssume.
Local Set Warnings "-register-all".

(** ** Viewpoint types *)

Inductive view_upper_t := VIEW_UPPER_NO | VIEW_UPPER_YES | VIEW_UPPER_FORCE.

(** The first switch of [viewpoint_type_impl] on a right side that is not compound and not
    an alias. *)
Definition right_upper (r_type : ast) : outcome view_upper_t :=
  match ast_id r_type with
  | TK_TYPEPARAMREF | TK_ARROW => Ret VIEW_UPPER_NO
  | TK_NOMINAL =>
      cap ← cap_fetch r_type;
      id ← ast_id_ptr cap;
      Ret match id with
          | TK_ISO | TK_TRN | TK_REF | TK_BOX => VIEW_UPPER_YES
          | TK_VAL | TK_TAG | TK_CAP_SHARE => VIEW_UPPER_FORCE
          | _ => VIEW_UPPER_NO
          end
  | _ => Abort
  end.

(** Don't compact through an unknown capability. *)
Definition unknown_left (upper : view_upper_t) : view_upper_t :=
  match upper with VIEW_UPPER_YES => VIEW_UPPER_NO | _ => upper end.

Section viewpoint.
Context `{TypeAliases}.

(** What surrounds the body of [viewpoint_type]: the assumption of the query. *)
Context (guard : assume_stacks_t -> ast -> ast -> (assume_stacks_t -> outcome (option ast)) ->
                 outcome (option ast)).

(** The end of [viewpoint_type_impl]: the arrow, or its upper bound when there is one. *)
Definition view_arrow (vu : assume_stacks_t -> ast -> outcome (option ast)) (st : assume_stacks_t)
    (l_type r_type : ast) (upper : view_upper_t) : outcome (option ast) :=
  let arrow := arrow_from l_type l_type r_type in
  match upper with
  | VIEW_UPPER_NO => Ret (Some arrow)
  | _ => arrow_upper ← vu st arrow; Ret (Some (default arrow arrow_upper))
  end.

(** Whether to compact, by the capability of a left side that has one; [None] for [ref]. *)
Definition left_compact (l_cap : token_id) (upper : view_upper_t) : option view_upper_t :=
  match l_cap with
  | TK_REF => None
  | TK_CAP_SEND | TK_CAP_SHARE | TK_CAP_READ | TK_CAP_ALIAS | TK_CAP_ANY => Some (unknown_left upper)
  | _ => Some upper
  end.

(** The second switch of [viewpoint_type_impl], and its end. *)
Definition viewpoint_left (vt : assume_stacks_t -> ast -> ast -> outcome (option ast))
    (vu : assume_stacks_t -> ast -> outcome (option ast)) (st : assume_stacks_t) (l_type r_type : ast)
    (upper : view_upper_t) : outcome (option ast) :=
  match ast_id l_type with
  | TK_NOMINAL | TK_TYPEPARAMREF =>
      cap ← cap_fetch l_type;
      id ← ast_id_ptr cap;
      match left_compact id upper with
      | None => Ret (Some r_type)
      | Some upper => view_arrow vu st l_type r_type upper
      end
  | TK_THISTYPE => view_arrow vu st l_type r_type (unknown_left upper)
  | TK_ISO | TK_TRN | TK_REF | TK_VAL | TK_BOX | TK_TAG => view_arrow vu st l_type r_type upper
  | TK_ARROW =>
      '(lhs, rhs) ← two_children l_type;
      r_right ← vt st rhs r_type;
      match r_right with
      | None => Abort
      | Some r_right => vt st lhs r_right
      end
  | TK_TYPEALIASREF => on_unfolded (fun u => vt st u r_type) l_type
  | _ => Abort
  end.

Definition viewpoint_type_impl (vt : assume_stacks_t -> ast -> ast -> outcome (option ast))
    (vu : assume_stacks_t -> ast -> outcome (option ast)) (st : assume_stacks_t) (l_type r_type : ast)
    : outcome (option ast) :=
  match ast_id r_type with
  | TK_UNIONTYPE | TK_ISECTTYPE | TK_TUPLETYPE =>
      l ← append_all (vt st l_type) (children r_type); Ret (Some (rebuild r_type l))
  | TK_TYPEALIASREF => on_unfolded (vt st l_type) r_type
  | _ => upper ← right_upper r_type; viewpoint_left vt vu st l_type r_type upper
  end.

(** The common code of [viewpoint_upper] and [viewpoint_lower], which differ in the view of
    capabilities and in the capability of [this]. *)
Definition viewpoint_bound
    (view : token_id -> token_id -> token_id -> token_id -> outcome (bool * (token_id * token_id)))
    (this_cap : token_id) (vt : assume_stacks_t -> ast -> ast -> outcome (option ast))
    (bound : assume_stacks_t -> ast -> outcome (option ast)) (st : assume_stacks_t) (t : ast)
    : outcome (option ast) :=
  let finish (r_right : ast) (l_cap l_eph : token_id) :=
    '(r_cap, r_eph) ← get_cap_eph r_right;
    '(ok, (r_cap, r_eph)) ← view l_cap l_eph r_cap r_eph;
    if ok : bool then set_cap_and_ephemeral 1 r_right r_cap r_eph
    else Ret None in
  if negb (tk_eqb (ast_id t) TK_ARROW) then Abort
  else
    '(lhs, rhs) ← two_children t;
    match ast_id rhs with
    | TK_TYPEALIASREF => on_unfolded (vt st lhs) rhs
    | TK_NOMINAL | TK_TYPEPARAMREF | TK_ARROW =>
        r_right ← (if tk_eqb (ast_id rhs) TK_ARROW then bound st rhs else Ret (Some rhs));
        match r_right with
        | None => Ret None
        | Some r_right =>
            match ast_id lhs with
            | TK_ISO | TK_TRN | TK_REF | TK_VAL | TK_BOX | TK_TAG => finish r_right (ast_id lhs) TK_NONE
            | TK_THISTYPE => finish r_right this_cap TK_NONE
            | TK_NOMINAL | TK_TYPEPARAMREF =>
                '(l_cap, l_eph) ← get_cap_eph lhs; finish r_right l_cap l_eph
            | TK_TYPEALIASREF => on_unfolded (fun u => vt st u r_right) lhs
            | _ => Abort
            end
        end
    | _ => Abort
    end.

Fixpoint viewpoint_type_guarded (fuel : nat) (st : assume_stacks_t) (l_type r_type : ast)
    : outcome (option ast) :=
  match fuel with
  | O => NoFuel
  | S fuel =>
      guard st l_type r_type (fun st =>
        viewpoint_type_impl (viewpoint_type_guarded fuel) (viewpoint_upper_guarded fuel) st l_type r_type)
  end
with viewpoint_upper_guarded (fuel : nat) (st : assume_stacks_t) (t : ast) : outcome (option ast) :=
  match fuel with
  | O => NoFuel
  | S fuel =>
      viewpoint_bound cap_view_upper TK_BOX (viewpoint_type_guarded fuel) (viewpoint_upper_guarded fuel) st t
  end.

Fixpoint viewpoint_lower_guarded (fuel : nat) (st : assume_stacks_t) (t : ast) : outcome (option ast) :=
  match fuel with
  | O => NoFuel
  | S fuel =>
      viewpoint_bound cap_view_lower TK_CAP_READ (viewpoint_type_guarded fuel)
        (viewpoint_lower_guarded fuel) st t
  end.
End viewpoint.

(** [type_assume_enter], the body, [type_assume_leave]; on a cycle the right side as it is. *)
Definition under_assumption (st : assume_stacks_t) (l_type r_type : ast)
    (body : assume_stacks_t -> outcome (option ast)) : outcome (option ast) :=
  '(entered, st) ← type_assume_enter st TYPE_ASSUME_VIEWPOINT l_type (Some r_type);
  if negb entered then Ret (Some r_type)
  else
    result ← body st;
    _ ← type_assume_leave st TYPE_ASSUME_VIEWPOINT;
    Ret result.

Section operations.
Context `{TypeAliases}.

Definition viewpoint_type := viewpoint_type_guarded under_assumption.
Definition viewpoint_upper := viewpoint_upper_guarded under_assumption.
Definition viewpoint_lower := viewpoint_lower_guarded under_assumption.

(** ** Sendability *)

(** The concrete capabilities of the left side of an arrow that [sendable] splits. *)
Definition left_split (lhs : ast) : outcome (list token_id) :=
  match ast_id lhs with
  | TK_THISTYPE => Ret [TK_REF; TK_VAL; TK_BOX]
  | TK_NOMINAL | TK_TYPEPARAMREF | TK_TYPEALIASREF =>
      l_cap ← cap_fetch lhs;
      id ← ast_id_ptr l_cap;
      Ret match id with
          | TK_CAP_READ => [TK_REF; TK_VAL; TK_BOX]
          | TK_CAP_SEND => [TK_ISO; TK_VAL; TK_TAG]
          | TK_CAP_SHARE => [TK_VAL; TK_TAG]
          | TK_CAP_ALIAS => [TK_REF; TK_VAL; TK_BOX; TK_TAG]
          | TK_CAP_ANY => [TK_ISO; TK_TRN; TK_REF; TK_VAL; TK_BOX; TK_TAG]
          | _ => []
          end
  | _ => Ret []
  end.

(** A loop that stops at the first element that fails. *)
Fixpoint all_ok {A} (f : A -> outcome bool) (l : list A) : outcome bool :=
  match l with
  | [] => Ret true
  | x :: l => ok ← f x; if ok : bool then all_ok f l else Ret false
  end.

Fixpoint sendable (fuel : nat) (st : assume_stacks_t) (t : ast) : outcome bool :=
  match fuel with
  | O => NoFuel
  | S fuel =>
      let sendable_upper (arrow : ast) :=
        upper ← viewpoint_upper fuel st arrow;
        match upper with
        | None => Ret false
        | Some upper => sendable fuel st upper
        end in
      match ast_id t with
      | TK_UNIONTYPE | TK_ISECTTYPE | TK_TUPLETYPE => all_ok (sendable fuel st) (children t)
      | TK_ARROW =>
          '(lhs, rhs) ← two_children t;
          caps ← left_split lhs;
          match caps with
          | [] => sendable_upper t
          | _ => all_ok (fun cap => sendable_upper (arrow_from t (ast_from lhs cap) rhs)) caps
          end
      | TK_NOMINAL | TK_TYPEPARAMREF => '(cap, _) ← get_cap_eph t; Ret (cap_sendable cap)
      | TK_TYPEALIASREF =>
          u ← typealias_unfold t;
          match u with
          | None => Ret false
          | Some unfolded => sendable fuel st unfolded
          end
      | TK_FUNTYPE | TK_INFERTYPE | TK_ERRORTYPE => Ret false
      | _ => Abort
      end
  end.
End operations.

(** ** The assumptions are never met

    Under the interface below the queries of [viewpoint_type] go down in a lexicographic
    order, the rank of the left side first: its recursion ends, and its cycle case is never
    taken. *)

(** What [TypeAliases] has to promise in addition: the levels of a type do not depend on
    capabilities, and unfolding keeps types well formed. *)
Class ViewAliases `{TypeAliases} := {
  rank_skeleton q s : skeleton_of q = skeleton_of s -> rank q = rank s;
  wf_unfold t u : typealias_unfold t = Ret (Some u) -> type_wf t = true -> type_wf u = true;
  unfold_terminates t : typealias_unfold t <> NoFuel
}.

#[export] Instance view_upper_eq_dec : EqDecision view_upper_t.
Proof. solve_decision. Defined.

(** [viewpoint_type] without assumptions. *)
Definition no_assumption (st : assume_stacks_t) (l_type r_type : ast)
    (body : assume_stacks_t -> outcome (option ast)) : outcome (option ast) := body st.

Definition viewpoint_plain `{TypeAliases} := viewpoint_type_guarded no_assumption.

(** *** Leaves *)

(** A computation that ends, with a well-formed type or without. *)
Definition ends_wf (o : outcome (option ast)) : Prop :=
  o <> NoFuel /\ forall t, o = Ret (Some t) -> type_wf t = true.

Lemma ends_wf_ret t : type_wf t = true -> ends_wf (Ret (Some t)).
Proof. intros Ht. split; [done|]. by intros ? [= <-]. Qed.

Lemma get_cap_eph_fuel t : get_cap_eph t <> NoFuel.
Proof.
  unfold get_cap_eph, cap_index. destruct (ast_id t); cbn; try done;
    unfold ast_id_ptr; repeat (case_match; cbn); done.
Qed.

Lemma cap_view_upper_fuel c1 e1 c2 e2 : cap_view_upper c1 e1 c2 e2 <> NoFuel /\ cap_view_upper c1 e1 c2 e2 <> Exit.
Proof.
  unfold cap_view_upper. destruct (cap_aliasing c1 e1) as [c e], (cap_aliasing c2 e2) as [c' e'].
  destruct (view_opaque c); [done|]. destruct (tk_eqb c' TK_TAG); [done|].
  destruct c; try done; by destruct c'.
Qed.

Lemma with_cap_eph_wf t c e t' :
  ast_id t = TK_NOMINAL -> type_wf t = true -> with_cap_eph t c e = Ret t' -> type_wf t' = true.
Proof.
  destruct t as [id tok data l]. cbn [ast_id]. intros -> Hwf [= <-].
  by destruct l as [|x0 [|x1 [|[i tk d args] [|x3 [|x4 l]]]]].
Qed.

Lemma set_cap_wf t c e :
  ast_id t = TK_NOMINAL -> type_wf t = true -> ends_wf (set_cap_and_ephemeral 1 t c e).
Proof.
  intros Hid Hwf. cbn [set_cap_and_ephemeral]. rewrite Hid.
  pose proof (get_cap_eph_fuel t) as Hf. destruct (get_cap_eph t) as [[c0 e0]| | |]; cbn; try done.
  destruct (with_cap_eph t (if tk_eqb c TK_NONE then c0 else c) e) as [t'| | |] eqn:Hw; cbn.
  - apply ends_wf_ret. by eapply with_cap_eph_wf.
  - done.
  - done.
  - unfold with_cap_eph, cap_index in Hw. by rewrite Hid in Hw.
Qed.

(** *** One step of [viewpoint_type] *)

Lemma right_upper_fuel r : right_upper r <> NoFuel.
Proof.
  unfold right_upper, cap_fetch, cap_index.
  destruct (ast_id r); try done; cbn. by destruct (ast_childidx r 3).
Qed.

(** Only a nominal right side is compacted. *)
Lemma right_upper_nominal r u :
  right_upper r = Ret u -> u <> VIEW_UPPER_NO -> ast_id r = TK_NOMINAL.
Proof. unfold right_upper. destruct (ast_id r); try done; by intros [= <-]. Qed.

Lemma unknown_left_no u : unknown_left u <> VIEW_UPPER_NO -> u <> VIEW_UPPER_NO.
Proof. by destruct u. Qed.

(** The upper bound of an arrow to a nominal type needs no recursion, except for an alias
    on the left. *)
Lemma upper_leaf `{TypeAliases} g st l r n :
  ast_id r = TK_NOMINAL -> ast_id l <> TK_TYPEALIASREF -> type_wf r = true ->
  viewpoint_upper_guarded g (S n) st (arrow_from l l r) =
    viewpoint_upper_guarded no_assumption 1 no_assumptions (arrow_from l l r) /\
  ends_wf (viewpoint_upper_guarded g (S n) st (arrow_from l l r)).
Proof.
  intros Hr Hl Hwf.
  assert (forall c e (k : token_id -> token_id -> outcome (option ast)),
    (forall c e, ends_wf (k c e)) ->
    ends_wf ('(r_cap, r_eph) ← get_cap_eph r;
             '(ok, (r_cap, r_eph)) ← cap_view_upper c e r_cap r_eph;
             if ok : bool then k r_cap r_eph else Ret None)) as Hfin.
  { intros c e k Hk. pose proof (get_cap_eph_fuel r) as Hf. destruct (get_cap_eph r) as [[c1 e1]| | |]; cbn; try done.
    pose proof (cap_view_upper_fuel c e c1 e1) as [Hf' _].
    destruct (cap_view_upper c e c1 e1) as [[[] [c2 e2]]| | |]; cbn; [apply Hk|done..]. }
  cbn [viewpoint_upper_guarded]. unfold viewpoint_bound. cbn [ast_id arrow_from with_children ast_from].
  unfold two_children. cbn [children with_children arrow_from ast_from mbind outcome_bind].
  rewrite Hr. change (tk_eqb TK_NOMINAL TK_ARROW) with false. change (tk_eqb TK_ARROW TK_ARROW) with true.
  cbn [negb mbind outcome_bind]. split; [by destruct (ast_id l)|].
  assert (forall c e, ends_wf (set_cap_and_ephemeral 1 r c e)) as Hset by (intros; by apply set_cap_wf).
  destruct (ast_id l) eqn:El; try done; try (by apply Hfin).
  all: pose proof (get_cap_eph_fuel l) as Hf; destruct (get_cap_eph l) as [[c e]| | |]; try done;
    by apply Hfin.
Qed.

Lemma view_arrow_leaf `{TypeAliases} g st l r n upper :
  (upper <> VIEW_UPPER_NO -> ast_id r = TK_NOMINAL) -> ast_id l <> TK_TYPEALIASREF ->
  type_wf l = true -> type_wf r = true ->
  view_arrow (viewpoint_upper_guarded g (S n)) st l r upper =
    view_arrow (viewpoint_upper_guarded no_assumption 1) no_assumptions l r upper /\
  ends_wf (view_arrow (viewpoint_upper_guarded g (S n)) st l r upper).
Proof.
  intros Hup Hl Hwl Hwr. assert (type_wf (arrow_from l l r) = true) as Harrow by (cbn; by rewrite Hwl, Hwr).
  destruct (decide (upper = VIEW_UPPER_NO)) as [->|Hne].
  { split; [done|]. by apply ends_wf_ret. }
  destruct (upper_leaf g st l r n (Hup Hne) Hl Hwr) as [Heq [Hf Hwf]]. unfold view_arrow. cbv zeta.
  rewrite <- Heq. split; [done|].
  destruct (viewpoint_upper_guarded g (S n) st (arrow_from l l r)) as [[u|]| | |] eqn:E; cbn; try done;
    destruct upper; try done; apply ends_wf_ret; [by apply Hwf..|done|done].
Qed.

Lemma left_leaf `{TypeAliases} g st vt l r n upper :
  right_upper r = Ret upper -> ast_id l <> TK_ARROW -> ast_id l <> TK_TYPEALIASREF ->
  type_wf l = true -> type_wf r = true ->
  viewpoint_left vt (viewpoint_upper_guarded g (S n)) st l r upper =
    viewpoint_left (fun _ _ _ => Abort) (viewpoint_upper_guarded no_assumption 1) no_assumptions l r upper /\
  ends_wf (viewpoint_left vt (viewpoint_upper_guarded g (S n)) st l r upper).
Proof.
  intros Hup Harr Hal Hwl Hwr.
  assert (forall u, (u <> VIEW_UPPER_NO -> upper <> VIEW_UPPER_NO) ->
    view_arrow (viewpoint_upper_guarded g (S n)) st l r u =
      view_arrow (viewpoint_upper_guarded no_assumption 1) no_assumptions l r u /\
    ends_wf (view_arrow (viewpoint_upper_guarded g (S n)) st l r u)) as Hva.
  { intros u Hu. apply view_arrow_leaf; [|done..]. intros Hne. eapply right_upper_nominal; eauto. }
  assert (forall o : outcome (option ast), o <> NoFuel ->
    (cap ← o; id ← ast_id_ptr cap;
     match left_compact id upper with
     | None => Ret (Some r)
     | Some u => view_arrow (viewpoint_upper_guarded g (S n)) st l r u
     end) =
    (cap ← o; id ← ast_id_ptr cap;
     match left_compact id upper with
     | None => Ret (Some r)
     | Some u => view_arrow (viewpoint_upper_guarded no_assumption 1) no_assumptions l r u
     end) /\
    ends_wf (cap ← o; id ← ast_id_ptr cap;
     match left_compact id upper with
     | None => Ret (Some r)
     | Some u => view_arrow (viewpoint_upper_guarded g (S n)) st l r u
     end)) as Hcap.
  { intros [[c|]| | |] Ho; cbn; try done. destruct (left_compact (ast_id c) upper) as [u|] eqn:Eu;
      [|split; [done|by apply ends_wf_ret]].
    apply Hva. unfold left_compact in Eu.
    destruct (ast_id c); try done; injection Eu as <-; (done || apply unknown_left_no). }
  unfold viewpoint_left. destruct (ast_id l) eqn:El; try done; try (by apply Hva);
    try (apply Hva, unknown_left_no).
  all: apply Hcap; unfold cap_fetch, cap_index; by rewrite El.
Qed.

(** *** The order of the queries *)

Section order.
Context `{ViewAliases}.

(** The assumption [e] is above the query in the lexicographic order. *)
Definition above (l r : ast) (e : assume_entry_t) : Prop :=
  rank l < rank (entry_a e) \/
  (rank l = rank (entry_a e) /\ from_option (fun b => rank r < rank b) True (entry_b e)).

Definition fresh (st : assume_stacks_t) (l r : ast) : Prop :=
  Forall (fun e => entry_wf e /\ above l r e) (st TYPE_ASSUME_VIEWPOINT).

Lemma fresh_no_match st l r :
  fresh st l r -> Forall (fun e => ~ query_matches l (Some r) e) (st TYPE_ASSUME_VIEWPOINT).
Proof.
  intros Hf. eapply Forall_impl; [exact Hf|]. intros e [_ Habove] [[_ Ha%rank_skeleton] Hb].
  unfold above in Habove.
  destruct (entry_b e) as [b|]; [|done]. destruct Hb as [_ Hb%rank_skeleton].
  destruct Habove as [Habove|[_ Habove]]; cbn in *; lia.
Qed.

(** A query below all assumptions is entered, and left again. *)
Lemma under_fresh st l r body :
  fresh st l r -> type_wf l = true -> type_wf r = true ->
  under_assumption st l r body = body (push_assumption st TYPE_ASSUME_VIEWPOINT l (Some r)).
Proof.
  intros Hf Hl Hr. unfold under_assumption, type_assume_enter, type_assume_enter_indexed.
  pose proof (fresh_no_match st l r Hf) as Hno.
  assert (Forall entry_wf (st TYPE_ASSUME_VIEWPOINT)) as Hwf by (eapply Forall_impl; [exact Hf|]; by intros ? []).
  destruct (find_assumption_spec (st TYPE_ASSUME_VIEWPOINT) l (Some r) 0 Hl Hr Hwf ltac:(lia))
    as [[-> _]|(before & e & after & Heq & _ & Hq & _)]; cbn.
  - destruct (leave_push st TYPE_ASSUME_VIEWPOINT l (Some r)) as (st' & Hleave & _).
    destruct (body _) as [res| | |]; cbn; [by rewrite Hleave|done..].
  - rewrite Heq in Hno. apply Forall_app in Hno as [_ Hno]. by apply Forall_cons in Hno as [Hno _].
Qed.

Lemma fresh_push st l r l' r' :
  fresh st l r -> type_wf l = true -> type_wf r = true ->
  rank l' < rank l \/ (rank l' = rank l /\ rank r' < rank r) ->
  fresh (push_assumption st TYPE_ASSUME_VIEWPOINT l (Some r)) l' r'.
Proof.
  intros Hf Hl Hr Hlt. unfold fresh, push_assumption, set_stack.
  destruct (decide _) as [_|]; [|done]. apply Forall_app. split.
  - eapply Forall_impl; [exact Hf|]. intros e [Hwf Habove]. split; [done|]. unfold above in *.
    destruct (entry_b e); cbn in *; lia.
  - constructor; [|done]. split; [done|]. unfold above. cbn. lia.
Qed.

(** *** The limit of a query

    A query run with the assumptions [Some st] of its callers, or without any. *)
Definition run (i : option assume_stacks_t) (n : nat) (l r : ast) : outcome (option ast) :=
  match i with
  | None => viewpoint_plain n no_assumptions l r
  | Some st => viewpoint_type n st l r
  end.

Definition fresh_opt (i : option assume_stacks_t) (l r : ast) : Prop :=
  from_option (fun st => fresh st l r) True i.

Definition push_opt (i : option assume_stacks_t) (l r : ast) : option assume_stacks_t :=
  (fun st => push_assumption st TYPE_ASSUME_VIEWPOINT l (Some r)) <$> i.

Definition run_upper (i : option assume_stacks_t) (n : nat) (t : ast) : outcome (option ast) :=
  match i with
  | None => viewpoint_upper_guarded no_assumption n no_assumptions t
  | Some st => viewpoint_upper n st t
  end.

Lemma run_step i n l r :
  fresh_opt i l r -> type_wf l = true -> type_wf r = true ->
  run i (S n) l r =
    viewpoint_type_impl (fun _ => run (push_opt i l r) n) (fun _ => run_upper (push_opt i l r) n)
      no_assumptions l r.
Proof.
  intros Hf Hl Hr. destruct i as [st|]; [|done]. cbn [run fresh_opt from_option] in *.
  unfold viewpoint_type. cbn [viewpoint_type_guarded]. by rewrite under_fresh.
Qed.

Lemma fresh_push_opt i l r l' r' :
  fresh_opt i l r -> type_wf l = true -> type_wf r = true ->
  rank l' < rank l \/ (rank l' = rank l /\ rank r' < rank r) -> fresh_opt (push_opt i l r) l' r'.
Proof. destruct i; [|done]. apply fresh_push. Qed.

(** The query ends with the same result whatever its callers assume. *)
Definition converges (l r : ast) (o : outcome (option ast)) : Prop :=
  ends_wf o /\ forall i, fresh_opt i l r -> eventually (fun n => run i n l r = o).

Lemma append_all_limit {I} (ok : I -> Prop) (f : I -> nat -> ast -> outcome (option ast)) l :
  (forall c, c ∈ l -> exists o, ends_wf o /\ forall i, ok i -> eventually (fun n => f i n c = o)) ->
  exists o, o <> NoFuel /\ (forall l', o = Ret l' -> forallb type_wf l' = true) /\
    forall i, ok i -> eventually (fun n => append_all (f i n) l = o).
Proof.
  induction l as [|c l IH]; intros Hl.
  - exists (Ret []). split_and!; [done|by intros ? [= <-]|]. intros. by apply eventually_always.
  - destruct (Hl c) as (oc & [Hne Hwf] & Hc); [left|].
    destruct IH as (ol & Hne' & Hwf' & Hol); [intros; apply Hl; by right|].
    exists (r ← oc; match r with None => Abort | Some r => rs ← ol; Ret (r :: rs) end).
    split_and!.
    + destruct oc as [[r|]| | |]; cbn; try done. by destruct ol.
    + intros l' Heq. destruct oc as [[r|]| | |]; cbn in Heq; try done.
      destruct ol as [rs| | |]; cbn in Heq; try done. injection Heq as <-. cbn.
      by rewrite (Hwf r), (Hwf' rs).
    + intros i Hi. eapply eventually_mono; [apply eventually_and; [by apply Hc|by apply Hol]|].
      intros n [Hcn Hln]. cbn. by rewrite Hcn, Hln.
Qed.

Lemma impl_cases vt vu st l r :
  viewpoint_type_impl vt vu st l r =
    if is_compound (ast_id r) then
      l' ← append_all (vt st l) (children r); Ret (Some (rebuild r l'))
    else if tk_eqb (ast_id r) TK_TYPEALIASREF then on_unfolded (vt st l) r
    else upper ← right_upper r; viewpoint_left vt vu st l r upper.
Proof. unfold viewpoint_type_impl. by destruct (ast_id r). Qed.

Lemma compound_wf t : is_compound (ast_id t) = true -> type_wf t = forallb type_wf (children t).
Proof. destruct t as [id tok data l]. cbn. intros Hid. by kind_of_type Hid. Qed.

Lemma arrow_wf t lhs rhs rest :
  ast_id t = TK_ARROW -> children t = lhs :: rhs :: rest -> type_wf t = type_wf lhs && type_wf rhs.
Proof. destruct t as [id tok data l]. by intros [= ->] [= ->]. Qed.

(** The limit is computed by [next] from smaller queries. *)
Lemma converges_step l r o (next : option assume_stacks_t -> nat -> outcome (option ast)) :
  type_wf l = true -> type_wf r = true -> ends_wf o ->
  (forall i n, viewpoint_type_impl (fun _ => run i n) (fun _ => run_upper i n) no_assumptions l r = next i n) ->
  (forall i, fresh_opt i l r -> eventually (fun n => next (push_opt i l r) n = o)) ->
  converges l r o.
Proof.
  intros Hl Hr Ho Hnext Hev. split; [done|]. intros i Hi. apply eventually_succ.
  eapply eventually_mono; [by apply Hev|]. intros n <-. rewrite run_step by done. apply Hnext.
Qed.

Lemma converges_const l r o :
  type_wf l = true -> type_wf r = true -> ends_wf o ->
  (forall i n, viewpoint_type_impl (fun _ => run i (S n)) (fun _ => run_upper i (S n)) no_assumptions l r = o) ->
  converges l r o.
Proof.
  intros Hl Hr Ho Hnext.
  apply (converges_step l r o (fun i n =>
    viewpoint_type_impl (fun _ => run i n) (fun _ => run_upper i n) no_assumptions l r)); [done..|].
  intros i _. apply eventually_succ, eventually_always. intros n. apply Hnext.
Qed.

Section step.
Context (l r : ast) (Hl : type_wf l = true) (Hr : type_wf r = true).
Context (IH : forall l' r', type_wf l' = true -> type_wf r' = true ->
  rank l' < rank l \/ (rank l' = rank l /\ rank r' < rank r) -> exists o, converges l' r' o).

Lemma step_compound : is_compound (ast_id r) = true -> exists o, converges l r o.
Proof using All.
  intros Hid. pose proof Hr as Hc. rewrite compound_wf in Hc by done.
  destruct (append_all_limit (fun j => forall c, c ∈ children r -> fresh_opt j l c)
    (fun j n => run j n l) (children r)) as (ol & Hne & Hwf & Hol).
  { intros c Hin. destruct (IH l c Hl (forallb_elem _ _ _ Hc Hin)) as (o & Ho & Hlim).
    { right. split; [done|]. by apply rank_compound. }
    exists o. split; [done|]. intros j Hj. by apply Hlim, Hj. }
  exists (l' ← ol; Ret (Some (rebuild r l'))).
  apply (converges_step l r _ (fun j n =>
    l' ← append_all (run j n l) (children r); Ret (Some (rebuild r l')))); [done|done|..].
  - destruct ol as [l'| | |]; cbn; try done. apply ends_wf_ret.
    rewrite compound_wf by done. by apply Hwf.
  - intros j n. rewrite impl_cases. by rewrite Hid.
  - intros i Hi. eapply eventually_mono; [apply Hol|by intros n ->].
    intros c Hin. apply fresh_push_opt; [done..|]. right. split; [done|]. by apply rank_compound.
Qed.

Lemma step_unfold t (sub : ast -> ast * ast) :
  ast_id t = TK_TYPEALIASREF -> type_wf t = true ->
  (forall u, typealias_unfold t = Ret (Some u) -> type_wf u = true ->
     type_wf (sub u).1 = true /\ type_wf (sub u).2 = true /\
     (rank (sub u).1 < rank l \/ (rank (sub u).1 = rank l /\ rank (sub u).2 < rank r))) ->
  (forall i n, viewpoint_type_impl (fun _ => run i n) (fun _ => run_upper i n) no_assumptions l r =
     on_unfolded (fun u => run i n (sub u).1 (sub u).2) t) ->
  exists o, converges l r o.
Proof using All.
  intros Hid Ht Hsub Himpl. pose proof (unfold_terminates t) as Hterm. unfold on_unfolded in Himpl.
  destruct (typealias_unfold t) as [[u|]| | |] eqn:Hu; cbn in Himpl; [|eexists; by apply converges_const..|done].
  destruct (Hsub u eq_refl (wf_unfold t u Hu Ht)) as (H1 & H2 & Hlt).
  destruct (IH _ _ H1 H2 Hlt) as (o & Ho & Hlim). exists o.
  apply (converges_step l r o _ Hl Hr Ho Himpl). intros i Hi. by apply Hlim, fresh_push_opt.
Qed.

Lemma step_left_arrow upper :
  is_compound (ast_id r) = false -> ast_id r <> TK_TYPEALIASREF -> right_upper r = Ret upper ->
  ast_id l = TK_ARROW -> exists o, converges l r o.
Proof using All.
  intros Hc Ha Hup Hid.
  assert (exists lhs rhs rest, children l = lhs :: rhs :: rest) as (lhs & rhs & rest & Hch).
  { destruct l as [id tok data [|x [|y k]]]; cbn in Hid; subst; try done. by eexists _, _, _. }
  pose proof Hl as Hsub. rewrite (arrow_wf l lhs rhs rest Hid Hch) in Hsub.
  apply andb_true_iff in Hsub as [Hlhs Hrhs]. destruct (rank_arrow l lhs rhs rest Hid Hch).
  destruct (IH rhs r Hrhs Hr) as (o1 & [Hne1 Hwf1] & Hlim1); [by left|].
  assert (forall i n, viewpoint_type_impl (fun _ => run i n) (fun _ => run_upper i n) no_assumptions l r =
    (r_right ← run i n rhs r; match r_right with None => Abort | Some x => run i n lhs x end)) as Himpl.
  { intros i n. rewrite impl_cases, Hc, Hup. destruct (tk_eqb_spec (ast_id r) TK_TYPEALIASREF); [done|].
    cbn. unfold viewpoint_left, two_children. by rewrite Hid, Hch. }
  assert (forall i, fresh_opt i l r -> fresh_opt (push_opt i l r) rhs r) as Hf1
    by (intros i Hi; apply fresh_push_opt; [done..|by left]).
  destruct o1 as [[x|]| | |]; [|exists Abort|exists Abort|exists Exit|done].
  - destruct (IH lhs x Hlhs (Hwf1 x eq_refl)) as (o2 & Ho2 & Hlim2); [by left|]. exists o2.
    apply (converges_step l r o2 _ Hl Hr Ho2 Himpl). intros i Hi.
    eapply eventually_mono; [apply eventually_and; [by apply Hlim1, Hf1|apply Hlim2, fresh_push_opt]|].
    { done. } { done. } { done. } { by left. }
    by intros n [-> <-].
  - eapply (converges_step l r _ _ Hl Hr); [done|apply Himpl|]. intros i Hi.
    eapply eventually_mono; [by apply Hlim1, Hf1|]. by intros n ->.
  - eapply (converges_step l r _ _ Hl Hr); [done|apply Himpl|]. intros i Hi.
    eapply eventually_mono; [by apply Hlim1, Hf1|]. by intros n ->.
  - eapply (converges_step l r _ _ Hl Hr); [done|apply Himpl|]. intros i Hi.
    eapply eventually_mono; [by apply Hlim1, Hf1|]. by intros n ->.
Qed.

Lemma view_step : exists o, converges l r o.
Proof using All.
  destruct (is_compound (ast_id r)) eqn:Hc; [by apply step_compound|].
  destruct (decide (ast_id r = TK_TYPEALIASREF)) as [Ha|Ha].
  { apply (step_unfold r (fun u => (l, u))); [done|done|..].
    - intros u Hu Hwf. split_and!; [done|done|]. right. split; [done|]. by apply rank_unfold.
    - intros i n. rewrite impl_cases, Hc, Ha. done. }
  pose proof (right_upper_fuel r) as Hf.
  assert (forall vt vu st, viewpoint_type_impl vt vu st l r =
    (upper ← right_upper r; viewpoint_left vt vu st l r upper)) as Himpl.
  { intros. rewrite impl_cases, Hc. by destruct (tk_eqb_spec (ast_id r) TK_TYPEALIASREF). }
  destruct (right_upper r) as [upper| | |] eqn:Hup; [| | |done].
  2:{ exists Abort. by apply converges_const. }
  2:{ exists Exit. by apply converges_const. }
  destruct (decide (ast_id l = TK_ARROW)) as [Hid|Hid]; [by eapply step_left_arrow|].
  destruct (decide (ast_id l = TK_TYPEALIASREF)) as [Hal|Hal].
  - apply (step_unfold l (fun u => (u, r))); [done|done|..].
    + intros u Hu Hwf. split_and!; [done|done|]. left. by apply rank_unfold.
    + intros i n. rewrite Himpl. cbn. unfold viewpoint_left. by rewrite Hal.
  - eexists. apply converges_const; [done|done|..].
    2:{ intros i n. rewrite Himpl. cbn [mbind outcome_bind]. destruct i as [st|].
        - exact (proj1 (left_leaf under_assumption st _ l r n upper Hup Hid Hal Hl Hr)).
        - exact (proj1 (left_leaf no_assumption no_assumptions _ l r n upper Hup Hid Hal Hl Hr)). }
    apply (left_leaf no_assumption no_assumptions (fun _ _ _ => Abort) l r 0 upper); done.
Qed.
End step.

Lemma view_converges l r : type_wf l = true -> type_wf r = true -> exists o, converges l r o.
Proof.
  remember (rank l) as a eqn:Ea. revert l r Ea. induction a as [a IHa] using lt_wf_ind. intros l r Ea.
  remember (rank r) as b eqn:Eb. revert l r Ea Eb. induction b as [b IHb] using lt_wf_ind.
  intros l r -> -> Hl Hr. apply view_step; [done|done|]. intros l' r' Hl' Hr' [Hlt|[Heq Hlt]].
  - by apply (IHa (rank l')).
  - by apply (IHb (rank r')).
Qed.
End order.

(** ** Sendable arrows *)

(** The capability of the left side of an arrow: of a type, of [this], or bare. *)
Definition is_bare_cap (id : token_id) : bool :=
  tk_in id [TK_ISO; TK_TRN; TK_REF; TK_VAL; TK_BOX; TK_TAG].

Definition left_cap (lhs : ast) : outcome (token_id * token_id) :=
  if is_bare_cap (ast_id lhs) then Ret (ast_id lhs, TK_NONE)
  else if tk_eqb (ast_id lhs) TK_THISTYPE then Ret (TK_CAP_READ, TK_NONE)
  else if is_single (ast_id lhs) then get_cap_eph lhs
  else Abort.

Definition view_sendable (a b : token_id * token_id) : bool :=
  match cap_view a b with Some v => cap_sendable v.1 | None => false end.

(** Every instantiation of both sides is seen as something sendable. *)
Definition views_sendable (a b : token_id * token_id) : Prop :=
  forall i, i ∈ cap_instances a.1 a.2 -> forall j, j ∈ cap_instances b.1 b.2 ->
    view_sendable i j = true.

#[export] Instance views_sendable_dec a b : Decision (views_sendable a b).
Proof. unfold views_sendable. apply _. Defined.

Definition split_sendable (a b : token_id * token_id) : bool :=
  match instances a.1 with
  | [_] => view_sendable a b
  | l => forallb (fun c => view_sendable (c, TK_NONE) b) l
  end.

(** A concrete left side that cannot be a [ref], and a right side that can be anything. *)
Definition sendable_gap (a b : token_id * token_id) : Prop :=
  a.1 ∈ [TK_TRN; TK_BOX] /\ b.1 ∈ [TK_CAP_ALIAS; TK_CAP_ANY].

Lemma split_sendable_exact :
  forall c1, c1 ∈ all_caps -> forall e1, e1 ∈ all_ephs ->
  forall c2, c2 ∈ all_caps -> forall e2, e2 ∈ all_ephs ->
  split_sendable (c1, e1) (c2, e2) = true <->
  views_sendable (c1, e1) (c2, e2) \/ sendable_gap (c1, e1) (c2, e2).
Proof. unfold sendable_gap. by_computation. Qed.

Lemma view_upper_known :
  forall c1, c1 ∈ all_caps -> forall e1, e1 ∈ all_ephs ->
  forall c2, c2 ∈ all_caps -> forall e2, e2 ∈ all_ephs ->
  cap_view_upper c1 e1 c2 e2 <> Abort /\
  (forall c, c ∈ [TK_NONE] -> from_option fst TK_ISO (cap_view (c1, e1) (c2, e2)) <> c).
Proof. by_computation. Qed.

Lemma set_cap_single t c2 e2 c e :
  is_single (ast_id t) = true -> get_cap_eph t = Ret (c2, e2) -> c <> TK_NONE ->
  exists t', set_cap_and_ephemeral 1 t c e = Ret (Some t') /\ is_single (ast_id t') = true /\
             get_cap_eph t' = Ret (c, e).
Proof.
  intros Hid Hget Hc. destruct (with_cap_eph_spec t c2 e2 c e Hget) as (t' & Hw & Hget' & Hid' & _).
  exists t'. rewrite Hid'. split; [|done]. cbn [set_cap_and_ephemeral]. rewrite Hget. cbn.
  destruct (tk_eqb_spec c TK_NONE) as [|_]; [done|]. rewrite Hw. by kind_of_type Hid.
Qed.

Section sendable_arrow.
Context `{TypeAliases}.

Lemma sendable_single n st t c e :
  is_single (ast_id t) = true -> get_cap_eph t = Ret (c, e) ->
  sendable (S n) st t = Ret (cap_sendable c).
Proof. intros Hid Hget. cbn [sendable]. rewrite Hget. by kind_of_type Hid. Qed.

(** The bound of an arrow whose sides have capabilities. *)
Lemma viewpoint_upper_single n st t lhs rhs rest c1 e1 c2 e2 :
  ast_id t = TK_ARROW -> children t = lhs :: rhs :: rest ->
  (is_bare_cap (ast_id lhs) || is_single (ast_id lhs)) = true -> left_cap lhs = Ret (c1, e1) ->
  is_single (ast_id rhs) = true -> get_cap_eph rhs = Ret (c2, e2) ->
  viewpoint_upper (S n) st t =
    ('(ok, (r_cap, r_eph)) ← cap_view_upper c1 e1 c2 e2;
     if ok : bool then set_cap_and_ephemeral 1 rhs r_cap r_eph else Ret None).
Proof.
  intros Hid Hch Hl Hleft Hr Hget.
  unfold viewpoint_upper. cbn [viewpoint_upper_guarded]. unfold viewpoint_bound, two_children.
  rewrite Hid, Hch. change (tk_eqb TK_ARROW TK_ARROW) with true. cbn [negb mbind outcome_bind].
  assert (tk_eqb (ast_id rhs) TK_ARROW = false) as -> by by kind_of_type Hr.
  kind_of_type Hr; cbn [mbind outcome_bind]; rewrite Hget; cbn [mbind outcome_bind];
    (destruct (is_bare_cap (ast_id lhs)) eqn:Hbare; unfold left_cap in Hleft; rewrite Hbare in Hleft;
     [injection Hleft as <- <-; unfold is_bare_cap in Hbare; apply tk_in_spec in Hbare;
      repeat (apply elem_of_cons in Hbare as [Hbare|Hbare]; [by rewrite Hbare|]);
      by apply elem_of_nil in Hbare
     |cbn in Hl; kind_of_type Hl; rewrite Hl in Hleft; cbn in Hleft; by rewrite Hleft]).
Qed.

Lemma sendable_upper_single n st t lhs rhs rest c1 e1 c2 e2 :
  ast_id t = TK_ARROW -> children t = lhs :: rhs :: rest ->
  (is_bare_cap (ast_id lhs) || is_single (ast_id lhs)) = true -> left_cap lhs = Ret (c1, e1) ->
  c1 ∈ all_caps -> e1 ∈ all_ephs ->
  is_single (ast_id rhs) = true -> get_cap_eph rhs = Ret (c2, e2) -> c2 ∈ all_caps -> e2 ∈ all_ephs ->
  (upper ← viewpoint_upper (S n) st t;
   match upper with None => Ret false | Some u => sendable (S n) st u end) =
  Ret (view_sendable (c1, e1) (c2, e2)).
Proof.
  intros Hid Hch Hl Hleft Hc1 He1 Hr Hget Hc2 He2.
  rewrite (viewpoint_upper_single n st t lhs rhs rest c1 e1 c2 e2) by done.
  destruct (view_upper_known c1 Hc1 e1 He1 c2 Hc2 e2 He2) as [Hview Hnone].
  pose proof (cap_view_upper_fuel c1 e1 c2 e2) as [Hfuel Hexit]. unfold view_sendable, cap_view in *. cbn [fst snd] in *.
  destruct (cap_view_upper c1 e1 c2 e2) as [[[] [c e]]| | |]; cbn [mbind outcome_bind]; try done.
  destruct (set_cap_single rhs c2 e2 c e Hr Hget) as (u & Hset & Hu & Hgu).
  { apply Hnone. left. }
  rewrite Hset. cbn [mbind outcome_bind]. by apply (sendable_single n st u c e).
Qed.

(** Splitting the left side. *)
Lemma left_split_known lhs c1 e1 :
  left_cap lhs = Ret (c1, e1) -> c1 ∈ all_caps ->
  left_split lhs = Ret (match instances c1 with [_] => [] | l => l end) /\
  (ast_id lhs = TK_THISTYPE \/ (is_bare_cap (ast_id lhs) || is_single (ast_id lhs)) = true).
Proof.
  unfold left_cap, left_split. intros Hleft Hc.
  destruct (is_bare_cap (ast_id lhs)) eqn:Hbare; [|destruct (tk_eqb_spec (ast_id lhs) TK_THISTYPE) as [Hid|Hid]].
  - injection Hleft as <- <-. split; [|by right]. unfold is_bare_cap in Hbare. apply tk_in_spec in Hbare.
    repeat (apply elem_of_cons in Hbare as [Hbare|Hbare]; [by rewrite Hbare|]). by apply elem_of_nil in Hbare.
  - injection Hleft as <- <-. rewrite Hid. split; [done|by left].
  - destruct (is_single (ast_id lhs)) eqn:Hs; [|done]. split; [|by right].
    destruct (get_cap_eph_index lhs c1 e1 Hleft) as (i & x & y & Hi & Hx & _ & <- & _).
    unfold cap_fetch. rewrite Hi. cbn [mbind outcome_bind]. unfold ast_childidx. rewrite Hx.
    cbn [ast_id_ptr mbind outcome_bind]. kind_of_type Hs.
    all: repeat (apply elem_of_cons in Hc as [->|Hc]; [done|]); by apply elem_of_nil in Hc.
Qed.

Lemma all_ok_ret {A} (f : A -> outcome bool) (g : A -> bool) l :
  (forall x, x ∈ l -> f x = Ret (g x)) -> all_ok f l = Ret (forallb g l).
Proof.
  induction l as [|x l IH]; intros Hf; cbn; [done|]. rewrite Hf by left. cbn.
  destruct (g x); cbn; [|done]. apply IH. intros. apply Hf. by right.
Qed.

Lemma instances_bare :
  forall c1, c1 ∈ all_caps -> (instances c1 = [c1] \/
    (1 < length (instances c1) /\ forall c, c ∈ instances c1 -> is_bare_cap c = true /\ c ∈ all_caps)).
Proof. by_computation. Qed.

Lemma sendable_arrow_split n st t lhs rhs rest c1 e1 c2 e2 :
  ast_id t = TK_ARROW -> children t = lhs :: rhs :: rest ->
  left_cap lhs = Ret (c1, e1) -> c1 ∈ all_caps -> e1 ∈ all_ephs ->
  is_single (ast_id rhs) = true -> get_cap_eph rhs = Ret (c2, e2) -> c2 ∈ all_caps -> e2 ∈ all_ephs ->
  sendable (S (S n)) st t = Ret (split_sendable (c1, e1) (c2, e2)).
Proof.
  intros Hid Hch Hleft Hc1 He1 Hr Hget Hc2 He2.
  destruct (left_split_known lhs c1 e1 Hleft Hc1) as [Hsplit Hl].
  remember (S n) as m eqn:Hm. cbn [sendable]. rewrite Hid. unfold two_children. rewrite Hch. cbn [mbind outcome_bind].
  rewrite Hsplit. cbn [mbind outcome_bind]. unfold split_sendable. cbn [fst].
  destruct (instances_bare c1 Hc1) as [Hone|[Hlen Hbare]].
  - rewrite Hone. rewrite Hm. eapply sendable_upper_single; try done.
    destruct Hl as [Hthis|Hl]; [|done]. unfold left_cap in Hleft. rewrite Hthis in Hleft.
    injection Hleft as <- <-. by cbn in Hone.
  - assert (forall c, c ∈ instances c1 ->
      (upper ← viewpoint_upper m st (arrow_from t (ast_from lhs c) rhs);
       match upper with None => Ret false | Some u => sendable m st u end) =
      Ret (view_sendable (c, TK_NONE) (c2, e2))) as Hall.
    { intros c Hc. destruct (Hbare c Hc) as [Hb Hcall]. rewrite Hm.
      eapply (sendable_upper_single n st _ (ast_from lhs c) rhs []); try done.
      - cbn [ast_id ast_from]. by rewrite Hb.
      - unfold left_cap. cbn [ast_id ast_from]. by rewrite Hb.
      - left. }
    destruct (instances c1) as [|x [|y l]] eqn:El; [cbn in Hlen; lia..|].
    by apply (all_ok_ret _ (fun c => view_sendable (c, TK_NONE) (c2, e2))).
Qed.
End sendable_arrow.

(** ** Properties *)

(** The interface holds without aliases. *)
Fixpoint depth (t : ast) : nat :=
  match t with
  | Node id _ _ l =>
      match id with
      | TK_UNIONTYPE | TK_ISECTTYPE | TK_TUPLETYPE => S (foldr (fun c n => Nat.max (depth c) n) 0 l)
      | TK_ARROW => match l with lhs :: rhs :: _ => S (Nat.max (depth lhs) (depth rhs)) | _ => 0 end
      | _ => 0
      end
  end.

Fixpoint skeleton_depth (k : skeleton) : nat :=
  match k with
  | Skel id _ l =>
      match id with
      | TK_UNIONTYPE | TK_ISECTTYPE | TK_TUPLETYPE => S (foldr (fun c n => Nat.max (skeleton_depth c) n) 0 l)
      | TK_ARROW => match l with lhs :: rhs :: _ => S (Nat.max (skeleton_depth lhs) (skeleton_depth rhs)) | _ => 0 end
      | _ => 0
      end
  end.

Lemma depth_skeleton t : depth t = skeleton_depth (skeleton_of t).
Proof.
  induction t as [id tok data l IH] using ast_tree_ind.
  assert (foldr (fun c n => Nat.max (depth c) n) 0 l =
          foldr (fun c n => Nat.max (skeleton_depth c) n) 0 (skeleton_of <$> l)) as Hl.
  { induction IH as [|c l Hc _ IHl]; cbn; [done|]. by rewrite Hc, IHl. }
  destruct id; try done; cbn; try (by f_equal).
  destruct l as [|x [|y l]]; try done. cbn. apply Forall_cons in IH as [-> [-> _]%Forall_cons]. done.
Qed.

#[program] Definition plain_types : TypeAliases :=
  {| typealias_unfold := fun _ => Ret None; rank := depth |}.
Next Obligation.
  intros [id tok data l] c Hid Hc. cbn in Hid, Hc.
  assert (depth c <= foldr (fun c n => Nat.max (depth c) n) 0 l) by (induction Hc; cbn; lia).
  kind_of_type Hid; cbn; lia.
Qed.
Next Obligation. intros [id tok data l] lhs rhs rest [= ->] [= ->]. cbn. lia. Qed.
Next Obligation. done. Qed.

#[program] Definition plain_views : @ViewAliases plain_types := {| rank_skeleton := _ |}.
Next Obligation. intros q s Hqs. cbn. by rewrite !depth_skeleton, Hqs. Qed.
Next Obligation. done. Qed.
Next Obligation. done. Qed.

(** C33: viewpoint adaptation terminates and its cycle case is never taken: on well-formed
    types, whose aliases unfold in finitely many steps, [viewpoint_type] gives with enough
    fuel the result [o] of the recursion without assumptions, also when it is called under
    assumptions of callers that are above the query, and a result is a well-formed type. *)
Theorem viewpoint_type_no_cycle `{ViewAliases} l r :
  type_wf l = true -> type_wf r = true ->
  exists o, o <> NoFuel /\ (forall t, o = Ret (Some t) -> type_wf t = true) /\
    eventually (fun n => viewpoint_plain n no_assumptions l r = o) /\
    forall st, fresh st l r -> eventually (fun n => viewpoint_type n st l r = o).
Proof.
  intros Hl Hr. destruct (view_converges l r Hl Hr) as (o & [Hne Hwf] & Hlim). exists o.
  split_and!; [done|done|by apply (Hlim None)|]. intros st Hst. by apply (Hlim (Some st)).
Qed.

Definition this_ref : ast := leaf TK_THISTYPE.

Lemma viewpoint_type_no_cycle_witness :
  let _ := plain_types in let _ := plain_views in
  type_wf this_ref = true /\ type_wf sample_type = true /\
  exists o, o <> NoFuel /\ (forall t, o = Ret (Some t) -> type_wf t = true) /\
    eventually (fun n => viewpoint_plain n no_assumptions this_ref sample_type = o) /\
    forall st, fresh st this_ref sample_type ->
      eventually (fun n => viewpoint_type n st this_ref sample_type = o).
Proof.
  intros T V. split; [reflexivity|]. split; [reflexivity|].
  apply (@viewpoint_type_no_cycle T V); reflexivity.
Defined.

(** C34: [sendable] on an arrow between types with known capabilities ends without a failed
    assertion and is exact except for one case: it holds if and only if every instantiation
    of the right side seen through every instantiation of the left side is sendable, or the
    left side is [trn] or [box] and the right side [#alias] or [#any]. *)
Theorem sendable_arrow_exact `{TypeAliases} n st t lhs rhs rest c1 e1 c2 e2 :
  ast_id t = TK_ARROW -> children t = lhs :: rhs :: rest ->
  left_cap lhs = Ret (c1, e1) -> c1 ∈ all_caps -> e1 ∈ all_ephs ->
  is_single (ast_id rhs) = true -> get_cap_eph rhs = Ret (c2, e2) -> c2 ∈ all_caps -> e2 ∈ all_ephs ->
  exists b, sendable (S (S n)) st t = Ret b /\
    (b = true <-> views_sendable (c1, e1) (c2, e2) \/ sendable_gap (c1, e1) (c2, e2)).
Proof.
  intros Hid Hch Hleft Hc1 He1 Hr Hget Hc2 He2. exists (split_sendable (c1, e1) (c2, e2)). split.
  - by eapply sendable_arrow_split.
  - by apply split_sendable_exact.
Qed.

Definition this_arrow (rcap : token_id) : ast :=
  Node TK_ARROW 0 0 [this_ref; Node TK_TYPEPARAMREF 0 1 [leaf TK_ID; leaf rcap; leaf TK_NONE]].

Lemma sendable_arrow_exact_witness :
  let _ := plain_types in
  exists b, sendable 2 no_assumptions (this_arrow TK_CAP_SEND) = Ret b /\
    (b = true <-> views_sendable (TK_CAP_READ, TK_NONE) (TK_CAP_SEND, TK_NONE) \/
                  sendable_gap (TK_CAP_READ, TK_NONE) (TK_CAP_SEND, TK_NONE)).
Proof.
  intros T. eapply (sendable_arrow_exact 0); try reflexivity;
    apply (bool_decide_unpack _); vm_compute; exact I.
Defined.

(** *** What modelling showed *)

(** The gap is one: [box->T] with [T: #any] is taken to be sendable, although for a [T]
    that is [ref] it is a [box]. *)
Lemma sendable_box_any :
  @sendable plain_types 2 no_assumptions
    (Node TK_ARROW 0 0 [leaf TK_BOX; Node TK_TYPEPARAMREF 0 1 [leaf TK_ID; leaf TK_CAP_ANY; leaf TK_NONE]])
    = Ret true /\
  TK_REF ∈ instances TK_CAP_ANY /\
  cap_view (TK_BOX, TK_NONE) (TK_REF, TK_NONE) = Some (TK_BOX, TK_NONE) /\ cap_sendable TK_BOX = false.
Proof. split_and!; [by vm_compute|apply (bool_decide_unpack _); by vm_compute|done|done]. Qed.
