(* ===== verification/PonyList.v ===== *)
(** * Linked lists: [src/libponyrt/ds/list.c]

    Lists are mutated in place, so the cells live in an explicit store from addresses to
    cells; following a null or freed pointer is [Abort].  The loops take fuel, and the
    number of cells of the store is always enough.  [is_list] relates a pointer to the
    cells of the list it heads. *)
From S2P Require Import Prelude Store.
From stdpp Require Import gmap fin_maps.
Local Open Scope Z_scope.

Record list_t := mk_cell { data : Z; next : Z }.

Abbreviation store := (gmap Z list_t).

Definition load (h : store) (p : Z) : outcome list_t :=
  match h !! p with Some c => Ret c | None => Abort end.

Definition set_next (h : store) (p n : Z) : outcome store :=
  c ← load h p; Ret (<[p := mk_cell (data c) n]> h).

(** ** The operations *)

(** The store, the rest of the list and the data. *)
Definition ponyint_list_pop (h : store) (list : Z) : outcome (store * Z * Z) :=
  l ← load h list;
  Ret (delete list h, next l, data l).

Definition ponyint_list_push (h : store) (list d : Z) : store * Z :=
  let l := new_addr h in (<[l := mk_cell d list]> h, l).

(** [while(p->next != NULL) p = p->next;] *)
Fixpoint last_loop (fuel : nat) (h : store) (p : Z) : outcome Z :=
  match fuel with
  | O => NoFuel
  | S fuel =>
      c ← load h p;
      if next c =? NULL then Ret p else last_loop fuel h (next c)
  end.

Definition ponyint_list_append (h : store) (list d : Z) : outcome (store * Z) :=
  let l := new_addr h in
  let h := <[l := mk_cell d NULL]> h in
  if list =? NULL then Ret (h, l)
  else
    p ← last_loop (S (size h)) h list;
    h ← set_next h p l;
    Ret (h, list).

Definition ponyint_list_next (h : store) (list : Z) : outcome Z :=
  l ← load h list; Ret (next l).

Fixpoint length_loop (fuel : nat) (h : store) (list len : Z) : outcome Z :=
  if list =? NULL then Ret len
  else
    match fuel with
    | O => NoFuel
    | S fuel => l ← load h list; length_loop fuel h (next l) (len + 1)
    end.

Definition ponyint_list_length (h : store) (list : Z) : outcome Z :=
  length_loop (S (size h)) h list 0.

Fixpoint index_loop (fuel : nat) (h : store) (list i index : Z) : outcome Z :=
  if negb (list =? NULL) && (i <? index) then
    match fuel with
    | O => NoFuel
    | S fuel => l ← load h list; index_loop fuel h (next l) (i + 1) index
    end
  else Ret list.

Definition ponyint_list_index (h : store) (list index : Z) : outcome Z :=
  index ← (if index <? 0 then len ← ponyint_list_length h list; Ret (len + index) else Ret index);
  index_loop (S (size h)) h list 0 index.

Definition ponyint_list_data (h : store) (list : Z) : outcome Z :=
  l ← load h list; Ret (data l).

Fixpoint find_loop (fuel : nat) (h : store) (f : Z -> Z -> bool) (list d : Z) : outcome Z :=
  if list =? NULL then Ret NULL
  else
    match fuel with
    | O => NoFuel
    | S fuel =>
        l ← load h list;
        if f d (data l) then Ret (data l) else find_loop fuel h f (next l) d
    end.

Definition ponyint_list_find (h : store) (list : Z) (f : Z -> Z -> bool) (d : Z) : outcome Z :=
  find_loop (S (size h)) h f list d.

Fixpoint findindex_loop (fuel : nat) (h : store) (f : Z -> Z -> bool) (list d index : Z) : outcome Z :=
  if list =? NULL then Ret (-1)
  else
    match fuel with
    | O => NoFuel
    | S fuel =>
        l ← load h list;
        if f d (data l) then Ret index else findindex_loop fuel h f (next l) d (index + 1)
    end.

Definition ponyint_list_findindex (h : store) (list : Z) (f : Z -> Z -> bool) (d : Z) : outcome Z :=
  findindex_loop (S (size h)) h f list d 0.

Fixpoint subset_loop (fuel : nat) (h : store) (a b : Z) (f : Z -> Z -> bool) : outcome bool :=
  if a =? NULL then Ret true
  else
    match fuel with
    | O => NoFuel
    | S fuel =>
        l ← load h a;
        found ← ponyint_list_find h b f (data l);
        if found =? NULL then Ret false else subset_loop fuel h (next l) b f
    end.

Definition ponyint_list_subset (h : store) (a b : Z) (f : Z -> Z -> bool) : outcome bool :=
  subset_loop (S (size h)) h a b f.

Fixpoint equals_loop (fuel : nat) (h : store) (a b : Z) (f : Z -> Z -> bool) : outcome bool :=
  if a =? NULL then Ret (b =? NULL)
  else
    match fuel with
    | O => NoFuel
    | S fuel =>
        if b =? NULL then Ret false
        else
          la ← load h a;
          lb ← load h b;
          if negb (f (data la) (data lb)) then Ret false
          else equals_loop fuel h (next la) (next lb) f
    end.

Definition ponyint_list_equals (h : store) (a b : Z) (f : Z -> Z -> bool) : outcome bool :=
  equals_loop (S (size h)) h a b f.

Fixpoint reverse_loop (fuel : nat) (h : store) (list to : Z) : outcome (store * Z) :=
  if list =? NULL then Ret (h, to)
  else
    match fuel with
    | O => NoFuel
    | S fuel =>
        l ← load h list;
        h ← set_next h list to;
        reverse_loop fuel h (next l) list
    end.

Definition ponyint_list_reverse (h : store) (list : Z) : outcome (store * Z) :=
  reverse_loop (S (size h)) h list NULL.

Fixpoint map_loop (fuel : nat) (h : store) (list : Z) (f : Z -> Z -> Z) (arg to : Z)
    : outcome (store * Z) :=
  if list =? NULL then Ret (h, to)
  else
    match fuel with
    | O => NoFuel
    | S fuel =>
        l ← load h list;
        let result := f (data l) arg in
        let '(h, to) := if negb (result =? NULL) then ponyint_list_push h to result else (h, to) in
        map_loop fuel h (next l) f arg to
    end.

Definition ponyint_list_map (h : store) (list : Z) (f : Z -> Z -> Z) (arg : Z) : outcome (store * Z) :=
  '(h, to) ← map_loop (S (size h)) h list f arg NULL;
  ponyint_list_reverse h to.

(** The store afterwards and the data handed to [free_fn], in order. *)
Fixpoint free_loop (fuel : nat) (h : store) (freed : list Z) (p : Z) : outcome (store * list Z) :=
  if p =? NULL then Ret (h, freed)
  else
    match fuel with
    | O => NoFuel
    | S fuel => l ← load h p; free_loop fuel (delete p h) (freed ++ [data l]) (next l)
    end.

Definition ponyint_list_free (h : store) (p : Z) : outcome (store * list Z) :=
  free_loop (S (size h)) h [] p.

(** ** Lists in the store *)

(** [p] heads the list with the cells [l], pairs of an address and the data there. *)
Fixpoint list_rep (h : store) (p : Z) (l : list (Z * Z)) : Prop :=
  match l with
  | [] => p = NULL
  | (a, d) :: l => p = a /\ a <> NULL /\ exists n, h !! a = Some (mk_cell d n) /\ list_rep h n l
  end.

Definition is_list (h : store) (p : Z) (l : list (Z * Z)) : Prop := list_rep h p l /\ NoDup l.*1.

(** The two stores agree outside the addresses [l]. *)
Definition same_except (l : list Z) (h h' : store) : Prop := forall a, a ∉ l -> h' !! a = h !! a.

Lemma list_rep_ext h h' p l :
  (forall a, a ∈ l.*1 -> h' !! a = h !! a) -> list_rep h p l -> list_rep h' p l.
Proof.
  revert p. induction l as [|[a d] l IH]; intros p He Hr; [done|].
  destruct Hr as (-> & Ha & n & Hn & Hr). split; [done|]. split; [done|]. exists n.
  split; [by rewrite He by left|]. apply IH; [|done]. intros b Hb. apply He. by right.
Qed.

Lemma list_rep_dom h p l a : list_rep h p l -> a ∈ l.*1 -> is_Some (h !! a) /\ a <> NULL.
Proof.
  revert p. induction l as [|[b d] l IH]; intros p Hr Ha; [by apply elem_of_nil in Ha|].
  destruct Hr as (-> & Hb & n & Hn & Hr). apply elem_of_cons in Ha as [->|Ha]; [by eauto|].
  by apply (IH n).
Qed.

(** The store has a cell for each cell of a list. *)
Lemma is_list_size h p l : is_list h p l -> (length l <= size h)%nat.
Proof.
  intros [Hr Hnd]. rewrite <- (size_dom (D := gset Z) h), <- (length_fmap fst l).
  rewrite <- (size_list_to_set (C := gset Z)) by done.
  apply subseteq_size. intros a Ha. apply elem_of_list_to_set in Ha.
  apply elem_of_dom. by apply (list_rep_dom h p l).
Qed.

Lemma list_rep_null h l : list_rep h NULL l -> l = [].
Proof. destruct l as [|[a d] l]; [done|]. by intros (<- & Ha & _). Qed.

(** ** Reading operations *)

Section reading.
Context (h : store).

Lemma length_loop_spec fuel p l n :
  list_rep h p l -> (length l <= fuel)%nat -> length_loop fuel h p n = Ret (n + Z.of_nat (length l)).
Proof.
  revert fuel p n. induction l as [|[a d] l IH]; intros fuel p n Hr Hf.
  - cbn in Hr. subst p. destruct fuel; cbn; f_equal; lia.
  - destruct Hr as (-> & Ha & m & Hm & Hr). cbn [length] in Hf. destruct fuel as [|fuel]; [lia|].
    cbn [length_loop]. rewrite (proj2 (Z.eqb_neq a NULL)) by done. unfold load. rewrite Hm. cbn.
    rewrite (IH fuel) by (done || lia). f_equal. lia.
Qed.

(** The list after [k] cells: empty past the end, everything for a negative [k]. *)
Lemma index_loop_spec fuel p l i index :
  list_rep h p l -> (length l <= fuel)%nat ->
  exists p', index_loop fuel h p i index = Ret p' /\ list_rep h p' (drop (Z.to_nat (index - i)) l).
Proof.
  revert fuel p i. induction l as [|[a d] l IH]; intros fuel p i Hr Hf.
  - cbn in Hr. subst p. exists NULL. rewrite drop_nil. destruct fuel; done.
  - destruct (Z.ltb_spec i index) as [Hlt|Hge].
    + destruct Hr as (-> & Ha & m & Hm & Hr). cbn [length] in Hf. destruct fuel as [|fuel]; [lia|].
      cbn [index_loop]. rewrite (proj2 (Z.eqb_neq a NULL)), (proj2 (Z.ltb_lt i index)) by done.
      unfold load. rewrite Hm. cbn [negb andb mbind outcome_bind next].
      destruct (IH fuel m (i + 1) Hr) as (p' & -> & Hp'); [lia|]. exists p'. split; [done|].
      replace (Z.to_nat (index - i)) with (S (Z.to_nat (index - (i + 1)))) by lia. done.
    + exists p. replace (Z.to_nat (index - i)) with O by lia. split; [|done].
      destruct fuel; cbn [index_loop]; by rewrite (proj2 (Z.ltb_ge i index)), andb_false_r by done.
Qed.

Lemma find_loop_spec fuel p l f d :
  list_rep h p l -> (length l <= fuel)%nat ->
  find_loop fuel h f p d = Ret (from_option snd NULL (list_find (fun y => f d y = true) l.*2)).
Proof.
  revert fuel p. induction l as [|[a x] l IH]; intros fuel p Hr Hf.
  - cbn in Hr. subst p. by destruct fuel.
  - destruct Hr as (-> & Ha & m & Hm & Hr). cbn [length] in Hf. destruct fuel as [|fuel]; [lia|].
    cbn [find_loop]. rewrite (proj2 (Z.eqb_neq a NULL)) by done. unfold load. rewrite Hm.
    cbn [mbind outcome_bind data next fmap list_fmap snd list_find].
    destruct (f d x) eqn:E.
    + rewrite decide_True by done. done.
    + rewrite decide_False by done. rewrite IH by (done || lia). cbn.
      by destruct (list_find _ _) as [[]|].
Qed.

Lemma findindex_loop_spec fuel p l f d n :
  list_rep h p l -> (length l <= fuel)%nat ->
  findindex_loop fuel h f p d n =
    Ret (from_option (fun x => n + Z.of_nat x.1) (-1) (list_find (fun y => f d y = true) l.*2)).
Proof.
  revert fuel p n. induction l as [|[a x] l IH]; intros fuel p n Hr Hf.
  - cbn in Hr. subst p. by destruct fuel.
  - destruct Hr as (-> & Ha & m & Hm & Hr). cbn [length] in Hf. destruct fuel as [|fuel]; [lia|].
    cbn [findindex_loop]. rewrite (proj2 (Z.eqb_neq a NULL)) by done. unfold load. rewrite Hm.
    cbn [mbind outcome_bind data next fmap list_fmap snd list_find].
    destruct (f d x) eqn:E.
    + rewrite decide_True by done. cbn. f_equal. lia.
    + rewrite decide_False by done. rewrite IH by (done || lia). cbn.
      destruct (list_find _ _) as [[]|]; cbn; [f_equal; lia|done].
Qed.

Lemma equals_loop_spec fuel p q l k f :
  list_rep h p l -> list_rep h q k -> (length l <= fuel)%nat ->
  equals_loop fuel h p q f = Ret (bool_decide (Forall2 (fun x y => f x y = true) l.*2 k.*2)).
Proof.
  revert fuel p q k. induction l as [|[a x] l IH]; intros fuel p q k Hp Hq Hf.
  - cbn in Hp. subst p. assert (equals_loop fuel h NULL q f = Ret (q =? NULL)) as -> by by destruct fuel.
    f_equal. destruct k as [|[b y] k]; cbn in Hq |- *.
    + subst q. by rewrite bool_decide_eq_true_2.
    + destruct Hq as (-> & Hb & _). rewrite (proj2 (Z.eqb_neq b NULL)) by done.
      symmetry. apply bool_decide_eq_false_2. by intros Hx%Forall2_nil_inv_l.
  - destruct Hp as (-> & Ha & m & Hm & Hp). cbn [length] in Hf. destruct fuel as [|fuel]; [lia|].
    cbn [equals_loop]. rewrite (proj2 (Z.eqb_neq a NULL)) by done.
    destruct k as [|[b y] k]; cbn in Hq.
    + subst q. done.
    + destruct Hq as (-> & Hb & m' & Hm' & Hq). rewrite (proj2 (Z.eqb_neq b NULL)) by done.
      unfold load. rewrite Hm, Hm'. cbn [mbind outcome_bind data next].
      destruct (f x y) eqn:E; cbn [negb].
      * rewrite (IH fuel m m' k) by (done || lia). f_equal. apply bool_decide_ext. cbn.
        rewrite Forall2_cons. tauto.
      * f_equal. symmetry. apply bool_decide_eq_false_2. cbn. rewrite Forall2_cons. by intros [? _]; congruence.
Qed.

Lemma subset_loop_spec fuel p q l k f :
  list_rep h p l -> list_rep h q k -> (length l <= fuel)%nat -> (length k <= S (size h))%nat ->
  Forall (fun y => y <> NULL) k.*2 ->
  subset_loop fuel h p q f =
    Ret (bool_decide (Forall (fun x => Exists (fun y => f x y = true) k.*2) l.*2)).
Proof.
  intros Hp Hq Hf Hk Hnn. revert fuel p Hp Hf. induction l as [|[a x] l IH]; intros fuel p Hp Hf.
  - cbn in Hp. subst p. by destruct fuel.
  - destruct Hp as (-> & Ha & m & Hm & Hp). cbn [length] in Hf. destruct fuel as [|fuel]; [lia|].
    cbn [subset_loop]. rewrite (proj2 (Z.eqb_neq a NULL)) by done. unfold load. rewrite Hm.
    cbn [mbind outcome_bind data next]. unfold ponyint_list_find.
    rewrite (find_loop_spec (S (size h)) q k) by done. cbn [mbind outcome_bind].
    destruct (list_find (fun y => f x y = true) k.*2) as [[i y]|] eqn:E; cbn [from_option snd].
    + apply list_find_Some in E as (Hi & Hxy & _). apply list_elem_of_lookup_2 in Hi.
      rewrite (proj2 (Z.eqb_neq y NULL)) by by apply (proj1 (Forall_forall _ _) Hnn).
      rewrite (IH fuel) by (done || lia). f_equal. apply bool_decide_ext. cbn.
      rewrite Forall_cons. split; [|tauto]. intros Hall. split; [|done].
      apply Exists_exists. eauto.
    + rewrite Z.eqb_refl. f_equal. symmetry. apply bool_decide_eq_false_2. cbn.
      intros [Hex _]%Forall_cons. apply Exists_exists in Hex as (y & Hy & Hxy).
      apply list_find_None in E. by apply (proj1 (Forall_forall _ _) E y).
Qed.
End reading.

(** ** Operations that change the store *)

Lemma push_spec h p d l :
  list_rep h p l ->
  let '(h', p') := ponyint_list_push h p d in
  list_rep h' p' ((p', d) :: l) /\ p' <> NULL /\ h !! p' = None /\ same_except [p'] h h'.
Proof.
  intros Hr. unfold ponyint_list_push. cbv beta zeta iota.
  destruct (new_addr_fresh h) as [Hfree Hn]. split; [|split; [done|split; [done|]]].
  - split; [done|]. split; [done|]. exists p. split; [apply lookup_insert_eq|].
    apply (list_rep_ext h); [|done]. intros a Ha. rewrite lookup_insert_ne; [done|].
    intros <-. destruct (list_rep_dom h p l (new_addr h) Hr Ha) as [[c Hc] _]. congruence.
  - intros a Ha. rewrite lookup_insert_ne; [done|]. intros <-. apply Ha. by left.
Qed.

Lemma last_loop_spec fuel h p l a d :
  list_rep h p (l ++ [(a, d)]) -> (length l < fuel)%nat -> last_loop fuel h p = Ret a.
Proof.
  revert fuel p. induction l as [|[b x] l IH]; intros [|fuel] p Hr Hf; cbn in Hf; [lia| |lia|].
  - destruct Hr as (-> & Ha & n & Hn & Hr). cbn in Hr. subst n. cbn [last_loop].
    unfold load. by rewrite Hn.
  - destruct Hr as (-> & Hb & n & Hn & Hr). cbn [last_loop]. unfold load. rewrite Hn. cbn.
    destruct (Z.eqb_spec n NULL) as [->|]; [|apply IH; [done|lia]].
    apply list_rep_null in Hr. by destruct l.
Qed.

(** Writing the last link of a list, whose cells stay where they are. *)
Lemma relink_last h p l a d q k :
  list_rep h p (l ++ [(a, d)]) -> NoDup (l.*1 ++ a :: k.*1) -> list_rep h q k ->
  list_rep (<[a := mk_cell d q]> h) p (l ++ (a, d) :: k).
Proof.
  revert p. induction l as [|[b x] l IH]; intros p Hr Hnd Hk; cbn in *.
  - destruct Hr as (-> & Ha & _). split; [done|]. split; [done|]. exists q.
    split; [apply lookup_insert_eq|]. apply (list_rep_ext h); [|done].
    intros c Hc. rewrite lookup_insert_ne; [done|]. intros <-. by apply NoDup_cons in Hnd as [? _].
  - destruct Hr as (-> & Hb & n & Hn & Hr). apply NoDup_cons in Hnd as [Hnb Hnd].
    split; [done|]. split; [done|]. exists n. split; [|by apply IH].
    rewrite lookup_insert_ne; [done|]. intros <-. apply Hnb, elem_of_app. right. by left.
Qed.

Lemma append_spec h p l d :
  is_list h p l ->
  exists h' p' a, ponyint_list_append h p d = Ret (h', p') /\ is_list h' p' (l ++ [(a, d)]) /\
    h !! a = None /\ same_except (a :: l.*1) h h'.
Proof.
  intros [Hr Hnd]. destruct (new_addr_fresh h) as [Hfree Hn]. unfold ponyint_list_append.
  set (a := new_addr h) in *. set (h1 := <[a := mk_cell d NULL]> h).
  assert (Hnin : a ∉ l.*1).
  { intros Ha. destruct (list_rep_dom h p l a Hr Ha) as [[c Hc] _]. congruence. }
  assert (Hr1 : list_rep h1 p l).
  { apply (list_rep_ext h); [|done]. intros b Hb. apply lookup_insert_ne. congruence. }
  assert (Hsame1 : same_except (a :: l.*1) h h1).
  { intros b Hb. apply not_elem_of_cons in Hb as [Hb _]. by apply lookup_insert_ne. }
  destruct l as [|x l] using rev_ind.
  - cbn in Hr. subst p. exists h1, a, a. split; [done|]. split; [|done].
    split; [|apply NoDup_singleton]. split; [done|]. split; [done|]. exists NULL.
    split; [apply lookup_insert_eq|done].
  - clear IHl. destruct x as [b x].
    assert (p <> NULL) as Hp.
    { intros ->. apply list_rep_null in Hr. by destruct l. }
    rewrite (proj2 (Z.eqb_neq p NULL)) by done.
    pose proof (is_list_size h1 p (l ++ [(b, x)]) (conj Hr1 Hnd)) as Hsize.
    rewrite length_app in Hsize. cbn in Hsize.
    rewrite (last_loop_spec (S (size h1)) h1 p l b x) by (done || lia).
    cbn [mbind outcome_bind]. rewrite fmap_app in Hnd, Hnin, Hsame1. cbn in Hnd, Hnin, Hsame1.
    assert (exists n, h1 !! b = Some (mk_cell x n)) as [n Hb].
    { clear -Hr1. revert p Hr1. induction l as [|[c y] l IH]; intros p Hr1.
      - destruct Hr1 as (_ & _ & n & Hn & _). by exists n.
      - destruct Hr1 as (_ & _ & n & Hn & Hr1). by apply (IH n). }
    unfold set_next, load. rewrite Hb. cbn [mbind outcome_bind data].
    assert (NoDup (l.*1 ++ b :: [a])) as Hnd'.
    { rewrite cons_middle, app_assoc. apply NoDup_app. split; [done|].
      split; [|apply NoDup_singleton]. intros c Hc ->%list_elem_of_singleton. done. }
    eexists _, p, a. split; [done|]. split; [split|].
    + rewrite <- app_assoc. apply (relink_last h1 p l b x a [(a, d)]); [done|done|].
      split; [done|]. split; [done|]. exists NULL. split; [apply lookup_insert_eq|done].
    + rewrite !fmap_app. cbn. rewrite <- app_assoc. done.
    + split; [done|]. intros c Hc. rewrite lookup_insert_ne.
      * apply Hsame1. by rewrite fmap_app in Hc.
      * intros <-. apply Hc. rewrite fmap_app. right. apply elem_of_app. right. by left.
Qed.

(** Turning the links of [l] around, in front of the reversed list [k]. *)
Lemma reverse_loop_spec fuel h p q l k :
  list_rep h p l -> list_rep h q k -> NoDup (l.*1 ++ k.*1) -> (length l <= fuel)%nat ->
  exists h' p', reverse_loop fuel h p q = Ret (h', p') /\ list_rep h' p' (reverse l ++ k) /\
    same_except l.*1 h h'.
Proof.
  revert fuel h p q k. induction l as [|[a d] l IH]; intros fuel h p q k Hp Hq Hnd Hf.
  - cbn in Hp. subst p. exists h, q. split; [by destruct fuel|]. by rewrite reverse_nil.
  - destruct Hp as (-> & Ha & n & Hn & Hp). cbn [length] in Hf. destruct fuel as [|fuel]; [lia|].
    cbn [reverse_loop]. rewrite (proj2 (Z.eqb_neq a NULL)) by done.
    unfold set_next, load. rewrite Hn. cbn [mbind outcome_bind next data].
    cbn in Hnd. apply NoDup_cons in Hnd as [Hnin Hnd]. rewrite not_elem_of_app in Hnin. destruct Hnin as [Hnl Hnk].
    set (h1 := <[a := mk_cell d q]> h).
    assert (Hne : forall b (m : list Z), b ∈ m -> a ∉ m -> h1 !! b = h !! b).
    { intros b m Hb Hm. apply lookup_insert_ne. congruence. }
    destruct (IH fuel h1 n a ((a, d) :: k)) as (h' & p' & Hrun & Hr' & Hsame).
    + apply (list_rep_ext h); [|done]. intros b Hb. by apply (Hne b l.*1).
    + split; [done|]. split; [done|]. exists q. split; [apply lookup_insert_eq|].
      apply (list_rep_ext h); [|done]. intros b Hb. by apply (Hne b k.*1).
    + cbn. rewrite <- Permutation_middle. apply NoDup_cons. by rewrite not_elem_of_app.
    + lia.
    + exists h', p'. split; [done|]. split; [by rewrite reverse_cons, <- app_assoc|].
      intros b Hb. cbn in Hb. apply not_elem_of_cons in Hb as [Hba Hb].
      rewrite Hsame by done. by apply lookup_insert_ne.
Qed.

Lemma free_loop_spec fuel h p l freed :
  is_list h p l -> (length l <= fuel)%nat ->
  exists h', free_loop fuel h freed p = Ret (h', freed ++ l.*2) /\
    (forall a, a ∈ l.*1 -> h' !! a = None) /\ same_except l.*1 h h'.
Proof.
  revert fuel h p freed. induction l as [|[a d] l IH]; intros fuel h p freed [Hp Hnd] Hf.
  - cbn in Hp. subst p. exists h. rewrite app_nil_r. split; [by destruct fuel|].
    split; [|done]. intros a Ha. by apply elem_of_nil in Ha.
  - destruct Hp as (-> & Ha & n & Hn & Hp). cbn [length] in Hf. destruct fuel as [|fuel]; [lia|].
    cbn in Hnd. apply NoDup_cons in Hnd as [Hnin Hnd].
    cbn [free_loop]. rewrite (proj2 (Z.eqb_neq a NULL)) by done. unfold load. rewrite Hn.
    cbn [mbind outcome_bind next data].
    destruct (IH fuel (delete a h) n (freed ++ [d])) as (h' & -> & Hgone & Hsame); [|lia|].
    { split; [|done]. apply (list_rep_ext h); [|done]. intros b Hb. apply lookup_delete_ne. congruence. }
    exists h'. rewrite <- app_assoc. split; [done|]. split.
    + intros b Hb. cbn in Hb. apply elem_of_cons in Hb as [->|Hb]; [|by apply Hgone].
      rewrite Hsame by done. apply lookup_delete_eq.
    + intros b Hb. cbn in Hb. apply not_elem_of_cons in Hb as [Hba Hb].
      rewrite Hsame by done. by apply lookup_delete_ne.
Qed.

(** [map] pushes the results that are not null in front of [k]; the list stays. *)
Lemma map_loop_spec fuel h p l f arg q k :
  is_list h p l -> is_list h q k -> (length l <= fuel)%nat ->
  exists h' q' k', map_loop fuel h p f arg q = Ret (h', q') /\ is_list h' q' k' /\
    k'.*2 = reverse (filter (fun x => x <> NULL) ((fun d => f d arg) <$> l.*2)) ++ k.*2 /\
    (forall a, a ∈ dom h -> h' !! a = h !! a) /\
    (forall a, a ∈ k'.*1 -> a ∈ k.*1 \/ a ∉ dom h).
Proof.
  revert fuel h p q k. induction l as [|[a d] l IH]; intros fuel h p q k Hl Hk Hf.
  - destruct Hl as [Hp _]. cbn in Hp. subst p. exists h, q, k. split; [by destruct fuel|].
    split; [done|]. split; [done|]. split; [done|auto].
  - destruct Hl as [(-> & Ha & n & Hn & Hp) Hnd]. cbn in Hf. destruct fuel as [|fuel]; [lia|].
    cbn [map_loop]. rewrite (proj2 (Z.eqb_neq a NULL)) by done. unfold load. rewrite Hn.
    cbn [mbind outcome_bind next data]. cbn in Hnd. apply NoDup_cons in Hnd as [Hnin Hnd].
    cbn [fmap list_fmap snd]. rewrite filter_cons.
    destruct (Z.eqb_spec (f d arg) NULL) as [E|E]; cbn [negb].
    + rewrite decide_False by tauto. apply IH; [done|done|lia].
    + rewrite decide_True by done. destruct Hk as [Hk Hndk].
      pose proof (push_spec h q (f d arg) k Hk) as Hpush.
      destruct (ponyint_list_push h q (f d arg)) as [h1 q1].
      destruct Hpush as (Hk1 & Hq1 & Hfree & Hsame).
      assert (Hdom : forall b, b ∈ dom h -> h1 !! b = h !! b).
      { intros b Hb. apply Hsame. intros ->%list_elem_of_singleton.
        by apply not_elem_of_dom in Hfree. }
      assert (Hq1k : q1 ∉ k.*1).
      { intros Hin. destruct (list_rep_dom h q k q1 Hk Hin) as [[c Hc] _]. congruence. }
      destruct (IH fuel h1 n q1 ((q1, f d arg) :: k)) as (h' & q' & k' & Hrun & Hk' & Hd & Hsame' & Hin').
      * split; [|done]. apply (list_rep_ext h); [|done]. intros b Hb. apply Hdom, elem_of_dom.
        by apply (list_rep_dom h n l).
      * split; [done|]. by apply NoDup_cons.
      * lia.
      * assert (Hsub : forall b, b ∈ dom h -> b ∈ dom h1).
        { intros b Hb. apply elem_of_dom. rewrite Hdom by done. by apply elem_of_dom. }
        exists h', q', k'. split; [done|]. split; [done|]. split.
        { rewrite Hd, reverse_cons, <- app_assoc. done. }
        split; [intros b Hb; rewrite Hsame' by auto; auto|].
        intros b Hb. destruct (Hin' b Hb) as [Hbk|Hbd]; [|auto].
        cbn in Hbk. apply elem_of_cons in Hbk as [->|Hbk]; [right; by apply not_elem_of_dom|by left].
Qed.

(** ** Properties *)

(** The operations that read a list compute what their names say on every list in the
    store, and terminate: the length; the suffix at an index, counted from the end when it
    is negative and from the head when it is before the first cell; the first item that
    matches and its index; and equality item by item. *)
Theorem list_reading_correct h p l f d index q k :
  is_list h p l -> is_list h q k ->
  ponyint_list_length h p = Ret (Z.of_nat (length l)) /\
  (exists p', ponyint_list_index h p index = Ret p' /\
     list_rep h p' (drop (Z.to_nat (if index <? 0 then Z.of_nat (length l) + index else index)) l)) /\
  ponyint_list_find h p f d = Ret (from_option snd NULL (list_find (fun y => f d y = true) l.*2)) /\
  ponyint_list_findindex h p f d =
    Ret (from_option (fun x => Z.of_nat x.1) (-1) (list_find (fun y => f d y = true) l.*2)) /\
  ponyint_list_equals h p q f = Ret (bool_decide (Forall2 (fun x y => f x y = true) l.*2 k.*2)).
Proof.
  intros Hl Hk. pose proof (is_list_size h p l Hl) as Hsize. destruct Hl as [Hp Hnd], Hk as [Hq _].
  assert (Hlen : ponyint_list_length h p = Ret (Z.of_nat (length l))).
  { unfold ponyint_list_length. by rewrite (length_loop_spec h _ p l 0) by (done || lia). }
  split; [done|]. split; [|split; [|split]].
  - unfold ponyint_list_index. rewrite Hlen. cbn [mbind outcome_bind].
    destruct (index_loop_spec h (S (size h)) p l 0
      (if index <? 0 then Z.of_nat (length l) + index else index) Hp ltac:(lia)) as (p' & Hrun & Hp').
    rewrite Z.sub_0_r in Hp'. exists p'. split; [|done]. rewrite <- Hrun. by destruct (index <? 0).
  - by apply find_loop_spec; [|lia].
  - unfold ponyint_list_findindex. by rewrite (findindex_loop_spec h _ p l) by (done || lia).
  - by apply equals_loop_spec; [| |lia].
Qed.

(** Three cells for the witnesses. *)
Definition sample_store : store :=
  <[8 := mk_cell 10 24]> (<[24 := mk_cell 20 16]> (<[16 := mk_cell 30 NULL]> ∅)).
Definition sample_cells : list (Z * Z) := [(8, 10); (24, 20); (16, 30)].

Lemma sample_is_list : is_list sample_store 8 sample_cells.
Proof.
  split; [|apply (bool_decide_eq_true_1 _); reflexivity].
  split; [done|]. split; [done|]. exists 24. split; [reflexivity|].
  split; [done|]. split; [done|]. exists 16. split; [reflexivity|].
  split; [done|]. split; [done|]. exists NULL. split; [reflexivity|done].
Qed.

Lemma list_reading_correct_witness :
  ponyint_list_length sample_store 8 = Ret 3 /\
  (exists p', ponyint_list_index sample_store 8 (-1) = Ret p' /\ list_rep sample_store p' [(16, 30)]) /\
  ponyint_list_find sample_store 8 Z.eqb 20 = Ret 20 /\
  ponyint_list_findindex sample_store 8 Z.eqb 20 = Ret 1 /\
  ponyint_list_equals sample_store 8 8 Z.eqb = Ret true.
Proof.
  apply (list_reading_correct sample_store 8 sample_cells Z.eqb 20 (-1) 8 sample_cells
    sample_is_list sample_is_list).
Defined.

(** [ponyint_list_append] puts one new cell behind the cells of the list, which keep
    their addresses, and changes nothing else in the store. *)
Theorem list_append_correct h p l d :
  is_list h p l ->
  exists h' p' a, ponyint_list_append h p d = Ret (h', p') /\ is_list h' p' (l ++ [(a, d)]) /\
    h !! a = None /\ same_except (a :: l.*1) h h'.
Proof. apply append_spec. Qed.

Lemma list_append_correct_witness :
  exists h' p' a, ponyint_list_append sample_store 8 40 = Ret (h', p') /\
    is_list h' p' (sample_cells ++ [(a, 40)]) /\ sample_store !! a = None /\
    same_except (a :: sample_cells.*1) sample_store h'.
Proof. apply (list_append_correct sample_store 8 sample_cells 40 sample_is_list). Defined.

(** [ponyint_list_reverse] turns the links of the list around in place: the same cells
    in the opposite order, and nothing else changed. *)
Theorem list_reverse_correct h p l :
  is_list h p l ->
  exists h' p', ponyint_list_reverse h p = Ret (h', p') /\ is_list h' p' (reverse l) /\
    same_except l.*1 h h'.
Proof.
  intros Hl. pose proof (is_list_size h p l Hl) as Hsize. destruct Hl as [Hp Hnd].
  destruct (reverse_loop_spec (S (size h)) h p NULL l []) as (h' & p' & Hrun & Hr & Hsame);
    [done|done|by rewrite app_nil_r|lia|].
  rewrite app_nil_r in Hr. exists h', p'. split; [done|]. split; [split; [done|]|done].
  rewrite <- (reverse_Permutation l) in Hnd. done.
Qed.

Lemma list_reverse_correct_witness :
  exists h' p', ponyint_list_reverse sample_store 8 = Ret (h', p') /\
    is_list h' p' (reverse sample_cells) /\ same_except sample_cells.*1 sample_store h'.
Proof. apply (list_reverse_correct sample_store 8 sample_cells sample_is_list). Defined.

(** [ponyint_list_map] makes a new list of the results that are not null, in the order
    of the items; the cells that were in the store stay as they were. *)
Theorem list_map_correct h p l f arg :
  is_list h p l ->
  exists h' p' k, ponyint_list_map h p f arg = Ret (h', p') /\ is_list h' p' k /\
    k.*2 = filter (fun x => x <> NULL) ((fun d => f d arg) <$> l.*2) /\
    (forall a, a ∈ dom h -> h' !! a = h !! a).
Proof.
  intros Hl. pose proof (is_list_size h p l Hl) as Hsize.
  assert (is_list h NULL []) as Hnil by (split; [done|constructor]).
  destruct (map_loop_spec (S (size h)) h p l f arg NULL [] Hl Hnil ltac:(lia)) as
    (h1 & q & k & Hrun & Hk & Hd & Hsame & Hnew).
  pose proof (is_list_size h1 q k Hk) as Hsize1. destruct Hk as [Hk Hndk].
  destruct (reverse_loop_spec (S (size h1)) h1 q NULL k []) as (h' & p' & Hrun' & Hr & Hsame');
    [done|done|by rewrite app_nil_r|lia|].
  rewrite app_nil_r in Hr. unfold ponyint_list_map. rewrite Hrun. cbn [mbind outcome_bind].
  exists h', p', (reverse k). split; [done|]. split; [split; [done|]|split].
  - rewrite <- (reverse_Permutation k) in Hndk. done.
  - cbn in Hd. rewrite app_nil_r in Hd. rewrite fmap_reverse, Hd. apply reverse_involutive.
  - intros a Ha. rewrite Hsame'; [auto|]. intros Hin. destruct (Hnew a Hin) as [Hx|Hx]; [|done].
    by apply elem_of_nil in Hx.
Qed.

Lemma list_map_correct_witness :
  exists h' p' k, ponyint_list_map sample_store 8 Z.sub 20 = Ret (h', p') /\ is_list h' p' k /\
    k.*2 = [-10; 10] /\ (forall a, a ∈ dom sample_store -> h' !! a = sample_store !! a).
Proof. apply (list_map_correct sample_store 8 sample_cells Z.sub 20 sample_is_list). Defined.

(** [ponyint_list_free] hands every item to the callback once, in order, frees every
    cell of the list and no other. *)
Theorem list_free_correct h p l :
  is_list h p l ->
  exists h', ponyint_list_free h p = Ret (h', l.*2) /\ (forall a, a ∈ l.*1 -> h' !! a = None) /\
    same_except l.*1 h h'.
Proof.
  intros Hl. pose proof (is_list_size h p l Hl).
  destruct (free_loop_spec (S (size h)) h p l [] Hl ltac:(lia)) as (h' & Hrun & ?). by exists h'.
Qed.

Lemma list_free_correct_witness :
  exists h', ponyint_list_free sample_store 8 = Ret (h', sample_cells.*2) /\
    (forall a, a ∈ sample_cells.*1 -> h' !! a = None) /\ same_except sample_cells.*1 sample_store h'.
Proof. apply (list_free_correct sample_store 8 sample_cells sample_is_list). Defined.

(** [ponyint_list_subset] says whether every item of the first list has a match in the
    second, whose items are not null pointers. *)
Theorem list_subset_correct h p q l k f :
  is_list h p l -> is_list h q k -> Forall (fun y => y <> NULL) k.*2 ->
  ponyint_list_subset h p q f =
    Ret (bool_decide (Forall (fun x => Exists (fun y => f x y = true) k.*2) l.*2)).
Proof.
  intros Hl Hk Hnn. pose proof (is_list_size h p l Hl). pose proof (is_list_size h q k Hk).
  destruct Hl as [Hp _], Hk as [Hq _]. by apply subset_loop_spec; try lia.
Qed.

Lemma list_subset_correct_witness :
  ponyint_list_subset sample_store 8 8 Z.eqb =
    Ret (bool_decide (Forall (fun x => Exists (fun y => (x =? y) = true) sample_cells.*2) sample_cells.*2)).
Proof.
  apply (list_subset_correct sample_store 8 8 sample_cells sample_cells Z.eqb sample_is_list sample_is_list).
  repeat constructor; discriminate.
Defined.
