(* ===== verification/Stack.v ===== *)
(** * Chunked stacks: [src/libponyrt/ds/stack.c]

    A stack is a chain of chunks of 62 pointers.  A chunk is a record with the array as a
    list; the chain is owned by the stack, so that it is a value.  What a new chunk holds
    before it is written is a parameter. *)
From S2P Require Import Prelude.
Local Set Warnings "-register-all".
Local Open Scope Z_scope.

Definition STACK_COUNT : Z := 62.

Inductive Stack : Type :=
| mk_stack (index : Z) (data : list Z) (prev : option Stack).

Section stack.
(** The uninitialised array of a new chunk. *)
Context (fresh_data : list Z).

Definition stack_new (prev : option Stack) (d : Z) : Stack :=
  mk_stack 1 (<[O := d]> fresh_data) prev.

(** The stack afterwards, and the popped pointer. *)
Definition ponyint_stack_pop (stack : option Stack) : outcome (option Stack * Z) :=
  match stack with
  | None => Abort
  | Some (mk_stack index data prev) =>
      let index := index - 1 in
      let d := nth (Z.to_nat index) data 0 in
      if index =? 0 then Ret (prev, d) else Ret (Some (mk_stack index data prev), d)
  end.

Definition ponyint_stack_push (stack : option Stack) (d : Z) : Stack :=
  match stack with
  | Some (mk_stack index data prev) =>
      if index <? STACK_COUNT then mk_stack (index + 1) (<[Z.to_nat index := d]> data) prev
      else stack_new stack d
  | None => stack_new None d
  end.

(** ** The abstract stack *)

(** The pointers of a stack, the top first. *)
Fixpoint contents (s : Stack) : list Z :=
  match s with
  | mk_stack index data prev =>
      reverse (take (Z.to_nat index) data) ++ match prev with Some s => contents s | None => [] end
  end.

Definition contents_ptr (s : option Stack) : list Z := from_option contents [] s.

Definition chunk_index (s : Stack) : Z := match s with mk_stack index _ _ => index end.

(** A chunk holds between 1 and 62 pointers; only the top one is not full. *)
Fixpoint stack_ok (s : Stack) : Prop :=
  match s with
  | mk_stack index data prev =>
      1 <= index <= STACK_COUNT /\ Z.of_nat (length data) = STACK_COUNT /\
      match prev with Some s => chunk_index s = STACK_COUNT /\ stack_ok s | None => True end
  end.

Definition stack_ok_ptr (s : option Stack) : Prop := from_option stack_ok True s.

Lemma push_contents s d :
  Z.of_nat (length fresh_data) = STACK_COUNT -> stack_ok_ptr s ->
  stack_ok (ponyint_stack_push s d) /\ contents (ponyint_stack_push s d) = d :: contents_ptr s.
Proof.
  unfold STACK_COUNT. intros Hfresh Hok.
  assert (Hnew : take 1 (<[O := d]> fresh_data) = [d] /\ Z.of_nat (length (<[O := d]> fresh_data)) = 62).
  { rewrite length_insert. split; [|done]. destruct fresh_data; [cbn in Hfresh; lia|done]. }
  destruct Hnew as [Htake Hlen].
  destruct s as [[index data prev]|]; cbn [ponyint_stack_push].
  - destruct Hok as (Hi & Hl & Hprev). unfold STACK_COUNT in *.
    destruct (Z.ltb_spec index 62) as [Hlt|Hge].
    + cbn. rewrite length_insert. unfold STACK_COUNT. split; [split; [lia|done]|].
      assert (Z.to_nat (index + 1) = S (Z.to_nat index)) as -> by lia.
      rewrite (take_S_r _ _ d) by (apply list_lookup_insert_eq; lia).
      rewrite take_insert_ge by lia. by rewrite reverse_snoc.
    + unfold stack_new. cbn [stack_ok contents]. unfold STACK_COUNT. rewrite Hlen.
      split; [split; [lia|split; [done|split; [cbn; lia|done]]]|].
      change (Z.to_nat 1) with 1%nat. rewrite Htake. done.
  - unfold stack_new. cbn [stack_ok contents]. unfold STACK_COUNT. rewrite Hlen.
    split; [split; [lia|done]|]. change (Z.to_nat 1) with 1%nat. by rewrite Htake.
Qed.

Lemma pop_contents s :
  stack_ok s ->
  exists s' d, ponyint_stack_pop (Some s) = Ret (s', d) /\ stack_ok_ptr s' /\
    contents s = d :: contents_ptr s'.
Proof.
  destruct s as [index data prev]. intros (Hi & Hl & Hprev). unfold STACK_COUNT in *.
  destruct (lookup_lt_is_Some_2 data (Z.to_nat (index - 1)) ltac:(lia)) as [d Hd].
  assert (contents (mk_stack index data prev) =
    d :: reverse (take (Z.to_nat (index - 1)) data) ++ contents_ptr prev) as Hc.
  { cbn [contents]. assert (Z.to_nat index = S (Z.to_nat (index - 1))) as -> by lia.
    rewrite (take_S_r _ _ d) by done. rewrite reverse_snoc. by destruct prev. }
  cbn [ponyint_stack_pop]. rewrite nth_lookup, Hd. cbn [default].
  destruct (Z.eqb_spec (index - 1) 0) as [E|E].
  - exists prev, d. split; [done|]. rewrite Hc, E. split; [|done].
    destruct prev; [apply Hprev|done].
  - exists (Some (mk_stack (index - 1) data prev)), d. split; [done|]. rewrite Hc.
    split; [split; [unfold STACK_COUNT; lia|done]|]. cbn [contents_ptr from_option contents]. by destruct prev.
Qed.
End stack.

(** ** Properties *)

(** A stack refines a list of pointers: [ponyint_stack_push] puts a pointer on top,
    [ponyint_stack_pop] takes the top off and hands it out without a failed assertion, and
    both keep the chunks well formed, also when a chunk becomes full or empty. *)
Theorem stack_refines_list fresh_data s d :
  Z.of_nat (length fresh_data) = STACK_COUNT -> stack_ok_ptr s ->
  (let s' := ponyint_stack_push fresh_data s d in
   stack_ok s' /\ contents s' = d :: contents_ptr s) /\
  (contents_ptr s <> [] ->
   exists s' x, ponyint_stack_pop s = Ret (s', x) /\ stack_ok_ptr s' /\
     contents_ptr s = x :: contents_ptr s').
Proof.
  intros Hfresh Hok. split; [by apply push_contents|]. intros Hne.
  destruct s as [s|]; [|done]. by apply pop_contents.
Qed.

Lemma stack_refines_list_witness :
  let fresh := replicate 62 0 in
  let s := Some (mk_stack 62 (replicate 62 7) None) in
  (let s' := ponyint_stack_push fresh s 9 in
   stack_ok s' /\ contents s' = 9 :: contents_ptr s) /\
  (contents_ptr s <> [] ->
   exists s' x, ponyint_stack_pop s = Ret (s', x) /\ stack_ok_ptr s' /\
     contents_ptr s = x :: contents_ptr s').
Proof.
  apply (stack_refines_list (replicate 62 0) (Some (mk_stack 62 (replicate 62 7) None)) 9);
    [reflexivity|].
  split; [split; discriminate|split; [reflexivity|exact I]].
Defined.
