(* ===== verification/MessageQ.v ===== *)
(** * Message queues: [src/libponyrt/actor/messageq.c]

    A queue has many producers and one consumer.  Its messages are linked from [tail], a
    message that has been consumed already, to [head], the last one pushed; bit 0 of [head]
    says that the consumer has marked the queue as empty.  A push exchanges the head first
    and links its chain to the previous head afterwards, so that a queue can have gaps.

    A call is a sequence of atomic steps.  [push_step] and [consume_step] run the next step of
    a call, [do_action] the next step of one thread of a system, [exec] a schedule.  Memory is
    sequentially consistent.  The specification is [replay]: a first-in first-out queue on
    which the calls act in one step each. *)
From S2P Require Import Prelude.
From stdpp Require Import gmap fin_maps.
Local Open Scope Z_scope.
Local Open Scope c_scope.

(** ** Memory *)

Record messageq_t := mk_messageq { head : Z; tail : Z }.

(** A queue and the [next] field of the messages that are allocated. *)
Record memory := mk_memory { queue : messageq_t; next : gmap Z Z }.

(** The addresses of messages: every allocation of the pool is aligned. *)
Definition is_message (p : Z) : Prop := is_u64 p /\ p <> NULL /\ Z.land p 1 = 0.

#[export] Instance is_message_dec p : Decision (is_message p).
Proof. unfold is_message, is_u64. apply _. Defined.

(** Access to a message that has been freed stops the program. *)
Definition load_next (m : memory) (p : Z) : outcome Z :=
  match next m !! p with Some n => Ret n | None => Abort end.

Definition store_next (m : memory) (p n : Z) : outcome memory :=
  match next m !! p with Some _ => Ret (mk_memory (queue m) (<[p := n]> (next m))) | None => Abort end.

Definition pool_free (m : memory) (p : Z) : outcome memory :=
  match next m !! p with Some _ => Ret (mk_memory (queue m) (delete p (next m))) | None => Abort end.

Definition set_head (m : memory) (p : Z) : memory := mk_memory (mk_messageq p (tail (queue m))) (next m).
Definition set_tail (m : memory) (p : Z) : memory := mk_memory (mk_messageq (head (queue m)) p) (next m).

(** [((uintptr_t)p & 1) != 0], [p | 1] and [p & ~1]. *)
Definition is_marked (p : Z) : bool := negb (Z.land p 1 =? 0).
Definition mark (p : Z) : Z := Z.lor p 1.
Definition unmark (p : Z) : Z := Z.land p (not64 1).

(** [ponyint_messageq_init], with the address of the stub that the pool gives. *)
Definition ponyint_messageq_init (stub : Z) (heap : gmap Z Z) : memory :=
  mk_memory (mk_messageq (mark stub) stub) (<[stub := NULL]> heap).

Definition ponyint_messageq_destroy (m : memory) (maybe_non_empty : bool) : outcome memory :=
  if maybe_non_empty || (unmark (head (queue m)) =? tail (queue m)) then
    m ← pool_free m (tail (queue m));
    Ret (set_tail (set_head m NULL) NULL)
  else Abort.

(** The number of messages that are linked, a debugging aid. *)
Fixpoint size_debug_loop (fuel : nat) (m : memory) (p : Z) (count : Z) : outcome Z :=
  match fuel with
  | O => NoFuel
  | S fuel => n ← load_next m p; if n =? NULL then Ret count else size_debug_loop fuel m n (count ⊞ 1)
  end.

Definition messageq_size_debug (m : memory) : outcome Z :=
  size_debug_loop (S (size (next m))) m (tail (queue m)) 0.

(** ** Producers *)

(** Where a push is: before the store to [last->next], before the exchange of the head,
    before the store to [prev->next], or at its end. *)
Inductive push_pc :=
| Push_clear (first last : Z)
| Push_exchange (first last : Z)
| Push_link (prev first : Z) (was_empty : bool)
| Push_done (was_empty : bool).

(** [messageq_push] *)
Definition push_step (m : memory) (pc : push_pc) : outcome (memory * push_pc) :=
  match pc with
  | Push_clear first last => m ← store_next m last NULL; Ret (m, Push_exchange first last)
  | Push_exchange first last =>
      let prev := head (queue m) in
      Ret (set_head m last, Push_link (unmark prev) first (is_marked prev))
  | Push_link prev first was_empty => m ← store_next m prev first; Ret (m, Push_done was_empty)
  | Push_done was_empty => Ret (m, pc)
  end.

(** [messageq_push_single] has the same steps. *)
Definition push_single_step (m : memory) (pc : push_pc) : outcome (memory * push_pc) :=
  match pc with
  | Push_clear first last => m ← store_next m last NULL; Ret (m, Push_exchange first last)
  | Push_exchange first last =>
      let prev := head (queue m) in
      Ret (set_head m last, Push_link (unmark prev) first (is_marked prev))
  | Push_link prev first was_empty => m ← store_next m prev first; Ret (m, Push_done was_empty)
  | Push_done was_empty => Ret (m, pc)
  end.

(** ** The consumer *)

(** Where a call of the consumer is: a pop before it loads [tail->next] and before it
    advances the tail; [markempty] before it loads the head and before its compare and
    exchange; [isempty] before it loads the head. *)
Inductive consumer_pc :=
| Idle
| Pop_load (tail : Z)
| Pop_advance (tail next : Z)
| Mark_load (tail : Z)
| Mark_exchange (tail head : Z)
| Empty_load (tail : Z).

(** What is observed: a push takes effect ([Pushed]) and returns; the results of a pop (a
    message or [NULL]), of [markempty] and of [isempty]. *)
Inductive event :=
| Pushed (t : nat) (chain : list Z) (was_empty : bool)
| Returned (t : nat)
| Popped (p : Z)
| Marked (result : bool)
| Is_empty (result : bool).

(** [ponyint_actor_messageq_pop] and [ponyint_thread_messageq_pop] *)
Definition pop_step (m : memory) (pc : consumer_pc) : outcome (memory * consumer_pc * list event) :=
  match pc with
  | Pop_load tail =>
      next ← load_next m tail;
      if negb (next =? NULL) then Ret (m, Pop_advance tail next, []) else Ret (m, Idle, [Popped NULL])
  | Pop_advance tail next => m ← pool_free (set_tail m next) tail; Ret (m, Idle, [Popped next])
  | _ => Ret (m, pc, [])
  end.

Definition markempty_step (m : memory) (pc : consumer_pc) : outcome (memory * consumer_pc * list event) :=
  match pc with
  | Mark_load tail =>
      let hd := head (queue m) in
      if is_marked hd then Ret (m, Idle, [Marked true])
      else if negb (hd =? tail) then Ret (m, Idle, [Marked false])
      else Ret (m, Mark_exchange tail (mark hd), [])
  | Mark_exchange tail hd =>
      if head (queue m) =? tail then Ret (set_head m hd, Idle, [Marked true]) else Ret (m, Idle, [Marked false])
  | _ => Ret (m, pc, [])
  end.

Definition isempty_step (m : memory) (pc : consumer_pc) : outcome (memory * consumer_pc * list event) :=
  match pc with
  | Empty_load tail =>
      let hd := head (queue m) in
      if is_marked hd then Ret (m, Idle, [Is_empty true]) else Ret (m, Idle, [Is_empty (hd =? tail)])
  | _ => Ret (m, pc, [])
  end.

Definition consume_step (m : memory) (pc : consumer_pc) : outcome (memory * consumer_pc * list event) :=
  match pc with
  | Idle => Ret (m, Idle, [])
  | Pop_load _ | Pop_advance _ _ => pop_step m pc
  | Mark_load _ | Mark_exchange _ _ => markempty_step m pc
  | Empty_load _ => isempty_step m pc
  end.

(** ** Senders: [src/libponyrt/actor/actor.c]

    [ndebug] is [PONY_NDEBUG]: without it the assertions of the runtime are checked.  The
    contents of a new message are arbitrary. *)
Section system.
Context (ndebug : bool) (garbage : Z -> Z).

(** [pony_alloc_msg], at an address that is free. *)
Definition pony_alloc_msg (m : memory) (p : Z) : memory :=
  mk_memory (queue m) (<[p := if ndebug then garbage p else NULL]> (next m)).

Definition pony_chain (m : memory) (prev nxt : Z) : outcome memory :=
  n ← load_next m prev;
  if negb ndebug && negb (n =? NULL) then Abort else store_next m prev nxt.

(** Links the messages of a list, from the first to the last. *)
Fixpoint chain_all (m : memory) (l : list Z) : outcome memory :=
  match l with
  | a :: (b :: _) as l => m ← pony_chain m a b; chain_all m l
  | _ => Ret m
  end.

(** [well_formed_msg_chain], with two pointers of different speeds. *)
Fixpoint chain_loop (fuel : nat) (m : memory) (m1 m2 lst : Z) : outcome bool :=
  match fuel with
  | O => NoFuel
  | S fuel =>
      if (m1 =? NULL) || (m2 =? NULL) then Ret false
      else if m2 =? lst then Ret true
      else
        m2 ← load_next m m2;
        if m2 =? lst then Ret true
        else if m2 =? NULL then Ret false
        else
          m1 ← load_next m m1;
          m2 ← load_next m m2;
          if m1 =? m2 then Ret false else chain_loop fuel m m1 m2 lst
  end.

Definition well_formed_msg_chain (m : memory) (first lst : Z) : outcome bool :=
  if (first =? NULL) || (lst =? NULL) then Ret false
  else
    n ← load_next m lst;
    if negb (n =? NULL) then Ret false else chain_loop (S (size (next m))) m first first lst.

(** The beginning of [pony_sendv]: a thread allocates messages, chains them and calls the
    push.  The assertion is checked in debug builds only. *)
Definition start_send (m : memory) (l : list Z) : outcome (memory * push_pc) :=
  let m := foldl pony_alloc_msg m l in
  m ← chain_all m l;
  let first := default NULL (hd_error l) in
  let lst := default NULL (last l) in
  ok ← (if ndebug then Ret true else well_formed_msg_chain m first lst);
  if ok : bool then Ret (m, Push_clear first lst) else Abort.

(** ** Systems

    The pushes in progress, with their messages, and the call of the consumer. *)
Record system := mk_system {
  mem : memory;
  producers : gmap nat (list Z * push_pc);
  consumer : consumer_pc
}.

Definition system_init (stub : Z) : system := mk_system (ponyint_messageq_init stub ∅) ∅ Idle.

(** The moves of a system: thread [t] sends new messages, thread [t] takes a step (its last
    one is the return), the consumer calls an operation, or takes a step.  A move that is
    not possible does nothing. *)
Inductive action :=
| Send (t : nat) (l : list Z)
| Run (t : nat)
| Call_pop
| Call_markempty
| Call_isempty
| Consume.

(** New messages are allocated at distinct, free addresses. *)
Definition can_send (s : system) (t : nat) (l : list Z) : Prop :=
  producers s !! t = None /\ l <> [] /\ NoDup l /\ Forall is_message l /\
  Forall (fun p => next (mem s) !! p = None) l.

#[export] Instance can_send_dec s t l : Decision (can_send s t l).
Proof. unfold can_send. apply _. Defined.

Definition push_event (t : nat) (l : list Z) (pc pc' : push_pc) : list event :=
  match pc, pc' with
  | Push_exchange _ _, Push_link _ _ was_empty => [Pushed t l was_empty]
  | Push_link _ _ _, Push_done _ => [Returned t]
  | _, _ => []
  end.

Definition call (s : system) (pc : consumer_pc) : system :=
  match consumer s with Idle => mk_system (mem s) (producers s) pc | _ => s end.

Definition do_action (s : system) (a : action) : outcome (system * list event) :=
  match a with
  | Send t l =>
      if decide (can_send s t l) then
        '(m, pc) ← start_send (mem s) l;
        Ret (mk_system m (<[t := (l, pc)]> (producers s)) (consumer s), [])
      else Ret (s, [])
  | Run t =>
      match producers s !! t with
      | None => Ret (s, [])
      | Some (_, Push_done _) => Ret (mk_system (mem s) (delete t (producers s)) (consumer s), [])
      | Some (l, pc) =>
          '(m, pc') ← push_step (mem s) pc;
          Ret (mk_system m (<[t := (l, pc')]> (producers s)) (consumer s), push_event t l pc pc')
      end
  | Call_pop => Ret (call s (Pop_load (tail (queue (mem s)))), [])
  | Call_markempty => Ret (call s (Mark_load (tail (queue (mem s)))), [])
  | Call_isempty => Ret (call s (Empty_load (tail (queue (mem s)))), [])
  | Consume =>
      '(m, pc, evs) ← consume_step (mem s) (consumer s);
      Ret (mk_system m (producers s) pc, evs)
  end.

Fixpoint exec (s : system) (schedule : list action) : outcome (system * list event) :=
  match schedule with
  | [] => Ret (s, [])
  | a :: schedule =>
      '(s, evs) ← do_action s a;
      '(s, evs') ← exec s schedule;
      Ret (s, evs ++ evs')
  end.
End system.

(** ** Specification

    The messages in the queue, whether it is marked as empty, and the first message of each
    push that has taken effect and not returned. *)
Record spec_state := mk_spec { waiting : list Z; asleep : bool; in_flight : gmap nat Z }.

Definition spec_init : spec_state := mk_spec [] true ∅.

(** A push appends its messages, wakes the queue and reports whether it was asleep.  A pop
    returns the first message; it may return [NULL] only if there is none or the push of the
    first one has not returned.  [markempty] and [isempty] report whether there is no message,
    and [markempty] puts the queue to sleep if so. *)
Definition replay_event (a : spec_state) (e : event) : option spec_state :=
  match e with
  | Pushed t l was_empty =>
      if decide (was_empty = asleep a)
      then Some (mk_spec (waiting a ++ l) false (<[t := default NULL (hd_error l)]> (in_flight a)))
      else None
  | Returned t => Some (mk_spec (waiting a) (asleep a) (delete t (in_flight a)))
  | Popped p =>
      match waiting a with
      | [] => if p =? NULL then Some a else None
      | x :: rest =>
          if p =? NULL then
            if bool_decide (Exists (fun tx => snd tx = x) (map_to_list (in_flight a))) then Some a else None
          else if p =? x then Some (mk_spec rest (asleep a) (in_flight a)) else None
      end
  | Marked r =>
      if decide (r = bool_decide (waiting a = []))
      then Some (mk_spec (waiting a) (r || asleep a) (in_flight a)) else None
  | Is_empty r => if decide (r = bool_decide (waiting a = [])) then Some a else None
  end.

Fixpoint replay (a : spec_state) (evs : list event) : option spec_state :=
  match evs with
  | [] => Some a
  | e :: evs => a ← replay_event a e; replay a evs
  end.

(** ** Marked addresses *)

Lemma message_marked p : is_message p -> is_marked p = false.
Proof. intros (_ & _ & H). unfold is_marked. by rewrite H. Qed.

Lemma mark_marked p : is_marked (mark p) = true.
Proof.
  unfold is_marked, mark. destruct (Z.eqb_spec (Z.land (Z.lor p 1) 1) 0) as [E|]; [|done].
  assert (Z.testbit (Z.land (Z.lor p 1) 1) 0 = false) as Hb by (by rewrite E).
  by rewrite Z.land_spec, Z.lor_spec, orb_true_r in Hb.
Qed.

Lemma message_bit p : is_message p -> Z.testbit p 0 = false.
Proof.
  intros (_ & _ & H). assert (Z.testbit (Z.land p 1) 0 = false) as Hb by (by rewrite H).
  rewrite Z.land_spec in Hb. by rewrite andb_true_r in Hb.
Qed.

Lemma unmark_testbit p i : 0 <= i -> Z.testbit (unmark p) i = Z.testbit p i && (i <? 64) && (1 <=? i).
Proof.
  intros Hi. unfold unmark. rewrite Z.land_spec, not64_testbit by done.
  rewrite <- andb_assoc. f_equal. f_equal. destruct (Z.leb_spec 1 i).
  - rewrite testbit_high with (w := 1); [done|lia|lia].
  - by replace i with 0 by lia.
Qed.

Lemma unmark_message p : is_message p -> unmark p = p.
Proof.
  intros Hp. by_bits i Hi. rewrite unmark_testbit by done. destruct (Z.leb_spec 1 i).
  - destruct (Z.ltb_spec i 64); [by rewrite !andb_true_r|].
    rewrite (testbit_high 64) by (apply Hp || lia). done.
  - replace i with 0 by lia. by rewrite message_bit, andb_false_r.
Qed.

Lemma unmark_mark p : is_message p -> unmark (mark p) = p.
Proof.
  intros Hp. by_bits i Hi. rewrite unmark_testbit by done. unfold mark. rewrite Z.lor_spec.
  destruct (Z.leb_spec 1 i).
  - rewrite (testbit_high 1 1) by lia. rewrite orb_false_r, andb_true_r.
    destruct (Z.ltb_spec i 64); [by rewrite andb_true_r|].
    rewrite (testbit_high 64) by (apply Hp || lia). done.
  - replace i with 0 by lia. by rewrite message_bit, andb_false_r.
Qed.

(** The head is the last message, marked or not. *)
Definition head_of (asleep : bool) (p : Z) : Z := if asleep then mark p else p.

Lemma head_of_marked b p : is_message p -> is_marked (head_of b p) = b.
Proof. destruct b; [intros _; apply mark_marked|apply message_marked]. Qed.

Lemma head_of_unmark b p : is_message p -> unmark (head_of b p) = p.
Proof. destruct b; [apply unmark_mark|apply unmark_message]. Qed.

(** ** Chains *)

(** Every element is related to its successor. *)
Fixpoint linked (R : Z -> Z -> Prop) (l : list Z) : Prop :=
  match l with
  | a :: (b :: _) as l => R a b /\ linked R l
  | _ => True
  end.

Lemma linked_cons R a b l : linked R (a :: b :: l) <-> R a b /\ linked R (b :: l).
Proof. done. Qed.

Lemma linked_mono (R R' : Z -> Z -> Prop) l :
  (forall a b, a ∈ l -> b ∈ l -> R a b -> R' a b) -> linked R l -> linked R' l.
Proof.
  induction l as [|a [|b l] IH]; intros HR; [done..|]. intros [H1 H2]. split.
  - apply HR; [left|right; left|done].
  - apply IH; [|done]. intros x y Hx Hy. apply HR; by right.
Qed.

Lemma linked_app R l x y l' :
  linked R (l ++ [x]) -> R x y -> linked R (y :: l') -> linked R (l ++ x :: y :: l').
Proof.
  induction l as [|a [|b l] IH]; intros H1 Hxy H2; [done| |].
  - destruct H1 as [H1 _]. done.
  - cbn in *. destruct H1 as [H1 H1']. split; [done|]. by apply IH.
Qed.

Lemma linked_suffix R pre l : linked R (pre ++ l) -> linked R l.
Proof.
  induction pre as [|x [|y pre] IH]; [done| |].
  - cbn. destruct l; [done|]. by intros [_ ?].
  - intros [_ H]. by apply IH.
Qed.

Definition next_is (h : gmap Z Z) (a b : Z) : Prop := h !! a = Some b.

Lemma load_next_is m p n : next_is (next m) p n -> load_next m p = Ret n.
Proof. unfold load_next. by intros ->. Qed.

Lemma last_elem (l : list Z) p : last l = Some p -> p ∈ l.
Proof. intros H. apply last_Some in H as (l' & ->). apply elem_of_app. right. left. Qed.

Lemma hd_elem (l : list Z) p : hd_error l = Some p -> p ∈ l.
Proof. destruct l; [done|]. intros [= ->]. left. Qed.

(** *** Sending *)
Section send.
Context (ndebug : bool) (garbage : Z -> Z).
Implicit Types m : memory.

Lemma alloc_all m l :
  let m' := foldl (pony_alloc_msg ndebug garbage) m l in
  queue m' = queue m /\
  (forall p, p ∉ l -> next m' !! p = next m !! p) /\
  (forall p, p ∈ l -> next m' !! p = Some (if ndebug then garbage p else NULL)).
Proof.
  revert m. induction l as [|a l IH]; intros m; cbn.
  - split_and!; [done..|]. intros p Hp. by apply elem_of_nil in Hp.
  - destruct (IH (pony_alloc_msg ndebug garbage m a)) as (Hq & Hout & Hin). split_and!.
    + done.
    + intros p Hp. rewrite not_elem_of_cons in Hp. rewrite Hout by tauto. cbn. rewrite lookup_insert_ne; [done|]. intros ->. tauto.
    + intros p Hp. destruct (decide (p ∈ l)); [by apply Hin|].
      apply elem_of_cons in Hp as [->|]; [|done]. rewrite Hout by done. apply lookup_insert_eq.
Qed.

(** Linking new messages: the fields of the others, and of the last one, stay. *)
Lemma chain_all_spec m l :
  NoDup l -> l <> [] ->
  (forall p, p ∈ l -> exists n, next m !! p = Some n /\ (ndebug = false -> n = NULL)) ->
  exists m', chain_all ndebug m l = Ret m' /\ queue m' = queue m /\
    (forall p, p ∉ l \/ last l = Some p -> next m' !! p = next m !! p) /\
    (forall p, p ∈ l -> is_Some (next m' !! p)) /\ linked (next_is (next m')) l.
Proof.
  revert m. induction l as [|a [|b l] IH]; intros m Hnd Hne Hl; [done| |].
  - exists m. split_and!; [done..| |done]. intros p Hp. destruct (Hl p Hp) as (n & Hn & _). by exists n.
  - apply NoDup_cons in Hnd as [Ha Hnd]. destruct (Hl a) as (n & Hn & Hdebug); [left|].
    cbn [chain_all]. unfold pony_chain, load_next, store_next. rewrite Hn. cbn [mbind outcome_bind].
    replace (negb ndebug && negb (n =? NULL)) with false;
      [|by destruct ndebug; [|rewrite Hdebug by done]].
    cbn [mbind outcome_bind].
    set (m1 := mk_memory (queue m) (<[a := b]> (next m))).
    assert (forall p, p <> a -> next m1 !! p = next m !! p) as Hm1 by (intros; by apply lookup_insert_ne).
    destruct (IH m1 Hnd) as (m' & Hrun & Hq & Hout & Hin & Hlinked); [done| |].
    { intros p Hp. rewrite Hm1 by (intros ->; done). apply Hl. by right. }
    assert (next m' !! a = Some b) as Hab.
    { rewrite Hout by by left. apply lookup_insert_eq. }
    exists m'. split_and!; [done|done| | |].
    + intros p [Hp|Hp].
      * rewrite not_elem_of_cons in Hp. rewrite Hout by tauto. apply Hm1. tauto.
      * change (last (a :: b :: l)) with (last (b :: l)) in Hp. rewrite Hout by by right.
        apply Hm1. intros ->. by apply last_elem in Hp.
    + intros p [->|Hp]%elem_of_cons; [by exists b|by apply Hin].
    + by split.
Qed.

(** What the slow pointer meets in one round: a message before the fast one. *)
Lemma slow_step (h : gmap Z Z) (pre l : list Z) a b x :
  linked (next_is h) (pre ++ a :: b :: l) -> hd_error (pre ++ a :: b :: l) = Some x ->
  exists pre' y, tl (pre ++ a :: b :: l) = pre' ++ b :: l /\ hd_error (pre' ++ b :: l) = Some y /\
    h !! x = Some y.
Proof.
  destruct pre as [|z pre]; cbn [app hd_error tl]; intros Hl [= <-].
  - exists [], b. by destruct Hl.
  - exists (pre ++ [a]). rewrite <- app_assoc. cbn. destruct (pre ++ a :: b :: l) as [|y l'] eqn:E.
    + by destruct pre.
    + exists y. by destruct Hl.
Qed.

Lemma slow_behind (pre l : list Z) b c y :
  NoDup (pre ++ b :: c :: l) -> hd_error (pre ++ b :: c :: l) = Some y -> y <> c.
Proof.
  destruct pre as [|z pre]; cbn; intros [Hn _]%NoDup_cons [= ->] ->; apply Hn.
  - left.
  - apply elem_of_app. right. right. left.
Qed.

Lemma chain_loop_spec m lst fuel (pre l : list Z) (m1 m2 : Z) :
  linked (next_is (next m)) (pre ++ l) -> NoDup (pre ++ l) -> Forall is_message (pre ++ l) ->
  last l = Some lst -> next m !! lst = Some NULL -> (length l <= fuel)%nat ->
  hd_error (pre ++ l) = Some m1 -> hd_error l = Some m2 -> chain_loop fuel m m1 m2 lst = Ret true.
Proof.
  revert pre l m1 m2. induction fuel as [|fuel IH]; intros pre l m1 m2 Hlink Hnd Hmsg Hlast Hend Hf H1 H2.
  { destruct l; [done|cbn in Hf; lia]. }
  assert (forall p, p ∈ pre ++ l -> p <> NULL) as Hnull by (rewrite Forall_forall in Hmsg; intros p Hp; by apply Hmsg).
  cbn [chain_loop]. rewrite (proj2 (Z.eqb_neq m1 NULL)) by by apply Hnull, hd_elem.
  rewrite (proj2 (Z.eqb_neq m2 NULL)) by (apply Hnull, elem_of_app; right; by apply hd_elem). cbn [orb].
  destruct l as [|a [|b l]]; [done| |]; injection H2 as ->.
  { injection Hlast as ->. by rewrite Z.eqb_refl. }
  destruct (linked_suffix _ _ _ Hlink) as [Hab Hbl].
  destruct (Z.eqb_spec m2 lst) as [->|Hneq]; [done|].
  rewrite (load_next_is _ _ _ Hab). cbn [mbind outcome_bind].
  destruct (Z.eqb_spec b lst) as [->|Hneq']; [done|].
  rewrite (proj2 (Z.eqb_neq b NULL)) by (apply Hnull, elem_of_app; right; right; left).
  destruct l as [|c l]; [by injection Hlast|]. destruct Hbl as [Hbc _].
  destruct (slow_step _ _ _ _ _ _ Hlink H1) as (pre' & y & Htl & Hy & Hm1).
  rewrite (load_next_is _ _ _ Hm1), (load_next_is _ _ _ Hbc). cbn [mbind outcome_bind].
  assert (NoDup (pre' ++ b :: c :: l) /\ Forall is_message (pre' ++ b :: c :: l) /\
          linked (next_is (next m)) (pre' ++ b :: c :: l)) as (Hnd' & Hmsg' & Hlink').
  { rewrite <- Htl. clear -Hnd Hmsg Hlink. destruct (pre ++ m2 :: b :: c :: l) as [|u [|v w]]; [done|split_and!; constructor|].
    apply NoDup_cons in Hnd as [_ ?]. apply Forall_cons in Hmsg as [_ ?]. by destruct Hlink. }
  rewrite (proj2 (Z.eqb_neq y c)) by (eapply slow_behind; [exact Hnd'|exact Hy]).
  apply (IH (pre' ++ [b]) (c :: l)); rewrite <- ?app_assoc; try done. cbn in Hf |- *. lia.
Qed.

Lemma start_send_spec m l :
  l <> [] -> NoDup l -> Forall is_message l ->
  exists m' first lst, start_send ndebug garbage m l = Ret (m', Push_clear first lst) /\
    queue m' = queue m /\ hd_error l = Some first /\ last l = Some lst /\
    (forall p, p ∉ l -> next m' !! p = next m !! p) /\
    (forall p, p ∈ l -> is_Some (next m' !! p)) /\ linked (next_is (next m')) l.
Proof.
  intros Hne Hnd Hmsg. unfold start_send. destruct (alloc_all m l) as (Hq & Hout & Hin).
  set (m1 := foldl _ m l) in *.
  destruct (chain_all_spec m1 l Hnd Hne) as (m' & -> & Hq' & Hsame & Hsome & Hlink).
  { intros p Hp. rewrite Hin by done. eexists. split; [done|]. by intros ->. }
  assert (exists first, hd_error l = Some first) as [first Hfirst] by (destruct l as [|z ?]; [done|by exists z]).
  assert (exists lst, last l = Some lst) as [lst Hlast].
  { destruct (last l) as [z|] eqn:E; [by exists z|]. by apply last_None in E. }
  exists m', first, lst. cbn [mbind outcome_bind]. rewrite Hfirst, Hlast. cbn [from_option id].
  split_and!; [|congruence|done|done| |done|done].
  2: { intros p Hp. rewrite Hsame by by left. by apply Hout. }
  destruct ndebug eqn:Hdebug; [done|].
  enough (well_formed_msg_chain m' first lst = Ret true) as -> by done.
  pose proof (proj1 (Forall_forall _ _) Hmsg) as Hmsg'.
  assert (next m' !! lst = Some NULL) as Hend.
  { rewrite Hsame by by right. rewrite Hin by by apply last_elem. done. }
  unfold well_formed_msg_chain. rewrite (proj2 (Z.eqb_neq first NULL)) by by apply Hmsg', hd_elem.
  rewrite (proj2 (Z.eqb_neq lst NULL)) by by apply Hmsg', last_elem. cbn [orb].
  rewrite (load_next_is _ _ _ Hend). cbn [mbind outcome_bind]. rewrite Z.eqb_refl. cbn [negb].
  apply (chain_loop_spec m' lst _ [] l); try done. apply le_S.
  rewrite <- size_dom. rewrite <- (size_list_to_set (C := gset Z)) by done. apply subseteq_size.
  intros p Hp. apply elem_of_list_to_set in Hp. apply elem_of_dom. by apply Hsome.
Qed.
End send.

(** ** The invariant

    The messages of the queue, from the consumed one, are linked except where a push has not
    linked its chain yet; the messages of a push that has not taken effect are its own. *)
Section invariant.
Implicit Types (s : system) (a : spec_state).
#[local] Arguments linked : simpl never.
#[local] Arguments last : simpl never.

Definition nodes s a : list Z := tail (queue (mem s)) :: waiting a.

Definition pending s (p first : Z) : Prop :=
  exists t l w, producers s !! t = Some (l, Push_link p first w).

Definition joined s (p q : Z) : Prop :=
  next (mem s) !! p = Some q \/ (next (mem s) !! p = Some NULL /\ pending s p q).

(** The messages that a push owns: those of its chain, until it takes effect. *)
Definition owned (pc : push_pc) (l : list Z) : list Z :=
  match pc with Push_clear _ _ | Push_exchange _ _ => l | _ => [] end.

Record chain_ok s (l : list Z) (first lst : Z) : Prop := {
  chain_nodup : NoDup l;
  chain_messages : Forall is_message l;
  chain_alloc : Forall (fun p => is_Some (next (mem s) !! p)) l;
  chain_linked : linked (next_is (next (mem s))) l;
  chain_first : hd_error l = Some first;
  chain_last : last l = Some lst
}.

Definition producer_ok s a (l : list Z) (pc : push_pc) : Prop :=
  match pc with
  | Push_clear first lst => chain_ok s l first lst
  | Push_exchange first lst => chain_ok s l first lst /\ next (mem s) !! lst = Some NULL
  | Push_link p first _ => p ∈ nodes s a /\ next (mem s) !! p = Some NULL /\ last (nodes s a) <> Some p
  | Push_done _ => True
  end.

Definition consumer_ok s a (pc : consumer_pc) : Prop :=
  match pc with
  | Idle => True
  | Pop_load p | Mark_load p | Empty_load p => p = tail (queue (mem s))
  | Pop_advance p n => p = tail (queue (mem s)) /\ next (mem s) !! p = Some n /\ n <> NULL
  | Mark_exchange p h => p = tail (queue (mem s)) /\ h = mark p /\ asleep a = false
  end.

Record inv s a : Prop := {
  inv_nodup : NoDup (nodes s a);
  inv_messages : Forall is_message (nodes s a);
  inv_alloc : Forall (fun p => is_Some (next (mem s) !! p)) (nodes s a);
  inv_head : exists p, last (nodes s a) = Some p /\ head (queue (mem s)) = head_of (asleep a) p /\
               next (mem s) !! p = Some NULL;
  inv_asleep : asleep a = true -> waiting a = [];
  inv_joined : linked (joined s) (nodes s a);
  inv_producers t l pc : producers s !! t = Some (l, pc) ->
    producer_ok s a l pc /\ (forall p, p ∈ owned pc l -> p ∉ nodes s a);
  inv_disjoint t t' l l' pc pc' : producers s !! t = Some (l, pc) -> producers s !! t' = Some (l', pc') ->
    t <> t' -> forall p, p ∈ owned pc l -> p ∉ owned pc' l';
  inv_pending t t' l l' p first first' w w' : producers s !! t = Some (l, Push_link p first w) ->
    producers s !! t' = Some (l', Push_link p first' w') -> t = t';
  inv_in_flight t x : in_flight a !! t = Some x <->
    exists l p w, producers s !! t = Some (l, Push_link p x w);
  inv_consumer : consumer_ok s a (consumer s)
}.

Lemma chain_ok_frame s s' l first lst :
  (forall p, p ∈ l -> next (mem s') !! p = next (mem s) !! p) ->
  chain_ok s l first lst -> chain_ok s' l first lst.
Proof.
  intros Hn [Hnd Hm Hall Hl Hf Hlast]. split; [done|done| | |done|done].
  - rewrite Forall_forall in *. intros p Hp. rewrite Hn by done. auto.
  - eapply linked_mono; [|done]. intros p q Hp _. unfold next_is. by rewrite Hn.
Qed.

(** The state of a push depends on the fields of its own messages only. *)
Lemma producer_ok_frame s s' a l pc :
  (forall p, p ∈ owned pc l -> next (mem s') !! p = next (mem s) !! p) ->
  (forall p f w, pc = Push_link p f w -> next (mem s') !! p = next (mem s) !! p) ->
  tail (queue (mem s')) = tail (queue (mem s)) ->
  producer_ok s a l pc -> producer_ok s' a l pc.
Proof.
  intros Hown Hlink Htl. destruct pc as [first lst|first lst|p first w|w]; cbn in *.
  - by apply chain_ok_frame.
  - intros [Hc Hn]. split; [by eapply chain_ok_frame|]. rewrite Hown; [done|]. by eapply last_elem, chain_last.
  - unfold nodes. rewrite Htl, (Hlink p first w) by done. done.
  - done.
Qed.

Lemma linked_last (R R' : Z -> Z -> Prop) l z :
  NoDup l -> last l = Some z -> (forall p q, p <> z -> R p q -> R' p q) -> linked R l -> linked R' l.
Proof.
  intros Hnd Hlast HR. induction l as [|p [|q l] IH]; [done..|]. intros [H1 H2].
  apply NoDup_cons in Hnd as [Hp Hnd]. split; [|by apply IH]. apply HR; [|done].
  intros ->. apply Hp. by apply last_elem.
Qed.

Lemma inv_last_node s a p : inv s a -> last (nodes s a) = Some p -> is_message p /\ p ∈ nodes s a.
Proof.
  intros Hinv Hp. pose proof (last_elem _ _ Hp) as Hin. split; [|done].
  by apply (proj1 (Forall_forall _ _) (inv_messages _ _ Hinv)).
Qed.

(** The queue is empty exactly when the last message is the consumed one. *)
Lemma inv_empty s a p :
  inv s a -> last (nodes s a) = Some p -> (p = tail (queue (mem s)) <-> waiting a = []).
Proof.
  intros Hinv Hp. pose proof (inv_nodup _ _ Hinv) as Hnd. unfold nodes in *. split.
  - intros ->. apply NoDup_cons in Hnd as [Hn _]. destruct (waiting a) as [|x l]; [done|].
    destruct Hn. apply last_elem. done.
  - intros E. rewrite E in Hp. by injection Hp.
Qed.

Lemma inv_set_consumer s a pc :
  inv s a -> consumer_ok s a pc -> inv (mk_system (mem s) (producers s) pc) a.
Proof.
  intros [Hnd Hm Hal Hh Has Hj Hpr Hdis Hpend Hfl _] Hpc. split; try done.
  intros t l pc' Hp. destruct (Hpr t l pc' Hp) as [Hok Hsep]. split; [|done].
  by apply (producer_ok_frame s).
Qed.

(** What the consumer knows is kept by pushes: they do not touch the tail nor a linked message. *)
Lemma consumer_ok_frame s a m' ps' asleep' ql fl :
  consumer_ok s a (consumer s) -> tail (queue m') = tail (queue (mem s)) ->
  (forall p n, next (mem s) !! p = Some n -> n <> NULL -> p = tail (queue (mem s)) -> next m' !! p = Some n) ->
  (asleep' = true -> asleep a = true) ->
  consumer_ok (mk_system m' ps' (consumer s)) (mk_spec ql asleep' fl) (consumer s).
Proof.
  intros Hc Htl Hn Has. destruct (consumer s); cbn in *; rewrite ?Htl; try done.
  - destruct Hc as (? & ? & ?). split_and!; [done| |done]. by apply Hn.
  - destruct Hc as (? & ? & ?). split_and!; [done|done|]. destruct asleep'; [|done]. by rewrite Has in *.
Qed.

(** ** Simulation *)

(** A send allocates messages that the system does not know. *)
Lemma sim_send s a ndebug garbage t l :
  inv s a -> can_send s t l ->
  exists m pc, start_send ndebug garbage (mem s) l = Ret (m, pc) /\
    inv (mk_system m (<[t := (l, pc)]> (producers s)) (consumer s)) a.
Proof.
  intros Hinv (Ht & Hne & Hnd & Hmsg & Hfree).
  destruct (start_send_spec ndebug garbage (mem s) l Hne Hnd Hmsg)
    as (m & first & lst & Hrun & Hq & Hfirst & Hlast & Hout & Hin & Hlink).
  exists m, (Push_clear first lst). split; [done|].
  assert (forall p, is_Some (next (mem s) !! p) -> p ∉ l) as Hold.
  { intros p [n Hn] Hp. rewrite Forall_forall in Hfree. by rewrite Hfree in Hn. }
  assert (forall p, p ∈ nodes s a -> p ∉ l) as Hnodes.
  { intros p Hp. apply Hold. by apply (proj1 (Forall_forall _ _) (inv_alloc _ _ Hinv)). }
  assert (forall t' l' pc' p, producers s !! t' = Some (l', pc') -> p ∈ owned pc' l' -> p ∉ l) as Howned.
  { intros t' l' pc' p Hp Hin'. apply Hold. destruct (inv_producers _ _ Hinv _ _ _ Hp) as [Hok _].
    destruct pc'; cbn in *; try by apply elem_of_nil in Hin'.
    - by apply (proj1 (Forall_forall _ _) (chain_alloc _ _ _ _ Hok)).
    - by apply (proj1 (Forall_forall _ _) (chain_alloc _ _ _ _ (proj1 Hok))). }
  pose proof Hinv as [Hnd0 Hm0 Hal0 (p0 & Hp0 & Hhd0 & Hn0) Has0 Hj0 Hpr0 Hdis0 Hpend0 Hfl0 Hc0].
  unfold nodes in *. rewrite <- Hq in *. split; cbn; unfold nodes; cbn.
  - done.
  - done.
  - rewrite Forall_forall in *. intros p Hp. rewrite Hout by auto. auto.
  - exists p0. split_and!; [done|done|]. rewrite Hout; [done|]. apply Hnodes. by apply last_elem.
  - done.
  - eapply linked_mono; [|exact Hj0]. intros p q Hp _. unfold joined. cbn. rewrite Hout by auto.
    intros [|[? (t' & l' & w & E)]]; [by left|right]. split; [done|]. exists t', l', w. cbn.
    rewrite lookup_insert_ne; [done|]. intros ->. by rewrite Ht in E.
  - intros t' l' pc' [[-> [= <- <-]]|[Hne' Hp]]%lookup_insert_Some.
    + split; [|intros p Hp Hp'; by apply (Hnodes p)]. cbn. split; [done|done| |done|done|done].
      rewrite Forall_forall. apply Hin.
    + destruct (Hpr0 _ _ _ Hp) as [Hok Hsep]. split; [|done].
      apply (producer_ok_frame s); cbn; [| |by rewrite Hq|done].
      * intros p Hin'. apply Hout. by eapply Howned.
      * intros p f w ->. apply Hout. apply Hnodes. rewrite Hq. apply Hok.
  - intros t1 t2 l1 l2 pc1 pc2 [[-> [= <- <-]]|[? H1]]%lookup_insert_Some
      [[-> [= <- <-]]|[? H2]]%lookup_insert_Some Hneq p Hp Hp'; cbn in *; try done.
    + by eapply Howned.
    + by eapply Howned.
    + exact (Hdis0 _ _ _ _ _ _ H1 H2 Hneq p Hp Hp').
  - intros t1 t2 l1 l2 p f1 f2 w1 w2 [[_ [=]]|[? H1]]%lookup_insert_Some
      [[_ [=]]|[? H2]]%lookup_insert_Some. by eapply Hpend0.
  - intros t' x. rewrite Hfl0. split; intros (l' & p & w & E); exists l', p, w; cbn in *.
    + rewrite lookup_insert_ne; [done|]. intros ->. by rewrite Ht in E.
    + by apply lookup_insert_Some in E as [[_ [=]]|[_ E]].
  - destruct a as [q b fl]. apply (consumer_ok_frame s (mk_spec q b fl)); [done|by rewrite Hq| |done].
    intros p n Hp _ ->. rewrite Hout; [done|]. apply Hnodes. rewrite Hq. left.
Qed.

(** The chains stay disjoint when a push keeps or gives up its messages. *)
Lemma disjoint_update s a t l pc pc' :
  inv s a -> producers s !! t = Some (l, pc) -> (forall p, p ∈ owned pc' l -> p ∈ owned pc l) ->
  forall t1 t2 l1 l2 pc1 pc2, <[t := (l, pc')]> (producers s) !! t1 = Some (l1, pc1) ->
    <[t := (l, pc')]> (producers s) !! t2 = Some (l2, pc2) ->
    t1 <> t2 -> forall p, p ∈ owned pc1 l1 -> p ∉ owned pc2 l2.
Proof.
  intros Hinv Ht Hsub t1 t2 l1 l2 pc1 pc2 H1 H2 Hne p Hp Hp'. pose proof (inv_disjoint _ _ Hinv) as Hdis.
  apply lookup_insert_Some in H1 as [[-> [= <- <-]]|[Hne1 H1]], H2 as [[-> [= <- <-]]|[Hne2 H2]]; [done| | |].
  - exact (Hdis _ _ _ _ _ _ Ht H2 Hne p (Hsub _ Hp) Hp').
  - exact (Hdis _ _ _ _ _ _ H1 Ht Hne p Hp (Hsub _ Hp')).
  - exact (Hdis _ _ _ _ _ _ H1 H2 Hne p Hp Hp').
Qed.

Lemma sim_clear s a t l first lst :
  inv s a -> producers s !! t = Some (l, Push_clear first lst) ->
  exists m, push_step (mem s) (Push_clear first lst) = Ret (m, Push_exchange first lst) /\
    inv (mk_system m (<[t := (l, Push_exchange first lst)]> (producers s)) (consumer s)) a.
Proof.
  intros Hinv Ht. pose proof (inv_producers _ _ Hinv _ _ _ Ht) as [Hok Hsep]. cbn in Hsep.
  assert (lst ∈ l) as Hlst by by eapply last_elem, chain_last.
  destruct (proj1 (Forall_forall _ _) (chain_alloc _ _ _ _ Hok) lst Hlst) as [n Hn].
  cbn. unfold store_next. rewrite Hn. cbn. eexists. split; [done|].
  pose proof (disjoint_update s a t l _ (Push_exchange first lst) Hinv Ht (fun p H => H)) as Hdis'.
  pose proof Hinv as [Hnd0 Hm0 Hal0 (p0 & Hp0 & Hhd0 & Hn0) Has0 Hj0 Hpr0 Hdis0 Hpend0 Hfl0 Hc0].
  assert (forall p, p <> lst -> <[lst := NULL]> (next (mem s)) !! p = next (mem s) !! p) as Hout
    by (intros; by apply lookup_insert_ne).
  assert (forall p, p ∈ nodes s a -> p <> lst) as Hnodes by (intros p Hp ->; by apply (Hsep lst)).
  split; cbn; unfold nodes; cbn; [done|done| | |done| | |done| | |].
  - rewrite Forall_forall in *. intros p Hp. rewrite Hout by by apply Hnodes. by apply Hal0.
  - exists p0. split_and!; [done|done|]. rewrite Hout; [done|]. by apply Hnodes, last_elem.
  - eapply linked_mono; [|exact Hj0]. intros p q Hp _. unfold joined. cbn. rewrite Hout by by apply Hnodes.
    intros [|[? (t' & l' & w & E)]]; [by left|right]. split; [done|]. exists t', l', w. cbn.
    rewrite lookup_insert_ne; [done|]. intros ->. by rewrite Ht in E.
  - intros t' l' pc' [[-> [= <- <-]]|[Hne Hp]]%lookup_insert_Some.
    + split; [|done]. cbn. split; [|by apply lookup_insert_eq]. destruct Hok as [H1 H2 H3 H4 H5 H6].
      split; cbn; [done|done| | |done|done].
      * rewrite Forall_forall in *. intros p Hp. destruct (decide (p = lst)) as [->|]; [by rewrite lookup_insert_eq|].
        rewrite Hout by done. by apply H3.
      * eapply linked_last; [done|done| |exact H4]. intros p q Hp. unfold next_is. by rewrite Hout.
    + destruct (Hpr0 _ _ _ Hp) as [Hok' Hsep']. split; [|done].
      apply (producer_ok_frame s); cbn; [| |done|done].
      * intros p Hin. apply Hout. intros ->. exact (Hdis0 _ _ _ _ _ _ Ht Hp Hne lst Hlst Hin).
      * intros p f w ->. apply Hout, Hnodes, Hok'.
  - intros t1 t2 l1 l2 p f1 f2 w1 w2 [[_ [=]]|[? H1]]%lookup_insert_Some
      [[_ [=]]|[? H2]]%lookup_insert_Some. by eapply Hpend0.
  - intros t' x. rewrite Hfl0. split; intros (l' & p & w & E); exists l', p, w; cbn in *.
    + rewrite lookup_insert_ne; [done|]. intros ->. by rewrite Ht in E.
    + by apply lookup_insert_Some in E as [[_ [=]]|[_ E]].
  - destruct a as [q b fl]. apply (consumer_ok_frame s (mk_spec q b fl)); [done|done| |done].
    intros p n' Hp _ ->. rewrite Hout; [done|]. apply Hnodes. left.
Qed.

(** The exchange appends the chain to the queue. *)
Lemma sim_exchange s a t l first lst :
  inv s a -> producers s !! t = Some (l, Push_exchange first lst) ->
  exists m p a', push_step (mem s) (Push_exchange first lst) = Ret (m, Push_link p first (asleep a)) /\
    replay_event a (Pushed t l (asleep a)) = Some a' /\
    inv (mk_system m (<[t := (l, Push_link p first (asleep a))]> (producers s)) (consumer s)) a'.
Proof.
  intros Hinv Ht. pose proof (inv_producers _ _ Hinv _ _ _ Ht) as [[Hok Hend] Hsep]. cbn in Hsep.
  pose proof Hinv as [Hnd0 Hm0 Hal0 (p0 & Hp0 & Hhd0 & Hn0) Has0 Hj0 Hpr0 Hdis0 Hpend0 Hfl0 Hc0].
  destruct (inv_last_node _ _ _ Hinv Hp0) as [Hmsg0 Hin0]. destruct Hok as [H1 H2 H3 H4 H5 H6].
  cbn. rewrite Hhd0, head_of_marked, head_of_unmark by done. rewrite decide_True by done.
  eexists _, p0, _. split; [done|]. split; [done|]. rewrite H5. cbn.
  pose proof (last_elem _ _ H6) as Hlst.
  split; cbn; unfold nodes; cbn.
  - apply (NoDup_app (tail (queue (mem s)) :: waiting a) l). split_and!; [done| |done].
    intros p Hp Hp'. by apply (Hsep p).
  - by apply (Forall_app_2 _ (tail (queue (mem s)) :: waiting a)).
  - by apply (Forall_app_2 _ (tail (queue (mem s)) :: waiting a)).
  - exists lst. split_and!; [|done|done]. rewrite app_comm_cons, last_app, H6. done.
  - done.
  - pose proof (last_Some (nodes s a) p0) as [(l0 & E) _]; [done|]. unfold nodes in E.
    rewrite app_comm_cons, E, <- app_assoc. destruct l as [|x l]; [done|]. injection H5 as ->.
    assert (forall p q, next (mem s) !! p = Some q -> joined (mk_system (mk_memory (mk_messageq lst (tail (queue (mem s)))) (next (mem s)))
       (<[t := (first :: l, Push_link p0 first (asleep a))]> (producers s)) (consumer s)) p q) as Hkeep by (by left).
    apply linked_app.
    + unfold nodes in Hj0. rewrite <- E. eapply linked_mono; [|exact Hj0]. intros p q _ _. intros [|[? (t' & l' & w & Ep)]]; [by left|right].
      split; [done|]. exists t', l', w. cbn. rewrite lookup_insert_ne; [done|]. intros ->. by rewrite Ht in Ep.
    + right. split; [done|]. exists t, (first :: l), (asleep a). cbn. by rewrite lookup_insert_eq.
    + eapply linked_mono; [|exact H4]. intros p q _ _. apply Hkeep.
  - intros t' l' pc' [[-> [= <- <-]]|[Hne Hp]]%lookup_insert_Some.
    + split; [|by intros p ?%elem_of_nil]. cbn. unfold nodes. cbn. split_and!; [|done|].
      * rewrite app_comm_cons. apply elem_of_app. by left.
      * rewrite app_comm_cons, last_app, H6. intros [= ->]. by apply (Hsep p0).
    + destruct (Hpr0 _ _ _ Hp) as [Hok' Hsep']. split.
      * destruct pc' as [f' z'|f' z'|p f' w|w]; cbn in *; [by apply (chain_ok_frame s)| | |done].
        { destruct Hok' as [Hok' ?]. split; [by apply (chain_ok_frame s)|done]. }
        destruct Hok' as (? & ? & ?). unfold nodes. cbn. rewrite app_comm_cons. split_and!; [apply elem_of_app; by left|done|].
        rewrite last_app, H6. intros [= ->]. by apply (Hsep p).
      * intros p Hin. rewrite app_comm_cons, elem_of_app. intros [Hin'|Hin']; [by apply (Hsep' p)|].
        exact (Hdis0 _ _ _ _ _ _ Ht Hp Hne p Hin' Hin).
  - apply (disjoint_update s a t l _ (Push_link p0 first (asleep a)) Hinv Ht). by intros p ?%elem_of_nil.
  - assert (forall t' l' f w, producers s !! t' = Some (l', Push_link p0 f w) -> False) as Hno.
    { intros t' l' f w E. destruct (Hpr0 _ _ _ E) as [(_ & _ & Hl) _]. by apply Hl. }
    intros t1 t2 l1 l2 p f1 f2 w1 w2 [[-> [= <- <- <- <-]]|[? E1]]%lookup_insert_Some
      [[-> [= <- <-]]|[? E2]]%lookup_insert_Some; subst; try done; try by (exfalso; eapply Hno). by eapply Hpend0.
  - intros t' x. destruct (decide (t = t')) as [->|Hne].
    + rewrite !lookup_insert_eq. split; [intros [= <-]; eauto|by intros (l' & p & w & [= _ _ <- _])].
    + rewrite !lookup_insert_ne by done. apply Hfl0.
  - apply (consumer_ok_frame s a); [done|done|done|done].
Qed.

(** A message whose push has not linked it follows the one the push found at the head. *)
Lemma joined_pending s a t l p first w q :
  inv s a -> producers s !! t = Some (l, Push_link p first w) -> q <> NULL -> joined s p q -> q = first.
Proof.
  intros Hinv Ht Hq Hj. pose proof (inv_producers _ _ Hinv _ _ _ Ht) as [(_ & Hn & _) _].
  destruct Hj as [Hj|[_ (t' & l' & w' & Ht')]]; [congruence|].
  pose proof (inv_pending _ _ Hinv _ _ _ _ _ _ _ _ _ Ht Ht') as <-. congruence.
Qed.

(** Linking closes the gap. *)
Lemma sim_link s a t l p first w :
  inv s a -> producers s !! t = Some (l, Push_link p first w) ->
  exists m a', push_step (mem s) (Push_link p first w) = Ret (m, Push_done w) /\
    replay_event a (Returned t) = Some a' /\
    inv (mk_system m (<[t := (l, Push_done w)]> (producers s)) (consumer s)) a'.
Proof.
  intros Hinv Ht. pose proof (inv_producers _ _ Hinv _ _ _ Ht) as [(Hin & Hn & Hlast) _].
  cbn. unfold store_next. rewrite Hn. cbn. eexists _, _. split; [done|]. split; [done|].
  pose proof (fun q => joined_pending s a t l p first w q Hinv Ht) as Hgap.
  pose proof (disjoint_update s a t l _ (Push_done w) Hinv Ht (fun p H => H)) as Hdis'.
  pose proof Hinv as [Hnd0 Hm0 Hal0 (p0 & Hp0 & Hhd0 & Hn0) Has0 Hj0 Hpr0 Hdis0 Hpend0 Hfl0 Hc0].
  assert (forall q, q <> p -> <[p := first]> (next (mem s)) !! q = next (mem s) !! q) as Hout
    by (intros; by apply lookup_insert_ne).
  split; cbn; unfold nodes; cbn; [done|done| | |done| | |done| | |].
  - rewrite Forall_forall in *. intros q Hq. destruct (decide (q = p)) as [->|]; [by rewrite lookup_insert_eq|].
    rewrite Hout by done. by apply Hal0.
  - exists p0. split_and!; [done|done|]. rewrite Hout; [done|]. by intros ->.
  - eapply linked_mono; [|exact Hj0]. intros q r _ Hr Hqr. unfold joined. cbn.
    destruct (decide (q = p)) as [->|Hne].
    + left. rewrite lookup_insert_eq. f_equal. symmetry. apply Hgap; [|done].
      by apply (proj1 (Forall_forall _ _) Hm0).
    + rewrite Hout by done. destruct Hqr as [|[? (t' & l' & w' & E)]]; [by left|right]. split; [done|].
      exists t', l', w'. cbn. rewrite lookup_insert_ne; [done|]. intros <-. rewrite Ht in E. congruence.
  - intros t' l' pc' [[-> [= <- <-]]|[Hne Hp]]%lookup_insert_Some; [split; [done|by intros q ?%elem_of_nil]|].
    destruct (Hpr0 _ _ _ Hp) as [Hok Hsep]. split; [|done].
    apply (producer_ok_frame s); cbn; [| |done|done].
    + intros q Hq. apply Hout. intros ->. by apply (Hsep p).
    + intros q f w' ->. apply Hout. intros ->. by pose proof (Hpend0 _ _ _ _ _ _ _ _ _ Ht Hp).
  - intros t1 t2 l1 l2 q f1 f2 w1 w2 [[_ [=]]|[? E1]]%lookup_insert_Some
      [[_ [=]]|[? E2]]%lookup_insert_Some. by eapply Hpend0.
  - intros t' x. destruct (decide (t = t')) as [->|Hne].
    + rewrite lookup_delete_eq, lookup_insert_eq. split; [done|by intros (l' & q & w' & [=])].
    + rewrite lookup_delete_ne, lookup_insert_ne by done. apply Hfl0.
  - apply (consumer_ok_frame s a); [done|done| |done]. intros q n Hq Hnull _.
    rewrite Hout; [done|]. intros ->. congruence.
Qed.

Lemma sim_return s a t l w :
  inv s a -> producers s !! t = Some (l, Push_done w) ->
  inv (mk_system (mem s) (delete t (producers s)) (consumer s)) a.
Proof.
  intros Hinv Ht. pose proof Hinv as [Hnd0 Hm0 Hal0 Hh0 Has0 Hj0 Hpr0 Hdis0 Hpend0 Hfl0 Hc0].
  split; cbn; unfold nodes; cbn; [done|done|done|done|done| | | | | |].
  - eapply linked_mono; [|exact Hj0]. intros q r _ _. intros [|[? (t' & l' & w' & E)]]; [by left|right].
    split; [done|]. exists t', l', w'. cbn. rewrite lookup_delete_ne; [done|]. intros <-. congruence.
  - intros t' l' pc' [Hne Hp]%lookup_delete_Some. destruct (Hpr0 _ _ _ Hp) as [Hok Hsep]. split; [|done].
    by apply (producer_ok_frame s).
  - intros t1 t2 l1 l2 pc1 pc2 [_ H1]%lookup_delete_Some [_ H2]%lookup_delete_Some. by eapply Hdis0.
  - intros t1 t2 l1 l2 q f1 f2 w1 w2 [_ H1]%lookup_delete_Some [_ H2]%lookup_delete_Some. by eapply Hpend0.
  - intros t' x. rewrite Hfl0. split; intros (l' & q & w' & E); exists l', q, w'.
    + rewrite lookup_delete_ne; [done|]. intros <-. congruence.
    + by apply lookup_delete_Some in E as [_ E].
  - destruct a as [q b fl]. by apply (consumer_ok_frame s (mk_spec q b fl)).
Qed.

(** The first waiting message is linked, or its push has not returned. *)
Lemma inv_front s a x l n :
  inv s a -> waiting a = x :: l -> next (mem s) !! tail (queue (mem s)) = Some n ->
  (n = x /\ n <> NULL) \/ (n = NULL /\ exists t, in_flight a !! t = Some x).
Proof.
  intros Hinv Hw Hn. pose proof (inv_joined _ _ Hinv) as Hj. pose proof (inv_messages _ _ Hinv) as Hm.
  unfold nodes in *. rewrite Hw in *. destruct Hj as [[Hj|[Hj (t & l' & w & Ht)]] _].
  - left. rewrite Hj in Hn. injection Hn as <-. split; [done|].
    apply Forall_cons in Hm as [_ Hm]. by apply Forall_cons in Hm as [(_ & ? & _) _].
  - right. rewrite Hj in Hn. injection Hn as <-. split; [done|]. exists t.
    apply (inv_in_flight _ _ Hinv). eauto.
Qed.

Lemma inv_tail s a : inv s a -> exists n, next (mem s) !! tail (queue (mem s)) = Some n /\
  (waiting a = [] -> n = NULL).
Proof.
  intros [_ _ Hal (p & Hp & _ & Hn) _ _ _ _ _ _ _]. unfold nodes in *. destruct (waiting a) as [|x l].
  - injection Hp as <-. by exists NULL.
  - apply Forall_cons in Hal as [[n Hn'] _]. by exists n.
Qed.

Lemma sim_pop_load s a :
  inv s a -> consumer s = Pop_load (tail (queue (mem s))) ->
  exists m pc evs a', consume_step (mem s) (consumer s) = Ret (m, pc, evs) /\
    replay a evs = Some a' /\ inv (mk_system m (producers s) pc) a'.
Proof.
  intros Hinv Hc. rewrite Hc. cbn. destruct (inv_tail _ _ Hinv) as (n & Hn & Hempty).
  rewrite (load_next_is _ _ _ Hn). cbn. destruct (Z.eqb_spec n NULL) as [->|Hne]; cbn [negb].
  2: { eexists _, _, _, _. split; [done|]. split; [done|]. by apply inv_set_consumer. }
  eexists _, _, _, a. split; [done|]. split; [|by apply inv_set_consumer].
  cbn [replay replay_event]. destruct (waiting a) as [|x l] eqn:Hw; [by destruct a|].
  destruct (inv_front _ _ _ _ _ Hinv Hw Hn) as [[<- ?]|[_ (t & Ht)]]; [done|].
  by rewrite bool_decide_eq_true_2; [|apply Exists_exists; exists (t, x); split; [apply elem_of_map_to_list|]].
Qed.

Lemma sim_pop_advance s a n :
  inv s a -> consumer s = Pop_advance (tail (queue (mem s))) n ->
  exists m pc evs a', consume_step (mem s) (consumer s) = Ret (m, pc, evs) /\
    replay a evs = Some a' /\ inv (mk_system m (producers s) pc) a'.
Proof.
  intros Hinv Hc. pose proof (inv_consumer _ _ Hinv) as Hok. rewrite Hc in Hok |- *. destruct Hok as (_ & Hn & Hnull).
  cbn. unfold pool_free, set_tail. cbn. rewrite Hn. cbn.
  destruct (inv_tail _ _ Hinv) as (n' & Hn' & Hempty). assert (n' = n) as -> by congruence.
  destruct (waiting a) as [|x l] eqn:Hw; [by rewrite Hempty in Hnull|].
  destruct (inv_front _ _ _ _ _ Hinv Hw Hn) as [[<- _]|[? _]]; [|done].
  eexists _, _, _, _. split; [done|]. split.
  { cbn [replay replay_event]. by rewrite Hw, (proj2 (Z.eqb_neq n NULL)), Z.eqb_refl by done. }
  pose proof Hinv as [Hnd0 Hm0 Hal0 (p0 & Hp0 & Hhd0 & Hn0) Has0 Hj0 Hpr0 Hdis0 Hpend0 Hfl0 Hc0].
  unfold nodes in *. rewrite Hw in *. set (tl := tail (queue (mem s))) in *.
  apply NoDup_cons in Hnd0 as [Htl Hnd0]. apply Forall_cons in Hm0 as [_ Hm0]. apply Forall_cons in Hal0 as [_ Hal0].
  assert (forall q, q <> tl -> delete tl (next (mem s)) !! q = next (mem s) !! q) as Hout
    by (intros; by apply lookup_delete_ne).
  assert (forall q, q ∈ n :: l -> q <> tl) as Hnodes by (by intros q Hq ->).
  split; cbn; unfold nodes; cbn; [done|done| | | | | |done|done|done|done].
  - rewrite Forall_forall in *. intros q Hq. rewrite Hout by auto. auto.
  - exists p0. split_and!; [done|done|]. rewrite Hout; [done|]. apply Hnodes. by apply last_elem.
  - intros Has. by specialize (Has0 Has).
  - destruct Hj0 as [_ Hj0]. eapply linked_mono; [|exact Hj0]. intros q r Hq _. unfold joined, pending. cbn.
    by rewrite Hout by auto.
  - intros t l' pc Hp. destruct (Hpr0 _ _ _ Hp) as [Hok Hsep]. split; [|intros q Hq Hq'; apply (Hsep q Hq); by right].
    assert (forall q, q ∈ owned pc l' -> q <> tl) as Hown by (intros q Hq ->; apply (Hsep _ Hq); left).
    destruct pc as [f z|f z|q f w|w]; cbn in *; [|destruct Hok as [Hok Hz]| |done].
    + by apply (chain_ok_frame s); [intros q Hq; apply Hout, Hown|].
    + split; [by apply (chain_ok_frame s); [intros q Hq; apply Hout, Hown|]|].
      rewrite Hout; [done|]. apply Hown. eapply last_elem, chain_last, Hok.
    + unfold nodes in *. cbn. rewrite Hw in Hok. destruct Hok as (Hq & Hqn & Hl). assert (q <> tl) as Hqt by congruence.
      split_and!; [|by rewrite Hout|done]. by apply elem_of_cons in Hq as [|Hq].
Qed.

(** The head, when it is not marked, is the tail exactly if no message waits. *)
Lemma inv_head_tail s a :
  inv s a -> asleep a = false -> bool_decide (waiting a = []) = (head (queue (mem s)) =? tail (queue (mem s))).
Proof.
  intros Hinv Has. destruct (inv_head _ _ Hinv) as (p & Hp & Hh & _). rewrite Has in Hh. cbn in Hh.
  rewrite Hh. pose proof (inv_empty _ _ _ Hinv Hp) as He.
  destruct (Z.eqb_spec p (tail (queue (mem s)))); [apply bool_decide_eq_true_2|apply bool_decide_eq_false_2]; tauto.
Qed.

Lemma inv_head_marked s a : inv s a -> is_marked (head (queue (mem s))) = asleep a.
Proof.
  intros Hinv. destruct (inv_head _ _ Hinv) as (p & Hp & -> & _).
  apply head_of_marked. by apply (inv_last_node _ _ _ Hinv).
Qed.

Lemma replay_marked a r :
  r = bool_decide (waiting a = []) -> r || asleep a = asleep a -> replay a [Marked r] = Some a.
Proof. intros Hr Ha. cbn. rewrite decide_True, Ha by done. by destruct a. Qed.

Lemma replay_is_empty a r : r = bool_decide (waiting a = []) -> replay a [Is_empty r] = Some a.
Proof. intros Hr. cbn. by rewrite decide_True by done. Qed.

Lemma sim_mark_load s a :
  inv s a -> consumer s = Mark_load (tail (queue (mem s))) ->
  exists m pc evs a', consume_step (mem s) (consumer s) = Ret (m, pc, evs) /\
    replay a evs = Some a' /\ inv (mk_system m (producers s) pc) a'.
Proof.
  intros Hinv Hc. rewrite Hc. cbn. rewrite (inv_head_marked _ _ Hinv). destruct (asleep a) eqn:Has.
  { eexists _, _, _, a. split; [done|]. split; [|by apply inv_set_consumer].
    apply replay_marked; [|by rewrite Has]. by rewrite (inv_asleep _ _ Hinv Has). }
  pose proof (inv_head_tail _ _ Hinv Has) as Hht.
  destruct (Z.eqb_spec (head (queue (mem s))) (tail (queue (mem s)))) as [E|E]; cbn [negb].
  - eexists _, _, _, a. split; [done|]. split; [done|]. apply inv_set_consumer; [done|]. cbn. by rewrite E.
  - eexists _, _, _, a. split; [done|]. split; [|by apply inv_set_consumer]. by apply replay_marked.
Qed.

Lemma sim_mark_exchange s a h :
  inv s a -> consumer s = Mark_exchange (tail (queue (mem s))) h ->
  exists m pc evs a', consume_step (mem s) (consumer s) = Ret (m, pc, evs) /\
    replay a evs = Some a' /\ inv (mk_system m (producers s) pc) a'.
Proof.
  intros Hinv Hc. pose proof (inv_consumer _ _ Hinv) as Hok. rewrite Hc in Hok |- *. destruct Hok as (_ & -> & Has).
  cbn. pose proof (inv_head_tail _ _ Hinv Has) as Hht.
  destruct (Z.eqb_spec (head (queue (mem s))) (tail (queue (mem s)))) as [E|E].
  2: { eexists _, _, _, a. split; [done|]. split; [|by apply inv_set_consumer]. by apply replay_marked. }
  eexists _, _, _, _. split; [done|]. split; [cbn; by rewrite decide_True by done|]. apply bool_decide_eq_true in Hht.
  pose proof Hinv as [Hnd0 Hm0 Hal0 (p0 & Hp0 & Hhd0 & Hn0) Has0 Hj0 Hpr0 Hdis0 Hpend0 Hfl0 Hc0].
  pose proof (proj2 (inv_empty _ _ _ Hinv Hp0) Hht) as ->.
  split; try done.
  - by exists (tail (queue (mem s))).
  - intros t l' pc Hp. destruct (Hpr0 _ _ _ Hp) as [Hok Hsep]. split; [|done].
    destruct pc as [f z|f z|q f w|w]; cbn in *; [| | |done].
    + by apply (chain_ok_frame s).
    + destruct Hok. split; [by apply (chain_ok_frame s)|done].
    + done.
Qed.

Lemma sim_empty_load s a :
  inv s a -> consumer s = Empty_load (tail (queue (mem s))) ->
  exists m pc evs a', consume_step (mem s) (consumer s) = Ret (m, pc, evs) /\
    replay a evs = Some a' /\ inv (mk_system m (producers s) pc) a'.
Proof.
  intros Hinv Hc. rewrite Hc. cbn. rewrite (inv_head_marked _ _ Hinv). destruct (asleep a) eqn:Has.
  - eexists _, _, _, a. split; [done|]. split; [|by apply inv_set_consumer].
    apply replay_is_empty. by rewrite (inv_asleep _ _ Hinv Has).
  - eexists _, _, _, a. split; [done|]. split; [|by apply inv_set_consumer].
    apply replay_is_empty. by rewrite (inv_head_tail _ _ Hinv Has).
Qed.

Lemma sim_consume s a :
  inv s a -> exists m pc evs a', consume_step (mem s) (consumer s) = Ret (m, pc, evs) /\
    replay a evs = Some a' /\ inv (mk_system m (producers s) pc) a'.
Proof.
  intros Hinv. pose proof (inv_consumer _ _ Hinv) as Hok. destruct (consumer s) eqn:Hc; cbn in Hok; rewrite <- Hc.
  - rewrite Hc. eexists _, _, _, a. split; [done|]. split; [done|]. by apply inv_set_consumer.
  - subst. by apply sim_pop_load.
  - destruct Hok as (-> & _ & _). by eapply sim_pop_advance.
  - subst. by apply sim_mark_load.
  - destruct Hok as (-> & _ & _). by eapply sim_mark_exchange.
  - subst. by apply sim_empty_load.
Qed.

Lemma sim_run s a t l pc :
  inv s a -> producers s !! t = Some (l, pc) -> (forall w, pc <> Push_done w) ->
  exists m pc' a', push_step (mem s) pc = Ret (m, pc') /\ replay a (push_event t l pc pc') = Some a' /\
    inv (mk_system m (<[t := (l, pc')]> (producers s)) (consumer s)) a'.
Proof.
  intros Hinv Ht Hpc. destruct pc as [first lst|first lst|p first w|w].
  - destruct (sim_clear _ _ _ _ _ _ Hinv Ht) as (m & Hrun & Hinv'). by exists m, (Push_exchange first lst), a.
  - destruct (sim_exchange _ _ _ _ _ _ Hinv Ht) as (m & p & a' & Hrun & Hev & Hinv').
    exists m, (Push_link p first (asleep a)), a'. split; [done|]. split; [|done].
    cbn [push_event replay]. by rewrite Hev.
  - destruct (sim_link _ _ _ _ _ _ _ Hinv Ht) as (m & a' & Hrun & Hev & Hinv').
    exists m, (Push_done w), a'. split; [done|]. split; [|done]. cbn [push_event replay]. by rewrite Hev.
  - by destruct (Hpc w).
Qed.

Lemma sim_call s a pc : inv s a -> consumer_ok s a pc -> inv (call s pc) a.
Proof. intros Hinv Hpc. unfold call. destruct (consumer s); try done. by apply inv_set_consumer. Qed.

(** Every move keeps the invariant, and the specification allows what it shows. *)
Lemma sim_action ndebug garbage s a act :
  inv s a -> exists s' evs a', do_action ndebug garbage s act = Ret (s', evs) /\
    replay a evs = Some a' /\ inv s' a'.
Proof.
  intros Hinv. destruct act as [t l|t| | | |]; cbn [do_action].
  - destruct (decide (can_send s t l)) as [Hsend|]; [|by exists s, [], a].
    destruct (sim_send s a ndebug garbage t l Hinv Hsend) as (m & pc & -> & Hinv').
    by eexists _, _, a.
  - destruct (producers s !! t) as [[l pc]|] eqn:Ht; [|by exists s, [], a].
    assert ((exists w, pc = Push_done w) \/ (forall w, pc <> Push_done w)) as [[w ->]|Hdone]
      by (destruct pc; eauto; right; done).
    + eexists _, _, a. split; [done|]. split; [done|]. by eapply sim_return.
    + destruct (sim_run s a t l pc Hinv Ht) as (m & pc' & a' & Hrun & Hev & Hinv').
      { done. }
      exists (mk_system m (<[t := (l, pc')]> (producers s)) (consumer s)), (push_event t l pc pc'), a'.
      split; [|done]. destruct pc as [| | |w]; try (by rewrite Hrun). by destruct (Hdone w).
  - eexists _, _, a. split; [done|]. split; [done|]. by apply sim_call.
  - eexists _, _, a. split; [done|]. split; [done|]. by apply sim_call.
  - eexists _, _, a. split; [done|]. split; [done|]. by apply sim_call.
  - destruct (sim_consume s a Hinv) as (m & pc & evs & a' & -> & Hev & Hinv').
    by eexists _, _, a'.
Qed.

Lemma replay_app a evs1 evs2 : replay a (evs1 ++ evs2) = replay a evs1 ≫= fun a => replay a evs2.
Proof.
  revert a. induction evs1 as [|e evs1 IH]; intros a; [done|]. cbn. destruct (replay_event a e); [apply IH|done].
Qed.

Lemma sim_exec ndebug garbage s a schedule :
  inv s a -> exists s' evs a', exec ndebug garbage s schedule = Ret (s', evs) /\
    replay a evs = Some a' /\ inv s' a'.
Proof.
  revert s a. induction schedule as [|act schedule IH]; intros s a Hinv; [by exists s, [], a|].
  destruct (sim_action ndebug garbage s a act Hinv) as (s1 & evs1 & a1 & Hrun1 & Hev1 & Hinv1).
  destruct (IH s1 a1 Hinv1) as (s2 & evs2 & a2 & Hrun2 & Hev2 & Hinv2).
  exists s2, (evs1 ++ evs2), a2. cbn. rewrite Hrun1. cbn. rewrite Hrun2. cbn. split; [done|].
  split; [|done]. by rewrite replay_app, Hev1.
Qed.

Lemma exec_app ndebug garbage s l1 l2 :
  exec ndebug garbage s (l1 ++ l2) =
  ('(s, evs) ← exec ndebug garbage s l1; '(s, evs') ← exec ndebug garbage s l2; Ret (s, evs ++ evs')).
Proof.
  revert s. induction l1 as [|act l1 IH]; intros s; cbn [app exec].
  - cbn. by destruct (exec ndebug garbage s l2) as [[]| | |].
  - destruct (do_action ndebug garbage s act) as [[s1 evs1]| | |]; [|done..]. cbn [mbind outcome_bind]. rewrite IH.
    destruct (exec ndebug garbage s1 l1) as [[s2 evs2]| | |]; [|done..]. cbn [mbind outcome_bind].
    destruct (exec ndebug garbage s2 l2) as [[s3 evs3]| | |]; [|done..]. cbn. by rewrite app_assoc.
Qed.

Lemma inv_init stub : is_message stub -> inv (system_init stub) spec_init.
Proof.
  intros Hstub. split; cbn; unfold nodes; cbn.
  - by apply NoDup_singleton.
  - by constructor.
  - constructor; [|done]. rewrite lookup_insert_eq. by eexists.
  - exists stub. split_and!; [done|done|apply lookup_insert_eq].
  - done.
  - done.
  - intros t l pc. by rewrite lookup_empty.
  - intros t t' l l' pc pc'. by rewrite lookup_empty.
  - intros t t' l l' p f f' w w'. by rewrite lookup_empty.
  - intros t x. rewrite lookup_empty. split; [done|]. intros (l & p & w & E). by rewrite lookup_empty in E.
  - done.
Qed.
End invariant.

(** ** Properties *)

(** The messages pushed and the messages popped in a history. *)
Definition pushed (evs : list event) : list Z :=
  mjoin ((fun e => match e with Pushed _ l _ => l | _ => [] end) <$> evs).

Definition popped (evs : list event) : list Z :=
  mjoin ((fun e => match e with Popped p => if p =? NULL then [] else [p] | _ => [] end) <$> evs).

(** Whether the queue sleeps after a history: no push since the last successful
    [markempty], or since the beginning. *)
Definition sleeping (evs : list event) : bool :=
  foldl (fun b e => match e with Pushed _ _ _ => false | Marked r => r || b | _ => b end) true evs.

Lemma replay_event_fifo a e a' :
  replay_event a e = Some a' -> waiting a ++ pushed [e] = popped [e] ++ waiting a'.
Proof.
  destruct e as [t l w|t|p|r|r]; unfold pushed, popped; cbn; rewrite ?app_nil_r.
  - case_decide; [|done]. by intros [= <-].
  - by intros [= <-].
  - destruct (waiting a) as [|x l] eqn:Hw; destruct (Z.eqb_spec p NULL) as [->|Hp]; cbn; try done.
    + intros [= <-]. by rewrite Hw.
    + case_bool_decide; [|done]. intros [= <-]. by rewrite Hw.
    + destruct (Z.eqb_spec p x) as [->|]; [|done]. by intros [= <-].
  - case_decide; [|done]. by intros [= <-].
  - case_decide; [|done]. by intros [= <-].
Qed.

Lemma pushed_cons e evs : pushed (e :: evs) = pushed [e] ++ pushed evs.
Proof. unfold pushed. cbn. by rewrite app_nil_r. Qed.

Lemma popped_cons e evs : popped (e :: evs) = popped [e] ++ popped evs.
Proof. unfold popped. cbn. by rewrite app_nil_r. Qed.

Lemma replay_fifo a evs a' : replay a evs = Some a' -> waiting a ++ pushed evs = popped evs ++ waiting a'.
Proof.
  revert a. induction evs as [|e evs IH]; intros a; cbn [replay].
  - intros [= ->]. by rewrite app_nil_r.
  - destruct (replay_event a e) as [a1|] eqn:He; [|done]. cbn [mbind option_bind]. intros Hr.
    rewrite pushed_cons, popped_cons, app_assoc, (replay_event_fifo a e a1 He), <- !app_assoc.
    f_equal. by apply IH.
Qed.

Lemma replay_event_asleep a e a' :
  replay_event a e = Some a' ->
  asleep a' = match e with Pushed _ _ _ => false | Marked r => r || asleep a | _ => asleep a end.
Proof.
  destruct e as [t l w|t|p|r|r]; cbn; repeat case_match; intros ?; simplify_eq; done.
Qed.

Lemma replay_asleep a evs a' :
  replay a evs = Some a' ->
  asleep a' = foldl (fun b e => match e with Pushed _ _ _ => false | Marked r => r || b | _ => b end) (asleep a) evs.
Proof.
  revert a. induction evs as [|e evs IH]; intros a; cbn [replay foldl]; [by intros [= ->]|].
  destruct (replay_event a e) as [a1|] eqn:He; [|done]. cbn. intros Hr.
  by rewrite (IH a1 Hr), (replay_event_asleep _ _ _ He).
Qed.

(** C4: the queue is linearizable.  Whatever the order in which the steps of its producers and
    of its consumer are interleaved, no assertion fails, no freed message is accessed, and the
    history is one of a first-in first-out queue on which every call acts at one moment
    between its beginning and its end.  The bit of the head says whether the queue sleeps. *)
Theorem messageq_linearizable ndebug garbage stub schedule :
  is_message stub ->
  exists s evs a, exec ndebug garbage (system_init stub) schedule = Ret (s, evs) /\
    replay spec_init evs = Some a /\ is_marked (head (queue (mem s))) = asleep a /\
    (asleep a = true -> waiting a = []).
Proof.
  intros Hstub. destruct (sim_exec ndebug garbage _ _ schedule (inv_init stub Hstub)) as (s & evs & a & Hrun & Hev & Hinv).
  exists s, evs, a. split_and!; [done|done|by apply inv_head_marked|by apply (inv_asleep _ _ Hinv)].
Qed.

(** C5: the messages popped are the messages pushed, in the order in which the pushes took
    effect and without loss or repetition, up to those that still wait. *)
Theorem messageq_fifo ndebug garbage stub schedule s evs :
  is_message stub -> exec ndebug garbage (system_init stub) schedule = Ret (s, evs) ->
  popped evs `prefix_of` pushed evs.
Proof.
  intros Hstub Hrun. destruct (sim_exec ndebug garbage _ _ schedule (inv_init stub Hstub)) as (s' & evs' & a & Hrun' & Hev & _).
  rewrite Hrun in Hrun'. injection Hrun' as <- <-. exists (waiting a). apply (replay_fifo _ _ _ Hev).
Qed.

(** C6: a push reports that the queue was empty exactly if it is the first one after a
    successful [markempty] (or after the initialisation), so that one sender, and no other,
    schedules the receiver. *)
Theorem messageq_wakeup ndebug garbage stub schedule s evs1 t l was_empty evs2 :
  is_message stub ->
  exec ndebug garbage (system_init stub) schedule = Ret (s, evs1 ++ Pushed t l was_empty :: evs2) ->
  was_empty = sleeping evs1.
Proof.
  intros Hstub Hrun. destruct (sim_exec ndebug garbage _ _ schedule (inv_init stub Hstub)) as (s' & evs' & a & Hrun' & Hev & _).
  rewrite Hrun in Hrun'. injection Hrun' as <- <-. rewrite replay_app in Hev.
  destruct (replay spec_init evs1) as [a1|] eqn:H1; [|done]. cbn in Hev.
  destruct (decide (was_empty = asleep a1)) as [->|]; [|done]. apply (replay_asleep _ _ _ H1).
Qed.

(** *** Quiescent queues *)

Definition pop_calls (n : nat) : list action := mjoin (replicate n [Call_pop; Consume; Consume]).

(** A pop when no push is between its exchange and its return. *)
Lemma pop_quiet ndebug garbage s a :
  inv s a -> consumer s = Idle -> in_flight a = ∅ ->
  exists s', exec ndebug garbage s [Call_pop; Consume; Consume] = Ret (s', [Popped (default NULL (hd_error (waiting a)))]) /\
    inv s' (mk_spec (tl (waiting a)) (asleep a) ∅) /\ consumer s' = Idle.
Proof.
  intros Hinv Hidle Hfl. destruct (sim_exec ndebug garbage s a [Call_pop; Consume; Consume] Hinv)
    as (s' & evs & a' & Hrun & Hev & Hinv').
  enough (evs = [Popped (default NULL (hd_error (waiting a)))] /\ consumer s' = Idle) as [-> Hidle'].
  { exists s'. split; [done|]. split; [|done]. enough (mk_spec (tl (waiting a)) (asleep a) ∅ = a') as -> by done.
    cbn [replay replay_event] in Hev. destruct a as [[|x l] b fl]; cbn in Hfl, Hev |- *; subst fl.
    - by injection Hev.
    - pose proof (inv_messages _ _ Hinv) as Hm. apply Forall_cons in Hm as [_ Hm]. cbn in Hm.
      apply Forall_cons in Hm as [(_ & Hx & _) _]. cbn in Hev. unfold id in Hev.
      rewrite (proj2 (Z.eqb_neq x NULL)), Z.eqb_refl in Hev by done. by injection Hev. }
  clear Hev Hinv'. destruct (inv_tail _ _ Hinv) as (n & Hn & Hempty).
  revert Hrun. cbn. unfold call. rewrite Hidle. cbn. unfold load_next, pool_free. rewrite Hn. cbn.
  destruct (Z.eqb_spec n NULL) as [->|Hne]; cbn.
  - intros [= <- <-]. split; [|done]. destruct (waiting a) as [|x l] eqn:Hw; [done|].
    destruct (inv_front _ _ _ _ _ Hinv Hw Hn) as [[? ?]|[_ [t Ht]]]; [done|]. by rewrite Hfl, lookup_empty in Ht.
  - unfold pool_free. cbn. rewrite Hn. cbn. intros [= <- <-]. split; [|done]. destruct (waiting a) as [|x l] eqn:Hw; [by rewrite Hempty in Hne|].
    by destruct (inv_front _ _ _ _ _ Hinv Hw Hn) as [[<- _]|[? _]].
Qed.

Lemma pops_quiet ndebug garbage n s a :
  inv s a -> consumer s = Idle -> in_flight a = ∅ -> length (waiting a) = n ->
  exists s', exec ndebug garbage s (pop_calls n) = Ret (s', Popped <$> waiting a) /\
    inv s' (mk_spec [] (asleep a) ∅) /\ consumer s' = Idle.
Proof.
  revert s a. induction n as [|n IH]; intros s a Hinv Hidle Hfl Hn.
  - destruct a as [[|x l] b fl]; [|done]. cbn in *. subst. by exists s.
  - destruct (waiting a) as [|x l] eqn:Hw; [done|]. injection Hn as Hn.
    destruct (pop_quiet ndebug garbage s a Hinv Hidle Hfl) as (s1 & Hrun1 & Hinv1 & Hidle1). rewrite Hw in *.
    destruct (IH s1 _ Hinv1 Hidle1 eq_refl Hn) as (s2 & Hrun2 & Hinv2 & Hidle2).
    exists s2. split; [|done].
    change (pop_calls (S n)) with ([Call_pop; Consume; Consume] ++ pop_calls n).
    rewrite exec_app, Hrun1. cbn [mbind outcome_bind]. by rewrite Hrun2.
Qed.

(** C7: nothing is lost or stuck.  When no push is between its exchange and its return, the
    pops of the consumer give the messages that remain, in their order, and then [NULL];
    [markempty] then succeeds, and the assertion of [destroy] holds. *)
Theorem messageq_drains ndebug garbage stub schedule s evs :
  is_message stub -> exec ndebug garbage (system_init stub) schedule = Ret (s, evs) ->
  consumer s = Idle -> (forall t l p first w, producers s !! t <> Some (l, Push_link p first w)) ->
  exists remaining s' m,
    pushed evs = popped evs ++ remaining /\
    exec ndebug garbage s (pop_calls (length remaining)) = Ret (s', Popped <$> remaining) /\
    (exists s'', exec ndebug garbage s' [Call_pop; Consume; Consume] = Ret (s'', [Popped NULL])) /\
    (exists s'', exec ndebug garbage s' [Call_markempty; Consume; Consume] = Ret (s'', [Marked true])) /\
    ponyint_messageq_destroy (mem s') false = Ret m.
Proof.
  intros Hstub Hrun Hidle Hquiet. destruct (sim_exec ndebug garbage _ _ schedule (inv_init stub Hstub)) as (s1 & evs1 & a & Hrun' & Hev & Hinv).
  rewrite Hrun in Hrun'. injection Hrun' as <- <-.
  assert (in_flight a = ∅) as Hfl.
  { apply map_empty. intros t. destruct (in_flight a !! t) as [x|] eqn:E; [|done]. exfalso.
    apply (inv_in_flight _ _ Hinv) in E as (l & p & w & E). by eapply Hquiet. }
  destruct (pops_quiet ndebug garbage _ s a Hinv Hidle Hfl eq_refl) as (s' & Hpops & Hinv' & Hidle').
  destruct (pop_quiet ndebug garbage s' _ Hinv' Hidle' eq_refl) as (s2 & Hpop & _).
  destruct (inv_head _ _ Hinv') as (p & Hp & Hh & Hn). injection Hp as <-. cbn in Hh.
  exists (waiting a), s'. unfold ponyint_messageq_destroy, pool_free. rewrite Hh, Hn, head_of_unmark, Z.eqb_refl.
  2: { pose proof (inv_messages _ _ Hinv') as Hm. by apply Forall_cons in Hm as [Hm _]. }
  eexists. split_and!; [exact (replay_fifo _ _ _ Hev)|done|by exists s2| |done].
  cbn. unfold call. rewrite Hidle'. cbn. rewrite (inv_head_marked _ _ Hinv'). cbn.
  destruct (asleep a); cbn; [by eexists|]. rewrite Hh. cbn. rewrite Z.eqb_refl. cbn. rewrite Hh, Z.eqb_refl. by eexists.
Qed.

(** *** An execution

    Thread 1 pushes two messages and is interrupted before it links them; thread 2 pushes a
    message completely.  Until thread 1 goes on, the consumer finds nothing in a queue that is
    not empty. *)
Definition gap_schedule : list action :=
  [Send 1 [128; 192]; Run 1; Run 1; Send 2 [256]; Run 2; Run 2; Run 2; Run 2;
   Call_pop; Consume; Call_isempty; Consume].

Definition rest_schedule : list action :=
  [Run 1; Run 1; Call_pop; Consume; Consume; Call_pop; Consume; Consume; Call_markempty; Consume].

Definition no_garbage (p : Z) : Z := p + 1.

(** The history of the execution. *)
Definition history (ndebug : bool) (schedule : list action) : list event :=
  match exec ndebug no_garbage (system_init 64) schedule with Ret (_, evs) => evs | _ => [] end.

Example gap_events :
  history true gap_schedule =
    [Pushed 1 [128; 192] true; Pushed 2 [256] false; Returned 2; Popped NULL; Is_empty false].
Proof. vm_compute. reflexivity. Qed.

Example rest_events :
  history true (gap_schedule ++ rest_schedule) =
    history true gap_schedule ++ [Returned 1; Popped 128; Popped 192; Marked false].
Proof. vm_compute. reflexivity. Qed.

Lemma message_64 : is_message 64.
Proof. refine (bool_decide_eq_true_1 _ _). vm_compute. reflexivity. Qed.

Lemma messageq_linearizable_witness :
  is_message 64 /\
  exists s evs a, exec true no_garbage (system_init 64) (gap_schedule ++ rest_schedule) = Ret (s, evs) /\
    replay spec_init evs = Some a /\ waiting a = [256].
Proof.
  split; [exact message_64|].
  destruct (messageq_linearizable true no_garbage 64 (gap_schedule ++ rest_schedule) message_64)
    as (s & evs & a & Hrun & Hev & _).
  exists s, evs, a. split; [exact Hrun|]. split; [exact Hev|].
  vm_compute in Hrun. injection Hrun as <- <-. vm_compute in Hev. injection Hev as <-. reflexivity.
Defined.

Lemma messageq_fifo_witness :
  let evs := history false (gap_schedule ++ rest_schedule) in
  popped evs = [128; 192] /\ pushed evs = [128; 192; 256] /\ popped evs `prefix_of` pushed evs.
Proof.
  intros evs. split; [vm_compute; reflexivity|]. split; [vm_compute; reflexivity|].
  unfold evs, history.
  destruct (exec false no_garbage (system_init 64) (gap_schedule ++ rest_schedule)) as [[s l]| | |] eqn:Hrun.
  - exact (messageq_fifo false no_garbage 64 _ s l message_64 Hrun).
  - vm_compute in Hrun. discriminate Hrun.
  - vm_compute in Hrun. discriminate Hrun.
  - vm_compute in Hrun. discriminate Hrun.
Defined.

Lemma messageq_wakeup_witness :
  history true gap_schedule =
    [Pushed 1 [128; 192] true] ++ Pushed 2 [256] false :: [Returned 2; Popped NULL; Is_empty false] /\
  false = sleeping [Pushed 1 [128; 192] true].
Proof.
  assert (history true gap_schedule =
    [Pushed 1 [128; 192] true] ++ Pushed 2 [256] false :: [Returned 2; Popped NULL; Is_empty false]) as E
    by (vm_compute; reflexivity).
  split; [exact E|]. unfold history in E.
  destruct (exec true no_garbage (system_init 64) gap_schedule) as [[s l]| | |] eqn:Hrun.
  - rewrite E in Hrun. exact (messageq_wakeup true no_garbage 64 gap_schedule s _ 2 [256] false _ message_64 Hrun).
  - discriminate E.
  - discriminate E.
  - discriminate E.
Defined.

Lemma messageq_drains_witness :
  exists s evs remaining s', exec true no_garbage (system_init 64) (gap_schedule ++ rest_schedule) = Ret (s, evs) /\
    pushed evs = popped evs ++ remaining /\ remaining = [256] /\
    exec true no_garbage s (pop_calls (length remaining)) = Ret (s', Popped <$> remaining).
Proof.
  destruct (exec true no_garbage (system_init 64) (gap_schedule ++ rest_schedule)) as [[s evs]| | |] eqn:Hrun.
  2, 3, 4: vm_compute in Hrun; discriminate Hrun.
  destruct (messageq_drains true no_garbage 64 (gap_schedule ++ rest_schedule) s evs message_64 Hrun)
    as (remaining & s' & m & Hpushed & Hpops & _).
  - vm_compute in Hrun. injection Hrun as <- <-. reflexivity.
  - vm_compute in Hrun. injection Hrun as <- <-. intros t l p first w. cbn [producers].
    intros E. vm_compute in E. discriminate E.
  - exists s, evs, remaining, s'. split; [reflexivity|]. split; [exact Hpushed|]. split; [|exact Hpops].
    vm_compute in Hrun. injection Hrun as <- <-. vm_compute in Hpushed. injection Hpushed as <-. reflexivity.
Defined.
