(* ===== verification/Pool.v ===== *)
(** * The memory pool: [src/libponyrt/mem/pool.c], [src/libponyrt/mem/pool.h]

    A thread allocates a size class from its free list, then from the lists that other
    threads have pushed on the central stack of the class, then (below 1024 bytes) from the
    rest of a block of 1024 bytes, and at last from its own and the global list of blocks of
    pages, which are mapped 128 MB at a time.

    The free lists are intrusive in C: the links are stored in the free memory.  Here they
    are lists of addresses; that no free memory is also allocated, so that nothing else
    writes to the links, is what the invariant [pool_ok] says: the free and the allocated
    ranges tile the mapped memory.  The operations on the two kinds of shared lists (a
    compare-and-swap loop, a hand-over-hand insertion) are one atomic step each. *)
From S2P Require Import Prelude Fun.
From Stdlib Require Import Sorted.
From stdpp Require Import gmap fin_maps sorting.
Local Open Scope Z_scope.
Local Open Scope c_scope.

(** ** Sizes *)

Definition POOL_MIN_BITS : Z := 5.
Definition POOL_MAX_BITS : Z := 20.
Definition POOL_ALIGN_BITS : Z := 10.
Definition POOL_MIN : Z := Z.shiftl 1 POOL_MIN_BITS.
Definition POOL_MAX : Z := Z.shiftl 1 POOL_MAX_BITS.
Definition POOL_ALIGN : Z := Z.shiftl 1 POOL_ALIGN_BITS.
Definition POOL_COUNT : Z := POOL_MAX_BITS - POOL_MIN_BITS + 1.
Definition POOL_ALIGN_INDEX : Z := POOL_ALIGN_BITS - POOL_MIN_BITS.
Definition POOL_ALIGN_MASK : Z := POOL_ALIGN - 1.
Definition POOL_MMAP : Z := 128 * 1024 * 1024.

Definition POOL_SIZE (index : Z) : Z := 1 <<! (POOL_MIN_BITS + index).

(** The rows [size] and [count] of the table [pool_global]. *)
Definition global_size (index : Z) : Z := Z.shiftl POOL_MIN index.
Definition global_count (index : Z) : Z := POOL_MAX / global_size index.

Definition ponyint_pool_index (size : Z) : Z :=
  if POOL_MIN <? size then
    (64 - POOL_MIN_BITS) ⊟ clzzu size ⊟ bool_to_u64 (Z.land size (size ⊟ 1) =? 0)
  else 0.

Definition ponyint_pool_adjust_size (size : Z) : Z :=
  let size :=
    if negb (Z.land size POOL_ALIGN_MASK =? 0) then Z.land size (not64 POOL_ALIGN_MASK) ⊞ POOL_ALIGN
    else size in
  if size =? 0 then size ⊟ 1 else size.

Definition ponyint_pool_used_size (size : Z) : Z :=
  let index := ponyint_pool_index size in
  if index <? POOL_COUNT then POOL_SIZE index else ponyint_pool_adjust_size size.

(** ** State *)

(** A range of memory: its address and its size. *)
Abbreviation range := (Z * Z)%type.

Record pool_local_t := mk_local { pool : list Z; length : Z; start : Z; end_ : Z }.

Record pool_block_t := mk_block { addr : Z; size : Z }.

(** The list of blocks, in order, and what the header says of it. *)
Record pool_block_header_t := mk_header { head : list pool_block_t; total_size : Z; largest_size : Z }.

(** The thread-local variables [pool_local] and [pool_block_header]. *)
Record thread_t := mk_thread { pool_local : list pool_local_t; pool_block_header : pool_block_header_t }.

Record pool_central_t := mk_central { items : list Z; central_length : Z }.

(** The global variables [pool_global] and [pool_block_global], and the regions that the
    operating system has mapped. *)
Record shared_t := mk_shared {
  pool_global : list (list pool_central_t);
  pool_block_global : list pool_block_t;
  mapped : list range
}.

Definition local_init : pool_local_t := mk_local [] 0 0 0.
Definition thread_init : thread_t :=
  mk_thread (replicate (Z.to_nat POOL_COUNT) local_init) (mk_header [] 0 0).
Definition shared_init : shared_t := mk_shared (replicate (Z.to_nat POOL_COUNT) []) [] [].

Definition ranges_disjoint (r s : range) : Prop := r.1 + r.2 <= s.1 \/ s.1 + s.2 <= r.1.

(** [ponyint_virt_alloc]: the operating system chooses an address, given the regions that
    are mapped already, or has no memory left. *)
Class Mmap := {
  virt_alloc : list range -> Z -> option Z;
  virt_alloc_law m n a :
    virt_alloc m n = Some a ->
    0 < n -> 0 < a /\ a + n <= 2 ^ 48 /\ (POOL_ALIGN | a) /\ Forall (ranges_disjoint (a, n)) m
}.

Definition ponyint_virt_alloc `{Mmap} (sh : shared_t) (bytes : Z) : outcome (shared_t * Z) :=
  match virt_alloc (mapped sh) bytes with
  | Some a => Ret (mk_shared (pool_global sh) (pool_block_global sh) ((a, bytes) :: mapped sh), a)
  | None => Exit
  end.

(** ** Blocks of pages *)

Fixpoint pool_block_insert (block : pool_block_t) (next : list pool_block_t) : list pool_block_t :=
  match next with
  | [] => [block]
  | n :: rest => if size block <=? size n then block :: next else n :: pool_block_insert block rest
  end.

(** The same search on the global list. *)
Definition pool_block_push (sh : shared_t) (block : pool_block_t) : shared_t :=
  mk_shared (pool_global sh) (pool_block_insert block (pool_block_global sh)) (mapped sh).

Fixpoint pull_loop (n : Z) (block : list pool_block_t) : option (pool_block_t * list pool_block_t) :=
  match block with
  | [] => None
  | b :: rest =>
      if size b <? n then '(found, rest) ← pull_loop n rest; Some (found, b :: rest)
      else Some (b, rest)
  end.

Definition pool_block_pull (sh : shared_t) (n : Z) : shared_t * option pool_block_t :=
  match pull_loop n (pool_block_global sh) with
  | Some (b, rest) => (mk_shared (pool_global sh) rest (mapped sh), Some b)
  | None => (sh, None)
  end.

(** The search in the list of the thread.  [prev] is the part of the list before the
    block, the nearest block first. *)
Fixpoint block_get_loop (h : pool_block_header_t) (n : Z) (prev block : list pool_block_t)
    : outcome (pool_block_header_t * Z) :=
  match block with
  | [] => Abort
  | b :: next =>
      if n <? size b then
        let rem := size b - n in
        let b' := mk_block (addr b) rem in
        let total := total_size h ⊟ n in
        match prev with
        | p :: _ =>
            if rem <? size p then
              Ret (mk_header (pool_block_insert b' (rev_append prev next)) total
                     (if next is [] then size p else largest_size h), addr b + rem)
            else
              Ret (mk_header (rev_append prev (b' :: next)) total
                     (if next is [] then rem else largest_size h), addr b + rem)
        | [] =>
            Ret (mk_header (b' :: next) total (if next is [] then rem else largest_size h), addr b + rem)
        end
      else if size b =? n then
        Ret (mk_header (rev_append prev next) (total_size h ⊟ n)
               (if next is [] then (if prev is p :: _ then size p else 0) else largest_size h), addr b)
      else block_get_loop h n (b :: prev) next
  end.

(** A block is added to the list of the thread. *)
Definition insert_block (h : pool_block_header_t) (block : pool_block_t) : pool_block_header_t :=
  mk_header (pool_block_insert block (head h)) (total_size h ⊞ size block)
    (if largest_size h <? size block then size block else largest_size h).

Definition pool_block_get (sh : shared_t) (h : pool_block_header_t) (n : Z)
    : outcome (shared_t * pool_block_header_t * option Z) :=
  if n <=? largest_size h then
    '(h, p) ← block_get_loop h n [] (head h); Ret (sh, h, Some p)
  else
    match pool_block_pull sh n with
    | (sh, None) => Ret (sh, h, None)
    | (sh, Some b) =>
        if n =? size b then Ret (sh, h, Some (addr b))
        else
          let rem := size b - n in
          Ret (sh, insert_block h (mk_block (addr b) rem), Some (addr b + rem))
    end.

Definition pool_alloc_pages `{Mmap} (sh : shared_t) (h : pool_block_header_t) (n : Z)
    : outcome (shared_t * pool_block_header_t * Z) :=
  '(sh, h, p) ← pool_block_get sh h n;
  match p with
  | Some p => Ret (sh, h, p)
  | None =>
      if POOL_MMAP <=? n then '(sh, p) ← ponyint_virt_alloc sh n; Ret (sh, h, p)
      else
        '(sh, block) ← ponyint_virt_alloc sh POOL_MMAP;
        let rem := POOL_MMAP - n in
        Ret (sh, insert_block h (mk_block block rem), block + rem)
  end.

Definition pool_free_pages (h : pool_block_header_t) (p n : Z) : pool_block_header_t :=
  insert_block h (mk_block p n).

(** ** Free lists *)

(** The list of the thread goes on the central stack. *)
Definition pool_push (sh : shared_t) (thread : pool_local_t) (index : Z) : outcome (shared_t * pool_local_t) :=
  match pool_global sh !! Z.to_nat index with
  | None => Abort
  | Some top =>
      if (0 <? length thread) && (length thread <=? global_count index) then
        Ret (mk_shared (<[Z.to_nat index := mk_central (pool thread) (length thread) :: top]> (pool_global sh))
               (pool_block_global sh) (mapped sh),
             mk_local [] 0 (start thread) (end_ thread))
      else Abort
  end.

Definition pool_pull (sh : shared_t) (thread : pool_local_t) (index : Z)
    : outcome (shared_t * pool_local_t * option Z) :=
  match pool_global sh !! Z.to_nat index with
  | None => Abort
  | Some [] => Ret (sh, thread, None)
  | Some (top :: central) =>
      match items top with
      | p :: next =>
          if (0 <? central_length top) && (central_length top <=? global_count index) then
            Ret (mk_shared (<[Z.to_nat index := central]> (pool_global sh)) (pool_block_global sh) (mapped sh),
                 mk_local next (central_length top - 1) (start thread) (end_ thread), Some p)
          else Abort
      | [] => Abort
      end
  end.

Definition set_local (t : thread_t) (index : Z) (l : pool_local_t) : thread_t :=
  mk_thread (<[Z.to_nat index := l]> (pool_local t)) (pool_block_header t).

Definition set_header (t : thread_t) (h : pool_block_header_t) : thread_t := mk_thread (pool_local t) h.

(** The recursion is for the block of 1024 bytes that a smaller class is cut from, a class
    that does not recur. *)
Fixpoint pool_get `{Mmap} (fuel : nat) (sh : shared_t) (t : thread_t) (index : Z)
    : outcome (shared_t * thread_t * Z) :=
  match fuel, pool_local t !! Z.to_nat index with
  | O, _ => NoFuel
  | _, None => Abort
  | S fuel, Some thread =>
      match pool thread with
      | p :: next =>
          Ret (sh, set_local t index (mk_local next (length thread ⊟ 1) (start thread) (end_ thread)), p)
      | [] =>
          '(sh, thread, p) ← pool_pull sh thread index;
          match p with
          | Some p => Ret (sh, set_local t index thread, p)
          | None =>
              if global_size index <? POOL_ALIGN then
                if start thread <? end_ thread then
                  Ret (sh, set_local t index (mk_local [] (length thread)
                                                (start thread + global_size index) (end_ thread)), start thread)
                else
                  '(sh, t, mem) ← pool_get fuel sh t POOL_ALIGN_INDEX;
                  match pool_local t !! Z.to_nat index with
                  | None => Abort
                  | Some thread =>
                      Ret (sh, set_local t index (mk_local (pool thread) (length thread)
                                                    (mem + global_size index) (mem + POOL_ALIGN)), mem)
                  end
              else
                '(sh, h, p) ← pool_alloc_pages sh (pool_block_header t) (global_size index);
                Ret (sh, set_header t h, p)
          end
      end
  end.

Definition ponyint_pool_alloc `{Mmap} (sh : shared_t) (t : thread_t) (index : Z) : outcome (shared_t * thread_t * Z)
  :=
  pool_get 2 sh t index.

Definition ponyint_pool_free (sh : shared_t) (t : thread_t) (index p : Z) : outcome (shared_t * thread_t) :=
  if negb (index <? POOL_COUNT) then Abort
  else
    match pool_local t !! Z.to_nat index with
    | None => Abort
    | Some thread =>
        '(sh, thread) ←
          if length thread =? global_count index then pool_push sh thread index else Ret (sh, thread);
        if negb (length thread <? global_count index) then Abort
        else
          Ret (sh, set_local t index (mk_local (p :: pool thread) (length thread ⊞ 1)
                                        (start thread) (end_ thread)))
    end.

(** ** Sized allocations *)

Definition pool_alloc_size `{Mmap} (sh : shared_t) (t : thread_t) (n : Z) : outcome (shared_t * thread_t * Z) :=
  '(sh, h, p) ← pool_alloc_pages sh (pool_block_header t) n;
  Ret (sh, set_header t h, p).

Definition ponyint_pool_alloc_size `{Mmap} (sh : shared_t) (t : thread_t) (n : Z)
    : outcome (shared_t * thread_t * Z) :=
  let index := ponyint_pool_index n in
  if index <? POOL_COUNT then ponyint_pool_alloc sh t index
  else pool_alloc_size sh t (ponyint_pool_adjust_size n).

Definition pool_free_size (t : thread_t) (n p : Z) : thread_t :=
  set_header t (pool_free_pages (pool_block_header t) p n).

Definition ponyint_pool_free_size (sh : shared_t) (t : thread_t) (n p : Z) : outcome (shared_t * thread_t) :=
  let index := ponyint_pool_index n in
  if index <? POOL_COUNT then ponyint_pool_free sh t index p
  else Ret (sh, pool_free_size t (ponyint_pool_adjust_size n) p).

(** The new address, and how many bytes were copied to it when it is another one. *)
Definition ponyint_pool_realloc_size `{Mmap} (sh : shared_t) (t : thread_t) (old_size new_size p : Z)
    : outcome (shared_t * thread_t * Z * option Z) :=
  if p =? NULL then
    '(sh, t, q) ← ponyint_pool_alloc_size sh t new_size; Ret (sh, t, q, None)
  else
    let old_index := ponyint_pool_index old_size in
    let new_index := ponyint_pool_index new_size in
    let finish (sh : shared_t) (t : thread_t) (new_p old_adj_size : Z) :=
      let copied := if old_size <? new_size then old_size else new_size in
      if old_index <? POOL_COUNT then
        '(sh, t) ← ponyint_pool_free sh t old_index p; Ret (sh, t, new_p, Some copied)
      else Ret (sh, pool_free_size t old_adj_size p, new_p, Some copied) in
    if new_index <? POOL_COUNT then
      if old_index =? new_index then Ret (sh, t, p, None)
      else '(sh, t, new_p) ← ponyint_pool_alloc sh t new_index; finish sh t new_p 0
    else
      let new_adj_size := ponyint_pool_adjust_size new_size in
      let old_adj_size := if POOL_COUNT <=? old_index then ponyint_pool_adjust_size old_size else 0 in
      if (POOL_COUNT <=? old_index) && (old_adj_size =? new_adj_size) then Ret (sh, t, p, None)
      else '(sh, t, new_p) ← pool_alloc_size sh t new_adj_size; finish sh t new_p old_adj_size.

(** ** The end of a thread *)

(** The rest of a block is cut into items. *)
Fixpoint segment_loop (fuel : nat) (sh : shared_t) (thread : pool_local_t) (index : Z)
    : outcome (shared_t * pool_local_t) :=
  if start thread <? end_ thread then
    match fuel with
    | O => NoFuel
    | S fuel =>
        '(sh, thread) ←
          if length thread =? global_count index then pool_push sh thread index else Ret (sh, thread);
        segment_loop fuel sh
          (mk_local (start thread :: pool thread) (length thread ⊞ 1)
             (start thread + global_size index) (end_ thread)) index
    end
  else Ret (sh, thread).

Definition cleanup_index (st : shared_t * list pool_local_t) (index : nat) : outcome (shared_t * list pool_local_t) :=
  let '(sh, locals) := st in
  match locals !! index with
  | None => Abort
  | Some thread =>
      '(sh, thread) ← segment_loop (Z.to_nat (POOL_ALIGN / POOL_MIN)) sh thread (Z.of_nat index);
      '(sh, thread) ← if 0 <? length thread then pool_push sh thread (Z.of_nat index) else Ret (sh, thread);
      Ret (sh, <[index := thread]> locals)
  end.

Definition ponyint_pool_thread_cleanup (sh : shared_t) (t : thread_t) : outcome (shared_t * thread_t) :=
  '(sh, locals) ← foldO cleanup_index (sh, pool_local t) (seq 0 (Z.to_nat POOL_COUNT));
  Ret (foldl pool_block_push sh (head (pool_block_header t)), mk_thread locals (mk_header [] 0 0)).

(** ** Tilings

    [tiles m l]: the ranges [l] are what is left of the regions [m] after some splits; a
    split may cut off an empty range. *)
Inductive tiles (m : list range) : list range -> Prop :=
| tiles_self : tiles m m
| tiles_perm l l' : l ≡ₚ l' -> tiles m l -> tiles m l'
| tiles_split a n k l : 0 <= n -> 0 < k -> tiles m ((a, n + k) :: l) -> tiles m ((a, n) :: (a + n, k) :: l).

Fixpoint pairwise_disjoint (l : list range) : Prop :=
  match l with
  | [] => True
  | r :: l => Forall (ranges_disjoint r) l /\ pairwise_disjoint l
  end.

Definition bytes (l : list range) : Z := foldr (fun r n => r.2 + n) 0 l.

(** [r] lies in [s]. *)
Definition within (r s : range) : Prop := s.1 <= r.1 /\ r.1 + r.2 <= s.1 + s.2.

Lemma ranges_disjoint_sym r s : ranges_disjoint r s -> ranges_disjoint s r.
Proof. unfold ranges_disjoint. tauto. Qed.

Lemma pairwise_disjoint_perm l l' : l ≡ₚ l' -> pairwise_disjoint l -> pairwise_disjoint l'.
Proof.
  induction 1 as [|r l l' Hp IH|r s l|]; cbn; [done| | |tauto].
  - intros [Hr Hl]. split; [by rewrite <- Hp|tauto].
  - rewrite !Forall_cons. intros ((Hrs & Hr) & Hs & Hl). split_and!; auto using ranges_disjoint_sym.
Qed.

Lemma bytes_perm l l' : l ≡ₚ l' -> bytes l = bytes l'.
Proof. unfold bytes. induction 1; simpl in *; lia. Qed.

Lemma tiles_app m l r : tiles m l -> tiles (r :: m) (r :: l).
Proof.
  induction 1 as [|l l' Hp _ IH|a n k l Hn Hk _ IH]; [constructor| |].
  - eapply tiles_perm; [|exact IH]. by rewrite Hp.
  - apply (tiles_perm _ ((a, n) :: (a + n, k) :: r :: l)); [solve_perm|].
    apply tiles_split; [done|done|]. eapply tiles_perm; [|exact IH]. solve_perm.
Qed.

(** A tiling of disjoint regions is disjoint, lies in the regions and has all their bytes. *)
Lemma tiles_spec m l :
  pairwise_disjoint m -> Forall (fun r => 0 < r.2) m -> tiles m l ->
  pairwise_disjoint l /\ (forall r, r ∈ l -> 0 <= r.2 /\ exists s, s ∈ m /\ within r s) /\ bytes l = bytes m.
Proof.
  intros Hm Hpos. induction 1 as [|l l' Hp _ (IH1 & IH2 & IH3)|a n k l Hn Hk _ (IH1 & IH2 & IH3)].
  - split; [done|]. split; [|done]. rewrite Forall_forall in Hpos.
    intros r Hr. split; [apply Z.lt_le_incl; by apply Hpos|]. exists r. unfold within. split; [done|lia].
  - split; [by eapply pairwise_disjoint_perm|]. split; [|by rewrite <- (bytes_perm _ _ Hp)].
    intros r Hr. apply IH2. by rewrite Hp.
  - cbn in IH1. destruct IH1 as [Ha Hl]. rewrite Forall_forall in Ha. split; [|split].
    + cbn. rewrite Forall_cons, !Forall_forall. unfold ranges_disjoint in *; cbn in *.
      split_and!; [lia| | |done]; intros r Hr; specialize (Ha r Hr); lia.
    + intros r Hr. destruct (IH2 (a, n + k)) as (_ & s & Hs & Hw); [left|]. unfold within in Hw; cbn in Hw.
      rewrite !elem_of_cons in Hr. destruct Hr as [->|[->|Hr]]; [| |apply IH2; by right].
      all: split; [cbn; lia|]; exists s; unfold within; cbn; split; [done|lia].
    + revert IH3. unfold bytes. cbn. lia.
Qed.

(** ** Sizes of classes *)

Lemma global_size_pow i : 0 <= i -> global_size i = 2 ^ (5 + i).
Proof.
  intros Hi. unfold global_size, POOL_MIN, POOL_MIN_BITS. rewrite Z.shiftl_1_l, Z.shiftl_mul_pow2 by lia.
  by rewrite Z.pow_add_r.
Qed.

Lemma POOL_SIZE_global i : 0 <= i < POOL_COUNT -> POOL_SIZE i = global_size i.
Proof.
  intros Hi. rewrite global_size_pow by lia. unfold POOL_SIZE, shl64, POOL_MIN_BITS. rewrite Z.shiftl_1_l.
  apply u64_id. unfold is_u64. change POOL_COUNT with 16 in Hi.
  split; [apply Z.pow_nonneg; lia|]. apply Z.pow_lt_mono_r; lia.
Qed.

Lemma global_size_pos i : 0 <= i -> 0 < global_size i.
Proof. intros Hi. rewrite global_size_pow by done. apply Z.pow_pos_nonneg; lia. Qed.

(** Every class is large, and a multiple of 1024, or small, and a divisor of it. *)
Lemma global_size_align i :
  0 <= i -> if global_size i <? POOL_ALIGN then (global_size i | POOL_ALIGN) else (POOL_ALIGN | global_size i).
Proof.
  intros Hi. rewrite global_size_pow by done. change POOL_ALIGN with (2 ^ 10).
  destruct (Z.ltb_spec (2 ^ (5 + i)) (2 ^ 10)) as [H|H].
  - apply Z.pow_lt_mono_r_iff in H; [|lia|lia]. exists (2 ^ (5 - i)). rewrite <- Z.pow_add_r by lia. f_equal. lia.
  - apply Z.pow_le_mono_r_iff in H; [|lia|lia]. exists (2 ^ (i - 5)). rewrite <- Z.pow_add_r by lia. f_equal. lia.
Qed.

Lemma global_count_pos i : 0 <= i < POOL_COUNT -> 0 < global_count i.
Proof.
  change POOL_COUNT with 16. intros Hi. unfold global_count. rewrite global_size_pow by lia.
  change POOL_MAX with (2 ^ 20). apply Z.div_str_pos. split; [apply Z.pow_pos_nonneg; lia|].
  apply Z.pow_le_mono_r; lia.
Qed.

Lemma global_count_small i : 0 <= i -> global_count i < 2 ^ 64 - 1.
Proof.
  intros Hi. unfold global_count. change POOL_MAX with (2 ^ 20).
  assert (2 ^ 20 / global_size i <= 2 ^ 20) by (apply Z.div_le_upper_bound; [by apply global_size_pos|];
    pose proof (global_size_pos i Hi); nia). lia.
Qed.

(** ** The invariant

    The blocks of pages may be empty: see [lost_by] below. *)

Definition item_ranges (i : Z) (l : list Z) : list range := (fun p => (p, global_size i)) <$> l.

Definition segment_ranges (th : pool_local_t) : list range :=
  if start th <? end_ th then [(start th, end_ th - start th)] else [].

Definition local_ranges (i : nat) (th : pool_local_t) : list range :=
  item_ranges (Z.of_nat i) (pool th) ++ segment_ranges th.

Definition central_ranges (i : nat) (l : list pool_central_t) : list range :=
  concat ((fun c => item_ranges (Z.of_nat i) (items c)) <$> l).

Definition block_ranges (l : list pool_block_t) : list range := (fun b => (addr b, size b)) <$> l.

Definition locals_ranges (l : list pool_local_t) : list range := concat (imap local_ranges l).

(** The free memory that a thread, and that all threads hold. *)
Definition thread_ranges (t : thread_t) : list range :=
  locals_ranges (pool_local t) ++ block_ranges (head (pool_block_header t)).

Definition shared_ranges (sh : shared_t) : list range :=
  concat (imap central_ranges (pool_global sh)) ++ block_ranges (pool_block_global sh).

(** Large items are aligned on 1024 bytes, small ones on their size. *)
Definition item_ok (i p : Z) : Prop := (Z.min (global_size i) POOL_ALIGN | p).

Record local_ok (i : Z) (th : pool_local_t) : Prop := {
  lo_length : length th = Z.of_nat (List.length (pool th));
  lo_count : length th <= global_count i;
  lo_items : Forall (item_ok i) (pool th);
  lo_segment : start th < end_ th ->
    global_size i < POOL_ALIGN /\ (global_size i | start th) /\ (global_size i | end_ th) /\
    end_ th - start th <= POOL_ALIGN
}.

Definition central_ok (i : Z) (c : pool_central_t) : Prop :=
  central_length c = Z.of_nat (List.length (items c)) /\ 0 < central_length c <= global_count i /\
  Forall (item_ok i) (items c).

Definition block_ok (b : pool_block_t) : Prop := (POOL_ALIGN | addr b) /\ (POOL_ALIGN | size b) /\ 0 <= size b.

Definition sorted (l : list pool_block_t) : Prop := StronglySorted (fun a b => size a <= size b) l.

Definition blocks_ok (l : list pool_block_t) : Prop := sorted l /\ Forall block_ok l.

Definition largest (l : list pool_block_t) : Z := default 0 (size <$> last l).

Record header_ok (h : pool_block_header_t) : Prop := {
  ho_blocks : blocks_ok (head h);
  ho_total : total_size h = u64 (bytes (block_ranges (head h)));
  ho_largest : largest_size h = largest (head h)
}.

Definition locals_ok (l : list pool_local_t) : Prop :=
  List.length l = Z.to_nat POOL_COUNT /\ forall i th, l !! i = Some th -> local_ok (Z.of_nat i) th.

Record thread_ok (t : thread_t) : Prop := {
  th_local : locals_ok (pool_local t);
  th_header : header_ok (pool_block_header t)
}.

Definition mapped_ok (m : list range) : Prop :=
  pairwise_disjoint m /\
  Forall (fun r => 0 < r.1 /\ 0 < r.2 /\ r.1 + r.2 <= 2 ^ 48 /\ (POOL_ALIGN | r.1)) m.

Record shared_ok (sh : shared_t) : Prop := {
  sh_length : List.length (pool_global sh) = Z.to_nat POOL_COUNT;
  sh_central i l : pool_global sh !! i = Some l -> Forall (central_ok (Z.of_nat i)) l;
  sh_blocks : blocks_ok (pool_block_global sh);
  sh_mapped : mapped_ok (mapped sh)
}.

(** The state of the pool as one thread sees it: [rest] is the memory that is allocated, or
    that other threads hold. *)
Record pool_ok (sh : shared_t) (t : thread_t) (rest : list range) : Prop := {
  po_shared : shared_ok sh;
  po_thread : thread_ok t;
  po_tiles : tiles (mapped sh) (shared_ranges sh ++ thread_ranges t ++ rest)
}.

Lemma mapped_tiles m l :
  mapped_ok m -> tiles m l ->
  pairwise_disjoint l /\ (forall r, r ∈ l -> 0 <= r.2 /\ exists s, s ∈ m /\ within r s) /\ bytes l = bytes m.
Proof.
  intros [Hm1 Hm2]. apply tiles_spec; [done|]. eapply Forall_impl; [exact Hm2|]. cbn. tauto.
Qed.

(** ** Updates of one class *)

Lemma imap_update {A} (f : nat -> A -> list range) (l : list A) i x :
  l !! i = Some x ->
  exists others, concat (imap f l) ≡ₚ f i x ++ others /\
    forall y, concat (imap f (<[i := y]> l)) ≡ₚ f i y ++ others.
Proof.
  revert f i. induction l as [|z l IH]; intros f i; [done|]. rewrite imap_cons, concat_cons.
  destruct i as [|i]; intros Hi.
  - injection Hi as ->. by eexists.
  - destruct (IH (f ∘ S) i Hi) as (others & H1 & H2). exists (f O z ++ others).
    change ((f ∘ S) i) with (f (S i)) in *. split.
    + solve_perm.
    + intros y. change (<[S i := y]> (z :: l)) with (z :: <[i := y]> l). rewrite imap_cons, concat_cons.
      specialize (H2 y). solve_perm.
Qed.

Lemma locals_update l i th :
  l !! i = Some th ->
  exists others, locals_ranges l ≡ₚ local_ranges i th ++ others /\
    forall th', locals_ranges (<[i := th']> l) ≡ₚ local_ranges i th' ++ others.
Proof. apply imap_update. Qed.

Lemma locals_ok_update l i th : locals_ok l -> local_ok (Z.of_nat i) th -> locals_ok (<[i := th]> l).
Proof.
  intros [Hl Hall] Hth. split; [by rewrite length_insert|]. intros j th' Hj.
  apply list_lookup_insert_Some in Hj as [(-> & <- & _)|[_ Hj]]; [done|by apply Hall].
Qed.

Lemma locals_ok_lookup l i : locals_ok l -> 0 <= i < POOL_COUNT ->
  exists th, l !! Z.to_nat i = Some th /\ local_ok i th.
Proof.
  intros [Hl Hall] Hi. destruct (lookup_lt_is_Some_2 l (Z.to_nat i)) as [th Hth].
  { rewrite Hl. apply Z2Nat.inj_lt; lia. }
  exists th. split; [done|]. specialize (Hall _ _ Hth). by rewrite Z2Nat.id in Hall by lia.
Qed.

(** ** Refinement of free memory

    [refines l l']: where the ranges [l] tile some memory with others, so do [l']. *)
Definition refines (l l' : list range) : Prop := forall m others, tiles m (l ++ others) -> tiles m (l' ++ others).

Lemma refines_perm l l' : l ≡ₚ l' -> refines l l'.
Proof. intros Hp m X H. eapply tiles_perm; [|exact H]. by rewrite Hp. Qed.

Lemma refines_trans l1 l2 l3 : refines l1 l2 -> refines l2 l3 -> refines l1 l3.
Proof. intros H1 H2 m X H. by apply H2, H1. Qed.

Lemma refines_frame l l' r : refines l l' -> refines (l ++ r) (l' ++ r).
Proof. intros H m X. rewrite <- !(assoc_L (++)). apply H. Qed.

Lemma refines_split a n k : 0 <= n -> 0 < k -> refines [(a, n + k)] [(a, n); (a + n, k)].
Proof. intros Hn Hk m X. by apply tiles_split. Qed.

(** A refinement of a part, with the rest in any order. *)
Lemma refines_part l l' k k' r : refines k k' -> l ≡ₚ k ++ r -> k' ++ r ≡ₚ l' -> refines l l'.
Proof.
  intros H Hl Hl'. eapply refines_trans; [by apply refines_perm|].
  eapply refines_trans; [by apply refines_frame|]. by apply refines_perm.
Qed.

(** ** Lists of blocks *)

Lemma block_insert_perm b l : pool_block_insert b l ≡ₚ b :: l.
Proof.
  induction l as [|c l IH]; cbn; [done|]. destruct (_ <=? _); [done|]. rewrite IH. constructor.
Qed.

Lemma block_insert_sorted b l : sorted l -> sorted (pool_block_insert b l).
Proof.
  unfold sorted. induction 1 as [|c l Hl IH Hc]; cbn; [by repeat constructor|].
  destruct (Z.leb_spec (size b) (size c)) as [H|H].
  - constructor; [by constructor|]. constructor; [done|]. eapply Forall_impl; [exact Hc|]. cbn. intros; lia.
  - constructor; [done|]. rewrite block_insert_perm. constructor; [lia|done].
Qed.

Lemma blocks_ok_insert b l : blocks_ok l -> block_ok b -> blocks_ok (pool_block_insert b l).
Proof.
  intros [Hs Hl] Hb. split; [by apply block_insert_sorted|]. rewrite block_insert_perm. by constructor.
Qed.

Lemma largest_app l b k : largest (l ++ b :: k) = largest (b :: k).
Proof. unfold largest. by rewrite last_app_cons. Qed.

Lemma largest_snoc l b : largest (l ++ [b]) = size b.
Proof. unfold largest. by rewrite last_snoc. Qed.

Lemma largest_le l b : sorted l -> b ∈ l -> size b <= largest l.
Proof.
  unfold sorted. induction l as [|c l IH] using rev_ind; [by intros _ Hb%elem_of_nil|].
  intros Hs Hb. rewrite largest_snoc. apply elem_of_app in Hb as [Hb|Hb%list_elem_of_singleton]; [|by subst; lia].
  apply (StronglySorted_app_1_elem_of _ _ _ _ _ Hs); [done|left].
Qed.

Lemma largest_insert b l :
  sorted l -> 0 <= size b -> largest (pool_block_insert b l) = if largest l <? size b then size b else largest l.
Proof.
  intros Hs Hb. induction l as [|c l IH]; [cbn; by destruct (Z.ltb_spec 0 (size b)); [|lia]|].
  cbn [pool_block_insert]. pose proof (largest_le _ c Hs ltac:(left)) as Hc.
  destruct (Z.leb_spec (size b) (size c)) as [H|H].
  - change (b :: c :: l) with ([b] ++ c :: l). rewrite largest_app.
    destruct (Z.ltb_spec (largest (c :: l)) (size b)); [lia|done].
  - inversion_clear Hs. destruct l as [|d l]; [cbn; by destruct (Z.ltb_spec (size c) (size b)); [|lia]|].
    change (c :: pool_block_insert b (d :: l)) with ([c] ++ pool_block_insert b (d :: l)).
    change (c :: d :: l) with ([c] ++ d :: l). rewrite largest_app, <- IH by done.
    destruct (pool_block_insert b (d :: l)) as [|e k] eqn:E;
      [by apply (f_equal List.length) in E; rewrite block_insert_perm in E|].
    by rewrite largest_app.
Qed.

Lemma block_ranges_insert b l : block_ranges (pool_block_insert b l) ≡ₚ (addr b, size b) :: block_ranges l.
Proof. unfold block_ranges. by rewrite block_insert_perm. Qed.

Lemma u64_add x y : u64 x ⊞ y = u64 (x + y).
Proof. unfold add64, u64, wrap. by rewrite Zplus_mod_idemp_l. Qed.

Lemma u64_sub x y : u64 x ⊟ y = u64 (x - y).
Proof. unfold sub64, u64, wrap. by rewrite Zminus_mod_idemp_l. Qed.

(** [insert_block] keeps the header. *)
Lemma insert_block_spec h b :
  header_ok h -> block_ok b ->
  header_ok (insert_block h b) /\
  block_ranges (head (insert_block h b)) ≡ₚ (addr b, size b) :: block_ranges (head h).
Proof.
  intros [Hb Ht Hl] Hok. split; [|apply block_ranges_insert]. destruct Hok as (Ha & Hm & Hpos).
  constructor; cbn [insert_block head total_size largest_size].
  - by apply blocks_ok_insert.
  - rewrite Ht, u64_add, (bytes_perm _ _ (block_ranges_insert _ _)). cbn. f_equal. unfold bytes. lia.
  - rewrite Hl. symmetry. apply largest_insert; [apply Hb|done].
Qed.

Lemma pull_loop_spec n l :
  blocks_ok l ->
  match pull_loop n l with
  | Some (b, rest) => l ≡ₚ b :: rest /\ blocks_ok rest /\ block_ok b /\ n <= size b
  | None => True
  end.
Proof.
  intros [Hs Hl]. induction l as [|c l IH]; cbn; [done|]. inversion_clear Hs as [|? ? Hs' Hc].
  apply Forall_cons in Hl as [Hcok Hl]. destruct (Z.ltb_spec (size c) n) as [H|H].
  - specialize (IH Hs' Hl). destruct (pull_loop n l) as [[b rest]|]; cbn; [|done].
    destruct IH as (Hp & [Hs2 Hl2] & Hb & Hn). rewrite Hp. split; [constructor|]. split; [|done].
    split; [|by constructor]. constructor; [done|]. rewrite Hp in Hc. by apply Forall_cons in Hc as [_ Hc].
  - by split_and!; [|split| |].
Qed.

Lemma blocks_ok_remove l b k : blocks_ok (l ++ b :: k) -> blocks_ok (l ++ k) /\ block_ok b.
Proof.
  intros [Hs Hl]. apply Forall_app in Hl as [Hl1 [Hb Hl2]%Forall_cons]. split; [|done]. split; [|by apply Forall_app].
  apply StronglySorted_app in Hs as (Hlk & H1 & H2). inversion_clear H2.
  apply StronglySorted_app. split_and!; [|done|done]. intros x y Hx Hy. apply Hlk; [done|by right].
Qed.

Lemma blocks_ok_shrink l b b' k :
  blocks_ok (l ++ b :: k) -> block_ok b' -> size b' <= size b -> Forall (fun x => size x <= size b') l ->
  blocks_ok (l ++ b' :: k).
Proof.
  intros Hok Hb' Hle Hl. pose proof (blocks_ok_remove _ _ _ Hok) as [[_ Hf] _].
  destruct Hok as [Hs _]. apply Forall_app in Hf as [Hf1 Hf2].
  split; [|apply Forall_app; split; [done|by constructor]].
  apply StronglySorted_app in Hs as (Hlk & H1 & H2). inversion_clear H2 as [|? ? H3 H4].
  rewrite Forall_forall in Hl, H4. apply StronglySorted_app. split_and!; [|done|].
  - intros x y Hx [->|Hy]%elem_of_cons; [by apply Hl|]. apply Hlk; [done|by right].
  - constructor; [done|]. rewrite Forall_forall. intros x Hx. specialize (H4 x Hx). lia.
Qed.

Lemma block_ranges_app l b k :
  block_ranges (l ++ b :: k) ≡ₚ [(addr b, size b)] ++ block_ranges (l ++ k).
Proof. unfold block_ranges. rewrite !fmap_app. cbn. solve_perm. Qed.

Lemma block_ok_split b n :
  block_ok b -> (POOL_ALIGN | n) -> n < size b ->
  block_ok (mk_block (addr b) (size b - n)) /\ (POOL_ALIGN | addr b + (size b - n)).
Proof.
  intros (Ha & Hs & Hp) Hn Hlt. unfold block_ok. cbn.
  assert (POOL_ALIGN | size b - n) by by apply Z.divide_sub_r. split_and!; auto using Z.divide_add_r. lia.
Qed.

(** The block is cut: its end is allocated and the rest stays in the list [l']. *)
Lemma cut_block b n l l' :
  0 < n < size b -> block_ranges l ≡ₚ [(addr b, size b)] ++ block_ranges l' ->
  refines (block_ranges l) ((addr b + (size b - n), n) :: (addr b, size b - n) :: block_ranges l').
Proof.
  intros Hn Hl.
  apply (refines_part _ _ [(addr b, (size b - n) + n)] [(addr b, size b - n); (addr b + (size b - n), n)]
    (block_ranges l')); [apply refines_split; lia| |].
  - rewrite Hl. by replace (size b - n + n) with (size b) by lia.
  - solve_perm.
Qed.

Lemma bytes_cons r l : bytes (r :: l) = r.2 + bytes l.
Proof. done. Qed.

(** A cut block that stays where it is. *)
Lemma cut_stays h l b k n q :
  blocks_ok (l ++ b :: k) -> total_size h = u64 (bytes (block_ranges (l ++ b :: k))) ->
  largest_size h = largest (l ++ b :: k) -> 0 < n < size b -> (POOL_ALIGN | n) ->
  Forall (fun x => size x <= size b - n) l ->
  q = (if k is [] then size b - n else largest_size h) ->
  header_ok (mk_header (l ++ mk_block (addr b) (size b - n) :: k) (total_size h ⊟ n) q).
Proof.
  intros Hok Ht Hl Hn Hal Hlow ->. destruct (blocks_ok_remove _ _ _ Hok) as [_ Hb].
  destruct (block_ok_split b n Hb Hal) as [Hb' _]; [lia|]. constructor; cbn [head total_size largest_size].
  - apply (blocks_ok_shrink _ b); [done|done|cbn; lia|done].
  - rewrite Ht, !(bytes_perm _ _ (block_ranges_app _ _ _)), u64_sub. cbn. f_equal. unfold bytes. lia.
  - rewrite Hl. destruct k as [|c k]; [by rewrite largest_snoc|].
    change (b :: c :: k) with ([b] ++ c :: k).
    change (mk_block _ _ :: c :: k) with ([mk_block (addr b) (size b - n)] ++ c :: k).
    by rewrite !(assoc_L (++)), !largest_app.
Qed.

(** A cut block that has become smaller than the one before it moves. *)
Lemma cut_moves h l p b k n q :
  blocks_ok ((l ++ [p]) ++ b :: k) -> total_size h = u64 (bytes (block_ranges ((l ++ [p]) ++ b :: k))) ->
  largest_size h = largest ((l ++ [p]) ++ b :: k) -> 0 < n < size b -> (POOL_ALIGN | n) -> size b - n < size p ->
  q = (if k is [] then size p else largest_size h) ->
  header_ok (mk_header (pool_block_insert (mk_block (addr b) (size b - n)) ((l ++ [p]) ++ k)) (total_size h ⊟ n) q).
Proof.
  intros Hok Ht Hl Hn Hal Hlt ->. destruct (blocks_ok_remove _ _ _ Hok) as [Hrest Hb].
  destruct (block_ok_split b n Hb Hal) as [Hb' _]; [lia|]. constructor; cbn [head total_size largest_size].
  - by apply blocks_ok_insert.
  - rewrite (bytes_perm _ _ (block_ranges_insert _ _)), Ht, (bytes_perm _ _ (block_ranges_app _ _ _)), u64_sub.
    cbn. f_equal. unfold bytes. lia.
  - rewrite largest_insert by (apply Hrest || apply Hb'). cbn [size].
    destruct k as [|c k]; [rewrite app_nil_r, largest_snoc; destruct (Z.ltb_spec (size p) (size b - n)); [lia|done]|].
    assert (largest ((l ++ [p]) ++ b :: c :: k) = largest ((l ++ [p]) ++ c :: k)) as E.
    { change (b :: c :: k) with ([b] ++ c :: k). by rewrite (assoc_L (++) _ [b]), !largest_app. }
    rewrite Hl, E. pose proof (largest_le ((l ++ [p]) ++ b :: c :: k) b (proj1 Hok)) as Hle.
    rewrite E in Hle. destruct (Z.ltb_spec (largest ((l ++ [p]) ++ c :: k)) (size b - n)) as [Hc|]; [|done].
    specialize (Hle ltac:(apply elem_of_app; right; left)). lia.
Qed.

(** A block of the right size is removed. *)
Lemma exact_block h l b k q :
  blocks_ok (l ++ b :: k) -> total_size h = u64 (bytes (block_ranges (l ++ b :: k))) ->
  largest_size h = largest (l ++ b :: k) ->
  q = (if k is [] then largest l else largest_size h) ->
  header_ok (mk_header (l ++ k) (total_size h ⊟ size b) q).
Proof.
  intros Hok Ht Hl ->. destruct (blocks_ok_remove _ _ _ Hok) as [Hrest Hb].
  constructor; cbn [head total_size largest_size]; [done| |].
  - rewrite Ht, (bytes_perm _ _ (block_ranges_app _ _ _)), u64_sub. cbn. f_equal. unfold bytes. lia.
  - rewrite Hl. destruct k as [|c k]; [by rewrite app_nil_r|].
    change (b :: c :: k) with ([b] ++ c :: k). by rewrite (assoc_L (++) _ [b]), !largest_app.
Qed.

Lemma get_loop_spec h n prev block :
  let l := rev prev ++ block in
  blocks_ok l -> total_size h = u64 (bytes (block_ranges l)) -> largest_size h = largest l ->
  0 < n <= largest block -> (POOL_ALIGN | n) ->
  exists h' p, block_get_loop h n prev block = Ret (h', p) /\ header_ok h' /\ (POOL_ALIGN | p) /\
    refines (block_ranges l) ((p, n) :: block_ranges (head h')).
Proof.
  revert prev. induction block as [|b next IH]; intros prev l Hok Ht Hl Hn Hal; [cbn in Hn; lia|].
  destruct (blocks_ok_remove _ _ _ Hok) as [Hrest Hb]. pose proof (block_ranges_app (rev prev) b next) as Hp.
  fold l in Hp. cbn [block_get_loop]. destruct (Z.ltb_spec n (size b)) as [H|H].
  - pose proof (cut_block b n l (rev prev ++ next) ltac:(lia) Hp) as Hcut.
    destruct (block_ok_split b n Hb Hal H) as [_ Ha'].
    assert (forall k, k ≡ₚ (addr b, size b - n) :: block_ranges (rev prev ++ next) ->
      refines (block_ranges l) ((addr b + (size b - n), n) :: k)) as Hr.
    { intros k Hk. eapply refines_trans; [exact Hcut|]. apply refines_perm. constructor. by rewrite Hk. }
    destruct prev as [|p prev]; [|destruct (Z.ltb_spec (size b - n) (size p)) as [Hlt|Hge]];
      eexists _, _; (split; [done|]); rewrite ?rev_append_rev; (split; [|split; [done|apply Hr; cbn [head]]]).
    + apply (cut_stays h [] b); try done. lia.
    + apply (block_ranges_app []).
    + apply (cut_moves h (rev prev) p b); try done. lia.
    + apply block_ranges_insert.
    + apply (cut_stays h _ b); try done; [lia|]. rewrite Forall_forall. intros x Hx.
      pose proof (largest_le _ x (StronglySorted_app_1_l _ _ _ (proj1 Hok)) Hx) as Hle.
      cbn [rev] in Hle. rewrite largest_snoc in Hle. lia.
    + apply block_ranges_app.
  - destruct (Z.eqb_spec (size b) n) as [<-|E].
    + eexists _, _. split; [done|]. rewrite rev_append_rev. split_and!; [|by apply Hb|].
      * apply (exact_block _ _ _ _ _ Hok); [done|done|]. destruct next; [|done]. destruct prev as [|p prev]; [done|].
        cbn [rev]. by rewrite largest_snoc.
      * by apply refines_perm.
    + destruct next as [|c next]; [cbn in Hn; lia|].
      assert (rev (b :: prev) ++ c :: next = l) as El by (cbn; by rewrite <- (assoc_L (++))).
      change (b :: c :: next) with ([b] ++ c :: next) in Hn. rewrite largest_app in Hn.
      destruct (IH (b :: prev)) as (h' & p & E' & Hh & Ha & Hr); rewrite ?El; try done.
      exists h', p. split; [done|]. by rewrite El in Hr.
Qed.

(** ** Pages *)

Section allocation.
Context `{Mmap}.

(** The program gets a result, or it ends because there is no memory left. *)
Definition or_oom {A} (o : outcome A) (P : A -> Prop) : Prop :=
  match o with Ret a => P a | Exit => True | Abort | NoFuel => False end.

Lemma or_oom_bind {A B} (o : outcome A) (f : A -> outcome B) P Q :
  or_oom o P -> (forall a, P a -> or_oom (f a) Q) -> or_oom (o ≫= f) Q.
Proof. destruct o; cbn; auto. Qed.

Lemma or_oom_mono {A} (o : outcome A) (P Q : A -> Prop) : or_oom o P -> (forall a, P a -> Q a) -> or_oom o Q.
Proof. destruct o; cbn; auto. Qed.

(** The invariant without the free lists of the thread. *)
Record pages_ok (sh : shared_t) (h : pool_block_header_t) (rest : list range) : Prop := {
  pg_shared : shared_ok sh;
  pg_header : header_ok h;
  pg_tiles : tiles (mapped sh) (shared_ranges sh ++ block_ranges (head h) ++ rest)
}.

Lemma pages_ok_refines sh h h' rest l :
  pages_ok sh h rest -> header_ok h' -> refines (block_ranges (head h)) (l ++ block_ranges (head h')) ->
  pages_ok sh h' (l ++ rest).
Proof.
  intros [Hs Hh Ht] Hh' Hr. constructor; [done|done|]. specialize (Hr (mapped sh) (shared_ranges sh ++ rest)).
  eapply tiles_perm; [|apply Hr; eapply tiles_perm; [|exact Ht]]; solve_perm.
Qed.

(** A range of memory that is not in use joins the blocks of the thread. *)
Lemma pages_ok_insert sh h b rest :
  pages_ok sh h ((addr b, size b) :: rest) -> block_ok b -> pages_ok sh (insert_block h b) rest.
Proof.
  intros [Hs Hh Ht] Hb. destruct (insert_block_spec h b Hh Hb) as [Hh' Hp]. constructor; [done|done|].
  eapply tiles_perm; [|exact Ht]. solve_perm.
Qed.

Lemma pages_ok_split sh h a n k rest :
  pages_ok sh h ((a, n + k) :: rest) -> 0 <= n -> 0 < k -> pages_ok sh h ((a, n) :: (a + n, k) :: rest).
Proof.
  intros [Hs Hh Ht] Hn Hk. constructor; [done|done|].
  eapply tiles_perm; [|apply (tiles_split _ a n k (shared_ranges sh ++ block_ranges (head h) ++ rest)); [done|done|]].
  - solve_perm.
  - eapply tiles_perm; [|exact Ht]. solve_perm.
Qed.

(** The end of a block that the thread gets is allocated; the rest, if any, is kept. *)
Lemma pages_ok_cut sh h b n rest :
  pages_ok sh h ((addr b, size b) :: rest) -> block_ok b -> (POOL_ALIGN | n) -> 0 < n < size b ->
  pages_ok sh (insert_block h (mk_block (addr b) (size b - n))) ((addr b + (size b - n), n) :: rest) /\
  (POOL_ALIGN | addr b + (size b - n)).
Proof.
  intros Hok Hb Hal Hn. destruct (block_ok_split b n Hb Hal) as [Hb' Ha]; [lia|]. split; [|done].
  apply pages_ok_insert; [|done]. apply pages_ok_split; [|cbn; lia|cbn; lia]. cbn.
  by replace (size b - n + n) with (size b) by lia.
Qed.

Lemma virt_alloc_spec sh h n rest :
  pages_ok sh h rest -> 0 < n ->
  or_oom (ponyint_virt_alloc sh n) (fun '(sh', a) => pages_ok sh' h ((a, n) :: rest) /\ (POOL_ALIGN | a)).
Proof.
  intros [Hs Hh Ht] Hn. unfold ponyint_virt_alloc. destruct (virt_alloc (mapped sh) n) as [a|] eqn:E; cbn; [|done].
  destruct (virt_alloc_law _ _ _ E Hn) as (Ha & Hb & Hd & Hf). split; [|done].
  destruct Hs as [Hl Hc Hg [Hm1 Hm2]]. constructor; [|done|].
  - constructor; try done. split; cbn; [done|]. constructor; [|done]. by split_and!.
  - cbn [mapped]. eapply tiles_perm; [|by apply tiles_app]. unfold shared_ranges. cbn [pool_global pool_block_global].
    solve_perm.
Qed.

Lemma pool_block_get_spec sh h n rest :
  pages_ok sh h rest -> (POOL_ALIGN | n) -> 0 < n ->
  exists sh' h' p, pool_block_get sh h n = Ret (sh', h', p) /\
    match p with
    | Some p => pages_ok sh' h' ((p, n) :: rest) /\ (POOL_ALIGN | p)
    | None => sh' = sh /\ h' = h
    end.
Proof.
  intros Hok Hal Hn. unfold pool_block_get. destruct (pg_header _ _ _ Hok) as [Hb Ht Hl].
  destruct (Z.leb_spec n (largest_size h)) as [Hle|Hlt].
  - destruct (get_loop_spec h n [] (head h)) as (h' & p & -> & Hh' & Hp & Hr); try done; [lia|]. cbn [rev app] in Hr.
    exists sh, h', (Some p). split; [done|]. split; [|done]. exact (pages_ok_refines _ _ _ _ [(p, n)] Hok Hh' Hr).
  - unfold pool_block_pull. destruct Hok as [Hs Hh Htile]. pose proof (pull_loop_spec n _ (sh_blocks _ Hs)) as Hpull.
    destruct (pull_loop n (pool_block_global sh)) as [[b g]|]; [|by eexists _, _, None].
    destruct Hpull as (Hp & Hg & Hb' & Hnb). set (sh' := mk_shared _ g _).
    assert (pages_ok sh' h ((addr b, size b) :: rest)) as Hok'.
    { constructor; [by destruct Hs; constructor|done|]. eapply tiles_perm; [|exact Htile].
      unfold shared_ranges, sh'. cbn [pool_global pool_block_global mapped].
      assert (block_ranges (pool_block_global sh) ≡ₚ (addr b, size b) :: block_ranges g) by (unfold block_ranges;
        by rewrite Hp).
      clear Hp. solve_perm. }
    destruct (Z.eqb_spec n (size b)) as [E|E].
    + eexists _, _, (Some _). split; [done|]. split; [by rewrite E|apply Hb'].
    + eexists _, _, (Some _). split; [done|]. apply pages_ok_cut; [done|done|done|lia].
Qed.

Lemma alloc_pages_spec sh h n rest :
  pages_ok sh h rest -> (POOL_ALIGN | n) -> 0 < n ->
  or_oom (pool_alloc_pages sh h n) (fun '(sh', h', p) => pages_ok sh' h' ((p, n) :: rest) /\ (POOL_ALIGN | p)).
Proof.
  intros Hok Hal Hn. unfold pool_alloc_pages.
  destruct (pool_block_get_spec sh h n rest Hok Hal Hn) as (sh' & h' & p & -> & Hp). cbn [mbind outcome_bind].
  destruct p as [p|]; [done|]. destruct Hp as [-> ->]. destruct (Z.leb_spec POOL_MMAP n) as [Hle|Hlt].
  - eapply or_oom_bind; [by apply (virt_alloc_spec sh h n rest)|]. by intros [sh1 a].
  - eapply or_oom_bind; [by apply (virt_alloc_spec sh h POOL_MMAP rest)|]. intros [sh1 a] [Hok1 Ha].
    assert (POOL_ALIGN | POOL_MMAP) by (by exists (2 ^ 17)).
    apply (pages_ok_cut sh1 h (mk_block a POOL_MMAP)); [done| |done|cbn; lia].
    by split_and!.
Qed.

(** ** Free lists *)

(** The invariant, with the attention on one class of the thread. *)
Record slot_ok (sh : shared_t) (i : Z) (th : pool_local_t) (others : list range) : Prop := {
  sl_shared : shared_ok sh;
  sl_local : local_ok i th;
  sl_tiles : tiles (mapped sh) (shared_ranges sh ++ local_ranges (Z.to_nat i) th ++ others)
}.

Lemma pool_ok_slot sh t i th rest :
  pool_ok sh t rest -> pool_local t !! Z.to_nat i = Some th -> 0 <= i ->
  exists others, slot_ok sh i th (others ++ rest) /\
    forall sh' th' rest', slot_ok sh' i th' (others ++ rest') -> pool_ok sh' (set_local t i th') rest'.
Proof.
  intros [Hs [Hl Hh] Ht] Hth Hi. destruct (locals_update _ _ _ Hth) as (others & H1 & H2).
  exists (others ++ block_ranges (head (pool_block_header t))). split.
  - constructor; [done| |].
    + rewrite <- (Z2Nat.id i) by done. by apply Hl.
    + eapply tiles_perm; [|exact Ht]. unfold thread_ranges. solve_perm.
  - intros sh' th' rest' [Hs' Hl' Ht']. constructor; [done| |].
    + constructor; [|done]. apply locals_ok_update; [done|]. by rewrite Z2Nat.id.
    + eapply tiles_perm; [|exact Ht']. unfold thread_ranges, set_local. cbn [pool_local pool_block_header].
      specialize (H2 th'). solve_perm.
Qed.

Lemma item_ranges_cons i p l : item_ranges i (p :: l) = (p, global_size i) :: item_ranges i l.
Proof. done. Qed.

Lemma item_ranges_nil i : item_ranges i [] = [].
Proof. done. Qed.

Lemma segment_ranges_eq l n th : segment_ranges (mk_local l n (start th) (end_ th)) = segment_ranges th.
Proof. done. Qed.

(** The items of one class, among the ranges of a class. *)
Lemma local_ranges_items i th : 0 <= i -> local_ranges (Z.to_nat i) th = item_ranges i (pool th) ++ segment_ranges th.
Proof. intros Hi. unfold local_ranges. by rewrite Z2Nat.id. Qed.

Lemma slot_ok_update sh i th sh' th' X Y :
  slot_ok sh i th X -> 0 <= i -> shared_ok sh' -> local_ok i th' -> mapped sh' = mapped sh ->
  shared_ranges sh' ++ item_ranges i (pool th') ++ segment_ranges th' ++ Y ≡ₚ
  shared_ranges sh ++ item_ranges i (pool th) ++ segment_ranges th ++ X ->
  slot_ok sh' i th' Y.
Proof.
  intros [Hs Hl Ht] Hi Hs' Hl' Hm Hp. constructor; [done|done|]. rewrite Hm. eapply tiles_perm; [|exact Ht].
  rewrite !local_ranges_items by done. rewrite <- !(assoc_L (++)). by symmetry.
Qed.

Lemma central_lookup sh i : shared_ok sh -> 0 <= i < POOL_COUNT ->
  exists l, pool_global sh !! Z.to_nat i = Some l /\ Forall (central_ok i) l.
Proof.
  intros Hs Hi. destruct (lookup_lt_is_Some_2 (pool_global sh) (Z.to_nat i)) as [l Hl].
  { rewrite (sh_length _ Hs). apply Z2Nat.inj_lt; lia. }
  exists l. split; [done|]. pose proof (sh_central _ Hs _ _ Hl) as Hc. by rewrite Z2Nat.id in Hc by lia.
Qed.

Lemma shared_ok_central sh i l :
  shared_ok sh -> 0 <= i -> Forall (central_ok i) l ->
  shared_ok (mk_shared (<[Z.to_nat i := l]> (pool_global sh)) (pool_block_global sh) (mapped sh)).
Proof.
  intros [Hl Hc Hb Hm] Hi Hf. constructor; try done; cbn.
  - by rewrite length_insert.
  - intros j k Hj. apply list_lookup_insert_Some in Hj as [(<- & <- & _)|[_ Hj]]; [by rewrite Z2Nat.id|by eapply Hc].
Qed.

Lemma shared_ranges_central sh i l :
  pool_global sh !! Z.to_nat i = Some l -> 0 <= i ->
  exists others, shared_ranges sh ≡ₚ concat ((fun c => item_ranges i (items c)) <$> l) ++ others /\
    forall l', shared_ranges (mk_shared (<[Z.to_nat i := l']> (pool_global sh)) (pool_block_global sh) (mapped sh)) ≡ₚ
      concat ((fun c => item_ranges i (items c)) <$> l') ++ others.
Proof.
  intros Hl Hi. destruct (imap_update central_ranges _ _ _ Hl) as (others & H1 & H2).
  exists (others ++ block_ranges (pool_block_global sh)). unfold shared_ranges. cbn [pool_global pool_block_global].
  unfold central_ranges in *. rewrite Z2Nat.id in H1 by done. split; [solve_perm|].
  intros l'. specialize (H2 l'). rewrite Z2Nat.id in H2 by done. solve_perm.
Qed.

Lemma pool_push_spec sh i th X :
  slot_ok sh i th X -> 0 <= i < POOL_COUNT -> 0 < length th ->
  exists sh', pool_push sh th i = Ret (sh', mk_local [] 0 (start th) (end_ th)) /\
    slot_ok sh' i (mk_local [] 0 (start th) (end_ th)) X.
Proof.
  intros Hok Hi Hpos. destruct Hok as [Hs Hl Ht] eqn:E. clear E. unfold pool_push.
  destruct (central_lookup sh i Hs Hi) as (l & El & Hc). rewrite El.
  destruct Hl as [Hlen Hcount Hitems Hseg]. rewrite (proj2 (Z.ltb_lt 0 _)), (proj2 (Z.leb_le _ _)) by done.
  eexists. split; [done|]. destruct (shared_ranges_central sh i l El) as (others & H1 & H2); [lia|].
  apply (slot_ok_update sh i th _ _ X X Hok); [lia| | |done|].
  - apply shared_ok_central; [done|lia|]. constructor; [|done]. by split_and!.
  - constructor; cbn; [done| |constructor|done]. lia.
  - specialize (H2 (mk_central (pool th) (length th) :: l)). rewrite fmap_cons, concat_cons in H2.
    rewrite segment_ranges_eq. cbn [items pool] in *. rewrite item_ranges_nil. solve_perm.
Qed.

Lemma pool_pull_spec sh i th X :
  slot_ok sh i th X -> 0 <= i < POOL_COUNT -> pool th = [] ->
  exists sh' th' p, pool_pull sh th i = Ret (sh', th', p) /\
    match p with
    | Some p => slot_ok sh' i th' ((p, global_size i) :: X) /\ item_ok i p
    | None => sh' = sh /\ th' = th
    end.
Proof.
  intros Hok Hi Hemp. destruct Hok as [Hs Hl Ht] eqn:E. clear E. unfold pool_pull.
  destruct (central_lookup sh i Hs Hi) as (l & El & Hc). rewrite El.
  destruct l as [|c l]; [by eexists _, _, None|]. apply Forall_cons in Hc as [(Hlen & Hcnt & Hit) Hc].
  destruct (items c) as [|p next] eqn:Ec; [cbn in Hlen; lia|].
  rewrite (proj2 (Z.ltb_lt 0 _)), (proj2 (Z.leb_le _ _)) by lia. eexists _, _, (Some p). split; [done|].
  apply Forall_cons in Hit as [Hp Hit]. split; [|done].
  destruct (shared_ranges_central sh i _ El) as (others & H1 & H2); [lia|].
  apply (slot_ok_update sh i th _ _ X _ Hok); [lia| | |done|].
  - apply shared_ok_central; [done|lia|done].
  - cbn in Hlen. constructor; cbn; [lia|lia|done|apply Hl].
  - specialize (H2 l). rewrite fmap_cons, concat_cons, Ec, item_ranges_cons in H1.
    rewrite Hemp, segment_ranges_eq, item_ranges_nil. cbn [pool]. solve_perm.
Qed.

Lemma segment_take i th l n :
  0 < global_size i <= end_ th - start th ->
  refines (segment_ranges th)
    ((start th, global_size i) :: segment_ranges (mk_local l n (start th + global_size i) (end_ th))).
Proof.
  intros Hgs. unfold segment_ranges. cbn [start end_]. rewrite (proj2 (Z.ltb_lt _ _)) by lia.
  destruct (Z.ltb_spec (start th + global_size i) (end_ th)).
  - replace (end_ th - start th) with (global_size i + (end_ th - (start th + global_size i))) by lia.
    apply refines_split; lia.
  - replace (end_ th - start th) with (global_size i) by lia. by apply refines_perm.
Qed.

Lemma segment_room i th :
  0 <= i -> local_ok i th -> start th < end_ th ->
  0 < global_size i <= end_ th - start th /\ item_ok i (start th) /\
  forall l n, length th = n -> pool th = l ->
    local_ok i (mk_local l n (start th + global_size i) (end_ th)).
Proof.
  intros Hi [Hlen Hcnt Hit Hseg] Hlt. destruct (Hseg Hlt) as (Hsm & Hs & He & Hle).
  pose proof (global_size_pos i Hi) as Hpos. split_and!.
  - done.
  - apply Z.divide_pos_le; [lia|]. by apply Z.divide_sub_r.
  - unfold item_ok. by rewrite Z.min_l by lia.
  - intros l n <- <-. constructor; cbn; try done. intros _. split_and!; try done; [|lia].
    apply Z.divide_add_r; [done|apply Z.divide_refl].
Qed.

Lemma pool_ok_pages sh t rest :
  pool_ok sh t rest -> pages_ok sh (pool_block_header t) (locals_ranges (pool_local t) ++ rest).
Proof.
  intros [Hs [Hl Hh] Ht]. constructor; [done|done|]. eapply tiles_perm; [|exact Ht]. unfold thread_ranges. solve_perm.
Qed.

Lemma pages_ok_pool sh t h k rest :
  pages_ok sh h (k ++ locals_ranges (pool_local t) ++ rest) -> locals_ok (pool_local t) ->
  pool_ok sh (set_header t h) (k ++ rest).
Proof.
  intros [Hs Hh Ht] Hl. constructor; [done|by constructor|]. eapply tiles_perm; [|exact Ht].
  unfold thread_ranges, set_header. cbn [pool_local pool_block_header]. solve_perm.
Qed.

(** An item of a class is allocated; the other classes of the thread are not touched by the
    allocation of a large class. *)
Definition allocated (t : thread_t) (i : Z) (rest : list range) : shared_t * thread_t * Z -> Prop :=
  fun '(sh', t', p) =>
    pool_ok sh' t' ((p, global_size i) :: rest) /\ item_ok i p /\
    (POOL_ALIGN <= global_size i -> forall j, j <> Z.to_nat i -> pool_local t' !! j = pool_local t !! j).

Lemma get_item sh t i th p next rest :
  pool_ok sh t rest -> pool_local t !! Z.to_nat i = Some th -> 0 <= i -> pool th = p :: next ->
  allocated t i rest (sh, set_local t i (mk_local next (length th ⊟ 1) (start th) (end_ th)), p).
Proof.
  intros Hok Hth Hi Ep. destruct (pool_ok_slot _ _ _ _ _ Hok Hth Hi) as (others & Hslot & Hback).
  destruct (sl_local _ _ _ _ Hslot) as [Hlen Hcnt Hit Hseg]. rewrite Ep in Hlen, Hit.
  apply Forall_cons in Hit as [Hp Hit]. cbn [List.length] in Hlen. split; [|split; [done|]].
  - apply Hback. apply (slot_ok_update sh i th _ _ _ _ Hslot Hi); [apply Hslot| |done|].
    + assert (length th ⊟ 1 = Z.of_nat (List.length next)) as El.
      { unfold sub64. rewrite u64_id; [lia|]. pose proof (global_count_small i Hi). unfold is_u64. lia. }
      constructor; cbn [length pool start end_]; [done|lia|done|done].
    + rewrite Ep, segment_ranges_eq, item_ranges_cons. cbn [pool]. solve_perm.
  - intros _ j Hj. cbn. by rewrite list_lookup_insert_ne.
Qed.

Lemma get_segment sh t i th rest :
  pool_ok sh t rest -> pool_local t !! Z.to_nat i = Some th -> 0 <= i -> pool th = [] -> start th < end_ th ->
  allocated t i rest (sh, set_local t i (mk_local [] (length th) (start th + global_size i) (end_ th)), start th).
Proof.
  intros Hok Hth Hi Ep Hlt. destruct (pool_ok_slot _ _ _ _ _ Hok Hth Hi) as (others & Hslot & Hback).
  pose proof (sl_local _ _ _ _ Hslot) as Hl. destruct (segment_room i th Hi Hl Hlt) as (Hgs & Hp & Hl').
  split; [|split; [done|]].
  - apply Hback. destruct Hslot as [Hs _ Ht]. constructor; [done|by apply Hl'|].
    rewrite local_ranges_items in * by done.
    rewrite Ep, item_ranges_nil in Ht. cbn [pool app] in *. rewrite item_ranges_nil. cbn [app].
    pose proof (segment_take i th [] (length th) Hgs (mapped sh) (shared_ranges sh ++ others ++ rest)) as Hr.
    eapply tiles_perm; [|apply Hr; eapply tiles_perm; [|exact Ht]]; solve_perm.
  - intros _ j Hj. cbn. by rewrite list_lookup_insert_ne.
Qed.

(** A block of 1024 bytes becomes the segment of a small class. *)
Lemma get_new_segment sh t i th mem rest :
  pool_ok sh t ((mem, POOL_ALIGN) :: rest) -> pool_local t !! Z.to_nat i = Some th -> 0 <= i ->
  pool th = [] -> end_ th <= start th -> global_size i < POOL_ALIGN -> (POOL_ALIGN | mem) ->
  pool_ok sh (set_local t i (mk_local (pool th) (length th) (mem + global_size i) (mem + POOL_ALIGN)))
    ((mem, global_size i) :: rest) /\ item_ok i mem.
Proof.
  intros Hok Hth Hi Ep Hemp Hsm Hmem. destruct (pool_ok_slot _ _ _ _ _ Hok Hth Hi) as (others & Hslot & Hback).
  pose proof (global_size_align i Hi) as Hdiv. rewrite (proj2 (Z.ltb_lt _ _) Hsm) in Hdiv.
  set (th0 := mk_local [] 0 mem (mem + POOL_ALIGN)). pose proof (global_size_pos i Hi) as Hpos.
  destruct (segment_room i th0 Hi) as (Hgs & Hp & Hl').
  { constructor; cbn; [done| |constructor|].
    - pose proof (sl_local _ _ _ _ Hslot) as [? ? _ _]. lia.
    - intros _. split_and!; [done| | |lia].
      + by etrans.
      + apply Z.divide_add_r; [by etrans|done]. }
  { cbn. change POOL_ALIGN with 1024. lia. }
  split; [|done]. apply Hback. destruct Hslot as [Hs [Hlen Hcnt Hit _] Ht]. constructor; [done| |].
  - destruct (Hl' [] 0) as [_ _ _ Hseg]; [done|done|]. by constructor.
  - rewrite local_ranges_items in * by done. rewrite Ep, item_ranges_nil in *. cbn [pool app] in *.
    
    pose proof (segment_take i th0 [] (length th) Hgs (mapped sh) (shared_ranges sh ++ others ++ rest)) as Hr.
    unfold th0 at 1, segment_ranges at 1 in Hr. cbn [start end_] in Hr.
    unfold segment_ranges in Ht. rewrite (proj2 (Z.ltb_ge _ _) Hemp) in Ht.
    rewrite (proj2 (Z.ltb_lt _ _)) in Hr by (change POOL_ALIGN with 1024; lia).
    replace (mem + POOL_ALIGN - mem) with POOL_ALIGN in Hr by lia.
    eapply tiles_perm; [|apply Hr; eapply tiles_perm; [|exact Ht]]; cbn [start end_ th0]; solve_perm.
Qed.

Lemma pool_get_spec fuel sh t i rest :
  pool_ok sh t rest -> 0 <= i < POOL_COUNT -> ((if (global_size i <? POOL_ALIGN)%Z then 2 else 1) <= fuel)%nat ->
  or_oom (pool_get fuel sh t i) (allocated t i rest).
Proof.
  revert sh t i rest. induction fuel as [|fuel IH]; intros sh t i rest Hok Hi Hf; [destruct (_ <? _) in Hf; lia|].
  destruct (locals_ok_lookup _ i (th_local _ (po_thread _ _ _ Hok)) Hi) as (th & Hth & Hl).
  cbn [pool_get]. rewrite Hth. destruct (pool th) as [|p next] eqn:Ep; [|apply get_item; (done || lia)].
  destruct (pool_ok_slot _ _ _ _ _ Hok Hth) as (others & Hslot & Hback); [lia|].
  destruct (pool_pull_spec sh i th _ Hslot Hi Ep) as (sh1 & th1 & p & -> & Hp). cbn [mbind outcome_bind].
  destruct p as [p|].
  { destruct Hp as [Hslot1 Hit]. split; [|split; [done|]].
    - apply Hback. apply (slot_ok_update _ _ _ _ _ _ _ Hslot1); [lia|apply Hslot1|apply Hslot1|done|]. solve_perm.
    - intros _ j Hj. cbn. by rewrite list_lookup_insert_ne. }
  destruct Hp as [-> ->]. destruct (Z.ltb_spec (global_size i) POOL_ALIGN) as [Hsm|Hlg].
  - destruct (Z.ltb_spec (start th) (end_ th)) as [Hlt|Hge]; [apply get_segment; (done || lia)|].
    eapply or_oom_bind; [apply (IH sh t POOL_ALIGN_INDEX rest Hok); [done|]|].
    { change (1 <= fuel)%nat. lia. }
    intros [[sh2 t2] mem] (Hok2 & Hmem & Hsame). specialize (Hsame ltac:(done) (Z.to_nat i)).
    rewrite Hsame, Hth by (intros E; apply Z2Nat.inj in E; [subst i; done|lia|done]).
    destruct (get_new_segment sh2 t2 i th mem rest) as [Hok3 Hit]; try done; [|lia|].
    { rewrite Hsame, Hth; [done|]. intros E; apply Z2Nat.inj in E; [subst i; done|lia|done]. }
    split; [done|split; [done|lia]].
  - pose proof (global_size_align i ltac:(lia)) as Hdiv. rewrite (proj2 (Z.ltb_ge _ _) Hlg) in Hdiv.
    eapply or_oom_bind;
      [apply (alloc_pages_spec sh _ _ _ (pool_ok_pages _ _ _ Hok) Hdiv); apply global_size_pos; lia|].
    intros [[sh2 h2] q] [Hpg Hq]. split; [|split].
    + apply (pages_ok_pool sh2 t h2 [_]); [done|apply Hok].
    + unfold item_ok. by rewrite Z.min_r.
    + by intros _ j _.
Qed.

(** A full list goes to the central stack before an item is added. *)
Lemma make_room sh i th X :
  slot_ok sh i th X -> 0 <= i < POOL_COUNT ->
  exists sh' th',
    (if length th =? global_count i then pool_push sh th i else Ret (sh, th)) = Ret (sh', th') /\
    slot_ok sh' i th' X /\ length th' < global_count i /\ start th' = start th /\ end_ th' = end_ th.
Proof.
  intros Hok Hi. pose proof (global_count_pos i Hi). destruct (Z.eqb_spec (length th) (global_count i)) as [E|E].
  - destruct (pool_push_spec sh i th X Hok Hi) as (sh' & -> & Hok'); [lia|]. by eexists _, _.
  - exists sh, th. destruct (sl_local _ _ _ _ Hok). split_and!; try done. lia.
Qed.

Lemma add_item sh i th p X :
  slot_ok sh i th ((p, global_size i) :: X) -> 0 <= i -> item_ok i p -> length th < global_count i ->
  slot_ok sh i (mk_local (p :: pool th) (length th ⊞ 1) (start th) (end_ th)) X.
Proof.
  intros Hok Hi Hp Hlt. destruct (sl_local _ _ _ _ Hok) as [Hlen Hcnt Hit Hseg].
  assert (length th ⊞ 1 = length th + 1) as El.
  { unfold add64. apply u64_id. pose proof (global_count_small i Hi). unfold is_u64. lia. }
  apply (slot_ok_update _ _ _ _ _ _ _ Hok Hi); [apply Hok| |done|].
  - constructor; cbn [pool length start end_ List.length]; [lia|lia|by constructor|done].
  - rewrite segment_ranges_eq. cbn [pool]. rewrite item_ranges_cons. solve_perm.
Qed.

Lemma pool_free_spec sh t i p rest :
  pool_ok sh t ((p, global_size i) :: rest) -> 0 <= i < POOL_COUNT -> item_ok i p ->
  exists sh' t', ponyint_pool_free sh t i p = Ret (sh', t') /\ pool_ok sh' t' rest.
Proof.
  intros Hok Hi Hp. destruct (locals_ok_lookup _ i (th_local _ (po_thread _ _ _ Hok)) Hi) as (th & Hth & Hl).
  unfold ponyint_pool_free. rewrite (proj2 (Z.ltb_lt _ _)), Hth by lia. cbn [negb].
  destruct (pool_ok_slot _ _ _ _ _ Hok Hth) as (others & Hslot & Hback); [lia|].
  destruct (make_room sh i th _ Hslot Hi) as (sh1 & th1 & -> & Hok1 & Hlt & Es & Ee). cbn [mbind outcome_bind].
  rewrite (proj2 (Z.ltb_lt _ _)) by done. cbn [negb]. eexists _, _. split; [done|]. apply Hback.
  apply add_item; [|lia|done|done]. destruct Hok1 as [H1 H2 H3]. constructor; [done|done|].
  eapply tiles_perm; [|exact H3]. solve_perm.
Qed.

(** ** Sizes *)

Lemma land_pred_pow2 n : 0 < n -> Z.land n (n - 1) = 0 <-> n = 2 ^ Z.log2 n.
Proof.
  intros Hn. pose proof (Z.log2_spec n Hn) as [Hlo Hhi]. pose proof (Z.log2_nonneg n) as H0. split.
  - intros Hz. destruct (decide (n = 2 ^ Z.log2 n)) as [|Hne]; [done|exfalso].
    assert (Z.log2 (n - 1) = Z.log2 n) as El by (apply Z.log2_unique; lia).
    apply (f_equal (fun z => Z.testbit z (Z.log2 n))) in Hz. rewrite Z.land_spec, Z.bits_0, Z.bit_log2 in Hz by done.
    rewrite <- El in Hz. rewrite Z.bit_log2 in Hz; [done|]. pose proof (Z.pow_pos_nonneg 2 (Z.log2 n)). lia.
  - intros E. rewrite E at 1 2. rewrite land_ones_mod by done. apply Z.mod_same. lia.
Qed.

(** The class of a size is the smallest one it fits in. *)
Lemma pool_index_spec n :
  0 <= n < 2 ^ 64 ->
  let i := ponyint_pool_index n in
  0 <= i /\ n <= global_size i /\ (0 < i -> global_size (i - 1) < n) /\ (i < POOL_COUNT <-> n <= POOL_MAX).
Proof.
  intros Hn i. unfold i, ponyint_pool_index. change POOL_MIN with 32. change POOL_MAX with (2 ^ 20).
  change POOL_COUNT with 16. destruct (Z.ltb_spec 32 n) as [H32|H32]; [|by change (global_size 0) with 32; lia].
  pose proof (Z.log2_spec n ltac:(lia)) as [Hlo Hhi]. set (k := Z.log2 n) in *.
  assert (5 <= k < 64) as Hk.
  { split; [by apply (Z.log2_le_mono 32); lia|]. apply Z.log2_lt_pow2; lia. }
  pose proof (land_pred_pow2 n ltac:(lia)) as Hp. fold k in Hp.
  assert (n ⊟ 1 = n - 1) as -> by (unfold sub64; apply u64_id; unfold is_u64; lia).
  assert (forall b, 0 <= b <= 1 -> 64 - POOL_MIN_BITS ⊟ clzzu n ⊟ b = k - 4 - b) as E.
  { intros b Hb. unfold clzzu, sub64. fold k. unfold POOL_MIN_BITS.
    rewrite (u64_id (64 - 5 - (63 - k))), u64_id; unfold is_u64; lia. }
  destruct (Z.eqb_spec (Z.land n (n - 1)) 0) as [E0|E0]; cbn [bool_to_u64]; rewrite E by lia.
  - apply Hp in E0. rewrite !global_size_pow by lia. replace (5 + (k - 4 - 1)) with k by lia.
    split_and!; [lia|lia| |].
    + intros Hpos. rewrite global_size_pow, E0 by lia. apply Z.pow_lt_mono_r; lia.
    + rewrite E0 at 1. rewrite <- Z.pow_le_mono_r_iff by lia. lia.
  - assert (n <> 2 ^ k) as Hne by (intros En; by apply Hp in En).
    rewrite !global_size_pow by lia. replace (5 + (k - 4 - 0)) with (Z.succ k) by lia.
    split_and!; [lia|lia| |].
    + intros _. replace (5 + (k - 4 - 0 - 1)) with k by lia. lia.
    + split; intros Hlt.
      * assert (2 ^ Z.succ k <= 2 ^ 20) by (apply Z.pow_le_mono_r; lia). lia.
      * destruct (Z.le_gt_cases 20 k) as [Hge|]; [|lia].
        assert (2 ^ 20 <= 2 ^ k) by (apply Z.pow_le_mono_r; lia). lia.
Qed.

Lemma land_not_mask n : is_u64 n -> Z.land n (not64 POOL_ALIGN_MASK) = n / POOL_ALIGN * POOL_ALIGN.
Proof. intros Hn. by apply (land_not64_ones n 10). Qed.

(** Sizes are rounded up to a multiple of 1024; the only exceptions are 0 and the sizes that
    are too large, for which the result is the largest word. *)
Lemma adjust_size_spec n :
  is_u64 n ->
  if decide (0 < n <= 2 ^ 64 - POOL_ALIGN)
  then (POOL_ALIGN | ponyint_pool_adjust_size n) /\ n <= ponyint_pool_adjust_size n < n + POOL_ALIGN
  else ponyint_pool_adjust_size n = 2 ^ 64 - 1.
Proof.
  intros Hn. unfold ponyint_pool_adjust_size. rewrite land_not_mask by done.
  change POOL_ALIGN_MASK with (2 ^ 10 - 1). rewrite land_ones_mod by lia.
  change POOL_ALIGN with 1024 in *. change (2 ^ 10) with 1024. unfold is_u64 in Hn.
  pose proof (Z.div_mod n 1024 ltac:(lia)) as Hd. pose proof (Z.mod_pos_bound n 1024 ltac:(lia)) as Hm.
  destruct (Z.eqb_spec (n mod 1024) 0) as [E|E]; cbn [negb].
  - destruct (Z.eqb_spec n 0) as [->|H0]; [by destruct (decide _); [lia|]|].
    destruct (decide _) as [H1|H1]; [|lia]. split; [|lia]. exists (n / 1024). lia.
  - unfold add64, u64, wrap. destruct (decide (n <= 2 ^ 64 - 1024)) as [H1|H1].
    + rewrite Z.mod_small by lia. destruct (Z.eqb_spec (n / 1024 * 1024 + 1024) 0); [lia|].
      destruct (decide _); [|lia]. split; [|lia]. exists (n / 1024 + 1). lia.
    + replace (n / 1024 * 1024 + 1024) with (2 ^ 64) by lia. rewrite Z.mod_same by lia. cbn [Z.eqb].
      by destruct (decide _); [lia|].
Qed.

(** ** Sized allocations *)

(** The alignment of an allocation of [n] bytes. *)
Definition aligned (n p : Z) : Prop := (Z.min n POOL_ALIGN | p).

(** Sizes that can be rounded up in a word. *)
Definition size_ok (n : Z) : Prop := 0 <= n <= 2 ^ 64 - POOL_ALIGN.

Lemma used_size_spec n :
  is_u64 n ->
  (ponyint_pool_index n < POOL_COUNT /\ 0 <= ponyint_pool_index n /\
   ponyint_pool_used_size n = global_size (ponyint_pool_index n) /\ n <= ponyint_pool_used_size n) \/
  (POOL_COUNT <= ponyint_pool_index n /\ ponyint_pool_used_size n = ponyint_pool_adjust_size n /\
   if decide (size_ok n)
   then (POOL_ALIGN | ponyint_pool_adjust_size n) /\ 0 < n <= ponyint_pool_adjust_size n
   else ponyint_pool_adjust_size n = 2 ^ 64 - 1).
Proof.
  intros Hn. pose proof (pool_index_spec n Hn) as (H0 & Hle & _ & Hcount). unfold ponyint_pool_used_size.
  destruct (Z.ltb_spec (ponyint_pool_index n) POOL_COUNT) as [Hlt|Hge].
  - left. rewrite POOL_SIZE_global by done. by split_and!.
  - right. split; [done|]. split; [done|]. pose proof (adjust_size_spec n Hn) as Hadj.
    assert (POOL_MAX < n) as Hbig by (destruct (Z.le_gt_cases n POOL_MAX) as [Hs|]; [apply Hcount in Hs; lia|done]).
    change POOL_MAX with (2 ^ 20) in Hbig. unfold size_ok. change POOL_ALIGN with 1024 in *.
    destruct (decide (0 < n <= _)) as [Hc|Hc], (decide (0 <= n <= _)); (lia || done || idtac).
    split; [apply Hadj|]. lia.
Qed.

Definition new_object (n : Z) (rest : list range) : shared_t * thread_t * Z -> Prop :=
  fun '(sh, t, p) => pool_ok sh t ((p, ponyint_pool_used_size n) :: rest) /\
    aligned (ponyint_pool_used_size n) p /\ n <= ponyint_pool_used_size n.

Lemma pool_alloc_spec sh t i rest :
  pool_ok sh t rest -> 0 <= i < POOL_COUNT -> or_oom (ponyint_pool_alloc sh t i) (allocated t i rest).
Proof.
  intros Hok Hi. apply pool_get_spec; [done|done|]. destruct (_ <? _); lia.
Qed.

Lemma pool_alloc_pages_thread sh t n rest :
  pool_ok sh t rest -> (POOL_ALIGN | n) -> 0 < n ->
  or_oom (pool_alloc_size sh t n) (fun '(sh', t', p) => pool_ok sh' t' ((p, n) :: rest) /\ (POOL_ALIGN | p)).
Proof.
  intros Hok Hal Hn. eapply or_oom_bind; [by apply (alloc_pages_spec sh _ n _ (pool_ok_pages _ _ _ Hok))|].
  intros [[sh' h'] p] [Hpg Hp]. split; [|done]. by apply (pages_ok_pool sh' t h' [_]); [|apply Hok].
Qed.

(** A region of [2 ^ 64 - 1] bytes does not exist. *)
Lemma pages_ok_block sh h rest b :
  pages_ok sh h rest -> b ∈ pool_block_global sh \/ b ∈ head h -> size b < 2 ^ 64 - 1.
Proof.
  intros [[_ _ Hg Hm] [Hh _ _] Ht] Hb. destruct (mapped_tiles _ _ Hm Ht) as (_ & Hin & _).
  destruct Hm as [_ Hm2]. rewrite Forall_forall in Hm2.
  destruct (Hin (addr b, size b)) as (_ & r & Hr & Hw).
  { unfold shared_ranges. rewrite !elem_of_app. unfold block_ranges.
    destruct Hb; [left; right|right; left]; apply list_elem_of_fmap; by exists b. }
  destruct (Hm2 r Hr) as (H1 & H2 & H3 & _). unfold within in Hw. cbn in Hw.
  assert (block_ok b) as (_ & [k Hk] & _).
  { destruct Hg as [_ Hg], Hh as [_ Hh]. rewrite Forall_forall in Hg, Hh. destruct Hb; auto. }
  change POOL_ALIGN with 1024 in Hk. lia.
Qed.

Lemma pull_loop_none n l : (forall b, b ∈ l -> size b < n) -> pull_loop n l = None.
Proof.
  induction l as [|b l IH]; [done|]. intros Hl. cbn. rewrite (proj2 (Z.ltb_lt _ _)) by (apply Hl; left).
  rewrite IH; [done|]. intros c Hc. apply Hl. by right.
Qed.

Lemma alloc_pages_huge sh h rest : pages_ok sh h rest -> or_oom (pool_alloc_pages sh h (2 ^ 64 - 1)) (fun _ => False).
Proof.
  intros Hok. unfold pool_alloc_pages, pool_block_get. rewrite (proj2 (Z.leb_gt (2 ^ 64 - 1) (largest_size h))).
  - unfold pool_block_pull. rewrite pull_loop_none by (intros b Hb; eapply pages_ok_block; eauto).
    cbn [mbind outcome_bind].
    change (POOL_MMAP <=? 2 ^ 64 - 1) with true. cbn match. unfold ponyint_virt_alloc.
    destruct (virt_alloc (mapped sh) (2 ^ 64 - 1)) as [a|] eqn:E; [|done].
    destruct (virt_alloc_law _ _ _ E ltac:(lia)) as (Ha & Hb & [k Hk] & _). change POOL_ALIGN with 1024 in Hk. cbn.
    lia.
  - rewrite (ho_largest _ (pg_header _ _ _ Hok)). unfold largest. destruct (last (head h)) as [b|] eqn:E; cbn; [|lia].
    apply (pages_ok_block _ _ _ _ Hok). right. by apply last_Some_elem_of.
Qed.

Lemma alloc_size_spec sh t n rest :
  pool_ok sh t rest -> is_u64 n -> or_oom (ponyint_pool_alloc_size sh t n) (new_object n rest).
Proof.
  intros Hok Hn. unfold ponyint_pool_alloc_size, new_object.
  destruct (used_size_spec n Hn) as [(Hlt & H0 & -> & Hle)|(Hge & -> & Hadj)].
  - rewrite (proj2 (Z.ltb_lt _ _)) by done. eapply or_oom_mono; [by apply pool_alloc_spec|].
    intros [[sh' t'] p] (Hok' & Hp & _). by split_and!.
  - rewrite (proj2 (Z.ltb_ge _ _)) by done. destruct (decide (size_ok n)) as [Hs|Hs].
    + destruct Hadj as [Hal Hpos]. eapply or_oom_mono; [apply pool_alloc_pages_thread; [done|done|lia]|].
      intros [[sh' t'] p] [Hok' Hp]. split_and!; [done| |lia]. unfold aligned. rewrite Z.min_r; [done|].
      apply Z.divide_pos_le; [lia|done].
    + rewrite Hadj. eapply or_oom_bind; [apply (alloc_pages_huge _ _ _ (pool_ok_pages _ _ _ Hok))|done].
Qed.

Lemma free_pages_spec sh t n p rest :
  pool_ok sh t ((p, n) :: rest) -> (POOL_ALIGN | n) -> 0 <= n -> (POOL_ALIGN | p) ->
  pool_ok sh (pool_free_size t n p) rest.
Proof.
  intros Hok Hal Hn Hp. apply (pages_ok_pool sh t _ []); [|apply Hok]. cbn [app].
  apply pages_ok_insert; [|by split_and!]. destruct (pool_ok_pages _ _ _ Hok) as [H1 H2 H3].
  constructor; [done|done|]. eapply tiles_perm; [|exact H3]. cbn [addr size]. solve_perm.
Qed.

Lemma free_size_spec sh t n p rest :
  pool_ok sh t ((p, ponyint_pool_used_size n) :: rest) -> size_ok n -> aligned (ponyint_pool_used_size n) p ->
  exists sh' t', ponyint_pool_free_size sh t n p = Ret (sh', t') /\ pool_ok sh' t' rest.
Proof.
  intros Hok Hn Hp. assert (is_u64 n) as Hu by (unfold is_u64, size_ok in *; change POOL_ALIGN with 1024 in *; lia).
  unfold ponyint_pool_free_size.
  destruct (used_size_spec n Hu) as [(Hlt & H0 & E & _)|(Hge & E & Hadj)]; rewrite E in *.
  - rewrite (proj2 (Z.ltb_lt _ _)) by done. by apply pool_free_spec.
  - rewrite (proj2 (Z.ltb_ge _ _)) by done. destruct (decide (size_ok n)) as [Hs|]; [|done].
    destruct Hadj as [Hal Hpos]. eexists _, _. split; [done|]. apply free_pages_spec; [done|done|lia|].
    unfold aligned in Hp. rewrite Z.min_r in Hp; [done|]. apply Z.divide_pos_le; [lia|done].
Qed.

(** The memory of an object of the program. *)
Definition object (n p : Z) : range := (p, ponyint_pool_used_size n).

(** What a reallocation of [p] loses.  When it goes from blocks of pages to a size class, the
    object is released with the size 0, which is computed on the other branch only: an empty
    block at [p] joins the blocks of the thread and the memory stays allocated for ever. *)
Definition lost_by (old_size new_size p : Z) : list range :=
  if (POOL_COUNT <=? ponyint_pool_index old_size) && (ponyint_pool_index new_size <? POOL_COUNT)
  then [object old_size p] else [].

(** An object of pages that is released with the size 0. *)
Lemma free_nothing_spec sh t n p rest :
  pool_ok sh t (object n p :: rest) -> size_ok n -> POOL_COUNT <= ponyint_pool_index n ->
  aligned (ponyint_pool_used_size n) p -> pool_ok sh (pool_free_size t 0 p) (object n p :: rest).
Proof.
  intros [H1 H2 H3] Hn Hi Hp.
  assert (is_u64 n) as Hu by (unfold is_u64, size_ok in *; change POOL_ALIGN with 1024 in *; lia).
  destruct (used_size_spec n Hu) as [(? & _)|(_ & E & Hadj)]; [lia|]. destruct (decide (size_ok n)); [|done].
  destruct Hadj as [Hal Hpos]. unfold object. rewrite E in *. apply free_pages_spec; [|by exists 0|done|].
  - constructor; [done|done|].
    eapply tiles_perm;
      [|apply (tiles_split _ p 0 (ponyint_pool_adjust_size n) (shared_ranges sh ++ thread_ranges t ++ rest));
      [done|lia|eapply tiles_perm; [|exact H3]]].
    + rewrite Z.add_0_r. solve_perm.
    + rewrite Z.add_0_l. unfold object. rewrite E. solve_perm.
  - unfold aligned in Hp. rewrite Z.min_r in Hp; [done|]. apply Z.divide_pos_le; [lia|done].
Qed.

Lemma pool_ok_perm sh t live live' : live ≡ₚ live' -> pool_ok sh t live -> pool_ok sh t live'.
Proof. intros Hp [H1 H2 H3]. constructor; [done|done|]. eapply tiles_perm; [|exact H3]. by rewrite Hp. Qed.

Lemma realloc_size_spec sh t old new p rest :
  pool_ok sh t (object old p :: rest) -> p <> NULL ->
  aligned (ponyint_pool_used_size old) p -> size_ok old -> is_u64 new ->
  or_oom (ponyint_pool_realloc_size sh t old new p) (fun '(sh', t', q, copied) =>
    new_object new (lost_by old new p ++ rest) (sh', t', q) /\ if copied is Some n then n = Z.min old new else q = p).
Proof.
  intros Hok Hnull Hp Hold Hnew.
  assert (is_u64 old) as Hu by (unfold is_u64, size_ok in *; change POOL_ALIGN with 1024 in *; lia).
  unfold ponyint_pool_realloc_size, lost_by. rewrite (proj2 (Z.eqb_neq _ _)) by done.
  assert (Hmin : (if old <? new then old else new) = Z.min old new) by (destruct (Z.ltb_spec old new); lia).
  assert (forall o, or_oom o (new_object new (object old p :: rest)) ->
    or_oom ('(sh, t, new_p) ← o;
      let copied := if old <? new then old else new in
      if ponyint_pool_index old <? POOL_COUNT then
        '(sh, t) ← ponyint_pool_free sh t (ponyint_pool_index old) p; Ret (sh, t, new_p, Some copied)
      else Ret (sh, pool_free_size t (ponyint_pool_adjust_size old) p, new_p, Some copied))
      (fun '(sh', t', q, copied) => new_object new rest (sh', t', q) /\
        if copied is Some n then n = Z.min old new else q = p))
    as Hfinish.
  { intros o Ho. eapply or_oom_bind; [exact Ho|]. intros [[sh1 t1] q] (Hok1 & Hq & Hle). cbn beta zeta.
    pose proof (free_size_spec sh1 t1 old p ((q, ponyint_pool_used_size new) :: rest)) as Hfree.
    unfold ponyint_pool_free_size in Hfree.
    destruct Hfree as (sh2 & t2 & E & Hok2); [|done|done|].
    { eapply pool_ok_perm; [|exact Hok1]. unfold object. solve_perm. }
    destruct (ponyint_pool_index old <? POOL_COUNT).
    - rewrite E. cbn. by rewrite Hmin.
    - injection E as <- <-. by rewrite Hmin. }
  pose proof (alloc_size_spec sh t new _ Hok Hnew) as Ha. unfold ponyint_pool_alloc_size in Ha.
  destruct (Z.ltb_spec (ponyint_pool_index new) POOL_COUNT) as [Hn|Hn].
  - destruct (Z.leb_spec POOL_COUNT (ponyint_pool_index old)) as [Ho|Ho]; cbn [andb app].
    + rewrite (proj2 (Z.eqb_neq _ _)) by lia. eapply or_oom_bind; [exact Ha|].
      intros [[sh1 t1] q] (Hok1 & Hq & Hle). rewrite (proj2 (Z.ltb_ge _ _)) by done. cbn [or_oom].
      split; [|by rewrite Hmin]. split; [|by split].
      eapply pool_ok_perm; [|apply (free_nothing_spec sh1 t1 old p ((q, ponyint_pool_used_size new) :: rest))];
        [solve_perm| |done|done|done].
      eapply pool_ok_perm; [|exact Hok1]. solve_perm.
    + destruct (Z.eqb_spec (ponyint_pool_index old) (ponyint_pool_index new)) as [E|E].
      * split; [|done]. destruct (used_size_spec new Hnew) as [(_ & _ & En & Hle)|(? & _)]; [|lia].
        destruct (used_size_spec old Hu) as [(_ & _ & Eo & _)|(? & _)]; [|lia].
        unfold new_object, object in *. rewrite En, Eo in *. rewrite E in *. by split_and!.
      * specialize (Hfinish _ Ha). rewrite (proj2 (Z.ltb_lt _ _) Ho) in Hfinish |- *. by apply Hfinish.
  - rewrite andb_false_r. cbn [app]. specialize (Hfinish _ Ha).
    destruct (Z.leb_spec POOL_COUNT (ponyint_pool_index old)) as [Ho|Ho]; cbn [andb]; [|
      rewrite (proj2 (Z.ltb_lt _ _) Ho) in Hfinish |- *; by apply Hfinish].
    destruct (Z.eqb_spec (ponyint_pool_adjust_size old) (ponyint_pool_adjust_size new)) as [E|E].
    + split; [|done]. destruct (used_size_spec new Hnew) as [(? & _)|(_ & En & Hadj)]; [lia|].
      destruct (used_size_spec old Hu) as [(? & _)|(_ & Eo & Hadj')]; [lia|]. unfold new_object, object in *.
      rewrite En, <- E, <- Eo in *.
      split_and!; [done|done|]. destruct (decide (size_ok new)); [lia|]. rewrite Hadj. unfold is_u64 in Hnew. lia.
    + by apply Hfinish.
Qed.

(** ** The end of a thread *)

Lemma segment_loop_spec fuel sh i th X :
  slot_ok sh i th X -> 0 <= i < POOL_COUNT -> end_ th - start th <= Z.of_nat fuel * POOL_MIN ->
  exists sh' th', segment_loop fuel sh th i = Ret (sh', th') /\ slot_ok sh' i th' X /\ end_ th' <= start th'.
Proof.
  revert sh th. induction fuel as [|fuel IH]; intros sh th Hok Hi Hf; cbn [segment_loop].
  - rewrite (proj2 (Z.ltb_ge _ _)) by lia. eexists _, _. split; [done|]. split; [done|]. lia.
  - destruct (Z.ltb_spec (start th) (end_ th)) as [Hlt|Hge]; [|by eexists _, _].
    destruct (make_room sh i th X Hok Hi) as (sh1 & th1 & -> & Hok1 & Hroom & Es & Ee). cbn [mbind outcome_bind].
    rewrite <- Es, <- Ee in Hlt. pose proof (sl_local _ _ _ _ Hok1) as Hl1.
    destruct (segment_room i th1 ltac:(lia) Hl1 Hlt) as (Hgs & Hp & Hl').
    apply IH; [|done|].
    + set (th2 := mk_local (pool th1) (length th1) (start th1 + global_size i) (end_ th1)).
      apply (add_item sh1 i th2 (start th1) X); [|lia|done|done]. destruct Hok1 as [Hs _ Ht].
      constructor; [done|by apply Hl'|]. rewrite local_ranges_items in * by lia. cbn [th2 pool].
      pose proof (segment_take i th1 (pool th1) (length th1) Hgs (mapped sh1)
        (shared_ranges sh1 ++ item_ranges i (pool th1) ++ X)) as Hr. fold th2 in Hr.
      eapply tiles_perm; [|apply Hr; eapply tiles_perm; [|exact Ht]]; solve_perm.
    + cbn [start end_]. rewrite Es, Ee. assert (POOL_MIN <= global_size i); [|lia].
      unfold global_size. rewrite Z.shiftl_mul_pow2 by lia. pose proof (Z.pow_pos_nonneg 2 i). change POOL_MIN with 32.
      lia.
Qed.

Lemma cleanup_index_spec sh locals h rest i :
  pool_ok sh (mk_thread locals h) rest -> (i < Z.to_nat POOL_COUNT)%nat ->
  exists sh' th, cleanup_index (sh, locals) i = Ret (sh', <[i := th]> locals) /\
    pool_ok sh' (mk_thread (<[i := th]> locals) h) rest /\ local_ranges i th = [].
Proof.
  intros Hok Hi. assert (0 <= Z.of_nat i < POOL_COUNT) as Hi' by lia.
  destruct (locals_ok_lookup locals _ (th_local _ (po_thread _ _ _ Hok)) Hi') as (th & Hth & _).
  destruct (pool_ok_slot _ _ _ _ _ Hok Hth) as (others & Hslot & Hback); [lia|].
  unfold cleanup_index. rewrite Nat2Z.id in Hth. rewrite Hth.
  destruct (segment_loop_spec (Z.to_nat (POOL_ALIGN / POOL_MIN)) sh _ th _ Hslot Hi') as (sh1 & th1 & ->
    & Hok1 & Hend).
  { change (Z.of_nat (Z.to_nat (POOL_ALIGN / POOL_MIN)) * POOL_MIN) with POOL_ALIGN.
    destruct (sl_local _ _ _ _ Hslot) as [_ _ _ Hseg].
    destruct (Z.lt_ge_cases (start th) (end_ th)) as [Hlt|]; [by apply Hseg|]. change POOL_ALIGN with 1024. lia. }
  cbn [mbind outcome_bind]. unfold set_local in Hback. cbn [pool_local pool_block_header] in Hback.
  rewrite Nat2Z.id in Hback.
  destruct (Z.ltb_spec 0 (length th1)) as [Hpos|Hz].
  - destruct (pool_push_spec sh1 _ th1 _ Hok1 Hi' Hpos) as (sh2 & -> & Hok2). cbn [mbind outcome_bind].
    eexists _, _. split; [done|]. split; [by apply Hback|]. unfold local_ranges, segment_ranges. cbn.
    by rewrite (proj2 (Z.ltb_ge _ _)).
  - eexists _, _. split; [done|]. split; [by apply Hback|]. destruct (sl_local _ _ _ _ Hok1) as [Hlen _ _ _].
    unfold local_ranges, segment_ranges. destruct (pool th1); [|cbn in Hlen; lia]. cbn.
    by rewrite (proj2 (Z.ltb_ge _ _)).
Qed.

Lemma locals_ranges_nil l : (forall i th, l !! i = Some th -> local_ranges i th = []) -> locals_ranges l = [].
Proof.
  unfold locals_ranges. intros Hl. apply concat_nil_Forall. rewrite Forall_lookup. intros i x Hx.
  rewrite list_lookup_imap in Hx. destruct (l !! i) as [th|] eqn:E; [|done]. injection Hx as <-. by apply Hl.
Qed.

Lemma cleanup_loop_spec n i sh locals h rest :
  pool_ok sh (mk_thread locals h) rest -> (i + n = Z.to_nat POOL_COUNT)%nat ->
  (forall j th, locals !! j = Some th -> (j < i)%nat -> local_ranges j th = []) ->
  exists sh' locals', foldO cleanup_index (sh, locals) (seq i n) = Ret (sh', locals') /\
    pool_ok sh' (mk_thread locals' h) rest /\ locals_ranges locals' = [].
Proof.
  revert i sh locals. induction n as [|n IH]; intros i sh locals Hok Hi Hdone; cbn [seq foldO].
  - eexists _, _. split; [done|]. split; [done|]. apply locals_ranges_nil. intros j th Hj. apply (Hdone j th Hj).
    apply lookup_lt_Some in Hj. destruct (th_local _ (po_thread _ _ _ Hok)) as [Hlen _]. cbn in Hlen. lia.
  - destruct (cleanup_index_spec sh locals h rest i Hok) as (sh1 & th & -> & Hok1 & Hth); [lia|].
    cbn [mbind outcome_bind].
    apply IH; [done|lia|]. intros j th' Hj Hlt.
    apply list_lookup_insert_Some in Hj as [(<- & <- & _)|[Hne Hj]]; [done|].
    apply (Hdone j th' Hj). lia.
Qed.

Lemma block_push_spec sh b t rest :
  pool_ok sh t ((addr b, size b) :: rest) -> block_ok b -> pool_ok (pool_block_push sh b) t rest.
Proof.
  intros [[Hl Hc Hg Hm] Ht Htile] Hb. constructor; [|done|].
  - constructor; try done. by apply blocks_ok_insert.
  - eapply tiles_perm; [|exact Htile]. pose proof (block_ranges_insert b (pool_block_global sh)) as Hp.
    unfold shared_ranges, pool_block_push. cbn [pool_global pool_block_global]. solve_perm.
Qed.

Lemma blocks_push_spec bs sh t rest :
  pool_ok sh t (block_ranges bs ++ rest) -> Forall block_ok bs -> pool_ok (foldl pool_block_push sh bs) t rest.
Proof.
  revert sh. induction bs as [|b bs IH]; intros sh Hok Hbs; [done|]. apply Forall_cons in Hbs as [Hb Hbs].
  cbn [foldl]. apply IH; [|done]. by apply block_push_spec.
Qed.

(** A thread that ends hands all its free memory to the others. *)
Lemma thread_cleanup_spec sh t rest :
  pool_ok sh t rest ->
  exists sh' t', ponyint_pool_thread_cleanup sh t = Ret (sh', t') /\ pool_ok sh' t' rest /\ thread_ranges t' = [].
Proof.
  intros Hok. destruct t as [locals h]. unfold ponyint_pool_thread_cleanup. cbn [pool_local pool_block_header].
  destruct (cleanup_loop_spec (Z.to_nat POOL_COUNT) 0 sh locals h rest Hok) as (sh1 & locals1 & -> & Hok1 & Hnil);
    [done|lia|].
  cbn [mbind outcome_bind]. eexists _, _. split; [done|].
  split; [|unfold thread_ranges; cbn [pool_local pool_block_header head]; by rewrite Hnil].
  destruct Hok1 as [Hs [Hl Hh] Ht]. apply blocks_push_spec; [|apply Hh]. constructor; [done| |].
  - constructor; [done|]. constructor; cbn; [by repeat constructor| |done]. done.
  - eapply tiles_perm; [|exact Ht]. unfold thread_ranges. cbn [pool_local pool_block_header head]. rewrite Hnil.
    cbn [block_ranges fmap list_fmap]. solve_perm.
Qed.

(** ** Threads

    The threads of the program share the pool; an object is released by any of them. *)
Record system := mk_system { shared : shared_t; threads : list thread_t }.

Inductive op :=
| Alloc (tid : nat) (n : Z)
| Free (tid : nat) (n p : Z)
| Realloc (tid : nat) (old_size new_size p : Z)
| Cleanup (tid : nat).

Definition op_tid (o : op) : nat :=
  match o with Alloc tid _ | Free tid _ _ | Realloc tid _ _ _ | Cleanup tid => tid end.

(** An operation on the shared state and the state of its thread; the result is an address. *)
Definition run_op (sh : shared_t) (t : thread_t) (o : op) : outcome (shared_t * thread_t * Z) :=
  match o with
  | Alloc _ n => ponyint_pool_alloc_size sh t n
  | Free _ n p => '(sh, t) ← ponyint_pool_free_size sh t n p; Ret (sh, t, NULL)
  | Realloc _ old_size new_size p =>
      '(sh, t, q, _) ← ponyint_pool_realloc_size sh t old_size new_size p; Ret (sh, t, q)
  | Cleanup _ => '(sh, t) ← ponyint_pool_thread_cleanup sh t; Ret (sh, t, NULL)
  end.

Definition do_op (s : system) (o : op) : outcome (system * Z) :=
  match threads s !! op_tid o with
  | None => Abort
  | Some t =>
      '(sh, t, p) ← run_op (shared s) t o;
      Ret (mk_system sh (<[op_tid o := t]> (threads s)), p)
  end.

(** The objects that an operation takes from the program, gives to it, and loses. *)
Definition takes (o : op) : list range :=
  match o with
  | Free _ n p => [object n p]
  | Realloc _ old_size _ p => if p =? NULL then [] else [object old_size p]
  | _ => []
  end.

Definition gives (o : op) (p : Z) : list range :=
  match o with
  | Alloc _ n | Realloc _ _ n _ => [object n p]
  | _ => []
  end.

Definition loses (o : op) : list range :=
  match o with
  | Realloc _ old_size new_size p => if p =? NULL then [] else lost_by old_size new_size p
  | _ => []
  end.

(** What the program must keep to: a thread that exists, sizes that are words and, for an
    object that exists, that its allocation could have had. *)
Definition legal (s : system) (o : op) : Prop :=
  (op_tid o < List.length (threads s))%nat /\
  match o with
  | Alloc _ n => is_u64 n
  | Free _ n _ => size_ok n
  | Realloc _ old_size new_size _ => size_ok old_size /\ is_u64 new_size
  | Cleanup _ => True
  end.

(** The states that a program reaches, with its objects and the memory that was lost. *)
Inductive reachable : system -> list range -> list range -> Prop :=
| reach_init n : reachable (mk_system shared_init (replicate n thread_init)) [] []
| reach_perm s live live' lost : live ≡ₚ live' -> reachable s live lost -> reachable s live' lost
| reach_op s live lost o s' p :
    reachable s (takes o ++ live) lost -> legal s o -> do_op s o = Ret (s', p) ->
    reachable s' (gives o p ++ live) (loses o ++ lost).

(** The free memory of the system. *)
Definition free_ranges (s : system) : list range :=
  shared_ranges (shared s) ++ concat (imap (fun _ => thread_ranges) (threads s)).

(** The size and the address of an object. *)
Definition object_ok (r : range) : Prop := 0 < r.2 /\ aligned r.2 r.1.

Record system_ok (s : system) (live lost : list range) : Prop := {
  sy_shared : shared_ok (shared s);
  sy_threads : Forall thread_ok (threads s);
  sy_tiles : tiles (mapped (shared s)) (free_ranges s ++ live ++ lost);
  sy_objects : Forall object_ok live;
  sy_lost : Forall (fun r => exists n p, r = object n p /\ POOL_COUNT <= ponyint_pool_index n) lost
}.

Lemma used_size_pos n : is_u64 n -> 0 < ponyint_pool_used_size n.
Proof.
  intros Hn. destruct (used_size_spec n Hn) as [(_ & H0 & -> & _)|(_ & -> & Hadj)]; [by apply global_size_pos|].
  destruct (decide (size_ok n)); lia.
Qed.

Lemma lost_by_large old new p :
  Forall (fun r => exists n p, r = object n p /\ POOL_COUNT <= ponyint_pool_index n) (lost_by old new p).
Proof.
  unfold lost_by. destruct (Z.leb_spec POOL_COUNT (ponyint_pool_index old)); cbn [andb]; [|constructor].
  destruct (_ <? _); [|constructor]. constructor; [by exists old, p|constructor].
Qed.

Lemma run_op_spec sh t o rest s :
  pool_ok sh t (takes o ++ rest) -> Forall object_ok (takes o) -> legal s o ->
  or_oom (run_op sh t o) (fun '(sh', t', p) =>
    pool_ok sh' t' (gives o p ++ loses o ++ rest) /\ Forall object_ok (gives o p)).
Proof.
  intros Hok Hal [_ Hlegal]. destruct o as [tid n|tid n p|tid old new p|tid]; cbn [takes gives loses run_op app] in *.
  - eapply or_oom_mono; [by apply alloc_size_spec|]. intros [[sh' t'] p] (Hok' & Hp & _).
    split; [done|]. repeat constructor; [by apply used_size_pos|done].
  - apply Forall_cons in Hal as [[_ Hp] _].
    destruct (free_size_spec sh t n p rest Hok Hlegal Hp) as (sh' & t' & -> & Hok').
    by split.
  - destruct Hlegal as (Hold & Hnew). pose proof (used_size_pos new Hnew). destruct (Z.eqb_spec p NULL) as [->|Hnull].
    + unfold ponyint_pool_realloc_size. rewrite Z.eqb_refl.
      eapply or_oom_bind with (P := fun '(sh', t', q, _) => new_object new rest (sh', t', q)).
      * eapply or_oom_bind; [by apply alloc_size_spec|]. by intros [[sh' t'] q] Hq.
      * intros [[[sh' t'] q] copied] (Hok' & Hq & _). split; [done|]. by repeat constructor.
    + apply Forall_cons in Hal as [[_ Hp] _]. eapply or_oom_bind; [by apply (realloc_size_spec sh t old new p rest)|].
      intros [[[sh' t'] q] copied] [(Hok' & Hq & _) _]. split; [done|]. by repeat constructor.
  - destruct (thread_cleanup_spec sh t rest Hok) as (sh' & t' & -> & Hok' & _). by split.
Qed.

Lemma threads_update (ts : list thread_t) i t :
  ts !! i = Some t ->
  exists others, concat (imap (fun _ => thread_ranges) ts) ≡ₚ thread_ranges t ++ others /\
    forall t', concat (imap (fun _ => thread_ranges) (<[i := t']> ts)) ≡ₚ thread_ranges t' ++ others.
Proof. apply (imap_update (fun _ => thread_ranges)). Qed.

Lemma do_op_spec s o live lost :
  system_ok s (takes o ++ live) lost -> legal s o ->
  or_oom (do_op s o) (fun '(s', p) => system_ok s' (gives o p ++ live) (loses o ++ lost)).
Proof.
  intros [Hs Hts Htile Hal Hlost] Hlegal. apply Forall_app in Hal as [Ha1 Ha2]. unfold do_op.
  destruct (lookup_lt_is_Some_2 (threads s) (op_tid o)) as [t Et]; [apply Hlegal|]. rewrite Et.
  destruct (threads_update _ _ _ Et) as (others & H1 & H2).
  assert (pool_ok (shared s) t (takes o ++ others ++ live ++ lost)) as Hok.
  { constructor; [done|by eapply Forall_lookup_1 in Et|]. eapply tiles_perm;
      [|exact Htile]. unfold free_ranges. solve_perm. }
  eapply or_oom_bind; [by apply (run_op_spec _ _ _ _ s Hok)|].
  intros [[sh' t'] p] [[Hs' Ht' Htile'] Hgives]. constructor; cbn [shared threads].
  - done.
  - by apply Forall_insert.
  - eapply tiles_perm; [|exact Htile']. unfold free_ranges. cbn [shared threads]. specialize (H2 t'). solve_perm.
  - by apply Forall_app.
  - apply Forall_app. split; [|done]. destruct o as [| |tid old new q|]; cbn [loses]; try constructor.
    destruct (_ =? _); [constructor|apply lost_by_large].
Qed.

Lemma thread_init_ok : thread_ok thread_init.
Proof.
  constructor.
  - split; [done|]. intros i th [-> _]%lookup_replicate_1. constructor; [done| |constructor|done].
    unfold global_count. apply Z.div_pos; [done|]. apply global_size_pos. lia.
  - constructor; [|done|done]. split; constructor.
Qed.

Lemma init_ok n : system_ok (mk_system shared_init (replicate n thread_init)) [] [].
Proof.
  constructor; cbn [shared threads]; [|apply Forall_replicate, thread_init_ok| |constructor|constructor].
  - constructor; [done| |split; constructor|split; constructor]. intros i l [-> _]%lookup_replicate_1. constructor.
  - enough (free_ranges (mk_system shared_init (replicate n thread_init)) = []) as -> by constructor.
    unfold free_ranges. cbn [shared threads]. change (shared_ranges shared_init) with (@nil range). cbn [app].
    apply concat_nil_Forall, Forall_lookup. intros i x Hx. rewrite list_lookup_imap in Hx.
    destruct (replicate n thread_init !! i) as [t|] eqn:E; [|done]. apply lookup_replicate_1 in E as [-> _].
    by injection Hx as <-.
Qed.

Lemma reachable_ok s live lost : reachable s live lost -> system_ok s live lost.
Proof.
  induction 1 as [n|s live live' lost Hp _ [H1 H2 H3 H4 H5]|s live lost o s' p _ IH Hlegal E].
  - apply init_ok.
  - constructor; [done|done| |by rewrite <- Hp|done]. eapply tiles_perm; [|exact H3]. by rewrite Hp.
  - pose proof (do_op_spec s o live lost IH Hlegal) as H'. by rewrite E in H'.
Qed.

Lemma bytes_app l k : bytes (l ++ k) = bytes l + bytes k.
Proof. induction l as [|r l IH]; [done|]. cbn [app]. rewrite !bytes_cons, IH. lia. Qed.

(** C8 The pool never hands out memory that is in use: whatever its threads do, the objects
    of a program are pairwise disjoint and disjoint from the free memory, each lies in a region
    that the operating system has mapped and is aligned on its size, up to 1024 bytes.  The
    objects, the free memory and the memory that was lost are together the mapped memory; what
    was lost are objects larger than every size class, lost by the reallocations that made them
    shrink to a size class ([loses]), and it too is disjoint from everything else. *)
Theorem pool_objects_disjoint s live lost :
  reachable s live lost ->
  pairwise_disjoint (live ++ free_ranges s ++ lost) /\
  (forall p n, (p, n) ∈ live -> 0 < n /\ aligned n p /\ exists r, r ∈ mapped (shared s) /\ within (p, n) r) /\
  bytes live + bytes (free_ranges s) + bytes lost = bytes (mapped (shared s)) /\
  Forall (fun r => exists n p, r = object n p /\ POOL_COUNT <= ponyint_pool_index n) lost.
Proof.
  intros [Hs Ht Htile Hal Hlost]%reachable_ok.
  assert (free_ranges s ++ live ++ lost ≡ₚ live ++ free_ranges s ++ lost) as Hp by solve_perm.
  destruct (mapped_tiles _ _ (sh_mapped _ Hs) (tiles_perm _ _ _ Hp Htile)) as (Hd & Hin & Hb).
  split_and!; [done| | |done].
  - intros p n Hpn. destruct (Hin (p, n)) as [_ Hr]; [apply elem_of_app; by left|]. rewrite Forall_forall in Hal.
    by destruct (Hal _ Hpn).
  - rewrite <- Hb, !bytes_app. lia.
Qed.

(** C9 Every legal operation of a thread on the pool succeeds or the operating system has no
    memory left; no assertion of the pool fails and the loops end.  An allocation has at least
    the size asked for and a class that is at most twice as large. *)
Theorem pool_operations_succeed s live lost o :
  reachable s (takes o ++ live) lost -> legal s o ->
  match do_op s o with
  | Ret (s', p) =>
      reachable s' (gives o p ++ live) (loses o ++ lost) /\
      forall tid n, o = Alloc tid n -> n <= ponyint_pool_used_size n <= Z.max POOL_MIN (2 * n)
  | Exit => True
  | Abort | NoFuel => False
  end.
Proof.
  intros Hr Hlegal. pose proof (do_op_spec s o live lost (reachable_ok _ _ _ Hr) Hlegal) as Hop.
  destruct (do_op s o) as [[s' p]| | |] eqn:E; [|done..]. split; [by eapply reach_op|].
  intros tid n ->. destruct Hlegal as [_ Hn]. cbn in Hn.
  pose proof (pool_index_spec n Hn) as (H0 & _ & Hmin & _).
  destruct (used_size_spec n Hn) as [(Hlt & _ & -> & Hle)|(Hge & -> & Hadj)].
  - split; [done|].
    destruct (Z.eqb_spec (ponyint_pool_index n) 0) as [->|Hne]; [change (global_size 0) with POOL_MIN; lia|].
    specialize (Hmin ltac:(lia)). rewrite global_size_pow in * by lia.
    replace (5 + ponyint_pool_index n) with (Z.succ (5 + (ponyint_pool_index n - 1))) by lia.
    rewrite Z.pow_succ_r by lia. lia.
  - pose proof (adjust_size_spec n Hn) as Hup. pose proof (pool_index_spec n Hn) as (_ & _ & _ & Hbig).
    destruct (Z.le_gt_cases n POOL_MAX) as [Hs|Hs]; [apply Hbig in Hs; lia|]. change POOL_MAX with (2 ^ 20) in Hs.
    change POOL_ALIGN with 1024 in *. unfold is_u64 in Hn. destruct (decide (0 < n <= _)); lia.
Qed.
End allocation.

(** ** The interface of the pool

    What the heaps of the actors rely on: allocation and release by size.  [POOL_ALLOC] and
    [POOL_FREE], which choose the class when the program is compiled, are the same operations
    (see [pool_alloc_class]). *)
Class PoolOps (P : Type) := {
  pool_live : P -> list range -> Prop;
  alloc_size : P -> Z -> outcome (P * Z);
  free_size : P -> Z -> Z -> outcome P;
  pool_live_perm s live live' : live ≡ₚ live' -> pool_live s live -> pool_live s live';
  pool_live_ranges s live :
    pool_live s live ->
    pairwise_disjoint live /\ forall p n, (p, n) ∈ live -> 0 < p /\ 0 < n /\ p + n <= 2 ^ 48;
  alloc_size_law s live n :
    pool_live s live -> is_u64 n ->
    match alloc_size s n with
    | Ret (s', p) => pool_live s' (object n p :: live) /\ aligned (ponyint_pool_used_size n) p /\
                     n <= ponyint_pool_used_size n
    | Exit => True
    | Abort | NoFuel => False
    end;
  free_size_law s live n p :
    pool_live s (object n p :: live) -> size_ok n -> aligned (ponyint_pool_used_size n) p ->
    exists s', free_size s n p = Ret s' /\ pool_live s' live
}.

Lemma pool_ok_ranges sh t live :
  pool_ok sh t live -> Forall (fun r => 0 < r.2) live ->
  pairwise_disjoint live /\ forall p n, (p, n) ∈ live -> 0 < p /\ 0 < n /\ p + n <= 2 ^ 48.
Proof.
  intros [Hs _ Ht] Hpos. pose proof (sh_mapped _ Hs) as Hm. destruct (mapped_tiles _ _ Hm Ht) as (Hd & Hin & _).
  split.
  - revert Hd. generalize (shared_ranges sh) (thread_ranges t). intros l1 l2 Hd.
    apply (pairwise_disjoint_perm _ (live ++ l1 ++ l2)) in Hd; [|solve_perm]. clear -Hd.
    induction live as [|r l IH]; [done|]. destruct Hd as [Hr Hd]. apply Forall_app in Hr as [Hr _].
    split; [done|by apply IH].
  - intros p n Hpn. destruct (Hin (p, n)) as (_ & r & Hr & Hw); [by rewrite !elem_of_app; do 2 right|].
    rewrite Forall_forall in Hpos. specialize (Hpos _ Hpn).
    destruct Hm as [_ Hm]. rewrite Forall_forall in Hm. specialize (Hm r Hr). unfold within in Hw. cbn in *. lia.
Qed.

(** A thread of the pool is an implementation. *)
#[export] Program Instance thread_pool `{Mmap} : PoolOps (shared_t * thread_t) := {|
  pool_live s live := pool_ok s.1 s.2 live /\ Forall (fun r => 0 < r.2) live;
  alloc_size s n := ponyint_pool_alloc_size s.1 s.2 n;
  free_size s n p := ponyint_pool_free_size s.1 s.2 n p
|}.
Next Obligation. intros ? [sh t] live live' Hp [Hok Hpos]. split; [by eapply pool_ok_perm|by rewrite <- Hp]. Qed.
Next Obligation. intros ? [sh t] live [Hok Hpos]. by apply (pool_ok_ranges sh t). Qed.
Next Obligation.
  intros ? [sh t] live n [Hok Hpos] Hn. pose proof (alloc_size_spec sh t n live Hok Hn) as Ha. cbn in *.
  destruct (ponyint_pool_alloc_size sh t n) as [[[sh' t'] p]| | |]; [|done..]. destruct Ha as (Hok' & Hp & Hle).
  split_and!; [done| |done|done]. constructor; [by apply used_size_pos|done].
Qed.
Next Obligation.
  intros ? [sh t] live n p [Hok Hpos] Hn Hp.
  destruct (free_size_spec sh t n p live Hok Hn Hp) as (sh' & t' & E & Hok').
  exists (sh', t'). apply Forall_cons in Hpos as [_ Hpos]. by split.
Qed.

Lemma pool_alloc_class `{Mmap} sh t n :
  ponyint_pool_index n < POOL_COUNT ->
    ponyint_pool_alloc_size sh t n = ponyint_pool_alloc sh t (ponyint_pool_index n).
Proof. intros Hn. unfold ponyint_pool_alloc_size. by rewrite (proj2 (Z.ltb_lt _ _)). Qed.

(** ** An operating system

    Regions are mapped one after another, from the second page on. *)
Definition bump_top (m : list range) : Z := foldr (fun r a => Z.max a ((r.1 + r.2 + 1023) / 1024 * 1024)) 4096 m.

Lemma bump_top_spec m :
  4096 <= bump_top m /\ (POOL_ALIGN | bump_top m) /\ Forall (fun r => r.1 + r.2 <= bump_top m) m.
Proof.
  induction m as [|r m (IH1 & IH2 & IH3)]; [split_and!; [done|by exists 4|constructor]|].
  cbn [bump_top foldr]. fold (bump_top m). change POOL_ALIGN with 1024 in *.
  pose proof (Z.div_mod (r.1 + r.2 + 1023) 1024 ltac:(lia)).
  pose proof (Z.mod_pos_bound (r.1 + r.2 + 1023) 1024 ltac:(lia)).
  split_and!; [lia| |].
  - destruct (Z.max_spec (bump_top m) ((r.1 + r.2 + 1023) / 1024 * 1024)) as [[_ ->]|[_ ->]]; [by eexists|done].
  - constructor; [lia|]. eapply Forall_impl; [exact IH3|]. cbn. intros. lia.
Qed.

#[export] Program Instance bump : Mmap := {|
  virt_alloc m n := if bump_top m + n <=? 2 ^ 48 then Some (bump_top m) else None
|}.
Next Obligation.
  intros m n a E Hn. cbn in E. destruct (bump_top_spec m) as (H1 & H2 & H3).
  destruct (Z.leb_spec (bump_top m + n) (2 ^ 48)) as [Hle|]; [|done]. injection E as <-.
  split_and!; [lia|done|done|]. eapply Forall_impl; [exact H3|]. unfold ranges_disjoint. cbn. intros. lia.
Qed.

(** ** Examples

    A program of two threads: an object of 100 bytes, a larger one that the second thread
    releases before it ends, and one of 2 MB that shrinks to 32 bytes, whose memory is lost. *)
Definition after (s : system) (o : op) : system := match do_op s o with Ret (s', _) => s' | _ => s end.

Definition sample0 : system := mk_system shared_init [thread_init; thread_init].
Definition sample1 : system := after sample0 (Alloc 0 100).
Definition sample2 : system := after sample1 (Alloc 0 5000).
Definition sample3 : system := after sample2 (Free 1 5000 134212608).
Definition sample4 : system := after sample3 (Cleanup 1).

Definition sample5 : system := after sample4 (Alloc 0 (2 ^ 21)).
Definition sample6 : system := after sample5 (Realloc 0 (2 ^ 21) 32 132115456).

Ltac sample_legal :=
  split; [vm_compute; lia|]; cbn; unfold size_ok, is_u64; change POOL_ALIGN with 1024; (exact I || lia).

Lemma sample_reachable : reachable sample4 [object 100 134220800] [].
Proof.
  apply (reach_op sample3 [object 100 134220800] [] (Cleanup 1) _ NULL); [|sample_legal|by vm_compute].
  apply (reach_op sample2 [object 100 134220800] [] (Free 1 5000 134212608) _ NULL);
    [|sample_legal|by vm_compute].
  apply (reach_op sample1 [object 100 134220800] [] (Alloc 0 5000) _ 134212608);
    [|sample_legal|by vm_compute].
  apply (reach_op sample0 [] [] (Alloc 0 100) _ 134220800); [|sample_legal|by vm_compute].
  apply (reach_init 2).
Qed.

Lemma sample_shrunk :
  reachable sample6 [object 32 132114432; object 100 134220800] [object (2 ^ 21) 132115456].
Proof.
  apply (reach_op sample5 [object 100 134220800] [] (Realloc 0 (2 ^ 21) 32 132115456) _ 132114432);
    [|sample_legal|by vm_compute].
  apply (reach_op sample4 [object 100 134220800] [] (Alloc 0 (2 ^ 21)) _ 132115456); [|sample_legal|by vm_compute].
  exact sample_reachable.
Qed.

Lemma pool_objects_disjoint_witness :
  reachable sample6 [object 32 132114432; object 100 134220800] [object (2 ^ 21) 132115456] /\
  bytes [object 32 132114432; object 100 134220800] + bytes (free_ranges sample6) + 2 ^ 21 =
    bytes (mapped (shared sample6)).
Proof.
  split; [exact sample_shrunk|].
  apply (pool_objects_disjoint sample6 [object 32 132114432; object 100 134220800] [object (2 ^ 21) 132115456]
    sample_shrunk).
Defined.

Lemma pool_operations_succeed_witness :
  legal sample4 (Alloc 0 3000000) /\
  match do_op sample4 (Alloc 0 3000000) with
  | Ret (s', p) => reachable s' [object 3000000 p; object 100 134220800] []
  | _ => True
  end.
Proof.
  assert (legal sample4 (Alloc 0 3000000)) as Hl by sample_legal. split; [exact Hl|].
  pose proof (pool_operations_succeed sample4 [object 100 134220800] [] (Alloc 0 3000000) sample_reachable Hl) as H.
  destruct (do_op sample4 (Alloc 0 3000000)) as [[s' p]| | |]; [apply H|exact I..].
Defined.

(** The reallocation that loses memory leaves an empty block among the free ones, and no
    later allocation of the system can use the bytes. *)
Lemma realloc_shrink_leaks :
  bytes [object 32 132114432; object 100 134220800] + bytes (free_ranges sample6) + 2 ^ 21 =
    bytes (mapped (shared sample6)) /\
  (132115456, 0) ∈ free_ranges sample6.
Proof. split; [vm_compute; reflexivity|]. by_computation. Qed.
