(* ===== verification/PageMap.v ===== *)
(** * The page map: [src/libponyrt/mem/pagemap.c]

    A prefix tree from the pages of 1024 bytes of a 48-bit address space to the chunk and the
    actor that own them.  The map is shared by all threads without a lock: a node is created
    when it is first needed and linked by a compare and exchange, and nothing is unlinked.

    A call is a sequence of atomic steps: [set_step], [get_step] run the next step of a call,
    [do_action] the next step of a thread of a system and [exec] a schedule of the threads.
    Memory is sequentially consistent.  The specification is a finite map of words
    ([replay]) on which stores and loads act in one step. *)
From S2P Require Import Prelude Store Pool.
From stdpp Require Import gmap fin_maps.
Local Open Scope Z_scope.
Local Open Scope c_scope.

(** ** Levels *)

Definition PAGEMAP_ADDRESSBITS : Z := 48.
Definition PAGEMAP_LEVELS : nat := 3.
Definition PAGEMAP_BITS : Z := (PAGEMAP_ADDRESSBITS - POOL_ALIGN_BITS) / Z.of_nat PAGEMAP_LEVELS.
Definition PAGEMAP_EXCESS : Z := (PAGEMAP_ADDRESSBITS - POOL_ALIGN_BITS) mod Z.of_nat PAGEMAP_LEVELS.
Definition L1_MASK : Z := PAGEMAP_BITS.
Definition L2_MASK : Z := PAGEMAP_BITS + bool_to_u64 (1 <? PAGEMAP_EXCESS).
Definition L3_MASK : Z := PAGEMAP_BITS + bool_to_u64 (0 <? PAGEMAP_EXCESS).
Definition L1_SHIFT : Z := POOL_ALIGN_BITS.
Definition L2_SHIFT : Z := L1_SHIFT + L1_MASK.
Definition L3_SHIFT : Z := L2_SHIFT + L2_MASK.

(** The size of a node is counted in words of 8 bytes. *)
Record pagemap_level_t := mk_level { shift : Z; mask : Z; nwords : Z }.

Definition level (i : nat) : pagemap_level_t :=
  match i with
  | O => mk_level L3_SHIFT (Z.shiftl 1 L3_MASK - 1) (Z.shiftl 1 L3_MASK)
  | S O => mk_level L2_SHIFT (Z.shiftl 1 L2_MASK - 1) (Z.shiftl 1 L2_MASK)
  | _ => mk_level L1_SHIFT (Z.shiftl 1 L1_MASK - 1) (Z.shiftl 1 L1_MASK * 2)
  end.

Definition last_level (i : nat) : bool := Nat.eqb i (PAGEMAP_LEVELS - 1).

(** [((uintptr_t)addr >> level[i].shift) & level[i].mask] *)
Definition level_index (addr : Z) (i : nat) : Z := Z.land (addr >>! shift (level i)) (mask (level i)).

(** ** Memory *)

(** A node: the words that are not zero, and its length. *)
Record node_t := mk_node { words : gmap Z Z; len : Z }.

Record memory := mk_memory { root : Z; nodes : gmap Z node_t }.

Definition empty_map : memory := mk_memory NULL ∅.

(** [next_node]: the address of a word. *)
Inductive place := Root | Word (node index : Z).

Definition word (n : node_t) (ix : Z) : Z := default NULL (words n !! ix).

Definition load (m : memory) (l : place) : outcome Z :=
  match l with
  | Root => Ret (root m)
  | Word node ix =>
      match nodes m !! node with
      | Some n => if (0 <=? ix) && (ix <? len n) then Ret (word n ix) else Abort
      | None => Abort
      end
  end.

Definition store (m : memory) (l : place) (v : Z) : outcome memory :=
  match l with
  | Root => Ret (mk_memory v (nodes m))
  | Word node ix =>
      match nodes m !! node with
      | Some n =>
          if (0 <=? ix) && (ix <? len n) then
            Ret (mk_memory (root m) (<[node := mk_node (<[ix := v]> (words n)) (len n)]> (nodes m)))
          else Abort
      | None => Abort
      end
  end.

(** [ponyint_pool_alloc] and [memset] of a node of level [i], and [ponyint_pool_free] of it. *)
Definition new_node (m : memory) (i : nat) : memory * Z :=
  let p := new_addr (nodes m) in
  (mk_memory (root m) (<[p := mk_node ∅ (nwords (level i))]> (nodes m)), p).

Definition free_node (m : memory) (p : Z) : memory := mk_memory (root m) (delete p (nodes m)).

(** ** Calls *)

(** The two words of a page. *)
Inductive field := Chunk | Actor.
#[export] Instance field_eq_dec : EqDecision field.
Proof. solve_decision. Defined.
#[export] Instance field_countable : Countable field.
Proof.
  apply (inj_countable' (fun f => match f with Chunk => true | Actor => false end)
    (fun b : bool => if b then Chunk else Actor)). by intros [].
Defined.

(** The page of an address: its bits 10 to 47. *)
Definition page (addr : Z) : Z := (addr / POOL_ALIGN) mod 2 ^ (PAGEMAP_ADDRESSBITS - POOL_ALIGN_BITS).

(** A store to, or a load from, a word of a page. *)
Inductive event :=
| Stored (page : Z) (f : field) (value : Z)
| Loaded (page : Z) (f : field) (value : Z).

(** The arguments of [ponyint_pagemap_set], with no end, and of [ponyint_pagemap_set_bulk]. *)
Record set_args := mk_set { chunk : Z; actor : Z; addr_end : option Z }.

(** Where a call is: before the load of [next_node] at a level, before the compare and
    exchange of a new node, before the store of the chunk and before that of the actor, at
    the page of [addr]; a lookup before the load of [next_node], of the chunk and of the
    actor. *)
Inductive pc :=
| Idle
| Set_node (a : set_args) (addr : Z) (i : nat) (next_node : place)
| Set_install (a : set_args) (addr : Z) (i : nat) (next_node : place)
| Set_chunk (a : set_args) (addr node ix : Z)
| Set_actor (a : set_args) (addr node ix : Z)
| Get_node (both : bool) (addr : Z) (i : nat) (next_node : place)
| Get_chunk (both : bool) (addr node ix : Z)
| Get_actor (addr node ix chunk : Z).

(** The calls. *)
Definition ponyint_pagemap_set (addr chunk actor : Z) : pc :=
  Set_node (mk_set chunk actor None) addr 0 Root.

Definition ponyint_pagemap_set_bulk (addr chunk actor size : Z) : pc :=
  let addr_end := addr ⊞ size in
  if addr <? addr_end then Set_node (mk_set chunk actor (Some addr_end)) addr 0 Root else Idle.

Definition ponyint_pagemap_get_chunk (addr : Z) : pc := Get_node false addr 0 Root.
Definition ponyint_pagemap_get (addr : Z) : pc := Get_node true addr 0 Root.

(** The rest of an iteration of the walk, with the node that it has found or made. *)
Definition set_enter (a : set_args) (addr : Z) (i : nat) (node : Z) : outcome pc :=
  let ix := level_index addr i in
  if negb ((ix <=? nwords (level i) * 8) && (ix <=? mask (level i))) then Abort
  else if last_level i then Ret (Set_chunk a addr node (ix * 2))
  else Ret (Set_node a addr (S i) (Word node ix)).

Definition set_step (m : memory) (p : pc) : outcome (memory * pc * list event) :=
  match p with
  | Set_node a addr i l =>
      node ← load m l;
      if node =? NULL then Ret (m, Set_install a addr i l, [])
      else p ← set_enter a addr i node; Ret (m, p, [])
  | Set_install a addr i l =>
      let (m, fresh_node) := new_node m i in
      node ← load m l;
      if node =? NULL then
        m ← store m l fresh_node;
        p ← set_enter a addr i fresh_node; Ret (m, p, [])
      else p ← set_enter a addr i node; Ret (free_node m fresh_node, p, [])
  | Set_chunk a addr node ix =>
      m ← store m (Word node ix) (chunk a);
      Ret (m, Set_actor a addr node (ix + 1), [Stored (page addr) Chunk (chunk a)])
  | Set_actor a addr node ix =>
      if negb ((ix <=? nwords (level 2) * 8) && (ix / 2 <=? mask (level 2))) then Abort
      else
        m ← store m (Word node ix) (actor a);
        let events := [Stored (page addr) Actor (actor a)] in
        match addr_end a with
        | None => Ret (m, Idle, events)
        | Some addr_end =>
            let addr_ptr := addr ⊞ POOL_ALIGN in
            let ix := ix + 1 in
            if addr_ptr <? addr_end then
              if ix / 2 <=? mask (level 2) then Ret (m, Set_chunk a addr_ptr node ix, events)
              else Ret (m, Set_node a addr_ptr 0 Root, events)
            else Ret (m, Idle, events)
        end
  | _ => Ret (m, p, [])
  end.

(** What a call of [ponyint_pagemap_get] returns: the chunk, and the actor unless it leaves
    [*actor] as it was. *)
Abbreviation result := (option (Z * option Z)).

Definition get_step (m : memory) (p : pc) : outcome (pc * list event * result) :=
  match p with
  | Get_node both addr i l =>
      node ← load m l;
      if node =? NULL then Ret (Idle, [Loaded (page addr) Chunk NULL], Some (NULL, None))
      else
        let ix := level_index addr i in
        if last_level i then
          let ix := ix * 2 in
          if (ix <=? nwords (level i) * 8) && (ix / 2 <=? mask (level i)) then
            Ret (Get_chunk both addr node ix, [], None)
          else Abort
        else if (ix <=? nwords (level i) * 8) && (ix <=? mask (level i)) then
          Ret (Get_node both addr (S i) (Word node ix), [], None)
        else Abort
  | Get_chunk both addr node ix =>
      c ← load m (Word node ix);
      if both then
        let ix := ix + 1 in
        if (ix <=? nwords (level 2) * 8) && (ix / 2 <=? mask (level 2)) then
          Ret (Get_actor addr node ix c, [Loaded (page addr) Chunk c], None)
        else Abort
      else Ret (Idle, [Loaded (page addr) Chunk c], Some (c, None))
  | Get_actor addr node ix c =>
      a ← load m (Word node ix);
      Ret (Idle, [Loaded (page addr) Actor a], Some (c, Some a))
  | _ => Ret (p, [], None)
  end.

Definition call_step (m : memory) (p : pc) : outcome (memory * pc * list event * result) :=
  match p with
  | Get_node _ _ _ _ | Get_chunk _ _ _ _ | Get_actor _ _ _ _ =>
      '(p, events, r) ← get_step m p; Ret (m, p, events, r)
  | _ => '(m, p, events) ← set_step m p; Ret (m, p, events, None)
  end.

(** A call that runs alone. *)
Fixpoint run_call (fuel : nat) (m : memory) (p : pc) (r : result) : outcome (memory * result) :=
  match p, fuel with
  | Idle, _ => Ret (m, r)
  | _, O => NoFuel
  | _, S fuel => '(m, p, _, r) ← call_step m p; run_call fuel m p r
  end.

(** ** Threads *)

Record system := mk_system { mem : memory; threads : list pc }.

(** A thread that is idle starts a call; a thread makes its next step. *)
Inductive action :=
| Set_page (tid : nat) (addr chunk actor : Z)
| Set_bulk (tid : nat) (addr chunk actor size : Z)
| Get (tid : nat) (addr : Z)
| Get_chunk_of (tid : nat) (addr : Z)
| Step (tid : nat).

Definition start_call (s : system) (tid : nat) (p : pc) : system :=
  match threads s !! tid with
  | Some Idle => mk_system (mem s) (<[tid := p]> (threads s))
  | _ => s
  end.

Definition do_action (s : system) (a : action) : outcome (system * list event) :=
  match a with
  | Set_page tid addr chunk actor => Ret (start_call s tid (ponyint_pagemap_set addr chunk actor), [])
  | Set_bulk tid addr chunk actor size =>
      Ret (start_call s tid (ponyint_pagemap_set_bulk addr chunk actor size), [])
  | Get tid addr => Ret (start_call s tid (ponyint_pagemap_get addr), [])
  | Get_chunk_of tid addr => Ret (start_call s tid (ponyint_pagemap_get_chunk addr), [])
  | Step tid =>
      match threads s !! tid with
      | None => Ret (s, [])
      | Some p =>
          '(m, p, events, _) ← call_step (mem s) p;
          Ret (mk_system m (<[tid := p]> (threads s)), events)
      end
  end.

Fixpoint exec (s : system) (l : list action) : outcome (system * list event) :=
  match l with
  | [] => Ret (s, [])
  | a :: l => '(s, e1) ← do_action s a; '(s, e2) ← exec s l; Ret (s, e1 ++ e2)
  end.

(** ** Specification

    A finite map from the words of pages to values, [NULL] where nothing was stored; a load
    must give the value of the map. *)
Abbreviation spec := (gmap (Z * field) Z).

Definition spec_get (s : spec) (pg : Z) (f : field) : Z := default NULL (s !! (pg, f)).

Definition replay_event (s : spec) (e : event) : option spec :=
  match e with
  | Stored pg f v => Some (<[(pg, f) := v]> s)
  | Loaded pg f v => if v =? spec_get s pg f then Some s else None
  end.

Fixpoint replay (s : spec) (l : list event) : option spec :=
  match l with
  | [] => Some s
  | e :: l => s ← replay_event s e; replay s l
  end.

(** ** Indices *)

Lemma level_index_mod addr i :
  is_u64 addr ->
  level_index addr i = (addr / 2 ^ shift (level i)) mod (mask (level i) + 1).
Proof.
  intros Ha. unfold level_index, shr64.
  assert (exists k, 0 <= k /\ mask (level i) = 2 ^ k - 1 /\ 0 <= shift (level i)) as (k & Hk & -> & Hs).
  { destruct i as [|[|i]]; [exists 13|exists 13|exists 12]; by vm_compute. }
  rewrite Z.shiftr_div_pow2, land_ones_mod by done. by replace (2 ^ k - 1 + 1) with (2 ^ k) by lia.
Qed.

Lemma level_index_range addr i : is_u64 addr -> 0 <= level_index addr i <= mask (level i).
Proof.
  intros Ha. rewrite level_index_mod by done.
  assert (0 < mask (level i) + 1) by (destruct i as [|[|i]]; by vm_compute).
  pose proof (Z.mod_pos_bound (addr / 2 ^ shift (level i)) (mask (level i) + 1)). lia.
Qed.

(** The indices of a page, from the root. *)
Definition path (addr : Z) (i : nat) : list Z := level_index addr <$> seq 0 i.

Lemma path_S addr i : path addr (S i) = path addr i ++ [level_index addr i].
Proof. unfold path. by rewrite seq_S, fmap_app. Qed.

Lemma path_length addr i : List.length (path addr i) = i.
Proof. unfold path. by rewrite length_fmap, length_seq. Qed.

(** The indices of the three levels are the digits of the page. *)
Lemma page_digits addr :
  is_u64 addr ->
  page addr = (level_index addr 0 * 2 ^ 13 + level_index addr 1) * 2 ^ 12 + level_index addr 2.
Proof.
  intros Ha. rewrite !level_index_mod by done. unfold page.
  change (mask (level 0) + 1) with (2 ^ 13). change (mask (level 1) + 1) with (2 ^ 13).
  change (mask (level 2) + 1) with (2 ^ 12). change (shift (level 0)) with 35. change (shift (level 1)) with 22.
  change (shift (level 2)) with 10. change POOL_ALIGN with (2 ^ 10). change (PAGEMAP_ADDRESSBITS - POOL_ALIGN_BITS) with 38.
  set (q := addr / 2 ^ 10). replace (addr / 2 ^ 22) with (q / 2 ^ 12) by (unfold q; by rewrite Z.div_div by lia).
  replace (addr / 2 ^ 35) with (q / 2 ^ 12 / 2 ^ 13) by (unfold q; by rewrite !Z.div_div by lia).
  pose proof (Z.div_mod q (2 ^ 12) ltac:(lia)). pose proof (Z.div_mod (q / 2 ^ 12) (2 ^ 13) ltac:(lia)).
  pose proof (Z.div_mod (q / 2 ^ 12 / 2 ^ 13) (2 ^ 13) ltac:(lia)). 
  pose proof (Z.mod_pos_bound q (2 ^ 12) ltac:(lia)). pose proof (Z.mod_pos_bound (q / 2 ^ 12) (2 ^ 13) ltac:(lia)).
  pose proof (Z.mod_pos_bound (q / 2 ^ 12 / 2 ^ 13) (2 ^ 13) ltac:(lia)).
  symmetry. apply (Z.mod_unique_pos _ _ (q / 2 ^ 12 / 2 ^ 13 / 2 ^ 13)); lia.
Qed.

Lemma page_path addr addr' :
  is_u64 addr -> is_u64 addr' -> page addr = page addr' <-> path addr 3 = path addr' 3.
Proof.
  intros Ha Ha'. rewrite !page_digits by done. unfold path. cbn [seq fmap list_fmap].
  pose proof (level_index_range addr 1 Ha). pose proof (level_index_range addr' 1 Ha').
  pose proof (level_index_range addr 2 Ha). pose proof (level_index_range addr' 2 Ha').
  change (mask (level 1)) with (2 ^ 13 - 1) in *. change (mask (level 2)) with (2 ^ 12 - 1) in *.
  split; [|by intros [= -> -> ->]]. intros E.
  assert (level_index addr 0 = level_index addr' 0 /\ level_index addr 1 = level_index addr' 1 /\
    level_index addr 2 = level_index addr' 2) as (-> & -> & ->) by lia. done.
Qed.

(** The page after a page: in the same node of the last level, unless it is the last of it. *)
Lemma next_index addr :
  is_u64 addr -> level_index addr 2 + 1 <= mask (level 2) ->
  path (addr ⊞ POOL_ALIGN) 2 = path addr 2 /\ level_index (addr ⊞ POOL_ALIGN) 2 = level_index addr 2 + 1.
Proof.
  intros Ha Hlt. unfold path. cbn [seq fmap list_fmap].
  assert (is_u64 (addr ⊞ POOL_ALIGN)) as Ha' by auto with word_range.
  rewrite !level_index_mod in * by done.
  change (mask (level 0) + 1) with (2 ^ 13) in *. change (mask (level 1) + 1) with (2 ^ 13) in *.
  change (mask (level 2)) with (2 ^ 12 - 1) in *. change (2 ^ 12 - 1 + 1) with (2 ^ 12) in *.
  change (shift (level 0)) with 35 in *. change (shift (level 1)) with 22 in *. change (shift (level 2)) with 10 in *.
  change POOL_ALIGN with (2 ^ 10) in *. unfold is_u64 in Ha.
  set (q := addr / 2 ^ 10) in *. pose proof (Z.div_mod addr (2 ^ 10) ltac:(lia)) as Hd. fold q in Hd.
  pose proof (Z.mod_pos_bound addr (2 ^ 10) ltac:(lia)). pose proof (Z.div_mod q (2 ^ 12) ltac:(lia)) as Hq.
  assert (addr ⊞ 2 ^ 10 = addr + 2 ^ 10) as E.
  { unfold add64. apply u64_id. unfold is_u64. split; [lia|].
    assert (q / 2 ^ 12 < 2 ^ 42) by (apply Z.div_lt_upper_bound; [lia|]; unfold q; apply Z.div_lt_upper_bound; lia). lia. }
  rewrite E. replace ((addr + 2 ^ 10) / 2 ^ 10) with (q + 1) by (unfold q; rewrite <- Z.div_add by lia; f_equal; lia).
  assert ((q + 1) / 2 ^ 12 = q / 2 ^ 12) as E1.
  { symmetry. apply (Z.div_unique_pos _ _ _ (q mod 2 ^ 12 + 1)); [pose proof (Z.mod_pos_bound q (2 ^ 12)); lia|lia]. }
  assert (forall a, a / 2 ^ 22 = a / 2 ^ 10 / 2 ^ 12) as D22 by (intros; by rewrite Z.div_div by lia).
  assert (forall a, a / 2 ^ 35 = a / 2 ^ 10 / 2 ^ 12 / 2 ^ 13) as D35 by (intros; by rewrite !Z.div_div by lia).
  rewrite !D22, !D35. fold q. replace ((addr + 2 ^ 10) / 2 ^ 10) with (q + 1) by (unfold q; rewrite <- Z.div_add by lia; f_equal; lia).
  rewrite E1. split; [done|].
  symmetry. apply (Z.mod_unique_pos _ _ (q / 2 ^ 12)); [pose proof (Z.mod_pos_bound q (2 ^ 12)); lia|lia].
Qed.

(** ** The tree *)

Definition word_at (m : memory) (n ix : Z) : Z :=
  match nodes m !! n with Some nd => word nd ix | None => NULL end.

Fixpoint descend (m : memory) (n : Z) (p : list Z) : Z :=
  match p with
  | [] => n
  | ix :: p => if n =? NULL then NULL else descend m (word_at m n ix) p
  end.

(** The node at the end of a path of indices. *)
Definition node_at (m : memory) (p : list Z) : Z := descend m (root m) p.

Definition field_index (f : field) : Z := match f with Chunk => 0 | Actor => 1 end.
Definition word_index (addr : Z) (f : field) : Z := level_index addr 2 * 2 + field_index f.

(** The words of the page of [addr]. *)
Definition entry (m : memory) (addr : Z) (f : field) : Z :=
  let n := node_at m (path addr 2) in if n =? NULL then NULL else word_at m n (word_index addr f).

(** A node has the length of its level and is at the end of one path only. *)
Record inv (m : memory) : Prop := {
  inv_node p : (List.length p <= 2)%nat -> node_at m p <> NULL ->
    exists nd, nodes m !! node_at m p = Some nd /\ len nd = nwords (level (List.length p));
  inv_inj p q : (List.length p <= 2)%nat -> (List.length q <= 2)%nat -> node_at m p <> NULL ->
    node_at m p = node_at m q -> p = q
}.

Lemma descend_null m p : descend m NULL p = NULL.
Proof. by destruct p. Qed.

Lemma descend_snoc m p ix : forall n,
  descend m n (p ++ [ix]) = if descend m n p =? NULL then NULL else word_at m (descend m n p) ix.
Proof.
  induction p as [|i p IH]; intros n; [done|]. cbn. destruct (n =? NULL); [done|]. apply IH.
Qed.

Lemma node_at_snoc m p ix :
  node_at m (p ++ [ix]) = if node_at m p =? NULL then NULL else word_at m (node_at m p) ix.
Proof. apply descend_snoc. Qed.

(** The word that links a node, on the path of [addr]. *)
Definition place_ok (m : memory) (addr : Z) (i : nat) (l : place) : Prop :=
  match i, l with
  | O, Root => True
  | S j, Word n ix => (j < 2)%nat /\ n = node_at m (path addr j) /\ n <> NULL /\ ix = level_index addr j
  | _, _ => False
  end.

Lemma in_range m p ix :
  inv m -> (List.length p <= 2)%nat -> node_at m p <> NULL -> 0 <= ix < nwords (level (List.length p)) ->
  exists nd, nodes m !! node_at m p = Some nd /\ (0 <=? ix) && (ix <? len nd) = true.
Proof.
  intros Hinv Hp Hn Hix. destruct (inv_node m Hinv p Hp Hn) as (nd & E & El). exists nd. split; [done|].
  rewrite El. apply andb_true_intro. split; [apply Z.leb_le|apply Z.ltb_lt]; lia.
Qed.

Lemma load_word m p ix :
  inv m -> (List.length p <= 2)%nat -> node_at m p <> NULL -> 0 <= ix < nwords (level (List.length p)) ->
  load m (Word (node_at m p) ix) = Ret (word_at m (node_at m p) ix).
Proof.
  intros Hinv Hp Hn Hix. destruct (in_range m p ix Hinv Hp Hn Hix) as (nd & E & Er).
  unfold load, word_at. by rewrite E, Er.
Qed.

Lemma link_range addr j : is_u64 addr -> (j < 2)%nat -> 0 <= level_index addr j < nwords (level j).
Proof.
  intros Ha Hj. pose proof (level_index_range addr j Ha).
  assert (mask (level j) < nwords (level j)) by (destruct j as [|[|j]]; [by vm_compute|by vm_compute|lia]). lia.
Qed.

Lemma leaf_range addr f : is_u64 addr -> 0 <= word_index addr f < nwords (level 2).
Proof.
  intros Ha. pose proof (level_index_range addr 2 Ha). unfold word_index.
  change (mask (level 2)) with (2 ^ 12 - 1) in *. change (nwords (level 2)) with (2 ^ 13). destruct f; cbn [field_index]; lia.
Qed.

Lemma load_place m addr i l :
  inv m -> is_u64 addr -> place_ok m addr i l -> load m l = Ret (node_at m (path addr i)).
Proof.
  intros Hinv Ha Hl. destruct i as [|j], l as [|n ix]; try done. destruct Hl as (Hj & -> & Hn & ->).
  rewrite load_word; rewrite ?path_length; [|done|lia|done|by apply link_range].
  rewrite path_S, node_at_snoc. by rewrite (proj2 (Z.eqb_neq _ _)).
Qed.

(** A store to a word of a node that exists. *)
Lemma store_word m p ix v :
  inv m -> (List.length p <= 2)%nat -> node_at m p <> NULL -> 0 <= ix < nwords (level (List.length p)) ->
  exists m', store m (Word (node_at m p) ix) v = Ret m' /\ root m' = root m /\
    (forall n, (exists nd, nodes m !! n = Some nd) ->
       exists nd nd', nodes m !! n = Some nd /\ nodes m' !! n = Some nd' /\ len nd' = len nd) /\
    forall n x, word_at m' n x = if decide (n = node_at m p /\ x = ix) then v else word_at m n x.
Proof.
  intros Hinv Hp Hn Hix. destruct (in_range m p ix Hinv Hp Hn Hix) as (nd & E & Er).
  unfold store. rewrite E, Er. eexists. split; [done|]. split; [done|]. cbn [nodes]. split.
  - intros n (nd0 & E0). exists nd0. destruct (decide (n = node_at m p)) as [->|Hne].
    + rewrite lookup_insert_eq. eexists. split; [done|]. split; [done|]. cbn [len]; congruence.
    + rewrite lookup_insert_ne by done. by exists nd0.
  - intros n x. unfold word_at. cbn [nodes]. destruct (decide (n = node_at m p)) as [->|Hne].
    + rewrite lookup_insert_eq, E. unfold word. cbn [words]. destruct (decide (x = ix)) as [->|Hx].
      * rewrite lookup_insert_eq. by destruct (decide _); [|tauto].
      * rewrite lookup_insert_ne by done. by destruct (decide _); [tauto|].
    + rewrite lookup_insert_ne by done. by destruct (decide _); [tauto|].
Qed.

(** Nodes stay where they are. *)
Definition extends (m m' : memory) : Prop :=
  forall p, (List.length p <= 2)%nat -> node_at m p <> NULL -> node_at m' p = node_at m p.

(** A store to a word of a page changes this word only. *)
Lemma store_leaf m addr f v :
  inv m -> is_u64 addr -> node_at m (path addr 2) <> NULL ->
  exists m', store m (Word (node_at m (path addr 2)) (word_index addr f)) v = Ret m' /\ inv m' /\ extends m m' /\
    forall a g, is_u64 a -> entry m' a g = if decide (page a = page addr /\ g = f) then v else entry m a g.
Proof.
  intros Hinv Ha Hn.
  destruct (store_word m (path addr 2) (word_index addr f) v Hinv) as (m' & E & Hroot & Hnodes & Hw);
    rewrite ?path_length; [lia|done|by apply leaf_range|]. exists m'. split; [done|].
  assert (forall p, (List.length p <= 2)%nat -> node_at m' p = node_at m p) as Hsame.
  { intros p. induction p as [|x p IH] using rev_ind; intros Hp; [done|]. rewrite length_app in Hp. cbn in Hp.
    rewrite !node_at_snoc, IH by lia. destruct (Z.eqb_spec (node_at m p) NULL) as [|Hnp]; [done|].
    rewrite Hw. destruct (decide _) as [[En _]|]; [|done].
    apply (inv_inj m Hinv) in En; [|lia|by rewrite path_length|done].
    apply (f_equal List.length) in En. rewrite path_length in En. lia. }
  split; [|split].
  - constructor.
    + intros p Hp Hnp. rewrite Hsame in * by done. destruct (inv_node m Hinv p Hp Hnp) as (nd & E1 & E2).
      destruct (Hnodes _ (ex_intro _ _ E1)) as (nd1 & nd' & E3 & E4 & E5). exists nd'. split; [done|]. congruence.
    + intros p q Hp Hq. rewrite !Hsame by done. by apply (inv_inj m Hinv).
  - intros p Hp _. by apply Hsame.
  - intros a g Hau. unfold entry. rewrite Hsame by by rewrite path_length.
    destruct (Z.eqb_spec (node_at m (path a 2)) NULL) as [En|En].
    + destruct (decide _) as [[Hp _]|]; [|done]. apply page_path in Hp; [|done|done].
      rewrite !(path_S _ 2) in Hp. apply app_inj_2 in Hp as [Hp _]; [|done]. congruence.
    + rewrite Hw. apply decide_ext. rewrite page_path, !(path_S _ 2) by done. split.
      * intros [En2 Ei]. apply (inv_inj m Hinv) in En2; rewrite ?path_length; [|lia|lia|done]. rewrite En2.
        unfold word_index in Ei. destruct g, f; cbn [field_index] in Ei; try lia;
          (split; [|done]); do 2 f_equal; lia.
      * intros [Hp ->]. apply app_inj_2 in Hp as [Hp [= Hl]]; [|done]. unfold word_index. by rewrite Hp, Hl.
Qed.

(** ** A new node *)

Lemma new_node_fresh m i :
  let c := (new_node m i).2 in nodes m !! c = None /\ c <> NULL.
Proof. apply new_addr_fresh. Qed.

Lemma free_new_node m i : free_node (new_node m i).1 (new_node m i).2 = m.
Proof.
  destruct m as [r ns]. unfold free_node, new_node. cbn. f_equal.
  apply delete_insert_id. apply (new_addr_fresh ns).
Qed.

(** Before it is linked a new node changes nothing. *)
Lemma node_at_new m i p : inv m -> node_at (new_node m i).1 p = node_at m p.
Proof.
  intros Hinv. induction p as [|x p IH] using rev_ind; [done|]. rewrite !node_at_snoc, IH.
  destruct (node_at m p =? NULL); [done|]. unfold word_at, new_node. cbn [fst nodes].
  destruct (decide (node_at m p = new_addr (nodes m))) as [->|Hne].
  - rewrite lookup_insert_eq, (proj1 (new_addr_fresh _)). unfold word. cbn [words]. by rewrite lookup_empty.
  - by rewrite lookup_insert_ne.
Qed.

Lemma load_new m i addr l :
  inv m -> is_u64 addr -> place_ok m addr i l -> load (new_node m i).1 l = Ret (node_at m (path addr i)).
Proof.
  intros Hinv Ha Hl. rewrite <- (load_place m addr i l Hinv Ha Hl). unfold load, new_node. destruct l as [|n ix]; [done|].
  cbn [fst nodes]. destruct i as [|j]; [done|]. destruct Hl as (Hj & -> & Hn & _).
  destruct (inv_node m Hinv (path addr j)) as (nd & E & _); rewrite ?path_length; [lia|done|].
  rewrite lookup_insert_ne; [done|]. intros Ec. rewrite <- Ec, (proj1 (new_addr_fresh _)) in E. done.
Qed.

(** The tree once the node [c] has been linked at the end of the path [p0], in terms of the
    links of the new memory. *)
Lemma linked_spec m m' p0 c :
  inv m -> (List.length p0 <= 2)%nat -> node_at m p0 = NULL -> c <> NULL -> nodes m !! c = None ->
  (exists nd, nodes m' !! c = Some nd /\ words nd = ∅ /\ len nd = nwords (level (List.length p0))) ->
  (forall n nd, nodes m !! n = Some nd -> exists nd', nodes m' !! n = Some nd' /\ len nd' = len nd) ->
  (forall p, (List.length p <= 2)%nat -> node_at m' p = if decide (p = p0) then c else node_at m p) ->
  inv m' /\ extends m m'.
Proof.
  intros Hinv Hlen Hnull Hc Hfresh (nd & Ec & Ew & El) Hnodes Hat.
  assert (forall p, (List.length p <= 2)%nat -> node_at m p <> NULL -> node_at m p <> c) as Hold.
  { intros p Hp Hn E. destruct (inv_node m Hinv p Hp Hn) as (nd0 & E0 & _). congruence. }
  split; [constructor|].
  - intros p Hp. rewrite Hat by done. destruct (decide (p = p0)) as [->|Hne]; intros Hn; [by exists nd|].
    destruct (inv_node m Hinv p Hp Hn) as (nd0 & E0 & El0). destruct (Hnodes _ _ E0) as (nd' & E' & El').
    exists nd'. split; [done|]. congruence.
  - intros p q Hp Hq. rewrite !Hat by done. destruct (decide (p = p0)) as [->|Hne], (decide (q = p0)) as [->|Hne'];
      intros Hn Epq; [done| | |by apply (inv_inj m Hinv)].
    + destruct (Hold q Hq); congruence.
    + by destruct (Hold p Hp).
  - intros p Hp Hn. rewrite Hat by done. destruct (decide (p = p0)) as [->|]; [done|done].
Qed.

(** What the compare and exchange of a new node does: the node is linked, no word of a page
    changes. *)
Record installed (m m' : memory) (addr : Z) (i : nat) (c : Z) : Prop := {
  in_inv : inv m';
  in_extends : extends m m';
  in_node : node_at m' (path addr i) = c;
  in_entry a f : is_u64 a -> entry m' a f = entry m a f
}.

Lemma install_entries m m' p0 c :
  (List.length p0 <= 2)%nat -> node_at m p0 = NULL -> c <> NULL ->
  (forall p, (List.length p <= 2)%nat -> node_at m' p = if decide (p = p0) then c else node_at m p) ->
  (forall x, word_at m' c x = NULL) ->
  (forall p x, List.length p = 2%nat -> node_at m p <> NULL -> word_at m' (node_at m p) x = word_at m (node_at m p) x) ->
  forall a f, entry m' a f = entry m a f.
Proof.
  intros Hlen Hnull Hc Hat Hcw Hw a f. unfold entry. rewrite Hat by by rewrite path_length.
  destruct (decide (path a 2 = p0)) as [->|Hne].
  - rewrite Hnull, Hcw. by destruct (c =? NULL).
  - destruct (Z.eqb_spec (node_at m (path a 2)) NULL) as [|Hn]; [done|]. apply Hw; [by rewrite path_length|done].
Qed.

Lemma install_root m addr :
  inv m -> root m = NULL ->
  let '(m1, c) := new_node m 0 in
  exists m', store m1 Root c = Ret m' /\ installed m m' addr 0 c.
Proof.
  intros Hinv Hroot. unfold new_node. destruct (new_addr_fresh (nodes m)) as [Hfresh Hc]. set (c := new_addr _) in *.
  eexists. split; [done|]. cbn [root nodes]. set (m' := mk_memory _ _).
  assert (forall x, word_at m' c x = NULL) as Hcw.
  { intros x. unfold word_at, m'. cbn [nodes]. rewrite lookup_insert_eq. unfold word. cbn [words]. by rewrite lookup_empty. }
  assert (forall p, node_at m p = NULL) as Hm by (intros p; unfold node_at; rewrite Hroot; apply descend_null).
  assert (forall p, (List.length p <= 2)%nat -> node_at m' p = if decide (p = path addr 0) then c else node_at m p) as Hat.
  { intros p _. rewrite Hm. induction p as [|x p IH] using rev_ind; [done|]. rewrite node_at_snoc, IH. change (path addr 0) with (@nil Z).
    destruct (decide (p ++ [x] = [])) as [E|]; [by apply app_eq_nil in E as [_ ?]|].
    destruct (decide (p = [])); [rewrite Hcw; by destruct (c =? NULL)|done]. }
  destruct (linked_spec m m' (path addr 0) c Hinv) as [Hinv' Hext]; try done; [cbn; lia| | |intros p Hp; rewrite Hat by done; by apply decide_ext|].
  - unfold m'. cbn [nodes]. rewrite lookup_insert_eq. eexists. split; [done|]. done.
  - intros n nd E. unfold m'. cbn [nodes]. rewrite lookup_insert_ne by congruence. by exists nd.
  - constructor; [done|done|done|]. intros a f _. apply (install_entries m m' (path addr 0) c); [cbn; lia|done|done|intros p Hp; rewrite Hat by done; by apply decide_ext|done|].
    intros p x _ Hn. by rewrite Hm in Hn.
Qed.

Lemma install_word m addr j :
  inv m -> is_u64 addr -> (j < 2)%nat -> node_at m (path addr j) <> NULL -> node_at m (path addr (S j)) = NULL ->
  let '(m1, c) := new_node m (S j) in
  exists m', store m1 (Word (node_at m (path addr j)) (level_index addr j)) c = Ret m' /\
    installed m m' addr (S j) c.
Proof.
  intros Hinv Ha Hj Hn Hnull. unfold new_node. destruct (new_addr_fresh (nodes m)) as [Hfresh Hc].
  set (c := new_addr _) in *. set (n := node_at m (path addr j)) in *.
  destruct (in_range m (path addr j) (level_index addr j) Hinv) as (nd & E & Er);
    rewrite ?path_length; [lia|done|by apply link_range|]. fold n in E.
  assert (n <> c) as Hnc by congruence. unfold store. cbn [nodes root]. rewrite lookup_insert_ne, E, Er by done.
  eexists. split; [done|]. set (m' := mk_memory _ _).
  assert (forall x, word_at m' c x = NULL) as Hcw.
  { intros x. unfold word_at, m'. cbn [nodes]. rewrite lookup_insert_ne, lookup_insert_eq by done.
    unfold word. cbn [words]. by rewrite lookup_empty. }
  assert (forall k x, k <> c -> word_at m' k x = if decide (k = n /\ x = level_index addr j) then c else word_at m k x) as Hw.
  { intros k x Hk. unfold word_at, m'. cbn [nodes]. destruct (decide (k = n)) as [->|Hkn].
    - rewrite lookup_insert_eq, E. unfold word. cbn [words]. destruct (decide (x = level_index addr j)) as [->|Hx].
      + rewrite lookup_insert_eq. by destruct (decide _); [|tauto].
      + rewrite lookup_insert_ne by done. by destruct (decide _); [tauto|].
    - rewrite !lookup_insert_ne by done. by destruct (decide _); [tauto|]. }
  assert (forall p, (List.length p <= 2)%nat -> node_at m p <> NULL -> node_at m p <> c) as Hold.
  { intros p Hp Hn0 E0. destruct (inv_node m Hinv p Hp Hn0) as (nd0 & E1 & _). congruence. }
  assert (forall p, (List.length p <= 2)%nat -> node_at m' p = if decide (p = path addr (S j)) then c else node_at m p) as Hat.
  { intros p. induction p as [|x p IH] using rev_ind; intros Hp.
    - destruct (decide _) as [E0|]; [|done]. apply (f_equal List.length) in E0. by rewrite path_length in E0.
    - rewrite length_app in Hp. cbn in Hp. rewrite !node_at_snoc, IH by lia.
      destruct (decide (p = path addr (S j))) as [->|Hp1].
      + rewrite Hnull, Z.eqb_refl, Hcw. destruct (decide _) as [E0|]; [|by destruct (c =? NULL)].
        apply (f_equal List.length) in E0. rewrite length_app in E0. cbn in E0. lia.
      + rewrite (path_S addr j). destruct (Z.eqb_spec (node_at m p) NULL) as [Ep|Ep].
        * destruct (decide _) as [E0|]; [|done]. apply app_inj_2 in E0 as [E0 _]; [|done]. by rewrite E0 in Ep.
        * rewrite Hw by (apply Hold; [lia|done]). apply decide_ext. split.
          -- intros [E0 ->]. apply (inv_inj m Hinv) in E0 as ->; [done|lia|rewrite path_length; lia|done].
          -- intros E0. apply app_inj_2 in E0 as [-> [= ->]]; [|done]. done. }
  destruct (linked_spec m m' (path addr (S j)) c Hinv) as [Hinv' Hext]; rewrite ?path_length; try done; [| |].
  - unfold m'. cbn [nodes]. rewrite lookup_insert_ne, lookup_insert_eq by done. eexists. split; [done|]. done.
  - intros k nd0 E0. unfold m'. cbn [nodes]. destruct (decide (k = n)) as [->|Hkn].
    + rewrite lookup_insert_eq. eexists. split; [done|]. cbn [len]. congruence.
    + rewrite !lookup_insert_ne by congruence. by exists nd0.
  - constructor; [done|done| |].
    + rewrite Hat by (rewrite path_length; lia). by destruct (decide _).
    + intros a f _. apply (install_entries m m' (path addr (S j)) c); rewrite ?path_length; [lia|done|done|done|done|].
      intros p x Hp Hn0. rewrite Hw by (apply Hold; [lia|done]). destruct (decide _) as [[E0 _]|]; [|done].
      apply (inv_inj m Hinv) in E0; [|lia|rewrite path_length; lia|done].
      apply (f_equal List.length) in E0. rewrite path_length in E0. lia.
Qed.

(** ** Steps *)

(** A call is on the path of its page. *)
Definition pc_ok (m : memory) (p : pc) : Prop :=
  match p with
  | Idle => True
  | Set_node _ addr i l | Set_install _ addr i l | Get_node _ addr i l =>
      is_u64 addr /\ (i <= 2)%nat /\ place_ok m addr i l
  | Set_chunk _ addr node ix | Get_chunk _ addr node ix =>
      is_u64 addr /\ node <> NULL /\ node = node_at m (path addr 2) /\ ix = word_index addr Chunk
  | Set_actor _ addr node ix | Get_actor addr node ix _ =>
      is_u64 addr /\ node <> NULL /\ node = node_at m (path addr 2) /\ ix = word_index addr Actor
  end.

Lemma place_ok_extends m m' addr i l : extends m m' -> place_ok m addr i l -> place_ok m' addr i l.
Proof.
  intros Hext. destruct i as [|j], l as [|n ix]; cbn; try done. intros (Hj & -> & Hn & ->).
  rewrite Hext by (rewrite ?path_length; lia || done). done.
Qed.

Lemma pc_ok_extends m m' p : extends m m' -> pc_ok m p -> pc_ok m' p.
Proof.
  intros Hext. destruct p as [|a addr i l|a addr i l|a addr n ix|a addr n ix|b addr i l|b addr n ix|addr n ix c];
    cbn [pc_ok]; [done|..].
  1, 2, 5: intros (Ha & Hi & Hl); split_and!; [done|done|by eapply place_ok_extends].
  all: intros (Ha & Hn & -> & ->); split_and!; try done; symmetry; apply Hext; [by rewrite path_length|done].
Qed.

(** The map of the memory. *)
Definition rel (m : memory) (s : spec) : Prop := forall a f, is_u64 a -> spec_get s (page a) f = entry m a f.

(** The effect of a step: the invariants, and the events on the map. *)
Record step_ok (m m' : memory) (p : pc) (events : list event) : Prop := {
  so_inv : inv m';
  so_pc : pc_ok m' p;
  so_extends : extends m m';
  so_replay s : rel m s -> exists s', replay s events = Some s' /\ rel m' s'
}.

Lemma step_ok_same m p : inv m -> pc_ok m p -> step_ok m m p [].
Proof. intros Hinv Hp. constructor; [done|done|by intros q|]. intros s Hs. by exists s. Qed.

Lemma step_ok_loaded m p addr f :
  inv m -> is_u64 addr -> pc_ok m p -> step_ok m m p [Loaded (page addr) f (entry m addr f)].
Proof.
  intros Hinv Ha Hp. constructor; [done|done|by intros q|]. intros s Hs. exists s. split; [|done]. cbn.
  by rewrite Hs, Z.eqb_refl by done.
Qed.

Lemma set_enter_eq a addr i node :
  is_u64 addr -> (i <= 2)%nat ->
  set_enter a addr i node =
    Ret (if last_level i then Set_chunk a addr node (word_index addr Chunk)
         else Set_node a addr (S i) (Word node (level_index addr i))).
Proof.
  intros Ha Hi. unfold set_enter. pose proof (level_index_range addr i Ha) as Hr.
  assert (mask (level i) <= nwords (level i) * 8) by (destruct i as [|[|i]]; by vm_compute).
  rewrite (proj2 (Z.leb_le _ (nwords (level i) * 8))), (proj2 (Z.leb_le _ (mask (level i)))) by lia. cbn [andb negb].
  destruct (last_level i) eqn:E; [|done]. unfold word_index. cbn [field_index]. rewrite Z.add_0_r.
  by apply Nat.eqb_eq in E as ->.
Qed.

(** The call after a node of level [i] was found. *)
Lemma entered_ok m a addr i :
  is_u64 addr -> (i <= 2)%nat -> node_at m (path addr i) <> NULL ->
  pc_ok m (if last_level i then Set_chunk a addr (node_at m (path addr i)) (word_index addr Chunk)
           else Set_node a addr (S i) (Word (node_at m (path addr i)) (level_index addr i))).
Proof.
  intros Ha Hi Hn. destruct (last_level i) eqn:E.
  - apply Nat.eqb_eq in E as ->. done.
  - apply Nat.eqb_neq in E. change (PAGEMAP_LEVELS - 1)%nat with 2%nat in E. cbn. split_and!; (done || lia).
Qed.

Lemma set_node_step m a addr i l :
  inv m -> pc_ok m (Set_node a addr i l) ->
  exists p, set_step m (Set_node a addr i l) = Ret (m, p, []) /\ step_ok m m p [] /\
    p = if node_at m (path addr i) =? NULL then Set_install a addr i l
        else if last_level i then Set_chunk a addr (node_at m (path addr i)) (word_index addr Chunk)
        else Set_node a addr (S i) (Word (node_at m (path addr i)) (level_index addr i)).
Proof.
  intros Hinv (Ha & Hi & Hl). cbn [set_step]. rewrite (load_place m addr i l) by done. cbn [mbind outcome_bind].
  destruct (Z.eqb_spec (node_at m (path addr i)) NULL) as [E|E].
  - eexists. split; [done|]. split; [|done]. by apply step_ok_same.
  - rewrite set_enter_eq by done. eexists. split; [done|]. split; [|done].
    apply step_ok_same; [done|]. by apply entered_ok.
Qed.

Lemma set_install_step m a addr i l :
  inv m -> pc_ok m (Set_install a addr i l) ->
  exists m' p, set_step m (Set_install a addr i l) = Ret (m', p, []) /\ step_ok m m' p [] /\
    (forall b f, is_u64 b -> entry m' b f = entry m b f) /\
    p = if last_level i then Set_chunk a addr (node_at m' (path addr i)) (word_index addr Chunk)
        else Set_node a addr (S i) (Word (node_at m' (path addr i)) (level_index addr i)).
Proof.
  intros Hinv (Ha & Hi & Hl). cbn [set_step]. pose proof (load_new m i addr l Hinv Ha Hl) as Hload.
  pose proof (free_new_node m i) as Hfree. pose proof (new_node_fresh m i) as [_ Hc].
  destruct (Z.eqb_spec (node_at m (path addr i)) NULL) as [E|E].
  - assert (exists m', store (new_node m i).1 l (new_node m i).2 = Ret m' /\ installed m m' addr i (new_node m i).2)
      as (m' & Hstore & [Hinv' Hext Hnode Hent]).
    { destruct i as [|j], l as [|n ix]; try done.
      - by apply (install_root m addr Hinv).
      - destruct Hl as (Hj & -> & Hn & ->). by apply (install_word m addr j). }
    destruct (new_node m i) as [m1 c]. cbn [fst snd] in *. rewrite Hload. cbn [mbind outcome_bind].
    rewrite E, Z.eqb_refl, Hstore. cbn [mbind outcome_bind]. rewrite set_enter_eq by done.
    eexists m', _. split; [done|]. rewrite Hnode. split; [|done]. constructor; [done| |done|].
    + rewrite <- Hnode. apply entered_ok; [done|done|]. by rewrite Hnode.
    + intros s Hs. exists s. split; [done|]. intros b f Hb. by rewrite Hent, Hs.
  - destruct (new_node m i) as [m1 c]. cbn [fst snd] in *. rewrite Hload. cbn [mbind outcome_bind].
    rewrite (proj2 (Z.eqb_neq _ _)), set_enter_eq, Hfree by done. eexists m, _. split; [done|]. split; [|done].
    apply step_ok_same; [done|]. by apply entered_ok.
Qed.

Lemma stored_ok m m' p addr f v :
  inv m' -> pc_ok m' p -> extends m m' -> is_u64 addr ->
  (forall a g, is_u64 a -> entry m' a g = if decide (page a = page addr /\ g = f) then v else entry m a g) ->
  step_ok m m' p [Stored (page addr) f v].
Proof.
  intros Hinv Hp Hext Ha Hent. constructor; [done|done|done|]. intros s Hs. eexists. split; [done|].
  intros a g Hu. rewrite Hent by done. unfold spec_get. destruct (decide (page a = page addr /\ g = f)) as [[-> ->]|Hne].
  - by rewrite lookup_insert_eq.
  - rewrite lookup_insert_ne by (intros [= E1 E2]; by apply Hne). by apply Hs.
Qed.

Lemma set_chunk_step m a addr n ix :
  inv m -> pc_ok m (Set_chunk a addr n ix) ->
  exists m', set_step m (Set_chunk a addr n ix) =
      Ret (m', Set_actor a addr n (ix + 1), [Stored (page addr) Chunk (chunk a)]) /\
    step_ok m m' (Set_actor a addr n (ix + 1)) [Stored (page addr) Chunk (chunk a)] /\
    forall b g, is_u64 b -> entry m' b g = if decide (page b = page addr /\ g = Chunk) then chunk a else entry m b g.
Proof.
  intros Hinv (Ha & Hn & En & ->). cbn [set_step]. rewrite En in Hn |- *.
  destruct (store_leaf m addr Chunk (chunk a) Hinv Ha Hn) as (m' & E & Hinv' & Hext & Hent). rewrite E.
  cbn [mbind outcome_bind]. eexists. split; [done|]. split; [|done]. apply stored_ok; try done.
  cbn [pc_ok]. split_and!; try done; [|unfold word_index; cbn [field_index]; lia]. symmetry. apply Hext; [by rewrite path_length|done].
Qed.

(** The next page of a call, after the page of [addr]. *)
Definition next_page (a : set_args) (addr n ix : Z) : pc :=
  match addr_end a with
  | None => Idle
  | Some e =>
      if addr ⊞ POOL_ALIGN <? e then
        if (ix + 1) / 2 <=? mask (level 2) then Set_chunk a (addr ⊞ POOL_ALIGN) n (ix + 1)
        else Set_node a (addr ⊞ POOL_ALIGN) 0 Root
      else Idle
  end.

Lemma set_actor_step m a addr n ix :
  inv m -> pc_ok m (Set_actor a addr n ix) ->
  exists m', set_step m (Set_actor a addr n ix) =
      Ret (m', next_page a addr n ix, [Stored (page addr) Actor (actor a)]) /\
    step_ok m m' (next_page a addr n ix) [Stored (page addr) Actor (actor a)] /\
    forall b g, is_u64 b -> entry m' b g = if decide (page b = page addr /\ g = Actor) then actor a else entry m b g.
Proof.
  intros Hinv (Ha & Hn & En & Eix). cbn [set_step]. pose proof (level_index_range addr 2 Ha) as Hr.
  assert (ix = 2 * level_index addr 2 + 1) as Eix' by (rewrite Eix; unfold word_index; cbn; lia).
  assert (ix / 2 = level_index addr 2) as Ed by (symmetry; apply (Z.div_unique_pos _ _ _ 1); lia).
  assert ((ix + 1) / 2 = level_index addr 2 + 1) as Ed' by (symmetry; apply (Z.div_unique_pos _ _ _ 0); lia).
  change (mask (level 2)) with (2 ^ 12 - 1) in *. change (nwords (level 2)) with (2 ^ 13).
  rewrite (proj2 (Z.leb_le ix _)), (proj2 (Z.leb_le (ix / 2) _)) by lia. cbn [andb negb].
  rewrite En in Hn. destruct (store_leaf m addr Actor (actor a) Hinv Ha Hn) as (m' & E & Hinv' & Hext & Hent).
  rewrite <- En, <- Eix in E. rewrite E.
  cbn [mbind outcome_bind]. exists m'. split.
  { unfold next_page. destruct (addr_end a) as [e|]; [|done]. destruct (_ <? e); [|done]. by destruct (_ <=? _). }
  split; [|done]. apply stored_ok; try done. unfold next_page. destruct (addr_end a) as [e|]; [|done].
  destruct (_ <? e); [|done]. assert (is_u64 (addr ⊞ POOL_ALIGN)) as Ha' by auto with word_range.
  rewrite Ed'. destruct (Z.leb_spec (level_index addr 2 + 1) (mask (level 2))) as [Hle|]; [|cbn [pc_ok]; split_and!; (done || lia)].
  rewrite En. destruct (next_index addr Ha Hle) as [Ep Ei]. cbn [pc_ok]. rewrite Ep.
  split; [done|]. split; [done|]. split.
  - symmetry. apply Hext; [by rewrite path_length|done].
  - unfold word_index. rewrite Ei. cbn. lia.
Qed.

Lemma get_node_step m both addr i l :
  inv m -> pc_ok m (Get_node both addr i l) ->
  exists p events r, get_step m (Get_node both addr i l) = Ret (p, events, r) /\ step_ok m m p events /\
    if node_at m (path addr i) =? NULL then p = Idle /\ r = Some (NULL, None) /\ entry m addr Chunk = NULL
    else r = None /\ p = if last_level i then Get_chunk both addr (node_at m (path addr i)) (word_index addr Chunk)
                         else Get_node both addr (S i) (Word (node_at m (path addr i)) (level_index addr i)).
Proof.
  intros Hinv (Ha & Hi & Hl). cbn [get_step]. rewrite (load_place m addr i l) by done. cbn [mbind outcome_bind].
  destruct (Z.eqb_spec (node_at m (path addr i)) NULL) as [E|E].
  - assert (entry m addr Chunk = NULL) as Hent.
    { assert (forall j, (i <= j)%nat -> node_at m (path addr j) = NULL) as Hnull.
      { intros j Hj. induction Hj as [|j Hj IH]; [done|]. by rewrite path_S, node_at_snoc, IH. }
      unfold entry. by rewrite Hnull. }
    eexists _, _, _. split; [done|]. split; [|done]. rewrite <- Hent at 1. by apply step_ok_loaded.
  - pose proof (level_index_range addr i Ha) as Hr.
    assert (mask (level i) * 2 <= nwords (level i) * 8) by (destruct i as [|[|i]]; by vm_compute).
    assert (level_index addr i * 2 / 2 = level_index addr i) as -> by (apply Z.div_mul; lia).
    rewrite (proj2 (Z.leb_le _ (nwords (level i) * 8))), (proj2 (Z.leb_le _ (mask (level i)))) by lia.
    rewrite (proj2 (Z.leb_le (level_index addr i) (nwords (level i) * 8))) by lia. cbn [andb].
    destruct (last_level i) eqn:El.
    + assert (i = 2%nat) as -> by by apply Nat.eqb_eq in El. eexists _, _, _. split; [done|].
      unfold word_index. cbn [field_index]. rewrite Z.add_0_r. split; [|done]. apply step_ok_same; [done|].
      cbn [pc_ok]. unfold word_index. cbn [field_index]. by rewrite Z.add_0_r.
    + apply Nat.eqb_neq in El. change (PAGEMAP_LEVELS - 1)%nat with 2%nat in El. eexists _, _, _. split; [done|].
      split; [|done]. apply step_ok_same; [done|]. cbn [pc_ok place_ok]. split_and!; (done || lia).
Qed.

Lemma load_leaf m addr f :
  inv m -> is_u64 addr -> node_at m (path addr 2) <> NULL ->
  load m (Word (node_at m (path addr 2)) (word_index addr f)) = Ret (entry m addr f).
Proof.
  intros Hinv Ha Hn. rewrite load_word; rewrite ?path_length; [|done|lia|done|by apply leaf_range].
  unfold entry. by rewrite (proj2 (Z.eqb_neq _ _)).
Qed.

Lemma get_chunk_step m both addr n ix :
  inv m -> pc_ok m (Get_chunk both addr n ix) ->
  exists p r, get_step m (Get_chunk both addr n ix) = Ret (p, [Loaded (page addr) Chunk (entry m addr Chunk)], r) /\
    step_ok m m p [Loaded (page addr) Chunk (entry m addr Chunk)] /\
    if both then p = Get_actor addr n (ix + 1) (entry m addr Chunk) /\ r = None
    else p = Idle /\ r = Some (entry m addr Chunk, None).
Proof.
  intros Hinv (Ha & Hn & En & Eix). cbn [get_step].
  assert (load m (Word n ix) = Ret (entry m addr Chunk)) as -> by (rewrite En in Hn |- *; rewrite Eix; by apply load_leaf).
  cbn [mbind outcome_bind]. destruct both.
  - pose proof (level_index_range addr 2 Ha) as Hr. unfold word_index in Eix. cbn [field_index] in Eix.
    assert ((ix + 1) / 2 = level_index addr 2) as -> by (symmetry; apply (Z.div_unique_pos _ _ _ 1); lia).
    rewrite (proj2 (Z.leb_le (level_index addr 2) _)) by lia.
    change (mask (level 2)) with (2 ^ 12 - 1) in *. change (nwords (level 2)) with (2 ^ 13).
    rewrite (proj2 (Z.leb_le _ _)) by lia. cbn [andb]. eexists _, _. split; [done|]. split; [|done].
    apply step_ok_loaded; [done|done|]. cbn [pc_ok]. split_and!; try done.
    unfold word_index. cbn [field_index]. lia.
  - eexists _, _. split; [done|]. split; [|done]. by apply step_ok_loaded.
Qed.

Lemma get_actor_step m addr n ix c :
  inv m -> pc_ok m (Get_actor addr n ix c) ->
  get_step m (Get_actor addr n ix c) =
    Ret (Idle, [Loaded (page addr) Actor (entry m addr Actor)], Some (c, Some (entry m addr Actor))) /\
  step_ok m m Idle [Loaded (page addr) Actor (entry m addr Actor)].
Proof.
  intros Hinv (Ha & Hn & En & Eix). cbn [get_step].
  assert (load m (Word n ix) = Ret (entry m addr Actor)) as -> by (rewrite En in Hn |- *; rewrite Eix; by apply load_leaf).
  split; [done|]. by apply step_ok_loaded.
Qed.

Lemma call_step_ok m p :
  inv m -> pc_ok m p ->
  exists m' p' events r, call_step m p = Ret (m', p', events, r) /\ step_ok m m' p' events.
Proof.
  intros Hinv Hp. destruct p as [|a addr i l|a addr i l|a addr n ix|a addr n ix|both addr i l|both addr n ix|addr n ix c];
    cbn [call_step].
  - eexists _, _, _, _. split; [done|]. by apply step_ok_same.
  - destruct (set_node_step m a addr i l Hinv Hp) as (p & -> & Hok & _). by eexists _, _, _, _.
  - destruct (set_install_step m a addr i l Hinv Hp) as (m' & p & -> & Hok & _). by eexists _, _, _, _.
  - destruct (set_chunk_step m a addr n ix Hinv Hp) as (m' & -> & Hok & _). by eexists _, _, _, _.
  - destruct (set_actor_step m a addr n ix Hinv Hp) as (m' & -> & Hok & _). by eexists _, _, _, _.
  - destruct (get_node_step m both addr i l Hinv Hp) as (p & e & r & -> & Hok & _). by eexists _, _, _, _.
  - destruct (get_chunk_step m both addr n ix Hinv Hp) as (p & r & -> & Hok & _). by eexists _, _, _, _.
  - destruct (get_actor_step m addr n ix c Hinv Hp) as (-> & Hok). by eexists _, _, _, _.
Qed.

(** ** Schedules *)

Record system_ok (s : system) (sp : spec) : Prop := {
  sy_inv : inv (mem s);
  sy_threads : Forall (pc_ok (mem s)) (threads s);
  sy_rel : rel (mem s) sp
}.

Definition action_ok (a : action) : Prop :=
  match a with
  | Set_page _ addr _ _ | Set_bulk _ addr _ _ _ | Get _ addr | Get_chunk_of _ addr => is_u64 addr
  | Step _ => True
  end.

Lemma start_call_ok s sp tid p : system_ok s sp -> pc_ok (mem s) p -> system_ok (start_call s tid p) sp.
Proof.
  intros [H1 H2 H3] Hp. unfold start_call. destruct (threads s !! tid) as [p0|]; [destruct p0|]; try done.
  constructor; [done|by apply Forall_insert|done].
Qed.

Lemma do_action_ok s sp a :
  system_ok s sp -> action_ok a ->
  exists s' events sp', do_action s a = Ret (s', events) /\ replay sp events = Some sp' /\ system_ok s' sp'.
Proof.
  intros Hs Ha. destruct a as [tid addr c o|tid addr c o n|tid addr|tid addr|tid]; cbn [do_action].
  1, 3, 4: eexists _, _, _; split; [done|]; split; [done|]; apply start_call_ok; [done|]; cbn [pc_ok]; split_and!; apply Ha || lia || exact I.
  - eexists _, _, _. split; [done|]. split; [done|]. apply start_call_ok; [done|].
    unfold ponyint_pagemap_set_bulk. destruct (_ <? _); [|done]. cbn [pc_ok]. split_and!; apply Ha || lia || exact I.
  - destruct (threads s !! tid) as [p|] eqn:E; [|by eexists _, _, _]. destruct Hs as [H1 H2 H3].
    destruct (call_step_ok (mem s) p H1) as (m' & p' & events & r & Ec & [Hinv Hp Hext Hrep]); [by eapply Forall_lookup_1 in E|].
    rewrite Ec. cbn [mbind outcome_bind]. destruct (Hrep sp H3) as (sp' & Hr & Hrel).
    eexists _, _, sp'. split; [done|]. split; [done|]. constructor; [done| |done]. apply Forall_insert; [|done].
    eapply Forall_impl; [exact H2|]. intros q. by apply pc_ok_extends.
Qed.

Lemma replay_trace_app sp l1 l2 : replay sp (l1 ++ l2) = replay sp l1 ≫= fun sp => replay sp l2.
Proof.
  revert sp. induction l1 as [|e l1 IH]; intros sp; [done|]. cbn [app replay].
  destruct (replay_event sp e) as [sp1|]; [|done]. apply IH.
Qed.

Lemma exec_ok l s sp :
  system_ok s sp -> Forall action_ok l ->
  exists s' events sp', exec s l = Ret (s', events) /\ replay sp events = Some sp' /\ system_ok s' sp'.
Proof.
  revert s sp. induction l as [|a l IH]; intros s sp Hs Hl; [by eexists _, _, _|]. apply Forall_cons in Hl as [Ha Hl].
  destruct (do_action_ok s sp a Hs Ha) as (s1 & e1 & sp1 & E1 & R1 & H1).
  destruct (IH s1 sp1 H1 Hl) as (s2 & e2 & sp2 & E2 & R2 & H2). cbn [exec]. rewrite E1. cbn [mbind outcome_bind].
  rewrite E2. cbn [mbind outcome_bind]. eexists _, _, sp2. split; [done|]. split; [|done]. by rewrite replay_trace_app, R1.
Qed.

Lemma empty_map_inv : inv empty_map.
Proof. constructor; intros p; unfold node_at; cbn [root empty_map]; by rewrite descend_null. Qed.

Lemma rel_empty : rel empty_map ∅.
Proof. intros a f _. unfold spec_get, entry, node_at. cbn [root empty_map]. by rewrite descend_null, lookup_empty. Qed.

Lemma idle_system_ok n : system_ok (mk_system empty_map (replicate n Idle)) ∅.
Proof. constructor; cbn [mem threads]; [apply empty_map_inv|by apply Forall_replicate|apply rel_empty]. Qed.

(** C17 The page map is linearizable: in every schedule of lookups and updates by any number of
    threads, also of the same pages, no access leaves its node and no assertion fails, every
    load gives what was last stored to the word of the page, and the tree represents the
    resulting map. *)
Theorem pagemap_linearizable n l :
  Forall action_ok l ->
  exists s events sp,
    exec (mk_system empty_map (replicate n Idle)) l = Ret (s, events) /\
    replay ∅ events = Some sp /\
    forall addr f, is_u64 addr -> entry (mem s) addr f = spec_get sp (page addr) f.
Proof.
  intros Hl. destruct (exec_ok l _ _ (idle_system_ok n) Hl) as (s & events & sp & E & R & [_ _ Hrel]).
  exists s, events, sp. split_and!; [done|done|]. intros addr f Ha. symmetry. by apply Hrel.
Qed.

(** ** Calls that run alone *)

Definition pages (a : set_args) (addr : Z) : Z :=
  match addr_end a with None => 1 | Some e => (e - addr + (POOL_ALIGN - 1)) / POOL_ALIGN end.

(** The pages from [addr] to the end of the call. *)
Definition in_pages (a : set_args) (addr b : Z) : bool :=
  (page addr <=? page b) && (page b <? page addr + pages a addr).

(** The words that a call has still to store, and what it stores. *)
Definition todo (p : pc) (b : Z) (f : field) : bool :=
  match p with
  | Set_node a addr _ _ | Set_install a addr _ _ | Set_chunk a addr _ _ => in_pages a addr b
  | Set_actor a addr _ _ => in_pages a addr b && negb (bool_decide (page b = page addr /\ f = Chunk))
  | _ => false
  end.

Definition value (a : set_args) (f : field) : Z := match f with Chunk => chunk a | Actor => actor a end.

Definition args (p : pc) : set_args :=
  match p with
  | Set_node a _ _ _ | Set_install a _ _ _ | Set_chunk a _ _ _ | Set_actor a _ _ _ => a
  | _ => mk_set 0 0 None
  end.

(** The steps that are left: at most eight for each page. *)
Definition steps_left (p : pc) : Z :=
  match p with
  | Set_node a addr i _ => 8 * (pages a addr - 1) + 2 * (3 - Z.of_nat i) + 2
  | Set_install a addr i _ => 8 * (pages a addr - 1) + 2 * (3 - Z.of_nat i) + 1
  | Set_chunk a addr _ _ => 8 * (pages a addr - 1) + 2
  | Set_actor a addr _ _ => 8 * (pages a addr - 1) + 1
  | _ => 0
  end.

(** An update that stays in the address space. *)
Definition update_ok (p : pc) : Prop :=
  match p with
  | Set_node a addr _ _ | Set_install a addr _ _ | Set_chunk a addr _ _ | Set_actor a addr _ _ =>
      match addr_end a with None => True | Some e => 0 <= addr < e /\ e <= 2 ^ PAGEMAP_ADDRESSBITS end
  | Idle => True
  | _ => False
  end.

Lemma pages_pos a addr :
  (match addr_end a with None => True | Some e => 0 <= addr < e /\ e <= 2 ^ PAGEMAP_ADDRESSBITS end) -> 1 <= pages a addr.
Proof.
  unfold pages. destruct (addr_end a) as [e|]; [|done]. intros [Ha He]. apply Z.div_le_lower_bound; [done|].
  change POOL_ALIGN with 1024. lia.
Qed.

Lemma page_small addr : 0 <= addr < 2 ^ PAGEMAP_ADDRESSBITS -> page addr = addr / POOL_ALIGN.
Proof.
  intros Ha. unfold page. change PAGEMAP_ADDRESSBITS with 48 in *. change POOL_ALIGN_BITS with 10.
  change POOL_ALIGN with 1024. apply Z.mod_small. split; [apply Z.div_pos; lia|]. apply Z.div_lt_upper_bound; lia.
Qed.

(** From a page to the next one. *)
Lemma next_page_ok a addr n ix :
  update_ok (Set_actor a addr n ix) ->
  update_ok (next_page a addr n ix) /\ steps_left (next_page a addr n ix) < steps_left (Set_actor a addr n ix) /\
  (next_page a addr n ix = Idle \/ args (next_page a addr n ix) = a) /\
  forall b f, todo (next_page a addr n ix) b f = in_pages a addr b && negb (page b =? page addr).
Proof.
  intros Hok. pose proof (pages_pos a addr Hok) as Hpos. unfold next_page. cbn [update_ok] in Hok.
  destruct (addr_end a) as [e|] eqn:Ee.
  - destruct Hok as [Ha He]. change PAGEMAP_ADDRESSBITS with 48 in *.
    assert (addr ⊞ POOL_ALIGN = addr + 1024) as Ew by (unfold add64; apply u64_id; unfold is_u64; change POOL_ALIGN with 1024; lia).
    rewrite Ew. destruct (Z.ltb_spec (addr + 1024) e) as [Hlt|Hge].
    + assert (pages a (addr + 1024) = pages a addr - 1) as Ep.
      { unfold pages. rewrite Ee. change POOL_ALIGN with 1024.
        replace (e - addr + (1024 - 1)) with (e - (addr + 1024) + (1024 - 1) + 1 * 1024) by lia. rewrite Z.div_add; lia. }
      assert (page (addr + 1024) = page addr + 1) as Eq.
      { rewrite !page_small by (change PAGEMAP_ADDRESSBITS with 48; lia). change POOL_ALIGN with 1024.
        replace (addr + 1024) with (addr + 1 * 1024) by lia. by rewrite Z.div_add. }
      assert (1 <= pages a (addr + 1024)) by (apply pages_pos; rewrite Ee; change PAGEMAP_ADDRESSBITS with 48; lia).
      assert (forall b, in_pages a (addr + 1024) b = in_pages a addr b && negb (page b =? page addr)) as Hin.
      { intros b. unfold in_pages. rewrite Ep, Eq.
        destruct (Z.leb_spec (page addr + 1) (page b)), (Z.leb_spec (page addr) (page b)), (Z.eqb_spec (page b) (page addr));
          try lia; cbn; rewrite ?andb_true_r, ?andb_false_r; try done; f_equal; lia. }
      destruct (_ <=? mask _); cbn [update_ok steps_left args todo]; rewrite Ee, Ep; change PAGEMAP_ADDRESSBITS with 48;
        (split; [lia|split; [cbn; lia|split; [by right|by intros b _]]]).
    + split; [done|]. split; [cbn; lia|]. split; [by left|]. intros b f. cbn [todo].
      assert (pages a addr = 1) as Ep.
      { unfold pages. rewrite Ee. change POOL_ALIGN with 1024. symmetry. apply (Z.div_unique_pos _ _ _ (e - addr - 1)); lia. }
      unfold in_pages. rewrite Ep. destruct (Z.leb_spec (page addr) (page b)), (Z.ltb_spec (page b) (page addr + 1)),
        (Z.eqb_spec (page b) (page addr)); try done; lia.
  - split; [done|]. split; [cbn; lia|]. split; [by left|]. intros b f. cbn [todo]. unfold in_pages, pages. rewrite Ee.
    destruct (Z.leb_spec (page addr) (page b)), (Z.ltb_spec (page b) (page addr + 1)),
      (Z.eqb_spec (page b) (page addr)); try done; lia.
Qed.

Lemma run_update fuel m p :
  inv m -> pc_ok m p -> update_ok p -> steps_left p <= Z.of_nat fuel ->
  exists m', run_call fuel m p None = Ret (m', None) /\ inv m' /\
    forall b f, is_u64 b -> entry m' b f = if todo p b f then value (args p) f else entry m b f.
Proof.
  revert m p. induction fuel as [|fuel IH]; intros m p Hinv Hp Hup Hf.
  { destruct p as [|a addr i l|a addr i l|a addr n ix|a addr n ix|both addr i l|both addr n ix|addr n ix c]; try done;
      [by exists m|..]; exfalso; pose proof (pages_pos a addr Hup); cbn [steps_left pc_ok] in *; lia. }
  destruct p as [|a addr i l|a addr i l|a addr n ix|a addr n ix|both addr i l|both addr n ix|addr n ix c]; try done;
    [by exists m|..]; cbn [run_call call_step].
  - destruct (set_node_step m a addr i l Hinv Hp) as (p & -> & [_ Hp' _ _] & ->). cbn [mbind outcome_bind].
    destruct (node_at m (path addr i) =? NULL); [|destruct (last_level i) eqn:El; [apply Nat.eqb_eq in El; subst i|]];
      (destruct (IH m _ Hinv Hp') as (m' & -> & Hm');
        [done|cbn [steps_left] in *; change (PAGEMAP_LEVELS - 1)%nat with 2%nat in *; lia|]); by exists m'.
  - destruct (set_install_step m a addr i l Hinv Hp) as (m1 & p & -> & [Hinv1 Hp' _ _] & Hent & ->). cbn [mbind outcome_bind].
    destruct (last_level i) eqn:El; [apply Nat.eqb_eq in El; subst i|];
      (destruct (IH m1 _ Hinv1 Hp') as (m' & -> & Hinv' & Hm');
        [done|cbn [steps_left] in *; change (PAGEMAP_LEVELS - 1)%nat with 2%nat in *; lia|]);
      exists m'; (split; [done|split; [done|]]); intros b f Hb; rewrite Hm', Hent by done; done.
  - destruct (set_chunk_step m a addr n ix Hinv Hp) as (m1 & -> & [Hinv1 Hp' _ _] & Hent). cbn [mbind outcome_bind].
    destruct (IH m1 _ Hinv1 Hp') as (m' & -> & Hinv' & Hm'); [done|cbn [steps_left] in *; lia|].
    exists m'. split; [done|]. split; [done|]. intros b f Hb. rewrite Hm', Hent by done. cbn [todo args].
    pose proof (pages_pos a addr Hup) as Hpos.
    destruct (decide (page b = page addr /\ f = Chunk)) as [[Epg ->]|Hne].
    + rewrite bool_decide_true by done. rewrite andb_false_r. unfold in_pages.
      rewrite (proj2 (Z.leb_le _ _)), (proj2 (Z.ltb_lt _ _)) by lia. done.
    + rewrite bool_decide_false by done. by rewrite andb_true_r.
  - destruct (set_actor_step m a addr n ix Hinv Hp) as (m1 & -> & [Hinv1 Hp' _ _] & Hent). cbn [mbind outcome_bind].
    destruct (next_page_ok a addr n ix Hup) as (Hup' & Hlt & Hargs & Htodo).
    destruct (IH m1 _ Hinv1 Hp' Hup') as (m' & -> & Hinv' & Hm'); [lia|].
    exists m'. split; [done|]. split; [done|]. intros b f Hb. rewrite Hm', Hent, Htodo by done. cbn [todo args].
    pose proof (pages_pos a addr Hup) as Hpos.
    assert (page b = page addr -> in_pages a addr b = true) as Hin.
    { intros E. unfold in_pages. rewrite (proj2 (Z.leb_le _ _)), (proj2 (Z.ltb_lt _ _)) by lia. done. }
    destruct (Z.eqb_spec (page b) (page addr)) as [Epg|Epg].
    + rewrite Hin, Epg by done. cbn [andb negb]. destruct f; [rewrite bool_decide_true by done; by destruct (decide _) as [[_ ?]|?]|].
      rewrite bool_decide_false by (by intros [_ ?]). by destruct (decide _); [|tauto].
    + rewrite andb_true_r, bool_decide_false, andb_true_r by tauto. destruct (decide _) as [[? ?]|?]; [done|].
      destruct Hargs as [Hidle| ->]; [|done]. rewrite Hidle in Htodo. specialize (Htodo b f). cbn [todo] in Htodo.
      rewrite (proj2 (Z.eqb_neq _ _)), andb_true_r in Htodo by done. by rewrite <- Htodo.
Qed.

(** What a lookup returns: the actor is left alone when a node is missing on the way. *)
Definition found (m : memory) (both : bool) (addr : Z) (r : Z * option Z) : Prop :=
  r.1 = entry m addr Chunk /\
  (r.2 = None /\ (entry m addr Chunk = NULL \/ both = false) \/ r.2 = Some (entry m addr Actor) /\ both = true).

Lemma run_call_idle fuel m r : run_call fuel m Idle r = Ret (m, r).
Proof. by destruct fuel. Qed.

Lemma run_get_node k i m both addr l :
  inv m -> pc_ok m (Get_node both addr i l) -> (i + k = 2)%nat ->
  exists r, run_call (k + 3) m (Get_node both addr i l) None = Ret (m, Some r) /\ found m both addr r.
Proof.
  revert i l. induction k as [|k IH]; intros i l Hinv Hp Hi; cbn [Nat.add run_call call_step];
    destruct (get_node_step m both addr i l Hinv Hp) as (p & e & r & -> & [_ Hp' _ _] & Hr); cbn [mbind outcome_bind].
  - assert (i = 2%nat) as -> by lia. change (last_level 2) with true in Hr.
    destruct (node_at m (path addr 2) =? NULL) eqn:En.
    { destruct Hr as (-> & -> & Hent). rewrite ?run_call_idle. eexists. split; [done|]. split; cbn; auto. }
    destruct Hr as [-> ->]. cbn [run_call call_step].
    destruct (get_chunk_step m both addr _ _ Hinv Hp') as (p & r & -> & [_ Hp2 _ _] & Hr). cbn [mbind outcome_bind].
    destruct both; destruct Hr as [-> ->]; cbn [run_call call_step].
    + destruct (get_actor_step m addr _ _ _ Hinv Hp2) as [-> _]. cbn [mbind outcome_bind run_call].
      eexists. split; [done|]. split; cbn; auto.
    + eexists. split; [done|]. split; cbn; auto.
  - destruct (node_at m (path addr i) =? NULL) eqn:En.
    { destruct Hr as (-> & -> & Hent). rewrite ?run_call_idle. eexists. split; [done|]. split; cbn; auto. }
    assert (last_level i = false) as El by (apply Nat.eqb_neq; change (PAGEMAP_LEVELS - 1)%nat with 2%nat; lia).
    rewrite El in Hr. destruct Hr as [-> ->]. apply IH; [done|done|lia].
Qed.

Lemma run_get m both addr :
  inv m -> is_u64 addr ->
  exists r, run_call 5 m (Get_node both addr 0 Root) None = Ret (m, Some r) /\ found m both addr r.
Proof. intros Hinv Ha. apply (run_get_node 2); [done| |done]. cbn [pc_ok place_ok]. split_and!; (done || lia). Qed.

(** The steps of an update of [size] bytes. *)
Definition set_fuel : nat := 8.
Definition bulk_fuel (size : Z) : nat := Z.to_nat (8 * ((size + (POOL_ALIGN - 1)) / POOL_ALIGN)).

Lemma run_set m addr c o :
  inv m -> is_u64 addr ->
  exists m', run_call set_fuel m (ponyint_pagemap_set addr c o) None = Ret (m', None) /\ inv m' /\
    forall b f, is_u64 b ->
      entry m' b f = if decide (page b = page addr) then (match f with Chunk => c | Actor => o end) else entry m b f.
Proof.
  intros Hinv Ha. destruct (run_update set_fuel m (ponyint_pagemap_set addr c o) Hinv) as (m' & E & Hinv' & Hent);
    [cbn [pc_ok ponyint_pagemap_set place_ok]; split_and!; (done || lia)|done|done|].
  exists m'. split; [done|]. split; [done|]. intros b f Hb. rewrite Hent by done.
  cbn [ponyint_pagemap_set todo args]. unfold in_pages. change (pages _ addr) with 1.
  destruct (decide _) as [->|Hne].
  - rewrite (proj2 (Z.leb_le _ _)), (proj2 (Z.ltb_lt _ _)) by lia. done.
  - destruct (Z.leb_spec (page addr) (page b)), (Z.ltb_spec (page b) (page addr + 1)); try done. lia.
Qed.

Lemma set_bulk_entries m addr c o size :
  inv m -> 0 <= addr -> 0 <= size -> (POOL_ALIGN | addr) -> addr + size <= 2 ^ PAGEMAP_ADDRESSBITS ->
  exists m', run_call (bulk_fuel size) m (ponyint_pagemap_set_bulk addr c o size) None = Ret (m', None) /\ inv m' /\
    forall b f, 0 <= b < 2 ^ PAGEMAP_ADDRESSBITS ->
       entry m' b f = if decide (addr <= b / POOL_ALIGN * POOL_ALIGN < addr + size)
                      then (match f with Chunk => c | Actor => o end) else entry m b f.
Proof.
  intros Hinv Ha Hs [k Hk] Hle. change PAGEMAP_ADDRESSBITS with 48 in *. change POOL_ALIGN with 1024 in *.
  unfold ponyint_pagemap_set_bulk.
  assert (addr ⊞ size = addr + size) as -> by (unfold add64; apply u64_id; unfold is_u64; lia).
  destruct (Z.ltb_spec addr (addr + size)) as [Hlt|Hge].
  - destruct (run_update (bulk_fuel size) m (Set_node (mk_set c o (Some (addr + size))) addr 0 Root) Hinv)
      as (m' & E & Hinv' & Hent).
    + cbn [pc_ok place_ok]. unfold is_u64. split_and!; (lia || exact I).
    + cbn [update_ok addr_end]. change PAGEMAP_ADDRESSBITS with 48. lia.
    + cbn [steps_left]. unfold pages, bulk_fuel. cbn [addr_end]. change POOL_ALIGN with 1024.
      replace (addr + size - addr) with size by lia. pose proof (Z.div_pos (size + (1024 - 1)) 1024). lia.
    + exists m'. split; [done|]. split; [done|]. intros b f Hb. rewrite Hent by (unfold is_u64; lia). cbn [todo args value chunk actor].
      unfold in_pages, pages. cbn [addr_end]. rewrite !page_small by (change PAGEMAP_ADDRESSBITS with 48; lia).
      change POOL_ALIGN with 1024. replace (addr + size - addr) with size by lia.
      assert (addr / 1024 = k) as -> by (rewrite Hk; by apply Z.div_mul).
      pose proof (Z.div_mod (size + (1024 - 1)) 1024 ltac:(lia)). pose proof (Z.mod_pos_bound (size + (1024 - 1)) 1024 ltac:(lia)).
      destruct (decide _), (Z.leb_spec k (b / 1024)), (Z.ltb_spec (b / 1024) (k + (size + (1024 - 1)) / 1024));
        try done; lia.
  - rewrite run_call_idle. exists m. split; [done|]. split; [done|]. intros b f Hb. destruct (decide _); [lia|done].
Qed.

(** C18 An update of a range of memory is exact: when no other thread interferes
    [ponyint_pagemap_set_bulk] ends, whatever the nodes that exist, it stores the chunk and the
    actor for every page of the range and changes no other page; afterwards a lookup of any
    address returns what is stored for its page. *)
Theorem pagemap_set_bulk_exact m addr c o size :
  inv m -> 0 <= addr -> 0 <= size -> (POOL_ALIGN | addr) -> addr + size <= 2 ^ PAGEMAP_ADDRESSBITS ->
  exists m', run_call (bulk_fuel size) m (ponyint_pagemap_set_bulk addr c o size) None = Ret (m', None) /\ inv m' /\
    (forall b f, 0 <= b < 2 ^ PAGEMAP_ADDRESSBITS ->
       entry m' b f = if decide (addr <= b / POOL_ALIGN * POOL_ALIGN < addr + size)
                      then (match f with Chunk => c | Actor => o end) else entry m b f) /\
    forall b, is_u64 b -> exists r, run_call 5 m' (ponyint_pagemap_get b) None = Ret (m', Some r) /\ found m' true b r.
Proof.
  intros Hinv Ha Hs Hal Hle. destruct (set_bulk_entries m addr c o size) as (m' & E & Hinv' & Hent); try done.
  exists m'. split; [done|]. split; [done|]. split; [done|]. intros b Hb. by apply run_get.
Qed.

(** ** The interface of the page map

    What a heap relies on: the chunk of an address, for the owner of its page. *)
Class PageMapOps (M : Type) := {
  pagemap_ok : M -> Prop;
  chunk_at : M -> Z -> Z;
  pagemap_set : M -> Z -> Z -> Z -> outcome M;
  pagemap_set_bulk : M -> Z -> Z -> Z -> Z -> outcome M;
  pagemap_get_chunk : M -> Z -> outcome Z;
  pagemap_get_chunk_law m addr :
    pagemap_ok m -> 0 <= addr < 2 ^ PAGEMAP_ADDRESSBITS -> pagemap_get_chunk m addr = Ret (chunk_at m addr);
  pagemap_set_law m addr c o :
    pagemap_ok m -> 0 <= addr -> (POOL_ALIGN | addr) -> addr + POOL_ALIGN <= 2 ^ PAGEMAP_ADDRESSBITS ->
    exists m', pagemap_set m addr c o = Ret m' /\ pagemap_ok m' /\
      forall b, 0 <= b < 2 ^ PAGEMAP_ADDRESSBITS ->
        chunk_at m' b = if decide (addr <= b / POOL_ALIGN * POOL_ALIGN < addr + POOL_ALIGN) then c else chunk_at m b;
  pagemap_set_bulk_law m addr c o size :
    pagemap_ok m -> 0 <= addr -> 0 <= size -> (POOL_ALIGN | addr) -> addr + size <= 2 ^ PAGEMAP_ADDRESSBITS ->
    exists m', pagemap_set_bulk m addr c o size = Ret m' /\ pagemap_ok m' /\
      forall b, 0 <= b < 2 ^ PAGEMAP_ADDRESSBITS ->
        chunk_at m' b = if decide (addr <= b / POOL_ALIGN * POOL_ALIGN < addr + size) then c else chunk_at m b
}.

Definition set_call (m : memory) (addr c o : Z) : outcome memory :=
  '(m, _) ← run_call set_fuel m (ponyint_pagemap_set addr c o) None; Ret m.

Definition set_bulk_call (m : memory) (addr c o size : Z) : outcome memory :=
  '(m, _) ← run_call (bulk_fuel size) m (ponyint_pagemap_set_bulk addr c o size) None; Ret m.

Definition get_chunk_call (m : memory) (addr : Z) : outcome Z :=
  '(_, r) ← run_call 5 m (ponyint_pagemap_get_chunk addr) None;
  match r with Some (c, _) => Ret c | None => Abort end.

#[export] Program Instance tree_pagemap : PageMapOps memory := {|
  pagemap_ok := inv;
  chunk_at m addr := entry m addr Chunk;
  pagemap_set := set_call;
  pagemap_set_bulk := set_bulk_call;
  pagemap_get_chunk := get_chunk_call
|}.
Next Obligation.
  intros m addr Hinv Ha. destruct (run_get m false addr Hinv) as ([c r] & E & Hc & _);
    [unfold is_u64; change PAGEMAP_ADDRESSBITS with 48 in Ha; lia|].
  unfold get_chunk_call, ponyint_pagemap_get_chunk. rewrite E. cbn in *. by rewrite Hc.
Qed.
Next Obligation.
  intros m addr c o Hinv Ha [k Hk] Hle. change PAGEMAP_ADDRESSBITS with 48 in *. change POOL_ALIGN with 1024 in *.
  destruct (run_set m addr c o Hinv) as (m' & E & Hinv' & Hent); [unfold is_u64; lia|].
  unfold set_call. rewrite E. exists m'. split; [done|]. split; [done|]. intros b Hb. rewrite Hent by (unfold is_u64; lia).
  apply decide_ext. rewrite !page_small by (change PAGEMAP_ADDRESSBITS with 48; lia). change POOL_ALIGN with 1024.
  assert (addr / 1024 = k) as -> by (rewrite Hk; by apply Z.div_mul). lia.
Qed.
Next Obligation.
  intros m addr c o size Hinv Ha Hs Hal Hle. destruct (set_bulk_entries m addr c o size) as (m' & E & Hinv' & Hent); try done.
  unfold set_bulk_call. rewrite E. exists m'. split; [done|]. split; [done|]. intros b Hb. by apply Hent.
Qed.

(** ** Examples

    Two threads create the same nodes at the same time; then both look a page up. *)
Definition sample_schedule : list action :=
  [Set_page 0 4096 11 12; Set_bulk 1 5120 21 22 2048; Step 0; Step 1; Step 0; Step 1] ++
  concat (replicate 12 [Step 0; Step 1]) ++
  [Get 0 4100; Get_chunk_of 1 6200] ++ concat (replicate 5 [Step 0; Step 1]).

Definition sample_events : list event :=
  match exec (mk_system empty_map (replicate 2 Idle)) sample_schedule with Ret (_, e) => e | _ => [] end.

Example sample_events_eq :
  sample_events =
    [Stored 4 Chunk 11; Stored 5 Chunk 21; Stored 4 Actor 12; Stored 5 Actor 22; Stored 6 Chunk 21; Stored 6 Actor 22;
     Loaded 4 Chunk 11; Loaded 6 Chunk 21; Loaded 4 Actor 12].
Proof. vm_compute. reflexivity. Qed.

Lemma pagemap_linearizable_witness :
  Forall action_ok sample_schedule /\
  exists s events sp,
    exec (mk_system empty_map (replicate 2 Idle)) sample_schedule = Ret (s, events) /\
    replay ∅ events = Some sp /\
    forall addr f, is_u64 addr -> entry (mem s) addr f = spec_get sp (page addr) f.
Proof.
  assert (Forall action_ok sample_schedule) as H.
  { unfold sample_schedule. cbn [concat replicate app]. repeat (constructor; [cbn; unfold is_u64; lia|]).
    repeat (constructor; [exact I || (cbn; unfold is_u64; lia)|]). constructor. }
  split; [exact H|]. exact (pagemap_linearizable 2 sample_schedule H).
Defined.

Lemma pagemap_set_bulk_exact_witness :
  inv empty_map /\
  exists m', run_call (bulk_fuel 3000) empty_map (ponyint_pagemap_set_bulk 4096 7 9 3000) None = Ret (m', None) /\ inv m' /\
    (forall b f, 0 <= b < 2 ^ PAGEMAP_ADDRESSBITS ->
       entry m' b f = if decide (4096 <= b / POOL_ALIGN * POOL_ALIGN < 4096 + 3000)
                      then (match f with Chunk => 7 | Actor => 9 end) else entry empty_map b f) /\
    forall b, is_u64 b -> exists r, run_call 5 m' (ponyint_pagemap_get b) None = Ret (m', Some r) /\ found m' true b r.
Proof.
  split; [exact empty_map_inv|].
  apply (pagemap_set_bulk_exact empty_map 4096 7 9 3000 empty_map_inv); [lia|lia|by exists 4|by vm_compute].
Defined.
