(* ===== verification/Chunk.v ===== *)
(** * Chunks of an actor's heap ([mem/heap.c])

    A chunk is a block of 1024 bytes that is cut into equal slots (a small chunk), or one
    large object.  The low five bits of its pointer [m] hold flags; what the flags and the
    masks of a chunk say about its objects is its [view], which is the same for both kinds.
    Every function of [heap.c] on a single chunk is here, with its effect on the view. *)
From stdpp Require Import gmap.
From S2P Require Import Prelude Store Pool.
Local Open Scope Z_scope.
Local Open Scope c_scope.

(** ** Constants ([mem/heap.h], [mem/heap.c]) *)
Definition HEAP_MINBITS : Z := 5.
Definition HEAP_MAXBITS : Z := POOL_ALIGN_BITS - 1.
Definition HEAP_SIZECLASSES : Z := HEAP_MAXBITS - HEAP_MINBITS + 1.
Definition HEAP_MIN : Z := Z.shiftl 1 HEAP_MINBITS.
Definition HEAP_MAX : Z := Z.shiftl 1 HEAP_MAXBITS.

Definition CHUNK_TYPE_BITMASK : Z := 1.
Definition CHUNK_NEEDS_TO_BE_CLEARED_BITMASK : Z := 2.
Definition SMALL_CHUNK_SIZECLASS_BITMASK : Z := 28.
Definition SMALL_CHUNK_SIZECLASS_SHIFT : Z := 2.
Definition LARGE_CHUNK_SLOT_BITMASK_SHIFT_AMOUNT : Z := 2.
Definition LARGE_CHUNK_SLOT_BITMASK : Z := Z.shiftl 1 LARGE_CHUNK_SLOT_BITMASK_SHIFT_AMOUNT.
Definition LARGE_CHUNK_SHALLOW_BITMASK_SHIFT_AMOUNT : Z := 3.
Definition LARGE_CHUNK_SHALLOW_BITMASK : Z := Z.shiftl 1 LARGE_CHUNK_SHALLOW_BITMASK_SHIFT_AMOUNT.
Definition LARGE_CHUNK_FINALISER_BITMASK_SHIFT_AMOUNT : Z := 4.
Definition LARGE_CHUNK_FINALISER_BITMASK : Z := Z.shiftl 1 LARGE_CHUNK_FINALISER_BITMASK_SHIFT_AMOUNT.
Definition CHUNK_M_BITMASK : Z :=
  not64 (Z.lor CHUNK_TYPE_BITMASK (Z.lor CHUNK_NEEDS_TO_BE_CLEARED_BITMASK (Z.lor SMALL_CHUNK_SIZECLASS_BITMASK
    (Z.lor LARGE_CHUNK_SLOT_BITMASK (Z.lor LARGE_CHUNK_SHALLOW_BITMASK LARGE_CHUNK_FINALISER_BITMASK))))).

Definition FORCE_NO_FINALISERS : Z := 0.
Definition FORCE_ALL_FINALISERS : Z := 4294967295.

Definition SIZECLASS_SIZE (sizeclass : Z) : Z := Z.shiftl HEAP_MIN sizeclass.
Definition SIZECLASS_MASK (sizeclass : Z) : Z := not64 (SIZECLASS_SIZE sizeclass - 1).
Definition EXTERNAL_PTR (p sizeclass : Z) : Z := Z.land p (SIZECLASS_MASK sizeclass).
Definition FIND_SLOT (ext base : Z) : Z := u32 (Z.shiftl 1 ((ext ⊟ base) >>! HEAP_MINBITS)).

(** The slots of a size class: the bits of their first 32 bytes. *)
Definition sizeclass_empty : list Z := [0xFFFFFFFF; 0x55555555; 0x11111111; 0x01010101; 0x00010001].

(** All of them but the first. *)
Definition sizeclass_init : list Z := [0xFFFFFFFE; 0x55555554; 0x11111110; 0x01010100; 0x00010000].

Definition sizeclass_table : list Z := [0; 1; 2; 2; 3; 3; 3; 3; 4; 4; 4; 4; 4; 4; 4; 4].

(** An access to a table. *)
Definition entry (table : list Z) (i : Z) : outcome Z :=
  match table !! Z.to_nat i with Some x => Ret x | None => Abort end.

Definition ponyint_heap_index (size : Z) : outcome Z := entry sizeclass_table ((size ⊟ 1) >>! HEAP_MINBITS).

(** ** Bits of a 32-bit mask *)

(** The set bits, in ascending order. *)
Definition bits (x : Z) : list Z := filter (fun i => Z.testbit x i = true) (seqZ 0 32).

(** [__pony_popcount] and, for a mask that is not zero, [__pony_ctz]. *)
Definition popcount (x : Z) : Z := Z.of_nat (List.length (bits x)).
Definition ctz (x : Z) : Z := Z.log2 (Z.land x (- x)).

Definition not32 (x : Z) : Z := u32 (Z.lnot x).

(** ** The chunk

    The union of the masks of a small chunk and the size of a large one is the masks: a size
    occupies the first two of them. *)
Record chunk_t := mk_chunk { m : Z; slots : Z; shallow : Z; finalisers : Z }.

Definition set_m (c : chunk_t) (v : Z) : chunk_t := mk_chunk v (slots c) (shallow c) (finalisers c).
Definition set_slots (c : chunk_t) (v : Z) : chunk_t := mk_chunk (m c) v (shallow c) (finalisers c).
Definition set_shallow (c : chunk_t) (v : Z) : chunk_t := mk_chunk (m c) (slots c) v (finalisers c).
Definition set_finalisers (c : chunk_t) (v : Z) : chunk_t := mk_chunk (m c) (slots c) (shallow c) v.

Definition large_size (c : chunk_t) : Z := slots c + Z.shiftl (shallow c) 32.
Definition set_large_size (c : chunk_t) (size : Z) : chunk_t :=
  mk_chunk (m c) (u32 size) (u32 (size >>! 32)) (finalisers c).

Definition get_chunk_is_small_chunk (chunk : chunk_t) : bool :=
  Z.land (m chunk) CHUNK_TYPE_BITMASK =? CHUNK_TYPE_BITMASK.

Definition set_chunk_is_small_chunk (chunk : chunk_t) : chunk_t :=
  set_m chunk (Z.lor (m chunk) CHUNK_TYPE_BITMASK).

(** The flags of a large chunk are read and written in the same way. *)
Definition get_large_flag (mask : Z) (chunk : chunk_t) : outcome Z :=
  if get_chunk_is_small_chunk chunk then Abort
  else Ret (bool_to_u64 (Z.land (m chunk) mask =? mask)).

Definition set_large_flag (mask shift : Z) (chunk : chunk_t) (v : Z) : outcome chunk_t :=
  if get_chunk_is_small_chunk chunk then Abort
  else
    let v := bool_to_u64 (negb (v =? 0)) in
    let v := Z.shiftl v shift in
    if (v =? mask) || (v =? 0) then Ret (set_m chunk (Z.lor (Z.land (m chunk) (not64 mask)) v))
    else Abort.

Definition get_large_chunk_slot : chunk_t -> outcome Z := get_large_flag LARGE_CHUNK_SLOT_BITMASK.
Definition set_large_chunk_slot : chunk_t -> Z -> outcome chunk_t :=
  set_large_flag LARGE_CHUNK_SLOT_BITMASK LARGE_CHUNK_SLOT_BITMASK_SHIFT_AMOUNT.
Definition get_large_chunk_shallow : chunk_t -> outcome Z := get_large_flag LARGE_CHUNK_SHALLOW_BITMASK.
Definition set_large_chunk_shallow : chunk_t -> Z -> outcome chunk_t :=
  set_large_flag LARGE_CHUNK_SHALLOW_BITMASK LARGE_CHUNK_SHALLOW_BITMASK_SHIFT_AMOUNT.
Definition get_large_chunk_finaliser : chunk_t -> outcome Z := get_large_flag LARGE_CHUNK_FINALISER_BITMASK.
Definition set_large_chunk_finaliser : chunk_t -> Z -> outcome chunk_t :=
  set_large_flag LARGE_CHUNK_FINALISER_BITMASK LARGE_CHUNK_FINALISER_BITMASK_SHIFT_AMOUNT.

Definition get_small_chunk_size (chunk : chunk_t) : outcome Z :=
  if get_chunk_is_small_chunk chunk then
    Ret (Z.land (m chunk) SMALL_CHUNK_SIZECLASS_BITMASK >>! SMALL_CHUNK_SIZECLASS_SHIFT)
  else Abort.

Definition set_small_chunk_size (chunk : chunk_t) (size : Z) : outcome chunk_t :=
  if get_chunk_is_small_chunk chunk && (size <? HEAP_SIZECLASSES) then
    let size := size <<! SMALL_CHUNK_SIZECLASS_SHIFT in
    Ret (set_m chunk (Z.lor (Z.land (m chunk) (not64 SMALL_CHUNK_SIZECLASS_BITMASK))
                        (Z.land size SMALL_CHUNK_SIZECLASS_BITMASK)))
  else Abort.

Definition get_chunk_needs_clearing (chunk : chunk_t) : bool :=
  Z.land (m chunk) CHUNK_NEEDS_TO_BE_CLEARED_BITMASK =? CHUNK_NEEDS_TO_BE_CLEARED_BITMASK.

Definition set_chunk_needs_clearing (chunk : chunk_t) : chunk_t :=
  set_m chunk (Z.lor (m chunk) CHUNK_NEEDS_TO_BE_CLEARED_BITMASK).

Definition unset_chunk_needs_clearing (chunk : chunk_t) : chunk_t :=
  set_m chunk (Z.land (m chunk) (not64 CHUNK_NEEDS_TO_BE_CLEARED_BITMASK)).

Definition get_m (chunk : chunk_t) : Z := Z.land (m chunk) CHUNK_M_BITMASK.

Definition clear_chunk_flags (chunk : chunk_t) : chunk_t := set_m chunk (Z.land (m chunk) CHUNK_M_BITMASK).

(** The masks of a chunk are reset when it is first looked at in a collection. *)
Definition maybe_clear_chunk (chunk : chunk_t) : outcome chunk_t :=
  if get_chunk_needs_clearing chunk then
    chunk ← (if get_chunk_is_small_chunk chunk then
               sizeclass ← get_small_chunk_size chunk;
               empty ← entry sizeclass_empty sizeclass;
               Ret (set_shallow (set_slots chunk empty) empty)
             else
               chunk ← set_large_chunk_slot chunk 1;
               set_large_chunk_shallow chunk 1);
    Ret (unset_chunk_needs_clearing chunk)
  else Ret chunk.

(** ** Marking *)

Definition ponyint_heap_mark (chunk : chunk_t) (p : Z) : outcome (chunk_t * bool) :=
  chunk ← maybe_clear_chunk chunk;
  if get_chunk_is_small_chunk chunk then
    sizeclass ← get_small_chunk_size chunk;
    let ext := EXTERNAL_PTR p sizeclass in
    let slot := FIND_SLOT ext (get_m chunk) in
    let marked := Z.land (slots chunk) slot =? 0 in
    if p =? ext then Ret (set_slots chunk (Z.land (slots chunk) (not32 slot)), marked)
    else Ret (set_shallow chunk (Z.land (shallow chunk) (not32 slot)), marked)
  else
    slot ← get_large_chunk_slot chunk;
    let marked := slot =? 0 in
    chunk ← (if p =? get_m chunk then set_large_chunk_slot chunk 0 else set_large_chunk_shallow chunk 0);
    Ret (chunk, marked).

Definition ponyint_heap_mark_shallow (chunk : chunk_t) (p : Z) : outcome chunk_t :=
  chunk ← maybe_clear_chunk chunk;
  if get_chunk_is_small_chunk chunk then
    sizeclass ← get_small_chunk_size chunk;
    let ext := EXTERNAL_PTR p sizeclass in
    let slot := FIND_SLOT ext (get_m chunk) in
    Ret (set_shallow chunk (Z.land (shallow chunk) (not32 slot)))
  else set_large_chunk_shallow chunk 0.

Definition ponyint_heap_size (chunk : chunk_t) : outcome Z :=
  if get_chunk_is_small_chunk chunk then sizeclass ← get_small_chunk_size chunk; Ret (SIZECLASS_SIZE sizeclass)
  else Ret (large_size chunk).

(** ** Allocation and sweeping in a chunk

    The first free slot of [ponyint_heap_alloc_small], with its address. *)
Definition take_slot (chunk : chunk_t) (track_finalisers_mask : Z) : chunk_t * Z :=
  let bit := ctz (slots chunk) in
  let free := Z.land (slots chunk) (not32 (u32 (Z.shiftl 1 bit))) in
  let p := get_m chunk ⊞ Z.shiftl bit HEAP_MINBITS in
  let chunk := set_slots chunk free in
  (set_finalisers chunk (Z.lor (finalisers chunk) (Z.land track_finalisers_mask (u32 (Z.shiftl 1 bit)))), p).

(** A chunk without flags becomes a small one whose first slot is used. *)
Definition init_small (n : chunk_t) (sizeclass track_finalisers_mask : Z) : outcome chunk_t :=
  let n := set_chunk_is_small_chunk n in
  n ← set_small_chunk_size n sizeclass;
  let n := set_finalisers n (Z.land track_finalisers_mask 1) in
  init ← entry sizeclass_init sizeclass;
  Ret (set_chunk_needs_clearing (set_slots n init)).

(** The end of [ponyint_heap_alloc_large]. *)
Definition init_large (chunk : chunk_t) (track_finalisers_mask : Z) : outcome chunk_t :=
  chunk ← set_large_chunk_slot chunk 0;
  set_large_chunk_finaliser (set_chunk_needs_clearing chunk) (Z.land track_finalisers_mask 1).

(** What [sweep_small] and [sweep_large] do to the masks of a chunk. *)
Definition sweep_small_masks (chunk : chunk_t) : outcome chunk_t :=
  chunk ← maybe_clear_chunk chunk;
  Ret (set_chunk_needs_clearing (set_slots chunk (Z.land (slots chunk) (shallow chunk)))).

Definition sweep_large_masks (chunk : chunk_t) : outcome chunk_t :=
  chunk ← maybe_clear_chunk chunk;
  slot ← get_large_chunk_slot chunk;
  shallow ← get_large_chunk_shallow chunk;
  chunk ← set_large_chunk_slot chunk (Z.land slot shallow);
  Ret (set_chunk_needs_clearing chunk).

(** The finalisers that [final_small] runs, and the chunk without them. *)
Definition final_mask (chunk : chunk_t) (force_finalisers_mask : Z) : Z :=
  Z.land (finalisers chunk) (Z.lor (slots chunk) force_finalisers_mask).
Definition unset_finalisers (chunk : chunk_t) (force_finalisers_mask : Z) : chunk_t :=
  set_finalisers chunk (Z.land (finalisers chunk) (not32 (Z.lor (slots chunk) force_finalisers_mask))).

(** ** Flags *)

Lemma land_not64 x a b : is_u64 b -> Z.land (Z.land x (not64 a)) b = Z.land x (Z.ldiff b a).
Proof.
  intros Hb. by_bits i Hi. rewrite !Z.land_spec, not64_testbit, Z.ldiff_spec by done.
  destruct (Z.ltb_spec i 64); [by destruct (Z.testbit x i), (Z.testbit a i), (Z.testbit b i)|].
  by rewrite (u64_testbit_high b), !andb_false_r by done.
Qed.

Lemma land_set x a v b :
  is_u64 b -> Z.land (Z.lor (Z.land x (not64 a)) v) b = Z.lor (Z.land x (Z.ldiff b a)) (Z.land v b).
Proof. intros Hb. by rewrite Z.land_lor_distr_l, land_not64. Qed.

Lemma lor_land_absorb x a : Z.lor (Z.land x a) a = a.
Proof. by_bits i Hi. rewrite Z.lor_spec, Z.land_spec. by destruct (Z.testbit x i), (Z.testbit a i). Qed.

(** Evaluates the masks of a goal about flags that were just written. *)
Ltac numerals :=
  change CHUNK_TYPE_BITMASK with 1 in *; change CHUNK_NEEDS_TO_BE_CLEARED_BITMASK with 2 in *;
  change SMALL_CHUNK_SIZECLASS_BITMASK with 28 in *; change LARGE_CHUNK_SLOT_BITMASK with 4 in *;
  change LARGE_CHUNK_SHALLOW_BITMASK with 8 in *; change LARGE_CHUNK_FINALISER_BITMASK with 16 in *;
  change CHUNK_M_BITMASK with 18446744073709551584 in *;
  change LARGE_CHUNK_SLOT_BITMASK_SHIFT_AMOUNT with 2 in *;
    change LARGE_CHUNK_SHALLOW_BITMASK_SHIFT_AMOUNT with 3 in *;
  change LARGE_CHUNK_FINALISER_BITMASK_SHIFT_AMOUNT with 4 in *; change SMALL_CHUNK_SIZECLASS_SHIFT with 2 in *.

Ltac in_word := split; [apply Z.leb_le|apply Z.ltb_lt]; vm_compute; reflexivity.

Ltac eval_masks :=
  repeat match goal with
  | |- context [Z.ldiff (Zpos ?a) (Zpos ?b)] => let v := eval vm_compute in (Z.ldiff (Zpos a) (Zpos b)) in
      change (Z.ldiff (Zpos a) (Zpos b)) with v
  | |- context [Z.land (Zpos ?a) (Zpos ?b)] => let v := eval vm_compute in (Z.land (Zpos a) (Zpos b)) in
      change (Z.land (Zpos a) (Zpos b)) with v
  | |- context [Z.shiftl (Zpos ?a) (Zpos ?b)] => let v := eval vm_compute in (Z.shiftl (Zpos a) (Zpos b)) in
      change (Z.shiftl (Zpos a) (Zpos b)) with v
  end; rewrite ?lor_land_absorb, ?Z.land_0_r, ?Z.land_0_l, ?Z.lor_0_r, ?Z.lor_0_l, ?Z.shiftl_0_l.

Ltac eval_flags :=
  eval_masks; rewrite ?land_set, ?land_not64, ?Z.land_lor_distr_l by in_word; eval_masks.

Definition flag (mask : Z) (c : chunk_t) : bool := Z.land (m c) mask =? mask.
Definition class (c : chunk_t) : Z := Z.land (m c) SMALL_CHUNK_SIZECLASS_BITMASK >>! SMALL_CHUNK_SIZECLASS_SHIFT.

Lemma class_range c : 0 <= class c < 8.
Proof.
  unfold class, shr64. change SMALL_CHUNK_SIZECLASS_BITMASK with (Z.shiftl 7 2).
  change SMALL_CHUNK_SIZECLASS_SHIFT with 2.
  rewrite Z.shiftr_land, Z.shiftr_shiftl_l by done. change (Z.shiftl 7 (2 - 2)) with (2 ^ 3 - 1).
  rewrite land_ones_mod by done. by apply Z.mod_pos_bound.
Qed.

(** ** Views

    What a chunk says of its objects: the address of its first slot, the size of a slot, the
    masks of all slots, of the slots that are free (during a collection: not marked), of
    those that are not marked from inside and of those with a finaliser, and whether the
    masks of free slots are still those from before the collection. *)
Record view_t := mk_view {
  v_small : bool; v_base : Z; v_unit : Z; v_all : Z;
  v_slots : Z; v_shallow : Z; v_fins : Z; v_dirty : bool
}.

Definition class_mask (sizeclass : Z) : Z := default 0 (sizeclass_empty !! Z.to_nat sizeclass).

Definition view (c : chunk_t) : view_t :=
  if get_chunk_is_small_chunk c then
    mk_view true (get_m c) (SIZECLASS_SIZE (class c)) (class_mask (class c))
      (slots c) (shallow c) (finalisers c) (get_chunk_needs_clearing c)
  else
    mk_view false (get_m c) (large_size c) 1
      (bool_to_u64 (flag LARGE_CHUNK_SLOT_BITMASK c)) (bool_to_u64 (flag LARGE_CHUNK_SHALLOW_BITMASK c))
      (bool_to_u64 (flag LARGE_CHUNK_FINALISER_BITMASK c)) (get_chunk_needs_clearing c).

Definition is_u32 (x : Z) : Prop := 0 <= x < 2 ^ 32.

(** A chunk of the heap: its block is aligned on pages and lies in the address space. *)
Record chunk_ok (c : chunk_t) : Prop := {
  co_m : is_u64 (m c);
  co_base : 0 < get_m c;
  co_align : (POOL_ALIGN | get_m c);
  co_slots : is_u32 (slots c);
  co_shallow : is_u32 (shallow c);
  co_fins : is_u32 (finalisers c);
  co_kind : if get_chunk_is_small_chunk c then class c < HEAP_SIZECLASSES
            else (POOL_ALIGN | large_size c) /\ 0 < large_size c
}.

Definition v_set_slots (v : view_t) (x : Z) : view_t :=
  mk_view (v_small v) (v_base v) (v_unit v) (v_all v) x (v_shallow v) (v_fins v) (v_dirty v).
Definition v_set_shallow (v : view_t) (x : Z) : view_t :=
  mk_view (v_small v) (v_base v) (v_unit v) (v_all v) (v_slots v) x (v_fins v) (v_dirty v).
Definition v_set_fins (v : view_t) (x : Z) : view_t :=
  mk_view (v_small v) (v_base v) (v_unit v) (v_all v) (v_slots v) (v_shallow v) x (v_dirty v).
Definition v_set_dirty (v : view_t) (b : bool) : view_t :=
  mk_view (v_small v) (v_base v) (v_unit v) (v_all v) (v_slots v) (v_shallow v) (v_fins v) b.

(** The masks with which a collection starts. *)
Definition v_clear (v : view_t) : view_t :=
  if v_dirty v then v_set_dirty (v_set_shallow (v_set_slots v (v_all v)) (v_all v)) false else v.

(** An operation on a chunk with a given effect on its view, which leaves it a chunk. *)
Definition changes (c c' : chunk_t) (f : view_t -> view_t) : Prop := chunk_ok c' /\ view c' = f (view c).

Lemma or_and_small x v a : is_u64 x -> 0 <= v < 2 ^ 5 -> is_u64 (Z.lor (Z.land x (not64 a)) v).
Proof.
  intros Hx Hv. apply lor_range; [apply land_range; [done|apply not64_range]|]. unfold is_u64. lia.
Qed.

Lemma chunk_ok_m c x :
  chunk_ok c -> is_u64 x ->
  Z.land x CHUNK_M_BITMASK = get_m c -> Z.land x CHUNK_TYPE_BITMASK = Z.land (m c) CHUNK_TYPE_BITMASK ->
  (get_chunk_is_small_chunk c = true -> class (set_m c x) = class c) ->
  chunk_ok (set_m c x).
Proof.
  intros [H1 H2 H3 H4 H5 H6 H7] Hx Em Et Ec.
  assert (get_m (set_m c x) = get_m c) as Em' by done.
  assert (get_chunk_is_small_chunk (set_m c x) = get_chunk_is_small_chunk c) as Et'.
  { unfold get_chunk_is_small_chunk. cbn [m set_m]. by rewrite Et. }
  constructor; cbn [m set_m slots shallow finalisers]; rewrite ?Em', ?Et'; [done..|].
  destruct (get_chunk_is_small_chunk c); [rewrite Ec|]; done.
Qed.

(** Unfolds the accessors of a chunk whose pointer was written. *)
Ltac unfold_flags :=
  unfold changes, view, get_chunk_is_small_chunk, set_chunk_is_small_chunk, get_chunk_needs_clearing,
    set_chunk_needs_clearing, unset_chunk_needs_clearing, clear_chunk_flags, flag, get_m, class in *;
  cbn [set_m m slots shallow finalisers] in *; numerals; cbn [bool_to_u64]; eval_flags.

Ltac flag_words := repeat (apply lor_range || apply land_range || apply not64_range || done || in_word).

Ltac flags_ok := apply chunk_ok_m;
  [done|flag_words|unfold_flags; done|unfold_flags; done|intros; unfold_flags; congruence || done].

Section flags.
Context (c : chunk_t) (Hc : chunk_ok c).

Lemma set_large_flag_spec v :
  get_chunk_is_small_chunk c = false ->
  (exists c', set_large_chunk_slot c v = Ret c' /\
    changes c c' (fun w => v_set_slots w (bool_to_u64 (negb (v =? 0))))) /\
  (exists c', set_large_chunk_shallow c v = Ret c' /\
    changes c c' (fun w => v_set_shallow w (bool_to_u64 (negb (v =? 0))))) /\
  (exists c', set_large_chunk_finaliser c v = Ret c' /\
    changes c c' (fun w => v_set_fins w (bool_to_u64 (negb (v =? 0))))).
Proof.
  intros E. pose proof (co_m _ Hc) as Hm.
  unfold set_large_chunk_slot, set_large_chunk_shallow, set_large_chunk_finaliser, set_large_flag.
  rewrite E. generalize (negb (v =? 0)). intros b.
  split_and!; (eexists; split; [by destruct b|]); (split; [by destruct b; flags_ok|]).
  all: unfold_flags; rewrite E; by destruct b; unfold_flags; rewrite E.
Qed.

Lemma get_large_flag_spec :
  get_chunk_is_small_chunk c = false ->
  get_large_chunk_slot c = Ret (v_slots (view c)) /\ get_large_chunk_shallow c = Ret (v_shallow (view c)) /\
  get_large_chunk_finaliser c = Ret (v_fins (view c)).
Proof.
  intros E. unfold get_large_chunk_slot, get_large_chunk_shallow, get_large_chunk_finaliser, get_large_flag, view.
  by rewrite E.
Qed.

Lemma view_small : v_small (view c) = get_chunk_is_small_chunk c.
Proof. unfold view. by destruct (get_chunk_is_small_chunk c). Qed.

Lemma view_dirty : v_dirty (view c) = get_chunk_needs_clearing c.
Proof. unfold view. by destruct (get_chunk_is_small_chunk c). Qed.

Lemma view_base : v_base (view c) = get_m c.
Proof. unfold view. by destruct (get_chunk_is_small_chunk c). Qed.

Lemma small_size_spec : get_chunk_is_small_chunk c = true -> get_small_chunk_size c = Ret (class c).
Proof. intros E. unfold get_small_chunk_size. by rewrite E. Qed.

Lemma set_needs_clearing_spec : changes c (set_chunk_needs_clearing c) (fun v => v_set_dirty v true).
Proof.
  pose proof (co_m _ Hc) as Hm. split; [flags_ok|]. unfold_flags.
  by destruct (Z.land (m c) 1 =? 1).
Qed.

Lemma unset_needs_clearing_spec : changes c (unset_chunk_needs_clearing c) (fun v => v_set_dirty v false).
Proof.
  pose proof (co_m _ Hc) as Hm. split; [flags_ok|]. unfold_flags.
  by destruct (Z.land (m c) 1 =? 1).
Qed.

Lemma class_unit sc :
  get_chunk_is_small_chunk c = true -> 0 <= sc -> v_unit (view c) = SIZECLASS_SIZE sc -> class c = sc.
Proof.
  intros E Hsc Hu. unfold view in Hu. rewrite E in Hu. cbn [v_unit] in Hu. pose proof (class_range c) as Hr.
  unfold SIZECLASS_SIZE in Hu. rewrite !Z.shiftl_mul_pow2 in Hu by lia. apply Z.mul_reg_l in Hu; [|done].
  by apply Z.pow_inj_r in Hu; [| |lia|].
Qed.

(** The masks of a small chunk. *)
Lemma set_masks_spec x :
  get_chunk_is_small_chunk c = true -> is_u32 x ->
  changes c (set_slots c x) (fun v => v_set_slots v x) /\ changes c (set_shallow c x) (fun v => v_set_shallow v x) /\
  changes c (set_finalisers c x) (fun v => v_set_fins v x).
Proof.
  intros E Hx. destruct Hc as [H1 H2 H3 H4 H5 H6 H7]. rewrite E in H7.
  unfold changes, view, get_chunk_is_small_chunk, get_chunk_needs_clearing, get_m, class in *.
  cbn [set_slots set_shallow set_finalisers m slots shallow finalisers]. rewrite E.
  split_and!; try done; constructor; unfold get_chunk_is_small_chunk, get_m, class in *;
    cbn [set_slots set_shallow set_finalisers m slots shallow finalisers]; rewrite ?E; done.
Qed.
End flags.

Lemma changes_trans a b c f g : changes a b f -> changes b c g -> changes a c (fun v => g (f v)).
Proof. intros [_ E1] [H E2]. split; [done|]. by rewrite E2, E1. Qed.

Lemma changes_small a b f : changes a b f -> v_small (f (view a)) = v_small (view a) ->
  get_chunk_is_small_chunk b = get_chunk_is_small_chunk a.
Proof. intros [_ E] Hf. by rewrite <- !view_small, E. Qed.

Lemma class_mask_entry sc : 0 <= sc < HEAP_SIZECLASSES ->
  entry sizeclass_empty sc = Ret (class_mask sc) /\ is_u32 (class_mask sc).
Proof.
  change HEAP_SIZECLASSES with 5. intros Hsc.
  assert (sc ∈ seqZ 0 5) as Hin by (apply elem_of_seqZ; lia). clear Hsc. revert sc Hin. unfold is_u32. by_computation.
Qed.

Lemma maybe_clear_spec c :
  chunk_ok c -> exists c', maybe_clear_chunk c = Ret c' /\ changes c c' v_clear.
Proof.
  intros Hc. unfold maybe_clear_chunk. rewrite <- view_dirty.
  destruct (v_dirty (view c)) eqn:Ed; [|exists c; split; [done|split; [done|unfold v_clear; by rewrite Ed]]].
  destruct (get_chunk_is_small_chunk c) eqn:E.
  - rewrite small_size_spec by done. cbn [mbind outcome_bind].
    pose proof (co_kind _ Hc) as Hk. rewrite E in Hk. pose proof (class_range c) as Hr.
    destruct (class_mask_entry (class c)) as [-> Hu]; [lia|]. cbn [mbind outcome_bind].
    destruct (set_masks_spec c Hc (class_mask (class c)) E Hu) as (H1 & _ & _).
    assert (get_chunk_is_small_chunk (set_slots c (class_mask (class c))) = true) as E1 by done.
    destruct (set_masks_spec _ (proj1 H1) (class_mask (class c)) E1 Hu) as (_ & H2 & _).
    pose proof (changes_trans _ _ _ _ _ H1 H2) as H3.
    pose proof (changes_trans _ _ _ _ _ H3 (unset_needs_clearing_spec _ (proj1 H3))) as [H4 H5].
    eexists. split; [done|]. split; [done|]. rewrite H5. unfold v_clear. rewrite Ed. unfold view. by rewrite E.
  - destruct (set_large_flag_spec c Hc 1 E) as ((c1 & -> & H1) & _ & _). cbn [mbind outcome_bind].
    assert (get_chunk_is_small_chunk c1 = false) as E1 by (erewrite changes_small; [done|exact H1|done]).
    destruct (set_large_flag_spec c1 (proj1 H1) 1 E1) as (_ & (c2 & -> & H2) & _). cbn [mbind outcome_bind].
    pose proof (changes_trans _ _ _ _ _ H1 H2) as H3.
    pose proof (changes_trans _ _ _ _ _ H3 (unset_needs_clearing_spec _ (proj1 H3))) as [H4 H5].
    eexists. split; [done|]. split; [done|]. rewrite H5. unfold v_clear. rewrite Ed. unfold view. by rewrite E.
Qed.

(** ** Set bits *)

Lemma elem_of_bits x i : i ∈ bits x <-> 0 <= i < 32 /\ Z.testbit x i = true.
Proof. unfold bits. rewrite list_elem_of_filter, elem_of_seqZ. split; intros; split_and?; tauto || lia. Qed.

Lemma NoDup_bits x : NoDup (bits x).
Proof. apply NoDup_filter, NoDup_seqZ. Qed.

Lemma filter_testbit_ext x y l :
  Forall (fun i => Z.testbit x i = Z.testbit y i) l ->
  filter (fun i => Z.testbit x i = true) l = filter (fun i => Z.testbit y i = true) l.
Proof. induction 1 as [|i l Hi _ IH]; [done|]. rewrite !filter_cons, IH. repeat case_decide; congruence. Qed.

Lemma bits_ext x y : (forall i, 0 <= i < 32 -> Z.testbit x i = Z.testbit y i) -> bits x = bits y.
Proof. intros H. apply filter_testbit_ext, Forall_forall. intros i Hi%elem_of_seqZ. apply H. lia. Qed.

Lemma bits_0 : bits 0 = [].
Proof. done. Qed.

Lemma u32_zero_bits x : is_u32 x -> bits x = [] -> x = 0.
Proof.
  intros Hx H. by_bits i Hi. rewrite Z.bits_0. destruct (decide (i < 32)).
  - destruct (Z.testbit x i) eqn:E; [|done]. assert (i ∈ bits x) as Hin by (apply elem_of_bits; split; [lia|done]).
    rewrite H in Hin. by apply elem_of_nil in Hin.
  - by rewrite (testbit_high 32) by (done || lia).
Qed.

(** A positive number is an odd one shifted by its lowest set bit. *)
Lemma odd_shifted x : 0 < x -> exists n k, 0 <= n /\ 0 <= k /\ x = Z.shiftl (2 * k + 1) n.
Proof.
  induction x as [x IH] using (well_founded_induction (Z.lt_wf 0)). intros Hx.
  destruct (Z.Even_or_Odd x) as [[y ->]|[y ->]].
  - destruct (IH y ltac:(lia) ltac:(lia)) as (n & k & Hn & Hk & ->). exists (n + 1), k.
    split_and!; [lia|done|]. rewrite !Z.shiftl_mul_pow2, Z.pow_add_r by lia. lia.
  - exists 0, y. split_and!; [done|lia|]. by rewrite Z.shiftl_0_r.
Qed.

Lemma testbit_odd_shifted k n j :
  0 <= n -> 0 <= j ->
  Z.testbit (Z.shiftl (2 * k + 1) n) j = if j <? n then false else if j =? n then true else Z.testbit k (j - n - 1).
Proof.
  intros Hn Hj. rewrite Z.shiftl_spec by done. split_ltb.
  - by rewrite Z.testbit_neg_r by lia.
  - subst. by rewrite Z.sub_diag, Z.testbit_odd_0.
  - replace (j - n) with (Z.succ (j - n - 1)) at 1 by lia. by rewrite Z.testbit_odd_succ by lia.
Qed.

Lemma ctz_shifted n k : 0 <= n -> 0 <= k -> ctz (Z.shiftl (2 * k + 1) n) = n.
Proof.
  intros Hn Hk. unfold ctz.
  replace (- Z.shiftl (2 * k + 1) n) with (Z.shiftl (2 * Z.lnot k + 1) n)
    by (rewrite !Z.shiftl_mul_pow2 by done; unfold Z.lnot; lia).
  replace (Z.land _ _) with (Z.shiftl (2 * 0 + 1) n); [by rewrite Z.shiftl_1_l, Z.log2_pow2|].
  by_bits i Hi. rewrite Z.land_spec, !testbit_odd_shifted by done. split_ltb; [done|done|].
  rewrite Z.lnot_spec, Z.bits_0 by lia. by destruct (Z.testbit k (i - n - 1)).
Qed.

(** [x & (x - 1)] clears the lowest bit. *)
Lemma land_pred_shifted n k :
  0 <= n -> 0 <= k -> let x := Z.shiftl (2 * k + 1) n in Z.land x (x - 1) = Z.shiftl (2 * k) n.
Proof.
  intros Hn Hk x. assert (x - 1 = Z.lor (Z.shiftl (2 * k) n) (Z.ones n)) as ->.
  { assert (Z.ones n = 2 ^ n - 1) as ->
      by (rewrite Z.ones_equiv; lia). pose proof (Z.pow_pos_nonneg 2 n ltac:(lia) Hn).
    unfold x. rewrite lor_shiftl_add, Z.shiftl_mul_pow2 by lia. lia. }
  by_bits i Hi. unfold x.
  rewrite Z.land_spec, Z.lor_spec, testbit_odd_shifted, Z.shiftl_spec, Z.testbit_ones_nonneg by done.
  split_ltb; [by rewrite Z.testbit_neg_r by lia| |].
  - subst. by rewrite Z.sub_diag, Z.testbit_even_0.
  - replace (i - n) with (Z.succ (i - n - 1)) at 2 3 by lia. rewrite Z.testbit_even_succ, orb_false_r by lia.
    by destruct (Z.testbit k (i - n - 1)).
Qed.

Lemma filter_none x l : Forall (fun i => Z.testbit x i = false) l -> filter (fun i => Z.testbit x i = true) l = [].
Proof. induction 1 as [|i l Hi _ IH]; [done|]. rewrite filter_cons_False; [done|congruence]. Qed.

(** What the loops over a mask do: take its lowest bit, and clear it. *)
Lemma bits_step x :
  0 < x < 2 ^ 32 -> bits x = ctz x :: bits (Z.land x (x - 1)) /\ 0 <= Z.land x (x - 1) < x /\ 0 <= ctz x < 32.
Proof.
  intros Hx. destruct (odd_shifted x) as (n & k & Hn & Hk & E); [lia|].
  rewrite E, ctz_shifted, land_pred_shifted by done. rewrite E in Hx. clear x E.
  assert (0 < 2 ^ n) as Hp by lia.
  assert (n < 32) as Hn32.
  { destruct (decide (n < 32)); [done|]. rewrite Z.shiftl_mul_pow2 in Hx by done.
    assert (2 ^ 32 <= 2 ^ n) by (apply Z.pow_le_mono_r; lia). nia. }
  assert (forall j, 0 <= j -> Z.testbit (Z.shiftl (2 * k) n) j =
            if j <=? n then false else Z.testbit (Z.shiftl (2 * k + 1) n) j) as Hbit.
  { intros j Hj. rewrite testbit_odd_shifted, Z.shiftl_spec by done. destruct (Z.leb_spec j n).
    - destruct (decide (j = n)) as [->|]; [by rewrite Z.sub_diag, Z.testbit_even_0|by rewrite Z.testbit_neg_r by lia].
    - rewrite (proj2 (Z.ltb_ge j n)), (proj2 (Z.eqb_neq j n)) by lia.
      replace (j - n) with (Z.succ (j - n - 1)) at 1 by lia. by rewrite Z.testbit_even_succ by lia. }
  split; [|rewrite !Z.shiftl_mul_pow2 by done; split_and!; nia].
  unfold bits. replace 32 with (n + (1 + (31 - n))) by lia. rewrite !seqZ_app by lia.
  change (seqZ (0 + n) 1) with [0 + n]. rewrite !filter_app, Z.add_0_l.
  rewrite (filter_none _ (seqZ 0 n)), (filter_none _ (seqZ 0 n)).
  - rewrite !filter_cons, !filter_nil, Hbit, testbit_odd_shifted, Z.leb_refl, Z.ltb_irrefl, Z.eqb_refl by done.
    cbn [app]. rewrite decide_True, decide_False by done. cbn [app]. f_equal. apply filter_testbit_ext, Forall_forall.
    intros i Hi%elem_of_seqZ. rewrite Hbit by lia. destruct (Z.leb_spec i n); [lia|done].
  - apply Forall_forall. intros i Hi%elem_of_seqZ. rewrite Hbit by lia. destruct (Z.leb_spec i n); [done|lia].
  - apply Forall_forall. intros i Hi%elem_of_seqZ. rewrite testbit_odd_shifted by lia.
    destruct (Z.ltb_spec i n); [done|lia].
Qed.

(** ** Objects *)

Record heap_object := mk_object { o_addr : Z; o_size : Z; o_final : bool }.

#[export] Instance heap_object_eq_dec : EqDecision heap_object.
Proof. solve_decision. Defined.

Definition o_range (o : heap_object) : range := (o_addr o, o_size o).

Definition slot_object (v : view_t) (i : Z) : heap_object :=
  mk_object (v_base v + 32 * i) (v_unit v) (Z.testbit (v_fins v) i).

(** The objects in the slots of a mask, and those of the slots that are not free. *)
Definition objects_of (v : view_t) (mask : Z) : list heap_object := slot_object v <$> bits mask.
Definition objects (v : view_t) : list heap_object := objects_of v (Z.ldiff (v_all v) (v_slots v)).

Definition v_extent (v : view_t) : Z := if v_small v then POOL_ALIGN else v_unit v.

(** The address [p] is in the slot [i]. *)
Definition in_slot (v : view_t) (i p : Z) : Prop :=
  0 <= i /\ Z.testbit (v_all v) i = true /\ v_base v + 32 * i <= p < v_base v + 32 * i + v_unit v.

(** The free slots, and the slots with a finaliser, are slots; the latter are in use. *)
Record masks_ok (v : view_t) : Prop := {
  mo_slots i : Z.testbit (v_slots v) i = true -> Z.testbit (v_all v) i = true;
  mo_fins i : Z.testbit (v_fins v) i = true -> Z.testbit (v_all v) i = true /\ Z.testbit (v_slots v) i = false
}.

(** The slots of a class are its multiples. *)
Lemma class_slots sc i :
  0 <= sc < HEAP_SIZECLASSES -> 0 <= i -> Z.testbit (class_mask sc) i = true ->
    i < 32 /\ (2 ^ sc | i) /\ i + 2 ^ sc <= 32.
Proof.
  change HEAP_SIZECLASSES with 5. intros Hsc Hi Hb.
  assert (i < 32) as Hi32.
  { destruct (decide (i < 32)); [done|]. rewrite (testbit_high 32) in Hb; [done| |lia]. by apply class_mask_entry. }
  assert (sc ∈ seqZ 0 5) as Hin by (apply elem_of_seqZ; lia).
  assert (i ∈ seqZ 0 32) as Hin' by (apply elem_of_seqZ; lia).
  split; [done|].
  assert (forall sc, sc ∈ seqZ 0 5 -> forall i, i ∈ seqZ 0 32 ->
    (Z.testbit (class_mask sc) i = false \/ i mod 2 ^ sc = 0 /\ i + 2 ^ sc <= 32)) as H by by_computation.
  destruct (H sc Hin i Hin') as [E|[H1 H2]]; [congruence|]. split; [|done].
  apply Z.mod_divide in H1; [done|]. pose proof (Z.pow_pos_nonneg 2 sc ltac:(lia) ltac:(lia)). lia.
Qed.

Lemma SIZECLASS_SIZE_pow sc : 0 <= sc -> SIZECLASS_SIZE sc = 32 * 2 ^ sc.
Proof. intros. unfold SIZECLASS_SIZE. by rewrite Z.shiftl_mul_pow2. Qed.

(** What the view of a chunk is. *)
Lemma view_cases c :
  chunk_ok c ->
  (v_small (view c) = true /\ get_chunk_is_small_chunk c = true /\ 0 <= class c < HEAP_SIZECLASSES /\
   v_unit (view c) = 32 * 2 ^ class c /\ v_all (view c) = class_mask (class c)) \/
  (v_small (view c) = false /\ get_chunk_is_small_chunk c = false /\ v_all (view c) = 1 /\
   (POOL_ALIGN | v_unit (view c)) /\ 0 < v_unit (view c)).
Proof.
  intros Hc. pose proof (co_kind _ Hc) as Hk. pose proof (class_range c) as Hr. unfold view.
  destruct (get_chunk_is_small_chunk c); [left|right; tauto].
  split_and!; cbn [v_small v_unit v_all]; try done; [lia|apply SIZECLASS_SIZE_pow; lia].
Qed.

Lemma slot_bounds c i :
  chunk_ok c -> 0 <= i -> Z.testbit (v_all (view c)) i = true ->
  i < 32 /\ 0 < v_unit (view c) /\ 32 * i + v_unit (view c) <= v_extent (view c).
Proof.
  intros Hc Hi Hb. unfold v_extent.
  destruct (view_cases c Hc) as [(-> & _ & Hcl & -> & E)|(-> & _ & E & _ & Hu)]; rewrite E in Hb.
  - destruct (class_slots (class c) i) as (H1 & _ & H2); [done..|]. change POOL_ALIGN with 1024.
    pose proof (Z.pow_pos_nonneg 2 (class c) ltac:(lia) ltac:(lia)). lia.
  - destruct (decide (i = 0)) as [->|]; [lia|]. rewrite (testbit_high 1) in Hb by lia. done.
Qed.

(** Different slots do not overlap. *)
Lemma slots_disjoint c i j :
  chunk_ok c -> 0 <= i < j -> Z.testbit (v_all (view c)) i = true -> Z.testbit (v_all (view c)) j = true ->
  32 * i + v_unit (view c) <= 32 * j.
Proof.
  intros Hc Hij Hi Hj.
  destruct (view_cases c Hc) as [(_ & _ & Hcl & -> & E)|(_ & _ & E & _ & Hu)]; rewrite E in Hi, Hj.
  - destruct (class_slots (class c) i) as (_ & [a Ha] & _); [done|lia|done|].
    destruct (class_slots (class c) j) as (_ & [b Hb] & _); [done|lia|done|].
    pose proof (Z.pow_pos_nonneg 2 (class c) ltac:(lia) ltac:(lia)). assert (a < b) by nia. nia.
  - rewrite (testbit_high 1) in Hj by lia. done.
Qed.

Lemma elem_of_objects v o :
  o ∈ objects v <->
  exists i, 0 <= i < 32 /\ Z.testbit (v_all v) i = true /\ Z.testbit (v_slots v) i = false /\ o = slot_object v i.
Proof.
  unfold objects, objects_of. rewrite list_elem_of_fmap. setoid_rewrite elem_of_bits. split.
  - intros (i & -> & Hi & Hb). exists i. rewrite Z.ldiff_spec in Hb by lia. apply andb_true_iff in Hb as [H1 H2].
    apply negb_true_iff in H2. split_and!; done || lia.
  - intros (i & Hi & H1 & H2 & ->). exists i. split; [done|]. split; [done|]. by rewrite Z.ldiff_spec, H1, H2 by lia.
Qed.

Lemma objects_within c o :
  chunk_ok c -> o ∈ objects (view c) ->
  0 < o_size o /\ v_base (view c) <= o_addr o /\ o_addr o + o_size o <= v_base (view c) + v_extent (view c).
Proof.
  intros Hc (i & Hi & Hb & _ & ->)%elem_of_objects. cbn [slot_object o_addr o_size].
  destruct (slot_bounds c i) as (_ & H1 & H2); [done|lia|done|]. lia.
Qed.

Lemma objects_of_disjoint c l :
  chunk_ok c -> NoDup l -> (forall i, i ∈ l -> 0 <= i /\ Z.testbit (v_all (view c)) i = true) ->
  pairwise_disjoint (o_range <$> (slot_object (view c) <$> l)).
Proof.
  intros Hc. induction 1 as [|i l Hi Hnd IH]; intros Hl; [done|]. cbn [fmap list_fmap pairwise_disjoint]. split.
  - apply Forall_fmap, Forall_fmap, Forall_forall. intros j Hj. destruct (Hl i) as [H1 H2]; [left|].
    destruct (Hl j) as [H3 H4]; [by right|]. unfold compose, ranges_disjoint, o_range.
    cbn [slot_object o_addr o_size fst snd].
    assert (i <> j) by (intros ->; done). destruct (decide (i < j)).
    + pose proof (slots_disjoint c i j Hc ltac:(lia) H2 H4). lia.
    + pose proof (slots_disjoint c j i Hc ltac:(lia) H4 H2). lia.
  - apply IH. intros j Hj. apply Hl. by right.
Qed.

Lemma objects_disjoint c : chunk_ok c -> pairwise_disjoint (o_range <$> objects (view c)).
Proof.
  intros Hc. apply objects_of_disjoint; [done|apply NoDup_bits|]. intros i [Hi Hb]%elem_of_bits.
  rewrite Z.ldiff_spec in Hb by lia. apply andb_true_iff in Hb as [Hb _]. split; [lia|done].
Qed.

(** ** Marking *)

(** The mark of a slot, from outside or from inside. *)
Definition v_mark (i p : Z) (v : view_t) : view_t :=
  let v := v_clear v in
  if p =? v_base v + 32 * i then v_set_slots v (Z.clearbit (v_slots v) i)
  else v_set_shallow v (Z.clearbit (v_shallow v) i).

Definition v_mark_shallow (i : Z) (v : view_t) : view_t :=
  let v := v_clear v in v_set_shallow v (Z.clearbit (v_shallow v) i).

Lemma external_ptr_spec p b sc r :
  is_u64 p -> 0 <= sc -> p = b * (32 * 2 ^ sc) + r -> 0 <= r < 32 * 2 ^ sc -> EXTERNAL_PTR p sc = b * (32 * 2 ^ sc).
Proof.
  intros Hp Hsc E Hr. unfold EXTERNAL_PTR, SIZECLASS_MASK. rewrite SIZECLASS_SIZE_pow by done.
  replace (32 * 2 ^ sc) with (2 ^ (5 + sc)) in * by (rewrite Z.pow_add_r; lia).
  rewrite land_not64_ones by (done || lia). f_equal. rewrite E, Z.div_add_l, Z.div_small by lia. lia.
Qed.

Lemma slot_mask b i : is_u64 (b + 32 * i) -> is_u64 b -> 0 <= i < 32 -> FIND_SLOT (b + 32 * i) b = 2 ^ i.
Proof.
  intros H1 H2 Hi. unfold FIND_SLOT, sub64, shr64. replace (b + 32 * i - b) with (i * 2 ^ 5) by lia.
  rewrite u64_id by (unfold is_u64; lia). change HEAP_MINBITS with 5. rewrite Z.shiftr_div_pow2, Z.div_mul by lia.
  rewrite Z.shiftl_1_l. unfold u32, wrap. apply Z.mod_small. split; [lia|]. apply Z.pow_lt_mono_r; lia.
Qed.

Lemma not32_mask x i : is_u32 x -> 0 <= i -> Z.land x (not32 (2 ^ i)) = Z.clearbit x i.
Proof.
  intros Hx Hi. by_bits j Hj. unfold not32, u32.
  rewrite Z.land_spec, wrap_testbit, Z.lnot_spec, Z.pow2_bits_eqb, Z.clearbit_eqb by done.
  destruct (Z.ltb_spec j 32); [done|]. by rewrite (testbit_high 32 x).
Qed.

Lemma land_slot x i : 0 <= i -> (Z.land x (2 ^ i) =? 0) = negb (Z.testbit x i).
Proof.
  intros Hi. destruct (Z.testbit x i) eqn:E.
  - apply Z.eqb_neq. intros H. apply (f_equal (fun y => Z.testbit y i)) in H.
    rewrite Z.land_spec, Z.pow2_bits_true, E, Z.bits_0 in H by done. done.
  - apply Z.eqb_eq. by_bits j Hj. rewrite Z.land_spec, Z.pow2_bits_eqb, Z.bits_0 by done.
    destruct (Z.eqb_spec i j) as [->|]; [by rewrite E|apply andb_false_r].
Qed.

Lemma clearbit_u32 x i : is_u32 x -> is_u32 (Z.clearbit x i).
Proof.
  intros Hx. unfold Z.clearbit. assert (0 <= Z.ldiff x (Z.shiftl 1 i)) by (apply Z.ldiff_nonneg; left; apply Hx).
  split; [done|]. apply bits_lt; [done|done|]. intros j Hj.
  by rewrite Z.ldiff_spec, (testbit_high 32) by (done || lia).
Qed.

Lemma clearbit_0 b : Z.clearbit (bool_to_u64 b) 0 = 0.
Proof. by destruct b. Qed.

(** The slot that the code computes for an address. *)
Lemma slot_address c i p :
  chunk_ok c -> get_chunk_is_small_chunk c = true -> is_u64 p -> in_slot (view c) i p ->
  EXTERNAL_PTR p (class c) = get_m c + 32 * i /\ FIND_SLOT (get_m c + 32 * i) (get_m c) = 2 ^ i.
Proof.
  intros Hc E Hp (Hi & Hall & Hr). rewrite view_base in Hr.
  destruct (view_cases c Hc) as [(_ & _ & Hcl & Eu & Ea)|(_ & Hs & _)]; [|congruence].
  destruct (slot_bounds c i Hc Hi Hall) as (Hi32 & _ & _). rewrite Eu in Hr. rewrite Ea in Hall.
  destruct (class_slots (class c) i Hcl Hi Hall) as (_ & [a Ha] & _).
  destruct (co_align _ Hc) as [b Hb]. change POOL_ALIGN with (2 ^ 10) in Hb. change HEAP_SIZECLASSES with 5 in Hcl.
  replace (2 ^ 10) with (2 ^ (5 - class c) * 2 ^ class c * 32) in Hb
    by (rewrite <- Z.pow_add_r by lia; replace (5 - class c + class c) with 5 by lia; done).
  pose proof (co_base _ Hc). pose proof (Z.pow_pos_nonneg 2 (class c) ltac:(lia) ltac:(lia)).
  split.
  - rewrite (external_ptr_spec p (b * 2 ^ (5 - class c) + a) (class c) (p - (get_m c + 32 * i)));
      [rewrite Hb, Ha; lia|done|lia|rewrite Hb, Ha; lia|lia].
  - unfold is_u64 in Hp. apply slot_mask; unfold is_u64; lia.
Qed.

Section mark.
Context (c : chunk_t) (Hc : chunk_ok c) (i p : Z) (Hp : is_u64 p) (Hslot : in_slot (view c) i p).

Lemma small_slot c' :
  changes c c' v_clear -> get_chunk_is_small_chunk c = true ->
  get_chunk_is_small_chunk c' = true /\ EXTERNAL_PTR p (class c') = get_m c' + 32 * i /\
  FIND_SLOT (get_m c' + 32 * i) (get_m c') = 2 ^ i.
Proof.
  intros [Hc' Ev] E.
  assert (v_base (v_clear (view c)) = v_base (view c)) as Eb by (unfold v_clear; by destruct (v_dirty _)).
  assert (v_small (v_clear (view c)) = v_small (view c)) as Es by (unfold v_clear; by destruct (v_dirty _)).
  assert (v_unit (v_clear (view c)) = v_unit (view c)) as Eu by (unfold v_clear; by destruct (v_dirty _)).
  assert (v_all (v_clear (view c)) = v_all (view c)) as Ea by (unfold v_clear; by destruct (v_dirty _)).
  rewrite <- Ev in Eb, Es, Eu, Ea. rewrite !view_small, E in Es. split; [done|].
  apply slot_address; [done..|]. destruct Hslot as (Hi & Hall & Hr). split_and!; [done|congruence|lia|lia].
Qed.

(** The chunk after the reset of its masks, and the slot of the address in it. *)
Lemma cleared_cases :
  exists c1, maybe_clear_chunk c = Ret c1 /\ chunk_ok c1 /\ view c1 = v_clear (view c) /\
  ((get_chunk_is_small_chunk c1 = true /\ get_small_chunk_size c1 = Ret (class c1) /\
    EXTERNAL_PTR p (class c1) = v_base (view c1) + 32 * i /\
      FIND_SLOT (v_base (view c1) + 32 * i) (v_base (view c1)) = 2 ^ i /\
    slots c1 = v_slots (view c1) /\ shallow c1 = v_shallow (view c1)) \/
   (get_chunk_is_small_chunk c1 = false /\ i = 0 /\
    (exists b, v_slots (view c1) = bool_to_u64 b) /\ exists b, v_shallow (view c1) = bool_to_u64 b)).
Proof.
  destruct (maybe_clear_spec c Hc) as (c1 & E1 & H1).
  assert (get_chunk_is_small_chunk c1 = get_chunk_is_small_chunk c) as Es
    by (eapply changes_small; [exact H1|]; unfold v_clear; by destruct (v_dirty _)).
  pose proof H1 as [Hc1 Ev]. destruct Hslot as (Hi & Hall & Hr). exists c1. do 3 (split; [done|]).
  destruct (get_chunk_is_small_chunk c) eqn:E; rewrite Es; [left|right].
  - destruct (small_slot c1 H1 E) as (_ & Eext & Eslot). rewrite view_base, small_size_spec by done.
    split_and!; [done|done|done|done| |]; unfold view; by rewrite Es.
  - destruct (view_cases c Hc) as [(_ & ? & _)|(_ & _ & Ea & _)]; [congruence|]. rewrite Ea in Hall.
    split; [done|]. split; [|split; unfold view; rewrite Es; by eexists].
    destruct (decide (i = 0)); [done|]. rewrite (testbit_high 1) in Hall by lia. done.
Qed.

Lemma mark_spec :
  exists c', ponyint_heap_mark c p = Ret (c', negb (Z.testbit (v_slots (v_clear (view c))) i)) /\
    changes c c' (v_mark i p).
Proof.
  destruct Hslot as (Hi & _ & _). destruct cleared_cases as (c1 & E1 & Hc1 & Ev & Hcases).
  unfold ponyint_heap_mark, v_mark, changes. rewrite E1, <- Ev. cbn [mbind outcome_bind].
  destruct Hcases as [(Es & -> & Eext & Eslot & Esl & Esh)|(Es & -> & [b Eb] & [b' Eb'])]; rewrite Es;
    cbn [mbind outcome_bind].
  - rewrite <- view_base, Eext, Eslot, !not32_mask, land_slot, Esl, Esh by (apply Hc1 || done).
    destruct (p =? v_base (view c1) + 32 * i); eexists; (split; [done|]); apply set_masks_spec; try done;
      rewrite <- ?Esl, <- ?Esh; apply clearbit_u32, Hc1.
  - destruct (get_large_flag_spec c1 Es) as (-> & _ & _). cbn [mbind outcome_bind].
    assert ((v_slots (view c1) =? 0) = negb (Z.testbit (v_slots (view c1)) 0)) as -> by (rewrite Eb; by destruct b).
    rewrite view_base, Z.mul_0_r, Z.add_0_r.
    destruct (set_large_flag_spec c1 Hc1 0 Es) as ((c2 & -> & H2) & (c3 & -> & H3) & _).
    destruct (p =? get_m c1); cbn [mbind outcome_bind]; eexists; (split; [done|]).
    + destruct H2 as [H2 H2']. split; [done|]. by rewrite H2', Eb, clearbit_0.
    + destruct H3 as [H3 H3']. split; [done|]. by rewrite H3', Eb', clearbit_0.
Qed.

Lemma mark_shallow_spec :
  exists c', ponyint_heap_mark_shallow c p = Ret c' /\ changes c c' (v_mark_shallow i).
Proof.
  destruct Hslot as (Hi & _ & _). destruct cleared_cases as (c1 & E1 & Hc1 & Ev & Hcases).
  unfold ponyint_heap_mark_shallow, v_mark_shallow, changes. rewrite E1, <- Ev. cbn [mbind outcome_bind].
  destruct Hcases as [(Es & -> & Eext & Eslot & Esl & Esh)|(Es & -> & [b Eb] & [b' Eb'])]; rewrite Es;
    cbn [mbind outcome_bind].
  - rewrite <- view_base, Eext, Eslot, !not32_mask, Esh by (apply Hc1 || done).
    eexists. split; [done|]. apply set_masks_spec; [done..|]. rewrite <- Esh. apply clearbit_u32, Hc1.
  - destruct (set_large_flag_spec c1 Hc1 0 Es) as (_ & (c3 & -> & [H3 H3']) & _).
    eexists. split; [done|]. split; [done|]. by rewrite H3', Eb', clearbit_0.
Qed.
End mark.

(** What marks have been set since the chunk had the view [v0]: those of the objects whose
    addresses are in [ext], from outside, and in [int], from inside. *)
Record marks (v0 v : view_t) (ext int : gset Z) : Prop := {
  ma_dirty : v_dirty v0 = true;
  ma_same : v_small v = v_small v0 /\ v_base v = v_base v0 /\ v_unit v = v_unit v0 /\ v_all v = v_all v0 /\
    v_fins v = v_fins v0;
  ma_masks :
    if v_dirty v then v = v0 /\ forall i, Z.testbit (v_all v0) i = true -> v_base v0 + 32 * i ∉ ext ∪ int
    else forall i, 0 <= i ->
      Z.testbit (v_slots v) i = Z.testbit (v_all v0) i && bool_decide (v_base v0 + 32 * i ∉ ext) /\
      Z.testbit (v_shallow v) i = Z.testbit (v_all v0) i && bool_decide (v_base v0 + 32 * i ∉ int)
}.

Lemma clear_same v :
  v_small (v_clear v) = v_small v /\ v_base (v_clear v) = v_base v /\ v_unit (v_clear v) = v_unit v /\
  v_all (v_clear v) = v_all v /\ v_fins (v_clear v) = v_fins v /\ v_dirty (v_clear v) = false.
Proof. unfold v_clear. destruct (v_dirty v) eqn:E; [done|]. by rewrite E. Qed.

Lemma marks_clear v0 v ext int i :
  marks v0 v ext int -> 0 <= i ->
  Z.testbit (v_slots (v_clear v)) i = Z.testbit (v_all v0) i && bool_decide (v_base v0 + 32 * i ∉ ext) /\
  Z.testbit (v_shallow (v_clear v)) i = Z.testbit (v_all v0) i && bool_decide (v_base v0 + 32 * i ∉ int).
Proof.
  intros [Hd _ Hm] Hi. unfold v_clear. destruct (v_dirty v) eqn:E; [|by apply Hm].
  destruct Hm as [-> Hno]. cbn [v_set_dirty v_set_slots v_set_shallow v_slots v_shallow].
  destruct (Z.testbit (v_all v0) i) eqn:Eb; [|done]. apply Hno in Eb. rewrite not_elem_of_union in Eb.
  by rewrite !bool_decide_eq_true_2 by tauto.
Qed.

Lemma marks_start v : v_dirty v = true -> marks v v ∅ ∅.
Proof. intros Hd. constructor; [done|done|]. rewrite Hd. split; [done|]. intros i _. set_solver. Qed.

(** A mark in another chunk. *)
Lemma marks_other v0 v ext int a :
  marks v0 v ext int -> (forall i, Z.testbit (v_all v0) i = true -> v_base v0 + 32 * i <> a) ->
  marks v0 v ({[a]} ∪ ext) int /\ marks v0 v ext ({[a]} ∪ int).
Proof.
  intros [Hd Hs Hm] Ha. split; (constructor; [done|done|]); destruct (v_dirty v).
  - destruct Hm as [-> Hno]. split; [done|]. intros i Hi. specialize (Ha i Hi). specialize (Hno i Hi). set_solver.
  - intros i Hi. destruct (Hm i Hi) as [-> ->]. split; [|done]. destruct (Z.testbit (v_all v0) i) eqn:E; [|done].
    specialize (Ha i E). cbn [andb]. apply bool_decide_ext. set_solver.
  - destruct Hm as [-> Hno]. split; [done|]. intros i Hi. specialize (Ha i Hi). specialize (Hno i Hi). set_solver.
  - intros i Hi. destruct (Hm i Hi) as [-> ->]. split; [done|]. destruct (Z.testbit (v_all v0) i) eqn:E; [|done].
    specialize (Ha i E). cbn [andb]. apply bool_decide_ext. set_solver.
Qed.

Lemma clearbit_mask (b v : Z) (s : gset Z) all x i j :
  0 <= i -> 0 <= j -> Z.testbit x j = Z.testbit all j && bool_decide (b + 32 * j ∉ s) ->
  Z.testbit (Z.clearbit x i) j = Z.testbit all j && bool_decide (b + 32 * j ∉ {[b + 32 * i]} ∪ s).
Proof.
  intros Hi Hj E. rewrite Z.clearbit_eqb, E by done. destruct (Z.eqb_spec i j) as [->|Hne].
  - rewrite andb_false_r, bool_decide_eq_false_2, andb_false_r by set_solver. done.
  - rewrite andb_true_r. f_equal. apply bool_decide_ext. rewrite not_elem_of_union, not_elem_of_singleton.
    split; [|tauto].
    intros. split; [lia|done].
Qed.

Lemma marks_mark v0 v ext int i p :
  marks v0 v ext int -> in_slot v i p ->
  let a := v_base v0 + 32 * i in
  negb (Z.testbit (v_slots (v_clear v)) i) = bool_decide (a ∈ ext) /\
  marks v0 (v_mark i p v) (if p =? a then {[a]} ∪ ext else ext) (if p =? a then int else {[a]} ∪ int).
Proof.
  intros Hm (Hi & Hall & _) a. pose proof (marks_clear _ _ _ _ i Hm Hi) as [Hs _].
  pose proof Hm as [Hd (S1 & S2 & S3 & S4 & S5) _]. rewrite S4 in Hall.
  destruct (clear_same v) as (C1 & C2 & C3 & C4 & C5 & C6). split.
  - rewrite Hs, Hall. cbn [andb]. rewrite <- bool_decide_not. apply bool_decide_ext.
    destruct (decide (v_base v0 + 32 * i ∈ ext)); tauto.
  - unfold v_mark. rewrite C2, S2. fold a.
    destruct (p =? a); constructor; cbn [v_set_slots v_set_shallow v_small v_base v_unit v_all v_fins v_dirty];
      try congruence; try (split_and!; congruence); rewrite C6; intros j Hj; cbn [v_slots v_shallow];
      destruct (marks_clear _ _ _ _ j Hm Hj) as [H1 H2]; (split; [|done || idtac]); try done; by apply clearbit_mask.
Qed.

Lemma marks_mark_shallow v0 v ext int i :
  marks v0 v ext int -> 0 <= i -> marks v0 (v_mark_shallow i v) ext ({[v_base v0 + 32 * i]} ∪ int).
Proof.
  intros Hm Hi. pose proof Hm as [Hd (S1 & S2 & S3 & S4 & S5) _].
  destruct (clear_same v) as (C1 & C2 & C3 & C4 & C5 & C6).
  unfold v_mark_shallow.
  constructor; cbn [v_set_shallow v_small v_base v_unit v_all v_fins v_dirty]; [done|split_and!; congruence|].
  rewrite C6. intros j Hj. cbn [v_slots v_shallow]. destruct (marks_clear _ _ _ _ j Hm Hj) as [H1 H2].
  split; [done|by apply clearbit_mask].
Qed.

(** ** Sweeping *)

(** A sweep frees what is not marked; the finalisers of the slots that are free have run. *)
Definition v_swept (v : view_t) : view_t :=
  let v := v_clear v in v_set_dirty (v_set_slots v (Z.land (v_slots v) (v_shallow v))) true.

Definition v_finalised (v : view_t) : view_t := v_set_fins v (Z.ldiff (v_fins v) (v_slots v)).

Lemma filter_bits (P : Z -> Prop) `{forall i, Decision (P i)} x y :
  (forall i, 0 <= i < 32 -> Z.testbit x i = Z.testbit y i && bool_decide (P i)) ->
  bits x = filter P (bits y).
Proof.
  intros E. unfold bits. rewrite list_filter_filter. generalize (fun i => proj1 (elem_of_seqZ 0 32 i)).
  induction (seqZ 0 32) as [|i l IH]; intros Hl; [done|]. rewrite !filter_cons.
  rewrite IH by (intros; apply Hl; by right).
  specialize (E i ltac:(specialize (Hl i); set_unfold; lia)). rewrite E.
  destruct (Z.testbit y i), (decide (P i)) as [Hp|Hp];
    rewrite ?(bool_decide_eq_true_2 _ Hp), ?(bool_decide_eq_false_2 _ Hp);
    cbn [andb]; repeat case_decide; tauto || congruence || done.
Qed.

Lemma filter_fmap_objects (P : heap_object -> Prop) `{forall o, Decision (P o)} v (l : list Z) :
  filter P (slot_object v <$> l) = slot_object v <$> filter (fun i => P (slot_object v i)) l.
Proof. induction l as [|i l IH]; [done|]. cbn [fmap list_fmap]. rewrite !filter_cons, IH. by case_decide. Qed.

Section swept.
Context (v0 v : view_t) (ext int : gset Z) (Hmarks : marks v0 v ext int) (Hok : masks_ok v0).
Context (Hlive : forall i, 0 <= i -> Z.testbit (v_all v0) i = true -> v_base v0 + 32 * i ∈ ext ∪ int ->
  Z.testbit (v_slots v0) i = false).

Lemma swept_slots i :
  0 <= i -> Z.testbit (v_slots (v_swept v)) i = Z.testbit (v_all v0) i && bool_decide (v_base v0 + 32 * i ∉ ext ∪
    int).
Proof.
  intros Hi. unfold v_swept. cbn [v_set_dirty v_set_slots v_slots]. rewrite Z.land_spec.
  destruct (marks_clear _ _ _ _ i Hmarks Hi) as [-> ->]. destruct (Z.testbit (v_all v0) i); [|done]. cbn [andb].
  rewrite <- bool_decide_and. apply bool_decide_ext. set_solver.
Qed.

Lemma swept_same :
  v_small (v_swept v) = v_small v0 /\ v_base (v_swept v) = v_base v0 /\ v_unit (v_swept v) = v_unit v0 /\
  v_all (v_swept v) = v_all v0 /\ v_fins (v_swept v) = v_fins v0 /\ v_dirty (v_swept v) = true.
Proof.
  destruct (clear_same v) as (C1 & C2 & C3 & C4 & C5 & C6). destruct Hmarks as [_ (S1 & S2 & S3 & S4 & S5) _].
  unfold v_swept. cbn [v_set_dirty v_set_slots v_small v_base v_unit v_all v_fins v_dirty]. split_and!; congruence.
Qed.

(** What is left are the objects that are marked. *)
Lemma swept_objects : objects (v_finalised (v_swept v)) = filter (fun o => o_addr o ∈ ext ∪ int) (objects v0).
Proof.
  destruct swept_same as (S1 & S2 & S3 & S4 & S5 & S6).
  unfold objects, objects_of. rewrite filter_fmap_objects. cbn [slot_object o_addr].
  unfold v_finalised at 2 3. cbn [v_set_fins v_all v_slots].
  rewrite (filter_bits (fun i => v_base v0 + 32 * i ∈ ext ∪ int) (Z.ldiff (v_all (v_swept v)) (v_slots (v_swept v)))
             (Z.ldiff (v_all v0) (v_slots v0))).
  - apply list_fmap_ext. intros k i Hi%list_elem_of_lookup_2.
    apply list_elem_of_filter in Hi as [Hm [Hi _]%elem_of_bits].
    unfold slot_object, v_finalised. cbn [v_set_fins v_base v_unit v_fins]. rewrite S2, S3, S5. f_equal.
    rewrite Z.ldiff_spec, swept_slots by lia. rewrite (bool_decide_eq_false_2 (_ ∉ _)) by tauto.
    by rewrite andb_false_r, andb_true_r.
  - intros i Hi. rewrite !Z.ldiff_spec, S4, swept_slots by lia. destruct (Z.testbit (v_all v0) i) eqn:Ea; [|done].
    cbn [andb].
    destruct (decide (v_base v0 + 32 * i ∈ ext ∪ int)) as [Hm|Hm].
    + rewrite (Hlive i), !(bool_decide_eq_true_2 (_ ∈ _)), bool_decide_eq_false_2 by (tauto || lia). done.
    + rewrite bool_decide_eq_true_2, (bool_decide_eq_false_2 (_ ∈ _)) by tauto. by rewrite andb_false_r.
Qed.

(** What is finalised are the finalisable objects that are not. *)
Lemma swept_finalised :
  objects_of v0 (Z.land (v_fins v0) (v_slots (v_swept v))) =
    filter (fun o => o_final o = true /\ o_addr o ∉ ext ∪ int) (objects v0).
Proof.
  unfold objects, objects_of. rewrite filter_fmap_objects. cbn [slot_object o_addr o_final]. f_equal.
  apply filter_bits. intros i Hi. rewrite Z.land_spec, Z.ldiff_spec, swept_slots by lia.
  destruct (Z.testbit (v_fins v0) i) eqn:Ef.
  - destruct (mo_fins _ Hok i Ef) as [-> ->]. cbn [andb negb]. apply bool_decide_ext. tauto.
  - cbn [andb]. rewrite bool_decide_eq_false_2 by (intros [? _]; done). by rewrite andb_false_r.
Qed.

Lemma swept_masks : masks_ok (v_finalised (v_swept v)).
Proof.
  destruct swept_same as (S1 & S2 & S3 & S4 & S5 & S6).
  constructor; intros i; unfold v_finalised; cbn [v_set_fins v_slots v_all v_fins]; intros H.
  - destruct (decide (0 <= i)); [|by rewrite Z.testbit_neg_r in H by lia].
    rewrite swept_slots in H by done. apply andb_true_iff in H as [H _]. by rewrite S4.
  - destruct (decide (0 <= i)); [|by rewrite Z.testbit_neg_r in H by lia].
    rewrite Z.ldiff_spec, S5 in H by done. apply andb_true_iff in H as [H1 H2]. apply negb_true_iff in H2.
    split; [|done].
    rewrite S4. by apply (mo_fins _ Hok).
Qed.
End swept.

(** The bytes in use. *)
Definition sizes (l : list heap_object) : Z := foldr (fun o n => o_size o + n) 0 l.

Lemma sizes_slots v (l : list Z) : sizes (slot_object v <$> l) = v_unit v * Z.of_nat (List.length l).
Proof. unfold sizes. induction l as [|i l IH]; cbn in *; [lia|]. rewrite IH. lia. Qed.

Lemma popcount_split all x :
  (forall i, Z.testbit x i = true -> Z.testbit all i = true) -> popcount (Z.ldiff all x) = popcount all - popcount x.
Proof.
  intros Hx. unfold popcount, bits. induction (seqZ 0 32) as [|i l IH]; [done|]. rewrite !filter_cons.
  specialize (Hx i). destruct (decide (0 <= i)).
  - rewrite Z.ldiff_spec by done. repeat case_decide; cbn [List.length];
      destruct (Z.testbit all i), (Z.testbit x i); cbn in *; try done; try lia; by discriminate Hx.
  - rewrite !Z.testbit_neg_r by lia. by rewrite !decide_False by done.
Qed.

Lemma popcount_class sc : 0 <= sc < HEAP_SIZECLASSES -> 32 * 2 ^ sc * popcount (class_mask sc) = POOL_ALIGN.
Proof.
  change HEAP_SIZECLASSES with 5. intros Hsc. assert (sc ∈ seqZ 0 5) as Hin by (apply elem_of_seqZ; lia).
  clear Hsc. revert sc Hin. by_computation.
Qed.

Lemma used_bytes c :
  chunk_ok c -> masks_ok (view c) ->
  sizes (objects (view c)) = v_extent (view c) - popcount (v_slots (view c)) * v_unit (view c).
Proof.
  intros Hc Hm. unfold objects, objects_of. rewrite sizes_slots.
  change (Z.of_nat (List.length (bits ?x))) with (popcount x).
  rewrite popcount_split by apply Hm. unfold v_extent.
  destruct (view_cases c Hc) as [(-> & _ & Hcl & -> & ->)|(-> & _ & -> & _)].
  - rewrite <- (popcount_class (class c) Hcl). lia.
  - change (popcount 1) with 1. lia.
Qed.

(** ** Allocation in a chunk *)

Definition track_ok (mask : Z) : Prop := mask = FORCE_NO_FINALISERS \/ mask = FORCE_ALL_FINALISERS.
Definition tracked (mask : Z) : bool := negb (mask =? FORCE_NO_FINALISERS).

Lemma track_bit mask i : track_ok mask -> 0 <= i < 32 -> Z.testbit mask i = tracked mask.
Proof.
  intros [-> | ->] Hi; [apply Z.testbit_0_l|]. change FORCE_ALL_FINALISERS with (Z.ones 32).
  rewrite Z.ones_spec_low by lia. done.
Qed.

Lemma u32_bit i : 0 <= i < 32 -> u32 (Z.shiftl 1 i) = 2 ^ i.
Proof.
  intros Hi. rewrite Z.shiftl_1_l. apply Z.mod_small. split; [lia|]. apply Z.pow_lt_mono_r; lia.
Qed.

Lemma track_land mask i : track_ok mask -> 0 <= i < 32 -> Z.land mask (2 ^ i) = if tracked mask then 2 ^ i else 0.
Proof.
  intros Ht Hi. by_bits j Hj. rewrite Z.land_spec, Z.pow2_bits_eqb by lia. destruct (Z.eqb_spec i j) as [->|Hne].
  - rewrite track_bit, andb_true_r by done.
    destruct (tracked mask); [by rewrite Z.pow2_bits_true|by rewrite Z.bits_0].
  - rewrite andb_false_r. destruct (tracked mask); [by rewrite Z.pow2_bits_false by lia|by rewrite Z.bits_0].
Qed.

Lemma set_bit_objects v i b :
  masks_ok v -> 0 <= i < 32 -> Z.testbit (v_slots v) i = true ->
  let v' := v_set_fins (v_set_slots v (Z.clearbit (v_slots v) i)) (Z.lor (v_fins v) (if b : bool then 2 ^ i else 0))
    in
  masks_ok v' /\ objects v' ≡ₚ mk_object (v_base v + 32 * i) (v_unit v) b :: objects v.
Proof.
  intros Hm Hi Hb v'. pose proof (mo_slots _ Hm i Hb) as Ha.
  assert (forall j, 0 <= j -> Z.testbit (v_fins v') j = if j =? i then b else Z.testbit (v_fins v) j) as Hfins.
  { intros j Hj. unfold v'. cbn [v_set_fins v_fins]. rewrite Z.lor_spec. destruct (Z.eqb_spec j i) as [->|Hne].
    - assert (Z.testbit (v_fins v) i = false) as ->.
      { destruct (Z.testbit (v_fins v) i) eqn:E; [|done]. apply (mo_fins _ Hm) in E as [_ E]. congruence. }
      destruct b; [by rewrite Z.pow2_bits_true by lia|by rewrite Z.bits_0].
    - destruct b; [rewrite Z.pow2_bits_false by lia|rewrite Z.bits_0]; by rewrite orb_false_r. }
  assert (forall j, 0 <= j -> Z.testbit (v_slots v') j = if j =? i then false else Z.testbit (v_slots v) j) as Hslots.
  { intros j Hj. unfold v'. cbn [v_set_fins v_set_slots v_slots]. rewrite Z.clearbit_eqb
      by lia. rewrite (Z.eqb_sym j i).
    destruct (i =? j); [by rewrite andb_false_r|by rewrite andb_true_r]. }
  split.
  - constructor; intros j Hj; (destruct (decide (0 <= j)); [|by rewrite Z.testbit_neg_r in Hj by lia]);
      change (v_all v') with (v_all v).
    + rewrite Hslots in Hj by done. destruct (j =? i); [done|]. by apply Hm.
    + rewrite Hfins in Hj by done. rewrite Hslots by done. destruct (Z.eqb_spec j i) as [Eji|]; [by subst|].
      by apply (mo_fins _ Hm).
  - unfold objects, objects_of. change (v_all v') with (v_all v).
    assert (bits (Z.ldiff (v_all v) (v_slots v')) ≡ₚ i :: bits (Z.ldiff (v_all v) (v_slots v))) as ->.
    { apply NoDup_Permutation; [apply NoDup_bits| |].
      - constructor; [|apply NoDup_bits]. rewrite elem_of_bits, Z.ldiff_spec, Hb by lia. rewrite andb_false_r.
        by intros [_ ?].
      - intros j. rewrite elem_of_cons, !elem_of_bits.
        destruct (decide (0 <= j < 32)); [|split; [tauto|intros [E|E]; [lia|tauto]]].
        rewrite !Z.ldiff_spec, Hslots by lia. destruct (Z.eqb_spec j i) as [->|]; [rewrite Ha; tauto|tauto]. }
    cbn [fmap list_fmap]. assert (slot_object v' i = mk_object (v_base v + 32 * i) (v_unit v) b) as ->.
    { unfold slot_object. rewrite Hfins, Z.eqb_refl by lia. done. }
    apply Permutation_skip. apply (reflexive_eq (R := Permutation)), list_fmap_ext.
    intros k j Hj%list_elem_of_lookup_2.
    apply elem_of_bits in Hj as [Hj Hj']. rewrite Z.ldiff_spec in Hj' by lia. apply andb_true_iff in Hj' as [_ Hj'].
    unfold slot_object. rewrite Hfins by lia. change (v_base v') with (v_base v). change (v_unit v') with (v_unit v).
    destruct (Z.eqb_spec j i) as [->|]; [by rewrite Hb in Hj'|done].
Qed.

Lemma lor_u32 x y : is_u32 x -> is_u32 y -> is_u32 (Z.lor x y).
Proof. by apply lor_lt. Qed.

Lemma land_u32 x y : is_u32 x -> 0 <= y -> is_u32 (Z.land x y).
Proof.
  intros Hx Hy. assert (0 <= Z.land x y) as H0 by (by apply Z.land_nonneg; right). split; [done|].
  apply bits_lt; [done|done|]. intros i Hi. by rewrite Z.land_spec, (testbit_high 32 x) by done.
Qed.

Lemma view_small_masks c :
  get_chunk_is_small_chunk c = true ->
  v_slots (view c) = slots c /\ v_shallow (view c) = shallow c /\ v_fins (view c) = finalisers c.
Proof. intros E. unfold view. by rewrite E. Qed.

Lemma take_slot_spec c mask :
  chunk_ok c -> get_chunk_is_small_chunk c = true -> masks_ok (view c) -> slots c <> 0 -> track_ok mask ->
  exists c' i, take_slot c mask = (c', get_m c + 32 * i) /\ chunk_ok c' /\ masks_ok (view c') /\
    objects (view c') ≡ₚ mk_object (get_m c + 32 * i) (v_unit (view c)) (tracked mask) :: objects (view c) /\
    view c' = v_set_fins (v_set_slots (view c) (slots c')) (finalisers c') /\ 0 <= i /\
      Z.testbit (v_all (view c)) i = true.
Proof.
  intros Hc E Hm Hs Ht. pose proof (co_slots _ Hc) as Hu. pose proof (co_fins _ Hc) as Huf.
  destruct (view_small_masks c E) as (Es & _ & Ef).
  destruct (bits_step (slots c)) as (Hbits & _ & Hi); [unfold is_u32 in Hu; lia|].
  assert (Z.testbit (slots c) (ctz (slots c)) = true) as Hb.
  { assert (ctz (slots c) ∈ bits (slots c)) as Hin by (rewrite Hbits; left). by apply elem_of_bits in Hin as [_ ?]. }
  set (i := ctz (slots c)) in *. rewrite <- Es in Hb. pose proof (mo_slots _ Hm i Hb) as Ha.
  destruct (slot_bounds c i Hc ltac:(lia) Ha) as (_ & Hp & Hle).
  unfold take_slot. fold i. rewrite u32_bit, not32_mask, track_land by (done || lia).
  assert (get_m c ⊞ Z.shiftl i HEAP_MINBITS = get_m c + 32 * i) as ->.
  { rewrite Z.shiftl_mul_pow2 by done. change (2 ^ HEAP_MINBITS) with 32. unfold add64.
    assert (is_u64 (get_m c)) as [Hg1 Hg2] by (unfold get_m; apply land_range; [apply Hc|done]).
    destruct (co_align _ Hc) as [k Hk]. change POOL_ALIGN with 1024 in *. rewrite Z.mul_comm. apply u64_id.
    unfold is_u64. lia. }
  eexists _, i. split; [done|].
  destruct (set_bit_objects (view c) i (tracked mask) Hm Hi Hb) as [Hm' Hobj].
  assert (get_chunk_is_small_chunk (set_slots c (Z.clearbit (slots c) i)) = true) as E1 by done.
  destruct (set_masks_spec c Hc (Z.clearbit (slots c) i) E (clearbit_u32 _ _ Hu)) as ([H1 H1'] & _ & _).
  destruct (set_masks_spec _ H1 (Z.lor (finalisers c) (if tracked mask then 2 ^ i else 0)) E1) as (_ & _ & [H2 H2']).
  { apply lor_u32; [done|]. unfold is_u32. destruct (tracked mask); [|lia]. split; [lia|]. apply Z.pow_lt_mono_r;
      lia. }
  cbn [finalisers set_slots slots set_finalisers] in *. split; [done|]. rewrite H2', H1', <- view_base.
  rewrite Es, Ef in Hm', Hobj. split_and!; try done; lia.
Qed.

Lemma init_entry sc : 0 <= sc < HEAP_SIZECLASSES -> entry sizeclass_init sc = Ret (Z.clearbit (class_mask sc) 0).
Proof.
  change HEAP_SIZECLASSES with 5. intros Hsc. assert (sc ∈ seqZ 0 5) as Hin by (apply elem_of_seqZ; lia).
  clear Hsc. revert sc Hin. by_computation.
Qed.

(** The address of a block has no flags. *)
Lemma block_flags x mask : (POOL_ALIGN | x) -> 0 <= mask < 2 ^ 10 -> Z.land x mask = 0.
Proof.
  intros [k ->] Hm. change POOL_ALIGN with (2 ^ 10). rewrite <- Z.shiftl_mul_pow2 by done. by_bits i Hi.
  rewrite Z.land_spec, Z.shiftl_spec, Z.bits_0 by done. destruct (decide (i < 10)).
  - by rewrite Z.testbit_neg_r by lia.
  - rewrite (testbit_high 10 mask) by (done || lia). apply andb_false_r.
Qed.

Lemma block_base x : is_u64 x -> (POOL_ALIGN | x) -> Z.land x CHUNK_M_BITMASK = x.
Proof.
  intros Hx [k ->]. change POOL_ALIGN with 1024 in *. change CHUNK_M_BITMASK with (not64 (2 ^ 5 - 1)).
  rewrite land_not64_ones by done. change (2 ^ 5) with 32. replace (k * 1024) with (k * 32 * 32) by lia.
  by rewrite Z.div_mul.
Qed.

Section block.
Context (n : chunk_t) (Hm : is_u64 (m n)) (Hp : 0 < m n) (Hal : (POOL_ALIGN | m n)).
Context (H1 : is_u32 (slots n)) (H2 : is_u32 (shallow n)) (H3 : is_u32 (finalisers n)).

Lemma set_small_spec sc :
  0 <= sc < HEAP_SIZECLASSES ->
  exists n', set_small_chunk_size (set_chunk_is_small_chunk n) sc = Ret n' /\ chunk_ok n' /\
    get_chunk_is_small_chunk n' = true /\
    view n' = mk_view true (m n) (SIZECLASS_SIZE sc) (class_mask sc) (slots n) (shallow n) (finalisers n) false.
Proof.
  change HEAP_SIZECLASSES with 5. intros Hsc.
  pose proof (block_flags (m n) 1 Hal ltac:(lia)) as F1. pose proof (block_flags (m n) 2 Hal ltac:(lia)) as F2.
  pose proof (block_flags (m n) 28 Hal ltac:(lia)) as F28.
  pose proof (block_base (m n) Hm Hal) as Fb.
  assert (get_chunk_is_small_chunk (set_chunk_is_small_chunk n) = true) as Es
    by (unfold get_chunk_is_small_chunk, set_chunk_is_small_chunk; cbn [m set_m]; numerals; eval_flags; done).
  unfold set_small_chunk_size. rewrite Es. change HEAP_SIZECLASSES with 5. rewrite (proj2 (Z.ltb_lt sc 5)) by lia.
  cbn [andb].
  assert (Z.land (sc <<! SMALL_CHUNK_SIZECLASS_SHIFT) SMALL_CHUNK_SIZECLASS_BITMASK = 4 * sc) as ->.
  { assert (sc ∈ seqZ 0 5) as Hin by (apply elem_of_seqZ; lia). clear Hsc. revert sc Hin. by_computation. }
  eexists. split; [done|].
  assert (sc = 0 \/ sc = 1 \/ sc = 2 \/ sc = 3 \/ sc = 4) as Hcases by lia.
  assert (forall P : chunk_t -> Prop, P (set_m n (Z.lor (Z.land (Z.lor (m n) 1) (not64 28)) (4 * sc))) ->
    P (set_m (set_chunk_is_small_chunk n) (Z.lor (Z.land (m (set_chunk_is_small_chunk n)) (not64
      SMALL_CHUNK_SIZECLASS_BITMASK)) (4 * sc)))) as HP by done.
  apply (HP (fun n' => chunk_ok n' /\ get_chunk_is_small_chunk n' = true /\ view n' = _)). clear HP.
  assert (is_u64 (Z.lor (Z.land (Z.lor (m n) 1) (not64 28)) (4 * sc))) as Hu.
  { apply or_and_small; [apply lor_range; [done|in_word]|lia]. }
  destruct Hcases as [->|[->|[->|[->| ->]]]]; cbn [Z.mul Pos.mul] in *;
    (split; [constructor; [exact Hu|..]|split]); unfold class in *; unfold_flags; rewrite ?Fb, ?F1, ?F2, ?F28; done.
Qed.

Lemma init_small_spec sc mask :
  0 <= sc < HEAP_SIZECLASSES -> track_ok mask ->
  exists n', init_small n sc mask = Ret n' /\ chunk_ok n' /\ masks_ok (view n') /\
    get_chunk_is_small_chunk n' = true /\ get_m n' = m n /\ v_dirty (view n') = true /\
    v_all (view n') = class_mask sc /\ v_unit (view n') = SIZECLASS_SIZE sc /\ slots n' <> 0 /\
    objects (view n') = [mk_object (m n) (SIZECLASS_SIZE sc) (tracked mask)].
Proof.
  intros Hsc Ht. unfold init_small. destruct (set_small_spec sc Hsc) as (n1 & -> & Hc1 & E1 & V1).
  cbn [mbind outcome_bind].
  rewrite init_entry by done. cbn [mbind outcome_bind]. eexists. split; [done|].
  assert (Z.land mask 1 = bool_to_u64 (tracked mask)) as -> by (destruct Ht as [-> | ->]; done).
  assert (is_u32 (bool_to_u64 (tracked mask))) as Hf by (destruct (tracked mask); in_word).
  destruct (class_mask_entry sc Hsc) as [_ Hu].
  destruct (set_masks_spec n1 Hc1 _ E1 Hf) as (_ & _ & [Hc2 V2]).
  assert (get_chunk_is_small_chunk (set_finalisers n1 (bool_to_u64 (tracked mask))) = true) as E2 by done.
  destruct (set_masks_spec _ Hc2 _ E2 (clearbit_u32 _ 0 Hu)) as ([Hc3 V3] & _).
  destruct (set_needs_clearing_spec _ Hc3) as [Hc4 V4]. rewrite V3, V2, V1 in V4.
  set (n' := set_chunk_needs_clearing _) in *.
  unfold v_set_dirty, v_set_slots, v_set_fins in V4.
  cbn [v_small v_base v_unit v_all v_slots v_shallow v_fins v_dirty] in V4.
  assert (get_chunk_is_small_chunk n' = true) as E4 by (by rewrite <- view_small, V4).
  split; [done|].
  assert (objects (view n') = [mk_object (m n) (SIZECLASS_SIZE sc) (tracked mask)] /\
    (forall i, Z.testbit (Z.clearbit (class_mask sc) 0) i = true -> Z.testbit (class_mask sc) i = true) /\
    Z.testbit (class_mask sc) 0 = true /\ Z.clearbit (class_mask sc) 0 <> 0) as (Hobj & Hsub & H0 & Hne).
  { rewrite V4. unfold objects, objects_of. cbn [v_all v_slots].
    change HEAP_SIZECLASSES with 5 in Hsc. assert (sc ∈ seqZ 0 5) as Hin by (apply elem_of_seqZ; lia).
    assert (bits (Z.ldiff (class_mask sc) (Z.clearbit (class_mask sc) 0)) = [0] /\
      Z.testbit (class_mask sc) 0 = true /\
            Z.clearbit (class_mask sc) 0 <> 0) as (-> & H0 & Hne).
    { clear -Hin. revert sc Hin. by_computation. }
    split; [cbn; unfold slot_object; cbn; rewrite Z.add_0_r; by destruct (tracked mask)|].
    split; [|done]. intros i. unfold Z.clearbit. destruct (decide (0 <= i)); [|by rewrite !Z.testbit_neg_r by lia].
    rewrite Z.ldiff_spec by done. intros [Hb _]%andb_true_iff. done. }
  split_and!; try done.
  - rewrite V4. constructor; cbn [v_slots v_all v_fins]; [done|]. intros i Hi.
    assert (i = 0) as -> by (destruct (tracked mask), i as [|[]|]; done). split; [done|]. by rewrite Z.clearbit_eq.
  - by rewrite <- view_base, V4.
  - by rewrite V4.
  - by rewrite V4.
  - by rewrite V4.
Qed.
End block.

Lemma init_large_spec c mask :
  chunk_ok c -> get_chunk_is_small_chunk c = false -> track_ok mask ->
  exists c', init_large c mask = Ret c' /\ chunk_ok c' /\ masks_ok (view c') /\
    get_chunk_is_small_chunk c' = false /\ get_m c' = get_m c /\ large_size c' = large_size c /\
      v_dirty (view c') = true /\
    v_slots (view c') = 0 /\ objects (view c') = [mk_object (get_m c) (large_size c) (tracked mask)].
Proof.
  intros Hc E Ht. unfold init_large. destruct (set_large_flag_spec c Hc 0 E) as ((c1 & -> & [Hc1 V1]) & _).
  cbn [mbind outcome_bind].
  assert (Z.land mask 1 = bool_to_u64 (tracked mask)) as -> by (destruct Ht as [-> | ->]; done).
  destruct (set_needs_clearing_spec _ Hc1) as [Hc2 V2].
  assert (get_chunk_is_small_chunk (set_chunk_needs_clearing c1) = false) as E2
    by (rewrite <- view_small, V2, V1; cbn; by rewrite view_small).
  destruct (set_large_flag_spec _ Hc2 (bool_to_u64 (tracked mask)) E2) as (_ & _ & (c3 & -> & [Hc3 V3])).
  rewrite V2, V1 in V3. exists c3. split; [done|]. split; [done|].
  assert (view c = mk_view false (get_m c) (large_size c) 1 (v_slots (view c)) (v_shallow (view c)) (v_fins (view c))
    (v_dirty (view c))) as V
    by (unfold view; by rewrite E).
  rewrite V in V3. unfold v_set_dirty, v_set_slots, v_set_fins in V3.
  cbn [v_small v_base v_unit v_all v_slots v_shallow v_fins v_dirty] in V3.
  assert (negb (bool_to_u64 (tracked mask) =? 0) = tracked mask) as Et by (by destruct (tracked mask)).
  rewrite Et in V3.
  assert (get_chunk_is_small_chunk c3 = false) as E3 by (by rewrite <- view_small, V3).
  assert (large_size c3 = v_unit (view c3)) as Esz by (unfold view; by rewrite E3).
  rewrite <- view_base, Esz, V3. cbn [v_base v_unit v_dirty v_slots]. split_and!; try done.
  - constructor; cbn [v_slots v_all v_fins]; intros i Hi; [by rewrite Z.bits_0 in Hi|].
    destruct (tracked mask); [|by rewrite Z.bits_0 in Hi]. split; [done|]. apply Z.bits_0.
  - unfold objects, objects_of. cbn [v_all v_slots]. change (bits (Z.ldiff 1 (bool_to_u64 (negb (0 =? 0))))) with [0].
    cbn [fmap list_fmap].
    unfold slot_object. cbn [v_base v_unit v_fins]. rewrite Z.mul_0_r, Z.add_0_r. by destruct (tracked mask).
Qed.

(** ** Sweeping a chunk *)

Lemma sweep_small_masks_spec c :
  chunk_ok c -> get_chunk_is_small_chunk c = true ->
  exists c', sweep_small_masks c = Ret c' /\ changes c c' v_swept /\ get_chunk_is_small_chunk c' = true.
Proof.
  intros Hc E. unfold sweep_small_masks. destruct (maybe_clear_spec c Hc) as (c1 & -> & [Hc1 V1]).
  cbn [mbind outcome_bind].
  destruct (clear_same (view c)) as (C1 & _).
  assert (get_chunk_is_small_chunk c1 = true) as E1 by (rewrite <- view_small, V1, C1; by rewrite view_small).
  destruct (view_small_masks c1 E1) as (Es & Esh & _).
  assert (is_u32 (Z.land (slots c1) (shallow c1))) as Hu.
  { pose proof (co_slots _ Hc1) as Hs. unfold is_u32 in *. split; [apply Z.land_nonneg; lia|].
    apply bits_lt; [done|apply Z.land_nonneg; lia|]. intros i Hi. by rewrite Z.land_spec, (testbit_high 32) by done. }
  destruct (set_masks_spec c1 Hc1 _ E1 Hu) as ([Hc2 V2] & _). destruct (set_needs_clearing_spec _ Hc2) as [Hc3 V3].
  eexists. split; [done|].
  assert (view (set_chunk_needs_clearing (set_slots c1 (Z.land (slots c1) (shallow c1)))) = v_swept (view c)) as V.
  { rewrite V3, V2, <- Es, <- Esh, V1. done. }
  split; [done|]. rewrite <- view_small, V. unfold v_swept. cbn [v_set_dirty v_set_slots v_small].
  by rewrite C1, view_small.
Qed.

Lemma sweep_large_masks_spec c :
  chunk_ok c -> get_chunk_is_small_chunk c = false ->
  exists c', sweep_large_masks c = Ret c' /\ changes c c' v_swept /\ get_chunk_is_small_chunk c' = false.
Proof.
  intros Hc E. unfold sweep_large_masks. destruct (maybe_clear_spec c Hc) as (c1 & -> & [Hc1 V1]).
  cbn [mbind outcome_bind].
  destruct (clear_same (view c)) as (C1 & _).
  assert (get_chunk_is_small_chunk c1 = false) as E1 by (rewrite <- view_small, V1, C1; by rewrite view_small).
  destruct (get_large_flag_spec c1 E1) as (-> & -> & _). cbn [mbind outcome_bind].
  destruct (set_large_flag_spec c1 Hc1 (Z.land (v_slots (view c1)) (v_shallow (view c1))) E1) as ((c2 & ->
    & [Hc2 V2]) & _).
  cbn [mbind outcome_bind]. destruct (set_needs_clearing_spec _ Hc2) as [Hc3 V3].
  assert (bool_to_u64 (negb (Z.land (v_slots (view c1)) (v_shallow (view c1)) =? 0)) = Z.land (v_slots (view c1))
    (v_shallow (view c1))) as Eb.
  { unfold view. rewrite E1. cbn [v_slots v_shallow]. by destruct (flag LARGE_CHUNK_SLOT_BITMASK c1),
      (flag LARGE_CHUNK_SHALLOW_BITMASK c1). }
  eexists. split; [done|].
  assert (view (set_chunk_needs_clearing c2) = v_swept (view c)) as V by (rewrite V3, V2, Eb, V1; done).
  split; [done|]. rewrite <- view_small, V. unfold v_swept. cbn [v_set_dirty v_set_slots v_small].
  by rewrite C1, view_small.
Qed.

(** The finalisers of a small chunk that are run, of the free slots or of all. *)
Lemma final_mask_spec c force :
  chunk_ok c -> get_chunk_is_small_chunk c = true ->
  (forall i, Z.testbit (finalisers c) i = true ->
    force = FORCE_NO_FINALISERS \/ force = FORCE_ALL_FINALISERS /\ Z.testbit (slots c) i = true) ->
  final_mask c force = Z.land (v_fins (view c)) (v_slots (view c)) /\
    changes c (unset_finalisers c force) v_finalised.
Proof.
  intros Hc E Hf. destruct (view_small_masks c E) as (Es & _ & Ef).
  pose proof (co_fins _ Hc) as Hu. pose proof (co_slots _ Hc) as Hus.
  assert (forall i, Z.testbit (finalisers c) i && Z.testbit (Z.lor (slots c) force) i = Z.testbit (finalisers c) i &&
    Z.testbit (slots c) i) as Hbit.
  { intros i. rewrite Z.lor_spec. destruct (Z.testbit (finalisers c) i) eqn:Ei; [|done]. cbn [andb].
    destruct (Hf i Ei) as [-> |[-> ->]]; [by rewrite Z.bits_0, orb_false_r|done]. }
  unfold final_mask, unset_finalisers. rewrite Es, Ef. split.
  - by_bits i Hi. by rewrite !Z.land_spec.
  - assert (Z.land (finalisers c) (not32 (Z.lor (slots c) force)) = Z.ldiff (finalisers c) (slots c)) as ->.
    { by_bits i Hi. unfold not32, u32. rewrite Z.land_spec, wrap_testbit, Z.lnot_spec, Z.ldiff_spec by done.
      specialize (Hbit i). destruct (Z.testbit (finalisers c) i) eqn:Ei; [|done]. cbn [andb] in *. rewrite Hbit.
      destruct (Z.ltb_spec i 32); [done|]. by rewrite (testbit_high 32) in Ei. }
    assert (is_u32 (Z.ldiff (finalisers c) (slots c))) as Hu'.
    { unfold is_u32 in *. assert (0 <= Z.ldiff (finalisers c) (slots c)) by (apply Z.ldiff_nonneg; lia). split;
        [done|].
      apply bits_lt; [done|done|]. intros i Hi. by rewrite Z.ldiff_spec, (testbit_high 32) by (done || lia). }
    destruct (set_masks_spec c Hc _ E Hu') as (_ & _ & [H1 H2]). split; [done|]. rewrite H2. unfold v_finalised.
    by rewrite Es, Ef.
Qed.
