(* ===== verification/ChunkSort.v ===== *)
(** * Sorting a list of chunks ([mem/heap_chunk_sorting.h])

    The bottom-up merge sort that keeps the list of large free chunks ordered by size.  The
    pointers [p], [q] and [list] into the chain are the lists that start there: the code
    writes the [next] field of a chunk only after it has moved past it. *)
From S2P Require Import Prelude.
From Stdlib Require Import Sorted.
Local Open Scope Z_scope.

Definition INT32_MAX : Z := 2 ^ 31 - 1.

(** An [int32_t]; overflow is undefined. *)
Definition int32 (x : Z) : outcome Z := if x <=? INT32_MAX then Ret x else Abort.

Section sort.
Context {A : Type} (is_small : A -> bool) (size : A -> Z).

(** The step of [q] along the list: at most [insize] places, and how many. *)
Fixpoint advance (insize : nat) (q : list A) (psize : Z) : Z * list A :=
  match insize, q with
  | S i, _ :: q => if q is [] then (psize + 1, q) else advance i q (psize + 1)
  | _, _ => (psize, q)
  end.

(** The merge of the first [psize] chunks from [p] and the first [qsize] from [q]. *)
Fixpoint merge_loop (fuel : nat) (p q : list A) (psize qsize : Z) : outcome (list A * list A) :=
  if (0 <? psize) || ((0 <? qsize) && negb (Nat.eqb (length q) 0)) then
    match fuel with
    | O => NoFuel
    | S fuel =>
        if psize =? 0 then
          match q with
          | e :: q =>
              if is_small e then Abort
              else '(merged, q) ← merge_loop fuel p q psize (qsize - 1); Ret (e :: merged, q)
          | [] => Abort
          end
        else
          match p, q with
          | [], _ => Abort
          | e :: p', [] =>
              if is_small e then Abort
              else '(merged, q) ← merge_loop fuel p' q (psize - 1) qsize; Ret (e :: merged, q)
          | e :: p', f :: q' =>
              if qsize =? 0 then
                if is_small e then Abort
                else '(merged, q) ← merge_loop fuel p' q (psize - 1) qsize; Ret (e :: merged, q)
              else if size e <=? size f then
                if is_small e || is_small f then Abort
                else '(merged, q) ← merge_loop fuel p' q (psize - 1) qsize; Ret (e :: merged, q)
              else
                if is_small f then Abort
                else '(merged, q) ← merge_loop fuel p q' psize (qsize - 1); Ret (f :: merged, q)
          end
    end
  else Ret ([], q).

(** A pass: pairs of runs of [insize] chunks are merged. *)
Fixpoint sort_pass (fuel : nat) (insize : Z) (p : list A) (nmerges : Z) : outcome (list A * Z) :=
  match p with
  | [] => Ret ([], nmerges)
  | _ =>
      match fuel with
      | O => NoFuel
      | S fuel =>
          nmerges ← int32 (nmerges + 1);
          let (psize, q) := advance (Z.to_nat insize) p 0 in
          '(merged, q) ← merge_loop (length p) p q psize insize;
          '(list, nmerges) ← sort_pass fuel insize q nmerges;
          Ret (merged ++ list, nmerges)
      end
  end.

Fixpoint sort_loop (fuel : nat) (insize : Z) (list : list A) : outcome (Datatypes.list A) :=
  match fuel with
  | O => NoFuel
  | S fuel =>
      '(list, nmerges) ← sort_pass (length list) insize list 0;
      if nmerges <=? 1 then Ret list
      else insize ← int32 (insize * 2); sort_loop fuel insize list
  end.

Definition sort_large_chunk_list_by_size (list : list A) : outcome (Datatypes.list A) :=
  if list is [] then Ret [] else sort_loop (S (length list)) 1 list.

(** ** The sort is correct *)

Definition by_size (x y : A) : Prop := size x <= size y.
Definition sorted_by_size : list A -> Prop := StronglySorted by_size.

(** The list consists of sorted runs of [k] chunks, the last one of which may be shorter. *)
Inductive runs (k : nat) : list A -> Prop :=
| runs_nil : runs k []
| runs_cons r l :
    sorted_by_size r -> (0 < length r <= k)%nat -> length r = k \/ l = [] -> runs k l -> runs k (r ++ l).

Lemma advance_spec k p psize :
  (0 < k)%nat -> p <> [] ->
  exists n, (0 < n)%nat /\ advance k p psize = (psize + Z.of_nat n, drop n p) /\ n = min k (length p).
Proof.
  revert p psize. induction k as [|k IH]; intros p psize Hk Hp; [lia|].
  destruct p as [|x p]; [done|]. cbn [advance length]. destruct p as [|y p].
  - exists 1%nat. split_and!; [lia|done|]. cbn. lia.
  - destruct k as [|k]; [exists 1%nat; split_and!; [lia|done|cbn; lia]|].
    destruct (IH (y :: p) (psize + 1)) as (n & Hn & E & Hmin); [lia|done|].
    exists (S n). split_and!; [lia| |cbn [length] in *; lia]. rewrite E. cbn [drop]. f_equal. lia.
Qed.

Lemma sorted_cons x l : Forall (by_size x) l -> sorted_by_size l -> sorted_by_size (x :: l).
Proof. intros. by constructor. Qed.

(** One step of the merge takes an element that is not above any other. *)
Lemma merge_taken x (r merged : list A) :
  Forall (by_size x) r -> merged ≡ₚ r -> sorted_by_size merged -> sorted_by_size (x :: merged).
Proof. intros Hx Hp Hs. constructor; [done|]. by rewrite Hp. Qed.

Lemma sorted_head x l y : sorted_by_size (x :: l) -> size y <= size x -> Forall (by_size y) (x :: l).
Proof.
  intros [_ Hx]%StronglySorted_inv Hy. constructor; [done|]. eapply Forall_impl; [exact Hx|]. unfold by_size. intros.
  lia.
Qed.

Definition emit (e : A) (o : outcome (list A * list A)) : outcome (list A * list A) :=
  '(merged, q) ← o; Ret (e :: merged, q).

Lemma merge_end fuel p q qsize : qsize = 0 \/ q = [] -> merge_loop fuel p q 0 qsize = Ret ([], q).
Proof.
  intros H. destruct fuel; cbn [merge_loop]; change (0 <? 0) with false; cbn [orb];
    (replace ((0 <? qsize) && negb (Nat.eqb (length q) 0)) with false; [done|]);
    (destruct H as [-> | ->]; [done|by rewrite andb_false_r]).
Qed.

Lemma merge_take_q fuel p q psize qsize y :
  is_small y = false -> 0 < qsize -> psize = 0 \/ (exists x p', p = x :: p' /\ size y < size x /\ 0 < psize) ->
  merge_loop (S fuel) p (y :: q) psize qsize = emit y (merge_loop fuel p q psize (qsize - 1)).
Proof.
  intros Hy Hq Hp. cbn [merge_loop length Nat.eqb negb].
  rewrite (proj2 (Z.ltb_lt 0 qsize)), andb_true_r, orb_true_r by done.
  destruct Hp as [->|(x & p' & -> & Hlt & Hp)]; [by rewrite Z.eqb_refl, Hy|].
  rewrite (proj2 (Z.eqb_neq psize 0)), (proj2 (Z.eqb_neq qsize 0)), (proj2 (Z.leb_gt _ _)) by lia. by rewrite Hy.
Qed.

Lemma merge_take_p fuel x p q psize qsize :
  is_small x = false -> 0 < psize ->
  q = [] \/ qsize = 0 \/ (exists y q', q = y :: q' /\ size x <= size y /\ is_small y = false) ->
  merge_loop (S fuel) (x :: p) q psize qsize = emit x (merge_loop fuel p q (psize - 1) qsize).
Proof.
  intros Hx Hp Hq. cbn [merge_loop]. rewrite (proj2 (Z.ltb_lt 0 psize)), (proj2 (Z.eqb_neq psize 0)) by lia.
  cbn [orb].
  rewrite Hx. destruct Hq as [->|[->|(y & q' & -> & Hle & Hy)]]; [done|by destruct q|].
  destruct (Z.eqb_spec qsize 0) as [->|]; [done|]. rewrite (proj2 (Z.leb_le _ _)) by lia. by rewrite Hy.
Qed.

(** Merging two sorted runs. *)
Lemma merge_loop_spec fuel r1 rest1 r2 rest2 qsize :
  Forall (fun x => is_small x = false) r1 -> Forall (fun x => is_small x = false) r2 ->
  sorted_by_size r1 -> sorted_by_size r2 ->
  Z.of_nat (length r2) <= qsize -> qsize = Z.of_nat (length r2) \/ rest2 = [] ->
  (length r1 + length r2 <= fuel)%nat ->
  exists merged,
    merge_loop fuel (r1 ++ rest1) (r2 ++ rest2) (Z.of_nat (length r1)) qsize = Ret (merged, rest2) /\
    merged ≡ₚ r1 ++ r2 /\ sorted_by_size merged.
Proof.
  revert r1 r2 qsize. induction fuel as [|fuel IH]; intros r1 r2 qsize Hl1 Hl2 H1 H2 Hq Hrest Hf.
  { destruct r1, r2; cbn in Hf; try lia. exists []. split_and!; [|done|constructor]. apply merge_end.
    destruct Hrest as [-> | ->]; [by left|by right]. }
  assert (r1 = [] /\ r2 = [] \/ (exists y r2', r2 = y :: r2' /\ Forall (by_size y) (r1 ++ r2') /\
            (r1 = [] \/ exists x r1', r1 = x :: r1' /\ size y < size x)) \/
          exists x r1', r1 = x :: r1' /\ Forall (by_size x) (r1' ++ r2) /\
            (r2 = [] \/ exists y r2', r2 = y :: r2' /\ size x <= size y)) as Hcases.
  { destruct r1 as [|x r1], r2 as [|y r2]; [by left|right; left|right; right|right].
    - exists y, r2. split_and!; [done| |by left]. by apply StronglySorted_inv in H2 as [_ ?].
    - exists x, r1. split_and!; [done| |by left]. apply StronglySorted_inv in H1 as [_ ?]. by rewrite app_nil_r.
    - destruct (Z.le_gt_cases (size x) (size y)) as [Hle|Hgt].
      + right. exists x, r1. split_and!; [done| |right; by exists y, r2].
        apply Forall_app. split; [by apply StronglySorted_inv in H1 as [_ ?]|by apply sorted_head].
      + left. exists y, r2. split_and!; [done| |right; by exists x, r1].
        apply Forall_app. split; [apply sorted_head; [done|lia]|by apply StronglySorted_inv in H2 as [_ ?]]. }
  destruct Hcases as [[-> ->]|[(y & r2' & -> & Hy & Hr1)|(x & r1' & -> & Hx & Hr2)]].
  - exists []. split_and!; [|done|constructor]. apply merge_end. destruct Hrest as [-> | ->]; [by left|by right].
  - apply Forall_cons in Hl2 as [Hs Hl2]. apply StronglySorted_inv in H2 as [H2 _]. cbn [length] in *.
    destruct (IH r1 r2' (qsize - 1)) as (merged & E & Hp & Hm); [done|done|done|done|lia| |lia|].
    { destruct Hrest as [-> | ->]; [left; lia|by right]. }
    exists (y :: merged). cbn [app]. rewrite merge_take_q, E; [|done|lia|].
    + split; [done|]. split; [rewrite Hp; by apply Permutation_middle|by apply (merge_taken _ _ _ Hy)].
    + destruct Hr1 as [->|(x & r1' & -> & Hlt)]; [by left|right]. exists x, (r1' ++ rest1).
      split_and!; [done|done|cbn; lia].
  - apply Forall_cons in Hl1 as [Hs Hl1]. apply StronglySorted_inv in H1 as [H1 _]. cbn [length] in *.
    destruct (IH r1' r2 qsize) as (merged & E & Hp & Hm); [done..|lia|].
    exists (x :: merged). cbn [app]. rewrite merge_take_p; [|done|lia|].
    + replace (Z.of_nat (S (length r1')) - 1) with (Z.of_nat (length r1')) by lia. rewrite E.
      split; [done|]. split; [by rewrite Hp|by apply (merge_taken _ _ _ Hx)].
    + destruct Hr2 as [->|(y & r2' & -> & Hle)].
      * destruct Hrest as [-> | ->]; [by right; left|by left].
      * right; right. exists y, (r2' ++ rest2). apply Forall_cons in Hl2 as [Hy _]. by split_and!.
Qed.

(** A non-empty list of runs starts with a pair of them. *)
Lemma runs_pair k p :
  runs k p -> p <> [] ->
  exists r1 r2 l, p = r1 ++ r2 ++ l /\ sorted_by_size r1 /\ sorted_by_size r2 /\ (0 < length r1 <= k)%nat /\
    (length r2 <= k)%nat /\ (length r1 = k \/ r2 ++ l = []) /\ (length r2 = k \/ l = []) /\ runs k l.
Proof.
  intros Hr Hp. destruct Hr as [|r1 l H1 Hl1 Hf1 Hr]; [done|]. destruct Hr as [|r2 l H2 Hl2 Hf2 Hr].
  - exists r1, [], []. cbn. split_and!; (done || lia || (by right) || constructor).
  - exists r1, r2, l. split_and!; try done; try lia.
Qed.

(** What a pass does to the runs. *)
Lemma sort_pass_spec fuel k p nmerges :
  (0 < k)%nat -> runs k p -> Forall (fun x => is_small x = false) p -> (length p <= fuel)%nat ->
  0 <= nmerges -> nmerges + Z.of_nat (length p) <= INT32_MAX ->
  exists list n,
    sort_pass fuel (Z.of_nat k) p nmerges = Ret (list, nmerges + Z.of_nat n) /\ list ≡ₚ p /\ runs (2 * k) list /\
    (n <= length p)%nat /\ (p <> [] -> 0 < n)%nat /\ (n <= 1 -> sorted_by_size list)%nat /\ (1 < n ->
      2 * k < length p)%nat.
Proof.
  intros Hk. revert p nmerges. induction fuel as [|fuel IH]; intros p nmerges Hr Hl Hf Hn Hmax.
  { destruct p; [|cbn in Hf; lia]. exists [], 0%nat. cbn [sort_pass length]. rewrite Z.add_0_r.
    split_and!; try done; try lia; constructor. }
  destruct (decide (p = [])) as [->|Hp].
  { exists [], 0%nat. cbn [sort_pass length]. rewrite Z.add_0_r. split_and!; try done; try lia; constructor. }
  destruct (runs_pair k p Hr Hp) as (r1 & r2 & l & E & H1 & H2 & Hl1 & Hl2 & Hf1 & Hf2 & Hr').
  assert (length p = length r1 + length r2 + length l)%nat as Hlen by (rewrite E, !length_app; lia).
  assert (Forall (fun x => is_small x = false) r1 /\ Forall (fun x => is_small x = false) r2 /\
          Forall (fun x => is_small x = false) l) as (Hs1 & Hs2 & Hs3)
    by (rewrite E, !Forall_app in Hl; tauto).
  assert (Hstep : sort_pass (S fuel) (Z.of_nat k) p nmerges =
    (nmerges ← int32 (nmerges + 1); let (psize, q) := advance (Z.to_nat (Z.of_nat k)) p 0 in
     '(merged, q) ← merge_loop (length p) p q psize (Z.of_nat k);
     '(list, nmerges) ← sort_pass fuel (Z.of_nat k) q nmerges; Ret (merged ++ list, nmerges))) by (by destruct p).
  rewrite Hstep. clear Hstep. unfold int32. rewrite (proj2 (Z.leb_le _ _)) by lia. cbn [mbind outcome_bind].
  destruct (advance_spec (Z.to_nat (Z.of_nat k)) p 0) as (n & _ & -> & Hmin); [lia|done|].
  assert (n = length r1) as ->.
  { rewrite Hmin, Nat2Z.id, Hlen. destruct Hf1 as [|Hnil];
      [lia|]. apply (f_equal length) in Hnil. rewrite length_app in Hnil. cbn in Hnil. lia. }
  assert (drop (length r1) p = r2 ++ l) as -> by (rewrite E; apply drop_app_length). rewrite Z.add_0_l.
  destruct (merge_loop_spec (length p) r1 (r2 ++ l) r2 l (Z.of_nat k)) as (merged & Em & Hpm & Hsm); try done;
    try lia.
  { destruct Hf2 as [<- | ->]; [by left|by right]. }
  rewrite <- E in Em. rewrite Em. cbn [mbind outcome_bind].
  destruct (IH l (nmerges + 1)) as (list & n & Ep & Hpl & Hrl & Hn1 & Hn2 & Hn3 & Hn4); try done; try lia.
  rewrite Ep. cbn [mbind outcome_bind]. exists (merged ++ list), (S n). split; [do 2 f_equal; lia|].
  assert (length merged = length r1 + length r2)%nat as Hlm by (rewrite Hpm, length_app; done).
  split; [by rewrite E, app_assoc, Hpm, Hpl|].
  assert (l = [] -> list = []) as Hnil by (intros ->; by apply Permutation_nil_r in Hpl).
  split; [|split_and!; [lia|lia| |]].
  - constructor; [done|lia| |done]. destruct Hf2 as [Hf2|Hf2]; [|by right; apply Hnil].
    destruct Hf1 as [Hf1|Hf1]; [left; lia|]. right. apply Hnil. by apply app_nil in Hf1 as [_ ?].
  - intros Hle. assert (l = []) as Hl0 by (destruct l; [done|]; specialize (Hn2 ltac:(done)); lia).
    by rewrite (Hnil Hl0), app_nil_r.
  - intros Hlt. assert (l <> []) as Hl0 by (intros ->; cbn in Hn1; lia).
    destruct Hf2 as [Hf2|]; [|done]. destruct Hf1 as [Hf1|Hf1]; [|apply app_nil in Hf1 as [_ ?]; done].
    destruct l; [done|]. cbn [length] in *. lia.
Qed.

Lemma sort_loop_spec fuel k l :
  (0 < k)%nat -> runs k l -> Forall (fun x => is_small x = false) l -> Z.of_nat (length l) <= INT32_MAX ->
  (0 < fuel)%nat -> (length l < fuel + k)%nat ->
  exists l', sort_loop fuel (Z.of_nat k) l = Ret l' /\ l' ≡ₚ l /\ sorted_by_size l'.
Proof.
  revert k l. induction fuel as [|fuel IH]; intros k l Hk Hr Hl Hmax H0 Hf; [lia|]. cbn [sort_loop].
  destruct (sort_pass_spec (length l) k l 0) as (l1 & n & -> & Hp & Hr1 & Hn & _ & Hsorted & Hmore); try done;
    try lia.
  cbn [mbind outcome_bind]. rewrite Z.add_0_l. destruct (Z.leb_spec (Z.of_nat n) 1) as [Hle|Hgt].
  - exists l1. split_and!; [done|done|]. apply Hsorted. lia.
  - specialize (Hmore ltac:(lia)). assert (length l1 = length l) as Hlen by by rewrite Hp.
    unfold int32. rewrite (proj2 (Z.leb_le _ _)) by lia. cbn [mbind outcome_bind].
    replace (Z.of_nat k * 2) with (Z.of_nat (2 * k)) by lia.
    destruct (IH (2 * k)%nat l1) as (l' & E & Hp' & Hs); [lia|done|by rewrite Hp|lia|lia|lia|].
    exists l'. split_and!; [done|by rewrite Hp'|done].
Qed.

Lemma runs_1 l : runs 1 l.
Proof.
  induction l as [|x l IH]; [constructor|]. change (x :: l) with ([x] ++ l).
  constructor; [repeat constructor|cbn; lia|by left|done].
Qed.

Lemma sort_chunks_spec l :
  Forall (fun x => is_small x = false) l -> Z.of_nat (length l) <= INT32_MAX ->
  exists l', sort_large_chunk_list_by_size l = Ret l' /\ l' ≡ₚ l /\ sorted_by_size l'.
Proof.
  intros Hl Hmax. unfold sort_large_chunk_list_by_size. destruct (decide (l = [])) as [->|Hne].
  - exists []. split_and!; [done|done|constructor].
  - destruct (sort_loop_spec (S (length l)) 1 l) as (l' & E & Hp & Hs); [lia|apply runs_1|done|done|lia|lia|].
    exists l'. by destruct l.
Qed.
(** C40 Sorting a list of large chunks by size terminates without a failed assertion or an
    overflow of its counters, if there are at most [INT32_MAX] chunks; the result has the same
    chunks and is sorted. *)
Theorem sort_large_chunk_list_correct l :
  Forall (fun x => is_small x = false) l -> Z.of_nat (length l) <= INT32_MAX ->
  exists l', sort_large_chunk_list_by_size l = Ret l' /\ l' ≡ₚ l /\ sorted_by_size l'.
Proof. apply sort_chunks_spec. Qed.
End sort.

Example sort_sample :
  sort_large_chunk_list_by_size (fun _ : Z * Z => false) fst [(5, 0); (3, 1); (4, 2); (3, 3); (1, 4)] =
    Ret [(1, 4); (3, 1); (3, 3); (4, 2); (5, 0)].
Proof. vm_compute. reflexivity. Qed.

Lemma sort_large_chunk_list_correct_witness :
  Z.of_nat (length [(5, 0); (3, 1); (4, 2)]) <= INT32_MAX /\
  exists l', sort_large_chunk_list_by_size (fun _ : Z * Z => false) fst [(5, 0); (3, 1); (4, 2)] = Ret l' /\
    l' ≡ₚ [(5, 0); (3, 1); (4, 2)] /\ sorted_by_size fst l'.
Proof.
  split; [vm_compute; discriminate|].
  apply (sort_large_chunk_list_correct (fun _ => false) fst [(5, 0); (3, 1); (4, 2)]);
    [by repeat constructor|vm_compute; discriminate].
Defined.
