(* ===== verification/Heap.v ===== *)
(** * The heap of an actor ([mem/heap.c], [mem/heap.h])

    A heap is lists of chunks: per size class those with free slots and those without, the
    large ones, and lists of free chunks kept for reuse until the next collection.  The
    collector marks the objects that are reachable and then sweeps all chunks, running the
    finalisers of the objects that are not marked; a finaliser may allocate.

    The [next] fields of the chunks are represented by lists of addresses; the chunks are in a
    store, as marking reaches them through the page map. *)
From stdpp Require Import gmap.
From S2P Require Import Prelude Store Pool PageMap Chunk ChunkSort.
Local Open Scope Z_scope.
Local Open Scope c_scope.

Definition TRACK_NO_FINALISERS : Z := 0.
Definition TRACK_ALL_FINALISERS : Z := 4294967295.

Definition HEAP_RECYCLE_SIZECLASSES : Z := 4.
Definition HEAP_RECYCLE_MIXED : Z := 0.
Definition HEAP_RECYCLE_MIXED_SIZE : Z := 1024.
Definition HEAP_RECYCLE_LARGE_OVERFLOW : Z := HEAP_RECYCLE_SIZECLASSES - 1.
Definition ACTOR_REFERENCES_DELETED_THRESHOLD : Z := 100.

(** [sizeof(chunk_t)] and [sizeof(block_t)]. *)
Definition sizeof_chunk_t : Z := 32.
Definition sizeof_block_t : Z := POOL_ALIGN.

Definition heap_recycle_index (size : Z) : Z :=
  if size =? HEAP_RECYCLE_MIXED_SIZE then HEAP_RECYCLE_MIXED
  else if size =? Z.shiftl HEAP_RECYCLE_MIXED_SIZE 1 then 1
  else if size =? Z.shiftl HEAP_RECYCLE_MIXED_SIZE 2 then 2
  else if size =? Z.shiftl HEAP_RECYCLE_MIXED_SIZE 3 then 3
  else if size =? Z.shiftl HEAP_RECYCLE_MIXED_SIZE 4 then 4
  else 5.

Record heap_t := mk_heap {
  small_free : list (list Z);
  small_full : list (list Z);
  large : list Z;
  recyclable : list (list Z);
  used : Z;
  next_gc : Z
}.

Definition set_small_free (h : heap_t) (i : Z) (l : list Z) : heap_t :=
  mk_heap (<[Z.to_nat i := l]> (small_free h)) (small_full h) (large h) (recyclable h) (used h) (next_gc h).
Definition set_small_full (h : heap_t) (i : Z) (l : list Z) : heap_t :=
  mk_heap (small_free h) (<[Z.to_nat i := l]> (small_full h)) (large h) (recyclable h) (used h) (next_gc h).
Definition set_large (h : heap_t) (l : list Z) : heap_t :=
  mk_heap (small_free h) (small_full h) l (recyclable h) (used h) (next_gc h).
Definition set_recyclable (h : heap_t) (i : Z) (l : list Z) : heap_t :=
  mk_heap (small_free h) (small_full h) (large h) (<[Z.to_nat i := l]> (recyclable h)) (used h) (next_gc h).
Definition set_used (h : heap_t) (n : Z) : heap_t :=
  mk_heap (small_free h) (small_full h) (large h) (recyclable h) n (next_gc h).
Definition set_next_gc (h : heap_t) (n : Z) : heap_t :=
  mk_heap (small_free h) (small_full h) (large h) (recyclable h) (used h) n.

(** All the lists. *)
Definition lists (h : heap_t) : list (list Z) := small_free h ++ small_full h ++ [large h] ++ recyclable h.

(** The chunks from [c] on, in a list that has it. *)
Fixpoint chain_from (c : Z) (l : list Z) : option (list Z) :=
  match l with
  | [] => None
  | d :: next => if d =? c then Some l else chain_from c next
  end.

(** A list of an array of lists. *)
Definition list_at (a : list (list Z)) (i : Z) : outcome (list Z) :=
  match a !! Z.to_nat i with Some l => Ret l | None => Abort end.

(** What has happened: an object was allocated, or its finaliser was called. *)
Inductive event := Allocated (o : heap_object) | Finalised (p : Z).

(** The finalisers of the program: the allocations, of a size and with a mask, that the one of
    the object at an address makes, depending on what happened before.  The compiler asks for
    finalisers to be tracked only for types that have one. *)
Class Finalisers := {
  allocations : list event -> Z -> list (Z * Z);
  allocations_law h p n mask : (n, mask) ∈ allocations h p -> is_u64 n /\ track_ok mask
}.

(** The memory that the functions work on, and the trace. *)
Record state (P M : Type) := mk_state {
  pool : P; pagemap : M; chunks : gmap Z chunk_t; heap : heap_t; trace : list event
}.
Arguments mk_state {P M} _ _ _ _ _.
Arguments pool {P M} _.
Arguments pagemap {P M} _.
Arguments chunks {P M} _.
Arguments heap {P M} _.
Arguments trace {P M} _.

Section heap.
Context {P M : Type} `{PO : PoolOps P} `{PMO : PageMapOps M} `{FI : Finalisers}.

(** The actor; the 32-bit words of memory that is not initialised; the configuration of the
    collector: [heap_initialgc] and the multiplication, in doubles, by [heap_nextgc_factor]. *)
Context (actor : Z) (uninit : Z -> Z) (heap_initialgc : Z) (nextgc_times : Z -> Z).

Abbreviation state := (state P M).

Definition get_chunk (s : state) (c : Z) : outcome chunk_t :=
  match chunks s !! c with Some k => Ret k | None => Abort end.
Definition set_chunk (s : state) (c : Z) (k : chunk_t) : state :=
  mk_state (pool s) (pagemap s) (<[c := k]> (chunks s)) (heap s) (trace s).
Definition set_heap (s : state) (h : heap_t) : state := mk_state (pool s) (pagemap s) (chunks s) h (trace s).
Definition add_event (s : state) (e : event) : state :=
  mk_state (pool s) (pagemap s) (chunks s) (heap s) (trace s ++ [e]).
Definition add_used (s : state) (n : Z) : state := set_heap s (set_used (heap s) (used (heap s) ⊞ n)).

Definition track_mask_ok (mask : Z) : bool := (mask =? TRACK_NO_FINALISERS) || (mask =? TRACK_ALL_FINALISERS).

(** ** Allocation *)

(** A new chunk, whose fields hold what was in the memory, with a block that the page map
    knows. *)
Definition new_chunk (s : state) (size : Z) (bulk : bool) : outcome (state * Z) :=
  '(pl, c) ← alloc_size (pool s) sizeof_chunk_t;
  '(pl, m) ← alloc_size pl size;
  pm ← (if bulk then pagemap_set_bulk (pagemap s) m c actor size else pagemap_set (pagemap s) m c actor);
  let k := mk_chunk m (u32 (uninit (c + 8))) (u32 (uninit (c + 12))) (u32 (uninit (c + 16))) in
  Ret (mk_state pl pm (<[c := k]> (chunks s)) (heap s) (trace s), c).

Definition ponyint_heap_alloc_small (s : state) (sizeclass track_finalisers_mask : Z) : outcome (state * Z) :=
  if negb (track_mask_ok track_finalisers_mask) then Abort
  else
    free ← list_at (small_free (heap s)) sizeclass;
    '(s, m) ←
      match free with
      | chunk :: next =>
          k ← get_chunk s chunk;
          let (k, m) := take_slot k track_finalisers_mask in
          let s := set_chunk s chunk k in
          if slots k =? 0 then
            full ← list_at (small_full (heap s)) sizeclass;
            Ret (set_heap s (set_small_full (set_small_free (heap s) sizeclass next) sizeclass (chunk :: full)), m)
          else Ret (s, m)
      | [] =>
          mixed ← list_at (recyclable (heap s)) HEAP_RECYCLE_MIXED;
          '(s, n) ←
            match mixed with
            | n :: next =>
                k ← get_chunk s n;
                let s := set_heap s (set_recyclable (heap s) HEAP_RECYCLE_MIXED next) in
                Ret (set_chunk s n (clear_chunk_flags k), n)
            | [] => new_chunk s sizeof_block_t false
            end;
          k ← get_chunk s n;
          if m k =? NULL then Abort
          else
            k ← init_small k sizeclass track_finalisers_mask;
            let s := set_chunk s n k in
            Ret (set_heap s (set_small_free (heap s) sizeclass [n]), get_m k)
      end;
    Ret (add_used s (SIZECLASS_SIZE sizeclass), m).

(** The search in the list of the largest chunks, which is sorted. *)
Fixpoint recycle_loop (s : state) (size : Z) (recycle : list Z) : outcome (option (Z * list Z)) :=
  match recycle with
  | [] => Ret None
  | c :: next =>
      k ← get_chunk s c;
      if large_size k <=? size then
        if large_size k =? size then Ret (Some (c, next))
        else
          found ← recycle_loop s size next;
          Ret (if found is Some (f, rest) then Some (f, c :: rest) else None)
      else Ret None
  end.

Definition recycle_large (s : state) (size : Z) : outcome (state * option Z) :=
  let recycle_index := heap_recycle_index size in
  if HEAP_RECYCLE_LARGE_OVERFLOW <=? recycle_index then
    recycle ← list_at (recyclable (heap s)) HEAP_RECYCLE_LARGE_OVERFLOW;
    if recycle is [] then Ret (s, None)
    else if size <=? HEAP_RECYCLE_MIXED_SIZE then Abort
    else
      found ← recycle_loop s size recycle;
      Ret (if found is Some (c, rest) then
             (set_heap s (set_recyclable (heap s) HEAP_RECYCLE_LARGE_OVERFLOW rest), Some c)
           else (s, None))
  else if (negb (recycle_index =? HEAP_RECYCLE_MIXED) && (HEAP_RECYCLE_MIXED_SIZE <? size)) ||
          ((recycle_index =? HEAP_RECYCLE_MIXED) && (size =? HEAP_RECYCLE_MIXED_SIZE)) then
    recycle ← list_at (recyclable (heap s)) recycle_index;
    match recycle with
    | [] => Ret (s, None)
    | c :: next =>
        k ← get_chunk s c;
        Ret (set_chunk (set_heap s (set_recyclable (heap s) recycle_index next)) c
               (set_large_size (clear_chunk_flags k) size), Some c)
    end
  else Abort.

Definition ponyint_heap_alloc_large (s : state) (size track_finalisers_mask : Z) : outcome (state * Z) :=
  if negb (track_mask_ok track_finalisers_mask) then Abort
  else
    let size := ponyint_pool_adjust_size size in
    '(s, chunk) ← recycle_large s size;
    '(s, chunk) ←
      match chunk with
      | Some c => Ret (s, c)
      | None =>
          '(s, c) ← new_chunk s size true;
          k ← get_chunk s c;
          Ret (set_chunk s c (set_large_size k size), c)
      end;
    k ← get_chunk s chunk;
    if (m k =? NULL) || negb (large_size k =? size) then Abort
    else
      k ← init_large k track_finalisers_mask;
      let s := set_chunk s chunk k in
      let s := set_heap s (set_large (heap s) (chunk :: large (heap s))) in
      Ret (add_used s (large_size k), get_m k).

Definition ponyint_heap_alloc (s : state) (size track_finalisers_mask : Z) : outcome (state * Z) :=
  if negb (track_mask_ok track_finalisers_mask) then Abort
  else if size =? 0 then Ret (s, NULL)
  else
    '(s, p, n) ←
      (if size <=? HEAP_MAX then
         sizeclass ← ponyint_heap_index size;
         '(s, p) ← ponyint_heap_alloc_small s sizeclass track_finalisers_mask;
         Ret (s, p, SIZECLASS_SIZE sizeclass)
       else
         '(s, p) ← ponyint_heap_alloc_large s size track_finalisers_mask;
         Ret (s, p, ponyint_pool_adjust_size size));
    Ret (add_event s (Allocated (mk_object p n (tracked track_finalisers_mask))), p).

(** The new address, and how many bytes are copied to it. *)
Definition ponyint_heap_realloc (s : state) (p size copy : Z) : outcome (state * Z * Z) :=
  if p =? NULL then '(s, q) ← ponyint_heap_alloc s size TRACK_NO_FINALISERS; Ret (s, q, 0)
  else
    chunk ← pagemap_get_chunk (pagemap s) p;
    if chunk =? NULL then Abort
    else
      k ← get_chunk s chunk;
      oldsize ← (if get_chunk_is_small_chunk k then
                   chunk_size ← get_small_chunk_size k;
                   Ret (SIZECLASS_SIZE chunk_size ⊟ (p ⊟ EXTERNAL_PTR p chunk_size))
                 else Ret (large_size k ⊟ (p ⊟ get_m k)));
      if size <? copy then Abort
      else
        let oldsize := if copy <? oldsize then copy else oldsize in
        '(s, q) ← ponyint_heap_alloc s size TRACK_NO_FINALISERS;
        Ret (s, q, oldsize).

Definition ponyint_heap_used (s : state) (size : Z) : state := add_used s size.

(** ** Finalisers *)

Definition run_finaliser (s : state) (p : Z) : outcome state :=
  let requests := allocations (trace s) p in
  foldO (fun s '(size, mask) => '(s, _) ← ponyint_heap_alloc s size mask; Ret s) (add_event s (Finalised p)) requests.

(** The loop over the bits of a mask, each the slot of an object. *)
Fixpoint final_loop (fuel : nat) (s : state) (m fin : Z) : outcome state :=
  if fin =? 0 then Ret s
  else
    match fuel with
    | O => NoFuel
    | S fuel =>
        let bit := ctz fin in
        s ← run_finaliser s (m ⊞ Z.shiftl bit HEAP_MINBITS);
        final_loop fuel s m (Z.land fin (fin - 1))
    end.

Definition final_small (s : state) (chunk force_finalisers_mask : Z) : outcome state :=
  k ← get_chunk s chunk;
  if negb (get_chunk_is_small_chunk k) then Abort
  else if negb ((force_finalisers_mask =? FORCE_NO_FINALISERS) || (force_finalisers_mask =? FORCE_ALL_FINALISERS))
    then Abort
  else
    let fin := final_mask k force_finalisers_mask in
    if fin =? 0 then Ret s
    else final_loop 32 (set_chunk s chunk (unset_finalisers k force_finalisers_mask)) (get_m k) fin.

Definition final_large (s : state) (chunk : Z) : outcome state :=
  k ← get_chunk s chunk;
  if get_chunk_is_small_chunk k then Abort
  else
    fin ← get_large_chunk_finaliser k;
    if fin =? 1 then
      s ← run_finaliser s (get_m k);
      k ← get_chunk s chunk;
      k ← set_large_chunk_finaliser k 0;
      Ret (set_chunk s chunk k)
    else Ret s.

(** ** Destroying chunks *)

Definition free_chunk_t (s : state) (chunk : Z) : outcome state :=
  pl ← free_size (pool s) sizeof_chunk_t chunk;
  Ret (mk_state pl (pagemap s) (delete chunk (chunks s)) (heap s) (trace s)).

Definition destroy_small (s : state) (chunk : Z) : outcome state :=
  k ← get_chunk s chunk;
  if negb (get_chunk_is_small_chunk k) then Abort
  else
    s ← final_small s chunk FORCE_ALL_FINALISERS;
    k ← get_chunk s chunk;
    let m := get_m k in
    pm ← pagemap_set (pagemap s) m NULL NULL;
    pl ← free_size (pool s) sizeof_block_t m;
    free_chunk_t (mk_state pl pm (chunks s) (heap s) (trace s)) chunk.

Definition destroy_large (s : state) (chunk : Z) : outcome state :=
  k ← get_chunk s chunk;
  if get_chunk_is_small_chunk k then Abort
  else
    s ← final_large s chunk;
    k ← get_chunk s chunk;
    let m := get_m k in
    pm ← pagemap_set_bulk (pagemap s) m NULL NULL (large_size k);
    pl ← (if m =? NULL then Ret (pool s) else free_size (pool s) (large_size k) m);
    free_chunk_t (mk_state pl pm (chunks s) (heap s) (trace s)) chunk.

Definition destroy_mixed (s : state) (chunk : Z) : outcome state :=
  k ← get_chunk s chunk;
  if get_chunk_is_small_chunk k then destroy_small s chunk else destroy_large s chunk.

(** The walk reads [current->next] before it calls [f], and goes on from the chunk it found
    there whatever [f] did: when a finaliser allocates, that chunk may by then be in another
    list, and the walk follows the [next] fields of that list.  [f] does not touch the [next]
    fields of chunks that are in no list of the heap.  A chunk of a walk can move once, so the
    fuel is enough for twice the chunks there are. *)
Definition next_chunks (s : state) (next : list Z) : list Z :=
  match next with
  | [] => []
  | c :: _ => default next (hd_error (omap (chain_from c) (lists (heap s))))
  end.

Fixpoint chunk_walk (fuel : nat) (f : state -> Z -> outcome state) (s : state) (current : list Z) : outcome state :=
  match current with
  | [] => Ret s
  | c :: next =>
      match fuel with
      | O => NoFuel
      | S fuel =>
          s' ← f s c;
          chunk_walk fuel f s' (if bool_decide (lists (heap s') = lists (heap s)) then next else next_chunks s' next)
      end
  end.

Definition chunk_list (f : state -> Z -> outcome state) (s : state) (current : list Z) : outcome state :=
  chunk_walk (List.length current + 2 * base.size (chunks s)) f s current.

Definition destroy_recyclable (s : state) (lists : list (list Z)) : outcome state :=
  match lists with
  | [] => Ret s
  | mixed :: lists =>
      s ← chunk_list destroy_mixed s mixed;
      foldO (fun s l => chunk_list destroy_large s l) s lists
  end.

Definition heap_init : heap_t :=
  mk_heap (replicate (Z.to_nat HEAP_SIZECLASSES) []) (replicate (Z.to_nat HEAP_SIZECLASSES) []) []
    (replicate (Z.to_nat HEAP_RECYCLE_SIZECLASSES) []) 0 0.

Definition ponyint_heap_init (s : state) : state := set_heap s (set_next_gc heap_init heap_initialgc).

(** The lists of small chunks, one class after the other. *)
Definition all_small (f : state -> Z -> outcome state) (s : state) : outcome state :=
  foldO (fun s i =>
    free ← list_at (small_free (heap s)) i;
    s ← chunk_list f s free;
    full ← list_at (small_full (heap s)) i;
    chunk_list f s full) s (seqZ 0 HEAP_SIZECLASSES).

Definition ponyint_heap_destroy (s : state) : outcome state :=
  s ← chunk_list destroy_large s (large (heap s));
  s ← destroy_recyclable s (recyclable (heap s));
  all_small destroy_small s.

Definition ponyint_heap_final (s : state) : outcome state :=
  s ← chunk_list final_large s (large (heap s));
  all_small (fun s c => final_small s c FORCE_ALL_FINALISERS) s.

(** ** Collection *)

Definition ponyint_heap_startgc (s : state) : state * bool :=
  if used (heap s) <=? next_gc (heap s) then (s, false) else (set_heap s (set_used (heap s) 0), true).

(** A mark of an address of the heap, in the chunk that the page map has for it. *)
Inductive mark_call := Mark (p : Z) | Mark_shallow (p : Z).

Definition mark_address (c : mark_call) : Z := match c with Mark p => p | Mark_shallow p => p end.

(** For [ponyint_heap_mark], whether the object was marked before. *)
Definition run_mark (s : state) (call : mark_call) : outcome (state * option bool) :=
  chunk ← pagemap_get_chunk (pagemap s) (mark_address call);
  k ← get_chunk s chunk;
  match call with
  | Mark p => '(k, marked) ← ponyint_heap_mark k p; Ret (set_chunk s chunk k, Some marked)
  | Mark_shallow p => k ← ponyint_heap_mark_shallow k p; Ret (set_chunk s chunk k, None)
  end.

Fixpoint run_marks (s : state) (calls : list mark_call) : outcome (state * list (option bool)) :=
  match calls with
  | [] => Ret (s, [])
  | c :: calls => '(s, r) ← run_mark s c; '(s, rs) ← run_marks s calls; Ret (s, r :: rs)
  end.

(** The lists [avail], [full] and [to_destroy]. *)
Fixpoint sweep_small (s : state) (chunk avail full to_destroy : list Z) (empty size used : Z)
    : outcome (state * list Z * list Z * list Z * Z) :=
  match chunk with
  | [] => Ret (s, avail, full, to_destroy, used)
  | c :: next =>
      k ← get_chunk s c;
      if negb (get_chunk_is_small_chunk k) then Abort
      else
        k ← sweep_small_masks k;
        let s := set_chunk s c k in
        if slots k =? 0 then
          sweep_small s next avail (c :: full) to_destroy empty size (used ⊞ sizeof_block_t)
        else if slots k =? empty then
          s ← final_small s c FORCE_ALL_FINALISERS;
          sweep_small s next avail full (c :: to_destroy) empty size used
        else
          let used := used ⊞ (sizeof_block_t ⊟ u64 (popcount (slots k) * size)) in
          s ← final_small s c FORCE_NO_FINALISERS;
          sweep_small s next (c :: avail) full to_destroy empty size used
  end.

(** A free chunk is kept in the list for its size. *)
Definition recycle_chunk (recyclable : list (list Z)) (c size : Z) : outcome (list (list Z)) :=
  let destroy_index := heap_recycle_index size in
  let destroy_index :=
    if HEAP_RECYCLE_LARGE_OVERFLOW <=? destroy_index then HEAP_RECYCLE_LARGE_OVERFLOW else destroy_index in
  l ← list_at recyclable destroy_index;
  Ret (<[Z.to_nat destroy_index := c :: l]> recyclable).

Fixpoint sweep_large (s : state) (chunk list : Datatypes.list Z)
    (to_destroy : Datatypes.list (Datatypes.list Z)) (used : Z)
    : outcome (state * Datatypes.list Z * Datatypes.list (Datatypes.list Z) * Z) :=
  match chunk with
  | [] => Ret (s, list, to_destroy, used)
  | c :: next =>
      k ← get_chunk s c;
      if get_chunk_is_small_chunk k then Abort
      else
        k ← sweep_large_masks k;
        let s := set_chunk s c k in
        slot ← get_large_chunk_slot k;
        if slot =? 0 then sweep_large s next (c :: list) to_destroy (used ⊞ large_size k)
        else
          s ← final_large s c;
          to_destroy ← recycle_chunk to_destroy c (large_size k);
          sweep_large s next list to_destroy used
  end.

(** All size classes: the swept lists of each, with the chunks to destroy and the bytes in use. *)
Fixpoint sweep_classes (s : state) (i : Z) (lists : list (list Z * list Z)) (to_destroy : list Z) (used : Z)
    : outcome (state * list (list Z * list Z) * list Z * Z) :=
  match lists with
  | [] => Ret (s, [], to_destroy, used)
  | (list1, list2) :: lists =>
      empty ← Chunk.entry sizeclass_empty i;
      '(s, avail, full, to_destroy, used) ← sweep_small s list1 [] [] to_destroy empty (SIZECLASS_SIZE i) used;
      '(s, avail, full, to_destroy, used) ← sweep_small s list2 avail full to_destroy empty (SIZECLASS_SIZE i) used;
      '(s, swept, to_destroy, used) ← sweep_classes s (i + 1) lists to_destroy used;
      Ret (s, (avail, full) :: swept, to_destroy, used)
  end.

(** The chunks that finalisers have made: those without objects that need a finaliser are free,
    the others are kept in front of the list [temp]. *)
Fixpoint merge_small (s : state) (l temp mixed : list Z) : outcome (list Z * list Z) :=
  match l with
  | [] => Ret (temp, mixed)
  | c :: l =>
      k ← get_chunk s c;
      if finalisers k =? 0 then merge_small s l temp (c :: mixed)
      else '(kept, mixed) ← merge_small s l temp mixed; Ret (c :: kept, mixed)
  end.

Fixpoint merge_large (s : state) (l temp : list Z) (recyclable : list (list Z)) : outcome (list Z * list (list Z)) :=
  match l with
  | [] => Ret (temp, recyclable)
  | c :: l =>
      k ← get_chunk s c;
      fin ← get_large_chunk_finaliser k;
      if fin =? 0 then
        recyclable ← recycle_chunk recyclable c (large_size k);
        merge_large s l temp recyclable
      else '(kept, recyclable) ← merge_large s l temp recyclable; Ret (c :: kept, recyclable)
  end.

Fixpoint merge_classes (s : state) (free full : list (list Z)) (swept : list (list Z * list Z)) (mixed : list Z)
    : outcome (list (list Z) * list (list Z) * list Z) :=
  match free, full, swept with
  | l1 :: free, l2 :: full, (temp1, temp2) :: swept =>
      '(l1, mixed) ← merge_small s l1 temp1 mixed;
      '(l2, mixed) ← merge_small s l2 temp2 mixed;
      '(free, full, mixed) ← merge_classes s free full swept mixed;
      Ret (l1 :: free, l2 :: full, mixed)
  | _, _, _ => Ret ([], [], mixed)
  end.

Definition sort_chunks (s : state) (l : list Z) : outcome (list Z) :=
  ks ← mapO (fun c => k ← get_chunk s c; Ret (c, k)) l;
  sorted ← sort_large_chunk_list_by_size (fun ck => get_chunk_is_small_chunk ck.2) (fun ck => large_size ck.2) ks;
  Ret sorted.*1.

Definition ponyint_heap_endgc (s : state) (num_actor_references_deleted : Z) : outcome state :=
  let temp := heap s in
  let s := set_heap s (mk_heap (small_free heap_init) (small_full heap_init) [] (recyclable temp) (used temp)
    (next_gc temp)) in
  '(s, swept, mixed, bytes) ← sweep_classes s 0 (zip (small_free temp) (small_full temp)) [] 0;
  '(s, temp_large, to_destroy, bytes) ← sweep_large s (large temp) [] (mixed :: tail (recyclable heap_init)) bytes;
  mixed ← list_at to_destroy HEAP_RECYCLE_MIXED;
  let h := heap s in
  '(free, full, mixed) ← merge_classes s (small_free h) (small_full h) swept mixed;
  '(merged_large, to_destroy) ← merge_large s (large h) temp_large (<[0%nat := mixed]> to_destroy);
  s ← destroy_recyclable (set_heap s (mk_heap free full merged_large (recyclable h) (used h) (next_gc h)))
    (recyclable h);
  overflow ← list_at to_destroy HEAP_RECYCLE_LARGE_OVERFLOW;
  sorted ← sort_chunks s overflow;
  let h := heap s in
  let used := used h ⊞ bytes in
  let next := nextgc_times used in
  let next := if next <? heap_initialgc then heap_initialgc else next in
  let next :=
    if (ACTOR_REFERENCES_DELETED_THRESHOLD <? num_actor_references_deleted) && (next_gc h <? next) then next_gc h
      else next in
  Ret (set_heap s (mk_heap (small_free h) (small_full h) (large h)
                     (<[Z.to_nat HEAP_RECYCLE_LARGE_OVERFLOW := sorted]> to_destroy) used next)).

(** ** Freeing an object at once

    Nothing calls it. *)
Definition ponyint_heap_free (s : state) (chunk p : Z) : outcome state :=
  k ← get_chunk s chunk;
  if negb (get_chunk_is_small_chunk k) then
    if p =? get_m k then
      s ← final_large s chunk;
      k ← get_chunk s chunk;
      pl ← free_size (pool s) (large_size k) (get_m k);
      k ← set_large_chunk_slot (set_m k NULL) 1;
      Ret (set_chunk (mk_state pl (pagemap s) (chunks s) (heap s) (trace s)) chunk k)
    else Ret s
  else
    sizeclass ← get_small_chunk_size k;
    if p =? EXTERNAL_PTR p sizeclass then
      let slot := FIND_SLOT p (get_m k) in
      s ← (if Z.land (finalisers k) slot =? 0 then Ret s
           else
             s ← run_finaliser s p;
             k ← get_chunk s chunk;
             Ret (set_chunk s chunk (set_finalisers k (Z.land (finalisers k) (not32 slot)))));
      k ← get_chunk s chunk;
      Ret (set_chunk s chunk (set_slots k (Z.lor (slots k) slot)))
    else Ret s.
End heap.
