(* ===== verification/HeapInv.v ===== *)
(** * The invariant of a heap

    The chunks of a heap are the nodes of its lists, each once; their memory is allocated from
    the pool, and the page map gives the chunk for every address of its block.  Operations that
    take a chunk from a list, change it and put it on another are described with the chunks in
    between as extra ones. *)
From stdpp Require Import gmap.
From S2P Require Import Prelude Store Pool PageMap Chunk ChunkSort Heap.
Local Open Scope Z_scope.
Local Open Scope c_scope.

(** Two lists of disjoint ranges. *)
Lemma disjoint_app l l' : pairwise_disjoint (l ++ l') <->
  pairwise_disjoint l /\ pairwise_disjoint l' /\ forall r r', r ∈ l -> r' ∈ l' -> ranges_disjoint r r'.
Proof.
  induction l as [|r l IH]; cbn [app pairwise_disjoint].
  - split; [|tauto]. intros Hd. split_and!; [done|done|]. intros r r' Hr. by apply elem_of_nil in Hr.
  - rewrite Forall_app, IH, (Forall_forall _ l'). split.
    + intros ((Hl & Hl') & H1 & H2 & H3). split_and!; try done.
      intros s s' [->|Hs]%elem_of_cons; [apply Hl'|by apply H3].
    + intros ((Hl & H1) & H2 & H3). split_and!; try done.
      * intros s Hs. apply H3; [left|done].
      * intros s s' Hs. apply H3. by right.
Qed.

Section invariant.
Context {P M : Type} `{PO : PoolOps P} `{PMO : PageMapOps M}.

(** The memory of other owners, and what the page map has for it. *)
Context (outside : list range) (others : Z -> Z).

Abbreviation state := (state P M).
Abbreviation store := (gmap Z chunk_t).

(** ** Lists of chunks

    The lists of a heap in one array: [small_free], [small_full], [large] and [recyclable]. *)

Definition LARGE : nat := 10.
Definition RECYCLABLE : nat := 11.

(** The list on which a free chunk is kept. *)
Definition recycle_class (k : chunk_t) : nat :=
  if get_chunk_is_small_chunk k then 0
  else Z.to_nat (Z.min HEAP_RECYCLE_LARGE_OVERFLOW (heap_recycle_index (large_size k))).

(** What a chunk of the list [j] is. *)
Definition fits (j : nat) (k : chunk_t) : Prop :=
  if (j <? 5)%nat then
    get_chunk_is_small_chunk k = true /\ class k = Z.of_nat j /\ slots k <> 0 /\ masks_ok (view k) /\
      v_dirty (view k) = true
  else if (j <? LARGE)%nat then
    get_chunk_is_small_chunk k = true /\ class k = Z.of_nat (j - 5) /\ slots k = 0 /\ masks_ok (view k) /\
      v_dirty (view k) = true
  else if (j =? LARGE)%nat then
    get_chunk_is_small_chunk k = false /\ v_slots (view k) = 0 /\ masks_ok (view k) /\ v_dirty (view k) = true
  else v_fins (view k) = 0 /\ recycle_class k = (j - RECYCLABLE)%nat.

Definition chunk_in (ch : store) (j : nat) (c : Z) : Prop := exists k, ch !! c = Some k /\ fits j k.

(** ** The memory of a chunk *)
Definition extent (k : chunk_t) : Z := v_extent (view k).
Definition foot (ck : Z * chunk_t) : list range := [object sizeof_chunk_t ck.1; object (extent ck.2) (get_m ck.2)].
Definition foots (ch : store) : list range := map_to_list ch ≫= foot.

Definition in_block (k : chunk_t) (b : Z) : Prop := get_m k <= b < get_m k + extent k.
Definition in_range (r : range) (b : Z) : Prop := r.1 <= b < r.1 + r.2.

Definition objs (ch : store) (l : list Z) : list heap_object :=
  l ≫= fun c => match ch !! c with Some k => objects (view k) | None => [] end.

Definition live (h : heap_t) (ch : store) : list heap_object := objs ch (concat (take RECYCLABLE (lists h))).

(** The heap [h] in a state, with the chunks [extra] that are on none of its lists. *)
Record world (h : heap_t) (s : state) (extra : list Z) : Prop := {
  wo_free : List.length (small_free h) = 5%nat;
  wo_full : List.length (small_full h) = 5%nat;
  wo_recyclable : List.length (recyclable h) = 4%nat;
  wo_fits j l : lists h !! j = Some l -> Forall (chunk_in (chunks s) j) l;
  wo_chunks c k : chunks s !! c = Some k -> chunk_ok k /\ aligned (ponyint_pool_used_size sizeof_chunk_t) c;
  wo_owned : concat (lists h) ++ extra ≡ₚ (map_to_list (chunks s)).*1;
  wo_pool : pool_live (pool s) (foots (chunks s) ++ outside);
  wo_pagemap : pagemap_ok (pagemap s);
  wo_known c k b : chunks s !! c = Some k -> in_block k b -> chunk_at (pagemap s) b = c;
  wo_others r b : r ∈ outside -> in_range r b -> chunk_at (pagemap s) b = others b;
  wo_unknown b : 0 <= b < 2 ^ PAGEMAP_ADDRESSBITS -> chunk_at (pagemap s) b <> NULL ->
    (exists c k, chunks s !! c = Some k /\ in_block k b) \/ exists r, r ∈ outside /\ in_range r b
}.

(** ** Permutations *)

Lemma concat_take (l : list (list Z)) j x y :
  l !! j = Some x -> concat l ++ y ≡ₚ x ++ concat (<[j:=y]> l).
Proof.
  intros E. rewrite insert_take_drop by (by eapply lookup_lt_Some). rewrite <- (take_drop_middle l j x E) at 1.
  rewrite !concat_app. cbn [concat]. solve_perm.
Qed.

Lemma owned_nodup h s extra : world h s extra -> NoDup (concat (lists h) ++ extra).
Proof. intros W. rewrite (wo_owned _ _ _ W). apply NoDup_fst_map_to_list. Qed.

Lemma owned_elem h s extra c :
  world h s extra -> (c ∈ concat (lists h) \/ c ∈ extra) <-> is_Some (chunks s !! c).
Proof.
  intros W. rewrite <- elem_of_app, (wo_owned _ _ _ W), list_elem_of_fmap. split.
  - intros ([c' k] & -> & Hk%elem_of_map_to_list). by exists k.
  - intros [k Hk]. exists (c, k). by rewrite elem_of_map_to_list.
Qed.

Lemma foots_insert (ch : store) c k : ch !! c = None -> foots (<[c:=k]> ch) ≡ₚ foot (c, k) ++ foots ch.
Proof. intros E. unfold foots. by rewrite map_to_list_insert. Qed.

Lemma foots_delete (ch : store) c k : ch !! c = Some k -> foots ch ≡ₚ foot (c, k) ++ foots (delete c ch).
Proof. intros E. rewrite <- foots_insert by apply lookup_delete_eq. by rewrite insert_delete_id. Qed.

Lemma foots_update (ch : store) c k k' :
  ch !! c = Some k -> foot (c, k') = foot (c, k) -> foots (<[c:=k']> ch) ≡ₚ foots ch.
Proof.
  intros E Ef. rewrite (foots_delete ch c k E), <- insert_delete_eq, foots_insert by apply lookup_delete_eq.
  by rewrite Ef.
Qed.

Lemma dom_update (ch : store) c k k' : ch !! c = Some k -> (map_to_list (<[c:=k']> ch)).*1 ≡ₚ (map_to_list ch).*1.
Proof.
  intros E. apply NoDup_Permutation; [apply NoDup_fst_map_to_list..|]. intros x.
  rewrite !list_elem_of_fmap. split; intros ([y z] & -> & Hz%elem_of_map_to_list); cbn.
  - destruct (decide (y = c)) as [->|]; [exists (c, k)|exists (y, z)]; rewrite elem_of_map_to_list; [done|].
    by rewrite lookup_insert_ne in Hz.
  - destruct (decide (y = c)) as [->|]; [exists (c, k')|exists (y, z)]; rewrite elem_of_map_to_list;
      [by rewrite lookup_insert_eq|by rewrite lookup_insert_ne].
Qed.

(** ** The lists of a heap *)

Record lists_ok (h : heap_t) : Prop := {
  lo_free : List.length (small_free h) = 5%nat;
  lo_full : List.length (small_full h) = 5%nat;
  lo_recyclable : List.length (recyclable h) = 4%nat
}.

Lemma world_lists_ok h s extra : world h s extra -> lists_ok h.
Proof. intros []. by constructor. Qed.

Section lists.
Context (h : heap_t) (Hl : lists_ok h).

Lemma lists_lookup_free i : (i < 5)%nat -> lists h !! i = small_free h !! i.
Proof. intros Hi. unfold lists. apply lookup_app_l. rewrite (lo_free _ Hl). lia. Qed.

Lemma lists_lookup_full i : (i < 5)%nat -> lists h !! (5 + i)%nat = small_full h !! i.
Proof.
  intros Hi. unfold lists. rewrite lookup_app_r by (rewrite (lo_free _ Hl); lia). rewrite (lo_free _ Hl).
  rewrite lookup_app_l by (rewrite (lo_full _ Hl); lia). f_equal. lia.
Qed.

Lemma lists_lookup_large : lists h !! LARGE = Some (large h).
Proof.
  unfold lists, LARGE. rewrite lookup_app_r by (rewrite (lo_free _ Hl); lia). rewrite (lo_free _ Hl).
  rewrite lookup_app_r by (rewrite (lo_full _ Hl); lia). by rewrite (lo_full _ Hl).
Qed.

Lemma lists_lookup_recyclable i : lists h !! (RECYCLABLE + i)%nat = recyclable h !! i.
Proof.
  unfold lists, RECYCLABLE. rewrite lookup_app_r by (rewrite (lo_free _ Hl); lia). rewrite (lo_free _ Hl).
  rewrite lookup_app_r by (rewrite (lo_full _ Hl); lia). rewrite (lo_full _ Hl). cbn [app].
  replace (11 + i - 5 - 5)%nat with (S i) by lia. done.
Qed.

Lemma lists_set_free i l : 0 <= i < 5 ->
  lists (set_small_free h i l) = <[Z.to_nat i := l]> (lists h) /\ lists_ok (set_small_free h i l).
Proof.
  intros Hi. destruct Hl as [H1 H2 H3]. split.
  - unfold lists, set_small_free. cbn [small_free small_full large recyclable]. by rewrite insert_app_l by lia.
  - constructor; cbn [set_small_free small_free small_full recyclable]; by rewrite ?length_insert.
Qed.

Lemma lists_set_full i l : 0 <= i < 5 ->
  lists (set_small_full h i l) = <[(5 + Z.to_nat i)%nat := l]> (lists h) /\ lists_ok (set_small_full h i l).
Proof.
  intros Hi. destruct Hl as [H1 H2 H3]. split.
  - unfold lists, set_small_full. cbn [small_free small_full large recyclable]. rewrite insert_app_r_alt by lia.
    rewrite insert_app_l by lia. do 2 f_equal. f_equal. lia.
  - constructor; cbn [set_small_full small_free small_full recyclable]; by rewrite ?length_insert.
Qed.

Lemma lists_set_large l : lists (set_large h l) = <[LARGE := l]> (lists h) /\ lists_ok (set_large h l).
Proof.
  destruct Hl as [H1 H2 H3]. split; [|by constructor].
  unfold lists, set_large, LARGE. cbn [small_free small_full large recyclable]. rewrite insert_app_r_alt by lia.
  rewrite insert_app_r_alt by lia. rewrite H1, H2. done.
Qed.

Lemma lists_set_recyclable i l :
  0 <= i < 4 -> lists (set_recyclable h i l) = <[(RECYCLABLE + Z.to_nat i)%nat := l]> (lists h) /\
    lists_ok (set_recyclable h i l).
Proof.
  intros Hi. destruct Hl as [H1 H2 H3]. split.
  - unfold lists, set_recyclable, RECYCLABLE. cbn [small_free small_full large recyclable].
    rewrite insert_app_r_alt by lia.
    rewrite insert_app_r_alt by lia. rewrite H1, H2.
    replace (11 + Z.to_nat i - 5 - 5)%nat with (S (Z.to_nat i)) by lia. done.
  - constructor; cbn [set_recyclable small_free small_full recyclable]; by rewrite ?length_insert.
Qed.
End lists.

(** ** Changes of the lists *)

Lemma world_relist h h' s extra extra' :
  world h s extra -> lists_ok h' ->
  (forall j l, lists h' !! j = Some l -> Forall (chunk_in (chunks s) j) l) ->
  concat (lists h') ++ extra' ≡ₚ concat (lists h) ++ extra -> world h' s extra'.
Proof. intros [W1 W2 W3 W4 W5 W6 W7 W8 W9 W10 W11] [L1 L2 L3] Hf Hp. constructor; try done. by rewrite Hp. Qed.

Lemma world_extra h s extra extra' : extra ≡ₚ extra' -> world h s extra -> world h s extra'.
Proof.
  intros Hp W. eapply world_relist; [exact W|by eapply world_lists_ok|apply (wo_fits _ _ _ W)|by rewrite Hp].
Qed.

(** The list [j] becomes [x']; the chunks that leave or join it are extra ones. *)
Lemma world_set h h' s extra extra' j x x' :
  world h s extra -> lists h !! j = Some x -> lists h' = <[j := x']> (lists h) -> lists_ok h' ->
  Forall (chunk_in (chunks s) j) x' -> x' ++ extra' ≡ₚ x ++ extra -> world h' s extra'.
Proof.
  intros W Ex El Hl Hf Hp. eapply world_relist; [exact W|done| |].
  - intros i l. rewrite El.
    intros [(-> & -> & _)|[_ Hi]]%list_lookup_insert_Some; [done|by apply (wo_fits _ _ _ W i)].
  - rewrite El. pose proof (lookup_lt_Some _ _ _ Ex) as Hlt.
    rewrite insert_take_drop by done. rewrite <- (take_drop_middle (lists h) j x Ex) at 3.
    rewrite !concat_app. cbn [concat]. 
    transitivity (concat (take j (lists h)) ++ concat (drop (S j) (lists h)) ++ (x' ++ extra')); [solve_perm|].
    rewrite Hp. solve_perm.
Qed.

Lemma world_pop h h' s extra j c l :
  world h s extra -> lists h !! j = Some (c :: l) -> lists h' = <[j := l]> (lists h) -> lists_ok h' ->
  world h' s (c :: extra) /\ chunk_in (chunks s) j c.
Proof.
  intros W Ex El Hl. pose proof (wo_fits _ _ _ W j _ Ex) as Hf. apply Forall_cons in Hf as [Hc Hf]. split; [|done].
  eapply world_set; [exact W|exact Ex|exact El|done|done|]. cbn [app]. by rewrite Permutation_middle.
Qed.

Lemma world_push h h' s extra j c l :
  world h s (c :: extra) -> lists h !! j = Some l -> lists h' = <[j := c :: l]> (lists h) -> lists_ok h' ->
  chunk_in (chunks s) j c -> world h' s extra.
Proof.
  intros W Ex El Hl Hc. eapply world_set; [exact W|exact Ex|exact El|done| |].
  - constructor; [done|]. by apply (wo_fits _ _ _ W).
  - cbn [app]. by rewrite Permutation_middle.
Qed.

(** ** Changes of a chunk *)

Lemma world_not_listed h s c extra j l : world h s (c :: extra) -> lists h !! j = Some l -> c ∉ l.
Proof.
  intros W Hj Hc. pose proof (owned_nodup _ _ _ W) as Hnd. apply NoDup_app in Hnd as (_ & Hd & _).
  apply (Hd c); [|left]. apply list_elem_of_In, in_concat. exists l. rewrite <- !list_elem_of_In. split; [|done].
  by eapply list_elem_of_lookup_2.
Qed.

Lemma chunk_in_agree ch ch' j l :
  Forall (chunk_in ch j) l -> (forall c, c ∈ l -> ch' !! c = ch !! c) -> Forall (chunk_in ch' j) l.
Proof.
  rewrite !Forall_forall. intros Hf Ha c Hc. destruct (Hf c Hc) as (k & Hk & Hfit). exists k. by rewrite Ha.
Qed.

Lemma world_update h s c k k' extra :
  world h s (c :: extra) -> chunks s !! c = Some k -> chunk_ok k' -> get_m k' = get_m k -> extent k' = extent k ->
  world h (set_chunk s c k') (c :: extra).
Proof.
  intros W Ek Hk Em Ee. pose proof W as [W1 W2 W3 W4 W5 W6 W7 W8 W9 W10 W11].
  assert (foot (c, k') = foot (c, k)) as Ef by (unfold foot; cbn; by rewrite Em, Ee).
  assert (forall b, in_block k' b <-> in_block k b) as Eb by (intros b; unfold in_block; by rewrite Em, Ee).
  constructor; cbn [set_chunk chunks pool pagemap]; try done.
  - intros j l Hj. eapply chunk_in_agree; [by apply W4|]. intros d Hd. rewrite lookup_insert_ne; [done|].
    intros ->. by apply (world_not_listed _ _ _ _ _ _ W Hj).
  - intros d k1. rewrite lookup_insert_Some. intros [[<- <-]|[_ Hd]]; [|by apply W5]. split; [done|].
    by apply (W5 c k).
  - by rewrite (dom_update _ c k k').
  - eapply pool_live_perm; [|exact W7]. by rewrite (foots_update _ c k k').
  - intros d k1 b. rewrite lookup_insert_Some. intros [[<- <-]|[_ Hd]]; [rewrite Eb|]; by apply W9.
  - intros b Hb Hne. destruct (W11 b Hb Hne) as [(d & k1 & Hd & Hb1)|]; [left|by right].
    destruct (decide (d = c)) as [->|Hdc].
    + exists c, k'. rewrite lookup_insert_eq, Eb. split; [done|]. by simplify_eq.
    + exists d, k1. by rewrite lookup_insert_ne.
Qed.

(** ** Objects *)

Lemma objs_app ch l l' : objs ch (l ++ l') = objs ch l ++ objs ch l'.
Proof. unfold objs. by rewrite bind_app. Qed.

Lemma objs_perm ch l l' : l ≡ₚ l' -> objs ch l ≡ₚ objs ch l'.
Proof. intros Hp. unfold objs. by rewrite Hp. Qed.

Lemma objs_cons ch c k l : ch !! c = Some k -> objs ch (c :: l) = objects (view k) ++ objs ch l.
Proof. intros E. unfold objs. cbn [mbind list_bind]. by rewrite E. Qed.

Lemma objs_agree ch ch' l : (forall c, c ∈ l -> ch' !! c = ch !! c) -> objs ch' l = objs ch l.
Proof.
  unfold objs. induction l as [|c l IH]; intros Ha; [done|]. cbn [mbind list_bind]. rewrite Ha by left.
  f_equal. apply IH. intros d Hd. apply Ha. by right.
Qed.

Lemma live_set h h' ch j x x' :
  lists h !! j = Some x -> lists h' = <[j := x']> (lists h) ->
  live h' ch ++ (if (j <? RECYCLABLE)%nat then objs ch x else []) ≡ₚ
  live h ch ++ (if (j <? RECYCLABLE)%nat then objs ch x' else []).
Proof.
  intros Ex El. unfold live. rewrite El. destruct (Nat.ltb_spec j RECYCLABLE) as [Hj|Hj].
  - rewrite take_insert_lt by lia. rewrite <- !objs_app. apply objs_perm.
    assert (take RECYCLABLE (lists h) !! j = Some x) as Ex' by (by rewrite lookup_take_lt).
    pose proof (concat_take _ j x x' Ex') as Hp. rewrite Permutation_app_comm, <- Hp. solve_perm.
  - by rewrite take_insert_ge by lia.
Qed.

Lemma live_elem h c j l : lists h !! j = Some l -> c ∈ l -> (j < RECYCLABLE)%nat ->
  c ∈ concat (take RECYCLABLE (lists h)).
Proof.
  intros Hj Hc Hlt. apply list_elem_of_In, in_concat. exists l. rewrite <- !list_elem_of_In. split; [|done].
  apply list_elem_of_lookup. exists j. by rewrite lookup_take_lt.
Qed.

Lemma live_listed h c : c ∈ concat (take RECYCLABLE (lists h)) ->
  exists j l, lists h !! j = Some l /\ c ∈ l /\ (j < RECYCLABLE)%nat.
Proof.
  rewrite list_elem_of_In, in_concat. intros (l & Hl & Hc). apply list_elem_of_In in Hl, Hc.
  apply list_elem_of_lookup in Hl as [j Hj]. apply lookup_take_Some in Hj as [Hj Hlt]. by exists j, l.
Qed.

Lemma live_agree h ch ch' :
  (forall c, c ∈ concat (lists h) -> ch' !! c = ch !! c) -> live h ch' = live h ch.
Proof.
  intros Ha. apply objs_agree. intros c Hc. apply Ha. destruct (live_listed h c Hc) as (j & l & Hj & Hc' & _).
  apply list_elem_of_In, in_concat. exists l. rewrite <- !list_elem_of_In. split; [|done].
  by eapply list_elem_of_lookup_2.
Qed.

(** A change of an extra chunk does not change the objects. *)
Lemma live_update h s c k' extra :
  world h s (c :: extra) -> live h (<[c:=k']> (chunks s)) = live h (chunks s).
Proof.
  intros W. apply live_agree. intros d Hd. rewrite lookup_insert_ne; [done|]. intros <-.
  pose proof (owned_nodup _ _ _ W) as Hnd. apply NoDup_app in Hnd as (_ & Hn & _). apply (Hn c Hd). left.
Qed.

(** ** Memory *)

Lemma chunk_extent k : chunk_ok k -> (POOL_ALIGN | extent k) /\ 0 < extent k /\ is_u64 (extent k).
Proof.
  intros Hk. unfold extent, v_extent.
  destruct (view_cases k Hk) as [(-> & _)|(-> & Es & _ & Ha & Hu)]; [split_and!; [by exists 1|done|done]|].
  split_and!; [done|done|]. unfold view in *. rewrite Es in *. cbn [v_unit] in *. unfold large_size in *.
  destruct Hk as [_ _ _ [H1 H2] [H3 H4] _ _]. rewrite Z.shiftl_mul_pow2 by done. unfold is_u64. lia.
Qed.

Lemma used_size_large n : is_u64 n -> ponyint_pool_used_size n <= 2 ^ 48 ->
  size_ok n /\ n <= ponyint_pool_used_size n.
Proof.
  intros Hn Hle. destruct (used_size_spec n Hn) as [(_ & _ & _ & Hu)|(_ & E & Hd)].
  - split; [|done]. unfold size_ok. change POOL_ALIGN with 1024. unfold is_u64 in Hn. lia.
  - destruct (decide (size_ok n)) as [Hs|Hs]; [split; [done|lia]|]. rewrite E, Hd in Hle. lia.
Qed.

Section memory.
Context (h : heap_t) (s : state) (extra : list Z) (W : world h s extra).

Lemma world_ranges : pairwise_disjoint (foots (chunks s) ++ outside) /\
  forall p n, (p, n) ∈ foots (chunks s) ++ outside -> 0 < p /\ 0 < n /\ p + n <= 2 ^ 48.
Proof. apply (pool_live_ranges _ _ (wo_pool _ _ _ W)). Qed.

Lemma elem_of_foots r : r ∈ foots (chunks s) <-> exists c k, chunks s !! c = Some k /\ r ∈ foot (c, k).
Proof.
  unfold foots. rewrite list_elem_of_bind. split.
  - intros ([c k] & Hr & Hck%elem_of_map_to_list). by exists c, k.
  - intros (c & k & Hck & Hr). exists (c, k). by rewrite elem_of_map_to_list.
Qed.

Lemma block_range c k :
  chunks s !! c = Some k ->
  0 < c /\ 0 < get_m k /\ get_m k + ponyint_pool_used_size (extent k) <= 2 ^ 48 /\ size_ok (extent k) /\
  extent k <= ponyint_pool_used_size (extent k).
Proof.
  intros Hc. destruct world_ranges as [_ Hr].
  assert (forall r, r ∈ foot (c, k) -> 0 < r.1 /\ 0 < r.2 /\ r.1 + r.2 <= 2 ^ 48) as Hr'.
  { intros [p n] Hpn. apply Hr, elem_of_app. left. apply elem_of_foots. by exists c, k. }
  destruct (Hr' (object sizeof_chunk_t c)) as (H1 & _); [left|].
  destruct (Hr' (object (extent k) (get_m k))) as (H2 & H3 & H4); [right; left|]. cbn in *.
  destruct (wo_chunks _ _ _ W c k Hc) as [Hk _]. destruct (chunk_extent k Hk) as (_ & _ & Hu).
  destruct (used_size_large (extent k) Hu) as [H5 H6]; [lia|]. done.
Qed.

(** The block of a chunk does not meet the memory of others, or of another chunk. *)
Lemma block_outside c k r b : chunks s !! c = Some k -> r ∈ outside -> in_block k b -> in_range r b -> False.
Proof.
  intros Hc Hr Hb Hb'. destruct world_ranges as [Hd _]. apply disjoint_app in Hd as (_ & _ & Hd).
  specialize (Hd (object (extent k) (get_m k)) r). destruct (block_range c k Hc) as (_ & _ & _ & _ & Hle).
  unfold in_block, in_range, object, ranges_disjoint in *. cbn in Hd. destruct Hd; [|done|lia|lia].
  apply elem_of_foots. exists c, k. split; [done|]. right; left.
Qed.

Lemma blocks_disjoint c k c' k' b :
  chunks s !! c = Some k -> chunks s !! c' = Some k' -> in_block k b -> in_block k' b -> c = c'.
Proof.
  intros Hc Hc' Hb Hb'. by rewrite <- (wo_known _ _ _ W c k b Hc Hb), <- (wo_known _ _ _ W c' k' b Hc' Hb').
Qed.
End memory.

(** ** Changes of the state *)

Lemma world_state h h' s s' extra :
  world h s extra -> pool s' = pool s -> pagemap s' = pagemap s -> chunks s' = chunks s -> lists h' = lists h ->
    lists_ok h' ->
  world h' s' extra.
Proof.
  intros [W1 W2 W3 W4 W5 W6 W7 W8 W9 W10 W11] Ep Em Ec El [L1 L2 L3]. constructor; rewrite ?Ep, ?Em, ?Ec, ?El; done.
Qed.

Lemma world_set_heap h h' s extra : world h s extra -> world h (set_heap s h') extra.
Proof. intros W. by eapply world_state; [exact W|..|eapply world_lists_ok]. Qed.

Lemma extra_elem h s c extra : world h s (c :: extra) -> c ∉ extra.
Proof.
  intros W. pose proof (owned_nodup _ _ _ W) as Hnd. apply NoDup_app in Hnd as (_ & _ & Hnd).
  by apply NoDup_cons in Hnd as [? _].
Qed.

Lemma get_chunk_lookup (s : state) c k : chunks s !! c = Some k -> get_chunk s c = Ret k.
Proof. intros E. unfold get_chunk. by rewrite E. Qed.

(** ** Taking a chunk from a list, and putting it on one *)

Lemma objs_singleton ch c k : ch !! c = Some k -> objs ch [c] = objects (view k).
Proof. intros E. rewrite (objs_cons _ _ _ _ E). apply app_nil_r. Qed.

Lemma live_pop h h' ch j c k l :
  lists h !! j = Some (c :: l) -> lists h' = <[j := l]> (lists h) -> ch !! c = Some k ->
  live h ch ≡ₚ (if (j <? RECYCLABLE)%nat then objects (view k) else []) ++ live h' ch.
Proof.
  intros Ej El Ek. pose proof (live_set h h' ch j _ _ Ej El) as Hp. destruct (j <? RECYCLABLE)%nat.
  - change (c :: l) with ([c] ++ l) in Hp. rewrite !objs_app, (objs_singleton _ _ _ Ek) in Hp.
    apply (Permutation_app_inv_r (objs ch l)). rewrite <- Hp. solve_perm.
  - rewrite !app_nil_r in Hp. by rewrite Hp.
Qed.

Lemma live_push h h' ch j c k l :
  lists h !! j = Some l -> lists h' = <[j := c :: l]> (lists h) -> ch !! c = Some k ->
  live h' ch ≡ₚ (if (j <? RECYCLABLE)%nat then objects (view k) else []) ++ live h ch.
Proof.
  intros Ej El Ek. apply (live_pop h' h ch j c k l); [|by rewrite El, list_insert_insert_eq, list_insert_id|done].
  rewrite El. apply list_lookup_insert_eq. by eapply lookup_lt_Some.
Qed.

(** ** Objects of the heap *)

Definition block_range_of (k : chunk_t) : range := (get_m k, extent k).

Lemma objs_disjoint h s extra l :
  world h s extra -> NoDup l -> Forall (fun c => is_Some (chunks s !! c)) l ->
    pairwise_disjoint (o_range <$> objs (chunks s) l).
Proof.
  intros W. induction l as [|c l IH]; intros Hnd Hf; [done|]. apply NoDup_cons in Hnd as [Hc Hnd].
  apply Forall_cons in Hf as [[k Ek] Hf]. rewrite (objs_cons _ _ _ _ Ek), fmap_app. apply disjoint_app.
  destruct (wo_chunks _ _ _ W c k Ek) as [Hk _]. split_and!; [by apply objects_disjoint|by apply IH|].
  intros r r' Hr Hr'. apply list_elem_of_fmap in Hr as (o & -> & Ho), Hr' as (o' & -> & Ho').
  unfold objs in Ho'. apply list_elem_of_bind in Ho' as (c' & Ho' & Hc').
  rewrite Forall_forall in Hf. destruct (Hf c' Hc') as [k' Ek']. rewrite Ek' in Ho'.
  destruct (wo_chunks _ _ _ W c' k' Ek') as [Hk' _].
  destruct (objects_within k o Hk Ho) as (H1 & H2 & H3), (objects_within k' o' Hk' Ho') as (H1' & H2' & H3').
  rewrite view_base in *. unfold ranges_disjoint, o_range. cbn [fst snd].
  destruct (Z_le_gt_dec (o_addr o + o_size o) (o_addr o')); [by left|].
  destruct (Z_le_gt_dec (o_addr o' + o_size o') (o_addr o)); [by right|].
  exfalso. assert (c = c') as ->; [|done].
  apply (blocks_disjoint h s extra W c k c' k' (Z.max (o_addr o) (o_addr o')) Ek Ek'); unfold in_block, extent; lia.
Qed.

Lemma live_dom h s extra c : world h s extra -> c ∈ concat (take RECYCLABLE (lists h)) ->
  exists k j l, chunks s !! c = Some k /\ lists h !! j = Some l /\ c ∈ l /\ (j < RECYCLABLE)%nat /\ fits j k.
Proof.
  intros W Hc. destruct (live_listed h c Hc) as (j & l & Hj & Hcl & Hlt).
  pose proof (wo_fits _ _ _ W j l Hj) as Hf. rewrite Forall_forall in Hf. destruct (Hf c Hcl) as (k & Ek & Hk).
  by exists k, j, l.
Qed.

Lemma listed_nodup h s extra : world h s extra -> NoDup (concat (take RECYCLABLE (lists h))).
Proof.
  intros W. pose proof (owned_nodup _ _ _ W) as Hnd.
  rewrite <- (take_drop RECYCLABLE (lists h)), concat_app, <- app_assoc in Hnd.
  by apply NoDup_app in Hnd as (Hnd & _).
Qed.

(** The objects of a heap do not overlap, and are in the memory of its chunks. *)
Lemma live_disjoint h s extra : world h s extra -> pairwise_disjoint (o_range <$> live h (chunks s)).
Proof.
  intros W. apply (objs_disjoint h s extra); [done|by eapply listed_nodup|]. apply Forall_forall. intros c Hc.
  destruct (live_dom _ _ _ _ W Hc) as (k & _ & _ & Ek & _). by exists k.
Qed.

Lemma elem_of_live h s extra o :
  world h s extra -> o ∈ live h (chunks s) ->
  exists c k i, c ∈ concat (take RECYCLABLE (lists h)) /\ chunks s !! c = Some k /\ chunk_ok k /\
    0 <= i < 32 /\ Z.testbit (v_all (view k)) i = true /\ Z.testbit (v_slots (view k)) i = false /\
      o = slot_object (view k) i.
Proof.
  intros W Ho. unfold live, objs in Ho. apply list_elem_of_bind in Ho as (c & Ho & Hc).
  destruct (live_dom _ _ _ _ W Hc) as (k & j & l & Ek & _). rewrite Ek in Ho.
  apply elem_of_objects in Ho as (i & Hi & Ha & Hs & ->). exists c, k, i. split_and!; try done; [|lia|lia].
  by destruct (wo_chunks _ _ _ W c k Ek).
Qed.

Lemma live_range h s extra o :
  world h s extra -> o ∈ live h (chunks s) -> 0 < o_addr o /\ 0 < o_size o /\ o_addr o + o_size o <= 2 ^ 48.
Proof.
  intros W Ho. destruct (elem_of_live _ _ _ _ W Ho) as (c & k & i & _ & Ek & Hk & Hi & Ha & Hs & ->).
  destruct (block_range h s extra W c k Ek) as (_ & H1 & H2 & _ & H3).
  destruct (objects_within k (slot_object (view k) i) Hk) as (H4 & H5 & H6); [apply elem_of_objects; by exists i|].
  rewrite view_base in *. fold (extent k) in H6. lia.
Qed.

(** The chunk of an address in an object. *)
Lemma live_located h s extra o p :
  world h s extra -> o ∈ live h (chunks s) -> in_range (o_range o) p ->
  exists c k i, pagemap_get_chunk (pagemap s) p = Ret c /\ c <> NULL /\ c ∈ concat (take RECYCLABLE (lists h)) /\
    chunks s !! c = Some k /\ chunk_ok k /\ in_slot (view k) i p /\ is_u64 p /\
    Z.testbit (v_slots (view k)) i = false /\ o = slot_object (view k) i.
Proof.
  intros W Ho Hp. destruct (live_range _ _ _ _ W Ho) as (Hr1 & Hr2 & Hr3). unfold in_range, o_range in Hp.
  cbn [fst snd] in Hp.
  destruct (elem_of_live _ _ _ _ W Ho) as (c & k & i & Hc & Ek & Hk & Hi & Ha & Hs & ->). exists c, k, i.
  destruct (objects_within k (slot_object (view k) i) Hk) as (H4 & H5 & H6); [apply elem_of_objects; by exists i|].
  rewrite view_base in *. fold (extent k) in H6.
  rewrite pagemap_get_chunk_law by (apply (wo_pagemap _ _ _ W) || change PAGEMAP_ADDRESSBITS with 48; lia).
  rewrite (wo_known _ _ _ W c k p Ek) by (unfold in_block; lia).
  destruct (block_range h s extra W c k Ek) as (H1 & _).
  split_and!; try done; [unfold NULL; lia| |unfold is_u64; lia].
  split_and!; [lia|done| |]; cbn [slot_object o_addr o_size] in Hp; lia.
Qed.

(** ** The page map *)

Lemma page_aligned b m size :
  (POOL_ALIGN | m) -> (POOL_ALIGN | size) -> m <= b / POOL_ALIGN * POOL_ALIGN < m + size <-> m <= b < m + size.
Proof.
  change POOL_ALIGN with 1024. intros [x ->] [y ->].
  pose proof (Z.div_mod b 1024 ltac:(lia)). pose proof (Z.mod_pos_bound b 1024 ltac:(lia)).
  generalize dependent (b / 1024). intros q. generalize dependent (b mod 1024). intros r. nia.
Qed.

(** What the page map is after an update of a block of pages. *)
Lemma pagemap_update_spec pm m c a size (bulk : bool) :
  pagemap_ok pm -> 0 <= m -> 0 < size -> (POOL_ALIGN | m) -> (POOL_ALIGN | size) ->
    m + size <= 2 ^ PAGEMAP_ADDRESSBITS ->
  (bulk = false -> size = POOL_ALIGN) ->
  exists pm', (if bulk then pagemap_set_bulk pm m c a size else pagemap_set pm m c a) = Ret pm' /\ pagemap_ok pm' /\
    forall b, 0 <= b < 2 ^ PAGEMAP_ADDRESSBITS ->
      chunk_at pm' b = if decide (m <= b < m + size) then c else chunk_at pm b.
Proof.
  intros Hok Hm Hs Ha Hsa Hle Hb. destruct bulk.
  - destruct (pagemap_set_bulk_law pm m c a size) as (pm' & E & Hok' & Hc); try done; [lia|]. exists pm'.
    split; [done|]. split; [done|]. intros b Hbb. rewrite Hc by done. by apply decide_ext, page_aligned.
  - rewrite (Hb eq_refl) in *. destruct (pagemap_set_law pm m c a) as (pm' & E & Hok' & Hc); try done. exists pm'.
    split; [done|]. split; [done|]. intros b Hbb. rewrite Hc by done. by apply decide_ext, page_aligned.
Qed.

Lemma foots_lookup (ch : store) c k r : ch !! c = Some k -> r ∈ foot (c, k) -> r ∈ foots ch.
Proof. intros Hc Hr. unfold foots. rewrite list_elem_of_bind. exists (c, k). by rewrite elem_of_map_to_list. Qed.

(** ** Destroying a chunk *)

Context `{FI : Finalisers} (actor : Z) (uninit : Z -> Z).

Lemma free_chunk_spec h s s1 c k extra pl pm :
  world h s (c :: extra) -> chunks s !! c = Some k ->
  pool_live pl (object sizeof_chunk_t c :: foots (delete c (chunks s)) ++ outside) -> pagemap_ok pm ->
  (forall b, 0 <= b < 2 ^ PAGEMAP_ADDRESSBITS ->
     chunk_at pm b = if decide (in_block k b) then NULL else chunk_at (pagemap s) b) ->
  s1 = mk_state pl pm (chunks s) (heap s) (trace s) ->
  exists s', free_chunk_t s1 c = Ret s' /\ world h s' extra /\ chunks s' = delete c (chunks s) /\
    heap s' = heap s /\ trace s' = trace s.
Proof.
  intros W Ek Hlive Hpm Hat ->. destruct (wo_chunks _ _ _ W c k Ek) as [Hk Hca].
  unfold free_chunk_t. cbn [pool].
  destruct (free_size_law pl (foots (delete c (chunks s)) ++ outside) sizeof_chunk_t c) as (pl' & -> & Hpl);
    [done|done|done|].
  cbn [mbind outcome_bind]. eexists. split; [done|]. cbn [chunks heap trace]. split; [|done].
  pose proof W as [W1 W2 W3 W4 W5 W6 W7 W8 W9 W10 W11].
  destruct (block_range h s _ W c k Ek) as (_ & Hm1 & Hm2 & _ & Hm3).
  assert (forall b, in_block k b -> 0 <= b < 2 ^ PAGEMAP_ADDRESSBITS) as Hrange
    by (intros b Hb; unfold in_block in Hb; change PAGEMAP_ADDRESSBITS with 48; lia).
  constructor; cbn [chunks pool pagemap]; try done.
  - intros j l Hj. eapply chunk_in_agree; [by apply W4|]. intros d Hd. rewrite lookup_delete_ne; [done|]. intros <-.
    by apply (world_not_listed _ _ _ _ _ _ W Hj).
  - intros d k1. rewrite lookup_delete_Some. intros [_ Hd]. by apply W5.
  - apply (Permutation_cons_inv (a := c)). rewrite Permutation_middle, W6.
    rewrite <- (insert_delete_id (chunks s) c k Ek) at 1. by rewrite map_to_list_insert by apply lookup_delete_eq.
  - intros d k1 b. rewrite lookup_delete_Some. intros [Hne Hd] Hb.
    destruct (block_range h s _ W d k1 Hd) as (_ & Hd1 & Hd2 & _ & Hd3).
    rewrite Hat by (unfold in_block in Hb; change PAGEMAP_ADDRESSBITS with 48; lia).
    rewrite decide_False; [by apply (W9 d k1)|]. intros Hb'. apply Hne. by apply (blocks_disjoint h s _ W c k d k1 b).
  - intros r b Hr Hb. destruct (world_ranges h s _ W) as [_ Hrg]. destruct r as [r1 r2].
    destruct (Hrg r1 r2) as (Hr1 & Hr2 & Hr3); [apply elem_of_app; by right|].
    rewrite Hat by (unfold in_range in Hb; cbn in Hb; change PAGEMAP_ADDRESSBITS with 48; lia).
    rewrite decide_False; [by apply (W10 (r1, r2))|]. intros Hb'. by apply (block_outside h s _ W c k (r1, r2) b).
  - intros b Hbb. rewrite Hat by done. destruct (decide (in_block k b)) as [Hin|Hn]; [done|]. intros Hne.
    destruct (W11 b Hbb Hne) as [(d & k1 & Hd & Hb1)|]; [left|by right]. exists d, k1. split; [|done].
    rewrite lookup_delete_ne; [done|]. intros ->. apply Hn. by simplify_eq.
Qed.

Lemma block_free k live pl :
  chunk_ok k -> size_ok (extent k) -> extent k <= ponyint_pool_used_size (extent k) ->
  pool_live pl (object (extent k) (get_m k) :: live) ->
  exists pl', free_size pl (extent k) (get_m k) = Ret pl' /\ pool_live pl' live.
Proof.
  intros Hk Hs Hle Hl. apply free_size_law; [done|done|]. unfold aligned.
  destruct (chunk_extent k Hk) as ([q Hq] & Hpos & _).
  change POOL_ALIGN with 1024 in *. rewrite Z.min_r by lia. apply Hk.
Qed.

(** The chunk [c] was given back, and nothing else has changed. *)
Definition released (h : heap_t) (s : state) (c : Z) (extra : list Z) (s' : state) : Prop :=
  world h s' extra /\ chunks s' = delete c (chunks s) /\ heap s' = heap s /\ trace s' = trace s.

Lemma release_spec h s c k extra (bulk : bool) :
  world h s (c :: extra) -> chunks s !! c = Some k -> (bulk = false -> extent k = POOL_ALIGN) ->
  exists pm pl s', (if bulk then pagemap_set_bulk (pagemap s) (get_m k) NULL NULL (extent k)
                    else pagemap_set (pagemap s) (get_m k) NULL NULL) = Ret pm /\
    free_size (pool s) (extent k) (get_m k) = Ret pl /\
    free_chunk_t (mk_state pl pm (chunks s) (heap s) (trace s)) c = Ret s' /\ released h s c extra s'.
Proof.
  intros W Ek Hb. destruct (wo_chunks _ _ _ W c k Ek) as [Hk _].
  destruct (block_range h s _ W c k Ek) as (_ & Hm1 & Hm2 & Hm3 & Hm4).
  destruct (chunk_extent k Hk) as (He1 & He2 & _).
  destruct (pagemap_update_spec (pagemap s) (get_m k) NULL NULL (extent k) bulk) as (pm & E & Hpm & Hat);
    [apply (wo_pagemap _ _ _ W)|lia|done|apply Hk|done|change PAGEMAP_ADDRESSBITS with 48; lia|done|].
  destruct (block_free k (object sizeof_chunk_t c :: foots (delete c (chunks s)) ++ outside) (pool s) Hk Hm3 Hm4) as
    (pl & E' & Hpl).
  { eapply pool_live_perm;
      [|apply (wo_pool _ _ _ W)]. rewrite (foots_delete _ _ _ Ek). unfold foot. cbn [fst snd app].
    apply Permutation_swap. }
  destruct (free_chunk_spec h s _ c k extra pl pm W Ek Hpl Hpm Hat eq_refl) as (s' & E'' & H').
  by exists pm, pl, s'.
Qed.

Definition free_chunk (k : chunk_t) : Prop := v_fins (view k) = 0.

Lemma final_small_none s c k force :
  chunks s !! c = Some k -> get_chunk_is_small_chunk k = true -> finalisers k = 0 ->
  force = FORCE_NO_FINALISERS \/ force = FORCE_ALL_FINALISERS -> final_small actor uninit s c force = Ret s.
Proof.
  intros Ek Es Ef Hf. unfold final_small. rewrite (get_chunk_lookup _ _ _ Ek). cbn [mbind outcome_bind]. rewrite Es.
  cbn [negb].
  unfold final_mask. rewrite Ef, Z.land_0_l. by destruct Hf as [-> | ->].
Qed.

Lemma final_large_none s c k :
  chunks s !! c = Some k -> get_chunk_is_small_chunk k = false -> v_fins (view k) = 0 ->
    final_large actor uninit s c = Ret s.
Proof.
  intros Ek Es Ef. unfold final_large. rewrite (get_chunk_lookup _ _ _ Ek). cbn [mbind outcome_bind]. rewrite Es.
  destruct (get_large_flag_spec k Es) as (_ & _ & ->). cbn [mbind outcome_bind]. by rewrite Ef.
Qed.

(** A chunk whose objects have been finalised. *)
Lemma destroy_mixed_spec h s c k extra :
  world h s (c :: extra) -> chunks s !! c = Some k -> free_chunk k ->
  exists s', destroy_mixed actor uninit s c = Ret s' /\ released h s c extra s' /\
    (get_chunk_is_small_chunk k = false -> destroy_large actor uninit s c = Ret s').
Proof.
  intros W Ek Hf. unfold destroy_mixed. rewrite (get_chunk_lookup _ _ _ Ek). cbn [mbind outcome_bind].
  destruct (get_chunk_is_small_chunk k) eqn:Es.
  - assert (extent k = sizeof_block_t) as Ee by (unfold extent, v_extent; by rewrite view_small, Es).
    destruct (release_spec h s c k extra false W Ek) as (pm & pl & s' & E1 & E2 & E3 & Hr); [done|]. exists s'.
    split; [|done]. unfold destroy_small. rewrite (get_chunk_lookup _ _ _ Ek). cbn [mbind outcome_bind]. rewrite Es.
    cbn [negb].
    unfold free_chunk in Hf. rewrite (proj2 (proj2 (view_small_masks k Es))) in Hf.
    rewrite (final_small_none s c k) by (done || by right).
    cbn [mbind outcome_bind]. rewrite (get_chunk_lookup _ _ _ Ek). cbn [mbind outcome_bind].
    rewrite E1. cbn [mbind outcome_bind]. rewrite <- Ee, E2. done.
  - destruct (release_spec h s c k extra true W Ek) as (pm & pl & s' & E1 & E2 & E3 & Hr); [done|]. exists s'.
    assert (extent k = large_size k) as Ee by (unfold extent, v_extent; rewrite view_small, Es; unfold view;
      by rewrite Es).
    assert (destroy_large actor uninit s c = Ret s') as Ed; [|done].
    unfold destroy_large. rewrite (get_chunk_lookup _ _ _ Ek). cbn [mbind outcome_bind]. rewrite Es.
    rewrite (final_large_none s c k) by done. cbn [mbind outcome_bind]. rewrite (get_chunk_lookup _ _ _ Ek).
    cbn [mbind outcome_bind].
    rewrite <- Ee, E1. cbn [mbind outcome_bind].
    rewrite (proj2 (Z.eqb_neq (get_m k) NULL)) by (destruct (block_range h s _ W c k Ek); unfold NULL; lia).
    rewrite E2. done.
Qed.
End invariant.
