(* ===== verification/HeapAlloc.v ===== *)
(** * Allocation in a heap

    Each way to allocate takes a chunk from a list, or makes a new one, changes it and puts it
    on a list; the effect on the objects of the heap is the same for all of them. *)
From stdpp Require Import gmap.
From S2P Require Import Prelude Store Pool PageMap Chunk ChunkSort Heap HeapInv.
Local Open Scope Z_scope.
Local Open Scope c_scope.

Section allocation.
Context {P M : Type} `{PO : PoolOps P} `{PMO : PageMapOps M} `{FI : Finalisers}.
Context (actor : Z) (uninit : Z -> Z).
Context (outside : list range) (others : Z -> Z).

Abbreviation state := (state P M).
Abbreviation store := (gmap Z chunk_t).
Abbreviation world := (world (P:=P) (M:=M) outside others).

(** ** New chunks *)

(** A chunk without flags, on no list, that can become one of the size [size]: from a state in
    which its memory was unused, or that of a free chunk. *)
Record blank (h : heap_t) (s s' : state) (c size : Z) (extra : list Z) (k0 : chunk_t) : Prop := {
  bl_chunk : chunks s' !! c = Some k0;
  bl_m : is_u64 (m k0) /\ 0 < m k0 /\ (POOL_ALIGN | m k0);
  bl_masks : is_u32 (slots k0) /\ is_u32 (shallow k0) /\ is_u32 (finalisers k0);
  bl_other d : d <> c -> chunks s' !! d = chunks s !! d;
  bl_world k : chunk_ok k -> get_m k = m k0 -> extent k = size -> world h (set_chunk s' c k) (c :: extra)
}.

(** The chunk that [new_chunk] makes, once its fields are set. *)
Lemma new_chunk_spec h s extra size bulk :
  world h s extra -> (POOL_ALIGN | size) -> 0 < size -> is_u64 size -> (bulk = false -> size = POOL_ALIGN) ->
  or_oom (new_chunk actor uninit s size bulk) (fun '(s', c) =>
    (exists k0, blank h s s' c size extra k0) /\ heap s' = heap s /\ trace s' = trace s).
Proof.
  intros W Hsa Hs Hu Hb. unfold new_chunk. eapply or_oom_bind.
  { pose proof (alloc_size_law _ _ sizeof_chunk_t (wo_pool _ _ _ _ _ W) ltac:(done)) as Hc.
    instantiate (1 := fun '(pl, c) => pool_live pl (object sizeof_chunk_t c :: foots (chunks s) ++ outside) /\
                        aligned (ponyint_pool_used_size sizeof_chunk_t) c).
    destruct (alloc_size (pool s) sizeof_chunk_t) as [[pl c]| | |]; [|done..]. cbn. tauto. }
  intros [pl c] [Hlive Hca]. eapply or_oom_bind.
  { pose proof (alloc_size_law _ _ size Hlive Hu) as Hc.
    instantiate (1 := fun '(pl,
      m) => pool_live pl (object size m :: object sizeof_chunk_t c :: foots (chunks s) ++ outside) /\
                        aligned (ponyint_pool_used_size size) m).
    destruct (alloc_size pl size) as [[pl' m]| | |]; [|done..]. cbn. tauto. }
  clear pl Hlive. intros [pl a] [Hlive Haa].
  destruct (pool_live_ranges _ _ Hlive) as [Hdisj Hrange]. cbn [pairwise_disjoint] in Hdisj.
  destruct Hdisj as (Hda & Hdc & _). apply Forall_cons in Hda as [Hac Hda].
  destruct (Hrange a (ponyint_pool_used_size size)) as (Ha0 & _ & Hae); [left|].
  destruct (used_size_large size Hu) as [_ Hle]; [lia|].
  assert (POOL_ALIGN | a) as Hal.
  { unfold aligned in Haa. destruct Hsa as [q Hq]. change POOL_ALIGN with 1024 in *. by rewrite Z.min_r in Haa
      by lia. }
  destruct (pagemap_update_spec (pagemap s) a c actor size bulk) as (pm & E & Hpm & Hat); try done;
    [apply (wo_pagemap _ _ _ _ _ W)|lia|change PAGEMAP_ADDRESSBITS with 48; lia|].
  rewrite E. cbn [mbind outcome_bind or_oom]. clear E.
  set (k0 := mk_chunk _ _ _ _). split; [exists k0|done].
  assert (chunks s !! c = None) as Hfresh.
  { destruct (chunks s !! c) as [k|] eqn:Ec; [|done]. rewrite Forall_forall in Hdc.
    assert (object sizeof_chunk_t c ∈ foots (chunks s) ++ outside) as Hin
      by (apply elem_of_app; left; eapply foots_lookup; [exact Ec|left]).
    specialize (Hdc _ Hin).
    destruct (Hrange c (ponyint_pool_used_size sizeof_chunk_t)) as (_ & Hpos & _); [right; left|].
    unfold ranges_disjoint, object in Hdc. cbn in Hdc. lia. }
  assert (forall x, is_u32 (u32 x)) as Hu32 by (intros x; apply Z.mod_pos_bound; done).
  constructor; cbn [chunks m slots shallow finalisers k0];
    [by rewrite lookup_insert_eq|split_and!; [unfold is_u64; lia|lia|done]|
    split_and!; apply Hu32|intros d Hd; by rewrite lookup_insert_ne|].
  intros k Hk Em Ee. pose proof W as [W1 W2 W3 W4 W5 W6 W7 W8 W9 W10 W11].
  assert (forall b, in_block k b <-> a <= b < a + size) as Hblock by (intros b; unfold in_block; rewrite Em, Ee;
    done).
  assert (forall r b, r ∈ foots (chunks s) ++ outside -> in_range r b -> ~ a <= b < a + size) as Hout.
  { intros r b Hr Hbr Hba. rewrite Forall_forall in Hda. specialize (Hda r Hr).
    unfold ranges_disjoint, object, in_range in *. cbn in Hda. lia. }
  assert (forall d k1 b, chunks s !! d = Some k1 -> in_block k1 b -> ~ a <= b < a + size /\ 0 <= b < 2 ^ 48) as Hold.
  { intros d k1 b Hd Hb1. destruct (block_range _ _ h s extra W d k1 Hd) as (_ & Hm1 & Hm2 & _ & Hm3).
    unfold in_block in Hb1. split; [|lia].
    apply (Hout (object (extent k1) (get_m k1))); [|unfold in_range, object; cbn; lia].
    apply elem_of_app. left. eapply foots_lookup; [exact Hd|]. right; left. }
  constructor; cbn [set_chunk chunks pool pagemap]; try done; rewrite ?insert_insert_eq.
  - intros j l Hj. eapply chunk_in_agree; [by apply W4|]. intros d Hd. rewrite lookup_insert_ne; [done|]. intros <-.
    specialize (W4 j l Hj). rewrite Forall_forall in W4. destruct (W4 c Hd) as (k1 & Hk1 & _). congruence.
  - intros d k1. rewrite lookup_insert_Some. intros [[<- <-]|[_ Hd]]; [by split|by apply W5].
  - rewrite map_to_list_insert by done. cbn [fmap list_fmap fst]. rewrite <- W6. solve_perm.
  - eapply pool_live_perm; [|exact Hlive]. rewrite foots_insert by done. unfold foot. cbn [fst snd]. rewrite Em, Ee.
    cbn [app]. apply Permutation_swap.
  - intros d k1 b. rewrite lookup_insert_Some. intros [[<- <-]|[_ Hd]] Hb1.
    + rewrite Hblock in Hb1. rewrite Hat by (change PAGEMAP_ADDRESSBITS with 48; lia). by rewrite decide_True.
    + destruct (Hold d k1 b Hd Hb1) as [Hn Hr]. rewrite Hat by done. rewrite decide_False by done. by apply (W9 d k1).
  - intros r b Hr Hbr. assert (~ a <= b < a + size) as Hn by (apply (Hout r); [apply elem_of_app; by right|done]).
    rewrite Hat; [rewrite decide_False by done; by apply (W10 r)|].
    destruct r as [r1 r2]. destruct (Hrange r1 r2) as (H1 & H2 & H3); [right; right; apply elem_of_app; by right|].
    unfold in_range in Hbr. cbn in Hbr. change PAGEMAP_ADDRESSBITS with 48. lia.
  - intros b Hbb. rewrite Hat by done. destruct (decide (a <= b < a + size)) as [Hin|Hn].
    + intros _. left. exists c, k. by rewrite lookup_insert_eq, Hblock.
    + intros Hne. destruct (W11 b Hbb Hne) as [(d & k1 & Hd & Hb1)|]; [left|by right].
      exists d, k1. rewrite lookup_insert_ne by (intros <-; congruence). done.
Qed.

Lemma new_chunk_huge h s extra bulk :
  world h s extra -> or_oom (new_chunk actor uninit s (2 ^ 64 - 1) bulk) (fun _ => False).
Proof.
  intros W. unfold new_chunk.
  pose proof (alloc_size_law _ _ sizeof_chunk_t (wo_pool _ _ _ _ _ W) ltac:(done)) as Hc.
  destruct (alloc_size (pool s) sizeof_chunk_t) as [[pl c]| | |]; [|done..]. destruct Hc as (Hlive & _).
  cbn [mbind outcome_bind].
  pose proof (alloc_size_law _ _ (2 ^ 64 - 1) Hlive ltac:(done)) as Hc.
  destruct (alloc_size pl (2 ^ 64 - 1)) as [[pl' a]| | |]; [|done..]. destruct Hc as (Hlive' & _ & Hle).
  destruct (pool_live_ranges _ _ Hlive') as [_ Hr].
  destruct (Hr a (ponyint_pool_used_size (2 ^ 64 - 1))) as (H1 & _ & H2); [left|].
  lia.
Qed.

(** A change of a chunk that is on no list. *)
Lemma live_blank h s s' s2 c size extra k0 :
  blank h s s' c size extra k0 -> world h s2 (c :: extra) -> (forall d, d <> c -> chunks s2 !! d = chunks s' !! d) ->
  live h (chunks s2) = live h (chunks s).
Proof.
  intros B W Hd. apply live_agree. intros d Hin.
  assert (d <> c) as Hne.
  { intros ->. pose proof (owned_nodup _ _ _ _ _ W) as Hnd. apply NoDup_app in Hnd as (_ & Hn & _). apply (Hn c Hin).
      left. }
  by rewrite Hd, (bl_other _ _ _ _ _ _ _ B).
Qed.

(** ** Allocation *)

(** The object [o] was allocated; [n] is what the heap now counts as used. *)
Record placed (extra : list Z) (s s' : state) (o : heap_object) (n : Z) : Prop := {
  pl_world : world (heap s') s' extra;
  pl_live : live (heap s') (chunks s') ≡ₚ o :: live (heap s) (chunks s);
  pl_chunks c : c ∈ extra -> chunks s' !! c = chunks s !! c;
  pl_trace : trace s' = trace s;
  pl_used : used (heap s') = n;
  pl_next : next_gc (heap s') = next_gc (heap s)
}.

Lemma placed_add_used extra s s' o size :
  placed extra s s' o (used (heap s)) -> placed extra s (add_used s' size) o (used (heap s) ⊞ size).
Proof.
  intros [H1 H2 H3 H4 H5 H6]. constructor; try done.
  - eapply world_state; [exact H1|done..|]. by destruct (world_lists_ok _ _ _ _ _ H1).
  - cbn [add_used heap set_heap set_used used]. by rewrite H5.
Qed.

Lemma sizeclass_entry size :
  0 < size <= HEAP_MAX ->
    exists sc, ponyint_heap_index size = Ret sc /\ 0 <= sc < HEAP_SIZECLASSES /\ size <= SIZECLASS_SIZE sc.
Proof.
  change HEAP_MAX with 512. intros Hs. unfold ponyint_heap_index, sub64, shr64.
  rewrite u64_id by (unfold is_u64; lia).
  change HEAP_MINBITS with 5. rewrite Z.shiftr_div_pow2 by done. change (2 ^ 5) with 32.
  pose proof (Z.div_mod (size - 1) 32 ltac:(lia)) as Hd. pose proof (Z.mod_pos_bound (size - 1) 32 ltac:(lia)) as Hm.
  assert ((size - 1) / 32 ∈ seqZ 0 16) as Hin by (apply elem_of_seqZ; lia).
  assert (exists sc, entry sizeclass_table ((size - 1) / 32) = Ret sc /\ 0 <= sc < HEAP_SIZECLASSES /\
    ((size - 1) / 32 + 1) * 32 <= SIZECLASS_SIZE sc) as (sc & E & Hsc & Hle).
  { generalize dependent ((size - 1) / 32). intros q _ Hin. clear -Hin. revert q Hin.
    assert (Forall (fun q => exists sc, entry sizeclass_table q = Ret sc /\ 0 <= sc < HEAP_SIZECLASSES /\
      (q + 1) * 32 <= SIZECLASS_SIZE sc)
              (seqZ 0 16)) as HF by (repeat constructor; eexists; (split; [reflexivity|done])).
    by apply Forall_forall. }
  exists sc. split_and!; [done|lia|lia|lia].
Qed.

(** A chunk is changed, and put on a list. *)
Lemma push_chunk h h' s c k j l extra :
  world h s (c :: extra) -> chunks s !! c = Some k -> lists h !! j = Some l -> lists h' = <[j := c :: l]> (lists h) ->
  lists_ok h' -> fits j k -> world h' s extra.
Proof. intros W Ek Ej El Hl Hf. eapply world_push; [exact W|exact Ej|exact El|done|]. by exists k. Qed.

Section take.
Context (s : state) (extra : list Z) (sc mask c : Z) (next : list Z).
Context (W : world (heap s) s extra) (Hsc : 0 <= sc < HEAP_SIZECLASSES) (Ht : track_ok mask).

Lemma take_small k :
  small_free (heap s) !! Z.to_nat sc = Some (c :: next) -> chunks s !! c = Some k ->
  let k' := (take_slot k mask).1 in let s' := set_chunk s c k' in
  exists full, small_full (heap s) !! Z.to_nat sc = Some full /\
  placed extra s
    (if slots k' =? 0 then
       set_heap s' (set_small_full (set_small_free (heap s) sc next) sc (c :: full))
     else s') (mk_object (take_slot k mask).2 (SIZECLASS_SIZE sc) (tracked mask)) (used (heap s)).
Proof.
  intros Ef Ek k' s'. change HEAP_SIZECLASSES with 5 in Hsc. pose proof (world_lists_ok _ _ _ _ _ W) as Hl.
  set (j := Z.to_nat sc) in *. assert (j < 5)%nat as Hj by lia.
  assert (lists (heap s) !! j = Some (c :: next)) as Ej by (by rewrite lists_lookup_free).
  destruct (lists_set_free (heap s) Hl sc next Hsc) as [El1 Hl1]. fold j in El1.
  set (h1 := set_small_free (heap s) sc next) in *.
  destruct (world_pop _ _ _ _ _ _ _ _ _ W Ej El1 Hl1) as [W1 (q & Eq & Hfits)].
  rewrite Ek in Eq. injection Eq as <-.
  unfold fits in Hfits. rewrite (proj2 (Nat.ltb_lt j 5)) in Hfits by done.
  destruct Hfits as (Es & Ecl & Hs & Hm & Hd). destruct (wo_chunks _ _ _ _ _ W c k Ek) as [Hk _].
  destruct (take_slot_spec k mask Hk Es Hm Hs Ht) as (k2 & i & E & Hk2 & Hm2 & Ho & Ev & _).
  unfold s', k'. clear s' k'. rewrite E. cbn [fst snd].
  assert (get_chunk_is_small_chunk k2 = true) as Es2 by (rewrite <- view_small, Ev; cbn; by rewrite view_small).
  assert (get_m k2 = get_m k) as Em by (rewrite <- !view_base, Ev; done).
  assert (extent k2 = extent k) as Ee by (unfold extent; by rewrite Ev).
  assert (class k2 = class k /\ v_unit (view k) = SIZECLASS_SIZE sc) as [Ecl2 Eu].
  { assert (v_unit (view k) = SIZECLASS_SIZE sc) as Eu
      by (unfold view; rewrite Es; cbn [v_unit]; rewrite Ecl; unfold j; by rewrite Z2Nat.id by lia).
    split; [|done]. rewrite Ecl. apply (class_unit k2); [done|lia|]. rewrite Ev. cbn. rewrite Eu. unfold j.
    by rewrite Z2Nat.id by lia. }
  rewrite Eu in Ho. pose proof (world_update _ _ _ _ _ _ k2 _ W1 Ek Hk2 Em Ee) as W2.
  assert (chunks (set_chunk s c k2) !! c = Some k2) as Ek2 by (apply lookup_insert_eq).
  assert (lists (heap s) !! (5 + j)%nat = small_full (heap s) !! j) as Efull by (by apply lists_lookup_full).
  assert (is_Some (small_full (heap s) !! j)) as [full Hfull] by (apply lookup_lt_is_Some; rewrite (lo_full _ Hl);
    lia).
  exists full. split; [done|]. rewrite Hfull in Efull.
  assert (forall d, d ∈ extra -> chunks (set_chunk s c k2) !! d = chunks s !! d) as Hextra.
  { intros d Hd'. cbn. rewrite lookup_insert_ne; [done|]. intros <-. by apply (extra_elem _ _ _ _ _ _ W1). }
  assert (forall ls, live h1 (chunks (set_chunk s c k2)) ≡ₚ ls -> objects (view k2) ++ ls ≡ₚ
            mk_object (get_m k + 32 * i) (SIZECLASS_SIZE sc) (tracked mask) :: live (heap s) (chunks s)) as Hlive.
  { intros ls <-. cbn [chunks set_chunk]. rewrite (live_update _ _ _ _ _ _ _ W1), Ho,
      (live_pop _ h1 _ j c k next Ej El1 Ek).
    by rewrite (proj2 (Nat.ltb_lt j RECYCLABLE)) by (unfold RECYCLABLE; lia). }
  destruct (Z.eqb_spec (slots k2) 0) as [E0|E0].
  - destruct (lists_set_full h1 Hl1 sc (c :: full) Hsc) as [El2 Hl2]. fold j in El2.
    assert (lists h1 !! (5 + j)%nat = Some full) as Ej2 by (rewrite El1, list_lookup_insert_ne by lia; done).
    constructor; cbn [heap set_heap trace chunks]; try done.
    + apply world_set_heap. eapply push_chunk; [exact W2|exact Ek2|exact Ej2|exact El2|done|].
      unfold fits. rewrite (proj2 (Nat.ltb_ge (5 + j) 5)) by lia.
      rewrite (proj2 (Nat.ltb_lt (5 + j) LARGE)) by (unfold LARGE; lia).
      replace (5 + j - 5)%nat with j by lia. rewrite Ecl2. split_and!; [done..|by rewrite Ev].
    + rewrite (live_push h1 _ _ (5 + j)%nat c k2 full Ej2 El2 Ek2).
      rewrite (proj2 (Nat.ltb_lt (5 + j) RECYCLABLE)) by (unfold RECYCLABLE; lia). by apply Hlive.
  - assert (lists (heap s) = <[j := c :: next]> (lists h1)) as El2
      by (by rewrite El1, list_insert_insert_eq, list_insert_id).
    assert (lists h1 !! j = Some next) as Ej2 by (rewrite El1; apply list_lookup_insert_eq; by eapply lookup_lt_Some).
    constructor; try done.
    + eapply push_chunk; [exact W2|exact Ek2|exact Ej2|exact El2|done|].
      unfold fits. rewrite (proj2 (Nat.ltb_lt j 5)) by lia. rewrite Ecl2. split_and!; [done..|by rewrite Ev].
    + cbn [heap set_chunk]. rewrite (live_push h1 _ _ j c k2 next Ej2 El2 Ek2).
      rewrite (proj2 (Nat.ltb_lt j RECYCLABLE)) by (unfold RECYCLABLE; lia). by apply Hlive.
Qed.
End take.

Lemma recycle_extent k i : chunk_ok k -> recycle_class k = i -> (i < 3)%nat ->
  extent k = Z.shiftl HEAP_RECYCLE_MIXED_SIZE (Z.of_nat i).
Proof.
  intros Hk <- Hi. unfold recycle_class, extent, v_extent in *. rewrite view_small.
  destruct (get_chunk_is_small_chunk k) eqn:E; [done|]. unfold view. rewrite E. cbn [v_unit].
  unfold heap_recycle_index, HEAP_RECYCLE_LARGE_OVERFLOW, HEAP_RECYCLE_SIZECLASSES, HEAP_RECYCLE_MIXED,
    HEAP_RECYCLE_MIXED_SIZE in *.
  revert Hi. repeat match goal with |- context [?x =? ?y] => destruct (Z.eqb_spec x y) as [->|] end; cbn; done || lia.
Qed.

(** A free chunk, with its flags and the size of its object set anew. *)
Lemma blank_recycled h h' s c k k0 j next extra :
  world h s extra -> lists h !! (RECYCLABLE + j)%nat = Some (c :: next) ->
    lists h' = <[(RECYCLABLE + j)%nat := next]> (lists h) ->
  lists_ok h' -> chunks s !! c = Some k -> (j < 3)%nat -> m k0 = get_m k ->
  is_u32 (slots k0) /\ is_u32 (shallow k0) /\ is_u32 (finalisers k0) ->
  blank h' s (set_chunk (set_heap s h') c k0) c (Z.shiftl HEAP_RECYCLE_MIXED_SIZE (Z.of_nat j)) extra k0.
Proof.
  intros W Ej El Hl Ek Hj Em Hu. destruct (world_pop _ _ _ _ _ _ _ _ _ W Ej El Hl) as [W1 (k1 & Ek1 & Hfits)].
  rewrite Ek in Ek1. injection Ek1 as <-. destruct (wo_chunks _ _ _ _ _ W c k Ek) as [Hk _].
  assert (extent k = Z.shiftl HEAP_RECYCLE_MIXED_SIZE (Z.of_nat j)) as Ee.
  { apply recycle_extent; [done| |done]. unfold fits in Hfits. unfold RECYCLABLE, LARGE in *.
    rewrite (proj2 (Nat.ltb_ge _ 5)), (proj2 (Nat.ltb_ge _ 10)), (proj2 (Nat.eqb_neq _ 10)) in Hfits by lia.
    destruct Hfits as [_ ->]. lia. }
  constructor; cbn [set_chunk set_heap chunks]; [apply lookup_insert_eq| |done| |].
  - rewrite Em. destruct Hk as [H1 H2 H3 _ _ _ _]. split_and!; [|done|done]. by apply land_range.
  - intros d Hd. by rewrite lookup_insert_ne.
  - intros q Hq Emq Eq. assert (world h' (set_chunk (set_heap s h') c q) (c :: extra)) as W2.
    { apply (world_update _ _ h' (set_heap s h') c k q extra);
        [by apply world_set_heap|done|done|congruence|congruence]. }
    eapply world_state; [exact W2|done|done| |done|done]. cbn. by rewrite insert_insert_eq.
Qed.

(** The chunk becomes a small one, with one object. *)
Lemma place_small s s' c k0 extra h sc mask :
  world (heap s) s extra -> 0 <= sc < HEAP_SIZECLASSES -> track_ok mask ->
  blank h s s' c sizeof_block_t extra k0 -> heap s' = h -> lists_ok h -> trace s' = trace s ->
  used h = used (heap s) -> next_gc h = next_gc (heap s) -> live h (chunks s) ≡ₚ live (heap s) (chunks s) ->
  lists h !! Z.to_nat sc = Some [] ->
  exists k, init_small k0 sc mask = Ret k /\
    placed extra s (set_heap (set_chunk s' c k) (set_small_free h sc [c]))
      (mk_object (get_m k) (SIZECLASS_SIZE sc) (tracked mask)) (used (heap s)).
Proof.
  intros W Hsc Ht B Eh Hl Etr Eu En Elive Ej. change HEAP_SIZECLASSES with 5 in Hsc.
  destruct (bl_m _ _ _ _ _ _ _ B) as (Hm1 & Hm2 & Hm3). destruct (bl_masks _ _ _ _ _ _ _ B) as (Hu1 & Hu2 & Hu3).
  destruct (init_small_spec k0 Hm1 Hm2 Hm3 Hu1 Hu2 Hu3 sc mask Hsc Ht) as (k & ->
    & Hk & Hmk & Es & Em & Hd & Ea & Eun & Hs & Ho).
  exists k. split; [done|].
  assert (v_extent (view k) = sizeof_block_t) as Ee by (unfold v_extent; by rewrite view_small, Es).
  pose proof (bl_world _ _ _ _ _ _ _ B k Hk Em Ee) as W2.
  assert (chunks (set_chunk s' c k) !! c = Some k) as Ek2 by (apply lookup_insert_eq).
  destruct (lists_set_free h Hl sc [c] Hsc) as [El2 Hl2]. set (j := Z.to_nat sc) in *.
  assert ((j <? 5)%nat = true) as Hj by (apply Nat.ltb_lt; unfold j; lia).
  assert (class k = sc) as Ecl by (apply class_unit; [done|lia|done]).
  constructor; cbn [heap set_heap trace chunks]; try done.
  - apply world_set_heap. eapply push_chunk; [exact W2|exact Ek2|exact Ej|exact El2|done|].
    unfold fits. rewrite Hj. split_and!; [done| |done|done|done]. rewrite Ecl. unfold j. lia.
  - rewrite (live_push h _ _ j c k [] Ej El2 Ek2).
    rewrite (proj2 (Nat.ltb_lt j RECYCLABLE)) by (unfold RECYCLABLE, j; lia).
    rewrite (live_blank _ _ _ _ _ _ _ _ B W2), Ho, Elive by (intros d Hne; cbn; by rewrite lookup_insert_ne).
    rewrite Em. done.
  - intros d Hd'. cbn. assert (d <> c) as Hne by (intros ->; by apply (extra_elem _ _ _ _ _ _ W2)).
    rewrite lookup_insert_ne by done. by apply (bl_other _ _ _ _ _ _ _ B).
Qed.

Lemma list_at_lookup a i l : a !! Z.to_nat i = Some l -> list_at a i = Ret l.
Proof. intros E. unfold list_at. by rewrite E. Qed.

Lemma nth_list (a : list (list Z)) n i : List.length a = n -> (i < n)%nat -> exists l, a !! i = Some l.
Proof. intros <- Hi. by apply lookup_lt_is_Some in Hi as [l Hl]; exists l. Qed.

Lemma track_mask_spec mask : track_ok mask -> track_mask_ok mask = true.
Proof. by intros [-> | ->]. Qed.

(** The result of an allocation. *)
Definition placed_at (extra : list Z) (s : state) (size mask : Z) (r : state * Z) : Prop :=
  placed extra s r.1 (mk_object r.2 size (tracked mask)) (used (heap s) ⊞ size).

(** The end of the allocation in a new small chunk. *)
Lemma place_small_end s s' c k0 extra h sc mask :
  world (heap s) s extra -> 0 <= sc < HEAP_SIZECLASSES -> track_ok mask ->
  blank h s s' c sizeof_block_t extra k0 -> heap s' = h -> lists_ok h -> trace s' = trace s ->
  used h = used (heap s) -> next_gc h = next_gc (heap s) -> live h (chunks s) ≡ₚ live (heap s) (chunks s) ->
  lists h !! Z.to_nat sc = Some [] ->
  or_oom ('(s, m) ← (k ← get_chunk s' c;
          if m k =? NULL then Abort
          else
            k ← init_small k sc mask;
            let s := set_chunk s' c k in
            Ret (set_heap s (set_small_free (heap s) sc [c]), get_m k));
          Ret (add_used s (SIZECLASS_SIZE sc), m)) (placed_at extra s (SIZECLASS_SIZE sc) mask).
Proof.
  intros W Hsc Ht B Eh Hl Etr Eu En Elive Ej.
  rewrite (get_chunk_lookup _ _ _ (bl_chunk _ _ _ _ _ _ _ B)). cbn [mbind outcome_bind].
  rewrite (proj2 (Z.eqb_neq (m k0) NULL)) by (pose proof (bl_m _ _ _ _ _ _ _ B); unfold NULL; lia).
  destruct (place_small s s' c k0 extra h sc mask W Hsc Ht B Eh Hl Etr Eu En Elive Ej) as (k & -> & Hp).
  cbn [mbind outcome_bind or_oom]. cbn [set_chunk heap]. rewrite Eh. by apply placed_add_used.
Qed.

Lemma alloc_small_spec s extra sc mask :
  world (heap s) s extra -> 0 <= sc < HEAP_SIZECLASSES -> track_ok mask ->
  or_oom (ponyint_heap_alloc_small actor uninit s sc mask) (placed_at extra s (SIZECLASS_SIZE sc) mask).
Proof.
  intros W Hsc Ht. unfold ponyint_heap_alloc_small. rewrite track_mask_spec by done. cbn [negb].
  change HEAP_SIZECLASSES with 5 in *. pose proof (world_lists_ok _ _ _ _ _ W) as Hl.
  destruct (nth_list (small_free (heap s)) 5 (Z.to_nat sc) (lo_free _ Hl) ltac:(lia)) as [free Ef].
  rewrite (list_at_lookup _ _ _ Ef). cbn [mbind outcome_bind].
  destruct free as [|c next].
  - destruct (nth_list (recyclable (heap s)) 4 0 (lo_recyclable _ Hl) ltac:(lia)) as [mixed Em].
    rewrite (list_at_lookup _ HEAP_RECYCLE_MIXED _ Em). cbn [mbind outcome_bind].
    assert (lists (heap s) !! Z.to_nat sc = Some []) as Ej by (by rewrite lists_lookup_free by (done || lia)).
    destruct mixed as [|c next].
    + eapply or_oom_bind.
      * eapply (or_oom_bind _ _ _ (fun r => placed_at extra s (SIZECLASS_SIZE sc) mask (add_used r.1 (SIZECLASS_SIZE
          sc), r.2))).
        -- apply (new_chunk_spec (heap s) s extra sizeof_block_t false W); [by exists 1|done|done|done].
        -- intros [s' c] ([k0 B] & Eh & Et).
           pose proof (place_small_end s s' c k0 extra (heap s) sc mask W Hsc Ht B Eh Hl Et eq_refl eq_refl
             (Permutation_refl _) Ej) as Hp.
           destruct (k ← get_chunk s' c; _) as [[s2 p]| | |]; done.
      * by intros [s' p] Hp.
    + assert (lists (heap s) !! RECYCLABLE = Some (c :: next)) as Er.
      { replace RECYCLABLE with (RECYCLABLE + 0)%nat by done. by rewrite lists_lookup_recyclable. }
      pose proof (wo_fits _ _ _ _ _ W _ _ Er) as Hc. apply Forall_cons in Hc as [(k & Ek & _) _].
      rewrite (get_chunk_lookup _ _ _ Ek). cbn [mbind outcome_bind].
      destruct (lists_set_recyclable (heap s) Hl 0 next ltac:(lia)) as [El1 Hl1].
      destruct (wo_chunks _ _ _ _ _ W c k Ek) as [Hk _].
      pose proof (blank_recycled (heap s) _ s c k (clear_chunk_flags k) 0 next extra W Er El1 Hl1 Ek ltac:(lia)
        eq_refl) as B.
      eapply (place_small_end s _ c (clear_chunk_flags k) extra _ sc mask W Hsc Ht);
        [apply B|done|done|done|done|done| |].
      * destruct Hk. done.
      * rewrite (live_pop (heap s) _ _ _ _ _ _ Er El1 Ek). done.
      * rewrite El1, list_lookup_insert_ne by (unfold RECYCLABLE; lia). done.
  - pose proof (wo_fits _ _ _ _ _ W (Z.to_nat sc) (c :: next)) as Hc.
    rewrite lists_lookup_free in Hc by (done || lia).
    specialize (Hc Ef). apply Forall_cons in Hc as [(k & Ek & _) _].
    destruct (take_small s extra sc mask c next W Hsc Ht k Ef Ek) as (full & Efull & Hp).
    rewrite (get_chunk_lookup _ _ _ Ek). cbn [mbind outcome_bind].
    destruct (take_slot k mask) as [k' p]. cbn [fst snd] in *.
    destruct (slots k' =? 0).
    + cbn [heap set_chunk]. rewrite (list_at_lookup _ _ _ Efull). cbn [mbind outcome_bind or_oom].
      by apply placed_add_used.
    + cbn [mbind outcome_bind or_oom]. by apply placed_add_used.
Qed.

(** The chunk [c] is a large one of the size [size], on no list. *)
Record held (extra : list Z) (s s' : state) (c size : Z) : Prop := {
  he_chunk : exists k, chunks s' !! c = Some k /\ chunk_ok k /\ get_chunk_is_small_chunk k = false /\
    large_size k = size;
  he_world : world (heap s') s' (c :: extra);
  he_live : live (heap s') (chunks s') ≡ₚ live (heap s) (chunks s);
  he_chunks d : d ∈ extra -> chunks s' !! d = chunks s !! d;
  he_trace : trace s' = trace s;
  he_used : used (heap s') = used (heap s);
  he_next : next_gc (heap s') = next_gc (heap s)
}.

Lemma set_large_size_spec k size :
  is_u64 (m k) /\ 0 < m k /\ (POOL_ALIGN | m k) -> is_u32 (finalisers k) -> (POOL_ALIGN | size) -> 0 < size ->
    is_u64 size ->
  let k' := set_large_size k size in
  chunk_ok k' /\ get_chunk_is_small_chunk k' = false /\ large_size k' = size /\ get_m k' = m k /\ extent k' = size.
Proof.
  intros (Hm1 & Hm2 & Hm3) Hf Hs Hpos Hu k'. pose proof (block_base (m k) Hm1 Hm3) as Eb.
  assert (get_chunk_is_small_chunk k' = false) as Es.
  { unfold get_chunk_is_small_chunk. cbn [k' set_large_size m]. change CHUNK_TYPE_BITMASK with 1.
    by rewrite (block_flags (m k) 1 Hm3). }
  assert (large_size k' = size) as El.
  { unfold large_size. cbn [k' set_large_size slots shallow]. unfold shr64, u32, wrap. unfold is_u64 in Hu.
    rewrite Z.shiftr_div_pow2, Z.shiftl_mul_pow2 by done. rewrite (Z.mod_small (size / 2 ^ 32)).
    - pose proof (Z.div_mod size (2 ^ 32)). lia.
    - split; [apply Z.div_pos; lia|]. apply Z.div_lt_upper_bound; lia. }
  assert (get_m k' = m k) as Em by done.
  assert (forall x, is_u32 (u32 x)) as Hu32 by (intros x; by apply Z.mod_pos_bound).
  split_and!; try done.
  - constructor; rewrite ?Em, ?Es, ?El; try done; apply Hu32.
  - unfold extent, v_extent. rewrite view_small, Es. unfold view. rewrite Es. cbn [v_unit]. done.
Qed.

Lemma blank_held h s s' c size extra k0 k :
  blank h s s' c size extra k0 -> heap s' = h -> lists_ok h -> trace s' = trace s ->
    live h (chunks s) ≡ₚ live (heap s) (chunks s) ->
  used h = used (heap s) -> next_gc h = next_gc (heap s) ->
  chunk_ok k /\ get_chunk_is_small_chunk k = false /\ large_size k = size /\ get_m k = m k0 /\ extent k = size ->
  held extra s (set_chunk s' c k) c size.
Proof.
  intros B Eh Hl Et Elive Eu En (Hk & Es & El & Em & Ee). pose proof (bl_world _ _ _ _ _ _ _ B k Hk Em Ee) as W2.
  constructor; cbn [set_chunk chunks heap trace]; rewrite ?Eh; try done.
  - exists k. by rewrite lookup_insert_eq.
  - rewrite <- Elive, <- (live_blank _ _ _ _ _ _ _ _ B W2); [done|]. intros d Hd. cbn. by rewrite lookup_insert_ne.
  - intros d Hd. assert (d <> c) as Hne by (intros ->; by apply (extra_elem _ _ _ _ _ _ W2)).
    rewrite lookup_insert_ne by done. by apply (bl_other _ _ _ _ _ _ _ B).
Qed.

Lemma recycle_loop_spec (s : state) size l :
  Forall (fun c => is_Some (chunks s !! c)) l ->
  exists r, recycle_loop s size l = Ret r /\
    if r is Some (c, rest) then
      (exists k, chunks s !! c = Some k /\ large_size k = size) /\ l ≡ₚ c :: rest
    else True.
Proof.
  induction 1 as [|c l [k Ek] _ IH]; [by exists None|]. cbn [recycle_loop]. rewrite (get_chunk_lookup _ _ _ Ek).
  cbn [mbind outcome_bind].
  destruct (large_size k <=? size); [|by exists None]. destruct (Z.eqb_spec (large_size k) size) as [E|_].
  - exists (Some (c, l)). split; [done|]. split; [by exists k|done].
  - destruct IH as (r & -> & Hr). cbn [mbind outcome_bind]. destruct r as [[f rest]|]; [|by exists None].
    eexists. split; [done|]. destruct Hr as [Hf Hp]. split; [done|]. rewrite Hp. apply Permutation_swap.
Qed.

Lemma recycle_index_cases size :
  HEAP_RECYCLE_MIXED_SIZE <= size ->
  (HEAP_RECYCLE_LARGE_OVERFLOW <= heap_recycle_index size /\ HEAP_RECYCLE_MIXED_SIZE < size) \/
  exists i : nat, (i < 3)%nat /\ heap_recycle_index size = Z.of_nat i /\
    size = Z.shiftl HEAP_RECYCLE_MIXED_SIZE (Z.of_nat i).
Proof.
  intros Hs.
  unfold heap_recycle_index, HEAP_RECYCLE_LARGE_OVERFLOW, HEAP_RECYCLE_SIZECLASSES, HEAP_RECYCLE_MIXED,
    HEAP_RECYCLE_MIXED_SIZE in *.
  destruct (Z.eqb_spec size 1024) as [->|]; [right; exists 0%nat; split_and!; [lia|done|done]|].
  destruct (Z.eqb_spec size (Z.shiftl 1024 1)) as [->|]; [right; exists 1%nat; split_and!; [lia|done|done]|].
  destruct (Z.eqb_spec size (Z.shiftl 1024 2)) as [->|]; [right; exists 2%nat; split_and!; [lia|done|done]|]. left.
  repeat match goal with |- context [?x =? ?y] => destruct (x =? y) end; lia.
Qed.

Lemma large_fits (k : chunk_t) j :
  fits (RECYCLABLE + j) k <-> v_fins (view k) = 0 /\ recycle_class k = j.
Proof.
  unfold fits, RECYCLABLE, LARGE.
  rewrite (proj2 (Nat.ltb_ge _ 5)), (proj2 (Nat.ltb_ge _ 10)), (proj2 (Nat.eqb_neq _ 10)) by lia.
  by replace (11 + j - 11)%nat with j by lia.
Qed.

Lemma chunk_in_dom ch j l : Forall (chunk_in ch j) l -> Forall (fun c => is_Some (ch !! c)) l.
Proof. intros Hf. eapply Forall_impl; [exact Hf|]. intros c (k & Ek & _). by exists k. Qed.

(** Taking a chunk from the list of the largest ones. *)
Lemma recycle_overflow s extra size recycle :
  world (heap s) s extra -> HEAP_RECYCLE_MIXED_SIZE < size -> recyclable (heap s) !! 3%nat = Some recycle ->
  exists found, recycle_loop s size recycle = Ret found /\
    if found is Some (c, rest) then
      held extra s (set_heap s (set_recyclable (heap s) HEAP_RECYCLE_LARGE_OVERFLOW rest)) c size
    else True.
Proof.
  intros W Hs Er. pose proof (world_lists_ok _ _ _ _ _ W) as Hl.
  assert (lists (heap s) !! (RECYCLABLE + 3)%nat = Some recycle) as Ej by (by rewrite lists_lookup_recyclable).
  pose proof (wo_fits _ _ _ _ _ W _ _ Ej) as Hf.
  destruct (recycle_loop_spec s size recycle (chunk_in_dom _ _ _ Hf)) as (found & -> & Hfound). exists found.
  split; [done|].
  destruct found as [[c rest]|]; [|done]. destruct Hfound as [(k & Ek & Esz) Hp].
  assert (Forall (chunk_in (chunks s) (RECYCLABLE + 3)) rest) as Hrest by (rewrite Hp in Hf;
    by apply Forall_cons in Hf as [_ Hf]).
  assert (fits (RECYCLABLE + 3) k) as Hfit.
  { rewrite Hp in Hf. apply Forall_cons in Hf as [(q & Eq & Hq) _]. by simplify_eq. }
  destruct (lists_set_recyclable (heap s) Hl HEAP_RECYCLE_LARGE_OVERFLOW rest ltac:(done)) as [El1 Hl1].
  apply large_fits in Hfit as [_ Hcl].
  assert (get_chunk_is_small_chunk k = false) as Es by (unfold recycle_class in Hcl;
    by destruct (get_chunk_is_small_chunk k)).
  constructor; cbn [set_heap heap chunks trace]; try done.
  - exists k. split_and!; try done. by destruct (wo_chunks _ _ _ _ _ W c k Ek).
  - apply world_set_heap. eapply world_set; [exact W|exact Ej|exact El1|done|done|].
    rewrite Hp. cbn [app]. by rewrite Permutation_middle.
  - pose proof (live_set (heap s) _ (chunks s) _ _ _ Ej El1) as Hlive. cbn in Hlive. by rewrite !app_nil_r in Hlive.
Qed.

(** Taking the first of a list of chunks of one size. *)
Lemma recycle_exact s extra i c next :
  world (heap s) s extra -> (i < 3)%nat -> recyclable (heap s) !! i = Some (c :: next) ->
  let size := Z.shiftl HEAP_RECYCLE_MIXED_SIZE (Z.of_nat i) in
  exists k, chunks s !! c = Some k /\
    held extra s (set_chunk (set_heap s (set_recyclable (heap s) (Z.of_nat i) next)) c
                    (set_large_size (clear_chunk_flags k) size)) c size.
Proof.
  intros W Hi Er size. pose proof (world_lists_ok _ _ _ _ _ W) as Hl.
  assert (lists (heap s) !! (RECYCLABLE + i)%nat = Some (c :: next)) as Ej by (by rewrite lists_lookup_recyclable).
  pose proof (wo_fits _ _ _ _ _ W _ _ Ej) as Hf. apply Forall_cons in Hf as [(k & Ek & _) _]. exists k.
  split; [done|].
  destruct (lists_set_recyclable (heap s) Hl (Z.of_nat i) next ltac:(lia)) as [El1 Hl1]. rewrite Nat2Z.id in El1.
  destruct (wo_chunks _ _ _ _ _ W c k Ek) as [Hk _]. set (k' := set_large_size _ _).
  assert (is_u64 size /\ (POOL_ALIGN | size) /\ 0 < size) as (Hu & Hd & Hpos).
  { assert (i = 0 \/ i = 1 \/ i = 2)%nat as [->|[->| ->]] by lia; (split_and!; [done| |done]);
      [by exists 1|by exists 2|by exists 4]. }
  assert (is_u32 (u32 size) /\ is_u32 (u32 (size >>! 32))) as [Hu1 Hu2] by (split; by apply Z.mod_pos_bound).
  pose proof (blank_recycled (heap s) _ s c k k' i next extra W Ej El1 Hl1 Ek Hi eq_refl
                (conj Hu1 (conj Hu2 (co_fins _ Hk)))) as B.
  destruct (bl_m _ _ _ _ _ _ _ B) as (Hm1 & Hm2 & Hm3).
  assert (k' = set_large_size k' size) as Ek' by done.
  pose proof (set_large_size_spec k' size (bl_m _ _ _ _ _ _ _ B) (co_fins _ Hk) Hd Hpos Hu) as Hspec.
  cbv zeta in Hspec.
  rewrite <- Ek' in Hspec.
  pose proof (blank_held _ s _ c size extra k' k' B eq_refl Hl1 eq_refl) as Hheld.
  assert (set_chunk (set_chunk (set_heap s (set_recyclable (heap s) (Z.of_nat i) next)) c k') c k' =
          set_chunk (set_heap s (set_recyclable (heap s) (Z.of_nat i) next)) c k') as <-
    by (unfold set_chunk; cbn; by rewrite insert_insert_eq).
  apply Hheld; [|done|done|done].
  pose proof (live_set (heap s) _ (chunks s) _ _ _ Ej El1) as Hlive.
  rewrite (proj2 (Nat.ltb_ge _ _)) in Hlive by lia. by rewrite !app_nil_r in Hlive.
Qed.

Lemma recycle_large_spec s extra size :
  world (heap s) s extra -> HEAP_RECYCLE_MIXED_SIZE <= size ->
  exists s' found, recycle_large s size = Ret (s', found) /\
    if found is Some c then held extra s s' c size else s' = s.
Proof.
  intros W Hs. pose proof (world_lists_ok _ _ _ _ _ W) as Hl. unfold recycle_large.
  destruct (recycle_index_cases size Hs) as [[Hov Hlt]|(i & Hi & -> & Esz)].
  - rewrite (proj2 (Z.leb_le _ _)) by done.
    destruct (nth_list (recyclable (heap s)) 4 3 (lo_recyclable _ Hl) ltac:(lia)) as [recycle Er].
    rewrite (list_at_lookup _ HEAP_RECYCLE_LARGE_OVERFLOW _ Er). cbn [mbind outcome_bind].
    destruct (recycle_overflow s extra size recycle W Hlt Er) as (found & E & Hfound).
    destruct recycle as [|c recycle]; [by exists s, None|].
    rewrite (proj2 (Z.leb_gt _ _)) by done. rewrite E. cbn [mbind outcome_bind].
    destruct found as [[d rest]|]; [|by exists s, None]. by eexists _, (Some d).
  - change HEAP_RECYCLE_LARGE_OVERFLOW with 3. rewrite (proj2 (Z.leb_gt _ _)) by lia.
    match goal with |- context [if ?b then _ else Abort] => assert (b = true) as -> end.
    { rewrite Esz. assert (i = 0 \/ i = 1 \/ i = 2)%nat as [->|[->| ->]] by lia; done. }
    destruct (nth_list (recyclable (heap s)) 4 i (lo_recyclable _ Hl) ltac:(lia)) as [recycle Er].
    rewrite (list_at_lookup _ (Z.of_nat i) recycle) by (by rewrite Nat2Z.id). cbn [mbind outcome_bind].
    destruct recycle as [|c next]; [by exists s, None|].
    destruct (recycle_exact s extra i c next W Hi Er) as (k & Ek & Hheld). rewrite <- Esz in Hheld.
    rewrite (get_chunk_lookup _ _ _ Ek). cbn [mbind outcome_bind]. by eexists _, (Some c).
Qed.

(** The end of the allocation of a large object. *)
Lemma place_large s s' c size mask extra :
  held extra s s' c size -> 0 < size -> track_ok mask ->
  exists k k', chunks s' !! c = Some k /\ m k <> NULL /\ large_size k = size /\ init_large k mask = Ret k' /\
    large_size k' = size /\
    placed extra s (set_heap (set_chunk s' c k') (set_large (heap s') (c :: large (heap s'))))
      (mk_object (get_m k') size (tracked mask)) (used (heap s)).
Proof.
  intros [(k & Ek & Hk & Es & El) W Hlive Hch Htr Hused Hnext] Hpos Ht. exists k.
  destruct (init_large_spec k mask Hk Es Ht) as (k' & E & Hk' & Hm' & Es' & Em & El' & Hd & Hs & Ho). exists k'.
  assert (extent k' = extent k) as Ee.
  { unfold extent, v_extent. rewrite !view_small, Es, Es'. unfold view. by rewrite Es, Es'. }
  pose proof (world_update _ _ _ _ _ _ k' _ W Ek Hk' Em Ee) as W2. pose proof (world_lists_ok _ _ _ _ _ W) as Hl.
  destruct (lists_set_large (heap s') Hl (c :: large (heap s'))) as [El1 Hl1].
  pose proof (lists_lookup_large (heap s') Hl) as Ej.
  assert (chunks (set_chunk s' c k') !! c = Some k') as Ek' by (apply lookup_insert_eq).
  split_and!; [done| |done|done|congruence|].
  { intros H0. pose proof (co_base _ Hk) as Hb. unfold get_m in Hb. rewrite H0 in Hb. done. }
  constructor; cbn [set_heap heap trace]; try done.
  - apply world_set_heap. eapply push_chunk; [exact W2|exact Ek'|exact Ej|exact El1|done|]. done.
  - rewrite (live_push (heap s') _ _ LARGE c k' _ Ej El1 Ek'). cbn [Nat.ltb Nat.leb LARGE RECYCLABLE set_heap chunks].
    rewrite Ho, Em, El. cbn [set_chunk chunks]. rewrite (live_update _ _ _ _ _ _ _ W), Hlive. done.
  - intros d Hd'. cbn. assert (d <> c) as Hne by (intros ->; by apply (extra_elem _ _ _ _ _ _ W)).
    rewrite lookup_insert_ne by done. by apply Hch.
Qed.

Lemma alloc_large_spec s extra size mask :
  world (heap s) s extra -> is_u64 size -> HEAP_MAX < size -> track_ok mask ->
  or_oom (ponyint_heap_alloc_large actor uninit s size mask)
    (fun r => size <= ponyint_pool_adjust_size size /\ placed_at extra s (ponyint_pool_adjust_size size) mask r).
Proof.
  intros W Hu Hs Ht. unfold ponyint_heap_alloc_large. rewrite track_mask_spec by done. cbn [negb].
  pose proof (adjust_size_spec size Hu) as Hadj. change POOL_ALIGN with 1024 in Hadj. change HEAP_MAX with 512 in Hs.
  assert (size <= ponyint_pool_adjust_size size /\
    HEAP_RECYCLE_MIXED_SIZE <= ponyint_pool_adjust_size size) as [Hle Hge].
  { destruct (decide _) as [Hc|Hc]; [|rewrite Hadj; unfold is_u64, HEAP_RECYCLE_MIXED_SIZE in *; lia].
    destruct Hadj as [[q Hq] Hb]. unfold HEAP_RECYCLE_MIXED_SIZE. lia. }
  destruct (recycle_large_spec s extra _ W Hge) as (s1 & found & -> & Hfound). cbn [mbind outcome_bind].
  apply (or_oom_bind _ _ (fun r => held extra s r.1 r.2 (ponyint_pool_adjust_size size))).
  - destruct found as [c|]; [done|]. subst s1.
    destruct (decide _) as [Hc|Hc].
    + destruct Hadj as [Hd Hb]. assert (is_u64 (ponyint_pool_adjust_size size)) as Hu'.
      { unfold is_u64 in *. destruct Hd as [q Hq]. lia. }
      eapply or_oom_bind;
        [apply (new_chunk_spec (heap s) s extra _ true W Hd); [unfold HEAP_RECYCLE_MIXED_SIZE in Hge;
          lia|done|done]|].
      intros [s' c] ([k0 B] & Eh & Et). rewrite (get_chunk_lookup _ _ _ (bl_chunk _ _ _ _ _ _ _ B)).
      cbn [mbind outcome_bind or_oom fst snd].
      eapply blank_held; [exact B|done|by eapply world_lists_ok|done|done|done|done|].
      apply set_large_size_spec; [apply (bl_m _ _ _ _ _ _ _ B)|apply (bl_masks _ _ _ _ _ _ _ B)|done| |done].
      unfold HEAP_RECYCLE_MIXED_SIZE in Hge. lia.
    + rewrite Hadj. eapply or_oom_bind; [by eapply new_chunk_huge|done].
  - intros [s2 c] Hheld. cbn [fst snd] in Hheld.
    destruct (place_large s s2 c _ mask extra Hheld) as (k & k' & Ek & Hm & El & E & El' & Hp);
      [unfold HEAP_RECYCLE_MIXED_SIZE in Hge; lia|done|].
    rewrite (get_chunk_lookup _ _ _ Ek). cbn [mbind outcome_bind]. rewrite (proj2 (Z.eqb_neq _ _)) by done.
    rewrite El, Z.eqb_refl. cbn [negb orb]. rewrite E. cbn [mbind outcome_bind or_oom]. split; [done|].
    unfold placed_at. cbn [fst snd]. rewrite El'. by apply placed_add_used.
Qed.

(** ** What the program observes *)

Definition allocs (tr : list event) : list heap_object := omap (fun e => if e is Allocated o then Some o else None) tr.
Definition finals (tr : list event) : list Z := omap (fun e => if e is Finalised p then Some p else None) tr.

(** Allocations, and calls of finalisers, when the chunks [extra] are on no list; the chunks
    [same] do not change. *)
Record grows (extra same : list Z) (s s' : state) (new : list heap_object) (fins : list Z) : Prop := {
  gr_world : world (heap s') s' extra;
  gr_live : live (heap s') (chunks s') ≡ₚ new ++ live (heap s) (chunks s);
  gr_chunks c : c ∈ same -> chunks s' !! c = chunks s !! c;
  gr_trace : exists tr, trace s' = trace s ++ tr /\ allocs tr = new /\ finals tr = fins;
  gr_used : u64 (used (heap s')) = u64 (used (heap s) + sizes new);
  gr_next : next_gc (heap s') = next_gc (heap s)
}.

Lemma grows_refl extra same s : world (heap s) s extra -> grows extra same s s [] [].
Proof. intros W. constructor; [done|done|done| |cbn; f_equal; lia|done]. exists []. by rewrite app_nil_r. Qed.

Lemma sizes_app l l' : sizes (l ++ l') = sizes l + sizes l'.
Proof. unfold sizes. induction l as [|o l IH]; cbn in *; lia. Qed.

Lemma sizes_perm l l' : l ≡ₚ l' -> sizes l = sizes l'.
Proof. unfold sizes. induction 1; cbn in *; lia. Qed.

Lemma u64_add_l a b c d : u64 a = u64 (b + c) -> u64 (a + d) = u64 (b + (c + d)).
Proof. unfold u64, wrap. intros E. rewrite <- Z.add_mod_idemp_l, E, Z.add_mod_idemp_l by done. f_equal. lia. Qed.

Lemma grows_trans extra same s1 s2 s3 new new' fins fins' :
  grows extra same s1 s2 new fins -> grows extra same s2 s3 new' fins' ->
    grows extra same s1 s3 (new ++ new') (fins ++ fins').
Proof.
  intros [W1 L1 C1 (t1 & E1 & <- & <-) U1 N1] [W2 L2 C2 (t2 & E2 & <- & <-) U2 N2]. constructor.
  - done.
  - rewrite L2, L1. solve_perm.
  - intros c Hc. by rewrite C2, C1.
  - exists (t1 ++ t2). unfold allocs, finals. by rewrite E2, E1, !omap_app, app_assoc.
  - rewrite U2, sizes_app. by apply u64_add_l.
  - congruence.
Qed.

(** Steps that neither allocate nor finalise. *)
Lemma grows_after extra same s1 s2 s3 new fins :
  grows extra same s1 s2 new fins -> grows extra same s2 s3 [] [] -> grows extra same s1 s3 new fins.
Proof. intros H1 H2. rewrite <- (app_nil_r new), <- (app_nil_r fins). by eapply grows_trans. Qed.

Lemma grows_before extra same s1 s2 s3 new fins :
  grows extra same s1 s2 [] [] -> grows extra same s2 s3 new fins -> grows extra same s1 s3 new fins.
Proof. apply (grows_trans _ _ _ _ _ [] _ []). Qed.

Lemma grows_weaken extra extra' same same' s s' new fins :
  extra ≡ₚ extra' -> (forall c, c ∈ same' -> c ∈ same) -> grows extra same s s' new fins ->
    grows extra' same' s s' new fins.
Proof. intros He Hs [W L C T U N]. constructor; try done; [by eapply world_extra|]. intros c Hc. by apply C, Hs. Qed.

Lemma placed_grows extra s s' o n :
  placed extra s s' o n -> n = used (heap s) ⊞ o_size o -> grows extra extra s (add_event s' (Allocated o)) [o] [].
Proof.
  intros [W L C T U N] ->. constructor; cbn [add_event heap chunks trace]; try done.
  - eapply world_state; [exact W|done..|by eapply world_lists_ok].
  - exists [Allocated o]. by rewrite T.
  - rewrite U. unfold add64, sizes. cbn [foldr]. rewrite Z.add_0_r. apply u64_id, u64_range.
Qed.

(** An allocation: it fails only when the system has no memory, and gives an object of at least
    the requested size. *)
Lemma alloc_spec s extra size mask :
  world (heap s) s extra -> is_u64 size -> track_ok mask ->
  or_oom (ponyint_heap_alloc actor uninit s size mask) (fun '(s', p) =>
    if size =? 0 then s' = s /\ p = NULL
    else exists n, size <= n /\ grows extra extra s s' [mk_object p n (tracked mask)] []).
Proof.
  intros W Hu Ht. unfold ponyint_heap_alloc. rewrite track_mask_spec by done. cbn [negb].
  destruct (Z.eqb_spec size 0) as [->|H0]; [done|].
  apply (or_oom_bind _ _ (fun '(s', p, n) => size <= n /\ placed_at extra s n mask (s', p))).
  - destruct (Z.leb_spec size HEAP_MAX) as [Hle|Hgt].
    + destruct (sizeclass_entry size) as (sc & -> & Hsc & Hsz); [unfold is_u64 in Hu; lia|]. cbn [mbind outcome_bind].
      eapply or_oom_bind; [by apply (alloc_small_spec s extra sc mask W)|]. by intros [s' p].
    + eapply or_oom_bind; [by apply (alloc_large_spec s extra size mask W)|]. by intros [s' p].
  - intros [[s' p] n] [Hn Hp]. cbn [or_oom]. exists n. split; [done|]. by eapply placed_grows.
Qed.

Lemma sub64_id x y : is_u64 x -> 0 <= y <= x -> x ⊟ y = x - y.
Proof. intros Hx Hy. unfold sub64. apply u64_id. unfold is_u64 in *. lia. Qed.

(** Reallocation from inside an object: what is left of it is copied, up to [copy] bytes. *)
Lemma realloc_spec s extra o p size copy :
  world (heap s) s extra -> is_u64 size -> 0 <= copy <= size -> o ∈ live (heap s) (chunks s) ->
    in_range (o_range o) p ->
  or_oom (ponyint_heap_realloc actor uninit s p size copy) (fun '(s', q, n) =>
    n = Z.min copy (o_addr o + o_size o - p) /\
    if size =? 0 then s' = s /\ q = NULL
    else exists m, size <= m /\ grows extra extra s s' [mk_object q m false] []).
Proof.
  intros W Hu Hcp Ho Hp.
  destruct (live_located _ _ _ _ _ _ _ W Ho Hp) as (c & k & i & Eget & Hc & _ & Ek & Hk & Hslot & Hpu & _ & ->).
  destruct (live_range _ _ _ _ _ _ W Ho) as (Hr1 & Hr2 & Hr3).
  unfold ponyint_heap_realloc. unfold in_range, o_range in Hp. cbn [slot_object o_addr o_size fst snd] in *.
  rewrite (proj2 (Z.eqb_neq p NULL)) by (unfold NULL; lia). rewrite Eget. cbn [mbind outcome_bind].
  rewrite (proj2 (Z.eqb_neq c NULL)) by done. rewrite (get_chunk_lookup _ _ _ Ek). cbn [mbind outcome_bind].
  set (rest := v_base (view k) + 32 * i + v_unit (view k) - p) in *.
  match goal with |- or_oom (?x ≫= _) _ => assert (x = Ret rest) as -> end.
  { destruct (get_chunk_is_small_chunk k) eqn:Es.
    - rewrite small_size_spec by done. cbn [mbind outcome_bind].
      destruct (slot_address k i p Hk Es Hpu Hslot) as [-> _].
      rewrite <- view_base. assert (v_unit (view k) = SIZECLASS_SIZE (class k)) as <- by (unfold view; by rewrite Es).
      rewrite (sub64_id p) by (done || lia). rewrite sub64_id by (unfold is_u64; lia). f_equal. lia.
    - destruct (view_cases k Hk) as [(_ & ? & _)|(_ & _ & Ea & _)]; [congruence|].
      assert (i = 0) as ->.
      { destruct Hslot as (Hi & Ha & _). rewrite Ea in Ha. destruct (decide (i = 0));
          [done|]. by rewrite (testbit_high 1) in Ha by lia. }
      rewrite <- view_base. assert (v_unit (view k) = large_size k) as <- by (unfold view; by rewrite Es).
      rewrite (sub64_id p) by (done || lia). rewrite sub64_id by (unfold is_u64; lia). f_equal. lia. }
  cbn [mbind outcome_bind]. rewrite (proj2 (Z.ltb_ge size copy)) by lia.
  assert ((if copy <? rest then copy else rest) = Z.min copy rest) as -> by (destruct (Z.ltb_spec copy rest); lia).
  eapply or_oom_bind; [apply (alloc_spec s extra size TRACK_NO_FINALISERS W Hu); by left|].
  intros [s' q] H. cbn [or_oom]. by split.
Qed.
End allocation.
