(* ===== verification/HeapSweep.v ===== *)
(** * The sweep of a heap

    The chunks of a heap that is collected are taken from its lists first: the finalisers that
    run during the sweep allocate in chunks of their own.  What the marks, the sweep of a chunk
    and the finalisers do to the objects is put together for all chunks; then the chunks that
    finalisers have made are merged in, and free chunks are given back. *)
From stdpp Require Import gmap.
From S2P Require Import Prelude Store Pool PageMap Chunk ChunkSort Heap HeapInv HeapAlloc.
Local Open Scope Z_scope.
Local Open Scope c_scope.

Section collection.
Context {P M : Type} `{PO : PoolOps P} `{PMO : PageMapOps M} `{FI : Finalisers}.
Context (actor : Z) (uninit : Z -> Z).
Context (outside : list range) (others : Z -> Z).

Abbreviation state := (state P M).
Abbreviation store := (gmap Z chunk_t).
Abbreviation world := (world (P:=P) (M:=M) outside others).
Abbreviation grows := (grows (P:=P) (M:=M) outside others).

(** A finaliser makes at most [F] allocations. *)
Context (F : nat) (HF : forall tr p, (List.length (allocations tr p) <= F)%nat).

(** ** Finalisers *)

(** At most [F] objects for each finaliser that was called. *)
Definition few (new : list heap_object) (fins : list Z) : Prop := (List.length new <= F * List.length fins)%nat.

Lemma few_nil fins : few [] fins.
Proof. unfold few. cbn. lia. Qed.

Lemma few_app new fins new' fins' : few new fins -> few new' fins' -> few (new ++ new') (fins ++ fins').
Proof. unfold few. rewrite !length_app. lia. Qed.

Lemma run_allocations_spec extra requests s :
  world (heap s) s extra -> (forall n mask, (n, mask) ∈ requests -> is_u64 n /\ track_ok mask) ->
  or_oom (foldO (fun s '(size, mask) => '(s, _) ← ponyint_heap_alloc actor uninit s size mask; Ret s) s requests)
    (fun s' => exists new, grows extra extra s s' new [] /\ (List.length new <= List.length requests)%nat).
Proof.
  revert s.
  induction requests as [|[n mask] requests IH]; intros s W Hr; [exists []; split; [by apply grows_refl|done]|].
  cbn [foldO]. destruct (Hr n mask) as [Hn Hm]; [left|].
  eapply (or_oom_bind _ _ (fun s' => exists new, grows extra extra s s' new [] /\ (List.length new <= 1)%nat)).
  - eapply or_oom_bind; [by apply (alloc_spec actor uninit outside others s extra n mask)|].
    intros [s' p] Ha. cbn [or_oom]. destruct (n =? 0).
    + destruct Ha as [-> _]. exists []. split; [by apply grows_refl|cbn; lia].
    + destruct Ha as (k & _ & Hg). by eexists.
  - intros s' (new & Hg & Hlen). eapply or_oom_mono; [apply IH; [apply Hg|]|].
    + intros n' mask' Hin. apply Hr. by right.
    + intros s2 (new' & Hg' & Hlen'). exists (new ++ new').
      split; [by apply (grows_trans _ _ _ _ _ _ _ _ _ [] [] Hg Hg')|].
      rewrite length_app. cbn. lia.
Qed.

Lemma run_finaliser_spec extra s p :
  world (heap s) s extra ->
  or_oom (run_finaliser actor uninit s p) (fun s' => exists new, grows extra extra s s' new [p] /\ few new [p]).
Proof.
  intros W. unfold run_finaliser.
  assert (world (heap s) (add_event s (Finalised p)) extra) as W1 by (eapply world_state;
    [exact W|done..|by eapply world_lists_ok]).
  eapply or_oom_mono;
    [apply (run_allocations_spec extra _ (add_event s (Finalised p)) W1); intros n mask; apply allocations_law|].
  intros s' (new & Hg & Hlen). exists new. split.
  - destruct Hg as [W2 L C (tr & T & <- & Hfin) U N]. constructor; try done.
    exists (Finalised p :: tr). rewrite T. cbn [add_event trace]. unfold finals in *. cbn [allocs omap list_omap].
    split_and!; [by rewrite <- app_assoc|done|]. cbn. by rewrite Hfin.
  - unfold few. cbn [List.length]. pose proof (HF (trace s) p). lia.
Qed.

Lemma final_loop_spec extra fuel s base fin :
  world (heap s) s extra -> is_u32 fin -> (List.length (bits fin) <= fuel)%nat -> 0 <= base ->
    base + 1024 <= 2 ^ 48 ->
  or_oom (final_loop actor uninit fuel s base fin) (fun s' =>
    let fins := (fun i => base + 32 * i) <$> bits fin in
    exists new, grows extra extra s s' new fins /\ few new fins).
Proof.
  revert s fin. induction fuel as [|fuel IH]; intros s fin W Hf Hlen Hb1 Hb2; cbn [final_loop];
    (destruct (Z.eqb_spec fin 0) as [->|Hne]; [exists []; split; [by apply grows_refl|unfold few; cbn; lia]|]);
    (destruct (bits_step fin) as (E & Hlt & Hc); [unfold is_u32 in Hf; lia|]); rewrite E in Hlen;
      cbn [List.length] in Hlen; [lia|].
  assert (base ⊞ Z.shiftl (ctz fin) HEAP_MINBITS = base + 32 * ctz fin) as ->.
  { change HEAP_MINBITS with 5. rewrite Z.shiftl_mul_pow2 by done. unfold add64. rewrite u64_id by (unfold is_u64;
      lia). lia. }
  eapply or_oom_bind; [by apply (run_finaliser_spec extra s)|]. intros s1 (new & Hg & Hn).
  eapply or_oom_mono; [apply IH; [apply Hg|unfold is_u32 in *; lia|lia|done|done]|].
  intros s2 (new' & Hg' & Hn'). rewrite E. cbn [fmap list_fmap]. exists (new ++ new').
  split; [by apply (grows_trans _ _ _ _ _ _ _ _ _ [_] _ Hg Hg')|by apply (few_app _ [_])].
Qed.

Lemma objects_of_addresses v mask : o_addr <$> objects_of v mask = (fun i => v_base v + 32 * i) <$> bits mask.
Proof. unfold objects_of. by rewrite <- list_fmap_compose. Qed.

Lemma bits_length x : (List.length (bits x) <= 32)%nat.
Proof. unfold bits. etrans; [apply length_filter|]. by rewrite length_seqZ. Qed.

Definition forced (force : Z) : Prop := force = FORCE_NO_FINALISERS \/ force = FORCE_ALL_FINALISERS.

(** The chunk [c], which is on no list, becomes [k'], and the finalisers [fins] run. *)
Record finalised (extra : list Z) (s s' : state) (c : Z) (k' : chunk_t) (new : list heap_object) (fins : list Z) :
  Prop
  := {
  fi_grows : grows (c :: extra) extra s s' new fins;
  fi_few : few new fins;
  fi_chunk : chunks s' !! c = Some k';
  fi_ok : chunk_ok k'
}.

Lemma grows_set_chunk extra same s c k k' :
  world (heap s) s (c :: extra) -> chunks s !! c = Some k -> chunk_ok k' -> get_m k' = get_m k ->
    extent k' = extent k ->
  (forall d, d ∈ same -> d ∈ extra) -> grows (c :: extra) same s (set_chunk s c k') [] [].
Proof.
  intros W Ek Hk' Em Ee Hs. pose proof (world_update _ _ _ _ _ _ k' _ W Ek Hk' Em Ee) as W'.
  constructor; cbn [set_chunk heap chunks trace]; try done.
  - by rewrite (live_update _ _ _ _ _ _ _ W).
  - intros d Hd. rewrite lookup_insert_ne; [done|]. intros <-. by apply (extra_elem _ _ _ _ _ _ W), Hs.
  - exists []. by rewrite app_nil_r.
  - cbn. f_equal. lia.
Qed.

Lemma changes_same a b f :
  changes a b f -> v_base (f (view a)) = v_base (view a) -> v_extent (f (view a)) = v_extent (view a) ->
  get_m b = get_m a /\ extent b = extent a.
Proof. intros [_ E] Hb He. unfold extent. by rewrite <- !view_base, E. Qed.

Lemma final_small_spec extra s c k force :
  world (heap s) s (c :: extra) -> chunks s !! c = Some k -> get_chunk_is_small_chunk k = true -> forced force ->
  or_oom (final_small actor uninit s c force) (fun s' =>
    exists new k', finalised extra s s' c k' new (o_addr <$> objects_of (view k) (final_mask k force)) /\
      k' = if final_mask k force =? 0 then k else unset_finalisers k force).
Proof.
  intros W Ek Es Hf. destruct (wo_chunks _ _ _ _ _ W c k Ek) as [Hk _]. pose proof (co_fins _ Hk) as Hu.
  unfold final_small. rewrite (get_chunk_lookup _ _ _ Ek). cbn [mbind outcome_bind]. rewrite Es. cbn [negb].
  assert (((force =? FORCE_NO_FINALISERS) || (force =? FORCE_ALL_FINALISERS)) = true) as ->
    by by destruct Hf as [-> | ->].
  cbn [negb]. destruct (Z.eqb_spec (final_mask k force) 0) as [E0|Hne].
  { cbn [or_oom]. rewrite E0. exists [], k. split; [|done]. constructor;
      [by apply grows_refl|apply few_nil|done|done]. }
  assert (is_u32 (final_mask k force) /\ is_u32 (Z.land (finalisers k) (not32 (Z.lor (slots k) force)))) as [Hu1 Hu2].
  { unfold final_mask. split; apply land_u32; try done; [|by apply Z.mod_pos_bound].
    apply Z.lor_nonneg. split; [apply Hk|by destruct Hf as [-> | ->]]. }
  destruct (set_masks_spec k Hk _ Es Hu2) as (_ & _ & Hch).
  destruct (changes_same _ _ _ Hch eq_refl eq_refl) as [Em Ee].
  assert (chunk_ok (unset_finalisers k force)) as Hk' by apply Hch.
  pose proof (grows_set_chunk extra extra s c k _ W Ek Hk' Em Ee (fun _ H => H)) as Hg1.
  destruct (block_range _ _ _ s _ W c k Ek) as (_ & Hm1 & Hm2 & _ & Hm3).
  assert (extent k = 1024) as Ee' by (unfold extent, v_extent; by rewrite view_small, Es).
  eapply or_oom_mono; [apply (final_loop_spec (c :: extra) 32 (set_chunk s c (unset_finalisers k force)));
    [apply Hg1|done|apply bits_length|lia|lia]|].
  intros s' (new & Hg2 & Hfew). exists new, (unset_finalisers k force). split; [|done].
  rewrite objects_of_addresses, view_base. constructor.
  - eapply grows_before; [exact Hg1|]. eapply grows_weaken; [done| |exact Hg2]. intros d Hd. by right.
  - done.
  - rewrite (gr_chunks _ _ _ _ _ _ _ _ Hg2) by left. apply lookup_insert_eq.
  - done.
Qed.

Lemma final_large_spec extra s c k :
  world (heap s) s (c :: extra) -> chunks s !! c = Some k -> get_chunk_is_small_chunk k = false ->
  or_oom (final_large actor uninit s c) (fun s' =>
    exists new k', finalised extra s s' c k' new (o_addr <$> objects_of (view k) (v_fins (view k))) /\
      view k' = v_set_fins (view k) 0).
Proof.
  intros W Ek Es. destruct (wo_chunks _ _ _ _ _ W c k Ek) as [Hk _].
  unfold final_large. rewrite (get_chunk_lookup _ _ _ Ek). cbn [mbind outcome_bind]. rewrite Es.
  destruct (get_large_flag_spec k Es) as (_ & _ & ->). cbn [mbind outcome_bind].
  assert (exists b, v_fins (view k) = bool_to_u64 b) as [b Eb] by (unfold view; rewrite Es; by eexists).
  rewrite Eb. destruct b; cbn [bool_to_u64 Z.eqb].
  - eapply or_oom_bind; [by apply (run_finaliser_spec (c :: extra))|]. intros s1 (new & Hg & Hfew).
    assert (chunks s1 !! c = Some k) as Ek1 by (rewrite (gr_chunks _ _ _ _ _ _ _ _ Hg) by left; done).
    rewrite (get_chunk_lookup _ _ _ Ek1). cbn [mbind outcome_bind].
    destruct (set_large_flag_spec k Hk 0 Es) as (_ & _ & (k' & -> & Hch)). cbn [mbind outcome_bind or_oom].
    destruct (changes_same _ _ _ Hch eq_refl eq_refl) as [Em Ee].
    pose proof (grows_set_chunk extra extra s1 c k k' (gr_world _ _ _ _ _ _ _ _ Hg) Ek1 (proj1 Hch) Em Ee (fun _ H =>
      H)) as Hg2.
    exists new, k'. split; [|by rewrite (proj2 Hch)].
    rewrite objects_of_addresses, view_base. change (bits 1) with [0]. cbn [fmap list_fmap]. rewrite Z.add_0_r.
    constructor; [|done|apply lookup_insert_eq|apply Hch].
    eapply grows_after; [|exact Hg2].
    eapply grows_weaken; [done| |exact Hg]. intros d Hd. by right.
  - exists [], k. split; [constructor; [by apply grows_refl|apply few_nil|done|done]|].
    unfold v_set_fins. destruct (view k); cbn in *. by rewrite Eb.
Qed.

(** ** The sweep of a chunk

    The chunks before the collection, and the marks. *)
Section sweep.
Context (ch0 : store) (ext int : gset Z).

Definition marked (o : heap_object) : Prop := o_addr o ∈ ext ∪ int.

#[export] Instance marked_dec o : Decision (marked o).
Proof. unfold marked. apply _. Defined.

Definition kept (l : list Z) : list heap_object := filter marked (objs ch0 l).
Definition dead (l : list Z) : list Z := o_addr <$> filter (fun o => o_final o = true /\ ~ marked o) (objs ch0 l).

Lemma kept_app l l' : kept (l ++ l') = kept l ++ kept l'.
Proof. unfold kept. by rewrite objs_app, filter_app. Qed.

Lemma dead_app l l' : dead (l ++ l') = dead l ++ dead l'.
Proof. unfold dead. by rewrite objs_app, filter_app, fmap_app. Qed.

(** A chunk that was marked, and has not been swept. *)
Record ready (s : state) (c : Z) (k0 k : chunk_t) : Prop := {
  rd_old : ch0 !! c = Some k0;
  rd_chunk : chunks s !! c = Some k;
  rd_ok : chunk_ok k;
  rd_masks : masks_ok (view k0);
  rd_live i : 0 <= i -> Z.testbit (v_all (view k0)) i = true -> v_base (view k0) + 32 * i ∈ ext ∪ int ->
    Z.testbit (v_slots (view k0)) i = false;
  rd_marks : marks (view k0) (view k) ext int
}.

(** A chunk that was swept: its objects are those that were marked. *)
Record swept (s : state) (c : Z) (k0 k' : chunk_t) : Prop := {
  sw_old : ch0 !! c = Some k0;
  sw_chunk : chunks s !! c = Some k';
  sw_ok : chunk_ok k';
  sw_masks : masks_ok (view k');
  sw_dirty : v_dirty (view k') = true;
  sw_small : get_chunk_is_small_chunk k' = get_chunk_is_small_chunk k0;
  sw_block : get_m k' = get_m k0 /\ extent k' = extent k0;
  sw_shape : v_unit (view k') = v_unit (view k0) /\ v_all (view k') = v_all (view k0);
  sw_objects : objects (view k') = kept [c]
}.

Definition all_swept (s : state) (l : list Z) : Prop := Forall (fun c => exists k0 k', swept s c k0 k') l.

Lemma kept_single c k0 : ch0 !! c = Some k0 -> kept [c] = filter marked (objects (view k0)).
Proof. intros E. unfold kept. by rewrite (objs_singleton _ _ _ E). Qed.

Lemma objs_swept s l : all_swept s l -> objs (chunks s) l = kept l.
Proof.
  induction 1 as [|c l (k0 & k' & H) _ IH]; [done|].
  rewrite (objs_cons _ _ _ _ (sw_chunk _ _ _ _ H)), IH, (sw_objects _ _ _ _ H).
  by rewrite <- kept_app.
Qed.

Lemma swept_agree s s' c k0 k' : swept s c k0 k' -> chunks s' !! c = chunks s !! c -> swept s' c k0 k'.
Proof. intros [] E. constructor; try done. by rewrite E. Qed.

Lemma all_swept_agree s s' l : all_swept s l -> (forall c, c ∈ l -> chunks s' !! c = chunks s !! c) -> all_swept s' l.
Proof.
  unfold all_swept. rewrite !Forall_forall. intros Hs Ha c Hc. destruct (Hs c Hc) as (k0 & k' & H).
  exists k0, k'. eapply swept_agree; [done|by apply Ha].
Qed.

Lemma ready_agree s s' c k0 k : ready s c k0 k -> chunks s' !! c = chunks s !! c -> ready s' c k0 k.
Proof. intros [] E. constructor; try done. by rewrite E. Qed.

(** The chunk once it was swept, and its finalisers have run. *)
Lemma swept_chunk s s' c k0 k k' :
  ready s c k0 k -> chunks s' !! c = Some k' -> chunk_ok k' -> view k' = v_finalised (v_swept (view k)) ->
    swept s' c k0 k'.
Proof.
  intros [H1 H2 H3 H4 H5 H6] Ek Hk Ev. destruct (swept_same _ _ _ _ H6) as (S1 & S2 & S3 & S4 & S5 & S6).
  assert (get_chunk_is_small_chunk k' = get_chunk_is_small_chunk k0) as Es by (rewrite <- !view_small, Ev; apply S1).
  constructor; try done.
  - rewrite Ev. by eapply swept_masks.
  - by rewrite Ev.
  - split; [by rewrite <- !view_base, Ev|]. unfold extent, v_extent. rewrite !view_small, Es, Ev.
    cbn [v_finalised v_set_fins v_unit]. by rewrite S3.
  - rewrite Ev. split; [apply S3|apply S4].
  - rewrite Ev, (kept_single _ _ H1). by eapply swept_objects.
Qed.

(** The finalisers that the sweep of a chunk runs. *)
Lemma swept_dead s c k0 k :
  ready s c k0 k -> o_addr <$> objects_of (v_swept (view k)) (Z.land (v_fins (v_swept (view k))) (v_slots (v_swept
    (view k)))) = dead [c].
Proof.
  intros [H1 H2 H3 H4 H5 H6]. destruct (swept_same _ _ _ _ H6) as (S1 & S2 & S3 & S4 & S5 & S6).
  unfold dead. rewrite (objs_singleton _ _ _ H1).
  etrans;
    [|apply (f_equal (fmap o_addr)); etrans; [exact (swept_finalised _ _ _ _ H6 H4 H5)|by apply list_filter_iff]].
  by rewrite !objects_of_addresses, S2, S5.
Qed.

Lemma finalised_nothing v : Z.land (v_fins v) (v_slots v) = 0 -> v_finalised v = v.
Proof.
  intros E. unfold v_finalised. assert (Z.ldiff (v_fins v) (v_slots v) = v_fins v) as ->; [|by destruct v].
  by_bits i Hi. apply (f_equal (fun x => Z.testbit x i)) in E. rewrite Z.land_spec, Z.bits_0 in E.
  rewrite Z.ldiff_spec by done.
  by destruct (Z.testbit (v_fins v) i), (Z.testbit (v_slots v) i).
Qed.

Lemma swept_world s c k1 extra k :
  world (heap s) s (c :: extra) -> chunks s !! c = Some k -> changes k k1 v_swept ->
  grows (c :: extra) extra s (set_chunk s c k1) [] [].
Proof.
  intros W Ek Hch.
  assert (v_base (v_swept (view k)) = v_base (view k) /\ v_extent (v_swept (view k)) = v_extent (view k)) as [Hb He].
  { destruct (clear_same (view k)) as (C1 & C2 & C3 & _). unfold v_swept, v_extent. cbn. by rewrite C1, C2, C3. }
  destruct (changes_same _ _ _ Hch Hb He) as [Em Ee].
  by apply (grows_set_chunk extra extra s c k k1 W Ek (proj1 Hch)).
Qed.

Section small.
Context (s : state) (extra : list Z) (c : Z) (k0 k : chunk_t).
Context (W : world (heap s) s (c :: extra)) (R : ready s c k0 k) (Es0 : get_chunk_is_small_chunk k0 = true).

(** What is known of a small chunk after its sweep. *)
Record small_swept (s' : state) (k1 k' : chunk_t) (new : list heap_object) : Prop := {
  ss_grows : grows (c :: extra) extra s s' new (dead [c]);
  ss_few : few new (dead [c]);
  ss_swept : swept s' c k0 k';
  ss_slots : slots k' = slots k1;
  ss_class : class k' = class k0
}.

Lemma swept_class s' k' : swept s' c k0 k' -> class k' = class k0 /\ v_all (view k') = class_mask (class k0).
Proof.
  intros H. pose proof (sw_small _ _ _ _ H) as Es. rewrite Es0 in Es.
  assert (v_unit (view k0) = SIZECLASS_SIZE (class k0) /\
    v_all (view k0) = class_mask (class k0)) as [Eu Ea] by (unfold view; by rewrite Es0).
  destruct (sw_shape _ _ _ _ H) as [Hu Ha]. split; [|by rewrite Ha].
  apply class_unit; [done|apply class_range|by rewrite Hu].
Qed.

Lemma sweep_small_step :
  exists k1, sweep_small_masks k = Ret k1 /\ get_chunk_is_small_chunk k = true /\
    let s1 := set_chunk s c k1 in
    (slots k1 = 0 -> small_swept s1 k1 k1 []) /\
    forall force, forced force -> (force = FORCE_ALL_FINALISERS -> slots k1 = class_mask (class k0)) ->
      or_oom (final_small actor uninit s1 c force) (fun s2 => exists new k', small_swept s2 k1 k' new).
Proof.
  pose proof R as [H1 H2 H3 H4 H5 H6]. destruct (swept_same _ _ _ _ H6) as (S1 & S2 & S3 & S4 & S5 & S6).
  assert (get_chunk_is_small_chunk k = true) as Es.
  { destruct (ma_same _ _ _ _ H6) as (Hs & _). by rewrite <- view_small, Hs, view_small. }
  destruct (sweep_small_masks_spec k H3 Es) as (k1 & E & Hch & Es1). exists k1. split; [done|]. split; [done|].
  intros s1.
  pose proof (swept_world s c k1 extra k W H2 Hch) as Hg1. fold s1 in Hg1.
  assert (chunks s1 !! c = Some k1) as Ek1 by apply lookup_insert_eq.
  destruct Hch as [Hk1 V1]. destruct (view_small_masks k1 Es1) as (M1 & _ & M3).
  pose proof (swept_dead _ _ _ _ R) as Hdead. rewrite <- V1 in Hdead.
  assert (class k1 = class k0) as Ecl.
  { apply class_unit; [done|apply class_range|]. rewrite V1, S3. unfold view. by rewrite Es0. }
  split.
  - intros E0. assert (Z.land (v_fins (view k1)) (v_slots (view k1)) = 0) as Hz by (by rewrite M1, E0, Z.land_0_r).
    rewrite Hz in Hdead. change (o_addr <$> objects_of (view k1) 0) with (@nil Z) in Hdead.
    constructor; [by rewrite <- Hdead|apply few_nil| |done|done].
    eapply swept_chunk; [exact R|done|done|]. by rewrite <- V1, finalised_nothing.
  - intros force Hf Hall.
    assert (forall i, Z.testbit (finalisers k1) i = true ->
      force = FORCE_NO_FINALISERS \/ force = FORCE_ALL_FINALISERS /\ Z.testbit (slots k1) i = true) as Hcond.
    { intros i Hi. destruct Hf as [->|Hf]; [by left|]. right. split; [done|]. rewrite (Hall Hf).
      rewrite <- M3, V1, S5 in Hi. destruct (mo_fins _ H4 i Hi) as [Ha _]. unfold view in Ha. by rewrite Es0 in Ha. }
    destruct (final_mask_spec k1 force Hk1 Es1 Hcond) as [Em Hfin].
    eapply or_oom_mono; [apply (final_small_spec extra s1 c k1 force (gr_world _ _ _ _ _ _ _ _ Hg1) Ek1 Es1 Hf)|].
    intros s2 (new & k' & [G1 G2 G3 G4] & Ek'). rewrite Em, Hdead in G1, G2. exists new, k'.
    assert (view k' = v_finalised (view k1) /\ slots k' = slots k1 /\ class k' = class k1) as (V' & Esl & Ecl').
    { rewrite Ek', Em. destruct (Z.eqb_spec (Z.land (v_fins (view k1)) (v_slots (view k1))) 0) as [Hz|_].
      - by rewrite finalised_nothing.
      - by rewrite (proj2 Hfin). }
    constructor; [by eapply grows_before|done| |done|congruence].
    eapply swept_chunk; [exact R|done|done|]. by rewrite V', V1.
Qed.
End small.

Lemma empty_objects v : v_slots v = v_all v -> objects v = [].
Proof. intros E. unfold objects. by rewrite E, Z.ldiff_diag. Qed.

Lemma swept_bytes s c k0 k' :
  swept s c k0 k' ->
  sizes (kept [c]) = extent k0 - popcount (v_slots (view k')) * v_unit (view k0).
Proof.
  intros H. rewrite <- (sw_objects _ _ _ _ H), used_bytes by apply H. fold (extent k').
  destruct (sw_block _ _ _ _ H) as [_ ->]. by destruct (sw_shape _ _ _ _ H) as [-> _].
Qed.

Lemma fits_free i k :
  (i < 5)%nat -> fits i k <-> get_chunk_is_small_chunk k = true /\ class k = Z.of_nat i /\ slots k <> 0 /\
    masks_ok (view k) /\ v_dirty (view k) = true.
Proof. intros Hi. unfold fits. by rewrite (proj2 (Nat.ltb_lt i 5)). Qed.

Lemma fits_full i k :
  (i < 5)%nat -> fits (5 + i) k <-> get_chunk_is_small_chunk k = true /\ class k = Z.of_nat i /\ slots k = 0 /\
    masks_ok (view k) /\ v_dirty (view k) = true.
Proof.
  intros Hi. unfold fits. rewrite (proj2 (Nat.ltb_ge _ _)) by lia.
  rewrite (proj2 (Nat.ltb_lt _ LARGE)) by (unfold LARGE; lia).
  by replace (5 + i - 5)%nat with i by lia.
Qed.

(** Where a swept small chunk belongs. *)
Lemma swept_fits s c k0 k' i :
  swept s c k0 k' -> get_chunk_is_small_chunk k0 = true -> class k0 = Z.of_nat i -> (i < 5)%nat ->
  (slots k' <> 0 -> chunk_in (chunks s) i c) /\ (slots k' = 0 -> chunk_in (chunks s) (5 + i) c) /\
  (slots k' = class_mask (class k0) -> chunk_in (chunks s) RECYCLABLE c).
Proof.
  intros H Es0 Ecl Hi. pose proof (sw_small _ _ _ _ H) as Es. rewrite Es0 in Es.
  destruct (swept_class c k0 Es0 s k' H) as [Ecl' Ea].
  split_and!; intros Hs; exists k'; (split; [apply H|]).
  - apply fits_free; [done|]. split_and!; [done|congruence|done|apply H|apply H].
  - apply fits_full; [done|]. split_and!; [done|congruence|done|apply H|apply H].
  - apply (large_fits k' 0). unfold recycle_class. rewrite Es. split; [|done].
    destruct (view_small_masks k' Es) as (M1 & _ & M3). rewrite M3. apply u32_zero_bits; [apply (sw_ok _ _ _ _ H)|].
    apply elem_of_nil_inv. intros b [Hb Hbit]%elem_of_bits. rewrite <- M3 in Hbit.
    destruct (mo_fins _ (sw_masks _ _ _ _ H) b Hbit) as [Hall Hfree]. rewrite M1, Hs in Hfree. rewrite Ea in Hall.
    congruence.
Qed.

(** The chunks [l] of the size class [i], not yet swept. *)
Definition all_ready (s : state) (small : bool) (i : nat) (l : list Z) : Prop :=
  Forall (fun c => exists k0 k, ready s c k0 k /\ get_chunk_is_small_chunk k0 = small /\ (small = true ->
    class k0 = Z.of_nat i)) l.

Lemma all_ready_agree s s' small i l : all_ready s small i l -> (forall c, c ∈ l ->
  chunks s' !! c = chunks s !! c) -> all_ready s' small i l.
Proof.
  unfold all_ready. rewrite !Forall_forall. intros Hs Ha c Hc. destruct (Hs c Hc) as (k0 & k & H & Hr).
  exists k0, k. split; [|done]. eapply ready_agree; [done|by apply Ha].
Qed.

Lemma chunk_in_same (s s' : state) j l : Forall (chunk_in (chunks s) j) l -> (forall c, c ∈ l ->
  chunks s' !! c = chunks s !! c) -> Forall (chunk_in (chunks s') j) l.
Proof. apply chunk_in_agree. Qed.

(** What the sweep of a list of chunks gives: the chunks that are kept and those that are free. *)
Record sweeps (s s' : state) (chunk extra : list Z) (new : list heap_object) (used used' : Z) : Prop := {
  sp_grows : grows (chunk ++ extra) extra s s' new (dead chunk);
  sp_few : few new (dead chunk);
  sp_swept : all_swept s' chunk;
  sp_used : u64 used' = u64 (used + sizes (kept chunk))
}.

Lemma sweeps_nil s extra used : world (heap s) s extra -> sweeps s s [] extra [] used used.
Proof. intros W. constructor; [by apply grows_refl|apply few_nil|constructor|]. cbn. f_equal. lia. Qed.

Lemma kept_cons c l : kept (c :: l) = kept [c] ++ kept l.
Proof. apply (kept_app [c]). Qed.
Lemma dead_cons c l : dead (c :: l) = dead [c] ++ dead l.
Proof. apply (dead_app [c]). Qed.

Lemma u64_chain a b c x y : u64 b = u64 (a + x) -> u64 c = u64 (b + y) -> u64 c = u64 (a + (x + y)).
Proof. intros E ->. by apply u64_add_l. Qed.

(** Lists that are swept one after the other. *)
Lemma sweeps_app s1 s2 s3 l l' extra new new' u1 u2 u3 :
  sweeps s1 s2 l (l' ++ extra) new u1 u2 -> sweeps s2 s3 l' (l ++ extra) new' u2 u3 ->
  sweeps s1 s3 (l ++ l') extra (new ++ new') u1 u3.
Proof.
  intros [G1 F1 S1 U1] [G2 F2 S2 U2]. constructor.
  - rewrite dead_app. eapply grows_trans.
    + eapply grows_weaken; [| |exact G1]; [by rewrite app_assoc|]. intros c Hc. apply elem_of_app. by right.
    + eapply grows_weaken; [| |exact G2]; [solve_perm|]. intros c Hc. apply elem_of_app. by right.
  - rewrite dead_app. by apply few_app.
  - apply Forall_app. split; [|done]. eapply all_swept_agree; [exact S1|]. intros c Hc. apply G2, elem_of_app.
    by left.
  - rewrite kept_app, sizes_app. by eapply u64_chain.
Qed.

Definition small_lists (i : nat) (s : state) (a f d : list Z) : Prop :=
  Forall (chunk_in (chunks s) i) a /\ Forall (chunk_in (chunks s) (5 + i)) f /\
    Forall (chunk_in (chunks s) RECYCLABLE) d /\ kept d = [].

Lemma small_lists_agree i s s' a f d l :
  small_lists i s a f d -> a ++ f ++ d ≡ₚ l -> (forall c, c ∈ l -> chunks s' !! c = chunks s !! c) ->
    small_lists i s' a f d.
Proof.
  intros (H1 & H2 & H3 & H4) Hp Ha.
  assert (forall c, c ∈ a ++ f ++ d -> chunks s' !! c = chunks s !! c) as Ha' by (intros c; rewrite Hp; apply Ha).
  split_and!; [..|done]; (eapply chunk_in_same; [done|]); intros c Hc; apply Ha'; rewrite !elem_of_app; tauto.
Qed.

Lemma u64_add_sub a b x : u64 (a ⊞ (b ⊟ u64 x)) = u64 (a + (b - x)).
Proof.
  unfold add64, sub64, u64, wrap. rewrite Z.mod_mod, Z.add_mod_idemp_r by done.
  replace (a + (b - x mod 2 ^ 64)) with (a + b - x mod 2 ^ 64) by lia. rewrite Zminus_mod_idemp_r. f_equal. lia.
Qed.

(** The step of the loop, for each of its branches. *)
Lemma sweeps_single i s s' c extra k0 k1 k' new used used' :
  world (heap s) s (c :: extra) -> small_swept s extra c k0 s' k1 k' new -> get_chunk_is_small_chunk k0 = true ->
  class k0 = Z.of_nat i ->
    u64 used' = u64 (used + (sizeof_block_t - popcount (slots k1) * SIZECLASS_SIZE (Z.of_nat i))) ->
  sweeps s s' [c] extra new used used'.
Proof.
  intros W [G1 G2 G3 G4 G5] Es0 Ecl Hu. constructor; [done|done| |].
  - repeat constructor. by exists k0, k'.
  - rewrite (swept_bytes _ _ _ _ G3), Hu. pose proof (sw_small _ _ _ _ G3) as Es. rewrite Es0 in Es.
    rewrite (proj1 (view_small_masks k' Es)), G4. f_equal. f_equal. f_equal; [|f_equal].
    + unfold extent, v_extent. by rewrite view_small, Es0.
    + unfold view. rewrite Es0. cbn [v_unit]. by rewrite Ecl.
Qed.

Lemma sweep_small_spec i chunk s avail full to_destroy used extra :
  (i < 5)%nat -> world (heap s) s (chunk ++ extra) -> all_ready s true i chunk ->
  or_oom (sweep_small actor uninit s chunk avail full to_destroy (class_mask (Z.of_nat i)) (SIZECLASS_SIZE (Z.of_nat
    i)) used)
    (fun '(s', avail', full', to_destroy', used') => exists a f d new,
      avail' = a ++ avail /\ full' = f ++ full /\ to_destroy' = d ++ to_destroy /\ a ++ f ++ d ≡ₚ chunk /\
      sweeps s s' chunk extra new used used' /\ small_lists i s' a f d).
Proof.
  intros Hi. revert s avail full to_destroy used extra.
  induction chunk as [|c chunk IH]; intros s avail full td used extra W Hr.
  { exists [], [], [], []. split_and!; try done; by apply sweeps_nil. }
  apply Forall_cons in Hr as [(k0 & k & R & Es0 & Ecl) Hr]. specialize (Ecl eq_refl).
  destruct (sweep_small_step s (chunk ++ extra) c k0 k W R Es0) as (k1 & E & Es & Hfull & Hfinal).
  cbn [sweep_small]. rewrite (get_chunk_lookup _ _ _ (rd_chunk _ _ _ _ R)). cbn [mbind outcome_bind]. rewrite Es.
  cbn [negb].
  rewrite E. cbn [mbind outcome_bind]. rewrite <- Ecl.
  assert (forall s1 k' new1 used1, small_swept s (chunk ++ extra) c k0 s1 k1 k' new1 ->
    u64 used1 = u64 (used + (sizeof_block_t - popcount (slots k1) * SIZECLASS_SIZE (class k0))) ->
    forall a f d, small_lists i s1 a f d -> a ++ f ++ d ≡ₚ [c] ->
    or_oom (sweep_small actor uninit s1 chunk (a ++ avail) (f ++ full) (d ++ td) (class_mask (class k0))
      (SIZECLASS_SIZE (class k0)) used1)
      (fun '(s', avail', full', to_destroy', used') => exists a f d new,
        avail' = a ++ avail /\ full' = f ++ full /\ to_destroy' = d ++ td /\ a ++ f ++ d ≡ₚ c :: chunk /\
        sweeps s s' (c :: chunk) extra new used used' /\ small_lists i s' a f d)) as Hrest.
  { intros s1 k' new1 used1 Hs1 Hu a f d Hl Hp.
    assert (sweeps s s1 [c] (chunk ++ extra) new1 used used1) as Hsp by (eapply (sweeps_single i);
      [done|exact Hs1|done|done|by rewrite <- Ecl]).
    pose proof (sp_grows _ _ _ _ _ _ _ Hsp) as Hg.
    assert (world (heap s1) s1 (chunk ++ c :: extra)) as W1 by (eapply world_extra; [|apply Hg]; solve_perm).
    assert (all_ready s1 true i chunk) as Hr1.
    { eapply all_ready_agree; [exact Hr|]. intros b Hb. apply Hg, elem_of_app. by left. }
    rewrite Ecl. eapply or_oom_mono; [apply (IH s1 (a ++ avail) (f ++ full) (d ++ td) used1 (c :: extra) W1 Hr1)|].
    intros [[[[s' avail'] full'] td'] used'] (a' & f' & d' & new' & -> & -> & -> & Hp' & Hsp' & Hl').
    exists (a' ++ a), (f' ++ f), (d' ++ d), (new1 ++ new'). rewrite <- !app_assoc.
    split_and!; try done.
    - change (c :: chunk) with ([c] ++ chunk). rewrite <- Hp, <- Hp'. solve_perm.
    - apply (sweeps_app s s1 s' [c] chunk extra new1 new' used used1 used'); done.
    - destruct Hl' as (L1 & L2 & L3 & E1).
      assert (small_lists i s' a f d) as (L4 & L5 & L6 & E2).
      { eapply small_lists_agree; [exact Hl|exact Hp|]. intros b Hb. apply (sp_grows _ _ _ _ _ _ _ Hsp').
        apply list_elem_of_singleton in Hb as ->. left. }
      split_and!; [by apply Forall_app..|by rewrite kept_app, E1, E2]. }
  cbn [set_chunk]. destruct (Z.eqb_spec (slots k1) 0) as [E0|Hne].
  - specialize (Hfull E0). pose proof (ss_swept _ _ _ _ _ _ _ _ Hfull) as Hsw.
    destruct (swept_fits _ _ _ _ i Hsw Es0 Ecl Hi) as (_ & Hf & _).
    apply (Hrest _ k1 [] (used ⊞ sizeof_block_t) Hfull) with (a := []) (f := [c]) (d := []);
      [|split_and!; [constructor|by apply Forall_singleton, Hf|constructor|done]|done].
    rewrite E0. unfold add64. rewrite u64_id by apply u64_range. change (popcount 0) with 0. done.
  - destruct (Z.eqb_spec (slots k1) (class_mask (class k0))) as [Eall|Hsome].
    + eapply or_oom_bind; [apply (Hfinal FORCE_ALL_FINALISERS); [by right|done]|]. intros s1 (new1 & k' & Hs1).
      pose proof (ss_swept _ _ _ _ _ _ _ _ Hs1) as Hsw.
      destruct (swept_fits _ _ _ _ i Hsw Es0 Ecl Hi) as (_ & _ & Hf).
      apply (Hrest s1 k' new1 used Hs1) with (a := []) (f := []) (d := [c]); [| |done].
      * rewrite Eall. f_equal. rewrite SIZECLASS_SIZE_pow by apply class_range.
        pose proof (popcount_class (class k0) ltac:(change HEAP_SIZECLASSES with 5; lia)). unfold sizeof_block_t. lia.
      * pose proof (ss_slots _ _ _ _ _ _ _ _ Hs1) as Esl. rewrite Eall in Esl.
        split_and!; [constructor|constructor|by apply Forall_singleton, Hf|].
        rewrite <- (sw_objects _ _ _ _ Hsw). apply empty_objects. pose proof (sw_small _ _ _ _ Hsw) as Es'.
        rewrite Es0 in Es'.
        rewrite (proj1 (view_small_masks k' Es')). by rewrite (proj2 (swept_class c k0 Es0 s1 k' Hsw)).
    + eapply or_oom_bind; [apply (Hfinal FORCE_NO_FINALISERS); [by left|done]|]. intros s1 (new1 & k' & Hs1).
      pose proof (ss_swept _ _ _ _ _ _ _ _ Hs1) as Hsw.
      destruct (swept_fits _ _ _ _ i Hsw Es0 Ecl Hi) as (Hf & _ & _).
      apply (Hrest s1 k' new1 _ Hs1) with (a := [c]) (f := []) (d := []); [| |done].
      * apply u64_add_sub.
      * split_and!; [|constructor|constructor|done]. apply Forall_singleton, Hf.
        by rewrite (ss_slots _ _ _ _ _ _ _ _ Hs1).
Qed.

(** All chunks of pairs of lists. *)
Definition pairs (l : list (list Z * list Z)) : list Z := l ≫= fun '(a, b) => a ++ b.

Definition class_lists (s : state) (i : nat) (l : list (list Z * list Z)) : Prop :=
  forall n a b, l !! n = Some (a, b) ->
    Forall (chunk_in (chunks s) (i + n)) a /\ Forall (chunk_in (chunks s) (5 + (i + n))) b.

Lemma class_lists_cons s i a b l :
  class_lists s i ((a, b) :: l) <->
  (Forall (chunk_in (chunks s) i) a /\ Forall (chunk_in (chunks s) (5 + i)) b) /\ class_lists s (S i) l.
Proof.
  unfold class_lists. split.
  - intros H. split; [specialize (H 0%nat a b eq_refl); by rewrite Nat.add_0_r in H|]. intros n a' b' Hn.
    specialize (H (S n) a' b' Hn). by replace (i + S n)%nat with (S i + n)%nat in H by lia.
  - intros [H1 H2] [|n] a' b' Hn; cbn in Hn; [simplify_eq; by rewrite Nat.add_0_r|].
    replace (i + S n)%nat with (S i + n)%nat by lia. by apply H2.
Qed.

Lemma all_ready_app s small i l l' : all_ready s small i (l ++ l') <-> all_ready s small i l /\
  all_ready s small i l'.
Proof. apply Forall_app. Qed.

(** Both lists of a class, one after the other. *)
Lemma sweep_class_spec i l1 l2 s to_destroy used extra :
  (i < 5)%nat -> world (heap s) s ((l1 ++ l2) ++ extra) -> all_ready s true i (l1 ++ l2) ->
  let empty := class_mask (Z.of_nat i) in let size := SIZECLASS_SIZE (Z.of_nat i) in
  or_oom ('(s, avail, full, to_destroy, used) ← sweep_small actor uninit s l1 [] [] to_destroy empty size used;
          sweep_small actor uninit s l2 avail full to_destroy empty size used)
    (fun '(s', a, f, to_destroy', used') => exists d new,
      to_destroy' = d ++ to_destroy /\ a ++ f ++ d ≡ₚ l1 ++ l2 /\
      sweeps s s' (l1 ++ l2) extra new used used' /\ small_lists i s' a f d).
Proof.
  intros Hi W [R1 R2]%all_ready_app empty size.
  eapply or_oom_bind;
    [apply (sweep_small_spec i l1 s [] [] to_destroy used (l2 ++ extra) Hi); [by rewrite app_assoc|done]|].
  intros [[[[s1 avail] full] td1] used1] (a1 & f1 & d1 & new1 & -> & -> & -> & Hp1 & Hsp1 & Hl1). rewrite !app_nil_r.
  pose proof (sp_grows _ _ _ _ _ _ _ Hsp1) as Hg1.
  eapply or_oom_mono; [apply (sweep_small_spec i l2 s1 a1 f1 (d1 ++ to_destroy) used1 (l1 ++ extra) Hi)|].
  - eapply world_extra; [|apply Hg1]. solve_perm.
  - eapply all_ready_agree; [exact R2|]. intros c Hc. apply Hg1, elem_of_app. by left.
  - intros [[[[s2 avail] full] td2] used2] (a2 & f2 & d2 & new2 & -> & -> & -> & Hp2 & Hsp2 & Hl2).
    exists (d2 ++ d1), (new1 ++ new2). rewrite <- !app_assoc. split_and!; [done| |by eapply sweeps_app|].
    + rewrite <- Hp1, <- Hp2. solve_perm.
    + destruct Hl2 as (L1 & L2 & L3 & E1).
      assert (small_lists i s2 a1 f1 d1) as (L4 & L5 & L6 & E2).
      { eapply small_lists_agree;
          [exact Hl1|exact Hp1|]. intros c Hc. apply (sp_grows _ _ _ _ _ _ _ Hsp2), elem_of_app. by left. }
      split_and!; [by apply Forall_app..|by rewrite kept_app, E1, E2].
Qed.

Lemma sweep_classes_spec i l s to_destroy used extra :
  (i + List.length l <= 5)%nat -> world (heap s) s (pairs l ++ extra) ->
  (forall n a b, l !! n = Some (a, b) -> all_ready s true (i + n) (a ++ b)) ->
  or_oom (sweep_classes actor uninit s (Z.of_nat i) l to_destroy used) (fun '(s', swept, to_destroy',
    used') => exists d new,
    to_destroy' = d ++ to_destroy /\ pairs swept ++ d ≡ₚ pairs l /\ List.length swept = List.length l /\
    sweeps s s' (pairs l) extra new used used' /\ class_lists s' i swept /\
      Forall (chunk_in (chunks s') RECYCLABLE) d /\ kept d = []).
Proof.
  revert i s to_destroy used extra. induction l as [|[l1 l2] l IH]; intros i s td used extra Hi W R.
  { exists [], []. split_and!; try done. by apply sweeps_nil. }
  cbn [List.length] in Hi. cbn [sweep_classes].
  destruct (class_mask_entry (Z.of_nat i)) as [-> _]; [change HEAP_SIZECLASSES with 5; lia|].
  cbn [mbind outcome_bind].
  assert (all_ready s true i (l1 ++ l2)) as R1 by (specialize (R 0%nat l1 l2 eq_refl); by rewrite Nat.add_0_r in R).
  change (pairs ((l1, l2) :: l)) with ((l1 ++ l2) ++ pairs l) in *.
  pose proof (sweep_class_spec i l1 l2 s td used (pairs l ++ extra) ltac:(lia)) as Hc. rewrite app_assoc in Hc.
  specialize (Hc W R1).
  cbv zeta in Hc.
  destruct (sweep_small actor uninit s l1 [] [] td _ _ used) as [[[[[s1 avail] full] td1] used1]| | |];
    cbn [mbind outcome_bind or_oom] in Hc |- *; [|done..].
  eapply or_oom_bind; [exact Hc|]. clear Hc s1 avail full td1 used1.
  intros [[[[s1 avail] full] td1] used1] (d1 & new1 & -> & Hp1 & Hsp1 & L1 & L2 & L3 & E1).
  pose proof (sp_grows _ _ _ _ _ _ _ Hsp1) as Hg1. replace (Z.of_nat i + 1) with (Z.of_nat (S i)) by lia.
  eapply or_oom_bind; [apply (IH (S i) s1 (d1 ++ td) used1 ((l1 ++ l2) ++ extra)); [lia| |]|].
  - eapply world_extra; [|apply Hg1]. solve_perm.
  - intros n a b Hn. specialize (R (S n) a b Hn). replace (i + S n)%nat with (S i + n)%nat in R by lia.
    eapply all_ready_agree; [exact R|]. intros c Hc. apply Hg1, elem_of_app. left. unfold pairs.
    apply list_elem_of_bind.
    exists (a, b). split; [done|]. by eapply list_elem_of_lookup_2.
  - intros [[[s2 swept] td2] used2] (d2 & new2 & -> & Hp2 & Hlen & Hsp2 & Hcl & Hd & E2). cbn [or_oom].
    assert (forall c, c ∈ l1 ++ l2 -> chunks s2 !! c = chunks s1 !! c) as Hsame.
    { intros c Hc. apply (sp_grows _ _ _ _ _ _ _ Hsp2), elem_of_app. by left. }
    assert (small_lists i s2 avail full d1) as (L4 & L5 & L6 & _) by (eapply small_lists_agree;
      [by split_and!|exact Hp1|done]).
    exists (d2 ++ d1), (new1 ++ new2). rewrite <- app_assoc.
    split_and!; [done| |cbn; lia|by eapply sweeps_app| |by apply Forall_app|by rewrite kept_app, E1, E2].
    + change (pairs ((avail, full) :: swept)) with ((avail ++ full) ++ pairs swept). rewrite <- Hp1, <- Hp2.
      solve_perm.
    + by apply class_lists_cons.
Qed.

(** ** Large chunks *)

Lemma large_masks k : get_chunk_is_small_chunk k = false ->
  (v_slots (view k) = 0 \/ v_slots (view k) = 1) /\ (v_fins (view k) = 0 \/ v_fins (view k) = 1) /\
  extent k = large_size k /\ v_unit (view k) = large_size k.
Proof.
  intros Es. unfold extent, v_extent. rewrite view_small, Es. unfold view. rewrite Es. cbn.
  split_and!; [destruct (flag _ _); auto..|done|done].
Qed.

Lemma sweep_large_step s extra c k0 k used :
  world (heap s) s (c :: extra) -> ready s c k0 k -> get_chunk_is_small_chunk k0 = false ->
  exists k1, sweep_large_masks k = Ret k1 /\ get_chunk_is_small_chunk k = false /\
    get_chunk_is_small_chunk k1 = false /\
    let s1 := set_chunk s c k1 in
    (v_slots (view k1) = 0 -> sweeps s s1 [c] extra [] used (used ⊞ large_size k1) /\ chunk_in (chunks s1) LARGE c) /\
    (v_slots (view k1) <> 0 ->
      or_oom (final_large actor uninit s1 c) (fun s2 => exists new k', sweeps s s2 [c] extra new used used /\
        chunks s2 !! c = Some k' /\ get_chunk_is_small_chunk k' = false /\ free_chunk k' /\
          large_size k' = large_size k1 /\
        kept [c] = [])).
Proof.
  intros W R Es0. pose proof R as [H1 H2 H3 H4 H5 H6].
  destruct (swept_same _ _ _ _ H6) as (S1 & S2 & S3 & S4 & S5 & S6).
  assert (get_chunk_is_small_chunk k = false) as Es.
  { destruct (ma_same _ _ _ _ H6) as (Hs & _). by rewrite <- view_small, Hs, view_small. }
  destruct (sweep_large_masks_spec k H3 Es) as (k1 & E & Hch & Es1). exists k1. do 3 (split; [done|]). intros s1.
  pose proof (swept_world s c k1 extra k W H2 Hch) as Hg1. fold s1 in Hg1.
  assert (chunks s1 !! c = Some k1) as Ek1 by apply lookup_insert_eq.
  destruct Hch as [Hk1 V1]. pose proof (swept_dead _ _ _ _ R) as Hdead. rewrite <- V1 in Hdead.
  destruct (large_masks k1 Es1) as (Hslots & Hfins & Ee1 & Eu1). destruct (large_masks k0 Es0) as (_ & _ & Ee0 & Eu0).
  assert (large_size k0 = large_size k1) as Esz by (rewrite <- Eu0, <- Eu1, V1; by rewrite S3).
  split.
  - intros E0. rewrite E0, Z.land_0_r in Hdead. change (o_addr <$> objects_of (view k1) 0) with (@nil Z) in Hdead.
    assert (swept s1 c k0 k1) as Hsw.
    { eapply swept_chunk; [exact R|done|done|]. rewrite <- V1, finalised_nothing;
        [done|]. by rewrite E0, Z.land_0_r. }
    split.
    + constructor; [by rewrite <- Hdead|apply few_nil|repeat constructor; by exists k0, k1|].
      rewrite (swept_bytes _ _ _ _ Hsw), E0, Ee0, Esz. change (popcount 0) with 0. unfold add64.
      rewrite u64_id by apply u64_range.
      f_equal. lia.
    + exists k1. split; [done|]. unfold fits. cbn [Nat.ltb Nat.leb Nat.eqb LARGE].
      split_and!; [done|done|apply Hsw|apply Hsw].
  - intros Hne. assert (v_slots (view k1) = 1) as E1 by (destruct Hslots; done).
    eapply or_oom_mono; [apply (final_large_spec extra s1 c k1 (gr_world _ _ _ _ _ _ _ _ Hg1) Ek1 Es1)|].
    intros s2 (new & k' & [G1 G2 G3 G4] & V'). exists new, k'.
    assert (Z.land (v_fins (view k1)) (v_slots (view k1)) = v_fins (view k1)) as Eland by (rewrite E1;
      by destruct Hfins as [-> | ->]).
    rewrite Eland in Hdead. rewrite Hdead in G1, G2.
    assert (view k' = v_finalised (v_swept (view k))) as Vf.
    { rewrite V', <- V1. unfold v_finalised. f_equal. rewrite E1. by destruct Hfins as [-> | ->]. }
    assert (swept s2 c k0 k') as Hsw by (by eapply swept_chunk).
    pose proof (sw_small _ _ _ _ Hsw) as Es'. rewrite Es0 in Es'. destruct (large_masks k' Es') as (_ & _ & _ & Eu').
    split_and!; [|done|done| | |].
    + constructor; [by eapply grows_before|done|repeat constructor; by exists k0, k'|].
      rewrite (swept_bytes _ _ _ _ Hsw), Ee0, Eu0, V'. cbn [v_set_fins v_slots]. rewrite E1.
      change (popcount 1) with 1. f_equal. lia.
    + unfold free_chunk. by rewrite V'.
    + rewrite <- Eu', <- Eu1, V'. done.
    + rewrite <- (sw_objects _ _ _ _ Hsw). apply empty_objects. rewrite V'. cbn [v_set_fins v_slots v_all].
      rewrite E1.
      unfold view. by rewrite Es1.
Qed.

(** The lists of free chunks that the collection makes. *)
Record recycled (s : state) (l : list (list Z)) : Prop := {
  rc_length : List.length l = 4%nat;
  rc_chunks j x : l !! j = Some x -> Forall (chunk_in (chunks s) (RECYCLABLE + j)) x
}.

Definition overflow (l : list (list Z)) : list Z := default [] (l !! 3%nat).

Lemma recycled_agree s s' l : recycled s l -> (forall c, c ∈ concat l -> chunks s' !! c = chunks s !! c) ->
  recycled s' l.
Proof.
  intros [H1 H2] Ha. constructor; [done|]. intros j x Hj. eapply chunk_in_same; [by apply H2|].
  intros c Hc. apply Ha, list_elem_of_In, in_concat. exists x. rewrite <- !list_elem_of_In. split; [|done].
  by eapply list_elem_of_lookup_2.
Qed.

Lemma recycle_chunk_spec s l c k :
  recycled s l -> chunks s !! c = Some k -> get_chunk_is_small_chunk k = false -> free_chunk k ->
  exists l', recycle_chunk l c (large_size k) = Ret l' /\ recycled s l' /\ concat l' ≡ₚ c :: concat l /\
    (List.length (overflow l') <= S (List.length (overflow l)))%nat.
Proof.
  intros [Hlen Hl] Ek Es Hf. unfold recycle_chunk.
  assert (exists j : nat, (j < 4)%nat /\
    (if HEAP_RECYCLE_LARGE_OVERFLOW <=? heap_recycle_index (large_size k) then HEAP_RECYCLE_LARGE_OVERFLOW
            else heap_recycle_index (large_size k)) = Z.of_nat j /\ recycle_class k = j) as (j & Hj & -> & Hcl).
  { unfold recycle_class. rewrite Es. change HEAP_RECYCLE_LARGE_OVERFLOW with 3. exists (Z.to_nat (Z.min 3
      (heap_recycle_index (large_size k)))).
    assert (0 <= heap_recycle_index (large_size k)) as H0
      by (unfold heap_recycle_index, HEAP_RECYCLE_MIXED; repeat case_match; done).
    destruct (Z.leb_spec 3 (heap_recycle_index (large_size k))); split_and!; lia || done. }
  destruct (nth_list l 4 j Hlen Hj) as [x Ex]. rewrite (list_at_lookup _ (Z.of_nat j) x) by (by rewrite Nat2Z.id).
  cbn [mbind outcome_bind]. rewrite Nat2Z.id. eexists. split; [done|].
  assert (chunk_in (chunks s) (RECYCLABLE + j) c) as Hc by (exists k; split; [done|]; by apply large_fits).
  split_and!.
  - constructor; [by rewrite length_insert|].
    intros i y [(<- & <- & _)|[_ Hy]]%list_lookup_insert_Some; [constructor; [done|by apply Hl]|by apply Hl].
  - apply (Permutation_app_inv_l x). etrans; [symmetry; apply (concat_take l j x (c :: x) Ex)|]. solve_perm.
  - unfold overflow. destruct (decide (j = 3%nat)) as [->|Hne].
    + rewrite list_lookup_insert_eq, Ex by lia. done.
    + rewrite list_lookup_insert_ne by done. lia.
Qed.

Definition large_swept (s s' : state) (chunk list list' extra : list Z) (td td' : Datatypes.list (Datatypes.list Z))
  (used used' : Z) : Prop :=
  exists l d new, list' = l ++ list /\ l ++ d ≡ₚ chunk /\ concat td' ≡ₚ d ++ concat td /\ recycled s' td' /\
    (List.length (overflow td') <= List.length chunk + List.length (overflow td))%nat /\
    sweeps s s' chunk extra new used used' /\ Forall (chunk_in (chunks s') LARGE) l /\ kept d = [].

(** One chunk is swept, and then the rest. *)
Lemma large_swept_cons s s1 s2 c chunk list x list2 extra td td1 td2 new u u1 u2 :
  sweeps s s1 [c] (chunk ++ extra) new u u1 ->
  (x = [c] /\ td1 = td /\ chunk_in (chunks s1) LARGE c \/ x = [] /\ concat td1 ≡ₚ c :: concat td /\ kept [c] = []) ->
  (List.length (overflow td1) <= S (List.length (overflow td)))%nat ->
  large_swept s1 s2 chunk (x ++ list) list2 (c :: extra) td1 td2 u1 u2 ->
    large_swept s s2 (c :: chunk) list list2 extra td td2 u u2.
Proof.
  intros H1 Hx Hov (l & d & new2 & -> & Hp & Hc & Hr & Hov2 & H2 & Hl & Ed).
  pose proof (sweeps_app s s1 s2 [c] chunk extra new new2 u u1 u2 H1 H2) as Hsw. cbn [app] in Hsw.
  assert (forall j, chunk_in (chunks s1) j c -> chunk_in (chunks s2) j c) as Hkeep.
  { intros j (k & Ek & Hk). exists k. split;
      [|done]. rewrite (gr_chunks _ _ _ _ _ _ _ _ (sp_grows _ _ _ _ _ _ _ H2)) by left. done. }
  destruct Hx as [(-> & -> & Hin)|(-> & Htd & Ec)].
  - exists (l ++ [c]), d, (new ++ new2). rewrite <- app_assoc. split_and!; try done; [|cbn; lia|].
    + rewrite <- Hp. solve_perm.
    + apply Forall_app. split; [done|]. by apply Forall_singleton, Hkeep.
  - exists l, (c :: d), (new ++ new2). split_and!; try done; [| |cbn; lia|by rewrite kept_cons, Ec, Ed].
    + rewrite <- Hp. solve_perm.
    + rewrite Hc, Htd. solve_perm.
Qed.

Lemma sweep_large_spec chunk s list td used extra :
  world (heap s) s (chunk ++ extra) -> all_ready s false 0 chunk -> recycled s td -> (forall c, c ∈ concat td ->
    c ∈ extra) ->
  or_oom (sweep_large actor uninit s chunk list td used)
    (fun '(s', list', td', used') => large_swept s s' chunk list list' extra td td' used used').
Proof.
  revert s list td used extra. induction chunk as [|c chunk IH]; intros s list td used extra W R Htd Hin.
  { exists [], [], []. split_and!; try done; by apply sweeps_nil. }
  apply Forall_cons in R as [(k0 & k & R0 & Es0 & _) R].
  destruct (sweep_large_step s (chunk ++ extra) c k0 k used W R0 Es0) as (k1 & E & Es & Es1 & Hlive & Hdead).
  cbn [sweep_large]. rewrite (get_chunk_lookup _ _ _ (rd_chunk _ _ _ _ R0)). cbn [mbind outcome_bind]. rewrite Es, E.
  cbn [mbind outcome_bind]. destruct (get_large_flag_spec k1 Es1) as (-> & _ & _). cbn [mbind outcome_bind].
  assert (forall s1 new u1 td1, sweeps s s1 [c] (chunk ++ extra) new used u1 -> recycled s1 td1 ->
    (forall d, d ∈ concat td1 -> d ∈ c :: extra) ->
    forall list1, or_oom (sweep_large actor uninit s1 chunk list1 td1 u1)
      (fun '(s', list', td', used') => large_swept s1 s' chunk list1 list' (c :: extra) td1 td' u1 used')) as Hrest.
  { intros s1 new u1 td1 Hsp Hrec Hsub list1. pose proof (sp_grows _ _ _ _ _ _ _ Hsp) as Hg. apply IH;
      [|  |done|done].
    - eapply world_extra; [|apply Hg]. solve_perm.
    - eapply all_ready_agree; [exact R|]. intros d Hd. apply Hg, elem_of_app. by left. }
  assert (forall s1 new u1, sweeps s s1 [c] (chunk ++ extra) new used u1 -> recycled s1 td) as Hrec.
  { intros s1 new u1 Hsp. eapply recycled_agree; [exact Htd|]. intros d Hd.
    apply (sp_grows _ _ _ _ _ _ _ Hsp), elem_of_app. right. by apply Hin. }
  destruct (Z.eqb_spec (v_slots (view k1)) 0) as [E0|Hne].
  - destruct (Hlive E0) as [Hsp Hc].
    eapply or_oom_mono; [apply (Hrest _ [] _ td Hsp); [by eapply Hrec|intros d Hd; right; by apply Hin]|].
    intros [[[s' list'] td'] u'] H. eapply (large_swept_cons _ _ _ _ _ _ [c]); [exact Hsp|left; done|lia|exact H].
  - eapply or_oom_bind; [by apply Hdead|]. intros s1 (new & k' & Hsp & Ek' & Es' & Hf & Esz & Eempty).
    destruct (recycle_chunk_spec s1 td c k' (Hrec _ _ _ Hsp) Ek' Es' Hf) as (td1 & E1 & Hr1 & Hp1 & Hov).
    rewrite Esz in E1. rewrite E1.
    cbn [mbind outcome_bind]. eapply or_oom_mono; [apply (Hrest s1 new used td1 Hsp Hr1)|].
    + intros d. rewrite Hp1, !elem_of_cons. intros [->|Hd]; [by left|right; by apply Hin].
    + intros [[[s' list'] td'] u'] H.
      eapply (large_swept_cons _ _ _ _ _ _ []); [exact Hsp|by right|exact Hov|exact H].
Qed.
End sweep.

(** ** The chunks that finalisers have made *)
Section merge.
Context (s : state).

Abbreviation within j l := (Forall (chunk_in (chunks s) j) l).

Lemma merge_small_spec j l temp mixed :
  (j < LARGE)%nat -> within j l ->
  exists k d, merge_small s l temp mixed = Ret (k ++ temp, d ++ mixed) /\ k ++ d ≡ₚ l /\ within j k /\
    within RECYCLABLE d.
Proof.
  intros Hj Hl. revert mixed. induction Hl as [|c l (q & Eq & Hq) Hl IH]; intros mixed; [by exists [], []|].
  cbn [merge_small]. rewrite (get_chunk_lookup _ _ _ Eq). cbn [mbind outcome_bind].
  assert (get_chunk_is_small_chunk q = true) as Es.
  { unfold fits in Hq. rewrite (proj2 (Nat.ltb_lt j LARGE) Hj) in Hq. by destruct (j <? 5)%nat, Hq as [? _]. }
  destruct (Z.eqb_spec (finalisers q) 0) as [E0|Hne].
  - destruct (IH (c :: mixed)) as (k & d & E & Hp & Hk & Hd). exists k, (d ++ [c]). rewrite E, <- app_assoc.
    split_and!; try done.
    + rewrite <- Hp. solve_perm.
    + apply Forall_app. split; [done|]. apply Forall_singleton. exists q. split; [done|]. apply (large_fits q 0).
      unfold recycle_class. rewrite Es. split; [|done]. by rewrite (proj2 (proj2 (view_small_masks q Es))).
  - destruct (IH mixed) as (k & d & -> & Hp & Hk & Hd). cbn [mbind outcome_bind]. exists (c :: k), d.
    split_and!; try done.
    + cbn [app]. by rewrite Hp.
    + constructor; [by exists q|done].
Qed.

Lemma merge_large_spec l temp td :
  within LARGE l -> recycled s td ->
  exists k d td', merge_large s l temp td = Ret (k ++ temp, td') /\ k ++ d ≡ₚ l /\ within LARGE k /\
    concat td' ≡ₚ d ++ concat td /\
    recycled s td' /\ (List.length (overflow td') <= List.length l + List.length (overflow td))%nat.
Proof.
  intros Hl. revert td. induction Hl as [|c l (q & Eq & Hq) Hl IH]; intros td Htd; [by exists [], [], td|].
  cbn [merge_large]. rewrite (get_chunk_lookup _ _ _ Eq). cbn [mbind outcome_bind].
  unfold fits in Hq. cbn [Nat.ltb Nat.leb Nat.eqb LARGE] in Hq. destruct Hq as (Es & Hs & Hm & Hd).
  destruct (get_large_flag_spec q Es) as (_ & _ & ->). cbn [mbind outcome_bind].
  destruct (Z.eqb_spec (v_fins (view q)) 0) as [E0|Hne].
  - destruct (recycle_chunk_spec s td c q Htd Eq Es E0) as (td1 & -> & Htd1 & Hp1 & Hov1). cbn [mbind outcome_bind].
    destruct (IH td1 Htd1) as (k & d & td' & E & Hp & Hk & Hc & Hr & Hov). exists k, (c :: d), td'.
    split_and!; try done.
    + rewrite <- Hp. solve_perm.
    + rewrite Hc, Hp1. solve_perm.
    + cbn [List.length]. lia.
  - destruct (IH td Htd) as (k & d & td' & -> & Hp & Hk & Hc & Hr & Hov). cbn [mbind outcome_bind].
    exists (c :: k), d, td'. split_and!; try done.
    + cbn [app]. by rewrite Hp.
    + constructor; [exists q; split; [done|]; done|done].
    + cbn [List.length]. lia.
Qed.

Lemma merge_classes_spec i free full swept mixed :
  List.length free = List.length swept -> List.length full = List.length swept -> (i + List.length swept <= 5)%nat ->
  (forall n l, free !! n = Some l -> within (i + n) l) -> (forall n l, full !! n = Some l ->
    within (5 + (i + n)) l) ->
  class_lists s i swept ->
  exists free' full' k d, merge_classes s free full swept mixed = Ret (free', full', d ++ mixed) /\
    k ++ d ≡ₚ concat free ++ concat full /\ concat free' ++ concat full' ≡ₚ k ++ pairs swept /\ within RECYCLABLE d /\
    List.length free' = List.length swept /\ List.length full' = List.length swept /\
    (forall n l, free' !! n = Some l -> within (i + n) l) /\ (forall n l, full' !! n = Some l ->
      within (5 + (i + n)) l).
Proof.
  revert i free full mixed. induction swept as [|[t1 t2] swept IH]; intros i free full mixed H1 H2 Hi Hfree Hfull Hsw.
  { destruct free, full; try done. by exists [], [], [], []. }
  destruct free as [|l1 free], full as [|l2 full]; try done. cbn [List.length] in *. cbn [merge_classes].
  apply class_lists_cons in Hsw as [[Ht1 Ht2] Hsw].
  pose proof (Hfree 0%nat l1 eq_refl) as Hl1. pose proof (Hfull 0%nat l2 eq_refl) as Hl2.
  rewrite Nat.add_0_r in Hl1, Hl2.
  destruct (merge_small_spec i l1 t1 mixed) as (k1 & d1 & -> & Hp1 & Hk1 & Hd1); [unfold LARGE; lia|done|].
  cbn [mbind outcome_bind].
  destruct (merge_small_spec (5 + i) l2 t2 (d1 ++ mixed)) as (k2 & d2 & -> & Hp2 & Hk2 & Hd2);
    [unfold LARGE; lia|done|].
  cbn [mbind outcome_bind].
  destruct (IH (S i) free full (d2 ++ d1 ++ mixed)) as (free' & full' & k & d & ->
    & Hp & Hc & Hd & L1 & L2 & F1 & F2);
    try lia; [| |done|].
  { intros n l Hn. specialize (Hfree (S n) l Hn). by replace (S i + n)%nat with (i + S n)%nat by lia. }
  { intros n l Hn. specialize (Hfull (S n) l Hn). by replace (S i + n)%nat with (i + S n)%nat by lia. }
  cbn [mbind outcome_bind]. exists ((k1 ++ t1) :: free'), ((k2 ++ t2) :: full'), (k1 ++ k2 ++ k), (d ++ d2 ++ d1).
  rewrite <- !app_assoc. split_and!; cbn [List.length]; [done| | |by rewrite !Forall_app|lia|lia| |].
  - cbn [concat]. rewrite <- Hp1, <- Hp2. 
    transitivity ((k1 ++ d1) ++ (k2 ++ d2) ++ (k ++ d)); [solve_perm|]. rewrite Hp. solve_perm.
  - cbn [concat]. change (pairs ((t1, t2) :: swept)) with ((t1 ++ t2) ++ pairs swept).
    transitivity ((k1 ++ t1) ++ (k2 ++ t2) ++ (concat free' ++ concat full')); [solve_perm|]. rewrite Hc. solve_perm.
  - intros [|n] l Hn; cbn in Hn; [simplify_eq; rewrite Nat.add_0_r; by apply Forall_app|].
    replace (i + S n)%nat with (S i + n)%nat by lia. by apply F1.
  - intros [|n] l Hn; cbn in Hn; [simplify_eq; rewrite Nat.add_0_r; by apply Forall_app|].
    replace (i + S n)%nat with (S i + n)%nat by lia. by apply F2.
Qed.
End merge.

(** ** The free chunks of the last collection are given back *)

Definition unchanged (l : list Z) (s s' : state) : Prop :=
  heap s' = heap s /\ trace s' = trace s /\ forall c, c ∉ l -> chunks s' !! c = chunks s !! c.

Lemma unchanged_trans l l' s1 s2 s3 : unchanged l s1 s2 -> unchanged l' s2 s3 -> unchanged (l ++ l') s1 s3.
Proof.
  intros (H1 & T1 & C1) (H2 & T2 & C2). split_and!; [congruence|congruence|]. intros c Hc.
  rewrite not_elem_of_app in Hc. destruct Hc as [Hc1 Hc2]. by rewrite C2, C1.
Qed.

(** A step that leaves the heap alone leaves the walk alone. *)
Lemma chunk_walk_step fuel f (s s1 : state) c l :
  f s c = Ret s1 -> heap s1 = heap s -> chunk_walk (S fuel) f s (c :: l) = chunk_walk fuel f s1 l.
Proof. intros E H. cbn [chunk_walk]. rewrite E. cbn [mbind outcome_bind]. by rewrite bool_decide_true by by rewrite H.
Qed.

Lemma destroy_list_spec (f : state -> Z -> outcome state) (Q : chunk_t -> Prop) h l s extra :
  (forall s c k extra, world h s (c :: extra) -> chunks s !! c = Some k -> free_chunk k -> Q k ->
     exists s', f s c = Ret s' /\ released outside others h s c extra s') ->
  world h s (l ++ extra) ->
  Forall (fun c => exists k, chunks s !! c = Some k /\ free_chunk k /\ Q k) l ->
  exists s', chunk_list f s l = Ret s' /\ world h s' extra /\ unchanged l s s'.
Proof.
  intros Hf. unfold chunk_list. generalize (Nat.le_add_r (List.length l) (2 * base.size (chunks s))).
  generalize (List.length l + 2 * base.size (chunks s))%nat as fuel. intros fuel Hfuel. revert fuel Hfuel s.
  induction l as [|c l IH]; intros [|fuel] Hfuel s W Hl; cbn [List.length] in Hfuel; try (by exists s); [lia|].
  apply Forall_cons in Hl as [(k & Ek & Hk & Hs) Hl].
  destruct (Hf s c k (l ++ extra) W Ek Hk Hs) as (s1 & E1 & W1 & C1 & H1 & T1).
  assert (c ∉ l) as Hc.
  { pose proof (extra_elem _ _ _ _ _ _ W) as Hn. rewrite not_elem_of_app in Hn. tauto. }
  destruct (IH fuel ltac:(lia) s1 W1) as (s' & E & W' & Hu).
  { eapply Forall_impl; [apply Forall_and; split; [exact Hl|apply (Forall_forall (fun d => d ∈ l)); done]|].
    intros d ((q & Eq & Hq) & Hd). exists q. rewrite C1, lookup_delete_ne; [done|]. intros <-. done. }
  exists s'. rewrite (chunk_walk_step _ _ _ _ _ _ E1 H1). split_and!; [done|done|].
  change (c :: l) with ([c] ++ l). apply (unchanged_trans [c] l s s1 s'); [|done]. split_and!; [done|done|].
  intros d Hd. rewrite C1, lookup_delete_ne; [done|]. intros <-. apply Hd. left.
Qed.

Lemma recycled_free s l j x : recycled s l -> l !! j = Some x ->
  Forall (fun c => exists k, chunks s !! c = Some k /\ free_chunk k /\ ((0 < j)%nat ->
    get_chunk_is_small_chunk k = false)) x.
Proof.
  intros [_ Hr] Hj. eapply Forall_impl; [by apply Hr|]. intros c (k & Ek & Hk). exists k. split; [done|].
  apply large_fits in Hk as [Hf Hc]. split; [done|]. intros H0. unfold recycle_class in Hc.
  destruct (get_chunk_is_small_chunk k); [lia|done].
Qed.

Lemma destroy_large_lists h l s extra :
  world h s (concat l ++ extra) ->
  Forall (Forall (fun c => exists k, chunks s !! c = Some k /\ free_chunk k /\
    get_chunk_is_small_chunk k = false)) l ->
  exists s', foldO (fun s x => chunk_list (destroy_large actor uninit) s x) s l = Ret s' /\ world h s' extra /\
    unchanged (concat l) s s'.
Proof.
  revert s. induction l as [|x l IH]; intros s W Hl; [by exists s|]. apply Forall_cons in Hl as [Hx Hl].
  cbn [concat] in *.
  rewrite <- app_assoc in W. cbn [foldO].
  destruct (destroy_list_spec (destroy_large actor uninit) (fun k => get_chunk_is_small_chunk k = false) h x s
    (concat l ++ extra)) as (s1 & E1 & W1 & H1 & T1 & C1); [|done|done|].
  - intros s1 c k extra1 W1 Ek Hk Hs.
    destruct (destroy_mixed_spec outside others actor uninit h s1 c k extra1 W1 Ek Hk) as (s' & _ & Hr & E).
    exists s'. split; [by apply E, Hs|done].
  - rewrite E1. cbn [mbind outcome_bind].
    assert (forall c, c ∈ concat l -> c ∉ x) as Hdisj.
    { intros c Hc Hx'. pose proof (owned_nodup _ _ _ _ _ W) as Hnd. apply NoDup_app in Hnd as (_ & _ & Hnd).
      apply NoDup_app in Hnd as (_ & Hn & _). apply (Hn c Hx'), elem_of_app. by left. }
    destruct (IH s1 W1) as (s' & E & W' & Hu).
    { rewrite !Forall_forall in Hl |- *. intros y Hy. specialize (Hl y Hy). rewrite !Forall_forall in Hl |- *. intros
        c Hc.
      destruct (Hl c Hc) as (k & Ek & Hk). exists k. rewrite C1; [done|]. apply Hdisj, list_elem_of_In, in_concat.
      exists y. by rewrite <- !list_elem_of_In. }
    exists s'. split_and!; [done|done|]. apply (unchanged_trans x (concat l) s s1 s'); done.
Qed.

Lemma destroy_recyclable_spec h s l extra :
  world h s (concat l ++ extra) -> recycled s l ->
  exists s', destroy_recyclable actor uninit s l = Ret s' /\ world h s' extra /\ unchanged (concat l) s s'.
Proof.
  intros W Hr. destruct l as [|mixed l]; [by exists s|]. cbn [destroy_recyclable]. cbn [concat] in *.
  rewrite <- app_assoc in W.
  destruct (destroy_list_spec (destroy_mixed actor uninit) (fun _ => True) h mixed s (concat l ++ extra)) as (s1 & E1
    & W1 & H1 & T1 & C1); [|done| |].
  - intros s1 c k extra1 W1 Ek Hk _.
    destruct (destroy_mixed_spec outside others actor uninit h s1 c k extra1 W1 Ek Hk) as (s' & E & Hrel & _).
    by exists s'.
  - eapply Forall_impl; [by apply (recycled_free s (mixed :: l) 0)|]. intros c (k & Ek & Hk & _). by exists k.
  - rewrite E1. cbn [mbind outcome_bind]. destruct (destroy_large_lists h l s1 extra W1) as (s' & E & W' & Hu).
    + apply Forall_forall. intros x Hx. apply list_elem_of_lookup in Hx as [j Hj].
      pose proof (recycled_free s (mixed :: l) (S j) x Hr Hj) as Hf. rewrite Forall_forall in Hf |- *. intros c Hc.
      destruct (Hf c Hc) as (k & Ek & Hk & Hs). exists k. rewrite C1; [split_and!; [done|done|apply Hs; lia]|].
      intros Hm. pose proof (owned_nodup _ _ _ _ _ W) as Hnd. apply NoDup_app in Hnd as (_ & _ & Hnd).
      apply NoDup_app in Hnd as (_ & Hn & _). apply (Hn c Hm), elem_of_app. left. apply list_elem_of_In, in_concat.
      exists x.
      rewrite <- !list_elem_of_In. split; [|done]. by eapply list_elem_of_lookup_2.
    + exists s'. split_and!; [done|done|]. apply (unchanged_trans mixed (concat l) s s1 s'); done.
Qed.

Lemma sort_chunks_list_spec (s : state) l :
  Forall (fun c => exists k, chunks s !! c = Some k /\ get_chunk_is_small_chunk k = false) l ->
    Z.of_nat (List.length l) <= INT32_MAX ->
  exists l', sort_chunks s l = Ret l' /\ l' ≡ₚ l.
Proof.
  intros Hl Hlen. unfold sort_chunks.
  assert (exists ks, mapO (fun c => k ← get_chunk s c; Ret (c, k)) l = Ret ks /\ ks.*1 = l /\
    Forall (fun ck => get_chunk_is_small_chunk ck.2 = false) ks) as (ks & -> & E & Hks).
  { clear Hlen. induction Hl as [|c l (k & Ek & Hk) Hl (ks & E & E1 & Hks)]; [by exists []|].
    cbn [mapO]. rewrite (get_chunk_lookup _ _ _ Ek). cbn [mbind outcome_bind]. rewrite E. cbn [mbind outcome_bind].
    exists ((c, k) :: ks). split_and!; [done|cbn; by rewrite E1|by constructor]. }
  cbn [mbind outcome_bind].
  destruct (sort_chunks_spec (fun ck => get_chunk_is_small_chunk ck.2) (fun ck => large_size ck.2) ks Hks) as (l' &
    -> & Hp & _).
  - rewrite <- (length_fmap fst ks), E. done.
  - exists l'.*1. split; [done|]. by rewrite Hp, E.
Qed.
End collection.
