(* ===== verification/HeapGc.v ===== *)
(** * Collection of a heap: marking, and the whole collection *)
From stdpp Require Import gmap.
From S2P Require Import Prelude Store Pool PageMap Chunk ChunkSort Heap HeapInv HeapAlloc HeapSweep.
Local Open Scope Z_scope.
Local Open Scope c_scope.

Section collection.
Context {P M : Type} `{PO : PoolOps P} `{PMO : PageMapOps M} `{FI : Finalisers}.
Context (actor : Z) (uninit : Z -> Z) (heap_initialgc : Z) (nextgc_times : Z -> Z).
Context (outside : list range) (others : Z -> Z).

Abbreviation state := (state P M).
Abbreviation world := (world (P:=P) (M:=M) outside others).
Abbreviation grows := (grows (P:=P) (M:=M) outside others).

(** A heap when none of its functions runs. *)
Definition heap_ok (s : state) : Prop := world (heap s) s [].

(** The objects of the heap. *)
Definition heap_objects (s : state) : list heap_object := live (heap s) (chunks s).

(** ** Marking *)

(** The chunks with objects, and the heap without them. *)
Definition used_chunks (h : heap_t) : list Z := concat (take RECYCLABLE (lists h)).
Definition emptied (h : heap_t) : heap_t :=
  mk_heap (small_free heap_init) (small_full heap_init) [] (recyclable h) (used h) (next_gc h).

(** The objects that are marked from outside, and from inside, after a call. *)
Definition mark_ext (call : mark_call) (o : heap_object) (ext : gset Z) : gset Z :=
  if call is Mark p then if p =? o_addr o then {[o_addr o]} ∪ ext else ext else ext.
Definition mark_int (call : mark_call) (o : heap_object) (int : gset Z) : gset Z :=
  if call is Mark p then if p =? o_addr o then int else {[o_addr o]} ∪ int else {[o_addr o]} ∪ int.

Record marking (s0 s : state) (ext int : gset Z) : Prop := {
  mg_heap : heap s = heap s0;
  mg_pagemap : pagemap s = pagemap s0;
  mg_trace : trace s = trace s0;
  mg_world : world (emptied (heap s0)) s (used_chunks (heap s0));
  mg_marks c k0 : c ∈ used_chunks (heap s0) -> chunks s0 !! c = Some k0 ->
    exists k, chunks s !! c = Some k /\ marks (view k0) (view k) ext int;
  mg_sets a : a ∈ ext ∪ int -> exists o, o ∈ heap_objects s0 /\ o_addr o = a
}.

Lemma lists_emptied h : lists (emptied h) = replicate RECYCLABLE [] ++ recyclable h.
Proof. done. Qed.

Lemma lists_recyclable h : lists_ok h -> lists h = take RECYCLABLE (lists h) ++ recyclable h.
Proof.
  intros [L1 L2 L3]. unfold lists, RECYCLABLE. rewrite !app_assoc. rewrite take_app_length'; [done|].
  rewrite !length_app, L1, L2. done.
Qed.

Lemma live_emptied h ch : live (emptied h) ch = [].
Proof. done. Qed.

Lemma emptied_ok h : lists_ok h -> lists_ok (emptied h).
Proof. intros [_ _ L3]. by constructor. Qed.

Lemma world_emptied h s : world h s [] -> world (emptied h) s (used_chunks h).
Proof.
  intros W. pose proof (world_lists_ok _ _ _ _ _ W) as Hl. eapply world_relist; [exact W|by apply emptied_ok| |].
  - intros j l. rewrite lists_emptied. intros [Hj|[Hge Hj]]%lookup_app_Some.
    + apply lookup_replicate in Hj as [-> _]. constructor.
    + rewrite length_replicate in *. apply (wo_fits _ _ _ _ _ W j). rewrite (lists_recyclable h Hl), lookup_app_r.
      * rewrite length_take, <- Hj. f_equal. unfold lists.
        rewrite !length_app, (lo_free _ Hl), (lo_full _ Hl), (lo_recyclable _ Hl). done.
      * rewrite length_take. lia.
  - rewrite lists_emptied, concat_app. rewrite (lists_recyclable h Hl). rewrite concat_app, app_nil_r.
    unfold used_chunks.
    change (concat (replicate RECYCLABLE (@nil Z))) with (@nil Z). cbn [app]. apply Permutation_app_comm.
Qed.

Lemma used_dirty h s extra c k : world h s extra -> c ∈ used_chunks h -> chunks s !! c = Some k ->
  masks_ok (view k) /\ v_dirty (view k) = true.
Proof.
  intros W Hc Ek. destruct (live_dom _ _ _ _ _ _ W Hc) as (q & j & l & Eq & _ & _ & Hj & Hf). rewrite Ek in Eq.
  injection Eq as <-.
  unfold fits in Hf. unfold RECYCLABLE, LARGE in *.
  destruct (Nat.ltb_spec j 5); [apply Hf|]. destruct (Nat.ltb_spec j 10); [apply Hf|].
  rewrite (proj2 (Nat.eqb_eq j 10)) in Hf by lia. apply Hf.
Qed.

Lemma marking_start s : heap_ok s -> marking s s ∅ ∅.
Proof.
  intros W. constructor; try done.
  - by apply world_emptied.
  - intros c k Hc Ek. exists k. split; [done|]. apply marks_start. by destruct (used_dirty _ _ _ _ _ W Hc Ek).
Qed.

(** A mark in the chunk [c], of the object at [a]. *)
Lemma marking_update s0 s ext int ext' int' c k0 k k' i :
  heap_ok s0 -> marking s0 s ext int -> c ∈ used_chunks (heap s0) -> chunks s0 !! c = Some k0 ->
    chunks s !! c = Some k ->
  0 <= i -> Z.testbit (v_all (view k0)) i = true -> Z.testbit (v_slots (view k0)) i = false ->
  chunk_ok k' -> get_m k' = get_m k -> extent k' = extent k -> marks (view k0) (view k') ext' int' ->
  let a := v_base (view k0) + 32 * i in
  (ext' = {[a]} ∪ ext /\ int' = int \/ ext' = ext /\ int' = {[a]} ∪ int) -> marking s0 (set_chunk s c k') ext' int'.
Proof.
  intros W0 [Hh Hp Ht W Hm Hs] Hc Ek0 Ek Hi Ha Hfree Hk' Em Ee Hm' a Hsets.
  destruct (wo_chunks _ _ _ _ _ W0 c k0 Ek0) as [Hk0 _].
  constructor; cbn [set_chunk heap pagemap trace chunks]; try done.
  - apply elem_of_Permutation in Hc as [rest Hr]. apply (world_extra _ _ _ _ (c :: rest)); [done|].
    eapply world_update; [by eapply world_extra|done..].
  - intros d d0 Hd Ed0. destruct (decide (d = c)) as [->|Hne].
    + rewrite Ek0 in Ed0. injection Ed0 as <-. exists k'. by rewrite lookup_insert_eq.
    + destruct (Hm d d0 Hd Ed0) as (q & Eq & Hmq). exists q. split; [by rewrite lookup_insert_ne|].
      destruct (wo_chunks _ _ _ _ _ W0 d d0 Ed0) as [Hd0 _].
      destruct (marks_other _ _ _ _ a Hmq) as [H1 H2]; [|by destruct Hsets as [[-> ->]|[-> ->]]].
      intros j Hj Eaj. apply Hne. destruct (decide (0 <= j)); [|by rewrite Z.testbit_neg_r in Hj by lia].
      destruct (slot_bounds k0 i Hk0 Hi Ha) as (_ & B1 & B2), (slot_bounds d0 j Hd0 ltac:(done) Hj) as (_ & B3 & B4).
      pose proof (view_base k0). pose proof (view_base d0). subst a.
      apply (blocks_disjoint _ _ _ s0 [] W0 d d0 c k0 (v_base (view k0) + 32 * i) Ed0 Ek0); unfold in_block, extent;
        lia.
  - intros b Hb.
    assert (b = a \/ b ∈ ext ∪ int) as [->|Hb'] by (destruct Hsets as [[-> ->]|[-> ->]]; set_solver); [|by apply Hs].
    exists (slot_object (view k0) i). split; [|done]. unfold heap_objects, live, objs. apply list_elem_of_bind.
    exists c.
    rewrite Ek0. split; [|done]. apply elem_of_objects. exists i. destruct (slot_bounds k0 i Hk0 Hi Ha).
    split_and!; done || lia.
Qed.

Lemma clear_block v : v_base (v_clear v) = v_base v /\ v_extent (v_clear v) = v_extent v.
Proof. destruct (clear_same v) as (C1 & C2 & C3 & _). unfold v_extent. by rewrite C1, C2, C3. Qed.

Lemma mark_block v i p : v_base (v_mark i p v) = v_base v /\ v_extent (v_mark i p v) = v_extent v.
Proof.
  destruct (clear_block v) as [Cb Ce]. unfold v_mark. destruct (p =? v_base (v_clear v) + 32 * i); by split.
Qed.

(** A call for an address of an object: it says whether the object was marked from outside. *)
Definition mark_result (call : mark_call) (o : heap_object) (ext : gset Z) : option bool :=
  if call is Mark _ then Some (bool_decide (o_addr o ∈ ext)) else None.

Definition addresses (s : state) (call : mark_call) (o : heap_object) : Prop :=
  o ∈ heap_objects s /\ in_range (o_range o) (mark_address call).

Lemma run_mark_spec s0 s ext int call o :
  heap_ok s0 -> marking s0 s ext int -> addresses s0 call o ->
  exists s', run_mark s call = Ret (s', mark_result call o ext) /\
    marking s0 s' (mark_ext call o ext) (mark_int call o int).
Proof.
  intros W0 Hmg [Ho Hp].
  destruct (live_located _ _ _ _ _ _ _ W0 Ho Hp) as (c & k0 & i & Eget & _ & Hc & Ek0 & Hk0 & Hslot & Hpu & Hfree &
    ->).
  destruct (mg_marks _ _ _ _ Hmg c k0 Hc Ek0) as (k & Ek & Hm).
  destruct (wo_chunks _ _ _ _ _ (mg_world _ _ _ _ Hmg) c k Ek) as [Hk _].
  pose proof Hslot as (Hi & Hall & Hr). destruct (ma_same _ _ _ _ Hm) as (_ & Eb & Eu & Ea & _).
  assert (in_slot (view k) i (mark_address call)) as Hslot' by (unfold in_slot; by rewrite Ea, Eb, Eu).
  unfold run_mark. rewrite (mg_pagemap _ _ _ _ Hmg), Eget. cbn [mbind outcome_bind].
  rewrite (get_chunk_lookup _ _ _ Ek). cbn [mbind outcome_bind].
  destruct (clear_block (view k)) as [Cb Ce].
  destruct call as [p|p]; cbn [mark_address mark_result mark_ext mark_int slot_object o_addr] in *.
  - destruct (mark_spec k Hk i p Hpu Hslot') as (k' & -> & Hch). cbn [mbind outcome_bind]. eexists.
    destruct (marks_mark _ _ _ _ i p Hm Hslot') as [Eres Hm']. rewrite <- (proj2 Hch) in Hm'. rewrite Eres.
    split; [done|].
    destruct (changes_same _ _ _ Hch) as [Em Ee]; [apply mark_block..|].
    eapply (marking_update s0 s ext int); [done..|apply Hch|done|done|exact Hm'|].
    destruct (p =? _); [by left|by right].
  - destruct (mark_shallow_spec k Hk i p Hpu Hslot') as (k' & -> & Hch). cbn [mbind outcome_bind]. eexists.
    split; [done|].
    pose proof (marks_mark_shallow _ _ _ _ i Hm Hi) as Hm'. rewrite <- (proj2 Hch) in Hm'.
    destruct (changes_same _ _ _ Hch) as [Em Ee]; [exact Cb|exact Ce|].
    eapply (marking_update s0 s ext int); [done..|apply Hch|done|done|exact Hm'|]. by right.
Qed.

(** The results of a sequence of calls, and the objects that are marked after it. *)
Fixpoint mark_results (ext : gset Z) (calls : list (mark_call * heap_object)) : list (option bool) :=
  match calls with
  | [] => []
  | (call, o) :: calls => mark_result call o ext :: mark_results (mark_ext call o ext) calls
  end.

Lemma run_marks_spec s0 s ext int calls :
  heap_ok s0 -> marking s0 s ext int -> Forall (fun '(call, o) => addresses s0 call o) calls ->
  exists s' ext' int', run_marks s calls.*1 = Ret (s', mark_results ext calls) /\ marking s0 s' ext' int' /\
    forall a, a ∈ ext' ∪ int' <-> a ∈ ext ∪ int \/ a ∈ o_addr <$> calls.*2.
Proof.
  intros W0. revert s ext int. induction calls as [|[call o] calls IH]; intros s ext int Hm Hc.
  { exists s, ext, int. split_and!; [done|done|]. intros a. cbn. set_solver. }
  apply Forall_cons in Hc as [Ho Hc]. destruct (run_mark_spec s0 s ext int call o W0 Hm Ho) as (s1 & E1 & Hm1).
  destruct (IH s1 _ _ Hm1 Hc) as (s' & ext' & int' & E & Hm' & Hs). exists s', ext', int'. rewrite !fmap_cons.
  cbn [run_marks mark_results fst snd].
  rewrite E1. cbn [mbind outcome_bind]. rewrite E. cbn [mbind outcome_bind]. split_and!; [done|done|].
  intros a. rewrite Hs, elem_of_cons. unfold mark_ext, mark_int.
  destruct call as [p|p]; [destruct (p =? o_addr o)|]; set_solver.
Qed.

(** ** The sweep of all chunks *)
Section gc.
Context (F : nat) (HF : forall tr p, (List.length (allocations tr p) <= F)%nat).
Context (s0 s : state) (ext int : gset Z) (W0 : heap_ok s0) (Hmg : marking s0 s ext int).

Abbreviation h0 := (heap s0).
Abbreviation classes := (zip (small_free h0) (small_full h0)).
Abbreviation old := (pairs classes ++ large h0).

Lemma pairs_zip (l l' : list (list Z)) : List.length l = List.length l' -> pairs (zip l l') ≡ₚ concat l ++ concat l'.
Proof.
  revert l'. induction l as [|x l IH]; intros [|y l'] Hlen; try done. cbn [zip zip_with concat].
  change (pairs ((x, y) :: zip l l')) with ((x ++ y) ++ pairs (zip l l')). rewrite IH by (cbn in Hlen; lia).
  solve_perm.
Qed.

Lemma used_old h : lists_ok h -> used_chunks h ≡ₚ pairs (zip (small_free h) (small_full h)) ++ large h.
Proof.
  intros [L1 L2 L3]. rewrite pairs_zip by congruence. unfold used_chunks, lists, RECYCLABLE.
  rewrite take_app_ge by lia. rewrite L1. rewrite take_app_ge by lia. rewrite L2. cbn [Nat.sub app take].
  rewrite !concat_app. cbn [concat]. rewrite app_nil_r. solve_perm.
Qed.

Lemma chunk_ready c : c ∈ used_chunks h0 -> exists k0 k, ready (chunks s0) ext int s c k0 k.
Proof.
  intros Hc. destruct (live_dom _ _ _ _ _ _ W0 Hc) as (k0 & _ & _ & Ek0 & _).
  destruct (mg_marks _ _ _ _ Hmg c k0 Hc Ek0) as (k & Ek & Hm). exists k0, k.
  destruct (used_dirty _ _ _ _ _ W0 Hc Ek0) as [Hmasks _]. destruct (wo_chunks _ _ _ _ _ W0 c k0 Ek0) as [Hk0 _].
  constructor; try done; [by destruct (wo_chunks _ _ _ _ _ (mg_world _ _ _ _ Hmg) c k Ek)|].
  intros i Hi Ha Hin. destruct (mg_sets _ _ _ _ Hmg _ Hin) as (o & Ho & Eo).
  destruct (elem_of_live _ _ _ _ _ _ W0 Ho) as (d & q & j & _ & Eq & Hq & Hj & Haj & Hsj & ->).
  cbn [slot_object o_addr] in Eo.
  destruct (slot_bounds k0 i Hk0 Hi Ha) as (_ & B1 & B2), (slot_bounds q j Hq ltac:(lia) Haj) as (_ & B3 & B4).
  pose proof (view_base k0). pose proof (view_base q).
  assert (d = c) as -> by (apply (blocks_disjoint _ _ _ s0 [] W0 d q c k0 (v_base (view k0) + 32 * i) Eq Ek0);
    unfold in_block, extent; lia).
  rewrite Ek0 in Eq. injection Eq as <-. by replace i with j by lia.
Qed.

Lemma list_ready j l : lists h0 !! j = Some l -> (j < RECYCLABLE)%nat ->
  Forall (fun c => exists k0 k, ready (chunks s0) ext int s c k0 k /\ fits j k0) l.
Proof.
  intros Hj Hlt. pose proof (wo_fits _ _ _ _ _ W0 j l Hj) as Hf. rewrite Forall_forall in Hf |- *. intros c Hc.
  destruct (chunk_ready c) as (k0 & k & R).
  - unfold used_chunks. by eapply live_elem.
  - exists k0, k. split; [done|]. destruct (Hf c Hc) as (q & Eq & Hq). rewrite (rd_old _ _ _ _ _ _ _ R) in Eq.
    by injection Eq as <-.
Qed.

Lemma classes_ready n a b : classes !! n = Some (a, b) -> all_ready (chunks s0) ext int s true n (a ++ b).
Proof.
  intros Hn. apply lookup_zip_with_Some in Hn as (x & y & [= -> ->] & Ha & Hb).
  pose proof (world_lists_ok _ _ _ _ _ W0) as Hl. pose proof (lookup_lt_Some _ _ _ Ha) as Hlt.
  rewrite (lo_free _ Hl) in Hlt.
  apply all_ready_app. split.
  - eapply Forall_impl; [apply (list_ready n x); [by rewrite lists_lookup_free|unfold RECYCLABLE; lia]|].
    intros c (k0 & k & R & Hf). apply (fits_free n k0 Hlt) in Hf. exists k0, k. tauto.
  - eapply Forall_impl; [apply (list_ready (5 + n) y); [by rewrite lists_lookup_full|unfold RECYCLABLE; lia]|].
    intros c (k0 & k & R & Hf). apply (fits_full n k0 Hlt) in Hf. exists k0, k. tauto.
Qed.

Lemma large_ready : all_ready (chunks s0) ext int s false 0 (large h0).
Proof.
  pose proof (world_lists_ok _ _ _ _ _ W0) as Hl.
  eapply Forall_impl; [apply (list_ready LARGE); [by apply lists_lookup_large|unfold LARGE, RECYCLABLE; lia]|].
  intros c (k0 & k & R & Hf). exists k0, k. cbn in Hf. split_and!; [done|tauto|done].
Qed.

(** What the sweep leaves: new lists with the marked objects, and free chunks. *)
Record swept_heap (s1 s3 : state) (swept : list (list Z * list Z)) (temp_large : list Z) (td : list (list Z)) (bytes
  : Z)
    (new : list heap_object) : Prop := {
  sh_sweeps : sweeps outside others F (chunks s0) ext int s1 s3 old [] new 0 bytes;
  sh_chunks : pairs swept ++ temp_large ++ concat td ≡ₚ old;
  sh_classes : class_lists s3 0 swept;
  sh_length : List.length swept = 5%nat;
  sh_large : Forall (chunk_in (chunks s3) LARGE) temp_large;
  sh_recycled : recycled s3 td;
  sh_free : kept (chunks s0) ext int (concat td) = [];
  sh_overflow : (List.length (overflow td) <= List.length (large h0))%nat
}.

Lemma kept_perm ch l l' : l ≡ₚ l' -> kept ch ext int l ≡ₚ kept ch ext int l'.
Proof. intros Hp. unfold kept. by rewrite (objs_perm ch _ _ Hp). Qed.

Lemma sweep_phase (g : state -> list (list Z * list Z) -> list Z -> list (list Z) -> Z -> outcome state) Q :
  let s1 := set_heap s (emptied h0) in
  (forall s3 swept temp_large td bytes new, swept_heap s1 s3 swept temp_large td bytes new ->
    or_oom (g s3 swept temp_large td bytes) Q) ->
  or_oom ('(s, swept, mixed, bytes) ← sweep_classes actor uninit s1 0 classes [] 0;
          '(s, temp_large, to_destroy,
            bytes) ← sweep_large actor uninit s (large h0) [] (mixed :: tail (recyclable heap_init)) bytes;
          g s swept temp_large to_destroy bytes) Q.
Proof.
  intros s1 Hg. pose proof (world_lists_ok _ _ _ _ _ W0) as Hl. pose proof (used_old h0 Hl) as Hold.
  assert (world (heap s1) s1 (pairs classes ++ large h0)) as W1.
  { eapply world_extra; [exact Hold|]. apply world_set_heap, Hmg. }
  assert (List.length classes = 5%nat) as Hlen by (rewrite length_zip, (lo_free _ Hl), (lo_full _ Hl); done).
  eapply or_oom_bind.
  { apply (sweep_classes_spec actor uninit outside others F HF (chunks s0) ext int 0 classes s1 [] 0 (large h0));
      [lia|done|].
    intros n a b Hn. apply (all_ready_agree _ _ _ s); [by apply classes_ready|done]. }
  intros [[[s2 swept] mixed] bytes1] (d1 & new1 & -> & Hp1 & Hlen1 & Hsp1 & Hcl1 & Hd1 & E1). rewrite app_nil_r.
  pose proof (sp_grows _ _ _ _ _ _ _ _ _ _ _ _ _ Hsp1) as Hg1.
  eapply or_oom_bind.
  { apply (sweep_large_spec actor uninit outside others F HF (chunks s0) ext int (large h0) s2 [] (d1 :: tail
      (recyclable heap_init)) bytes1 (pairs classes)).
    - eapply world_extra; [apply Permutation_app_comm|apply Hg1].
    - apply (all_ready_agree _ _ _ s); [apply large_ready|]. intros c Hc. by rewrite (gr_chunks _ _ _ _ _ _ _ _ Hg1).
    - constructor; [done|]. intros [|j] x Hj; [by injection Hj as <-|]. cbn in Hj.
      assert (x = []) as -> by (destruct j as [|[|[|j]]]; by try injection Hj as <-). constructor.
    - intros c Hc. cbn in Hc. rewrite app_nil_r in Hc. rewrite <- Hp1. apply elem_of_app. by right. }
  intros [[[s3 temp_large] td] bytes] (l & d2 & new2 & -> & Hp2 & Hc2 & Hr2 & Hov & Hsp2 & Hl2 & E2).
  rewrite app_nil_r.
  cbn in Hc2. rewrite app_nil_r in Hc2.
  assert (overflow (d1 :: tail (recyclable heap_init)) = []) as Eov by done. rewrite Eov in Hov.
  apply (Hg s3 swept l td bytes (new1 ++ new2)). constructor.
  - apply (sweeps_app outside others F (chunks s0) ext int s1 s2 s3 (pairs classes) (large h0) [] new1 new2 0 bytes1
      bytes); by rewrite app_nil_r.
  - rewrite Hc2. rewrite <- Hp1, <- Hp2. solve_perm.
  - intros n a b Hn. destruct (Hcl1 n a b Hn) as [Ha Hb].
    assert (forall c, c ∈ a ++ b -> chunks s3 !! c = chunks s2 !! c) as Hsame.
    { intros c Hc. apply (sp_grows _ _ _ _ _ _ _ _ _ _ _ _ _ Hsp2). rewrite <- Hp1. apply elem_of_app. left.
      unfold pairs. apply list_elem_of_bind. exists (a, b). split; [done|]. by eapply list_elem_of_lookup_2. }
    split; (eapply chunk_in_same; [done|]); intros c Hc; apply Hsame, elem_of_app; tauto.
  - lia.
  - done.
  - done.
  - apply Permutation_nil_r. rewrite (kept_perm _ _ _ Hc2), kept_app, E1, E2. done.
  - cbn in Hov. lia.
Qed.
End gc.

(** ** The new lists of the heap *)

Lemma concat_lists h : concat (lists h) = concat (small_free h) ++ concat (small_full h) ++ large h ++ concat
  (recyclable h).
Proof. unfold lists. rewrite !concat_app. cbn [concat]. by rewrite app_nil_r. Qed.

Lemma used_concat h : lists_ok h -> used_chunks h ≡ₚ concat (small_free h) ++ concat (small_full h) ++ large h.
Proof. intros Hl. rewrite used_old, pairs_zip by (done || by rewrite (lo_free _ Hl), (lo_full _ Hl)). solve_perm. Qed.

Lemma lists_fits (s : state) h :
  lists_ok h ->
  (forall n l, small_free h !! n = Some l -> Forall (chunk_in (chunks s) n) l) ->
  (forall n l, small_full h !! n = Some l -> Forall (chunk_in (chunks s) (5 + n)) l) ->
  Forall (chunk_in (chunks s) LARGE) (large h) -> recycled s (recyclable h) ->
  forall j l, lists h !! j = Some l -> Forall (chunk_in (chunks s) j) l.
Proof.
  intros [L1 L2 L3] H1 H2 H3 [_ H4] j l. unfold lists.
  intros [Hj|[Hge Hj]]%lookup_app_Some; [by apply H1|]. rewrite L1 in *.
  apply lookup_app_Some in Hj as [Hj|[Hge' Hj]];
    [specialize (H2 _ _ Hj); by replace (5 + (j - 5))%nat with j in H2 by lia|]. rewrite L2 in *.
  apply lookup_app_Some in Hj as [Hj|[Hge'' Hj]].
  - destruct (j - 5 - 5)%nat as [|i] eqn:E; [|by destruct i]. injection Hj as <-.
    by replace j with LARGE by (unfold LARGE; lia).
  - cbn [List.length] in *. specialize (H4 _ _ Hj). unfold RECYCLABLE in H4.
    by replace (11 + (j - 5 - 5 - 1))%nat with j in H4 by lia.
Qed.

Lemma world_recycled h s extra : world h s extra -> recycled s (recyclable h).
Proof.
  intros W. pose proof (world_lists_ok _ _ _ _ _ W) as Hl. constructor; [apply Hl|].
  intros j x Hj. apply (wo_fits _ _ _ _ _ W). by rewrite lists_lookup_recyclable.
Qed.

Lemma recycled_insert (s : state) l i x y :
  recycled s l -> l !! i = Some x -> Forall (chunk_in (chunks s) (RECYCLABLE + i)) y ->
  recycled s (<[i := y ++ x]> l) /\ concat (<[i := y ++ x]> l) ≡ₚ y ++ concat l.
Proof.
  intros [Hlen Hl] Hx Hy. split.
  - constructor; [by rewrite length_insert|].
    intros j z [(<- & <- & _)|[_ Hz]]%list_lookup_insert_Some;
      [apply Forall_app; split; [done|by apply Hl]|by apply Hl].
  - apply (Permutation_app_inv_l x). etrans; [symmetry; apply (concat_take l i x (y ++ x) Hx)|]. solve_perm.
Qed.

Lemma recycled_elem (s : state) l c : recycled s l -> c ∈ concat l ->
  exists q, chunks s !! c = Some q /\ free_chunk q.
Proof.
  intros Hr Hc. apply list_elem_of_In, in_concat in Hc as (x & Hx & Hc). apply list_elem_of_In in Hx, Hc.
  apply list_elem_of_lookup in Hx as [j Hj]. pose proof (recycled_free _ _ _ _ Hr Hj) as Hf.
  rewrite Forall_forall in Hf.
  destruct (Hf c Hc) as (q & Eq & Hq & _). by exists q.
Qed.

(** The lists after the merge, when the free chunks of the last collection are still there. *)
Lemma merge_lists (s : state) swept temp_large td E :
  world (heap s) s E -> class_lists s 0 swept -> List.length swept = 5%nat ->
    Forall (chunk_in (chunks s) LARGE) temp_large -> recycled s td ->
  pairs swept ++ temp_large ++ concat td ≡ₚ E ->
  exists mixed free full mixed' large' td' k d,
    list_at td HEAP_RECYCLE_MIXED = Ret mixed /\
    merge_classes s (small_free (heap s)) (small_full (heap s)) swept mixed = Ret (free, full, mixed') /\
    merge_large s (large (heap s)) temp_large (<[0%nat := mixed']> td) = Ret (large', td') /\
    k ++ d ≡ₚ used_chunks (heap s) /\ (forall c, c ∈ d -> exists q, chunks s !! c = Some q /\ free_chunk q) /\
    (List.length (overflow td') <= List.length (large (heap s)) + List.length (overflow td))%nat /\
    forall u nx, let h := mk_heap free full large' td' u nx in
      world h s (concat (recyclable (heap s))) /\ used_chunks h ≡ₚ k ++ pairs swept ++ temp_large.
Proof.
  intros W Hcl Hlen Htl Htd Hp. pose proof (world_lists_ok _ _ _ _ _ W) as Hl.
  destruct (nth_list td 4 0 (rc_length _ _ Htd) ltac:(lia)) as [mixed Em].
  destruct (merge_classes_spec s 0 (small_free (heap s)) (small_full (heap s)) swept mixed) as
    (free & full & k1 & d1 & E1 & Hp1 & Hc1 & Hd1 & L1 & L2 & F1 & F2).
  { rewrite (lo_free _ Hl). lia. } { rewrite (lo_full _ Hl). lia. } { lia. }
  { intros n l Hn. pose proof (lookup_lt_Some _ _ _ Hn) as Hlt. rewrite (lo_free _ Hl) in Hlt.
    apply (wo_fits _ _ _ _ _ W). by rewrite lists_lookup_free. }
  { intros n l Hn. pose proof (lookup_lt_Some _ _ _ Hn) as Hlt. rewrite (lo_full _ Hl) in Hlt.
    apply (wo_fits _ _ _ _ _ W). by rewrite lists_lookup_full. }
  { done. }
  destruct (recycled_insert s td 0 mixed d1 Htd Em) as [Htd1 Hctd1]; [by rewrite Nat.add_0_r|].
  destruct (merge_large_spec s (large (heap s)) temp_large _ (wo_fits _ _ _ _ _ W LARGE _ (lists_lookup_large _ Hl))
    Htd1) as
    (k2 & d2 & td' & E2 & Hp2 & Hk2 & Hc2 & Htd' & Hov).
  exists mixed, free, full, (d1 ++ mixed), (k2 ++ temp_large), td', (k1 ++ k2), (d1 ++ d2).
  split; [by apply list_at_lookup|]. split; [exact E1|]. split; [exact E2|].
  split;
    [rewrite used_concat by done; transitivity ((k1 ++ d1) ++ (k2 ++ d2)); [solve_perm|]; rewrite Hp1, Hp2;
      solve_perm|].
  split.
  { intros c Hc. apply (recycled_elem _ _ _ Htd'). rewrite Hc2, Hctd1,
      !elem_of_app. apply elem_of_app in Hc as [Hc|Hc]; tauto. }
  split; [unfold overflow in *; by rewrite list_lookup_insert_ne in Hov by done|].
  intros u nx h. assert (lists_ok h) as Hlh by (constructor; cbn; [lia|lia|apply Htd']).
  split.
  - eapply world_relist; [exact W|done| |].
    + apply lists_fits; [done|exact F1|exact F2|by apply Forall_app|exact Htd'].
    + rewrite !concat_lists. cbn [h small_free small_full large recyclable].
      transitivity ((concat free ++ concat full) ++ k2 ++ temp_large ++ concat td' ++ concat (recyclable (heap s)));
        [solve_perm|].
      rewrite Hc1, Hc2, Hctd1. rewrite <- Hp.
      transitivity ((k1 ++ d1) ++ (k2 ++ d2) ++ pairs swept ++ temp_large ++ concat td ++ concat (recyclable (heap
        s))); [solve_perm|].
      rewrite Hp1, Hp2. solve_perm.
  - rewrite used_concat by done. cbn [h small_free small_full large]. rewrite app_assoc, Hc1. solve_perm.
Qed.

(** Giving back the old free chunks, and sorting the new ones. *)
Lemma finish_phase (s : state) h h4 :
  world h s (concat (recyclable (heap s))) -> recycled s (recyclable (heap s)) ->
    Z.of_nat (List.length (overflow (recyclable h))) <= INT32_MAX ->
  exists s4 large_chunks sorted,
    destroy_recyclable actor uninit (set_heap s h4) (recyclable (heap s)) = Ret s4 /\
    list_at (recyclable h) HEAP_RECYCLE_LARGE_OVERFLOW = Ret large_chunks /\
      sort_chunks s4 large_chunks = Ret sorted /\
    heap s4 = h4 /\ trace s4 = trace s /\
    forall u nx,
      let s5 := set_heap s4 (mk_heap (small_free h) (small_full h) (large h)
                  (<[Z.to_nat HEAP_RECYCLE_LARGE_OVERFLOW := sorted]> (recyclable h)) u nx) in
      heap_ok s5 /\ heap_objects s5 = objs (chunks s) (used_chunks h).
Proof.
  intros W Hr Hmax. pose proof (world_lists_ok _ _ _ _ _ W) as Hl.
  destruct (destroy_recyclable_spec actor uninit outside others h (set_heap s h4) (recyclable (heap s)) []) as (s4 &
    E4 & W4 & Hh & Ht & Hc).
  { rewrite app_nil_r. by apply world_set_heap. }
  { eapply recycled_agree; [exact Hr|done]. }
  destruct (nth_list (recyclable h) 4 3 (lo_recyclable _ Hl) ltac:(lia)) as [x Ex].
  assert (overflow (recyclable h) = x) as Eov by (unfold overflow; by rewrite Ex). rewrite Eov in Hmax.
  assert (lists h !! (RECYCLABLE + 3)%nat = Some x) as Ej by (by rewrite lists_lookup_recyclable).
  pose proof (recycled_free s4 _ 3 x (world_recycled _ _ _ W4) Ex) as Hx.
  destruct (sort_chunks_list_spec s4 x) as (sorted & Es & Hp); [|done|].
  { eapply Forall_impl; [exact Hx|]. intros c (k & Ek & _ & Hs). exists k. split; [done|]. apply Hs. lia. }
  exists s4, x, sorted. split; [done|]. split; [by apply list_at_lookup|]. split; [done|]. split; [done|].
  split; [done|].
  intros u nx s5. set (h5 := mk_heap (small_free h) (small_full h) (large h) (recyclable h) u nx).
  assert (lists_ok h5) as Hl5 by (destruct Hl; by constructor).
  destruct (lists_set_recyclable h5 Hl5 HEAP_RECYCLE_LARGE_OVERFLOW sorted ltac:(done)) as [El Hls].
  change (heap_ok s5) with (world (set_recyclable h5 HEAP_RECYCLE_LARGE_OVERFLOW sorted) s5 []).
  change (heap_objects s5) with (live (set_recyclable h5 HEAP_RECYCLE_LARGE_OVERFLOW sorted) (chunks s4)).
  split.
  - apply world_set_heap. eapply world_set; [exact W4|exact Ej|exact El|done| |by rewrite Hp].
    pose proof (wo_fits _ _ _ _ _ W4 _ _ Ej) as Hf. by rewrite Hp.
  - unfold live. rewrite El. change (RECYCLABLE + Z.to_nat HEAP_RECYCLE_LARGE_OVERFLOW)%nat with 14%nat.
    rewrite take_insert_ge by (unfold RECYCLABLE; lia). apply objs_agree. intros c Hin. apply Hc. intros Hrec.
    pose proof (owned_nodup _ _ _ _ _ W) as Hnd. apply NoDup_app in Hnd as (_ & Hn & _). apply (Hn c); [|done].
    rewrite <- (take_drop RECYCLABLE (lists h)), concat_app. apply elem_of_app. by left.
Qed.

(** ** The whole collection *)
Section whole.
Context (F : nat) (HF : forall tr p, (List.length (allocations tr p) <= F)%nat).

(** Large chunks have one object. *)
Lemma large_objects (s : state) l : Forall (chunk_in (chunks s) LARGE) l ->
  List.length (objs (chunks s) l) = List.length l.
Proof.
  induction 1 as [|c l (k & Ek & Hk) _ IH]; [done|]. rewrite (objs_cons _ _ _ _ Ek), length_app, IH.
  cbn in Hk. destruct Hk as (Es & Hs & _). unfold objects, objects_of. rewrite length_fmap, Hs.
  assert (v_all (view k) = 1) as -> by (unfold view; by rewrite Es). done.
Qed.

Lemma large_bound (s : state) extra : world (heap s) s extra ->
  (List.length (large (heap s)) <= List.length (heap_objects s))%nat.
Proof.
  intros W. pose proof (world_lists_ok _ _ _ _ _ W) as Hl.
  rewrite <- (large_objects s (large (heap s))) by (apply (wo_fits _ _ _ _ _ W), lists_lookup_large, Hl).
  unfold heap_objects, live. fold (used_chunks (heap s)).
  rewrite (objs_perm _ _ _ (used_concat _ Hl)), !objs_app, !length_app. lia.
Qed.

(** Free chunks have no objects that are to be finalised. *)
Lemma free_objects (s : state) l o :
  (forall c, c ∈ l -> exists q, chunks s !! c = Some q /\ free_chunk q) -> o ∈ objs (chunks s) l -> o_final o = false.
Proof.
  intros Hl Ho. unfold objs in Ho. apply list_elem_of_bind in Ho as (c & Ho & Hc).
  destruct (Hl c Hc) as (q & Eq & Hq).
  rewrite Eq in Ho. apply elem_of_objects in Ho as (i & _ & _ & _ & ->). cbn. by rewrite Hq, Z.bits_0.
Qed.

(** What a collection does when the objects [old] are in the heap, those of [reached] are
    marked, and [new] is allocated by finalisers: the marked objects stay; each object that is
    not marked and has a finaliser is finalised, once; of the objects of finalisers, at least
    those that are to be finalised stay. *)
Record collected (s s' : state) (old : list heap_object) (reached : heap_object ->
  Prop) `{forall o, Decision (reached o)} : Prop := {
  co_heap : heap_ok s';
  co_events : exists tr stay, trace s' = trace s ++ tr /\
    finals tr ≡ₚ o_addr <$> filter (fun o => o_final o = true /\ ~ reached o) old /\
    heap_objects s' ≡ₚ filter reached old ++ stay /\
    (exists gone, allocs tr ≡ₚ stay ++ gone /\ Forall (fun o => o_final o = false) gone) /\
    (forall o o', o ∈ allocs tr -> o' ∈ old -> ranges_disjoint (o_range o) (o_range o')) /\
    used (heap s') = u64 (used (heap s) + sizes (filter reached old) + sizes (allocs tr))
}.

Lemma u64_sum a b c d x : u64 a = u64 (b + c) -> u64 x = u64 (0 + d) -> a ⊞ x = u64 (b + d + c).
Proof.
  unfold add64, u64, wrap. intros E1 E2. rewrite <- Z.add_mod_idemp_l, E1, Z.add_mod_idemp_l by done.
  rewrite <- Z.add_mod_idemp_r, E2, Z.add_mod_idemp_r by done. f_equal. lia.
Qed.

Section endgc.
Context (s0 s : state) (ext int : gset Z) (W0 : heap_ok s0) (Hmg : marking s0 s ext int).

Lemma marked_old : filter (marked ext int) (heap_objects s0) ≡ₚ kept (chunks s0) ext int (pairs (zip (small_free
  (heap s0)) (small_full (heap s0))) ++ large (heap s0)).
Proof.
  unfold kept, heap_objects, live. fold (used_chunks (heap s0)).
  by rewrite (objs_perm _ _ _ (used_old _ (world_lists_ok _ _ _ _ _ W0))).
Qed.

Lemma dead_old : o_addr <$> filter (fun o => o_final o = true /\ ~ marked ext int o) (heap_objects s0) ≡ₚ
  dead (chunks s0) ext int (pairs (zip (small_free (heap s0)) (small_full (heap s0))) ++ large (heap s0)).
Proof.
  unfold dead, heap_objects, live. fold (used_chunks (heap s0)).
  by rewrite (objs_perm _ _ _ (used_old _ (world_lists_ok _ _ _ _ _ W0))).
Qed.

(** A finaliser does not get memory of the objects that are swept. *)
Lemma new_disjoint s1 s3 swept temp_large td bytes new o o' :
  swept_heap F s0 ext int s1 s3 swept temp_large td bytes new -> o ∈ heap_objects s3 -> o' ∈ heap_objects s0 ->
  ranges_disjoint (o_range o) (o_range o').
Proof.
  intros H Ho Ho'. pose proof (sh_sweeps _ _ _ _ _ _ _ _ _ _ _ H) as Hsp.
  pose proof (gr_world _ _ _ _ _ _ _ _ (sp_grows _ _ _ _ _ _ _ _ _ _ _ _ _ Hsp)) as W3.
  rewrite app_nil_r in W3.
  destruct (elem_of_live _ _ _ _ _ _ W3 Ho) as (c & k & i & Hc & Ek & Hk & Hi & Ha & _ & ->).
  destruct (elem_of_live _ _ _ _ _ _ W0 Ho') as (d & q0 & j & Hd & Eq0 & Hq0 & Hj & Haj & _ & ->).
  assert (d ∈ pairs (zip (small_free (heap s0)) (small_full (heap s0))) ++ large (heap s0)) as Hdold
    by (rewrite <- (used_old _ (world_lists_ok _ _ _ _ _ W0)); done).
  pose proof (sp_swept _ _ _ _ _ _ _ _ _ _ _ _ _ Hsp) as Hall. unfold all_swept in Hall.
  rewrite Forall_forall in Hall.
  destruct (Hall d Hdold) as (q & k' & Hsw). rewrite (sw_old _ _ _ _ _ _ _ Hsw) in Eq0. injection Eq0 as ->.
  destruct (sw_block _ _ _ _ _ _ _ Hsw) as [Em Ee].
  destruct (slot_bounds k i Hk ltac:(lia) Ha) as (_ & B1 & B2),
    (slot_bounds q0 j Hq0 ltac:(lia) Haj) as (_ & B3 & B4).
  pose proof (view_base k). pose proof (view_base q0). unfold ranges_disjoint, o_range.
  cbn [slot_object o_addr o_size fst snd].
  destruct (Z_le_gt_dec (v_base (view k) + 32 * i + v_unit (view k)) (v_base (view q0) + 32 * j)); [by left|].
  destruct (Z_le_gt_dec (v_base (view q0) + 32 * j + v_unit (view q0)) (v_base (view k) + 32 * i)); [by right|].
  exfalso. assert (c = d) as ->.
  { apply (blocks_disjoint _ _ _ s3 _ W3 c k d k' (Z.max (v_base (view k) + 32 * i) (v_base (view q0) + 32 * j)) Ek
      (sw_chunk _ _ _ _ _ _ _ Hsw));
      unfold in_block; rewrite ?Em, ?Ee; unfold extent; lia. }
  pose proof (owned_nodup _ _ _ _ _ W3) as Hnd. apply NoDup_app in Hnd as (_ & Hn & _). apply (Hn d); [|done].
  rewrite <- (take_drop RECYCLABLE (lists (heap s3))), concat_app. apply elem_of_app. by left.
Qed.

Lemma endgc_spec n :
  Z.of_nat (List.length (heap_objects s0)) * (1 + Z.of_nat F) <= INT32_MAX ->
  or_oom (ponyint_heap_endgc actor uninit heap_initialgc nextgc_times s n)
    (fun s' => collected s s' (heap_objects s0) (marked ext int)).
Proof.
  intros Hbound. unfold ponyint_heap_endgc. rewrite (mg_heap _ _ _ _ Hmg).
  apply (sweep_phase F HF s0 s ext int W0 Hmg (fun s swept temp_large to_destroy bytes => _)).
  intros s3 swept temp_large td bytes new H.
  pose proof H as [Hsp Hch Hcl Hlen Htl Htd Hfree Hov]. pose proof (sp_grows _ _ _ _ _ _ _ _ _ _ _ _ _ Hsp) as Hg.
  pose proof (gr_world _ _ _ _ _ _ _ _ Hg) as W3. rewrite app_nil_r in W3.
  assert (heap_objects s3 ≡ₚ new) as Hnew.
  { etrans; [apply (gr_live _ _ _ _ _ _ _ _ Hg)|]. cbn [set_heap heap chunks]. by rewrite live_emptied, app_nil_r. }
  destruct (merge_lists s3 swept temp_large td _ W3 Hcl Hlen Htl Htd Hch) as
    (mixed & free & full & mixed' & large' & td' & k & d & -> & E1 & E2 & Hkd & Hd & Hov' & Hh).
  cbn [mbind outcome_bind]. rewrite E1. cbn [mbind outcome_bind]. rewrite E2. cbn [mbind outcome_bind]. clear E1 E2.
  destruct (Hh 0 0) as [W5 Hused].
  destruct (finish_phase s3 _ (mk_heap free full large' (recyclable (heap s3)) (used (heap s3)) (next_gc (heap s3)))
    W5 (world_recycled _ _ _ W3)) as
    (s4 & x & sorted & E4 & E5 & E6 & Hheap & Htr & Hfin).
  { cbn [recyclable]. pose proof (large_bound s3 _ W3) as B1. rewrite (Permutation_length Hnew) in B1.
    pose proof (sp_few _ _ _ _ _ _ _ _ _ _ _ _ _ Hsp) as B2. unfold few in B2. pose proof (large_bound s0 _ W0) as B3.
    rewrite <- (Permutation_length dead_old), length_fmap in B2.
    pose proof (length_filter (fun o => o_final o = true /\ ~ marked ext int o) (heap_objects s0)) as B4. nia. }
  rewrite E4. cbn [mbind outcome_bind]. cbn [recyclable] in E5. rewrite E5. cbn [mbind outcome_bind]. rewrite E6.
  cbn [mbind outcome_bind or_oom].
  rewrite Hheap. cbn [small_free small_full large recyclable used next_gc] in *.
  match goal with |- collected s (set_heap s4 (mk_heap _ _ _ _ ?u ?nx)) _ _ => destruct (Hfin u nx) as [Hok Hobj];
    set (s5 := set_heap s4 _) in * end.
  constructor; [exact Hok|].
  destruct (gr_trace _ _ _ _ _ _ _ _ Hg) as (tr & Etr & Ealloc & Efin).
  exists tr, (objs (chunks s3) k). split; [cbn; by rewrite Htr, Etr|]. split; [by rewrite Efin, dead_old|].
  assert (objs (chunks s3) (pairs swept ++ temp_large) ≡ₚ filter (marked ext int) (heap_objects s0)) as Hkept.
  { rewrite marked_old, <- (objs_swept _ _ _ _ _ (sp_swept _ _ _ _ _ _ _ _ _ _ _ _ _ Hsp)).
    rewrite <- (objs_perm _ _ _ Hch), app_assoc, (objs_app _ (pairs swept ++ temp_large)).
    rewrite (objs_swept (chunks s0) ext int s3 (concat td)), Hfree; [by rewrite app_nil_r|].
    pose proof (sp_swept _ _ _ _ _ _ _ _ _ _ _ _ _ Hsp) as Hall. unfold all_swept in *.
    rewrite <- Hch, !Forall_app in Hall. tauto. }
  split.
  { rewrite Hobj, (objs_perm _ _ _ Hused), objs_app, Hkept. apply Permutation_app_comm. }
  split.
  { exists (objs (chunks s3) d). rewrite Ealloc. split.
    - rewrite <- Hnew, <- objs_app. unfold heap_objects, live. fold (used_chunks (heap s3)).
      by rewrite (objs_perm _ _ _ Hkd).
    - apply Forall_forall. intros o Ho. by eapply free_objects. }
  split.
  { intros o o' Ho Ho'. rewrite Ealloc, <- Hnew in Ho. by eapply new_disjoint. }
  rewrite Ealloc. cbn [s5 set_heap heap used].
  rewrite (u64_sum _ _ _ _ _ (gr_used _ _ _ _ _ _ _ _ Hg) (sp_used _ _ _ _ _ _ _ _ _ _ _ _ _ Hsp)).
  rewrite (sizes_perm _ _ marked_old). cbn [set_heap heap emptied used]. by rewrite (mg_heap _ _ _ _ Hmg).
Qed.
End endgc.

Lemma filter_ext_in (Q R : heap_object ->
  Prop) `{!forall o, Decision (Q o)} `{!forall o, Decision (R o)} (l : list heap_object) :
  (forall o, o ∈ l -> Q o <-> R o) -> filter Q l = filter R l.
Proof.
  induction l as [|o l IH]; intros Hl; [done|]. rewrite !filter_cons, IH by (intros; apply Hl; by right).
  specialize (Hl o ltac:(left)). do 2 case_decide; tauto || done.
Qed.

(** An object is known by its address. *)
Lemma object_address s o o' : heap_ok s -> o ∈ heap_objects s -> o' ∈ heap_objects s -> o_addr o = o_addr o' ->
  o = o'.
Proof.
  intros W Ho Ho' E.
  destruct (elem_of_live _ _ _ _ _ _ W Ho) as (c & k & i & _ & Ek & Hk & Hi & Ha & _ & ->).
  destruct (elem_of_live _ _ _ _ _ _ W Ho') as (d & q & j & _ & Eq & Hq & Hj & Haj & _ & ->).
  cbn [slot_object o_addr] in E.
  destruct (slot_bounds k i Hk ltac:(lia) Ha) as (_ & B1 & B2), (slot_bounds q j Hq ltac:(lia) Haj) as (_ & B3 & B4).
  pose proof (view_base k). pose proof (view_base q).
  assert (c = d) as -> by (apply (blocks_disjoint _ _ _ s _ W c k d q (v_base (view k) + 32 * i) Ek Eq);
    unfold in_block, extent; lia).
  rewrite Ek in Eq. injection Eq as <-. f_equal. lia.
Qed.

Lemma collected_ext s s' old (Q R : heap_object -> Prop) `{!forall o, Decision (Q o)} `{!forall o, Decision (R o)} :
  (forall o, o ∈ old -> Q o <-> R o) -> collected s s' old Q -> collected s s' old R.
Proof.
  intros Hl [H1 (tr & stay & H2 & H3 & H4 & H5 & H6 & H7)]. constructor; [done|]. exists tr, stay.
  rewrite <- (filter_ext_in Q R) by done.
  rewrite <- (filter_ext_in (fun o => o_final o = true /\ ~ Q o) (fun o => o_final o = true /\ ~ R o))
    by (intros o Ho; by rewrite (Hl o Ho)).
  by split_and!.
Qed.

(** C10 A collection is exact: when the addresses that are marked lie in objects of the heap, no
    assertion fails and no loop runs on, marking tells whether an object was marked from outside
    before, and after the sweep the heap is well formed and has the marked objects, each where
    it was, with objects that finalisers have allocated: at least those that are to be finalised
    themselves.  Each other object that has a finaliser is finalised, exactly once; its memory
    and that of all others is not given to finalisers; and the bytes in use are counted.  The
    sweep sorts free chunks with counters of 32 bits, so that the number of objects is limited. *)
Theorem heap_gc_exact s calls n :
  heap_ok s -> Forall (fun '(call, o) => addresses s call o) calls ->
  Z.of_nat (List.length (heap_objects s)) * (1 + Z.of_nat F) <= INT32_MAX ->
  let s1 := (ponyint_heap_startgc s).1 in
  exists s2, run_marks s1 calls.*1 = Ret (s2, mark_results ∅ calls) /\
    match ponyint_heap_endgc actor uninit heap_initialgc nextgc_times s2 n with
    | Ret s3 => collected s1 s3 (heap_objects s) (fun o => o ∈ calls.*2)
    | Exit => True
    | Abort | NoFuel => False
    end.
Proof.
  intros W Hc Hb s1.
  assert (heap_ok s1 /\ heap_objects s1 = heap_objects s /\ forall call o, addresses s call o ->
    addresses s1 call o) as (W1 & E1 & Hc1).
  { unfold s1, ponyint_heap_startgc. destruct (used (heap s) <=? next_gc (heap s)); [done|]. split; [|done].
    eapply world_state; [exact W|done..|]. by destruct (world_lists_ok _ _ _ _ _ W). }
  destruct (run_marks_spec s1 s1 ∅ ∅ calls W1 (marking_start _ W1)) as (s2 & ext & int & E & Hm & Hs).
  { eapply Forall_impl; [exact Hc|]. intros [call o]. apply Hc1. }
  exists s2. split; [done|]. pose proof (endgc_spec s1 s2 ext int W1 Hm n) as Hend. rewrite E1 in Hend.
  specialize (Hend Hb).
  assert (trace s2 = trace s1 /\ used (heap s2) = used (heap s1)) as [Etr Eu]
    by (by rewrite (mg_trace _ _ _ _ Hm), (mg_heap _ _ _ _ Hm)).
  destruct (ponyint_heap_endgc _ _ _ _ s2 n) as [s3| | |]; try done. cbn [or_oom] in Hend.
  eapply (collected_ext s1 s3 _ (marked ext int)).
  - intros o Ho. unfold marked. rewrite Hs. split.
    + intros [H|H]; [set_solver|]. apply list_elem_of_fmap in H as (o' & Ea & Ho').
      apply list_elem_of_fmap in Ho' as ([call o''] & -> & Hin). rewrite Forall_forall in Hc.
      destruct (Hc _ Hin) as [Hlive _]. cbn in *.
      assert (o = o'') as -> by (by apply (object_address s)). apply list_elem_of_fmap. by exists (call, o'').
    + intros H. right. apply list_elem_of_fmap. by exists o.
  - destruct Hend as [H1 (tr & stay & H2 & H3)]. constructor; [done|]. exists tr, stay. rewrite <- Etr, <- Eu. done.
Qed.
End whole.

(** ** Allocation *)

(** A new object, of at least [size] bytes, in memory that nothing else has. *)
Record allocated (s s' : state) (size : Z) (o : heap_object) : Prop := {
  ad_heap : heap_ok s';
  ad_objects : heap_objects s' ≡ₚ o :: heap_objects s;
  ad_size : size <= o_size o;
  ad_address : 0 < o_addr o /\ (HEAP_MIN | o_addr o) /\ o_addr o + o_size o <= 2 ^ 48;
  ad_disjoint : Forall (fun o' => ranges_disjoint (o_range o) (o_range o')) (heap_objects s);
  ad_outside : Forall (fun r => 0 < r.2 -> ranges_disjoint (o_range o) r) outside;
  ad_trace : exists tr, trace s' = trace s ++ tr /\ allocs tr = [o] /\ finals tr = [];
  ad_used : u64 (used (heap s')) = u64 (used (heap s) + o_size o);
  ad_next : next_gc (heap s') = next_gc (heap s)
}.

Lemma grows_allocated s s' size o : size <= o_size o -> grows [] [] s s' [o] [] -> allocated s s' size o.
Proof.
  intros Hn [W L _ T U N]. cbn [app] in L. assert (o ∈ live (heap s') (chunks s')) as Ho by (rewrite L; left).
  destruct (elem_of_live _ _ _ _ _ _ W Ho) as (c & k & i & _ & Ek & Hk & Hi & Ha & _ & Eo).
  destruct (live_range _ _ _ _ _ _ W Ho) as (R1 & R2 & R3).
  constructor; try done.
  - split_and!; [done| |done]. subst o. cbn [slot_object o_addr]. rewrite view_base.
    destruct (co_align _ Hk) as [q ->].
    exists (q * 32 + i). change HEAP_MIN with 32. change POOL_ALIGN with 1024. lia.
  - pose proof (live_disjoint _ _ _ _ _ W) as Hd.
    apply (pairwise_disjoint_perm _ (o_range <$> (o :: heap_objects s))) in Hd;
      [|by rewrite L]. destruct Hd as [Hd _]. rewrite Forall_forall in Hd. apply Forall_forall. intros o' Ho'.
      apply Hd, (list_elem_of_fmap_2 o_range), Ho'.
  - apply Forall_forall. intros r Hr Hpos. unfold ranges_disjoint.
    destruct (Z_le_gt_dec ((o_range o).1 + (o_range o).2) r.1); [by left|].
    destruct (Z_le_gt_dec (r.1 + r.2) (o_range o).1); [by right|].
    exfalso. destruct (slot_bounds k i Hk ltac:(lia) Ha) as (_ & B1 & B2). pose proof (view_base k).
    apply (block_outside _ _ _ _ _ W c k r (Z.max (o_addr o) r.1) Ek Hr); subst o; unfold in_block, in_range, extent;
      unfold o_range in *; cbn [slot_object o_addr o_size fst snd] in *; lia.
  - rewrite U. unfold sizes. cbn. by rewrite Z.add_0_r.
Qed.

(** C11 Allocation fails only when the system has no memory.  Otherwise it gives an object of at
    least the size asked for, aligned on 32 bytes, that does not overlap the objects of the heap
    nor the memory of others; the objects of the heap are as before, with the new one, whose
    finaliser is tracked as requested and whose bytes are counted. *)
Theorem heap_alloc_correct s size mask :
  heap_ok s -> 0 < size < 2 ^ 64 -> track_ok mask ->
  match ponyint_heap_alloc actor uninit s size mask with
  | Ret (s', p) => exists n, allocated s s' size (mk_object p n (tracked mask))
  | Exit => True
  | Abort | NoFuel => False
  end.
Proof.
  intros W Hs Ht.
  pose proof (alloc_spec actor uninit outside others s [] size mask W ltac:(unfold is_u64; lia) Ht) as Ha.
  destruct (ponyint_heap_alloc actor uninit s size mask) as [[s' p]| | |]; try done. cbn [or_oom] in Ha.
  rewrite (proj2 (Z.eqb_neq size 0)) in Ha by lia. destruct Ha as (n & Hn & Hg). exists n. by apply grows_allocated.
Qed.

(** C39 Reallocation of what starts at an address of an object makes a new object, for which no
    finaliser is tracked, and copies to it at most [copy] bytes and at most what is left of the
    old one. *)
Theorem heap_realloc_correct s o p size copy :
  heap_ok s -> o ∈ heap_objects s -> in_range (o_range o) p -> 0 < size < 2 ^ 64 -> 0 <= copy <= size ->
  match ponyint_heap_realloc actor uninit s p size copy with
  | Ret (s', q, n) => n = Z.min copy (o_addr o + o_size o - p) /\
      exists m, allocated s s' size (mk_object q m false) /\ 0 <= n <= m
  | Exit => True
  | Abort | NoFuel => False
  end.
Proof.
  intros W Ho Hp Hs Hc.
  pose proof (realloc_spec actor uninit outside others s [] o p size copy W ltac:(unfold is_u64; lia) Hc Ho Hp) as Ha.
  destruct (ponyint_heap_realloc actor uninit s p size copy) as [[[s' q] n]| | |]; try done. cbn [or_oom] in Ha.
  rewrite (proj2 (Z.eqb_neq size 0)) in Ha by lia. destruct Ha as (-> & m & Hm & Hg). split; [done|].
  exists m. split; [by apply grows_allocated|]. unfold in_range, o_range in Hp. cbn in Hp. lia.
Qed.

(** ** A new heap, and the end of one *)

Lemma heap_init_ok s :
  chunks s = ∅ -> pool_live (pool s) outside -> pagemap_ok (pagemap s) ->
  (forall r b, r ∈ outside -> in_range r b -> chunk_at (pagemap s) b = others b) ->
  (forall b, 0 <= b < 2 ^ PAGEMAP_ADDRESSBITS -> chunk_at (pagemap s) b <> NULL ->
    exists r, r ∈ outside /\ in_range r b) ->
  heap_ok (ponyint_heap_init heap_initialgc s).
Proof.
  intros Hc Hp Hm Ho Hu.
  constructor; cbn [ponyint_heap_init set_heap heap chunks pool pagemap]; rewrite ?Hc; try done.
  - intros j l Hj. assert (l = []) as ->; [|constructor]. apply list_elem_of_lookup_2 in Hj.
    change (lists (set_next_gc heap_init heap_initialgc)) with (replicate 15 (@nil Z)) in Hj.
    by apply elem_of_replicate in Hj as [? _].
  - intros b Hb Hne. right. by apply Hu.
Qed.
End collection.
