(* ===== verification/HeapEnd.v ===== *)
(** * The end of a heap

    When an actor is destroyed, the finalisers of all its objects run and then all chunks are
    given back.  The theorem is about finalisers that do not allocate (the hypothesis of the
    section).  When they do, they change the lists that are walked: [heap_final_skips], at the
    end, is a heap on which [ponyint_heap_final] then leaves out a finaliser. *)
From stdpp Require Import gmap.
From S2P Require Import Prelude Store Pool PageMap Chunk ChunkSort Heap HeapInv HeapAlloc HeapSweep HeapGc.
Local Open Scope Z_scope.
Local Open Scope c_scope.

Section heap_end.
Context {P M : Type} `{PO : PoolOps P} `{PMO : PageMapOps M} `{FI : Finalisers}.
Context (actor : Z) (uninit : Z -> Z) (outside : list range) (others : Z -> Z).
Context (Hnone : forall tr p, allocations tr p = []).

Abbreviation state := (state P M).
Abbreviation world := (world (P:=P) (M:=M) outside others).

(** ** Finalisers of a chunk *)

Definition add_finals (s : state) (ps : list Z) : state :=
  mk_state (pool s) (pagemap s) (chunks s) (heap s) (trace s ++ (Finalised <$> ps)).

Lemma add_finals_nil s : add_finals s [] = s.
Proof. unfold add_finals. cbn. rewrite app_nil_r. by destruct s. Qed.

Lemma add_finals_app s ps qs : add_finals (add_finals s ps) qs = add_finals s (ps ++ qs).
Proof. unfold add_finals. cbn. by rewrite fmap_app, <- app_assoc. Qed.

Lemma run_finaliser_none s p : run_finaliser actor uninit s p = Ret (add_finals s [p]).
Proof. unfold run_finaliser. by rewrite Hnone. Qed.

Lemma final_loop_none fuel s base fin :
  is_u32 fin -> (List.length (bits fin) <= fuel)%nat -> 0 <= base -> base + 1024 <= 2 ^ 48 ->
  final_loop actor uninit fuel s base fin = Ret (add_finals s ((fun i => base + 32 * i) <$> bits fin)).
Proof.
  revert s fin. induction fuel as [|fuel IH]; intros s fin Hf Hlen Hb1 Hb2; cbn [final_loop];
    (destruct (Z.eqb_spec fin 0) as [->|Hne]; [by rewrite bits_0, add_finals_nil|]);
    (destruct (bits_step fin) as (E & Hlt & Hc); [unfold is_u32 in Hf; lia|]); rewrite E in Hlen;
      cbn [List.length] in Hlen; [lia|].
  rewrite run_finaliser_none. cbn [mbind outcome_bind].
  rewrite IH, add_finals_app, E by (unfold is_u32 in *; lia). do 2 f_equal. cbn [fmap list_fmap app]. f_equal.
  change HEAP_MINBITS with 5. rewrite Z.shiftl_mul_pow2 by done. unfold add64. rewrite u64_id by (unfold is_u64; lia).
  lia.
Qed.

(** The objects of a chunk that are to be finalised. *)
Lemma final_objects v : masks_ok v -> objects_of v (v_fins v) = filter (fun o => o_final o = true) (objects v).
Proof.
  intros Hm. unfold objects, objects_of. rewrite filter_fmap_objects. cbn [slot_object o_final]. f_equal.
  apply filter_bits. intros i Hi. rewrite Z.ldiff_spec by lia. destruct (Z.testbit (v_fins v) i) eqn:E.
  - destruct (mo_fins _ Hm i E) as [-> ->]. by rewrite bool_decide_true.
  - by rewrite bool_decide_false, andb_false_r.
Qed.

Lemma final_mask_all k : chunk_ok k ->
  final_mask k FORCE_ALL_FINALISERS = finalisers k /\ finalisers (unset_finalisers k FORCE_ALL_FINALISERS) = 0.
Proof.
  intros Hk. pose proof (co_fins _ Hk) as Hu. unfold final_mask, unset_finalisers. cbn [set_finalisers finalisers].
  change FORCE_ALL_FINALISERS with (Z.ones 32).
  assert (forall i, 0 <= i < 32 -> Z.testbit (Z.lor (slots k) (Z.ones 32)) i = true) as Hall.
  { intros i Hi. by rewrite Z.lor_spec, Z.ones_spec_low, orb_true_r by lia. }
  split; by_bits i Hi; rewrite Z.land_spec; (destruct (decide (i < 32)) as [Hlt|Hge];
    [|rewrite (testbit_high 32 (finalisers k)) by (done || lia); by rewrite ?Z.bits_0]).
  - by rewrite Hall, andb_true_r by lia.
  - unfold not32, u32. rewrite wrap_testbit, Z.lnot_spec, Hall, Z.bits_0 by lia. by rewrite !andb_false_r.
Qed.

Definition final_addresses (k : chunk_t) : list Z := o_addr <$> objects_of (view k) (v_fins (view k)).

Lemma final_small_all s c k :
  chunks s !! c = Some k -> chunk_ok k -> get_chunk_is_small_chunk k = true -> get_m k + 1024 <= 2 ^ 48 ->
  exists k', final_small actor uninit s c FORCE_ALL_FINALISERS = Ret (add_finals (set_chunk s c k') (final_addresses
    k)) /\
    changes k k' (fun v => v_set_fins v 0).
Proof.
  intros Ek Hk Es Hm. destruct (final_mask_all k Hk) as [Em Ef]. pose proof (co_fins _ Hk) as Hu.
  unfold final_small, final_addresses. rewrite (get_chunk_lookup _ _ _ Ek). cbn [mbind outcome_bind]. rewrite Es.
  cbn [negb].
  change ((FORCE_ALL_FINALISERS =? FORCE_NO_FINALISERS) || (FORCE_ALL_FINALISERS =? FORCE_ALL_FINALISERS)) with true.
  cbn [negb].
  rewrite Em, objects_of_addresses, (proj2 (proj2 (view_small_masks k Es))), view_base.
  destruct (Z.eqb_spec (finalisers k) 0) as [E0|Hne].
  - exists k. rewrite E0, bits_0. cbn [fmap list_fmap]. rewrite add_finals_nil. split.
    + unfold set_chunk. rewrite insert_id by done. by destruct s.
    + split; [done|]. unfold v_set_fins. pose proof (proj2 (proj2 (view_small_masks k Es))) as Ev. rewrite E0 in Ev.
      destruct (view k). cbn in *. by rewrite Ev.
  - exists (unset_finalisers k FORCE_ALL_FINALISERS). rewrite final_loop_none.
    + split; [done|]. assert (is_u32 0) as H0 by done. destruct (set_masks_spec k Hk 0 Es H0) as (_ & _ & Hch).
      unfold unset_finalisers in *. cbn [set_finalisers finalisers] in Ef. by rewrite Ef.
    + done.
    + apply bits_length.
    + pose proof (co_base _ Hk). lia.
    + done.
Qed.

Lemma final_large_all s c k :
  chunks s !! c = Some k -> chunk_ok k -> get_chunk_is_small_chunk k = false ->
  exists k', final_large actor uninit s c = Ret (add_finals (set_chunk s c k') (final_addresses k)) /\
    changes k k' (fun v => v_set_fins v 0).
Proof.
  intros Ek Hk Es. unfold final_large, final_addresses. rewrite (get_chunk_lookup _ _ _ Ek). cbn [mbind outcome_bind].
  rewrite Es.
  destruct (get_large_flag_spec k Es) as (_ & _ & ->). cbn [mbind outcome_bind].
  rewrite objects_of_addresses, view_base.
  destruct (large_masks k Es) as (_ & Hf & _). destruct Hf as [E0|E1].
  - rewrite E0. exists k. change (0 =? 1) with false. cbn [mbind outcome_bind]. change (bits 0) with (@nil Z).
    cbn [fmap list_fmap].
    rewrite add_finals_nil. split.
    + unfold set_chunk. rewrite insert_id by done. by destruct s.
    + split; [done|]. unfold v_set_fins. destruct (view k). cbn in *. by rewrite E0.
  - rewrite E1. change (1 =? 1) with true. cbn [mbind outcome_bind]. rewrite run_finaliser_none.
    cbn [mbind outcome_bind].
    rewrite (get_chunk_lookup (add_finals s [get_m k]) c k Ek). cbn [mbind outcome_bind].
    destruct (set_large_flag_spec k Hk 0 Es) as (_ & _ & (k' & -> & Hch)). cbn [mbind outcome_bind]. exists k'.
    change (bits 1) with [0]. cbn [fmap list_fmap]. rewrite Z.add_0_r. split; [done|exact Hch].
Qed.

(** ** Finalisers of lists of chunks *)

Definition to_finalise (s : state) (l : list Z) : list Z := o_addr <$> filter (fun o => o_final o = true) (objs
  (chunks s) l).

(** The finalisers of the objects of the chunks [l] have run, and nothing else has changed. *)
Record finishes (s s' : state) (l : list Z) : Prop := {
  fs_heap : heap s' = heap s;
  fs_world h all : world h s all -> (forall c, c ∈ l -> c ∈ all) -> world h s' all;
  fs_chunks c k : chunks s !! c = Some k -> exists k', chunks s' !! c = Some k' /\
    get_chunk_is_small_chunk k' = get_chunk_is_small_chunk k /\ (c ∈ l -> free_chunk k') /\ (c ∉ l -> k' = k);
  fs_trace : exists tr, trace s' = trace s ++ tr /\ allocs tr = [] /\ finals tr = to_finalise s l
}.

Lemma allocs_finals ps : allocs (Finalised <$> ps) = [] /\ finals (Finalised <$> ps) = ps.
Proof. induction ps as [|p ps [H1 H2]]; [done|]. split; [exact H1|]. cbn. by f_equal. Qed.

Lemma finishes_nil s : finishes s s [].
Proof.
  constructor; try done.
  - intros c k Hc. exists k. split_and!; [done|done| |done]. intros H. by apply elem_of_nil in H.
  - exists []. by rewrite app_nil_r.
Qed.

Lemma finishes_app s1 s2 s3 l l' : (forall c, c ∈ l' -> c ∉ l) -> finishes s1 s2 l -> finishes s2 s3 l' ->
  (forall c, c ∈ l' -> is_Some (chunks s1 !! c)) ->
  finishes s1 s3 (l ++ l').
Proof.
  intros Hd [H1 W1 C1 (t1 & T1 & A1 & F1)] [H2 W2 C2 (t2 & T2 & A2 & F2)] Hdom. constructor.
  - congruence.
  - intros h all W Hin. apply W2; [apply W1; [done|]|]; intros c Hc; apply Hin, elem_of_app; tauto.
  - intros c k Ek. destruct (C1 c k Ek) as (k1 & Ek1 & S1 & Hf1 & Hs1).
    destruct (C2 c k1 Ek1) as (k2 & Ek2 & S2 & Hf2 & Hs2).
    exists k2. split_and!; [done|congruence| |].
    + intros [Hc|Hc]%elem_of_app; [|by apply Hf2]. rewrite (Hs2 (fun H => Hd c H Hc)). by apply Hf1.
    + rewrite not_elem_of_app. intros [Hc Hc']. by rewrite Hs2, Hs1.
  - exists (t1 ++ t2). rewrite T2, T1. unfold allocs, finals in *. rewrite !omap_app, A1, A2, F1, F2, app_assoc.
    split_and!; [done|done|].
    unfold to_finalise. rewrite objs_app, filter_app, fmap_app. do 3 f_equal. apply objs_agree. intros c Hc.
    destruct (Hdom c Hc) as [k Ek]. destruct (C1 c k Ek) as (k1 & Ek1 & _ & _ & Hs1). rewrite Ek, Ek1, Hs1; [done|].
    by apply Hd.
Qed.

(** One chunk. *)
Lemma finishes_chunk s c k k' :
  chunks s !! c = Some k -> masks_ok (view k) -> changes k k' (fun v => v_set_fins v 0) ->
  finishes s (add_finals (set_chunk s c k') (final_addresses k)) [c].
Proof.
  intros Ek Hm Hch. destruct (changes_same _ _ _ Hch eq_refl eq_refl) as [Em Ee]. constructor; try done.
  - intros h all W Hin. specialize (Hin c ltac:(left)). apply elem_of_Permutation in Hin as [rest Hr].
    pose proof (world_extra _ _ _ _ _ _ Hr W) as W1.
    pose proof (world_update _ _ _ _ _ _ k' _ W1 Ek (proj1 Hch) Em Ee) as W2.
    apply (world_extra _ _ _ _ (c :: rest)); [done|]. eapply world_state; [exact W2|done..|by eapply world_lists_ok].
  - intros d q Eq. cbn [add_finals set_chunk chunks]. destruct (decide (d = c)) as [->|Hne].
    + rewrite lookup_insert_eq. exists k'. rewrite Ek in Eq. injection Eq as <-. split_and!; [done| | |].
      * eapply changes_small; [exact Hch|done].
      * intros _. unfold free_chunk. by rewrite (proj2 Hch).
      * intros Hn. destruct Hn. left.
    + rewrite lookup_insert_ne by done. exists q. split_and!; [done|done| |done]. by intros ->%list_elem_of_singleton.
  - exists (Finalised <$> final_addresses k). destruct (allocs_finals (final_addresses k)) as [-> ->].
    split_and!; [done|done|].
    unfold to_finalise, final_addresses. by rewrite (objs_singleton _ _ _ Ek), final_objects.
Qed.

Lemma finish_list (f : state -> Z -> outcome state) (Q : chunk_t -> Prop) h all l s :
  (forall s c k, world h s all -> chunks s !! c = Some k -> masks_ok (view k) -> Q k ->
    exists s', f s c = Ret s' /\ finishes s s' [c]) ->
  world h s all -> (forall c, c ∈ l -> c ∈ all) -> NoDup l ->
  Forall (fun c => exists k, chunks s !! c = Some k /\ masks_ok (view k) /\ Q k) l ->
  exists s', chunk_list f s l = Ret s' /\ finishes s s' l.
Proof.
  intros Hf. unfold chunk_list. generalize (Nat.le_add_r (List.length l) (2 * base.size (chunks s))).
  generalize (List.length l + 2 * base.size (chunks s))%nat as fuel. intros fuel Hfuel. revert fuel Hfuel s.
  induction l as [|c l IH]; intros [|fuel] Hfuel s W Hin Hnd Hl; cbn [List.length] in Hfuel;
    try (exists s; split; [done|apply finishes_nil]); [lia|].
  apply Forall_cons in Hl as [(k & Ek & Hm & Hq) Hl]. apply NoDup_cons in Hnd as [Hc Hnd].
  destruct (Hf s c k W Ek Hm Hq) as (s1 & E1 & H1).
  assert (Forall (fun c => exists k, chunks s1 !! c = Some k /\ masks_ok (view k) /\ Q k) l) as Hl1.
  { rewrite !Forall_forall in Hl |- *. intros d Hd. destruct (Hl d Hd) as (q & Eq & Hqq). exists q.
    destruct (fs_chunks _ _ _ H1 d q Eq) as (q' & Eq' & _ & _ & Hs). rewrite Eq', Hs; [done|].
    intros ->%list_elem_of_singleton. done. }
  destruct (IH fuel ltac:(lia) s1) as (s' & E & H');
    [apply (fs_world _ _ _ H1); [done|]|intros; apply Hin; by right|done|done|].
  { intros d ->%list_elem_of_singleton. apply Hin. left. }
  exists s'. rewrite (chunk_walk_step _ _ _ _ _ _ E1 (fs_heap _ _ _ H1)). split; [done|].
  apply (finishes_app s s1 s' [c] l); [|done|done|].
  - intros d Hd ->%list_elem_of_singleton. done.
  - intros d Hd. rewrite Forall_forall in Hl. destruct (Hl d Hd) as (q & Eq & _). by exists q.
Qed.

(** The chunks of a size class. *)
Definition class_chunks (h : heap_t) (i : nat) : list Z := default [] (small_free h !! i) ++ default [] (small_full h
  !! i).

Lemma small_chunks h : lists_ok h -> concat (small_free h) ++ concat (small_full h) ≡ₚ seq 0 5 ≫= class_chunks h.
Proof.
  intros [L1 L2 _]. unfold class_chunks.
  destruct (small_free h) as [|a0 [|a1 [|a2 [|a3 [|a4 [|]]]]]]; try done.
  destruct (small_full h) as [|b0 [|b1 [|b2 [|b3 [|b4 [|]]]]]]; try done.
  cbn. rewrite !app_nil_r. solve_perm.
Qed.

(** A walk over the lists of small chunks. *)
Lemma small_classes (R : state -> state -> list Z -> Prop) f h (I : state -> list Z -> Prop) idx s :
  lists_ok h -> (forall i, i ∈ idx -> (i < 5)%nat) ->
  (forall s, R s s []) -> (forall s1 s2 s3 l l', I s1 (l ++ l') -> R s1 s2 l -> R s2 s3 l' -> R s1 s3 (l ++ l')) ->
  (forall s s' l l', R s s' l -> I s (l ++ l') -> heap s = h -> heap s' = h /\ I s' l') ->
  (forall s l l', I s (l ++ l') -> heap s = h -> exists s', chunk_list f s l = Ret s' /\ R s s' l) ->
  heap s = h -> I s (idx ≫= class_chunks h) ->
  exists s', foldO (fun s i =>
      free ← list_at (small_free (heap s)) i; s ← chunk_list f s free;
      full ← list_at (small_full (heap s)) i; chunk_list f s full) s (Z.of_nat <$> idx) = Ret s' /\
    R s s' (idx ≫= class_chunks h).
Proof.
  intros Hl Hidx Rnil Rapp Hkeep Hstep. revert s. induction idx as [|i idx IH]; intros s Eh HI; [by exists s|].
  cbn [fmap list_fmap foldO mbind list_bind]. specialize (Hidx i ltac:(left)) as Hi.
  destruct (nth_list (small_free h) 5 i (lo_free _ Hl) Hi) as [a Ea].
  destruct (nth_list (small_full h) 5 i (lo_full _ Hl) Hi) as [b Eb].
  assert (class_chunks h i = a ++ b) as Ec by (unfold class_chunks; by rewrite Ea, Eb).
  cbn [mbind list_bind] in HI. rewrite Ec in *. rewrite <- app_assoc in HI.
  rewrite Eh, (list_at_lookup _ (Z.of_nat i) a) by (by rewrite Nat2Z.id). cbn [mbind outcome_bind].
  destruct (Hstep s a _ HI Eh) as (s1 & E1 & R1). rewrite E1. cbn [mbind outcome_bind].
  destruct (Hkeep _ _ _ _ R1 HI Eh) as [Eh1 HI1].
  rewrite Eh1, (list_at_lookup _ (Z.of_nat i) b) by (by rewrite Nat2Z.id). cbn [mbind outcome_bind].
  destruct (Hstep s1 b _ HI1 Eh1) as (s2 & E2 & R2). rewrite E2. cbn [mbind outcome_bind].
  destruct (Hkeep _ _ _ _ R2 HI1 Eh1) as [Eh2 HI2].
  destruct (IH (fun j Hj => Hidx j (list_elem_of_further _ _ _ Hj)) s2 Eh2 HI2) as (s3 & E3 & R3). exists s3.
  split; [exact E3|].
  rewrite <- app_assoc. apply (Rapp s s1 s3); [done|done|]. by apply (Rapp s1 s2 s3).
Qed.

(** ** The finalisers of a heap *)

(** The chunks [l] have objects, and are among the chunks [all]. *)
Definition in_use (s : state) (small : bool) (all l : list Z) : Prop :=
  world heap_init s all /\ (forall c, c ∈ l -> c ∈ all) /\ NoDup l /\
  Forall (fun c => exists k, chunks s !! c = Some k /\ masks_ok (view k) /\ get_chunk_is_small_chunk k = small) l.

Lemma in_use_app s small all l l' : in_use s small all (l ++ l') -> in_use s small all l /\ in_use s small all l'.
Proof.
  intros (W & Hin & Hnd & Hf). apply NoDup_app in Hnd as (N1 & _ & N2). apply Forall_app in Hf as [F1 F2].
  split; (split_and!; [done| |done|done]); intros c Hc; apply Hin, elem_of_app; tauto.
Qed.

Lemma in_use_keep s s' small all l l' :
  finishes s s' l -> in_use s small all l' -> (forall c, c ∈ l' -> c ∉ l) -> (forall c, c ∈ l -> c ∈ all) ->
    in_use s' small all l'.
Proof.
  intros Hf (W & Hin & Hnd & Hl) Hd Hall. split_and!; [by apply (fs_world _ _ _ Hf)|done|done|].
  rewrite !Forall_forall in Hl |- *. intros c Hc. destruct (Hl c Hc) as (k & Ek & Hk). exists k.
  destruct (fs_chunks _ _ _ Hf c k Ek) as (k' & Ek' & _ & _ & Hs). rewrite Ek', Hs; [done|by apply Hd].
Qed.

Lemma in_use_dom s small all l c : in_use s small all l -> c ∈ l -> is_Some (chunks s !! c).
Proof. intros (_ & _ & _ & Hf) Hc. rewrite Forall_forall in Hf. destruct (Hf c Hc) as (k & Ek & _). by exists k. Qed.

Lemma world_chunk h s all c k : world h s all -> chunks s !! c = Some k ->
  chunk_ok k /\ (get_chunk_is_small_chunk k = true -> get_m k + 1024 <= 2 ^ 48).
Proof.
  intros W Ek. destruct (wo_chunks _ _ _ _ _ W c k Ek) as [Hk _]. split; [done|]. intros Es.
  destruct (block_range _ _ _ s _ W c k Ek) as (_ & _ & H1 & _ & H2).
  assert (extent k = 1024) as Ee by (unfold extent, v_extent; by rewrite view_small, Es). lia.
Qed.

Lemma final_larges s all l : in_use s false all l ->
  exists s', chunk_list (final_large actor uninit) s l = Ret s' /\ finishes s s' l.
Proof.
  intros (W & Hin & Hnd & Hf).
  apply (finish_list _ (fun k => get_chunk_is_small_chunk k = false) heap_init all); try done.
  intros s1 c k W1 Ek Hm Es. destruct (world_chunk _ _ _ _ _ W1 Ek) as [Hk _].
  destruct (final_large_all s1 c k Ek Hk Es) as (k' & E & Hch). eexists. split; [exact E|]. by apply finishes_chunk.
Qed.

Lemma final_smalls s all l : in_use s true all l ->
  exists s', chunk_list (fun s c => final_small actor uninit s c FORCE_ALL_FINALISERS) s l = Ret s' /\
    finishes s s' l.
Proof.
  intros (W & Hin & Hnd & Hf).
  apply (finish_list _ (fun k => get_chunk_is_small_chunk k = true) heap_init all); try done.
  intros s1 c k W1 Ek Hm Es. destruct (world_chunk _ _ _ _ _ W1 Ek) as [Hk Hr].
  destruct (final_small_all s1 c k Ek Hk Es (Hr Es)) as (k' & E & Hch). eexists. split; [exact E|].
  by apply finishes_chunk.
Qed.

Lemma all_small_idx (f : state -> Z -> outcome state) s :
  all_small f s = foldO (fun s i =>
      free ← list_at (small_free (heap s)) i; s ← chunk_list f s free;
      full ← list_at (small_full (heap s)) i; chunk_list f s full) s (Z.of_nat <$> seq 0 5).
Proof. done. Qed.

Lemma idx_small i : i ∈ seq 0 5 -> (i < 5)%nat.
Proof. rewrite elem_of_seq. lia. Qed.

Lemma final_spec s all :
  lists_ok (heap s) -> in_use s false all (large (heap s)) -> in_use s true all (seq 0 5 ≫= class_chunks (heap s)) ->
  (forall c, c ∈ seq 0 5 ≫= class_chunks (heap s) -> c ∉ large (heap s)) ->
  exists s', ponyint_heap_final actor uninit s = Ret s' /\
    finishes s s' (large (heap s) ++ (seq 0 5 ≫= class_chunks (heap s))).
Proof.
  intros Hl Hlarge Hsmall Hd. unfold ponyint_heap_final.
  destruct (final_larges s all _ Hlarge) as (s1 & E1 & H1). rewrite E1. cbn [mbind outcome_bind].
  rewrite all_small_idx.
  pose proof (in_use_keep _ _ _ _ _ _ H1 Hsmall Hd (proj1 (proj2 Hlarge))) as Hsmall1.
  destruct (small_classes finishes (fun s c => final_small actor uninit s c FORCE_ALL_FINALISERS) (heap s) (fun s l
    => in_use s true all l)
              (seq 0 5) s1 Hl idx_small finishes_nil) as (s2 & E2 & H2); [..|done|].
  - intros t1 t2 t3 l l' Hu R1 R2. destruct (in_use_app _ _ _ _ _ Hu) as [Hu1 Hu2].
    apply (finishes_app t1 t2 t3); [|done|done|intros c; by apply in_use_dom with true all].
    destruct Hu as (_ & _ & Hnd & _). apply NoDup_app in Hnd as (_ & Hn & _). intros c Hc Hc'. by apply (Hn c).
  - intros t t' l l' R Hu Eh. destruct (in_use_app _ _ _ _ _ Hu) as [Hu1 Hu2]. split; [by rewrite (fs_heap _ _ _ R)|].
    eapply in_use_keep; [exact R|done| |apply Hu1]. destruct Hu as (_ & _ & Hnd & _).
    apply NoDup_app in Hnd as (_ & Hn & _).
    intros c Hc Hc'. by apply (Hn c).
  - intros t l l' Hu Eh. apply (final_smalls t all). by destruct (in_use_app _ _ _ _ _ Hu).
  - apply H1.
  - exists s2. split; [exact E2|]. apply (finishes_app s s1 s2); [done|done|done|]. intros c.
    by apply in_use_dom with true all.
Qed.

(** ** Giving back all chunks *)

Record gone (s s' : state) (l : list Z) : Prop := {
  go_world extra : world heap_init s (l ++ extra) -> world heap_init s' extra;
  go_unchanged : unchanged l s s'
}.

Definition all_free (s : state) (small : bool) (l : list Z) : Prop :=
  Forall (fun c => exists k, chunks s !! c = Some k /\ free_chunk k /\ get_chunk_is_small_chunk k = small) l.

Lemma extra_nodup h s extra : world h s extra -> NoDup extra.
Proof. intros W. pose proof (owned_nodup _ _ _ _ _ W) as Hnd. by apply NoDup_app in Hnd as (_ & _ & Hnd). Qed.

Lemma gone_nil s : gone s s [].
Proof. by constructor. Qed.

Lemma gone_app s1 s2 s3 l l' : gone s1 s2 l -> gone s2 s3 l' -> gone s1 s3 (l ++ l').
Proof.
  intros [W1 U1] [W2 U2]. constructor; [|by eapply unchanged_trans]. intros extra W. rewrite <- app_assoc in W.
  by apply W2, W1.
Qed.

Lemma all_free_keep s s' small l l' extra :
  world heap_init s (l ++ l' ++ extra) -> unchanged l s s' -> all_free s small l' -> all_free s' small l'.
Proof.
  intros W (_ & _ & Hc) Hl. unfold all_free in *. rewrite !Forall_forall in Hl |- *. intros c Hin.
  destruct (Hl c Hin) as (k & Ek & Hk). exists k.
  rewrite Hc; [done|]. intros Hcl. pose proof (extra_nodup _ _ _ W) as Hnd. apply NoDup_app in Hnd as (_ & Hn & _).
  apply (Hn c Hcl), elem_of_app. by left.
Qed.

Lemma destroy_step (small : bool) s c k extra :
  world heap_init s (c :: extra) -> chunks s !! c = Some k -> free_chunk k -> get_chunk_is_small_chunk k = small ->
  exists s', (if small then destroy_small actor uninit else destroy_large actor uninit) s c = Ret s' /\
    released outside others heap_init s c extra s'.
Proof.
  intros W Ek Hk Es.
  destruct (destroy_mixed_spec outside others actor uninit heap_init s c k extra W Ek Hk) as (s' & E & Hr & El).
  exists s'. split; [|done]. destruct small; [|by apply El]. unfold destroy_mixed in E.
  rewrite (get_chunk_lookup _ _ _ Ek) in E.
  cbn [mbind outcome_bind] in E. by rewrite Es in E.
Qed.

Lemma destroy_list (small : bool) s l extra :
  world heap_init s (l ++ extra) -> all_free s small l ->
  exists s', chunk_list (if small then destroy_small actor uninit else destroy_large actor uninit) s l = Ret s' /\
    gone s s' l.
Proof.
  intros W Hl.
  pose proof (fun extra W => destroy_list_spec actor uninit outside others _ (fun k => get_chunk_is_small_chunk k =
    small) heap_init l s extra
    (fun s c k extra => destroy_step small s c k extra) W Hl) as Hd.
  destruct (Hd extra W) as (s' & E & W' & Hu). exists s'. split; [done|]. constructor; [|done]. intros extra2 W2.
  destruct (Hd extra2 W2) as (s2 & E2 & W2' & _). rewrite E in E2. by injection E2 as <-.
Qed.

Lemma destroy_smalls s extra h :
  heap s = h -> lists_ok h -> world heap_init s ((seq 0 5 ≫= class_chunks h) ++ extra) ->
    all_free s true (seq 0 5 ≫= class_chunks h) ->
  exists s', all_small (destroy_small actor uninit) s = Ret s' /\ gone s s' (seq 0 5 ≫= class_chunks h).
Proof.
  intros Eh Hl W Hf. rewrite all_small_idx.
  apply (small_classes gone (destroy_small actor uninit) h (fun s l => exists extra,
    world heap_init s (l ++ extra) /\ all_free s true l)
           (seq 0 5) s Hl idx_small gone_nil); [..|done|by exists extra].
  - intros s1 s2 s3 l l' _. apply gone_app.
  - intros t t' l l' [Hw Hu] (extra1 & W1 & Hf1) Et. rewrite <- app_assoc in W1. apply Forall_app in Hf1 as [_ Hf1].
    split; [destruct Hu as [-> _]; done|]. exists extra1. split; [by apply Hw|]. by eapply all_free_keep.
  - intros t l l' (extra1 & W1 & Hf1) Et. rewrite <- app_assoc in W1. apply Forall_app in Hf1 as [Hf1 _].
    by apply (destroy_list true t l (l' ++ extra1)).
Qed.

Lemma destroy_spec s :
  lists_ok (heap s) -> world heap_init s (large (heap s) ++ concat (recyclable (heap s)) ++ (seq 0 5 ≫= class_chunks
    (heap s))) ->
  all_free s false (large (heap s)) -> all_free s true (seq 0 5 ≫= class_chunks (heap s)) ->
    recycled s (recyclable (heap s)) ->
  exists s', ponyint_heap_destroy actor uninit s = Ret s' /\ world heap_init s' [] /\ trace s' = trace s.
Proof.
  intros Hl W Hlarge Hsmall Hr. unfold ponyint_heap_destroy.
  destruct (destroy_list false s (large (heap s)) _ W Hlarge) as (s1 & E1 & [W1 U1]). specialize (W1 _ W).
  rewrite E1. cbn [mbind outcome_bind]. pose proof U1 as (Hh1 & Ht1 & Hc1). rewrite Hh1.
  assert (forall c, c ∈ concat (recyclable (heap s)) -> c ∉ large (heap s)) as Hd.
  { pose proof (extra_nodup _ _ _ W) as Hnd. apply NoDup_app in Hnd as (_ & Hn & _). intros c Hc Hc'. apply (Hn c
      Hc'), elem_of_app. by left. }
  destruct (destroy_recyclable_spec actor uninit outside others heap_init s1 (recyclable (heap s)) (seq 0 5 ≫=
    class_chunks (heap s)) W1) as (s2 & E2 & W2 & U2).
  { eapply recycled_agree; [exact Hr|]. intros c Hc. by apply Hc1, Hd. }
  rewrite E2. cbn [mbind outcome_bind]. pose proof (unchanged_trans _ _ _ _ _ U1 U2) as U12.
  pose proof U12 as (Hh2 & Ht2 & _).
  rewrite app_assoc in W.
  destruct (destroy_smalls s2 [] (heap s) Hh2 Hl) as (s3 & E3 & [W3 (_ & Ht3 & _)]).
  { by rewrite app_nil_r. }
  { eapply (all_free_keep s s2 true _ _ []); [|exact U12|exact Hsmall]. by rewrite app_nil_r. }
  exists s3. rewrite E3. split_and!; [done|apply W3; by rewrite app_nil_r|congruence].
Qed.

(** ** The end of a heap *)

Lemma all_chunks h : lists_ok h ->
  concat (lists h) ≡ₚ large h ++ concat (recyclable h) ++ (seq 0 5 ≫= class_chunks h).
Proof. intros Hl. rewrite concat_lists, <- small_chunks by done. solve_perm. Qed.

Lemma used_walked h : lists_ok h -> used_chunks h ≡ₚ large h ++ (seq 0 5 ≫= class_chunks h).
Proof. intros Hl. rewrite used_concat, <- small_chunks by done. solve_perm. Qed.

Lemma world_unlisted s : world (heap s) s [] -> world heap_init s (concat (lists (heap s))).
Proof.
  intros W. eapply world_relist; [exact W|by constructor| |by rewrite app_nil_r].
  intros j l Hj. assert (l = []) as ->; [|constructor]. apply list_elem_of_lookup_2 in Hj.
  change (lists heap_init) with (replicate 15 (@nil Z)) in Hj. by apply elem_of_replicate in Hj as [? _].
Qed.

Lemma listed_in_use s small l all :
  world (heap s) s [] -> concat (lists (heap s)) ≡ₚ all -> NoDup l ->
  (forall c, c ∈ l -> exists j x, lists (heap s) !! j = Some x /\ c ∈ x /\ (j < RECYCLABLE)%nat /\
     forall k, fits j k -> get_chunk_is_small_chunk k = small) -> in_use s small all l.
Proof.
  intros W Hall Hnd Hl. assert (forall c, c ∈ l -> c ∈ concat (lists (heap s))) as Hin.
  { intros c Hc. destruct (Hl c Hc) as (j & x & Hj & Hx & _). apply list_elem_of_In,
      in_concat. exists x. rewrite <- !list_elem_of_In.
    split; [|done]. by eapply list_elem_of_lookup_2. }
  split_and!;
    [eapply world_extra; [exact Hall|by apply world_unlisted]|intros c Hc; rewrite <- Hall; by apply Hin|done|].
  apply Forall_forall. intros c Hc. destruct (Hl c Hc) as (j & x & Hj & Hx & Hlt & Hs).
  pose proof (wo_fits _ _ _ _ _ W j x Hj) as Hf. rewrite Forall_forall in Hf. destruct (Hf c Hx) as (k & Ek & Hk).
  exists k. split_and!; [done| |by apply Hs]. eapply used_dirty; [exact W| |exact Ek]. by eapply live_elem.
Qed.

Lemma class_elem h c : lists_ok h -> c ∈ seq 0 5 ≫= class_chunks h ->
  exists j x, lists h !! j = Some x /\ c ∈ x /\ (j < LARGE)%nat.
Proof.
  intros Hl (i & Hc & Hi)%list_elem_of_bind. apply idx_small in Hi. unfold class_chunks in Hc.
  apply elem_of_app in Hc as [Hc|Hc].
  - destruct (nth_list (small_free h) 5 i (lo_free _ Hl) Hi) as [a Ea]. rewrite Ea in Hc. exists i, a.
    rewrite lists_lookup_free by done.
    split_and!; [done|done|unfold LARGE; lia].
  - destruct (nth_list (small_full h) 5 i (lo_full _ Hl) Hi) as [a Ea]. rewrite Ea in Hc. exists (5 + i)%nat, a.
    rewrite lists_lookup_full by done.
    split_and!; [done|done|unfold LARGE; lia].
Qed.

Lemma fits_small j k : (j < LARGE)%nat -> fits j k -> get_chunk_is_small_chunk k = true.
Proof. intros Hj Hf. unfold fits in Hf. rewrite (proj2 (Nat.ltb_lt j LARGE) Hj) in Hf.
by destruct (j <? 5)%nat, Hf as [? _]. Qed.

Lemma no_chunks s : world heap_init s [] -> chunks s = ∅.
Proof.
  intros W. pose proof (wo_owned _ _ _ _ _ W) as Ho. change (concat (lists heap_init) ++ []) with (@nil Z) in Ho.
  by apply Permutation_nil, fmap_nil_inv, map_to_list_empty_iff in Ho.
Qed.

(** C12 When no finaliser allocates: as a heap ends, the finalisers of all objects that have
    one run, each once, and then everything that the heap had from the pool and in the page map
    is given back: of the pool's memory only what others have remains allocated, and no address
    has a chunk.  The hypothesis is needed, see [heap_final_skips]. *)
Theorem heap_teardown s :
  world (heap s) s [] ->
  exists s1 s2, ponyint_heap_final actor uninit s = Ret s1 /\ ponyint_heap_destroy actor uninit s1 = Ret s2 /\
    (exists tr, trace s2 = trace s ++ tr /\ allocs tr = [] /\
       finals tr ≡ₚ o_addr <$> filter (fun o => o_final o = true) (live (heap s) (chunks s))) /\
    chunks s2 = ∅ /\ pool_live (pool s2) outside /\ pagemap_ok (pagemap s2) /\
    forall b, 0 <= b < 2 ^ PAGEMAP_ADDRESSBITS -> chunk_at (pagemap s2) b <> NULL ->
      exists r, r ∈ outside /\ in_range r b.
Proof.
  intros W. pose proof (world_lists_ok _ _ _ _ _ W) as Hl. pose proof (all_chunks _ Hl) as Hall.
  pose proof (owned_nodup _ _ _ _ _ W) as Hnd. rewrite app_nil_r, Hall in Hnd.
  assert (NoDup (large (heap s)) /\ NoDup (seq 0 5 ≫= class_chunks (heap s)) /\
    (forall c, c ∈ seq 0 5 ≫= class_chunks (heap s) -> c ∉ large (heap s)) /\
    (forall c, c ∈ concat (recyclable (heap s)) ->
      c ∉ large (heap s) ++ (seq 0 5 ≫= class_chunks (heap s)))) as (N1 & N2 & D1 & D2).
  { apply NoDup_app in Hnd as (N1 & D1 & Hnd). apply NoDup_app in Hnd as (_ & D2 & N2). split_and!; [done|done| |].
    - intros c Hc Hc'. apply (D1 c Hc'), elem_of_app. by right.
    - intros c Hc [Hc'|Hc']%elem_of_app; [apply (D1 c Hc'), elem_of_app; by left|by apply (D2 c)]. }
  assert (in_use s false (concat (lists (heap s))) (large (heap s))) as U1.
  { apply listed_in_use; [done|done|done|]. intros c Hc. exists LARGE,
      (large (heap s)). rewrite lists_lookup_large by done.
    split_and!; [done|done|unfold LARGE, RECYCLABLE; lia|]. intros k [Hk _]. done. }
  assert (in_use s true (concat (lists (heap s))) (seq 0 5 ≫= class_chunks (heap s))) as U2.
  { apply listed_in_use; [done|done|done|]. intros c Hc. destruct (class_elem _ c Hl Hc) as (j & x & Hj & Hx & Hlt).
      exists j, x.
    split_and!; [done|done|unfold LARGE, RECYCLABLE in *; lia|]. intros k. by apply fits_small. }
  destruct (final_spec s _ Hl U1 U2 D1) as (s1 & E1 & F1). exists s1.
  assert (forall small l, in_use s small (concat (lists (heap s))) l -> (forall c, c ∈ l ->
    c ∈ large (heap s) ++ (seq 0 5 ≫= class_chunks (heap s))) ->
    all_free s1 small l) as Hfree.
  { intros small l (_ & _ & _ & Hf) Hin. unfold all_free. rewrite Forall_forall in Hf |- *. intros c Hc. destruct (Hf
      c Hc) as (k & Ek & _ & Es).
    destruct (fs_chunks _ _ _ F1 c k Ek) as (k' & Ek' & Es' & Hk' & _). exists k'.
    split_and!; [done|by apply Hk', Hin|congruence]. }
  destruct (destroy_spec s1) as (s2 & E2 & W2 & T2); rewrite ?(fs_heap _ _ _ F1).
  - done.
  - apply (fs_world _ _ _ F1).
    + eapply world_extra; [exact Hall|by apply world_unlisted].
    + intros c. rewrite !elem_of_app. tauto.
  - apply (Hfree false); [done|]. intros c Hc. apply elem_of_app. by left.
  - apply (Hfree true); [done|]. intros c Hc. apply elem_of_app. by right.
  - pose proof (world_recycled _ _ _ _ _ W) as Hr. eapply recycled_agree; [exact Hr|]. intros c Hc.
    destruct (recycled_elem _ _ c Hr Hc) as (k & Ek & _).
    destruct (fs_chunks _ _ _ F1 c k Ek) as (k' & Ek' & _ & _ & Hs).
    rewrite Ek, Ek', Hs; [done|by apply D2].
  - exists s2. split_and!; [done|done| | | | |].
    + destruct (fs_trace _ _ _ F1) as (tr & T1 & A & Ff). exists tr. rewrite T2, T1. split_and!; [done|done|].
      rewrite Ff.
      unfold to_finalise, live. fold (used_chunks (heap s)). by rewrite (objs_perm _ _ _ (used_walked _ Hl)).
    + by apply no_chunks.
    + pose proof (wo_pool _ _ _ _ _ W2) as Hp. by rewrite (no_chunks _ W2) in Hp.
    + apply (wo_pagemap _ _ _ _ _ W2).
    + intros b Hb Hne. destruct (wo_unknown _ _ _ _ _ W2 b Hb Hne) as [(c & k & Ek & _)|]; [|done].
      by rewrite (no_chunks _ W2) in Ek.
Qed.
End heap_end.

(** ** Examples

    A heap of three objects, of which the second has a finaliser that allocates twice. *)
Definition second : Z := 134218752.

Program Definition sample_finalisers : Finalisers := {|
  allocations h p := if p =? second then [(64, TRACK_NO_FINALISERS); (700, TRACK_ALL_FINALISERS)] else []
|}.
Next Obligation.
  intros h p n mask. cbn. destruct (p =? second); [|by intros H%elem_of_nil].
  rewrite !elem_of_cons. intros [[= -> ->]|[[= -> ->]|H%elem_of_nil]]; [|  |done];
    (split; [unfold is_u64; lia|]); [by left|by right].
Qed.

Program Definition no_allocations : Finalisers := {| allocations _ _ := [] |}.
Next Obligation. intros h p n mask. cbn. by intros H%elem_of_nil. Qed.

Abbreviation sample_state := (state (shared_t * thread_t) memory).
Definition sample_uninit (addr : Z) : Z := addr * 2654435761.

Definition sample0 : sample_state :=
  ponyint_heap_init 1000 (mk_state (shared_init, thread_init) empty_map ∅ heap_init []).
Definition sample_alloc (s : sample_state) (size mask : Z) : sample_state :=
  match ponyint_heap_alloc 7 sample_uninit s size mask with Ret (s, _) => s | _ => s end.
Definition sample1 : sample_state := sample_alloc sample0 40 TRACK_ALL_FINALISERS.
Definition sample2 : sample_state := sample_alloc sample1 600 TRACK_ALL_FINALISERS.
Definition sample3 : sample_state := sample_alloc sample2 50 TRACK_NO_FINALISERS.

Abbreviation sample_ok := (world (P:=shared_t * thread_t) (M:=memory) [] (fun _ => NULL)).

Lemma pool_init_ok : pool_ok shared_init thread_init [].
Proof. constructor; [apply (sy_shared _ _ _ (init_ok 0))|apply thread_init_ok|]. vm_compute. constructor. Qed.

Lemma sample0_ok : sample_ok (heap sample0) sample0 [].
Proof.
  apply (heap_init_ok 1000 [] (fun _ => NULL)); cbn [chunks pool pagemap];
    [done|by split; [apply pool_init_ok|]|apply empty_map_inv| |].
  - intros r b Hr. by apply elem_of_nil in Hr.
  - intros b Hb Hne. destruct Hne. cbn [chunk_at tree_pagemap]. unfold PageMap.entry, node_at. cbn [root empty_map].
    by rewrite descend_null.
Qed.

Lemma sample_alloc_ok s size mask : sample_ok (heap s) s [] -> is_u64 size -> track_ok mask ->
  sample_ok (heap (sample_alloc s size mask)) (sample_alloc s size mask) [].
Proof.
  intros W Hs Ht. pose proof (alloc_spec 7 sample_uninit [] (fun _ => NULL) s [] size mask W Hs Ht) as Ha.
  unfold sample_alloc.
  destruct (ponyint_heap_alloc 7 sample_uninit s size mask) as [[s' p]| | |]; [|done..]. cbn [or_oom] in Ha.
  destruct (size =? 0); [by destruct Ha as [-> _]|]. destruct Ha as (n & _ & Hg). apply Hg.
Qed.

Lemma sample3_ok : sample_ok (heap sample3) sample3 [].
Proof. repeat apply sample_alloc_ok; try apply sample0_ok; try (unfold is_u64; lia); first [by left|by right]. Qed.

Lemma sample3_objects : heap_objects sample3 = [mk_object 134219776 64 true; mk_object 134219840 64 false;
  mk_object second 1024 true].
Proof. vm_compute. reflexivity. Qed.

(** The first object is marked, from inside and from outside; its address is asked twice. *)
Definition sample_calls : list (mark_call * heap_object) :=
  (fun c => (c, mk_object 134219776 64 true)) <$> [Mark_shallow 134219780; Mark 134219780; Mark 134219776;
    Mark 134219776].

Lemma sample_addresses : Forall (fun '(call, o) => addresses sample3 call o) sample_calls.
Proof.
  unfold addresses. rewrite sample3_objects. unfold sample_calls, in_range, o_range. cbn.
  repeat constructor; try (left; fail); cbn; lia.
Qed.

Definition sample_gc : option (list (option bool) * list heap_object * list Z * Z) :=
  match run_marks (ponyint_heap_startgc sample3).1 sample_calls.*1 with
  | Ret (s, marks) =>
      match ponyint_heap_endgc (FI := sample_finalisers) 7 sample_uninit 16384 (fun n => 2 * n) s 0 with
      | Ret s => Some (marks, heap_objects s, finals (trace s), used (heap s))
      | _ => None
      end
  | _ => None
  end.

Example sample_gc_result :
  sample_gc = Some ([None; Some false; Some false; Some true],
    [mk_object 134219776 64 true; mk_object 134216704 1024 true], [second], 64 + 1024 + 64).
Proof. vm_compute. reflexivity. Qed.

Lemma heap_alloc_correct_witness :
  heap_ok [] (fun _ => NULL) sample3 /\
  match ponyint_heap_alloc 7 sample_uninit sample3 3000 TRACK_ALL_FINALISERS with
  | Ret (s', p) => exists n, allocated [] (fun _ => NULL) sample3 s' 3000 (mk_object p n true)
  | Exit => True
  | Abort | NoFuel => False
  end.
Proof.
  split; [exact sample3_ok|].
  apply (heap_alloc_correct 7 sample_uninit [] (fun _ => NULL) sample3 3000 TRACK_ALL_FINALISERS sample3_ok);
    [lia|by right].
Defined.

Lemma heap_realloc_correct_witness :
  in_range (o_range (mk_object 134219776 64 true)) 134219800 /\
  match ponyint_heap_realloc 7 sample_uninit sample3 134219800 200 100 with
  | Ret (s', q, n) => n = 40 /\ exists m, allocated [] (fun _ => NULL) sample3 s' 200 (mk_object q m false) /\
    0 <= n <= m
  | Exit => True
  | Abort | NoFuel => False
  end.
Proof.
  assert (in_range (o_range (mk_object 134219776 64 true)) 134219800) as Hp by (unfold in_range, o_range; cbn; lia).
  split; [exact Hp|].
  apply (heap_realloc_correct 7 sample_uninit [] (fun _ => NULL) sample3 (mk_object 134219776 64 true) 134219800 200
    100 sample3_ok);
    [|exact Hp|lia|lia]. rewrite sample3_objects. left.
Defined.

Lemma heap_gc_exact_witness :
  (forall tr p, (List.length (@allocations sample_finalisers tr p) <= 2)%nat) /\
  (ponyint_heap_startgc sample3).2 = true /\
  exists s2, run_marks (ponyint_heap_startgc sample3).1 sample_calls.*1 = Ret (s2, mark_results ∅ sample_calls) /\
    match ponyint_heap_endgc (FI := sample_finalisers) 7 sample_uninit 1000 (fun n => 2 * n) s2 0 with
    | Ret s3 => collected [] (fun _ => NULL) (ponyint_heap_startgc sample3).1 s3 (heap_objects sample3) (fun o => o ∈
      sample_calls.*2)
    | Exit => True
    | Abort | NoFuel => False
    end.
Proof.
  assert (forall tr p, (List.length (@allocations sample_finalisers tr p) <= 2)%nat) as HF
    by (intros tr p; cbn; destruct (p =? second); cbn; lia).
  split; [exact HF|]. split; [vm_compute; reflexivity|].
  apply (heap_gc_exact (FI := sample_finalisers) 7 sample_uninit 1000 (fun n => 2 * n) [] (fun _ => NULL) 2 HF
    sample3 sample_calls 0
           sample3_ok sample_addresses). rewrite sample3_objects. vm_compute. discriminate.
Defined.

Lemma heap_teardown_witness :
  exists s1 s2, ponyint_heap_final (FI := no_allocations) 7 sample_uninit sample3 = Ret s1 /\
    ponyint_heap_destroy (FI := no_allocations) 7 sample_uninit s1 = Ret s2 /\
    (exists tr, trace s2 = trace sample3 ++ tr /\ allocs tr = [] /\
       finals tr ≡ₚ o_addr <$> filter (fun o => o_final o = true) (live (heap sample3) (chunks sample3))) /\
    chunks s2 = ∅ /\ pool_live (pool s2) [] /\ pagemap_ok (pagemap s2) /\
    forall b, 0 <= b < 2 ^ PAGEMAP_ADDRESSBITS -> chunk_at (pagemap s2) b <> NULL -> exists r, r ∈ [] /\ in_range r b.
Proof.
  apply (heap_teardown (FI := no_allocations) 7 sample_uninit [] (fun _ => NULL) (fun tr p => eq_refl) sample3
    sample3_ok).
Defined.

(** *** Finalisers that allocate while the heap ends

    Three chunks of objects of 512 bytes, each with one object that has a finaliser and one
    free slot.  The finaliser of the first object allocates twice, which fills the first two
    chunks and moves them to the list of full chunks.  The walk has remembered the second one
    and follows it into that list, so the third chunk is left out; its object's finaliser
    runs only when its chunk is destroyed. *)
Program Definition first_allocates : Finalisers := {|
  allocations h p := if p =? 134219776 then [(512, TRACK_NO_FINALISERS); (512, TRACK_NO_FINALISERS)] else []
|}.
Next Obligation.
  intros h p n mask. cbn. destruct (p =? 134219776); [|by intros H%elem_of_nil].
  rewrite !elem_of_cons. intros [[= -> ->]|[[= -> ->]|H%elem_of_nil]]; [|  |done];
    (split; [unfold is_u64; lia|]); by left.
Qed.

Definition six : sample_state := Nat.iter 6 (fun s => sample_alloc s 512 TRACK_ALL_FINALISERS) sample0.

Definition half_full : outcome sample_state :=
  '(s, _) ← run_marks (ponyint_heap_startgc six).1 [Mark 134219776; Mark 134218752; Mark 134217728];
  ponyint_heap_endgc (FI := no_allocations) 7 sample_uninit 16384 (fun n => 2 * n) s 0.

Definition ending : outcome (list Z * list Z * list Z * list heap_object) :=
  s ← half_full;
  s1 ← ponyint_heap_final (FI := first_allocates) 7 sample_uninit s;
  s2 ← ponyint_heap_destroy (FI := first_allocates) 7 sample_uninit s1;
  Ret (finals (trace s), finals (trace s1), finals (trace s2),
       filter (fun o => o_final o = true) (heap_objects s1)).

Lemma heap_final_skips :
  let before := [134218240; 134219264; 134220288] in
  ending = Ret (before, before ++ [134219776; 134218752], before ++ [134219776; 134218752; 134217728],
                [mk_object 134217728 512 true]).
Proof. vm_compute. reflexivity. Qed.
