(* ===== verification/Sum.v ===== *)
(** * Sums over lists and finite maps

    What invariants that balance amounts are stated with. *)
From stdpp Require Import gmap.
From S2P Require Import Prelude.
Local Open Scope Z_scope.

Fixpoint sum_of {A : Type} (f : A -> Z) (l : list A) : Z :=
  match l with [] => 0 | x :: l => f x + sum_of f l end.

Section sum_of.
Context {A : Type}.
Implicit Types (f g : A -> Z) (l : list A).

Lemma sum_of_app f l1 l2 : sum_of f (l1 ++ l2) = sum_of f l1 + sum_of f l2.
Proof. induction l1 as [|x l1 IH]; cbn in *; [done|lia]. Qed.

#[export] Instance sum_of_perm f : Proper ((≡ₚ) ==> (=)) (sum_of f).
Proof. induction 1; cbn in *; lia. Qed.

Lemma sum_of_nonneg f l : (forall x, x ∈ l -> 0 <= f x) -> 0 <= sum_of f l.
Proof.
  induction l as [|x l IH]; intros Hf; cbn; [done|]. pose proof (Hf x ltac:(left)).
  specialize (IH (fun y Hy => Hf y ltac:(by right))). lia.
Qed.

Lemma sum_of_le f g l : (forall x, x ∈ l -> f x <= g x) -> sum_of f l <= sum_of g l.
Proof.
  induction l as [|x l IH]; intros Hf; cbn; [done|]. pose proof (Hf x ltac:(left)).
  specialize (IH (fun y Hy => Hf y ltac:(by right))). cbn in IH. lia.
Qed.

Lemma sum_of_ext f g l : (forall x, x ∈ l -> f x = g x) -> sum_of f l = sum_of g l.
Proof.
  intros H. apply Z.le_antisymm; apply sum_of_le; intros x Hx; rewrite (H x Hx); done.
Qed.

Lemma sum_of_add f g l : sum_of (fun x => f x + g x) l = sum_of f l + sum_of g l.
Proof. induction l as [|x l IH]; cbn in *; [done|lia]. Qed.

Lemma sum_of_in f l x : (forall y, y ∈ l -> 0 <= f y) -> x ∈ l -> f x <= sum_of f l.
Proof.
  intros Hf (l1 & l2 & ->)%list_elem_of_split. rewrite sum_of_app. cbn.
  pose proof (sum_of_nonneg f l1 ltac:(set_solver)). pose proof (sum_of_nonneg f l2 ltac:(set_solver)). lia.
Qed.
End sum_of.

(** The sum over the entries of a map. *)
Definition sum_map {A : Type} (f : Z -> A -> Z) (m : gmap Z A) : Z := sum_of (fun x => f x.1 x.2) (map_to_list m).

Section sum_map.
Context {A : Type}.
Implicit Types (f g : Z -> A -> Z) (m : gmap Z A).

Lemma sum_map_new f m i x : m !! i = None -> sum_map f (<[i := x]> m) = f i x + sum_map f m.
Proof. intros Hi. unfold sum_map. by rewrite map_to_list_insert. Qed.

Lemma sum_map_update f m i x y : m !! i = Some x -> sum_map f (<[i := y]> m) = sum_map f m - f i x + f i y.
Proof.
  intros Hi. rewrite <- (insert_delete_id m i x Hi) at 2. rewrite <- insert_delete_eq.
  rewrite !sum_map_new by apply lookup_delete_eq. lia.
Qed.

Lemma sum_map_nonneg f m : (forall i x, m !! i = Some x -> 0 <= f i x) -> 0 <= sum_map f m.
Proof. intros H. apply sum_of_nonneg. intros [i x] Hx%elem_of_map_to_list. by apply H. Qed.

Lemma sum_map_le f g m : (forall i x, m !! i = Some x -> f i x <= g i x) -> sum_map f m <= sum_map g m.
Proof. intros H. apply sum_of_le. intros [i x] Hx%elem_of_map_to_list. by apply H. Qed.

Lemma sum_map_in f m i x : (forall j y, m !! j = Some y -> 0 <= f j y) -> m !! i = Some x -> f i x <= sum_map f m.
Proof.
  intros H Hi. apply (sum_of_in (fun x => f x.1 x.2) _ (i, x)); [|by apply elem_of_map_to_list].
  intros [j y] Hy%elem_of_map_to_list. by apply H.
Qed.

Lemma sum_map_zero f m : (forall i x, m !! i = Some x -> f i x = 0) -> sum_map f m = 0.
Proof.
  intros H. unfold sum_map. rewrite (sum_of_ext _ (fun _ => 0)); [by induction (map_to_list m)|].
  intros [i x] Hx%elem_of_map_to_list. by apply H.
Qed.
End sum_map.

Section sum_map_more.
Context {A : Type}.
Implicit Types (f g : Z -> A -> Z) (m : gmap Z A).

(** A sum is at least any of its terms when the others are not negative. *)
Lemma sum_map_ge f m i x :
  m !! i = Some x -> (forall j y, m !! j = Some y -> j <> i -> 0 <= f j y) -> f i x <= sum_map f m.
Proof.
  intros Hi Hn. rewrite <- (insert_delete_id m i x Hi), sum_map_new by apply lookup_delete_eq.
  enough (0 <= sum_map f (delete i m)) by lia. apply sum_map_nonneg.
  intros j y [Hne Hj]%lookup_delete_Some. by apply Hn.
Qed.

Lemma sum_map_sub f g m : sum_map (fun i x => f i x - g i x) m = sum_map f m - sum_map g m.
Proof. unfold sum_map. induction (map_to_list m) as [|x l IH]; cbn in *; lia. Qed.

Lemma sum_map_empty f : sum_map f (∅ : gmap Z A) = 0.
Proof. unfold sum_map. by rewrite map_to_list_empty. Qed.
End sum_map_more.

Lemma sum_map_single {A : Type} (f : Z -> A -> Z) (m : gmap Z A) i x :
  m !! i = Some x -> (forall j y, m !! j = Some y -> j <> i -> f j y = 0) -> sum_map f m = f i x.
Proof.
  intros Hi Hn. rewrite <- (insert_delete_id m i x Hi), sum_map_new by apply lookup_delete_eq.
  rewrite sum_map_zero; [lia|]. intros j y [Hne Hj]%lookup_delete_Some. by apply Hn.
Qed.
