(* ===== verification/ObjectMap.v ===== *)
(** * The tables of the garbage collector ([gc/objectmap.c], [gc/actormap.c], [gc/delta.c])

    An actor counts the references that others have to its objects in an object map, and its
    own references to the objects of others in an actor map: per other actor the references to
    the actor itself and an object map.  Tables are finite maps here ([HashTab.v] shows that
    the tables of [ds/hash.h] are); the order in which one is enumerated is an interface. *)
From stdpp Require Import gmap.
From S2P Require Import Prelude.
Local Open Scope Z_scope.
Local Open Scope c_scope.

(** ** Enumeration *)

Class Enumeration := {
  enum {A : Type} : gmap Z A -> list (Z * A);
  enum_perm {A : Type} (m : gmap Z A) : enum m ≡ₚ map_to_list m
}.

(** ** Object maps *)

Record object_t := mk_obj { obj_rc : Z; obj_mark : Z; obj_immutable : bool; obj_type : Z }.

Definition set_obj_rc (o : object_t) (n : Z) : object_t := mk_obj n (obj_mark o) (obj_immutable o) (obj_type o).
Definition set_obj_mark (o : object_t) (n : Z) : object_t := mk_obj (obj_rc o) n (obj_immutable o) (obj_type o).
Definition set_obj_immutable (o : object_t) (b : bool) : object_t := mk_obj (obj_rc o) (obj_mark o) b (obj_type o).

(** The key of an object, its [address], is the key of the map. *)
Abbreviation objectmap_t := (gmap Z object_t).

Definition object_alloc (type mark : Z) : object_t := mk_obj 0 (u32 (mark - 1)) false type.

Definition ponyint_objectmap_getobject (map : objectmap_t) (address : Z) : option object_t := map !! address.

(** The map in which the object is, and the object. *)
Definition ponyint_objectmap_getorput (map : objectmap_t) (address type mark : Z) : objectmap_t * object_t :=
  match ponyint_objectmap_getobject map address with
  | Some obj => (map, obj)
  | None => let obj := object_alloc type mark in (<[address := obj]> map, obj)
  end.

(** ** Actor maps *)

Record actorref_t := mk_ref { ref_rc : Z; ref_mark : Z; ref_map : objectmap_t }.

Definition set_ref_rc (r : actorref_t) (n : Z) : actorref_t := mk_ref n (ref_mark r) (ref_map r).
Definition set_ref_mark (r : actorref_t) (n : Z) : actorref_t := mk_ref (ref_rc r) n (ref_map r).
Definition set_ref_map (r : actorref_t) (m : objectmap_t) : actorref_t := mk_ref (ref_rc r) (ref_mark r) m.

(** The key of a reference, its [actor], is the key of the map. *)
Abbreviation actormap_t := (gmap Z actorref_t).

Definition actorref_alloc (mark : Z) : actorref_t := mk_ref 0 (u32 (mark - 1)) ∅.

Definition ponyint_actorref_getobject (aref : actorref_t) (address : Z) : option object_t :=
  ponyint_objectmap_getobject (ref_map aref) address.

Definition ponyint_actorref_getorput (aref : actorref_t) (address type mark : Z) : actorref_t * object_t :=
  let (map, obj) := ponyint_objectmap_getorput (ref_map aref) address type mark in (set_ref_map aref map, obj).

Definition ponyint_actormap_getactor (map : actormap_t) (actor : Z) : option actorref_t := map !! actor.

Definition ponyint_actormap_getorput (map : actormap_t) (actor mark : Z) : actormap_t * actorref_t :=
  match ponyint_actormap_getactor map actor with
  | Some aref => (map, aref)
  | None => let aref := actorref_alloc mark in (<[actor := aref]> map, aref)
  end.

(** ** Delta maps

    The counts that have changed since the cycle detector was told, or null. *)
Abbreviation deltamap_t := (gmap Z Z).

Definition ponyint_deltamap_update (map : option deltamap_t) (actor rc : Z) : option deltamap_t :=
  Some (<[actor := rc]> (default ∅ map)).

(** ** Sweeping an actor map *)

(** The messages that carry a part of an actor map to its actor. *)
Inductive gc_msg := ACQUIRE (aref : actorref_t) | RELEASE (aref : actorref_t).

Section sweep.
Context `{EN : Enumeration} (actor_noblock : bool) (pendingdestroy : Z -> bool).

(** One turn of the loop of [move_unmarked_objects]. *)
Definition move_object (mark : Z) (refs : actorref_t * option actorref_t) (entry : Z * object_t)
    : actorref_t * option actorref_t :=
  let '(from, to) := refs in
  let '(address, obj) := entry in
  if obj_mark obj =? mark then (from, to)
  else
    let from := set_ref_map from (delete address (ref_map from)) in
    let to := default (actorref_alloc mark) to in
    (from, Some (set_ref_map to (<[address := obj]> (ref_map to)))).

Definition move_unmarked_objects (from : actorref_t) (mark : Z) : actorref_t * option actorref_t :=
  if Nat.eqb (size (ref_map from)) 0 then (from, None)
  else foldl (move_object mark) (from, None) (enum (ref_map from)).

Definition send_release (actor : Z) (aref : option actorref_t) : list (Z * gc_msg) :=
  match aref with
  | None => []
  | Some aref =>
      if pendingdestroy actor || ((ref_rc aref =? 0) && Nat.eqb (size (ref_map aref)) 0) then []
      else [(actor, RELEASE aref)]
  end.

(** One turn of the loop of [ponyint_actormap_sweep]: the map, the delta map and the messages
    that are sent. *)
Definition sweep_actor (mark : Z) (s : actormap_t * option deltamap_t * list (Z * gc_msg)) (entry : Z * actorref_t)
    : actormap_t * option deltamap_t * list (Z * gc_msg) :=
  let '(map, delta, sent) := s in
  let '(actor, aref) := entry in
  if ref_mark aref =? mark then
    let (aref, to) := move_unmarked_objects aref mark in
    (<[actor := aref]> map, delta, sent ++ send_release actor to)
  else
    let map := delete actor map in
    let delta := if actor_noblock then delta else ponyint_deltamap_update delta actor 0 in
    (map, delta, sent ++ send_release actor (Some aref)).

Definition ponyint_actormap_sweep (map : actormap_t) (mark : Z) (delta : option deltamap_t)
    : actormap_t * option deltamap_t * list (Z * gc_msg) :=
  foldl (sweep_actor mark) (map, delta, []) (enum map).
End sweep.
