(* ===== verification/Gc.v ===== *)
(** * Counting references across actors ([gc/gc.c], [gc/trace.c])

    An object that an actor sends is counted by the actor that owns it ([gc_local]) and by
    the actors that have references to it ([gc_foreign]).  Sending and receiving trace what a
    message reaches and move counts: the owner counts a message up and its receipt down;
    others count a message down and its receipt up, and acquire more from the owner when they
    run out.  A collection traces what an actor reaches and releases the rest.

    The heap that is marked is an interface; so are types and the memory that trace functions
    read, which the compiler generates. *)
From stdpp Require Import gmap.
From S2P Require Import Prelude ObjectMap.
Local Open Scope Z_scope.
Local Open Scope c_scope.

Definition GC_INC_MORE : Z := 256.
Definition GC_ACTOR_HEAP_EQUIV : Z := 1024.
Definition GC_IMMUT_HEAP_EQUIV : Z := 1024.

Record gc_t := mk_gc {
  gc_mark : Z;
  gc_rc_mark : Z;
  gc_rc : Z;
  gc_local : objectmap_t;
  gc_foreign : actormap_t;
  gc_delta : option deltamap_t
}.

Definition set_mark (g : gc_t) (n : Z) : gc_t :=
  mk_gc n (gc_rc_mark g) (gc_rc g) (gc_local g) (gc_foreign g) (gc_delta g).
Definition set_rc_mark (g : gc_t) (n : Z) : gc_t :=
  mk_gc (gc_mark g) n (gc_rc g) (gc_local g) (gc_foreign g) (gc_delta g).
Definition set_rc (g : gc_t) (n : Z) : gc_t :=
  mk_gc (gc_mark g) (gc_rc_mark g) n (gc_local g) (gc_foreign g) (gc_delta g).
Definition set_gc_local (g : gc_t) (m : objectmap_t) : gc_t :=
  mk_gc (gc_mark g) (gc_rc_mark g) (gc_rc g) m (gc_foreign g) (gc_delta g).
Definition set_foreign (g : gc_t) (m : actormap_t) : gc_t :=
  mk_gc (gc_mark g) (gc_rc_mark g) (gc_rc g) (gc_local g) m (gc_delta g).
Definition set_delta (g : gc_t) (d : option deltamap_t) : gc_t :=
  mk_gc (gc_mark g) (gc_rc_mark g) (gc_rc g) (gc_local g) (gc_foreign g) d.

Inductive mutability := PONY_TRACE_MUTABLE | PONY_TRACE_IMMUTABLE | PONY_TRACE_OPAQUE.

#[export] Instance mutability_eq_dec : EqDecision mutability.
Proof. solve_decision. Defined.

(** A call of a trace function for a field: [pony_trace], [pony_traceknown] and
    [pony_traceunknown]. *)
Inductive trace_call :=
| Trace (p : Z)
| Traceknown (p t : Z) (m : mutability)
| Traceunknown (p : Z) (m : mutability).

(** Types of the program: whether [dispatch] and [trace] are null, and a flag. *)
Class Types := {
  has_dispatch : Z -> bool;
  has_trace : Z -> bool;
  type_might_reference_actor : Z -> bool
}.

(** The memory that is read: the actor whose chunk the page map has for an address, the size
    of an object of that chunk, the type at the start of an object, the calls that the trace
    function of a type makes for an object, and the actors that are to be destroyed. *)
Record object_memory := mk_memory {
  owner : Z -> option Z;
  chunk_size : Z -> Z;
  type_at : Z -> Z;
  trace_fields : Z -> Z -> list trace_call;
  pendingdestroy : Z -> bool
}.

(** What is used of the heap of an actor: the marks of an address in the chunk that the page
    map has for it. *)
Class MarkHeap (H : Type) := {
  heap_mark : H -> Z -> outcome (H * bool);
  heap_mark_shallow : H -> Z -> outcome H;
  heap_used : H -> Z -> H
}.

(** Marks do not fail for addresses in its objects; what is marked stays so. *)
Class MarkHeapLaws (H : Type) `{MarkHeap H} := {
  heap_owns : H -> Z -> Prop;
  heap_marked : H -> Z -> Prop;
  heap_mark_law h p : heap_owns h p ->
    exists h' b, heap_mark h p = Ret (h', b) /\ forall q, heap_owns h q -> heap_owns h' q;
  heap_mark_shallow_law h p : heap_owns h p ->
    exists h', heap_mark_shallow h p = Ret h' /\ heap_marked h' p /\
      forall q, (heap_owns h q -> heap_owns h' q) /\ (heap_marked h q -> heap_marked h' q);
  heap_used_law h n q : heap_owns h q -> heap_owns (heap_used h n) q
}.

(** [ctx->trace_object] and [ctx->trace_actor]. *)
Inductive trace_mode := SEND | RECV | MARK | ACQ | REL.

(** The context of a scheduler thread, with the tables and the heap of the current actor and
    the messages that were sent.  The stack has pairs of an object and the type whose trace
    function is to be called. *)
Record ctx_t (H : Type) := mk_ctx {
  current : Z;
  mode : trace_mode;
  stack : list (Z * Z);
  acquire : actormap_t;
  gc : gc_t;
  heap : H;
  sent : list (Z * gc_msg)
}.
Arguments mk_ctx {H} _ _ _ _ _ _ _.
Arguments current {H} _.
Arguments mode {H} _.
Arguments stack {H} _.
Arguments acquire {H} _.
Arguments gc {H} _.
Arguments heap {H} _.
Arguments sent {H} _.

Section setters.
Context {H : Type}.
Abbreviation ctx := (ctx_t H).
Definition set_mode (c : ctx) (m : trace_mode) : ctx :=
  mk_ctx (current c) m (stack c) (acquire c) (gc c) (heap c) (sent c).
Definition set_ctx_stack (c : ctx) (l : list (Z * Z)) : ctx :=
  mk_ctx (current c) (mode c) l (acquire c) (gc c) (heap c) (sent c).
Definition set_acquire (c : ctx) (m : actormap_t) : ctx :=
  mk_ctx (current c) (mode c) (stack c) m (gc c) (heap c) (sent c).
Definition set_gc (c : ctx) (g : gc_t) : ctx :=
  mk_ctx (current c) (mode c) (stack c) (acquire c) g (heap c) (sent c).
Definition set_ctx_heap (c : ctx) (h : H) : ctx :=
  mk_ctx (current c) (mode c) (stack c) (acquire c) (gc c) h (sent c).
Definition add_sent (c : ctx) (l : list (Z * gc_msg)) : ctx :=
  mk_ctx (current c) (mode c) (stack c) (acquire c) (gc c) (heap c) (sent c ++ l).
End setters.

Section gc.
Context {H : Type} `{MH : MarkHeap H} `{TY : Types} `{EN : Enumeration}.
Context (actor_noblock : bool) (mem : object_memory).
Abbreviation ctx := (ctx_t H).

Definition might_reference_actor (t : Z) : bool := negb (t =? NULL) && type_might_reference_actor t.

(** ** Pieces of the handlers *)

Definition use_heap (c : ctx) (n : Z) : ctx := set_ctx_heap c (heap_used (heap c) n).

(** [ponyint_deltamap_update] when the cycle detector is enabled. *)
Definition update_delta (g : gc_t) (actor rc : Z) : gc_t :=
  if actor_noblock then g else set_delta g (ponyint_deltamap_update (gc_delta g) actor rc).

Definition acquire_actor (c : ctx) (actor : Z) : ctx :=
  let (map, aref) := ponyint_actormap_getorput (acquire c) actor 0 in
  set_acquire c (<[actor := set_ref_rc aref (ref_rc aref ⊞ GC_INC_MORE)]> map).

Definition acquire_object (c : ctx) (actor address : Z) (immutable : bool) : ctx :=
  let (map, aref) := ponyint_actormap_getorput (acquire c) actor 0 in
  let (aref, obj) := ponyint_actorref_getorput aref address (type_at mem address) 0 in
  let obj := set_obj_immutable (set_obj_rc obj (obj_rc obj ⊞ GC_INC_MORE)) immutable in
  set_acquire c (<[actor := set_ref_map aref (<[address := obj]> (ref_map aref))]> map).

(** The function pointer [t->trace] is null or that of the type. *)
Definition recurse (c : ctx) (p t : Z) : ctx :=
  if has_trace t then set_ctx_stack c ((p, t) :: stack c) else c.

Definition send_local_actor (g : gc_t) : gc_t :=
  if negb (gc_rc_mark g =? gc_mark g) then
    let g := set_rc_mark g (gc_mark g) in
    set_rc g (gc_rc g ⊞ 1)
  else g.

Definition recv_local_actor (g : gc_t) : outcome gc_t :=
  if negb (gc_rc_mark g =? gc_mark g) then
    let g := set_rc_mark g (gc_mark g) in
    if 0 <? gc_rc g then Ret (set_rc g (gc_rc g ⊟ 1)) else Abort
  else Ret g.

Definition acquire_local_actor (g : gc_t) : gc_t := set_rc g (gc_rc g ⊞ 1).

Definition release_local_actor (g : gc_t) : outcome gc_t :=
  if 0 <? gc_rc g then Ret (set_rc g (gc_rc g ⊟ 1)) else Abort.

(** The handlers of a remote actor take the reference, which is in the table of foreign
    actors under the key [actor], and put it back there. *)
Definition put_ref (c : ctx) (actor : Z) (aref : actorref_t) : ctx :=
  set_gc c (set_foreign (gc c) (<[actor := aref]> (gc_foreign (gc c)))).

Definition send_remote_actor (c : ctx) (actor : Z) (aref : actorref_t) : ctx * actorref_t :=
  if ref_mark aref =? gc_mark (gc c) then (c, aref)
  else
    let aref := set_ref_mark aref (gc_mark (gc c)) in
    let '(c, aref) :=
      if ref_rc aref <=? 1 then
        (acquire_actor c actor, set_ref_rc aref (ref_rc aref ⊞ (GC_INC_MORE - 1)))
      else (c, set_ref_rc aref (ref_rc aref ⊟ 1)) in
    let c := put_ref c actor aref in
    (set_gc c (update_delta (gc c) actor (ref_rc aref)), aref).

Definition recv_remote_actor (c : ctx) (actor : Z) (aref : actorref_t) : ctx * actorref_t :=
  if ref_mark aref =? gc_mark (gc c) then (c, aref)
  else
    let c := if ref_rc aref =? 0 then use_heap c GC_ACTOR_HEAP_EQUIV else c in
    let aref := set_ref_mark aref (gc_mark (gc c)) in
    let aref := set_ref_rc aref (ref_rc aref ⊞ 1) in
    let c := put_ref c actor aref in
    (set_gc c (update_delta (gc c) actor (ref_rc aref)), aref).

Definition mark_remote_actor (c : ctx) (actor : Z) (aref : actorref_t) : ctx * actorref_t :=
  if ref_mark aref =? gc_mark (gc c) then (c, aref)
  else
    let c := use_heap c GC_ACTOR_HEAP_EQUIV in
    let aref := set_ref_mark aref (gc_mark (gc c)) in
    if ref_rc aref =? 0 then
      let aref := set_ref_rc aref (ref_rc aref ⊞ GC_INC_MORE) in
      let c := put_ref (acquire_actor c actor) actor aref in
      (set_gc c (update_delta (gc c) actor (ref_rc aref)), aref)
    else (put_ref c actor aref, aref).

Definition acq_or_rel_remote_actor (c : ctx) (actor : Z) : ctx :=
  let (map, aref) := ponyint_actormap_getorput (acquire c) actor 0 in
  set_acquire c (<[actor := set_ref_rc aref (ref_rc aref ⊞ 1)]> map).

(** ** Objects of the current actor *)

(** The end of the handlers: objects that are not opaque are marked immutable and traced as
    their mutability says. *)
Definition finish_object (c : ctx) (p t : Z) (m : mutability) (obj : object_t) (put : ctx -> object_t -> ctx) : ctx :=
  if decide (m = PONY_TRACE_OPAQUE) then put c obj
  else
    let obj := if decide (m = PONY_TRACE_IMMUTABLE) then set_obj_immutable obj true else obj in
    let c := put c obj in
    if negb (obj_immutable obj) || might_reference_actor t then recurse c p t else c.

Definition put_local (p : Z) (c : ctx) (obj : object_t) : ctx :=
  set_gc c (set_gc_local (gc c) (<[p := obj]> (gc_local (gc c)))).

Definition send_local_object (c : ctx) (p t : Z) (m : mutability) : ctx :=
  let g := gc c in
  let (local, obj) := ponyint_objectmap_getorput (gc_local g) p t (gc_mark g) in
  let c := set_gc c (set_gc_local g local) in
  if obj_mark obj =? gc_mark g then c
  else
    let c := set_gc c (send_local_actor (gc c)) in
    let obj := set_obj_mark (set_obj_rc obj (obj_rc obj ⊞ 1)) (gc_mark g) in
    finish_object c p t m obj (put_local p).

Definition recv_local_object (c : ctx) (p t : Z) (m : mutability) : outcome ctx :=
  let g := gc c in
  match ponyint_objectmap_getobject (gc_local g) p with
  | None => Abort
  | Some obj =>
      if obj_mark obj =? gc_mark g then Ret c
      else
        g' ← recv_local_actor g;
        let c := set_gc c g' in
        let obj := set_obj_mark (set_obj_rc obj (obj_rc obj ⊟ 1)) (gc_mark g) in
        Ret (finish_object c p t m obj (put_local p))
  end.

Definition mark_local_object (c : ctx) (p t : Z) (m : mutability) : outcome ctx :=
  if decide (m = PONY_TRACE_OPAQUE) then
    h ← heap_mark_shallow (heap c) p;
    Ret (set_ctx_heap c h)
  else
    '(h, marked) ← heap_mark (heap c) p;
    let c := set_ctx_heap c h in
    Ret (if marked : bool then c else recurse c p t).

Definition acquire_local_object (c : ctx) (p t : Z) (m : mutability) : ctx :=
  let g := gc c in
  let (local, obj) := ponyint_objectmap_getorput (gc_local g) p t (gc_mark g) in
  let c := set_gc c (set_gc_local g local) in
  if obj_mark obj =? gc_mark g then c
  else
    let c := set_gc c (acquire_local_actor (gc c)) in
    let obj := set_obj_mark (set_obj_rc obj (obj_rc obj ⊞ 1)) (gc_mark g) in
    finish_object c p t m obj (put_local p).

Definition release_local_object (c : ctx) (p t : Z) (m : mutability) : outcome ctx :=
  let g := gc c in
  match ponyint_objectmap_getobject (gc_local g) p with
  | None => Abort
  | Some obj =>
      if obj_mark obj =? gc_mark g then Ret c
      else
        g' ← release_local_actor g;
        let c := set_gc c g' in
        let obj := set_obj_mark (set_obj_rc obj (obj_rc obj ⊟ 1)) (gc_mark g) in
        Ret (finish_object c p t m obj (put_local p))
  end.

(** ** Objects of other actors *)

Definition put_remote (actor p : Z) (aref : actorref_t) (c : ctx) (obj : object_t) : ctx :=
  put_ref c actor (set_ref_map aref (<[p := obj]> (ref_map aref))).

Definition send_remote_object (c : ctx) (actor p t : Z) (m : mutability) : ctx :=
  let mark := gc_mark (gc c) in
  let (foreign, aref) := ponyint_actormap_getorput (gc_foreign (gc c)) actor mark in
  let (aref, obj) := ponyint_actorref_getorput aref p t mark in
  let c := set_gc c (set_foreign (gc c) (<[actor := aref]> foreign)) in
  if obj_mark obj =? mark then c
  else
    let (c, aref) := send_remote_actor c actor aref in
    let obj := set_obj_mark obj mark in
    let '(c, obj, m) :=
      if bool_decide (m = PONY_TRACE_IMMUTABLE) && negb (obj_immutable obj) && (0 <? obj_rc obj) then
        let obj := set_obj_immutable (set_obj_rc obj (obj_rc obj ⊞ (GC_INC_MORE - 1))) true in
        (acquire_object c actor p true, obj, PONY_TRACE_MUTABLE)
      else if obj_rc obj <=? 1 then
        let obj := if decide (m = PONY_TRACE_IMMUTABLE) then set_obj_immutable obj true else obj in
        let obj := set_obj_rc obj (obj_rc obj ⊞ (GC_INC_MORE - 1)) in
        (acquire_object c actor p (obj_immutable obj), obj, m)
      else (c, set_obj_rc obj (obj_rc obj ⊟ 1), m) in
    let c := put_remote actor p aref c obj in
    if decide (m = PONY_TRACE_OPAQUE) then c
    else if bool_decide (m = PONY_TRACE_MUTABLE) || might_reference_actor t then recurse c p t else c.

(** More memory seems used when an object is met that was not known. *)
Definition use_object (c : ctx) (p t : Z) (m : mutability) : ctx :=
  let c := use_heap c (chunk_size mem p) in
  if bool_decide (m = PONY_TRACE_IMMUTABLE) && negb (might_reference_actor t)
  then use_heap c GC_IMMUT_HEAP_EQUIV else c.

Definition recv_remote_object (c : ctx) (actor p t : Z) (m : mutability) : ctx :=
  let mark := gc_mark (gc c) in
  let (foreign, aref) := ponyint_actormap_getorput (gc_foreign (gc c)) actor mark in
  let (aref, obj) := ponyint_actorref_getorput aref p t mark in
  let c := set_gc c (set_foreign (gc c) (<[actor := aref]> foreign)) in
  if obj_mark obj =? mark then c
  else
    let (c, aref) := recv_remote_actor c actor aref in
    let c := if obj_rc obj =? 0 then use_object c p t m else c in
    let obj := set_obj_mark (set_obj_rc obj (obj_rc obj ⊞ 1)) mark in
    finish_object c p t m obj (put_remote actor p aref).

Definition mark_remote_object (c : ctx) (actor p t : Z) (m : mutability) : ctx :=
  let mark := gc_mark (gc c) in
  let (foreign, aref) := ponyint_actormap_getorput (gc_foreign (gc c)) actor mark in
  let (aref, obj) := ponyint_actorref_getorput aref p t mark in
  let c := set_gc c (set_foreign (gc c) (<[actor := aref]> foreign)) in
  if obj_mark obj =? mark then c
  else
    let c := use_object c p t m in
    let (c, aref) := mark_remote_actor c actor aref in
    let obj := set_obj_mark obj mark in
    let '(c, obj, m) :=
      if bool_decide (m = PONY_TRACE_IMMUTABLE) && negb (obj_immutable obj) && (0 <? obj_rc obj) then
        let obj := set_obj_immutable (set_obj_rc obj (obj_rc obj ⊞ GC_INC_MORE)) true in
        (acquire_object c actor p true, obj, PONY_TRACE_MUTABLE)
      else if obj_rc obj =? 0 then
        let obj := if decide (m = PONY_TRACE_IMMUTABLE) then set_obj_immutable obj true else obj in
        let obj := set_obj_rc obj (obj_rc obj ⊞ GC_INC_MORE) in
        (acquire_object c actor p (obj_immutable obj), obj, m)
      else (c, obj, m) in
    let c := put_remote actor p aref c obj in
    if decide (m = PONY_TRACE_OPAQUE) then c
    else if bool_decide (m = PONY_TRACE_MUTABLE) || might_reference_actor t then recurse c p t else c.

Definition acq_or_rel_remote_object (c : ctx) (actor p t : Z) (m : mutability) : ctx :=
  let mark := gc_mark (gc c) in
  let (map, aref) := ponyint_actormap_getorput (acquire c) actor 0 in
  let (aref, obj) := ponyint_actorref_getorput aref p t mark in
  let c := set_acquire c (<[actor := aref]> map) in
  if obj_mark obj =? mark then c
  else
    let c := acq_or_rel_remote_actor c actor in
    let obj := set_obj_mark (set_obj_rc obj (obj_rc obj ⊞ 1)) mark in
    let put c obj :=
      match acquire c !! actor with
      | Some aref => set_acquire c (<[actor := set_ref_map aref (<[p := obj]> (ref_map aref))]> (acquire c))
      | None => c
      end in
    finish_object c p t m obj put.

(** ** The functions that [trace_object] and [trace_actor] point to *)

(** What is done with an object depends on who owns it; memory that no heap has is traced
    only. *)
Definition gc_object (local : ctx -> Z -> Z -> mutability -> outcome ctx)
    (remote : ctx -> Z -> Z -> Z -> mutability -> ctx) (c : ctx) (p t : Z) (m : mutability) : outcome ctx :=
  match owner mem p with
  | None => Ret (if decide (m = PONY_TRACE_OPAQUE) then c else recurse c p t)
  | Some actor => if actor =? current c then local c p t m else Ret (remote c actor p t m)
  end.

Definition ponyint_gc_sendobject : ctx -> Z -> Z -> mutability -> outcome ctx :=
  gc_object (fun c p t m => Ret (send_local_object c p t m)) send_remote_object.
Definition ponyint_gc_recvobject : ctx -> Z -> Z -> mutability -> outcome ctx :=
  gc_object recv_local_object recv_remote_object.
Definition ponyint_gc_markobject : ctx -> Z -> Z -> mutability -> outcome ctx :=
  gc_object mark_local_object mark_remote_object.
Definition ponyint_gc_acquireobject : ctx -> Z -> Z -> mutability -> outcome ctx :=
  gc_object (fun c p t m => Ret (acquire_local_object c p t m)) acq_or_rel_remote_object.
Definition ponyint_gc_releaseobject : ctx -> Z -> Z -> mutability -> outcome ctx :=
  gc_object release_local_object acq_or_rel_remote_object.

Definition foreign_actor (remote : ctx -> Z -> actorref_t -> ctx * actorref_t) (c : ctx) (actor : Z) : ctx :=
  let (foreign, aref) := ponyint_actormap_getorput (gc_foreign (gc c)) actor (gc_mark (gc c)) in
  fst (remote (set_gc c (set_foreign (gc c) foreign)) actor aref).

Definition ponyint_gc_sendactor (c : ctx) (actor : Z) : ctx :=
  if actor =? current c then set_gc c (send_local_actor (gc c)) else foreign_actor send_remote_actor c actor.

Definition ponyint_gc_recvactor (c : ctx) (actor : Z) : outcome ctx :=
  if actor =? current c then g ← recv_local_actor (gc c); Ret (set_gc c g)
  else Ret (foreign_actor recv_remote_actor c actor).

Definition ponyint_gc_markactor (c : ctx) (actor : Z) : ctx :=
  if actor =? current c then c else foreign_actor mark_remote_actor c actor.

Definition ponyint_gc_acquireactor (c : ctx) (actor : Z) : ctx :=
  if actor =? current c then set_gc c (acquire_local_actor (gc c)) else acq_or_rel_remote_actor c actor.

Definition ponyint_gc_releaseactor (c : ctx) (actor : Z) : outcome ctx :=
  if actor =? current c then g ← release_local_actor (gc c); Ret (set_gc c g)
  else Ret (acq_or_rel_remote_actor c actor).

Definition trace_object (c : ctx) : Z -> Z -> mutability -> outcome ctx :=
  match mode c with
  | SEND => ponyint_gc_sendobject c
  | RECV => ponyint_gc_recvobject c
  | MARK => ponyint_gc_markobject c
  | ACQ => ponyint_gc_acquireobject c
  | REL => ponyint_gc_releaseobject c
  end.

Definition trace_actor (c : ctx) (actor : Z) : outcome ctx :=
  match mode c with
  | SEND => Ret (ponyint_gc_sendactor c actor)
  | RECV => ponyint_gc_recvactor c actor
  | MARK => Ret (ponyint_gc_markactor c actor)
  | ACQ => Ret (ponyint_gc_acquireactor c actor)
  | REL => ponyint_gc_releaseactor c actor
  end.

(** ** Tracing ([trace.c]) *)

Definition pony_trace (c : ctx) (p : Z) : outcome ctx := trace_object c p NULL PONY_TRACE_OPAQUE.

Definition pony_traceknown (c : ctx) (p t : Z) (m : mutability) : outcome ctx :=
  if has_dispatch t then trace_actor c p else trace_object c p t m.

Definition pony_traceunknown (c : ctx) (p : Z) (m : mutability) : outcome ctx :=
  let t := type_at mem p in
  if has_dispatch t then trace_actor c p else trace_object c p t m.

Definition run_trace (c : ctx) (call : trace_call) : outcome ctx :=
  match call with
  | Trace p => pony_trace c p
  | Traceknown p t m => pony_traceknown c p t m
  | Traceunknown p m => pony_traceunknown c p m
  end.

Definition run_traces : ctx -> list trace_call -> outcome ctx := foldO run_trace.

Fixpoint ponyint_gc_handlestack (fuel : nat) (c : ctx) : outcome ctx :=
  match stack c with
  | [] => Ret c
  | (p, t) :: rest =>
      match fuel with
      | O => NoFuel
      | S fuel =>
          c ← run_traces (set_ctx_stack c rest) (trace_fields mem t p);
          ponyint_gc_handlestack fuel c
      end
  end.

Definition ponyint_gc_discardstack (c : ctx) : ctx := set_ctx_stack c [].

(** ** Collecting *)

Definition mark_immutable (c : ctx) (entry : Z * object_t) : outcome ctx :=
  let '(p, obj) := entry in
  if obj_immutable obj && (0 <? obj_rc obj) && negb (might_reference_actor (obj_type obj)) then
    mark_local_object c p (obj_type obj) PONY_TRACE_IMMUTABLE
  else Ret c.

Definition ponyint_gc_markimmutable (c : ctx) : outcome ctx := foldO mark_immutable c (enum (gc_local (gc c))).

(** One turn of the loop of [ponyint_objectmap_sweep]. *)
Definition sweep_object (s : H * objectmap_t) (entry : Z * object_t) : outcome (H * objectmap_t) :=
  let '(h, map) := s in
  let '(p, obj) := entry in
  if 0 <? obj_rc obj then h ← heap_mark_shallow h p; Ret (h, map)
  else Ret (h, delete p map).

Definition ponyint_objectmap_sweep (h : H) (map : objectmap_t) : outcome (H * objectmap_t) :=
  foldO sweep_object (h, map) (enum map).

Definition ponyint_gc_sendrelease (c : ctx) : ctx :=
  let g := gc c in
  let '(foreign, delta, released) :=
    ponyint_actormap_sweep actor_noblock (pendingdestroy mem) (gc_foreign g) (gc_mark g) (gc_delta g) in
  add_sent (set_gc c (set_delta (set_foreign g foreign) delta)) released.

Definition ponyint_gc_sweep (c : ctx) : outcome ctx :=
  '(h, local) ← ponyint_objectmap_sweep (heap c) (gc_local (gc c));
  Ret (ponyint_gc_sendrelease (set_gc (set_ctx_heap c h) (set_gc_local (gc c) local))).

(** ** Messages about counts *)

Definition acquire_one (g : gc_t) (entry : Z * object_t) : gc_t :=
  let '(address, obj) := entry in
  let (local, obj_local) := ponyint_objectmap_getorput (gc_local g) address (obj_type obj) (gc_mark g) in
  let obj_local := set_obj_rc obj_local (obj_rc obj_local ⊞ obj_rc obj) in
  let obj_local := if obj_immutable obj then set_obj_immutable obj_local true else obj_local in
  set_gc_local g (<[address := obj_local]> local).

Definition ponyint_gc_acquire (g : gc_t) (aref : actorref_t) : gc_t * bool :=
  let rc := ref_rc aref in
  let g := set_rc g (gc_rc g ⊞ rc) in
  (foldl acquire_one g (enum (ref_map aref)), 0 <? rc).

Definition release_one (g : gc_t) (entry : Z * object_t) : outcome gc_t :=
  let '(address, obj) := entry in
  match ponyint_objectmap_getobject (gc_local g) address with
  | None => Abort
  | Some obj_local =>
      if obj_rc obj <=? obj_rc obj_local then
        Ret (set_gc_local g (<[address := set_obj_rc obj_local (obj_rc obj_local ⊟ obj_rc obj)]> (gc_local g)))
      else Abort
  end.

Definition ponyint_gc_release (g : gc_t) (aref : actorref_t) : outcome (gc_t * bool) :=
  let rc := ref_rc aref in
  if rc <=? gc_rc g then
    g ← foldO release_one (set_rc g (gc_rc g ⊟ rc)) (enum (ref_map aref));
    Ret (g, 0 <? rc)
  else Abort.

(** The loop of [ponyint_gc_sendacquire] and [ponyint_gc_sendrelease_manual]. *)
Definition send_acquired (msg : actorref_t -> gc_msg) (c : ctx) : ctx :=
  foldl (fun c '(actor, aref) => add_sent (set_acquire c (delete actor (acquire c))) [(actor, msg aref)]) c
    (enum (acquire c)).

Definition send_all_acquired (msg : actorref_t -> gc_msg) (c : ctx) : outcome ctx :=
  let c := send_acquired msg c in
  if Nat.eqb (size (acquire c)) 0 then Ret c else Abort.

Definition ponyint_gc_sendacquire : ctx -> outcome ctx := send_all_acquired ACQUIRE.
Definition ponyint_gc_sendrelease_manual : ctx -> outcome ctx := send_all_acquired RELEASE.

Definition ponyint_gc_done (g : gc_t) : gc_t := set_mark g (u32 (gc_mark g + 1)).

Definition ponyint_gc_createactor (g : gc_t) (h : H) (actor : Z) : gc_t * H :=
  let (foreign, aref) := ponyint_actormap_getorput (gc_foreign g) actor (gc_mark g) in
  let g := set_foreign g (<[actor := set_ref_rc aref GC_INC_MORE]> foreign) in
  (update_delta g actor GC_INC_MORE, heap_used h GC_ACTOR_HEAP_EQUIV).

(** Of [pony_create]: the tables of a new actor. *)
Definition new_gc (created : bool) : gc_t :=
  let g := ponyint_gc_done (mk_gc 0 0 0 ∅ ∅ None) in
  set_rc g (if created then GC_INC_MORE else 0).

(** The delta map is given away. *)
Definition ponyint_gc_delta (g : gc_t) : gc_t * option deltamap_t := (set_delta g None, gc_delta g).

Definition ponyint_gc_destroy (g : gc_t) : gc_t := set_delta (set_foreign (set_gc_local g ∅) ∅) None.

(** ** Rounds of tracing *)

Definition start (m : trace_mode) (c : ctx) : outcome ctx :=
  match stack c with [] => if current c =? NULL then Abort else Ret (set_mode c m) | _ => Abort end.

Definition pony_gc_send : ctx -> outcome ctx := start SEND.
Definition pony_gc_recv : ctx -> outcome ctx := start RECV.
Definition pony_gc_acquire : ctx -> outcome ctx := start ACQ.
Definition pony_gc_release : ctx -> outcome ctx := start REL.
Definition ponyint_gc_mark (c : ctx) : outcome ctx :=
  match stack c with [] => Ret (set_mode c MARK) | _ => Abort end.

Definition done (c : ctx) : ctx := set_gc c (ponyint_gc_done (gc c)).

(** The rest of a round, after the assertion that there is a current actor. *)
Definition handle (fuel : nat) (c : ctx) : outcome ctx :=
  if current c =? NULL then Abort else ponyint_gc_handlestack fuel c.

Definition pony_send_done (fuel : nat) (c : ctx) : outcome ctx :=
  c ← handle fuel c; c ← ponyint_gc_sendacquire c; Ret (done c).

Definition pony_recv_done (fuel : nat) (c : ctx) : outcome ctx := c ← handle fuel c; Ret (done c).

Definition ponyint_mark_done (fuel : nat) (c : ctx) : outcome ctx :=
  c ← ponyint_gc_markimmutable c;
  c ← ponyint_gc_handlestack fuel c;
  c ← ponyint_gc_sendacquire c;
  c ← ponyint_gc_sweep c;
  Ret (done c).

Definition pony_acquire_done (fuel : nat) (c : ctx) : outcome ctx :=
  c ← handle fuel c; c ← ponyint_gc_sendacquire c; Ret (done c).

Definition pony_release_done (fuel : nat) (c : ctx) : outcome ctx :=
  c ← handle fuel c; c ← ponyint_gc_sendrelease_manual c; Ret (done c).

Definition pony_send_next (fuel : nat) (c : ctx) : outcome ctx := c ← handle fuel c; Ret (done c).
End gc.
