(* ===== verification/GcCount.v ===== *)
(** * What tracing does to the counts ([gc/gc.c])

    The key of a count is an actor with nothing, for the references to the actor itself, or
    with the address of an object that it owns.  The count of a key is with its owner
    ([own_count]), with another actor ([foreign_count]) or on its way in the table of what
    is acquired ([map_count]); it is [seen] in a round of tracing when it is marked.  Each
    handler changes the counts of the key it is called for, once in a round: [traced] is what
    holds after any part of a round. *)
From stdpp Require Import gmap.
From S2P Require Import Prelude ObjectMap Gc.
Local Open Scope Z_scope.
Local Open Scope c_scope.

(** ** Counts *)

Definition own_count (g : gc_t) (k : option Z) : Z :=
  match k with None => gc_rc g | Some p => from_option obj_rc 0 (gc_local g !! p) end.

Definition own_seen (g : gc_t) (k : option Z) : bool :=
  match k with
  | None => gc_rc_mark g =? gc_mark g
  | Some p => from_option (fun o => obj_mark o =? gc_mark g) false (gc_local g !! p)
  end.

Definition ref_count (r : actorref_t) (k : option Z) : Z :=
  match k with None => ref_rc r | Some p => from_option obj_rc 0 (ref_map r !! p) end.

Definition ref_seen (mark : Z) (r : actorref_t) (k : option Z) : bool :=
  match k with
  | None => ref_mark r =? mark
  | Some p => from_option (fun o => obj_mark o =? mark) false (ref_map r !! p)
  end.

Definition map_count (m : actormap_t) (B : Z) (k : option Z) : Z := from_option (fun r => ref_count r k) 0 (m !! B).
Definition map_seen (mark : Z) (m : actormap_t) (B : Z) (k : option Z) : bool :=
  from_option (fun r => ref_seen mark r k) false (m !! B).

Definition foreign_count (g : gc_t) : Z -> option Z -> Z := map_count (gc_foreign g).
Definition foreign_seen (g : gc_t) : Z -> option Z -> bool := map_seen (gc_mark g) (gc_foreign g).

(** Well-formed tables: counts are not negative, marks are not in the future. *)
Definition mark_ok (mark n : Z) : Prop := 0 <= n <= mark.
Definition object_ok (mark : Z) (o : object_t) : Prop := 0 <= obj_rc o /\ mark_ok mark (obj_mark o).
Definition ref_ok (mark : Z) (r : actorref_t) : Prop :=
  0 <= ref_rc r /\ mark_ok mark (ref_mark r) /\ map_Forall (fun _ => object_ok mark) (ref_map r).

Record gc_ok (self : Z) (g : gc_t) : Prop := {
  ok_mark : 1 <= gc_mark g < 2 ^ 32 - 1;
  ok_rc : 0 <= gc_rc g;
  ok_rc_mark : mark_ok (gc_mark g) (gc_rc_mark g);
  ok_local : map_Forall (fun _ => object_ok (gc_mark g)) (gc_local g);
  ok_foreign : map_Forall (fun _ => ref_ok (gc_mark g)) (gc_foreign g);
  ok_self : gc_foreign g !! self = None
}.

(** Objects of others that are in the tables are counted. *)
Definition positive (g : gc_t) : Prop :=
  map_Forall (fun _ r => map_Forall (fun _ o => 1 <= obj_rc o) (ref_map r)) (gc_foreign g).

Lemma own_count_nonneg self g k : gc_ok self g -> 0 <= own_count g k.
Proof.
  intros Hg. destruct k as [p|]; cbn; [|apply Hg]. destruct (gc_local g !! p) as [o|] eqn:E; [|done].
  by apply (ok_local _ _ Hg p o).
Qed.

Lemma foreign_count_nonneg self g B k : gc_ok self g -> 0 <= foreign_count g B k.
Proof.
  intros Hg. unfold foreign_count, map_count. destruct (gc_foreign g !! B) as [r|] eqn:E; [|done]. cbn.
  pose proof (ok_foreign _ _ Hg B r E) as (H1 & _ & H2). destruct k as [p|]; [cbn|done].
  destruct (ref_map r !! p) as [o|] eqn:Eo; [|done]. cbn. by apply (H2 p o Eo).
Qed.

(** A new mark has not been seen. *)
Lemma old_mark mark : 1 <= mark < 2 ^ 32 - 1 -> u32 (mark - 1) = mark - 1.
Proof. intros. unfold u32, wrap. apply Z.mod_small. lia. Qed.

(** ** Updates of tables *)

Lemma map_count_insert m a r B k :
  map_count (<[a := r]> m) B k = if decide (B = a) then ref_count r k else map_count m B k.
Proof.
  unfold map_count. case_decide as E; [by subst; rewrite lookup_insert_eq|by rewrite lookup_insert_ne].
Qed.

Lemma map_seen_insert mark m a r B k :
  map_seen mark (<[a := r]> m) B k = if decide (B = a) then ref_seen mark r k else map_seen mark m B k.
Proof.
  unfold map_seen. case_decide as E; [by subst; rewrite lookup_insert_eq|by rewrite lookup_insert_ne].
Qed.

Lemma ref_count_put r p o k :
  ref_count (set_ref_map r (<[p := o]> (ref_map r))) k = if decide (k = Some p) then obj_rc o else ref_count r k.
Proof.
  case_decide as E; [subst; cbn; by rewrite lookup_insert_eq|]. destruct k as [q|]; [|done]. cbn.
  rewrite lookup_insert_ne; [done|congruence].
Qed.

Lemma ref_seen_put mark r p o k :
  ref_seen mark (set_ref_map r (<[p := o]> (ref_map r))) k =
    if decide (k = Some p) then obj_mark o =? mark else ref_seen mark r k.
Proof.
  case_decide as E; [subst; cbn; by rewrite lookup_insert_eq|]. destruct k as [q|]; [|done]. cbn.
  rewrite lookup_insert_ne; [done|congruence].
Qed.

(** [getorput] changes no count and no mark: what it puts has the count 0 and an old mark. *)
Lemma getorput_actor m a mk :
  exists r, ponyint_actormap_getorput m a mk = (<[a := r]> m, r) /\
    (m !! a = Some r \/ m !! a = None /\ r = actorref_alloc mk).
Proof.
  unfold ponyint_actormap_getorput, ponyint_actormap_getactor. destruct (m !! a) as [r|] eqn:E.
  - exists r. rewrite insert_id by done. auto.
  - exists (actorref_alloc mk). auto.
Qed.

Lemma getorput_object r p t mk :
  exists o, ponyint_actorref_getorput r p t mk = (set_ref_map r (<[p := o]> (ref_map r)), o) /\
    (ref_map r !! p = Some o \/ ref_map r !! p = None /\ o = object_alloc t mk).
Proof.
  unfold ponyint_actorref_getorput, ponyint_objectmap_getorput, ponyint_objectmap_getobject.
  destruct (ref_map r !! p) as [o|] eqn:E.
  - exists o. rewrite insert_id by done. auto.
  - exists (object_alloc t mk). auto.
Qed.

Lemma getorput_local m p t mk :
  exists o, ponyint_objectmap_getorput m p t mk = (<[p := o]> m, o) /\
    (m !! p = Some o \/ m !! p = None /\ o = object_alloc t mk).
Proof.
  unfold ponyint_objectmap_getorput, ponyint_objectmap_getobject. destruct (m !! p) as [o|] eqn:E.
  - exists o. rewrite insert_id by done. auto.
  - exists (object_alloc t mk). auto.
Qed.

Section counts.
Context {H : Type} `{MH : MarkHeap H} `{ML : !MarkHeapLaws H} `{TY : Types} `{EN : Enumeration}.
Context (actor_noblock : bool) (mem : object_memory).
Abbreviation ctx := (ctx_t H).
Implicit Types c : ctx.

Definition acquired (c : ctx) : Z -> option Z -> Z := map_count (acquire c).

Lemma count_default m a mk r B k :
  (m !! a = Some r \/ m !! a = None /\ r = actorref_alloc mk) ->
  map_count m B k = if decide (B = a) then ref_count r k else map_count m B k.
Proof.
  intros Hr. case_decide as E; [subst|done]. unfold map_count. destruct Hr as [->|[-> ->]]; [done|].
  by destruct k.
Qed.

Lemma object_default r p t mk o k :
  (ref_map r !! p = Some o \/ ref_map r !! p = None /\ o = object_alloc t mk) ->
  ref_count r k = if decide (k = Some p) then obj_rc o else ref_count r k.
Proof. intros Ho. case_decide as E; [subst|done]. cbn. by destruct Ho as [->|[-> ->]]. Qed.

Lemma acquired_actor c a B k :
  0 <= acquired c a None < 2 ^ 63 ->
  acquired (acquire_actor c a) B k = acquired c B k + (if decide (B = a /\ k = None) then GC_INC_MORE else 0).
Proof.
  intros Hb. unfold acquired, acquire_actor. destruct (getorput_actor (acquire c) a 0) as (r & -> & Hr). cbn.
  rewrite insert_insert_eq, map_count_insert, (count_default _ a 0 r B k Hr).
  unfold acquired in Hb. rewrite (count_default _ a 0 r a None Hr) in Hb. rewrite decide_True in Hb by done.
  cbn in Hb.
  case_decide as E; [|rewrite decide_False by tauto; lia]. subst.
  destruct k as [p|]; [rewrite decide_False by naive_solver; cbn; lia|]. rewrite decide_True by done. cbn.
  unfold add64. rewrite u64_id; [done|]. unfold is_u64, GC_INC_MORE. lia.
Qed.

Lemma acquired_object c a p im B k :
  0 <= acquired c a (Some p) < 2 ^ 63 ->
  acquired (acquire_object mem c a p im) B k =
    acquired c B k + (if decide (B = a /\ k = Some p) then GC_INC_MORE else 0).
Proof.
  intros Hb. unfold acquired, acquire_object. destruct (getorput_actor (acquire c) a 0) as (r & -> & Hr).
  destruct (getorput_object r p (type_at mem p) 0) as (o & -> & Ho). cbn.
  rewrite insert_insert_eq, map_count_insert, (count_default _ a 0 r B k Hr).
  unfold acquired in Hb. rewrite (count_default _ a 0 r a _ Hr), decide_True in Hb by done.
  rewrite (object_default r p (type_at mem p) 0 o _ Ho), decide_True in Hb by done.
  case_decide as E; [|rewrite decide_False by tauto; lia]. subst.
  rewrite insert_insert_eq. change (set_ref_map (set_ref_map r _) ?m) with (set_ref_map r m).
  rewrite ref_count_put, (object_default r p (type_at mem p) 0 o k Ho).
  case_decide as E; [|rewrite decide_False by tauto; lia]. subst. rewrite decide_True by done. cbn.
  unfold add64. rewrite u64_id; [done|]. unfold is_u64, GC_INC_MORE. lia.
Qed.

(** ** The effect of a call

    What a handler leaves as it was. *)
Record same (c c' : ctx) : Prop := {
  same_current : current c' = current c;
  same_mode : mode c' = mode c;
  same_sent : sent c' = sent c;
  same_mark : gc_mark (gc c') = gc_mark (gc c);
  same_heap q : heap_owns (heap c) q -> heap_owns (heap c') q
}.

(** How much sending and receiving move from a count to another. *)
Definition moved (md : trace_mode) : Z := match md with SEND => 1 | RECV => -1 | _ => 0 end.

(** How much may be acquired. *)
Definition acquiring (md : trace_mode) : Z := match md with RECV => 0 | _ => GC_INC_MORE end.

(** A count [n] of a foreign reference becomes [n'], and [inc] more are acquired. *)
Definition step_entry (md : trace_mode) (n n' inc : Z) : Prop :=
  n' + moved md = n + inc /\ (inc = 0 \/ inc = acquiring md) /\ 1 <= n'.

Definition own_unchanged c c' k : Prop :=
  own_count (gc c') k = own_count (gc c) k /\ own_seen (gc c') k = own_seen (gc c) k.
Definition own_moved c c' k : Prop :=
  own_seen (gc c) k = false /\ own_seen (gc c') k = true /\
  own_count (gc c') k = own_count (gc c) k + moved (mode c).

Definition foreign_unchanged c c' B k : Prop :=
  foreign_count (gc c') B k = foreign_count (gc c) B k /\ foreign_seen (gc c') B k = foreign_seen (gc c) B k /\
  acquired c' B k = acquired c B k.
Definition foreign_moved c c' B k : Prop :=
  foreign_seen (gc c) B k = false /\ foreign_seen (gc c') B k = true /\
  exists inc, step_entry (mode c) (foreign_count (gc c) B k) (foreign_count (gc c') B k) inc /\
    acquired c' B k = acquired c B k + inc.

(** A call for some keys moves counts of them that were not seen, and may push an object to
    trace. *)
Record call_effect (keys : Z -> option Z -> Prop) c c' (pushed : list (Z * Z)) : Prop := {
  eff_same : same c c';
  eff_stack : stack c' = pushed ++ stack c;
  eff_ok : gc_ok (current c') (gc c');
  eff_own k : own_unchanged c c' k \/ keys (current c) k /\ own_moved c c' k;
  eff_foreign B k : foreign_unchanged c c' B k \/ keys B k /\ foreign_moved c c' B k
}.

(** Counts that are small enough for additions not to wrap around. *)
Definition bounded (c : ctx) : Prop :=
  forall B k, own_count (gc c) k < 2 ^ 63 /\ foreign_count (gc c) B k < 2 ^ 63 /\ 0 <= acquired c B k < 2 ^ 63.

Lemma effect_none keys c : gc_ok (current c) (gc c) -> call_effect keys c c [].
Proof. intros Hg. split; [done..| |]; intros; by left. Qed.

(** The heap and the stack of a context do not matter for the counts. *)
Lemma effect_recurse keys c c' p t :
  call_effect keys c c' [] -> exists pushed, call_effect keys c (recurse c' p t) pushed /\ pushed ⊆ [(p, t)].
Proof.
  intros [[E1 E2 E3 E4 E5] E6 E7 E8 E9]. unfold recurse. destruct (has_trace t).
  - exists [(p, t)]. split; [|done]. split; [done| |done..]. cbn. by rewrite E6.
  - exists []. by split; [|set_solver].
Qed.

(** *** References to other actors

    A handler of a remote actor that was not seen changes its reference in the table. *)
Record actor_step (c c' : ctx) (a : Z) (r r' : actorref_t) (inc : Z) : Prop := {
  as_same : same c c';
  as_stack : stack c' = stack c;
  as_local : gc_local (gc c') = gc_local (gc c);
  as_rc : gc_rc (gc c') = gc_rc (gc c);
  as_rc_mark : gc_rc_mark (gc c') = gc_rc_mark (gc c);
  as_foreign : gc_foreign (gc c') = <[a := r']> (gc_foreign (gc c));
  as_mark : ref_mark r' = gc_mark (gc c);
  as_map : ref_map r' = ref_map r;
  as_entry : step_entry (mode c) (ref_rc r) (ref_rc r') inc;
  as_acquired B k : acquired c' B k = acquired c B k + (if decide (B = a /\ k = None) then inc else 0)
}.

Lemma update_delta_fields g a n :
  gc_mark (update_delta actor_noblock g a n) = gc_mark g /\
  gc_rc_mark (update_delta actor_noblock g a n) = gc_rc_mark g /\
  gc_rc (update_delta actor_noblock g a n) = gc_rc g /\
  gc_local (update_delta actor_noblock g a n) = gc_local g /\
  gc_foreign (update_delta actor_noblock g a n) = gc_foreign g.
Proof. unfold update_delta. by destruct actor_noblock. Qed.

Lemma acquire_actor_fields c a :
  current (acquire_actor c a) = current c /\ mode (acquire_actor c a) = mode c /\
  stack (acquire_actor c a) = stack c /\ gc (acquire_actor c a) = gc c /\ heap (acquire_actor c a) = heap c /\
  sent (acquire_actor c a) = sent c.
Proof. unfold acquire_actor. by destruct (getorput_actor (acquire c) a 0) as (r & -> & _). Qed.

Lemma acquire_object_fields c a p im :
  current (acquire_object mem c a p im) = current c /\ mode (acquire_object mem c a p im) = mode c /\
  stack (acquire_object mem c a p im) = stack c /\ gc (acquire_object mem c a p im) = gc c /\
  heap (acquire_object mem c a p im) = heap c /\ sent (acquire_object mem c a p im) = sent c.
Proof.
  unfold acquire_object. destruct (getorput_actor (acquire c) a 0) as (r & -> & _).
  by destruct (getorput_object r p (type_at mem p) 0) as (o & -> & _).
Qed.

Definition remote_actor (md : trace_mode) : ctx -> Z -> actorref_t -> ctx * actorref_t :=
  match md with
  | SEND => send_remote_actor actor_noblock
  | RECV => recv_remote_actor actor_noblock
  | _ => mark_remote_actor actor_noblock
  end.

(** The modes in which foreign references are counted. *)
Definition counting (md : trace_mode) : Prop := md = SEND \/ md = RECV \/ md = MARK.

(** The end of the handlers. *)
Lemma actor_step_put c c1 a r n inc (delta : bool) :
  same c c1 -> stack c1 = stack c -> gc c1 = gc c -> step_entry (mode c) (ref_rc r) n inc ->
  (forall B k, acquired c1 B k = acquired c B k + (if decide (B = a /\ k = None) then inc else 0)) ->
  let r' := mk_ref n (gc_mark (gc c)) (ref_map r) in
  let c2 := put_ref c1 a r' in
  actor_step c (if delta then set_gc c2 (update_delta actor_noblock (gc c2) a n) else c2) a r r' inc.
Proof.
  intros Hs Hst Hg He Ha r' c2. destruct Hs.
  destruct (update_delta_fields (gc c2) a n) as (U1 & U2 & U3 & U4 & U5).
  assert (gc c2 = set_foreign (gc c) (<[a := r']> (gc_foreign (gc c)))) as Hg2 by (unfold c2; cbn; by rewrite Hg).
  assert (same c c2) as Hs2 by (split; cbn; rewrite ?Hg; done).
  assert (stack c2 = stack c) as Hst2 by done.
  assert (acquired c2 = acquired c1) as Ha2 by reflexivity. clearbody c2. destruct Hs2.
  destruct delta.
  - split; [by split; cbn; rewrite ?U1| |cbn; rewrite ?U2, ?U3, ?U4, ?U5, ?Hg2; try done ..]; [done|].
    intros. by rewrite <- Ha, <- Ha2.
  - split; rewrite ?Hg2; try done. intros. by rewrite <- Ha, <- Ha2.
Qed.

Lemma same_refl c : same c c.
Proof. by split. Qed.

Lemma same_use c n : same c (use_heap c n).
Proof. split; try done. intros q. apply heap_used_law. Qed.

Lemma same_acquire_actor c a : same c (acquire_actor c a) /\ stack (acquire_actor c a) = stack c.
Proof.
  destruct (acquire_actor_fields c a) as (E1 & E2 & E3 & E4 & E5 & E6).
  split; [|done]. split; by rewrite ?E1, ?E2, ?E4, ?E5, ?E6.
Qed.

Lemma same_acquire_object c a p im :
  same c (acquire_object mem c a p im) /\ stack (acquire_object mem c a p im) = stack c.
Proof.
  destruct (acquire_object_fields c a p im) as (E1 & E2 & E3 & E4 & E5 & E6).
  split; [|done]. split; by rewrite ?E1, ?E2, ?E4, ?E5, ?E6.
Qed.

Lemma same_trans c1 c2 c3 : same c1 c2 -> same c2 c3 -> same c1 c3.
Proof. intros [E1 E2 E3 E4 E5] [F1 F2 F3 F4 F5]. split; [congruence..|auto]. Qed.

Lemma not_acquired x (P : Prop) `{Decision P} : x = x + (if decide P then 0 else 0).
Proof. case_decide; lia. Qed.

Lemma remote_actor_step c a r :
  counting (mode c) -> ref_mark r <> gc_mark (gc c) -> 0 <= ref_rc r < 2 ^ 63 ->
  0 <= acquired c a None < 2 ^ 63 ->
  exists c' r' inc, remote_actor (mode c) c a r = (c', r') /\ actor_step c c' a r r' inc.
Proof.
  intros Hmd Hm Hr Ha.
  assert (forall x, 0 <= x < 2 ^ 64 -> u64 x = x) as Hu by (intros; by apply u64_id).
  unfold remote_actor, send_remote_actor, recv_remote_actor, mark_remote_actor.
  apply Z.eqb_neq in Hm. destruct (same_acquire_actor c a) as [Hs Hst].
  destruct Hmd as [E|[E|E]]; rewrite E, Hm; cbn [set_ref_mark ref_rc].
  - destruct (Z.leb_spec (ref_rc r) 1) as [Hle|Hle]; eexists _, _, _; (split; [reflexivity|]).
    + apply (actor_step_put c (acquire_actor c a) a r _ GC_INC_MORE true Hs Hst);
        [by destruct (acquire_actor_fields c a) as (_ & _ & _ & -> & _)| |].
      * unfold step_entry, add64. rewrite E, Hu; cbn; unfold GC_INC_MORE; lia.
      * intros B k. by apply acquired_actor.
    + apply (actor_step_put c c a r _ 0 true (same_refl c)); [done..| |intros; apply not_acquired].
      unfold step_entry, sub64. rewrite E, Hu; cbn; lia.
  - assert (step_entry (mode c) (ref_rc r) (ref_rc r ⊞ 1) 0) as He.
    { unfold step_entry, add64. rewrite E, Hu; cbn; lia. }
    destruct (ref_rc r =? 0); eexists _, _, _; (split; [reflexivity|]).
    + apply (actor_step_put c _ a r _ 0 true (same_use c GC_ACTOR_HEAP_EQUIV)); [done..|intros; apply not_acquired].
    + apply (actor_step_put c _ a r _ 0 true (same_refl c)); [done..|intros; apply not_acquired].
  - pose proof (same_acquire_actor (use_heap c GC_ACTOR_HEAP_EQUIV) a) as [Hs' Hst'].
    destruct (Z.eqb_spec (ref_rc r) 0) as [Hz|Hz]; eexists _, _, _; (split; [reflexivity|]).
    + apply (actor_step_put c (acquire_actor (use_heap c GC_ACTOR_HEAP_EQUIV) a) a r _ GC_INC_MORE true).
      * eapply same_trans; [apply same_use|done].
      * by rewrite Hst'.
      * by destruct (acquire_actor_fields (use_heap c GC_ACTOR_HEAP_EQUIV) a) as (_ & _ & _ & -> & _).
      * unfold step_entry, add64. rewrite E, Hz, Hu; cbn; unfold GC_INC_MORE; lia.
      * intros B k. by rewrite acquired_actor.
    + apply (actor_step_put c (use_heap c GC_ACTOR_HEAP_EQUIV) a r _ 0 false (same_use c _)); [done..| |].
      * unfold step_entry. rewrite E. cbn. lia.
      * intros B k. apply not_acquired.
Qed.

(** ** Calls one after the other *)

Lemma effect_trans keys c1 c2 c3 l1 l2 :
  call_effect keys c1 c2 l1 -> call_effect keys c2 c3 l2 -> call_effect keys c1 c3 (l2 ++ l1).
Proof.
  intros [S1 T1 O1 W1 F1] [S2 T2 O2 W2 F2]. pose proof (same_current _ _ S1) as Ec.
  pose proof (same_mode _ _ S1) as Em. split.
  - by eapply same_trans.
  - by rewrite T2, T1, app_assoc.
  - done.
  - intros k. destruct (W1 k) as [[A1 B1]|(K1 & A1 & B1 & C1)], (W2 k) as [[A2 B2]|(K2 & A2 & B2 & C2)].
    + left. split; congruence.
    + right. rewrite Ec in K2. split; [done|]. split; [congruence|]. split; [done|]. by rewrite C2, A1, Em.
    + right. split; [done|]. split; [done|]. split; congruence.
    + congruence.
  - intros B k. destruct (F1 B k) as [(A1 & B1 & C1)|(K1 & A1 & B1 & i1 & D1 & C1)],
      (F2 B k) as [(A2 & B2 & C2)|(K2 & A2 & B2 & i2 & D2 & C2)].
    + left. split; [|split]; congruence.
    + right. split; [done|]. split; [congruence|]. split; [done|]. exists i2. by rewrite <- A1, <- Em, <- C1.
    + right. split; [done|]. split; [done|]. split; [congruence|]. exists i1. by rewrite A2, C2.
    + congruence.
Qed.

Lemma effect_mono (keys keys' : Z -> option Z -> Prop) c c' l :
  (forall B k, keys B k -> keys' B k) -> call_effect keys c c' l -> call_effect keys' c c' l.
Proof.
  intros Hk [S T O W F]. split; try done.
  - intros k. destruct (W k) as [?|[]]; [by left|right; auto].
  - intros B k. destruct (F B k) as [?|[]]; [by left|right; auto].
Qed.

(** ** References in the table of foreign actors *)

Lemma ref_ok_alloc mark t : 1 <= mark < 2 ^ 32 - 1 ->
  ref_ok mark (actorref_alloc mark) /\ object_ok mark (object_alloc t mark).
Proof.
  intros Hm. unfold ref_ok, object_ok, mark_ok, actorref_alloc, object_alloc. cbn. rewrite old_mark by done.
  split; [split; [done|split; [lia|apply map_Forall_empty]]|split; [done|lia]].
Qed.

Lemma ref_ok_put mark r p o :
  ref_ok mark r -> object_ok mark o -> ref_ok mark (set_ref_map r (<[p := o]> (ref_map r))).
Proof. intros (H1 & H2 & H3) Ho. split; [done|]. split; [done|]. by apply map_Forall_insert_2. Qed.

Lemma gc_ok_foreign self g a r : a <> self -> gc_ok self g -> ref_ok (gc_mark g) r ->
  gc_ok self (set_foreign g (<[a := r]> (gc_foreign g))).
Proof.
  intros Ha [O1 O2 O3 O4 O5 O6] Hr. split; cbn; try done; [by apply map_Forall_insert_2|by rewrite lookup_insert_ne].
Qed.

(** Putting a reference with the same counts and marks. *)
Lemma effect_put_same keys c a r :
  a <> current c -> gc_ok (current c) (gc c) -> ref_ok (gc_mark (gc c)) r ->
  (forall k, ref_count r k = foreign_count (gc c) a k /\
     ref_seen (gc_mark (gc c)) r k = foreign_seen (gc c) a k) ->
  call_effect keys c (put_ref c a r) [].
Proof.
  intros Ha Hg Hr Hk. split; [by split|done|by apply gc_ok_foreign|intros; by left|].
  intros B k. left. unfold foreign_unchanged, foreign_count, foreign_seen. cbn.
  rewrite map_count_insert, map_seen_insert. destruct (Hk k) as [H1 H2].
  split; [case_decide; subst; done|]. split; [case_decide; subst; done|done].
Qed.

(** What [getorput] gives for the table of foreign actors. *)
Lemma foreign_default c a :
  gc_ok (current c) (gc c) ->
  exists r, ponyint_actormap_getorput (gc_foreign (gc c)) a (gc_mark (gc c)) = (<[a := r]> (gc_foreign (gc c)), r) /\
    ref_ok (gc_mark (gc c)) r /\ (forall k, ref_count r k = foreign_count (gc c) a k /\
     ref_seen (gc_mark (gc c)) r k = foreign_seen (gc c) a k) /\
    (positive (gc c) -> map_Forall (fun _ o => 1 <= obj_rc o) (ref_map r)).
Proof.
  intros Hg. destruct (getorput_actor (gc_foreign (gc c)) a (gc_mark (gc c))) as (r & -> & Hr). exists r.
  split; [done|]. unfold foreign_count, foreign_seen, map_count, map_seen.
  destruct Hr as [E|[E ->]]; rewrite E.
  - split; [by apply (ok_foreign _ _ Hg a)|]. split; [done|]. intros Hp. by apply (Hp a).
  - pose proof (ok_mark _ _ Hg) as Hm. split; [by apply (ref_ok_alloc _ 0)|].
    split; [|intros; apply map_Forall_empty].
    intros [p|]; cbn; [done|]. rewrite old_mark by done. split; [done|]. apply Z.eqb_neq. lia.
Qed.

(** The same for an object of a reference. *)
Lemma object_of_ref mark r p t :
  1 <= mark < 2 ^ 32 - 1 -> ref_ok mark r ->
  exists o, ponyint_actorref_getorput r p t mark = (set_ref_map r (<[p := o]> (ref_map r)), o) /\
    object_ok mark o /\ obj_rc o = ref_count r (Some p) /\ (obj_mark o =? mark) = ref_seen mark r (Some p) /\
    (obj_mark o = mark -> ref_map r !! p = Some o).
Proof.
  intros Hm Hr. destruct (getorput_object r p t mark) as (o & -> & Ho). exists o. split; [done|].
  cbn. destruct Ho as [E|[E ->]]; rewrite E.
  - split; [by apply (proj2 (proj2 Hr) p)|]. done.
  - split; [by apply ref_ok_alloc|]. split; [done|]. cbn. rewrite old_mark by done. split; [apply Z.eqb_neq; lia|lia].
Qed.

(** A handler of a remote actor. *)
Lemma actor_step_effect keys c c' a r r' inc :
  a <> current c -> keys a None -> gc_ok (current c) (gc c) -> gc_foreign (gc c) !! a = Some r ->
  ref_mark r <> gc_mark (gc c) -> actor_step c c' a r r' inc -> call_effect keys c c' [].
Proof.
  intros Ha Hk Hg Hr Hm [S T L R RM Fo Ma Mp En Ac]. destruct S as [S1 S2 S3 S4 S5].
  pose proof (ok_foreign _ _ Hg a r Hr) as (R1 & R2 & R3).
  pose proof (ok_mark _ _ Hg). destruct En as (En1 & En2 & En3). split.
  - done.
  - done.
  - destruct Hg as [O1 O2 O3 O4 O5 O6]. split; rewrite ?S1, ?S4, ?L, ?R, ?RM, ?Fo; try done.
    + apply map_Forall_insert_2; [|done]. split; [lia|]. rewrite Ma, Mp. split; [unfold mark_ok; lia|done].
    + by rewrite lookup_insert_ne.
  - intros k. left. unfold own_unchanged, own_count, own_seen. by rewrite S4, L, R, RM.
  - intros B k. unfold foreign_unchanged, foreign_moved, foreign_count, foreign_seen.
    rewrite S4, Fo, map_count_insert, map_seen_insert, Ac.
    destruct (decide (B = a)) as [->|]; [|left; rewrite decide_False by tauto; split; [done|]; split; [done|lia]].
    unfold map_count, map_seen. rewrite Hr. cbn. destruct k as [p|]; cbn.
    + left. rewrite decide_False by naive_solver. rewrite Mp. split; [done|]. split; [done|lia].
    + right. split; [done|]. rewrite decide_True by done. split; [by apply Z.eqb_neq|].
      split; [by apply Z.eqb_eq|]. exists inc. done.
Qed.

(** A handler of a remote object, after its owner. *)
Lemma object_step_effect keys c c3 a r p o n im t inc :
  a <> current c -> keys a (Some p) -> gc_ok (current c) (gc c) -> gc_foreign (gc c) !! a = Some r ->
  ref_map r !! p = Some o -> obj_mark o <> gc_mark (gc c) -> same c c3 -> stack c3 = stack c -> gc c3 = gc c ->
  step_entry (mode c) (obj_rc o) n inc ->
  (forall B k, acquired c3 B k = acquired c B k + (if decide (B = a /\ k = Some p) then inc else 0)) ->
  call_effect keys c (put_remote a p r c3 (mk_obj n (gc_mark (gc c)) im t)) [].
Proof.
  intros Ha Hk Hg Hr Ho Hm S T G (E1 & E2 & E3) Ac. destruct S as [S1 S2 S3 S4 S5].
  pose proof (ok_foreign _ _ Hg a r Hr) as Rok. pose proof (ok_mark _ _ Hg).
  unfold put_remote, put_ref. split; [|done|cbn; rewrite ?G, ?S1..| |].
  - by split; cbn; rewrite ?G.
  - apply gc_ok_foreign; [done..|]. apply ref_ok_put; [done|]. split; cbn; [lia|unfold mark_ok; lia].
  - intros k. left. unfold own_unchanged. cbn. by rewrite G.
  - intros B k. unfold foreign_unchanged, foreign_moved, foreign_count, foreign_seen. cbn. rewrite G. cbn.
    rewrite map_count_insert, map_seen_insert. change (acquired (set_gc c3 _) B k) with (acquired c3 B k). rewrite Ac.
    destruct (decide (B = a)) as [->|]; [|left; rewrite decide_False by tauto; split; [done|]; split; [done|lia]].
    rewrite ref_count_put, ref_seen_put. unfold map_count, map_seen. rewrite Hr. cbn [from_option].
    destruct (decide (k = Some p)) as [->|]; cbn.
    + right. rewrite decide_True by done. rewrite Ho. cbn. split; [done|]. split; [by apply Z.eqb_neq|].
      split; [by apply Z.eqb_refl|]. exists inc. by split.
    + left. rewrite decide_False by naive_solver. split; [done|]. split; [done|lia].
Qed.

(** ** Handlers of remote objects *)

(** The state of a handler when the reference and the object are in the table. *)
Record found_object (keys : Z -> option Z -> Prop) c c1 (a p : Z) (r : actorref_t) (o : object_t) : Prop := {
  fd_effect : call_effect keys c c1 [];
  fd_ref : gc_foreign (gc c1) !! a = Some r;
  fd_object : ref_map r !! p = Some o;
  fd_count : obj_rc o = foreign_count (gc c1) a (Some p);
  fd_acquired : acquired c1 a (Some p) = acquired c a (Some p);
  fd_positive : positive (gc c) ->
    (forall B x, B <> a -> gc_foreign (gc c1) !! B = Some x -> map_Forall (fun _ o => 1 <= obj_rc o) (ref_map x)) /\
    (forall q x, q <> p -> ref_map r !! q = Some x -> 1 <= obj_rc x)
}.

Lemma found_positive keys c c1 c2 a p r o n mk im t :
  found_object keys c c1 a p r o -> positive (gc c) -> 1 <= n -> gc_foreign (gc c2) = gc_foreign (gc c1) ->
  positive (gc (put_remote a p r c2 (mk_obj n mk im t))).
Proof.
  intros [_ _ _ _ _ P] Hp Hn E. destruct (P Hp) as [P1 P2]. intros B x. cbn. rewrite E.
  destruct (decide (B = a)) as [->|Hne]; [|rewrite lookup_insert_ne by done; by apply P1].
  rewrite lookup_insert_eq. intros [= <-] q y. cbn. destruct (decide (q = p)) as [->|Hq].
  - rewrite lookup_insert_eq. by intros [= <-].
  - rewrite lookup_insert_ne by done. by apply P2.
Qed.

Definition no_keys (B : Z) (k : option Z) : Prop := False.
Definition one_key (a : Z) (j : option Z) (B : Z) (k : option Z) : Prop := B = a /\ k = j.

Lemma remote_found c a p t :
  a <> current c -> gc_ok (current c) (gc c) ->
  exists r r0 o,
    ponyint_actormap_getorput (gc_foreign (gc c)) a (gc_mark (gc c)) = (<[a := r0]> (gc_foreign (gc c)), r0) /\
    ponyint_actorref_getorput r0 p t (gc_mark (gc c)) = (r, o) /\
    found_object no_keys c (put_ref c a r) a p r o /\
    (obj_mark o = gc_mark (gc c) -> positive (gc c) -> positive (gc (put_ref c a r))).
Proof.
  intros Ha Hg. pose proof (ok_mark _ _ Hg) as Hm. destruct (foreign_default c a Hg) as (r0 & E0 & Ok0 & C0 & P0).
  destruct (object_of_ref (gc_mark (gc c)) r0 p t Hm Ok0) as (o & Eo & Oko & Co & So & Po).
  exists (set_ref_map r0 (<[p := o]> (ref_map r0))), r0, o. split; [done|]. split; [done|].
  set (r := set_ref_map r0 _). assert (ref_ok (gc_mark (gc c)) r) as Okr by by apply ref_ok_put.
  assert (forall k, ref_count r k = foreign_count (gc c) a k /\
    ref_seen (gc_mark (gc c)) r k = foreign_seen (gc c) a k) as Cr.
  { intros k. unfold r. rewrite ref_count_put, ref_seen_put. case_decide; [subst|apply C0].
    rewrite Co, So. apply C0. }
  pose proof (effect_put_same no_keys c a r Ha Hg Okr Cr) as Hr. split; [split|].
  - done.
  - cbn. apply lookup_insert_eq.
  - unfold r. cbn. apply lookup_insert_eq.
  - unfold foreign_count, map_count. cbn. rewrite lookup_insert_eq. cbn. by rewrite lookup_insert_eq.
  - done.
  - intros Hp. split.
    + intros B x HB. cbn. rewrite lookup_insert_ne by done. apply Hp.
    + intros q x Hq. unfold r. cbn. rewrite lookup_insert_ne by done. by apply P0.
  - intros Hmk Hp. specialize (Po Hmk). unfold r, positive. cbn. rewrite (insert_id (ref_map r0)) by done.
    apply map_Forall_insert_2; [by apply P0|done].
Qed.

(** Nothing moves without keys. *)
Lemma effect_bounded c c' l : call_effect no_keys c c' l -> bounded c -> bounded c'.
Proof.
  intros [_ _ _ W F] Hb B k. destruct (Hb B k) as (H1 & H2 & H3).
  destruct (W k) as [[-> _]|[[] _]], (F B k) as [(-> & _ & ->)|[[] _]]. done.
Qed.

(** The owner of the object is counted first. *)
Lemma found_actor c c1 a p r o :
  counting (mode c) -> a <> current c -> bounded c -> found_object no_keys c c1 a p r o ->
  exists c2 r2, remote_actor (mode c) c1 a r = (c2, r2) /\ found_object (one_key a None) c c2 a p r2 o /\
    ref_mark r2 = gc_mark (gc c).
Proof.
  intros Hmd Ha Hb [E R O C A P]. pose proof (eff_same _ _ _ _ E) as Hs. pose proof (eff_ok _ _ _ _ E) as Hg1.
  pose proof (same_current _ _ Hs) as Ec. pose proof (same_mode _ _ Hs) as Em. pose proof (same_mark _ _ Hs) as Ek.
  destruct (decide (ref_mark r = gc_mark (gc c1))) as [Hm|Hm].
  { exists c1, r. split; [|split; [split; try done; by eapply effect_mono; [|done]|by rewrite Hm]].
    unfold remote_actor. destruct (mode c); unfold send_remote_actor, recv_remote_actor, mark_remote_actor;
      by rewrite Hm, Z.eqb_refl. }
  destruct (effect_bounded _ _ _ E Hb a None) as (_ & Hr & Hacq).
  unfold foreign_count, map_count in Hr. rewrite R in Hr. cbn in Hr. pose proof (ok_foreign _ _ Hg1 a r R) as [Hr0 _].
  rewrite <- Em in *. rewrite <- Ec in Ha.
  destruct (remote_actor_step c1 a r Hmd Hm (conj Hr0 Hr) Hacq) as (c2 & r2 & inc & Hrun & St).
  exists c2, r2. split; [done|].
  pose proof (actor_step_effect (one_key a None) c1 c2 a r r2 inc Ha (conj eq_refl eq_refl) Hg1 R Hm St) as E2.
  destruct St as [S2 T2 L2 RC2 RM2 F2 M2 Mp2 En2 A2]. split; [split|by rewrite M2].
  - eapply (effect_trans _ c c1 c2 [] []); [by eapply effect_mono; [|done]|done].
  - rewrite F2. apply lookup_insert_eq.
  - by rewrite Mp2.
  - rewrite C. unfold foreign_count, map_count. rewrite F2, R, lookup_insert_eq. cbn. by rewrite Mp2.
  - rewrite A2, A, decide_False by naive_solver. lia.
  - intros Hp. destruct (P Hp) as [P1 P2]. rewrite F2, Mp2. split; [|done].
    intros B x HB. rewrite lookup_insert_ne by done. by apply P1.
Qed.

(** An object and its owner. *)
Definition object_keys (a p : Z) (B : Z) (k : option Z) : Prop := B = a /\ (k = None \/ k = Some p).

Definition seen (c : ctx) (a : Z) (k : option Z) : bool :=
  if decide (a = current c) then own_seen (gc c) k else foreign_seen (gc c) a k.

(** A handler has an effect on the keys of its object; it pushes the object at most, and only
    when it was not seen before. *)
Definition handled (a p t : Z) c c' : Prop :=
  exists pushed, call_effect (object_keys a p) c c' pushed /\ (positive (gc c) -> positive (gc c')) /\
    (pushed = [] \/ pushed = [(p, t)] /\ seen c a (Some p) = false) /\ seen c' a (Some p) = true /\
    (seen c a (Some p) = true \/ seen c' a None = true).

Lemma handled_recurse a p t c c' (b : bool) :
  call_effect (object_keys a p) c c' [] -> (positive (gc c) -> positive (gc c')) ->
  seen c a (Some p) = false -> seen c' a (Some p) = true -> seen c' a None = true ->
  handled a p t c (if b then recurse c' p t else c').
Proof.
  intros E Hp S1 S2 S3. unfold recurse. destruct b; [destruct (has_trace t)|].
  2,3: exists []; split; [done|]; split; [done|]; split; [by left|]; split; [done|by right].
  exists [(p, t)]. destruct E as [E1 E2 E3 E4 E5]. split; [|split; [done|split; [by right|split; [done|by right]]]].
  split; [destruct E1; by split|cbn; by rewrite E2|done..].
Qed.

Lemma remote_object_finish c c2 c3 a p t r o n inc im ty (b : bool) :
  a <> current c -> found_object (one_key a None) c c2 a p r o -> obj_mark o <> gc_mark (gc c) ->
  foreign_seen (gc c) a (Some p) = false -> ref_mark r = gc_mark (gc c) ->
  same c2 c3 -> stack c3 = stack c2 -> gc c3 = gc c2 -> step_entry (mode c) (obj_rc o) n inc ->
  (forall B k, acquired c3 B k = acquired c2 B k + (if decide (B = a /\ k = Some p) then inc else 0)) ->
  let c4 := put_remote a p r c3 (mk_obj n (gc_mark (gc c)) im ty) in
  handled a p t c (if b then recurse c4 p t else c4).
Proof.
  intros Ha F Hm Hseen Hrm S T G St Ac c4. pose proof (fd_effect _ _ _ _ _ _ _ F) as E.
  pose proof (eff_same _ _ _ _ E) as Hs. pose proof (same_current _ _ Hs) as Ec. pose proof (same_mark _ _ Hs) as Ek.
  assert (call_effect (one_key a (Some p)) c2 c4 []) as E2.
  { unfold c4. rewrite <- Ek. apply object_step_effect with (o := o) (inc := inc); try done.
    - by rewrite Ec.
    - apply E.
    - apply F.
    - apply F.
    - by rewrite Ek.
    - by rewrite (same_mode _ _ Hs). }
  assert (gc_foreign (gc c4) = <[a := set_ref_map r (<[p := mk_obj n (gc_mark (gc c)) im ty]> (ref_map r))]>
    (gc_foreign (gc c2))) as Hf.
  { unfold c4. cbn. by rewrite G. }
  assert (positive (gc c) -> positive (gc c4)) as Hp.
  { intros Hp. destruct St as (_ & _ & Hn). apply (found_positive _ _ _ _ _ _ _ _ n _ _ _ F Hp Hn). by rewrite G. }
  pose proof (same_trans _ _ _ Hs (eff_same _ _ _ _ E2)) as S4. clearbody c4.
  apply handled_recurse; [|done| | |].
  - eapply (effect_trans _ c c2 c4 [] []); (eapply effect_mono; [|done]); unfold one_key, object_keys; naive_solver.
  - unfold seen. by rewrite decide_False.
  - unfold seen. rewrite (same_current _ _ S4), decide_False by done.
    unfold foreign_seen, map_seen. rewrite Hf, lookup_insert_eq. cbn. rewrite lookup_insert_eq. cbn.
    rewrite (same_mark _ _ S4). apply Z.eqb_refl.
  - unfold seen. rewrite (same_current _ _ S4), decide_False by done.
    unfold foreign_seen, map_seen. rewrite Hf, lookup_insert_eq. cbn. rewrite (same_mark _ _ S4), Hrm.
    apply Z.eqb_refl.
Qed.

(** Nothing is to be done for an object that was seen. *)
Lemma handled_none a p t c c' :
  call_effect no_keys c c' [] -> (positive (gc c) -> positive (gc c')) -> seen c a (Some p) = true ->
    handled a p t c c'.
Proof.
  intros E Hp Hs. exists []. split; [by eapply effect_mono; [|done]|]. split; [done|]. split; [by left|].
  split; [|by left].
  rewrite <- Hs. unfold seen. rewrite (same_current _ _ (eff_same _ _ _ _ E)).
  case_decide; [by destruct (eff_own _ _ _ _ E (Some p)) as [[_ ?]|[[] _]]|].
  by destruct (eff_foreign _ _ _ _ E a (Some p)) as [(_ & ? & _)|[[] _]].
Qed.

(** The object was seen, or it is found. *)
Lemma remote_object_start c a p t :
  a <> current c -> gc_ok (current c) (gc c) ->
  exists r r0 o, let c1 := put_ref c a r in
    ponyint_actormap_getorput (gc_foreign (gc c)) a (gc_mark (gc c)) = (<[a := r0]> (gc_foreign (gc c)), r0) /\
    ponyint_actorref_getorput r0 p t (gc_mark (gc c)) = (r, o) /\ found_object no_keys c c1 a p r o /\
    (obj_mark o = gc_mark (gc c) /\ handled a p t c c1 \/
     obj_mark o <> gc_mark (gc c) /\ foreign_seen (gc c) a (Some p) = false).
Proof.
  intros Ha Hg. destruct (remote_found c a p t Ha Hg) as (r & r0 & o & E1 & E2 & F & P).
  exists r, r0, o. split; [done|]. split; [done|]. split; [done|].
  pose proof (fd_effect _ _ _ _ _ _ _ F) as E.
  destruct (decide (obj_mark o = gc_mark (gc c))) as [Hm|Hm]; [left|right]; (split; [done|]).
  - assert (seen c a (Some p) = true) as Hseen.
    { unfold seen. rewrite decide_False by done. destruct (eff_foreign _ _ _ _ E a (Some p)) as [(_ & <- & _)|[[] _]].
      unfold foreign_seen, map_seen. rewrite (fd_ref _ _ _ _ _ _ _ F). cbn. rewrite (fd_object _ _ _ _ _ _ _ F). cbn.
      by apply Z.eqb_eq. }
    apply handled_none; auto.
  - destruct (eff_foreign _ _ _ _ E a (Some p)) as [(_ & <- & _)|[[] _]].
    unfold foreign_seen, map_seen. rewrite (fd_ref _ _ _ _ _ _ _ F). cbn. rewrite (fd_object _ _ _ _ _ _ _ F). cbn.
    by apply Z.eqb_neq.
Qed.

(** The heap can be used in between. *)
Lemma found_heap keys c c1 a p r o h :
  (forall q, heap_owns (heap c1) q -> heap_owns h q) -> found_object keys c c1 a p r o ->
    found_object keys c (set_ctx_heap c1 h) a p r o.
Proof.
  intros Hh [[S T O W Fo] R Ob C A P]. destruct S as [S1 S2 S3 S4 S5]. split; [split; [split|..]|..]; try done. auto.
Qed.

Lemma use_object_heap c p t m :
  exists h, use_object mem c p t m = set_ctx_heap c h /\ forall q, heap_owns (heap c) q -> heap_owns h q.
Proof.
  unfold use_object, use_heap. case_match; cbn; eexists; (split; [reflexivity|]); intros q Hq.
  - by do 2 apply heap_used_law.
  - by apply heap_used_law.
Qed.

(** The numbers that the handlers compute with. *)
Lemma found_numbers c c1 c2 a p r r2 o :
  bounded c -> gc_ok (current c) (gc c) -> found_object no_keys c c1 a p r o ->
    found_object (one_key a None) c c2 a p r2 o ->
  0 <= obj_rc o < 2 ^ 63 /\ 0 <= acquired c2 a (Some p) < 2 ^ 63.
Proof.
  intros Hb Hg F F2. destruct (effect_bounded _ _ _ (fd_effect _ _ _ _ _ _ _ F) Hb a (Some p)) as (_ & H1 & _).
  rewrite <- (fd_count _ _ _ _ _ _ _ F) in H1. rewrite (fd_acquired _ _ _ _ _ _ _ F2).
  pose proof (foreign_count_nonneg _ _ a (Some p) (eff_ok _ _ _ _ (fd_effect _ _ _ _ _ _ _ F))) as H2.
  rewrite <- (fd_count _ _ _ _ _ _ _ F) in H2. split; [done|apply Hb].
Qed.

Ltac start_remote c a p t Hmd Ha Hb Hg :=
  let r := fresh "r" in let r0 := fresh "r0" in let o := fresh "o" in
  let F := fresh "F" in
  destruct (remote_object_start c a p t Ha Hg) as (r & r0 & o & E1 & E2 & F & Hs);
  rewrite E1; cbn -[GC_INC_MORE]; rewrite E2; cbn -[GC_INC_MORE]; rewrite insert_insert_eq;
  change (set_gc c (set_foreign (gc c) (<[a:=r]> (gc_foreign (gc c))))) with (put_ref c a r);
  destruct Hs as [[Hm Hh]|[Hm Hseen]]; [by rewrite (proj2 (Z.eqb_eq _ _) Hm)|rewrite (proj2 (Z.eqb_neq _ _) Hm)].

Lemma recurse_if (m : mutability) (b : bool) c p t :
  (if decide (m = PONY_TRACE_OPAQUE) then c else if b then recurse c p t else c) =
  (if negb (bool_decide (m = PONY_TRACE_OPAQUE)) && b then recurse c p t else c).
Proof. by destruct m, b. Qed.

Lemma acquire_object_same c a p im :
  let c' := acquire_object mem c a p im in same c c' /\ stack c' = stack c /\ gc c' = gc c.
Proof.
  intros c'. destruct (same_acquire_object c a p im) as [? ?], (acquire_object_fields c a p im) as (_ & _ & _ & ? & _).
  done.
Qed.

Lemma add64_small x y : 0 <= x < 2 ^ 63 -> 0 <= y < 2 ^ 62 -> x ⊞ y = x + y.
Proof. intros. unfold add64. apply u64_id. unfold is_u64. lia. Qed.

Lemma sub64_small x y : 0 <= y <= x -> x < 2 ^ 63 -> x ⊟ y = x - y.
Proof. intros. unfold sub64. apply u64_id. unfold is_u64. lia. Qed.

Lemma send_remote_object_handled c a p t m :
  mode c = SEND -> a <> current c -> bounded c -> gc_ok (current c) (gc c) ->
  handled a p t c (send_remote_object actor_noblock mem c a p t m).
Proof.
  intros Hmd Ha Hb Hg. unfold send_remote_object. start_remote c a p t Hmd Ha Hb Hg.
  destruct (found_actor c _ a p r o ltac:(by left) Ha Hb F) as (c2 & r2 & Hrun & F2 & Hrm).
  rewrite Hmd in Hrun. cbn [remote_actor] in Hrun. rewrite Hrun.
  destruct (found_numbers c _ c2 a p r r2 o Hb Hg F F2) as [Hn Hq]. cbn [set_obj_mark obj_immutable obj_rc].
  assert (forall im, step_entry (mode c) (obj_rc o) (obj_rc o ⊞ (GC_INC_MORE - 1)) GC_INC_MORE /\
    forall B k, acquired (acquire_object mem c2 a p im) B k =
      acquired c2 B k + (if decide (B = a /\ k = Some p) then GC_INC_MORE else 0)) as Hinc.
  { intros im. split; [|intros; by apply acquired_object].
    unfold step_entry. rewrite Hmd, add64_small by (unfold GC_INC_MORE; lia). cbn. unfold GC_INC_MORE. lia. }
  destruct (bool_decide (m = PONY_TRACE_IMMUTABLE) && negb (obj_immutable o) && (0 <? obj_rc o)).
  - destruct (acquire_object_same c2 a p true) as (A1 & A2 & A3), (Hinc true) as [Hs Hi].
    apply (remote_object_finish c c2 _ a p t r2 o _ GC_INC_MORE _ _ true); done.
  - destruct (Z.leb_spec (obj_rc o) 1) as [Hle|Hle].
    + set (o' := if decide (m = PONY_TRACE_IMMUTABLE) then _ else _).
      assert (o' = mk_obj (obj_rc o) (gc_mark (gc c)) (obj_immutable o') (obj_type o)) as Eo by (unfold o';
        by case_decide).
      clearbody o'. rewrite recurse_if. destruct o' as [n' mk' im ty]. injection Eo as -> -> ->.
      destruct (acquire_object_same c2 a p im) as (A1 & A2 & A3), (Hinc im) as [Hs Hi].
      by apply (remote_object_finish c c2 _ a p t r2 o _ GC_INC_MORE).
    + rewrite recurse_if.
      apply (remote_object_finish c c2 c2 a p t r2 o _ 0); try done; [|intros; apply not_acquired].
      unfold step_entry. rewrite Hmd, sub64_small by lia. cbn. lia.
Qed.

(** The end of the other handlers is the same. *)
Lemma finish_object_cases c p t m obj put :
  exists im (b : bool), let obj' := mk_obj (obj_rc obj) (obj_mark obj) im (obj_type obj) in
    finish_object c p t m obj put = if b then recurse (put c obj') p t else put c obj'.
Proof.
  unfold finish_object. destruct obj as [n mk im ty]. case_decide; [by exists im, false|].
  case_decide; cbn; eexists _, _; reflexivity.
Qed.

Lemma recv_remote_object_handled c a p t m :
  mode c = RECV -> a <> current c -> bounded c -> gc_ok (current c) (gc c) ->
  handled a p t c (recv_remote_object actor_noblock mem c a p t m).
Proof.
  intros Hmd Ha Hb Hg. unfold recv_remote_object. start_remote c a p t Hmd Ha Hb Hg.
  destruct (found_actor c _ a p r o ltac:(right; by left) Ha Hb F) as (c2 & r2 & Hrun & F2 & Hrm).
  rewrite Hmd in Hrun. cbn [remote_actor] in Hrun. rewrite Hrun.
  destruct (found_numbers c _ c2 a p r r2 o Hb Hg F F2) as [Hn Hq].
  assert (exists h, (if obj_rc o =? 0 then use_object mem c2 p t m else c2) = set_ctx_heap c2 h /\
    forall q, heap_owns (heap c2) q -> heap_owns h q) as (h & -> & Hh).
  { case_match; [apply use_object_heap|]. exists (heap c2). by destruct c2. }
  match goal with |- context [finish_object ?x p t m ?y ?f] =>
    destruct (finish_object_cases x p t m y f) as (im & b & E) end.
  cbn -[put_remote] in E. rewrite E.
  apply (remote_object_finish c c2 (set_ctx_heap c2 h) a p t r2 o _ 0); try done; [|intros; apply not_acquired].
  unfold step_entry. rewrite Hmd, add64_small by lia. cbn. lia.
Qed.

Lemma mark_remote_object_handled c a p t m :
  mode c = MARK -> a <> current c -> bounded c -> gc_ok (current c) (gc c) ->
  handled a p t c (mark_remote_object actor_noblock mem c a p t m).
Proof.
  intros Hmd Ha Hb Hg. unfold mark_remote_object. start_remote c a p t Hmd Ha Hb Hg.
  destruct (use_object_heap (put_ref c a r) p t m) as (h & -> & Hh). apply (found_heap _ _ _ _ _ _ _ h Hh) in F.
  destruct (found_actor c _ a p r o ltac:(right; by right) Ha Hb F) as (c2 & r2 & Hrun & F2 & Hrm).
  rewrite Hmd in Hrun. cbn [remote_actor] in Hrun. rewrite Hrun.
  destruct (found_numbers c _ c2 a p r r2 o Hb Hg F F2) as [Hn Hq]. cbn [set_obj_mark obj_immutable obj_rc].
  destruct (bool_decide (m = PONY_TRACE_IMMUTABLE) && negb (obj_immutable o) && (0 <? obj_rc o)) eqn:Ei.
  - destruct (acquire_object_same c2 a p true) as (A1 & A2 & A3).
    apply (remote_object_finish c c2 _ a p t r2 o _ GC_INC_MORE _ _ true); try done;
      [|intros; by apply acquired_object].
    unfold step_entry. rewrite Hmd, add64_small by (unfold GC_INC_MORE; lia). cbn. unfold GC_INC_MORE. lia.
  - destruct (Z.eqb_spec (obj_rc o) 0) as [Hz|Hz].
    + set (o' := if decide (m = PONY_TRACE_IMMUTABLE) then _ else _).
      assert (o' = mk_obj (obj_rc o) (gc_mark (gc c)) (obj_immutable o') (obj_type o)) as Eo by (unfold o';
        by case_decide).
      clearbody o'. rewrite recurse_if. destruct o' as [n' mk' im ty]. injection Eo as -> -> ->.
      destruct (acquire_object_same c2 a p im) as (A1 & A2 & A3).
      apply (remote_object_finish c c2 _ a p t r2 o _ GC_INC_MORE); try done; [|intros; by apply acquired_object].
      unfold step_entry. rewrite Hmd, Hz. cbn [obj_rc]. rewrite add64_small by (unfold GC_INC_MORE; lia).
      cbn [moved acquiring]. unfold GC_INC_MORE. lia.
    + rewrite recurse_if. change (set_obj_mark o ?k) with (mk_obj (obj_rc o) k (obj_immutable o) (obj_type o)).
      apply (remote_object_finish c c2 c2 a p t r2 o _ 0); try done; [|intros; apply not_acquired].
      unfold step_entry. rewrite Hmd. cbn. lia.
Qed.

(** ** Handlers of local objects *)

Lemma gc_local_ok self g p o :
  gc_ok self g -> object_ok (gc_mark g) o -> gc_ok self (set_gc_local g (<[p := o]> (gc_local g))).
Proof. intros [O1 O2 O3 O4 O5 O6] Ho. split; cbn; try done. by apply map_Forall_insert_2. Qed.

(** An object with the same count and mark. *)
Lemma effect_put_local_same c p o :
  gc_ok (current c) (gc c) -> object_ok (gc_mark (gc c)) o -> obj_rc o = own_count (gc c) (Some p) ->
  (obj_mark o =? gc_mark (gc c)) = own_seen (gc c) (Some p) -> call_effect no_keys c (put_local p c o) [].
Proof.
  intros Hg Ho Hc Hs. split; [by split|done|by apply gc_local_ok| |intros; by left].
  intros k. left. split; destruct k as [q|]; cbn; try done.
  - destruct (decide (q = p)) as [->|]; [by rewrite lookup_insert_eq|by rewrite lookup_insert_ne].
  - destruct (decide (q = p)) as [->|]; [by rewrite lookup_insert_eq|by rewrite lookup_insert_ne].
Qed.

Lemma local_found c p t :
  gc_ok (current c) (gc c) ->
  exists o, ponyint_objectmap_getorput (gc_local (gc c)) p t (gc_mark (gc c)) = (<[p := o]> (gc_local (gc c)), o) /\
    obj_rc o = own_count (gc c) (Some p) /\ (obj_mark o =? gc_mark (gc c)) = own_seen (gc c) (Some p) /\
    call_effect no_keys c (put_local p c o) [].
Proof.
  intros Hg. pose proof (ok_mark _ _ Hg) as Hm.
  destruct (getorput_local (gc_local (gc c)) p t (gc_mark (gc c))) as (o & -> & Ho).
  exists o. split; [done|]. assert (object_ok (gc_mark (gc c)) o /\ obj_rc o = own_count (gc c) (Some p) /\
    (obj_mark o =? gc_mark (gc c)) = own_seen (gc c) (Some p)) as (H1 & H2 & H3).
  { cbn. destruct Ho as [E|[E ->]]; rewrite E; [split; [by apply (ok_local _ _ Hg p)|done]|].
    split; [by apply ref_ok_alloc|]. split; [done|]. cbn. rewrite old_mark by done. apply Z.eqb_neq. lia. }
  split; [done|]. split; [done|]. by apply effect_put_local_same.
Qed.

(** The count of the current actor is moved, unless it was seen. *)
Lemma local_actor_effect c g :
  gc_ok (current c) (gc c) ->
  (own_seen (gc c) None = true /\ g = gc c \/
   own_seen (gc c) None = false /\ g = set_rc (set_rc_mark (gc c) (gc_mark (gc c))) (gc_rc (gc c) + moved (mode c)) /\
   0 <= gc_rc (gc c) + moved (mode c)) ->
  call_effect (one_key (current c) None) c (set_gc c g) [].
Proof.
  intros Hg [[Hs ->]|(Hs & -> & Hp)].
  { split; [by split|done|done| |]; intros; by left. }
  destruct Hg as [O1 O2 O3 O4 O5 O6].
  split; [by split|done|split; cbn; try done; unfold mark_ok; lia| |intros; by left].
  intros [q|]; [by left|right]. split; [done|]. split; [done|]. split; [apply Z.eqb_refl|done].
Qed.

Lemma send_local_seen g : (gc_rc_mark (send_local_actor g) =? gc_mark (send_local_actor g)) = true.
Proof.
  unfold send_local_actor. destruct (gc_rc_mark g =? gc_mark g) eqn:E; cbn; [done|apply Z.eqb_refl].
Qed.

Lemma send_local_actor_effect c :
  mode c = SEND -> gc_ok (current c) (gc c) -> bounded c ->
  call_effect (one_key (current c) None) c (set_gc c (send_local_actor (gc c))) [].
Proof.
  intros Hmd Hg Hb. apply local_actor_effect; [done|]. rewrite Hmd. unfold send_local_actor, own_seen.
  destruct (Z.eqb_spec (gc_rc_mark (gc c)) (gc_mark (gc c))); [by left|right]. cbn.
  destruct (Hb 0 None) as (H1 & _). cbn in H1. pose proof (ok_rc _ _ Hg). rewrite add64_small by lia.
  split; [done|]. split; [done|lia].
Qed.

Lemma recv_local_actor_effect c :
  mode c = RECV -> gc_ok (current c) (gc c) -> bounded c ->
  (own_seen (gc c) None = false -> 1 <= own_count (gc c) None) ->
  exists g, recv_local_actor (gc c) = Ret g /\ gc_foreign g = gc_foreign (gc c) /\ own_seen g None = true /\
    call_effect (one_key (current c) None) c (set_gc c g) [].
Proof.
  intros Hmd Hg Hb Hc. unfold recv_local_actor. cbn in Hc. destruct (Hb 0 None) as (H1 & _). cbn in H1.
  destruct (gc_rc_mark (gc c) =? gc_mark (gc c)) eqn:E; cbn.
  - exists (gc c). do 3 (split; [done|]). apply local_actor_effect; [done|]. by left.
  - specialize (Hc eq_refl). rewrite (proj2 (Z.ltb_lt _ _)) by lia. eexists. do 2 (split; [done|]).
    split; [apply Z.eqb_refl|].
    apply local_actor_effect; [done|right]. split; [done|]. rewrite Hmd, sub64_small by lia. cbn. split; [done|lia].
Qed.

(** The count of an object is moved. *)
Lemma local_object_finish c c2 p t n im ty (b : bool) :
  call_effect (one_key (current c) None) c c2 [] -> gc_foreign (gc c2) = gc_foreign (gc c) ->
  own_seen (gc c2) None = true -> own_seen (gc c) (Some p) = false ->
    n = own_count (gc c) (Some p) + moved (mode c) -> 0 <= n ->
  let c3 := put_local p c2 (mk_obj n (gc_mark (gc c)) im ty) in
  handled (current c) p t c (if b then recurse c3 p t else c3).
Proof.
  intros E Hp Hs0 Hs Hn Hn0 c3. pose proof (eff_same _ _ _ _ E) as S. pose proof (eff_ok _ _ _ _ E) as Hg2.
  assert (own_unchanged c c2 (Some p)) as [Hc2 Hs2] by (destruct (eff_own _ _ _ _ E (Some p)) as [?|[[_ [=]] _]];
    done).
  pose proof (ok_mark _ _ Hg2) as Hm2.
  assert (call_effect (one_key (current c) (Some p)) c2 c3 []) as E3.
  { split; [by split|done| | |intros; by left].
    - apply gc_local_ok; [done|]. rewrite (same_mark _ _ S) in *. split; cbn; [done|unfold mark_ok; lia].
    - intros k. destruct (decide (k = Some p)) as [->|Hk].
      + right. rewrite (same_current _ _ S). split; [done|]. unfold own_moved. cbn.
        rewrite lookup_insert_eq. cbn. cbn in Hs2, Hc2, Hs, Hn.
        rewrite Hc2, Hs2, (same_mode _ _ S), (same_mark _ _ S), Z.eqb_refl.
        done.
      + left. split; destruct k as [q|]; try done; cbn; rewrite lookup_insert_ne; [done|congruence|done|congruence]. }
  assert (own_seen (gc c3) (Some p) = true) as Hs3.
  { cbn. rewrite lookup_insert_eq. cbn. rewrite (same_mark _ _ S). apply Z.eqb_refl. }
  assert (positive (gc c) -> positive (gc c3)) as Hp3 by (unfold positive; cbn; by rewrite Hp).
  assert (own_seen (gc c3) None = true) as Hs4 by done.
  pose proof (same_trans _ _ _ S (eff_same _ _ _ _ E3)) as S3. clearbody c3. apply handled_recurse; [|done| | |].
  - eapply (effect_trans _ c c2 c3 [] []); (eapply effect_mono; [|done]); unfold one_key, object_keys; naive_solver.
  - unfold seen. by rewrite decide_True.
  - unfold seen. by rewrite (same_current _ _ S3), decide_True.
  - unfold seen. by rewrite (same_current _ _ S3), decide_True.
Qed.

Lemma send_local_object_handled c p t m :
  mode c = SEND -> bounded c -> gc_ok (current c) (gc c) -> handled (current c) p t c (send_local_object c p t m).
Proof.
  intros Hmd Hb Hg. unfold send_local_object. destruct (local_found c p t Hg) as (o & -> & Hc & Hs & E).
  change (set_gc c (set_gc_local (gc c) (<[p:=o]> (gc_local (gc c))))) with (put_local p c o).
  destruct (Z.eqb_spec (obj_mark o) (gc_mark (gc c))) as [Hm|Hm].
  { apply handled_none; [done|done|]. unfold seen. by rewrite decide_True. }
  pose proof (eff_ok _ _ _ _ E) as Hg1. pose proof (effect_bounded _ _ _ E Hb) as Hb1.
  pose proof (send_local_actor_effect (put_local p c o) Hmd Hg1 Hb1) as E2.
  set (c2 := set_gc (put_local p c o) _) in *.
  match goal with |- context [finish_object ?x p t m ?y ?f] =>
    destruct (finish_object_cases x p t m y f) as (im & b & ->) end. cbn -[put_local c2].
  destruct (Hb 0 (Some p)) as (H1 & _). pose proof (own_count_nonneg _ _ (Some p) Hg) as H2.
  assert (gc_foreign (gc c2) = gc_foreign (gc c)) as Hf by (unfold c2; cbn; unfold send_local_actor; by case_match).
  apply local_object_finish; [|done|unfold c2; cbn; apply send_local_seen|by rewrite <- Hs| |].
  - eapply (effect_trans _ c _ c2 [] []); [by eapply effect_mono; [|done]|done].
  - rewrite Hmd, Hc. rewrite add64_small by lia. done.
  - rewrite Hc, add64_small by lia. lia.
Qed.

Lemma recv_local_object_handled c p t m :
  mode c = RECV -> bounded c -> gc_ok (current c) (gc c) ->
  (own_seen (gc c) None = false -> 1 <= own_count (gc c) None) ->
  (own_seen (gc c) (Some p) = false -> 1 <= own_count (gc c) (Some p)) ->
  exists c', recv_local_object c p t m = Ret c' /\ handled (current c) p t c c'.
Proof.
  intros Hmd Hb Hg Hn0 Hnp. unfold recv_local_object, ponyint_objectmap_getobject.
  destruct (gc_local (gc c) !! p) as [o|] eqn:Eo;
    [|cbn in Hnp; rewrite Eo in Hnp; cbn in Hnp; by specialize (Hnp eq_refl)].
  assert (own_seen (gc c) (Some p) = (obj_mark o =? gc_mark (gc c)) /\
    own_count (gc c) (Some p) = obj_rc o) as [Hs Hc]
    by (cbn; by rewrite Eo).
  rewrite Hs, Hc in Hnp. destruct (Z.eqb_spec (obj_mark o) (gc_mark (gc c))) as [Hm|Hm].
  { eexists. split; [done|]. apply handled_none; [by apply effect_none|done|]. unfold seen. by rewrite decide_True. }
  destruct (recv_local_actor_effect c Hmd Hg Hb Hn0) as (g & -> & Hf & Hgs & E). eexists. split; [done|].
  match goal with |- context [finish_object ?x p t m ?y ?f] =>
    destruct (finish_object_cases x p t m y f) as (im & b & ->) end. cbn -[put_local].
  destruct (Hb 0 (Some p)) as (H1 & _). rewrite Hc in H1. specialize (Hnp eq_refl).
  apply local_object_finish; [done|done|done|by rewrite Hs| |].
  - rewrite Hmd, Hc, sub64_small by lia. done.
  - rewrite sub64_small by lia. lia.
Qed.

(** ** Calls of trace functions *)

Definition call_address (call : trace_call) : Z := match call with Trace p | Traceknown p _ _ | Traceunknown p _ => p
  end.
Definition call_type (call : trace_call) : Z :=
  match call with Trace _ => NULL | Traceknown _ t _ => t | Traceunknown p _ => type_at mem p end.

(** Whether what is traced is an actor. *)
Definition is_actor_call (call : trace_call) : bool :=
  match call with Trace _ => false | _ => has_dispatch (call_type call) end.

(** The keys that a call counts. *)
Definition call_keys (call : trace_call) (B : Z) (k : option Z) : Prop :=
  if is_actor_call call then B = call_address call /\ k = None
  else owner mem (call_address call) = Some B /\ (k = None \/ k = Some (call_address call)).

(** What a call pushes is its object, which was not seen before, unless it is in the heap that
    is being marked or in none. *)
Definition push_ok (call : trace_call) c c' (pushed : list (Z * Z)) : Prop :=
  pushed = [] \/ pushed = [(call_address call, call_type call)] /\ is_actor_call call = false /\
    (mode c = MARK \/ owner mem (call_address call) = None \/
     exists a, owner mem (call_address call) = Some a /\
       seen c a (Some (call_address call)) = false /\ seen c' a (Some (call_address call)) = true).

(** What a call is for is seen after it, and its owner if it was not seen before. *)
Definition saw (call : trace_call) c c' : Prop :=
  if is_actor_call call then seen c' (call_address call) None = true
  else forall a, owner mem (call_address call) = Some a ->
    seen c' a (Some (call_address call)) = true /\
      (seen c a (Some (call_address call)) = true \/ seen c' a None = true).

Definition call_ok (call : trace_call) c c' : Prop :=
  exists pushed, call_effect (call_keys call) c c' pushed /\ (positive (gc c) -> positive (gc c')) /\
    push_ok call c c' pushed /\ (mode c <> MARK -> saw call c c').

(** What the owner must have counted, and own, for a call not to fail. *)
Record can_call (call : trace_call) c : Prop := {
  can_recv k : mode c = RECV -> call_keys call (current c) k -> own_seen (gc c) k = false -> 1 <= own_count (gc c) k;
  can_mark : mode c = MARK -> forall p, owner mem p = Some (current c) -> heap_owns (heap c) p
}.

Lemma handled_call call a c c' :
  is_actor_call call = false -> owner mem (call_address call) = Some a ->
  handled a (call_address call) (call_type call) c c' -> call_ok call c c'.
Proof.
  intros Hc Ha (pushed & E & Hp & Hpush & Hs & Hn). exists pushed. split; [|split; [done|split]].
  - eapply effect_mono; [|done]. intros B k [-> Hk]. unfold call_keys. by rewrite Hc.
  - destruct Hpush as [->|[-> S1]]; [by left|right]. split; [done|]. split; [done|]. right. right. by exists a.
  - intros _. unfold saw. rewrite Hc. intros b Hb. rewrite Ha in Hb. by injection Hb as <-.
Qed.

Lemma actor_call call c c' :
  is_actor_call call = true -> call_effect (one_key (call_address call) None) c c' [] ->
  (positive (gc c) -> positive (gc c')) -> (mode c <> MARK -> seen c' (call_address call) None = true) ->
  call_ok call c c'.
Proof.
  intros Hc E Hp Hs. exists []. split; [|split; [done|split; [by left|intros Hm; unfold saw; rewrite Hc; auto]]].
  eapply effect_mono; [|done]. intros B k [-> ->]. unfold call_keys. by rewrite Hc.
Qed.

Lemma foreign_actor_handled c a :
  counting (mode c) -> a <> current c -> bounded c -> gc_ok (current c) (gc c) ->
  let c' := foreign_actor (remote_actor (mode c)) c a in
  call_effect (one_key a None) c c' [] /\ (positive (gc c) -> positive (gc c')) /\ seen c' a None = true.
Proof.
  intros Hmd Ha Hb Hg. destruct (foreign_default c a Hg) as (r & E0 & Okr & Cr & Pr). cbn zeta. unfold foreign_actor.
  rewrite E0. pose proof (effect_put_same no_keys c a r Ha Hg Okr Cr) as E.
  change (set_gc c (set_foreign (gc c) (<[a:=r]> (gc_foreign (gc c))))) with (put_ref c a r).
  assert (positive (gc c) -> positive (gc (put_ref c a r))) as Hp1 by (intros Hp; apply map_Forall_insert_2; auto).
  destruct (decide (ref_mark r = gc_mark (gc c))) as [Hm|Hm].
  { assert (remote_actor (mode c) (put_ref c a r) a r = (put_ref c a r, r)) as ->.
    { unfold remote_actor. destruct (mode c); unfold send_remote_actor, recv_remote_actor, mark_remote_actor;
        cbn -[put_ref];
        change (gc_mark (gc (put_ref c a r))) with (gc_mark (gc c)); by rewrite Hm, Z.eqb_refl. }
    split; [by eapply effect_mono; [|done]|]. split; [done|]. unfold seen. rewrite decide_False by done.
    unfold foreign_seen, map_seen. cbn. rewrite lookup_insert_eq. cbn. by apply Z.eqb_eq. }
  destruct (effect_bounded _ _ _ E Hb a None) as (_ & Hr & Hacq).
  unfold foreign_count, map_count in Hr. cbn in Hr. rewrite lookup_insert_eq in Hr. cbn in Hr.
  destruct (remote_actor_step (put_ref c a r) a r Hmd Hm (conj (proj1 Okr) Hr) Hacq) as (c2 & r2 & inc & Hrun & St).
  change (mode (put_ref c a r)) with (mode c) in Hrun. rewrite Hrun. cbn [fst].
  assert (gc_foreign (gc (put_ref c a r)) !! a = Some r) as Hl by (cbn; apply lookup_insert_eq). split; [|split].
  - eapply (effect_trans _ c _ c2 [] []); [by eapply effect_mono; [|done]|].
    apply (actor_step_effect _ (put_ref c a r) c2 a r r2 inc); try done. apply E.
  - intros Hp. specialize (Hp1 Hp). unfold positive in *. rewrite (as_foreign _ _ _ _ _ _ St).
    apply map_Forall_insert_2; [|done]. rewrite (as_map _ _ _ _ _ _ St). by apply (Hp1 a).
  - unfold seen. rewrite (same_current _ _ (as_same _ _ _ _ _ _ St)). rewrite decide_False by done.
    unfold foreign_seen, map_seen. rewrite (as_foreign _ _ _ _ _ _ St), lookup_insert_eq. cbn.
    rewrite (as_mark _ _ _ _ _ _ St), (same_mark _ _ (as_same _ _ _ _ _ _ St)). apply Z.eqb_refl.
Qed.

Lemma trace_actor_ok call c :
  counting (mode c) -> is_actor_call call = true -> bounded c -> gc_ok (current c) (gc c) -> can_call call c ->
  exists c', trace_actor actor_noblock c (call_address call) = Ret c' /\ call_ok call c c'.
Proof.
  intros Hmd Hc Hb Hg [Hr _]. set (a := call_address call) in *. unfold trace_actor.
  destruct (decide (a = current c)) as [Ea|Ea].
  - assert ((a =? current c) = true) as Eq by by apply Z.eqb_eq.
    destruct Hmd as [E|[E|E]]; rewrite E; unfold ponyint_gc_sendactor, ponyint_gc_recvactor, ponyint_gc_markactor;
      rewrite Eq.
    + eexists. split; [done|]. apply actor_call; [done| | |].
      * fold a. rewrite Ea. by apply send_local_actor_effect.
      * unfold positive, send_local_actor. cbn. by case_match.
      * intros _. fold a. unfold seen. rewrite decide_True by done. apply send_local_seen.
    + destruct (recv_local_actor_effect c E Hg Hb) as (g & -> & Hf & Hgs & Ef).
      { intros Hs. apply Hr; [done| |done]. unfold call_keys. by rewrite Hc. }
      eexists. split; [done|]. apply actor_call; [done|fold a; by rewrite Ea| |].
      * unfold positive. cbn. by rewrite Hf.
      * intros _. fold a. unfold seen. by rewrite decide_True.
    + eexists. split; [done|]. by apply actor_call; [|apply effect_none| |].
  - assert ((a =? current c) = false) as Eq by by apply Z.eqb_neq.
    destruct (foreign_actor_handled c a Hmd Ea Hb Hg) as (Ef & Hp & Hsn).
    destruct Hmd as [E|[E|E]]; rewrite E in Ef, Hp, Hsn |- *;
      unfold ponyint_gc_sendactor, ponyint_gc_recvactor, ponyint_gc_markactor; rewrite Eq;
      (eexists; split; [done|]; by apply actor_call).
Qed.

Lemma mark_local_object_ok call c m :
  mode c = MARK -> is_actor_call call = false -> owner mem (call_address call) = Some (current c) ->
  gc_ok (current c) (gc c) -> can_call call c ->
  exists c', mark_local_object c (call_address call) (call_type call) m = Ret c' /\ call_ok call c c'.
Proof.
  intros Hmd Hc Ho Hg [_ Hm]. specialize (Hm Hmd _ Ho). unfold mark_local_object.
  assert (forall h, (forall q, heap_owns (heap c) q -> heap_owns h q) ->
    call_effect (call_keys call) c (set_ctx_heap c h) []) as Hh.
  { intros h Hh. split; [by split|done|done| |]; intros; by left. }
  case_decide.
  - destruct (heap_mark_shallow_law _ _ Hm) as (h & -> & _ & Hk'). pose proof (fun q => proj1 (Hk' q)) as Hk. eexists.
    split; [done|].
    exists []. split; [by apply Hh|]. split; [done|]. split; [by left|done].
  - destruct (heap_mark_law _ _ Hm) as (h & marked & -> & Hk). eexists. split; [done|].
    destruct marked; [exists []; split; [by apply Hh|split; [done|split; [by left|done]]]|].
    unfold recurse. destruct (has_trace (call_type call)).
    2: { exists []. split; [by apply Hh|split; [done|split; [by left|done]]]. }
    exists [(call_address call, call_type call)]. destruct (Hh h Hk) as [S T O W F].
    split; [|split; [done|split; [right; auto|done]]].
    split; [destruct S; by split|cbn|..]; done.
Qed.

Lemma trace_object_ok call c m :
  counting (mode c) -> is_actor_call call = false -> bounded c -> gc_ok (current c) (gc c) -> can_call call c ->
  exists c', trace_object actor_noblock mem c (call_address call) (call_type call) m = Ret c' /\ call_ok call c c'.
Proof.
  intros Hmd Hc Hb Hg Hcan. pose proof (handled_call call) as Hh. set (p := call_address call) in *.
  set (t := call_type call) in *.
  assert (forall l r, gc_object mem l r c p t m = match owner mem p with
      | None => Ret (if decide (m = PONY_TRACE_OPAQUE) then c else recurse c p t)
      | Some a => if a =? current c then l c p t m else Ret (r c a p t m) end) as Hgc by done.
  unfold trace_object, ponyint_gc_sendobject, ponyint_gc_recvobject, ponyint_gc_markobject.
  destruct (owner mem p) as [a|] eqn:Ho.
  2: { exists (if decide (m = PONY_TRACE_OPAQUE) then c else recurse c p t). split;
    [by destruct Hmd as [->|[->| ->]]; rewrite Hgc|].
       assert (forall c', mode c <> MARK -> saw call c c') as Hsaw.
       { intros c' _. unfold saw. rewrite Hc. intros a Ha. fold p in Ha. congruence. }
       case_decide; [exists []; split; [by apply effect_none|split; [done|split; [by left|apply Hsaw]]]|].
       unfold recurse.
       destruct (has_trace t); [|exists []; split; [by apply effect_none|split; [done|split; [by left|apply Hsaw]]]].
       exists [(p, t)]. destruct (effect_none (call_keys call) c Hg) as [S T O W F].
       split; [|split; [done|split; [right; auto|apply Hsaw]]].
       split; [destruct S; by split|done..]. }
  destruct (decide (a = current c)) as [->|Ea].
  - destruct Hmd as [E|[E|E]]; rewrite E, Hgc, Z.eqb_refl.
    + eexists. split; [done|]. apply (Hh (current c)); [done..|]. by apply send_local_object_handled.
    + destruct (recv_local_object_handled c p t m E Hb Hg) as (c' & -> & Hc').
      * intros Hs. apply (can_recv _ _ Hcan); [done| |done]. unfold call_keys. rewrite Hc. auto.
      * intros Hs. apply (can_recv _ _ Hcan); [done| |done]. unfold call_keys. rewrite Hc. auto.
      * eexists. split; [done|]. by apply (Hh (current c)).
    + by apply mark_local_object_ok.
  - assert ((a =? current c) = false) as Eq by by apply Z.eqb_neq.
    destruct Hmd as [E|[E|E]]; rewrite E, Hgc, Eq; (eexists; split; [done|]; apply (Hh a); [done..|]).
    + by apply send_remote_object_handled.
    + by apply recv_remote_object_handled.
    + by apply mark_remote_object_handled.
Qed.

(** A call does not fail and counts each of its keys at most once. *)
Lemma run_call_ok call c :
  counting (mode c) -> bounded c -> gc_ok (current c) (gc c) -> can_call call c ->
  exists c', run_trace actor_noblock mem c call = Ret c' /\ call_ok call c c'.
Proof.
  intros Hmd Hb Hg Hc. destruct call as [p|p t m|p m]; cbn; unfold pony_trace, pony_traceknown, pony_traceunknown.
  - by apply (trace_object_ok (Trace p) c).
  - destruct (has_dispatch t) eqn:E;
      [by apply (trace_actor_ok (Traceknown p t m))|by apply (trace_object_ok (Traceknown p t m))].
  - destruct (has_dispatch (type_at mem p)) eqn:E;
      [by apply (trace_actor_ok (Traceunknown p m))|by apply (trace_object_ok (Traceunknown p m))].
Qed.
End counts.
