(* ===== verification/GcTrace.v ===== *)
(** * Rounds of tracing ([gc/gc.c], [gc/trace.c])

    A round is the calls for the roots followed by the stack of objects to trace.  [traced]
    says what has happened to the counts at any moment of a round: the count of every key that
    was seen has moved, once.  A round that sends or receives ends when the memory is finite
    and what no heap has is not cyclic; marking the heap need not end. *)
From stdpp Require Import gmap.
From S2P Require Import Prelude ObjectMap Gc GcCount.
Local Open Scope Z_scope.

Section trace.
Context {H : Type} `{MH : MarkHeap H} `{ML : !MarkHeapLaws H} `{TY : Types} `{EN : Enumeration}.
Context (actor_noblock : bool) (mem : object_memory).
Abbreviation ctx := (ctx_t H).
Abbreviation run_trace := (run_trace actor_noblock mem).
Abbreviation run_traces := (run_traces actor_noblock mem).
Abbreviation handlestack := (ponyint_gc_handlestack actor_noblock mem).
Implicit Types c : ctx.

(** At the start of a round nothing is seen. *)
Definition fresh_marks c : Prop :=
  (forall k, own_seen (gc c) k = false) /\ (forall B k, foreign_seen (gc c) B k = false).

(** Counts that stay small in a round. *)
Definition room c : Prop :=
  forall B k, own_count (gc c) k < 2 ^ 62 /\ foreign_count (gc c) B k < 2 ^ 62 /\ 0 <= acquired c B k < 2 ^ 62.

Record traced (K : Z -> option Z -> Prop) c0 c : Prop := {
  tr_same : same c0 c;
  tr_ok : gc_ok (current c) (gc c);
  tr_positive : positive (gc c);
  tr_own k : own_count (gc c) k = own_count (gc c0) k + moved (mode c0) * Z.b2z (own_seen (gc c) k);
  tr_foreign B k : exists inc,
    foreign_count (gc c) B k + moved (mode c0) * Z.b2z (foreign_seen (gc c) B k) = foreign_count (gc c0) B k + inc /\
    acquired c B k = acquired c0 B k + inc /\ 0 <= inc <= acquiring (mode c0) * Z.b2z (foreign_seen (gc c) B k);
  tr_own_seen k : own_seen (gc c) k = true -> K (current c) k;
  tr_foreign_seen B k : foreign_seen (gc c) B k = true -> K B k;
  tr_kept B k : foreign_seen (gc c) B k = true -> 1 <= foreign_count (gc c) B k
}.

Lemma traced_start K c : fresh_marks c -> gc_ok (current c) (gc c) -> positive (gc c) -> traced K c c.
Proof.
  intros [F1 F2] Hg Hp. split; try done.
  - intros k. rewrite F1. cbn. lia.
  - intros B k. exists 0. rewrite F2. cbn. lia.
  - intros k. by rewrite F1.
  - intros B k. by rewrite F2.
  - intros B k. by rewrite F2.
Qed.

Lemma traced_bounded K c0 c : room c0 -> traced K c0 c -> bounded c.
Proof.
  intros Hr Ht B k. destruct (Hr B k) as (H1 & H2 & H3). pose proof (tr_own _ _ _ Ht k) as Ho.
  destruct (tr_foreign _ _ _ Ht B k) as (inc & Hf & Ha & Hi).
  assert (0 <= acquiring (mode c0) <= 256) by (by destruct (mode c0)).
  assert (0 <= Z.b2z (own_seen (gc c) k) <= 1 /\ 0 <= Z.b2z (foreign_seen (gc c) B k) <= 1) as [Hb1 Hb2]
    by (by destruct (own_seen (gc c) k), (foreign_seen (gc c) B k)).
  assert (-1 <= moved (mode c0) <= 1) as Hm by (by destruct (mode c0)). nia.
Qed.

(** A call for keys in [K]. *)
Definition call_within (K : Z -> option Z ->
  Prop) (call : trace_call) : Prop := forall B k, call_keys mem call B k -> K B k.

Lemma traced_call K c0 c call c' :
  call_within K call -> traced K c0 c -> call_ok mem call c c' -> traced K c0 c'.
Proof.
  intros Hk Ht (pushed & [S T O W F] & Hp & _). pose proof (same_trans _ _ _ (tr_same _ _ _ Ht) S) as S'.
  pose proof (same_mode _ _ (tr_same _ _ _ Ht)) as Em. split; try done.
  - by apply Hp, Ht.
  - intros k. pose proof (tr_own _ _ _ Ht k) as Ho. destruct (W k) as [[-> ->]|(_ & E1 & E2 & E3)]; [done|].
    rewrite E1 in Ho. cbn in Ho. rewrite E2, E3, Em, Ho. cbn. lia.
  - intros B k. destruct (tr_foreign _ _ _ Ht B k) as (inc & Hf & Ha & Hi).
    destruct (F B k) as [(-> & -> & ->)|(_ & E1 & E2 & i & (E3 & E4 & _) & E5)]; [by exists inc|].
    rewrite E1 in Hf, Hi. cbn in Hf, Hi. rewrite Em in E3. rewrite Em in E4. exists i. rewrite E2, E5. cbn.
    assert (0 <= acquiring (mode c0)) by (by destruct (mode c0)). lia.
  - intros k Hs. rewrite (same_current _ _ S). destruct (W k) as [[_ E]|[Hck _]]; [|by apply Hk].
    rewrite E in Hs. by apply (tr_own_seen _ _ _ Ht).
  - intros B k Hs. destruct (F B k) as [(_ & E & _)|[Hck _]]; [|by apply Hk].
    rewrite E in Hs. by apply (tr_foreign_seen _ _ _ Ht).
  - intros B k Hs. destruct (F B k) as [(-> & E & _)|(_ & _ & _ & i & (_ & _ & E) & _)]; [|done].
    rewrite E in Hs. by apply (tr_kept _ _ _ Ht).
Qed.

(** What must hold at the start of a round: the counts of what is received, and the heap. *)
Record can_trace (K : Z -> option Z -> Prop) c0 : Prop := {
  ct_mode : counting (mode c0);
  ct_room : room c0;
  ct_recv k : mode c0 = RECV -> K (current c0) k -> 1 <= own_count (gc c0) k;
  ct_mark : mode c0 = MARK -> forall p, owner mem p = Some (current c0) -> heap_owns (heap c0) p
}.

Lemma traced_can_call K c0 c call :
  can_trace K c0 -> call_within K call -> traced K c0 c -> can_call mem call c.
Proof.
  intros Hc Hk Ht. destruct (tr_same _ _ _ Ht) as [E1 E2 E3 E4 E5]. split.
  - intros k Em Hck Hs. rewrite E1 in Hck. rewrite (tr_own _ _ _ Ht), Hs. cbn.
    pose proof (ct_recv _ _ Hc k). rewrite <- E2 in *. specialize (H0 Em (Hk _ _ Hck)). lia.
  - intros Em p. rewrite E1, E2 in *. intros Ho. by apply E5, (ct_mark _ _ Hc).
Qed.

(** *** Calls *)

Lemma run_call_traced K c0 c call :
  can_trace K c0 -> call_within K call -> traced K c0 c ->
  exists c', run_trace c call = Ret c' /\ traced K c0 c' /\ call_ok mem call c c'.
Proof.
  intros Hc Hk Ht. destruct (run_call_ok actor_noblock mem call c) as (c' & Hrun & Hok).
  - rewrite (same_mode _ _ (tr_same _ _ _ Ht)). apply Hc.
  - eapply traced_bounded; [apply Hc|done].
  - apply Ht.
  - by eapply traced_can_call.
  - exists c'. split; [done|]. split; [by eapply traced_call|done].
Qed.

Lemma run_calls_traced K c0 c calls :
  can_trace K c0 -> Forall (call_within K) calls -> traced K c0 c ->
  exists c', run_traces c calls = Ret c' /\ traced K c0 c'.
Proof.
  intros Hc Hk. revert c. induction Hk as [|call calls Hcall _ IH]; intros c Ht; [by exists c|].
  destruct (run_call_traced K c0 c call Hc Hcall Ht) as (c1 & E & Ht1 & _).
  destruct (IH c1 Ht1) as (c2 & E2 & Ht2). exists c2. split; [|done].
  unfold Gc.run_traces in *. cbn. by rewrite E.
Qed.

(** *** The stack *)

Lemma traced_stack K c0 c l : traced K c0 c -> traced K c0 (set_ctx_stack c l).
Proof. intros [S O P W F K1 K2 K3]. destruct S. by split. Qed.

(** The calls that are made for what is on the stack. *)
Fixpoint calls_made (fuel : nat) (c : ctx) : list trace_call :=
  match stack c, fuel with
  | (p, t) :: rest, S fuel =>
      trace_fields mem t p ++
      match run_traces (set_ctx_stack c rest) (trace_fields mem t p) with Ret c => calls_made fuel c | _ => [] end
  | _, _ => []
  end.

Lemma handlestack_traced K c0 fuel c :
  can_trace K c0 -> Forall (call_within K) (calls_made fuel c) -> traced K c0 c ->
  match handlestack fuel c with
  | Ret c' => traced K c0 c' /\ stack c' = []
  | NoFuel => True
  | Abort | Exit => False
  end.
Proof.
  intros Hc. revert c. induction fuel as [|fuel IH]; intros c Hk Ht; cbn in *.
  { destruct (stack c) as [|[p t] rest] eqn:E; done. }
  destruct (stack c) as [|[p t] rest] eqn:E; [done|]. apply Forall_app in Hk as [Hk1 Hk2].
  destruct (run_calls_traced K c0 (set_ctx_stack c rest) _ Hc Hk1 (traced_stack _ _ _ rest Ht)) as (c1 & E1 & Ht1).
  rewrite E1 in *. cbn. by apply IH.
Qed.

(** More fuel does not change the result. *)
Lemma handlestack_fuel fuel fuel' c c' :
  handlestack fuel c = Ret c' -> (fuel <= fuel')%nat -> handlestack fuel' c = Ret c'.
Proof.
  revert fuel' c. induction fuel as [|fuel IH]; intros fuel' c Hrun Hle; cbn in Hrun.
  - destruct (stack c) as [|[p t] rest] eqn:E; [|done]. destruct fuel'; cbn; by rewrite E.
  - destruct fuel' as [|fuel']; [lia|]. cbn. destruct (stack c) as [|[p t] rest]; [done|].
    destruct (run_traces _ _); try done. apply IH; [done|lia].
Qed.

(** ** Sending and receiving see all that they trace *)

Lemma seen_mono call c c' a k : call_ok mem call c c' -> seen c a k = true -> seen c' a k = true.
Proof.
  intros (pushed & [S T O W F] & _). unfold seen. rewrite (same_current _ _ S).
  case_decide; intros Hs; [destruct (W k) as [[_ E]|(_ & E & _)]|destruct (F a k) as [(_ & E & _)|(_ & E & _)]];
    congruence.
Qed.

(** An actor whose objects are seen is seen. *)
Definition owners_seen c : Prop := forall B p, seen c B (Some p) = true -> seen c B None = true.
Definition all_seen c (call : trace_call) : Prop := forall B k, call_keys mem call B k -> seen c B k = true.

Lemma call_sees call c c' :
  mode c <> MARK -> call_ok mem call c c' -> owners_seen c -> owners_seen c' /\ all_seen c' call.
Proof.
  intros Hm Hok Ho. pose proof (fun a k => seen_mono call c c' a k Hok) as Hmono.
  destruct Hok as (pushed & [S T O W F] & _ & _ & Hsaw). specialize (Hsaw Hm).
  assert (forall B q, seen c' B (Some q) = true -> seen c B (Some q) = true \/ call_keys mem call B (Some q)) as Hnew.
  { intros B q. unfold seen. rewrite (same_current _ _ S). case_decide as E.
    - destruct (W (Some q)) as [[_ ->]|[Hk _]]; [by left|subst B; by right].
    - destruct (F B (Some q)) as [(_ & -> & _)|[Hk _]]; [by left|by right]. }
  assert (owners_seen c') as Ho'.
  { intros B q Hq. destruct (Hnew B q Hq) as [Hs|Hk]; [by eapply Hmono, Ho|].
    unfold call_keys in Hk. unfold saw in Hsaw. destruct (is_actor_call mem call); [by destruct Hk|].
    destruct Hk as [Hown _]. destruct (Hsaw B Hown) as [_ [Hs|Hs]]; [by eapply Hmono, Ho|done]. }
  split; [done|]. intros B k Hk. unfold call_keys, saw in *.
  destruct (is_actor_call mem call); [by destruct Hk as [-> ->]|].
  destruct Hk as [Hown [->| ->]]; [eapply Ho'|]; by apply Hsaw.
Qed.

Lemma calls_see K c0 c calls c' :
  can_trace K c0 -> mode c0 <> MARK -> Forall (call_within K) calls -> traced K c0 c -> owners_seen c ->
  run_traces c calls = Ret c' ->
  owners_seen c' /\ Forall (all_seen c') calls /\ forall a k, seen c a k = true -> seen c' a k = true.
Proof.
  intros Hc Hm Hk. revert c. induction Hk as [|call calls Hcall _ IH]; intros c Ht Ho Hrun.
  { injection Hrun as <-. done. }
  destruct (run_call_traced K c0 c call Hc Hcall Ht) as (c1 & E & Ht1 & Hok). unfold Gc.run_traces in Hrun.
  cbn in Hrun.
  rewrite E in Hrun. rewrite <- (same_mode _ _ (tr_same _ _ _ Ht)) in Hm.
  destruct (call_sees call c c1 Hm Hok Ho) as [Ho1 Hs1].
  destruct (IH c1 Ht1 Ho1 Hrun) as (Ho' & Hs' & Hmono).
  split; [done|]. split; [apply Forall_cons; split; [|done]|].
  - intros B k Hk. by apply Hmono, Hs1.
  - intros a k Ha. by eapply Hmono, seen_mono.
Qed.

Lemma stack_sees K c0 fuel c c' :
  can_trace K c0 -> mode c0 <> MARK -> Forall (call_within K) (calls_made fuel c) -> traced K c0 c -> owners_seen c ->
  handlestack fuel c = Ret c' -> Forall (all_seen c') (calls_made fuel c) /\ forall a k, seen c a k = true ->
    seen c' a k = true.
Proof.
  intros Hc Hm. revert c. induction fuel as [|fuel IH]; intros c Hk Ht Ho Hrun; cbn in *.
  { destruct (stack c) as [|[p t] rest] eqn:E; [|done]. by injection Hrun as <-. }
  destruct (stack c) as [|[p t] rest] eqn:E; [by injection Hrun as <-|]. apply Forall_app in Hk as [Hk1 Hk2].
  pose proof (traced_stack _ _ _ rest Ht) as Ht0.
  destruct (run_calls_traced K c0 (set_ctx_stack c rest) _ Hc Hk1 Ht0) as (c1 & E1 & Ht1).
  destruct (calls_see K c0 (set_ctx_stack c rest) _ c1 Hc Hm Hk1 Ht0 Ho E1) as (Ho1 & Hs1 & Hm1). rewrite E1 in *.
  cbn in Hrun.
  destruct (IH c1 Hk2 Ht1 Ho1 Hrun) as [Hs2 Hm2]. split; [apply Forall_app; split; [|done]|].
  - eapply Forall_impl; [exact Hs1|]. intros call Hcall B k HB. by apply Hm2, Hcall.
  - intros a k Ha. by apply Hm2, Hm1.
Qed.

(** ** Rounds of sending and receiving end

    The objects that are reached are finitely many, and what no heap has ([owner] is none),
    such as the constants of a program, has no cycles. *)
Context (objects : list Z) (width height : nat) (rank : Z -> nat).

Definition known (call : trace_call) : Prop :=
  is_actor_call mem call = true \/ owner mem (call_address call) = None \/ call_address call ∈ objects.

Record finite_memory : Prop := {
  fm_known p t : Forall known (trace_fields mem t p);
  fm_width p t : (length (trace_fields mem t p) <= width)%nat;
  fm_rank p t : owner mem p = None ->
    Forall (fun call => is_actor_call mem call = false -> owner mem (call_address call) = None ->
      (rank (call_address call) < rank p)%nat) (trace_fields mem t p);
  fm_height p : (rank p < height)%nat
}.

(** The objects that are not yet seen. *)
Definition is_unseen c (p : Z) : bool := match owner mem p with Some a => negb (seen c a (Some p)) | None => false
  end.
Definition unseen_of (l : list Z) c : nat := length (filter (fun p => is_unseen c p = true) l).
Definition unseen : ctx -> nat := unseen_of objects.

Lemma is_unseen_mono call c c' p : call_ok mem call c c' -> is_unseen c' p = true -> is_unseen c p = true.
Proof.
  intros Hc. unfold is_unseen. destruct (owner mem p) as [a|]; [|done]. rewrite !negb_true_iff. intros Hs.
  destruct (seen c a (Some p)) eqn:E; [|done]. by rewrite (seen_mono _ _ _ _ _ Hc E) in Hs.
Qed.

Lemma unseen_mono l call c c' : call_ok mem call c c' -> (unseen_of l c' <= unseen_of l c)%nat.
Proof.
  intros Hc. unfold unseen_of. induction l as [|p l IH]; [done|]. rewrite !filter_cons.
  case_decide as E1; case_decide as E2; cbn; try lia. exfalso. by eapply E2, is_unseen_mono.
Qed.

Lemma unseen_less l call c c' p :
  call_ok mem call c c' -> p ∈ l -> is_unseen c p = true -> is_unseen c' p = false ->
  (unseen_of l c' < unseen_of l c)%nat.
Proof.
  intros Hc Hp H1 H2. induction l as [|q l IH]; [by apply elem_of_nil in Hp|].
  pose proof (unseen_mono l _ _ _ Hc) as Hle. unfold unseen_of in *. rewrite !filter_cons.
  apply elem_of_cons in Hp as [->|Hp].
  - rewrite decide_False by congruence. rewrite decide_True by done. cbn. lia.
  - specialize (IH Hp). case_decide as E1; case_decide as E2; cbn; try lia. exfalso. by eapply E2, is_unseen_mono.
Qed.

(** What some calls push: objects of no heap that they are for, or something was newly seen. *)
Definition pushes (calls : list trace_call) c c' : Prop :=
  (unseen c' <= unseen c)%nat /\
  exists pushed, stack c' = pushed ++ stack c /\
    ((unseen c' < unseen c)%nat \/
     (length pushed <= length calls)%nat /\
     Forall (fun x => owner mem x.1 = None /\
       exists call, call ∈ calls /\ is_actor_call mem call = false /\ call_address call = x.1) pushed).

Lemma call_pushes call c c' :
  mode c <> MARK -> known call -> call_ok mem call c c' -> pushes [call] c c'.
Proof.
  intros Hm Hk Hc. split; [by eapply unseen_mono|]. pose proof Hc as (pushed & E & _ & Hp & _). exists pushed.
  split; [apply E|].
  destruct Hp as [->|(-> & Ha & [?|[Ho|(a & Ho & S1 & S2)]])]; [right; by split; [cbn; lia|]|done| |].
  - right. split; [done|]. apply Forall_singleton. cbn. split; [done|]. exists call. split; [by left|done].
  - left. destruct Hk as [Hk|[Hk|Hk]]; [congruence..|].
    eapply unseen_less; [done..| |]; unfold is_unseen; by rewrite Ho, ?S1, ?S2.
Qed.

Lemma run_calls_pushes K c0 c calls :
  can_trace K c0 -> mode c0 <> MARK -> Forall (call_within K) calls -> Forall known calls -> traced K c0 c ->
  exists c', run_traces c calls = Ret c' /\ traced K c0 c' /\ pushes calls c c'.
Proof.
  intros Hc Hm Hw Hk. revert c. induction calls as [|call calls IH]; intros c Ht.
  { exists c. split; [done|]. split; [done|]. split; [done|]. exists []. split; [done|]. right. done. }
  apply Forall_cons in Hw as [Hw1 Hw], Hk as [Hk1 Hk].
  destruct (run_call_traced K c0 c call Hc Hw1 Ht) as (c1 & E & Ht1 & Hok).
  destruct (IH Hw Hk c1 Ht1) as (c2 & E2 & Ht2 & Hu2 & p2 & Es2 & Hp2). exists c2.
  split; [unfold Gc.run_traces in *; cbn; by rewrite E|]. split; [done|].
  rewrite <- (same_mode _ _ (tr_same _ _ _ Ht)) in Hm.
  destruct (call_pushes call c c1 Hm Hk1 Hok) as (Hu1 & p1 & Es1 & Hp1). split; [lia|]. exists (p2 ++ p1).
  split; [by rewrite Es2, Es1, app_assoc|]. destruct Hp1 as [Hp1|[Hl1 Hp1]]; [left; lia|].
  destruct Hp2 as [Hp2|[Hl2 Hp2]]; [left; lia|right]. rewrite length_app. cbn in *. split; [lia|]. apply Forall_app.
  split.
  - eapply Forall_impl; [exact Hp2|]. intros x (Ho & k & Hin & Hx). split; [done|]. exists k. split; [by right|done].
  - eapply Forall_impl; [exact Hp1|]. intros x (Ho & k & Hin & Hx). split; [done|]. exists k.
    split; [|done]. apply list_elem_of_singleton in Hin as ->. by left.
Qed.

(** The weight of a stack decreases when nothing is newly seen. *)
Definition weight (n : nat) : nat := Nat.pow (S width) n.
Definition entry_weight (x : Z * Z) : nat :=
  match owner mem x.1 with None => weight (rank x.1) | Some _ => weight height end.
Definition potential (l : list (Z * Z)) : nat := sum_list_with entry_weight l.

Lemma weight_step m n k : (m < n)%nat -> (k <= width)%nat -> (1 + k * weight m <= weight n)%nat.
Proof.
  intros Hm Hk. unfold weight. assert (1 <= S width ^ m)%nat by (apply Nat.neq_0_lt_0, Nat.pow_nonzero; lia).
  assert (S width ^ S m <= S width ^ n)%nat by (apply Nat.pow_le_mono_r; lia). rewrite Nat.pow_succ_r' in *. nia.
Qed.

Lemma potential_pushed l m :
  Forall (fun x => owner mem x.1 = None /\ (rank x.1 <= m)%nat) l -> (potential l <= length l * weight m)%nat.
Proof.
  induction 1 as [|x l [Ho Hr] _ IH]; [done|]. unfold potential in *. cbn. unfold entry_weight at 1. rewrite Ho.
  assert (weight (rank x.1) <= weight m)%nat by (apply Nat.pow_le_mono_r; lia). lia.
Qed.

Lemma potential_app l1 l2 : potential (l1 ++ l2) = (potential l1 + potential l2)%nat.
Proof. apply sum_list_with_app. Qed.

(** One turn of [ponyint_gc_handlestack]. *)
Lemma turn_decreases c c1 p t rest :
  finite_memory -> pushes (trace_fields mem t p) (set_ctx_stack c rest) c1 ->
  (unseen c1 < unseen c)%nat \/
  (unseen c1 <= unseen c)%nat /\ (potential (stack c1) < entry_weight (p, t) + potential rest)%nat.
Proof.
  intros Hf (Hu & pushed & Es & Hp). change (unseen (set_ctx_stack c rest)) with (unseen c) in *.
  destruct Hp as [?|[Hl Hp]]; [by left|right]. split; [done|]. cbn in Es. rewrite Es, potential_app.
  enough (potential pushed < entry_weight (p, t))%nat by lia.
  pose proof (fm_width Hf p t) as Hw. unfold entry_weight. cbn. destruct (owner mem p) as [a|] eqn:Ho.
  - destruct height as [|h] eqn:Eh; [pose proof (fm_height Hf p); lia|].
    pose proof (potential_pushed pushed h) as Hq. pose proof (weight_step h (S h) (length pushed)).
    enough (potential pushed <= length pushed * weight h)%nat by lia. apply Hq. eapply Forall_impl; [exact Hp|].
    intros x [Hx _]. split; [done|]. pose proof (fm_height Hf x.1). lia.
  - assert (Forall (fun x => owner mem x.1 = None /\ (rank x.1 < rank p)%nat) pushed) as Hp'.
    { eapply Forall_impl; [exact Hp|]. intros x (Hx & call & Hin & Hc & Ea). split; [done|]. rewrite <- Ea in Hx |- *.
      by apply (proj1 (Forall_forall _ _) (fm_rank Hf p t Ho) call). }
    destruct (rank p) as [|n] eqn:En.
    + destruct pushed as [|x pushed]; [cbn; lia|]. apply Forall_cons in Hp' as [[_ Hx] _]. lia.
    + pose proof (potential_pushed pushed n) as Hq. pose proof (weight_step n (S n) (length pushed)).
      enough (potential pushed <= length pushed * weight n)%nat by lia. apply Hq. eapply Forall_impl; [exact Hp'|].
      cbn. intros x [Hx Hr]. split; [done|lia].
Qed.

Lemma handlestack_ends K c0 c :
  finite_memory -> can_trace K c0 -> mode c0 <> MARK ->
  (forall fuel, Forall (call_within K) (calls_made fuel c)) -> traced K c0 c ->
  exists fuel c', handlestack fuel c = Ret c'.
Proof.
  intros Hf Hc Hm. remember (unseen c) as n eqn:En. assert (unseen c <= n)%nat as Hn by lia. clear En.
  revert c Hn. induction n as [n IHn] using lt_wf_ind. intros c. remember (potential (stack c)) as m eqn:Em.
  assert (potential (stack c) <= m)%nat as Hle by lia. clear Em. revert c Hle.
  induction m as [m IHm] using lt_wf_ind. intros c Hle Hn Hw Ht.
  destruct (stack c) as [|[p t] rest] eqn:Es; [exists 0%nat, c; cbn; by rewrite Es|].
  pose proof (fun fuel => Hw (S fuel)) as Hw1. cbn in Hw1. rewrite Es in Hw1.
  assert (Forall (call_within K) (trace_fields mem t p)) as Hwp
    by (by destruct (proj1 (Forall_app _ _ _) (Hw1 0%nat))).
  destruct (run_calls_pushes K c0 (set_ctx_stack c rest) _ Hc Hm Hwp (fm_known Hf p t) (traced_stack _ _ _ rest Ht))
    as (c1 & E1 & Ht1 & Hp).
  assert (forall fuel, Forall (call_within K) (calls_made fuel c1)) as Hw2.
  { intros fuel. specialize (Hw1 fuel). rewrite E1 in Hw1. by apply Forall_app in Hw1 as [_ ?]. }
  assert (exists fuel c', handlestack fuel c1 = Ret c') as (fuel & c' & Hrun).
  { destruct (turn_decreases c c1 p t rest Hf Hp) as [Hu|[Hu Hpot]].
    - apply (IHn (unseen c1) ltac:(lia) c1); done || lia.
    - change (potential ((p, t) :: rest)) with (entry_weight (p, t) + potential rest)%nat in Hle.
      apply (IHm (potential (stack c1)) ltac:(lia) c1); done || lia. }
  exists (S fuel), c'. cbn. by rewrite Es, E1.
Qed.
End trace.
