(* ===== verification/GcMsg.v ===== *)
(** * What the messages of the collector carry ([gc/gc.c], [gc/actormap.c])

    The end of a round sends what was acquired; a sweep sends what is not referenced any more;
    the owner adds and subtracts what it receives.  The amount of a list of messages for a key
    is what they carry of its count. *)
From stdpp Require Import gmap.
From S2P Require Import Prelude Sum ObjectMap Gc GcCount GcTrace.
Local Open Scope Z_scope.
Local Open Scope c_scope.

(** ** Amounts *)

Definition acquires (k : option Z) (m : gc_msg) : Z := match m with ACQUIRE r => ref_count r k | RELEASE _ => 0 end.
Definition releases (k : option Z) (m : gc_msg) : Z := match m with RELEASE r => ref_count r k | ACQUIRE _ => 0 end.

(** Of messages with their targets, those for [B]. *)
Definition to (B : Z) (f : gc_msg -> Z) (x : Z * gc_msg) : Z := if decide (x.1 = B) then f x.2 else 0.

(** Messages have no negative counts, and release objects that are counted. *)
Definition msg_ok (m : gc_msg) : Prop :=
  match m with
  | ACQUIRE r => forall k, 0 <= ref_count r k
  | RELEASE r => (forall k, 0 <= ref_count r k) /\ map_Forall (fun _ o => 1 <= obj_rc o) (ref_map r)
  end.

Lemma acquires_nonneg k m : msg_ok m -> 0 <= acquires k m.
Proof. destruct m; cbn; [auto|done]. Qed.

Lemma releases_nonneg k m : msg_ok m -> 0 <= releases k m.
Proof. destruct m; cbn; [done|]. intros [? _]. auto. Qed.

(** ** Enumerations *)
Section enumerations.
Context `{EN : Enumeration}.

Lemma enum_keys {A} (m : gmap Z A) : NoDup (enum m).*1.
Proof. rewrite enum_perm. apply NoDup_fst_map_to_list. Qed.

Lemma elem_of_enum {A} (m : gmap Z A) i x : (i, x) ∈ enum m <-> m !! i = Some x.
Proof. rewrite enum_perm. apply elem_of_map_to_list. Qed.

(** The amount for a key in an enumeration is that in the map. *)
Definition entry_amount {A} (f : A -> Z) (i : Z) (x : Z * A) : Z := if decide (x.1 = i) then f x.2 else 0.

Lemma sum_enum {A} (f : A -> Z) (m : gmap Z A) i : sum_of (entry_amount f i) (enum m) = from_option f 0 (m !! i).
Proof.
  rewrite (sum_of_perm _ _ _ (enum_perm m)).
  induction m as [|j x m Hj IH] using map_ind; [by rewrite map_to_list_empty|].
  rewrite map_to_list_insert by done. cbn. rewrite IH. unfold entry_amount. cbn. case_decide as E; [subst j|].
  - rewrite lookup_insert_eq, Hj. cbn. lia.
  - rewrite lookup_insert_ne by done. lia.
Qed.
End enumerations.

Lemma map_Forall_sub {A} (P : Z -> A -> Prop) (m m' : gmap Z A) : m' ⊆ m -> map_Forall P m -> map_Forall P m'.
Proof. intros Hs Hm i x Hx. apply Hm. by eapply lookup_weaken. Qed.

Section messages.
Context {H : Type} `{MH : MarkHeap H} `{ML : !MarkHeapLaws H} `{TY : Types} `{EN : Enumeration}.
Context (actor_noblock : bool) (mem : object_memory).
Abbreviation ctx := (ctx_t H).
Implicit Types c : ctx.

(** ** Sending what was acquired *)

Lemma send_acquired_spec msg c :
  send_acquired msg c =
    mk_ctx (current c) (mode c) (stack c) ∅ (gc c) (heap c) (sent c ++ ((fun x => (x.1,
      msg x.2)) <$> enum (acquire c))).
Proof.
  unfold send_acquired. assert (forall i, i ∉ (enum (acquire c)).*1 -> acquire c !! i = None) as Hd.
  { intros i Hi. destruct (acquire c !! i) as [r|] eqn:E; [|done]. destruct Hi.
    apply list_elem_of_fmap. exists (i, r). split; [done|]. by apply elem_of_enum. }
  revert Hd. generalize (enum (acquire c)). intros l. revert c.
  induction l as [|[a r] l IH]; intros c Hd; cbn.
  - rewrite app_nil_r. replace (∅ : actormap_t) with (acquire c); [by destruct c|].
    apply map_eq. intros i. rewrite lookup_empty. apply Hd. set_solver.
  - rewrite IH; [cbn; by rewrite <- app_assoc|]. intros i Hi. cbn. destruct (decide (i = a)) as [->|].
    + apply lookup_delete_eq.
    + rewrite lookup_delete_ne by done. apply Hd. cbn. set_solver.
Qed.

Lemma send_all_acquired_spec msg c :
  send_all_acquired msg c = Ret (send_acquired msg c).
Proof. unfold send_all_acquired. by rewrite send_acquired_spec. Qed.

Lemma acquired_amount c B k :
  sum_of (to B (acquires k)) ((fun x => (x.1, ACQUIRE x.2)) <$> enum (acquire c)) = acquired c B k.
Proof.
  unfold acquired, map_count. rewrite <- (sum_enum (fun r => ref_count r k)).
  induction (enum (acquire c)) as [|[a r] l IH]; [done|].
  cbn in *. by rewrite IH.
Qed.

Lemma acquired_releases (l : list (Z * actorref_t)) B k :
  sum_of (to B (releases k)) ((fun x => (x.1, ACQUIRE x.2)) <$> l) = 0.
Proof. induction l as [|x l IH]; [done|]. cbn in *. rewrite IH. unfold to. by case_decide. Qed.

Lemma acquired_ok c :
  (forall B k, 0 <= acquired c B k) ->
    Forall (fun x => msg_ok x.2) ((fun x => (x.1, ACQUIRE x.2)) <$> enum (acquire c)).
Proof.
  intros Ha. apply Forall_fmap, Forall_forall. intros [a r] Hr%elem_of_enum. cbn. intros k. specialize (Ha a k).
  unfold acquired, map_count in Ha. by rewrite Hr in Ha.
Qed.

(** ** Sweeping *)

Lemma count_delete (m : objectmap_t) p : from_option obj_rc 0 (m !! p) = 0 ->
  forall q, from_option obj_rc 0 (delete p m !! q) = from_option obj_rc 0 (m !! q).
Proof.
  intros Hp q. destruct (decide (q = p)) as [->|]; [by rewrite lookup_delete_eq|by rewrite lookup_delete_ne].
Qed.

(** Objects without a count are removed; the others are marked. *)
Lemma objectmap_sweep_spec (h : H) (map : objectmap_t) :
  map_Forall (fun _ o => 0 <= obj_rc o) map ->
  (forall p o, map !! p = Some o -> 0 < obj_rc o -> heap_owns h p) ->
  exists h' map', ponyint_objectmap_sweep h map = Ret (h', map') /\ map' ⊆ map /\
    (forall p, from_option obj_rc 0 (map' !! p) = from_option obj_rc 0 (map !! p)) /\
    (forall p o, map !! p = Some o -> 0 < obj_rc o -> heap_marked h' p).
Proof.
  intros Hn Hh. unfold ponyint_objectmap_sweep.
  assert (forall l m h1, m ⊆ map -> (forall p, from_option obj_rc 0 (m !! p) = from_option obj_rc 0 (map !! p)) ->
    (forall q, heap_owns h q -> heap_owns h1 q) -> (forall p o, (p, o) ∈ l -> map !! p = Some o) -> NoDup l.*1 ->
    exists h' map', foldO sweep_object (h1, m) l = Ret (h', map') /\ map' ⊆ map /\
    (forall p, from_option obj_rc 0 (map' !! p) = from_option obj_rc 0 (map !! p)) /\
    (forall q, heap_marked h1 q -> heap_marked h' q) /\
    (forall p o, (p, o) ∈ l -> 0 < obj_rc o -> heap_marked h' p)) as Hgen.
  { induction l as [|[p o] l IH]; intros m h1 Hm Hc Hh1 Hl Hk; [exists h1, m; set_solver|].
    apply NoDup_cons in Hk as [_ Hk]. pose proof (Hl p o ltac:(left)) as Hp. cbn [foldO sweep_object].
    destruct (Z.ltb_spec 0 (obj_rc o)) as [Hlt|Hge].
    - destruct (heap_mark_shallow_law h1 p) as (h2 & E & Hp2 & Hh2); [by eapply Hh1, Hh|]. rewrite E. cbn.
      destruct (IH m h2) as (h' & m' & E' & A1 & A2 & A3 & A4); try done.
      + intros q Hq. by apply Hh2, Hh1.
      + intros q x Hx. apply Hl. by right.
      + exists h', m'. do 3 (split; [done|]). split; [intros q Hq; by apply A3, Hh2|].
        intros q x [[= -> ->]|Hx]%elem_of_cons Hx0; [by apply A3|by eapply A4].
    - cbn. destruct (IH (delete p m) h1) as (h' & m' & E' & A1 & A2 & A3 & A4); try done.
      + etrans; [apply delete_subseteq|done].
      + intros q. rewrite <- Hc. apply count_delete. rewrite Hc, Hp. cbn. pose proof (Hn p o Hp). cbn in *. lia.
      + intros q x Hx. apply Hl. by right.
      + exists h', m'. do 4 (split; [done|]).
        intros q x [[= -> ->]|Hx]%elem_of_cons Hx0; [lia|by eapply A4]. }
  destruct (Hgen (enum map) map h) as (h' & m' & E & A1 & A2 & _ & A4); try done.
  - intros p o. by rewrite elem_of_enum.
  - apply enum_keys.
  - exists h', m'. do 3 (split; [done|]). intros p o Hp. apply A4. by apply elem_of_enum.
Qed.

(** The objects of a reference that may be null. *)
Definition map_of (r : option actorref_t) : objectmap_t := from_option ref_map ∅ r.
Definition count_of (r : option actorref_t) (k : option Z) : Z := from_option (fun r => ref_count r k) 0 r.

(** Objects that are not marked move from one reference to the other. *)
Lemma move_objects_spec mark l from to :
  NoDup l.*1 -> (forall q o, (q, o) ∈ l -> ref_map from !! q = Some o /\ map_of to !! q = None) ->
  exists from' to', foldl (move_object mark) (from, to) l = (from', to') /\
    ref_rc from' = ref_rc from /\ ref_mark from' = ref_mark from /\ ref_map from' ⊆ ref_map from /\
    (forall q o, map_of to' !! q = Some o -> map_of to !! q = Some o \/ ref_map from !! q = Some o) /\
    forall k, ref_count from' k + count_of to' k = ref_count from k + count_of to k.
Proof.
  revert from to. induction l as [|[q o] l IH]; intros from to Hk Hl.
  { exists from, to. do 4 (split; [done|]). split; [by left|done]. }
  apply NoDup_cons in Hk as [Hq Hk]. destruct (Hl q o ltac:(left)) as [Hf Ht]. cbn [foldl move_object].
  destruct (Z.eqb_spec (obj_mark o) mark) as [_|_]; [apply IH; [done|intros; apply Hl; by right]|].
  set (from1 := set_ref_map from _). set (to1 := set_ref_map (default (actorref_alloc mark) to) _).
  assert (map_of (Some to1) = <[q := o]> (map_of to)) as Em by (by destruct to).
  destruct (IH from1 (Some to1)) as (from' & to' & E & H1 & H2 & H3 & H4 & H5); [done| |].
  { intros q' o' Hin. rewrite Em. assert (q' <> q) as Hne by (intros ->; apply Hq; apply list_elem_of_fmap;
      by exists (q, o')).
    destruct (Hl q' o' ltac:(by right)) as [Hf' Ht']. cbn.
    split; [by rewrite lookup_delete_ne|by rewrite lookup_insert_ne]. }
  exists from', to'. split; [done|]. do 2 (split; [done|]). split; [etrans; [done|apply delete_subseteq]|]. split.
  - intros q' o' Hin.
    destruct (H4 q' o' Hin) as [Hm|Hm]; [|right; cbn in Hm; by apply lookup_delete_Some in Hm as [_ ?]].
    rewrite Em in Hm. apply lookup_insert_Some in Hm as [[<- <-]|[_ ?]]; auto.
  - intros k. rewrite H5. destruct k as [x|]; [|by destruct to].
    assert (count_of (Some to1) (Some x) = from_option obj_rc 0 (map_of (Some to1) !! x)) as -> by done.
    assert (count_of to (Some x) = from_option obj_rc 0 (map_of to !! x)) as -> by (by destruct to).
    rewrite Em. cbn. destruct (decide (x = q)) as [->|].
    + rewrite lookup_delete_eq, lookup_insert_eq, Hf, Ht. cbn. lia.
    + by rewrite lookup_delete_ne, lookup_insert_ne.
Qed.

Lemma move_unmarked_spec r mark :
  exists r' to, move_unmarked_objects r mark = (r', to) /\
    ref_rc r' = ref_rc r /\ ref_mark r' = ref_mark r /\ ref_map r' ⊆ ref_map r /\ map_of to ⊆ ref_map r /\
    forall k, ref_count r' k + count_of to k = ref_count r k.
Proof.
  unfold move_unmarked_objects. destruct (Nat.eqb_spec (size (ref_map r)) 0) as [Hs|_].
  { exists r, None. split; [done|]. do 3 (split; [done|]). split; [apply map_empty_subseteq|]. intros k. cbn. lia. }
  destruct (move_objects_spec mark (enum (ref_map r)) r None) as (r' & to & E & H1 & H2 & H3 & H4 & H5).
  - apply enum_keys.
  - intros q o Hin. split; [by apply elem_of_enum|done].
  - exists r', to. split; [done|]. do 3 (split; [done|]). split; [|intros k; rewrite H5; cbn; lia].
    apply map_subseteq_spec. intros q o Hq. by destruct (H4 q o Hq).
Qed.

Lemma send_release_spec a r :
  (forall k, 0 <= count_of r k) -> map_Forall (fun _ o => 1 <= obj_rc o) (map_of r) ->
  let l := send_release (pendingdestroy mem) a r in
  Forall (fun x => x.1 = a /\ msg_ok x.2) l /\
  forall B k, sum_of (to B (acquires k)) l = 0 /\
    0 <= sum_of (to B (releases k)) l <= (if decide (B = a) then count_of r k else 0) /\
    (pendingdestroy mem a = false -> sum_of (to B (releases k)) l = if decide (B = a) then count_of r k else 0).
Proof.
  intros Hn Hp l.
  assert (forall B k, 0 <= if decide (B = a) then count_of r k else 0) as Hd by (intros; by case_decide).
  assert (l = [] /\ (pendingdestroy mem a = false -> forall k, count_of r k = 0) \/
    exists r0, r = Some r0 /\ l = [(a, RELEASE r0)]) as [[-> Hz]|(r0 & -> & ->)].
  { unfold l, send_release. destruct r as [r0|]; [|by left]. destruct (pendingdestroy mem a); cbn; [by left|].
    destruct (Z.eqb_spec (ref_rc r0) 0) as [Hr|Hr]; cbn; [|right; by exists r0].
    destruct (Nat.eqb_spec (size (ref_map r0)) 0) as [Hs|Hs]; [left|right; by exists r0].
    split; [done|]. intros _ [p|]; cbn; [|done]. apply map_size_empty_inv in Hs. by rewrite Hs, lookup_empty. }
  - split; [done|]. intros B k. cbn. specialize (Hd B k). split; [done|]. split; [done|]. intros Hq.
    case_decide; [|done].
    by rewrite Hz.
  - split; [by apply Forall_singleton|]. intros B k. cbn. unfold to. cbn. specialize (Hn k). cbn in Hn.
    repeat case_decide; subst; try done; lia.
Qed.

(** A reference whose counts are not negative and whose objects are counted. *)
Definition ref_entry_ok (mark : Z) (r : actorref_t) : Prop :=
  ref_ok mark r /\ map_Forall (fun _ o => 1 <= obj_rc o) (ref_map r).

Lemma entry_submap mark r r' :
  ref_entry_ok mark r -> ref_rc r' = ref_rc r -> ref_mark r' = ref_mark r -> ref_map r' ⊆ ref_map r ->
    ref_entry_ok mark r'.
Proof.
  intros [(R1 & R2 & R3) P] E1 E2 Hs. split; [unfold ref_ok; rewrite E1, E2; split; [done|]; split; [done|]|];
    by eapply map_Forall_sub.
Qed.

Lemma entry_nonneg mark r k : ref_entry_ok mark r -> 0 <= ref_count r k.
Proof.
  intros [(R1 & _ & R3) _]. destruct k as [p|]; [|done]. cbn. destruct (ref_map r !! p) as [o|] eqn:E; [|done].
  by apply (R3 p o).
Qed.

(** One turn of the loop. *)
Lemma sweep_actor_spec mark m d sent0 a r :
  m !! a = Some r -> map_Forall (fun _ => ref_entry_ok mark) m ->
  exists m1 d1 r0,
    sweep_actor actor_noblock (pendingdestroy mem) mark (m, d, sent0) (a, r) =
      (m1, d1, sent0 ++ send_release (pendingdestroy mem) a r0) /\
    map_Forall (fun _ => ref_entry_ok mark) m1 /\ (forall B, B <> a -> m1 !! B = m !! B) /\
    map_of r0 ⊆ ref_map r /\ (forall k, 0 <= count_of r0 k) /\
    (forall k, map_count m1 a k + count_of r0 k = ref_count r k).
Proof.
  intros Hr Hok. pose proof (Hok a r Hr) as He. cbn in He. unfold sweep_actor. destruct (ref_mark r =? mark).
  - destruct (move_unmarked_spec r mark) as (r' & t & E & H1 & H2 & H3 & H4 & H5). rewrite E.
    eexists _, _, t. split; [done|]. split; [|split; [|split; [done|split]]].
    + apply map_Forall_insert_2; [|done]. by eapply entry_submap.
    + intros B HB. by rewrite lookup_insert_ne.
    + intros [p|].
      * assert (count_of t (Some p) = from_option obj_rc 0 (map_of t !! p)) as -> by (by destruct t).
        destruct (map_of t !! p) as [o|] eqn:Eo; [|done]. cbn.
        assert (ref_map r !! p = Some o) as Ho by (by eapply lookup_weaken). destruct He as [_ P].
        pose proof (P p o Ho). cbn in *. lia.
      * specialize (H5 None). cbn in H5. lia.
    + intros k. unfold map_count. rewrite lookup_insert_eq. cbn. apply H5.
  - eexists _, _, (Some r). split; [done|]. split; [by apply map_Forall_delete|]. split; [|split; [done|split]].
    + intros B HB. by rewrite lookup_delete_ne.
    + intros k. cbn. by eapply entry_nonneg.
    + intros k. unfold map_count. rewrite lookup_delete_eq. cbn. lia.
Qed.

(** Sweeping an actor map: what leaves it is in the messages, unless their actor is to be
    destroyed. *)
Record actors_swept (mark : Z) (m m' : actormap_t) (l : list (Z * gc_msg)) : Prop := {
  sw_ok : map_Forall (fun _ => ref_entry_ok mark) m';
  sw_none a : m !! a = None -> m' !! a = None;
  sw_msgs : Forall (fun x => msg_ok x.2) l;
  sw_acquires B k : sum_of (to B (acquires k)) l = 0;
  sw_releases B k : 0 <= sum_of (to B (releases k)) l /\
    map_count m' B k + sum_of (to B (releases k)) l <= map_count m B k;
  sw_exact B k : (forall a, pendingdestroy mem a = false) ->
    map_count m' B k + sum_of (to B (releases k)) l = map_count m B k
}.

Lemma sweep_loop_spec mark l m d sent0 :
  NoDup l.*1 -> (forall a r, (a, r) ∈ l -> m !! a = Some r) -> map_Forall (fun _ => ref_entry_ok mark) m ->
  exists m' d' l', foldl (sweep_actor actor_noblock (pendingdestroy mem) mark) (m, d, sent0) l = (m', d',
    sent0 ++ l') /\
    actors_swept mark m m' l'.
Proof.
  revert m d sent0. induction l as [|[a r] l IH]; intros m d sent0 Hk Hl Hok.
  { exists m, d, []. rewrite app_nil_r. split; [done|]. split; try done; intros; cbn; lia. }
  apply NoDup_cons in Hk as [Ha Hk]. pose proof (Hl a r ltac:(left)) as Hr.
  destruct (sweep_actor_spec mark m d sent0 a r Hr Hok) as (m1 & d1 & r0 & E1 & Hok1 & Hne & Hsub & Hn & Hc).
  destruct (send_release_spec a r0 Hn) as [Hmsg Ham].
  { eapply map_Forall_sub; [exact Hsub|]. by destruct (Hok a r Hr). }
  cbn [foldl]. rewrite E1.
  destruct (IH m1 d1 (sent0 ++ send_release (pendingdestroy mem) a r0)) as (m' & d' & l' & E & S); [done| |done|].
  { intros b x Hx. rewrite Hne; [by apply Hl; right|]. intros ->. apply Ha, list_elem_of_fmap. by exists (a, x). }
  exists m', d', (send_release (pendingdestroy mem) a r0 ++ l'). split; [by rewrite E, app_assoc|].
  assert (forall B k, map_count m1 B k + (if decide (B = a) then count_of r0 k else 0) = map_count m B k) as Hm1.
  { intros B k. case_decide as Eb; [subst B; rewrite Hc; unfold map_count; by rewrite Hr|].
    unfold map_count. rewrite Hne by done. lia. }
  destruct S as [S1 S2 S3 S4 S5 S6]. split.
  - done.
  - intros b Hb. apply S2. rewrite Hne; [done|]. congruence.
  - apply Forall_app. split; [|done]. eapply Forall_impl; [exact Hmsg|]. by intros x [_ ?].
  - intros B k. rewrite sum_of_app, S4. by destruct (Ham B k) as [-> _].
  - intros B k. rewrite sum_of_app. destruct (Ham B k) as (_ & ? & _), (S5 B k). specialize (Hm1 B k). lia.
  - intros B k Hpd. rewrite sum_of_app. destruct (Ham B k) as (_ & _ & ->); [|done]. specialize (S6 B k Hpd).
    specialize (Hm1 B k). lia.
Qed.

Lemma actormap_sweep_spec mark m d :
  map_Forall (fun _ => ref_entry_ok mark) m ->
  exists m' d' l, ponyint_actormap_sweep actor_noblock (pendingdestroy mem) m mark d = (m', d', l) /\
    actors_swept mark m m' l.
Proof.
  intros Hok. unfold ponyint_actormap_sweep. destruct (sweep_loop_spec mark (enum m) m d []) as (m' & d' & l & E & S).
  - apply enum_keys.
  - intros a r. by rewrite elem_of_enum.
  - done.
  - by exists m', d', l.
Qed.

(** ** What the owner receives *)

(** The counts of the owner change by [amount]; nothing else does. *)
Record own_change (self : Z) (g g' : gc_t) (amount : option Z -> Z) : Prop := {
  oc_ok : gc_ok self g -> gc_ok self g';
  oc_count k : own_count g' k = own_count g k + amount k;
  oc_seen k : own_seen g' k = own_seen g k;
  oc_foreign : gc_foreign g' = gc_foreign g;
  oc_mark : gc_mark g' = gc_mark g
}.

Lemma own_change_trans self g1 g2 g3 f1 f2 f :
  own_change self g1 g2 f1 -> own_change self g2 g3 f2 -> (forall k, f k = f1 k + f2 k) -> own_change self g1 g3 f.
Proof.
  intros [A1 A2 A3 A4 A5] [B1 B2 B3 B4 B5] Hf. split; try congruence; [auto|].
  intros k. rewrite B2, A2, Hf. lia.
Qed.

Lemma own_change_ext self g g' f f' : own_change self g g' f -> (forall k, f k = f' k) -> own_change self g g' f'.
Proof. intros [? E ? ? ?] Hf. split; try done. intros k. by rewrite E, Hf. Qed.

(** The amount for a key in an entry of an object map. *)
Definition object_amount (f : object_t -> Z) (k : option Z) (x : Z * object_t) : Z :=
  match k with None => 0 | Some p => entry_amount f p x end.

Lemma own_change_put self g p o o' :
  (gc_local g !! p = Some o \/ gc_local g !! p = None /\ o = object_alloc (obj_type o') (gc_mark g)) ->
  obj_mark o' = obj_mark o -> 0 <= obj_rc o' -> 1 <= gc_mark g < 2 ^ 32 - 1 ->
  own_change self g (set_gc_local g (<[p := o']> (gc_local g)))
    (fun k => if decide (k = Some p) then obj_rc o' - obj_rc o else 0).
Proof.
  intros Ho Hmark Hpos Hg. pose proof (old_mark _ Hg) as Hold. split.
  - intros [O1 O2 O3 O4 O5 O6]. split; cbn; try done. apply map_Forall_insert_2; [|done]. split; [done|].
    rewrite Hmark.
    destruct Ho as [Ho|[_ ->]]; [by apply (O4 p o Ho)|]. cbn. rewrite Hold. unfold mark_ok. lia.
  - intros [q|]; [|rewrite decide_False by done; cbn; lia]. cbn. destruct (decide (q = p)) as [->|Hne].
    + rewrite lookup_insert_eq, decide_True by done. cbn. destruct Ho as [->|[-> ->]]; cbn; lia.
    + rewrite lookup_insert_ne, decide_False by congruence. lia.
  - intros [q|]; [|done]. cbn. destruct (decide (q = p)) as [->|Hne]; [|by rewrite lookup_insert_ne].
    rewrite lookup_insert_eq. cbn. rewrite Hmark. destruct Ho as [->|[-> ->]]; [done|]. cbn. rewrite Hold.
    apply Z.eqb_neq. lia.
  - done.
  - done.
Qed.

Lemma acquire_one_spec self g x :
  1 <= gc_mark g < 2 ^ 32 - 1 -> 0 <= obj_rc x.2 -> 0 <= own_count g (Some x.1) ->
  own_count g (Some x.1) + obj_rc x.2 < 2 ^ 63 ->
  own_change self g (acquire_one g x) (fun k => object_amount obj_rc k x).
Proof.
  intros Hg H0 H1 H2. destruct x as [p o]. unfold acquire_one. cbn [fst snd] in *.
  destruct (getorput_local (gc_local g) p (obj_type o) (gc_mark g)) as (ol & -> & Hol). cbv beta iota zeta.
  rewrite insert_insert_eq.
  assert (own_count g (Some p) = obj_rc ol) as Ec by (cbn; by destruct Hol as [->|[-> ->]]). rewrite Ec in *.
  assert (obj_rc ol ⊞ obj_rc o = obj_rc ol + obj_rc o) as Ea by (apply u64_id; unfold is_u64; lia). rewrite Ea.
  set (o' := if obj_immutable o then _ else _).
  assert (obj_rc o' = obj_rc ol + obj_rc o /\ obj_mark o' = obj_mark ol /\
    obj_type o' = obj_type ol) as (E1 & E2 & E3)
    by (unfold o'; by destruct (obj_immutable o)). clearbody o'.
  eapply own_change_ext; [apply (own_change_put self g p ol o'); [|done|lia|done]|].
  - destruct Hol as [?|[? ->]]; [by left|right]. split; [done|]. by rewrite E3.
  - intros [q|]; cbn; [|done]. unfold entry_amount. cbn. rewrite E1. repeat case_decide; try congruence; lia.
Qed.

Lemma release_one_spec self g x :
  1 <= gc_mark g < 2 ^ 32 - 1 -> 1 <= obj_rc x.2 -> obj_rc x.2 <= own_count g (Some x.1) < 2 ^ 63 ->
  exists g', release_one g x = Ret g' /\ own_change self g g' (fun k => object_amount (fun o => - obj_rc o) k x).
Proof.
  intros Hg H0 H1. destruct x as [p o]. unfold release_one, ponyint_objectmap_getobject. cbn [fst snd] in *.
  cbn in H1.
  destruct (gc_local g !! p) as [ol|] eqn:El; cbn in H1; [|lia].
  destruct (Z.leb_spec (obj_rc o) (obj_rc ol)) as [_|]; [|lia]. eexists. split; [done|].
  assert (obj_rc ol ⊟ obj_rc o = obj_rc ol - obj_rc o) as Ea by (apply u64_id; unfold is_u64; lia). rewrite Ea.
  eapply own_change_ext; [apply (own_change_put self g p ol (set_obj_rc ol _)); [by left|done|cbn; lia|done]|].
  intros [q|]; cbn; [|done]. unfold entry_amount. cbn. repeat case_decide; try congruence; lia.
Qed.

(** The sum for a key over the entries of an enumeration. *)
Lemma object_sum (f : object_t -> Z) (m : objectmap_t) k :
  sum_of (object_amount f k) (enum m) = match k with None => 0 | Some p => from_option f 0 (m !! p) end.
Proof.
  destruct k as [p|]; cbn; [|by induction (enum m)]. rewrite <- (sum_enum f m p). by apply sum_of_ext.
Qed.

Lemma other_keys (f : object_t -> Z) k p o l : p ∉ l.*1 -> k = Some p -> sum_of (object_amount f k) l = 0 /\
  object_amount f k (p, o) = f o.
Proof.
  intros Hp ->. split; [|cbn; unfold entry_amount; cbn; by rewrite decide_True].
  induction l as [|[q x] l IH]; [done|]. cbn in *. rewrite IH by set_solver. unfold entry_amount. cbn.
  rewrite decide_False; [done|]. set_solver.
Qed.

Lemma acquire_loop self l g :
  NoDup l.*1 -> 1 <= gc_mark g < 2 ^ 32 - 1 -> (forall p o, (p, o) ∈ l -> 0 <= obj_rc o) ->
    (forall k, 0 <= own_count g k) ->
  (forall k, own_count g k + sum_of (object_amount obj_rc k) l < 2 ^ 63) ->
  own_change self g (foldl acquire_one g l) (fun k => sum_of (object_amount obj_rc k) l).
Proof.
  revert g. induction l as [|[p o] l IH]; intros g Hk Hg Hl H0 Hb.
  { split; try done. intros k. cbn. lia. }
  apply NoDup_cons in Hk as [Hp Hk]. cbn [foldl].
  destruct (other_keys obj_rc (Some p) p o l Hp eq_refl) as [Hs Ho]. pose proof (Hl p o ltac:(left)) as Hpos.
  pose proof (Hb (Some p)) as Hbp. cbn [sum_of] in Hbp. rewrite Hs, Ho in Hbp.
  pose proof (acquire_one_spec self g (p, o) Hg Hpos (H0 (Some p)) ltac:(cbn in *; lia)) as S1.
  assert (forall k, 0 <= object_amount obj_rc k (p, o)) as Hn by (intros [q|]; cbn; [unfold entry_amount;
    by case_decide|done]).
  eapply own_change_trans; [exact S1|apply IH|by intros k].
  - done.
  - by rewrite (oc_mark _ _ _ _ S1).
  - intros q x Hx. apply (Hl q x). by right.
  - intros k. rewrite (oc_count _ _ _ _ S1). specialize (Hn k). specialize (H0 k). cbn in *. lia.
  - intros k. rewrite (oc_count _ _ _ _ S1). specialize (Hb k). cbn in *. lia.
Qed.

Lemma release_loop self l g :
  NoDup l.*1 -> 1 <= gc_mark g < 2 ^ 32 - 1 -> (forall p o, (p, o) ∈ l -> 1 <= obj_rc o) ->
  (forall k, sum_of (object_amount obj_rc k) l <= own_count g k < 2 ^ 63) ->
  exists g', foldO release_one g l = Ret g' /\ own_change self g g' (fun k => - sum_of (object_amount obj_rc k) l).
Proof.
  revert g. induction l as [|[p o] l IH]; intros g Hk Hg Hl Hb.
  { exists g. split; [done|]. split; try done. intros k. cbn. lia. }
  apply NoDup_cons in Hk as [Hp Hk]. cbn [foldO].
  destruct (other_keys obj_rc (Some p) p o l Hp eq_refl) as [Hs Ho]. pose proof (Hl p o ltac:(left)) as Hpos.
  pose proof (Hb (Some p)) as Hbp. cbn [sum_of] in Hbp. rewrite Hs, Ho in Hbp.
  destruct (release_one_spec self g (p, o) Hg Hpos ltac:(cbn in *; lia)) as (g1 & E1 & S1). rewrite E1. cbn.
  assert (forall k, object_amount (fun o => - obj_rc o) k (p, o) = - object_amount obj_rc k (p, o) /\
    0 <= object_amount obj_rc k (p, o)) as Hn.
  { intros [q|]; cbn; [unfold entry_amount; case_decide; cbn in *; lia|done]. }
  destruct (IH g1) as (g2 & E2 & S2); [done| | | |].
  - by rewrite (oc_mark _ _ _ _ S1).
  - intros q x Hx. apply (Hl q x). by right.
  - intros k. rewrite (oc_count _ _ _ _ S1). destruct (Hn k) as [-> ?]. specialize (Hb k). cbn in *. lia.
  - exists g2. split; [done|]. eapply own_change_trans; [exact S1|exact S2|]. intros k. cbn. destruct (Hn k) as [-> _].
    lia.
Qed.

Lemma own_change_rc self g n :
  0 <= n -> own_change self g (set_rc g n) (fun k => match k with None => n - gc_rc g | _ => 0 end).
Proof.
  intros Hn. split; try done.
  - intros [O1 O2 O3 O4 O5 O6]. by split.
  - intros [p|]; cbn; lia.
Qed.

Lemma ponyint_gc_acquire_spec self g r :
  gc_ok self g -> msg_ok (ACQUIRE r) -> (forall k, own_count g k + ref_count r k < 2 ^ 63) ->
  own_change self g (fst (ponyint_gc_acquire g r)) (ref_count r).
Proof.
  intros Hg Hr Hb. unfold ponyint_gc_acquire. cbn [fst]. pose proof (own_count_nonneg self g None Hg) as H0.
  pose proof (Hr None) as Hr0. pose proof (Hb None) as Hb0. cbn in H0, Hr0, Hb0.
  assert (gc_rc g ⊞ ref_rc r = gc_rc g + ref_rc r) as -> by (apply u64_id; unfold is_u64; lia).
  pose proof (own_change_rc self g (gc_rc g + ref_rc r) ltac:(lia)) as S1.
  eapply own_change_trans; [exact S1|apply acquire_loop|].
  - apply enum_keys.
  - apply (ok_mark _ _ Hg).
  - intros p o Hp%elem_of_enum. specialize (Hr (Some p)). cbn in Hr. by rewrite Hp in Hr.
  - intros [p|]; [apply (own_count_nonneg self g (Some p) Hg)|]. cbn. lia.
  - intros k. rewrite object_sum. specialize (Hb k). destruct k as [p|]; cbn in *; [done|lia].
  - intros k. cbv beta. rewrite object_sum. destruct k as [p|]; cbn; [done|lia].
Qed.

Lemma ponyint_gc_release_spec self g r :
  gc_ok self g -> msg_ok (RELEASE r) -> (forall k, ref_count r k <= own_count g k < 2 ^ 63) ->
  exists g' b, ponyint_gc_release g r = Ret (g', b) /\ own_change self g g' (fun k => - ref_count r k).
Proof.
  intros Hg [Hr Hp] Hb. unfold ponyint_gc_release. pose proof (Hr None) as Hr0. pose proof (Hb None) as Hb0.
  cbn in Hr0, Hb0.
  destruct (Z.leb_spec (ref_rc r) (gc_rc g)) as [_|]; [|lia].
  assert (gc_rc g ⊟ ref_rc r = gc_rc g - ref_rc r) as -> by (apply u64_id; unfold is_u64; lia).
  pose proof (own_change_rc self g (gc_rc g - ref_rc r) ltac:(lia)) as S1.
  destruct (release_loop self (enum (ref_map r)) (set_rc g (gc_rc g - ref_rc r))) as (g' & E & S2).
  - apply enum_keys.
  - apply (ok_mark _ _ Hg).
  - intros p o Hpo%elem_of_enum. by apply (Hp p o).
  - intros k. rewrite object_sum. specialize (Hb k). destruct k as [p|]; cbn in *; [done|lia].
  - exists g', (0 <? ref_rc r). rewrite E. split; [done|]. eapply own_change_trans; [exact S1|exact S2|].
    intros k. cbv beta. rewrite object_sum. destruct k as [p|]; cbn; [done|lia].
Qed.

(** ** The end of a round *)

Lemma ponyint_gc_done_spec self g :
  gc_ok self g -> gc_mark g < 2 ^ 32 - 2 ->
  let g' := ponyint_gc_done g in
  gc_ok self g' /\ gc_mark g' = gc_mark g + 1 /\ gc_foreign g' = gc_foreign g /\
  (forall k, own_count g' k = own_count g k) /\ (forall k, own_seen g' k = false) /\
  (forall B k, foreign_seen g' B k = false).
Proof.
  intros [O1 O2 O3 O4 O5 O6] Hm g'. assert (gc_mark g' = gc_mark g + 1) as Em.
  { cbn. unfold u32, wrap. apply Z.mod_small. lia. }
  assert (forall n, mark_ok (gc_mark g) n -> mark_ok (gc_mark g') n /\ (n =? gc_mark g') = false) as Hmk.
  { intros n [? ?]. rewrite Em. split; [unfold mark_ok; lia|apply Z.eqb_neq; lia]. }
  assert (forall o, object_ok (gc_mark g) o ->
    object_ok (gc_mark g') o) as Hob by (intros o [? ?]; split; [done|by apply Hmk]).
  split; [|split; [done|split; [done|split; [done|split]]]].
  - split.
    + rewrite Em. lia.
    + done.
    + by apply Hmk.
    + intros p o Hp. by apply Hob, (O4 p).
    + intros B r Hr. destruct (O5 B r Hr) as (R1 & R2 & R3). split; [done|]. split; [by apply Hmk|].
      intros p o Hp. by apply Hob, (R3 p).
    + done.
  - intros [p|]; cbn [own_seen]; [|by apply Hmk]. change (gc_local g') with (gc_local g).
    destruct (gc_local g !! p) as [o|] eqn:E; [|done]. apply Hmk. by apply (O4 p o E).
  - intros B k. unfold foreign_seen, map_seen. change (gc_foreign g') with (gc_foreign g).
    destruct (gc_foreign g !! B) as [r|] eqn:E; [|done]. destruct (O5 B r E) as (R1 & R2 & R3).
    destruct k as [p|]; cbn [from_option ref_seen]; [|by apply Hmk].
    destruct (ref_map r !! p) as [o|] eqn:Eo; [|done]. apply Hmk. by apply (R3 p o Eo).
Qed.
End messages.
