(* ===== verification/GcRound.v ===== *)
(** * Whole rounds of tracing ([gc/gc.c], [gc/trace.c])

    What a round of sending, of receiving and of a collection does to the counts of an actor,
    from its first call to its end: no assertion fails, and counts move by what is counted and
    acquired. *)
From stdpp Require Import gmap.
From S2P Require Import Prelude Sum ObjectMap Gc GcCount GcTrace GcMsg.
Local Open Scope Z_scope.
Local Open Scope c_scope.

(** The count of the owner, at its own keys. *)
Definition own_at (self : Z) (g : gc_t) (B : Z) (k : option Z) : Z := if decide (B = self) then own_count g k else 0.

(** What an actor has of a key of [B]: its count of the references of others is what it owes. *)
Definition position (self : Z) (g : gc_t) (B : Z) (k : option Z) : Z :=
  foreign_count g B k - own_at self g B k.

(** Nothing is seen. *)
Definition unmarked (g : gc_t) : Prop :=
  (forall k, own_seen g k = false) /\ (forall B k, foreign_seen g B k = false).

(** Counts of an actor between rounds: well-formed and at most [N]. *)
Record gc_ready (N self : Z) (g : gc_t) : Prop := {
  gr_ok : gc_ok self g;
  gr_positive : positive g;
  gr_fresh : unmarked g;
  gr_own k : own_count g k <= N;
  gr_foreign B k : foreign_count g B k <= N
}.

Lemma foreign_self self g k : gc_ok self g -> foreign_count g self k = 0.
Proof. intros Hg. unfold foreign_count, map_count. by rewrite (ok_self _ _ Hg). Qed.

Lemma own_position self g k : gc_ok self g -> own_count g k = - position self g self k.
Proof. intros Hg. unfold position, own_at. rewrite foreign_self, decide_True by done. lia. Qed.

(** ** Messages

    A message is about counts, or it is one of the program: the calls of the tracing of its
    arguments and, for the proof only, the keys that the sender counted for it. *)
Inductive message :=
| Count (m : gc_msg)
| App (roots : list trace_call) (counted : Z -> option Z -> bool).

Definition app_of (B : Z) (k : option Z) (m : message) : Z :=
  match m with App _ counted => Z.b2z (counted B k) | Count _ => 0 end.
Definition acq_of (k : option Z) (m : message) : Z := match m with Count m => acquires k m | App _ _ => 0 end.
Definition rel_of (k : option Z) (m : message) : Z := match m with Count m => releases k m | App _ _ => 0 end.
Definition message_ok (m : message) : Prop := match m with Count m => msg_ok m | App _ _ => True end.

(** What a message with its target owes for a key of [B], and what it acquires. *)
Definition net (B : Z) (k : option Z) (x : Z * message) : Z :=
  app_of B k x.2 + (if decide (x.1 = B) then rel_of k x.2 - acq_of k x.2 else 0).
Definition gain (B : Z) (k : option Z) (x : Z * message) : Z := if decide (x.1 = B) then acq_of k x.2 else 0.

Definition counts (l : list (Z * gc_msg)) : list (Z * message) := (fun x => (x.1, Count x.2)) <$> l.

Lemma counts_app l1 l2 : counts (l1 ++ l2) = counts l1 ++ counts l2.
Proof. apply fmap_app. Qed.

Lemma counts_net B k l : sum_of (net B k) (counts l) = sum_of (to B (releases k)) l - sum_of (to B (acquires k)) l.
Proof.
  induction l as [|[t m] l IH]; [done|]. change (counts ((t, m) :: l)) with ((t, Count m) :: counts l). cbn [sum_of].
  rewrite IH.
  unfold net, to. cbn. case_decide; lia.
Qed.

Lemma counts_gain B k l : sum_of (gain B k) (counts l) = sum_of (to B (acquires k)) l.
Proof.
  induction l as [|[t m] l IH]; [done|]. change (counts ((t, m) :: l)) with ((t, Count m) :: counts l). cbn [sum_of].
  rewrite IH.
  unfold gain, to. cbn. done.
Qed.

(** A message of the program has no counts. *)
Definition is_app (x : Z * message) : Prop := match x.2 with App _ _ => True | Count _ => False end.

Lemma app_net B k x : is_app x -> net B k x = app_of B k x.2 /\ gain B k x = 0 /\ 0 <= app_of B k x.2.
Proof.
  destruct x as [t [|roots f]]; [done|]. intros _. unfold net, gain. cbn.
  repeat case_decide; destruct (f B k); cbn; lia.
Qed.

Section rounds.
Context {H : Type} `{MH : MarkHeap H} `{ML : !MarkHeapLaws H} `{TY : Types} `{EN : Enumeration}.
Context (actor_noblock : bool) (mem : object_memory).
Abbreviation ctx := (ctx_t H).
Abbreviation run_traces := (run_traces actor_noblock mem).
Abbreviation handlestack := (ponyint_gc_handlestack actor_noblock mem).
Implicit Types c : ctx.

Definition here c : Z -> option Z -> Z := position (current c) (gc c).

Lemma traced_here K c0 c B k :
  gc_ok (current c0) (gc c0) -> traced K c0 c -> exists inc,
    here c B k + moved (mode c0) * Z.b2z (seen c B k) = here c0 B k + inc /\
    acquired c B k = acquired c0 B k + inc /\ 0 <= inc <= acquiring (mode c0) /\
    own_at (current c) (gc c) B k + inc <= own_at (current c0) (gc c0) B k + 256.
Proof.
  intros Hg Ht. pose proof (same_current _ _ (tr_same _ _ _ Ht)) as Ec. pose proof (tr_ok _ _ _ Ht) as Hg'.
  unfold here, position, seen, own_at. rewrite Ec in *.
  assert (0 <= acquiring (mode c0) <= 256 /\ -1 <= moved (mode c0) <= 1) as [? ?] by (by destruct (mode c0)).
  destruct (tr_foreign _ _ _ Ht B k) as (inc & E1 & E2 & E3). case_decide as E.
  - subst B. exists 0. rewrite !foreign_self in * by done. pose proof (tr_own _ _ _ Ht k).
    assert (foreign_seen (gc c) (current c0) k = false) as Hs.
    { unfold foreign_seen, map_seen. by rewrite (ok_self _ _ Hg'). }
    rewrite Hs in *. destruct (own_seen (gc c) k); unfold Z.b2z in *; lia.
  - exists inc. split; [lia|]. split; [done|]. destruct (foreign_seen (gc c) B k); unfold Z.b2z in *; lia.
Qed.

(** The context at the start of a round. *)
Record ctx_ready (N : Z) c : Prop := {
  rd_gc : gc_ready N (current c) (gc c);
  rd_current : current c <> NULL;
  rd_stack : stack c = [];
  rd_acquired B k : 0 <= acquired c B k <= N
}.

Lemma ready_room N c : ctx_ready N c -> N < 2 ^ 62 -> room c.
Proof.
  intros [[_ _ _ R1 R2] _ _ R3] HN B k. specialize (R1 k). specialize (R2 B k). specialize (R3 B k). lia.
Qed.

Lemma ready_traced K N c : ctx_ready N c -> traced K c c.
Proof. intros [[R1 R2 R3 _ _] _ _ _]. by apply traced_start. Qed.

Lemma handle_eq fuel c : current c <> NULL -> handle actor_noblock mem fuel c = handlestack fuel c.
Proof. intros Hc. unfold handle. by apply Z.eqb_neq in Hc as ->. Qed.

(** The calls for the roots, then the stack. *)
Definition trace_roots (fuel : nat) c (roots : list trace_call) : outcome ctx :=
  c ← run_traces c roots; handle actor_noblock mem fuel c.

Definition keys_within (K : Z -> option Z -> Prop) fuel c (roots : list trace_call) : Prop :=
  Forall (call_within mem K) roots /\
  forall c1, run_traces c roots = Ret c1 -> Forall (call_within mem K) (calls_made actor_noblock mem fuel c1).

Lemma trace_roots_traced K N fuel c roots :
  ctx_ready N c -> can_trace mem K c -> keys_within K fuel c roots ->
  match trace_roots fuel c roots with
  | Ret c' => traced K c c' /\ stack c' = []
  | NoFuel => True
  | Abort | Exit => False
  end.
Proof.
  intros Hr Hc [Hk1 Hk2]. unfold trace_roots.
  destruct (run_calls_traced actor_noblock mem K c c roots Hc Hk1 (ready_traced K N c Hr)) as (c1 & E & Ht).
  rewrite E. cbn. rewrite handle_eq.
  - by apply handlestack_traced, Ht; [|apply Hk2].
  - rewrite (same_current _ _ (tr_same _ _ _ Ht)). apply Hr.
Qed.

Lemma trace_roots_fuel fuel fuel' c roots c' :
  trace_roots fuel c roots = Ret c' -> (fuel <= fuel')%nat -> trace_roots fuel' c roots = Ret c'.
Proof.
  unfold trace_roots. destruct (run_traces c roots) as [c1| | |]; try done. cbn. unfold handle. case_match; [done|].
  apply handlestack_fuel.
Qed.

Lemma trace_roots_ends objects width height rank K N c roots :
  finite_memory mem objects width height rank -> ctx_ready N c -> can_trace mem K c -> mode c <> MARK ->
  (forall fuel, keys_within K fuel c roots) -> exists fuel c', trace_roots fuel c roots = Ret c'.
Proof.
  intros Hf Hr Hc Hm Hk. destruct (Hk 0%nat) as [Hk1 _].
  destruct (run_calls_traced actor_noblock mem K c c roots Hc Hk1 (ready_traced K N c Hr)) as (c1 & E & Ht).
  destruct (handlestack_ends actor_noblock mem objects width height rank K c c1 Hf Hc Hm) as (fuel & c' & Hrun);
    [|done|].
  - intros fuel. by apply (Hk fuel).
  - exists fuel, c'. unfold trace_roots. rewrite E. cbn. rewrite handle_eq; [done|].
    rewrite (same_current _ _ (tr_same _ _ _ Ht)). apply Hr.
Qed.

(** After the round the mark is new. *)
Lemma traced_done K N c0 c :
  ctx_ready N c0 -> traced K c0 c -> stack c = [] -> gc_mark (gc c0) < 2 ^ 32 - 2 ->
  ctx_ready (N + 256) (done c) /\ gc_mark (gc (done c)) = gc_mark (gc c0) + 1 /\
  (forall B k, here (done c) B k = here c B k).
Proof.
  intros [Hr1 Hr2 Hr3 Hr4] Ht Hs Hm. pose proof (tr_same _ _ _ Ht) as [S1 S2 S3 S4 S5].
  destruct (ponyint_gc_done_spec (current c) (gc c)) as (D1 & D2 & D3 & D4 & D5 & D6); [apply Ht|lia|].
  assert (0 <= acquiring (mode c0) <= 256 /\ -1 <= moved (mode c0) <= 1 /\
    acquiring (mode c0) - moved (mode c0) <= 256)
    as (Ha & Hmv & Ham) by (by destruct (mode c0)).
  split; [split; [split|..]|split; [cbn [done set_gc gc]; lia|]].
  - done.
  - unfold positive. cbn [done set_gc gc]. rewrite D3. apply Ht.
  - by split.
  - intros k. cbn [done set_gc gc]. rewrite D4, (tr_own _ _ _ Ht). pose proof (gr_own _ _ _ Hr1 k).
    destruct (own_seen _ _); cbn; lia.
  - intros B k. assert (foreign_count (gc (done c)) B k = foreign_count (gc c) B k) as -> by done.
    destruct (tr_foreign _ _ _ Ht B k) as (inc & E1 & _ & E3). pose proof (gr_foreign _ _ _ Hr1 B k).
    destruct (foreign_seen _ _ _); unfold Z.b2z in *; lia.
  - cbn. by rewrite S1.
  - done.
  - intros B k. change (acquired (done c) B k) with (acquired c B k). specialize (Hr4 B k).
    destruct (tr_foreign _ _ _ Ht B k) as (inc & _ & E2 & E3). destruct (foreign_seen _ _ _); unfold Z.b2z in *; lia.
  - intros B k. unfold here, position, own_at, foreign_count. cbn [done set_gc gc current]. by rewrite D3, D4.
Qed.

(** ** Sending *)

Definition counted (fuel : nat) c : Z -> option Z -> bool :=
  match handle actor_noblock mem fuel c with Ret c => seen c | _ => fun _ _ => false end.

(** What the code of a behaviour does to send some messages: [pony_gc_send] is before it. *)
Fixpoint send_messages (fuel : nat) c (msgs : list (Z * list trace_call)) : outcome (ctx * list (Z * message)) :=
  match msgs with
  | [] => Ret (c, [])
  | (target, roots) :: rest =>
      c ← run_traces c roots;
      let m := (target, App roots (counted fuel c)) in
      match rest with
      | [] => c ← pony_send_done actor_noblock mem fuel c; Ret (c, [m])
      | _ :: _ =>
          c ← pony_send_next actor_noblock mem fuel c;
          '(c, l) ← send_messages fuel c rest;
          Ret (c, m :: l)
      end
  end.

(** The same without the end of the round. *)
Fixpoint send_parts (fuel : nat) c (msgs : list (Z * list trace_call)) : outcome (ctx * list (Z * message)) :=
  match msgs with
  | [] => Ret (c, [])
  | (target, roots) :: rest =>
      c ← trace_roots fuel c roots;
      '(c', l) ← send_parts fuel (done c) rest;
      Ret (c', (target, App roots (seen c)) :: l)
  end.

Lemma send_messages_eq fuel c msgs :
  msgs <> [] -> send_messages fuel c msgs = '(c, l) ← send_parts fuel c msgs; Ret (send_acquired ACQUIRE c, l).
Proof.
  revert c. induction msgs as [|[target roots] rest IH]; intros c Hne; [done|]. cbn -[done]. unfold trace_roots.
  destruct (run_traces c roots) as [c1| | |]; try done. cbn -[done].
  unfold pony_send_done, pony_send_next, ponyint_gc_sendacquire, counted.
  destruct (handle actor_noblock mem fuel c1) as [c2| | |]; try (by destruct rest). cbn -[done].
  destruct rest as [|x rest].
  - rewrite send_all_acquired_spec. cbn -[done]. by rewrite !send_acquired_spec.
  - rewrite IH by done. by destruct (send_parts fuel (done c2) (x :: rest)) as [[c3 l]| | |].
Qed.

Lemma anything_within (l : list trace_call) : Forall (call_within mem (fun _ _ => True)) l.
Proof. by apply Forall_forall. Qed.

Lemma can_trace_send N c : ctx_ready N c -> N < 2 ^ 62 -> mode c = SEND -> can_trace mem (fun _ _ => True) c.
Proof. intros Hr HN Em. split; [by left|by eapply ready_room|by rewrite Em|by rewrite Em]. Qed.

Definition at_owner c : Z -> option Z -> Z := own_at (current c) (gc c).

(** A batch of [n] messages. *)
Record batch (N n : Z) c c' (l : list (Z * message)) : Prop := {
  ba_ready : ctx_ready (N + 256 * n) c';
  ba_mode : mode c' = mode c;
  ba_current : current c' = current c;
  ba_sent : sent c' = sent c;
  ba_mark : gc_mark (gc c') = gc_mark (gc c) + n;
  ba_apps : Forall is_app l;
  ba_here B k : here c' B k + sum_of (net B k) l - acquired c' B k = here c B k - acquired c B k;
  ba_own k : own_count (gc c) k <= own_count (gc c') k;
  ba_gain B k : at_owner c' B k + acquired c' B k <= at_owner c B k + acquired c B k + 256 * n
}.

Lemma send_parts_spec fuel msgs : forall N c,
  let n := Z.of_nat (length msgs) in
  ctx_ready N c -> mode c = SEND -> N + 256 * n < 2 ^ 62 -> gc_mark (gc c) + n < 2 ^ 32 - 1 ->
  match send_parts fuel c msgs with
  | Ret (c', l) => batch N n c c' l
  | NoFuel => True
  | Abort | Exit => False
  end.
Proof.
  induction msgs as [|[target roots] rest IH]; intros N c n Hr Em HN Hk.
  { assert (n = 0) as En by done. clearbody n. subst n. cbn [send_parts].
    split; try done; intros; cbn [sum_of]; try lia. by rewrite Z.add_0_r. }
  assert (n = 1 + Z.of_nat (length rest)) as En by (unfold n; cbn [length]; lia). clearbody n. cbn [send_parts].
  pose proof (can_trace_send N c Hr ltac:(lia) Em) as Hc.
  pose proof (trace_roots_traced (fun _ _ => True) N fuel c roots Hr Hc) as Ht.
  destruct (trace_roots fuel c roots) as [c1| | |]; cbn [mbind outcome_bind];
    try (apply Ht; split; [apply anything_within|intros; apply anything_within]).
  destruct Ht as [Ht Hs]; [split; [apply anything_within|intros; apply anything_within]|].
  destruct (traced_done _ N c c1 Hr Ht Hs ltac:(lia)) as (D1 & D2 & D3).
  pose proof (tr_same _ _ _ Ht) as [S1 S2 S3 _ _].
  specialize (IH (N + 256) (done c1) D1 ltac:(cbn; congruence) ltac:(lia) ltac:(lia)).
  destruct (send_parts fuel (done c1) rest) as [[c' l]| | |]; cbn [mbind outcome_bind]; try done.
  destruct IH as [B1 B2 B3 B4 B5 B6 B7 B8 B9]. split.
  - by replace (N + 256 * n) with (N + 256 + 256 * Z.of_nat (length rest)) by lia.
  - by rewrite B2.
  - by rewrite B3.
  - by rewrite B4.
  - rewrite B5. lia.
  - by apply Forall_cons.
  - intros B k. cbn [sum_of]. destruct (traced_here _ _ _ B k (gr_ok _ _ _ (rd_gc _ _ Hr)) Ht) as (inc & E1 & E2 & _).
    specialize (B7 B k). rewrite D3 in B7. change (acquired (done c1) B k) with (acquired c1 B k) in B7.
    rewrite Em in E1. destruct (app_net B k (target, App roots (seen c1)) I) as (-> & _). cbn in *. lia.
  - intros k. etrans; [|apply B8]. change (own_count (gc (done c1)) k) with (own_count (gc c1) k).
    rewrite (tr_own _ _ _ Ht), Em. destruct (own_seen (gc c1) k); cbn; lia.
  - intros B k. destruct (traced_here _ _ _ B k (gr_ok _ _ _ (rd_gc _ _ Hr)) Ht) as (inc & _ & E2 & _ & E3).
    specialize (B9 B k). change (acquired (done c1) B k) with (acquired c1 B k) in B9.
    change (at_owner (done c1) B k) with (at_owner c1 B k) in B9. unfold at_owner in *. lia.
Qed.

(** ** What a round leaves to be sent

    What is acquired comes first. *)
Record round_end (N n self : Z) (g g' : gc_t) (out : list (Z * message)) : Prop := {
  re_ready : gc_ready (N + 256 * n) self g';
  re_mark : gc_mark g' = gc_mark g + n;
  re_position B k : position self g' B k + sum_of (net B k) out = position self g B k;
  re_own k : own_count g k <= own_count g' k;
  re_gain B k : own_at self g' B k + sum_of (gain B k) out <= own_at self g B k + 256 * n;
  re_order : exists l1 l2, out = l1 ++ l2 /\
    (forall x B k, x ∈ l1 -> net B k x <= 0) /\ (forall x B k, x ∈ l2 -> 0 <= net B k x);
  re_msgs : Forall (fun x => message_ok x.2) out
}.

Definition context (self : Z) (g : gc_t) (h : H) : ctx := mk_ctx self SEND [] ∅ g h [].

Lemma context_ready N self g h m : 0 <= N -> self <> NULL -> gc_ready N self g ->
  ctx_ready N (set_mode (context self g h) m).
Proof. intros HN Hs Hg. split; [done..|]. intros B k. unfold acquired, map_count. cbn. by rewrite lookup_empty. Qed.

(** The messages that acquire. *)
Definition acquire_msgs c : list (Z * gc_msg) := (fun x => (x.1, ACQUIRE x.2)) <$> enum (acquire c).

Lemma acquire_msgs_net c x B k :
  (forall B k, 0 <= acquired c B k) -> x ∈ counts (acquire_msgs c) -> net B k x <= 0 /\ message_ok x.2.
Proof.
  intros Ha. pose proof (acquired_ok c Ha) as Hf. rewrite Forall_forall in Hf.
  intros ([t m] & -> & Hy)%list_elem_of_fmap. specialize (Hf _ Hy). split; [|done].
  apply list_elem_of_fmap in Hy as ([t' r] & [= -> ->] & _). unfold net. cbn in *. specialize (Hf k).
  case_decide; lia.
Qed.

Lemma acquire_msgs_sums c B k :
  sum_of (net B k) (counts (acquire_msgs c)) = - acquired c B k /\
  sum_of (gain B k) (counts (acquire_msgs c)) = acquired c B k.
Proof.
  rewrite counts_net, counts_gain. unfold acquire_msgs. rewrite acquired_releases, acquired_amount. split; [lia|done].
Qed.

Lemma send_round_spec fuel N self g h msgs :
  let n := Z.of_nat (length msgs) in
  0 <= N -> self <> NULL -> gc_ready N self g -> N + 256 * n < 2 ^ 62 -> gc_mark g + n < 2 ^ 32 - 1 -> msgs <> [] ->
  match c ← pony_gc_send (context self g h); send_messages fuel c msgs with
  | Ret (c, apps) => round_end N n self g (gc c) (counts (sent c) ++ apps)
  | NoFuel => True
  | Abort | Exit => False
  end.
Proof.
  intros n H0 Hs Hg HN Hm Hne. unfold pony_gc_send, start. cbn [stack context current].
  apply Z.eqb_neq in Hs as Hs'. rewrite Hs'. cbn [mbind outcome_bind]. rewrite send_messages_eq by done.
  pose proof (context_ready N self g h SEND H0 Hs Hg) as Hr. set (c0 := set_mode (context self g h) SEND) in *.
  pose proof (send_parts_spec fuel msgs N c0 Hr eq_refl HN Hm) as Hp.
  destruct (send_parts fuel c0 msgs) as [[c apps]| | |]; cbn [mbind outcome_bind]; try done.
  destruct Hp as [B1 B2 B3 B4 B5 B6 B7 B8 B9]. rewrite send_acquired_spec. cbn [gc sent]. rewrite B4.
  cbn [sent c0 set_mode context app].
  fold (acquire_msgs c). assert (forall B k, 0 <= acquired c B k) as Ha by (intros; by apply B1).
  assert (forall B k, acquired c0 B k = 0) as Hz by (intros; unfold acquired, map_count; cbn;
    by rewrite lookup_empty).
  rewrite Forall_forall in B6. cbn [current c0 set_mode context] in B3. split.
  - pose proof (rd_gc _ _ B1) as G. by rewrite B3 in G.
  - done.
  - intros B k. destruct (acquire_msgs_sums c B k) as [E1 _]. rewrite sum_of_app, E1.
    specialize (B7 B k). rewrite Hz in B7. unfold here in B7. rewrite B3 in B7. cbn in B7. lia.
  - apply B8.
  - intros B k. destruct (acquire_msgs_sums c B k) as [_ E1]. rewrite sum_of_app, E1.
    rewrite (sum_of_ext (gain B k) (fun _ => 0) apps) by (intros x Hx; by apply (app_net B k x), B6).
    assert (forall l : list (Z * message), sum_of (fun _ => 0) l = 0) as -> by (induction l; cbn in *; lia).
    specialize (B9 B k). rewrite Hz in B9. unfold at_owner in B9. rewrite B3 in B9. cbn in B9. lia.
  - exists (counts (acquire_msgs c)), apps. split; [done|]. split.
    + intros x B k Hx. by apply acquire_msgs_net with (B := B) (k := k) in Hx as [? _].
    + intros x B k Hx. destruct (app_net B k x (B6 x Hx)) as (-> & _ & ?). done.
  - apply Forall_app. split; apply Forall_forall; intros x Hx.
    + by apply acquire_msgs_net with (B := 0) (k := None) in Hx as [_ ?].
    + specialize (B6 x Hx). by destruct x as [t [|]].
Qed.

(** ** Receiving *)

Lemma recv_round_spec fuel N self g h roots (K : Z -> option Z -> bool) :
  0 <= N -> self <> NULL -> gc_ready N self g -> N < 2 ^ 62 -> gc_mark g < 2 ^ 32 - 2 ->
  (forall k, K self k = true -> 1 <= own_count g k) ->
  keys_within (fun B k => K B k = true) fuel (set_mode (context self g h) RECV) roots ->
  match c ← pony_gc_recv (context self g h); c ← run_traces c roots; pony_recv_done actor_noblock mem fuel c with
  | Ret c => gc_ready (N + 256) self (gc c) /\ gc_mark (gc c) = gc_mark g + 1 /\ exists counted : Z -> option Z ->
    bool,
      (forall B k, counted B k = true -> K B k = true) /\
      (forall B k, position self (gc c) B k = position self g B k + Z.b2z (counted B k)) /\
      (forall k, own_count (gc c) k <= own_count g k)
  | NoFuel => True
  | Abort | Exit => False
  end.
Proof.
  intros H0 Hs Hg HN Hm HK Hk. unfold pony_gc_recv, start. cbn [stack context current].
  apply Z.eqb_neq in Hs as Hs'. rewrite Hs'. cbn [mbind outcome_bind].
  pose proof (context_ready N self g h RECV H0 Hs Hg) as Hr. set (c0 := set_mode (context self g h) RECV) in *.
  assert (can_trace mem (fun B k => K B k = true) c0) as Hc.
  { split; [by right; left|by eapply ready_room|intros k _; apply HK|done]. }
  pose proof (trace_roots_traced _ N fuel c0 roots Hr Hc Hk) as Ht. unfold trace_roots in Ht. unfold pony_recv_done.
  destruct (run_traces c0 roots) as [c1| | |]; cbn [mbind outcome_bind] in *; try done.
  destruct (handle actor_noblock mem fuel c1) as [c2| | |]; cbn [mbind outcome_bind] in *; try done.
  destruct Ht as [Ht Hst]. destruct (traced_done _ N c0 c2 Hr Ht Hst Hm) as (D1 & D2 & D3).
  pose proof (same_current _ _ (tr_same _ _ _ Ht)) as Ec. cbn in Ec.
  split; [pose proof (rd_gc _ _ D1) as G; change (current (done c2)) with (current c2) in G; by rewrite Ec in G|].
  split; [done|].
  exists (seen c2). split; [|split].
  - intros B k. unfold seen.
    case_decide as E; [rewrite E; apply (tr_own_seen _ _ _ Ht)|apply (tr_foreign_seen _ _ _ Ht)].
  - intros B k. destruct (traced_here _ _ _ B k (gr_ok _ _ _ (rd_gc _ _ Hr)) Ht) as (inc & E1 & _ & E3 & _).
    cbn in E3.
    specialize (D3 B k). unfold here in *. change (current (done c2)) with (current c2) in D3. rewrite Ec in *.
    cbn [moved mode c0 set_mode context current gc] in *. lia.
  - intros k. pose proof (tr_own _ _ _ Ht k) as E. cbn [done set_gc gc].
    assert (own_count (ponyint_gc_done (gc c2)) k = own_count (gc c2) k) as -> by (by destruct k). rewrite E.
    destruct (own_seen (gc c2) k); cbn; lia.
Qed.

(** ** Collecting *)

Lemma traced_heap K c0 c h l :
  (forall q, heap_owns (heap c) q -> heap_owns h q) -> traced K c0 c ->
    traced K c0 (set_ctx_stack (set_ctx_heap c h) l).
Proof. intros Hh [[S1 S2 S3 S4 S5] O P W F K1 K2 K3]. split; try done. split; try done. auto. Qed.

Lemma mark_immutable_spec c p obj :
  (0 < obj_rc obj -> heap_owns (heap c) p) ->
    exists h l, mark_immutable c (p, obj) = Ret (set_ctx_stack (set_ctx_heap c h) l) /\
    forall q, heap_owns (heap c) q -> heap_owns h q.
Proof.
  intros Hp. assert (set_ctx_stack (set_ctx_heap c (heap c)) (stack c) = c) as Eid by (by destruct c).
  unfold mark_immutable.
  destruct (obj_immutable obj && (0 <? obj_rc obj) && negb (might_reference_actor (obj_type obj))) eqn:E.
  - apply andb_true_iff in E as [[_ E%Z.ltb_lt]%andb_true_iff _]. unfold mark_local_object. cbn.
    destruct (heap_mark_law (heap c) p (Hp E)) as (h & b & E1 & Hh). rewrite E1. cbn. exists h. destruct b.
    + exists (stack c). by split; [destruct c|].
    + unfold recurse. destruct (has_trace (obj_type obj)); eexists; (split; [reflexivity|done]).
  - exists (heap c), (stack c). rewrite Eid. done.
Qed.

Lemma markimmutable_traced K c0 c :
  traced K c0 c -> (forall p, 0 < own_count (gc c) (Some p) -> heap_owns (heap c0) p) ->
  exists c', ponyint_gc_markimmutable c = Ret c' /\ traced K c0 c'.
Proof.
  intros Ht Hl. unfold ponyint_gc_markimmutable.
  assert (Forall (fun e => 0 < obj_rc e.2 -> heap_owns (heap c0) e.1) (enum (gc_local (gc c)))) as Hf.
  { apply Forall_forall. intros [p o] Hp%elem_of_enum. cbn. intros H0. apply Hl. cbn. by rewrite Hp. }
  clear Hl. revert c Ht Hf. intros c Ht. generalize (enum (gc_local (gc c))). intros l Hf. revert c Ht.
  induction Hf as [|[p o] l Hp _ IH]; intros c Ht; [by exists c|]. cbn [foldO].
  destruct (mark_immutable_spec c p o) as (h & l' & E & Hh); [intros H0; by apply (tr_same _ _ _ Ht), Hp|].
  rewrite E. cbn [mbind outcome_bind]. by apply IH, traced_heap.
Qed.

Lemma gc_swept self g local foreign delta l :
  gc_ok self g -> local ⊆ gc_local g ->
  (forall p, from_option obj_rc 0 (local !! p) = from_option obj_rc 0 (gc_local g !! p)) ->
  actors_swept mem (gc_mark g) (gc_foreign g) foreign l ->
  let g' := set_delta (set_foreign (set_gc_local g local) foreign) delta in
  gc_ok self g' /\ positive g' /\ (forall k, own_count g' k = own_count g k).
Proof.
  intros [O1 O2 O3 O4 O5 O6] Hl Hc [W1 W2 W3 W4 W5 W6] g'. split; [split; try done|split].
  - by eapply map_Forall_sub.
  - intros B r Hr. by destruct (W1 B r Hr).
  - cbn. by apply W2.
  - intros B r Hr. by destruct (W1 B r Hr).
  - intros [p|]; cbn; [apply Hc|done].
Qed.

(** A collection acquires and then releases. *)
Lemma collect_end N self g g' c l :
  gc_ready N self g -> gc_ok self g' -> positive g' -> gc_mark g' = gc_mark g -> gc_mark g < 2 ^ 32 - 2 ->
  (forall k, own_count g' k = own_count g k) -> (forall B k, 0 <= acquired c B k <= 256) ->
  Forall (fun x => msg_ok x.2) l -> (forall B k, sum_of (to B (acquires k)) l = 0) ->
  (forall B k, foreign_count g' B k + sum_of (to B (releases k)) l = foreign_count g B k + acquired c B k) ->
  round_end N 1 self g (ponyint_gc_done g') (counts (acquire_msgs c ++ l)).
Proof.
  intros Hg Hok Hpos Hm Hlt Hown Hacq Hmsgs Hl0 Hf.
  destruct (ponyint_gc_done_spec self g' Hok) as (D1 & D2 & D3 & D4 & D5 & D6); [lia|].
  assert (forall B k, 0 <= acquired c B k) as Hacq0 by (intros; apply Hacq).
  rewrite Forall_forall in Hmsgs.
  assert (forall x B k, x ∈ l -> 0 <= to B (releases k) x /\ 0 <= to B (acquires k) x) as Hn.
  { intros x B k Hx. unfold to. case_decide; [|done]. specialize (Hmsgs x Hx).
    split; [by apply releases_nonneg|by apply acquires_nonneg]. }
  assert (forall B k, foreign_count (ponyint_gc_done g') B k = foreign_count g' B k) as Hfd by done.
  split.
  - split; [done|unfold positive; by rewrite D3|by split|..].
    + intros k. rewrite D4, Hown. pose proof (gr_own _ _ _ Hg k). lia.
    + intros B k. rewrite Hfd. pose proof (gr_foreign _ _ _ Hg B k). specialize (Hf B k). specialize (Hacq B k).
      pose proof (sum_of_nonneg (to B (releases k)) l ltac:(intros; by apply Hn)).
      lia.
  - lia.
  - intros B k. rewrite counts_app, sum_of_app, (counts_net B k l), Hl0. destruct (acquire_msgs_sums c B k) as [-> _].
    unfold position, own_at. rewrite Hfd, D4, Hown. specialize (Hf B k). lia.
  - intros k. by rewrite D4, Hown.
  - intros B k. rewrite counts_app, sum_of_app, (counts_gain B k l), Hl0.
    destruct (acquire_msgs_sums c B k) as [_ ->].
    unfold own_at. rewrite D4, Hown. specialize (Hacq B k). lia.
  - exists (counts (acquire_msgs c)), (counts l). split; [apply counts_app|]. split.
    + intros x B k Hx. by apply (acquire_msgs_net c x B k Hacq0 Hx).
    + intros x B k ([t m] & -> & Hx)%list_elem_of_fmap. destruct (Hn (t, m) B k Hx) as [H1 H2].
      pose proof (sum_of_in (to B (acquires k)) l (t, m)) as Hin. rewrite Hl0 in Hin.
      specialize (Hin ltac:(intros; by apply Hn) Hx). unfold net, to in *. cbn in *. case_decide; lia.
  - rewrite counts_app. apply Forall_app. split; apply Forall_forall; intros x Hx.
    + by apply (acquire_msgs_net c x 0 None Hacq0).
    + apply list_elem_of_fmap in Hx as ([t m] & -> & Hx). apply (Hmsgs _ Hx).
Qed.

Lemma collect_round_spec fuel N self g h roots :
  0 <= N -> self <> NULL -> gc_ready N self g -> N < 2 ^ 62 -> gc_mark g < 2 ^ 32 - 2 ->
  (forall p, owner mem p = Some self -> heap_owns h p) -> (forall p, 0 < own_count g (Some p) -> heap_owns h p) ->
  (forall a, pendingdestroy mem a = false) ->
  match c ← ponyint_gc_mark (context self g h); c ← run_traces c roots;
    ponyint_mark_done actor_noblock mem fuel c with
  | Ret c => round_end N 1 self g (gc c) (counts (sent c)) /\
      forall p, 0 < own_count g (Some p) -> heap_marked (heap c) p
  | NoFuel => True
  | Abort | Exit => False
  end.
Proof.
  intros H0 Hs Hg HN Hm Hh Hl Hpd. unfold ponyint_gc_mark. cbn [stack context mbind outcome_bind].
  pose proof (context_ready N self g h MARK H0 Hs Hg) as Hr. set (c0 := set_mode (context self g h) MARK) in *.
  assert (can_trace mem (fun _ _ => True) c0) as Hc.
  { split; [by right; right|by eapply ready_room|done|intros _; exact Hh]. }
  destruct (run_calls_traced actor_noblock mem _ c0 c0 roots Hc (anything_within _) (ready_traced _ N c0 Hr)) as (c1
    & E1 & T1).
  rewrite E1. cbn [mbind outcome_bind]. unfold ponyint_mark_done.
  assert (forall c, traced (fun _ _ => True) c0 c -> forall k, own_count (gc c) k = own_count g k) as Hown.
  { intros c Ht k. rewrite (tr_own _ _ _ Ht). cbn. lia. }
  destruct (markimmutable_traced _ c0 c1 T1) as (c2 & E2 & T2); [intros p; rewrite Hown by done; apply Hl|].
  rewrite E2. cbn [mbind outcome_bind].
  pose proof (handlestack_traced actor_noblock mem _ c0 fuel c2 Hc (anything_within _) T2) as T3.
  destruct (handlestack fuel c2) as [c3| | |]; cbn [mbind outcome_bind]; try done. destruct T3 as [T3 St3].
  unfold ponyint_gc_sendacquire. rewrite send_all_acquired_spec, send_acquired_spec. cbn [mbind outcome_bind].
  fold (acquire_msgs c3). pose proof (tr_same _ _ _ T3) as [S1 S2 S3 S4 S5]. pose proof (tr_ok _ _ _ T3) as O3.
  rewrite S1 in O3. cbn in S1, S3, S4. unfold ponyint_gc_sweep. cbn [heap gc].
  destruct (objectmap_sweep_spec (heap c3) (gc_local (gc c3))) as (h' & local & E4 & L1 & L2 & L3).
  { intros p o Hp. by apply (ok_local _ _ O3 p o Hp). }
  { intros p o Hp Hpos. apply S5, Hl. rewrite <- (Hown c3 T3). cbn. by rewrite Hp. }
  rewrite E4. cbn [mbind outcome_bind]. unfold ponyint_gc_sendrelease.
  cbn [gc set_gc set_ctx_heap set_gc_local gc_foreign gc_mark gc_delta].
  destruct (actormap_sweep_spec actor_noblock mem (gc_mark (gc c3)) (gc_foreign (gc c3)) (gc_delta (gc c3)))
    as (foreign & delta & l & E5 & W).
  { intros B r Hr'. split; [by apply (ok_foreign _ _ O3 B r)|by apply (tr_positive _ _ _ T3 B r)]. }
  rewrite E5. cbn [done set_gc add_sent gc sent heap]. rewrite S3. cbn [app].
  destruct (gc_swept self (gc c3) local foreign delta l O3 L1 L2 W) as (G1 & G2 & G3). set (g4 := set_delta _ _) in *.
  change (gc_mark g4) with (gc_mark (gc c3)) in *.
  assert (forall B k, 0 <= acquired c3 B k <= 256 /\
    foreign_count (gc c3) B k = foreign_count g B k + acquired c3 B k) as Hacq.
  { intros B k. destruct (tr_foreign _ _ _ T3 B k) as (inc & A1 & A2 & A3).
    assert (acquired c0 B k = 0) as Hz by (unfold acquired, map_count; cbn; by rewrite lookup_empty).
    change (acquiring (mode c0)) with 256 in A3. change (moved (mode c0)) with 0 in A1. change (gc c0) with g in A1.
    destruct (foreign_seen (gc c3) B k); unfold Z.b2z in *; lia. }
  split; [|intros p; rewrite <- (Hown c3 T3); cbn; intros Hp; destruct (gc_local (gc c3) !! p) as [o|] eqn:Eo;
    [by apply (L3 p o)|done]].
  apply collect_end; try done.
  - intros k. by rewrite G3, Hown.
  - intros B k. apply Hacq.
  - apply (sw_msgs _ _ _ _ _ W).
  - apply (sw_acquires _ _ _ _ _ W).
  - intros B k. destruct (Hacq B k) as [_ <-]. apply (sw_exact _ _ _ _ _ W B k Hpd).
Qed.

(** ** Sending and receiving end *)

Definition finite : Prop := exists objects width height rank, finite_memory mem objects width height rank.

Lemma send_parts_fuel fuel fuel' c msgs r :
  send_parts fuel c msgs = Ret r -> (fuel <= fuel')%nat -> send_parts fuel' c msgs = Ret r.
Proof.
  intros Hrun Hle. revert c r Hrun.
  induction msgs as [|[target roots] rest IH]; intros c r; cbn [send_parts]; [done|].
  destruct (trace_roots fuel c roots) as [c1| | |] eqn:E; try done. rewrite (trace_roots_fuel _ _ _ _ _ E Hle).
  cbn [mbind outcome_bind]. destruct (send_parts fuel (done c1) rest) as [[c2 l]| | |] eqn:E2; try done.
  by rewrite (IH _ _ E2).
Qed.

Lemma send_parts_ends msgs : forall N c,
  let n := Z.of_nat (length msgs) in
  finite -> ctx_ready N c -> mode c = SEND -> N + 256 * n < 2 ^ 62 -> gc_mark (gc c) + n < 2 ^ 32 - 1 ->
  exists fuel r, send_parts fuel c msgs = Ret r.
Proof.
  induction msgs as [|[target roots] rest IH]; intros N c n Hf Hr Em HN Hk; [by exists 0%nat, (c, [])|].
  assert (n = 1 + Z.of_nat (length rest)) as En by (unfold n; cbn [length]; lia). clearbody n.
  pose proof (can_trace_send N c Hr ltac:(lia) Em) as Hc. pose proof Hf as (objects & width & height & rank & Hf').
  assert (forall fuel, keys_within (fun _ _ => True) fuel c roots) as Hw.
  { intros fuel. split; [apply anything_within|intros; apply anything_within]. }
  destruct (trace_roots_ends objects width height rank _ N c roots Hf' Hr Hc) as (f1 & c1 & E1);
    [by rewrite Em|done|].
  pose proof (trace_roots_traced _ N f1 c roots Hr Hc (Hw f1)) as Ht. rewrite E1 in Ht. destruct Ht as [Ht Hs].
  destruct (traced_done _ N c c1 Hr Ht Hs ltac:(lia)) as (D1 & D2 & _).
  pose proof (same_mode _ _ (tr_same _ _ _ Ht)) as S2.
  destruct (IH (N + 256) (done c1)) as (f2 & [c2 l] & E2); [done|done|cbn; congruence|lia|lia|].
  exists (Nat.max f1 f2). cbn [send_parts]. rewrite (trace_roots_fuel f1 _ _ _ _ E1) by lia. cbn [mbind outcome_bind].
  rewrite (send_parts_fuel f2 _ _ _ _ E2) by lia. by eexists.
Qed.

Lemma send_round_ends N self g h msgs :
  let n := Z.of_nat (length msgs) in
  finite -> 0 <= N -> self <> NULL -> gc_ready N self g -> N + 256 * n < 2 ^ 62 -> gc_mark g + n < 2 ^ 32 - 1 ->
    msgs <> [] ->
  exists fuel r, (c ← pony_gc_send (context self g h); send_messages fuel c msgs) = Ret r.
Proof.
  intros n Hf H0 Hs Hg HN Hm Hne. unfold pony_gc_send, start. cbn [stack context current].
  apply Z.eqb_neq in Hs as Hs'. rewrite Hs'. cbn [mbind outcome_bind].
  destruct (send_parts_ends msgs N (set_mode (context self g h) SEND)) as (fuel & [c l] & E); [done| |done..|].
  - by apply context_ready.
  - exists fuel. rewrite send_messages_eq, E by done. by eexists.
Qed.

Lemma recv_round_ends N self g h roots (K : Z -> option Z -> bool) :
  finite -> 0 <= N -> self <> NULL -> gc_ready N self g -> N < 2 ^ 62 -> (forall k, K self k = true ->
    1 <= own_count g k) ->
  (forall fuel, keys_within (fun B k => K B k = true) fuel (set_mode (context self g h) RECV) roots) ->
  exists fuel c, (c ← pony_gc_recv (context self g h); c ← run_traces c roots;
    pony_recv_done actor_noblock mem fuel c) = Ret c.
Proof.
  intros (objects & width & height & rank & Hf) H0 Hs Hg HN HK Hk. unfold pony_gc_recv, start.
  cbn [stack context current].
  apply Z.eqb_neq in Hs as Hs'. rewrite Hs'. cbn [mbind outcome_bind].
  pose proof (context_ready N self g h RECV H0 Hs Hg) as Hr. set (c0 := set_mode (context self g h) RECV) in *.
  assert (can_trace mem (fun B k => K B k = true) c0) as Hc.
  { split; [by right; left|by eapply ready_room|intros k _; apply HK|done]. }
  destruct (trace_roots_ends objects width height rank _ N c0 roots Hf Hr Hc) as (fuel & c' & E); [done|done|].
  exists fuel. unfold trace_roots in E. unfold pony_recv_done.
  destruct (run_traces c0 roots) as [c1| | |]; try done. cbn [mbind outcome_bind] in *. rewrite E. by eexists.
Qed.
End rounds.
