(* ===== verification/GcHeap.v ===== *)
(** * Collecting the heap of an actor ([try_gc] of [actor/actor.c])

    The heap of [Heap.v] is what [Gc.v] needs of a heap: addresses in its objects can be marked.
    Hence a collection, which traces the references of the actor, marks what others count and
    sweeps the heap, keeps every object that others count. *)
From stdpp Require Import gmap.
From S2P Require Import Prelude Store Pool PageMap Chunk ChunkSort Heap HeapInv HeapAlloc HeapSweep HeapGc.
From S2P Require Import Sum ObjectMap Gc GcCount GcTrace GcMsg GcRound.
Local Open Scope Z_scope.
Local Open Scope c_scope.

Section heap.
Context {P M : Type} `{PO : PoolOps P} `{PMO : PageMapOps M} `{FI : Finalisers}.
Context (actor : Z) (uninit : Z -> Z) (heap_initialgc : Z) (nextgc_times : Z -> Z).
Abbreviation state := (state P M).

Definition state_mark (s : state) (p : Z) : outcome (state * bool) :=
  '(s, r) ← run_mark s (Mark p); Ret (s, default false r).
Definition state_mark_shallow (s : state) (p : Z) : outcome state :=
  '(s, _) ← run_mark s (Mark_shallow p); Ret s.

#[export] Instance state_heap : MarkHeap state := {
  heap_mark := state_mark;
  heap_mark_shallow := state_mark_shallow;
  heap_used := ponyint_heap_used
}.

(** The collection of an actor, when the heap has grown enough: its tables, its heap and the
    messages that are sent. *)
Definition try_gc `{TY : Types} `{EN : Enumeration} (actor_noblock : bool) (mem : object_memory) (fuel : nat)
    (g : gc_t) (s : state) (roots : list trace_call) : outcome (gc_t * state * list (Z * gc_msg)) :=
  let (s, started) := ponyint_heap_startgc s in
  if negb started then Ret (g, s, [])
  else
    let num_actor_references := Z.of_nat (base.size (gc_foreign g)) in
    c ← (c ← ponyint_gc_mark (context actor g s);
         c ← run_traces actor_noblock mem c roots;
         ponyint_mark_done actor_noblock mem fuel c);
    let num_actor_references_deleted := num_actor_references ⊟ Z.of_nat (base.size (gc_foreign (gc c))) in
    s ← ponyint_heap_endgc actor uninit heap_initialgc nextgc_times (Gc.heap c) num_actor_references_deleted;
    Ret (gc c, s, sent c).

(** ** The heap that is marked *)
Context (outside : list range) (others : Z -> Z).
Abbreviation heap_ok := (heap_ok (P:=P) (M:=M) outside others).
Abbreviation marking := (marking (P:=P) (M:=M) outside others).

Definition with_used (s : state) (n : Z) : state := Heap.set_heap s (set_used (Heap.heap s) n).

Lemma with_used_ok s n : heap_ok s -> heap_ok (with_used s n).
Proof. intros W. eapply world_state; [exact W|done..|]. by destruct (world_lists_ok _ _ _ _ _ W). Qed.

Section laws.
Context (s0 : state) (W0 : heap_ok s0).

(** The objects at the start of the collection that have an address. *)
Definition object_at (p : Z) (o : heap_object) : Prop := o ∈ heap_objects s0 /\ in_range (o_range o) p.

(** A heap that is being marked. *)
Definition marks_of (s : state) (ext int : gset Z) : Prop := exists n, marking (with_used s0 n) s ext int.
Definition state_owns (s : state) (p : Z) : Prop := (exists ext int, marks_of s ext int) /\ exists o, object_at p o.
Definition state_marked (s : state) (p : Z) : Prop :=
  (exists ext int, marks_of s ext int) /\
  exists o, object_at p o /\ forall ext int, marks_of s ext int -> o_addr o ∈ ext ∪ int.

(** Whether an object is marked is in the chunk. *)
Lemma marks_unique s ext int ext' int' p o :
  marks_of s ext int -> marks_of s ext' int' -> object_at p o -> o_addr o ∈ ext ∪ int -> o_addr o ∈ ext' ∪ int'.
Proof.
  intros [n Hm] [n' Hm'] [Ho Hp] Hin.
  destruct (live_located _ _ _ _ _ _ _ W0 Ho Hp) as (c & k0 & i & _ & _ & Hc & Ek0 & _ & (Hi & Hall & _) & _ & _ &
    Eo).
  destruct (mg_marks _ _ _ _ _ _ Hm c k0 Hc Ek0) as (k & Ek & [_ _ M1]).
  destruct (mg_marks _ _ _ _ _ _ Hm' c k0 Hc Ek0) as (k' & Ek' & [_ _ M2]).
  assert (k' = k) as -> by congruence. subst o. cbn [slot_object o_addr] in *.
  destruct (v_dirty (view k)).
  - destruct M1 as [_ M1]. by destruct (M1 i Hall).
  - destruct (M1 i ltac:(lia)) as [A1 A2], (M2 i ltac:(lia)) as [B1 B2]. rewrite B1 in A1. rewrite B2 in A2.
    rewrite Hall in A1, A2.
    cbn in A1, A2.
    assert (forall (a : Z) (X Y : gset Z), bool_decide (a ∉ X) = bool_decide (a ∉ Y) -> a ∈ Y -> a ∈ X) as Hsame.
    { intros a X Y E Ha. apply dec_stable. intros Hn. rewrite bool_decide_true in E by done. symmetry in E.
      by apply bool_decide_eq_true in E. }
    rewrite elem_of_union in *. destruct Hin; [left|right]; by eapply Hsame.
Qed.

(** A mark of an address of an object. *)
Lemma run_mark_marks s call p :
  mark_address call = p -> state_owns s p ->
  exists s' r, run_mark s call = Ret (s', r) /\ (forall q, state_owns s q -> state_owns s' q) /\
    (forall q, state_marked s q -> state_marked s' q) /\ state_marked s' p.
Proof.
  intros <- [(ext & int & n & Hm) (o & Ho)].
  destruct (run_mark_spec uninit nextgc_times outside others (with_used s0 n) s ext int call o) as (s' & Es & Hm').
  - by apply with_used_ok.
  - done.
  - exact Ho.
  - assert (marks_of s' (mark_ext call o ext) (mark_int call o int)) as Hs' by by exists n.
    assert (exists ext int, marks_of s' ext int) as Hex by by eexists _, _.
    assert (forall a, a ∈ ext ∪ int \/ a = o_addr o -> a ∈ mark_ext call o ext ∪ mark_int call o int) as Hin.
    { intros a Ha. unfold mark_ext, mark_int. destruct call as [q|q]; [destruct (q =? o_addr o)|]; set_solver. }
    eexists _, _. split; [exact Es|]. split; [by intros q [_ Hq]|]. split.
    + intros q [_ (o2 & Ho2 & Hq)]. split; [done|]. exists o2. split; [done|]. intros e i Hei.
      apply (marks_unique s' _ _ _ _ q o2 Hs' Hei Ho2), Hin. left. apply Hq. by exists n.
    + split; [done|]. exists o. split; [exact Ho|]. intros e i Hei.
      apply (marks_unique s' _ _ _ _ _ o Hs' Hei Ho), Hin. by right.
Qed.

#[export] Program Instance state_heap_laws : MarkHeapLaws state := {|
  heap_owns := state_owns;
  heap_marked := state_marked
|}.
Next Obligation.
  intros h p Hp. destruct (run_mark_marks h (Mark p) p eq_refl Hp) as (s & r & E & H1 & _).
  unfold state_mark. cbn. unfold state_mark. rewrite E. cbn. eexists _, _. by split.
Qed.
Next Obligation.
  intros h p Hp. destruct (run_mark_marks h (Mark_shallow p) p eq_refl Hp) as (s & r & E & H1 & H2 & H3).
  cbn. unfold state_mark_shallow. rewrite E. cbn. eexists. split; [done|]. split; [done|]. auto.
Qed.
Next Obligation.
  intros h n q [(ext & int & m & Hm) Hq]. split; [|done]. exists ext, int, (m ⊞ n).
  cbn. unfold ponyint_heap_used, add_used. destruct Hm as [M1 M2 M3 M4 M5 M6]. split; cbn; try done.
  - by rewrite M1.
  - eapply world_state; [exact M4|done..|]. by destruct (world_lists_ok _ _ _ _ _ M4).
Qed.
End laws.

(** ** A collection of the tables and of the heap *)
Context `{TY : Types} `{EN : Enumeration} (actor_noblock : bool) (mem : object_memory).
Context (F : nat) (HF : forall tr p, (List.length (allocations tr p) <= F)%nat).

Definition in_object (s : state) (p : Z) : Prop := exists o, object_at s p o.

Lemma startgc_ok s : heap_ok s -> let s1 := (ponyint_heap_startgc s).1 in
  heap_ok s1 /\ heap_objects s1 = heap_objects s.
Proof.
  intros W s1. unfold s1, ponyint_heap_startgc. destruct (used (Heap.heap s) <=? next_gc (Heap.heap s)); [done|].
  split; [by apply with_used_ok|done].
Qed.

Lemma marks_of_start s : heap_ok s -> marks_of s s ∅ ∅.
Proof.
  intros W. exists (used (Heap.heap s)).
  assert (with_used s (used (Heap.heap s)) = s) as -> by (by destruct s as [? ? ? [] ?]).
  by apply marking_start.
Qed.

(** C15 What others count is not freed: when an actor collects, of each address that it counts
    for others the object is in the heap after the collection as it was before; the tables and
    the heap are well formed again and no assertion fails.  A collection may run out of memory
    in a finaliser that allocates. *)
Theorem counted_objects_survive fuel N g s roots p :
  heap_ok s -> actor <> NULL -> gc_ready N actor g -> 0 <= N < 2 ^ 62 -> gc_mark g < 2 ^ 32 - 2 ->
  (forall q, owner mem q = Some actor -> in_object s q) -> (forall q, 0 < own_count g (Some q) -> in_object s q) ->
  (forall a, pendingdestroy mem a = false) ->
  Z.of_nat (List.length (heap_objects s)) * (1 + Z.of_nat F) <= INT32_MAX ->
  0 < own_count g (Some p) ->
  match try_gc actor_noblock mem fuel g s roots with
  | Ret (g', s', _) => gc_ready (N + 256) actor g' /\ heap_ok s' /\ exists o, object_at s p o /\ object_at s' p o
  | NoFuel | Exit => True
  | Abort => False
  end.
Proof.
  intros W Ha Hg HN Hm Hown Hcount Hpd Hb Hp. unfold try_gc. pose proof (startgc_ok s W) as [W1 E1].
  destruct (ponyint_heap_startgc s) as [s1 []]; cbn [fst negb] in *.
  2: { split; [|split; [done|]]; [|destruct (Hcount p Hp) as [o Ho]; exists o; split; [done|]; destruct Ho; split;
    [by rewrite E1|done]].
       destruct Hg as [R1 R2 R3 R4 R5]. split; try done; intros; [specialize (R4 k)|specialize (R5 B k)]; lia. }
  assert (forall q, in_object s q -> state_owns s1 s1 q) as Howns.
  { intros q (o & Ho & Hq). split; [exists ∅, ∅; by apply marks_of_start|]. exists o. split; [by rewrite E1|done]. }
  pose proof (collect_round_spec (ML := state_heap_laws s1 W1) actor_noblock mem fuel N actor g s1 roots
    (proj1 HN) Ha Hg (proj2 HN) Hm ltac:(intros q Hq; by apply Howns, Hown) ltac:(intros q Hq;
      by apply Howns, Hcount) Hpd) as Hr.
  match type of Hr with match ?o with _ => _ end => destruct o as [c| | |] end; cbn [mbind outcome_bind]; try done.
  destruct Hr as [Hr Hmk]. destruct (Hmk p Hp) as [(ext & int & n & Hmg) (o & Ho & Hin)].
  pose proof (endgc_spec actor uninit heap_initialgc nextgc_times outside others F HF (with_used s1 n) (Gc.heap c)
    ext int
    (with_used_ok s1 n W1) Hmg) as Hend.
  change (heap_objects (with_used s1 n)) with (heap_objects s1) in Hend. rewrite E1 in Hend.
  specialize (Hend (Z.of_nat (base.size (gc_foreign g)) ⊟ Z.of_nat (base.size (gc_foreign (gc c)))) Hb).
  destruct (ponyint_heap_endgc actor uninit heap_initialgc nextgc_times (Gc.heap c) _) as [s3| | |];
    cbn [mbind outcome_bind or_oom] in *;
    try done.
  split; [apply Hr|]. destruct Hend as [H1 (tr & stay & _ & _ & H2 & _)]. split; [done|]. exists o.
  destruct Ho as [Ho Hop]. rewrite E1 in Ho. split; [done|]. split; [|done]. rewrite H2. apply elem_of_app. left.
  apply list_elem_of_filter. split; [|done]. apply Hin. by exists n.
Qed.
End heap.
