(* ===== verification/GcHeapSample.v ===== *)
(** * A collection of the heap of [HeapEnd.v]

    The actor has counted an object of its heap for others; it has no references itself. *)
From stdpp Require Import gmap.
From S2P Require Import Prelude Store Pool PageMap Chunk ChunkSort Heap HeapInv HeapGc HeapEnd.
From S2P Require Import Sum ObjectMap Gc GcCount GcTrace GcMsg GcRound GcHeap.
Local Open Scope Z_scope.
Local Open Scope c_scope.

#[local] Instance collector_enum : Enumeration := {
  enum := fun A m => map_to_list m;
  enum_perm := fun A m => Permutation_refl _
}.

#[local] Instance collector_types : Types := {
  has_dispatch _ := false;
  has_trace _ := false;
  type_might_reference_actor _ := false
}.

Definition counted_address : Z := 134219784.

Definition collector_memory : object_memory := {|
  owner p := if p =? counted_address then Some 7 else None;
  chunk_size _ := 64;
  type_at _ := 3;
  trace_fields _ _ := [];
  pendingdestroy _ := false
|}.

Definition collector_gc : gc_t := mk_gc 1 0 1 {[counted_address := mk_obj 1 0 false 3]} ∅ None.

Lemma collector_local p : gc_local collector_gc !! p = if decide (p = counted_address) then Some (mk_obj 1 0 false 3)
  else None.
Proof.
  unfold collector_gc. cbn [gc_local].
  case_decide as E; [by rewrite E, lookup_singleton_eq|by rewrite lookup_singleton_ne].
Qed.

Lemma collector_ready : gc_ready 256 7 collector_gc.
Proof.
  split; [split|..]; cbn [collector_gc gc_mark gc_rc gc_rc_mark gc_local gc_foreign].
  - lia.
  - lia.
  - unfold mark_ok. lia.
  - by apply map_Forall_singleton.
  - apply map_Forall_empty.
  - apply lookup_empty.
  - apply map_Forall_empty.
  - split; [|done]. intros [p|]; [|done]. unfold own_seen. rewrite collector_local. by case_decide.
  - intros [p|]; [|cbn; lia]. unfold own_count. rewrite collector_local. case_decide; cbn; lia.
  - intros B k. unfold foreign_count, map_count. cbn. rewrite lookup_empty. cbn. lia.
Qed.

Lemma counted_in_object : in_object sample3 counted_address.
Proof. exists (mk_object 134219776 64 true). split; [rewrite sample3_objects; left|].
unfold in_range, o_range, counted_address. cbn. lia. Qed.

Definition collector_result :=
  try_gc (FI := sample_finalisers) 7 sample_uninit 1000 (fun n => 2 * n) false collector_memory 10 collector_gc
    sample3 [].

Lemma counted_objects_survive_witness :
  match collector_result with Ret (_, s, _) => heap_objects s | _ => [] end =
    [mk_object 134219776 64 true; mk_object 134216704 1024 true] /\
  match collector_result with
  | Ret (g', s', _) => gc_ready (256 + 256) 7 g' /\ heap_ok [] (fun _ => NULL) s' /\
      exists o, object_at sample3 counted_address o /\ object_at s' counted_address o
  | NoFuel | Exit => True
  | Abort => False
  end.
Proof.
  split; [vm_compute; reflexivity|].
  assert (forall tr p, (List.length (@allocations sample_finalisers tr p) <= 2)%nat) as HF
    by (intros tr p; cbn; destruct (p =? second); cbn; lia).
  unfold collector_result.
  apply (counted_objects_survive (FI := sample_finalisers) 7 sample_uninit 1000 (fun n => 2 * n) [] (fun _ => NULL)
    false collector_memory 2 HF 10 256 collector_gc sample3 [] counted_address sample3_ok).
  - discriminate.
  - apply collector_ready.
  - lia.
  - cbn [collector_gc gc_mark]. lia.
  - intros q. cbn. destruct (Z.eqb_spec q counted_address) as [->|]; [|done]. intros _. apply counted_in_object.
  - intros q. unfold own_count. rewrite collector_local.
    case_decide as E; [rewrite E; intros _; apply counted_in_object|done].
  - done.
  - rewrite sample3_objects. vm_compute. discriminate.
  - unfold own_count. rewrite collector_local, decide_True by done. cbn. lia.
Defined.

(** ** Marking need not end

    An actor has a reference to an object that is embedded in another one, and the object has a
    reference to itself.  Its address is not that of the memory it is in: marking it does not
    mark it from outside, so that it is never found to be marked. *)
Definition ring_types : Types := {|
  has_dispatch _ := false;
  has_trace _ := true;
  type_might_reference_actor _ := true
|}.

Definition ring_memory : object_memory := {|
  owner p := if p =? counted_address then Some 7 else None;
  chunk_size _ := 64;
  type_at _ := 5;
  trace_fields _ _ := [Traceknown counted_address 5 PONY_TRACE_MUTABLE];
  pendingdestroy _ := false
|}.

Lemma handlestack_loops {H} `{MH : MarkHeap H} `{TY : Types} mem (c : ctx_t H) p t rest :
  Gc.stack c = (p, t) :: rest -> run_traces false mem (set_ctx_stack c rest) (trace_fields mem t p) = Ret c ->
  forall fuel, ponyint_gc_handlestack false mem fuel c = NoFuel.
Proof.
  intros Hs Hc. induction fuel as [|fuel IH]; cbn; rewrite Hs; [done|]. by rewrite Hc.
Qed.

Definition ring_start : ctx_t sample_state :=
  match run_traces (TY := ring_types) false ring_memory (set_mode (context 7 collector_gc (ponyint_heap_startgc
    sample3).1) MARK)
    [Traceknown counted_address 5 PONY_TRACE_MUTABLE] with
  | Ret c => c
  | _ => context 7 collector_gc sample3
  end.

Lemma marking_does_not_end fuel :
  try_gc (FI := sample_finalisers) (TY := ring_types) 7 sample_uninit 1000 (fun n => 2 * n) false ring_memory fuel
    collector_gc sample3 [Traceknown counted_address 5 PONY_TRACE_MUTABLE] = NoFuel.
Proof.
  assert (run_traces (TY := ring_types) false ring_memory (set_mode (context 7 collector_gc (ponyint_heap_startgc
    sample3).1) MARK)
    [Traceknown counted_address 5 PONY_TRACE_MUTABLE] = Ret ring_start) as E1 by (vm_compute; reflexivity).
  assert (ponyint_gc_markimmutable (TY := ring_types) ring_start = Ret ring_start) as E2 by (vm_compute; reflexivity).
  assert (forall fuel, ponyint_gc_handlestack (TY := ring_types) false ring_memory fuel ring_start = NoFuel) as E3.
  { apply handlestack_loops with (p := counted_address) (t := 5) (rest := []); vm_compute; reflexivity. }
  unfold try_gc. assert ((ponyint_heap_startgc sample3).2 = true) as Es by (vm_compute; reflexivity).
  destruct (ponyint_heap_startgc sample3) as [s1 b]. cbn [fst snd] in *. subst b. cbn [negb].
  unfold ponyint_gc_mark. cbn [Gc.stack context mbind outcome_bind]. rewrite E1. cbn [mbind outcome_bind].
  unfold ponyint_mark_done. rewrite E2. cbn [mbind outcome_bind]. by rewrite E3.
Qed.
