(* ===== verification/Orca.v ===== *)
(** * Actors that count references to each other's objects

    A system of actors, each with its tables ([gc_t]), the queue of the messages that it has
    not handled and the messages of its last round that it has still to push, in their order.
    The operations are what the runtime and the code of behaviours do to them with
    [actor/actor.c] ([pony_create], [handle_message], [try_gc]) and [gc/gc.c].  A round has the
    memory and the heap of its time.  Actors are not destroyed. *)
From stdpp Require Import gmap.
From S2P Require Import Prelude Sum ObjectMap Gc GcCount GcTrace GcMsg GcRound.
Local Open Scope Z_scope.
Local Open Scope c_scope.

Record member := mk_member { m_gc : gc_t; m_queue : list message; m_out : list (Z * message) }.
Abbreviation system := (gmap Z member).

Section orca.
Context {H : Type} `{MH : MarkHeap H} `{ML : !MarkHeapLaws H} `{TY : Types} `{EN : Enumeration}.
Context (actor_noblock : bool).

Inductive orca_op :=
| Create (creator : option (Z * H)) (a : Z)
| Send (a : Z) (mem : object_memory) (h : H) (msgs : list (Z * list trace_call))
| Receive (a : Z) (mem : object_memory) (h : H)
| Collect (a : Z) (mem : object_memory) (h : H) (roots : list trace_call)
| Push (a : Z).

Definition get (s : system) (a : Z) : outcome member := match s !! a with Some x => Ret x | None => Abort end.

(** [handle_message] of [actor.c]; a message of the program is received before its behaviour
    runs. *)
Definition handle_message (fuel : nat) (a : Z) (mem : object_memory) (h : H) (g : gc_t) (m : message) : outcome gc_t
  :=
  match m with
  | Count (ACQUIRE r) => Ret (fst (ponyint_gc_acquire g r))
  | Count (RELEASE r) => '(g, _) ← ponyint_gc_release g r; Ret g
  | App roots _ =>
      c ← (c ← pony_gc_recv (context a g h);
           c ← run_traces actor_noblock mem c roots;
           pony_recv_done actor_noblock mem fuel c);
      Ret (gc c)
  end.

Definition run_op (fuel : nat) (o : orca_op) (s : system) : outcome system :=
  match o with
  | Create None a => Ret (<[a := mk_member (new_gc false) [] []]> s)
  | Create (Some (b, h)) a =>
      x ← get s b;
      let (g, _) := ponyint_gc_createactor actor_noblock (m_gc x) h a in
      Ret (<[a := mk_member (new_gc true) [] []]> (<[b := mk_member g (m_queue x) (m_out x)]> s))
  | Send a mem h msgs =>
      x ← get s a;
      '(c, apps) ← (c ← pony_gc_send (context a (m_gc x) h); send_messages actor_noblock mem fuel c msgs);
      Ret (<[a := mk_member (gc c) (m_queue x) (m_out x ++ counts (sent c) ++ apps)]> s)
  | Receive a mem h =>
      x ← get s a;
      match m_queue x with
      | [] => Abort
      | m :: q => g ← handle_message fuel a mem h (m_gc x) m; Ret (<[a := mk_member g q (m_out x)]> s)
      end
  | Collect a mem h roots =>
      x ← get s a;
      c ← (c ← ponyint_gc_mark (context a (m_gc x) h);
           c ← run_traces actor_noblock mem c roots;
           ponyint_mark_done actor_noblock mem fuel c);
      Ret (<[a := mk_member (gc c) (m_queue x) (m_out x ++ counts (sent c))]> s)
  | Push a =>
      x ← get s a;
      match m_out x with
      | [] => Abort
      | (t, m) :: rest =>
          let s := <[a := mk_member (m_gc x) (m_queue x) rest]> s in
          y ← get s t;
          Ret (<[t := mk_member (m_gc y) (m_queue y ++ [m]) (m_out y)]> s)
      end
  end.

(** What the operations are used with.  An actor does nothing else before it has pushed what a
    round has left.  What a receiver traces was counted by the sender, since capabilities do
    not let what a message reaches change on its way.  The page map has an actor for the
    chunks of its heap only, and what others count is not freed. *)
Definition allowed (o : orca_op) (s : system) : Prop :=
  match o with
  | Create None a => a <> NULL /\ s !! a = None
  | Create (Some (b, _)) a => a <> NULL /\ s !! a = None /\ exists x, s !! b = Some x /\ m_out x = []
  | Send a _ _ msgs => msgs <> [] /\ exists x, s !! a = Some x /\ m_out x = []
  | Receive a mem h => exists x m q, s !! a = Some x /\ m_out x = [] /\ m_queue x = m :: q /\
      match m with
      | Count _ => True
      | App roots counted =>
          forall fuel, keys_within actor_noblock mem (fun B k => counted B k = true) fuel
            (set_mode (context a (m_gc x) h) RECV) roots
      end
  | Collect a mem h _ => exists x, s !! a = Some x /\ m_out x = [] /\
      (forall p, owner mem p = Some a -> heap_owns h p) /\
      (forall p, 0 < own_count (m_gc x) (Some p) -> heap_owns h p) /\ forall b, pendingdestroy mem b = false
  | Push a => exists x t m rest, s !! a = Some x /\ m_out x = (t, m) :: rest /\ is_Some (s !! t)
  end.

(** The rounds of an operation: the mark of an actor grows by one in each. *)
Definition rounds (o : orca_op) : Z :=
  match o with Send _ _ _ msgs => Z.of_nat (length msgs) | Push _ => 0 | _ => 1 end.

(** Marks are 32 bits wide. *)
Definition max_rounds : Z := 2 ^ 32 - 3.

(** The systems after [n] rounds. *)
Inductive reach : Z -> system -> Prop :=
| reach_start : reach 0 ∅
| reach_step n s o fuel s' :
    reach n s -> allowed o s -> n + rounds o <= max_rounds -> run_op fuel o s = Ret s' -> reach (n + rounds o) s'.
End orca.
