(* ===== verification/OrcaInv.v ===== *)
(** * Reference counts are never too small

    The invariant of a system of actors: for every key, what its owner has counted and what is
    on its way to the owner are at least what others have and what is in messages; the same
    for what the owner will have counted when it has handled any part of its queue. *)
From stdpp Require Import gmap.
From S2P Require Import Prelude Sum ObjectMap Gc GcCount GcTrace GcMsg GcRound Orca.
Local Open Scope Z_scope.
Local Open Scope c_scope.

(** The messages in the queue of an actor, with their target. *)
Definition inbox (a : Z) (q : list message) : list (Z * message) := (fun m => (a, m)) <$> q.

Definition balance_at (B : Z) (k : option Z) (a : Z) (x : member) : Z :=
  position a (m_gc x) B k + sum_of (net B k) (m_out x) + sum_of (net B k) (inbox a (m_queue x)).
Definition supply_at (B : Z) (k : option Z) (a : Z) (x : member) : Z :=
  own_at a (m_gc x) B k + sum_of (gain B k) (m_out x) + sum_of (gain B k) (inbox a (m_queue x)).

Record member_ok (n a : Z) (x : member) : Prop := {
  mo_name : a <> NULL;
  mo_ready : gc_ready (256 * n) a (m_gc x);
  mo_mark : gc_mark (m_gc x) <= n + 1;
  mo_queue : Forall message_ok (m_queue x);
  mo_out_ok : Forall (fun y => message_ok y.2) (m_out x);
  mo_in k p : p `prefix_of` m_queue x -> sum_of (net a k) (inbox a p) <= own_count (m_gc x) k;
  mo_out B k r : r `suffix_of` m_out x -> 0 <= foreign_count (m_gc x) B k + sum_of (net B k) r
}.

Record orca_ok (n : Z) (s : system) : Prop := {
  so_member : map_Forall (member_ok n) s;
  so_balance B k : sum_map (balance_at B k) s <= 0;
  so_supply B k : sum_map (supply_at B k) s <= 256 * n
}.

(** ** Lists of messages *)

Lemma sum_suffix (f : Z * message -> Z) l1 l2 r :
  (forall x, x ∈ l1 -> f x <= 0) -> (forall x, x ∈ l2 -> 0 <= f x) -> r `suffix_of` l1 ++ l2 ->
  0 <= sum_of f r \/ sum_of f (l1 ++ l2) <= sum_of f r.
Proof.
  intros H1 H2. induction l1 as [|x l1 IH]; cbn [app]; intros Hr.
  - left. apply sum_of_nonneg. destruct Hr as (l & ->). intros x Hx. apply H2. set_solver.
  - destruct Hr as ([|y l] & E); [rewrite E; by right|]. injection E as _ E.
    assert (r `suffix_of` l1 ++ l2) as Hr by by exists l.
    destruct IH as [?|?]; [set_solver|done|by left|right].
    cbn [sum_of]. pose proof (H1 x ltac:(left)). lia.
Qed.

Lemma inbox_cons a m q : inbox a (m :: q) = (a, m) :: inbox a q.
Proof. done. Qed.

Lemma inbox_snoc a q m : inbox a (q ++ [m]) = inbox a q ++ [(a, m)].
Proof. unfold inbox. by rewrite fmap_app. Qed.

Lemma gain_nonneg B k x : message_ok x.2 -> 0 <= gain B k x.
Proof.
  destruct x as [t [m|]]; unfold gain; cbn; intros Hm; case_decide; try done. by apply acquires_nonneg.
Qed.

Lemma gains_nonneg B k l : Forall (fun x => message_ok x.2) l -> 0 <= sum_of (gain B k) l.
Proof. rewrite Forall_forall. intros Hl. apply sum_of_nonneg. intros x Hx. by apply gain_nonneg, Hl. Qed.

Lemma inbox_ok a q : Forall message_ok q -> Forall (fun x => message_ok x.2) (inbox a q).
Proof. intros Hq. by apply Forall_fmap. Qed.

(** In the queue of another actor a message is only of the program. *)
Lemma inbox_other a B k q : a <> B -> 0 <= sum_of (net B k) (inbox a q).
Proof.
  intros Hne. apply sum_of_nonneg. intros [t m] (y & [= -> ->] & _)%list_elem_of_fmap. unfold net. cbn.
  rewrite decide_False by done. destruct y as [|r f]; cbn; [done|]. destruct (f B k); done.
Qed.

Lemma prefix_snoc_cases {A} (p q : list A) m : p `prefix_of` q ++ [m] -> p `prefix_of` q \/ p = q ++ [m].
Proof.
  intros (r & E). destruct r as [|y r _] using rev_ind; [right; by rewrite app_nil_r in E|left].
  rewrite app_assoc in E. apply app_inj_tail in E as [E _]. by exists r.
Qed.

(** ** Parts of the invariant *)

Lemma gc_ready_mono N N' a g : N <= N' -> gc_ready N a g -> gc_ready N' a g.
Proof. intros Hle [R1 R2 R3 R4 R5]. split; try done; intros; [specialize (R4 k)|specialize (R5 B k)]; lia. Qed.

Lemma member_ok_mono n n' a x : n <= n' -> member_ok n a x -> member_ok n' a x.
Proof. intros Hle [M1 M2 M3 M4 M5 M6 M7]. split; try done; [eapply gc_ready_mono; [|done]|]; lia. Qed.

(** An actor changes; its messages and counts stay balanced. *)
Lemma system_ok_update n n' s a x x' :
  s !! a = Some x -> orca_ok n s -> n <= n' -> member_ok n' a x' ->
  (forall B k, balance_at B k a x' <= balance_at B k a x) ->
  (forall B k, supply_at B k a x' <= supply_at B k a x + 256 * (n' - n)) -> orca_ok n' (<[a := x']> s).
Proof.
  intros Ha [S1 S2 S3] Hn Hx Hb Hs. split.
  - apply map_Forall_insert_2; [done|]. intros b y Hy. eapply member_ok_mono; [done|]. by apply (S1 b y).
  - intros B k. rewrite (sum_map_update _ _ _ x) by done. specialize (S2 B k). specialize (Hb B k). lia.
  - intros B k. rewrite (sum_map_update _ _ _ x) by done. specialize (S3 B k). specialize (Hs B k). lia.
Qed.

Lemma member_nonneg n a x k : member_ok n a x -> 0 <= own_count (m_gc x) k.
Proof. intros Hm. eapply own_count_nonneg, (gr_ok _ _ _ (mo_ready _ _ _ Hm)). Qed.

Lemma own_at_nonneg n a x B k : member_ok n a x -> 0 <= own_at a (m_gc x) B k.
Proof. intros Hm. unfold own_at. case_decide; [by eapply member_nonneg|done]. Qed.

Lemma supply_nonneg n a x B k : member_ok n a x -> 0 <= supply_at B k a x.
Proof.
  intros Hm. unfold supply_at. pose proof (own_at_nonneg n a x B k Hm).
  pose proof (gains_nonneg B k _ (mo_out_ok _ _ _ Hm)).
  pose proof (gains_nonneg B k _ (inbox_ok a _ (mo_queue _ _ _ Hm))). lia.
Qed.

Lemma supply_bound n s a x B k : orca_ok n s -> s !! a = Some x -> supply_at B k a x <= 256 * n.
Proof.
  intros Hs Ha. etrans; [|apply (so_supply _ _ Hs B k)]. apply (sum_map_in (supply_at B k)); [|done].
  intros b y Hy. eapply supply_nonneg, (so_member _ _ Hs b y Hy).
Qed.

(** ** Operations of one actor *)

(** A round of sending or of a collection. *)
Lemma round_member n r a x g' out :
  0 <= r -> member_ok n a x -> m_out x = [] -> round_end (256 * n) r a (m_gc x) g' out ->
  let x' := mk_member g' (m_queue x) out in
  member_ok (n + r) a x' /\ (forall B k, balance_at B k a x' = balance_at B k a x) /\
  (forall B k, supply_at B k a x' <= supply_at B k a x + 256 * r).
Proof.
  intros Hr [M1 M2 M3 M4 M5 M6 M7] Ho [E1 E2 E3 E4 E5 E6 E7] x'.
  assert (forall B k, 0 <= foreign_count g' B k + sum_of (net B k) out) as Htot.
  { intros B k. specialize (E3 B k). specialize (E4 k). specialize (M7 B k [] (suffix_nil _)). cbn in M7.
    pose proof (foreign_self a g' k (gr_ok _ _ _ E1)). pose proof (foreign_self a (m_gc x) k (gr_ok _ _ _ M2)).
    unfold position, own_at in E3. case_decide; subst; lia. }
  subst x'. split; [split|split]; cbn [m_gc m_queue m_out]; try done.
  - by replace (256 * (n + r)) with (256 * n + 256 * r) by lia.
  - lia.
  - intros k p Hp. etrans; [by apply M6|apply E4].
  - intros B k l Hl. destruct E6 as (l1 & l2 & -> & H1 & H2). specialize (Htot B k).
    pose proof (foreign_count_nonneg a g' B k (gr_ok _ _ _ E1)).
    assert (0 <= sum_of (net B k) l \/ sum_of (net B k) (l1 ++ l2) <= sum_of (net B k) l) as [?|?]; [|lia..].
    apply sum_suffix; [by intros; apply H1|by intros; apply H2|done].
  - intros B k. unfold balance_at. cbn [m_gc m_queue m_out]. rewrite Ho, <- E3. cbn [sum_of]. lia.
  - intros B k. unfold supply_at. cbn [m_gc m_queue m_out]. rewrite Ho. cbn [sum_of]. specialize (E5 B k). lia.
Qed.

(** The head of the queue has been handled: the tables are those of before with another
    position, and the queue owes less. *)
Lemma receive_member n n' a x g' m q :
  n <= n' -> member_ok n a x -> m_out x = [] -> m_queue x = m :: q -> gc_ready (256 * n') a g' ->
  gc_mark g' <= n' + 1 ->
  (forall B k, position a g' B k <= position a (m_gc x) B k + net B k (a, m)) ->
  (forall k, own_count g' k <= own_count (m_gc x) k + gain a k (a, m)) ->
  let x' := mk_member g' q [] in
  member_ok n' a x' /\ (forall B k, balance_at B k a x' <= balance_at B k a x) /\
  (forall B k, supply_at B k a x' <= supply_at B k a x).
Proof.
  intros Hn [M1 M2 M3 M4 M5 M6 M7] Ho Hq Hg Hm Hpos Hown x'. rewrite Hq in *. apply Forall_cons in M4 as [Mm M4].
  subst x'. split; [split|split]; cbn [m_gc m_queue m_out]; try done.
  - intros k p Hp. specialize (M6 k (m :: p) (prefix_cons _ _ _ Hp)). rewrite inbox_cons in M6. cbn [sum_of] in M6.
    specialize (Hpos a k). pose proof (own_position a g' k (gr_ok _ _ _ Hg)).
    pose proof (own_position a (m_gc x) k (gr_ok _ _ _ M2)). lia.
  - intros B k r ->%suffix_nil_inv. cbn. pose proof (foreign_count_nonneg a g' B k (gr_ok _ _ _ Hg)). lia.
  - intros B k. unfold balance_at. rewrite Ho, Hq, inbox_cons. cbn [m_gc m_queue m_out sum_of]. specialize (Hpos B k).
    lia.
  - intros B k. unfold supply_at, own_at. rewrite Ho, Hq, inbox_cons. cbn [m_gc m_queue m_out sum_of].
    pose proof (gain_nonneg B k (a, m) Mm). case_decide; [subst B; specialize (Hown k)|]; lia.
Qed.

Section operations.
Context {H : Type} `{MH : MarkHeap H} `{ML : !MarkHeapLaws H} `{TY : Types} `{EN : Enumeration}.
Context (actor_noblock : bool).
Abbreviation run_op := (run_op actor_noblock).
Abbreviation handle_message := (handle_message actor_noblock).

Lemma change_ready N N' a g g' f :
  own_change a g g' f -> gc_ready N a g -> N <= N' -> (forall k, own_count g' k <= N') -> gc_ready N' a g'.
Proof.
  intros [C1 C2 C3 C4 C5] [R1 R2 [R3 R4] R5 R6] Hle Hb. split; [by apply C1| | |done|].
  - unfold positive. by rewrite C4.
  - split; [intros k; by rewrite C3|]. intros B k. unfold foreign_seen. rewrite C4, C5. apply R4.
  - intros B k. unfold foreign_count. rewrite C4. specialize (R6 B k). unfold foreign_count in R6. lia.
Qed.

Lemma change_position a g g' f B k :
  own_change a g g' f -> position a g' B k = position a g B k - if decide (B = a) then f k else 0.
Proof.
  intros [C1 C2 C3 C4 C5]. unfold position, own_at, foreign_count. rewrite C4, C2. case_decide; lia.
Qed.

(** The head of a queue does not owe more than the owner has. *)
Lemma head_owed n a x m q k : member_ok n a x -> m_queue x = m :: q -> net a k (a, m) <= own_count (m_gc x) k.
Proof.
  intros Hx Hq. pose proof (mo_in _ _ _ Hx k [m]) as Hi. rewrite Hq in Hi.
  specialize (Hi (prefix_cons _ _ _ (prefix_nil _))).
  cbn in Hi. lia.
Qed.

Lemma head_gain n s a x m q k :
  orca_ok n s -> s !! a = Some x -> m_out x = [] -> m_queue x = m :: q ->
  own_count (m_gc x) k + gain a k (a, m) <= 256 * n.
Proof.
  intros Hs Ha Ho Hq. pose proof (supply_bound n s a x a k Hs Ha) as Hb. pose proof (so_member _ _ Hs a x Ha) as Hx.
  pose proof (inbox_ok a _ (mo_queue _ _ _ Hx)) as Hin. unfold supply_at, own_at in Hb. rewrite Hq, inbox_cons in *.
  apply Forall_cons in Hin as [_ Hin]. apply (gains_nonneg a k) in Hin. rewrite Ho, decide_True in Hb by done.
  cbn [sum_of] in Hb. lia.
Qed.

Definition may_handle (a : Z) (mem : object_memory) (h : H) (g : gc_t) (m : message) : Prop :=
  match m with
  | Count _ => True
  | App roots counted => forall fuel,
      keys_within actor_noblock mem (fun B k => counted B k = true) fuel (set_mode (context a g h) RECV) roots
  end.

Lemma handle_message_ok fuel n s a x m q mem h :
  orca_ok n s -> 0 <= n -> n + 1 <= max_rounds -> s !! a = Some x -> m_out x = [] -> m_queue x = m :: q ->
  may_handle a mem h (m_gc x) m ->
  match handle_message fuel a mem h (m_gc x) m with
  | Ret g' => gc_ready (256 * (n + 1)) a g' /\ gc_mark g' <= n + 2 /\
      (forall B k, position a g' B k <= position a (m_gc x) B k + net B k (a, m)) /\
      (forall k, own_count g' k <= own_count (m_gc x) k + gain a k (a, m))
  | NoFuel => match m with App _ _ => True | Count _ => False end
  | Abort | Exit => False
  end.
Proof.
  intros Hs H0 Hn Ha Ho Hq Hm. unfold max_rounds in Hn. pose proof (so_member _ _ Hs a x Ha) as Hx.
  pose proof (mo_ready _ _ _ Hx) as Hr. pose proof (gr_ok _ _ _ Hr) as Hok. pose proof (mo_mark _ _ _ Hx) as Hmk.
  pose proof (mo_queue _ _ _ Hx) as Hmsg. rewrite Hq in Hmsg. apply Forall_cons in Hmsg as [Hmsg _].
  pose proof (fun k => head_gain n s a x m q k Hs Ha Ho Hq) as Hgain.
  pose proof (fun k => head_owed n a x m q k Hx Hq) as Howed.
  assert (forall (g' : gc_t) f, own_change a (m_gc x) g' f ->
    (forall k, f k = acq_of k m - rel_of k m /\ 0 <= rel_of k m /\ app_of a k m = 0) ->
    (forall B k, app_of B k m = 0) ->
    gc_ready (256 * (n + 1)) a g' /\ gc_mark g' <= n + 2 /\
    (forall B k, position a g' B k <= position a (m_gc x) B k + net B k (a, m)) /\
    (forall k, own_count g' k <= own_count (m_gc x) k + gain a k (a, m))) as Hcount.
  { intros g' f C Hf Happ. assert (forall k, own_count g' k <= own_count (m_gc x) k + gain a k (a, m)) as Hown.
    { intros k. rewrite (oc_count _ _ _ _ C). destruct (Hf k) as (-> & ? & _). unfold gain. cbn. rewrite decide_True
        by done. lia. }
    split; [|split; [rewrite (oc_mark _ _ _ _ C); lia|split; [|done]]].
    - eapply change_ready; [done..|lia|]. intros k. specialize (Hown k). specialize (Hgain k). lia.
    - intros B k. rewrite (change_position _ _ _ _ _ _ C). unfold net. cbn. rewrite Happ. destruct (Hf k) as (-> & _).
      repeat case_decide; try congruence; lia. }
  destruct m as [[r|r]|roots counted]; cbn [handle_message Orca.handle_message].
  - apply (Hcount _ (ref_count r)); [|intros k; cbn; lia|done].
    apply ponyint_gc_acquire_spec; [done..|]. intros k. specialize (Hgain k). unfold gain in Hgain. cbn in Hgain.
    rewrite decide_True in Hgain by done. lia.
  - destruct (ponyint_gc_release_spec a (m_gc x) r Hok Hmsg) as (g' & b & E & C).
    { intros k. specialize (Howed k). unfold net in Howed. cbn in Howed. rewrite decide_True in Howed by done.
      pose proof (gr_own _ _ _ Hr k). lia. }
    rewrite E. cbn [mbind outcome_bind]. apply (Hcount _ _ C); [|done]. intros k. cbn. destruct Hmsg as [Hmsg _].
    specialize (Hmsg k). lia.
  - pose proof (recv_round_spec actor_noblock mem fuel (256 * n) a (m_gc x) h roots counted) as Hround.
    match goal with |- context [mbind _ ?o] => set (round := o) in * end.
    assert (match round with
      | Ret c => gc_ready (256 * n + 256) a (gc c) /\ gc_mark (gc c) = gc_mark (m_gc x) + 1 /\
          exists seen : Z -> option Z -> bool, (forall B k, seen B k = true -> counted B k = true) /\
          (forall B k, position a (gc c) B k = position a (m_gc x) B k + Z.b2z (seen B k)) /\
          (forall k, own_count (gc c) k <= own_count (m_gc x) k)
      | NoFuel => True
      | Abort | Exit => False
      end) as Hr2.
    { apply Hround; try done;
        [lia|apply Hx|lia|lia|]. intros k Hk. specialize (Howed k). unfold net in Howed. cbn in Howed.
      rewrite Hk in Howed. case_decide; cbn in Howed; lia. }
    clearbody round. clear Hround. destruct round as [c| | |]; cbn [mbind outcome_bind]; try done.
    destruct Hr2 as (G1 & G2 & f & F1 & F2 & F3). split; [by replace (256 * (n + 1)) with (256 * n + 256) by lia|].
    split; [lia|]. unfold net, gain. cbn. split.
    + intros B k. rewrite F2.
      destruct (f B k) eqn:Ef; [rewrite (F1 B k Ef)|destruct (counted B k)]; cbn; case_decide; lia.
    + intros k. specialize (F3 k). case_decide; lia.
Qed.

(** *** New actors *)

Lemma new_gc_ready N a created : 256 <= N -> gc_ready N a (new_gc created).
Proof.
  intros HN. assert (exists n, 0 <= n <= 256 /\ new_gc created = mk_gc 1 0 n ∅ ∅ None) as (n & Hn & ->).
  { destruct created; [by exists 256|by exists 0]. }
  split; [split|..]; cbn [gc_mark gc_rc gc_rc_mark gc_local gc_foreign].
  - lia.
  - lia.
  - unfold mark_ok. lia.
  - apply map_Forall_empty.
  - apply map_Forall_empty.
  - apply lookup_empty.
  - apply map_Forall_empty.
  - by split; [intros [p|]|].
  - intros [p|]; cbn; [rewrite lookup_empty; cbn|]; lia.
  - intros B k. unfold foreign_count, map_count. cbn. rewrite lookup_empty. cbn. lia.
Qed.

Lemma new_member n a created : 1 <= n -> a <> NULL -> member_ok n a (mk_member (new_gc created) [] []) /\
  (forall B k, balance_at B k a (mk_member (new_gc created) [] []) =
    - (if decide (B = a /\ k = None) then if created then 256 else 0 else 0)) /\
  (forall B k, supply_at B k a (mk_member (new_gc created) [] []) <= 256).
Proof.
  intros Hn Ha. assert (forall B k, foreign_count (new_gc created) B k = 0) as Hf.
  { intros B k. destruct created; unfold foreign_count, map_count; cbn; by rewrite lookup_empty. }
  assert (forall k, own_count (new_gc created) k = if decide (k = None) then if created then 256 else 0 else 0) as Ho.
  { intros [p|]; destruct created; cbn; by rewrite ?lookup_empty. }
  split; [split|split]; cbn [m_gc m_queue m_out]; try done.
  - apply new_gc_ready. lia.
  - assert (gc_mark (new_gc created) = 1) as -> by (by destruct created). lia.
  - intros k p ->%prefix_nil_inv. cbn. rewrite Ho. destruct created; by case_decide.
  - intros B k r ->%suffix_nil_inv. by rewrite Hf.
  - intros B k. unfold balance_at, position, own_at. cbn. rewrite Hf, Ho. repeat case_decide; try naive_solver lia.
  - intros B k. unfold supply_at, own_at. cbn. rewrite Ho. destruct created; repeat case_decide; lia.
Qed.

Lemma createactor_spec N b g (h : H) a :
  256 <= N -> a <> b -> gc_ready N b g ->
  let g' := fst (ponyint_gc_createactor actor_noblock g h a) in
  gc_ready N b g' /\ gc_mark g' = gc_mark g /\ (forall k, own_count g' k = own_count g k) /\
  (forall B k, foreign_count g' B k = if decide (B = a /\ k = None) then 256 else foreign_count g B k).
Proof.
  intros HN Hne [R1 R2 [R3 R4] R5 R6]. unfold ponyint_gc_createactor.
  destruct (getorput_actor (gc_foreign g) a (gc_mark g)) as (r & -> & Hr). cbn [fst]. rewrite insert_insert_eq.
  set (r' := set_ref_rc r GC_INC_MORE). set (g1 := set_foreign g (<[a := r']> (gc_foreign g))).
  assert (gc_ok b g1 /\ positive g1 /\ unmarked g1 /\ forall B k,
    foreign_count g1 B k = if decide (B = a /\ k = None) then 256 else foreign_count g B k) as (G1 & G2 & G3 & G4).
  { pose proof (ok_mark _ _ R1) as Hm. destruct (ref_ok_alloc (gc_mark g) 0 Hm) as [Hal _].
    assert (ref_ok (gc_mark g) r) as Hok by (destruct Hr as [Hr|[_ ->]]; [by apply (ok_foreign _ _ R1 a r Hr)|done]).
    split; [|split; [|split; [split|]]].
    - apply gc_ok_foreign; [done..|]. by destruct Hok as (? & ? & ?).
    - apply map_Forall_insert_2; [|done]. destruct Hr as [Hr|[_ ->]]; [by apply (R2 a r Hr)|apply map_Forall_empty].
    - done.
    - intros B k. unfold foreign_seen. cbn. rewrite map_seen_insert. case_decide as E; [subst B|apply R4].
      assert (ref_seen (gc_mark g) r' k = ref_seen (gc_mark g) r k) as -> by (by destruct k).
      destruct Hr as [Hr|[_ ->]]; [specialize (R4 a k); unfold foreign_seen, map_seen in R4; by rewrite Hr in R4|].
      destruct k as [p|]; cbn; [by rewrite lookup_empty|]. rewrite old_mark by done. apply Z.eqb_neq. lia.
    - intros B k. unfold foreign_count. cbn. rewrite map_count_insert, (count_default _ a _ r B k Hr).
      destruct (decide (B = a)) as [->|]; [|by rewrite decide_False by tauto]. destruct k as [p|]; cbn.
      + rewrite decide_False by naive_solver. done.
      + by rewrite decide_True. }
  assert (exists d, update_delta actor_noblock g1 a GC_INC_MORE = set_delta g1 d) as (d & ->).
  { unfold update_delta. destruct actor_noblock; [exists (gc_delta g1); by destruct g1|by eexists]. }
  assert (forall B k, foreign_count (set_delta g1 d) B k = foreign_count g1 B k) as Hfd by done.
  split; [split|split; [done|split; [by intros [p|]|]]]; try done.
  - by destruct G1.
  - intros B k. rewrite Hfd, G4. case_decide; [done|apply R6].
Qed.

(** *** Messages move from the actor that sends them to the queue of another *)

(** The message at the head of an outbox is not more than its target can owe. *)
Lemma pushed_owed n s1 t y m k :
  map_Forall (member_ok n) s1 -> s1 !! t = Some y ->
  sum_map (balance_at t k) s1 <= - net t k (t, m) ->
  sum_of (net t k) (inbox t (m_queue y)) + net t k (t, m) <= own_count (m_gc y) k.
Proof.
  intros Hm Hy Hb. pose proof (sum_map_ge (balance_at t k) s1 t y Hy) as Hge.
  assert (balance_at t k t y <= sum_map (balance_at t k) s1) as Hle.
  { apply Hge. intros b z Hz Hne. pose proof (Hm b z Hz) as Hzm. unfold balance_at, position, own_at.
    rewrite decide_False by done. pose proof (mo_out _ _ _ Hzm t k (m_out z) ltac:(done)).
    pose proof (inbox_other b t k (m_queue z) Hne). cbn in *. lia. }
  pose proof (Hm t y Hy) as Hym. pose proof (mo_out _ _ _ Hym t k (m_out y) ltac:(done)) as Hout.
  rewrite (foreign_self t _ k (gr_ok _ _ _ (mo_ready _ _ _ Hym))) in Hout.
  pose proof (own_position t _ k (gr_ok _ _ _ (mo_ready _ _ _ Hym))). unfold balance_at at 1 in Hle. lia.
Qed.

Lemma push_ok_system n s a x t m rest y :
  orca_ok n s -> s !! a = Some x -> m_out x = (t, m) :: rest ->
  let s1 := <[a := mk_member (m_gc x) (m_queue x) rest]> s in
  s1 !! t = Some y ->
  orca_ok n (<[t := mk_member (m_gc y) (m_queue y ++ [m]) (m_out y)]> s1).
Proof.
  intros [S1 S2 S3] Ha Ho s1 Hy. set (x1 := mk_member (m_gc x) (m_queue x) rest) in *.
  pose proof (S1 a x Ha) as [M1 M2 M3 M4 M5 M6 M7]. rewrite Ho in *. apply Forall_cons in M5 as [Mm M5].
  assert (map_Forall (member_ok n) s1) as Hm1.
  { apply map_Forall_insert_2; [|done]. split; cbn [x1 m_gc m_queue m_out]; try done.
    intros B k r Hr. apply M7. by apply suffix_cons_r. }
  assert (forall B k, sum_map (balance_at B k) s1 = sum_map (balance_at B k) s - net B k (t, m)) as Hb1.
  { intros B k. unfold s1. rewrite (sum_map_update _ _ _ x)
      by done. unfold balance_at. cbn [x1 m_gc m_queue m_out]. rewrite Ho. cbn [sum_of]. lia. }
  assert (forall B k, sum_map (supply_at B k) s1 = sum_map (supply_at B k) s - gain B k (t, m)) as Hs1.
  { intros B k. unfold s1. rewrite (sum_map_update _ _ _ x)
      by done. unfold supply_at. cbn [x1 m_gc m_queue m_out]. rewrite Ho. cbn [sum_of]. lia. }
  pose proof (Hm1 t y Hy) as [Y1 Y2 Y3 Y4 Y5 Y6 Y7]. split.
  - apply map_Forall_insert_2; [|done]. split; cbn [m_gc m_queue m_out]; try done.
    + apply Forall_app. split; [done|by apply Forall_singleton].
    + intros k p [Hp| ->]%prefix_snoc_cases; [by apply Y6|]. rewrite inbox_snoc, sum_of_app. cbn [sum_of].
      pose proof (pushed_owed n s1 t y m k Hm1 Hy) as Hp. rewrite Hb1 in Hp. specialize (S2 t k). lia.
  - intros B k. rewrite (sum_map_update _ _ _ y) by done. rewrite Hb1. specialize (S2 B k).
    unfold balance_at at 2 3. cbn [m_gc m_queue m_out]. rewrite inbox_snoc, sum_of_app. cbn [sum_of]. lia.
  - intros B k. rewrite (sum_map_update _ _ _ y) by done. rewrite Hs1. specialize (S3 B k).
    unfold supply_at at 2 3. cbn [m_gc m_queue m_out]. rewrite inbox_snoc, sum_of_app. cbn [sum_of]. lia.
Qed.

(** A new actor. *)
Lemma system_ok_new n s a (created : bool) :
  0 <= n -> s !! a = None -> a <> NULL -> map_Forall (member_ok (n + 1)) s ->
  (forall B k, sum_map (balance_at B k) s <= if decide (B = a /\ k = None) then if created then 256 else 0 else 0) ->
  (forall B k, sum_map (supply_at B k) s <= 256 * n) ->
  orca_ok (n + 1) (<[a := mk_member (new_gc created) [] []]> s).
Proof.
  intros H0 Ha Hn Hm Hb Hs. destruct (new_member (n + 1) a created ltac:(lia) Hn) as (N1 & N2 & N3).
  split; [by apply map_Forall_insert_2|..]; intros B k; rewrite sum_map_new by done.
  - rewrite N2. specialize (Hb B k). lia.
  - specialize (N3 B k). specialize (Hs B k). lia.
Qed.

(** ** Every operation *)

Lemma start_ok : orca_ok 0 ∅.
Proof. split; [apply map_Forall_empty|intros; by rewrite sum_map_empty..]. Qed.

Lemma get_ok s a x : s !! a = Some x -> get s a = Ret x.
Proof. unfold get. by intros ->. Qed.

Lemma system_ok_mono n n' s : n <= n' -> orca_ok n s -> orca_ok n' s.
Proof.
  intros Hle [S1 S2 S3]. split; [|done|].
  - intros a x Hx. by eapply member_ok_mono, S1.
  - intros B k. specialize (S3 B k). lia.
Qed.

(** An operation that is allowed ends well or runs out of fuel. *)
Lemma create_op_ok n fuel creator a s :
  0 <= n -> orca_ok n s -> allowed actor_noblock (Create creator a) s -> n + 1 <= max_rounds ->
  exists s', run_op fuel (Create creator a) s = Ret s' /\ orca_ok (n + 1) s'.
Proof.
  intros H0 Hs Hal Hn. pose proof (system_ok_mono n (n + 1) s ltac:(lia) Hs) as [S1 S2 _].
  destruct creator as [[b h]|]; cbn in Hal; [destruct Hal as (Hne & Ha & x & Hb & Ho)|destruct Hal as [Hne Ha]].
  - cbn [run_op Orca.run_op]. rewrite (get_ok s b x Hb). cbn [mbind outcome_bind].
    assert (a <> b) as Hab by congruence. pose proof (S1 b x Hb) as [M1 M2 M3 M4 M5 M6 M7].
    destruct (createactor_spec (256 * (n + 1)) b (m_gc x) h a ltac:(lia) Hab M2) as (C1 & C2 & C3 & C4).
    destruct (ponyint_gc_createactor actor_noblock (m_gc x) h a) as [g h']. cbn [fst] in *. eexists. split; [done|].
    set (x' := mk_member g (m_queue x) (m_out x)).
    apply (system_ok_new n _ a true); try done.
    + by rewrite lookup_insert_ne.
    + apply map_Forall_insert_2; [|done]. split; cbn [x' m_gc m_queue m_out]; try done.
      * by rewrite C2.
      * intros k p Hp. rewrite C3. by apply M6.
      * intros B k r Hr. rewrite Ho in Hr. apply suffix_nil_inv in Hr as ->. cbn.
        pose proof (foreign_count_nonneg b g B k (gr_ok _ _ _ C1)). lia.
    + intros B k. rewrite (sum_map_update _ _ _ x) by done. specialize (S2 B k).
      unfold balance_at at 2 3. unfold position, own_at. cbn [x' m_gc m_queue m_out]. rewrite C3, C4.
      pose proof (foreign_count_nonneg b (m_gc x) B k (gr_ok _ _ _ M2)). repeat case_decide; lia.
    + intros B k. rewrite (sum_map_update _ _ _ x) by done. pose proof (so_supply _ _ Hs B k).
      unfold supply_at at 2 3. unfold own_at. cbn [x' m_gc m_queue m_out]. rewrite C3. lia.
  - eexists. split; [done|]. apply (system_ok_new n _ a false); try done.
    + intros B k. specialize (S2 B k). case_decide; etrans; try apply S2; done.
    + apply Hs.
Qed.

Lemma run_op_ok n fuel o s :
  0 <= n -> orca_ok n s -> allowed actor_noblock o s -> n + rounds o <= max_rounds ->
  match run_op fuel o s with
  | Ret s' => orca_ok (n + rounds o) s'
  | NoFuel => True
  | Abort | Exit => False
  end.
Proof.
  intros H0 Hs Hal Hn. pose proof (so_member _ _ Hs) as Hmem.
  destruct o as [creator a|a mem h msgs|a mem h|a mem h roots|a].
  - destruct (create_op_ok n fuel creator a s H0 Hs Hal Hn) as (s' & -> & Hs'). done.
  - destruct Hal as (Hne & x & Ha & Ho). cbn [run_op Orca.run_op rounds] in *. rewrite (get_ok s a x Ha).
    cbn [mbind outcome_bind].
    pose proof (Hmem a x Ha) as Hx. unfold max_rounds in Hn. pose proof (mo_mark _ _ _ Hx).
    pose proof (send_round_spec actor_noblock mem fuel (256 * n) a (m_gc x) h msgs ltac:(lia) (mo_name _ _ _ Hx)
      (mo_ready _ _ _ Hx)
      ltac:(lia) ltac:(lia) Hne) as Hr. cbn zeta in Hr.
    match type of Hr with match ?o with _ => _ end => destruct o as [[c apps]| | |] end; cbn [mbind outcome_bind];
      try done.
    destruct (round_member n (Z.of_nat (length msgs)) a x (gc c) _ ltac:(lia) Hx Ho Hr) as (R1 & R2 & R3). rewrite Ho.
    cbn [app].
    eapply system_ok_update; [done..|lia|done| |]; intros B k; [by rewrite R2|]. specialize (R3 B k). lia.
  - destruct Hal as (x & m & q & Ha & Ho & Hq & Hm). cbn [run_op Orca.run_op rounds] in *. rewrite (get_ok s a x Ha).
    cbn [mbind outcome_bind]. rewrite Hq. pose proof (Hmem a x Ha) as Hx.
    pose proof (handle_message_ok fuel n s a x m q mem h Hs H0 Hn Ha Ho Hq Hm) as Hr.
    destruct (handle_message fuel a mem h (m_gc x) m) as [g'| | |]; cbn [mbind outcome_bind]; try done.
    destruct Hr as (G1 & G2 & G3 & G4). rewrite Ho.
    destruct (receive_member n (n + 1) a x g' m q ltac:(lia) Hx Ho Hq G1 ltac:(lia) G3 G4) as (R1 & R2 & R3).
    eapply system_ok_update; [done..|lia|done|done|]. intros B k. specialize (R3 B k). lia.
  - destruct Hal as (x & Ha & Ho & Hh & Hl & Hpd). cbn [run_op Orca.run_op rounds] in *. rewrite (get_ok s a x Ha).
    cbn [mbind outcome_bind]. pose proof (Hmem a x Ha) as Hx. unfold max_rounds in Hn. pose proof (mo_mark _ _ _ Hx).
    pose proof (collect_round_spec actor_noblock mem fuel (256 * n) a (m_gc x) h roots ltac:(lia) (mo_name _ _ _ Hx)
      (mo_ready _ _ _ Hx) ltac:(lia) ltac:(lia) Hh Hl Hpd) as Hr.
    match type of Hr with match ?o with _ => _ end => destruct o as [c| | |] end; cbn [mbind outcome_bind]; try done.
    destruct Hr as [Hr _].
    destruct (round_member n 1 a x (gc c) _ ltac:(lia) Hx Ho Hr) as (R1 & R2 & R3). rewrite Ho. cbn [app].
    eapply system_ok_update; [done..|lia|done| |]; intros B k; [by rewrite R2|]. specialize (R3 B k). lia.
  - destruct Hal as (x & t & m & rest & Ha & Ho & Ht). cbn [run_op Orca.run_op rounds] in *.
    rewrite (get_ok s a x Ha).
    cbn [mbind outcome_bind]. rewrite Ho. rewrite Z.add_0_r. set (s1 := <[a:=_]> s).
    assert (exists y, s1 !! t = Some y) as [y Hy].
    { unfold s1. destruct (decide (t = a)) as [->|]; [eexists;
        apply lookup_insert_eq|]. destruct Ht as [y Hy]. exists y. by rewrite lookup_insert_ne. }
    rewrite (get_ok s1 t y Hy). cbn [mbind outcome_bind]. by apply (push_ok_system n s a x t m rest y).
Qed.

(** ** Sending and receiving end *)

Definition ends (o : orca_op (H := H)) : Prop :=
  match o with Send _ mem _ _ | Receive _ mem _ => finite mem | Collect _ _ _ _ => False | _ => True end.

Lemma exec_ends n o s :
  0 <= n -> orca_ok n s -> allowed actor_noblock o s -> n + rounds o <= max_rounds -> ends o ->
  exists fuel s', run_op fuel o s = Ret s'.
Proof.
  intros H0 Hs Hal Hn He. pose proof (so_member _ _ Hs) as Hmem.
  destruct o as [creator a|a mem h msgs|a mem h|a mem h roots|a].
  - destruct (create_op_ok n 0 creator a s H0 Hs Hal Hn) as (s' & E & _). by exists 0%nat, s'.
  - destruct Hal as (Hne & x & Ha & Ho). cbn [rounds ends] in *. pose proof (Hmem a x Ha) as Hx.
    unfold max_rounds in Hn. pose proof (mo_mark _ _ _ Hx).
    destruct (send_round_ends actor_noblock mem (256 * n) a (m_gc x) h msgs He ltac:(lia) (mo_name _ _ _ Hx)
      (mo_ready _ _ _ Hx) ltac:(lia) ltac:(lia) Hne) as (fuel & [c l] & E).
    exists fuel. cbn [run_op Orca.run_op]. rewrite (get_ok s a x Ha). cbn [mbind outcome_bind].
    change (pony_gc_send (context a (m_gc x) h) ≫= _) with (c ← pony_gc_send (context a (m_gc x) h);
      send_messages actor_noblock mem fuel c msgs).
    rewrite E. by eexists.
  - destruct Hal as (x & m & q & Ha & Ho & Hq & Hm). cbn [rounds ends] in *. pose proof (Hmem a x Ha) as Hx.
    unfold max_rounds in Hn.
    assert (exists fuel g', handle_message fuel a mem h (m_gc x) m = Ret g') as (fuel & g' & E).
    { pose proof (fun fuel => handle_message_ok fuel n s a x m q mem h Hs H0 ltac:(unfold max_rounds;
        lia) Ha Ho Hq Hm) as Hok.
      destruct m as [[r|r]|roots counted].
      - by exists 0%nat; eexists.
      - specialize (Hok 0%nat).
        destruct (handle_message 0 a mem h (m_gc x) (Count (RELEASE r))) as [g| | |] eqn:E; try done.
        by exists 0%nat, g.
      - destruct (recv_round_ends actor_noblock mem (256 * n) a (m_gc x) h roots counted He ltac:(lia) (mo_name _ _ _
          Hx)
          (mo_ready _ _ _ Hx) ltac:(lia)) as (fuel & c & E); [|done|].
        + intros k Hk. pose proof (head_owed n a x _ q k Hx Hq) as Howed. unfold net in Howed. cbn in Howed.
          rewrite Hk in Howed. case_decide; cbn in Howed; lia.
        + exists fuel, (gc c). cbn [handle_message Orca.handle_message]. by rewrite E. }
    exists fuel. cbn [run_op Orca.run_op]. rewrite (get_ok s a x Ha). cbn [mbind outcome_bind]. rewrite Hq, E.
    by eexists.
  - done.
  - pose proof (run_op_ok n 0 (Push a) s H0 Hs Hal Hn) as Hok. exists 0%nat.
    destruct Hal as (x & t & m & rest & Ha & Ho & Ht). cbn [run_op Orca.run_op rounds] in *.
    rewrite (get_ok s a x Ha) in *.
    cbn [mbind outcome_bind] in *. rewrite Ho in *. unfold get in *.
    match goal with |- context [?z !! t] => destruct (z !! t) end; cbn in *; [by eexists|done].
Qed.

Lemma reach_ok n s : reach actor_noblock n s -> 0 <= n /\ orca_ok n s.
Proof.
  induction 1 as [|n s o fuel s' _ [H0 Hs] Hal Hn Hrun]; [split; [done|apply start_ok]|].
  split; [destruct o; cbn; lia|]. pose proof (run_op_ok n fuel o s H0 Hs Hal Hn) as Hok. by rewrite Hrun in Hok.
Qed.
End operations.
