(* ===== verification/OrcaSpec.v ===== *)
(** * The collector of reference counts is safe

    What holds of every system of actors that is reached, for the first rounds of tracing
    until marks wrap around. *)
From stdpp Require Import gmap.
From S2P Require Import Prelude Sum ObjectMap Gc GcCount GcTrace GcMsg GcRound Orca OrcaInv.
Local Open Scope Z_scope.
Local Open Scope c_scope.

(** What others have of a key of [B], and what is on its way to [B] to be added to its count. *)
Definition owed (B : Z) (k : option Z) (e : Z * message) : Z :=
  app_of B k e.2 + (if decide (e.1 = B) then rel_of k e.2 else 0).
Definition owed_at (B : Z) (k : option Z) (a : Z) (x : member) : Z :=
  foreign_count (m_gc x) B k + sum_of (owed B k) (m_out x) + sum_of (owed B k) (inbox a (m_queue x)).
Definition coming_at (B : Z) (k : option Z) (a : Z) (x : member) : Z :=
  sum_of (gain B k) (m_out x) + sum_of (gain B k) (inbox a (m_queue x)).

Lemma net_owed B k l : sum_of (net B k) l = sum_of (owed B k) l - sum_of (gain B k) l.
Proof.
  induction l as [|e l IH]; [done|]. cbn [sum_of]. rewrite IH. unfold net, owed, gain. case_decide; lia.
Qed.

(** ** A round counts what it traces *)
Section exact.
Context {H : Type} `{MH : MarkHeap H} `{ML : !MarkHeapLaws H} `{TY : Types} `{EN : Enumeration}.
Context (actor_noblock : bool) (mem : object_memory).
Implicit Types c : ctx_t H.

(** The calls of trace functions of a round: those for the roots, and those for what these put
    on the stack. *)
Definition traced_calls (fuel : nat) c (roots : list trace_call) : list trace_call :=
  roots ++ match run_traces actor_noblock mem c roots with Ret c => calls_made actor_noblock mem fuel c | _ => [] end.

Definition traced_key (fuel : nat) c (roots : list trace_call) (B : Z) (k : option Z) : Prop :=
  exists call, call ∈ traced_calls fuel c roots /\ call_keys mem call B k.

(** C16 A round of sending or receiving is exact: the keys that are counted are those of the
    actors and objects that are traced, each one once, however often it is traced.  Sending adds
    one to the count of the owner and receiving takes one; an actor that is not the owner loses
    one by sending, or gains one by receiving, and may have acquired more of the owner when it
    would have run out: it has one at least for each key that it has counted. *)
Theorem round_exact N fuel c roots c' :
  ctx_ready N c -> N < 2 ^ 62 -> mode c = SEND \/ mode c = RECV ->
  (mode c = RECV -> forall k, traced_key fuel c roots (current c) k -> 1 <= own_count (gc c) k) ->
  trace_roots actor_noblock mem fuel c roots = Ret c' ->
  (forall B k, seen c' B k = true <-> traced_key fuel c roots B k) /\
  (forall k, own_count (gc c') k = own_count (gc c) k + moved (mode c) * Z.b2z (seen c' (current c) k)) /\
  (forall B k, B <> current c -> exists inc,
    foreign_count (gc c') B k = foreign_count (gc c) B k - moved (mode c) * Z.b2z (seen c' B k) + inc /\
    acquired c' B k = acquired c B k + inc /\ 0 <= inc <= acquiring (mode c) * Z.b2z (seen c' B k) /\
    Z.b2z (seen c' B k) <= foreign_count (gc c') B k).
Proof.
  intros Hr HN Hmd Hown Hrun. set (K := traced_key fuel c roots) in *.
  assert (mode c <> MARK) as Hm by (by destruct Hmd as [-> | ->]).
  assert (can_trace mem K c) as Hc.
  { split; [destruct Hmd; [by left|by right; left]|by eapply ready_room|intros k Em Hk; by apply Hown|done]. }
  assert (forall l, l ⊆ traced_calls fuel c roots -> Forall (call_within mem K) l) as Hw.
  { intros l Hl. apply Forall_forall. intros call Hcall B k Hk. exists call. split; [by apply Hl|done]. }
  assert (Forall (call_within mem K) roots) as Hw1 by (apply Hw; unfold traced_calls; set_solver).
  pose proof (ready_traced K N c Hr) as Ht0.
  assert (owners_seen c) as Ho.
  { intros B p. destruct (gr_fresh _ _ _ (rd_gc _ _ Hr)) as [F1 F2]. unfold seen. by case_decide; rewrite ?F1, ?F2. }
  unfold trace_roots in Hrun. destruct (run_calls_traced actor_noblock mem K c c roots Hc Hw1 Ht0) as (c1 & E1 & Ht1).
  rewrite E1 in Hrun. cbn [mbind outcome_bind] in Hrun.
  rewrite handle_eq in Hrun by (rewrite (same_current _ _ (tr_same _ _ _ Ht1)); apply Hr).
  assert (Forall (call_within mem K) (calls_made actor_noblock mem fuel c1)) as Hw2
    by (apply Hw; unfold traced_calls; rewrite E1; set_solver).
  destruct (calls_see actor_noblock mem K c c roots c1 Hc Hm Hw1 Ht0 Ho E1) as (Ho1 & Hs1 & Hmono1).
  destruct (stack_sees actor_noblock mem K c fuel c1 c' Hc Hm Hw2 Ht1 Ho1 Hrun) as [Hs2 Hmono2].
  pose proof (handlestack_traced actor_noblock mem K c fuel c1 Hc Hw2 Ht1) as Ht. rewrite Hrun in Ht.
  destruct Ht as [Ht _].
  pose proof (same_current _ _ (tr_same _ _ _ Ht)) as Ec. split; [|split].
  - intros B k. split.
    + unfold seen. case_decide as E; [rewrite E; apply (tr_own_seen _ _ _ Ht)|apply (tr_foreign_seen _ _ _ Ht)].
    + intros (call & Hcall & Hk). unfold traced_calls in Hcall. rewrite E1 in Hcall.
      rewrite Forall_forall in Hs1, Hs2.
      apply elem_of_app in Hcall as [Hcall|Hcall]; [by apply Hmono2, (Hs1 call)|by apply (Hs2 call)].
  - intros k. rewrite (tr_own _ _ _ Ht). unfold seen. by rewrite Ec, decide_True.
  - intros B k HB. destruct (tr_foreign _ _ _ Ht B k) as (inc & A1 & A2 & A3). exists inc. unfold seen.
    rewrite Ec, decide_False by done. split; [lia|]. split; [done|]. split; [done|].
    destruct (foreign_seen (gc c') B k) eqn:E; [by apply (tr_kept _ _ _ Ht)|].
    eapply foreign_count_nonneg, (tr_ok _ _ _ Ht).
Qed.
End exact.

Section safe.
Context {H : Type} `{MH : MarkHeap H} `{ML : !MarkHeapLaws H} `{TY : Types} `{EN : Enumeration}.
Context (actor_noblock : bool).
Abbreviation reach := (reach actor_noblock).
Abbreviation allowed := (allowed actor_noblock).
Abbreviation run_op := (run_op actor_noblock).

(** C14 Reference counts cover all references: in every system that is reached, for each actor
    and each of its objects, what the actor has counted, with what is on its way to it in
    messages that acquire, is at least what all other actors have counted, with what is in
    messages of the program and in messages that release, in queues or not yet pushed. *)
Theorem counts_cover n s B y k :
  reach n s -> s !! B = Some y ->
  sum_map (owed_at B k) s <= own_count (m_gc y) k + sum_map (coming_at B k) s.
Proof.
  intros [_ Hs]%reach_ok Hy. pose proof (so_balance _ _ Hs B k) as Hb.
  assert (sum_map (fun a x => own_at a (m_gc x) B k) s = own_count (m_gc y) k) as Hown.
  { rewrite (sum_map_single _ _ _ y Hy); unfold own_at; [by rewrite decide_True|].
    intros a x _ Hne. by rewrite decide_False. }
  assert (sum_map (balance_at B k) s =
    sum_map (fun a x => owed_at B k a x - coming_at B k a x - own_at a (m_gc x) B k) s) as E.
  { apply sum_of_ext. intros [a x] _. cbn. unfold balance_at, owed_at, coming_at, position. rewrite !net_owed. lia. }
  rewrite (sum_map_sub (fun a x => owed_at B k a x - coming_at B k a x)), (sum_map_sub (owed_at B k)), Hown in E. lia.
Qed.

(** C13 No assertion of the collector fails: in every system that is reached, each operation that
    is allowed, creating an actor, sending a batch of messages, handling a message of the
    program or about counts, collecting, and putting a message in a queue, returns a new
    system, or would with more fuel; counts that are taken back never go below zero, whatever
    the order in which actors run, until the marks, of 32 bits, have been used up. *)
Theorem counting_never_fails n s o fuel :
  reach n s -> allowed o s -> n + rounds o <= max_rounds ->
  run_op fuel o s = NoFuel \/ exists s', run_op fuel o s = Ret s' /\ reach (n + rounds o) s'.
Proof.
  intros Hr Hal Hn. pose proof (reach_ok _ _ _ Hr) as [H0 Hs].
  pose proof (run_op_ok actor_noblock n fuel o s H0 Hs Hal Hn) as Hok.
  destruct (run_op fuel o s) as [s'| | |] eqn:E; try done; [right|by left].
  exists s'. split; [done|]. by eapply reach_step.
Qed.

(** C37 Creating, sending and receiving end: when what a message reaches is finite and memory
    that no heap has is not cyclic, enough fuel gives a result; so does putting a message in a
    queue.  (Marking for a collection need not end: [marking_does_not_end] of [GcHeapSample.v].) *)
Theorem sending_ends n s o :
  reach n s -> allowed o s -> n + rounds o <= max_rounds -> ends o -> exists fuel s', run_op fuel o s = Ret s'.
Proof. intros [H0 Hs]%reach_ok Hal Hn He. by apply (exec_ends actor_noblock n). Qed.

(** C38 The tables stay well formed: counts are not negative and too small to wrap around, marks
    are not in the future and nothing has the current mark between rounds, the objects of
    others that are in a table are counted, no actor is in its own table of foreign actors, and
    messages have counts that are not negative. *)
Theorem tables_well_formed n s a x :
  reach n s -> s !! a = Some x ->
  gc_ok a (m_gc x) /\ positive (m_gc x) /\ unmarked (m_gc x) /\ gc_mark (m_gc x) <= n + 1 /\
  (forall B k, 0 <= own_count (m_gc x) k <= 256 * n /\ 0 <= foreign_count (m_gc x) B k <= 256 * n) /\
  Forall message_ok (m_queue x) /\ Forall (fun e => message_ok e.2) (m_out x).
Proof.
  intros [H0 Hs]%reach_ok Ha. destruct (so_member _ _ Hs a x Ha) as [M1 [R1 R2 R3 R4 R5] M3 M4 M5 M6 M7].
  do 4 (split; [done|]). split; [|done]. intros B k.
  split; split; [by eapply own_count_nonneg|done|by eapply foreign_count_nonneg|done].
Qed.
End safe.
