(* ===== verification/OrcaSample.v ===== *)
(** * A system of two actors

    An actor is created by another, which sends it an object that has a field and a reference
    to the receiver; the receiver drops the object, collects, and releases it. *)
From stdpp Require Import gmap.
From S2P Require Import Prelude Sum ObjectMap Gc GcCount GcTrace GcMsg GcRound Orca OrcaInv OrcaSpec.
Local Open Scope Z_scope.
Local Open Scope c_scope.

#[local] Instance sample_enum : Enumeration := {
  enum := fun A m => map_to_list m;
  enum_perm := fun A m => Permutation_refl _
}.

(** Actors have the type 1, objects with fields the type 2. *)
#[local] Instance orca_types : Types := {
  has_dispatch t := t =? 1;
  has_trace t := t =? 2;
  type_might_reference_actor t := t =? 2
}.

#[local] Instance sample_heap : MarkHeap unit := {
  heap_mark _ _ := Ret (tt, false);
  heap_mark_shallow _ _ := Ret tt;
  heap_used _ _ := tt
}.

#[local] Instance sample_heap_laws : MarkHeapLaws unit.
Proof.
  refine {| heap_owns := fun _ _ => True; heap_marked := fun _ _ => True |}.
  - intros h p _. by exists tt, false.
  - intros h p _. by exists tt.
  - done.
Defined.

Definition sample_memory : object_memory := {|
  owner p := if p =? 100 then Some 10 else if p =? 110 then Some 10 else None;
  chunk_size _ := 32;
  type_at p := if p =? 100 then 2 else if p =? 110 then 3 else 1;
  trace_fields t p := if p =? 100 then [Traceknown 110 3 PONY_TRACE_MUTABLE;
    Traceunknown 20 PONY_TRACE_MUTABLE] else [];
  pendingdestroy _ := false
|}.

Definition sample_roots : list trace_call := [Traceknown 100 2 PONY_TRACE_MUTABLE].

Definition sample_ops : list (orca_op (H := unit)) := [
  Create None 10;
  Create (Some (10, tt)) 20;
  Send 10 sample_memory tt [(20, sample_roots)];
  Push 10;
  Receive 20 sample_memory tt;
  Collect 20 sample_memory tt [];
  Push 20;
  Receive 10 sample_memory tt].

Definition orca_sample (n : nat) : system :=
  match foldO (fun s o => run_op false 10 o s) ∅ (take n sample_ops) with Ret s => s | _ => ∅ end.

Definition member_of (s : system) (a : Z) : member := default (mk_member (new_gc false) [] []) (s !! a).

Example sample_counts :
  (fun n => (own_count (m_gc (member_of (orca_sample n) 10)) (Some 100),
    foreign_count (m_gc (member_of (orca_sample n) 20)) 10 (Some 100),
    length (m_queue (member_of (orca_sample n) 10)))) <$> seq 0 9 =
  [(0, 0, 0%nat); (0, 0, 0%nat); (0, 0, 0%nat); (1, 0, 0%nat); (1, 0, 0%nat); (1, 1, 0%nat); (1, 0, 0%nat);
    (1, 0, 1%nat); (0, 0, 0%nat)].
Proof. vm_compute. reflexivity. Qed.

(** The calls that are made are those of the memory. *)
Lemma calls_made_within (K : Z -> option Z -> Prop) (mem : object_memory) fuel (c : ctx_t unit) :
  (forall t p, Forall (call_within mem K) (trace_fields mem t p)) ->
    Forall (call_within mem K) (calls_made false mem fuel c).
Proof.
  intros Hf. revert c.
  induction fuel as [|fuel IH]; intros c; cbn; destruct (stack c) as [|[p t] rest]; try constructor.
  apply Forall_app. split; [apply Hf|]. destruct (run_traces _ _ _ _); [apply IH|constructor..].
Qed.

Definition sample_counted : Z -> option Z -> bool :=
  match m_queue (member_of (orca_sample 4) 20) with App _ f :: _ => f | _ => fun _ _ => false end.

Lemma sample_within (K : Z -> option Z -> Prop) :
  K 10 None -> K 10 (Some 100) -> K 10 (Some 110) -> K 20 None ->
  Forall (call_within sample_memory K) sample_roots /\
    forall t p, Forall (call_within sample_memory K) (trace_fields sample_memory t p).
Proof.
  intros K1 K2 K3 K4. split.
  - apply Forall_singleton. intros B k [Ho Hk]. cbn in Ho. injection Ho as <-. by destruct Hk as [->| ->].
  - intros t p. cbn [trace_fields sample_memory]. destruct (p =? 100); [|constructor].
    constructor; [|apply Forall_singleton].
    + intros B k [Ho Hk]. cbn in Ho. injection Ho as <-. by destruct Hk as [->| ->].
    + intros B k Hk. cbv in Hk. by destruct Hk as [-> ->].
Qed.

Lemma sample_receive : forall fuel, keys_within false sample_memory (fun B k => sample_counted B k = true) fuel
  (set_mode (context 20 (m_gc (member_of (orca_sample 4) 20)) tt) RECV) sample_roots.
Proof.
  intros fuel. destruct (sample_within (fun B k => sample_counted B k = true)) as [H1 H2]; [by vm_compute..|].
  split; [done|]. intros c1 _. by apply calls_made_within.
Qed.

Lemma sample_step n i o :
  reach false n (orca_sample i) -> sample_ops !! i = Some o -> allowed false o (orca_sample i) ->
    n + rounds o <= max_rounds ->
  run_op false 10 o (orca_sample i) = Ret (orca_sample (S i)) -> reach false (n + rounds o) (orca_sample (S i)).
Proof. intros Hr _ Ha Hn E. by eapply reach_step. Qed.

Ltac next_sample n i o := apply (sample_step n i o); [|done| |vm_compute; discriminate|vm_compute; reflexivity].

Lemma sample3_reached : reach false 3 (orca_sample 3).
Proof.
  next_sample 2 2%nat (Send 10 sample_memory tt [(20, sample_roots)]).
  2: { split; [done|]. eexists. split; vm_compute; reflexivity. }
  next_sample 1 1%nat (Create (Some (10, tt)) 20).
  2: { split; [done|]. split; [done|]. eexists. split; vm_compute; reflexivity. }
  next_sample 0 0%nat (Create (H := unit) None 10); [apply reach_start|done].
Qed.

Lemma sample_receive_allowed : allowed false (Receive 20 sample_memory tt) (orca_sample 4).
Proof.
  exists (member_of (orca_sample 4) 20), (App sample_roots sample_counted), []. split; [vm_compute; reflexivity|].
  split; [vm_compute; reflexivity|]. split; [vm_compute; reflexivity|]. apply sample_receive.
Qed.

Lemma sample4_reached : reach false 3 (orca_sample 4).
Proof.
  next_sample 3 3%nat (Push (H := unit) 10); [apply sample3_reached|].
  eexists _, _, _, _. split; [vm_compute; reflexivity|]. split; [vm_compute; reflexivity|]. by eexists; vm_compute.
Qed.

Lemma sample7_reached : reach false 5 (orca_sample 7).
Proof.
  next_sample 5 6%nat (Push (H := unit) 20).
  2: { eexists _, _, _, _. split; [vm_compute; reflexivity|]. split; [vm_compute; reflexivity|]. by eexists;
    vm_compute. }
  next_sample 4 5%nat (Collect 20 sample_memory tt []).
  2: { eexists. split; [vm_compute; reflexivity|]. split; [vm_compute; reflexivity|]. done. }
  next_sample 3 4%nat (Receive 20 sample_memory tt); [apply sample4_reached|].
  apply sample_receive_allowed.
Qed.

Lemma sample_finite : finite sample_memory.
Proof.
  exists [110], 2%nat, 1%nat, (fun _ => 0%nat). split.
  - intros p t. cbn [trace_fields sample_memory]. destruct (p =? 100); [|constructor].
    constructor; [right; right; by left|]. apply Forall_singleton. by left.
  - intros p t. cbn [trace_fields sample_memory]. destruct (p =? 100); cbn; lia.
  - intros p t. cbn [trace_fields sample_memory owner]. destruct (p =? 100); [done|constructor].
  - intros p. lia.
Qed.

(** ** Witnesses *)

Lemma counts_cover_witness :
  reach false 3 (orca_sample 4) /\
  sum_map (owed_at 10 (Some 100)) (orca_sample 4) = 1 /\
  sum_map (owed_at 10 (Some 100)) (orca_sample 4) <=
    own_count (m_gc (member_of (orca_sample 4) 10)) (Some 100) + sum_map (coming_at 10 (Some 100)) (orca_sample 4).
Proof.
  split; [apply sample4_reached|]. split; [vm_compute; reflexivity|].
  apply (counts_cover false 3 (orca_sample 4)); [apply sample4_reached|vm_compute; reflexivity].
Defined.

Lemma counting_never_fails_witness :
  run_op false 10 (Receive 20 sample_memory tt) (orca_sample 4) = NoFuel \/
  exists s', run_op false 10 (Receive 20 sample_memory tt) (orca_sample 4) = Ret s' /\ reach false 4 s'.
Proof.
  apply (counting_never_fails false 3 (orca_sample 4) (Receive 20 sample_memory tt) 10);
    [apply sample4_reached|apply sample_receive_allowed|vm_compute; discriminate].
Defined.

Lemma sending_ends_witness :
  exists fuel s', run_op false fuel (Receive 20 sample_memory tt) (orca_sample 4) = Ret s'.
Proof.
  apply (sending_ends false 3 (orca_sample 4) (Receive 20 sample_memory tt));
    [apply sample4_reached|apply sample_receive_allowed|vm_compute; discriminate|apply sample_finite].
Defined.

Lemma tables_well_formed_witness :
  exists x, orca_sample 7 !! 10 = Some x /\ length (m_queue x) = 1%nat /\
  gc_ok 10 (m_gc x) /\ positive (m_gc x) /\ unmarked (m_gc x) /\ gc_mark (m_gc x) <= 5 + 1 /\
  (forall B k, 0 <= own_count (m_gc x) k <= 256 * 5 /\ 0 <= foreign_count (m_gc x) B k <= 256 * 5) /\
  Forall message_ok (m_queue x) /\ Forall (fun e => message_ok e.2) (m_out x).
Proof.
  exists (member_of (orca_sample 7) 10). split; [vm_compute; reflexivity|]. split; [vm_compute; reflexivity|].
  apply (tables_well_formed false 5 (orca_sample 7)); [apply sample7_reached|vm_compute; reflexivity].
Defined.

Definition sample_context : ctx_t unit := set_mode (context 10 (m_gc (member_of (orca_sample 2) 10)) tt) SEND.
Definition sample_round : ctx_t unit :=
  match trace_roots false sample_memory 10 sample_context sample_roots with Ret c => c | _ => sample_context end.

Lemma sample_ready : ctx_ready 512 sample_context.
Proof.
  assert (reach false 2 (orca_sample 2)) as Hr.
  { next_sample 1 1%nat (Create (Some (10, tt)) 20); [|split; [done|split; [done|eexists; split; vm_compute;
      reflexivity]]].
    next_sample 0 0%nat (Create (H := unit) None 10); [apply reach_start|done]. }
  apply context_ready; [done|done|]. apply reach_ok in Hr as [_ Hs].
  apply (mo_ready 2). apply (so_member _ _ Hs). vm_compute. reflexivity.
Qed.

Lemma round_exact_witness :
  seen sample_round 10 (Some 110) = true /\
  (forall B k, seen sample_round B k = true <-> traced_key false sample_memory 10 sample_context sample_roots B k) /\
  (forall k, own_count (gc sample_round) k =
    own_count (gc sample_context) k + moved SEND * Z.b2z (seen sample_round (current sample_context) k)) /\
  (forall B k, B <> current sample_context -> exists inc,
    foreign_count (gc sample_round) B k = foreign_count (gc sample_context) B k - moved SEND * Z.b2z (seen
      sample_round B k) + inc /\
    acquired sample_round B k = acquired sample_context B k + inc /\
    0 <= inc <= acquiring SEND * Z.b2z (seen sample_round B k) /\
    Z.b2z (seen sample_round B k) <= foreign_count (gc sample_round) B k).
Proof.
  split; [vm_compute; reflexivity|].
  apply (round_exact false sample_memory 512 10 sample_context sample_roots);
    [apply sample_ready|vm_compute; reflexivity|by left|discriminate|vm_compute; reflexivity].
Defined.

(** ** What modelling showed *)

(** An object that is traced as opaque first is not traced again in the round, although the
    message also has it as immutable: its field is not counted.  The other order counts it. *)
Definition both_ways (l : list mutability) : list trace_call := Traceknown 100 2 <$> l.
Definition sample_seen (roots : list trace_call) (p : Z) : option bool :=
  match trace_roots false sample_memory 10 sample_context roots with Ret c => Some (seen c 10 (Some p)) | _ => None
    end.

Lemma opaque_before_immutable :
  sample_seen (both_ways [PONY_TRACE_OPAQUE; PONY_TRACE_IMMUTABLE]) 100 = Some true /\
  sample_seen (both_ways [PONY_TRACE_OPAQUE; PONY_TRACE_IMMUTABLE]) 110 = Some false /\
  sample_seen (both_ways [PONY_TRACE_IMMUTABLE; PONY_TRACE_OPAQUE]) 110 = Some true.
Proof. vm_compute. done. Qed.

(** An actor that received an object as mutable and sends it as immutable traces its field, to
    protect it; the receiver does not, so that the field stays counted by its owner when nothing
    refers to it any more and no message is left. *)
Definition leak_types : Types := {|
  has_dispatch t := t =? 1;
  has_trace t := t =? 2;
  type_might_reference_actor _ := false
|}.

Definition leak_memory : object_memory := {|
  owner p := if p =? 100 then Some 10 else if p =? 110 then Some 10 else None;
  chunk_size _ := 32;
  type_at p := if p =? 100 then 2 else if p =? 110 then 3 else 1;
  trace_fields t p := if p =? 100 then [Traceknown 110 3 PONY_TRACE_MUTABLE] else [];
  pendingdestroy _ := false
|}.

Definition leak_ops : list (orca_op (H := unit)) := [
  Create None 10; Create (Some (10, tt)) 20; Create (Some (10, tt)) 30;
  Send 10 leak_memory tt [(20, both_ways [PONY_TRACE_MUTABLE])]; Push 10; Receive 20 leak_memory tt;
  Send 20 leak_memory tt [(30, both_ways [PONY_TRACE_IMMUTABLE])]; Push 20; Push 20;
  Receive 10 leak_memory tt; Receive 30 leak_memory tt;
  Collect 20 leak_memory tt []; Push 20; Collect 30 leak_memory tt []; Push 30;
  Receive 10 leak_memory tt; Receive 10 leak_memory tt].

Definition leak : system :=
  match foldO (fun s o => run_op (TY := leak_types) false 10 o s) ∅ leak_ops with Ret s => s | _ => ∅ end.

Lemma count_left_over :
  (forall a, a ∈ [10; 20; 30] -> m_queue (member_of leak a) = [] /\ m_out (member_of leak a) = [] /\
    foreign_count (m_gc (member_of leak a)) 10 (Some 110) = 0) /\
  own_count (m_gc (member_of leak 10)) (Some 100) = 0 /\ own_count (m_gc (member_of leak 10)) (Some 110) = 1.
Proof.
  split; [|by vm_compute]. intros a Ha. repeat (apply elem_of_cons in Ha as [->|Ha]; [by vm_compute|]).
  by apply elem_of_nil in Ha.
Qed.
