(* ===== verification/Cycle.v ===== *)
(** * The cycle detector ([gc/cycle.c])

    The detector keeps a view of every actor it has heard of: the count of references to the
    actor, whether it is blocked, and its references to others.  A cycle is perceived when
    trial deletion finds that the counts of blocked actors come from each other; it is
    collected when all of them have confirmed that they are still blocked.

    Views and perceived cycles are shared by pointers, so they are cells of stores.  Tables are
    finite maps from the key of an element to the pointer; an access to a freed cell stops.
    What is done to actors is the list of [events]. *)
From stdpp Require Import gmap.
From S2P Require Import Hash.
From S2P Require Import Prelude Store ChunkSort Sum ObjectMap.
Local Open Scope Z_scope.
Local Open Scope c_scope.

Definition CD_MAX_CHECK_BLOCKED : Z := 1000.

Inductive color_t := COLOR_BLACK | COLOR_GREY | COLOR_WHITE.

#[export] Instance color_eq_dec : EqDecision color_t.
Proof. solve_decision. Defined.

(** [view_t]; the map has the counts of the references ([viewref_t]), by the view that they
    refer to. *)
Record view_t := mk_view {
  v_actor : Z;
  v_rc : Z;
  view_rc : Z;
  v_blocked : bool;
  v_deferred : bool;
  v_color : color_t;
  v_map : gmap Z Z;
  v_perceived : Z
}.

Definition set_v_rc (n : Z) (x : view_t) : view_t :=
  mk_view (v_actor x) n (view_rc x) (v_blocked x) (v_deferred x) (v_color x) (v_map x) (v_perceived x).
Definition set_view_rc (n : Z) (x : view_t) : view_t :=
  mk_view (v_actor x) (v_rc x) n (v_blocked x) (v_deferred x) (v_color x) (v_map x) (v_perceived x).
Definition set_v_blocked (b : bool) (x : view_t) : view_t :=
  mk_view (v_actor x) (v_rc x) (view_rc x) b (v_deferred x) (v_color x) (v_map x) (v_perceived x).
Definition set_v_deferred (b : bool) (x : view_t) : view_t :=
  mk_view (v_actor x) (v_rc x) (view_rc x) (v_blocked x) b (v_color x) (v_map x) (v_perceived x).
Definition set_v_color (c : color_t) (x : view_t) : view_t :=
  mk_view (v_actor x) (v_rc x) (view_rc x) (v_blocked x) (v_deferred x) c (v_map x) (v_perceived x).
Definition set_v_map (m : gmap Z Z) (x : view_t) : view_t :=
  mk_view (v_actor x) (v_rc x) (view_rc x) (v_blocked x) (v_deferred x) (v_color x) m (v_perceived x).
Definition set_v_perceived (p : Z) (x : view_t) : view_t :=
  mk_view (v_actor x) (v_rc x) (view_rc x) (v_blocked x) (v_deferred x) (v_color x) (v_map x) p.

(** [perceived_t]; the map has the views of the cycle by their actors. *)
Record perceived_t := mk_perceived { per_token : Z; per_ack : Z; per_map : gmap Z Z }.

(** What is sent to and done with an actor. *)
Inductive cd_event :=
| CONF (actor token : Z)
| ISBLOCKED (actor : Z)
| FINAL (actor : Z)
| SENDRELEASE (actor : Z)
| DESTROY (actor : Z).

(** [detector_t], with the cells that are allocated, what was done, and the actors that are
    marked as pending destruction. *)
Record detector_t := mk_detector {
  d_cells : gmap Z view_t;
  d_pers : gmap Z perceived_t;
  d_views : gmap Z Z;
  d_deferred : gmap Z Z;
  d_perceived : gmap Z Z;
  next_token : Z;
  last_checked : Z;
  attempted : Z;
  detected : Z;
  collected : Z;
  created : Z;
  destroyed : Z;
  pending : gset Z;
  events : list cd_event
}.

Definition set_cells (m : gmap Z view_t) (d : detector_t) : detector_t :=
  mk_detector m (d_pers d) (d_views d) (d_deferred d) (d_perceived d) (next_token d) (last_checked d) (attempted d)
    (detected d) (collected d) (created d) (destroyed d) (pending d) (events d).
Definition set_pers (m : gmap Z perceived_t) (d : detector_t) : detector_t :=
  mk_detector (d_cells d) m (d_views d) (d_deferred d) (d_perceived d) (next_token d) (last_checked d) (attempted d)
    (detected d) (collected d) (created d) (destroyed d) (pending d) (events d).
Definition set_views (m : gmap Z Z) (d : detector_t) : detector_t :=
  mk_detector (d_cells d) (d_pers d) m (d_deferred d) (d_perceived d) (next_token d) (last_checked d) (attempted d)
    (detected d) (collected d) (created d) (destroyed d) (pending d) (events d).
Definition set_deferred (m : gmap Z Z) (d : detector_t) : detector_t :=
  mk_detector (d_cells d) (d_pers d) (d_views d) m (d_perceived d) (next_token d) (last_checked d) (attempted d)
    (detected d) (collected d) (created d) (destroyed d) (pending d) (events d).
Definition set_perceived (m : gmap Z Z) (d : detector_t) : detector_t :=
  mk_detector (d_cells d) (d_pers d) (d_views d) (d_deferred d) m (next_token d) (last_checked d) (attempted d)
    (detected d) (collected d) (created d) (destroyed d) (pending d) (events d).
Definition set_next_token (n : Z) (d : detector_t) : detector_t :=
  mk_detector (d_cells d) (d_pers d) (d_views d) (d_deferred d) (d_perceived d) n (last_checked d) (attempted d)
    (detected d) (collected d) (created d) (destroyed d) (pending d) (events d).
Definition set_last_checked (n : Z) (d : detector_t) : detector_t :=
  mk_detector (d_cells d) (d_pers d) (d_views d) (d_deferred d) (d_perceived d) (next_token d) n (attempted d)
    (detected d) (collected d) (created d) (destroyed d) (pending d) (events d).
(** The counters of attempts, of cycles detected and collected, of views created and actors
    destroyed. *)
Definition count_events (a de co cr ds : Z) (d : detector_t) : detector_t :=
  mk_detector (d_cells d) (d_pers d) (d_views d) (d_deferred d) (d_perceived d) (next_token d) (last_checked d)
    (attempted d ⊞ a) (detected d ⊞ de) (collected d ⊞ co) (created d ⊞ cr) (destroyed d ⊞ ds) (pending d) (events d).
Definition set_pending (m : gset Z) (d : detector_t) : detector_t :=
  mk_detector (d_cells d) (d_pers d) (d_views d) (d_deferred d) (d_perceived d) (next_token d) (last_checked d)
    (attempted d) (detected d) (collected d) (created d) (destroyed d) m (events d).
Definition add_events (l : list cd_event) (d : detector_t) : detector_t :=
  mk_detector (d_cells d) (d_pers d) (d_views d) (d_deferred d) (d_perceived d) (next_token d) (last_checked d)
    (attempted d) (detected d) (collected d) (created d) (destroyed d) (pending d) (events d ++ l).

(** ** Cells *)

Definition view_at (d : detector_t) (v : Z) : outcome view_t :=
  match d_cells d !! v with Some x => Ret x | None => Abort end.

Definition put_view (d : detector_t) (v : Z) (x : view_t) : detector_t := set_cells (<[v := x]> (d_cells d)) d.

Definition update_view (d : detector_t) (v : Z) (f : view_t -> view_t) : outcome detector_t :=
  x ← view_at d v; Ret (put_view d v (f x)).

Definition per_of (d : detector_t) (p : Z) : outcome perceived_t :=
  match d_pers d !! p with Some x => Ret x | None => Abort end.

(** [viewref_free] leaves the counts of the views that a freed view refers to as they are. *)
Definition view_free (d : detector_t) (v : Z) : outcome detector_t :=
  x ← view_at d v;
  let n := u32 (view_rc x - 1) in
  Ret (if n =? 0 then set_cells (delete v (d_cells d)) d else put_view d v (set_view_rc n x)).

Definition perceived_free (d : detector_t) (p : Z) : detector_t := set_pers (delete p (d_pers d)) d.

Definition empty_view (actor : Z) : view_t := mk_view actor 0 1 false false COLOR_BLACK ∅ NULL.

Definition get_view (d : detector_t) (actor : Z) (create : bool) : outcome (detector_t * Z) :=
  if actor =? NULL then Abort
  else
    match d_views d !! actor with
    | Some v => Ret (d, v)
    | None =>
        if create then
          let v := new_addr (d_cells d) in
          let d := put_view d v (empty_view actor) in
          Ret (count_events 0 0 0 1 0 (set_views (<[actor := v]> (d_views d)) d), v)
        else Ret (d, NULL)
    end.

Section cycle.
Context `{EN : Enumeration}.

(** ** References of a view *)

(** One turn of the loop of [apply_delta]. *)
Definition apply_one (v : Z) (d : detector_t) (delta : Z * Z) : outcome detector_t :=
  let '(actor, rc) := delta in
  '(d, find) ← get_view d actor (0 <? rc);
  if find =? NULL then Ret d
  else
    x ← view_at d v;
    if 0 <? rc then
      match v_map x !! find with
      | None =>
          d ← update_view d v (set_v_map (<[find := rc]> (v_map x)));
          f ← view_at d find;
          Ret (put_view d find (set_view_rc (u32 (view_rc f + 1)) f))
      | Some _ => update_view d v (set_v_map (<[find := rc]> (v_map x)))
      end
    else
      match v_map x !! find with
      | None => Ret d
      | Some _ => d ← update_view d v (set_v_map (delete find (v_map x))); view_free d find
      end.

Definition apply_delta (d : detector_t) (v : Z) (map : option deltamap_t) : outcome detector_t :=
  match map with
  | None => Ret d
  | Some map => foldO (apply_one v) d (enum map)
  end.

(** ** Trial deletion

    The four scans are loops over a stack of references; [visit] is what they do with one and
    says whether the references of its view follow. *)

Definition references (d : detector_t) (v : Z) : list (Z * Z) :=
  match d_cells d !! v with Some x => enum (v_map x) | None => [] end.

Section scan.
Context {S : Type} (det : S -> detector_t) (visit : Z -> Z -> S -> outcome (bool * S)).

Fixpoint scan (fuel : nat) (stack : list (Z * Z)) (s : S) : outcome S :=
  match stack with
  | [] => Ret s
  | (v, rc) :: stack =>
      match fuel with
      | O => NoFuel
      | Datatypes.S fuel =>
          '(follow, s) ← visit v rc s;
          scan fuel (if follow : bool then rev (references (det s) v) ++ stack else stack) s
      end
  end.
End scan.

(** A scan follows the references of a view once. *)
Definition scan_fuel (d : detector_t) : nat :=
  S (Z.to_nat (sum_map (fun _ x => Z.of_nat (size (v_map x))) (d_cells d))).

Definition mark_grey (v rc : Z) (d : detector_t) : outcome (bool * detector_t) :=
  x ← view_at d v;
  if negb (v_blocked x) then Ret (false, d)
  else
    let (d, x) :=
      if v_deferred x then (set_deferred (delete (v_actor x) (d_deferred d)) d, set_v_deferred false x) else (d, x) in
    let x := set_v_rc (v_rc x ⊟ rc) x in
    match v_color x with
    | COLOR_GREY => Ret (false, put_view d v x)
    | COLOR_WHITE => Abort
    | COLOR_BLACK => Ret (true, put_view d v (set_v_color COLOR_GREY x))
    end.

Definition scan_grey (d : detector_t) (v rc : Z) : outcome detector_t :=
  scan id mark_grey (scan_fuel d) [(v, rc)] d.

(** The state of a scan that counts. *)
Abbreviation counting := (detector_t * Z)%type.

Definition mark_black (v rc : Z) (s : counting) : outcome (bool * counting) :=
  let '(d, count) := s in
  x ← view_at d v;
  if negb (v_blocked x) then
    if decide (v_color x = COLOR_BLACK) then Ret (false, s) else Abort
  else
    let x := set_v_rc (v_rc x ⊞ rc) x in
    if decide (v_color x = COLOR_BLACK) then Ret (false, (put_view d v x, count))
    else
      count ← (if decide (v_color x = COLOR_WHITE) then int32 (count + 1) else Ret count);
      Ret (true, (put_view d v (set_v_color COLOR_BLACK x), count)).

Definition scan_black (d : detector_t) (v rc : Z) : outcome counting :=
  scan fst mark_black (scan_fuel d) [(v, rc)] (d, 0).

Definition mark_white (v rc : Z) (s : counting) : outcome (bool * counting) :=
  let '(d, count) := s in
  x ← view_at d v;
  if negb (bool_decide (v_color x = COLOR_GREY)) then Ret (false, s)
  else if negb (v_blocked x) then Abort
  else if 0 <? v_rc x then
    '(d, n) ← scan_black d v 0;
    Ret (false, (d, count - n))
  else if v_perceived x =? NULL then
    count ← int32 (count + 1);
    Ret (true, (put_view d v (set_v_color COLOR_WHITE x), count))
  else Abort.

Definition scan_white (d : detector_t) (v : Z) : outcome counting :=
  scan fst mark_white (scan_fuel d) [(v, 0)] (d, 0).

Definition collect_view (per : Z) (v rc : Z) (s : counting) : outcome (bool * counting) :=
  let '(d, count) := s in
  x ← view_at d v;
  d ← (if decide (v_color x = COLOR_WHITE) then
         if v_deferred x || negb (v_perceived x =? NULL) then Abort
         else
           p ← per_of d per;
           let p := mk_perceived (per_token p) (per_ack p) (<[v_actor x := v]> (per_map p)) in
           Ret (set_pers (<[per := p]> (d_pers d)) (put_view d v (set_v_perceived per x)))
       else Ret d);
  mark_black v rc (d, count).

Definition collect_white (d : detector_t) (per v rc : Z) : outcome counting :=
  scan fst (collect_view per) (scan_fuel d) [(v, rc)] (d, 0).

Definition send_conf (d : detector_t) (p : perceived_t) : outcome detector_t :=
  foldO (fun d '(_, v) => x ← view_at d v; Ret (add_events [CONF (v_actor x) (per_token p)] d)) d (enum (per_map p)).

Definition detect (d : detector_t) (v : Z) : outcome (bool * detector_t) :=
  x ← view_at d v;
  if negb (v_perceived x =? NULL) then Abort
  else
    d ← scan_grey d v 0;
    '(d, count) ← scan_white d v;
    if count <? 0 then Abort
    else if count =? 0 then Ret (false, d)
    else
      let d := count_events 0 1 0 0 0 d in
      let per := new_addr (d_pers d) in
      let token := next_token d in
      let d := set_next_token (token ⊞ 1) d in
      let d := set_pers (<[per := mk_perceived token 0 ∅]> (d_pers d)) d in
      let d := set_perceived (<[token := per]> (d_perceived d)) d in
      '(d, count2) ← collect_white d per v 0;
      p ← per_of d per;
      if (count2 =? count) && (Z.of_nat (size (per_map p)) =? count) then
        d ← send_conf d p; Ret (true, d)
      else Abort.

(** The views of the table, from the place that the last one has left: the loop takes the next
    one until none is left ([removeindex] and [i--]).  Removals shift only what has not been
    passed. *)
Fixpoint deferred_loop (fuel : nat) (d : detector_t) : outcome detector_t :=
  match enum (d_deferred d) with
  | [] => Ret d
  | (actor, v) :: _ =>
      match fuel with
      | O => NoFuel
      | Datatypes.S fuel =>
          x ← view_at d v;
          if negb (v_deferred x) then Abort
          else
            let d := set_deferred (delete actor (d_deferred d)) d in
            let d := put_view d v (set_v_deferred false x) in
            '(_, d) ← detect d v;
            deferred_loop fuel d
      end
  end.

Definition deferred (d : detector_t) : outcome detector_t :=
  let d := count_events 1 0 0 0 0 d in
  deferred_loop (size (d_deferred d)) d.

(** ** Perceived cycles *)

Definition expire (d : detector_t) (v : Z) : outcome detector_t :=
  x ← view_at d v;
  let per := v_perceived x in
  if per =? NULL then Ret d
  else
    p ← per_of d per;
    d ← foldO (fun d '(_, pview) => update_view d pview (set_v_perceived NULL)) d (enum (per_map p));
    let d := set_perceived (delete (per_token p) (d_perceived d)) d in
    update_view (perceived_free d per) v (set_v_perceived NULL).

(** The end of an actor: [ponyint_actor_setpendingdestroy] and [ponyint_actor_final]; and
    [ponyint_actor_destroy], which frees it. *)
Definition final_actor (d : detector_t) (actor : Z) : detector_t :=
  add_events [FINAL actor] (set_pending (pending d ∪ {[actor]}) d).
Definition destroy_actor (d : detector_t) (actor : Z) : detector_t :=
  add_events [DESTROY actor] (set_pending (pending d ∖ {[actor]}) d).

(** One turn of each of the three loops of [collect]. *)
Definition collect_final (per : Z) (d : detector_t) (entry : Z * Z) : outcome detector_t :=
  let '(_, v) := entry in
  x ← view_at d v;
  if bool_decide (v_actor x ∈ pending d) || negb (v_perceived x =? per) then Abort
  else
    let d := if v_deferred x then set_deferred (delete (v_actor x) (d_deferred d)) d else d in
    Ret (final_actor d (v_actor x)).

Definition collect_release (d : detector_t) (entry : Z * Z) : outcome detector_t :=
  let '(_, v) := entry in
  x ← view_at d v; Ret (add_events [SENDRELEASE (v_actor x)] d).

Definition collect_destroy (d : detector_t) (entry : Z * Z) : outcome detector_t :=
  let '(_, v) := entry in
  x ← view_at d v;
  let d := destroy_actor d (v_actor x) in
  view_free (set_views (delete (v_actor x) (d_views d)) d) v.

Definition collect (d : detector_t) (per : Z) : outcome detector_t :=
  p ← per_of d per;
  let d := set_perceived (delete (per_token p) (d_perceived d)) d in
  d ← foldO (collect_final per) d (enum (per_map p));
  d ← foldO collect_release d (enum (per_map p));
  d ← foldO collect_destroy d (enum (per_map p));
  let d := count_events 0 0 0 0 (Z.of_nat (size (per_map p))) d in
  Ret (count_events 0 0 1 0 0 (perceived_free d per)).

(** ** Messages *)

(** The messages of the detector in the queue of an actor. *)
Inductive actor_msg := Is_conf | Is_isblocked | Is_other.

Inductive cd_msg :=
| CHECKBLOCKED
| BLOCK (actor rc live_asio_events : Z) (delta : option deltamap_t) (queue : list actor_msg)
| UNBLOCK (actor : Z)
| ACK (token : Z).

(** The entries of a table after a place, each with its own place. *)
Context (entries_from : gmap Z Z -> Z -> list (Z * (Z * Z))).

(** The place where the loop of [check_blocked] has ended, or [HASHMAP_BEGIN]. *)
Fixpoint check_loop (d : detector_t) (n limit : Z) (l : list (Z * (Z * Z))) : outcome (detector_t * Z) :=
  match l with
  | [] => Ret (d, HASHMAP_BEGIN)
  | (i, (_, v)) :: l =>
      x ← view_at d v;
      let d := if v_blocked x then d else add_events [ISBLOCKED (v_actor x)] d in
      let n := n ⊞ 1 in
      if limit <? n then Ret (d, i) else check_loop d n limit l
  end.

Definition check_blocked (d : detector_t) : outcome detector_t :=
  let total := Z.of_nat (size (d_views d)) in
  let limit := if CD_MAX_CHECK_BLOCKED <? total / 10 then total / 10 else CD_MAX_CHECK_BLOCKED in
  '(d, i) ← check_loop d 0 limit (entries_from (d_views d) (last_checked d));
  deferred (set_last_checked i d).

(** An actor without references that has nothing to do is destroyed; [queue] is what is in its
    queue. *)
Definition reap (d : detector_t) (actor live_asio_events : Z) (queue : list actor_msg) : outcome detector_t :=
  if negb (live_asio_events =? 0) then Abort
  else
    '(d, v) ← get_view d actor false;
    d ← (if v =? NULL then Ret d
         else
           x ← view_at d v;
           let d := if v_deferred x then set_deferred (delete (v_actor x) (d_deferred d)) d else d in
           d ← expire d v;
           view_free (set_views (delete actor (d_views d)) d) v);
    if bool_decide (actor ∈ pending d) then Abort
    else if existsb (fun m => match m with Is_other => true | _ => false end) queue then Abort
    else
      let d := destroy_actor (add_events [SENDRELEASE actor] (final_actor d actor)) actor in
      Ret (count_events 0 0 0 0 1 d).

Definition block (d : detector_t) (actor rc live_asio_events : Z) (map : option deltamap_t) (queue : list actor_msg)
    : outcome detector_t :=
  if rc =? 0 then reap d actor live_asio_events queue
  else
    '(d, v) ← get_view d actor true;
    d ← update_view d v (set_v_rc rc);
    d ← apply_delta d v map;
    d ← update_view d v (set_v_blocked true);
    d ← expire d v;
    x ← view_at d v;
    if v_deferred x then Ret d
    else Ret (put_view (set_deferred (<[v_actor x := v]> (d_deferred d)) d) v (set_v_deferred true x)).

Definition unblock (d : detector_t) (actor : Z) : outcome detector_t :=
  match d_views d !! actor with
  | None => Abort
  | Some v =>
      d ← update_view d v (set_v_blocked false);
      x ← view_at d v;
      let d :=
        if v_deferred x then put_view (set_deferred (delete (v_actor x) (d_deferred d)) d) v (set_v_deferred false x)
        else d in
      expire d v
  end.

Definition ack (d : detector_t) (token : Z) : outcome detector_t :=
  match d_perceived d !! token with
  | None => Ret d
  | Some per =>
      p ← per_of d per;
      let p := mk_perceived (per_token p) (per_ack p ⊞ 1) (per_map p) in
      let d := set_pers (<[per := p]> (d_pers d)) d in
      if per_ack p =? Z.of_nat (size (per_map p)) then collect d per else Ret d
  end.

Definition cycle_dispatch (d : detector_t) (m : cd_msg) : outcome detector_t :=
  match m with
  | CHECKBLOCKED => check_blocked d
  | BLOCK actor rc live_asio_events delta queue => block d actor rc live_asio_events delta queue
  | UNBLOCK actor => unblock d actor
  | ACK token => ack d token
  end.

(** Of [ponyint_cycle_create]. *)
Definition new_detector : detector_t :=
  mk_detector ∅ ∅ ∅ ∅ ∅ 0 HASHMAP_BEGIN 0 0 0 0 0 ∅ [].

(** ** The end of the program *)

(** The end of an actor that is not pending destruction; the stack of those that are to be
    destroyed. *)
Definition final_once (s : detector_t * list Z) (actor : Z) : detector_t * list Z :=
  let '(d, stack) := s in
  if bool_decide (actor ∈ pending d) then s else (final_actor d actor, actor :: stack).

Definition final_message (s : detector_t * list Z) (m : cd_msg) : detector_t * list Z :=
  match m with BLOCK actor _ _ _ _ => final_once s actor | _ => s end.

Definition final_view (s : detector_t * list Z) (entry : Z * Z) : outcome (detector_t * list Z) :=
  let '(d, _) := s in x ← view_at d (snd entry); Ret (final_once s (v_actor x)).

Definition final (d : detector_t) (queue : list cd_msg) : outcome detector_t :=
  s ← foldO final_view (foldl final_message (d, []) queue) (enum (d_views d));
  let '(d, stack) := s in
  let d := foldl destroy_actor d stack in
  let d := set_pers (foldr delete (d_pers d) (snd <$> enum (d_perceived d))) d in
  Ret (set_perceived ∅ (set_views ∅ (set_deferred ∅ d))).
End cycle.
