(* ===== verification/CycleScan.v ===== *)
(** * Trial deletion ([gc/cycle.c])

    The scans of [detect] over the views that a view reaches through blocked views.  Grey views
    have their references taken from the counts of what they refer to; scanning black gives
    them back.  What stays white are the views that no view with another count reaches. *)
From stdpp Require Import gmap.
From S2P Require Import Prelude Store ChunkSort Sum ObjectMap Cycle.
Local Open Scope Z_scope.
Local Open Scope c_scope.

(** ** Words *)

Lemma sub64_u64 a b : u64 a ⊟ b = u64 (a - b).
Proof. unfold sub64, u64, wrap. apply Zminus_mod_idemp_l. Qed.
Lemma add64_u64 a b : u64 a ⊞ b = u64 (a + b).
Proof. unfold add64, u64, wrap. apply Zplus_mod_idemp_l. Qed.

(** ** Scans *)

Section rule.
Context `{EN : Enumeration}.

(** A scan ends with its invariant when every step keeps it and a step that follows the
    references of a view uses up some of a potential. *)
Lemma scan_rule {S : Type} (det : S -> detector_t) visit (I : S -> list (Z * Z) -> Prop) (pot : S -> Z) :
  (forall s v r st, I s ((v, r) :: st) -> exists follow s',
    visit v r s = Ret (follow, s') /\ 0 <= pot s' /\
    I s' (if follow : bool then rev (references (det s') v) ++ st else st) /\
    pot s' + (if follow then Z.of_nat (length (references (det s') v)) else 0) <= pot s) ->
  forall fuel st s, I s st -> pot s + Z.of_nat (length st) <= Z.of_nat fuel ->
  0 <= pot s -> exists s', scan det visit fuel st s = Ret s' /\ I s' [].
Proof.
  intros Hstep fuel. induction fuel as [|fuel IH]; intros [|[v r] st] s HI Hf Hp; cbn [scan]; try by eexists.
  { cbn in Hf. lia. }
  destruct (Hstep s v r st HI) as (follow & s' & -> & Hp' & HI' & Hpot). cbn. apply IH; [done| |done].
  cbn [length] in Hf. destruct follow; [rewrite length_app, length_rev|]; lia.
Qed.
End rule.

(** ** Graphs of views *)

(** What scans do not change. *)
Definition frame (x : view_t) : Z * Z * bool * gmap Z Z := (v_actor x, view_rc x, v_blocked x, v_map x).

Definition same {T : Type} (f : view_t -> T) (c c0 : gmap Z view_t) : Prop := f <$> c = f <$> c0.

Lemma same_lookup {T} (f : view_t -> T) c c0 v x :
  same f c c0 -> c !! v = Some x -> exists x0, c0 !! v = Some x0 /\ f x = f x0.
Proof.
  intros E Hv. assert ((f <$> c) !! v = Some (f x)) as Hf by by rewrite lookup_fmap, Hv.
  rewrite E, lookup_fmap in Hf. destruct (c0 !! v) as [x0|]; [|done]. exists x0. cbn in Hf. split; [done|congruence].
Qed.

Lemma same_both {T} (f : view_t -> T) c c0 v x x0 :
  same f c c0 -> c !! v = Some x -> c0 !! v = Some x0 -> f x = f x0.
Proof. intros E Hv Hv0. destruct (same_lookup f c c0 v x E Hv) as (x1 & Hv1 & ?). congruence. Qed.

Lemma same_insert {T} (f : view_t -> T) c c0 v x x' :
  same f c c0 -> c !! v = Some x -> f x' = f x -> same f (<[v := x']> c) c0.
Proof.
  intros E Hv Hx. unfold same. rewrite fmap_insert, Hx, <- E. apply insert_id.
  by rewrite lookup_fmap, Hv.
Qed.

Lemma same_sym {T} (f : view_t -> T) c c0 : same f c c0 -> same f c0 c.
Proof. done. Qed.

Lemma same_fields_trans {T} (f : view_t -> T) c1 c2 c3 : same f c1 c2 -> same f c2 c3 -> same f c1 c3.
Proof. unfold same. congruence. Qed.

(** A reference between blocked views. *)
Definition edge (c : gmap Z view_t) (u w : Z) : Prop :=
  exists x y, c !! u = Some x /\ c !! w = Some y /\ v_blocked x = true /\ v_blocked y = true /\
    is_Some (v_map x !! w).

Lemma same_edge c c0 u w : same frame c c0 -> edge c u w <-> edge c0 u w.
Proof.
  assert (forall c c0, same frame c c0 -> edge c u w -> edge c0 u w) as H.
  { intros c1 c2 E (x & y & Hu & Hw & Bx & By & Hm).
    destruct (same_lookup frame c1 c2 u x E Hu) as (x0 & Hu0 & Fx).
    destruct (same_lookup frame c1 c2 w y E Hw) as (y0 & Hw0 & Fy).
    unfold frame in Fx, Fy. exists x0, y0. split_and!; try done; congruence. }
  intros E. split; apply H; [done|by apply same_sym].
Qed.

(** The count that the views with a property have of the references to a view. *)
Definition flow (N : view_t -> bool) (c : gmap Z view_t) (v : Z) : Z :=
  sum_map (fun _ x => if N x then default 0 (v_map x !! v) else 0) c.

Lemma flow_update N c u x x' v :
  c !! u = Some x -> v_map x' = v_map x ->
  flow N (<[u := x']> c) v =
    flow N c v + (Z.b2z (N x') - Z.b2z (N x)) * default 0 (v_map x !! v).
Proof.
  intros Hu Hm. unfold flow. rewrite (sum_map_update _ _ _ _ _ Hu), Hm. destruct (N x), (N x'); cbn; lia.
Qed.

Definition is_grey (x : view_t) : bool := bool_decide (v_color x = COLOR_GREY).
Definition is_white (x : view_t) : bool := bool_decide (v_color x = COLOR_WHITE).
Definition not_black (x : view_t) : bool := negb (bool_decide (v_color x = COLOR_BLACK)).

(** The references on a stack that are to a view, and their counts. *)
Definition pend (st : list (Z * Z)) (v : Z) : Z := sum_of (fun e => if decide (e.1 = v) then e.2 else 0) st.

Lemma pend_cons u r st v : pend ((u, r) :: st) v = (if decide (u = v) then r else 0) + pend st v.
Proof. done. Qed.

Lemma pend_app l st v : pend (l ++ st) v = pend l v + pend st v.
Proof. apply sum_of_app. Qed.

Section graph.
Context `{EN : Enumeration}.

Lemma pend_references (m : gmap Z Z) v : pend (rev (enum m)) v = default 0 (m !! v).
Proof.
  unfold pend. rewrite <- Permutation_rev, enum_perm.
  transitivity (sum_map (fun i r => if decide (i = v) then r else 0) m); [done|].
  destruct (m !! v) as [r|] eqn:E; cbn.
  - rewrite (sum_map_single _ _ v r E); [by rewrite decide_True|]. intros j y _ Hj. by rewrite decide_False.
  - apply sum_map_zero. intros i x Hi. rewrite decide_False by congruence. done.
Qed.

Lemma elem_of_references (m : gmap Z Z) v r : (v, r) ∈ rev (enum m) <-> m !! v = Some r.
Proof. by rewrite <- Permutation_rev, enum_perm, elem_of_map_to_list. Qed.

Lemma length_references (m : gmap Z Z) : length (enum m) = size m.
Proof. by rewrite enum_perm, length_map_to_list. Qed.

(** The references of views with a property, which a scan may still follow. *)
Definition refs_left (P : view_t -> bool) (c : gmap Z view_t) : Z :=
  sum_map (fun _ x => if P x then Z.of_nat (size (v_map x)) else 0) c.

Lemma refs_left_nonneg P c : 0 <= refs_left P c.
Proof. apply sum_map_nonneg. intros i x _. destruct (P x); lia. Qed.

Lemma refs_left_update P c u x x' :
  c !! u = Some x -> v_map x' = v_map x ->
  refs_left P (<[u := x']> c) = refs_left P c + (Z.b2z (P x') - Z.b2z (P x)) * Z.of_nat (size (v_map x)).
Proof. intros Hu Hm. unfold refs_left. rewrite (sum_map_update _ _ _ _ _ Hu), Hm. destruct (P x), (P x'); cbn; lia.
Qed.

Lemma scan_fuel_enough P d : refs_left P (d_cells d) + 1 <= Z.of_nat (scan_fuel d).
Proof.
  unfold scan_fuel. set (n := sum_map _ _).
  assert (refs_left P (d_cells d) <= n) by (apply sum_map_le; intros i x _; destruct (P x); lia).
  pose proof (refs_left_nonneg P (d_cells d)). lia.
Qed.
End graph.

(** ** Scanning grey *)

(** What a scan needs of the views. *)
Record graph_ok (c : gmap Z view_t) : Prop := {
  gk_black v x : c !! v = Some x -> v_color x = COLOR_BLACK;
  gk_refs v x w r : c !! v = Some x -> v_map x !! w = Some r -> 0 < r /\ is_Some (c !! w);
  gk_rc v x : c !! v = Some x -> is_u64 (v_rc x)
}.

(** The table of deferred views has those that are marked so. *)
Definition deferred_ok (d : detector_t) : Prop :=
  forall a v, d_deferred d !! a = Some v <->
    exists x, d_cells d !! v = Some x /\ v_actor x = a /\ v_deferred x = true.

Definition colored (c : gmap Z view_t) (v : Z) (k : color_t) : Prop := exists x, c !! v = Some x /\ v_color x = k.

Lemma colored_insert_ne c u v x k : u <> v -> colored (<[u := x]> c) v k <-> colored c v k.
Proof. intros Hn. unfold colored. by rewrite lookup_insert_ne. Qed.

Lemma colored_insert c v x k : colored (<[v := x]> c) v k <-> v_color x = k.
Proof.
  unfold colored. rewrite lookup_insert_eq. split; [intros (y & [= <-] & ?); done|]. intros ?. by exists x.
Qed.

Definition frame_p (x : view_t) : Z * Z * bool * gmap Z Z * Z := (frame x, v_perceived x).

Lemma frame_p_frame c c0 : same frame_p c c0 -> same frame c c0.
Proof.
  intros E. unfold same. apply map_eq. intros v. pose proof (f_equal (fun m => m !! v) E) as H. cbn in H.
  rewrite !lookup_fmap in *. destruct (c !! v), (c0 !! v); cbn in *; try done. unfold frame_p in H. congruence.
Qed.

(** All but the views and the table of those that are deferred. *)
Definition rest (d : detector_t) : detector_t := set_deferred ∅ (set_cells ∅ d).

Section grey.
Context `{EN : Enumeration}.
Context (d0 : detector_t) (root : Z).
Abbreviation c0 := (d_cells d0).

(** What the root reaches. *)
Definition reached (v : Z) : Prop := rtc (edge c0) root v.

Record grey_inv (d : detector_t) (st : list (Z * Z)) : Prop := {
  gi_rest : rest d = rest d0;
  gi_same : same frame_p (d_cells d) c0;
  gi_color v x : d_cells d !! v = Some x ->
    v_color x = COLOR_BLACK \/ v_color x = COLOR_GREY /\ v_blocked x = true /\ v_deferred x = false /\ reached v;
  gi_rc v x x0 : d_cells d !! v = Some x -> c0 !! v = Some x0 ->
    if v_blocked x then v_rc x = u64 (v_rc x0 - flow is_grey (d_cells d) v + pend st v)
    else v_rc x = v_rc x0;
  gi_deferred v x x0 : d_cells d !! v = Some x -> c0 !! v = Some x0 -> v_color x = COLOR_BLACK ->
    v_deferred x = v_deferred x0;
  gi_table : deferred_ok d;
  gi_stack v r : (v, r) ∈ st -> exists x0, c0 !! v = Some x0 /\ (v_blocked x0 = true -> reached v);
  gi_closed u w : colored (d_cells d) u COLOR_GREY -> edge c0 u w -> colored (d_cells d) w COLOR_GREY \/ w ∈ st.*1;
  gi_root : colored (d_cells d) root COLOR_GREY \/ root ∈ st.*1
}.

(** The table without a view. *)
Lemma deferred_ok_delete d v x x' :
  deferred_ok d -> d_cells d !! v = Some x -> v_actor x' = v_actor x -> v_deferred x' = false ->
  deferred_ok (set_deferred (if v_deferred x then delete (v_actor x) (d_deferred d) else d_deferred d)
    (set_cells (<[v := x']> (d_cells d)) d)).
Proof.
  unfold deferred_ok. intros Hd Hv Ha Hx' a w. cbn.
  assert (v_deferred x = true -> d_deferred d !! v_actor x = Some v) as Hin.
  { intros E. apply Hd. by exists x. }
  destruct (decide (w = v)) as [->|Hw].
  - rewrite lookup_insert_eq. split; [|intros (y & [= <-] & _ & ?); congruence].
    intros Hl. exfalso. assert (d_deferred d !! a = Some v) as Hl'.
    { destruct (v_deferred x); [|done]. by apply lookup_delete_Some in Hl as [_ ?]. }
    destruct (proj1 (Hd a v) Hl') as (y & Hy & <- & Hy'). assert (y = x) as -> by congruence.
    rewrite Hy', lookup_delete_eq in Hl. done.
  - rewrite lookup_insert_ne by done. rewrite <- Hd. destruct (v_deferred x) eqn:E; [|done].
    rewrite lookup_delete_Some. split; [by intros [_ ?]|]. intros Hl. split; [|done]. intros <-.
    rewrite (Hin eq_refl) in Hl. congruence.
Qed.
End grey.

Section grey_step.
Context `{EN : Enumeration}.
Context (d0 : detector_t) (root : Z) (G0 : graph_ok (d_cells d0)).
Abbreviation c0 := (d_cells d0).
Abbreviation grey_inv := (grey_inv d0 root).
Abbreviation reached := (reached d0 root).

Lemma pend_head u r st v : v <> u -> pend ((u, r) :: st) v = pend st v.
Proof. intros Hn. rewrite pend_cons, decide_False by congruence. done. Qed.

(** One step of [scan_grey] for a view that is blocked. *)
Lemma mark_grey_blocked d v r st x x' :
  grey_inv d ((v, r) :: st) -> d_cells d !! v = Some x -> v_blocked x = true ->
  frame_p x' = frame_p x -> v_deferred x' = false -> v_rc x' = v_rc x ⊟ r -> v_color x' = COLOR_GREY ->
  grey_inv (set_deferred (if v_deferred x then delete (v_actor x) (d_deferred d) else d_deferred d)
    (set_cells (<[v := x']> (d_cells d)) d))
    (if decide (v_color x = COLOR_BLACK) then rev (references d v) ++ st else st).
Proof.
  intros [I1 I2 I3 I4 I5 I6 I7 I8 I9] Hv Hb Hf Hd Hrc Hcol.
  destruct (same_lookup _ _ _ v x I2 Hv) as (x0 & Hv0 & Fx).
  assert (v_blocked x' = true /\ v_map x' = v_map x /\ v_actor x' = v_actor x) as (Hb' & Hm & Ha)
    by (unfold frame_p, frame in Hf; split_and!; congruence).
  assert (v_blocked x0 = true /\ v_map x0 = v_map x) as (Hb0 & Hm0)
    by (unfold frame_p, frame in Fx; split_and!; congruence).
  assert (reached v) as Hreach.
  { destruct (I7 v r ltac:(left)) as (y & Hy & Hr). apply Hr. congruence. }
  assert (references d v = enum (v_map x)) as Eref by by unfold references; rewrite Hv.
  assert (st.*1 ⊆ (if decide (v_color x = COLOR_BLACK) then rev (references d v) ++ st else st).*1) as Hsub.
  { case_decide; [rewrite fmap_app|]; set_solver. }
  assert (is_grey x = negb (bool_decide (v_color x = COLOR_BLACK))) as Egrey.
  { unfold is_grey. destruct (I3 v x Hv) as [->|[-> _]]; done. }
  split; cbn.
  - done.
  - by eapply same_insert.
  - intros w y. rewrite lookup_insert_Some. intros [[<- <-]|[Hn Hy]]; [right; done|by eapply I3].
  - intros w y y0 Hy Hy0. rewrite (flow_update _ _ _ x) by done.
    assert (pend (if decide (v_color x = COLOR_BLACK) then rev (references d v) ++ st else st) w =
      pend st w + Z.b2z (bool_decide (v_color x = COLOR_BLACK)) * default 0 (v_map x !! w)) as ->.
    { case_decide as E; [rewrite bool_decide_eq_true_2 by done|rewrite bool_decide_eq_false_2 by done; cbn; lia].
      rewrite pend_app, Eref, pend_references. cbn. lia. }
    unfold is_grey at 2. rewrite Hcol, bool_decide_eq_true_2, Egrey by done.
    apply lookup_insert_Some in Hy as [[<- <-]|[Hn Hy]].
    + rewrite Hb', Hrc. specialize (I4 v x y0 Hv Hy0). rewrite Hb in I4. rewrite I4, sub64_u64. f_equal.
      rewrite pend_cons, decide_True by done. destruct (bool_decide _); cbn [negb Z.b2z]; lia.
    + specialize (I4 w y y0 Hy Hy0). destruct (v_blocked y); [|done]. rewrite I4, pend_head by done. f_equal.
      destruct (bool_decide _); cbn [negb Z.b2z]; lia.
  - intros w y y0 Hy Hy0 Hdy. apply lookup_insert_Some in Hy as [[<- <-]|[Hn Hy]]; [congruence|by eapply I5].
  - by apply (deferred_ok_delete d v x x').
  - intros w s Hw. assert ((w, s) ∈ st \/ is_Some (v_map x !! w)) as [Hin|[s' Hs']].
    { case_decide; [|by left]. apply elem_of_app in Hw as [Hw|Hw]; [|by left]. rewrite Eref in Hw.
      apply elem_of_references in Hw. right. by eexists. }
    + apply (I7 w s). by right.
    + destruct (gk_refs _ G0 v x0 w s' Hv0 ltac:(congruence)) as [_ [y Hy]]. exists y. split; [done|]. intros By.
      eapply rtc_r; [exact Hreach|]. exists x0, y. split_and!; try done. rewrite Hm0. by eexists.
  - intros u w Hu He. destruct (decide (w = v)) as [->|Hwv].
    { left. apply colored_insert. done. }
    rewrite colored_insert_ne by done. destruct (decide (u = v)) as [->|Huv].
    + destruct He as (y & z & Hy & Hz & By & Bz & [s Hs]). assert (y = x0) as -> by congruence.
      case_decide as E.
      * right. rewrite fmap_app. apply elem_of_app. left. apply list_elem_of_fmap. exists (w, s). split; [done|].
        rewrite Eref. apply elem_of_references. congruence.
      * assert (colored (d_cells d) v COLOR_GREY) as Hg by (exists x; split; [done|];
          by destruct (I3 v x Hv) as [?|[? _]]).
        destruct (I8 v w Hg) as [?|Hin]; [by exists x0, z; split_and!; try done; exists s|by left|].
        right. cbn in Hin. apply elem_of_cons in Hin as [->|Hin]; done.
    + rewrite colored_insert_ne in Hu by done. destruct (I8 u w Hu He) as [?|Hin]; [by left|right].
      cbn in Hin. apply elem_of_cons in Hin as [->|Hin]; [done|]. by apply Hsub.
  - destruct (decide (root = v)) as [->|Hn]; [left; by apply colored_insert|].
    rewrite colored_insert_ne by done. destruct I9 as [?|Hin]; [by left|right].
    cbn in Hin. apply elem_of_cons in Hin as [->|Hin]; [done|]. by apply Hsub.
Qed.
End grey_step.

Section scan_grey.
Context `{EN : Enumeration}.
Context (d0 : detector_t) (root : Z) (G0 : graph_ok (d_cells d0)) (D0 : deferred_ok d0).
Abbreviation c0 := (d_cells d0).
Context (R0 : exists x0, c0 !! root = Some x0 /\ v_blocked x0 = true).

Lemma mark_grey_unblocked d v r st x :
  grey_inv d0 root d ((v, r) :: st) -> d_cells d !! v = Some x -> v_blocked x = false -> grey_inv d0 root d st.
Proof.
  intros [I1 I2 I3 I4 I5 I6 I7 I8 I9] Hv Hb.
  assert (forall y, c0 !! v = Some y -> v_blocked y = false) as Hb0.
  { intros y Hy. pose proof (same_both _ _ _ v x y I2 Hv Hy) as E. unfold frame_p, frame in E. congruence. }
  split; try done.
  - intros w y y0 Hy Hy0. specialize (I4 w y y0 Hy Hy0). destruct (v_blocked y) eqn:By; [|done].
    rewrite pend_head in I4 by congruence. done.
  - intros w s Hw. apply (I7 w s). by right.
  - intros u w Hu He. destruct (I8 u w Hu He) as [?|Hin]; [by left|right]. cbn in Hin.
    apply elem_of_cons in Hin as [->|Hin]; [|done]. destruct He as (y & z & _ & Hz & _ & Bz & _).
    rewrite (Hb0 z Hz) in Bz. done.
  - destruct I9 as [?|Hin]; [by left|right]. cbn in Hin. apply elem_of_cons in Hin as [->|Hin]; [|done].
    destruct R0 as (z & Hz & Bz). rewrite (Hb0 z Hz) in Bz. done.
Qed.

Definition left_grey (x : view_t) : bool := v_blocked x && bool_decide (v_color x = COLOR_BLACK).

Lemma mark_grey_step d v r st :
  grey_inv d0 root d ((v, r) :: st) -> exists follow d',
  mark_grey v r d = Ret (follow, d') /\ 0 <= refs_left left_grey (d_cells d') /\
  grey_inv d0 root d' (if follow : bool then rev (references d' v) ++ st else st) /\
  refs_left left_grey (d_cells d') + (if follow then Z.of_nat (length (references d' v)) else 0) <=
    refs_left left_grey (d_cells d).
Proof.
  intros Hi. destruct (gi_stack _ _ _ _ Hi v r ltac:(left)) as (x0 & Hv0 & _).
  destruct (same_lookup _ _ _ v x0 (same_sym _ _ _ (gi_same _ _ _ _ Hi)) Hv0) as (x & Hv & Fx).
  unfold mark_grey, view_at. rewrite Hv. cbn [mbind outcome_bind]. destruct (v_blocked x) eqn:Hb; cbn [negb].
  2: { exists false, d. split_and!; [done|apply refs_left_nonneg|by eapply mark_grey_unblocked|lia]. }
  set (y := if v_deferred x then _ else (d, x)).
  assert (y = (set_deferred (if v_deferred x then delete (v_actor x) (d_deferred d) else d_deferred d) d,
    set_v_deferred false x)) as -> by (subst y; destruct d, x as [? ? ? ? [] ? ? ?]; done).
  cbn [fst snd]. set (x' := set_v_color COLOR_GREY (set_v_rc (v_rc x ⊟ r) (set_v_deferred false x))).
  pose proof (mark_grey_blocked d0 root G0 d v r st x x' Hi Hv Hb eq_refl eq_refl eq_refl eq_refl) as Hn.
  assert (references (put_view d v x') v = references d v) as Eref.
  { unfold references. cbn. by rewrite lookup_insert_eq, Hv. }
  assert (refs_left left_grey (<[v := x']> (d_cells d)) = refs_left left_grey (d_cells d) +
    (0 - Z.b2z (bool_decide (v_color x = COLOR_BLACK))) * Z.of_nat (length (references d v))) as Epot.
  { rewrite (refs_left_update _ _ _ x)
      by done. unfold left_grey. cbn [v_blocked v_color x' set_v_color set_v_rc set_v_deferred].
    rewrite Hb. cbn [andb]. unfold references. rewrite Hv, length_references. done. }
  change (v_color (set_v_rc _ _)) with (v_color x).
  destruct (gi_color _ _ _ _ Hi v x Hv) as [Ec|[Ec _]]; rewrite Ec in Hn, Epot |- *; cbn [decide] in Hn.
  - eexists true, _. split_and!; [done|apply refs_left_nonneg| |].
    + change (references _ v) with (references (put_view d v x') v). rewrite Eref. exact Hn.
    + change (references _ v) with (references (put_view d v x') v). rewrite Eref.
      change (d_cells (put_view _ v _)) with (<[v := x']> (d_cells d)). rewrite Epot, bool_decide_eq_true_2 by done.
      cbn [Z.b2z]; lia.
  - assert (set_v_rc (v_rc (set_v_deferred false x) ⊟ r) (set_v_deferred false x) = x') as ->
      by (subst x'; destruct x; cbn in *; by subst).
    eexists false, _. split_and!; [done|apply refs_left_nonneg|exact Hn|].
    change (d_cells (put_view _ v _)) with (<[v := x']> (d_cells d)).
    rewrite Epot, bool_decide_eq_false_2 by done. cbn [Z.b2z]; lia.
Qed.

Lemma flow_none N c v : (forall u x, c !! u = Some x -> N x = false) -> flow N c v = 0.
Proof. intros H. apply sum_map_zero. intros u x Hu. by rewrite (H u x Hu). Qed.

Lemma scan_grey_ok : exists d, scan_grey d0 root 0 = Ret d /\ grey_inv d0 root d [].
Proof.
  apply (scan_rule id mark_grey (grey_inv d0 root) (fun d => refs_left left_grey (d_cells d))).
  - intros d v r st Hi. exact (mark_grey_step d v r st Hi).
  - split; try done.
    + intros v x Hv. left. by apply (gk_black _ G0 v).
    + intros v x x0 Hv Hv0. assert (x = x0) as -> by congruence. destruct (v_blocked x0); [|done].
      rewrite flow_none, u64_id;
        [|unfold pend; cbn; case_decide; rewrite ?Z.add_0_r, Z.sub_0_r; by apply (gk_rc _ G0 v)|].
      * unfold pend. cbn. case_decide; lia.
      * intros u x Hu. unfold is_grey. rewrite (gk_black _ G0 u x Hu). done.
    + congruence.
    + intros v r Hv. apply list_elem_of_singleton in Hv as [= -> ->]. destruct R0 as (x0 & ? & _).
      exists x0. split; [done|]. intros _. apply rtc_refl.
    + intros u w (x & Hu & Hx) _. rewrite (gk_black _ G0 u x Hu) in Hx. done.
    + right. left.
  - cbn [length]. apply (scan_fuel_enough left_grey d0).
  - apply refs_left_nonneg.
Qed.
End scan_grey.

(** ** Scanning black *)

Lemma frame_inv x y :
  frame x = frame y -> v_actor x = v_actor y /\ view_rc x = view_rc y /\ v_blocked x = v_blocked y /\
    v_map x = v_map y.
Proof. unfold frame. intros [= -> -> -> ->]. done. Qed.

(** The references of the views of a set. *)
Definition flow_in (G : gset Z) (c : gmap Z view_t) (v : Z) : Z :=
  sum_map (fun u x => if decide (u ∈ G) then default 0 (v_map x !! v) else 0) c.

Lemma sum_map_ext {A} (f g : Z -> A -> Z) m :
  (forall i x, m !! i = Some x -> f i x = g i x) -> sum_map f m = sum_map g m.
Proof. intros H. apply sum_of_ext. intros [i x] Hx%elem_of_map_to_list. by apply H. Qed.

Lemma sum_map_fmap {A B} (f : Z -> B -> Z) (h : A -> B) (m : gmap Z A) :
  sum_map f (h <$> m) = sum_map (fun i x => f i (h x)) m.
Proof.
  unfold sum_map. rewrite map_to_list_fmap. induction (map_to_list m) as [|[i x] l IH]; cbn in *; congruence.
Qed.

Lemma flow_flow_in N G c c0 v :
  same frame c c0 -> (forall u x, c !! u = Some x -> is_Some (v_map x !! v) -> N x = bool_decide (u ∈ G)) ->
  flow N c v = flow_in G c0 v.
Proof.
  intros E HN. unfold flow, flow_in.
  pose (f := fun (u : Z) (y : Z * Z * bool * gmap Z Z) => if decide (u ∈ G) then default 0 (y.2 !! v) else 0).
  transitivity (sum_map f (frame <$> c)).
  - rewrite sum_map_fmap. apply sum_map_ext. intros u x Hu. subst f. cbn.
    destruct (v_map x !! v) as [r|] eqn:Er; cbn; [|destruct (N x); by case_decide].
    rewrite (HN u x Hu) by by eexists.
    by case_decide; [rewrite bool_decide_eq_true_2|rewrite bool_decide_eq_false_2].
  - rewrite E, sum_map_fmap. done.
Qed.

Section black.
Context `{EN : Enumeration}.
Context (d0 : detector_t) (root : Z) (G0 : graph_ok (d_cells d0)).
Abbreviation c0 := (d_cells d0).
Abbreviation reached := (reached d0 root).
(** What is blackened: a property that follows references. *)
Context (Q : Z -> Prop) (Qstep : forall u w, Q u -> edge c0 u w -> Q w).

(** Counts while references of views that turn black are on the stack. *)
Record shade_inv (c : gmap Z view_t) (st : list (Z * Z)) : Prop := {
  sh_same : same frame c c0;
  sh_color v x : c !! v = Some x -> v_color x <> COLOR_BLACK -> reached v;
  sh_rc v x x0 : c !! v = Some x -> c0 !! v = Some x0 ->
    if v_blocked x then v_rc x = u64 (v_rc x0 - flow not_black c v - pend st v) else v_rc x = v_rc x0;
  sh_closed u w : reached u -> colored c u COLOR_BLACK -> edge c0 u w -> colored c w COLOR_BLACK \/ w ∈ st.*1;
  sh_stack v r : (v, r) ∈ st -> exists x0, c0 !! v = Some x0 /\ (v_blocked x0 = true -> reached v /\ Q v);
  sh_black v : reached v -> colored c v COLOR_BLACK -> Q v
}.

Lemma reached_blocked v x : c0 !! root = Some x -> v_blocked x = true -> reached v ->
  exists y, c0 !! v = Some y /\ v_blocked y = true.
Proof. intros Hr Hb Hv. destruct (rtc_inv_r _ _ Hv) as [->|(u & _ & y & z & _ & ? & _ & ? & _)]; by eexists. Qed.

Context (R0 : exists x0, c0 !! root = Some x0 /\ v_blocked x0 = true).

Lemma shade_unblocked c v r st x :
  shade_inv c ((v, r) :: st) -> c !! v = Some x -> v_blocked x = false ->
  v_color x = COLOR_BLACK /\ shade_inv c st.
Proof.
  intros [I1 I2 I3 I4 I5 I6] Hv Hb.
  destruct (same_lookup _ _ _ v x I1 Hv) as (x0 & Hv0 & Fx). apply frame_inv in Fx as (_ & _ & Fb & _).
  assert (forall y, c0 !! v = Some y -> v_blocked y = false) as Hb0 by (intros y Hy; congruence).
  split.
  { destruct (decide (v_color x = COLOR_BLACK)) as [?|E]; [done|]. destruct R0 as (z & Hz & Bz).
    destruct (reached_blocked v z Hz Bz (I2 v x Hv E)) as (y & Hy & By). rewrite (Hb0 y Hy) in By. done. }
  split; try done.
  - intros w y y0 Hy Hy0. specialize (I3 w y y0 Hy Hy0). destruct (v_blocked y) eqn:By; [|done].
    rewrite pend_head in I3 by congruence. done.
  - intros u w Hu Hc He. destruct (I4 u w Hu Hc He) as [?|Hin]; [by left|right]. cbn in Hin.
    apply elem_of_cons in Hin as [->|Hin]; [|done]. destruct He as (y & z & _ & Hz & _ & Bz & _).
    rewrite (Hb0 z Hz) in Bz. done.
  - intros w s Hw. apply (I5 w s). by right.
Qed.

Lemma shade_step c v r st x x' :
  shade_inv c ((v, r) :: st) -> c !! v = Some x -> v_blocked x = true ->
  frame x' = frame x -> v_rc x' = v_rc x ⊞ r -> v_color x' = COLOR_BLACK ->
  shade_inv (<[v := x']> c) (if decide (v_color x = COLOR_BLACK) then st else rev (enum (v_map x)) ++ st).
Proof.
  intros [I1 I2 I3 I4 I5 I6] Hv Hb Hf Hrc Hcol.
  destruct (same_lookup _ _ _ v x I1 Hv) as (x0 & Hv0 & Fx).
  apply frame_inv in Fx as (_ & _ & Hb0 & Hm0). destruct (frame_inv _ _ Hf) as (_ & _ & Hb' & Hm).
  destruct (I5 v r ltac:(left)) as (y1 & Hy1 & Hr1). destruct (Hr1 ltac:(congruence)) as [Hreach HQ].
  set (st' := if decide (v_color x = COLOR_BLACK) then st else _).
  assert (st.*1 ⊆ st'.*1) as Hsub by (subst st'; case_decide; [|rewrite fmap_app]; set_solver).
  split.
  - by eapply same_insert.
  - intros w y Hw Hy. apply lookup_insert_Some in Hw as [[<- <-]|[Hn Hw]]; [congruence|by eapply I2].
  - intros w y y0 Hy Hy0. rewrite (flow_update _ _ _ x) by done.
    assert (pend st' w = pend st w + Z.b2z (not_black x) * default 0 (v_map x !! w)) as ->.
    { subst st'. unfold not_black. case_decide as E.
      - rewrite bool_decide_eq_true_2 by done. cbn. lia.
      - rewrite bool_decide_eq_false_2 by done. rewrite pend_app, pend_references. cbn [negb Z.b2z]. lia. }
    assert (not_black x' = false) as -> by (unfold not_black; by rewrite Hcol, bool_decide_eq_true_2).
    apply lookup_insert_Some in Hy as [[<- <-]|[Hn Hy]].
    + rewrite Hb', Hb, Hrc. specialize (I3 v x y0 Hv Hy0). rewrite Hb in I3. rewrite I3, add64_u64. f_equal.
      rewrite pend_cons, decide_True by done. cbn [Z.b2z]. lia.
    + specialize (I3 w y y0 Hy Hy0). destruct (v_blocked y); [|done]. rewrite I3, pend_head by done. f_equal.
      cbn [Z.b2z]. lia.
  - intros u w Hu Hc He. destruct (decide (w = v)) as [->|Hwv]; [left; by apply colored_insert|].
    rewrite colored_insert_ne by done. destruct (decide (u = v)) as [->|Huv].
    + pose proof He as (y & z & Hy & Hz & By & Bz & [s Hs]). assert (y = x0) as -> by congruence.
      subst st'. case_decide as E.
      * destruct (I4 v w Hu ltac:(by exists x) He) as [?|Hin]; [by left|right].
        cbn in Hin. by apply elem_of_cons in Hin as [->|Hin].
      * right. rewrite fmap_app. apply elem_of_app. left. apply list_elem_of_fmap. exists (w, s). split; [done|].
        apply elem_of_references. congruence.
    + rewrite colored_insert_ne in Hc by done. destruct (I4 u w Hu Hc He) as [?|Hin]; [by left|right].
      cbn in Hin. apply elem_of_cons in Hin as [->|Hin]; [done|by apply Hsub].
  - intros w s Hw. assert ((w, s) ∈ st \/ is_Some (v_map x !! w)) as [Hin|[s' Hs']].
    { subst st'. case_decide; [by left|]. apply elem_of_app in Hw as [Hw|Hw]; [|by left].
      apply elem_of_references in Hw. right. by eexists. }
    + apply (I5 w s). by right.
    + destruct (gk_refs _ G0 v x0 w s' Hv0 ltac:(congruence)) as [_ [y Hy]]. exists y. split; [done|]. intros By.
      assert (edge c0 v w) as He by (exists x0, y; split_and!; try done; [congruence|rewrite <- Hm0; by eexists]).
      split; [by eapply rtc_r|by eapply Qstep].
  - intros w Hw Hc. destruct (decide (w = v)) as [->|Hn]; [done|]. rewrite colored_insert_ne in Hc by done.
    by apply I6.
Qed.
End black.

Definition whites (c : gmap Z view_t) : Z := sum_map (fun _ x => Z.b2z (is_white x)) c.

Lemma whites_bound c : 0 <= whites c <= Z.of_nat (size c).
Proof.
  split; [apply sum_map_nonneg; intros i x _; by destruct (is_white x)|].
  unfold whites. transitivity (sum_map (fun _ (_ : view_t) => 1) c).
  { apply sum_map_le. intros i x _. by destruct (is_white x). }
  unfold sum_map. rewrite <- (length_map_to_list c). induction (map_to_list c); cbn [sum_of length] in *; lia.
Qed.

Lemma whites_update c v x x' :
  c !! v = Some x -> whites (<[v := x']> c) = whites c - Z.b2z (is_white x) + Z.b2z (is_white x').
Proof. intros Hv. unfold whites. by rewrite (sum_map_update _ _ _ _ _ Hv). Qed.

Lemma int32_ok x : x <= INT32_MAX -> int32 x = Ret x.
Proof. intros H. unfold int32. by rewrite (proj2 (Z.leb_le _ _)). Qed.

Section scan_black.
Context `{EN : Enumeration}.
Context (d0 : detector_t) (root : Z) (G0 : graph_ok (d_cells d0)).
Abbreviation c0 := (d_cells d0).
Abbreviation reached := (reached d0 root).
Context (Q : Z -> Prop) (Qstep : forall u w, Q u -> edge c0 u w -> Q w).
Context (R0 : exists x0, c0 !! root = Some x0 /\ v_blocked x0 = true).
Abbreviation shade_inv := (shade_inv d0 root Q).

Lemma not_black_spec x : not_black x = true <-> v_color x <> COLOR_BLACK.
Proof. unfold not_black. rewrite negb_true_iff, bool_decide_eq_false. done. Qed.

Lemma put_view_cells d v x : d_cells (put_view d v x) = <[v := x]> (d_cells d).
Proof. done. Qed.

(** A scan that turns views black. *)
Record black_run (c1 : gmap Z view_t) (s : detector_t * Z) (st : list (Z * Z)) : Prop := {
  br_shade : shade_inv (d_cells (fst s)) st;
  br_kept v x : d_cells (fst s) !! v = Some x -> v_color x <> COLOR_BLACK ->
    exists y, c1 !! v = Some y /\ x = set_v_perceived (v_perceived x) y;
  br_deferred : same v_deferred (d_cells (fst s)) c1;
  br_count : snd s = whites c1 - whites (d_cells (fst s))
}.

Lemma colored_perceived c v x p w k : c !! v = Some x ->
  colored (<[v := set_v_perceived p x]> c) w k <-> colored c w k.
Proof.
  intros Hv. destruct (decide (w = v)) as [->|Hn]; [|by rewrite colored_insert_ne].
  rewrite colored_insert. cbn. split; [intros ?; by exists x|]. intros (y & Hy & ?). congruence.
Qed.

Lemma shade_perceived c st v x p :
  shade_inv c st -> c !! v = Some x -> shade_inv (<[v := set_v_perceived p x]> c) st.
Proof.
  intros [I1 I2 I3 I4 I5 I6] Hv. split; [by eapply same_insert| | | |done|].
  - intros w y Hw Hy. apply lookup_insert_Some in Hw as [[<- <-]|[Hn Hw]]; by eapply I2.
  - intros w y y0 Hw Hy0. rewrite (flow_update _ _ _ x), Z.sub_diag, Z.mul_0_l, Z.add_0_r by done.
    apply lookup_insert_Some in Hw as [[<- <-]|[Hn Hw]]; [|by apply I3]. exact (I3 v x y0 Hv Hy0).
  - intros u w Hu. rewrite !colored_perceived by done. by apply I4.
  - intros w Hw. rewrite colored_perceived by done. by apply I6.
Qed.

Lemma black_run_perceived c1 d count st v x p :
  black_run c1 (d, count) st -> d_cells d !! v = Some x ->
    black_run c1 (put_view d v (set_v_perceived p x), count) st.
Proof.
  intros [I1 I2 I3 I4] Hv. split; cbn [fst snd] in *.
  - by apply shade_perceived.
  - intros w y Hw Hy. rewrite put_view_cells in Hw.
    apply lookup_insert_Some in Hw as [[<- <-]|[Hn Hw]]; [|by apply I2].
    destruct (I2 v x Hv Hy) as (z & Hz & Ex). exists z. split; [done|]. rewrite Ex. done.
  - by eapply same_insert.
  - rewrite put_view_cells, (whites_update _ _ x) by done.
    change (is_white (set_v_perceived p x)) with (is_white x). lia.
Qed.

Lemma references_put d v x x' : d_cells d !! v = Some x -> v_map x' = v_map x ->
  references (put_view d v x') v = enum (v_map x).
Proof. intros Hv Hm. unfold references. cbn. by rewrite lookup_insert_eq, Hm. Qed.

Lemma mark_black_step c1 d count v r st :
  Z.of_nat (size c1) <= INT32_MAX -> black_run c1 (d, count) ((v, r) :: st) -> exists follow x x',
  mark_black v r (d, count) = Ret (follow, (put_view d v x', count + Z.b2z (is_white x))) /\
  d_cells d !! v = Some x /\ v_color x' = COLOR_BLACK /\ v_perceived x' = v_perceived x /\
  black_run c1 (put_view d v x', count + Z.b2z (is_white x))
    (if follow : bool then rev (references (put_view d v x') v) ++ st else st) /\
  refs_left not_black (d_cells (put_view d v x')) +
    (if follow then Z.of_nat (length (references (put_view d v x') v)) else 0) <= refs_left not_black (d_cells d).
Proof.
  intros Hsize [I1 I2 I3 I4]. cbn [fst snd] in *.
  destruct (sh_stack _ _ _ _ _ I1 v r ltac:(left)) as (x0 & Hv0 & _).
  destruct (same_lookup _ _ _ v x0 (same_sym _ _ _ (sh_same _ _ _ _ _ I1)) Hv0) as (x & Hv & _).
  assert (forall x', frame x' = frame x -> v_deferred x' = v_deferred x -> v_color x' = COLOR_BLACK ->
    forall st', shade_inv (<[v := x']> (d_cells d)) st' ->
    black_run c1 (put_view d v x', count + Z.b2z (is_white x)) st') as Hrun.
  { intros x' Hf Hd Hc st' Hs. split; cbn [fst snd]; [done| |by eapply same_insert|].
    - intros w y Hw Hy. rewrite put_view_cells in Hw.
      apply lookup_insert_Some in Hw as [[<- <-]|[Hn Hw]]; [done|by apply I2].
    - rewrite put_view_cells, (whites_update _ _ x) by done.
      assert (is_white x' = false) as -> by (unfold is_white; by rewrite Hc, bool_decide_eq_false_2). cbn. lia. }
  assert (forall x', v_map x' = v_map x -> v_color x' = COLOR_BLACK ->
    refs_left not_black (d_cells (put_view d v x')) =
    refs_left not_black (d_cells d) - Z.b2z (not_black x) * Z.of_nat (size (v_map x))) as Hpot.
  { intros x' Hm Hc. change (d_cells (put_view d v ?y)) with (<[v := y]> (d_cells d)).
    rewrite (refs_left_update _ _ _ x) by done.
    assert (not_black x' = false) as -> by (unfold not_black; by rewrite Hc, bool_decide_eq_true_2). cbn [Z.b2z]. lia.
    }
  unfold mark_black, view_at. rewrite Hv. cbn [mbind outcome_bind].
  destruct (v_blocked x) eqn:Hb; cbn [negb].
  2: { destruct (shade_unblocked d0 root Q R0 _ v r st x I1 Hv Hb) as [Ec Hs]. rewrite decide_True by done.
    exists false, x, x. assert (<[v := x]> (d_cells d) = d_cells d) as Eid by by apply insert_id.
    assert (put_view d v x = d) as Ed by (unfold put_view; rewrite Eid; by destruct d).
    assert (is_white x = false) as Ew by (unfold is_white; by rewrite Ec).
    split_and!; try done.
    - by rewrite Ed, Ew, Z.add_0_r.
    - apply Hrun; try done. by rewrite Eid.
    - rewrite Hpot by done. pose proof (not_black_spec x). destruct (not_black x); cbn; lia. }
  change (v_color (set_v_rc _ _)) with (v_color x).
  set (x' := set_v_color COLOR_BLACK (set_v_rc (v_rc x ⊞ r) x)).
  pose proof (shade_step d0 root G0 Q Qstep R0 _ v r st x x' I1 Hv Hb eq_refl eq_refl eq_refl) as Hs.
  case_decide as Ec.
  - assert (set_v_rc (v_rc x ⊞ r) x = x') as -> by (subst x'; destruct x; cbn in *; by subst).
    assert (is_white x = false) as Ew by (unfold is_white; by rewrite Ec).
    exists false, x, x'. split_and!; try done; [by rewrite Ew, Z.add_0_r|by apply Hrun|].
    rewrite Hpot by done. destruct (not_black x); cbn [Z.b2z]; lia.
  - pose proof (whites_bound c1). pose proof (whites_bound (<[v := x']> (d_cells d))) as Hw.
    rewrite (whites_update _ _ x) in Hw by done. change (is_white x') with false in Hw. cbn [Z.b2z] in Hw.
    assert ((if decide (v_color x = COLOR_WHITE) then int32 (count + 1) else Ret count) =
      Ret (count + Z.b2z (is_white x))) as ->.
    { case_decide as Ew.
      - assert (is_white x = true) as Ei by (unfold is_white; by rewrite bool_decide_eq_true).
        rewrite Ei in *. cbn [Z.b2z] in *. apply int32_ok. lia.
      - assert (is_white x = false) as Ei by (unfold is_white; by rewrite bool_decide_eq_false).
        rewrite Ei. cbn. by rewrite Z.add_0_r. }
    exists true, x, x'. cbn [mbind outcome_bind]. split_and!; try done.
    + rewrite (references_put d v x) by done. by apply Hrun.
    + rewrite Hpot, (references_put d v x), length_references by done.
      rewrite (proj2 (not_black_spec x)) by done. cbn [Z.b2z]. lia.
Qed.

Lemma scan_black_ok d1 v :
  Z.of_nat (size (d_cells d1)) <= INT32_MAX -> shade_inv (d_cells d1) [(v, 0)] ->
  exists d n, scan_black d1 v 0 = Ret (d, n) /\ d = set_cells (d_cells d) d1 /\
    same v_perceived (d_cells d) (d_cells d1) /\ black_run (d_cells d1) (d, n) [] /\
    colored (d_cells d) v COLOR_BLACK /\ refs_left is_grey (d_cells d) <= refs_left is_grey (d_cells d1).
Proof.
  intros Hsize Hs.
  destruct (scan_rule fst mark_black (fun s st => fst s = set_cells (d_cells (fst s)) d1 /\
    same v_perceived (d_cells (fst s)) (d_cells d1) /\ black_run (d_cells d1) s st /\
    (colored (d_cells (fst s)) v COLOR_BLACK \/ v ∈ st.*1) /\
    refs_left is_grey (d_cells (fst s)) <= refs_left is_grey (d_cells d1))
    (fun s => refs_left not_black (d_cells (fst s)))) with
    (fuel := scan_fuel d1) (st := [(v, 0)]) (s := (d1, 0)) as ([d n] & E & Hd & Hp & Hb & Hv & Hg).
  - intros [d n] w r st (Hd & Hp & Hi & Hv & Hg).
    destruct (mark_black_step _ d n w r st Hsize Hi) as (follow & x & x' & E & Hw & Hc & Hx & Hr & Hpot).
    eexists follow, _. split_and!; [exact E|apply refs_left_nonneg| | |exact Hr| | |exact Hpot]; cbn [fst] in *.
    + rewrite Hd. done.
    + by eapply same_insert.
    + rewrite put_view_cells. destruct (decide (v = w)) as [->|Hn]; [left; by apply colored_insert|].
      rewrite colored_insert_ne by done. destruct Hv as [?|Hv]; [by left|right]. cbn in Hv.
      apply elem_of_cons in Hv as [?|Hv]; [done|]. destruct follow; [rewrite fmap_app|]; set_solver.
    + rewrite put_view_cells. destruct (sh_stack _ _ _ _ _ (br_shade _ _ _ Hi) w r ltac:(left)) as (y & Hy & _).
      destruct (same_lookup _ _ _ w x (sh_same _ _ _ _ _ (br_shade _ _ _ Hi)) Hw) as (y' & Hy' & Fy).
      assert (v_map x' = v_map x) as Hm.
      { assert (d_cells (put_view d w x') !! w = Some x') as Hw' by (rewrite put_view_cells; apply lookup_insert_eq).
        destruct (same_lookup _ _ _ w x' (sh_same _ _ _ _ _ (br_shade _ _ _ Hr)) Hw') as (y2 & Hy2 & Fy2).
        apply frame_inv in Fy as (_ & _ & _ & ?). apply frame_inv in Fy2 as (_ & _ & _ & ?). congruence. }
      rewrite (refs_left_update _ _ _ x) by done.
      assert (is_grey x' = false) as -> by (unfold is_grey; by rewrite Hc, bool_decide_eq_false_2).
      destruct (is_grey x); cbn [Z.b2z]; lia.
  - split_and!; [by destruct d1|done| |right; left|done]. split; cbn [fst snd]; [done| |done|lia].
    intros w x Hw _. exists x. split; [done|by destruct x].
  - cbn [length fst]. apply (scan_fuel_enough not_black d1).
  - apply refs_left_nonneg.
  - exists d, n. cbn [fst] in *. split_and!; try done. destruct Hv as [?|Hv]; [done|]. by apply elem_of_nil in Hv.
Qed.
End scan_black.
