(* ===== verification/CycleDetect.v ===== *)
(** * Perceiving a cycle ([detect] of [gc/cycle.c])

    Scanning white turns the grey views white whose counts have gone to zero, and those black
    again that a view with another count reaches; what is white then is collected into a
    perceived cycle, and all counts are what they were. *)
From stdpp Require Import gmap.
From S2P Require Import Prelude Store ChunkSort Sum ObjectMap Cycle CycleScan.
Local Open Scope Z_scope.
Local Open Scope c_scope.

(** Induction along the references that lead from a view. *)
Lemma rtc_follow (R : Z -> Z -> Prop) (P : Z -> Prop) u :
  P u -> (forall v w, rtc R u v -> R v w -> P v -> P w) -> forall v, rtc R u v -> P v.
Proof. intros H0 Hs. by apply rtc_ind_r. Qed.

Section white.
Context `{EN : Enumeration}.
Context (d0 : detector_t) (root : Z) (G0 : graph_ok (d_cells d0)).
Abbreviation c0 := (d_cells d0).
Abbreviation reached := (reached d0 root).
Context (R0 : exists x0, c0 !! root = Some x0 /\ v_blocked x0 = true).
Context (G : gset Z) (HG : forall v, v ∈ G <-> reached v).
Context (P0 : forall v x0, c0 !! v = Some x0 -> reached v -> v_perceived x0 = NULL).
Context (S0 : Z.of_nat (size c0) <= INT32_MAX).

(** The count of a reached view is not that of the references of the reached views. *)
Definition external (v : Z) : Prop :=
  exists x0, c0 !! v = Some x0 /\ v ∈ G /\ v_rc x0 <> u64 (flow_in G c0 v).

Definition tainted (v : Z) : Prop := exists u, external u /\ rtc (edge c0) u v.

Lemma tainted_step u w : tainted u -> edge c0 u w -> tainted w.
Proof. intros (x & Hx & Hu) He. exists x. split; [done|]. by eapply rtc_r. Qed.

Abbreviation shade_inv := (shade_inv d0 root tainted).

Lemma reached_live v : reached v -> exists y, c0 !! v = Some y /\ v_blocked y = true.
Proof. destruct R0 as (x & Hx & Bx). by apply (reached_blocked d0 root v x). Qed.

Record white_inv (d1 : detector_t) (s : detector_t * Z) (st : list (Z * Z)) : Prop := {
  wi_rest : fst s = set_cells (d_cells (fst s)) d1;
  wi_shade : shade_inv (d_cells (fst s)) [];
  wi_perceived : same v_perceived (d_cells (fst s)) c0;
  wi_deferred : same v_deferred (d_cells (fst s)) (d_cells d1);
  wi_white v x : d_cells (fst s) !! v = Some x -> v_color x = COLOR_WHITE -> v_rc x = 0;
  wi_closed u w : colored (d_cells (fst s)) u COLOR_WHITE -> edge c0 u w ->
    ~ colored (d_cells (fst s)) w COLOR_GREY \/ w ∈ st.*1;
  wi_root : ~ colored (d_cells (fst s)) root COLOR_GREY \/ root ∈ st.*1;
  wi_count : snd s = whites (d_cells (fst s));
  wi_stack v r : (v, r) ∈ st -> is_Some (c0 !! v)
}.

(** References to a view that is not black come from views that are not black. *)
Lemma shade_flow c v x :
  shade_inv c [] -> c !! v = Some x -> v_color x <> COLOR_BLACK -> flow not_black c v = flow_in G c0 v.
Proof.
  intros Hs Hv Hc. apply flow_flow_in; [apply Hs|]. intros u y Hu [r Hr].
  pose proof (sh_color _ _ _ _ _ Hs v x Hv Hc) as Hreach.
  destruct (decide (v_color y = COLOR_BLACK)) as [E|E].
  - assert (not_black y = false) as -> by (unfold not_black; by rewrite bool_decide_eq_true_2).
    symmetry. apply bool_decide_eq_false_2. rewrite HG. intros Hu'.
    destruct (same_lookup _ _ _ u y (sh_same _ _ _ _ _ Hs) Hu) as (y0 & Hu0 & Fy).
    apply frame_inv in Fy as (_ & _ & _ & Hm).
    destruct (reached_live u Hu') as (y1 & Hy1 & By1). destruct (reached_live v Hreach) as (x1 & Hx1 & Bx1).
    destruct (sh_closed _ _ _ _ _ Hs u v Hu' ltac:(by exists y)) as [(z & Hz & Ez)|Hin].
    + exists y1, x1. split_and!; try done. exists r. congruence.
    + congruence.
    + cbn in Hin. by apply elem_of_nil in Hin.
  - rewrite (proj2 (not_black_spec y) E). symmetry. apply bool_decide_eq_true_2. rewrite HG.
    by apply (sh_color _ _ _ _ _ Hs u y).
Qed.

Lemma shade_rc c v x :
  shade_inv c [] -> c !! v = Some x -> v_color x <> COLOR_BLACK ->
  exists x0, c0 !! v = Some x0 /\ v_blocked x = true /\ v ∈ G /\ v_rc x = u64 (v_rc x0 - flow_in G c0 v).
Proof.
  intros Hs Hv Hc. destruct (same_lookup _ _ _ v x (sh_same _ _ _ _ _ Hs) Hv) as (x0 & Hv0 & Fx).
  apply frame_inv in Fx as (_ & _ & Hb & _). pose proof (sh_color _ _ _ _ _ Hs v x Hv Hc) as Hreach.
  destruct (reached_live v Hreach) as (y & Hy & By). assert (y = x0) as -> by congruence.
  exists x0. split_and!; [done|congruence|by apply HG|].
  pose proof (sh_rc _ _ _ _ _ Hs v x x0 Hv Hv0) as Hrc. rewrite Hb, By in Hrc.
  rewrite (shade_flow c v x) in Hrc by done. rewrite Hrc. cbn. by rewrite Z.sub_0_r.
Qed.

Lemma external_rc c v x : shade_inv c [] -> c !! v = Some x -> v_color x <> COLOR_BLACK -> external v <-> v_rc x <> 0.
Proof.
  intros Hs Hv Hc. destruct (shade_rc c v x Hs Hv Hc) as (x0 & Hv0 & _ & HvG & ->).
  assert (is_u64 (v_rc x0)) as Hu by by apply (gk_rc _ G0 v).
  assert (v_rc x0 = u64 (flow_in G c0 v) <-> u64 (v_rc x0 - flow_in G c0 v) = 0) as E.
  { unfold is_u64, u64, wrap in *. set (f := flow_in G c0 v). split; intros H.
    - rewrite H, Zminus_mod_idemp_l, Z.sub_diag. done.
    - apply Z.mod_divide in H as [k Hk]; [|lia]. replace f with (v_rc x0 + (- k) * 2 ^ 64) by lia.
      rewrite Z_mod_plus_full, Z.mod_small; lia. }
  split.
  - intros (y & Hy & _ & Hn) H. assert (y = x0) as -> by congruence. tauto.
  - intros Hn. exists x0. split_and!; tauto.
Qed.

Lemma shade_mono (Q' : Z -> Prop) c st :
  shade_inv c [] -> (forall v, tainted v -> Q' v) ->
  (forall v r, (v, r) ∈ st -> r = 0 /\ exists x0, c0 !! v = Some x0 /\ (v_blocked x0 = true -> reached v /\ Q' v)) ->
  CycleScan.shade_inv d0 root Q' c st.
Proof.
  intros [I1 I2 I3 I4 I5 I6] HQ Hst. split; [done|done| | | |].
  - intros v x x0 Hv Hv0. specialize (I3 v x x0 Hv Hv0). destruct (v_blocked x); [|done].
    assert (pend st v = 0) as ->; [|done]. clear -Hst. induction st as [|[u r] st IH]; [done|].
    rewrite pend_cons, IH by (intros w s Hw; apply Hst; by right).
    destruct (Hst u r ltac:(left)) as [-> _]. by case_decide.
  - intros u w Hu Hc He. destruct (I4 u w Hu Hc He) as [?|Hin]; [by left|]. cbn in Hin. by apply elem_of_nil in Hin.
  - intros v r Hv. by apply Hst in Hv as [_ ?].
  - intros v Hv Hc. apply HQ. by apply I6.
Qed.

Lemma white_size d1 s st : white_inv d1 s st -> Z.of_nat (size (d_cells (fst s))) <= INT32_MAX.
Proof.
  intros Hw. rewrite <- (map_size_fmap frame). pose proof (sh_same _ _ _ _ _ (wi_shade _ _ _ Hw)) as E.
  unfold same in E. rewrite E, map_size_fmap. done.
Qed.

Lemma mark_white_external d1 d count v r st x :
  white_inv d1 (d, count) ((v, r) :: st) -> d_cells d !! v = Some x -> v_color x = COLOR_GREY -> 0 < v_rc x ->
  exists d' n, scan_black d v 0 = Ret (d', n) /\ white_inv d1 (d', count - n) st /\
    refs_left is_grey (d_cells d') <= refs_left is_grey (d_cells d).
Proof.
  intros Hi Hv Hc Hrc. pose proof Hi as [I1 I2 I3 I4 I5 I6 I7 I8 I9]. cbn [fst snd] in *.
  assert (v_color x <> COLOR_BLACK) as Hnb by congruence.
  destruct (shade_rc _ v x I2 Hv Hnb) as (x0 & Hv0 & Hb & HvG & _).
  assert (tainted v) as Ht.
  { exists v. split; [|done]. apply (external_rc _ v x I2 Hv Hnb). lia. }
  destruct (scan_black_ok d0 root G0 tainted tainted_step R0 d v) as (d' & n & E & Ed & Ep & Hrun & Hvb & Hleft).
  { by apply (white_size d1 (d, count) ((v, r) :: st)). }
  { apply shade_mono; [done|done|]. intros w s Hw. apply list_elem_of_singleton in Hw as [= -> ->].
    split; [done|]. exists x0. split; [done|]. intros _. split; [by apply HG|done]. }
  exists d', n. split; [done|]. split; [|done]. destruct Hrun as [J1 J2 J3 J4]. cbn [fst snd] in *.
  assert (forall w k, k <> COLOR_BLACK -> colored (d_cells d') w k -> colored (d_cells d) w k) as Hback.
  { intros w k Hk (y & Hy & Ey). destruct (J2 w y Hy ltac:(congruence)) as (z & Hz & Ez).
    exists z. split; [done|]. rewrite Ez in Ey. done. }
  split; cbn [fst snd]; try done.
  - rewrite Ed at 1. rewrite I1. done.
  - by eapply same_fields_trans.
  - by eapply same_fields_trans.
  - intros w y Hw Hy. destruct (J2 w y Hw ltac:(congruence)) as (z & Hz & Ez). rewrite Ez in Hy |- *.
    exact (I5 w z Hz Hy).
  - intros u w Hu He. destruct (I6 u w (Hback u COLOR_WHITE ltac:(done) Hu) He) as [Hn|Hin].
    + left. intros H. by apply Hn, Hback.
    + cbn in Hin. apply elem_of_cons in Hin as [->|Hin]; [left|by right].
      intros (y & Hy & Ey). destruct Hvb as (z & Hz & Ez). congruence.
  - destruct I7 as [Hn|Hin]; [left; intros H; by apply Hn, Hback|].
    cbn in Hin. apply elem_of_cons in Hin as [->|Hin]; [left|by right].
    intros (y & Hy & Ey). destruct Hvb as (z & Hz & Ez). congruence.
  - lia.
  - intros w s Hw. apply (I9 w s). by right.
Qed.

Lemma mark_white_internal d1 d count v r st x :
  white_inv d1 (d, count) ((v, r) :: st) -> d_cells d !! v = Some x -> v_color x = COLOR_GREY -> v_rc x = 0 ->
  let d' := put_view d v (set_v_color COLOR_WHITE x) in
  white_inv d1 (d', count + 1) (rev (references d' v) ++ st) /\ count + 1 <= INT32_MAX.
Proof.
  intros Hi Hv Hc Hrc. pose proof Hi as [I1 I2 I3 I4 I5 I6 I7 I8 I9]. cbn [fst snd] in *.
  set (x' := set_v_color COLOR_WHITE x). assert (v_color x <> COLOR_BLACK) as Hnb by congruence.
  destruct (shade_rc _ v x I2 Hv Hnb) as (x0 & Hv0 & Hb & HvG & _).
  assert (not_black x' = not_black x) as Enb by (unfold not_black; by rewrite Hc).
  assert (is_white x = false) as Ew by (unfold is_white; by rewrite Hc).
  assert (forall w, colored (d_cells (put_view d v x')) w COLOR_BLACK <-> colored (d_cells d) w COLOR_BLACK) as Hbl.
  { intros w. rewrite put_view_cells. destruct (decide (w = v)) as [->|Hn]; [|by rewrite colored_insert_ne].
    rewrite colored_insert. split; [done|]. intros (y & Hy & Ey). congruence. }
  assert (whites (d_cells (put_view d v x')) = count + 1) as Ewh.
  { rewrite put_view_cells, (whites_update _ _ x), Ew, I8 by done. change (is_white x') with true. cbn [Z.b2z]. lia. }
  cbn zeta. rewrite (references_put d v x) by done.
  assert (white_inv d1 (put_view d v x', count + 1) (rev (enum (v_map x)) ++ st)) as Hw.
  { split; cbn [fst snd]; try done.
    - rewrite I1 at 1. done.
    - destruct I2 as [J1 J2 J3 J4 J5 J6]. split; [by eapply same_insert| | | |done|].
      + intros w y Hw Hy. rewrite put_view_cells in Hw.
        apply lookup_insert_Some in Hw as [[<- <-]|[Hn Hw]]; by eapply J2.
      + intros w y y0 Hw Hy0.
        rewrite put_view_cells, (flow_update _ _ _ x), Enb, Z.sub_diag, Z.mul_0_l, Z.add_0_r by done.
        rewrite put_view_cells in Hw.
        apply lookup_insert_Some in Hw as [[<- <-]|[Hn Hw]]; [exact (J3 v x y0 Hv Hy0)|by apply J3].
      + intros u w Hu. rewrite !Hbl. by apply J4.
      + intros w Hw. rewrite Hbl. by apply J6.
    - by eapply same_insert.
    - by eapply same_insert.
    - intros w y Hw Hy. rewrite put_view_cells in Hw.
      apply lookup_insert_Some in Hw as [[<- <-]|[Hn Hw]]; [done|by apply (I5 w)].
    - intros u w Hu He. rewrite put_view_cells in *. destruct (decide (w = v)) as [->|Hwv].
      { left. rewrite colored_insert. done. }
      rewrite colored_insert_ne by done. destruct (decide (u = v)) as [->|Huv].
      + right. rewrite fmap_app. apply elem_of_app. left. destruct He as (y & z & Hy & _ & _ & _ & [s Hs]).
        assert (y = x0) as -> by congruence. apply list_elem_of_fmap. exists (w, s). split; [done|].
        apply elem_of_references.
        destruct (same_lookup _ _ _ v x (sh_same _ _ _ _ _ I2) Hv) as (x1 & Hx1 & Fx).
        apply frame_inv in Fx as (_ & _ & _ & ?). congruence.
      + rewrite colored_insert_ne in Hu by done. destruct (I6 u w Hu He) as [?|Hin]; [by left|right].
        cbn in Hin. apply elem_of_cons in Hin as [->|Hin]; [done|]. rewrite fmap_app. apply elem_of_app. by right.
    - rewrite put_view_cells. destruct (decide (root = v)) as [->|Hn]; [left; by rewrite colored_insert|].
      rewrite colored_insert_ne by done. destruct I7 as [?|Hin]; [by left|right].
      cbn in Hin. apply elem_of_cons in Hin as [->|Hin]; [done|]. rewrite fmap_app. apply elem_of_app. by right.
    - intros w s Hw. apply elem_of_app in Hw as [Hw|Hw]; [|apply (I9 w s); by right].
      apply elem_of_references in Hw.
      destruct (same_lookup _ _ _ v x (sh_same _ _ _ _ _ I2) Hv) as (x1 & Hx1 & Fx).
      apply frame_inv in Fx as (_ & _ & _ & Hm).
      apply (gk_refs _ G0 v x1 w s); [done|congruence]. }
  split; [exact Hw|]. pose proof (white_size _ _ _ Hw) as Hs. cbn [fst] in Hs.
  pose proof (whites_bound (d_cells (put_view d v x'))). lia.
Qed.

Lemma mark_white_step d1 d count v r st :
  white_inv d1 (d, count) ((v, r) :: st) -> exists follow s',
  mark_white v r (d, count) = Ret (follow, s') /\ 0 <= refs_left is_grey (d_cells (fst s')) /\
  white_inv d1 s' (if follow : bool then rev (references (fst s') v) ++ st else st) /\
  refs_left is_grey (d_cells (fst s')) + (if follow then Z.of_nat (length (references (fst s') v)) else 0) <=
    refs_left is_grey (d_cells d).
Proof.
  intros Hi. destruct (wi_stack _ _ _ Hi v r ltac:(left)) as [x0 Hv0].
  pose proof (wi_shade _ _ _ Hi) as Hs. cbn [fst] in Hs.
  destruct (same_lookup _ _ _ v x0 (same_sym _ _ _ (sh_same _ _ _ _ _ Hs)) Hv0) as (x & Hv & _).
  unfold mark_white, view_at. rewrite Hv. cbn [mbind outcome_bind].
  destruct (decide (v_color x = COLOR_GREY)) as [Ec|Ec];
    [rewrite bool_decide_eq_true_2|rewrite bool_decide_eq_false_2];
    try done; cbn [negb].
  2: { exists false, (d, count). split_and!; [done|apply refs_left_nonneg| |cbn; lia].
    destruct Hi as [I1 I2 I3 I4 I5 I6 I7 I8 I9]. split; try done.
    - intros u w Hu He. destruct (I6 u w Hu He) as [?|Hin]; [by left|]. cbn in Hin.
      apply elem_of_cons in Hin as [->|Hin]; [left|by right]. intros (y & Hy & Ey). cbn in Hy. congruence.
    - destruct I7 as [?|Hin]; [by left|]. cbn in Hin. apply elem_of_cons in Hin as [->|Hin]; [left|by right].
      intros (y & Hy & Ey). cbn in Hy. congruence.
    - intros w s Hw. apply (I9 w s). by right. }
  destruct (shade_rc _ v x Hs Hv ltac:(congruence)) as (x1 & Hx1 & Hb & HvG & Hrc). rewrite Hb. cbn [negb].
  assert (x1 = x0) as -> by congruence. pose proof (u64_range (v_rc x0 - flow_in G c0 v)) as Hu. rewrite <- Hrc in Hu.
  destruct (Z.ltb_spec 0 (v_rc x)) as [Hp|Hp].
  - destruct (mark_white_external d1 d count v r st x Hi Hv Ec Hp) as (d' & n & E & Hi' & Hleft). rewrite E.
    cbn [mbind outcome_bind]. exists false, (d', count - n). split_and!; [done|apply refs_left_nonneg|done|cbn; lia].
  - assert (v_perceived x = NULL) as ->.
    { rewrite (same_both v_perceived (d_cells d) c0 v x x0 (wi_perceived _ _ _ Hi) Hv Hv0). by apply (P0 v), HG. }
    rewrite Z.eqb_refl. unfold is_u64 in Hu.
    destruct (mark_white_internal d1 d count v r st x Hi Hv Ec ltac:(lia)) as [Hi' Hcount].
    rewrite int32_ok by done. cbn [mbind outcome_bind]. eexists true, _.
    split_and!; [done|apply refs_left_nonneg|exact Hi'|]. cbn [fst].
    rewrite (references_put d v x), length_references, put_view_cells, (refs_left_update _ _ _ x) by done.
    change (is_grey (set_v_color COLOR_WHITE x)) with false. unfold is_grey.
    rewrite Ec, bool_decide_eq_true_2 by done.
    cbn [Z.b2z]. lia.
Qed.

(** What is left white. *)
Record white_result (d1 d : detector_t) (count : Z) : Prop := {
  wr_rest : d = set_cells (d_cells d) d1;
  wr_shade : shade_inv (d_cells d) [];
  wr_perceived : same v_perceived (d_cells d) c0;
  wr_deferred : same v_deferred (d_cells d) (d_cells d1);
  wr_white v : colored (d_cells d) v COLOR_WHITE <-> v ∈ G /\ ~ tainted v;
  wr_black v : v ∈ G -> colored (d_cells d) v COLOR_BLACK <-> tainted v;
  wr_color v x : d_cells d !! v = Some x -> v_color x <> COLOR_GREY;
  wr_count : count = whites (d_cells d)
}.

Lemma white_inv_end d1 d count : white_inv d1 (d, count) [] -> white_result d1 d count.
Proof.
  intros [I1 I2 I3 I4 I5 I6 I7 I8 I9]. cbn [fst snd] in *.
  assert (forall A (x : A), ~ x ∈ []) as Hnil by (intros A x H; by apply elem_of_nil in H).
  assert (forall v, reached v -> ~ colored (d_cells d) v COLOR_GREY) as Hng.
  { apply rtc_follow; [destruct I7 as [?|H]; [done|by apply Hnil in H]|]. intros u v Hu He IH.
    pose proof He as (x0 & _ & Hx0 & _).
    destruct (same_lookup _ _ _ u x0 (same_sym _ _ _ (sh_same _ _ _ _ _ I2)) Hx0) as (x & Hx & _).
    destruct (v_color x) eqn:Ex.
    - destruct (sh_closed _ _ _ _ _ I2 u v Hu ltac:(by exists x) He) as [(z & Hz & Ez)|H]; [|by apply Hnil in H].
      intros (z' & Hz' & Ez'). congruence.
    - destruct (IH ltac:(by exists x)).
    - destruct (I6 u v ltac:(by exists x) He) as [?|H]; [done|by apply Hnil in H]. }
  assert (forall u, external u -> colored (d_cells d) u COLOR_BLACK) as Hext.
  { intros u Hu. pose proof Hu as (x0 & Hx0 & HuG & _).
    destruct (same_lookup _ _ _ u x0 (same_sym _ _ _ (sh_same _ _ _ _ _ I2)) Hx0) as (x & Hx & _).
    exists x. split; [done|]. destruct (v_color x) eqn:Ex; [done| |].
    - destruct (Hng u); [by apply HG|by exists x].
    - apply (external_rc _ u x I2 Hx ltac:(congruence)) in Hu. destruct Hu. by apply (I5 u). }
  assert (forall v, tainted v -> reached v /\ colored (d_cells d) v COLOR_BLACK) as Htaint.
  { intros v (u & Hu & Hv). pose proof Hu as (x0 & _ & HuG & _). apply HG in HuG.
    revert v Hv. apply rtc_follow; [split; [done|by apply Hext]|]. intros w v Hw He [Hr Hc].
    split; [by eapply rtc_r|]. destruct (sh_closed _ _ _ _ _ I2 w v Hr Hc He) as [?|H]; [done|by apply Hnil in H]. }
  split; try done.
  - intros v. split.
    + intros (x & Hx & Ex). pose proof (sh_color _ _ _ _ _ I2 v x Hx ltac:(congruence)). split; [by apply HG|].
      intros [_ (y & Hy & Ey)]%Htaint. congruence.
    + intros [HvG Hn]. apply HG in HvG. destruct (reached_live v HvG) as (x0 & Hx0 & _).
      destruct (same_lookup _ _ _ v x0 (same_sym _ _ _ (sh_same _ _ _ _ _ I2)) Hx0) as (x & Hx & _).
      exists x. split; [done|]. destruct (v_color x) eqn:Ex; [|destruct (Hng v HvG); by exists x|done].
      destruct Hn. apply (sh_black _ _ _ _ _ I2 v HvG). by exists x.
  - intros v HvG. split; [apply (sh_black _ _ _ _ _ I2 v); by apply HG|]. by intros [_ ?]%Htaint.
  - intros v x Hx Ex. apply (Hng v); [|by exists x]. apply (sh_color _ _ _ _ _ I2 v x Hx). congruence.
Qed.

Lemma scan_white_ok d1 :
  white_inv d1 (d1, 0) [(root, 0)] ->
  exists d count, scan_white d1 root = Ret (d, count) /\ white_result d1 d count.
Proof.
  intros Hi. destruct (scan_rule fst mark_white (white_inv d1) (fun s => refs_left is_grey (d_cells (fst s)))) with
    (fuel := scan_fuel d1) (st := [(root, 0)]) (s := (d1, 0)) as ([d count] & E & Hw).
  - intros [d count] v r st. apply mark_white_step.
  - done.
  - cbn [length fst]. apply (scan_fuel_enough is_grey d1).
  - apply refs_left_nonneg.
  - exists d, count. split; [exact E|]. by apply white_inv_end.
Qed.

(** After the grey scan all reached views are grey. *)
Lemma grey_white d1 : grey_inv d0 root d1 [] -> white_inv d1 (d1, 0) [(root, 0)].
Proof.
  intros [I1 I2 I3 I4 I5 I6 I7 I8 I9].
  assert (forall A (x : A), ~ x ∈ []) as Hnil by (intros A x H; by apply elem_of_nil in H).
  assert (forall v, reached v -> colored (d_cells d1) v COLOR_GREY) as Hgrey.
  { apply rtc_follow; [destruct I9 as [?|H]; [done|by apply Hnil in H]|]. intros u v Hu He IH.
    destruct (I8 u v IH He) as [?|H]; [done|by apply Hnil in H]. }
  assert (forall v, reached v -> ~ colored (d_cells d1) v COLOR_BLACK) as Hnb.
  { intros v Hv (x & Hx & Ex). destruct (Hgrey v Hv) as (y & Hy & Ey). congruence. }
  assert (forall v x, d_cells d1 !! v = Some x -> is_grey x = not_black x) as Egn.
  { intros v x Hx. unfold is_grey, not_black. destruct (I3 v x Hx) as [->|(-> & _)]; done. }
  assert (forall v x, d_cells d1 !! v = Some x -> v_color x <> COLOR_WHITE) as Hnw.
  { intros v x Hx. destruct (I3 v x Hx) as [->|(-> & _)]; done. }
  split; cbn [fst snd].
  - by destruct d1.
  - split.
    + by apply frame_p_frame.
    + intros v x Hx Hc. destruct (I3 v x Hx) as [?|(_ & _ & _ & ?)]; done.
    + intros v x x0 Hx Hx0. specialize (I4 v x x0 Hx Hx0). destruct (v_blocked x); [|done].
      rewrite I4. change (pend [] v) with 0. rewrite Z.sub_0_r, Z.add_0_r. do 2 f_equal. unfold flow.
      apply sum_map_ext. intros u y Hu. by rewrite (Egn u y Hu).
    + intros u w Hu Hc. by apply Hnb in Hc.
    + intros v r Hv. by apply Hnil in Hv.
    + intros v Hv Hc. by apply Hnb in Hc.
  - unfold same. apply map_eq. intros v. pose proof (f_equal (fun m => m !! v) I2) as H. cbn in H.
    rewrite !lookup_fmap in *. destruct (d_cells d1 !! v), (c0 !! v); cbn in *; try done. unfold frame_p in H.
    congruence.
  - done.
  - intros v x Hx Ex. by apply Hnw in Hx.
  - intros u w (x & Hx & Ex). by apply Hnw in Hx.
  - right. left.
  - unfold whites. symmetry. apply sum_map_zero. intros v x Hx. pose proof (Hnw v x Hx). unfold is_white.
    by rewrite bool_decide_eq_false_2.
  - intros v r Hv. apply list_elem_of_singleton in Hv as [= -> ->]. destruct R0 as (x & Hx & _). by exists x.
Qed.
End white.

(** ** Collecting *)
Section collect_white.
Context `{EN : Enumeration}.
Context (d0 : detector_t) (root : Z) (G0 : graph_ok (d_cells d0)).
Abbreviation c0 := (d_cells d0).
Abbreviation reached := (reached d0 root).
Context (R0 : exists x0, c0 !! root = Some x0 /\ v_blocked x0 = true).
Context (d2 : detector_t) (token per : Z).
Abbreviation c2 := (d_cells d2).
Context (S2 : Z.of_nat (size c2) <= INT32_MAX).
Context (W2 : forall v x, c2 !! v = Some x -> v_color x = COLOR_WHITE ->
  v_deferred x = false /\ v_perceived x = NULL).
Context (A2 : forall v w x y, c2 !! v = Some x -> c2 !! w = Some y -> v_color x = COLOR_WHITE ->
  v_color y = COLOR_WHITE ->
  v_actor x = v_actor y -> v = w).
Abbreviation black_run := (black_run d0 root (fun _ => True) c2).

(** The members of the cycle so far are the white views that have turned black. *)
Record members (c : gmap Z view_t) (m : gmap Z Z) : Prop := {
  me_in a v : m !! a = Some v <->
    exists x, c !! v = Some x /\ v_actor x = a /\ v_color x = COLOR_BLACK /\ colored c2 v COLOR_WHITE;
  me_perceived v x : c !! v = Some x -> exists y, c2 !! v = Some y /\ v_actor x = v_actor y /\
    v_perceived x = if is_white y && negb (not_black x) then per else v_perceived y
}.

Record collect_run (s : detector_t * Z) (st : list (Z * Z)) : Prop := {
  cr_black : black_run s st;
  cr_rest : fst s = set_pers (d_pers (fst s)) (set_cells (d_cells (fst s)) d2);
  cr_members : exists m, d_pers (fst s) = <[per := mk_perceived token 0 m]> (d_pers d2) /\
    members (d_cells (fst s)) m /\ Z.of_nat (size m) = snd s;
  cr_root : colored (d_cells (fst s)) root COLOR_BLACK \/ root ∈ st.*1
}.

Lemma not_black_false x : not_black x = false <-> v_color x = COLOR_BLACK.
Proof. unfold not_black. rewrite negb_false_iff, bool_decide_eq_true. done. Qed.
Lemma is_white_true x : is_white x = true <-> v_color x = COLOR_WHITE.
Proof. unfold is_white. by rewrite bool_decide_eq_true. Qed.

(** A view that turns black is a new member if it was white. *)
Lemma members_step c m v x x' y :
  members c m -> c !! v = Some x -> c2 !! v = Some y -> v_actor x' = v_actor x -> v_color x' = COLOR_BLACK ->
  (v_color x <> COLOR_BLACK -> v_color x = v_color y) ->
  v_perceived x' = (if is_white x then per else v_perceived x) ->
  members (<[v := x']> c) (if is_white x then <[v_actor x := v]> m else m) /\
  Z.of_nat (size (if is_white x then <[v_actor x := v]> m else m)) = Z.of_nat (size m) + Z.b2z (is_white x).
Proof.
  intros [I1 I2] Hv Hy Ha Hc Hkept Hp.
  destruct (I2 v x Hv) as (y' & Hy' & Exy & Ep). assert (y' = y) as -> by congruence.
  assert (is_white x = true -> is_white y = true) as Hxy.
  { rewrite !is_white_true. intros Ex. rewrite <- Hkept; congruence. }
  assert (is_white x = false -> is_white y = true -> v_color x = COLOR_BLACK) as Hxb.
  { intros Ex Ey. destruct (decide (v_color x = COLOR_BLACK)) as [?|Hn]; [done|].
    assert (is_white x = true) by (apply is_white_true; rewrite Hkept by done; by apply is_white_true). congruence. }
  assert (is_white x = true -> m !! v_actor x = None) as Hnew.
  { intros Ex. destruct (m !! v_actor x) as [w|] eqn:E;
      [|done]. apply I1 in E as (z & Hz & Ez & Ecz & (z2 & Hz2 & Ecz2)).
    destruct (I2 w z Hz) as (z2' & Hz2' & Eaz & _). assert (z2' = z2) as -> by congruence.
    assert (v = w) as <- by (apply (A2 v w y z2); [done|done|by apply is_white_true, Hxy|done|congruence]).
    apply is_white_true in Ex. congruence. }
  split; [split|].
  - intros a w. transitivity ((w = v /\ a = v_actor x /\ is_white y = true) \/
      (w <> v /\ exists x, c !! w = Some x /\ v_actor x = a /\ v_color x = COLOR_BLACK /\ colored c2 w COLOR_WHITE)).
    + destruct (is_white x) eqn:Ex.
      * rewrite lookup_insert_Some, I1. split.
        -- intros [[<- <-]|[Hn (z & Hz & Ez & Ec & Hw)]]; [left; auto|right]. split; [|by exists z].
           intros ->. apply is_white_true in Ex. congruence.
        -- intros [(-> & -> & _)|[Hn (z & Hz & Ez & Ec & Hw)]]; [by left|right].
           split; [|by exists z]. intros <-. rewrite <- Ez in Hnew. specialize (Hnew eq_refl).
           assert (m !! v_actor z = Some w) as E by (apply I1; by exists z). congruence.
      * rewrite I1. split.
        -- intros (z & Hz & Ez & Ec & Hw).
           destruct (decide (w = v)) as [->|Hn]; [left|right; split; [done|by exists z]].
           split_and!; [done|congruence|]. destruct Hw as (y1 & Hy1 & E1). apply is_white_true. congruence.
        -- intros [(-> & -> & Ey)|[_ ?]]; [|done]. exists x. split_and!; [done|done|by apply Hxb|].
           exists y. split; [done|by apply is_white_true].
    + split.
      * intros [(-> & -> & Ey)|[Hn (z & Hz & ?)]].
        -- exists x'. rewrite lookup_insert_eq. split_and!; try done. exists y. split; [done|by apply is_white_true].
        -- exists z. by rewrite lookup_insert_ne.
      * intros (z & Hz & Ez & Ec & Hw). apply lookup_insert_Some in Hz as [[<- <-]|[Hn Hz]].
        -- left. split_and!; [done|congruence|]. destruct Hw as (y1 & Hy1 & E1). apply is_white_true. congruence.
        -- right. split; [done|by exists z].
  - intros w z Hz. apply lookup_insert_Some in Hz as [[<- <-]|[Hn Hz]]; [|by apply I2].
    exists y. split_and!; [done|congruence|]. rewrite Hp. rewrite (proj2 (not_black_false x') Hc). cbn.
    rewrite andb_true_r.
    destruct (is_white x) eqn:Ex; [by rewrite Hxy|]. rewrite Ep.
    destruct (is_white y) eqn:Ey; cbn; [|done]. by rewrite (proj2 (not_black_false x) (Hxb eq_refl eq_refl)).
  - destruct (is_white x); cbn [Z.b2z]; [|lia]. rewrite map_size_insert_None by auto. lia.
Qed.

Lemma always_step (u w : Z) : True -> edge c0 u w -> True.
Proof. done. Qed.

Lemma black_run_cells d d' n st : d_cells d = d_cells d' -> black_run (d, n) st -> black_run (d', n) st.
Proof. intros E [I1 I2 I3 I4]. cbn [fst snd] in *. rewrite E in *. done. Qed.

(** The start of [collect_view]: the view is added to the cycle when it is white. *)
Lemma collect_view_white d n v r st x m :
  collect_run (d, n) ((v, r) :: st) -> d_cells d !! v = Some x ->
    d_pers d = <[per := mk_perceived token 0 m]> (d_pers d2) ->
  let d' := set_pers (<[per := mk_perceived token 0 (<[v_actor x := v]> m)]> (d_pers d2))
    (put_view d v (set_v_perceived per x)) in
  v_color x = COLOR_WHITE ->
  collect_view per v r (d, n) = mark_black v r (d', n) /\ black_run (d', n) ((v, r) :: st).
Proof.
  intros [I1 I2 (m' & Em & [_ Hp] & _) I4] Hv Ed d' Ec. cbn [fst snd] in *.
  destruct (br_kept _ _ _ _ _ _ I1 v x Hv ltac:(congruence)) as (y & Hy & Ex).
  assert (v_color y = COLOR_WHITE) as Ey by (rewrite Ex in Ec; exact Ec).
  destruct (W2 v y Hy Ey) as [Wd Wp].
  assert (v_deferred x = false) as Exd.
  { rewrite (same_both v_deferred (d_cells d) c2 v x y (br_deferred _ _ _ _ _ _ I1) Hv Hy). done. }
  assert (v_perceived x = NULL) as Exp.
  { destruct (Hp v x Hv) as (y' & Hy' & _ & ->). assert (y' = y) as -> by congruence.
    assert (not_black x = true) as -> by (apply not_black_spec; congruence). by rewrite andb_false_r. }
  split.
  - unfold collect_view, view_at. rewrite Hv. cbn [mbind outcome_bind]. rewrite decide_True, Exd, Exp by done.
    cbn [orb negb].
    rewrite Z.eqb_refl. cbn [negb]. unfold per_of. rewrite Ed, lookup_insert_eq.
    cbn [mbind outcome_bind per_token per_ack per_map].
    rewrite insert_insert_eq. done.
  - apply (black_run_cells (put_view d v (set_v_perceived per x))); [done|]. by apply black_run_perceived.
Qed.

Lemma collect_view_step d n v r st :
  collect_run (d, n) ((v, r) :: st) -> exists follow s',
  collect_view per v r (d, n) = Ret (follow, s') /\ 0 <= refs_left not_black (d_cells (fst s')) /\
  collect_run s' (if follow : bool then rev (references (fst s') v) ++ st else st) /\
  refs_left not_black (d_cells (fst s')) + (if follow then Z.of_nat (length (references (fst s') v)) else 0) <=
    refs_left not_black (d_cells d).
Proof.
  intros Hi. pose proof Hi as [I1 I2 (m & Em & Hm & Hsize) I4]. cbn [fst snd] in *.
  destruct (sh_stack _ _ _ _ _ (br_shade _ _ _ _ _ _ I1) v r ltac:(left)) as (x0 & Hv0 & _).
  destruct (same_lookup _ _ _ v x0 (same_sym _ _ _ (sh_same _ _ _ _ _ (br_shade _ _ _ _ _ _ I1))) Hv0) as (x & Hv &
    _).
  cbn [fst] in Hv. destruct (me_perceived _ _ Hm v x Hv) as (y & Hy & Exy & _).
  assert (v_color x <> COLOR_BLACK -> v_color x = v_color y) as Hkept.
  { intros Hn. destruct (br_kept _ _ _ _ _ _ I1 v x Hv Hn) as (y' & Hy' & Ex). assert (y' = y) as -> by congruence.
    by rewrite Ex. }
  set (x1 := if is_white x then set_v_perceived per x else x).
  set (m1 := if is_white x then <[v_actor x := v]> m else m).
  set (d1 := set_pers (<[per := mk_perceived token 0 m1]> (d_pers d2)) (put_view d v x1)).
  assert (collect_view per v r (d, n) = mark_black v r (d1, n) /\ black_run (d1, n) ((v, r) :: st)) as [E Hrun].
  { subst d1 x1 m1. destruct (is_white x) eqn:Ew.
    - apply (collect_view_white d n v r st x m Hi Hv Em). by apply is_white_true.
    - assert (set_pers (<[per := mk_perceived token 0 m]> (d_pers d2)) (put_view d v x) = d) as ->.
      { unfold put_view, set_pers. cbn. rewrite insert_id, <- Em by done. by destruct d. }
      split; [|done]. unfold collect_view, view_at. rewrite Hv. cbn [mbind outcome_bind].
      rewrite decide_False; [done|]. rewrite <- is_white_true. congruence. }
  destruct (mark_black_step d0 root G0 (fun _ => True) always_step R0 c2 d1 n v r st S2 Hrun)
    as (follow & x2 & x' & E' & Hv2 & Hc & Hp & Hrun' & Hpot).
  assert (d_cells d1 = <[v := x1]> (d_cells d)) as Ed1 by done.
  assert (x2 = x1) as -> by (rewrite Ed1, lookup_insert_eq in Hv2; congruence).
  assert (is_white x1 = is_white x) as Ew by (subst x1; by destruct (is_white x) eqn:?).
  assert (refs_left not_black (d_cells d1) = refs_left not_black (d_cells d)) as Eleft.
  { assert (v_map x1 = v_map x) as Hmx by (subst x1; by destruct (is_white x)).
    rewrite Ed1, (refs_left_update _ _ _ x) by done.
    assert (not_black x1 = not_black x) as -> by (subst x1; by destruct (is_white x)). rewrite Z.sub_diag. lia. }
  assert (v_actor x' = v_actor x) as Ha.
  { assert (d_cells (put_view d1 v x') !! v = Some x') as Hx' by (rewrite put_view_cells; apply lookup_insert_eq).
    pose proof (same_both _ _ _ _ _ _ (sh_same _ _ _ _ _ (br_shade _ _ _ _ _ _ Hrun')) Hx' Hv0) as F1.
    pose proof (same_both _ _ _ _ _ _ (sh_same _ _ _ _ _ (br_shade _ _ _ _ _ _ I1)) Hv Hv0) as F2.
    apply frame_inv in F1 as [? _]. apply frame_inv in F2 as [? _]. congruence. }
  destruct (members_step (d_cells d) m v x x' y Hm Hv Hy Ha Hc Hkept) as [Hm' Hsize'].
  { rewrite Hp. subst x1. by destruct (is_white x). }
  exists follow, (put_view d1 v x', n + Z.b2z (is_white x)). rewrite <- Ew at 1. cbn [fst].
  split_and!; [by rewrite E|apply refs_left_nonneg| |by rewrite <- Eleft]. split; cbn [fst snd].
  - by rewrite <- Ew.
  - subst d1. rewrite I2 at 1. done.
  - exists m1. split_and!; [done| |].
    + rewrite put_view_cells, Ed1, insert_insert_eq. exact Hm'.
    + fold m1 in Hsize'. lia.
  - rewrite put_view_cells, Ed1, insert_insert_eq.
    destruct (decide (root = v)) as [->|Hn]; [left; by apply colored_insert|].
    rewrite colored_insert_ne by done. destruct I4 as [?|Hin]; [by left|right]. cbn in Hin.
    apply elem_of_cons in Hin as [->|Hin]; [done|]. destruct follow; [rewrite fmap_app|]; set_solver.
Qed.

Lemma collect_white_ok :
  black_run (d2, 0) [(root, 0)] -> d_pers d2 !! per = Some (mk_perceived token 0 ∅) ->
  exists d n, collect_white d2 per root 0 = Ret (d, n) /\ collect_run (d, n) [].
Proof.
  intros Hb Hp.
  destruct (scan_rule fst (collect_view per) collect_run (fun s => refs_left not_black (d_cells (fst s)))) with
    (fuel := scan_fuel d2) (st := [(root, 0)]) (s := (d2, 0)) as ([d n] & E & Hw).
  - intros [d n] v r st. apply collect_view_step.
  - split; cbn [fst snd]; [done|by destruct d2| |right; left]. exists ∅. split_and!; [by rewrite insert_id| |done].
    split.
    + intros a v. rewrite lookup_empty. split; [done|]. intros (x & Hx & _ & Ec & (y & Hy & Ey)). congruence.
    + intros v x Hx. exists x. split_and!; [done|done|]. unfold is_white, not_black. by destruct (v_color x).
  - cbn [length fst]. apply (scan_fuel_enough not_black d2).
  - apply refs_left_nonneg.
  - by exists d, n.
Qed.

(** At the end all is black. *)
Lemma collect_run_end d n : collect_run (d, n) [] -> forall v x, d_cells d !! v = Some x -> v_color x = COLOR_BLACK.
Proof.
  intros [I1 _ _ I4] v x Hv. cbn [fst] in *. pose proof (br_shade _ _ _ _ _ _ I1) as Hs. cbn [fst] in Hs.
  assert (forall A (x : A), ~ x ∈ []) as Hnil by (intros A z H; by apply elem_of_nil in H).
  assert (forall v, reached v -> colored (d_cells d) v COLOR_BLACK) as Hall.
  { apply rtc_follow; [destruct I4 as [?|H]; [done|by apply Hnil in H]|]. intros u w Hu He IH.
    destruct (sh_closed _ _ _ _ _ Hs u w Hu IH He) as [?|H]; [done|by apply Hnil in H]. }
  destruct (decide (v_color x = COLOR_BLACK)) as [?|E]; [done|].
  destruct (Hall v (sh_color _ _ _ _ _ Hs v x Hv E)) as (y & Hy & Ey). congruence.
Qed.
End collect_white.

(** ** Detection *)

(** What is needed to scan from a view: the views that it reaches are those of their actors and
    in no cycle yet. *)
Record scannable (d : detector_t) (root : Z) : Prop := {
  sc_graph : graph_ok (d_cells d);
  sc_deferred : deferred_ok d;
  sc_root : exists x, d_cells d !! root = Some x /\ v_blocked x = true;
  sc_reached v x : d_cells d !! v = Some x -> reached d root v ->
    v_perceived x = NULL /\ d_views d !! v_actor x = Some v;
  sc_size : Z.of_nat (size (d_cells d)) <= INT32_MAX
}.

(** The views [G] that are reached, those [W] of them that only such views account for, and
    these by their actors. *)
Record cycle_spec (d : detector_t) (root : Z) (G W : gset Z) (m : gmap Z Z) : Prop := {
  cy_reached v : v ∈ G <-> reached d root v;
  cy_white v : v ∈ W <-> v ∈ G /\ ~ tainted d G v;
  cy_members a v : m !! a = Some v <-> v ∈ W /\ exists x, d_cells d !! v = Some x /\ v_actor x = a
}.

(** The state after the scans: views that were reached are not deferred any more. *)
Definition scanned (G : gset Z) (d : detector_t) : detector_t :=
  set_deferred (filter (fun e => e.2 ∉ G) (d_deferred d))
    (set_cells (map_imap (fun v x => Some (set_v_deferred (v_deferred x && bool_decide (v ∉ G)) x)) (d_cells d)) d).

(** A new cycle, whose members are asked to confirm. *)
Definition perceive `{EN : Enumeration} (W : gset Z) (m : gmap Z Z) (d : detector_t) : detector_t :=
  let per := new_addr (d_pers d) in
  let token := next_token d in
  let d := set_cells (map_imap (fun v x => Some (if decide (v ∈ W) then set_v_perceived per x else x)) (d_cells d)) d
    in
  let d := set_pers (<[per := mk_perceived token 0 m]> (d_pers d)) d in
  let d := set_perceived (<[token := per]> (d_perceived d)) (set_next_token (token ⊞ 1) (count_events 0 1 0 0 0 d)) in
  add_events ((fun e => CONF e.1 token) <$> enum m) d.

Section detect.
Context `{EN : Enumeration}.

Lemma rest_eq d1 d : rest d1 = rest d -> d1 = set_deferred (d_deferred d1) (set_cells (d_cells d1) d).
Proof. destruct d1, d. unfold rest. cbn. by intros [= -> -> -> -> -> -> -> -> -> -> -> ->]. Qed.

Lemma reached_dom d root : graph_ok (d_cells d) -> (exists x, d_cells d !! root = Some x /\ v_blocked x = true) ->
  forall d1, grey_inv d root d1 [] -> exists G : gset Z, forall v, v ∈ G <-> reached d root v.
Proof.
  intros G0 R0 d1 Hg. exists (dom (filter (fun e => v_color e.2 = COLOR_GREY) (d_cells d1))). intros v.
  assert (forall A (x : A), ~ x ∈ []) as Hnil by (intros A z H; by apply elem_of_nil in H).
  assert (forall v, reached d root v -> colored (d_cells d1) v COLOR_GREY) as Hgrey.
  { apply rtc_follow; [destruct (gi_root _ _ _ _ Hg) as [?|H]; [done|by apply Hnil in H]|]. intros u w Hu He IH.
    destruct (gi_closed _ _ _ _ Hg u w IH He) as [?|H]; [done|by apply Hnil in H]. }
  rewrite elem_of_dom. split.
  - intros [x [Hx Ec]%map_lookup_filter_Some]. cbn in Ec.
    destruct (gi_color _ _ _ _ Hg v x Hx) as [?|(_ & _ & _ & ?)]; [congruence|done].
  - intros (x & Hx & Ec)%Hgrey. exists x. by apply map_lookup_filter_Some.
Qed.

Lemma send_conf_ok d token k m :
  (forall a v, m !! a = Some v -> exists x, d_cells d !! v = Some x /\ v_actor x = a) ->
  send_conf d (mk_perceived token k m) = Ret (add_events ((fun e => CONF e.1 token) <$> enum m) d).
Proof.
  intros Hm. unfold send_conf. cbn [per_map per_token].
  assert (forall e, e ∈ enum m -> exists x, d_cells d !! e.2 = Some x /\ v_actor x = e.1) as He.
  { intros [a v] Hin. rewrite enum_perm, elem_of_map_to_list in Hin. by apply Hm. }
  clear Hm. revert d He. induction (enum m) as [|[a v] l IH]; intros d He; cbn [foldO fmap list_fmap].
  - destruct d. unfold add_events. cbn. by rewrite app_nil_r.
  - destruct (He (a, v) ltac:(left)) as (x & Hx & Ha). cbn [fst snd] in *. unfold view_at. rewrite Hx.
    cbn [mbind outcome_bind].
    rewrite IH; [|intros e Hin; apply He; by right]. f_equal. unfold add_events. cbn. rewrite <- app_assoc, Ha. done.
Qed.

Lemma same_dom {T} (f : view_t -> T) c c0 v : same f c c0 -> c0 !! v = None -> c !! v = None.
Proof.
  intros E Hn. destruct (c !! v) as [x|] eqn:Hx; [|done]. destruct (same_lookup f c c0 v x E Hx) as (y & Hy & _).
  congruence.
Qed.

(** The cells when all is black again. *)
Lemma shade_black_cells d root Q c :
  graph_ok (d_cells d) -> shade_inv d root Q c [] -> (forall v x, c !! v = Some x -> v_color x = COLOR_BLACK) ->
  forall v x x0, c !! v = Some x -> d_cells d !! v = Some x0 ->
  x = set_v_perceived (v_perceived x) (set_v_deferred (v_deferred x) x0).
Proof.
  intros G0 Hs Hb v x x0 Hx Hx0.
  pose proof (same_both _ _ _ _ _ _ (sh_same _ _ _ _ _ Hs) Hx Hx0) as F. apply frame_inv in F as (Fa & Fv & Fb & Fm).
  assert (v_rc x = v_rc x0) as Er.
  { pose proof (sh_rc _ _ _ _ _ Hs v x x0 Hx Hx0) as Hr. destruct (v_blocked x); [|done]. rewrite Hr.
    change (pend [] v) with 0. rewrite flow_none, !Z.sub_0_r, u64_id; [done|by apply (gk_rc _ G0 v)|].
    intros u y Hu. unfold not_black. by rewrite (Hb u y Hu). }
  pose proof (Hb v x Hx) as Ec. pose proof (gk_black _ G0 v x0 Hx0) as Ec0. destruct x, x0. cbn in *. by subst.
Qed.

Section grey_result.
Context (d : detector_t) (root : Z) (G : gset Z) (HG : forall v, v ∈ G <-> reached d root v).
Context (d1 : detector_t) (Hg : grey_inv d root d1 []).

Lemma grey_colors v x : d_cells d1 !! v = Some x -> v_color x = if decide (v ∈ G) then COLOR_GREY else COLOR_BLACK.
Proof.
  intros Hx. assert (forall A (x : A), ~ x ∈ []) as Hnil by (intros A z H; by apply elem_of_nil in H).
  assert (forall v, reached d root v -> colored (d_cells d1) v COLOR_GREY) as Hgrey.
  { apply rtc_follow; [destruct (gi_root _ _ _ _ Hg) as [?|H]; [done|by apply Hnil in H]|]. intros u w Hu He IH.
    destruct (gi_closed _ _ _ _ Hg u w IH He) as [?|H]; [done|by apply Hnil in H]. }
  case_decide as E.
  - apply HG in E. destruct (Hgrey v E) as (y & Hy & Ey). congruence.
  - destruct (gi_color _ _ _ _ Hg v x Hx) as [?|(_ & _ & _ & ?%HG)]; done.
Qed.

Lemma grey_deferred v x x0 :
  d_cells d1 !! v = Some x -> d_cells d !! v = Some x0 -> v_deferred x = v_deferred x0 && bool_decide (v ∉ G).
Proof.
  intros Hx Hx0. pose proof (grey_colors v x Hx) as Ec. case_decide as E.
  - rewrite bool_decide_eq_false_2, andb_false_r by tauto.
    destruct (gi_color _ _ _ _ Hg v x Hx) as [?|(_ & _ & ? & _)]; [congruence|done].
  - rewrite bool_decide_eq_true_2, andb_true_r by done. by apply (gi_deferred _ _ _ _ Hg v).
Qed.

Lemma grey_deferred_table : deferred_ok d -> d_deferred d1 = filter (fun e => e.2 ∉ G) (d_deferred d).
Proof.
  unfold deferred_ok. intros D0. apply map_eq. intros a. apply option_eq. intros v.
  rewrite map_lookup_filter_Some. cbn. rewrite D0. pose proof (gi_table _ _ _ _ Hg) as D1. unfold deferred_ok in D1.
  rewrite D1.
  pose proof (frame_p_frame _ _ (gi_same _ _ _ _ Hg)) as E. split.
  - intros (x & Hx & Ha & Hd). destruct (same_lookup _ _ _ v x E Hx) as (x0 & Hx0 & [Fa _]%frame_inv).
    rewrite (grey_deferred v x x0 Hx Hx0), andb_true_iff, bool_decide_eq_true in Hd.
    split; [|by destruct Hd]. exists x0. split_and!; [done|congruence|by destruct Hd].
  - intros [(x0 & Hx0 & Ha & Hd) Hn].
    destruct (same_lookup _ _ _ v x0 (same_sym _ _ _ E) Hx0) as (x & Hx & [Fa _]%frame_inv).
    exists x. split_and!; [done|congruence|]. by rewrite (grey_deferred v x x0 Hx Hx0), Hd, bool_decide_eq_true_2.
Qed.
End grey_result.

(** The end of the white scan. *)
Section white_end.
Context (d : detector_t) (root : Z) (Hs : scannable d root).
Context (G : gset Z) (HG : forall v, v ∈ G <-> reached d root v).
Context (d1 : detector_t) (Hg : grey_inv d root d1 []).
Context (dw : detector_t) (count : Z) (Hw : white_result d root G d1 dw count).

Lemma white_deferred v x x0 :
  d_cells dw !! v = Some x -> d_cells d !! v = Some x0 -> v_deferred x = v_deferred x0 && bool_decide (v ∉ G).
Proof.
  intros Hx Hx0. pose proof (wr_deferred _ _ _ _ _ _ Hw) as E.
  destruct (same_lookup _ _ _ v x E Hx) as (y & Hy & ->). by apply (grey_deferred d root G HG d1 Hg).
Qed.

Lemma white_colors v x : d_cells dw !! v = Some x -> v_color x <> COLOR_BLACK -> v_color x = COLOR_WHITE /\ v ∈ G.
Proof.
  intros Hx Hc. assert (v ∈ G) as HvG by (apply HG; by apply (sh_color _ _ _ _ _ (wr_shade _ _ _ _ _ _ Hw) v x)).
  split; [|done]. pose proof (wr_color _ _ _ _ _ _ Hw v x Hx). by destruct (v_color x).
Qed.

Lemma set_perceived_id x : set_v_perceived (v_perceived x) x = x.
Proof. by destruct x. Qed.

(** Without a white view nothing has changed but what is deferred. *)
Lemma detect_nothing : whites (d_cells dw) = 0 -> dw = scanned G d.
Proof.
  intros H0. pose proof (wr_shade _ _ _ _ _ _ Hw) as Hsh. pose proof (sc_graph _ _ Hs) as G0.
  assert (forall v x, d_cells dw !! v = Some x -> v_color x = COLOR_BLACK) as Hb.
  { intros v x Hx. destruct (decide (v_color x = COLOR_BLACK)) as [?|Hn]; [done|].
    apply (white_colors v x Hx) in Hn as [Ew _]. apply is_white_true in Ew.
    pose proof (sum_map_in (fun _ x => Z.b2z (is_white x)) (d_cells dw) v x) as Hin.
    fold (whites (d_cells dw)) in Hin.
    cbn in Hin. rewrite Ew, H0 in Hin. cbn in Hin. exfalso.
    specialize (Hin (fun _ y _ => ltac:(by destruct (is_white y))) Hx). lia. }
  rewrite (wr_rest _ _ _ _ _ _ Hw), (rest_eq d1 d (gi_rest _ _ _ _ Hg)).
  unfold scanned. rewrite (grey_deferred_table d root G HG d1 Hg (sc_deferred _ _ Hs)).
  assert (d_cells dw = map_imap (fun v x => Some (set_v_deferred (v_deferred x && bool_decide (v ∉ G)) x)) (d_cells
    d)) as ->.
  2: { by destruct d. }
  apply map_eq. intros v. rewrite map_lookup_imap. destruct (d_cells d !! v) as [x0|] eqn:Hx0; cbn.
  2: { eapply same_dom; [apply (sh_same _ _ _ _ _ Hsh)|done]. }
  destruct (same_lookup _ _ _ v x0 (same_sym _ _ _ (sh_same _ _ _ _ _ Hsh)) Hx0) as (x & Hx & _). rewrite Hx. f_equal.
  rewrite (shade_black_cells d root _ _ G0 Hsh Hb v x x0 Hx Hx0), (white_deferred v x x0 Hx Hx0).
  rewrite (same_both v_perceived _ _ v x x0 (wr_perceived _ _ _ _ _ _ Hw) Hx Hx0). by destruct x0.
Qed.

(** The white views become a cycle. *)
Definition new_cycle : detector_t :=
  let dw := count_events 0 1 0 0 0 dw in
  let dw := set_next_token (next_token dw ⊞ 1) dw in
  let dw := set_pers (<[new_addr (d_pers dw) := mk_perceived (next_token d) 0 ∅]> (d_pers dw)) dw in
  set_perceived (<[next_token d := new_addr (d_pers d)]> (d_perceived dw)) dw.

Lemma detect_cycle (W : gset Z) : 0 < whites (d_cells dw) ->
  (forall v, v ∈ W <-> colored (d_cells dw) v COLOR_WHITE) ->
  exists d' m, collect_white new_cycle (new_addr (d_pers d)) root 0 = Ret (d', whites (d_cells dw)) /\
  cycle_spec d root G W m /\ Z.of_nat (size m) = whites (d_cells dw) /\
  d_pers d' !! new_addr (d_pers d) = Some (mk_perceived (next_token d) 0 m) /\
  (forall a v, m !! a = Some v -> exists x, d_cells d' !! v = Some x /\ v_actor x = a) /\
  add_events ((fun e => CONF e.1 (next_token d)) <$> enum m) d' = perceive W m (scanned G d).
Proof.
  intros Hcount HW. set (per := new_addr (d_pers d)). set (token := next_token d).
  pose proof (wr_shade _ _ _ _ _ _ Hw) as Hsh. pose proof (sc_graph _ _ Hs) as G0.
  pose proof (rest_eq d1 d (gi_rest _ _ _ _ Hg)) as E1. pose proof (wr_rest _ _ _ _ _ _ Hw) as Ew.
  assert (d_pers dw = d_pers d /\ next_token dw = next_token d) as [Epers _] by (rewrite Ew, E1; done).
  assert (d_pers new_cycle = <[per := mk_perceived token 0 ∅]> (d_pers d)) as Epers2.
  { unfold new_cycle. cbn. by rewrite Epers. }
  assert (forall v x, d_cells dw !! v = Some x ->
    exists x0, d_cells d !! v = Some x0 /\ v_actor x = v_actor x0) as Hback.
  { intros v x Hx. destruct (same_lookup _ _ _ v x (sh_same _ _ _ _ _ Hsh) Hx) as (x0 & Hx0 & [Fa _]%frame_inv).
      by exists x0. }
  destruct (collect_white_ok d root G0 (sc_root _ _ Hs) new_cycle token per) as (d' & n & Ecol & Hrun).
  { cbn. rewrite <- (map_size_fmap frame). pose proof (sh_same _ _ _ _ _ Hsh) as E. unfold same in E.
    rewrite E, map_size_fmap. apply Hs. }
  { intros v x Hx Ex. cbn in Hx. destruct (white_colors v x Hx ltac:(congruence)) as [_ HvG].
    destruct (Hback v x Hx) as (x0 & Hx0 & _).
    rewrite (white_deferred v x x0 Hx Hx0), bool_decide_eq_false_2, andb_false_r by tauto.
    split; [done|]. rewrite (same_both v_perceived _ _ v x x0 (wr_perceived _ _ _ _ _ _ Hw) Hx Hx0).
    apply (sc_reached _ _ Hs v x0 Hx0). by apply HG. }
  { intros v w x y Hx Hy Ex Ey Ea. cbn in Hx,
      Hy. destruct (Hback v x Hx) as (x0 & Hx0 & Fx). destruct (Hback w y Hy) as (y0 & Hy0 & Fy).
    destruct (white_colors v x Hx ltac:(congruence)) as [_ HvG%HG].
    destruct (white_colors w y Hy ltac:(congruence)) as [_ HwG%HG].
    destruct (sc_reached _ _ Hs v x0 Hx0 HvG) as [_ E1']. destruct (sc_reached _ _ Hs w y0 Hy0 HwG) as [_ E2'].
    congruence. }
  { split; cbn [fst snd]; [|intros v x Hx _; exists x; split; [done|by destruct x]|done|by rewrite Z.sub_diag].
    cbn. eapply (shade_mono d root G); [exact Hsh|done|]. intros v r Hv.
    apply list_elem_of_singleton in Hv as [= -> ->].
    split; [done|]. destruct (sc_root _ _ Hs) as (x & Hx & _). exists x. split; [done|]. intros _.
    split; [apply rtc_refl|done]. }
  { rewrite Epers2. apply lookup_insert_eq. }
  pose proof (collect_run_end _ _ _ _ _ _ _ Hrun) as Hall. destruct Hrun as [J1 J2 (m & Em & [M1 M2] & Msize) _].
  cbn [fst snd] in *.
  assert (n = whites (d_cells dw)) as ->.
  { pose proof (br_count _ _ _ _ _ _ J1) as En. cbn [fst snd] in En. rewrite En. change (d_cells new_cycle) with
      (d_cells dw).
    assert (whites (d_cells d') = 0) as ->; [|lia]. apply sum_map_zero. intros v x Hx. unfold is_white.
    by rewrite (Hall v x Hx). }
  pose proof (br_shade _ _ _ _ _ _ J1) as Hsh'. cbn [fst] in Hsh'.
  assert (forall v x0, d_cells d !! v = Some x0 ->
    exists x, d_cells d' !! v = Some x /\ v_actor x = v_actor x0) as Hfwd.
  { intros v x0 Hx0. destruct (same_lookup _ _ _ v x0 (same_sym _ _ _ (sh_same _ _ _ _ _ Hsh')) Hx0) as (x & Hx & [Fa
      _]%frame_inv).
    by exists x. }
  exists d', m. split; [exact Ecol|]. split.
  { split; [done| |].
    - intros v. rewrite HW. apply (wr_white _ _ _ _ _ _ Hw).
    - intros a v. rewrite M1, HW. change (d_cells new_cycle) with (d_cells dw). split.
      + intros (x & Hx & Ha & _ & Hwh). split; [done|].
        destruct (same_lookup _ _ _ v x (sh_same _ _ _ _ _ Hsh') Hx) as (x0 & Hx0 & [Fa _]%frame_inv). exists x0.
        split; congruence.
      + intros [Hwh (x0 & Hx0 & Ha)]. destruct (Hfwd v x0 Hx0) as (x & Hx & Fa). exists x.
        split_and!; [done|congruence|by apply (Hall v)|done]. }
  split_and!; [done|by rewrite Em, lookup_insert_eq| |].
  { intros a v (x & Hx & Ha & _)%M1. by exists x. }
  rewrite J2, Em, Epers2, insert_insert_eq.
  assert (d_cells d' = map_imap (fun v x => Some (if decide (v ∈ W) then set_v_perceived per x else x))
    (map_imap (fun v x => Some (set_v_deferred (v_deferred x && bool_decide (v ∉ G)) x)) (d_cells d))) as ->.
  { apply map_eq. intros v. rewrite !map_lookup_imap. destruct (d_cells d !! v) as [x0|] eqn:Hx0; cbn.
    2: { eapply same_dom; [apply (sh_same _ _ _ _ _ Hsh')|done]. }
    destruct (Hfwd v x0 Hx0) as (x & Hx & _). rewrite Hx. f_equal.
    rewrite (shade_black_cells d root _ _ G0 Hsh' Hall v x x0 Hx Hx0).
    destruct (M2 v x Hx) as (y & Hy & _ & ->). change (d_cells new_cycle) with (d_cells dw) in Hy.
    pose proof (br_deferred _ _ _ _ _ _ J1) as Ed. cbn [fst] in Ed.
    change (d_cells new_cycle) with (d_cells dw) in Ed.
    rewrite (same_both v_deferred _ _ v x y Ed Hx Hy), (white_deferred v y x0 Hy Hx0).
    rewrite (same_both v_perceived _ _ v y x0 (wr_perceived _ _ _ _ _ _ Hw) Hy Hx0).
    rewrite (proj2 (not_black_false x) (Hall v x Hx)), andb_true_r.
    assert (is_white y = bool_decide (v ∈ W)) as ->.
    { apply eq_true_iff_eq. rewrite is_white_true, bool_decide_eq_true, HW. split;
        [by exists y|]. intros (y' & Hy' & ?). congruence. }
    case_decide as Hv; [rewrite bool_decide_eq_true_2|rewrite bool_decide_eq_false_2]; by destruct x0. }
  unfold perceive, scanned, new_cycle. cbn. rewrite <- (grey_deferred_table d root G HG d1 Hg (sc_deferred _ _ Hs)).
  rewrite Ew, E1. cbn. done.
Qed.
End white_end.

Lemma whites_zero c : whites c = 0 <-> forall v, ~ colored c v COLOR_WHITE.
Proof.
  split.
  - intros H v (x & Hx & Ex). apply is_white_true in Ex.
    pose proof (sum_map_in (fun _ x => Z.b2z (is_white x)) c v x) as Hin. fold (whites c) in Hin. cbn in Hin.
    rewrite H, Ex in Hin. cbn in Hin. specialize (Hin (fun _ y _ => ltac:(by destruct (is_white y))) Hx). lia.
  - intros H. apply sum_map_zero. intros v x Hx. destruct (is_white x) eqn:E; [|done].
    apply is_white_true in E. destruct (H v). by exists x.
Qed.

(** [detect] perceives the white views, and changes nothing else. *)
Lemma detect_ok d root : scannable d root -> exists G W m, cycle_spec d root G W m /\
  detect d root = Ret (bool_decide (W <> ∅), if decide (W = ∅) then scanned G d else perceive W m (scanned G d)).
Proof.
  intros Hs. pose proof (sc_graph _ _ Hs) as G0. pose proof (sc_root _ _ Hs) as R0.
  destruct (scan_grey_ok d root G0 (sc_deferred _ _ Hs) R0) as (d1 & Egrey & Hg).
  destruct (reached_dom d root G0 R0 d1 Hg) as [G HG].
  assert (forall v x0, d_cells d !! v = Some x0 -> reached d root v -> v_perceived x0 = NULL) as P0
    by (intros v x0 Hx0 Hv; apply (sc_reached _ _ Hs v x0 Hx0 Hv)).
  destruct (scan_white_ok d root G0 R0 G HG P0 (sc_size _ _ Hs) d1 (grey_white d root R0 G d1 Hg)) as (dw & count &
    Ewhite & Hw).
  set (W := dom (filter (fun e => v_color e.2 = COLOR_WHITE) (d_cells dw)) : gset Z).
  assert (forall v, v ∈ W <-> colored (d_cells dw) v COLOR_WHITE) as HW.
  { intros v. unfold W. rewrite elem_of_dom. split.
    - intros [x [Hx Ec]%map_lookup_filter_Some]. by exists x.
    - intros (x & Hx & Ec). exists x. by apply map_lookup_filter_Some. }
  destruct R0 as (x & Hx & Hb). pose proof (wr_count _ _ _ _ _ _ Hw) as ->.
  pose proof (whites_bound (d_cells dw)) as Hbound.
  assert (detect d root = (if whites (d_cells dw) <? 0 then Abort
    else if whites (d_cells dw) =? 0 then Ret (false, dw)
    else '(d', count2) ← collect_white (new_cycle d dw) (new_addr (d_pers d)) root 0;
      p ← per_of d' (new_addr (d_pers d));
      if (count2 =? whites (d_cells dw)) && (Z.of_nat (size (per_map p)) =? whites (d_cells dw)) then
        d' ← send_conf d' p; Ret (true, d') else Abort)) as ->.
  { unfold detect, view_at. rewrite Hx. cbn [mbind outcome_bind].
    rewrite (P0 root x Hx (rtc_refl _ _)). cbn [negb Z.eqb NULL]. rewrite Egrey. cbn [mbind outcome_bind].
    rewrite Ewhite.
    cbn [mbind outcome_bind]. assert (d_pers dw = d_pers d /\ next_token dw = next_token d) as [Ep Et].
    { rewrite (wr_rest _ _ _ _ _ _ Hw), (rest_eq d1 d (gi_rest _ _ _ _ Hg)). done. }
    unfold new_cycle. cbn. rewrite Ep, Et. done. }
  destruct (Z.ltb_spec (whites (d_cells dw)) 0) as [?|_]; [lia|].
  destruct (Z.eqb_spec (whites (d_cells dw)) 0) as [E0|E0].
  - exists G, ∅, ∅. rewrite bool_decide_eq_false_2, decide_True by tauto. split.
    + split; [done| |].
      * intros v. rewrite <- (wr_white _ _ _ _ _ _ Hw). split; [set_solver|]. intros H. by apply whites_zero in H.
      * intros a v. rewrite lookup_empty. split; [done|]. set_solver.
    + by rewrite (detect_nothing d root Hs G HG d1 Hg dw _ Hw E0).
  - destruct (detect_cycle d root Hs G HG d1 Hg dw _ Hw W ltac:(lia) HW)
      as (d' & m & Ecol & Hspec & Hsize & Hp & Hm & Hd').
    assert (W <> ∅) as HWne.
    { intros E. apply E0, whites_zero. intros v Hv. apply HW in Hv. set_solver. }
    exists G, W, m. split; [done|]. rewrite Ecol. cbn [mbind outcome_bind]. unfold per_of. rewrite Hp.
    cbn [mbind outcome_bind per_map].
    rewrite Hsize, !Z.eqb_refl. cbn [andb]. rewrite send_conf_ok by done. cbn [mbind outcome_bind].
    by rewrite bool_decide_eq_true_2, decide_False, Hd'.
Qed.

(** The members of a cycle have their counts from each other. *)
Lemma cycle_isolated d root G W m v x :
  scannable d root -> cycle_spec d root G W m -> v ∈ W -> d_cells d !! v = Some x ->
  v_blocked x = true /\ v_perceived x = NULL /\ d_views d !! v_actor x = Some v /\
    v_rc x = u64 (flow_in W (d_cells d) v).
Proof.
  intros Hs [HG HW _] Hv Hx. apply HW in Hv as [HvG Hn]. pose proof (proj1 (HG v) HvG) as Hr.
  destruct (reached_live d root (sc_root _ _ Hs) v Hr) as (y & Hy & Hb). assert (y = x) as -> by congruence.
  destruct (sc_reached _ _ Hs v x Hx Hr) as [Hp Hvw]. split_and!; [done..|].
  assert (v_rc x = u64 (flow_in G (d_cells d) v)) as ->.
  { destruct (decide (v_rc x = u64 (flow_in G (d_cells d) v))) as [?|E]; [done|]. destruct Hn. exists v.
    split; [|done]. by exists x. }
  f_equal. unfold flow_in. apply sum_map_ext. intros u z Hu.
  destruct (v_map z !! v) as [r|] eqn:Er; cbn; [|by repeat case_decide].
  assert (u ∈ G -> u ∈ W) as HGW.
  { intros HuG. apply HW. split; [done|]. intros (w & Hw & Hwu). apply Hn. exists w. split; [done|].
    eapply rtc_r; [exact Hwu|]. pose proof (proj1 (HG u) HuG) as Hru.
    destruct (reached_live d root (sc_root _ _ Hs) u Hru) as (z' & Hz' & Hbz). assert (z' = z) as -> by congruence.
    exists z, x. split_and!; try done. }
  assert (u ∈ W -> u ∈ G) by (intros H; by apply HW in H as [? _]). repeat case_decide; tauto.
Qed.
End detect.
