(* ===== verification/CycleSample.v ===== *)
(** * Cycles of two actors ([gc/cycle.c])

    Two actors that refer to each other block, the detector perceives their cycle, asks them to
    confirm and collects it; and the same when one of them unblocks in between. *)
From stdpp Require Import gmap.
From S2P Require Import Hash.
From S2P Require Import Prelude Store ChunkSort Sum ObjectMap Cycle CycleScan CycleDetect.
Local Open Scope Z_scope.
Local Open Scope c_scope.

#[local] Instance list_enum : Enumeration := {
  enum := fun A m => map_to_list m;
  enum_perm := fun A m => Permutation_refl _
}.

(** The places of a table are those of its enumeration. *)
Definition places (m : gmap Z Z) (from : Z) : list (Z * (Z * Z)) :=
  let l := zip (seqZ 0 (Z.of_nat (size m))) (enum m) in
  if from =? HASHMAP_BEGIN then l else drop (Z.to_nat (from + 1)) l.

Definition run (l : list cd_msg) : outcome detector_t := foldO (cycle_dispatch places) new_detector l.

Definition blocked_by (actor other : Z) : cd_msg := BLOCK actor 1 0 (Some {[other := 1]}) [].

(** Each of the two actors has the only reference to the other. *)
Definition both : list cd_msg := [blocked_by 1000 2000; blocked_by 2000 1000; CHECKBLOCKED].

Example cycle_collected :
  (d ← run (both ++ [ACK 0; ACK 0]);
   Ret (events d, dom (d_views d), dom (d_perceived d), destroyed d)) =
  Ret ([CONF 1000 0; CONF 2000 0; FINAL 1000; FINAL 2000; SENDRELEASE 1000; SENDRELEASE 2000;
        DESTROY 1000; DESTROY 2000], ∅, ∅, 2).
Proof. vm_compute. reflexivity. Qed.

(** An actor that unblocks makes the cycle invalid: late confirmations have no effect. *)
Example cycle_expired :
  (d ← run (both ++ [ACK 0; UNBLOCK 2000; ACK 0; CHECKBLOCKED]);
   Ret (events d, dom (d_perceived d), destroyed d)) =
  Ret ([CONF 1000 0; CONF 2000 0; ISBLOCKED 2000], ∅, 0).
Proof. vm_compute. reflexivity. Qed.

(** An actor that a third one refers to is not perceived, and neither is what it refers to. *)
Example cycle_referenced :
  (d ← run [BLOCK 1000 2 0 (Some {[2000 := 1]}) []; blocked_by 2000 1000; CHECKBLOCKED];
   Ret (events d, detected d)) = Ret ([], 0).
Proof. vm_compute. reflexivity. Qed.

(** *** What modelling showed *)

(** The views of a cycle that was collected are never freed: each counts the references of the
    others, which nothing takes back when a view is freed. *)
Lemma collected_views_remain :
  (d ← run (both ++ [ACK 0; ACK 0]); Ret ((fun x => (v_actor x, view_rc x)) <$> (map_to_list (d_cells d)).*2)) =
  Ret [(2000, 1); (1000, 1)].
Proof. vm_compute. reflexivity. Qed.
